(* ===== verification/_CoqProject ===== *)
-Q . S2P
Prelude.v
Decimals.v
Utf8.v
Text.v
Leb128.v
Base32.v
JmapId.v
Keyword.v
Glob.v
Topological.v
Snowflake.v
ImapReceiver.v
ImapSequence.v
ImapCommand.v
ImapSearch.v
Utf7.v
IpMask.v
ExprValue.v
ExprFunctions.v
ExprParser.v
ExprEval.v
ExprTokenizer.v
ExprCompile.v
ChainedBytes.v
VecMap.v
ChangeLog.v
CheekyHash.v
StoreKeys.v
SearchFilter.v
SearchTokens.v
SearchTerms.v
SearchStore.v
ImapQuery.v
Pop3.v
Pop3Session.v
EdgeFrame.v
EdgeSession.v
EdgeRelay.v
EdgeMac.v
Milter.v
SmtpData.v
SmtpQueue.v
SmtpServer.v
SmtpCommands.v
SmtpMessage.v
SmtpSession.v
SmtpLogic.v
SmtpSafety.v
SmtpDemo.v
SmtpReplies.v
SmtpIntake.v
SmtpGuarantees.v
QueueSpool.v
QueueWorkers.v
QueueSystem.v
QueueManager.v
QueueGuarantees.v
OutboundClient.v
OutboundSession.v
OutboundHosts.v
OutboundAttempt.v
OutboundLogic.v
OutboundSafety.v
OutboundAcknowledged.v
OutboundGuarantees.v
OutboundFindings.v
