(* ===== verification/Prelude.v ===== *)
(** * Bearmail: a verification of its core

    Bearmail is a mail server written in Rust (a Stalwart server, with a
    tunnel that gives a server at home a public address).  This library
    models the parts of it that are algorithms rather than glue, as pure
    functions, state machines and step relations translated from the source,
    and proves what makes each part correct.  Every file names the sources it
    models in its first lines, and the comment before a definition names the
    lines it translates.

    ** Parts and files

    - Foundations.  [Prelude]: byte strings ([s#"text"] is a list of bytes as
      [Z]), results, wrap-around and saturation of machine integers, byte
      order, and lemmas and tactics that the other files share.  [Decimals],
      [Utf8] and [Text]: what the Rust standard library does with numerals,
      UTF-8 and [str].
    - Codecs and small data structures of [crates/utils] and [crates/types]:
      [Leb128], [Base32] (one streams into the other through the [Writer]
      class), [JmapId], [Keyword], [Glob], [Topological], [Snowflake],
      [ChainedBytes], [VecMap], [CheekyHash].
    - The store's layout ([crates/store]): [StoreKeys] (the bytes of keys) and
      [ChangeLog] (what a commit writes, and what a range of commits comes to).
    - Full-text search ([crates/store/src/search], [crates/nlp/src/tokenizers]):
      [SearchFilter] (fields, filters, and the loop that evaluates a list of
      filters over sets of documents), [SearchTokens] (the tokenizers),
      [SearchTerms] (what a document's fields put in the index, and the
      batches that write, merge and clear it), [SearchStore] (the search of an
      account over the keys that the store holds).
    - IMAP protocol ([crates/imap-proto]): [ImapReceiver] is the tokenizer as
      a state machine that is fed a byte at a time, over the class
      [CommandParser] that a protocol's commands implement; [ImapCommand] is
      the instance for IMAP with the tables of commands, flags and statuses;
      [ImapSequence] the sequence sets; [Utf7] the mailbox names.
      [ImapSearch] has the parsers of searches and their answers, and
      [ImapQuery] ([crates/imap/src/op/search.rs]) what a session makes of a
      search: filters for [SearchStore], and the answer.
    - Settings: the expression language of [crates/common/src/expr].
      [ExprValue] (values and operators), [ExprFunctions], [ExprParser] (a
      shunting-yard parser to a stack machine), [ExprEval] (the machine and
      the meaning of an expression as a tree), [ExprTokenizer] (texts to
      tokens), [ExprCompile] (conditional settings).  [IpMask] is the type of
      networks in settings ([crates/registry/src/types/ipmask.rs]).
    - POP3 ([crates/pop3]): [Pop3] is the request parser and the response
      serializer, [Pop3Session] the session over it: login, transaction and
      update states, the mailbox with its deletion marks, errors and STLS.
    - The edge tunnel ([edge]): [EdgeFrame] (frames and the incremental
      decoder), [EdgeSession] (ids, timers, the egress meter, the calendar),
      [EdgeRelay] (the end on the public machine, as threads that interleave
      over shared state), [EdgeMac] (the end at home, and both together).
    - Mail that comes in ([crates/smtp/src/inbound]): [Milter] (filters: their
      frames, commands, answers and a whole conversation), [SmtpData] (the
      session's data, and how filters change it), [SmtpQueue] (queued
      messages and their schedules, [crates/smtp/src/queue]), [SmtpServer]
      (the monad, and the class of what a session asks for), [SmtpCommands]
      (the handlers), [SmtpMessage] (from the last byte of a message to its
      reply), [SmtpSession] (the state machine that reads are fed to).  What
      is shown of them is in [SmtpLogic], [SmtpSafety], [SmtpReplies],
      [SmtpIntake] and [SmtpGuarantees], on the server of [SmtpDemo].
    - The queue ([crates/smtp/src/queue], and the task of
      [crates/smtp/src/outbound/delivery.rs]): [QueueSpool] (what the store
      holds and each batch that changes it, quotas, a worker's task),
      [QueueWorkers] (what a task does to a message), [QueueSystem] (arrivals
      and workers as a step relation, with its invariant), [QueueManager] (the
      task that reads the due events and starts workers), [QueueGuarantees].
    - Mail that goes out ([crates/smtp/src/outbound]): [OutboundClient] (the
      SMTP client), [OutboundSession] (the dialogue of a delivery and what
      each reply means for whom), [OutboundHosts] (hosts, DNSSEC, TLSA
      records, MTA-STS policies), [OutboundAttempt] (trying a group of
      recipients).  [OutboundLogic], [OutboundSafety], [OutboundAcknowledged]
      and [OutboundGuarantees] reason about what is sent;
      [OutboundFindings] has what the model shows against the code.

    A message goes through the last three: [SmtpMessage.queue_message] makes
    the [SmtpQueue.Message] that [QueueSpool.queue_batch] stores;
    [QueueSpool.deliver_task] groups its recipients and is given what comes of
    trying the groups by [OutboundAttempt.deliver_groups]
    ([OutboundGuarantees.attempting]).

    ** How state and operations correspond

    A struct is a [Record] with the code's fields, an enum an [Inductive]
    with its variants, a method a [Definition] that takes the state and
    returns it with its result ([result A E], or a monad where the code
    threads state and errors: [ImapReceiver.M], [ExprEval.M],
    [Pop3Session.M], the one of [SmtpServer]).  A panic of the code (an index,
    an [unwrap], an [unreachable!]) is a value of its own ([Panicked], or
    [None] in [EdgeFrame], [ChainedBytes] and [QueueSpool]), so that theorems
    can say it does not happen.  Machine integers are [Z] with [wrap],
    [saturate] and range checks where the code has them.  Threads of
    [EdgeRelay] are program counters stepped by the relation [vm_step], and
    workers of the queue are stepped by [QueueSystem.step]; their runs are all
    interleavings.  In the files of outbound delivery an operation maps the
    trace of all that happened so far to its result and the events it adds,
    and the peer, the network and the clocks are functions of that trace, so
    that theorems hold for peers that react to anything.  Code of other
    crates, generated tables, the Unicode tables, clocks, stores and sockets
    are parameters (classes such as [SmtpData.Crates], [OutboundClient.Wire],
    [OutboundHosts.World] and [SearchTokens.Nlp]); where a theorem relies on their behaviour it
    says so in a named hypothesis, and its witness instantiates it.

    ** What the theorems show

    - Mail that comes in: recipients get a message only if the settings permit
      them ([recipients_permitted]) and the sender was authenticated where
      that is required ([only_authenticated_submit]); a session does not panic
      ([session_never_panics]), answers every command
      ([every_command_answered]) and keeps within its limits
      ([sizes_and_attempts_bounded]).  Filters: [filter_conversation],
      [accepting_filter], [answers_any_reads], [filter_modifications].
    - The queue, over all interleavings: [no_message_forgotten],
      [one_attempt_at_a_time], [outcome_is_final]; its manager:
      [workers_limited], [due_events_covered].
    - Mail that goes out, against any peer: [nothing_in_the_clear],
      [mta_sts_enforced], [dane_enforced], [no_false_delivery],
      [message_transparent]; [due_recipient_answered] and [attempts_lawful]
      link it to the queue.
    - Search: a search gives the documents whose entries satisfy the query
      as a tree ([search_account_correct], over [run_correct] for the loop on
      its own); indexing leaves what the fields of a document give and
      removal nothing of it ([document_lifecycle], [account_erased]); the two
      together find what was indexed ([indexed_then_found]).  Over IMAP, search
      keys are parsed to their trees ([keys_parsed]), and a command is answered
      with the messages that its keys hold of ([search_answers]).
    - Round trips: what a writer writes its reader reads, for every value in
      range: LEB128, base32, identifiers, keywords, sequence sets, modified
      UTF-7, IMAP command lines, POP3 requests and messages, tunnel frames.
    - Independence of the network: [push_chunks], [parse_chunks],
      [line_outcomes], [ingest_in_order] and [answers_any_reads] say that
      cutting the input into reads, or grouping commands, does not change the
      outcome.
    - Refinement: [compile_and_run] and [setting_correct] say that compiled
      expressions and settings give the value that their trees mean;
      [changes_since] that the net changes of a range of commits are those of
      the commits; [glob_matches] that the backtracking matcher decides the
      specification of patterns; [topological_sort] that the order is one;
      [utc_year_month_correct] that the arithmetic is the calendar.
    - Invariants and safety: the receiver's limits ([parse_invariant]), unique
      identifiers ([generate_unique], [opens_admitted]), distinct keys
      ([keys_distinct]), the quota of the tunnel over all interleavings
      ([egress_bounded]), the POP3 session ([session_safe],
      [message_numbers_stable], [quit_deletes_marked]).
    - Where the code does not do what it means to, a lemma shows it on a
      concrete input; the manifest lists these as findings.

    ** Fuel

    A loop that is not structural has fuel, and a theorem or a comment says
    why it is enough: the tokenizer has [text_fuel], two for each character
    and two more; the frame decoder and the POP3 reader have one more than the
    bytes they are given, each round taking a byte at least; the SMTP reader
    has three for each byte and three more ([session_never_panics] says that
    it does not run out); the glob matcher has the product of the two lengths;
    the LEB128 encoder the number of groups of the type; authentication of
    outbound delivery has 64 rounds, one for each bit of the mechanisms; the
    parser of MTA-STS policies the length of the text; the parser of search
    keys has the number of tokens ([parse_filters_total]).  Running out is [None]
    or [Panicked], or the value that the loop has when nothing is left.  The
    reads of outbound delivery are structural on the chunks that arrive.

    ** Not modelled

    HTTP, JMAP, DAV, ManageSieve, the other commands of IMAP and the spam filter,
    because they are asynchronous code over databases, channels and other
    crates; the limiters and the aggregation of reports; the search of traces
    and external search services; the bytes of stored messages, signatures and
    the MIME bodies of notifications; the registry's schema, the tracing
    tables and the stemmers, because they are generated or are tables; log
    events everywhere. *)

From Stdlib Require Export ZArith Lia Bool.
From Stdlib Require String Ascii.
From stdpp Require Export base numbers list option.

Export String.StringSyntax Ascii.AsciiSyntax.
Delimit Scope char_scope with char.
Delimit Scope string_scope with string.
#[global] Open Scope Z_scope.

(** ** Byte and byte-string literals

    Bytes are integers in [0, 256).  [c#"x"] is the code of an ASCII
    character and [s#"text"] the byte list of an ASCII string; both are
    replaced by the literal value when they are read. *)

Definition bytes_of_string (s : String.string) : list Z :=
  List.map (fun a => Z.of_N (Ascii.N_of_ascii a)) (String.list_ascii_of_string s).

Notation "'c#' s" :=
  (ltac:(let v := eval vm_compute in (Z.of_N (Ascii.N_of_ascii s%char)) in exact v))
  (at level 9, s at level 0, only parsing).
Notation "'s#' s" :=
  (ltac:(let v := eval vm_compute in (bytes_of_string s%string) in exact v))
  (at level 9, s at level 0, only parsing).

(** ** Results of fallible code *)

Inductive result (A E : Type) : Type :=
| Ok (a : A)
| Err (e : E).
Arguments Ok {A E} a.
Arguments Err {A E} e.

Definition rbind {A B E} (r : result A E) (f : A -> result B E) : result B E :=
  match r with Ok a => f a | Err e => Err e end.

Declare Scope result_scope.
Delimit Scope result_scope with result.
Notation "'let?' x := r 'in' k" := (rbind r (fun x => k))
  (at level 10, x pattern, r at level 100, k at level 200) : result_scope.

(** ** Machine integers

    A [w]-bit unsigned integer is a [Z] in [0, 2^w); the operations that
    the code lets wrap go through [wrap]. *)

Definition wrap (w v : Z) : Z := v mod 2 ^ w.
Definition in_width (w v : Z) : Prop := 0 <= v < 2 ^ w.
Definition i64_min : Z := - 2 ^ 63.
Definition i64_max : Z := 2 ^ 63 - 1.
Definition u32_max : Z := 2 ^ 32 - 1.
Definition u64_max : Z := 2 ^ 64 - 1.

(** Two's complement reinterpretation of an integer as an [i64]. *)
Definition as_i64 (v : Z) : Z := (v + 2 ^ 63) mod 2 ^ 64 - 2 ^ 63.
Definition in_i64 (v : Z) : Prop := i64_min <= v <= i64_max.

(** Saturation used by the [saturating_*] operations. *)
Definition clamp (lo hi v : Z) : Z := Z.max lo (Z.min hi v).

Definition bytes_ok (l : list Z) : Prop := Forall (in_width 8) l.

(** ** ASCII classes and conversions (Rust's [u8::is_ascii_*]) *)

Definition is_ascii_digit (c : Z) : bool := (48 <=? c) && (c <=? 57).
Definition is_ascii_uppercase (c : Z) : bool := (65 <=? c) && (c <=? 90).
Definition is_ascii_lowercase (c : Z) : bool := (97 <=? c) && (c <=? 122).
Definition is_ascii_alphabetic (c : Z) : bool :=
  is_ascii_uppercase c || is_ascii_lowercase c.
Definition is_ascii_alphanumeric (c : Z) : bool :=
  is_ascii_alphabetic c || is_ascii_digit c.
(** Space, tab, line feed, form feed and carriage return. *)
Definition is_ascii_whitespace (c : Z) : bool :=
  (c =? 32) || (c =? 9) || (c =? 10) || (c =? 12) || (c =? 13).
Definition to_ascii_uppercase (c : Z) : Z :=
  if is_ascii_lowercase c then c - 32 else c.
Definition to_ascii_lowercase (c : Z) : Z :=
  if is_ascii_uppercase c then c + 32 else c.

Fixpoint bytes_eqb (a b : list Z) : bool :=
  match a, b with
  | [], [] => true
  | x :: a, y :: b => (x =? y) && bytes_eqb a b
  | _, _ => false
  end.

Definition eq_ignore_ascii_case (a b : list Z) : bool :=
  bytes_eqb (to_ascii_lowercase <$> a) (to_ascii_lowercase <$> b).

(** ** Literal lookup tables

    [hashify::tiny_map!] and [hashify::tiny_map_ignore_case!] look a byte
    string up in a table that is written at the place of the call; the keys
    of a table are distinct. *)

Definition tiny_map {V} (table : list (list Z * V)) (key : list Z) : option V :=
  snd <$> List.find (fun e => bytes_eqb key (fst e)) table.

Definition tiny_map_ignore_case {V} (table : list (list Z * V)) (key : list Z) : option V :=
  snd <$> List.find (fun e => eq_ignore_ascii_case key (fst e)) table.

(** ** Decimal integers ([str::parse]) *)

Fixpoint parse_digits (acc : Z) (s : list Z) : option Z :=
  match s with
  | [] => Some acc
  | c :: s => if is_ascii_digit c then parse_digits (acc * 10 + (c - 48)) s else None
  end.

(** [str::parse] for an unsigned type with maximum [max]: one optional
    [+], at least one digit, and no overflow. *)
Definition parse_unsigned (max : Z) (s : list Z) : option Z :=
  let digits := match s with c :: s' => if c =? 43 then s' else s | [] => [] end in
  match digits with
  | [] => None
  | _ => match parse_digits 0 digits with
         | Some v => if v <=? max then Some v else None
         | None => None
         end
  end.

(** [str::parse::<i64>]. *)
Definition parse_i64 (s : list Z) : option Z :=
  let '(neg, digits) :=
    match s with
    | c :: s' => if c =? 45 then (true, s') else if c =? 43 then (false, s') else (false, s)
    | [] => (false, [])
    end in
  match digits with
  | [] => None
  | _ => match parse_digits 0 digits with
         | Some v => let v := if neg : bool then - v else v in
                     if (i64_min <=? v) && (v <=? i64_max) then Some v else None
         | None => None
         end
  end.

(** ** Byte slices and big-endian integers *)

(** [slice.get(start..end)]. *)
Definition get_range (l : list Z) (start end_ : nat) : option (list Z) :=
  if (start <=? end_)%nat && (end_ <=? length l)%nat then Some (firstn (end_ - start) (skipn start l))
  else None.

(** [to_be_bytes] and [from_be_bytes] of an integer of [n] bytes. *)
Fixpoint be_bytes (n : nat) (v : Z) : list Z :=
  match n with O => [] | S n => v / 2 ^ (8 * Z.of_nat n) mod 256 :: be_bytes n v end.
Definition of_be_bytes (l : list Z) : Z := fold_left (fun a b => a * 256 + b) l 0.

(** ** Tactics *)

(** Turn boolean comparisons in the context into propositions. *)
Ltac bool_to_prop :=
  repeat match goal with
  | H : _ && _ = true |- _ => apply andb_true_iff in H; destruct H
  | H : _ || _ = false |- _ => apply orb_false_iff in H; destruct H
  | H : negb _ = true |- _ => apply negb_true_iff in H
  | H : negb _ = false |- _ => apply negb_false_iff in H
  | H : (_ =? _) = true |- _ => apply Z.eqb_eq in H
  | H : (_ =? _) = false |- _ => apply Z.eqb_neq in H
  | H : (_ <=? _) = true |- _ => apply Z.leb_le in H
  | H : (_ <=? _) = false |- _ => apply Z.leb_gt in H
  | H : (_ <? _) = true |- _ => apply Z.ltb_lt in H
  | H : (_ <? _) = false |- _ => apply Z.ltb_ge in H
  end.

(** Case analysis on the first [if] of the goal. *)
Ltac case_if :=
  match goal with
  | |- context [if ?b then _ else _] =>
      lazymatch type of b with
      | bool => let E := fresh "E" in destruct b eqn:E; bool_to_prop
      | sumbool _ _ => destruct b
      end
  end.

Ltac case_if_in H :=
  match type of H with
  | context [if ?b then _ else _] =>
      lazymatch type of b with
      | bool => let E := fresh "E" in destruct b eqn:E; bool_to_prop
      | sumbool _ _ => destruct b
      end
  end.

(** ** Generic lemmas *)

Lemma wrap_small w v : in_width w v -> wrap w v = v.
Proof. intros H. apply Z.mod_small, H. Qed.

Lemma wrap_range w v : 0 <= w -> in_width w (wrap w v).
Proof. intros Hw. apply Z.mod_pos_bound. lia. Qed.

Lemma wrap_idemp w v : 0 <= w -> wrap w (wrap w v) = wrap w v.
Proof. intros Hw. apply wrap_small, wrap_range, Hw. Qed.

Lemma as_i64_range v : in_i64 (as_i64 v).
Proof.
  unfold in_i64, as_i64, i64_min, i64_max.
  pose proof (Z.mod_pos_bound (v + 2 ^ 63) (2 ^ 64)). lia.
Qed.

Lemma as_i64_id v : in_i64 v -> as_i64 v = v.
Proof.
  unfold in_i64, as_i64, i64_min, i64_max. intros H.
  rewrite Z.mod_small; lia.
Qed.

Lemma bytes_eqb_eq a b : bytes_eqb a b = true <-> a = b.
Proof.
  revert b. induction a as [|x a IH]; intros [|y b]; simpl; try easy.
  rewrite andb_true_iff, Z.eqb_eq, IH. naive_solver.
Qed.

Lemma bytes_eqb_refl a : bytes_eqb a a = true.
Proof. by apply bytes_eqb_eq. Qed.

Lemma bytes_eqb_neq a b : bytes_eqb a b = false <-> a <> b.
Proof. rewrite <- not_true_iff_false, bytes_eqb_eq. done. Qed.

Lemma rbind_ok {A B E} (r : result A E) (f : A -> result B E) b :
  rbind r f = Ok b <-> exists a, r = Ok a /\ f a = Ok b.
Proof. destruct r; simpl; naive_solver. Qed.

(** *** Tables *)

Lemma tiny_map_none {V} (table : list (list Z * V)) key :
  tiny_map table key = None <-> ~ In key (map fst table).
Proof.
  unfold tiny_map. induction table as [|[k v] table IH]; simpl; [tauto|].
  destruct (bytes_eqb key k) eqn:E; simpl.
  - apply bytes_eqb_eq in E. naive_solver.
  - apply bytes_eqb_neq in E. naive_solver.
Qed.

Lemma tiny_map_ignore_case_key {V} (table : list (list Z * V)) a b :
  to_ascii_lowercase <$> a = to_ascii_lowercase <$> b ->
  tiny_map_ignore_case table a = tiny_map_ignore_case table b.
Proof.
  intros E. unfold tiny_map_ignore_case, eq_ignore_ascii_case. by rewrite E.
Qed.

(** *** Bits *)

Lemma bits_above s r i : in_width s r -> s <= i -> Z.testbit r i = false.
Proof.
  intros Hr Hi. destruct (decide (s < 0)).
  - destruct Hr as [? Hr]. rewrite Z.pow_neg_r in Hr by lia. lia.
  - apply Z.testbit_false; [lia|]. destruct Hr.
    rewrite Z.div_small; [done|]. split; [done|].
    eapply Z.lt_le_trans; [done|]. apply Z.pow_le_mono_r; lia.
Qed.

(** Joining two values whose bits do not overlap is addition. *)
Lemma lor_shiftl_disjoint s r x :
  0 <= s -> in_width s r -> Z.lor r (Z.shiftl x s) = r + x * 2 ^ s.
Proof.
  intros Hs Hr. rewrite <- Z.shiftl_mul_pow2 by done. symmetry.
  apply Z.add_nocarry_lor, Z.bits_inj'. intros i Hi.
  rewrite Z.land_spec, Z.bits_0, Z.shiftl_spec by done.
  destruct (decide (i < s)).
  - rewrite (Z.testbit_neg_r x) by lia. apply andb_false_r.
  - rewrite (bits_above s r i); [done|done|lia].
Qed.

Lemma land_low n v : 0 <= n -> Z.land v (2 ^ n - 1) = v mod 2 ^ n.
Proof. intros Hn. rewrite <- Z.land_ones, Z.ones_equiv by done. done. Qed.

(** A property of all bytes is decided by evaluation. *)
Lemma byte_forall (P : Z -> bool) :
  forallb P (seqZ 0 256) = true -> forall b, in_width 8 b -> P b = true.
Proof.
  intros HP b [Hl Hh]. rewrite forallb_forall in HP. apply HP.
  apply list_elem_of_In, elem_of_seqZ. change (2 ^ 8) with 256 in Hh. lia.
Qed.

Lemma lor_in_width w a b : 0 <= w -> in_width w a -> in_width w b -> in_width w (Z.lor a b).
Proof.
  intros Hw Ha Hb.
  replace (Z.lor a b) with (wrap w (Z.lor a b)); [by apply wrap_range|].
  unfold wrap. apply Z.bits_inj'. intros i Hi. rewrite Z.testbit_mod_pow2, Z.lor_spec by done.
  destruct (Z.ltb_spec i w); simpl; [done|].
  by rewrite (bits_above w a), (bits_above w b).
Qed.

(** *** Big-endian integers *)

Lemma be_bytes_length n v : length (be_bytes n v) = n.
Proof. induction n; simpl; congruence. Qed.

Lemma of_be_bytes_acc l acc :
  fold_left (fun a b => a * 256 + b) l acc = acc * 2 ^ (8 * Z.of_nat (length l)) + of_be_bytes l.
Proof.
  unfold of_be_bytes. revert acc. induction l as [|b l IH]; intros acc; cbn [fold_left length].
  - rewrite Z.mul_0_r, Z.pow_0_r. lia.
  - rewrite IH, (IH (0 * 256 + b)). replace (8 * Z.of_nat (S (length l))) with (8 + 8 * Z.of_nat (length l)) by lia.
    rewrite Z.pow_add_r by lia. change (2 ^ 8) with 256. lia.
Qed.

Lemma of_be_be n v : of_be_bytes (be_bytes n v) = v mod 2 ^ (8 * Z.of_nat n).
Proof.
  induction n as [|n IH]; cbn [be_bytes].
  - rewrite Z.mul_0_r, Z.pow_0_r, Z.mod_1_r. done.
  - unfold of_be_bytes. cbn [fold_left]. rewrite of_be_bytes_acc, be_bytes_length, IH.
    set (k := 8 * Z.of_nat n). replace (8 * Z.of_nat (S n)) with (k + 8) by lia.
    rewrite Z.pow_add_r, Z.rem_mul_r by lia. change (2 ^ 8) with 256. lia.
Qed.

Lemma of_be_id n v : in_width (8 * Z.of_nat n) v -> of_be_bytes (be_bytes n v) = v.
Proof. intros Hv. rewrite of_be_be. by apply Z.mod_small. Qed.

Lemma be_bytes_ok n v : bytes_ok (be_bytes n v).
Proof.
  induction n as [|n IH]; cbn [be_bytes]; [apply List.Forall_nil|apply List.Forall_cons; [|done]].
  apply (wrap_range 8). lia.
Qed.

Lemma of_be_range l : bytes_ok l -> in_width (8 * Z.of_nat (length l)) (of_be_bytes l).
Proof.
  induction 1 as [|b l Hb _ IH]; [done|]. unfold of_be_bytes. cbn [fold_left length].
  rewrite of_be_bytes_acc. replace (8 * Z.of_nat (S (length l))) with (8 + 8 * Z.of_nat (length l)) by lia.
  unfold in_width in *. rewrite Z.pow_add_r by lia. nia.
Qed.

Lemma be_of_be l : bytes_ok l -> be_bytes (length l) (of_be_bytes l) = l.
Proof.
  induction 1 as [|b l Hb Hl IH]; [done|]. cbn [be_bytes length].
  assert (of_be_bytes (b :: l) = b * 2 ^ (8 * Z.of_nat (length l)) + of_be_bytes l) as ->
    by (unfold of_be_bytes; cbn [fold_left]; by rewrite of_be_bytes_acc).
  pose proof (of_be_range l Hl) as Hr. unfold in_width in *.
  rewrite Z.div_add_l, Z.div_small, Z.add_0_r, Z.mod_small by lia. f_equal.
  assert (forall n v w, be_bytes n (w * 2 ^ (8 * Z.of_nat n) + v) = be_bytes n v) as Hs.
  { clear. intros n v w. assert (forall m, (m <= n)%nat ->
      be_bytes m (w * 2 ^ (8 * Z.of_nat n) + v) = be_bytes m v) as H; [|by apply H].
    induction m as [|m IH]; intros Hm; cbn [be_bytes]; [done|]. rewrite IH by lia. f_equal.
    replace (8 * Z.of_nat n) with ((8 * Z.of_nat (n - S m) + 8) + 8 * Z.of_nat m) by lia.
    rewrite (Z.pow_add_r 2 (_ + 8)), Z.mul_assoc, Z.div_add_l by lia.
    rewrite (Z.pow_add_r 2 _ 8), Z.mul_assoc by lia. change (2 ^ 8) with 256.
    by rewrite Z.add_comm, Z.mod_add by lia. }
  by rewrite Hs.
Qed.

(** ** Hints *)

Create HintDb bearmail.
#[export] Hint Resolve wrap_range as_i64_range bytes_eqb_refl : bearmail.
