(* ===== verification/Decimals.v ===== *)
(** * Decimal numerals: [Display] for integers, and its round trips

    The text that [to_string] or [write!("{}")] gives for an integer, with
    the lemmas that say the standard parsers of the prelude read it back.
    Nothing here is code of the repository. *)

From S2P Require Import Prelude.

Fixpoint print_fuel (fuel : nat) (n : Z) : list Z :=
  match fuel with
  | O => [48 + n]
  | S fuel => if n <? 10 then [48 + n] else print_fuel fuel (n / 10) ++ [48 + n mod 10]
  end.

(** The digits of [n >= 0]; the fuel is its number of bits. *)
Definition print_decimal (n : Z) : list Z := print_fuel (Z.to_nat (Z.log2 n)) n.

(** [Display] for a signed integer. *)
Definition print_i64 (n : Z) : list Z :=
  if n <? 0 then c#"-" :: print_decimal (- n) else print_decimal n.

Definition digits (s : list Z) : Prop := Forall (fun c => is_ascii_digit c = true) s.

Lemma digits_app a b : digits (a ++ b) <-> digits a /\ digits b.
Proof. apply Forall_app. Qed.

Lemma is_digit_range c : is_ascii_digit c = true <-> 48 <= c <= 57.
Proof. unfold is_ascii_digit. lia. Qed.

Lemma parse_digits_app a b acc :
  parse_digits acc (a ++ b) =
  match parse_digits acc a with Some v => parse_digits v b | None => None end.
Proof.
  revert acc. induction a as [|c a IH]; intros acc; [done|]. simpl.
  destruct (is_ascii_digit c); [apply IH|done].
Qed.

(** The digits of any numeral are a number of that many places. *)
Lemma parse_digits_total s acc :
  digits s -> 0 <= acc ->
  exists v, parse_digits acc s = Some v /\
    acc * 10 ^ Z.of_nat (length s) <= v < (acc + 1) * 10 ^ Z.of_nat (length s).
Proof.
  intros Hs. revert acc. induction Hs as [|c s Hc _ IH]; intros acc Hacc.
  - exists acc. simpl. split; [done|lia].
  - simpl. rewrite Hc. apply is_digit_range in Hc.
    destruct (IH (acc * 10 + (c - 48))) as (v & Hv & Hr); [lia|].
    exists v. split; [done|].
    replace (Z.of_nat (S (length s))) with (Z.of_nat (length s) + 1) by lia.
    rewrite Z.pow_add_r by lia. nia.
Qed.

Lemma parse_digits_nonneg s acc v : parse_digits acc s = Some v -> 0 <= acc -> acc <= v.
Proof.
  revert acc. induction s as [|c s IH]; simpl; intros acc.
  - intros [= ->]. lia.
  - destruct (is_ascii_digit c) eqn:E; [|done]. apply is_digit_range in E.
    intros H ?. apply IH in H; lia.
Qed.

Lemma parse_unsigned_range max s v : parse_unsigned max s = Some v -> 0 <= v <= max.
Proof.
  unfold parse_unsigned.
  generalize (match s with [] => [] | c :: s' => if c =? 43 then s' else s end).
  intros [|c d]; [done|].
  destruct (parse_digits 0 (c :: d)) as [x|] eqn:E; [|done].
  destruct (Z.leb_spec x max); [|done]. intros [= <-].
  apply parse_digits_nonneg in E; lia.
Qed.

Lemma print_fuel_spec fuel n :
  0 <= n < 2 ^ (Z.of_nat fuel + 1) ->
  digits (print_fuel fuel n) /\ parse_digits 0 (print_fuel fuel n) = Some n.
Proof.
  revert n. induction fuel as [|fuel IH]; intros n Hn; simpl.
  - assert (n < 2) by (change (2 ^ (Z.of_nat 0 + 1)) with 2 in Hn; lia).
    assert (is_ascii_digit (48 + n) = true) as E by (apply is_digit_range; lia).
    split; [by apply Forall_singleton|]. rewrite E. f_equal. lia.
  - destruct (Z.ltb_spec n 10).
    + assert (is_ascii_digit (48 + n) = true) as E by (apply is_digit_range; lia).
      split; [by apply Forall_singleton|]. simpl. rewrite E. f_equal. lia.
    + pose proof (Z.mod_pos_bound n 10). pose proof (Z.div_mod n 10).
      assert (is_ascii_digit (48 + n mod 10) = true) as E by (apply is_digit_range; lia).
      destruct (IH (n / 10)) as [Hd Hp].
      { replace (Z.of_nat (S fuel) + 1) with (1 + (Z.of_nat fuel + 1)) in Hn by lia.
        rewrite Z.pow_add_r in Hn by lia. lia. }
      split; [apply digits_app; split; [done|by apply Forall_singleton]|].
      rewrite parse_digits_app, Hp. simpl. rewrite E. f_equal. lia.
Qed.

Lemma print_decimal_spec n :
  0 <= n -> digits (print_decimal n) /\ parse_digits 0 (print_decimal n) = Some n.
Proof.
  intros Hn. apply print_fuel_spec. split; [done|].
  destruct (decide (n = 0)) as [->|]; [done|].
  pose proof (Z.log2_spec n). pose proof (Z.log2_nonneg n).
  rewrite Z2Nat.id by done. replace (Z.log2 n + 1) with (Z.succ (Z.log2 n)) by lia. lia.
Qed.

Lemma print_decimal_digits n : 0 <= n -> digits (print_decimal n).
Proof. apply print_decimal_spec. Qed.

Lemma print_fuel_nonempty fuel n : print_fuel fuel n <> [].
Proof.
  destruct fuel; simpl; [done|]. destruct (n <? 10); [done|].
  intros H. apply app_eq_nil in H. by destruct H.
Qed.

Lemma print_decimal_nonempty n : print_decimal n <> [].
Proof. apply print_fuel_nonempty. Qed.

(** A numeral starts with a digit. *)
Lemma digits_head s : digits s -> s <> [] -> exists c s', s = c :: s' /\ 48 <= c <= 57.
Proof.
  intros [|c s' Hc _]; [done|]. intros _. exists c, s'. by apply is_digit_range in Hc.
Qed.

Lemma parse_unsigned_digits max s :
  digits s -> s <> [] ->
  parse_unsigned max s =
  match parse_digits 0 s with Some v => if v <=? max then Some v else None | None => None end.
Proof.
  intros Hd Hne. destruct (digits_head s Hd Hne) as (c & s' & -> & Hc).
  unfold parse_unsigned. replace (c =? 43) with false by lia. done.
Qed.

Lemma parse_print_unsigned max n :
  0 <= n <= max -> parse_unsigned max (print_decimal n) = Some n.
Proof.
  intros Hn. destruct (print_decimal_spec n) as [Hd Hp]; [lia|].
  rewrite parse_unsigned_digits by (done || apply print_decimal_nonempty).
  rewrite Hp. replace (n <=? max) with true by lia. done.
Qed.

Lemma parse_print_i64 n : in_i64 n -> parse_i64 (print_i64 n) = Some n.
Proof.
  unfold in_i64. intros Hn. unfold print_i64.
  assert (forall m, 0 <= m -> exists c s', print_decimal m = c :: s' /\ 48 <= c <= 57) as Hh.
  { intros m Hm. apply digits_head; [by apply print_decimal_digits|apply print_decimal_nonempty]. }
  destruct (Z.ltb_spec n 0).
  - unfold parse_i64. change (c#"-" =? 45) with true. cbv iota beta.
    destruct (Hh (- n)) as (c & s' & E & _); [lia|]. rewrite E, <- E.
    destruct (print_decimal_spec (- n)) as [_ Hp]; [lia|]. rewrite Hp, Z.opp_involutive.
    replace ((i64_min <=? n) && (n <=? i64_max)) with true by lia. done.
  - unfold parse_i64. destruct (Hh n) as (c & s' & E & Hc); [lia|]. rewrite E.
    replace (c =? 45) with false by lia. replace (c =? 43) with false by lia.
    cbv iota beta. rewrite <- E.
    destruct (print_decimal_spec n) as [_ Hp]; [lia|]. rewrite Hp.
    replace ((i64_min <=? n) && (n <=? i64_max)) with true by lia. done.
Qed.

Lemma print_fuel_length fuel n k :
  0 <= n < 10 ^ Z.of_nat (S k) -> (length (print_fuel fuel n) <= S k)%nat.
Proof.
  revert n k. induction fuel as [|fuel IH]; intros n k Hn; simpl; [lia|].
  destruct (Z.ltb_spec n 10); simpl; [lia|].
  rewrite length_app. simpl. destruct k as [|k].
  - change (10 ^ Z.of_nat 1) with 10 in Hn. lia.
  - assert (length (print_fuel fuel (n / 10)) <= S k)%nat; [|lia].
    apply IH. replace (Z.of_nat (S (S k))) with (1 + Z.of_nat (S k)) in Hn by lia.
    rewrite Z.pow_add_r in Hn by lia. change (10 ^ 1) with 10 in Hn.
    split; [apply Z.div_pos|apply Z.div_lt_upper_bound]; lia.
Qed.

(** A 32-bit number has at most ten digits. *)
Lemma print_u32_length n : 0 <= n <= u32_max -> (length (print_decimal n) <= 10)%nat.
Proof.
  intros Hn. apply (print_fuel_length _ n 9). unfold u32_max in Hn.
  change (10 ^ Z.of_nat 10) with 10000000000. lia.
Qed.

#[export] Hint Resolve print_decimal_digits print_decimal_nonempty : bearmail.
