(* ===== verification/Utf8.v ===== *)
(** * UTF-8: what [str::from_utf8], [char] encoding and [str::chars] do

    The Rust standard library's validation of byte strings, the encoding of
    a scalar value and the decoding of a valid string, used by the files
    that handle text.  Nothing here is code of the repository. *)

From S2P Require Import Prelude.

(** A Unicode scalar value, the values of Rust's [char]. *)
Definition is_scalar (c : Z) : bool :=
  (0 <=? c) && (c <? 1114112) && negb ((55296 <=? c) && (c <? 57344)).

Definition is_cont (b : Z) : bool := (128 <=? b) && (b <? 192).

(** [char::encode_utf8]. *)
Definition encode_char (c : Z) : list Z :=
  if c <? 128 then [c]
  else if c <? 2048 then [192 + c / 64; 128 + c mod 64]
  else if c <? 65536 then [224 + c / 4096; 128 + c / 64 mod 64; 128 + c mod 64]
  else [240 + c / 262144; 128 + c / 4096 mod 64; 128 + c / 64 mod 64; 128 + c mod 64].

(** A [String] built from characters. *)
Definition encode (s : list Z) : list Z := s ≫= encode_char.

(** [str::from_utf8] followed by [str::chars]: the characters of a valid
    string, [None] for an invalid one (overlong forms, surrogates, values
    past the last plane and truncated sequences are invalid). *)
Fixpoint decode (s : list Z) : option (list Z) :=
  match s with
  | [] => Some []
  | a :: s1 =>
      if a <? 128 then cons a <$> decode s1
      else match s1 with
      | [] => None
      | b :: s2 =>
          if negb (is_cont b) then None
          else if (194 <=? a) && (a <? 224) then
            cons ((a - 192) * 64 + (b - 128)) <$> decode s2
          else match s2 with
          | [] => None
          | c :: s3 =>
              if negb (is_cont c) then None
              else if (224 <=? a) && (a <? 240) then
                let v := (a - 224) * 4096 + (b - 128) * 64 + (c - 128) in
                if (2048 <=? v) && is_scalar v then cons v <$> decode s3 else None
              else match s3 with
              | [] => None
              | d :: s4 =>
                  if negb (is_cont d) then None
                  else if (240 <=? a) && (a <? 248) then
                    let v := (a - 240) * 262144 + (b - 128) * 4096 + (c - 128) * 64 + (d - 128) in
                    if (65536 <=? v) && is_scalar v then cons v <$> decode s4 else None
                  else None
              end
          end
      end
  end.

Definition valid (s : list Z) : bool :=
  match decode s with Some _ => true | None => false end.

(** The bytes that may follow a first byte. *)
Definition second_ok (a b : Z) : bool :=
  if a =? 224 then (160 <=? b) && (b <? 192)
  else if a =? 237 then (128 <=? b) && (b <? 160)
  else if a =? 240 then (144 <=? b) && (b <? 192)
  else if a =? 244 then (128 <=? b) && (b <? 144)
  else is_cont b.

Definition REPLACEMENT : list Z := [239; 191; 189].

(** [String::from_utf8_lossy]: every longest prefix of a character that is
    not completed, and every other byte out of place, is replaced. *)
Fixpoint from_utf8_lossy (s : list Z) : list Z :=
  match s with
  | [] => []
  | a :: s1 =>
      if a <? 128 then a :: from_utf8_lossy s1
      else if (194 <=? a) && (a <? 245) then
        match s1 with
        | b :: s2 =>
            if negb (second_ok a b) then REPLACEMENT ++ from_utf8_lossy s1
            else if a <? 224 then a :: b :: from_utf8_lossy s2
            else match s2 with
            | c :: s3 =>
                if negb (is_cont c) then REPLACEMENT ++ from_utf8_lossy s2
                else if a <? 240 then a :: b :: c :: from_utf8_lossy s3
                else match s3 with
                | d :: s4 =>
                    if negb (is_cont d) then REPLACEMENT ++ from_utf8_lossy s3
                    else a :: b :: c :: d :: from_utf8_lossy s4
                | [] => REPLACEMENT
                end
            | [] => REPLACEMENT
            end
        | [] => REPLACEMENT
        end
      else REPLACEMENT ++ from_utf8_lossy s1
  end.

(** [str::from_utf8(s).unwrap_or_default()]. *)
Definition str_or_default (s : list Z) : list Z := if valid s then s else [].

(** ** Lemmas *)

Definition ascii (c : Z) : Prop := 0 <= c < 128.

Lemma decode_ascii s : Forall ascii s -> decode s = Some s.
Proof.
  induction 1 as [|c s Hc _ IH]; [done|]. unfold ascii in Hc. simpl.
  rewrite IH. replace (c <? 128) with true by (symmetry; apply Z.ltb_lt; lia). done.
Qed.

Lemma valid_ascii s : Forall ascii s -> valid s = true.
Proof. intros H. unfold valid. by rewrite (decode_ascii _ H). Qed.

Lemma str_or_default_ascii s : Forall ascii s -> str_or_default s = s.
Proof. intros H. unfold str_or_default. by rewrite (valid_ascii _ H). Qed.

Ltac decide_if :=
  match goal with
  | |- context [if ?b then _ else _] =>
      first [ replace b with true by (symmetry; lia) | replace b with false by (symmetry; lia) ]
  end.

Lemma decode_encode_char c s :
  is_scalar c = true -> decode (encode_char c ++ s) = cons c <$> decode s.
Proof.
  unfold is_scalar. intros Hc.
  assert (0 <= c < 1114112 /\ (c < 55296 \/ 57344 <= c)) as [Hr Hs] by lia.
  unfold encode_char.
  destruct (Z.ltb_spec c 128); [cbn [app decode]; decide_if; done|].
  destruct (Z.ltb_spec c 2048).
  { pose proof (Z.div_mod c 64). pose proof (Z.mod_pos_bound c 64).
    assert (2 <= c / 64 < 32) by lia.
    cbn [app decode]. unfold is_cont. repeat decide_if.
    f_equal. f_equal. lia. }
  destruct (Z.ltb_spec c 65536).
  { pose proof (Z.div_mod c 64). pose proof (Z.mod_pos_bound c 64).
    pose proof (Z.div_mod (c / 64) 64). pose proof (Z.mod_pos_bound (c / 64) 64).
    replace (c / 4096) with (c / 64 / 64) by (rewrite Z.div_div by lia; done).
    assert (0 <= c / 64 / 64 < 16) by lia.
    cbn [app decode]. unfold is_cont, is_scalar.
    replace ((224 + c / 64 / 64 - 224) * 4096 + (128 + (c / 64) `mod` 64 - 128) * 64 +
             (128 + c `mod` 64 - 128)) with c by lia.
    repeat decide_if. done. }
  pose proof (Z.div_mod c 64). pose proof (Z.mod_pos_bound c 64).
  pose proof (Z.div_mod (c / 64) 64). pose proof (Z.mod_pos_bound (c / 64) 64).
  pose proof (Z.div_mod (c / 64 / 64) 64). pose proof (Z.mod_pos_bound (c / 64 / 64) 64).
  replace (c / 4096) with (c / 64 / 64) by (rewrite Z.div_div by lia; done).
  replace (c / 262144) with (c / 64 / 64 / 64) by (rewrite !Z.div_div by lia; done).
  assert (0 <= c / 64 / 64 / 64 < 8) by lia.
  cbn [app decode]. unfold is_cont, is_scalar.
  replace ((240 + c / 64 / 64 / 64 - 240) * 262144 + (128 + (c / 64 / 64) `mod` 64 - 128) * 4096
           + (128 + (c / 64) `mod` 64 - 128) * 64 + (128 + c `mod` 64 - 128)) with c by lia.
  repeat decide_if. done.
Qed.

Definition scalars (s : list Z) : Prop := Forall (fun c => is_scalar c = true) s.

Lemma decode_encode s : scalars s -> decode (encode s) = Some s.
Proof.
  induction 1 as [|c s Hc _ IH]; [done|].
  change (encode (c :: s)) with (encode_char c ++ encode s).
  rewrite (decode_encode_char c _ Hc), IH. done.
Qed.

Lemma valid_encode s : scalars s -> valid (encode s) = true.
Proof. intros H. unfold valid. by rewrite decode_encode. Qed.
