(* ===== verification/Text.v ===== *)
(** * Text: the methods of Rust's [str] that the code uses

    Searching, splitting, stripping and trimming of UTF-8 strings as byte
    lists.  Nothing here is code of the repository. *)

From S2P Require Import Prelude Utf8.

(** [str::chars] of a string that is valid by its type. *)
Definition chars (s : list Z) : list Z := match decode s with Some cs => cs | None => [] end.

(** Unicode [White_Space]. *)
Definition is_whitespace (c : Z) : bool :=
  ((9 <=? c) && (c <=? 13)) || (c =? 32) || (c =? 133) || (c =? 160) || (c =? 5760) ||
  ((8192 <=? c) && (c <=? 8202)) || (c =? 8232) || (c =? 8233) || (c =? 8239) || (c =? 8287) ||
  (c =? 12288).

Fixpoint drop_while (p : Z -> bool) (s : list Z) : list Z :=
  match s with
  | c :: s' => if p c then drop_while p s' else s
  | [] => []
  end.

Definition trim_start (s : list Z) : list Z := encode (drop_while is_whitespace (chars s)).
Definition trim_end (s : list Z) : list Z :=
  encode (rev (drop_while is_whitespace (rev (chars s)))).
Definition trim (s : list Z) : list Z := trim_end (trim_start s).

Fixpoint strip_prefix (p s : list Z) : option (list Z) :=
  match p, s with
  | [], _ => Some s
  | x :: p, y :: s => if x =? y then strip_prefix p s else None
  | _ :: _, [] => None
  end.

Definition strip_suffix (p s : list Z) : option (list Z) :=
  match strip_prefix (rev p) (rev s) with Some r => Some (rev r) | None => None end.

Definition starts_with (p s : list Z) : bool :=
  match strip_prefix p s with Some _ => true | None => false end.
Definition ends_with (p s : list Z) : bool :=
  match strip_suffix p s with Some _ => true | None => false end.

(** [str::split_once]: what is before and after the first occurrence. *)
Fixpoint split_once (p s : list Z) : option (list Z * list Z) :=
  match strip_prefix p s with
  | Some r => Some ([], r)
  | None =>
      match s with
      | [] => None
      | c :: s => match split_once p s with Some (a, b) => Some (c :: a, b) | None => None end
      end
  end.

(** [str::rsplit_once]: the last occurrence. *)
Definition rsplit_once (p s : list Z) : option (list Z * list Z) :=
  match split_once (rev p) (rev s) with Some (a, b) => Some (rev b, rev a) | None => None end.

Definition str_contains (s p : list Z) : bool :=
  match split_once p s with Some _ => true | None => false end.

Fixpoint split_fuel (fuel : nat) (p s : list Z) : list (list Z) :=
  match fuel, split_once p s with
  | S fuel, Some (a, b) => a :: split_fuel fuel p b
  | _, _ => [s]
  end.

(** [str::split]; the empty pattern matches between all characters. *)
Definition split (p s : list Z) : list (list Z) :=
  match p with
  | [] => [] :: map encode_char (chars s) ++ [[]]
  | _ => split_fuel (length s) p s
  end.

Definition rsplit (p s : list Z) : list (list Z) :=
  match p with
  | [] => rev (split p s)
  | _ => map (@rev Z) (split_fuel (length s) (rev p) (rev s))
  end.

Fixpoint join (p : list Z) (l : list (list Z)) : list Z :=
  match l with
  | [] => []
  | [x] => x
  | x :: l => x ++ p ++ join p l
  end.

(** [str::lines]: the line ends, LF or CRLF, are dropped, and there is no
    empty line after the last one. *)
Definition strip_cr (s : list Z) : list Z :=
  match strip_suffix [13] s with Some s' => s' | None => s end.

Fixpoint lines_of (l : list (list Z)) : list (list Z) :=
  match l with
  | [] => []
  | [last] => match last with [] => [] | _ => [last] end
  | x :: l => strip_cr x :: lines_of l
  end.
Definition lines (s : list Z) : list (list Z) := lines_of (split [10] s).

(** [str::split_whitespace]. *)
Fixpoint words (cur : list Z) (cs : list Z) : list (list Z) :=
  match cs with
  | [] => match cur with [] => [] | _ => [rev cur] end
  | c :: cs =>
      if is_whitespace c then match cur with [] => words [] cs | _ => rev cur :: words [] cs end
      else words (c :: cur) cs
  end.
Definition split_whitespace (s : list Z) : list (list Z) := words [] (chars s).

(** ** Lemmas *)

Lemma strip_prefix_some p s r : strip_prefix p s = Some r <-> s = p ++ r.
Proof.
  revert s. induction p as [|x p IH]; intros s; simpl.
  - split; intros; by simplify_eq.
  - destruct s as [|y s]; [done|]. destruct (Z.eqb_spec x y) as [->|Hne].
    + rewrite IH. split; intros; by simplify_eq.
    + split; intros; by simplify_eq.
Qed.

Lemma strip_prefix_none p s r : strip_prefix p s = None -> s <> p ++ r.
Proof. intros H E. apply strip_prefix_some in E. congruence. Qed.

Lemma split_once_some p s a b : split_once p s = Some (a, b) -> s = a ++ p ++ b.
Proof.
  revert a. induction s as [|c s IH]; intros a; simpl;
    (destruct (strip_prefix p _) as [r|] eqn:E;
     [intros; simplify_eq; simpl; by apply strip_prefix_some|]); [done|].
  destruct (split_once p s) as [[a' b']|]; [|done]. intros; simplify_eq. simpl. f_equal. by apply IH.
Qed.

Lemma split_once_none p s a b : split_once p s = None -> s <> a ++ p ++ b.
Proof.
  revert a. induction s as [|c s IH]; intros a; simpl;
    (destruct (strip_prefix p _) as [r|] eqn:E; [done|]).
  - intros _ H. destruct a; [|done]. by apply (strip_prefix_none _ _ b) in E.
  - destruct (split_once p s) as [[a' b']|]; [done|]. intros _ H.
    destruct a as [|c' a]; [by apply (strip_prefix_none _ _ b) in E|].
    simpl in H. simplify_eq. by apply (IH a).
Qed.

(** The first part contains no earlier occurrence. *)
Lemma split_once_first p s a b a' b' :
  split_once p s = Some (a, b) -> s = a' ++ p ++ b' -> (length a <= length a')%nat.
Proof.
  revert a a'. induction s as [|c s IH]; intros a a'; simpl;
    (destruct (strip_prefix p _) as [r|] eqn:E; [intros; simplify_eq; simpl; lia|]); [done|].
  destruct (split_once p s) as [[a1 b1]|] eqn:E1; [|done]. intros H Hs; simplify_eq.
  destruct a' as [|c' a']; [by apply (strip_prefix_none _ _ b') in E|].
  simpl in Hs. simplify_eq. simpl. apply le_n_S. by apply (IH a1 a').
Qed.

Lemma rsplit_once_some p s a b : rsplit_once p s = Some (a, b) -> s = a ++ p ++ b.
Proof.
  unfold rsplit_once. destruct (split_once (rev p) (rev s)) as [[x y]|] eqn:E; [|done].
  intros; simplify_eq. apply split_once_some in E.
  rewrite <- (rev_involutive s), E, !rev_app_distr, rev_involutive. by rewrite <- app_assoc.
Qed.

Lemma rsplit_once_none p s a b : rsplit_once p s = None -> s <> a ++ p ++ b.
Proof.
  unfold rsplit_once. destruct (split_once (rev p) (rev s)) as [[x y]|] eqn:E; [done|].
  intros _ ->. eapply split_once_none; [exact E|].
  rewrite !rev_app_distr, <- app_assoc. reflexivity.
Qed.

(** The last occurrence of a separator that the second part does not hold. *)
Lemma rsplit_once_last x a b : ~ In x b -> rsplit_once [x] (a ++ [x] ++ b) = Some (a, b).
Proof.
  intros Hb. unfold rsplit_once. rewrite !rev_app_distr. simpl. rewrite <- app_assoc. simpl.
  assert (~ In x (rev b)) as Hr by (by rewrite <- in_rev).
  assert (forall c r, ~ In x c -> split_once [x] (c ++ x :: r) = Some (c, r)) as Hs.
  { clear. intros c r. induction c as [|y c IH]; simpl; intros H; [by rewrite Z.eqb_refl|].
    destruct (Z.eqb_spec x y); [naive_solver|]. rewrite IH by naive_solver. done. }
  rewrite Hs by done. by rewrite !rev_involutive.
Qed.

Lemma split_fuel_join p s : forall fuel, join p (split_fuel fuel p s) = s.
Proof.
  intros fuel. revert s. induction fuel as [|fuel IH]; intros s; simpl; [done|].
  destruct (split_once p s) as [[a b]|] eqn:E; [|done].
  apply split_once_some in E. specialize (IH b).
  destruct (split_fuel fuel p b) as [|y l] eqn:El; simpl in *; [by destruct fuel; simpl in El; repeat case_match|].
  rewrite IH. by subst.
Qed.

