(* ===== verification/Leb128.v ===== *)
(** * LEB128 integers ([crates/utils/src/codec/leb128.rs])

    Unsigned integers as little-endian groups of seven bits, with the top
    bit of a byte saying that another one follows.  The macro
    [impl_unsigned_leb128] is modelled once, over the integer type: its
    width and the list of shifts it is instantiated with.  [Writer] is the
    part of [std::io::Write] the encoder uses, so that it writes to a
    vector and to the base32 writer of [Base32.v] alike. *)

From S2P Require Import Prelude.

(** ** Data *)

Record int_ty := IntTy { bits : Z; shifts : list Z }.

(* [crates/utils/src/codec/leb128.rs:178] impl_unsigned_leb128!(u8) *)
Definition t_u8 : int_ty := IntTy 8 [0].
(* [crates/utils/src/codec/leb128.rs:179] impl_unsigned_leb128!(u16) *)
Definition t_u16 : int_ty := IntTy 16 [0; 7; 14].
(* [crates/utils/src/codec/leb128.rs:180] impl_unsigned_leb128!(u32) *)
Definition t_u32 : int_ty := IntTy 32 [0; 7; 14; 21; 28].
(* [crates/utils/src/codec/leb128.rs:181] impl_unsigned_leb128!(u64) *)
Definition t_u64 : int_ty := IntTy 64 [0; 7; 14; 21; 28; 35; 42; 49; 56; 63].
(* [crates/utils/src/codec/leb128.rs:182] impl_unsigned_leb128!(usize) *)
Definition t_usize : int_ty := IntTy 64 [0; 7; 14; 21; 28; 35; 42; 49; 56; 63].

(** A sink of bytes: what [std::io::Write::write] does with a slice, the
    number of bytes it took included.  A failed write carries the error. *)
Class Writer (W E : Type) := write : W -> list Z -> result (W * Z) E.

(** What the encoder relies on: a valid sink takes every byte it is given
    and stays valid, and two writes in a row are one write of both slices. *)
Class LawfulWriter (W E : Type) `{Writer W E} (valid : W -> Prop) := {
  write_total w bs : valid w -> bytes_ok bs ->
    exists w', write w bs = Ok (w', Z.of_nat (length bs)) /\ valid w';
  write_app w a b : bytes_ok a ->
    write w (a ++ b) =
    (let? (w1, n1) := write w a in
     let? (w2, n2) := write w1 b in Ok (w2, n1 + n2))%result
}.

(** [Vec<u8>] takes every byte. *)
#[export] Instance vec_writer : Writer (list Z) Empty_set :=
  fun out bytes => Ok (out ++ bytes, Z.of_nat (length bytes)).

#[export] Instance vec_lawful : LawfulWriter (list Z) Empty_set (fun _ => True).
Proof.
  split.
  - intros w bs _ _. by exists (w ++ bs).
  - intros w a b _. unfold write, vec_writer. simpl.
    by rewrite <- app_assoc, length_app, Nat2Z.inj_add.
Qed.

(** ** Encoding *)

(** The loop of [to_leb128_bytes], one iteration per unit of fuel. *)
(* [crates/utils/src/codec/leb128.rs:108-119] to_leb128_bytes *)
Fixpoint to_leb128_bytes (fuel : nat) (value : Z) (out : list Z) : option (list Z) :=
  match fuel with
  | O => None
  | S fuel =>
      if value <? 128 then Some (out ++ [wrap 8 value])
      else to_leb128_bytes fuel (Z.shiftr value 7)
             (out ++ [wrap 8 (Z.lor (Z.land value 127) 128)])
  end.

(* [crates/utils/src/codec/leb128.rs:92-106] to_leb128_writer *)
Fixpoint to_leb128_writer {W E} `{Writer W E} (fuel : nat) (value bytes_written : Z)
    (out : W) : option (result (W * Z) E) :=
  match fuel with
  | O => None
  | S fuel =>
      if value <? 128 then
        Some (let? (out, n) := write out [wrap 8 value] in
              Ok (out, bytes_written + n))%result
      else
        match write out [wrap 8 (Z.lor (Z.land value 127) 128)] with
        | Err e => Some (Err e)
        | Ok (out, n) => to_leb128_writer fuel (Z.shiftr value 7) (bytes_written + n) out
        end
  end.

(** A value of a type of width [w] needs at most [w] iterations. *)
Definition fuel_of (t : int_ty) : nat := Z.to_nat (bits t).

(* [crates/utils/src/codec/leb128.rs:40-42] Leb128Vec::push_leb128 *)
Definition push_leb128 (t : int_ty) (out : list Z) (value : Z) : option (list Z) :=
  to_leb128_bytes (fuel_of t) value out.

(* [crates/utils/src/codec/leb128.rs:32-34] Leb128Writer::write_leb128 *)
Definition write_leb128 {W E} `{Writer W E} (t : int_ty) (out : W) (value : Z) :
    option (result (W * Z) E) :=
  to_leb128_writer (fuel_of t) value 0 out.

(** ** Decoding *)

(** The [for] loop of [from_leb128_bytes_pos]: the shifts and the bytes in
    step, [pos] the index of the current byte. *)
(* [crates/utils/src/codec/leb128.rs:122-135] from_leb128_bytes_pos *)
Fixpoint from_leb128_bytes_pos (w : Z) (shifts : list Z) (slice : list Z)
    (pos result : Z) : option (Z * Z) :=
  match shifts, slice with
  | shift :: shifts, byte :: slice =>
      if Z.land byte 128 =? 0 then
        Some (Z.lor result (wrap w (Z.shiftl (wrap w byte) shift)), pos + 1)
      else
        from_leb128_bytes_pos w shifts slice (pos + 1)
          (Z.lor result (wrap w (Z.shiftl (wrap w (Z.land byte 127)) shift)))
  | _, _ => None
  end.

(* [crates/utils/src/codec/leb128.rs:138-151] from_leb128_bytes *)
Fixpoint from_leb128_bytes (w : Z) (shifts : list Z) (slice : list Z)
    (result : Z) : option Z :=
  match shifts, slice with
  | shift :: shifts, byte :: slice =>
      if Z.land byte 128 =? 0 then
        Some (Z.lor result (wrap w (Z.shiftl (wrap w byte) shift)))
      else
        from_leb128_bytes w shifts slice
          (Z.lor result (wrap w (Z.shiftl (wrap w (Z.land byte 127)) shift)))
  | _, _ => None
  end.

(** Decoding from an iterator also gives the iterator's remaining items.
    [zip] asks the shifts first: when they are used up no item is taken. *)
(* [crates/utils/src/codec/leb128.rs:154-173] from_leb128_it *)
Fixpoint from_leb128_it (w : Z) (shifts : list Z) (it : list Z) (result : Z) :
    option Z * list Z :=
  match shifts with
  | [] => (None, it)
  | shift :: shifts =>
      match it with
      | [] => (None, [])
      | byte :: it =>
          if Z.land byte 128 =? 0 then
            (Some (Z.lor result (wrap w (Z.shiftl (wrap w byte) shift))), it)
          else
            from_leb128_it w shifts it
              (Z.lor result (wrap w (Z.shiftl (wrap w (Z.land byte 127)) shift)))
      end
  end.

(* [crates/utils/src/codec/leb128.rs:67-69] Leb128Reader::read_leb128 *)
Definition read_leb128 (t : int_ty) (slice : list Z) : option (Z * Z) :=
  from_leb128_bytes_pos (bits t) (shifts t) slice 0 0.

(* [crates/utils/src/codec/leb128.rs:50-52] Leb128Iterator::next_leb128 *)
Definition next_leb128 (t : int_ty) (it : list Z) : option Z * list Z :=
  from_leb128_it (bits t) (shifts t) it 0.

(* [crates/utils/src/codec/leb128.rs:55-62] Leb128Iterator::skip_leb128 *)
Fixpoint skip_leb128_it (it : list Z) : option unit * list Z :=
  match it with
  | [] => (None, [])
  | byte :: it => if Z.land byte 128 =? 0 then (Some tt, it) else skip_leb128_it it
  end.

(* [crates/utils/src/codec/leb128.rs:72-79] Leb128Reader::skip_leb128 *)
Fixpoint skip_leb128_from (pos : Z) (slice : list Z) : option Z :=
  match slice with
  | [] => None
  | byte :: slice =>
      if Z.land byte 128 =? 0 then Some (pos + 1) else skip_leb128_from (pos + 1) slice
  end.

(** ** The group list of a value

    [groups n v] is the specification of the encoding: the seven-bit groups
    of [v], least significant first, with the continuation bit set on all
    but the last. *)

Fixpoint groups (n : nat) (v : Z) : list Z :=
  match n with
  | O => []
  | S n => if v <? 128 then [v] else v mod 128 + 128 :: groups n (v / 128)
  end.

Fixpoint shifts_from (s : Z) (n : nat) : list Z :=
  match n with O => [] | S n => s :: shifts_from (s + 7) n end.

Lemma more_bit v :
  0 <= v -> wrap 8 (Z.lor (Z.land v 127) 128) = v mod 128 + 128.
Proof.
  intros Hv. change 127 with (2 ^ 7 - 1). rewrite land_low by lia.
  change 128 with (Z.shiftl 1 7) at 1.
  pose proof (Z.mod_pos_bound v (2 ^ 7)).
  rewrite lor_shiftl_disjoint by (unfold in_width; lia).
  apply wrap_small. unfold in_width. change (2 ^ 7) with 128 in *. lia.
Qed.

Lemma to_leb128_groups n v out :
  0 <= v -> v < 128 ^ Z.of_nat n -> (0 < n)%nat ->
  to_leb128_bytes n v out = Some (out ++ groups n v).
Proof.
  revert v out. induction n as [|n IH]; intros v out H0 Hn Hpos; [lia|].
  simpl. case_if.
  - rewrite wrap_small; [done|]. unfold in_width. lia.
  - rewrite more_bit, Z.shiftr_div_pow2 by lia. change (2 ^ 7) with 128.
    rewrite Nat2Z.inj_succ, Z.pow_succ_r in Hn by lia.
    rewrite IH, <- app_assoc; [done|apply Z.div_pos; lia| |].
    + apply Z.div_lt_upper_bound; lia.
    + destruct n; [|lia]. simpl in Hn. lia.
Qed.

Lemma groups_nonempty n v : (0 < n)%nat -> exists b l, groups n v = b :: l.
Proof. destruct n; [lia|]. simpl. case_if; eauto. Qed.

Lemma groups_length n v : (length (groups n v) <= n)%nat.
Proof.
  revert v. induction n as [|n IH]; intros v; simpl; [lia|].
  case_if; simpl; [lia|]. specialize (IH (v / 128)). lia.
Qed.

Lemma groups_bytes n v : 0 <= v -> bytes_ok (groups n v).
Proof.
  revert v. induction n as [|n IH]; intros v Hv; simpl; [constructor|].
  case_if.
  - repeat constructor; unfold in_width; lia.
  - constructor; [|apply IH; apply Z.div_pos; lia].
    pose proof (Z.mod_pos_bound v 128). unfold in_width. lia.
Qed.

Lemma top_bit_clear b : 0 <= b < 128 -> (Z.land b 128 =? 0) = true.
Proof.
  intros Hb. assert (implb (b <? 128) (Z.land b 128 =? 0) = true) as H.
  { apply (byte_forall (fun b => implb (b <? 128) (Z.land b 128 =? 0)));
    [by vm_compute|unfold in_width; lia]. }
  by rewrite (proj2 (Z.ltb_lt b 128)) in H by lia.
Qed.

Lemma top_bit_set b : 0 <= b < 128 ->
  (Z.land (b + 128) 128 =? 0) = false /\ Z.land (b + 128) 127 = b.
Proof.
  intros Hb.
  assert (implb (b <? 128)
    (negb (Z.land (b + 128) 128 =? 0) && (Z.land (b + 128) 127 =? b)) = true) as H.
  { apply (byte_forall (fun b => implb (b <? 128)
      (negb (Z.land (b + 128) 128 =? 0) && (Z.land (b + 128) 127 =? b))));
    [by vm_compute|unfold in_width; lia]. }
  rewrite (proj2 (Z.ltb_lt b 128)) in H by lia. simpl in H.
  apply andb_true_iff in H as [H1%negb_true_iff H2%Z.eqb_eq]. done.
Qed.

(** One step of the decoder adds the group at its place. *)
Lemma decode_group w s r b :
  0 <= s -> in_width s r -> 0 <= b -> b * 2 ^ s < 2 ^ w ->
  Z.lor r (wrap w (Z.shiftl (wrap w b) s)) = r + b * 2 ^ s.
Proof.
  intros Hs Hr Hb Hw. pose proof (Z.pow_pos_nonneg 2 s).
  rewrite (wrap_small w b) by (unfold in_width; nia).
  rewrite wrap_small by (rewrite Z.shiftl_mul_pow2 by lia; unfold in_width; nia).
  by rewrite lor_shiftl_disjoint.
Qed.

Lemma decode_groups w n m v s r rest pos :
  0 <= s -> in_width s r -> 0 <= v -> v < 128 ^ Z.of_nat n -> (n <= m)%nat ->
  (0 < n)%nat -> v * 2 ^ s < 2 ^ w ->
  from_leb128_bytes_pos w (shifts_from s m) (groups n v ++ rest) pos r =
  Some (r + v * 2 ^ s, pos + Z.of_nat (length (groups n v))).
Proof.
  revert m v s r pos. induction n as [|n IH]; intros m v s r pos Hs Hr H0 Hn Hm Hpos Hw;
    [lia|].
  destruct m as [|m]; [lia|]. simpl. case_if.
  - simpl. rewrite top_bit_clear by lia. by rewrite decode_group.
  - pose proof (Z.mod_pos_bound v 128 ltac:(lia)) as Hmod. simpl.
    destruct (top_bit_set (v mod 128) Hmod) as [-> ->].
    pose proof (Z.div_mod v 128 ltac:(lia)) as Hdm.
    pose proof (Z.pow_pos_nonneg 2 s ltac:(lia) Hs) as Hps.
    pose proof (Z.mod_le v 128 ltac:(lia) ltac:(lia)).
    rewrite decode_group; [|done|done|lia|nia].
    rewrite Nat2Z.inj_succ, Z.pow_succ_r in Hn by lia.
    rewrite IH; rewrite ?Z.pow_add_r by lia; change (2 ^ 7) with 128.
    + f_equal. f_equal; [|lia]. nia.
    + lia.
    + unfold in_width in *. rewrite Z.pow_add_r by lia. change (2 ^ 7) with 128. nia.
    + apply Z.div_pos; lia.
    + apply Z.div_lt_upper_bound; lia.
    + lia.
    + destruct n; [|lia]. simpl in Hn. lia.
    + nia.
Qed.

(** The three decoders agree. *)
Lemma from_bytes_pos w sh slice r pos :
  from_leb128_bytes w sh slice r = fst <$> from_leb128_bytes_pos w sh slice pos r.
Proof.
  revert slice r pos. induction sh as [|s sh IH]; intros [|b slice] r pos; simpl; try done.
  case_if; [done|apply IH].
Qed.

Lemma from_pos_bound w sh slice r pos v n :
  from_leb128_bytes_pos w sh slice pos r = Some (v, n) ->
  pos < n /\ n <= pos + Z.of_nat (length sh) /\ n <= pos + Z.of_nat (length slice).
Proof.
  revert slice r pos. induction sh as [|s sh IH]; intros [|b slice] r pos; simpl; try done.
  case_if; [naive_solver lia|]. intros H%IH. lia.
Qed.

Lemma from_it_pos w sh it r pos v n :
  from_leb128_bytes_pos w sh it pos r = Some (v, n) ->
  from_leb128_it w sh it r = (Some v, drop (Z.to_nat (n - pos)) it).
Proof.
  revert it r pos. induction sh as [|s sh IH]; intros [|b it] r pos; simpl; try done.
  case_if; intros H.
  - simplify_eq. by replace (Z.to_nat (pos + 1 - pos)) with 1%nat by lia.
  - rewrite (IH _ _ _ H). apply from_pos_bound in H.
    by replace (Z.to_nat (n - pos)) with (S (Z.to_nat (n - (pos + 1)))) by lia.
Qed.

(** A reader that only skips a value stops where the decoder does. *)
Lemma skip_pos w sh slice r pos v n :
  from_leb128_bytes_pos w sh slice pos r = Some (v, n) ->
  skip_leb128_from pos slice = Some n /\
  skip_leb128_it slice = (Some tt, drop (Z.to_nat (n - pos)) slice).
Proof.
  revert slice r pos. induction sh as [|s sh IH]; intros [|b slice] r pos; simpl; try done.
  case_if; intros H.
  - simplify_eq. by replace (Z.to_nat (pos + 1 - pos)) with 1%nat by lia.
  - destruct (IH _ _ _ H) as [-> ->]. apply from_pos_bound in H.
    by replace (Z.to_nat (n - pos)) with (S (Z.to_nat (n - (pos + 1)))) by lia.
Qed.

(** Writing to a lawful sink is one write of the groups. *)
Lemma writer_groups {W E valid} `{LawfulWriter W E valid} n v k (out : W) :
  valid out -> 0 <= v -> v < 128 ^ Z.of_nat n -> (0 < n)%nat ->
  to_leb128_writer n v k out =
  Some (let? (w, m) := write out (groups n v) in Ok (w, k + m))%result.
Proof.
  revert v k out. induction n as [|n IH]; intros v k out Hok Hv Hn Hpos; [lia|].
  simpl. case_if.
  - by rewrite wrap_small by (unfold in_width; lia).
  - rewrite more_bit, Z.shiftr_div_pow2 by lia. change (2 ^ 7) with 128.
    rewrite Nat2Z.inj_succ, Z.pow_succ_r in Hn by lia.
    pose proof (Z.mod_pos_bound v 128 ltac:(lia)).
    assert (bytes_ok [v mod 128 + 128]) as Hb by (repeat constructor; unfold in_width; lia).
    change (?x :: groups n ?y) with ([x] ++ groups n y).
    rewrite write_app by done.
    destruct (write_total out _ Hok Hb) as (w & -> & Hw). simpl.
    rewrite IH; [|done|apply Z.div_pos; lia|apply Z.div_lt_upper_bound; lia|].
    + destruct (write w (groups n (v / 128))) as [[w2 m]|e]; simpl; [|done].
      do 3 f_equal. lia.
    + destruct n; [|lia]. simpl in Hn. lia.
Qed.

(** Decoding a type's bytes never leaves the type's range. *)
Lemma from_pos_range w sh slice r pos v n :
  0 <= w -> in_width w r ->
  from_leb128_bytes_pos w sh slice pos r = Some (v, n) -> in_width w v.
Proof.
  intros Hw. revert slice r pos.
  induction sh as [|s sh IH]; intros [|b slice] r pos Hr; simpl; try done.
  case_if; intros H; simplify_eq.
  - apply lor_in_width; auto with bearmail.
  - eapply IH, H. apply lor_in_width; auto with bearmail.
Qed.

(** The instances of the macro whose shifts cover the type. *)
Definition covers (t : int_ty) : Prop :=
  exists n, shifts t = shifts_from 0 n /\ (0 < n)%nat /\ (n <= fuel_of t)%nat /\
    7 * (Z.of_nat n - 1) < bits t <= 7 * Z.of_nat n.

Lemma covers_types : Forall covers [t_u16; t_u32; t_u64; t_usize].
Proof.
  repeat constructor; [exists 3%nat|exists 5%nat|exists 10%nat|exists 10%nat];
  (split; [reflexivity|]); unfold fuel_of; simpl; lia.
Qed.

Lemma groups_fuel n m v :
  0 <= v -> v < 128 ^ Z.of_nat n -> (n <= m)%nat -> (0 < n)%nat -> groups m v = groups n v.
Proof.
  revert m v. induction n as [|n IH]; intros m v H0 Hn Hm Hp; [lia|].
  destruct m as [|m]; [lia|]. simpl. case_if; [done|]. f_equal.
  rewrite Nat2Z.inj_succ, Z.pow_succ_r in Hn by lia.
  apply IH; [apply Z.div_pos; lia|apply Z.div_lt_upper_bound; lia|lia|].
  destruct n; [|lia]. simpl in Hn. lia.
Qed.

Lemma covers_bound t n v :
  bits t <= 7 * Z.of_nat n -> in_width (bits t) v -> v < 128 ^ Z.of_nat n.
Proof.
  intros Hb [_ Hv]. eapply Z.lt_le_trans; [exact Hv|].
  change 128 with (2 ^ 7). rewrite <- Z.pow_mul_r by lia.
  apply Z.pow_le_mono_r; lia.
Qed.

(** The groups of a value of a covered type are what the encoder produces
    and the decoder reads back. *)
Lemma leb128_core t v :
  covers t -> in_width (bits t) v ->
  exists n, (0 < fuel_of t)%nat /\ v < 128 ^ Z.of_nat (fuel_of t) /\
    groups (fuel_of t) v = groups n v /\ 7 * (Z.of_nat n - 1) < bits t /\
    forall rest, read_leb128 t (groups n v ++ rest) = Some (v, Z.of_nat (length (groups n v))).
Proof.
  intros (n & Hsh & Hp & Hf & Hb) Hv. exists n.
  pose proof (covers_bound t n v (proj2 Hb) Hv) as Hn. pose proof (proj1 Hv) as H0.
  repeat split; [lia| |by apply groups_fuel|lia|].
  - eapply Z.lt_le_trans; [exact Hn|]. apply Z.pow_le_mono_r; lia.
  - intros rest. unfold read_leb128. rewrite Hsh, decode_groups with (n := n); try done.
    + by rewrite Z.pow_0_r, Z.mul_1_r, Z.add_0_l.
    + rewrite Z.pow_0_r, Z.mul_1_r. apply Hv.
Qed.

(** ** Properties *)

(** For every type whose shifts cover it (u16, u32, u64, usize) and
    every value of the type, the encoder terminates within its fuel, the
    vector and the counting writer receive the same bytes, as few as the
    width allows, and each of the three decoders and two skippers, given
    those bytes and any bytes after them, returns the value and stops
    exactly where the encoding ends. *)
Theorem leb128_roundtrip t v rest :
  covers t -> in_width (bits t) v ->
  exists out,
    push_leb128 t [] v = Some out /\
    write_leb128 t [] v = Some (Ok (out, Z.of_nat (length out))) /\
    bytes_ok out /\ 7 * (Z.of_nat (length out) - 1) < bits t /\
    read_leb128 t (out ++ rest) = Some (v, Z.of_nat (length out)) /\
    from_leb128_bytes (bits t) (shifts t) (out ++ rest) 0 = Some v /\
    next_leb128 t (out ++ rest) = (Some v, rest) /\
    skip_leb128_it (out ++ rest) = (Some tt, rest) /\
    skip_leb128_from 0 (out ++ rest) = Some (Z.of_nat (length out)).
Proof.
  intros Hc Hv. pose proof (proj1 Hv) as H0.
  destruct (leb128_core t v Hc Hv) as (n & Hf & Hn & H1 & Hb & Hr'). specialize (Hr' rest).
  exists (groups n v). unfold push_leb128, write_leb128, next_leb128.
  rewrite to_leb128_groups, writer_groups, H1 by (done || lia).
  unfold write, vec_writer. simpl.
  pose proof (groups_length n v). unfold read_leb128 in *.
  destruct (skip_pos _ _ _ _ _ _ _ Hr') as [Hs1 Hs2].
  rewrite (from_bytes_pos _ _ _ _ 0), (from_it_pos _ _ _ _ _ _ _ Hr'), Hr', Hs1, Hs2.
  rewrite Z.sub_0_r, Nat2Z.id, drop_app_length.
  repeat split; auto using groups_bytes; lia.
Qed.

Lemma leb128_roundtrip_witness :
  covers t_u16 /\ in_width (bits t_u16) 300 /\
  push_leb128 t_u16 [] 300 = Some [172; 2] /\
  exists out,
    push_leb128 t_u16 [] 300 = Some out /\ read_leb128 t_u16 (out ++ [7]) = Some (300, Z.of_nat (length out)).
Proof.
  assert (covers t_u16) as Hc.
  { exists 3%nat. split; [reflexivity|]. unfold fuel_of. simpl. lia. }
  assert (in_width (bits t_u16) 300) as Hv by (unfold in_width; simpl; lia).
  split; [exact Hc|]. split; [exact Hv|]. split; [reflexivity|].
  destruct (leb128_roundtrip t_u16 300 [7] Hc Hv) as (out & H1 & _ & _ & _ & H2 & _).
  exists out. split; [exact H1|exact H2].
Defined.

(** Decoding arbitrary bytes never goes out of the type's range, reads
    at least one byte, and reads no byte beyond the slice or beyond the
    type's shifts. *)
Theorem leb128_decode_range t slice v n :
  0 <= bits t -> read_leb128 t slice = Some (v, n) ->
  in_width (bits t) v /\ 0 < n /\ n <= Z.of_nat (length slice) /\
  n <= Z.of_nat (length (shifts t)).
Proof.
  intros Hb H. pose proof (from_pos_bound _ _ _ _ _ _ _ H).
  apply from_pos_range in H; [|done|]; [|unfold in_width]; lia || auto.
  split; [|lia]. apply H.
Qed.

(** An overlong encoding of zero is accepted too. *)
Lemma leb128_decode_range_witness :
  read_leb128 t_u32 [128; 128; 0; 1] = Some (0, 3) /\ in_width 32 0.
Proof.
  split; [reflexivity|].
  exact (proj1 (leb128_decode_range t_u32 [128; 128; 0; 1] 0 3 ltac:(simpl; lia) eq_refl)).
Defined.

(** Writing a value of a covered type to a lawful sink is one write of at
    most as many bytes as the type has shifts. *)
Lemma write_leb128_groups {W E valid} `{LawfulWriter W E valid} t v (out : W) :
  covers t -> in_width (bits t) v -> valid out ->
  exists bs w, bytes_ok bs /\ write out bs = Ok (w, Z.of_nat (length bs)) /\ valid w /\
    write_leb128 t out v = Some (Ok (w, Z.of_nat (length bs))) /\
    (forall rest, next_leb128 t (bs ++ rest) = (Some v, rest)).
Proof.
  intros Hc Hv Hok. destruct (leb128_core t v Hc Hv) as (n & Hf & Hn & H1 & _ & H2).
  destruct (write_total out (groups n v) Hok) as (w & Hw & Hw').
  { apply groups_bytes, Hv. }
  exists (groups n v), w. repeat split; auto.
  - apply groups_bytes, Hv.
  - unfold write_leb128. destruct Hv.
    rewrite writer_groups by (done || lia). rewrite H1, Hw. done.
  - intros rest. pose proof (H2 rest) as H3. unfold next_leb128, read_leb128 in *.
    rewrite (from_it_pos _ _ _ _ _ _ _ H3), Z.sub_0_r, Nat2Z.id.
    by rewrite drop_app_length.
Qed.

(** The [u8] instance has a single shift: no value that takes two bytes can
    be read back. *)
Theorem leb128_u8_lossy v :
  128 <= v < 256 ->
  exists out, push_leb128 t_u8 [] v = Some out /\ read_leb128 t_u8 out = None.
Proof.
  intros Hv. exists (groups 8 v). split.
  - unfold push_leb128. rewrite to_leb128_groups; [done|lia| |unfold fuel_of; simpl; lia].
    change (128 ^ Z.of_nat (fuel_of t_u8)) with (2 ^ 56). lia.
  - unfold read_leb128. simpl. case_if; [lia|]. simpl.
    destruct (top_bit_set (v mod 128)) as [-> _]; [|done].
    pose proof (Z.mod_pos_bound v 128). lia.
Qed.
