(* ===== verification/Base32.v ===== *)
(** * Custom base32 ([crates/utils/src/codec/base32_custom.rs])

    A streaming encoder that turns every five bytes into eight letters of a
    private alphabet, and the streaming decoder that turns them back.  The
    encoder is a [Writer], so LEB128 integers are written through it, and
    the decoder is an iterator that LEB128 integers are read from. *)

From S2P Require Import Prelude Leb128.

(** ** Tables *)

(* [crates/utils/src/codec/base32_custom.rs:10] BASE32_ALPHABET *)
Definition BASE32_ALPHABET : list Z := s#"abcdefghijklmnopqrstuvwxyz792013".

(* [crates/utils/src/codec/base32_custom.rs:11-25] BASE32_INVERSE *)
Definition BASE32_INVERSE : list Z :=
  replicate 48 255 ++ [29; 30; 28; 31; 255; 255; 255; 26; 255; 27] ++
  replicate 7 255 ++ seqZ 0 26 ++ replicate 6 255 ++ seqZ 0 26 ++ replicate 133 255.

(** ** The encoder *)

(* [crates/utils/src/codec/base32_custom.rs:27-31] Base32Writer *)
Record Base32Writer := mkWriter { last_byte : Z; pos : Z; result : list Z }.

(** The capacity is only an allocation hint. *)
(* [crates/utils/src/codec/base32_custom.rs:41-51] Base32Writer::with_capacity *)
Definition with_capacity : Base32Writer := mkWriter 0 0 [].

(* [crates/utils/src/codec/base32_custom.rs:53-55] Base32Writer::push_char *)
Definition push_char (w : Base32Writer) (ch : Z) : Base32Writer :=
  mkWriter (last_byte w) (pos w) (result w ++ [ch]).

(* [crates/utils/src/codec/base32_custom.rs:57-59] Base32Writer::push_string *)
Definition push_string (w : Base32Writer) (string : list Z) : Base32Writer :=
  mkWriter (last_byte w) (pos w) (result w ++ string).

(** The two five-bit codes a byte gives at position [p] of its group of
    five; 255 (u8::MAX) stands for no second code. *)
(* [crates/utils/src/codec/base32_custom.rs:62-80] Base32Writer::push_byte *)
Definition codes (p last byte : Z) : Z * Z :=
  if p =? 0 then (Z.shiftr (Z.land byte 248) 3, 255)
  else if p =? 1 then
    (Z.lor (Z.shiftl (Z.land last 7) 2) (Z.shiftr (Z.land byte 192) 6),
     Z.shiftr (Z.land byte 62) 1)
  else if p =? 2 then
    (Z.lor (Z.shiftl (Z.land last 1) 4) (Z.shiftr (Z.land byte 240) 4), 255)
  else if p =? 3 then
    (Z.lor (Z.shiftl (Z.land last 15) 1) (Z.shiftr byte 7),
     Z.shiftr (Z.land byte 124) 2)
  else
    (Z.lor (Z.shiftl (Z.land last 3) 3) (Z.shiftr (Z.land byte 224) 5),
     Z.land byte 31).

(** Indexing the alphabet; [None] is the panic of an index out of range. *)
Definition letter (code : Z) : option Z := BASE32_ALPHABET !! Z.to_nat code.

(* [crates/utils/src/codec/base32_custom.rs:61-91] Base32Writer::push_byte *)
Definition push_byte (w : Base32Writer) (byte : Z) (is_remainder : bool) :
    option Base32Writer :=
  let '(ch1, ch2) := codes (pos w mod 5) (last_byte w) byte in
  l1 ← letter ch1;
  let result := result w ++ [l1] in
  if negb is_remainder then
    if negb (ch2 =? 255) then
      l2 ← letter ch2; Some (mkWriter byte (pos w + 1) (result ++ [l2]))
    else Some (mkWriter byte (pos w + 1) result)
  else Some (mkWriter (last_byte w) (pos w) result).

(** The loop of [Write::write]. *)
(* [crates/utils/src/codec/base32_custom.rs:103-111] Base32Writer::write *)
Fixpoint write_bytes (w : Base32Writer) (bytes : list Z) : option Base32Writer :=
  match bytes with
  | [] => Some w
  | byte :: bytes => w ← push_byte w byte false; write_bytes w bytes
  end.

(* [crates/utils/src/codec/base32_custom.rs:93-99] Base32Writer::finalize *)
Definition finalize (w : Base32Writer) : option (list Z) :=
  if negb (pos w mod 5 =? 0) then result <$> push_byte w 0 true
  else Some (result w).

(* [crates/utils/src/codec/base32_custom.rs:34-39] Base32Writer::from_bytes *)
Definition from_bytes (bytes : list Z) : option Base32Writer :=
  write_bytes with_capacity bytes.

(** As a sink the encoder takes every byte it is given; a panic is the
    error [tt]. *)
#[export] Instance base32_writer : Writer Base32Writer unit :=
  fun w bytes =>
    match write_bytes w bytes with
    | Some w' => Ok (w', pos w' - pos w)
    | None => Err tt
    end.

(** ** The decoder *)

(* [crates/utils/src/codec/base32_custom.rs:119-123] Base32Reader *)
Record Base32Reader := mkReader { bytes : list Z; rlast : Z; rpos : Z }.

(* [crates/utils/src/codec/base32_custom.rs:126-141] Base32Reader::new *)
Definition new (bytes : list Z) : Base32Reader := mkReader bytes 0 0.

(** [None] of the first component is the end of the input or a letter that
    is not of the alphabet, which is consumed. *)
(* [crates/utils/src/codec/base32_custom.rs:144-155] Base32Reader::map_byte *)
Definition map_byte (r : Base32Reader) : option Z * Base32Reader :=
  match bytes r with
  | b :: rest =>
      let byte := nth (Z.to_nat b) BASE32_INVERSE 255 in
      if negb (byte =? 255) then (Some byte, mkReader rest byte (rpos r))
      else (None, mkReader rest (rlast r) (rpos r))
  | [] => (None, r)
  end.

Definition u8_shl (x n : Z) : Z := wrap 8 (Z.shiftl x n).

(* [crates/utils/src/codec/base32_custom.rs:160-174] Base32Reader::next *)
Definition next (r : Base32Reader) : option Z * Base32Reader :=
  let p := rpos r mod 5 in
  let last := rlast r in
  match map_byte r with
  | (None, r) => (None, r)
  | (Some byte, r) =>
      let r := mkReader (bytes r) (rlast r) (rpos r + 1) in
      let more (r : Base32Reader) : Z * Base32Reader :=
        let '(o, r) := map_byte r in (default 0 o, r) in
      if p =? 0 then
        let '(m, r) := more r in
        (Some (Z.lor (u8_shl byte 3) (Z.shiftr m 2)), r)
      else if p =? 1 then
        let '(m, r) := more r in
        (Some (Z.lor (Z.lor (u8_shl last 6) (u8_shl byte 1)) (Z.shiftr m 4)), r)
      else if p =? 2 then (Some (Z.lor (u8_shl last 4) (Z.shiftr byte 1)), r)
      else if p =? 3 then
        let '(m, r) := more r in
        (Some (Z.lor (Z.lor (u8_shl last 7) (u8_shl byte 2)) (Z.shiftr m 3)), r)
      else (Some (Z.lor (u8_shl last 5) byte), r)
  end.

(** A [for] loop over the decoder: the items up to the first [None].  Every
    item consumes a letter, so one unit of fuel per letter and one more for
    the end is enough ([collect_fuel] below). *)
Fixpoint collect (fuel : nat) (r : Base32Reader) : option (list Z) :=
  match fuel with
  | O => None
  | S fuel =>
      match next r with
      | (None, _) => Some []
      | (Some b, r) => cons b <$> collect fuel r
      end
  end.

Definition decode (letters : list Z) : option (list Z) :=
  collect (S (length letters)) (new letters).

(** ** The code sequence of a byte string

    [enc p last bs] is the sequence of five-bit codes the encoder emits for
    [bs] from position [p] of a group whose previous byte was [last], the
    remainder of [finalize] included. *)

Fixpoint enc (p last : Z) (bs : list Z) : list Z :=
  match bs with
  | [] => if p =? 0 then [] else [fst (codes p last 0)]
  | b :: bs =>
      fst (codes p last b) ::
      (if snd (codes p last b) =? 255 then [] else [snd (codes p last b)]) ++
      enc ((p + 1) mod 5) b bs
  end.

Definition in_code (c : Z) : bool := (0 <=? c) && (c <? 32).

(** The letter of a code, for codes in range. *)
Definition letter_of (c : Z) : Z := default 0 (letter c).

Lemma letter_code c :
  in_code c = true ->
  letter c = Some (letter_of c) /\ nth (Z.to_nat (letter_of c)) BASE32_INVERSE 255 = c /\ (c =? 255) = false.
Proof.
  intros Hc.
  assert (forallb (fun c => bool_decide (letter c = Some (letter_of c)) &&
    (nth (Z.to_nat (letter_of c)) BASE32_INVERSE 255 =? c) && negb (c =? 255)) (seqZ 0 32) = true) as H
    by (vm_compute; reflexivity).
  rewrite forallb_forall in H. specialize (H c).
  unfold in_code in Hc. bool_to_prop.
  assert (In c (seqZ 0 32)) as Hin by (apply list_elem_of_In, elem_of_seqZ; lia).
  apply H in Hin. apply andb_true_iff in Hin as [[Ha%bool_decide_eq_true Hb%Z.eqb_eq]%andb_true_iff Hd].
  apply negb_true_iff in Hd. done.
Qed.

(** The first code joins low bits of the previous byte and high bits of
    the current one. *)
Definition pre (p last : Z) : Z :=
  if p =? 0 then 0 else if p =? 1 then Z.shiftl (Z.land last 7) 2
  else if p =? 2 then Z.shiftl (Z.land last 1) 4
  else if p =? 3 then Z.shiftl (Z.land last 15) 1 else Z.shiftl (Z.land last 3) 3.

Definition high (p byte : Z) : Z := fst (codes p 0 byte).

Lemma codes_split p last byte :
  codes p last byte = (Z.lor (pre p last) (high p byte), snd (codes p 0 byte)).
Proof. unfold high, pre, codes. repeat case_if; rewrite ?Z.lor_0_l; done. Qed.

Ltac each_position p :=
  let Hc := fresh in
  assert (p = 0 \/ p = 1 \/ p = 2 \/ p = 3 \/ p = 4) as Hc by lia;
  destruct Hc as [-> | [-> | [-> | [-> | ->]]]].

Definition is_in_width (w v : Z) : bool := (0 <=? v) && (v <? 2 ^ w).

Lemma is_in_width_spec w v : is_in_width w v = true <-> in_width w v.
Proof. unfold is_in_width, in_width. rewrite andb_true_iff, Z.leb_le, Z.ltb_lt. done. Qed.

Lemma pre_range p last : 0 <= p < 5 -> in_width 8 last -> in_width 5 (pre p last).
Proof.
  intros Hp Hl. apply is_in_width_spec. revert last Hl.
  each_position p; apply (byte_forall (fun l => is_in_width 5 (pre _ l))); vm_compute; reflexivity.
Qed.

Lemma high_range p byte : 0 <= p < 5 -> in_width 8 byte -> in_width 5 (high p byte).
Proof.
  intros Hp Hb. apply is_in_width_spec. revert byte Hb.
  each_position p; apply (byte_forall (fun l => is_in_width 5 (high _ l))); vm_compute; reflexivity.
Qed.

Lemma in_code_width c : in_code c = true <-> in_width 5 c.
Proof. apply (is_in_width_spec 5). Qed.

Lemma fst_codes_range p last byte :
  0 <= p < 5 -> in_width 8 last -> in_width 8 byte -> in_code (fst (codes p last byte)) = true.
Proof.
  intros Hp Hl Hb. rewrite codes_split. apply in_code_width. simpl.
  apply lor_in_width; [lia|by apply pre_range|by apply high_range].
Qed.

Lemma snd_codes_range p last byte :
  0 <= p < 5 -> in_width 8 last -> in_width 8 byte ->
  in_code (snd (codes p last byte)) = true \/ snd (codes p last byte) = 255.
Proof.
  intros Hp _ Hb. rewrite codes_split. cbn [snd]. rewrite <- Z.eqb_eq, <- orb_true_iff.
  revert byte Hb. each_position p;
    apply (byte_forall (fun b => in_code (snd (codes _ 0 b)) || (snd (codes _ 0 b) =? 255)));
    vm_compute; reflexivity.
Qed.

Lemma zero_byte : in_width 8 0.
Proof. unfold in_width. lia. Qed.

Lemma enc_codes p last bs :
  0 <= p < 5 -> in_width 8 last -> bytes_ok bs -> Forall (fun c => in_code c = true) (enc p last bs).
Proof.
  intros Hp Hl Hbs. revert p last Hp Hl.
  induction Hbs as [|b bs Hb Hbs IH]; intros p last Hp Hl; simpl.
  - case_if; repeat constructor. apply fst_codes_range; auto using zero_byte.
  - constructor; [by apply fst_codes_range|]. apply Forall_app. split.
    + case_if; repeat constructor.
      destruct (snd_codes_range p last b); done.
    + apply IH; [apply Z.mod_pos_bound; lia|done].
Qed.

Lemma push_byte_spec w b :
  0 <= pos w -> in_width 8 (last_byte w) -> in_width 8 b ->
  push_byte w b false =
  Some (mkWriter b (pos w + 1) (result w ++ letter_of (fst (codes (pos w mod 5) (last_byte w) b)) ::
    (if snd (codes (pos w mod 5) (last_byte w) b) =? 255 then []
     else [letter_of (snd (codes (pos w mod 5) (last_byte w) b))]))).
Proof.
  intros Hp Hl Hb. pose proof (Z.mod_pos_bound (pos w) 5 ltac:(lia)) as Hm.
  pose proof (fst_codes_range _ _ _ Hm Hl Hb) as H1.
  pose proof (snd_codes_range _ _ _ Hm Hl Hb) as H2. unfold push_byte.
  destruct (codes (pos w mod 5) (last_byte w) b) as [c1 c2]. simpl in *.
  destruct (letter_code _ H1) as [-> _]. simpl. destruct (c2 =? 255) eqn:E; simpl.
  - done.
  - destruct H2 as [H2|H2]; [|by rewrite H2 in E].
    destruct (letter_code _ H2) as [-> _]. simpl. by rewrite <- app_assoc.
Qed.

Lemma write_finalize w bs :
  0 <= pos w -> in_width 8 (last_byte w) -> bytes_ok bs ->
  (w' ← write_bytes w bs; finalize w') =
  Some (result w ++ (letter_of <$> enc (pos w mod 5) (last_byte w) bs)).
Proof.
  intros Hp Hl Hbs. revert w Hp Hl.
  induction Hbs as [|b bs Hb Hbs IH]; intros w Hp Hl; simpl.
  - unfold finalize. destruct (pos w mod 5 =? 0) eqn:E; simpl; [by rewrite app_nil_r|].
    unfold push_byte. pose proof (Z.mod_pos_bound (pos w) 5 ltac:(lia)) as Hm.
    pose proof (fst_codes_range _ _ 0 Hm Hl zero_byte) as H1.
    destruct (codes (pos w mod 5) (last_byte w) 0) as [c1 c2]. simpl in *.
    by destruct (letter_code _ H1) as [-> _].
  - rewrite push_byte_spec by done. simpl. rewrite IH by (done || simpl; lia). simpl.
    rewrite <- app_assoc. simpl. rewrite fmap_app, Zplus_mod_idemp_l.
    do 3 f_equal. by case_if.
Qed.

(** ** The decoder on code sequences *)

Lemma map_byte_letter c rest l p :
  in_code c = true ->
  map_byte (mkReader (letter_of c :: rest) l p) = (Some c, mkReader rest c p).
Proof.
  intros Hc. destruct (letter_code c Hc) as (_ & H1 & H2).
  unfold map_byte. cbn [bytes rlast rpos]. rewrite H1, H2. done.
Qed.

(** What the bits of consecutive codes say about a byte, for each position. *)
Definition byte_of_codes (p L b b' : Z) : bool :=
  let c := fst (codes p L b) in
  let d := snd (codes p L b) in
  let e := fst (codes ((p + 1) mod 5) b b') in
  if p =? 0 then Z.lor (u8_shl c 3) (Z.shiftr e 2) =? b
  else if p =? 1 then Z.lor (Z.lor (u8_shl c 6) (u8_shl d 1)) (Z.shiftr e 4) =? b
  else if p =? 2 then Z.lor (u8_shl c 4) (Z.shiftr e 1) =? b
  else if p =? 3 then Z.lor (Z.lor (u8_shl c 7) (u8_shl d 2)) (Z.shiftr e 3) =? b
  else Z.lor (u8_shl c 5) d =? b.

Lemma u8_shl_lor a b n : u8_shl (Z.lor a b) n = Z.lor (u8_shl a n) (u8_shl b n).
Proof.
  unfold u8_shl, wrap. rewrite <- !Z.land_ones by lia.
  by rewrite Z.shiftl_lor, Z.land_lor_distr_l.
Qed.

(** How far the first code of position [p] is shifted into its byte, and
    how much of the code after it is shifted out. *)
Definition up (p : Z) : Z :=
  if p =? 0 then 3 else if p =? 1 then 6 else if p =? 2 then 4 else if p =? 3 then 7 else 5.
Definition down (p : Z) : Z :=
  if p =? 0 then 2 else if p =? 1 then 4 else if p =? 2 then 1 else if p =? 3 then 3 else 5.

(** The bits that belong to the previous byte are shifted out. *)
Lemma pre_shifted_out p last :
  0 <= p < 5 -> in_width 8 last -> u8_shl (pre p last) (up p) = 0.
Proof.
  intros Hp Hl. apply Z.eqb_eq. revert last Hl.
  each_position p; apply (byte_forall (fun l => u8_shl (pre _ l) (up _) =? 0));
    vm_compute; reflexivity.
Qed.

(** So are the bits of the next code that belong to the next byte. *)
Lemma high_shifted_out p byte :
  0 <= p < 5 -> in_width 8 byte -> Z.shiftr (high ((p + 1) mod 5) byte) (down p) = 0.
Proof.
  intros Hp Hb. apply Z.eqb_eq. revert byte Hb.
  each_position p; apply (byte_forall (fun b => Z.shiftr (high ((_ + 1) mod 5) b) (down _) =? 0));
    vm_compute; reflexivity.
Qed.

Lemma byte_of_codes_split p L b b' :
  0 <= p < 5 -> in_width 8 L -> in_width 8 b -> in_width 8 b' ->
  byte_of_codes p L b b' = byte_of_codes p 0 b 0.
Proof.
  intros Hp HL Hb Hb'.
  assert (u8_shl (fst (codes p L b)) (up p) = u8_shl (fst (codes p 0 b)) (up p)) as H1.
  { rewrite codes_split, (codes_split p 0). cbn [fst].
    rewrite !u8_shl_lor, !pre_shifted_out by (done || unfold in_width; lia). done. }
  assert (Z.shiftr (fst (codes ((p + 1) mod 5) b b')) (down p) =
          Z.shiftr (fst (codes ((p + 1) mod 5) b 0)) (down p)) as H2.
  { rewrite codes_split, (codes_split _ b 0). cbn [fst].
    rewrite !Z.shiftr_lor, !high_shifted_out by (done || unfold in_width; lia). done. }
  assert (snd (codes p L b) = snd (codes p 0 b)) as H3 by (by rewrite codes_split).
  unfold byte_of_codes. rewrite H3. revert H1 H2. unfold up, down.
  each_position p; cbn [Z.eqb Pos.eqb]; intros H1 H2; rewrite ?H1, ?H2; done.
Qed.

Lemma byte_of_codes_ok p L b b' :
  0 <= p < 5 -> in_width 8 L -> in_width 8 b -> in_width 8 b' -> byte_of_codes p L b b' = true.
Proof.
  intros Hp HL Hb Hb'. rewrite byte_of_codes_split by done. revert b Hb.
  each_position p; apply (byte_forall (fun b => byte_of_codes _ 0 b 0)); vm_compute; reflexivity.
Qed.

Lemma enc_cons p L bs :
  p <> 0 -> exists cs, enc p L bs = fst (codes p L (hd 0 bs)) :: cs.
Proof. intros Hp. destruct bs as [|b bs]; simpl; [|eauto]. case_if; [done|eauto]. Qed.

(** The reader after the encoder's position [p] with previous byte [L]: in
    the middle of a group it has already consumed the next code. *)
Definition reader_at (p L last rp : Z) (bs : list Z) : Base32Reader :=
  if p =? 0 then mkReader (letter_of <$> enc 0 L bs) last rp
  else mkReader (letter_of <$> tail (enc p L bs)) (hd 0 (enc p L bs)) rp.

Lemma next_end p L last rp :
  rp mod 5 = p -> exists r, next (reader_at p L last rp []) = (None, r).
Proof.
  intros Hp. unfold reader_at, next. destruct (p =? 0) eqn:E; simpl; rewrite ?E; simpl; eauto.
Qed.

Lemma snd_codes_255 p L b :
  0 <= p < 5 -> in_width 8 b ->
  (snd (codes p L b) =? 255) = (p =? 0) || (p =? 2).
Proof.
  intros Hp Hb. apply eqb_prop. revert b Hb.
  each_position p; apply byte_forall; vm_compute; reflexivity.
Qed.

Section Next.
Context (c e l rp : Z) (r : list Z) (Hc : in_code c = true) (He : in_code e = true).

Lemma next_0 : rp mod 5 = 0 ->
  next (mkReader (letter_of c :: letter_of e :: r) l rp) =
  (Some (Z.lor (u8_shl c 3) (Z.shiftr e 2)), mkReader r e (rp + 1)).
Proof.
  intros Hp. unfold next. cbn [rpos]. rewrite Hp, map_byte_letter by done.
  cbn [bytes rlast rpos]. by rewrite map_byte_letter.
Qed.

Lemma next_1 : rp mod 5 = 1 ->
  next (mkReader (letter_of c :: letter_of e :: r) l rp) =
  (Some (Z.lor (Z.lor (u8_shl l 6) (u8_shl c 1)) (Z.shiftr e 4)), mkReader r e (rp + 1)).
Proof.
  intros Hp. unfold next. cbn [rpos]. rewrite Hp, map_byte_letter by done.
  cbn [bytes rlast rpos]. by rewrite map_byte_letter.
Qed.

Lemma next_2 : rp mod 5 = 2 ->
  next (mkReader (letter_of e :: r) l rp) =
  (Some (Z.lor (u8_shl l 4) (Z.shiftr e 1)), mkReader r e (rp + 1)).
Proof. intros Hp. unfold next. cbn [rpos]. by rewrite Hp, map_byte_letter. Qed.

Lemma next_3 : rp mod 5 = 3 ->
  next (mkReader (letter_of c :: letter_of e :: r) l rp) =
  (Some (Z.lor (Z.lor (u8_shl l 7) (u8_shl c 2)) (Z.shiftr e 3)), mkReader r e (rp + 1)).
Proof.
  intros Hp. unfold next. cbn [rpos]. rewrite Hp, map_byte_letter by done.
  cbn [bytes rlast rpos]. by rewrite map_byte_letter.
Qed.

Lemma next_4 : rp mod 5 = 4 ->
  next (mkReader (letter_of e :: r) l rp) =
  (Some (Z.lor (u8_shl l 5) e), mkReader r e (rp + 1)).
Proof. intros Hp. unfold next. cbn [rpos]. by rewrite Hp, map_byte_letter. Qed.
End Next.

Ltac next_case q Hok H255 Hcs :=
  match goal with |- context [enc (?e mod 5) ?b ?bs] => change (e mod 5) with q in * end;
  cbn [Z.eqb Pos.eqb orb] in Hok, H255; apply Z.eqb_eq in Hok;
  rewrite ?H255; destruct Hcs as [cs ->]; [done|]; exists 0;
  cbn [Z.eqb Pos.eqb app hd list.tail]; rewrite ?fmap_cons.

Lemma next_byte p L last rp b bs :
  rp mod 5 = p -> in_width 8 L -> in_width 8 b -> bytes_ok bs ->
  exists last',
    next (reader_at p L last rp (b :: bs)) =
    (Some b, reader_at ((p + 1) mod 5) b last' (rp + 1) bs).
Proof.
  intros Hp HL Hb Hbs.
  assert (0 <= p < 5) as Hr by (subst p; apply Z.mod_pos_bound; lia).
  assert (in_width 8 (hd 0 bs)) as Hh by (destruct Hbs; simpl; auto using zero_byte).
  pose proof (byte_of_codes_ok p L b (hd 0 bs) Hr HL Hb Hh) as Hok.
  pose proof (fst_codes_range p L b Hr HL Hb) as Hc.
  pose proof (snd_codes_range p L b Hr HL Hb) as Hd.
  pose proof (fst_codes_range ((p + 1) mod 5) b (hd 0 bs) ltac:(apply Z.mod_pos_bound; lia) Hb Hh) as He.
  pose proof (snd_codes_255 p L b Hr Hb) as H255.
  pose proof (enc_cons ((p + 1) mod 5) b bs) as Hcs.
  unfold byte_of_codes in Hok. unfold reader_at. cbn [enc].
  assert (p = 0 \/ p = 1 \/ p = 2 \/ p = 3 \/ p = 4) as Hcase by lia.
  destruct Hcase as [-> | [-> | [-> | [-> | ->]]]].
  - next_case 1 Hok H255 Hcs. rewrite next_0 by done. by rewrite Hok.
  - next_case 2 Hok H255 Hcs. destruct Hd as [Hd|Hd]; [|by rewrite Hd in H255].
    rewrite next_1 by done. by rewrite Hok.
  - next_case 3 Hok H255 Hcs. rewrite next_2 by done. by rewrite Hok.
  - next_case 4 Hok H255 Hcs. destruct Hd as [Hd|Hd]; [|by rewrite Hd in H255].
    rewrite next_3 by done. by rewrite Hok.
  - destruct Hd as [Hd|Hd]; [|by rewrite Hd in H255].
    cbn [Z.eqb Pos.eqb orb] in Hok, H255. apply Z.eqb_eq in Hok.
    exists (snd (codes 4 L b)). change ((4 + 1) mod 5) with 0. rewrite H255.
    cbn [Z.eqb Pos.eqb app hd list.tail]. rewrite fmap_cons, next_4 by done. by rewrite Hok.
Qed.

Lemma collect_enc bs p L last rp fuel :
  rp mod 5 = p -> in_width 8 L -> bytes_ok bs -> (length bs < fuel)%nat ->
  collect fuel (reader_at p L last rp bs) = Some bs.
Proof.
  intros Hp HL Hbs. revert p L last rp fuel Hp HL.
  induction Hbs as [|b bs Hb Hbs IH]; intros p L last rp fuel Hp HL Hf.
  - destruct fuel; [simpl in Hf; lia|]. simpl.
    by destruct (next_end p L last rp Hp) as [r ->].
  - destruct fuel; [simpl in Hf; lia|]. simpl.
    destruct (next_byte p L last rp b bs Hp HL Hb Hbs) as [last' ->].
    rewrite IH; try done; [|simpl in Hf; lia].
    by rewrite <- Zplus_mod_idemp_l, Hp.
Qed.

Lemma enc_length p L bs : (length bs <= length (enc p L bs))%nat.
Proof.
  revert p L. induction bs as [|b bs IH]; intros p L; simpl; [lia|].
  rewrite length_app. specialize (IH ((p + 1) mod 5) b). lia.
Qed.

(** ** The encoder as a lawful sink *)

Definition writer_ok (w : Base32Writer) : Prop := 0 <= pos w /\ in_width 8 (last_byte w).

Lemma write_bytes_total w bs :
  writer_ok w -> bytes_ok bs ->
  exists w', write_bytes w bs = Some w' /\ writer_ok w' /\
    pos w' = pos w + Z.of_nat (length bs).
Proof.
  intros Hw Hbs. revert w Hw. induction Hbs as [|b bs Hb Hbs IH]; intros w [Hp Hl].
  - exists w. simpl. repeat split; try done; try apply Hl. lia.
  - simpl. rewrite push_byte_spec by done. simpl.
    match goal with |- context [write_bytes ?w1 bs] => destruct (IH w1) as (w' & -> & Hw' & Hp') end.
    + split; simpl; [lia|done].
    + exists w'. simpl in Hp'. repeat split; try apply Hw'. lia.
Qed.

Lemma write_bytes_app w a b :
  write_bytes w (a ++ b) = (w' ← write_bytes w a; write_bytes w' b).
Proof.
  revert w. induction a as [|x a IH]; intros w; [done|].
  simpl. destruct (push_byte w x false); simpl; [apply IH|done].
Qed.

#[export] Instance base32_lawful : LawfulWriter Base32Writer unit writer_ok.
Proof.
  split.
  - intros w bs Hw Hbs. destruct (write_bytes_total w bs Hw Hbs) as (w' & H1 & Hw' & Hp).
    exists w'. unfold write, base32_writer. rewrite H1, Hp. split; [|done].
    do 2 f_equal. lia.
  - intros w a b _. unfold write, base32_writer. rewrite write_bytes_app.
    destruct (write_bytes w a) as [w1|]; simpl; [|done].
    destruct (write_bytes w1 b) as [w2|]; simpl; [|done]. do 2 f_equal. lia.
Qed.

Lemma base32_decodes bs :
  bytes_ok bs ->
  exists letters,
    (w ← from_bytes bs; finalize w) = Some letters /\
    Forall (fun l => In l BASE32_ALPHABET) letters /\
    decode letters = Some bs.
Proof.
  intros Hbs. exists (letter_of <$> enc 0 0 bs). unfold from_bytes.
  rewrite (write_finalize with_capacity bs); [|simpl; lia|apply zero_byte|done].
  split; [done|]. split.
  - pose proof (enc_codes 0 0 bs ltac:(lia) zero_byte Hbs) as Henc.
    apply Forall_fmap. revert Henc. apply Forall_impl. intros c Hc. change (In (letter_of c) BASE32_ALPHABET).
    destruct (letter_code c Hc) as [Hl _]. unfold letter in Hl.
    apply list_elem_of_In, (list_elem_of_lookup_2 _ _ _ Hl).
  - unfold decode. rewrite length_fmap. pose proof (enc_length 0 0 bs).
    apply (collect_enc bs 0 0 0 0); [done|apply zero_byte|done|lia].
Qed.

(** ** Properties *)

(** Encoding any byte string succeeds (no index ever leaves the
    alphabet) and produces letters of the alphabet only; decoding the
    letters ends, within one item per letter, with exactly that byte
    string, the partial last group included. *)
Theorem base32_roundtrip bs :
  bytes_ok bs ->
  exists letters,
    (w ← from_bytes bs; finalize w) = Some letters /\
    Forall (fun l => In l BASE32_ALPHABET) letters /\
    decode letters = Some bs.
Proof. apply base32_decodes. Qed.

Lemma base32_roundtrip_witness :
  bytes_ok [84; 4; 43; 77; 62; 55; 92] /\
  exists letters, (w ← from_bytes [84; 4; 43; 77; 62; 55; 92]; finalize w) = Some letters /\
    decode letters = Some [84; 4; 43; 77; 62; 55; 92].
Proof.
  assert (bytes_ok [84; 4; 43; 77; 62; 55; 92]) as H
    by (repeat constructor; unfold in_width; simpl; lia).
  split; [exact H|].
  destruct (base32_roundtrip _ H) as (letters & H1 & _ & H2).
  exists letters. split; [exact H1|exact H2].
Defined.

(** A LEB128 integer written through the base32 encoder, followed by
    any other bytes, is read back from the byte sequence the decoder
    yields, and the bytes after it are left in place. *)
Theorem base32_leb128_roundtrip t v rest :
  covers t -> in_width (bits t) v -> bytes_ok rest ->
  exists w n letters bs,
    write_leb128 t with_capacity v = Some (Ok (w, n)) /\
    (w' ← write_bytes w rest; finalize w') = Some letters /\
    decode letters = Some bs /\
    next_leb128 t bs = (Some v, rest).
Proof.
  intros Hc Hv Hrest.
  destruct (write_leb128_groups t v with_capacity Hc Hv) as (bs & w & Hbs & Hw & Hw' & H1 & H2).
  { split; [simpl; lia|apply zero_byte]. }
  assert (write_bytes with_capacity bs = Some w) as Hwb.
  { unfold write, base32_writer in Hw. by destruct (write_bytes with_capacity bs); simplify_eq. }
  assert (bytes_ok (bs ++ rest)) as Hok by (by apply Forall_app).
  destruct (base32_decodes (bs ++ rest) Hok) as (letters & H3 & _ & H4).
  exists w, (Z.of_nat (length bs)), letters, (bs ++ rest). repeat split; auto.
  unfold from_bytes in H3. rewrite write_bytes_app, Hwb in H3. exact H3.
Qed.

Lemma base32_leb128_roundtrip_witness :
  covers t_u32 /\
  exists w n letters bs,
    write_leb128 t_u32 with_capacity 70000 = Some (Ok (w, n)) /\
    (w' ← write_bytes w [9; 8]; finalize w') = Some letters /\
    decode letters = Some bs /\ next_leb128 t_u32 bs = (Some 70000, [9; 8]).
Proof.
  assert (covers t_u32) as Hc.
  { exists 5%nat. split; [reflexivity|]. unfold fuel_of. simpl. lia. }
  split; [exact Hc|].
  apply (base32_leb128_roundtrip t_u32 70000 [9; 8] Hc).
  - unfold in_width. simpl. lia.
  - repeat constructor; unfold in_width; simpl; lia.
Defined.
