(* ===== verification/JmapId.v ===== *)
(** * JMAP identifiers ([crates/types/src/id.rs])

    A 64-bit identifier, its base32 text (the most significant digit first,
    written by a loop that shifts a word with a stop bit) and the parser of
    that text; and the packing of a prefix and a document number. *)

From S2P Require Import Prelude.
From S2P Require Import Base32.

(* [crates/types/src/id.rs:27] Id *)
Definition Id : Type := Z.

(* [crates/types/src/id.rs:29-33] Id::default *)
Definition default : Id := u64_max.

(* [crates/types/src/id.rs:41-48] Id::from_str, the loop *)
Fixpoint from_str_loop (id : Z) (s : list Z) : option Id :=
  match s with
  | [] => Some id
  | ch :: s =>
      match BASE32_INVERSE !! Z.to_nat ch with
      | Some i => if negb (i =? 255) then from_str_loop (Z.lor (wrap 64 (Z.shiftl id 5)) i) s
                  else None
      | None => None
      end
  end.

(* [crates/types/src/id.rs:38-51] Id::from_str *)
Definition from_str (s : list Z) : option Id := from_str_loop 0 s.

(* [crates/types/src/id.rs:76] QUAD_SHIFT *)
Definition QUAD_SHIFT : Z := 60.
(* [crates/types/src/id.rs:77] QUAD_RESET *)
Definition QUAD_RESET : Z := 4.
(* [crates/types/src/id.rs:80] FIVE_SHIFT *)
Definition FIVE_SHIFT : Z := 59.
(* [crates/types/src/id.rs:81] FIVE_RESET *)
Definition FIVE_RESET : Z := 5.
(* [crates/types/src/id.rs:86] STOP_BIT *)
Definition STOP_BIT : Z := Z.shiftl 1 QUAD_SHIFT.

(** [u64::leading_zeros]. *)
Definition leading_zeros (n : Z) : Z := if n =? 0 then 64 else 63 - Z.log2 n.

(** The alphabet's character; [None] is the panic of an index out of range. *)
(* [crates/types/src/id.rs:112-115] Id::as_string, the final loop *)
Fixpoint emit (fuel : nat) (n : Z) (buf : list Z) : option (list Z) :=
  if n =? STOP_BIT then Some buf
  else match fuel with
  | O => None
  | S fuel =>
      c ← BASE32_ALPHABET !! Z.to_nat (Z.shiftr n FIVE_SHIFT);
      emit fuel (wrap 64 (Z.shiftl n FIVE_RESET)) (buf ++ [c])
  end.

(** The word and the first character that the loop starts with. *)
(* [crates/types/src/id.rs:93-108] Id::as_string *)
Definition first_word (n : Z) : option (Z * list Z) :=
  let i := Z.shiftr n QUAD_SHIFT in
  let n := Z.lor (wrap 64 (Z.shiftl n QUAD_RESET)) 1 in
  if i =? 0 then Some (wrap 64 (Z.shiftl n (leading_zeros n / 5 * 5)), [])
  else c ← BASE32_ALPHABET !! Z.to_nat i; Some (n, [c]).

(** At most thirteen digits are written, so the fuel is never used up. *)
(* [crates/types/src/id.rs:71-120] Id::as_string *)
Definition as_string (id : Id) : option (list Z) :=
  if id =? 0 then Some s#"a"
  else '(n, buf) ← first_word id; emit 13 n buf.

(* [crates/types/src/id.rs:123-125] Id::from_parts *)
Definition from_parts (prefix_id doc_id : Z) : Id := Z.lor (Z.shiftl prefix_id 32) doc_id.

(* [crates/types/src/id.rs:133-135] Id::document_id *)
Definition document_id (id : Id) : Z := wrap 32 id.

(* [crates/types/src/id.rs:138-140] Id::prefix_id *)
Definition prefix_id (id : Id) : Z := wrap 32 (Z.shiftr id 32).

(* [crates/types/src/id.rs:65-67] Id::singleton *)
Definition singleton : Id := 20080258862541.

(* [crates/types/src/id.rs:143-145] Id::is_singleton *)
Definition is_singleton (id : Id) : bool := id =? 20080258862541.

(* [crates/types/src/id.rs:148-150] Id::is_valid *)
Definition is_valid (id : Id) : bool := negb (id =? u64_max).

(** ** Lemmas *)

Definition digit_ok (d : Z) : bool :=
  match BASE32_ALPHABET !! Z.to_nat d with
  | Some c => match BASE32_INVERSE !! Z.to_nat c with Some i => (i =? d) && negb (i =? 255) | None => false end
  | None => false
  end.

Lemma digits_ok d : in_width 5 d ->
  exists c, BASE32_ALPHABET !! Z.to_nat d = Some c /\ BASE32_INVERSE !! Z.to_nat c = Some d /\ d <> 255.
Proof.
  intros Hd.
  assert (forall x, In x (seqZ 0 32) -> digit_ok x = true) as H.
  { apply forallb_forall. vm_compute. reflexivity. }
  specialize (H d). unfold digit_ok in H.
  destruct (BASE32_ALPHABET !! Z.to_nat d) as [c|].
  - exists c. destruct (BASE32_INVERSE !! Z.to_nat c) as [i|].
    + assert ((i =? d) && negb (i =? 255) = true) as E.
      { apply H, list_elem_of_In, elem_of_seqZ. unfold in_width in Hd. lia. }
      bool_to_prop. subst. done.
    + discriminate H. apply list_elem_of_In, elem_of_seqZ. unfold in_width in Hd. lia.
  - discriminate H. apply list_elem_of_In, elem_of_seqZ. unfold in_width in Hd. lia.
Qed.

(** The word of the loop with [j] digits of [c] left to write. *)
Definition word (j : nat) (c : Z) : Z :=
  c * 2 ^ (64 - 5 * Z.of_nat j) + 2 ^ (60 - 5 * Z.of_nat j).

Lemma word_stop c : in_width 0 c -> word 0 c = STOP_BIT.
Proof. intros [? ?]. change (2 ^ 0) with 1 in *. replace c with 0 by lia. done. Qed.

Lemma word_step j c :
  (j < 12)%nat -> in_width (5 * Z.of_nat (S j)) c ->
  let k := 5 * Z.of_nat j in
  word (S j) c <> STOP_BIT /\
  Z.shiftr (word (S j) c) 59 = c / 2 ^ k /\
  wrap 64 (Z.shiftl (word (S j) c) 5) = word j (c mod 2 ^ k) /\
  in_width 5 (c / 2 ^ k) /\ in_width k (c mod 2 ^ k).
Proof.
  intros Hj Hc k. unfold in_width, wrap, word in *.
  set (a := 2 ^ k). set (b := 2 ^ (55 - k)).
  assert (0 < a) by (apply Z.pow_pos_nonneg; lia).
  assert (0 < b) by (apply Z.pow_pos_nonneg; lia).
  assert (a * b = 2 ^ 55) as Hab by (unfold a, b; rewrite <- Z.pow_add_r by lia; f_equal; lia).
  replace (5 * Z.of_nat (S j)) with (5 + k) in * by lia.
  rewrite Z.pow_add_r in Hc by lia. fold a in Hc. change (2 ^ 5) with 32 in *.
  replace (64 - (5 + k)) with (4 + (55 - k)) by lia.
  replace (60 - (5 + k)) with (55 - k) by lia.
  replace (64 - 5 * Z.of_nat j) with (9 + (55 - k)) by lia.
  replace (60 - 5 * Z.of_nat j) with (5 + (55 - k)) by lia.
  rewrite !Z.pow_add_r by lia. fold b.
  change (2 ^ 4) with 16. change (2 ^ 5) with 32. change (2 ^ 9) with 512.
  pose proof (Z.div_mod c a). pose proof (Z.mod_pos_bound c a).
  assert (0 <= c / a < 32) by (split; [apply Z.div_pos|apply Z.div_lt_upper_bound]; lia).
  split_and?; try lia.
  - unfold STOP_BIT, QUAD_SHIFT. rewrite Z.shiftl_1_l.
    change (2 ^ 60) with (32 * 2 ^ 55). rewrite <- Hab. intros E.
    assert (c * 16 + 1 = 32 * a) by nia. lia.
  - rewrite Z.shiftr_div_pow2 by lia. change (2 ^ 59) with (16 * 2 ^ 55). rewrite <- Hab.
    symmetry. apply Z.div_unique with ((c mod a) * (16 * b) + b); [left; nia|].
    rewrite (Z.div_mod c a) at 1 by lia. ring.
  - rewrite Z.shiftl_mul_pow2 by lia. change (2 ^ 5) with 32. change (2 ^ 64) with (512 * 2 ^ 55).
    rewrite <- Hab. symmetry. apply Z.mod_unique with (c / a); [left; nia|].
    rewrite (Z.div_mod c a) at 1 by lia. ring.
Qed.

Lemma emit_word j c fuel buf :
  (j <= 12)%nat -> (j <= fuel)%nat -> in_width (5 * Z.of_nat j) c ->
  exists t, emit fuel (word j c) buf = Some (buf ++ t) /\ length t = j /\
    forall id, 0 <= id -> id * 2 ^ (5 * Z.of_nat j) + c <= u64_max ->
      from_str_loop id t = Some (id * 2 ^ (5 * Z.of_nat j) + c).
Proof.
  revert c fuel buf. induction j as [|j IH]; intros c fuel buf Hj Hf Hc.
  - exists []. rewrite word_stop by done. rewrite app_nil_r.
    split; [by destruct fuel|]. split; [done|]. intros id Hid Hov. simpl.
    unfold in_width in Hc. change (5 * Z.of_nat 0) with 0 in *. change (2 ^ 0) with 1 in *.
    f_equal. lia.
  - destruct fuel as [|fuel]; [lia|].
    destruct (word_step j c) as (Hns & Hd & Hs & Hr & Hm); [lia|done|].
    destruct (digits_ok _ Hr) as (ch & Ha & Hi & Hn).
    destruct (IH (c mod 2 ^ (5 * Z.of_nat j)) fuel (buf ++ [ch])) as (t & Ht & Hl & Hdec); [lia|lia|done|].
    exists (ch :: t). split; [|split; [simpl; lia|]].
    + cbn [emit]. unfold FIVE_SHIFT, FIVE_RESET.
      replace (word (S j) c =? STOP_BIT) with false by lia.
      rewrite Hd. unfold mbind, option_bind. rewrite Ha, Hs, Ht, <- app_assoc. done.
    + intros id Hid Hov. cbn [from_str_loop]. rewrite Hi.
      replace (c / 2 ^ (5 * Z.of_nat j) =? 255) with false by lia. cbn [negb].
      set (a := 2 ^ (5 * Z.of_nat j)) in *.
      assert (2 ^ (5 * Z.of_nat (S j)) = 32 * a) as Ea.
      { unfold a. change 32 with (2 ^ 5). rewrite <- Z.pow_add_r by lia. f_equal. lia. }
      assert (1 <= a) by (assert (0 < a) by (apply Z.pow_pos_nonneg; lia); lia).
      rewrite Ea in *. unfold in_width, u64_max in *.
      pose proof (Z.div_mod c a). pose proof (Z.mod_pos_bound c a).
      assert (id * 32 <= 2 ^ 64 - 1) by nia.
      assert (wrap 64 (Z.shiftl id 5) = Z.shiftl id 5) as ->.
      { apply wrap_small. unfold in_width. rewrite Z.shiftl_mul_pow2 by lia. change (2 ^ 5) with 32. lia. }
      rewrite Z.lor_comm, lor_shiftl_disjoint by (done || lia). change (2 ^ 5) with 32 in *.
      rewrite Hdec; [f_equal; lia|lia|lia].
Qed.

Lemma first_word_zero n :
  0 < n < 2 ^ 60 ->
  exists j, (j <= 12)%nat /\ in_width (5 * Z.of_nat j) n /\ first_word n = Some (word j n, []).
Proof.
  intros Hn. unfold first_word, QUAD_SHIFT, QUAD_RESET.
  assert (Z.shiftr n 60 = 0) as -> by (rewrite Z.shiftr_div_pow2 by lia; apply Z.div_small; lia).
  cbn [Z.eqb].
  assert (Z.lor (wrap 64 (Z.shiftl n 4)) 1 = n * 16 + 1) as ->.
  { rewrite wrap_small by (unfold in_width; rewrite Z.shiftl_mul_pow2 by lia; lia).
    rewrite Z.lor_comm, lor_shiftl_disjoint by (lia || (unfold in_width; lia)). lia. }
  unfold leading_zeros. replace (n * 16 + 1 =? 0) with false by lia.
  pose proof (Z.log2_spec (n * 16 + 1)) as Hlog.
  set (L := Z.log2 (n * 16 + 1)) in *.
  assert (4 <= L < 64) as HL.
  { split; [apply Z.log2_le_pow2; lia|apply Z.log2_lt_pow2; lia]. }
  set (m := (63 - L) / 5). assert (0 <= m <= 11 /\ 5 * m <= 63 - L) as [Hm Hm5].
  { unfold m. pose proof (Z.div_mod (63 - L) 5). pose proof (Z.mod_pos_bound (63 - L) 5). lia. }
  exists (Z.to_nat (12 - m)).
  assert (n < 2 ^ (60 - 5 * m)) as Hlt.
  { assert (n * 16 + 1 < 2 ^ (64 - 5 * m)).
    { eapply Z.lt_le_trans; [apply Hlog; lia|]. apply Z.pow_le_mono_r; lia. }
    replace (64 - 5 * m) with (4 + (60 - 5 * m)) in H by lia. rewrite Z.pow_add_r in H by lia.
    change (2 ^ 4) with 16 in H. lia. }
  split; [lia|]. split.
  { unfold in_width. replace (5 * Z.of_nat (Z.to_nat (12 - m))) with (60 - 5 * m) by lia. lia. }
  f_equal. f_equal. unfold word.
  replace (64 - 5 * Z.of_nat (Z.to_nat (12 - m))) with (4 + m * 5) by lia.
  replace (60 - 5 * Z.of_nat (Z.to_nat (12 - m))) with (m * 5) by lia.
  rewrite Z.shiftl_mul_pow2 by lia. rewrite wrap_small.
  { rewrite Z.pow_add_r by lia. change (2 ^ 4) with 16. ring. }
  assert (0 < 2 ^ (m * 5)) by (apply Z.pow_pos_nonneg; lia).
  assert (2 ^ (60 - 5 * m) * 2 ^ (m * 5) = 2 ^ 60) by (rewrite <- Z.pow_add_r by lia; f_equal; lia).
  unfold in_width. change (2 ^ 64) with (16 * 2 ^ 60). split; [nia|].
  assert ((n * 16 + 1) <= 16 * 2 ^ (60 - 5 * m) - 15) by lia. nia.
Qed.

Lemma first_word_top n :
  2 ^ 60 <= n < 2 ^ 64 ->
  exists c, BASE32_ALPHABET !! Z.to_nat (n / 2 ^ 60) = Some c /\
    BASE32_INVERSE !! Z.to_nat c = Some (n / 2 ^ 60) /\
    first_word n = Some (word 12 (n mod 2 ^ 60), [c]).
Proof.
  intros Hn. unfold first_word, QUAD_SHIFT, QUAD_RESET.
  rewrite Z.shiftr_div_pow2 by lia.
  pose proof (Z.div_mod n (2 ^ 60)). pose proof (Z.mod_pos_bound n (2 ^ 60)).
  assert (1 <= n / 2 ^ 60 < 16).
  { split; [apply Z.div_le_lower_bound|apply Z.div_lt_upper_bound]; lia. }
  destruct (digits_ok (n / 2 ^ 60)) as (c & Ha & Hi & _); [unfold in_width; lia|].
  exists c. split; [done|]. split; [done|].
  replace (n / 2 ^ 60 =? 0) with false by lia. unfold mbind, option_bind. rewrite Ha.
  f_equal. f_equal. unfold word. change (64 - 5 * Z.of_nat 12) with 4. change (60 - 5 * Z.of_nat 12) with 0.
  change (2 ^ 4) with 16. change (2 ^ 0) with 1.
  assert (wrap 64 (Z.shiftl n 4) = Z.shiftl (n mod 2 ^ 60) 4) as ->.
  { unfold wrap. rewrite !Z.shiftl_mul_pow2 by lia. change (2 ^ 64) with (2 ^ 60 * 2 ^ 4).
    by rewrite Z.mul_mod_distr_r by lia. }
  rewrite Z.lor_comm, lor_shiftl_disjoint by (lia || (unfold in_width; lia)). lia.
Qed.

Lemma as_string_emit id w buf :
  id <> 0 -> first_word id = Some (w, buf) -> as_string id = emit 13 w buf.
Proof.
  intros Hne Hw. unfold as_string. rewrite Hw. by replace (id =? 0) with false by lia.
Qed.

(** Every 64-bit identifier is written, in at most thirteen characters
    and without an index out of range, as a text that is read back as the
    same identifier. *)
Theorem id_roundtrip id :
  in_width 64 id ->
  exists t, as_string id = Some t /\ from_str t = Some id /\ (1 <= length t <= 13)%nat.
Proof.
  intros Hid. unfold from_str, in_width in *.
  destruct (decide (id = 0)) as [->|Hne]; [exists [97]; simpl; split_and?; (done || lia)|].
  destruct (Z.ltb_spec id (2 ^ 60)).
  - destruct (first_word_zero id) as (j & Hj & Hc & Hw); [lia|].
    destruct (emit_word j id 13 [] Hj ltac:(lia) Hc) as (t & Ht & Hl & Hd).
    exists t. rewrite (as_string_emit _ _ _ Hne Hw), Ht. split; [done|].
    rewrite Hd by (unfold u64_max; lia). split; [f_equal; lia|].
    destruct j; [|lia]. exfalso. unfold in_width in Hc. change (2 ^ (5 * Z.of_nat 0)) with 1 in Hc. lia.
  - destruct (first_word_top id) as (c & Ha & Hi & Hw); [lia|].
    pose proof (Z.mod_pos_bound id (2 ^ 60)). pose proof (Z.div_mod id (2 ^ 60)).
    destruct (emit_word 12 (id mod 2 ^ 60) 13 [c]) as (t & Ht & Hl & Hd);
      [lia|lia|unfold in_width; rewrite (eq_refl : 5 * Z.of_nat 12 = 60); lia|].
    assert (0 <= id / 2 ^ 60 < 16).
    { split; [apply Z.div_pos|apply Z.div_lt_upper_bound]; lia. }
    exists (c :: t). rewrite (as_string_emit _ _ _ Hne Hw), Ht. split; [done|]. split; [|simpl; lia].
    cbn [from_str_loop]. rewrite Hi. replace (id / 2 ^ 60 =? 255) with false by lia. cbn [negb].
    change (Z.lor (wrap 64 (Z.shiftl 0 5)) (id / 2 ^ 60)) with (id / 2 ^ 60).
    change (5 * Z.of_nat 12) with 60 in Hd. rewrite Hd by (unfold u64_max; lia). f_equal. lia.
Qed.

Lemma id_roundtrip_witness :
  as_string singleton = Some s#"singleton" /\
  exists t, as_string u64_max = Some t /\ from_str t = Some u64_max /\ (1 <= length t <= 13)%nat.
Proof.
  split; [vm_compute; reflexivity|]. apply (id_roundtrip u64_max). unfold in_width, u64_max. lia.
Defined.

(** A prefix and a document number of 32 bits packed into an identifier
    are unpacked unchanged, and packing what was unpacked gives the
    identifier back. *)
Theorem id_parts p d id :
  in_width 32 p -> in_width 32 d -> in_width 64 id ->
  in_width 64 (from_parts p d) /\ prefix_id (from_parts p d) = p /\ document_id (from_parts p d) = d /\
  from_parts (prefix_id id) (document_id id) = id.
Proof.
  intros Hp Hd Hi. unfold from_parts, prefix_id, document_id.
  assert (forall a b, in_width 32 b -> Z.lor (Z.shiftl a 32) b = b + a * 2 ^ 32) as Hor.
  { intros a b Hb. rewrite Z.lor_comm. by apply lor_shiftl_disjoint. }
  rewrite !Hor; [|apply wrap_range; lia|done]. unfold wrap, in_width in *.
  rewrite !Z.shiftr_div_pow2 by lia. change (2 ^ 64) with (2 ^ 32 * 2 ^ 32) in *.
  split; [nia|]. split; [|split].
  - rewrite Z.div_add, (Z.div_small d), Z.mod_small by lia. lia.
  - rewrite Z.mod_add, Z.mod_small by lia. done.
  - rewrite (Z.mod_small (id / 2 ^ 32)).
    + pose proof (Z.div_mod id (2 ^ 32)). lia.
    + split; [apply Z.div_pos|apply Z.div_lt_upper_bound]; lia.
Qed.

Lemma id_parts_witness :
  in_width 64 (from_parts 7 9) /\ prefix_id (from_parts 7 9) = 7 /\ document_id (from_parts 7 9) = 9 /\
  from_parts (prefix_id singleton) (document_id singleton) = singleton.
Proof. apply (id_parts 7 9 singleton); unfold in_width, singleton; lia. Defined.
