(* ===== verification/Keyword.v ===== *)
(** * Message keywords ([crates/types/src/keyword.rs])

    The 29 keywords that have a number and all other keywords as text, with
    their parsers, their text, their numbers and the bytes of their keys in
    the store.  A text is the list of its UTF-8 bytes.  The functions on
    [ArchivedKeyword], the generated archive of the type, repeat the same
    tables and are not modelled. *)

From S2P Require Import Prelude Utf8.

(* [crates/types/src/keyword.rs:57-118] Keyword *)
Inductive Keyword :=
| Other (s : list Z)
| Seen
| Draft
| Flagged
| Answered
| Recent
| Important
| Phishing
| Junk
| NotJunk
| Deleted
| Forwarded
| MdnSent
| Autosent
| CanUnsubscribe
| Followed
| HasAttachment
| HasMemo
| HasNoAttachment
| Imported
| IsTrusted
| MailFlagBit0
| MailFlagBit1
| MailFlagBit2
| MaskedEmail
| Memo
| Muted
| New
| Notify
| Unsubscribed.

#[export] Instance Keyword_eq_dec : EqDecision Keyword.
Proof. solve_decision. Defined.

(* [crates/types/src/keyword.rs:10] SEEN *)
Definition SEEN : Z := 0.
(* [crates/types/src/keyword.rs:11] DRAFT *)
Definition DRAFT : Z := 1.
(* [crates/types/src/keyword.rs:12] FLAGGED *)
Definition FLAGGED : Z := 2.
(* [crates/types/src/keyword.rs:13] ANSWERED *)
Definition ANSWERED : Z := 3.
(* [crates/types/src/keyword.rs:14] RECENT *)
Definition RECENT : Z := 4.
(* [crates/types/src/keyword.rs:15] IMPORTANT *)
Definition IMPORTANT : Z := 5.
(* [crates/types/src/keyword.rs:16] PHISHING *)
Definition PHISHING : Z := 6.
(* [crates/types/src/keyword.rs:17] JUNK *)
Definition JUNK : Z := 7.
(* [crates/types/src/keyword.rs:18] NOTJUNK *)
Definition NOTJUNK : Z := 8.
(* [crates/types/src/keyword.rs:19] DELETED *)
Definition DELETED : Z := 9.
(* [crates/types/src/keyword.rs:20] FORWARDED *)
Definition FORWARDED : Z := 10.
(* [crates/types/src/keyword.rs:21] MDN_SENT *)
Definition MDN_SENT : Z := 11.
(* [crates/types/src/keyword.rs:22] AUTOSENT *)
Definition AUTOSENT : Z := 12.
(* [crates/types/src/keyword.rs:23] CANUNSUBSCRIBE *)
Definition CANUNSUBSCRIBE : Z := 13.
(* [crates/types/src/keyword.rs:24] FOLLOWED *)
Definition FOLLOWED : Z := 14.
(* [crates/types/src/keyword.rs:25] HASATTACHMENT *)
Definition HASATTACHMENT : Z := 15.
(* [crates/types/src/keyword.rs:26] HASMEMO *)
Definition HASMEMO : Z := 16.
(* [crates/types/src/keyword.rs:27] HASNOATTACHMENT *)
Definition HASNOATTACHMENT : Z := 17.
(* [crates/types/src/keyword.rs:28] IMPORTED *)
Definition IMPORTED : Z := 18.
(* [crates/types/src/keyword.rs:29] ISTRUSTED *)
Definition ISTRUSTED : Z := 19.
(* [crates/types/src/keyword.rs:30] MAILFLAGBIT0 *)
Definition MAILFLAGBIT0 : Z := 20.
(* [crates/types/src/keyword.rs:31] MAILFLAGBIT1 *)
Definition MAILFLAGBIT1 : Z := 21.
(* [crates/types/src/keyword.rs:32] MAILFLAGBIT2 *)
Definition MAILFLAGBIT2 : Z := 22.
(* [crates/types/src/keyword.rs:33] MASKEDEMAIL *)
Definition MASKEDEMAIL : Z := 23.
(* [crates/types/src/keyword.rs:34] MEMO *)
Definition MEMO : Z := 24.
(* [crates/types/src/keyword.rs:35] MUTED *)
Definition MUTED : Z := 25.
(* [crates/types/src/keyword.rs:36] NEW *)
Definition NEW : Z := 26.
(* [crates/types/src/keyword.rs:37] NOTIFY *)
Definition NOTIFY : Z := 27.
(* [crates/types/src/keyword.rs:38] UNSUBSCRIBED *)
Definition UNSUBSCRIBED : Z := 28.
(* [crates/types/src/keyword.rs:39] OTHER *)
Definition OTHER : Z := 29.

(* [crates/types/src/keyword.rs:121] Keyword::MAX_LENGTH *)
Definition MAX_LENGTH : nat := 128.

(** [value.chars().take(n).collect()] for a valid string. *)
Definition take_chars (n : nat) (s : list Z) : list Z :=
  match decode s with Some cs => encode (take n cs) | None => [] end.

(* [crates/types/src/keyword.rs:128-134] Keyword::from_other *)
Definition from_other (value : list Z) : Keyword :=
  if (length value <=? MAX_LENGTH)%nat then Other value else Other (take_chars MAX_LENGTH value).

(* [crates/types/src/keyword.rs:136-142] Keyword::from_boxed_other *)
Definition from_boxed_other (value : list Z) : Keyword :=
  if (length value <=? MAX_LENGTH)%nat then Other value else Other (take_chars MAX_LENGTH value).

(* [crates/types/src/keyword.rs:150-178] Keyword::try_parse, the table *)
Definition names : list (list Z * Keyword) :=
  [ (s#"seen", Seen);
    (s#"draft", Draft);
    (s#"flagged", Flagged);
    (s#"answered", Answered);
    (s#"recent", Recent);
    (s#"important", Important);
    (s#"phishing", Phishing);
    (s#"junk", Junk);
    (s#"notjunk", NotJunk);
    (s#"deleted", Deleted);
    (s#"forwarded", Forwarded);
    (s#"mdnsent", MdnSent);
    (s#"autosent", Autosent);
    (s#"canunsubscribe", CanUnsubscribe);
    (s#"followed", Followed);
    (s#"hasattachment", HasAttachment);
    (s#"hasmemo", HasMemo);
    (s#"hasnoattachment", HasNoAttachment);
    (s#"imported", Imported);
    (s#"istrusted", IsTrusted);
    (s#"mailflagbit0", MailFlagBit0);
    (s#"mailflagbit1", MailFlagBit1);
    (s#"mailflagbit2", MailFlagBit2);
    (s#"maskedemail", MaskedEmail);
    (s#"memo", Memo);
    (s#"muted", Muted);
    (s#"new", New);
    (s#"notify", Notify);
    (s#"unsubscribed", Unsubscribed) ].

(** [split_at_checked(1)]: the first character if it is one byte long. *)
(* [crates/types/src/keyword.rs:144-181] Keyword::try_parse *)
Definition try_parse (value : list Z) : option Keyword :=
  match value with
  | c :: rest =>
      if (c =? c#"$") || (c =? c#"\") then tiny_map_ignore_case names rest else None
  | [] => None
  end.

(* [crates/types/src/keyword.rs:123-126] Keyword::parse *)
Definition parse (value : list Z) : Keyword :=
  match try_parse value with
  | Some k => k
  | None => Other (take_chars MAX_LENGTH value)
  end.

(* [crates/types/src/keyword.rs:289-293] From<String> for Keyword *)
Definition from_string (value : list Z) : Keyword :=
  match try_parse value with Some k => k | None => from_other value end.

(* [crates/types/src/keyword.rs:183-216] Keyword::id *)
Definition id (k : Keyword) : result Z (list Z) :=
  match k with
  | Seen => Ok SEEN
  | Draft => Ok DRAFT
  | Flagged => Ok FLAGGED
  | Answered => Ok ANSWERED
  | Recent => Ok RECENT
  | Important => Ok IMPORTANT
  | Phishing => Ok PHISHING
  | Junk => Ok JUNK
  | NotJunk => Ok NOTJUNK
  | Deleted => Ok DELETED
  | Forwarded => Ok FORWARDED
  | MdnSent => Ok MDN_SENT
  | Autosent => Ok AUTOSENT
  | CanUnsubscribe => Ok CANUNSUBSCRIBE
  | Followed => Ok FOLLOWED
  | HasAttachment => Ok HASATTACHMENT
  | HasMemo => Ok HASMEMO
  | HasNoAttachment => Ok HASNOATTACHMENT
  | Imported => Ok IMPORTED
  | IsTrusted => Ok ISTRUSTED
  | MailFlagBit0 => Ok MAILFLAGBIT0
  | MailFlagBit1 => Ok MAILFLAGBIT1
  | MailFlagBit2 => Ok MAILFLAGBIT2
  | MaskedEmail => Ok MASKEDEMAIL
  | Memo => Ok MEMO
  | Muted => Ok MUTED
  | New => Ok NEW
  | Notify => Ok NOTIFY
  | Unsubscribed => Ok UNSUBSCRIBED
  | Other s => Err s
  end.

(* [crates/types/src/keyword.rs:218-251] Keyword::into_id *)
Definition into_id (k : Keyword) : result Z (list Z) :=
  match k with
  | Seen => Ok SEEN
  | Draft => Ok DRAFT
  | Flagged => Ok FLAGGED
  | Answered => Ok ANSWERED
  | Recent => Ok RECENT
  | Important => Ok IMPORTANT
  | Phishing => Ok PHISHING
  | Junk => Ok JUNK
  | NotJunk => Ok NOTJUNK
  | Deleted => Ok DELETED
  | Forwarded => Ok FORWARDED
  | MdnSent => Ok MDN_SENT
  | Autosent => Ok AUTOSENT
  | CanUnsubscribe => Ok CANUNSUBSCRIBE
  | Followed => Ok FOLLOWED
  | HasAttachment => Ok HASATTACHMENT
  | HasMemo => Ok HASMEMO
  | HasNoAttachment => Ok HASNOATTACHMENT
  | Imported => Ok IMPORTED
  | IsTrusted => Ok ISTRUSTED
  | MailFlagBit0 => Ok MAILFLAGBIT0
  | MailFlagBit1 => Ok MAILFLAGBIT1
  | MailFlagBit2 => Ok MAILFLAGBIT2
  | MaskedEmail => Ok MASKEDEMAIL
  | Memo => Ok MEMO
  | Muted => Ok MUTED
  | New => Ok NEW
  | Notify => Ok NOTIFY
  | Unsubscribed => Ok UNSUBSCRIBED
  | Other s => Err s
  end.

(* [crates/types/src/keyword.rs:253-286] Keyword::try_from_id *)
Definition try_from_id (n : Z) : result Keyword Z :=
  if n =? SEEN then Ok Seen
  else if n =? DRAFT then Ok Draft
  else if n =? FLAGGED then Ok Flagged
  else if n =? ANSWERED then Ok Answered
  else if n =? RECENT then Ok Recent
  else if n =? IMPORTANT then Ok Important
  else if n =? PHISHING then Ok Phishing
  else if n =? JUNK then Ok Junk
  else if n =? NOTJUNK then Ok NotJunk
  else if n =? DELETED then Ok Deleted
  else if n =? FORWARDED then Ok Forwarded
  else if n =? MDN_SENT then Ok MdnSent
  else if n =? AUTOSENT then Ok Autosent
  else if n =? CANUNSUBSCRIBE then Ok CanUnsubscribe
  else if n =? FOLLOWED then Ok Followed
  else if n =? HASATTACHMENT then Ok HasAttachment
  else if n =? HASMEMO then Ok HasMemo
  else if n =? HASNOATTACHMENT then Ok HasNoAttachment
  else if n =? IMPORTED then Ok Imported
  else if n =? ISTRUSTED then Ok IsTrusted
  else if n =? MAILFLAGBIT0 then Ok MailFlagBit0
  else if n =? MAILFLAGBIT1 then Ok MailFlagBit1
  else if n =? MAILFLAGBIT2 then Ok MailFlagBit2
  else if n =? MASKEDEMAIL then Ok MaskedEmail
  else if n =? MEMO then Ok Memo
  else if n =? MUTED then Ok Muted
  else if n =? NEW then Ok New
  else if n =? NOTIFY then Ok Notify
  else if n =? UNSUBSCRIBED then Ok Unsubscribed
  else Err n.

(* [crates/types/src/keyword.rs:295-330] Display for Keyword *)
Definition to_string (k : Keyword) : list Z :=
  match k with
  | Seen => s#"$seen"
  | Draft => s#"$draft"
  | Flagged => s#"$flagged"
  | Answered => s#"$answered"
  | Recent => s#"$recent"
  | Important => s#"$important"
  | Phishing => s#"$phishing"
  | Junk => s#"$junk"
  | NotJunk => s#"$notjunk"
  | Deleted => s#"$deleted"
  | Forwarded => s#"$forwarded"
  | MdnSent => s#"$mdnsent"
  | Autosent => s#"$autosent"
  | CanUnsubscribe => s#"$canunsubscribe"
  | Followed => s#"$followed"
  | HasAttachment => s#"$hasattachment"
  | HasMemo => s#"$hasmemo"
  | HasNoAttachment => s#"$hasnoattachment"
  | Imported => s#"$imported"
  | IsTrusted => s#"$istrusted"
  | MailFlagBit0 => s#"$MailFlagBit0"
  | MailFlagBit1 => s#"$MailFlagBit1"
  | MailFlagBit2 => s#"$MailFlagBit2"
  | MaskedEmail => s#"$maskedemail"
  | Memo => s#"$memo"
  | Muted => s#"$muted"
  | New => s#"$new"
  | Notify => s#"$notify"
  | Unsubscribed => s#"$unsubscribed"
  | Other s => s
  end.

(** [as u8] of a number below 256. *)
(* [crates/types/src/keyword.rs:369-404] From<Keyword> for Vec<u8> *)
Definition to_bytes (k : Keyword) : list Z :=
  match k with
  | Seen => [SEEN]
  | Draft => [DRAFT]
  | Flagged => [FLAGGED]
  | Answered => [ANSWERED]
  | Recent => [RECENT]
  | Important => [IMPORTANT]
  | Phishing => [PHISHING]
  | Junk => [JUNK]
  | NotJunk => [NOTJUNK]
  | Deleted => [DELETED]
  | Forwarded => [FORWARDED]
  | MdnSent => [MDN_SENT]
  | Autosent => [AUTOSENT]
  | CanUnsubscribe => [CANUNSUBSCRIBE]
  | Followed => [FOLLOWED]
  | HasAttachment => [HASATTACHMENT]
  | HasMemo => [HASMEMO]
  | HasNoAttachment => [HASNOATTACHMENT]
  | Imported => [IMPORTED]
  | IsTrusted => [ISTRUSTED]
  | MailFlagBit0 => [MAILFLAGBIT0]
  | MailFlagBit1 => [MAILFLAGBIT1]
  | MailFlagBit2 => [MAILFLAGBIT2]
  | MaskedEmail => [MASKEDEMAIL]
  | Memo => [MEMO]
  | Muted => [MUTED]
  | New => [NEW]
  | Notify => [NOTIFY]
  | Unsubscribed => [UNSUBSCRIBED]
  | Other s => s
  end.

(** ** Properties *)

Definition known (k : Keyword) : Prop := match k with Other _ => False | _ => True end.

(** The numbers of the keywords and the keywords with a number
    correspond one to one: a number gives the keyword that has it, exactly
    the numbers below 29 are used, and only other keywords have none. *)
Theorem keyword_ids k n :
  (id k = Ok n <-> try_from_id n = Ok k) /\ (id k = Ok n -> 0 <= n < OTHER) /\
  (0 <= n < OTHER -> exists k', try_from_id n = Ok k') /\ (known k <-> exists m, id k = Ok m) /\
  into_id k = id k.
Proof.
  assert (forall n, 0 <= n < OTHER -> exists k', try_from_id n = Ok k' /\ id k' = Ok n) as Hall.
  { intros m Hm. unfold OTHER in Hm.
    assert (m ∈ seqZ 0 29) as Hin by (apply elem_of_seqZ; lia).
    cbn in Hin. repeat (apply elem_of_cons in Hin as [->|Hin]; [eexists; split; reflexivity|]).
    by apply elem_of_nil in Hin. }
  split_and?.
  - split.
    + destruct k; intros [= <-]; reflexivity.
    + intros H. destruct (decide (0 <= n < OTHER)) as [Hr|Hr].
      * destruct (Hall n Hr) as (k' & H1 & H2). congruence.
      * unfold try_from_id, OTHER in *. repeat case_if_in H; try done;
          exfalso; apply Hr; subst; vm_compute; split; congruence.
  - destruct k; intros [= <-]; vm_compute; split; congruence.
  - intros Hr. destruct (Hall n Hr) as (k' & ? & _). by exists k'.
  - destruct k; simpl; split; try done; try (by eexists). by intros [? ?].
  - by destruct k.
Qed.

Lemma decode_take_all s cs : decode s = Some cs -> (length cs <= MAX_LENGTH)%nat ->
  take_chars MAX_LENGTH s = encode cs.
Proof. intros E H. unfold take_chars. by rewrite E, firstn_all2. Qed.

(** A keyword's text is parsed back as the keyword: always for the ones
    with a number, in any case of letters and with either prefix, and for
    other keywords when the text is valid, within the length limit and not
    the text of a keyword with a number. *)
Theorem keyword_text_roundtrip k :
  (known k -> parse (to_string k) = k /\ from_string (to_string k) = k /\
     forall prefix name, to_string k = c#"$" :: name ->
       (prefix = c#"$" \/ prefix = c#"\") ->
       forall name', to_ascii_lowercase <$> name' = to_ascii_lowercase <$> name ->
       parse (prefix :: name') = k) /\
  (forall cs, k = Other (encode cs) -> scalars cs -> (length cs <= MAX_LENGTH)%nat ->
     try_parse (encode cs) = None -> parse (to_string k) = k).
Proof.
  split.
  - intros Hk. split_and?; [destruct k; done..|].
    intros prefix name Ht Hp name' Hn. unfold parse, try_parse.
    replace ((prefix =? c#"$") || (prefix =? c#"\")) with true by lia.
    rewrite (tiny_map_ignore_case_key names name' name Hn).
    destruct k; try (by destruct Hk); simplify_eq/=; reflexivity.
  - intros cs -> Hs Hl Hn. unfold parse. simpl. rewrite Hn. f_equal.
    apply decode_take_all; [by apply decode_encode|done].
Qed.

Lemma keyword_text_roundtrip_witness :
  parse s#"\MDNSENT" = MdnSent /\ parse s#"label" = Other s#"label".
Proof.
  split.
  - apply (proj1 (keyword_text_roundtrip MdnSent) I) with (name := s#"mdnsent");
      [reflexivity|right; reflexivity|reflexivity].
  - apply (proj2 (keyword_text_roundtrip (Other s#"label")) s#"label");
      [reflexivity|repeat constructor|vm_compute; lia|reflexivity].
Defined.

(** The byte of a keyword with a number is also the text of another keyword
    of one control character. *)
Lemma keyword_bytes_collide : to_bytes (parse [5]) = to_bytes Important /\ parse [5] <> Important.
Proof. split; [reflexivity|discriminate]. Qed.
