(* ===== verification/Glob.v ===== *)
(** * Glob patterns ([crates/utils/src/glob.rs])

    Compilation of patterns with [*], [?] and backslash escapes, the
    iterative matcher with its single backtracking point, the set and map
    of patterns, and the prefix/suffix matcher [MatchType].  Characters are
    Unicode scalar values in [Z].  The Unicode case tables are parameters;
    no property depends on what they contain. *)

From S2P Require Import Prelude.
From stdpp Require Import gmap.
#[local] Open Scope Z_scope.

(** ** Data *)

(* [crates/utils/src/glob.rs:27-31] PatternChar *)
Inductive PatternChar :=
| WildcardMany (num match_pos : Z)
| WildcardSingle (match_pos : Z)
| PChar (char match_pos : Z).

(* [crates/utils/src/glob.rs:21-24] GlobPattern *)
Record GlobPattern := mkGlob { pattern : list PatternChar; to_lower : bool }.

(** ** Compilation *)

Section Compile.
(** [char::is_uppercase], [char::to_lowercase] and [str::to_lowercase]. *)
Context (is_uppercase : Z -> bool) (char_to_lowercase : Z -> list Z)
        (str_to_lowercase : list Z -> list Z).

(** The characters one literal character of the pattern contributes. *)
(* [crates/utils/src/glob.rs:55-66] GlobPattern::compile *)
Definition literal (to_lower : bool) (char : Z) : list PatternChar :=
  if to_lower && is_uppercase char
  then (fun c => PChar c 0) <$> char_to_lowercase char
  else [PChar char 0].

(** The inner loop: it counts a run of stars, then goes on with the outer
    one. *)
(* [crates/utils/src/glob.rs:41-48] GlobPattern::compile *)
Definition stars (continue_ : list Z -> list PatternChar) : Z -> list Z -> list PatternChar :=
  fix stars num str :=
    match str with
    | c :: str' =>
        if c =? c#"*" then stars (num + 1) str' else WildcardMany num 0 :: continue_ str
    | [] => WildcardMany num 0 :: continue_ str
    end.

(** The [while let] loop over the characters. *)
(* [crates/utils/src/glob.rs:34-75] GlobPattern::compile *)
Fixpoint compile_loop (to_lower is_escaped : bool) (str : list Z) {struct str} :
    list PatternChar :=
  match str with
  | [] => []
  | char :: str =>
      if (char =? c#"*") && negb is_escaped then stars (compile_loop to_lower false) 1 str
      else if (char =? c#"?") && negb is_escaped then
        WildcardSingle 0 :: compile_loop to_lower is_escaped str
      else if (char =? c#"\") && negb is_escaped then
        compile_loop to_lower true str
      else literal to_lower char ++ compile_loop to_lower false str
  end.

Definition compile (pattern : list Z) (to_lower : bool) : GlobPattern :=
  mkGlob (compile_loop to_lower false pattern) to_lower.

(** The scan of [try_compile] for wildcards: the flags after a string. *)
(* [crates/utils/src/glob.rs:79-94] GlobPattern::try_compile *)
Fixpoint scan (last_ch : Z) (has_escape is_glob : bool) (pattern : list Z) : bool * bool :=
  match pattern with
  | [] => (has_escape, is_glob)
  | ch :: pattern =>
      if ch =? c#"\" then scan ch true is_glob pattern
      else if ((ch =? c#"*") || (ch =? c#"?")) && negb (last_ch =? c#"\")
      then scan ch has_escape true pattern
      else scan ch has_escape is_glob pattern
  end.

(** [Err] carries the literal entry. *)
(* [crates/utils/src/glob.rs:77-105] GlobPattern::try_compile *)
Definition try_compile (pattern : list Z) (to_lower : bool) : result GlobPattern (list Z) :=
  let '(has_escape, is_glob) := scan 0 false false pattern in
  if is_glob then Ok (compile pattern to_lower)
  else Err (if has_escape : bool
            then List.filter (fun c => negb (c =? c#"\")) pattern else pattern).

(** ** The matcher *)

Record mstate := mkState { px : nat; nx : nat; next_px : nat; next_nx : nat }.

Inductive step_result := Continue (s : mstate) | Done (b : bool).

(** One iteration of the [while] loop, its condition included; the inner
    [fallback] is the code after the [match]. *)
(* [crates/utils/src/glob.rs:120-149] GlobPattern::matches *)
Definition match_step (pat : list PatternChar) (value : list Z) (s : mstate) : step_result :=
  let fallback :=
    if (0 <? next_nx s)%nat && (next_nx s <=? length value)%nat
    then Continue (mkState (next_px s) (next_nx s) (next_px s) (next_nx s))
    else Done false in
  if (px s <? length pat)%nat || (nx s <? length value)%nat then
    match pat !! px s with
    | Some (PChar char _) =>
        match value !! nx s with
        | Some nc => if nc =? char
                     then Continue (mkState (S (px s)) (S (nx s)) (next_px s) (next_nx s))
                     else fallback
        | None => fallback
        end
    | Some (WildcardSingle _) =>
        if (nx s <? length value)%nat
        then Continue (mkState (S (px s)) (S (nx s)) (next_px s) (next_nx s))
        else fallback
    | Some (WildcardMany _ _) =>
        Continue (mkState (S (px s)) (nx s) (px s) (S (nx s)))
    | None => fallback
    end
  else Done true.

Fixpoint match_loop (fuel : nat) (pat : list PatternChar) (value : list Z) (s : mstate) :
    option bool :=
  match fuel with
  | O => None
  | S fuel =>
      match match_step pat value s with
      | Done b => Some b
      | Continue s => match_loop fuel pat value s
      end
  end.

(** The loop ends within this many iterations ([match_loop_spec]). *)
Definition match_fuel (pat : list PatternChar) (value : list Z) : nat :=
  (length value + 3) * (length pat + 3).

(* [crates/utils/src/glob.rs:108-150] GlobPattern::matches *)
Definition matches (g : GlobPattern) (value : list Z) : option bool :=
  let value := if to_lower g then str_to_lowercase value else value in
  match_loop (match_fuel (pattern g) value) (pattern g) value (mkState 0 0 0 0).

(** ** Sets and maps of patterns *)

(* [crates/utils/src/glob.rs:154-157] GlobSet *)
Record GlobSet := mkSet { entries : gset (list Z); patterns : list GlobPattern }.

Definition set_new : GlobSet := mkSet ∅ [].

(* [crates/utils/src/glob.rs:170-179] GlobSet::insert_pattern *)
Definition insert_pattern (s : GlobSet) (pattern : list Z) : GlobSet :=
  match try_compile pattern false with
  | Ok glob => mkSet (entries s) (patterns s ++ [glob])
  | Err entry => mkSet ({[entry]} ∪ entries s) (patterns s)
  end.

(* [crates/utils/src/glob.rs:181-183] GlobSet::insert_entry *)
Definition insert_entry (s : GlobSet) (entry : list Z) : GlobSet :=
  mkSet ({[entry]} ∪ entries s) (patterns s).

(** [Iterator::any] over a fallible test. *)
Fixpoint any_matches (key : list Z) (l : list GlobPattern) : option bool :=
  match l with
  | [] => Some false
  | g :: l => b ← matches g key; if (b : bool) then Some true else any_matches key l
  end.

(* [crates/utils/src/glob.rs:185-187] GlobSet::contains *)
Definition contains (s : GlobSet) (key : list Z) : option bool :=
  if decide (key ∈ entries s) then Some true else any_matches key (patterns s).

(* [crates/utils/src/glob.rs:160-163] GlobMap *)
Record GlobMap (V : Type) :=
  mkMap { mentries : gmap (list Z) V; mpatterns : list (GlobPattern * V) }.
#[global] Arguments mkMap {V}.
#[global] Arguments mentries {V}.
#[global] Arguments mpatterns {V}.

(* [crates/utils/src/glob.rs:198-207] GlobMap::insert_pattern *)
Definition map_insert_pattern {V} (m : GlobMap V) (pattern : list Z) (value : V) : GlobMap V :=
  match try_compile pattern false with
  | Ok glob => mkMap (mentries m) (mpatterns m ++ [(glob, value)])
  | Err entry => mkMap (<[entry := value]> (mentries m)) (mpatterns m)
  end.

(* [crates/utils/src/glob.rs:209-211] GlobMap::insert_entry *)
Definition map_insert_entry {V} (m : GlobMap V) (entry : list Z) (value : V) : GlobMap V :=
  mkMap (<[entry := value]> (mentries m)) (mpatterns m).

Fixpoint find_matches {V} (key : list Z) (l : list (GlobPattern * V)) : option (option V) :=
  match l with
  | [] => Some None
  | (g, v) :: l => b ← matches g key; if (b : bool) then Some (Some v) else find_matches key l
  end.

(** [None] at the outer level would be a matcher that does not end. *)
(* [crates/utils/src/glob.rs:213-219] GlobMap::get *)
Definition get {V} (m : GlobMap V) (key : list Z) : option (option V) :=
  match mentries m !! key with
  | Some v => Some (Some v)
  | None => find_matches key (mpatterns m)
  end.

(** ** Prefix, suffix and exact matching *)

(* [crates/utils/src/glob.rs:12-18] MatchType *)
Inductive MatchType :=
| Equal (s : list Z)
| StartsWith (s : list Z)
| EndsWith (s : list Z)
| Matches (g : GlobPattern)
| All.

(** [str::strip_suffix] and [str::strip_prefix] of one character, and
    [str::starts_with], [str::ends_with]. *)
Definition strip_suffix_char (c : Z) (s : list Z) : option (list Z) :=
  match last s with
  | Some x => if x =? c then Some (removelast s) else None
  | None => None
  end.
Definition strip_prefix_char (c : Z) (s : list Z) : option (list Z) :=
  match s with x :: s => if x =? c then Some s else None | [] => None end.
Definition starts_with (value prefix : list Z) : bool :=
  bytes_eqb (firstn (length prefix) value) prefix.
Definition ends_with (value suffix : list Z) : bool :=
  (length suffix <=? length value)%nat &&
  bytes_eqb (skipn (length value - length suffix) value) suffix.

(* [crates/utils/src/glob.rs:229-241] MatchType::parse *)
Definition match_parse (value : list Z) : MatchType :=
  if bytes_eqb value s#"*" then All
  else match strip_suffix_char c#"*" value with
  | Some value => StartsWith value
  | None =>
      match strip_prefix_char c#"*" value with
      | Some value => EndsWith value
      | None => if existsb (fun c => c =? c#"*") value
                then Matches (compile value false) else Equal value
      end
  end.

(* [crates/utils/src/glob.rs:243-251] MatchType::matches *)
Definition match_matches (m : MatchType) (value : list Z) : option bool :=
  match m with
  | Equal pattern => Some (bytes_eqb value pattern)
  | StartsWith pattern => Some (starts_with value pattern)
  | EndsWith pattern => Some (ends_with value pattern)
  | Matches pattern => matches pattern value
  | All => Some true
  end.

End Compile.

(** ** Specification: what a compiled pattern and a pattern text match *)

(** The language of a compiled pattern. *)
Inductive glob : list PatternChar -> list Z -> Prop :=
| glob_nil : glob [] []
| glob_char c m p v : glob p v -> glob (PChar c m :: p) (c :: v)
| glob_single m x p v : glob p v -> glob (WildcardSingle m :: p) (x :: v)
| glob_many_skip n m p v : glob p v -> glob (WildcardMany n m :: p) v
| glob_many_take n m p x v :
    glob (WildcardMany n m :: p) v -> glob (WildcardMany n m :: p) (x :: v).

(** The language of a pattern text: [*] any characters, [?] one character,
    a backslash takes the next character literally, and a backslash at the
    end is dropped. *)
Inductive lang : list Z -> list Z -> Prop :=
| lang_nil : lang [] []
| lang_end : lang [c#"\"] []
| lang_star_skip p v : lang p v -> lang (c#"*" :: p) v
| lang_star_take p x v : lang (c#"*" :: p) v -> lang (c#"*" :: p) (x :: v)
| lang_any p x v : lang p v -> lang (c#"?" :: p) (x :: v)
| lang_escape c p v : lang p v -> lang (c#"\" :: c :: p) (c :: v)
| lang_char c p v :
    c <> c#"*" -> c <> c#"?" -> c <> c#"\" -> lang p v -> lang (c :: p) (c :: v).

Definition is_many (c : PatternChar) : bool :=
  match c with WildcardMany _ _ => true | _ => false end.

(** ** The matcher decides the language of the compiled pattern *)

Section Matcher.
Context (pat : list PatternChar) (value : list Z).

(** Matching the rest of the pattern from [i] with the rest of the value
    from [j]. *)
Definition from (i j : nat) : Prop := glob (drop i pat) (drop j value).

Lemma drop_lookup {A} (l : list A) i :
  drop i l = match l !! i with Some x => x :: drop (S i) l | None => [] end.
Proof.
  destruct (l !! i) eqn:E; [by apply drop_S|].
  apply drop_ge. by apply lookup_ge_None.
Qed.

Lemma from_char i j c m :
  pat !! i = Some (PChar c m) -> from i j <-> value !! j = Some c /\ from (S i) (S j).
Proof.
  intros Hi. unfold from. rewrite (drop_lookup pat i), Hi, (drop_lookup value j).
  destruct (value !! j) as [x|] eqn:Hj; split.
  - intros H. inversion H; subst. done.
  - intros [[= ->] H]. by constructor.
  - intros H. inversion H.
  - by intros [? _].
Qed.

Lemma from_single i j m :
  pat !! i = Some (WildcardSingle m) ->
  from i j <-> (j < length value)%nat /\ from (S i) (S j).
Proof.
  intros Hi. unfold from. rewrite (drop_lookup pat i), Hi, (drop_lookup value j).
  destruct (value !! j) as [x|] eqn:Hj; split.
  - intros H. inversion H; subst. by apply lookup_lt_Some in Hj.
  - intros [_ H]. by constructor.
  - intros H. inversion H.
  - apply lookup_ge_None in Hj. lia.
Qed.

Lemma from_many i j n m :
  pat !! i = Some (WildcardMany n m) ->
  from i j <-> from (S i) j \/ ((j < length value)%nat /\ from i (S j)).
Proof.
  intros Hi. unfold from. rewrite (drop_lookup pat i), Hi, (drop_lookup value j).
  destruct (value !! j) as [x|] eqn:Hj; split.
  - intros H. inversion H; subst; [by left|right].
    split; [by apply lookup_lt_Some in Hj|done].
  - intros [H|[_ H]]; by constructor.
  - intros H. inversion H; subst. by left.
  - apply lookup_ge_None in Hj. intros [H|[? _]]; [by constructor|lia].
Qed.

Lemma from_end i j : pat !! i = None -> from i j <-> (length value <= j)%nat.
Proof.
  intros Hi. unfold from. rewrite (drop_lookup pat i), Hi, (drop_lookup value j).
  destruct (value !! j) as [x|] eqn:Hj; split.
  - intros H. inversion H.
  - apply lookup_lt_Some in Hj. lia.
  - intros _. by apply lookup_ge_None in Hj.
  - constructor.
Qed.

(** A star absorbs what is in front of a later match. *)
Lemma from_absorb i j k n m :
  pat !! i = Some (WildcardMany n m) -> from i (j + k) -> from i j.
Proof.
  intros Hi. induction k as [|k IH]; [by rewrite Nat.add_0_r|].
  intros H. apply IH. destruct (decide (j + k < length value)%nat) as [Hj|Hj].
  - apply (from_many _ _ _ _ Hi). right. split; [done|]. by rewrite Nat.add_succ_r in H.
  - unfold from in *. rewrite (drop_ge value (j + S k)) in H by lia.
    by rewrite (drop_ge value (j + k)) by lia.
Qed.

Lemma from_many_exists i j n m :
  pat !! i = Some (WildcardMany n m) -> from i j -> exists k, from (S i) (j + k).
Proof.
  intros Hi H. remember (length value - j)%nat as d eqn:Hd.
  revert j H Hd. induction d as [|d IH]; intros j H Hd;
    apply (from_many _ _ _ _ Hi) in H as [H|[Hj H]].
  - exists 0%nat. by rewrite Nat.add_0_r.
  - lia.
  - exists 0%nat. by rewrite Nat.add_0_r.
  - destruct (IH (S j) H ltac:(lia)) as [k Hk]. exists (S k). by rewrite Nat.add_succ_r.
Qed.

(** Between two stars every pattern character takes exactly one character. *)
Definition no_star (i i' : nat) : Prop :=
  forall k, (i <= k < i')%nat -> exists c, pat !! k = Some c /\ is_many c = false.

Lemma from_segment i n j :
  no_star i (i + n) -> from i j -> from (i + n) (j + n).
Proof.
  revert i j. induction n as [|n IH]; intros i j Hs H; [by rewrite !Nat.add_0_r|].
  destruct (Hs i ltac:(lia)) as (c & Hc & Hm). rewrite !Nat.add_succ_r, <- !Nat.add_succ_l.
  apply IH; [intros k Hk; apply Hs; lia|].
  destruct c; [done| |].
  - by apply (proj1 (from_single _ _ _ Hc) H).
  - by apply (proj1 (from_char _ _ _ _ Hc) H).
Qed.

(** The loop invariant: the saved positions are a star and the next place
    to resume it; since then the loop has either just resumed it, or has
    matched star-free pattern characters one to one. *)
Definition restart (s : mstate) : Prop := px s = next_px s /\ nx s = next_nx s.
Definition inv (s : mstate) : Prop :=
  (nx s <= length value)%nat /\ (px s <= length pat)%nat /\
  (next_nx s = 0%nat \/
   ((exists n m, pat !! next_px s = Some (WildcardMany n m)) /\
    (restart s \/
     (next_px s < px s /\ nx s + next_px s + 2 = next_nx s + px s)%nat /\
      no_star (S (next_px s)) (px s)))).

(** What the loop will answer from a state. *)
Definition answer (s : mstate) : Prop :=
  from (px s) (nx s) \/
  ((0 < next_nx s <= length value)%nat /\ from (next_px s) (next_nx s)).

(** Discarding the saved position at a new star loses nothing. *)
Lemma newer_star s n m :
  inv s -> pat !! px s = Some (WildcardMany n m) ->
  (0 < next_nx s)%nat -> from (next_px s) (next_nx s) -> from (px s) (nx s).
Proof.
  intros (_ & _ & [H0|[(n' & m' & Hst) [[-> ->]|[[Hlt Heq] Hseg]]]]) Hpx Hpos H;
    [lia|done|].
  destruct (from_many_exists _ _ _ _ Hst H) as [k Hk].
  set (d := (px s - S (next_px s))%nat).
  assert (px s = S (next_px s) + d)%nat as Hd by lia.
  rewrite Hd in Hseg, Hpx |- *. apply (from_segment _ d) in Hk; [|done].
  replace (next_nx s + k + d)%nat with (nx s + (k + 1))%nat in Hk by lia.
  by apply (from_absorb _ _ _ _ _ Hpx) in Hk.
Qed.

(** ** One step *)

Definition measure (s : mstate) : nat :=
  let star := match pat !! px s with Some c => is_many c | None => false end in
  let e := if star then S (nx s) else next_nx s in
  (length value + 2 - e) * (length pat + 2) + (length pat - px s).

Lemma inv_next_bound s : inv s -> (next_nx s <= S (nx s))%nat.
Proof. unfold inv, restart. lia. Qed.

(** A step that consumes one pattern and one value character. *)
Lemma advance_ok s c :
  inv s -> pat !! px s = Some c -> is_many c = false -> (nx s < length value)%nat ->
  let s' := mkState (S (px s)) (S (nx s)) (next_px s) (next_nx s) in
  (from (px s) (nx s) <-> from (S (px s)) (S (nx s))) ->
  inv s' /\ (answer s <-> answer s') /\ (measure s' < measure s)%nat.
Proof.
  intros Hinv Hc Hm Hn s' Hiff. pose proof (inv_next_bound s Hinv) as Hb.
  apply lookup_lt_Some in Hc as Hlt.
  assert (inv s') as Hinv'.
  { destruct Hinv as (_ & _ & H). unfold inv, s'. simpl. split; [lia|]. split; [lia|].
    destruct H as [H|[Hst H]]; [by left|right]. split; [done|right].
    destruct H as [[Hp Hx]|[[Hlt' Heq] Hseg]].
    - destruct Hst as (n & m & Hst). rewrite <- Hp, Hc in Hst. simplify_eq.
    - split; [lia|]. intros k Hk. destruct (decide (k = px s)) as [->|]; [eauto|].
      apply Hseg. lia. }
  split; [done|]. split; [unfold answer, s'; simpl; tauto|].
  pose proof (inv_next_bound s' Hinv') as Hb'. unfold measure, s' in *. simpl in *. rewrite Hc, Hm.
  assert (forall e, (next_nx s <= e)%nat ->
    (length value + 2 - e) * (length pat + 2) <=
    (length value + 2 - next_nx s) * (length pat + 2))%nat as Hle
    by (intros e He; apply Nat.mul_le_mono_r; lia).
  destruct (pat !! S (px s)) as [c'|]; [destruct (is_many c')|];
    [specialize (Hle (S (S (nx s))))|specialize (Hle (next_nx s))..]; lia.
Qed.

Lemma star_ok s n m :
  inv s -> pat !! px s = Some (WildcardMany n m) ->
  let s' := mkState (S (px s)) (nx s) (px s) (S (nx s)) in
  inv s' /\ (answer s <-> answer s') /\ (measure s' < measure s)%nat.
Proof.
  intros Hinv Hc s'. apply lookup_lt_Some in Hc as Hlt. split.
  - destruct Hinv as (H1 & H2 & _). unfold inv, s'. simpl.
    split; [done|]. split; [lia|]. right. split; [eauto|]. right.
    split; [lia|]. intros k Hk. lia.
  - split.
    + unfold answer, s'. simpl. rewrite (from_many _ _ _ _ Hc).
      split; [|intros [H|[? H]]; [by left; left|left; right; split; [lia|done]]].
      intros [[H|[? H]]|[? H]]; [by left|right; split; [lia|done]|].
      apply (newer_star s _ _ Hinv Hc) in H; [|lia].
      apply (from_many _ _ _ _ Hc) in H as [H|[? H]]; [by left|right; split; [lia|done]].
    + unfold measure, s'. simpl. rewrite Hc. simpl.
      destruct (pat !! S (px s)) as [c'|]; [destruct (is_many c')|]; lia.
Qed.

Definition resume (s : mstate) : mstate :=
  mkState (next_px s) (next_nx s) (next_px s) (next_nx s).

(** Backtracking to the saved star. *)
Lemma resume_ok s :
  inv s -> (match pat !! px s with Some c => is_many c = false | None => True end) ->
  ~ from (px s) (nx s) ->
  (0 < next_nx s <= length value)%nat ->
  inv (resume s) /\ (answer s <-> answer (resume s)) /\ (measure (resume s) < measure s)%nat.
Proof.
  intros (H1 & H2 & Hst) Hc Hno Hn. destruct Hst as [Hst|[(n & m & Hst) Hr]]; [lia|].
  apply lookup_lt_Some in Hst as Hlt. split; [|split].
  - unfold inv, resume, restart. simpl. split; [lia|]. split; [lia|]. right.
    split; [eauto|by left].
  - unfold answer, resume. simpl. tauto.
  - unfold measure, resume. simpl. rewrite Hst. simpl.
    assert (match pat !! px s with Some c => is_many c | None => false end = false) as ->
      by (by destruct (pat !! px s)).
    replace (length value + 2 - next_nx s)%nat with (S (length value + 1 - next_nx s)) by lia.
    replace (length value + 2 - S (next_nx s))%nat with (length value + 1 - next_nx s)%nat by lia.
    lia.
Qed.

Lemma no_resume s :
  ~ from (px s) (nx s) -> ~ (0 < next_nx s <= length value)%nat -> ~ answer s.
Proof. unfold answer. tauto. Qed.

(** Every iteration either answers, correctly, or goes on from a state with
    the same answer and a smaller measure. *)
Lemma match_step_ok s :
  inv s ->
  match match_step pat value s with
  | Done b => b = true <-> answer s
  | Continue s' => inv s' /\ (answer s <-> answer s') /\ (measure s' < measure s)%nat
  end.
Proof.
  intros Hinv. unfold match_step. fold (resume s).
  assert (~ from (px s) (nx s) ->
    (match pat !! px s with Some c => is_many c = false | None => True end) ->
    match (if (0 <? next_nx s)%nat && (next_nx s <=? length value)%nat
           then Continue (resume s) else Done false) with
    | Done b => b = true <-> answer s
    | Continue s' => inv s' /\ (answer s <-> answer s') /\ (measure s' < measure s)%nat
    end) as Hback.
  { intros Hno Hc. destruct ((0 <? next_nx s)%nat && (next_nx s <=? length value)%nat) eqn:E.
    - apply andb_true_iff in E as [?%Nat.ltb_lt ?%Nat.leb_le]. by apply resume_ok.
    - split; [done|]. intros H. exfalso. revert H. apply no_resume; [done|].
      intros [?%Nat.ltb_lt ?%Nat.leb_le]. by rewrite H, H0 in E. }
  destruct ((px s <? length pat)%nat || (nx s <? length value)%nat) eqn:Ew.
  - destruct (pat !! px s) as [c|] eqn:Hc.
    + destruct c as [n m|m|char m].
      * by apply (star_ok s n m).
      * destruct (nx s <? length value)%nat eqn:En.
        -- apply Nat.ltb_lt in En. eapply advance_ok; try done.
           rewrite (from_single _ _ _ Hc). tauto.
        -- apply Nat.ltb_ge in En. apply Hback; [|done].
           rewrite (from_single _ _ _ Hc). lia.
      * destruct (value !! nx s) as [nc|] eqn:Hn.
        -- apply lookup_lt_Some in Hn as Hlt. destruct (Z.eqb_spec nc char) as [->|Hne].
           ++ eapply advance_ok; try done. rewrite (from_char _ _ _ _ Hc). tauto.
           ++ apply Hback; [|done]. rewrite (from_char _ _ _ _ Hc). naive_solver.
        -- apply Hback; [|done]. rewrite (from_char _ _ _ _ Hc). naive_solver.
    + apply Hback; [|done]. rewrite (from_end _ _ Hc).
      apply lookup_ge_None in Hc. apply orb_true_iff in Ew as [?%Nat.ltb_lt|?%Nat.ltb_lt]; lia.
  - apply orb_false_iff in Ew as [Hp%Nat.ltb_ge Hv%Nat.ltb_ge].
    split; [|done]. intros _. left. by apply from_end; [apply lookup_ge_None|].
Qed.

Lemma match_loop_ok s fuel :
  inv s -> (measure s < fuel)%nat ->
  exists b, match_loop fuel pat value s = Some b /\ (b = true <-> answer s).
Proof.
  revert s. induction fuel as [|fuel IH]; intros s Hinv Hf; [lia|]. simpl.
  pose proof (match_step_ok s Hinv) as Hs.
  destruct (match_step pat value s) as [s'|b]; [|eauto].
  destruct Hs as (Hinv' & Hans & Hm).
  destruct (IH s' Hinv' ltac:(lia)) as (b & Hb & Hiff). exists b. by rewrite Hb, Hiff, Hans.
Qed.

Lemma match_loop_spec :
  exists b, match_loop (match_fuel pat value) pat value (mkState 0 0 0 0) = Some b /\
    (b = true <-> glob pat value).
Proof.
  destruct (match_loop_ok (mkState 0 0 0 0) (match_fuel pat value)) as (b & Hb & Hiff).
  - unfold inv. simpl. lia.
  - unfold measure, match_fuel. simpl.
    destruct (pat !! 0%nat) as [c|]; [destruct (is_many c)|]; nia.
  - exists b. split; [done|]. rewrite Hiff. unfold answer, from. simpl.
    rewrite !drop_0. split; [|by left]. intros [H|[? _]]; [done|lia].
Qed.

End Matcher.

(** ** The compiled pattern has the language of the pattern text *)

Lemma glob_many n m p v : glob (WildcardMany n m :: p) v <-> exists k, glob p (drop k v).
Proof.
  split.
  - intros H. remember (WildcardMany n m :: p) as q eqn:Hq.
    induction H; simplify_eq.
    + exists 0%nat. by rewrite drop_0.
    + destruct (IHglob eq_refl) as [k Hk]. by exists (S k).
  - intros [k H]. revert v H. induction k as [|k IH]; intros v H.
    + rewrite drop_0 in H. by constructor.
    + destruct v as [|x v]; simpl in H; [by constructor|]. apply glob_many_take, IH, H.
Qed.

Lemma lang_star p v : lang (c#"*" :: p) v <-> exists k, lang p (drop k v).
Proof.
  split.
  - intros H. remember (c#"*" :: p) as q eqn:Hq.
    induction H; simplify_eq.
    + exists 0%nat. by rewrite drop_0.
    + destruct (IHlang eq_refl) as [k Hk]. by exists (S k).
  - intros [k H]. revert v H. induction k as [|k IH]; intros v H.
    + rewrite drop_0 in H. by constructor.
    + destruct v as [|x v]; simpl in H; [by constructor|]. apply lang_star_take, IH, H.
Qed.

Lemma glob_pchar c m p v : glob (PChar c m :: p) v <-> exists v', v = c :: v' /\ glob p v'.
Proof. split; [intros H; inversion H; subst; eauto|intros (v' & -> & H); by constructor]. Qed.

Lemma lang_escape_iff c p v :
  lang (c#"\" :: c :: p) v <-> exists v', v = c :: v' /\ lang p v'.
Proof. split; [intros H; inversion H; subst; eauto; done|intros (v' & -> & H); by constructor]. Qed.

Definition plain (c : Z) : Prop := c <> c#"*" /\ c <> c#"?" /\ c <> c#"\".

Lemma lang_plain c p v : plain c -> lang (c :: p) v <-> exists v', v = c :: v' /\ lang p v'.
Proof.
  intros (H1 & H2 & H3).
  split; [intros H; inversion H; subst; eauto; done|intros (v' & -> & H); by constructor].
Qed.

Lemma lang_any_iff p v : lang (c#"?" :: p) v <-> exists x v', v = x :: v' /\ lang p v'.
Proof. split; [intros H; inversion H; subst; eauto; done|intros (x & v' & -> & H); by constructor]. Qed.

Lemma lang_nil_iff v : lang [] v <-> v = [].
Proof. split; [by inversion 1|intros ->; constructor]. Qed.

Lemma glob_nil_iff v : glob [] v <-> v = [].
Proof. split; [by inversion 1|intros ->; constructor]. Qed.

Lemma lang_end_iff v : lang [c#"\"] v <-> v = [].
Proof. split; [inversion 1; subst; done|intros ->; constructor]. Qed.

Section CompileSpec.
Context (up : Z -> bool) (low : Z -> list Z).

Lemma compile_lang_len n p :
  (length p < n)%nat -> forall esc v,
  glob (compile_loop up low false esc p) v <->
  lang (if esc then c#"\" :: p else p) v.
Proof.
  revert p. induction n as [|n IH]; intros p Hn esc v; [lia|].
  destruct p as [|c p]; simpl.
  { rewrite glob_nil_iff. destruct esc; [by rewrite lang_end_iff|by rewrite lang_nil_iff]. }
  simpl in Hn. destruct esc; simpl; rewrite ?andb_false_r, ?andb_true_r.
  { rewrite glob_pchar, lang_escape_iff. by setoid_rewrite (IH p ltac:(lia) false). }
  destruct (Z.eqb_spec c c#"*") as [->|H1]; [|destruct (Z.eqb_spec c c#"?") as [->|H2];
    [|destruct (Z.eqb_spec c c#"\") as [->|H3]]].
  - rewrite lang_star. generalize 1 as num. assert (length p < n)%nat as Hp by lia. clear Hn.
    revert v Hp. induction p as [|c p IHp]; intros v Hp num;
      cbn [stars]; simpl in Hp.
    + rewrite glob_many. cbn [compile_loop]. setoid_rewrite glob_nil_iff. by setoid_rewrite lang_nil_iff.
    + destruct (Z.eqb_spec c c#"*") as [->|Hc].
      * rewrite IHp by lia. split; intros [k Hk].
        -- exists 0%nat. rewrite drop_0. apply lang_star. eauto.
        -- apply lang_star in Hk as [k' Hk]. rewrite drop_drop in Hk. eauto.
      * rewrite glob_many. by setoid_rewrite (IH (c :: p) ltac:(simpl; lia) false).
  - rewrite lang_any_iff. split.
    + intros H. inversion H; subst. eexists _, _. split; [done|]. by apply (IH p ltac:(lia) false).
    + intros (x & v' & -> & H). constructor. by apply (IH p ltac:(lia) false).
  - by rewrite (IH p ltac:(lia) true).
  - rewrite glob_pchar, lang_plain by done. by setoid_rewrite (IH p ltac:(lia) false).
Qed.

Lemma compile_lang p v : glob (compile_loop up low false false p) v <-> lang p v.
Proof. apply (compile_lang_len (S (length p)) p ltac:(lia) false). Qed.

(** ** Literal entries *)

(** No backslash is itself escaped. *)
Fixpoint no_double_from (last : Z) (p : list Z) : Prop :=
  match p with
  | [] => True
  | c :: p => ~ (last = c#"\" /\ c = c#"\") /\ no_double_from c p
  end.
Definition no_double (p : list Z) : Prop := no_double_from 0 p.

Definition strip_escapes (p : list Z) : list Z := List.filter (fun c => negb (c =? c#"\")) p.

Lemma scan_glob last he p : snd (scan last he true p) = true.
Proof.
  revert last he. induction p as [|c p IH]; intros last he; simpl; [done|].
  repeat case_match; apply IH.
Qed.

Lemma scan_escape last ig p : fst (scan last true ig p) = true.
Proof.
  revert last ig. induction p as [|c p IH]; intros last ig; simpl; [done|].
  repeat case_match; apply IH.
Qed.

Lemma scan_literal last he p :
  no_double_from last p -> snd (scan last he false p) = false ->
  forall v, lang (if last =? c#"\" then c#"\" :: p else p) v <-> v = strip_escapes p.
Proof.
  revert last he. induction p as [|c p IH]; intros last he Hd Hs v; simpl in *.
  { case_if; [by rewrite lang_end_iff|by rewrite lang_nil_iff]. }
  destruct Hd as [Hd1 Hd2].
  destruct (Z.eqb_spec c c#"\") as [->|Hc]; simpl.
  { destruct (Z.eqb_spec last c#"\") as [->|]; [naive_solver|].
    apply (IH c#"\" true Hd2 Hs). }
  assert (lang p = lang (if c =? c#"\" then c#"\" :: p else p)) as Hp.
  { by destruct (Z.eqb_spec c c#"\"). }
  assert (snd (scan c he false p) = false -> forall v,
    (exists v', v = c :: v' /\ lang p v') <-> v = c :: strip_escapes p) as Hlit.
  { intros Hs' v0. pose proof (IH c he Hd2 Hs') as HI. rewrite <- Hp in HI.
    setoid_rewrite HI. naive_solver. }
  destruct (Z.eqb_spec last c#"\") as [->|Hl]; simpl in *.
  - rewrite andb_false_r in Hs. rewrite lang_escape_iff. by apply Hlit.
  - rewrite andb_true_r in Hs.
    destruct ((c =? c#"*") || (c =? c#"?")) eqn:Ew.
    + by rewrite scan_glob in Hs.
    + bool_to_prop. rewrite lang_plain by done. by apply Hlit.
Qed.

Lemma scan_no_escape last ig p :
  fst (scan last false ig p) = false -> strip_escapes p = p.
Proof.
  revert last ig. induction p as [|c p IH]; intros last ig; simpl; [done|].
  destruct (Z.eqb_spec c c#"\"); simpl.
  - by rewrite scan_escape.
  - intros H. f_equal. revert H. case_if; apply IH.
Qed.

(** The two outcomes of [try_compile] mean the same as the pattern text. *)
Lemma try_compile_lang p v :
  no_double p ->
  match try_compile up low p false with
  | Ok g => to_lower g = false /\ (glob (pattern g) v <-> lang p v)
  | Err e => v = e <-> lang p v
  end.
Proof.
  intros Hd. unfold try_compile.
  destruct (scan 0 false false p) as [he ig] eqn:E. destruct ig.
  - split; [done|]. apply compile_lang.
  - pose proof (scan_literal 0 false p Hd ltac:(by rewrite E) v) as H. simpl in H.
    rewrite H. destruct he; [done|].
    pose proof (scan_no_escape 0 false p ltac:(by rewrite E)) as Hp.
    unfold strip_escapes in *. by rewrite Hp.
Qed.

End CompileSpec.

(** ** Prefix, suffix and exact matches *)

Lemma strip_suffix_spec c s :
  match strip_suffix_char c s with
  | Some s' => s = s' ++ [c]
  | None => forall s', s <> s' ++ [c]
  end.
Proof.
  unfold strip_suffix_char. destruct s as [|x s _] using rev_ind; simpl.
  - by intros [|].
  - rewrite last_snoc, removelast_last. destruct (Z.eqb_spec x c) as [->|Hc]; [done|].
    intros s' H. by apply app_inj_tail in H as [_ H].
Qed.

Lemma starts_with_spec v p : starts_with v p = true <-> exists r, v = p ++ r.
Proof.
  unfold starts_with. rewrite bytes_eqb_eq. split.
  - intros H. exists (skipn (length p) v). by rewrite <- H at 1; rewrite firstn_skipn.
  - intros [r ->]. by rewrite take_app_length.
Qed.

Lemma ends_with_spec v p : ends_with v p = true <-> exists r, v = r ++ p.
Proof.
  unfold ends_with. rewrite andb_true_iff, Nat.leb_le, bytes_eqb_eq. split.
  - intros [Hl H]. exists (firstn (length v - length p) v).
    by rewrite <- H at 2; rewrite firstn_skipn.
  - intros [r ->]. rewrite length_app. split; [lia|].
    replace (length r + length p - length p)%nat with (length r) by lia.
    by rewrite drop_app_length.
Qed.

Lemma lang_plain_app q r v :
  Forall plain q -> lang (q ++ r) v <-> exists v', v = q ++ v' /\ lang r v'.
Proof.
  intros Hq. revert v. induction Hq as [|c q Hc Hq IH]; intros v; simpl; [naive_solver|].
  rewrite lang_plain by done. setoid_rewrite IH. naive_solver.
Qed.

Lemma lang_plain_all q v : Forall plain q -> lang q v <-> v = q.
Proof.
  intros Hq. rewrite <- (app_nil_r q) at 1. rewrite lang_plain_app by done.
  setoid_rewrite lang_nil_iff. split; [|intros ->; exists []; by rewrite app_nil_r].
  intros (v' & -> & ->). by rewrite app_nil_r.
Qed.

(** ** Properties *)

Section Properties.
Context (up : Z -> bool) (low : Z -> list Z) (str_low : list Z -> list Z).

Lemma matches_spec g v :
  exists b, matches str_low g v = Some b /\
    (b = true <-> glob (pattern g) (if to_lower g then str_low v else v)).
Proof. unfold matches. apply match_loop_spec. Qed.

(** The matcher always ends, within the stated number of iterations,
    and a pattern text compiled without case folding matches exactly the
    values of its language: [*] any characters, [?] one character, a
    backslash takes the next character literally. *)
Theorem glob_matches p v :
  exists b, matches str_low (compile up low p false) v = Some b /\ (b = true <-> lang p v).
Proof.
  destruct (matches_spec (compile up low p false) v) as (b & Hb & Hiff).
  exists b. split; [done|]. rewrite Hiff. apply compile_lang.
Qed.

(** What a map stands for: the entries and the patterns that match. *)
Definition map_has {V} (m : GlobMap V) (key : list Z) (v : V) : Prop :=
  mentries m !! key = Some v \/
  exists g, (g, v) ∈ mpatterns m /\ to_lower g = false /\ glob (pattern g) key.

Lemma find_matches_spec {V} key (l : list (GlobPattern * V)) :
  Forall (fun gv => to_lower (fst gv) = false) l ->
  exists r, find_matches str_low key l = Some r /\
    match r with
    | Some v => exists g, (g, v) ∈ l /\ glob (pattern g) key
    | None => forall g v, (g, v) ∈ l -> ~ glob (pattern g) key
    end.
Proof.
  induction 1 as [|[g v] l Hg Hl IH]; simpl.
  - exists None. split; [done|]. intros g v H. by apply elem_of_nil in H.
  - destruct (matches_spec g key) as (b & -> & Hiff). simpl in *. rewrite Hg in Hiff.
    destruct b.
    + exists (Some v). split; [done|]. exists g. split; [left|by apply Hiff].
    + destruct IH as (r & -> & Hr). exists r. split; [done|]. destruct r as [v'|].
      * destruct Hr as (g' & Hin & Hm). exists g'. split; [by right|done].
      * intros g' v' [[= -> ->]|Hin]%elem_of_cons; [|by apply (Hr g' v')].
        intros Hm. by apply Hiff in Hm.
Qed.

(** The map after inserting the patterns of [l] in order. *)
Definition map_of {V} (l : list (list Z * V)) : GlobMap V :=
  fold_left (fun m pv => map_insert_pattern up low m (fst pv) (snd pv)) l (mkMap ∅ []).

Lemma map_of_snoc {V} (l : list (list Z * V)) p v :
  map_of (l ++ [(p, v)]) = map_insert_pattern up low (map_of l) p v.
Proof. unfold map_of. by rewrite fold_left_app. Qed.

(** Entries come from patterns that mean the entry, pattern entries are the
    compiled patterns, and every inserted pattern is in one of the two. *)
Lemma map_of_inv {V} (l : list (list Z * V)) :
  Forall (fun pv => no_double (fst pv)) l ->
  (forall e v, mentries (map_of l) !! e = Some v -> exists p, (p, v) ∈ l /\ lang p e) /\
  (forall p v e, (p, v) ∈ l -> lang p e ->
     is_Some (mentries (map_of l) !! e) \/
     exists g, (g, v) ∈ mpatterns (map_of l) /\ glob (pattern g) e) /\
  (forall g v e, (g, v) ∈ mpatterns (map_of l) -> glob (pattern g) e ->
     exists p, (p, v) ∈ l /\ lang p e) /\
  Forall (fun gv => to_lower (fst gv) = false) (mpatterns (map_of l)).
Proof.
  intros Hl. induction l as [|[p v] l IH] using rev_ind.
  { split; [|split; [|split]]; simpl.
    - intros e v H. by rewrite lookup_empty in H.
    - intros p v e H. by apply elem_of_nil in H.
    - intros g v e H. by apply elem_of_nil in H.
    - constructor. }
  apply Forall_app in Hl as [Hl [Hp _]%Forall_cons]. simpl in Hp.
  destruct (IH Hl) as (I1 & I2 & I3 & I4). clear IH. rewrite map_of_snoc.
  unfold map_insert_pattern.
  pose proof (fun e => try_compile_lang up low p e Hp) as Htc.
  destruct (try_compile up low p false) as [g|e0]; simpl.
  - destruct (Htc []) as [Hg _].
    split; [|split; [|split]].
    + intros e v' H. apply I1 in H as (p' & ? & ?). exists p'. set_solver.
    + intros p' v' e [H|[= -> ->]%list_elem_of_singleton]%elem_of_app Hlang.
      * destruct (I2 _ _ _ H Hlang) as [|(g' & ? & ?)]; [by left|right]. exists g'. set_solver.
      * right. exists g. split; [set_solver|]. by apply Htc.
    + intros g' v' e [H|[= -> ->]%list_elem_of_singleton]%elem_of_app Hm.
      * destruct (I3 _ _ _ H Hm) as (p' & ? & ?). exists p'. set_solver.
      * exists p. split; [set_solver|]. by apply Htc.
    + apply Forall_app. split; [done|]. by constructor.
  - split; [|split; [|split]].
    + intros e v'. destruct (decide (e0 = e)) as [->|Hne].
      * rewrite lookup_insert_eq. intros [= ->]. exists p. split; [set_solver|]. by apply Htc.
      * rewrite lookup_insert_ne by done. intros H.
        apply I1 in H as (p' & ? & ?). exists p'. set_solver.
    + intros p' v' e [H|[= -> ->]%list_elem_of_singleton]%elem_of_app Hlang.
      * destruct (I2 _ _ _ H Hlang) as [Hs|?]; [left|by right].
        destruct (decide (e0 = e)) as [->|Hne]; [rewrite lookup_insert_eq; eauto|].
        by rewrite lookup_insert_ne.
      * left. apply Htc in Hlang as ->. rewrite lookup_insert_eq. eauto.
    + intros g' v' e H Hm. destruct (I3 _ _ _ H Hm) as (p' & ? & ?). exists p'. set_solver.
    + done.
Qed.

(** A map built from any list of patterns, none of which escapes a
    backslash, answers a lookup with the value of an inserted pattern whose
    language contains the key, and answers "absent" only when no inserted
    pattern matches, whether a pattern became a literal entry or a compiled
    one. *)
Theorem glob_map_get {V} (l : list (list Z * V)) key :
  Forall (fun pv => no_double (fst pv)) l ->
  exists r, get str_low (map_of l) key = Some r /\
    match r with
    | Some v => exists p, (p, v) ∈ l /\ lang p key
    | None => forall p v, (p, v) ∈ l -> ~ lang p key
    end.
Proof.
  intros Hl. destruct (map_of_inv l Hl) as (I1 & I2 & I3 & I4). unfold get.
  destruct (mentries (map_of l) !! key) as [v|] eqn:He.
  - exists (Some v). split; [done|]. by apply I1.
  - destruct (find_matches_spec key _ I4) as (r & Hr & Hspec). exists r. split; [done|].
    destruct r as [v|].
    + destruct Hspec as (g & Hin & Hm). eauto.
    + intros p v Hin Hlang. destruct (I2 _ _ _ Hin Hlang) as [[v' Hv']|(g & Hg & Hm)].
      * by rewrite He in Hv'.
      * by apply (Hspec g v).
Qed.

Lemma strip_suffix_plain s r : Forall plain r -> r <> [] -> strip_suffix_char c#"*" (s ++ r) = None.
Proof.
  intros Hr Hne. pose proof (strip_suffix_spec c#"*" (s ++ r)) as H.
  destruct (strip_suffix_char c#"*" (s ++ r)) as [s'|]; [|done].
  destruct r as [|x r _] using rev_ind; [done|].
  rewrite app_assoc in H. apply app_inj_tail in H as [_ ->].
  apply Forall_app in Hr as [_ [[Hx _] _]%Forall_cons]. done.
Qed.

Lemma lang_star_all v : lang [c#"*"] v.
Proof. apply lang_star. exists (length v). rewrite drop_ge by done. constructor. Qed.

Lemma lang_star_plain r v : Forall plain r -> lang (c#"*" :: r) v <-> exists x, v = x ++ r.
Proof.
  intros Hr. rewrite lang_star. setoid_rewrite (lang_plain_all r); [|done]. split.
  - intros [k Hk]. exists (firstn k v). by rewrite <- Hk, firstn_skipn.
  - intros [x ->]. exists (length x). by rewrite drop_app_length.
Qed.

Lemma match_parse_plain q : Forall plain q -> match_parse up low q = Equal q.
Proof.
  intros Hq. unfold match_parse. destruct q as [|c q]; [done|].
  pose proof Hq as [[Hc _] _]%Forall_cons.
  pose proof (strip_suffix_plain [] (c :: q) Hq ltac:(done)) as Hs. simpl app in Hs.
  assert (existsb (fun c => c =? c#"*") (c :: q) = false) as He.
  { apply not_true_iff_false. rewrite existsb_exists. intros (x & Hin & Hx%Z.eqb_eq).
    apply list_elem_of_In in Hin. rewrite Forall_forall in Hq. by destruct (Hq x Hin). }
  rewrite Hs, He. simpl. rewrite (proj2 (Z.eqb_neq c c#"*") Hc). done.
Qed.

(** The prefix/suffix/exact matcher agrees with the language of the
    pattern text for every pattern with at most one star and no other
    special character. *)
Theorem match_type_lang q r v :
  Forall plain q -> Forall plain r ->
  (exists b, match_matches str_low (match_parse up low q) v = Some b /\
     (b = true <-> lang q v)) /\
  (exists b, match_matches str_low (match_parse up low (q ++ c#"*" :: r)) v = Some b /\
     (b = true <-> lang (q ++ c#"*" :: r) v)).
Proof.
  intros Hq Hr. split.
  { rewrite match_parse_plain by done. eexists. split; [done|].
    by rewrite bytes_eqb_eq, lang_plain_all. }
  pose proof (lang_plain_app q (c#"*" :: r) v Hq) as Hlang. setoid_rewrite Hlang.
  unfold match_parse.
  destruct (bytes_eqb (q ++ c#"*" :: r) s#"*") eqn:Eall.
  { apply bytes_eqb_eq in Eall. eexists. split; [done|]. split; [|done]. intros _.
    apply (f_equal length) in Eall as Hlen. rewrite length_app in Hlen. simpl in Hlen.
    destruct q, r; simpl in Hlen; try lia. exists v. split; [done|apply lang_star_all]. }
  destruct r as [|x r].
  { pose proof (strip_suffix_spec c#"*" (q ++ [c#"*"])) as Hs.
    destruct (strip_suffix_char c#"*" (q ++ [c#"*"])) as [s'|]; [|by specialize (Hs q)].
    apply app_inj_tail in Hs as [<- _]. eexists. split; [done|]. rewrite starts_with_spec.
    split; intros [v' Hv]; exists v'; [split; [done|apply lang_star_all]|apply Hv]. }
  assert (strip_suffix_char c#"*" (q ++ c#"*" :: x :: r) = None) as ->.
  { replace (q ++ c#"*" :: x :: r) with ((q ++ [c#"*"]) ++ x :: r) by (by rewrite <- app_assoc).
    by apply strip_suffix_plain. }
  destruct q as [|c q]; simpl.
  - eexists. split; [done|]. rewrite ends_with_spec, <- (lang_star_plain (x :: r)) by done.
    split; [intros H; exists v; done|intros (v' & -> & H); done].
  - pose proof Hq as [[Hc _] Hq']%Forall_cons. rewrite (proj2 (Z.eqb_neq c c#"*") Hc).
    assert (existsb (fun c => c =? c#"*") (q ++ c#"*" :: x :: r) = true) as ->
      by (rewrite existsb_app; simpl; by rewrite orb_true_r).
    destruct (matches_spec (compile up low (c :: q ++ c#"*" :: x :: r) false) v) as (b & Hb & Hiff).
    exists b. split; [done|]. rewrite Hiff. unfold compile. cbn [pattern to_lower].
    rewrite compile_lang. change (c :: q ++ c#"*" :: x :: r) with ((c :: q) ++ c#"*" :: x :: r).
    by rewrite lang_plain_app.
Qed.
End Properties.

Lemma glob_map_get_witness :
  Forall (fun pv => no_double (fst pv)) [(s#"a*", 1); (s#"b", 2)] /\
  exists r, get (fun v => v) (map_of (fun _ => false) (fun c => [c]) [(s#"a*", 1); (s#"b", 2)]) s#"abc"
    = Some r.
Proof.
  assert (Forall (fun pv => no_double (fst pv)) [(s#"a*", 1); (s#"b", 2)]) as H.
  { repeat constructor; simpl; lia. }
  split; [exact H|].
  destruct (glob_map_get (fun _ => false) (fun c => [c]) (fun v => v) _ s#"abc" H) as (r & Hr & _).
  exists r. exact Hr.
Defined.

Lemma match_type_lang_witness :
  Forall plain s#"ab" /\ Forall plain s#"c" /\
  exists b, match_matches (fun v => v) (match_parse (fun _ => false) (fun c => [c]) s#"ab*c") s#"abxxc"
    = Some b.
Proof.
  assert (Forall plain s#"ab") as H1 by (repeat constructor; lia).
  assert (Forall plain s#"c") as H2 by (repeat constructor; lia).
  split; [exact H1|]. split; [exact H2|].
  destruct (match_type_lang (fun _ => false) (fun c => [c]) (fun v => v)
    s#"ab" s#"c" s#"abxxc" H1 H2) as [_ (b & Hb & _)].
  exists b. exact Hb.
Defined.

(** Two stars are outside the agreement: a leading and a trailing star are
    read as a prefix that starts with a literal star. *)
Example match_type_two_stars :
  match_matches (fun v => v) (match_parse (fun _ => false) (fun c => [c]) s#"*ab*") s#"xaby" = Some false /\
  match_matches (fun v => v) (match_parse (fun _ => false) (fun c => [c]) s#"*ab*") s#"*aby" = Some true /\
  lang s#"*ab*" s#"xaby".
Proof.
  split; [reflexivity|]. split; [reflexivity|].
  apply lang_star. exists 1%nat. simpl.
  repeat (apply lang_char; [done..|]). apply lang_star_all.
Qed.

(** An escaped backslash in front of a star hides the star from
    [try_compile], which then also drops both backslashes. *)
Example try_compile_double :
  try_compile (fun _ => false) (fun c => [c]) s#"a\\*" false = Err s#"a*" /\
  lang s#"a\\*" s#"a\x".
Proof.
  split; [reflexivity|]. apply lang_char; [done..|]. apply lang_escape, lang_star_all.
Qed.
