(* ===== verification/Topological.v ===== *)
(** * Topological sort ([crates/utils/src/topological.rs])

    Kahn's algorithm over two hash maps: the edge lists and the number of
    edges into each node that is still waiting.  The iteration order of
    [AHashMap::retain], which decides the order of the initial queue, is an
    arbitrary permutation of the map's keys. *)

From S2P Require Import Prelude.
From stdpp Require Import gmap sorting.
#[local] Open Scope nat_scope.

(** Split on the decisions of the goal; impossible combinations are set
    facts. *)
Ltac decide_all :=
  repeat case_decide; first [done | lia | exfalso; set_solver | naive_solver].

Section Topological.
Context {T : Type} `{Countable T}.

(** ** Data and operations *)

(* [crates/utils/src/topological.rs:11-14] TopologicalSort *)
Record TopologicalSort := mkSort { edges : gmap T (list T); count : gmap T nat }.

(* [crates/utils/src/topological.rs:17-22] TopologicalSort::with_capacity *)
Definition with_capacity : TopologicalSort := mkSort ∅ ∅.

(* [crates/utils/src/topological.rs:24-28] TopologicalSort::insert *)
Definition insert (s : TopologicalSort) (from to : T) : TopologicalSort :=
  let count := match count s !! from with
               | Some _ => count s
               | None => <[from := 0]> (count s)
               end in
  let edges := <[from := default [] (edges s !! from) ++ [to]]> (edges s) in
  mkSort edges (<[to := S (default 0 (count !! to))]> count).

(* [crates/utils/src/topological.rs:50-54] TopologicalSortIterator *)
Record TopologicalSortIterator :=
  mkIter { it_edges : gmap T (list T); it_count : gmap T nat; no_edges : list T }.

(** The queue is listed front to back: [push_front] is [cons]. *)
(* [crates/utils/src/topological.rs:30-46] TopologicalSort::into_iterator *)
Definition into_iterator (order : list T) (s : TopologicalSort) : TopologicalSortIterator :=
  mkIter (edges s)
    (filter (fun kv => kv.2 <> 0) (count s))
    (filter (fun node => count s !! node = Some 0) order).

(** The body of the [for] loop over the neighbours. *)
(* [crates/utils/src/topological.rs:63-71] TopologicalSortIterator::next *)
Definition relax (st : gmap T nat * list T) (neighbor : T) : gmap T nat * list T :=
  let '(count, no_edges) := st in
  match count !! neighbor with
  | Some c =>
      if decide (c - 1 = 0) then (delete neighbor count, neighbor :: no_edges)
      else (<[neighbor := c - 1]> count, no_edges)
  | None => (count, no_edges)
  end.

(* [crates/utils/src/topological.rs:59-75] TopologicalSortIterator::next *)
Definition next (it : TopologicalSortIterator) : option (T * TopologicalSortIterator) :=
  match last (no_edges it) with
  | None => None
  | Some no_edge =>
      let queue := removelast (no_edges it) in
      let '(count, queue) :=
        match it_edges it !! no_edge with
        | Some edges => fold_left relax edges (it_count it, queue)
        | None => (it_count it, queue)
        end in
      Some (no_edge, mkIter (it_edges it) count queue)
  end.

(* [crates/utils/src/topological.rs:79-81] TopologicalSortIterator::is_valid *)
Definition is_valid (it : TopologicalSortIterator) : bool :=
  bool_decide (it_count it = ∅).

(** Running the iterator to its end: the items and the final state. *)
Fixpoint run (fuel : nat) (it : TopologicalSortIterator) :
    option (list T * TopologicalSortIterator) :=
  match fuel with
  | O => None
  | S fuel =>
      match next it with
      | None => Some ([], it)
      | Some (x, it) => '(l, it) ← run fuel it; Some (x :: l, it)
      end
  end.

(** ** The graph of a sequence of insertions *)

Definition of_edges (es : list (T * T)) : TopologicalSort :=
  fold_left (fun s e => insert s e.1 e.2) es with_capacity.

Definition nodes (es : list (T * T)) : gset T :=
  list_to_set (es.*1) ∪ list_to_set (es.*2).

Definition targets (es : list (T * T)) (u : T) : list T :=
  (filter (fun e => e.1 = u) es).*2.

(** Edges into [v] whose source is not in [out]. *)
Definition pending (es : list (T * T)) (out : list T) (v : T) : nat :=
  length (filter (fun e => e.2 = v /\ e.1 ∉ out) es).

Definition occ (v : T) (l : list T) : nat := length (filter (fun w => w = v) l).

Lemma of_edges_snoc es e : of_edges (es ++ [e]) = insert (of_edges es) e.1 e.2.
Proof. unfold of_edges. by rewrite fold_left_app. Qed.

Lemma nodes_snoc es e : nodes (es ++ [e]) = nodes es ∪ {[e.1; e.2]}.
Proof. unfold nodes. rewrite !fmap_app. set_solver. Qed.

Lemma targets_snoc es e u :
  targets (es ++ [e]) u = targets es u ++ (if decide (e.1 = u) then [e.2] else []).
Proof.
  unfold targets. rewrite filter_app, fmap_app. f_equal.
  destruct (decide (e.1 = u)); [by rewrite filter_cons_True|by rewrite filter_cons_False].
Qed.

Lemma pending_snoc es e out v :
  pending (es ++ [e]) out v =
  pending es out v + (if decide (e.2 = v /\ e.1 ∉ out) then 1 else 0).
Proof.
  unfold pending. rewrite filter_app, length_app. f_equal.
  destruct (decide (e.2 = v /\ e.1 ∉ out));
    [by rewrite filter_cons_True|by rewrite filter_cons_False].
Qed.

Lemma of_edges_edges es u : default [] (edges (of_edges es) !! u) = targets es u.
Proof.
  induction es as [|e es IH] using rev_ind.
  - simpl. by rewrite lookup_empty.
  - rewrite of_edges_snoc, targets_snoc. simpl.
    destruct (decide (e.1 = u)) as [<-|Hne].
    + by rewrite lookup_insert_eq, <- IH.
    + by rewrite lookup_insert_ne, app_nil_r.
Qed.

Lemma pending_fresh es v : v ∉ nodes es -> pending es [] v = 0.
Proof.
  intros Hv. unfold pending. apply length_zero_iff_nil.
  destruct (filter _ es) as [|e l] eqn:E; [done|]. exfalso.
  assert (e ∈ e :: l) as Hin by left. rewrite <- E, list_elem_of_filter in Hin.
  destruct Hin as [[<- _] Hin]. apply Hv. unfold nodes.
  apply elem_of_union_r, elem_of_list_to_set, list_elem_of_fmap_2, Hin.
Qed.

(** The counters are the in-degrees, self-loops and parallel edges
    included, and every endpoint has one. *)
Lemma of_edges_count es v :
  count (of_edges es) !! v = if decide (v ∈ nodes es) then Some (pending es [] v) else None.
Proof.
  revert v. induction es as [|e es IH] using rev_ind; intros v.
  - simpl. rewrite lookup_empty. by rewrite decide_False by set_solver.
  - rewrite of_edges_snoc, nodes_snoc, pending_snoc. simpl.
    set (c1 := match count (of_edges es) !! e.1 with
               | Some _ => count (of_edges es) | None => <[e.1 := 0]> (count (of_edges es)) end).
    assert (forall w, c1 !! w = if decide (w ∈ nodes es ∪ {[e.1]})
                                then Some (pending es [] w) else None) as Hc1.
    { intros w. subst c1. rewrite (IH e.1).
      destruct (decide (e.1 ∈ nodes es)) as [Hin|Hin].
      - rewrite IH. decide_all.
      - destruct (decide (e.1 = w)) as [<-|Hne].
        + rewrite lookup_insert_eq, pending_fresh by done. by rewrite decide_True by set_solver.
        + rewrite lookup_insert_ne, IH by done. decide_all. }
    destruct (decide (e.2 = v)) as [<-|Hne].
    + rewrite lookup_insert_eq, Hc1.
      rewrite (decide_True (P := e.2 ∈ nodes es ∪ {[e.1; e.2]})) by set_solver.
      rewrite (decide_True (P := e.2 = e.2 /\ _)) by (split; [done|apply not_elem_of_nil]).
      f_equal. case_decide as Hd; simpl; [lia|]. rewrite pending_fresh by set_solver. lia.
    + rewrite lookup_insert_ne, Hc1 by done.
      rewrite (decide_False (P := e.2 = v /\ _)) by naive_solver. rewrite Nat.add_0_r.
      decide_all.
Qed.

(** Emitting [x] removes its edges from the pending ones. *)
Lemma pending_emit es out x v :
  x ∉ out -> pending es (out ++ [x]) v + occ v (targets es x) = pending es out v.
Proof.
  intros Hx. induction es as [|e es IH] using rev_ind; [done|].
  rewrite targets_snoc, !pending_snoc. unfold occ in *. rewrite filter_app, length_app.
  enough ((if decide (e.2 = v /\ e.1 ∉ out ++ [x]) then 1 else 0) +
    length (filter (fun w => w = v) (if decide (e.1 = x) then [e.2] else [])) =
    (if decide (e.2 = v /\ e.1 ∉ out) then 1 else 0)) by lia.
  destruct (decide (e.1 = x)) as [<-|Hne].
  - rewrite decide_False by set_solver. rewrite filter_cons, filter_nil.
    decide_all.
  - rewrite filter_nil. simpl. decide_all.
Qed.

Lemma pending_zero es out v :
  pending es out v = 0 <-> forall u, (u, v) ∈ es -> u ∈ out.
Proof.
  unfold pending. rewrite length_zero_iff_nil. split.
  - intros Hn u Hin. destruct (decide (u ∈ out)) as [|Hout]; [done|]. exfalso.
    apply (not_elem_of_nil (u, v)). rewrite <- Hn, list_elem_of_filter. done.
  - intros Hall. destruct (filter _ es) as [|e l] eqn:E; [done|]. exfalso.
    assert (e ∈ e :: l) as Hin by left. rewrite <- E, list_elem_of_filter in Hin.
    destruct Hin as [[<- Hout] Hin]. apply Hout, Hall. by destruct e.
Qed.

(** ** The loop over the neighbours *)

Lemma occ_cons v w l : occ v (w :: l) = (if decide (w = v) then 1 else 0) + occ v l.
Proof. unfold occ. rewrite filter_cons. by case_decide. Qed.

Definition positive (c : gmap T nat) : Prop := forall v k, c !! v = Some k -> 0 < k.

Lemma relax_all nb c q :
  positive c ->
  exists c' new, fold_left relax nb (c, q) = (c', new ++ q) /\ positive c' /\
    NoDup new /\
    (forall v, v ∈ new <-> exists k, c !! v = Some k /\ k <= occ v nb) /\
    (forall v, c' !! v = match c !! v with
                         | Some k => if decide (k <= occ v nb) then None else Some (k - occ v nb)
                         | None => None end).
Proof.
  revert c q. induction nb as [|w nb IH]; intros c q Hpos; simpl.
  - exists c, []. split; [done|]. split; [done|]. split; [constructor|]. split.
    + intros v. split; [by intros ?%elem_of_nil|]. intros (k & Hk & Hle).
      apply Hpos in Hk. unfold occ in Hle. simpl in Hle. lia.
    + intros v. destruct (c !! v) as [k|] eqn:Hk; [|done]. apply Hpos in Hk.
      unfold occ. simpl. rewrite decide_False by lia. f_equal. lia.
  - destruct (c !! w) as [k|] eqn:Hw.
    + pose proof (Hpos _ _ Hw) as Hk. destruct (decide (k - 1 = 0)) as [Hk1|Hk1].
      * destruct (IH (delete w c) (w :: q)) as (c' & new & -> & Hp' & Hnd & Hnew & Hc').
        { intros v j Hj. apply lookup_delete_Some in Hj as [_ Hj]. by apply Hpos in Hj. }
        exists c', (new ++ [w]). rewrite <- app_assoc. split; [done|]. split; [done|].
        assert (w ∉ new) as Hwn.
        { rewrite Hnew. intros (j & Hj & _). by rewrite lookup_delete_eq in Hj. }
        split; [|split].
        -- apply NoDup_app. split; [done|]. split; [set_solver|apply NoDup_singleton].
        -- intros v. rewrite elem_of_app, list_elem_of_singleton, Hnew, occ_cons.
           destruct (decide (w = v)) as [<-|Hne].
           ++ split; [intros _; exists k; split; [done|lia]|by right].
           ++ rewrite lookup_delete_ne by done. naive_solver.
        -- intros v. rewrite Hc', occ_cons. destruct (decide (w = v)) as [<-|Hne].
           ++ rewrite lookup_delete_eq, Hw. by rewrite decide_True by lia.
           ++ by rewrite lookup_delete_ne.
      * destruct (IH (<[w := k - 1]> c) q) as (c' & new & -> & Hp' & Hnd & Hnew & Hc').
        { intros v j. destruct (decide (w = v)) as [<-|Hne];
            [rewrite lookup_insert_eq|rewrite lookup_insert_ne by done; apply Hpos].
          intros [= <-]. lia. }
        exists c', new. split; [done|]. split; [done|]. split; [done|]. split; intros v.
        -- rewrite Hnew, occ_cons. destruct (decide (w = v)) as [<-|Hne].
           ++ rewrite lookup_insert_eq, Hw. split; intros (j & [= <-] & Hle);
                eexists; (split; [done|lia]).
           ++ by rewrite lookup_insert_ne.
        -- rewrite Hc', occ_cons. destruct (decide (w = v)) as [<-|Hne].
           ++ rewrite lookup_insert_eq, Hw. do 2 case_decide; try lia; [done|f_equal; lia].
           ++ by rewrite lookup_insert_ne.
    + destruct (IH c q Hpos) as (c' & new & -> & Hp' & Hnd & Hnew & Hc').
      exists c', new. split; [done|]. split; [done|]. split; [done|]. split; intros v.
      * rewrite Hnew, occ_cons. destruct (decide (w = v)) as [<-|Hne]; [|done].
        rewrite Hw. naive_solver.
      * rewrite Hc', occ_cons. destruct (decide (w = v)) as [<-|Hne]; [by rewrite Hw|done].
Qed.

(** ** The invariant of the iterator *)

Definition before (l : list T) (u v : T) : Prop :=
  exists i j, l !! i = Some u /\ l !! j = Some v /\ i < j.

(** The state after emitting [out]: the queue holds the nodes all of whose
    predecessors are out, the counters the pending edges of the others. *)
Record inv (es : list (T * T)) (out : list T) (it : TopologicalSortIterator) : Prop := {
  inv_edges : forall u, default [] (it_edges it !! u) = targets es u;
  inv_nodup : NoDup (out ++ no_edges it);
  inv_nodes : forall v, v ∈ out ++ no_edges it -> v ∈ nodes es;
  inv_count : forall v, it_count it !! v =
    if decide (v ∈ nodes es /\ v ∉ out ++ no_edges it)
    then Some (pending es out v) else None;
  inv_waiting : forall v, v ∈ nodes es -> v ∉ out ++ no_edges it -> 0 < pending es out v;
  inv_ready : forall v, v ∈ no_edges it -> pending es out v = 0;
  inv_order : forall u v, (u, v) ∈ es -> v ∈ out -> before out u v
}.

Lemma inv_positive es out it : inv es out it -> positive (it_count it).
Proof.
  intros Hi v k. rewrite (inv_count _ _ _ Hi). case_decide as Hd; [|done].
  intros [= <-]. destruct Hd. by apply (inv_waiting _ _ _ Hi).
Qed.

Lemma inv_init es order :
  order ≡ₚ elements (dom (count (of_edges es))) ->
  inv es [] (into_iterator order (of_edges es)).
Proof.
  intros Hperm.
  assert (forall v, v ∈ filter (fun n => count (of_edges es) !! n = Some 0) order <->
                    v ∈ nodes es /\ pending es [] v = 0) as Hq.
  { intros v. rewrite list_elem_of_filter, of_edges_count.
    split; [|intros [Hv Hp]; rewrite decide_True by done; split; [by f_equal|]].
    - case_decide; naive_solver.
    - rewrite Hperm. apply elem_of_elements, elem_of_dom.
      rewrite of_edges_count. case_decide; [eauto|done]. }
  split; simpl.
  - apply of_edges_edges.
  - apply NoDup_filter. rewrite Hperm. apply NoDup_elements.
  - intros v Hv. by apply Hq in Hv as [? _].
  - intros v. rewrite map_lookup_filter, of_edges_count.
    destruct (decide (v ∈ nodes es)) as [Hv|Hv]; simpl.
    + destruct (decide (pending es [] v = 0)) as [H0|H0].
      * rewrite option_guard_False by (simpl; naive_solver).
        rewrite decide_False; [done|]. rewrite Hq. naive_solver.
      * rewrite option_guard_True by done. rewrite decide_True; [done|]. rewrite Hq. naive_solver.
    + rewrite decide_False; [done|]. naive_solver.
  - intros v Hv Hn. destruct (pending es [] v) eqn:E; [|lia]. exfalso. apply Hn, Hq. done.
  - intros v Hv. by apply Hq in Hv as [_ ?].
  - intros u v _ Hv. by apply elem_of_nil in Hv.
Qed.

Lemma before_app l l' u v : before l u v -> before (l ++ l') u v.
Proof.
  intros (i & j & Hi & Hj & Hlt). exists i, j.
  split; [by apply lookup_app_l_Some|]. split; [by apply lookup_app_l_Some|done].
Qed.

Lemma next_inv es out it :
  inv es out it ->
  match next it with
  | None => no_edges it = []
  | Some (x, it') => inv es (out ++ [x]) it'
  end.
Proof.
  intros Hi. unfold next. destruct (no_edges it) as [|x rq _] eqn:Eq using rev_ind; [done|].
  rewrite last_snoc, removelast_last.
  assert (match it_edges it !! x with
          | Some edges => fold_left relax edges (it_count it, rq)
          | None => (it_count it, rq) end = fold_left relax (targets es x) (it_count it, rq)) as ->.
  { rewrite <- (inv_edges _ _ _ Hi x). by destruct (it_edges it !! x). }
  destruct (relax_all (targets es x) (it_count it) rq (inv_positive _ _ _ Hi))
    as (c' & new & -> & Hpos' & Hnd & Hnew & Hc').
  pose proof (inv_nodup _ _ _ Hi) as Hnodup. rewrite Eq in Hnodup.
  pose proof (inv_nodes _ _ _ Hi) as Hnodes. rewrite Eq in Hnodes.
  pose proof (inv_count _ _ _ Hi) as Hcount. rewrite Eq in Hcount.
  pose proof (inv_waiting _ _ _ Hi) as Hwait. rewrite Eq in Hwait.
  pose proof (inv_ready _ _ _ Hi) as Hready. rewrite Eq in Hready.
  apply NoDup_app in Hnodup as (Hno & Hdis & (Hnr & Hxr & _)%NoDup_app).
  assert (x ∉ out) as Hxout by (intros Hx; apply (Hdis x Hx); set_solver).
  pose proof (fun v => pending_emit es out x v Hxout) as Hemit.
  assert (forall v, v ∈ new <-> v ∈ nodes es /\ v ∉ out ++ rq ++ [x] /\
            pending es out v <= occ v (targets es x)) as Hnew'.
  { intros v. rewrite Hnew, Hcount. case_decide; naive_solver. }
  split; simpl.
  - apply (inv_edges _ _ _ Hi).
  - rewrite <- app_assoc. apply NoDup_app. split; [done|].
    split; [set_solver|]. apply NoDup_app. split; [apply NoDup_singleton|].
    split; [set_solver|]. apply NoDup_app. set_solver.
  - intros v. set_solver.
  - intros v. rewrite Hc', Hcount. specialize (Hemit v). specialize (Hnew' v).
    destruct (decide (v ∈ nodes es /\ v ∉ out ++ rq ++ [x])) as [[Hv Hn]|Hn].
    + case_decide as Hle.
      * rewrite decide_False by set_solver. done.
      * rewrite decide_True by set_solver. f_equal. lia.
    + rewrite decide_False by set_solver. done.
  - intros v Hv Hn. specialize (Hemit v). specialize (Hnew' v).
    assert (v ∉ out ++ rq ++ [x]) as Hn' by set_solver.
    specialize (Hwait v Hv Hn').
    destruct (decide (pending es out v <= occ v (targets es x))); [set_solver|lia].
  - intros v [Hv|Hv]%elem_of_app; specialize (Hemit v).
    + apply Hnew' in Hv as (_ & _ & Hle). lia.
    + rewrite (Hready v) in Hemit by set_solver. lia.
  - intros u v He Hv. apply elem_of_app in Hv as [Hv|Hv].
    + apply before_app. by apply (inv_order _ _ _ Hi).
    + apply list_elem_of_singleton in Hv as ->.
      assert (u ∈ out) as Hu.
      { apply (proj1 (pending_zero es out x)); [apply Hready; set_solver|done]. }
      apply list_elem_of_lookup in Hu as [i Hu]. exists i, (length out).
      split; [by apply lookup_app_l_Some|]. split; [by rewrite lookup_app_r, Nat.sub_diag|].
      by apply lookup_lt_Some in Hu.
Qed.

Lemma inv_length es out it : inv es out it -> length out <= size (nodes es).
Proof.
  intros Hi. pose proof (inv_nodup _ _ _ Hi) as (Hn & _ & _)%NoDup_app.
  rewrite <- (size_list_to_set (C := gset T)) by done. apply subseteq_size.
  intros v Hv%elem_of_list_to_set. apply (inv_nodes _ _ _ Hi). set_solver.
Qed.

Lemma run_inv es fuel out it :
  inv es out it -> size (nodes es) - length out < fuel ->
  exists l it', run fuel it = Some (l, it') /\ inv es (out ++ l) it' /\ no_edges it' = [].
Proof.
  revert out it. induction fuel as [|fuel IH]; intros out it Hi Hf; [lia|]. simpl.
  pose proof (next_inv es out it Hi) as Hn. destruct (next it) as [[x it']|].
  - pose proof (inv_length _ _ _ Hn) as Hl. rewrite length_app in Hl. simpl in Hl.
    destruct (IH _ _ Hn) as (l & it2 & -> & Hi2 & He); [rewrite length_app; simpl; lia|].
    exists (x :: l), it2. simpl. split; [done|]. split; [|done].
    by rewrite <- app_assoc in Hi2.
  - exists [], it. rewrite app_nil_r. done.
Qed.

(** ** Cycles *)

Definition edge (es : list (T * T)) (u v : T) : Prop := (u, v) ∈ es.
Definition acyclic (es : list (T * T)) : Prop := forall v, ~ tc (edge es) v v.

Lemma edge_nodes es u v : edge es u v -> u ∈ nodes es /\ v ∈ nodes es.
Proof.
  intros He. unfold nodes. rewrite !elem_of_union, !elem_of_list_to_set.
  split; [left; apply (list_elem_of_fmap_2 fst _ (u, v) He)
         |right; apply (list_elem_of_fmap_2 snd _ (u, v) He)].
Qed.

Lemma before_trans l u v w : NoDup l -> before l u v -> before l v w -> before l u w.
Proof.
  intros Hn (i & j & Hi & Hj & Hij) (j' & k & Hj' & Hk & Hjk).
  assert (j = j') as <- by (eapply NoDup_lookup; eauto).
  exists i, k. split; [done|]. split; [done|lia].
Qed.

Lemma ordered_acyclic es l :
  NoDup l -> (forall u v, edge es u v -> before l u v) -> acyclic es.
Proof.
  intros Hn Hord v Hc.
  assert (forall a b, tc (edge es) a b -> before l a b) as Ht.
  { induction 1 as [a b He|a b c He _ IH]; [by apply Hord|].
    eapply before_trans; [done|by apply Hord|done]. }
  apply Ht in Hc as (i & j & Hi & Hj & Hij).
  assert (i = j) as <- by (eapply NoDup_lookup; eauto). lia.
Qed.

(** In a set where every node has a predecessor, paths of any length end at
    any node, so one of them visits a node twice. *)
Lemma predecessors_cycle es (P : T -> Prop) v :
  P v -> (forall w, P w -> w ∈ nodes es /\ exists u, edge es u w /\ P u) -> ~ acyclic es.
Proof.
  intros Hv Hpred Hac.
  assert (forall n, exists l, length l = S n /\ (forall x, x ∈ l -> P x) /\
    forall i j a b, i < j -> l !! i = Some a -> l !! j = Some b -> tc (edge es) a b) as Hpath.
  { induction n as [|n (l & Hlen & Hin & Hl)].
    - exists [v]. split; [done|]. split; [set_solver|].
      intros i j a b Hij _ Hb. apply lookup_lt_Some in Hb. simpl in Hb. lia.
    - destruct l as [|w l]; [done|].
      destruct (Hpred w (Hin w ltac:(left))) as (_ & u & Hu & HPu).
      exists (u :: w :: l). split; [simpl in *; lia|]. split; [set_solver|].
      intros [|i] [|j] a b Hij Ha Hb; simpl in Ha; simpl in Hb; simplify_eq; try lia.
      + destruct j as [|j]; simpl in Hb; simplify_eq; [by apply tc_once|].
        eapply tc_l; [exact Hu|]. apply (Hl 0 (S j)); [lia|done|done].
      + apply (Hl i j); [lia|done|done]. }
  destruct (Hpath (size (nodes es))) as (l & Hlen & Hin & Hl).
  assert (NoDup l) as Hn.
  { apply NoDup_alt. intros i j x Hi Hj. destruct (Nat.lt_total i j) as [Hlt|[Heq|Hlt]]; [|done|].
    - exfalso. exact (Hac x (Hl i j x x Hlt Hi Hj)).
    - exfalso. exact (Hac x (Hl j i x x Hlt Hj Hi)). }
  assert (length l <= size (nodes es)) as Hle.
  { rewrite <- (size_list_to_set (C := gset T)) by done. apply subseteq_size.
    intros x Hx%elem_of_list_to_set. by apply Hpred, Hin. }
  lia.
Qed.

(** ** Properties *)

(** For any insertions and any iteration order of the hash map, the
    iterator ends after at most one item per node; the items are distinct
    nodes, every node comes after all its predecessors, and [is_valid]
    afterwards says at once that every node was emitted and that the graph
    has no cycle. *)
Theorem topological_sort es order :
  order ≡ₚ elements (dom (count (of_edges es))) ->
  exists l it,
    run (S (size (nodes es))) (into_iterator order (of_edges es)) = Some (l, it) /\
    NoDup l /\ (forall v, v ∈ l -> v ∈ nodes es) /\
    (forall u v, (u, v) ∈ es -> v ∈ l -> before l u v) /\
    (is_valid it = true <-> forall v, v ∈ nodes es -> v ∈ l) /\
    (is_valid it = true <-> acyclic es).
Proof.
  intros Hperm. pose proof (inv_init es order Hperm) as Hinit.
  destruct (run_inv es (S (size (nodes es))) [] _ Hinit) as (l & it & Hrun & Hi & Hq);
    [simpl; lia|].
  exists l, it. simpl in Hi.
  pose proof (inv_nodup _ _ _ Hi) as Hn. pose proof (inv_nodes _ _ _ Hi) as Hnodes.
  pose proof (inv_count _ _ _ Hi) as Hcount. pose proof (inv_waiting _ _ _ Hi) as Hwait.
  rewrite Hq, app_nil_r in *.
  assert (is_valid it = true <-> forall v, v ∈ nodes es -> v ∈ l) as Hvalid.
  { unfold is_valid. rewrite bool_decide_eq_true. split.
    - intros He v Hv. destruct (decide (v ∈ l)) as [|Hl]; [done|].
      specialize (Hcount v). rewrite He, lookup_empty, decide_True in Hcount by done. done.
    - intros Hall. apply map_eq. intros v. rewrite Hcount, lookup_empty.
      rewrite decide_False; [done|]. intros [Hv Hl]. by apply Hl, Hall. }
  split; [done|]. split; [done|]. split; [done|]. split; [apply (inv_order _ _ _ Hi)|].
  split; [done|]. rewrite Hvalid. split.
  - intros Hall. apply (ordered_acyclic es l Hn). intros u v He.
    apply (inv_order _ _ _ Hi); [done|]. apply Hall. by apply (edge_nodes es u v).
  - intros Hac v Hv. destruct (decide (v ∈ l)) as [|Hl]; [done|]. exfalso. revert Hac.
    apply (predecessors_cycle es (fun w => w ∈ nodes es /\ w ∉ l) v); [done|].
    intros w [Hw Hwl]. split; [done|].
    specialize (Hwait w Hw Hwl).
    destruct (decide (Exists (fun e => e.2 = w /\ e.1 ∉ l) es)) as [He|He].
    + apply Exists_exists in He as ([u w'] & Hin & <- & Hu). exists u. split; [done|].
      split; [|done]. by apply (edge_nodes es u w').
    + exfalso. assert (pending es l w = 0); [|lia]. apply pending_zero. intros u Hin.
      destruct (decide (u ∈ l)) as [|Hu]; [done|]. exfalso. apply He, Exists_exists.
      exists (u, w). done.
Qed.
End Topological.

Lemma topological_sort_witness :
  let es := [(1, 2); (1, 3); (2, 4); (3, 4)] in
  [4; 2; 1; 3] ≡ₚ elements (dom (count (of_edges es))) /\
  exists l it, run (S (size (nodes es))) (into_iterator [4; 2; 1; 3] (of_edges es)) = Some (l, it)
    /\ NoDup l.
Proof.
  assert ([4; 2; 1; 3] ≡ₚ elements (dom (count (of_edges [(1, 2); (1, 3); (2, 4); (3, 4)])))) as H
    by (apply (proj1 (bool_decide_eq_true _)); vm_compute; reflexivity).
  split; [exact H|].
  destruct (topological_sort _ _ H) as (l & it & H1 & H2 & _).
  exists l, it. split; [exact H1|exact H2].
Defined.
