(* ===== verification/Snowflake.v ===== *)
(** * Snowflake identifiers ([crates/utils/src/snowflake.rs])

    64-bit identifiers made of 43 bits of milliseconds, a 12-bit sequence
    number and a 9-bit node id.  The clock is an argument: what
    [SystemTime::elapsed] returns, in whole milliseconds since the epoch, or
    [None] when the clock is before it. *)

From S2P Require Import Prelude.

Definition SEQUENCE_LEN : Z := 12.
Definition NODE_ID_LEN : Z := 9.
(* [crates/utils/src/snowflake.rs:21] SEQUENCE_MASK *)
Definition SEQUENCE_MASK : Z := Z.shiftl 1 SEQUENCE_LEN - 1.
(* [crates/utils/src/snowflake.rs:22] NODE_ID_MASK *)
Definition NODE_ID_MASK : Z := Z.shiftl 1 NODE_ID_LEN - 1.
(* [crates/utils/src/snowflake.rs:24] DEFAULT_EPOCH *)
Definition DEFAULT_EPOCH : Z := 1632280000.

(** The process-wide state: the node id and the shared sequence. *)
(* [crates/utils/src/snowflake.rs:26-27] NODE_ID, SEQUENCE_ID *)
Record globals := mkGlobals { NODE_ID : Z; SEQUENCE_ID : Z }.

Definition initial_globals : globals := mkGlobals 1 0.

(** [u64::shl] and [AtomicU64::fetch_add]. *)
Definition u64_shl (x n : Z) : Z := wrap 64 (Z.shiftl x n).
Definition fetch_add (v n : Z) : Z * Z := (v, wrap 64 (v + n)).

(* [crates/utils/src/snowflake.rs:52-60] SnowflakeIdGenerator::set_node_id *)
Definition set_node_id (g : globals) (node : Z) : globals :=
  let node := Z.land node NODE_ID_MASK in
  if node =? NODE_ID g then g else mkGlobals node (SEQUENCE_ID g).

(** [period] is in milliseconds. *)
(* [crates/utils/src/snowflake.rs:62-69] SnowflakeIdGenerator::from_duration *)
Definition from_duration (elapsed : option Z) (period : Z) : option Z :=
  (fun elapsed => u64_shl (wrap 64 (Z.max 0 (elapsed - period))) (SEQUENCE_LEN + NODE_ID_LEN))
  <$> elapsed.

(** [now] is the wall clock in seconds; [elapsed] is read after it. *)
(* [crates/utils/src/snowflake.rs:71-77] SnowflakeIdGenerator::from_timestamp *)
Definition from_timestamp (now elapsed : option Z) (timestamp : Z) : option Z :=
  now ← now;
  if now <? timestamp then None else from_duration elapsed ((now - timestamp) * 1000).

(* [crates/utils/src/snowflake.rs:79-82] SnowflakeIdGenerator::global_id_from_timestamp *)
Definition global_id_from_timestamp (g : globals) (now elapsed : option Z) (timestamp : Z) :
    option Z * globals :=
  let '(s, next) := fetch_add (SEQUENCE_ID g) 1 in
  let sequence := Z.land s SEQUENCE_MASK in
  ((fun id => Z.lor (Z.lor id (u64_shl sequence NODE_ID_LEN)) (NODE_ID g))
     <$> from_timestamp now elapsed timestamp,
   mkGlobals (NODE_ID g) next).

(* [crates/utils/src/snowflake.rs:84-95] SnowflakeIdGenerator::global_id *)
Definition global_id (g : globals) (elapsed : option Z) : option Z * globals :=
  let '(s, next) := fetch_add (SEQUENCE_ID g) 1 in
  let sequence := Z.land s SEQUENCE_MASK in
  ((fun elapsed =>
      Z.lor (Z.lor (u64_shl (wrap 64 elapsed) (SEQUENCE_LEN + NODE_ID_LEN))
                   (u64_shl sequence NODE_ID_LEN)) (NODE_ID g)) <$> elapsed,
   mkGlobals (NODE_ID g) next).

(* [crates/utils/src/snowflake.rs:97-99] SnowflakeIdGenerator::to_timestamp *)
Definition to_timestamp (id : Z) : Z :=
  Z.shiftr id (SEQUENCE_LEN + NODE_ID_LEN) / 1000 + DEFAULT_EPOCH.

(** A generator has its own sequence; its epoch is the default one. *)
(* [crates/utils/src/snowflake.rs:13-16] SnowflakeIdGenerator *)
Record SnowflakeIdGenerator := mkGen { sequence : Z }.

(* [crates/utils/src/snowflake.rs:45-50] SnowflakeIdGenerator::new *)
Definition new : SnowflakeIdGenerator := mkGen 0.

(* [crates/utils/src/snowflake.rs:102-106] SnowflakeIdGenerator::past_id *)
Definition past_id (elapsed : option Z) (period : Z) : option Z :=
  (fun elapsed => u64_shl (wrap 64 (Z.max 0 (elapsed - period))) (SEQUENCE_LEN + NODE_ID_LEN))
  <$> elapsed.

(* [crates/utils/src/snowflake.rs:108-110] SnowflakeIdGenerator::is_valid *)
Definition is_valid (elapsed : option Z) : bool :=
  match elapsed with Some _ => true | None => false end.

(* [crates/utils/src/snowflake.rs:113-122] SnowflakeIdGenerator::generate *)
Definition generate (gen : SnowflakeIdGenerator) (node : Z) (elapsed : option Z) :
    Z * SnowflakeIdGenerator :=
  let elapsed := wrap 64 (default 0 elapsed) in
  let '(s, next) := fetch_add (sequence gen) 1 in
  let sequence := Z.land s SEQUENCE_MASK in
  (Z.lor (Z.lor (u64_shl elapsed (SEQUENCE_LEN + NODE_ID_LEN)) (u64_shl sequence NODE_ID_LEN)) node,
   mkGen next).

(* [crates/utils/src/snowflake.rs:132-137] SnowflakeIdGenerator::clone *)
Definition clone (gen : SnowflakeIdGenerator) : SnowflakeIdGenerator := mkGen 0.

(** A run of [generate] at the given clock readings. *)
Fixpoint generate_all (gen : SnowflakeIdGenerator) (node : Z) (clock : list (option Z)) : list Z :=
  match clock with
  | [] => []
  | t :: clock => let '(id, gen) := generate gen node t in id :: generate_all gen node clock
  end.

(** ** The layout of an identifier *)

Definition compose (ms seq node : Z) : Z := (ms * 2 ^ 12 + seq) * 2 ^ 9 + node.

Lemma fields_or ms seq node :
  in_width 43 ms -> in_width 12 seq -> in_width 9 node ->
  Z.lor (Z.lor (u64_shl ms (SEQUENCE_LEN + NODE_ID_LEN)) (u64_shl seq NODE_ID_LEN)) node =
  compose ms seq node.
Proof.
  unfold in_width, SEQUENCE_LEN, NODE_ID_LEN, u64_shl, compose. intros Hm Hs Hn.
  rewrite !wrap_small by (unfold in_width; rewrite Z.shiftl_mul_pow2; lia).
  change (12 + 9) with 21.
  rewrite <- Z.lor_assoc, Z.lor_comm, (Z.lor_comm _ node).
  rewrite (lor_shiftl_disjoint 9 node seq) by (lia || done).
  rewrite (lor_shiftl_disjoint 21) by (unfold in_width; lia). lia.
Qed.

(** Whatever the clock, the sequence field holds the sequence. *)
Lemma compose_mod ms seq node :
  in_width 12 seq -> in_width 9 node -> compose ms seq node / 2 ^ 9 mod 2 ^ 12 = seq.
Proof.
  unfold in_width, compose. intros Hs Hn.
  rewrite Z.div_add_l, (Z.div_small node), Z.add_0_r by lia.
  rewrite Z.add_comm, Z_mod_plus_full. apply Z.mod_small. lia.
Qed.

Lemma compose_div ms seq node :
  in_width 12 seq -> in_width 9 node -> compose ms seq node / 2 ^ 21 = ms.
Proof.
  unfold in_width, compose. intros Hs Hn. change (2 ^ 21) with (2 ^ 9 * 2 ^ 12).
  rewrite <- Z.div_div, Z.div_add_l, (Z.div_small node), Z.add_0_r by lia.
  rewrite Z.div_add_l, (Z.div_small seq) by lia. lia.
Qed.

Lemma sequence_width s : in_width 12 (Z.land s SEQUENCE_MASK).
Proof.
  change SEQUENCE_MASK with (2 ^ 12 - 1). rewrite land_low by lia.
  apply Z.mod_pos_bound. lia.
Qed.

Definition clock_ok (t : option Z) : Prop := in_width 43 (default 0 t).

Lemma generate_compose gen node t :
  in_width 9 node -> clock_ok t ->
  generate gen node t =
  (compose (default 0 t) (sequence gen mod 2 ^ 12) node, mkGen (wrap 64 (sequence gen + 1))).
Proof.
  intros Hn Ht. unfold generate, fetch_add. cbv beta iota zeta.
  assert (in_width 64 (default 0 t)) as H64 by (unfold clock_ok, in_width in *; lia).
  rewrite wrap_small by done.
  rewrite fields_or by (done || apply sequence_width).
  change SEQUENCE_MASK with (2 ^ 12 - 1). by rewrite land_low by lia.
Qed.

Lemma generate_all_lookup gen node clock i id :
  in_width 9 node -> Forall clock_ok clock ->
  generate_all gen node clock !! i = Some id ->
  exists t, id = compose t ((sequence gen + Z.of_nat i) mod 2 ^ 12) node.
Proof.
  intros Hn Hc. revert gen i. induction Hc as [|t clock Ht Hc IH]; intros gen i; [done|].
  cbn [generate_all]. rewrite generate_compose by done. destruct i as [|i]; simpl.
  - intros [= <-]. exists (default 0 t). by rewrite Z.add_0_r.
  - intros Hi. apply IH in Hi as [t' ->]. exists t'. f_equal. cbn [sequence]. unfold wrap.
    change (2 ^ 64) with (2 ^ 12 * 2 ^ 52).
    rewrite (Z.rem_mul_r _ (2 ^ 12) (2 ^ 52)) by lia.
    rewrite <- Z.add_assoc, (Z.mul_comm (2 ^ 12)), (Z.add_comm (_ * 2 ^ 12)), Z.add_assoc.
    rewrite Z_mod_plus_full, Z.add_mod_idemp_l by lia. f_equal. lia.
Qed.

(** ** Properties *)

(** While the clock stays within its 43 bits, an identifier is the
    milliseconds, the sequence and the node side by side; its timestamp is
    the second it was generated in; and identifiers of later milliseconds
    are larger. *)
Theorem generate_layout gen node t gen' t' :
  in_width 9 node -> in_width 43 t -> in_width 43 t' ->
  fst (generate gen node (Some t)) = compose t (sequence gen mod 2 ^ 12) node /\
  to_timestamp (fst (generate gen node (Some t))) = t / 1000 + DEFAULT_EPOCH /\
  in_width 64 (fst (generate gen node (Some t))) /\
  (t < t' -> fst (generate gen node (Some t)) < fst (generate gen' node (Some t'))).
Proof.
  intros Hn Ht Ht'. rewrite !generate_compose by done. cbn [fst default].
  pose proof (Z.mod_pos_bound (sequence gen) (2 ^ 12) ltac:(lia)) as Hs.
  pose proof (Z.mod_pos_bound (sequence gen') (2 ^ 12) ltac:(lia)) as Hs'.
  split; [done|]. split; [|split].
  - unfold to_timestamp. rewrite Z.shiftr_div_pow2 by (unfold SEQUENCE_LEN, NODE_ID_LEN; lia).
    change (SEQUENCE_LEN + NODE_ID_LEN) with 21. by rewrite compose_div.
  - unfold compose, in_width in *. simpl in *. lia.
  - unfold compose, in_width in *. simpl in *. lia.
Qed.

Lemma generate_layout_witness :
  in_width 9 5 /\ in_width 43 1000 /\ in_width 43 2000 /\
  fst (generate new 5 (Some 1000)) < fst (generate (mkGen 77) 5 (Some 2000)).
Proof.
  assert (in_width 9 5) as H1 by (unfold in_width; lia).
  assert (in_width 43 1000) as H2 by (unfold in_width; lia).
  assert (in_width 43 2000) as H3 by (unfold in_width; lia).
  split; [exact H1|]. split; [exact H2|]. split; [exact H3|].
  destruct (generate_layout new 5 1000 (mkGen 77) 2000 H1 H2 H3) as (_ & _ & _ & H).
  apply H. lia.
Defined.

(** A generator gives no identifier twice in 4096 calls in a row,
    whatever the clock does meanwhile: it may stand still, go back, or fail. *)
Theorem generate_unique gen node clock :
  in_width 9 node -> Forall clock_ok clock -> (length clock <= 4096)%nat ->
  NoDup (generate_all gen node clock).
Proof.
  intros Hn Hc Hl. apply NoDup_alt. intros i j id Hi Hj.
  assert (length (generate_all gen node clock) = length clock) as Hlen.
  { clear. revert gen. induction clock as [|t clock IH]; intros gen; [done|].
    simpl. f_equal. apply IH. }
  apply lookup_lt_Some in Hi as Hil. apply lookup_lt_Some in Hj as Hjl.
  apply generate_all_lookup in Hi as [t Hid]; [|done|done].
  apply generate_all_lookup in Hj as [t' Hid']; [|done|done].
  pose proof (Z.mod_pos_bound (sequence gen + Z.of_nat i) (2 ^ 12) ltac:(lia)) as Hs.
  pose proof (Z.mod_pos_bound (sequence gen + Z.of_nat j) (2 ^ 12) ltac:(lia)) as Hs'.
  pose proof (compose_mod t _ node Hs Hn) as E1. pose proof (compose_mod t' _ node Hs' Hn) as E2.
  rewrite <- Hid in E1. rewrite <- Hid', E1 in E2.
  pose proof (Z.div_mod (sequence gen + Z.of_nat i) (2 ^ 12) ltac:(lia)).
  pose proof (Z.div_mod (sequence gen + Z.of_nat j) (2 ^ 12) ltac:(lia)).
  lia.
Qed.

Lemma generate_unique_witness :
  in_width 9 5 /\ NoDup (generate_all new 5 [Some 7; Some 7; None; Some 3]).
Proof.
  assert (in_width 9 5) as H1 by (unfold in_width; lia).
  split; [exact H1|].
  apply (generate_unique new 5 [Some 7; Some 7; None; Some 3] H1); [|simpl; lia].
  repeat constructor; unfold clock_ok, in_width; simpl; lia.
Defined.
