(* ===== verification/ImapReceiver.v ===== *)
(** * The IMAP command receiver (crates/imap-proto/src/receiver.rs)

    The receiver reads a connection's bytes one at a time through a state
    machine and returns a request for every complete command.  [Receiver] is
    the record of the code, each arm of [Receiver::parse] is one handler of
    type [M (option Request)] ([Some] for a returned request, [None] to go
    on with the next byte), and [parse] runs them over the bytes, giving the
    new state, the result and the bytes not read.  ManageSieve uses the same
    receiver, so the command type is a parameter with the class
    [CommandParser]. *)

From S2P Require Import Prelude Utf8 Decimals.

(** ** Data *)

(* [crates/imap-proto/src/receiver.rs:25-28] CommandParser *)
Class CommandParser (T : Type) := {
  cmd_parse : list Z -> bool -> option T;
  tokenize_brackets : T -> bool;
  cmd_default : T
}.

(* [crates/imap-proto/src/receiver.rs:31-41] Token *)
Inductive Token :=
| TArgument (b : list Z)
| ParenthesisOpen | ParenthesisClose
| BracketOpen | BracketClose
| Lt | Gt | Dot
| Nil.

#[export] Instance Token_eq_dec : EqDecision Token.
Proof. solve_decision. Defined.

(* [crates/imap-proto/src/receiver.rs:54-64] State *)
Inductive State :=
| Start
| Tag
| Command (is_uid : bool)
| Argument (last_ch : Z)
| ArgumentQuoted (escaped : bool)
| Literal (non_sync : bool)
| LiteralSeek (size : Z) (non_sync : bool)
| LiteralData (remaining : Z)
| LiteralDiscard (remaining : Z).

(** The error texts of the state machine, one constructor per text, with
    what the text quotes. *)
Inductive Message :=
| RequestExceeds (max : Z)
| InvalidTag
| MissingCommand (tag : list Z)
| TagTooLong
| CommandTooLong
| UnrecognizedCommand (name : list Z)
| InvalidCommandChar (ch : Z)
| ArgumentTooLong
| QuotedTooLong
| UnterminatedQuoted
| InvalidLiteralSize
| LiteralExceeds (max : Z)
| EmptyLiteral
| InvalidNonSync
| LiteralTooManyDigits
| InvalidLiteral
| InvalidLiteralChar (ch : Z)
| ExpectedCrlf.

(* [crates/imap-proto/src/receiver.rs:12-16] Error *)
Inductive Error :=
| NeedsMoreData
| NeedsLiteral (size : Z)
| Error_ (tag : option (list Z)) (message : Message).

(* [crates/imap-proto/src/receiver.rs:75] ARG_MAX_LEN *)
Definition ARG_MAX_LEN : Z := 8000.

(** *** Tokens as text *)

(* [crates/imap-proto/src/receiver.rs:550-564] Token::as_bytes *)
Definition as_bytes (t : Token) : list Z :=
  match t with
  | TArgument value => value
  | ParenthesisOpen => s#"("
  | ParenthesisClose => s#")"
  | BracketOpen => s#"["
  | BracketClose => s#"]"
  | Gt => s#">"
  | Lt => s#"<"
  | Dot => s#"."
  | Nil => []
  end.

(* [crates/imap-proto/src/receiver.rs:473-480] Token::unwrap_string *)
Definition unwrap_string (t : Token) : option (list Z) :=
  match t with
  | TArgument value => if valid value then Some value else None
  | other => Some (as_bytes other)
  end.

(* [crates/imap-proto/src/receiver.rs:482-487] Token::unwrap_bytes *)
Definition unwrap_bytes (t : Token) : list Z :=
  match t with
  | TArgument value => value
  | other => as_bytes other
  end.

(* [crates/imap-proto/src/receiver.rs:489-501] Token::eq_ignore_ascii_case *)
Definition token_eq_ignore_ascii_case (t : Token) (bytes : list Z) : bool :=
  match t with
  | TArgument argument => eq_ignore_ascii_case argument bytes
  | ParenthesisOpen => bytes_eqb bytes s#"("
  | ParenthesisClose => bytes_eqb bytes s#")"
  | BracketOpen => bytes_eqb bytes s#"["
  | BracketClose => bytes_eqb bytes s#"]"
  | Gt => bytes_eqb bytes s#">"
  | Lt => bytes_eqb bytes s#"<"
  | Dot => bytes_eqb bytes s#"."
  | Nil => bytes_eqb bytes []
  end.

(* [crates/imap-proto/src/receiver.rs:503-529] Token::is_* *)
Definition token_is (kind t : Token) : bool :=
  match kind, t with
  | ParenthesisOpen, ParenthesisOpen | ParenthesisClose, ParenthesisClose
  | BracketOpen, BracketOpen | BracketClose, BracketClose
  | Dot, Dot | Lt, Lt | Gt, Gt => true
  | _, _ => false
  end.

(** ** The argument buffer *)

Definition ArgumentBuffer : Type := list Z.

Definition len (b : ArgumentBuffer) : Z := Z.of_nat (length b).
Definition is_empty (b : ArgumentBuffer) : bool :=
  match b with [] => true | _ => false end.

(* [crates/imap-proto/src/receiver.rs:431-438] ArgumentBuffer::push_checked *)
Definition buf_push_checked (b : ArgumentBuffer) (byte limit : Z) : option ArgumentBuffer :=
  if len b <? limit then Some (b ++ [byte]) else None.

(* [crates/imap-proto/src/receiver.rs:467-469] ArgumentBuffer::as_str *)
Definition buf_as_str (b : ArgumentBuffer) : list Z := str_or_default b.

(** ** The receiver *)

Section Receiver.
Context {T : Type} {P : CommandParser T}.

(* [crates/imap-proto/src/receiver.rs:19-23] Request *)
Record Request := MkRequest {
  tag : list Z;
  command : T;
  tokens : list Token
}.

(* [crates/imap-proto/src/receiver.rs:43-51] Request::default *)
Definition request_default : Request := MkRequest [] cmd_default [].

(* [crates/imap-proto/src/receiver.rs:66-73] Receiver *)
Record Receiver := MkReceiver {
  buf : ArgumentBuffer;
  request : Request;
  state : State;
  max_request_size : Z;
  current_request_size : Z;
  start_state : State
}.

Definition set_buf (b : ArgumentBuffer) (r : Receiver) : Receiver :=
  MkReceiver b (request r) (state r) (max_request_size r) (current_request_size r) (start_state r).
Definition set_request (q : Request) (r : Receiver) : Receiver :=
  MkReceiver (buf r) q (state r) (max_request_size r) (current_request_size r) (start_state r).
Definition set_state (s : State) (r : Receiver) : Receiver :=
  MkReceiver (buf r) (request r) s (max_request_size r) (current_request_size r) (start_state r).
Definition set_size (n : Z) (r : Receiver) : Receiver :=
  MkReceiver (buf r) (request r) (state r) (max_request_size r) n (start_state r).

Definition set_tag (t : list Z) (q : Request) : Request := MkRequest t (command q) (tokens q).
Definition set_command (c : T) (q : Request) : Request := MkRequest (tag q) c (tokens q).
Definition add_token (t : Token) (q : Request) : Request :=
  MkRequest (tag q) (command q) (tokens q ++ [t]).

(* [crates/imap-proto/src/receiver.rs:578-589] Receiver::default *)
Definition receiver_default : Receiver :=
  MkReceiver [] request_default Start (25 * 1024 * 1024) 0 Start.

(* [crates/imap-proto/src/receiver.rs:95-100] Receiver::with_max_request_size *)
Definition with_max_request_size (max : Z) : Receiver :=
  MkReceiver [] request_default Start max 0 Start.

(* [crates/imap-proto/src/receiver.rs:82-87] Receiver::new *)
Definition new : Receiver := with_max_request_size (25 * 1024 * 1024).

(* [crates/imap-proto/src/receiver.rs:89-93] Receiver::with_start_state *)
Definition with_start_state (s : State) (r : Receiver) : Receiver :=
  MkReceiver (buf r) (request r) s (max_request_size r) (current_request_size r) s.

(** *** State and error monad of the [&mut self] methods *)

Definition M (A : Type) : Type := Receiver -> Receiver * result A Error.
Definition ret {A} (a : A) : M A := fun r => (r, Ok a).
Definition fail {A} (e : Error) : M A := fun r => (r, Err e).
Definition modify (f : Receiver -> Receiver) : M unit := fun r => (f r, Ok tt).
Definition bind {A B} (m : M A) (k : A -> M B) : M B :=
  fun r => match m r with
           | (r', Ok a) => k a r'
           | (r', Err e) => (r', Err e)
           end.
Notation "m ;; k" := (bind m (fun _ => k)) (at level 100, right associativity).

(* [crates/imap-proto/src/receiver.rs:102-116] Receiver::error_reset *)
Definition error_reset (message : Message) (r : Receiver) : Receiver * Error :=
  (MkReceiver [] request_default (start_state r) (max_request_size r) 0 (start_state r),
   Error_ (if is_empty (tag (request r)) then None else Some (tag (request r))) message).

(** [Err(self.error_reset(message))]. *)
Definition reject {A} (message : Message) : M A :=
  fun r => let (r', e) := error_reset message r in (r', Err e).

(* [crates/imap-proto/src/receiver.rs:118-132] Receiver::push_argument *)
Definition push_argument (in_quote : bool) : M unit := fun r =>
  if negb (is_empty (buf r)) then
    let r := set_size (current_request_size r + len (buf r)) r in
    if max_request_size r <? current_request_size r then
      reject (RequestExceeds (max_request_size r)) r
    else
      (set_buf [] (set_request (add_token (TArgument (buf r)) (request r)) r), Ok tt)
  else if in_quote then
    (set_request (add_token Nil (request r)) r, Ok tt)
  else (r, Ok tt).

(* [crates/imap-proto/src/receiver.rs:134-144] Receiver::push_token *)
Definition push_token (t : Token) : M unit := fun r =>
  let r := set_size (current_request_size r + 1) r in
  if max_request_size r <? current_request_size r then
    reject (RequestExceeds (max_request_size r)) r
  else (set_request (add_token t (request r)) r, Ok tt).

(** [self.buf.push_unchecked(ch)] and [self.buf.push_checked(ch, limit)]
    with the error [message]. *)
(* [crates/imap-proto/src/receiver.rs:441-443] ArgumentBuffer::push_unchecked *)
Definition push_unchecked (ch : Z) : M unit := modify (fun r => set_buf (buf r ++ [ch]) r).
Definition push_checked (ch limit : Z) (message : Message) : M unit := fun r =>
  match buf_push_checked (buf r) ch limit with
  | Some b => (set_buf b r, Ok tt)
  | None => reject message r
  end.

(** [return Ok(std::mem::take(&mut self.request))] after the state is set
    back. *)
Definition return_request : M (option Request) := fun r =>
  (set_request request_default (set_size 0 (set_state (start_state r) r)), Ok (Some (request r))).

Definition continue : M (option Request) := ret None.
Definition goto (s : State) : M (option Request) := modify (set_state s) ;; continue.

(** *** One handler per state *)

(* [crates/imap-proto/src/receiver.rs:150-156] Receiver::parse, State::Start *)
Definition on_start (ch : Z) : M (option Request) :=
  if negb (is_ascii_whitespace ch) then push_unchecked ch ;; goto Tag else continue.

(* [crates/imap-proto/src/receiver.rs:157-179] Receiver::parse, State::Tag *)
Definition on_tag (ch : Z) : M (option Request) := fun r =>
  if ch =? c#" " then
    if negb (is_empty (buf r)) then
      if valid (buf r) then
        goto (Command false) (set_buf [] (set_request (set_tag (buf r) (request r)) r))
      else reject InvalidTag r
    else continue r
  else if (ch =? 9) || (ch =? 13) then continue r
  else if ch =? 10 then reject (MissingCommand (buf_as_str (buf r))) r
  else (push_checked ch 128 TagTooLong ;; continue) r.

(* [crates/imap-proto/src/receiver.rs:180-217] Receiver::parse, State::Command *)
Definition on_command (is_uid : bool) (ch : Z) : M (option Request) := fun r =>
  if is_ascii_alphanumeric ch then
    (push_checked (to_ascii_uppercase ch) 15 CommandTooLong ;; continue) r
  else if is_ascii_whitespace ch then
    if negb (is_empty (buf r)) then
      if negb (eq_ignore_ascii_case (buf r) s#"UID") then
        match cmd_parse (buf r) is_uid with
        | None => reject (UnrecognizedCommand (buf r)) r
        | Some c =>
            let r := set_buf [] (set_request (set_command c (request r)) r) in
            if negb (ch =? 10) then goto (Argument c#" ") r else return_request r
        end
      else goto (Command true) (set_buf [] r)
    else continue r
  else reject (InvalidCommandChar ch) r.

(** The tokens that only a command with [tokenize_brackets] has. *)
Definition bracket_token (ch : Z) : option Token :=
  if ch =? c#"[" then Some BracketOpen
  else if ch =? c#"]" then Some BracketClose
  else if ch =? c#"<" then Some Lt
  else if ch =? c#">" then Some Gt
  else if ch =? c#"." then Some Dot
  else None.

(* [crates/imap-proto/src/receiver.rs:218-277] Receiver::parse, State::Argument *)
Definition on_argument (last_ch ch : Z) : M (option Request) := fun r =>
  let brackets := tokenize_brackets (command (request r)) in
  if (ch =? 34) && is_ascii_whitespace last_ch then
    (push_argument false ;; goto (ArgumentQuoted false)) r
  else if (ch =? c#"{") &&
          (is_ascii_whitespace last_ch || ((last_ch =? c#"~") && (len (buf r) =? 1))) then
    ((if negb (last_ch =? c#"~") then push_argument false else modify (set_buf [])) ;;
     goto (Literal false)) r
  else if ch =? c#"(" then
    (push_argument false ;; push_token ParenthesisOpen ;; continue) r
  else if ch =? c#")" then
    (push_argument false ;; push_token ParenthesisClose ;; continue) r
  else match (if brackets then bracket_token ch else None) with
  | Some t => (push_argument false ;; push_token t ;; continue) r
  | None =>
      if ch =? 10 then (push_argument false ;; return_request) r
      else if is_ascii_whitespace ch then
        (push_argument false ;; goto (Argument ch)) r
      else (push_checked ch ARG_MAX_LEN ArgumentTooLong ;; goto (Argument ch)) r
  end.

(* [crates/imap-proto/src/receiver.rs:278-311] Receiver::parse, State::ArgumentQuoted *)
Definition on_quoted (escaped : bool) (ch : Z) : M (option Request) :=
  if ch =? 34 then
    if negb escaped then push_argument true ;; goto (Argument c#" ")
    else push_checked ch ARG_MAX_LEN QuotedTooLong ;; goto (ArgumentQuoted false)
  else if ch =? c#"\" then
    (if escaped then push_checked ch ARG_MAX_LEN QuotedTooLong else ret tt) ;;
    goto (ArgumentQuoted (negb escaped))
  else if ch =? 10 then reject UnterminatedQuoted
  else
    (if escaped then push_unchecked c#"\" else ret tt) ;;
    push_checked ch ARG_MAX_LEN QuotedTooLong ;;
    goto (ArgumentQuoted false).

(* [crates/imap-proto/src/receiver.rs:312-360] Receiver::parse, State::Literal *)
Definition on_literal (non_sync : bool) (ch : Z) : M (option Request) := fun r =>
  if ch =? c#"}" then
    if negb (is_empty (buf r)) then
      match parse_unsigned u32_max (buf_as_str (buf r)) with
      | None => reject InvalidLiteralSize r
      | Some size =>
          let oversize := max_request_size r <? current_request_size r + size in
          if oversize && negb non_sync then
            reject (LiteralExceeds (max_request_size r)) r
          else
            goto (LiteralSeek size non_sync) (set_buf [] r)
      end
    else reject EmptyLiteral r
  else if ch =? c#"+" then
    if negb (is_empty (buf r)) then goto (Literal true) r
    else reject InvalidNonSync r
  else if is_ascii_digit ch then
    if negb non_sync then (push_checked ch 15 LiteralTooManyDigits ;; continue) r
    else reject InvalidLiteral r
  else reject (InvalidLiteralChar ch) r.

(* [crates/imap-proto/src/receiver.rs:361-384] Receiver::parse, State::LiteralSeek *)
Definition on_literal_seek (size : Z) (non_sync : bool) (ch : Z) : M (option Request) := fun r =>
  if ch =? 10 then
    if non_sync && (max_request_size r <? current_request_size r + size) then
      goto (LiteralDiscard size) r
    else if 0 <? size then
      (goto (LiteralData size) ;;
       if negb non_sync then fail (NeedsLiteral size) else continue) r
    else
      (goto (Argument c#" ") ;; push_token Nil ;;
       if negb non_sync then fail (NeedsLiteral size) else continue) r
  else if negb (is_ascii_whitespace ch) then reject ExpectedCrlf r
  else continue r.

(* [crates/imap-proto/src/receiver.rs:385-396] Receiver::parse, State::LiteralDiscard *)
Definition on_literal_discard (remaining : Z) : M (option Request) := fun r =>
  if 1 <? remaining then goto (LiteralDiscard (remaining - 1)) r
  else reject (LiteralExceeds (max_request_size r)) r.

(* [crates/imap-proto/src/receiver.rs:397-409] Receiver::parse, State::LiteralData *)
Definition on_literal_data (remaining ch : Z) : M (option Request) :=
  push_unchecked ch ;;
  if 1 <? remaining then goto (LiteralData (remaining - 1))
  else push_argument false ;; goto (Argument c#" ").

(** The [match self.state] of the loop body. *)
Definition step (ch : Z) : M (option Request) := fun r =>
  match state r with
  | Start => on_start ch r
  | Tag => on_tag ch r
  | Command is_uid => on_command is_uid ch r
  | Argument last_ch => on_argument last_ch ch r
  | ArgumentQuoted escaped => on_quoted escaped ch r
  | Literal non_sync => on_literal non_sync ch r
  | LiteralSeek size non_sync => on_literal_seek size non_sync ch r
  | LiteralDiscard remaining => on_literal_discard remaining r
  | LiteralData remaining => on_literal_data remaining ch r
  end.

(* [crates/imap-proto/src/receiver.rs:146-414] Receiver::parse *)
Fixpoint parse (bytes : list Z) (r : Receiver) : Receiver * result Request Error * list Z :=
  match bytes with
  | [] => (r, Err NeedsMoreData, [])
  | ch :: bytes =>
      match step ch r with
      | (r', Ok None) => parse bytes r'
      | (r', Ok (Some q)) => (r', Ok q, bytes)
      | (r', Err e) => (r', Err e, bytes)
      end
  end.

End Receiver.
Arguments Request : clear implicits.
Arguments Receiver : clear implicits.

(** ** Sizes and the invariant *)

(** The bytes of the request size limit that a token uses. *)
Definition token_size (t : Token) : Z :=
  match t with TArgument b => len b | Nil => 0 | _ => 1 end.

Fixpoint tokens_size (l : list Token) : Z :=
  match l with [] => 0 | t :: l => token_size t + tokens_size l end.

Lemma len_nonneg b : 0 <= len b.
Proof. unfold len. lia. Qed.

Lemma len_app a b : len (a ++ b) = len a + len b.
Proof. unfold len. rewrite length_app. lia. Qed.

Lemma len_single c : len [c] = 1.
Proof. done. Qed.

Lemma is_empty_spec b : is_empty b = true <-> b = [].
Proof. by destruct b. Qed.

Lemma tokens_size_app a b : tokens_size (a ++ b) = tokens_size a + tokens_size b.
Proof. induction a as [|t a IH]; simpl; lia. Qed.

Lemma tokens_size_nonneg l : 0 <= tokens_size l.
Proof.
  induction l as [|t l IH]; simpl; [lia|].
  destruct t; simpl; try lia. pose proof (len_nonneg b). lia.
Qed.

(** What the buffer holds in each state, with the request size used so far
    and its limit. *)
Definition state_ok (max cur : Z) (b : ArgumentBuffer) (s : State) : Prop :=
  match s with
  | Start => b = []
  | Tag => len b <= 128
  | Command _ => len b <= 15
  | Argument _ | ArgumentQuoted _ => len b <= ARG_MAX_LEN
  | Literal _ => len b <= 15
  | LiteralSeek size non_sync =>
      b = [] /\ 0 <= size <= u32_max /\ (non_sync = false -> cur + size <= max)
  | LiteralData remaining =>
      1 <= remaining /\ len b + remaining <= u32_max /\ cur + len b + remaining <= max
  | LiteralDiscard remaining => b = [] /\ 1 <= remaining
  end.

Section Properties.
Context {T : Type} {P : CommandParser T}.
Implicit Types (r : Receiver T) (q : Request T).

(** A start state in which the receiver waits for a command. *)
Definition start_ok (s : State) : Prop := s = Start \/ s = Command false.

Definition receiver_wf r : Prop :=
  start_ok (start_state r) /\
  tokens_size (tokens (request r)) <= current_request_size r <= max_request_size r /\
  state_ok (max_request_size r) (current_request_size r) (buf r) (state r).

(** The receiver that waits for the next command. *)
Definition fresh r : Receiver T :=
  MkReceiver [] request_default (start_state r) (max_request_size r) 0 (start_state r).

(** What one step or one call of [parse] may give. *)
Definition outcome_ok r (r' : Receiver T) (res : result (option (Request T)) Error) : Prop :=
  receiver_wf r' /\ start_state r' = start_state r /\
  max_request_size r' = max_request_size r /\
  match res with
  | Ok None => True
  | Ok (Some q) => r' = fresh r /\ tokens_size (tokens q) <= max_request_size r
  | Err (Error_ _ _) => r' = fresh r
  | Err (NeedsLiteral n) =>
      (0 < n /\ state r' = LiteralData n /\ buf r' = []) \/
      (n = 0 /\ state r' = Argument c#" ")
  | Err NeedsMoreData => False
  end.

Definition base r : Prop :=
  start_ok (start_state r) /\
  tokens_size (tokens (request r)) <= current_request_size r <= max_request_size r.

Definition same r r' : Prop :=
  start_state r' = start_state r /\ max_request_size r' = max_request_size r.

Lemma fresh_wf r : base r -> receiver_wf (fresh r).
Proof.
  intros (Hs & Hc). unfold receiver_wf, fresh; simpl.
  pose proof (tokens_size_nonneg (tokens (request r))).
  split; [done|]. split; [lia|]. destruct Hs as [E|E]; rewrite E; simpl; [done|].
  unfold len; simpl; lia.
Qed.

Lemma fresh_same r r1 : same r r1 -> fresh r1 = fresh r.
Proof. unfold same, fresh. by intros [-> ->]. Qed.

(** Weakest preconditions of the monad: what [Q] asks of the state and the
    result that [m] leaves. *)
Definition wp {A} (m : M A) r (Q : Receiver T -> result A Error -> Prop) : Prop :=
  Q (fst (m r)) (snd (m r)).

Lemma wp_bind {A B} (m : M A) (k : A -> M B) r Q :
  wp m r (fun r' x => match x with Ok a => wp (k a) r' Q | Err e => Q r' (Err e) end) ->
  wp (bind m k) r Q.
Proof. unfold wp, bind. destruct (m r) as [r' [a|e]]; simpl; auto. Qed.

Lemma wp_goto s r Q : Q (set_state s r) (Ok None) -> wp (goto s) r Q.
Proof. done. Qed.

(** An error of the state machine leaves the receiver waiting for the next
    command; [Q] takes the outcome of every handler. *)
Definition on_error {A} r (Q : Receiver T -> result A Error -> Prop) : Prop :=
  forall t m, Q (fresh r) (Err (Error_ t m)).

Lemma wp_reject {A} m r r1 (Q : Receiver T -> result A Error -> Prop) :
  same r r1 -> on_error r Q -> wp (reject m) r1 Q.
Proof.
  intros Hs HQ. specialize (HQ (if is_empty (tag (request r1)) then None
    else Some (tag (request r1))) m). rewrite <- (fresh_same r r1 Hs) in HQ. exact HQ.
Qed.

Lemma wp_push_argument quoted r Q :
  base r -> on_error r Q ->
  (forall r', base r' -> same r r' -> buf r' = [] -> state r' = state r ->
     current_request_size r' = current_request_size r + len (buf r) -> Q r' (Ok tt)) ->
  wp (push_argument quoted) r Q.
Proof.
  intros [Hs Hc] HE HQ. unfold wp, push_argument. destruct (buf r) as [|c b] eqn:Eb; cbn -[len reject].
  - destruct quoted; apply HQ; unfold base, same; simpl; rewrite ?tokens_size_app, ?Eb;
      simpl; unfold len; simpl; split_and?; auto; lia.
  - rewrite Eb. destruct (Z.ltb_spec (max_request_size r) (current_request_size r + len (c :: b))).
    + by apply (wp_reject _ r).
    + apply HQ; unfold base, same; simpl; rewrite ?tokens_size_app, ?Eb; simpl;
        pose proof (len_nonneg (c :: b)); split_and?; auto; lia.
Qed.

Lemma wp_push_token t r Q :
  base r -> token_size t <= 1 -> on_error r Q ->
  (forall r', base r' -> same r r' -> buf r' = buf r -> state r' = state r -> Q r' (Ok tt)) ->
  wp (push_token t) r Q.
Proof.
  intros [Hs Hc] Ht HE HQ. unfold wp, push_token. cbn -[reject].
  destruct (Z.ltb_spec (max_request_size r) (current_request_size r + 1)).
  - by apply (wp_reject _ r).
  - apply HQ; unfold base, same; simpl; rewrite ?tokens_size_app; simpl; split_and?; auto; lia.
Qed.

Lemma wp_push_checked c limit m r Q :
  on_error r Q ->
  (len (buf r) < limit -> Q (set_buf (buf r ++ [c]) r) (Ok tt)) ->
  wp (push_checked c limit m) r Q.
Proof.
  intros HE HQ. unfold wp, push_checked, buf_push_checked.
  destruct (Z.ltb_spec (len (buf r)) limit); [by apply HQ|by apply (wp_reject _ r)].
Qed.

Lemma on_error_outcome r : base r -> on_error r (outcome_ok r).
Proof. intros Hb t m. repeat split; apply fresh_wf; done. Qed.

(** A handler's steps run one at a time; [finish] closes a case where the
    next state's conditions are arithmetic on the buffer's length. *)
Ltac finish :=
  unfold wp, goto, continue, modify, bind, ret in *;
  unfold outcome_ok, receiver_wf, base, same, state_ok, ARG_MAX_LEN in *; simpl in *;
  rewrite ?len_app, ?len_single;
  repeat match goal with
  | H : _ /\ _ |- _ => destruct H
  | H : buf _ = _ |- _ => rewrite H
  | H : state _ = _ |- _ => rewrite H
  end; simpl;
  repeat match goal with |- context [len []] => change (len []) with 0 end;
  split_and?; try done; try congruence; lia.

Lemma step_start ch r :
  base r -> buf r = [] -> state r = Start -> wp (on_start ch) r (outcome_ok r).
Proof.
  intros Hb Eb Es. unfold on_start. destruct (negb (is_ascii_whitespace ch)).
  - apply wp_bind; simpl. apply wp_goto. finish.
  - finish.
Qed.

Lemma step_tag ch r :
  base r -> len (buf r) <= 128 -> state r = Tag -> wp (on_tag ch) r (outcome_ok r).
Proof.
  intros Hb Hl Es. pose proof (on_error_outcome r Hb). unfold wp, on_tag.
  repeat case_if; try (by apply (wp_reject _ r)); try finish.
  apply (wp_bind (push_checked _ _ _)). apply wp_push_checked; [done|]. intros. finish.
Qed.

Lemma wp_return_request r r1 :
  base r1 -> same r r1 -> base r -> buf r1 = [] -> wp return_request r1 (outcome_ok r).
Proof.
  intros Hb1 Hs Hb Eb. unfold wp, return_request, outcome_ok; cbn.
  assert (set_request request_default (set_size 0 (set_state (start_state r1) r1)) = fresh r) as ->.
  { unfold fresh, set_request, set_size, set_state; simpl. destruct Hs as [-> ->]. by rewrite Eb. }
  destruct Hb1 as [_ ?], Hs as [-> <-]. split_and?; try done; [by apply fresh_wf|lia].
Qed.

Lemma step_command uid ch r :
  base r -> len (buf r) <= 15 -> state r = Command uid ->
  wp (on_command uid ch) r (outcome_ok r).
Proof.
  intros Hb Hl Es. pose proof (on_error_outcome r Hb). unfold wp, on_command.
  destruct (cmd_parse (buf r) uid) as [c|];
    repeat case_if; try (by apply (wp_reject _ r)); try finish;
    try (by apply wp_return_request);
    (apply (wp_bind (push_checked _ _ _)); apply wp_push_checked; [done|]; intros; finish).
Qed.

Lemma step_argument last ch r :
  base r -> len (buf r) <= ARG_MAX_LEN -> state r = Argument last ->
  wp (on_argument last ch) r (outcome_ok r).
Proof.
  intros Hb Hl Es. pose proof (on_error_outcome r Hb). unfold wp, on_argument.
  assert (forall t, token_size t <= 1 ->
    wp (bind (push_argument false) (fun _ => bind (push_token t) (fun _ => continue))) r
      (outcome_ok r)) as Htok.
  { intros t Ht. apply wp_bind, wp_push_argument; [done..|]. intros r1 Hb1 Hs1 Eb1 Es1 _.
    apply wp_bind, wp_push_token; [done..| |].
    - intros t' m. rewrite (fresh_same r r1 Hs1). apply H.
    - intros r2 Hb2 Hs2 Eb2 Es2. finish. }
  case_if; [apply (wp_bind (push_argument _)), wp_push_argument; [done..|]; intros; finish|].
  case_if.
  { apply wp_bind. case_if.
    - apply wp_push_argument; [done..|]. intros. finish.
    - finish. }
  case_if; [by apply Htok|]. case_if; [by apply Htok|].
  destruct (if tokenize_brackets (command (request r)) then bracket_token ch else None)
    as [t|] eqn:Et.
  { apply Htok. destruct (tokenize_brackets _); [|done]. unfold bracket_token in Et.
    repeat case_if_in Et; simplify_eq; simpl; lia. }
  case_if.
  { apply wp_bind, wp_push_argument; [done..|]. intros. by apply wp_return_request. }
  case_if; [apply (wp_bind (push_argument _)), wp_push_argument; [done..|]; intros; finish|].
  apply (wp_bind (push_checked _ _ _)), wp_push_checked; [done|]. intros. finish.
Qed.


Lemma step_quoted escaped ch r :
  base r -> len (buf r) <= ARG_MAX_LEN -> state r = ArgumentQuoted escaped ->
  wp (on_quoted escaped ch) r (outcome_ok r).
Proof.
  intros Hb Hl Es. pose proof (on_error_outcome r Hb) as HE. unfold on_quoted.
  assert (forall r1, same r r1 -> base r1 ->
    wp (bind (push_checked ch ARG_MAX_LEN QuotedTooLong) (fun _ => goto (ArgumentQuoted false)))
      r1 (outcome_ok r)) as Hc.
  { intros r1 Hs Hb1. apply wp_bind, wp_push_checked; [|intros; finish].
    intros t m. rewrite (fresh_same r r1 Hs). apply HE. }
  repeat case_if; try (by apply (wp_reject _ r)); try (by apply Hc); apply wp_bind.
  - apply wp_push_argument; [done..|]. intros; finish.
  - finish.
Qed.

Lemma step_literal non_sync ch r :
  base r -> len (buf r) <= 15 -> state r = Literal non_sync ->
  wp (on_literal non_sync ch) r (outcome_ok r).
Proof.
  intros Hb Hl Es. pose proof (on_error_outcome r Hb). unfold wp, on_literal.
  destruct (parse_unsigned u32_max (buf_as_str (buf r))) as [size|] eqn:Ep;
    [apply parse_unsigned_range in Ep|];
    repeat case_if; try (by apply (wp_reject _ r)); try finish;
    try (apply (wp_bind (push_checked _ _ _)), wp_push_checked; [done|]; intros; finish).
  destruct non_sync; simpl in *; finish.
Qed.

Lemma step_literal_seek size non_sync ch r :
  base r -> state_ok (max_request_size r) (current_request_size r) (buf r) (LiteralSeek size non_sync) ->
  state r = LiteralSeek size non_sync ->
  wp (on_literal_seek size non_sync ch) r (outcome_ok r).
Proof.
  intros Hb Hk Es. pose proof (on_error_outcome r Hb) as HE. unfold wp, on_literal_seek.
  destruct Hk as (Eb & Hsz & Hns).
  case_if; [|case_if; [by apply (wp_reject _ r)|finish]].
  case_if; [finish|]. case_if.
  - destruct non_sync; simpl in *; [finish|]. specialize (Hns eq_refl).
    unfold bind, goto, modify, continue, ret, fail; simpl. unfold outcome_ok.
    split_and?; try done; try lia; simpl.
    + finish.
    + by left.
  - apply (wp_bind (goto _)). apply (wp_bind (push_token Nil)), wp_push_token; [done|done| |].
    + intros t m. exact (HE t m).
    + intros r1 Hb1 Hs1 Eb1 Es1. simpl in *. destruct non_sync; simpl; [finish|].
      assert (size = 0) as -> by lia. unfold wp, fail. simpl.
      unfold outcome_ok. rewrite Es1. destruct Hs1. split; [|split_and?; auto].
      finish.
Qed.

Lemma step_discard remaining r :
  base r -> buf r = [] -> 1 <= remaining -> state r = LiteralDiscard remaining ->
  wp (on_literal_discard remaining) r (outcome_ok r).
Proof.
  intros Hb Eb Hr Es. pose proof (on_error_outcome r Hb). unfold wp, on_literal_discard.
  case_if; [finish|by apply (wp_reject _ r)].
Qed.

Lemma step_data remaining ch r :
  base r -> state_ok (max_request_size r) (current_request_size r) (buf r) (LiteralData remaining) ->
  state r = LiteralData remaining ->
  wp (on_literal_data remaining ch) r (outcome_ok r).
Proof.
  intros Hb Hk Es. unfold on_literal_data. apply wp_bind; simpl.
  case_if; [finish|]. apply wp_bind, wp_push_argument; [done| |intros; finish].
  intros t m. exact (on_error_outcome r Hb t m).
Qed.

Lemma step_ok ch r : receiver_wf r -> wp (step ch) r (outcome_ok r).
Proof.
  intros (Hs & Hc & Hk). assert (base r) as Hb by done. unfold wp, step.
  destruct (state r) eqn:Es; simpl in Hk.
  - by apply step_start.
  - by apply step_tag.
  - by apply step_command.
  - by apply step_argument.
  - by apply step_quoted.
  - by apply step_literal.
  - apply step_literal_seek; auto.
  - apply step_data; auto.
  - destruct Hk. by apply step_discard.
Qed.

(** The memory that a receiver holds for the request it is reading. *)
Definition held r : Z := len (buf r) + tokens_size (tokens (request r)).

Lemma wf_held r : receiver_wf r -> held r <= max_request_size r + ARG_MAX_LEN.
Proof.
  intros (Hs & Hc & Hk). unfold held, ARG_MAX_LEN.
  destruct (state r); unfold state_ok, ARG_MAX_LEN in Hk;
    repeat match goal with H : _ /\ _ |- _ => destruct H end;
    repeat match goal with H : buf r = [] |- _ => rewrite H end;
    change (len []) with 0 in *; lia.
Qed.


(** No step asks for more data: only the end of the input does. *)
Definition no_more {A} (x : result A Error) : Prop := x <> Err NeedsMoreData.

Lemma no_more_bind {A B} (m : M A) (k : A -> M B) r :
  no_more (snd (m r)) -> (forall a r', no_more (snd (k a r'))) -> no_more (snd (bind m k r)).
Proof.
  unfold bind, no_more. destruct (m r) as [r' [a|e]]; simpl; [auto|]. intros H _ [= ->]. done.
Qed.

Lemma no_more_push_argument quoted r : no_more (snd (push_argument quoted r)).
Proof. unfold push_argument. by repeat case_if. Qed.
Lemma no_more_push_token t r : no_more (snd (push_token t r)).
Proof. unfold push_token. by repeat case_if. Qed.
Lemma no_more_push_checked c l m r : no_more (snd (push_checked c l m r)).
Proof. unfold push_checked. by destruct (buf_push_checked _ _ _). Qed.

Ltac no_more_tac :=
  repeat first
    [ done
    | apply no_more_push_argument | apply no_more_push_token | apply no_more_push_checked
    | apply no_more_bind; [|intros]
    | case_if ].

Lemma step_no_more ch r : no_more (snd (step ch r)).
Proof.
  unfold step. destruct (state r).
  - unfold on_start. no_more_tac.
  - unfold on_tag. no_more_tac.
  - unfold on_command. destruct (cmd_parse _ _); no_more_tac.
  - unfold on_argument.
    destruct (if tokenize_brackets _ then bracket_token ch else None); no_more_tac.
  - unfold on_quoted. no_more_tac.
  - unfold on_literal. destruct (parse_unsigned _ _); no_more_tac.
  - unfold on_literal_seek. no_more_tac.
  - unfold on_literal_data. no_more_tac.
  - unfold on_literal_discard. no_more_tac.
Qed.

(** The splitting of the input into network reads does not matter: when
    the first part ends without a complete request, going on with the second
    part gives what the whole input gives in one call, and otherwise the
    whole input gives the first part's result with the second part unread. *)
Theorem parse_chunks a b r :
  parse (a ++ b) r =
  match parse a r with
  | (r', Err NeedsMoreData, _) => parse b r'
  | (r', res, rest) => (r', res, rest ++ b)
  end.
Proof.
  revert r. induction a as [|ch a IH]; intros r; [done|]. simpl.
  pose proof (step_no_more ch r) as Hn.
  destruct (step ch r) as [r1 [[q|]|e]]; [done|apply IH|]. by destruct e.
Qed.
End Properties.

(** ** Reading back a command line

    A client's side of the protocol: the text of a list of arguments, and
    the tokens that the receiver is to make of it. *)

Inductive Item :=
| IAtom (b : list Z)
| IQuoted (b : list Z)
| ILiteral (b : list Z)
| IOpen | IClose.

Definition escape_byte (c : Z) : list Z :=
  if (c =? 34) || (c =? c#"\") then [c#"\"; c] else [c].

Definition quoted (b : list Z) : list Z := 34 :: (b ≫= escape_byte) ++ [34].

Definition literal_header (b : list Z) (plus : list Z) : list Z :=
  c#"{" :: print_decimal (len b) ++ plus ++ c#"}" :: [13; 10].

Definition item_text (i : Item) : list Z :=
  match i with
  | IAtom b => b
  | IQuoted b => quoted b
  | ILiteral b => literal_header b s#"+" ++ b
  | IOpen => s#"("
  | IClose => s#")"
  end.

Definition item_token (i : Item) : Token :=
  match i with
  | IAtom b => TArgument b
  | IQuoted b | ILiteral b => if is_empty b then Nil else TArgument b
  | IOpen => ParenthesisOpen
  | IClose => ParenthesisClose
  end.

(** The size that an item uses of the request limit: an empty literal uses
    one byte, an empty quoted string none. *)
Definition item_size (i : Item) : Z :=
  match i with
  | IAtom b | IQuoted b => len b
  | ILiteral b => Z.max 1 (len b)
  | IOpen | IClose => 1
  end.

Fixpoint items_size (l : list Item) : Z :=
  match l with [] => 0 | i :: l => item_size i + items_size l end.

Definition is_open (i : Item) : bool := match i with IOpen => true | _ => false end.

(** Items are separated by spaces, except after an opening and before a
    closing parenthesis. *)
Fixpoint items_text (glued : bool) (l : list Item) : list Z :=
  match l with
  | [] => []
  | i :: l =>
      (match i with
       | IClose => []
       | _ => if glued then [] else s#" "
       end) ++ item_text i ++ items_text (is_open i) l
  end.

(** The bytes of an atom, for commands with and without bracket tokens. *)
Definition atom_char (brackets : bool) (c : Z) : bool :=
  negb (is_ascii_whitespace c) && negb (c =? 34) && negb (c =? c#"{") &&
  negb (c =? c#"(") && negb (c =? c#")") &&
  (negb brackets || match bracket_token c with None => true | Some _ => false end).

Definition item_ok (brackets : bool) (i : Item) : Prop :=
  match i with
  | IAtom b => b <> [] /\ len b <= ARG_MAX_LEN /\ Forall (fun c => atom_char brackets c = true) b
  | IQuoted b => len b <= ARG_MAX_LEN /\ Forall (fun c => c <> 10) b
  | ILiteral b => len b <= u32_max
  | IOpen | IClose => True
  end.

Section RoundTrip.
Context {T : Type} {P : CommandParser T}.

(** [bytes] are read without a result, from [r] to [r']. *)
Definition feeds (bytes : list Z) (r r' : Receiver T) : Prop :=
  forall rest, parse (bytes ++ rest) r = parse rest r'.

Lemma feeds_nil r : feeds [] r r.
Proof. done. Qed.

Lemma feeds_app a b r1 r2 r3 : feeds a r1 r2 -> feeds b r2 r3 -> feeds (a ++ b) r1 r3.
Proof. intros Ha Hb rest. by rewrite <- app_assoc, Ha, Hb. Qed.

Lemma feeds_step c r r' : step c r = (r', Ok None) -> feeds [c] r r'.
Proof. intros E rest. simpl. by rewrite E. Qed.

Lemma feeds_cons c l r1 r2 r3 :
  step c r1 = (r2, Ok None) -> feeds l r2 r3 -> feeds (c :: l) r1 r3.
Proof. intros E. apply (feeds_app [c] l). by apply feeds_step. Qed.

Context (tg : list Z) (cmd : T) (mx : Z) (ss : State).

(** The receiver in the middle of the command's arguments. *)
Definition at_arg (b : list Z) (s : State) (ts : list Token) (cur : Z) : Receiver T :=
  MkReceiver b (MkRequest tg cmd ts) s mx cur ss.

Definition flush (b : list Z) (ts : list Token) : list Token :=
  if is_empty b then ts else ts ++ [TArgument b].

Lemma push_argument_flush b s ts cur :
  cur + len b <= mx ->
  push_argument false (at_arg b s ts cur) = (at_arg [] s (flush b ts) (cur + len b), Ok tt).
Proof.
  intros H. unfold push_argument, at_arg, flush. destruct b as [|c b]; simpl.
  - by rewrite Z.add_0_r.
  - change (len (c :: b)) with (len (c :: b)). replace (mx <? cur + len (c :: b)) with false by lia.
    done.
Qed.

Lemma push_token_at t b s ts cur :
  cur + 1 <= mx -> push_token t (at_arg b s ts cur) = (at_arg b s (ts ++ [t]) (cur + 1), Ok tt).
Proof. intros H. unfold push_token, at_arg. simpl. by replace (mx <? cur + 1) with false by lia. Qed.

(** After an item: the last argument may still be in the buffer. *)
Definition pending (ts : list Token) (cur : Z) (r : Receiver T) : Prop :=
  exists b l ts0 cur0, r = at_arg b (Argument l) ts0 cur0 /\ ts = flush b ts0 /\ cur = cur0 + len b.

Lemma pending_ready l ts cur : pending ts cur (at_arg [] (Argument l) ts cur).
Proof. exists [], l, ts, cur. split_and?; try done. unfold len. simpl. lia. Qed.

Lemma pending_space ts cur r :
  pending ts cur r -> cur <= mx ->
  feeds s#" " r (at_arg [] (Argument c#" ") ts cur) /\ feeds [13] r (at_arg [] (Argument 13) ts cur).
Proof.
  intros (b & l & ts0 & cur0 & -> & -> & ->) H.
  split; apply feeds_step; unfold step; cbn [at_arg state];
    unfold on_argument; cbn [Z.eqb Pos.eqb andb orb negb];
    destruct (tokenize_brackets _); cbn [bracket_token Z.eqb Pos.eqb];
    unfold bind at 1; rewrite push_argument_flush by lia; done.
Qed.

Lemma pending_lf ts cur r rest :
  pending ts cur r -> cur <= mx ->
  parse (10 :: rest) r = (fresh r, Ok (MkRequest tg cmd ts), rest).
Proof.
  intros (b & l & ts0 & cur0 & -> & -> & ->) H.
  simpl. unfold step; cbn [at_arg state]; unfold on_argument; cbn [Z.eqb Pos.eqb andb orb negb].
  destruct (tokenize_brackets _); cbn [bracket_token Z.eqb Pos.eqb];
    unfold bind at 1; rewrite push_argument_flush by lia; done.
Qed.

Lemma pending_close ts cur r :
  pending ts cur r -> cur + 1 <= mx ->
  exists r', feeds s#")" r r' /\ pending (ts ++ [ParenthesisClose]) (cur + 1) r'.
Proof.
  intros (b & l & ts0 & cur0 & -> & -> & ->) H.
  eexists. split; [|apply pending_ready].
  apply feeds_step. unfold step; cbn [at_arg state]. unfold on_argument; cbn [Z.eqb Pos.eqb andb].
  unfold bind at 1. rewrite push_argument_flush by lia.
  unfold bind at 1. by rewrite push_token_at by lia.
Qed.

Lemma ready_open l ts cur :
  cur + 1 <= mx -> is_ascii_whitespace l = true ->
  feeds s#"(" (at_arg [] (Argument l) ts cur) (at_arg [] (Argument l) (ts ++ [ParenthesisOpen]) (cur + 1)).
Proof.
  intros H Hl. apply feeds_step. unfold step; cbn [at_arg state]. unfold on_argument; cbn [Z.eqb Pos.eqb andb].
  unfold bind at 1. rewrite push_argument_flush by (unfold len; simpl; lia).
  unfold bind at 1. rewrite push_token_at by (unfold len; simpl; lia).
  unfold len, flush; simpl. by rewrite Z.add_0_r.
Qed.

Lemma step_atom_char c b l ts cur :
  atom_char (tokenize_brackets cmd) c = true -> len b < ARG_MAX_LEN ->
  step c (at_arg b (Argument l) ts cur) = (at_arg (b ++ [c]) (Argument c) ts cur, Ok None).
Proof.
  intros Hc Hl. unfold atom_char in Hc. bool_to_prop.
  assert (is_ascii_whitespace c = false) as Hws by done.
  unfold step; cbn [at_arg state]. unfold on_argument; cbn [at_arg request command].
  replace (c =? 34) with false by lia. replace (c =? c#"{") with false by lia.
  replace (c =? c#"(") with false by lia. replace (c =? c#")") with false by lia.
  replace (if tokenize_brackets cmd then bracket_token c else None) with (@None Token)
    by (destruct (tokenize_brackets cmd), (bracket_token c); done).
  replace (c =? 10) with false by (unfold is_ascii_whitespace in *; lia).
  cbn [andb]. rewrite Hws. unfold bind at 1, push_checked, buf_push_checked. cbn [at_arg buf].
  by replace (len b <? ARG_MAX_LEN) with true by lia.
Qed.

Lemma feeds_atom s b l ts cur :
  Forall (fun c => atom_char (tokenize_brackets cmd) c = true) s -> len (b ++ s) <= ARG_MAX_LEN ->
  exists l', feeds s (at_arg b (Argument l) ts cur) (at_arg (b ++ s) (Argument l') ts cur).
Proof.
  revert b l. induction s as [|c s IH]; intros b l Hs Hl.
  - exists l. rewrite app_nil_r. apply feeds_nil.
  - inversion_clear Hs as [|? ? Hc Hs']; rename Hs' into Hs.
    rewrite len_app in Hl. pose proof (len_nonneg s). unfold len in Hl; simpl in Hl.
    destruct (IH (b ++ [c]) c Hs) as [l' Hf].
    { rewrite !len_app. unfold len; simpl. lia. }
    exists l'. replace (b ++ c :: s) with ((b ++ [c]) ++ s) by (by rewrite <- app_assoc).
    eapply feeds_cons; [|apply Hf]. apply step_atom_char; [done|]. unfold len; lia.
Qed.

Lemma step_push_quoted c b ts cur :
  len b < ARG_MAX_LEN -> c <> 10 -> c <> 34 /\ c <> c#"\" ->
  step c (at_arg b (ArgumentQuoted false) ts cur) = (at_arg (b ++ [c]) (ArgumentQuoted false) ts cur, Ok None).
Proof.
  intros Hb Hn [H1 H2]. unfold step; cbn [at_arg state]. unfold on_quoted.
  replace (c =? 34) with false by lia. replace (c =? c#"\") with false by lia.
  replace (c =? 10) with false by lia.
  unfold bind at 1, ret, push_checked, buf_push_checked. unfold bind at 1. cbn [at_arg buf].
  by replace (len b <? ARG_MAX_LEN) with true by lia.
Qed.

Lemma feeds_escaped s b ts cur :
  Forall (fun c => c <> 10) s -> len (b ++ s) <= ARG_MAX_LEN ->
  feeds (s ≫= escape_byte) (at_arg b (ArgumentQuoted false) ts cur)
        (at_arg (b ++ s) (ArgumentQuoted false) ts cur).
Proof.
  revert b. induction s as [|c s IH]; intros b Hs Hl.
  - rewrite app_nil_r. apply feeds_nil.
  - apply Forall_cons_1 in Hs as [Hc Hs].
    assert (len b < ARG_MAX_LEN) as Hb.
    { rewrite len_app in Hl. pose proof (len_nonneg s). unfold len in *; simpl in *; lia. }
    replace (b ++ c :: s) with ((b ++ [c]) ++ s) by (by rewrite <- app_assoc).
    change ((c :: s) ≫= escape_byte) with (escape_byte c ++ (s ≫= escape_byte)).
    eapply feeds_app; [|apply IH; [done|by rewrite <- app_assoc]].
    unfold escape_byte. destruct ((c =? 34) || (c =? c#"\")) eqn:E.
    + eapply (feeds_cons _ _ _ (at_arg b (ArgumentQuoted true) ts cur)); [done|].
      assert (c = 34 \/ c = c#"\") as Hd by lia.
      apply feeds_step. unfold step; cbn [at_arg state]. unfold on_quoted.
      destruct Hd as [-> | ->]; cbn [Z.eqb Pos.eqb negb];
        unfold bind at 1, push_checked, buf_push_checked; cbn [at_arg buf];
        by replace (len b <? ARG_MAX_LEN) with true by lia.
    + apply feeds_step, step_push_quoted; [done|done|]. lia.
Qed.

Lemma feeds_quoted s l ts cur :
  Forall (fun c => c <> 10) s -> len s <= ARG_MAX_LEN -> cur + len s <= mx ->
  is_ascii_whitespace l = true ->
  feeds (quoted s) (at_arg [] (Argument l) ts cur)
    (at_arg [] (Argument c#" ") (ts ++ [item_token (IQuoted s)]) (cur + len s)).
Proof.
  intros Hs Hl Hc Hw. unfold quoted.
  eapply feeds_cons.
  { unfold step; cbn [at_arg state]. unfold on_argument. rewrite Hw. cbn [Z.eqb Pos.eqb andb].
    unfold bind at 1. rewrite push_argument_flush by (unfold len; simpl; pose proof (len_nonneg s);
      unfold len in *; lia).
    unfold len at 1, flush; simpl. rewrite Z.add_0_r. reflexivity. }
  eapply feeds_app; [by apply feeds_escaped|].
  apply feeds_step. unfold step; cbn [app at_arg set_state state]. unfold on_quoted; cbn [Z.eqb Pos.eqb negb].
  unfold bind at 1. destruct s as [|c s].
  - unfold push_argument, len; simpl. by rewrite Z.add_0_r.
  - unfold push_argument; cbn [at_arg buf is_empty negb]. cbn -[len].
    by replace (mx <? cur + len (c :: s)) with false by lia.
Qed.

Lemma feeds_digits s b ts cur :
  digits s -> len (b ++ s) <= 15 ->
  feeds s (at_arg b (Literal false) ts cur) (at_arg (b ++ s) (Literal false) ts cur).
Proof.
  revert b. induction s as [|c s IH]; intros b Hs Hl.
  - rewrite app_nil_r. apply feeds_nil.
  - apply Forall_cons_1 in Hs as [Hc Hs]. pose proof Hc as Hr. apply is_digit_range in Hr.
    replace (b ++ c :: s) with ((b ++ [c]) ++ s) in * by (by rewrite <- app_assoc).
    eapply feeds_cons; [|by apply IH].
    unfold step; cbn [at_arg state]. unfold on_literal.
    replace (c =? c#"}") with false by lia. replace (c =? c#"+") with false by lia. rewrite Hc.
    cbn [negb]. unfold bind, push_checked, buf_push_checked. cbn [at_arg buf].
    assert (len b < 15).
    { rewrite !len_app in Hl. pose proof (len_nonneg s). change (len [c]) with 1 in Hl. lia. }
    by replace (len b <? 15) with true by lia.
Qed.

(** The opening of a literal and its digits. *)
Lemma feeds_literal_digits n l ts cur :
  0 <= n <= u32_max -> cur <= mx -> is_ascii_whitespace l = true -> 0 <= cur ->
  feeds (c#"{" :: print_decimal n) (at_arg [] (Argument l) ts cur)
    (at_arg (print_decimal n) (Literal false) ts cur).
Proof.
  intros Hn Hcm Hw Hcur.
  pose proof (print_decimal_digits n) as Hd. pose proof (print_u32_length n Hn) as Hlen.
  eapply feeds_cons.
  { unfold step; cbn [at_arg state]. unfold on_argument. rewrite Hw.
    replace (l =? c#"~") with false by (unfold is_ascii_whitespace in Hw; lia).
    cbn [Z.eqb Pos.eqb andb orb negb].
    unfold bind at 1. rewrite push_argument_flush by (unfold len; simpl; lia).
    unfold len at 1, flush; simpl. rewrite Z.add_0_r. reflexivity. }
  apply (feeds_digits (print_decimal n) [] ts cur); [apply Hd; lia|]. unfold len. simpl. lia.
Qed.

Lemma print_decimal_not_empty n : is_empty (print_decimal n) = false.
Proof. destruct (print_decimal n) eqn:E; [|done]. by apply print_decimal_nonempty in E. Qed.

Lemma step_literal_close n non_sync ts cur :
  0 <= n <= u32_max ->
  step c#"}" (at_arg (print_decimal n) (Literal non_sync) ts cur) =
  if (mx <? cur + n) && negb non_sync then
    reject (LiteralExceeds mx) (at_arg (print_decimal n) (Literal non_sync) ts cur)
  else (at_arg [] (LiteralSeek n non_sync) ts cur, Ok None).
Proof.
  intros Hn. pose proof (print_decimal_digits n) as Hd.
  assert (Forall ascii (print_decimal n)) as Ha.
  { eapply Forall_impl; [|exact (Hd (proj1 Hn))]. intros c Hc%is_digit_range. unfold ascii. lia. }
  unfold step; cbn [at_arg state]. unfold on_literal; cbn [Z.eqb Pos.eqb at_arg buf].
  rewrite print_decimal_not_empty. unfold buf_as_str. rewrite str_or_default_ascii by done.
  rewrite parse_print_unsigned by lia. by cbn [negb at_arg max_request_size current_request_size].
Qed.

(** The header of a literal, up to the line feed that ends it. *)
Lemma feeds_header n l ts cur plus (non_sync : bool) :
  plus = (if non_sync then s#"+" else []) ->
  0 <= n <= u32_max -> 0 <= cur -> is_ascii_whitespace l = true ->
  cur <= mx -> (non_sync = false -> cur + n <= mx) ->
  feeds (c#"{" :: print_decimal n ++ plus ++ c#"}" :: [13]) (at_arg [] (Argument l) ts cur)
    (at_arg [] (LiteralSeek n non_sync) ts cur).
Proof.
  intros Hp Hn Hcur Hw Hcm Hmax.
  change (c#"{" :: print_decimal n ++ plus ++ c#"}" :: [13]) with
    ((c#"{" :: print_decimal n) ++ plus ++ c#"}" :: [13]).
  eapply feeds_app; [by apply feeds_literal_digits|].
  eapply (feeds_app plus _ _ (at_arg (print_decimal n) (Literal non_sync) ts cur)).
  { subst plus. destruct non_sync; [|apply feeds_nil].
    apply feeds_step. unfold step; cbn [at_arg state]. unfold on_literal; cbn [Z.eqb Pos.eqb at_arg buf].
    by rewrite print_decimal_not_empty. }
  apply (feeds_cons _ _ _ (at_arg [] (LiteralSeek n non_sync) ts cur)); [|by apply feeds_step].
  rewrite step_literal_close by done.
  replace ((mx <? cur + n) && negb non_sync) with false; [reflexivity|].
  destruct non_sync; simpl; [by rewrite andb_false_r|]. specialize (Hmax eq_refl). lia.
Qed.

Lemma feeds_data s b ts cur :
  s <> [] -> cur + len (b ++ s) <= mx ->
  feeds s (at_arg b (LiteralData (len s)) ts cur)
    (at_arg [] (Argument c#" ") (ts ++ [TArgument (b ++ s)]) (cur + len (b ++ s))).
Proof.
  revert b. induction s as [|c s IH]; intros b Hne Hl; [done|].
  replace (b ++ c :: s) with ((b ++ [c]) ++ s) in * by (by rewrite <- app_assoc).
  destruct s as [|d s].
  - rewrite app_nil_r in *. apply feeds_step.
    change (len [c]) with 1.
    unfold step; cbn [at_arg state]. unfold on_literal_data. unfold bind at 1.
    change (push_unchecked c (at_arg b (LiteralData 1) ts cur)) with
      (at_arg (b ++ [c]) (LiteralData 1) ts cur, @Ok unit Error tt).
    change (1 <? 1) with false. cbv iota. unfold bind at 1.
    rewrite push_argument_flush by done. unfold flush. by destruct b.
  - eapply feeds_cons; [|apply IH; [done|exact Hl]].
    unfold step; cbn [at_arg state]. unfold on_literal_data.
    assert (1 <= len (d :: s)) by (unfold len; simpl; lia).
    replace (len (c :: d :: s)) with (len (d :: s) + 1) by (unfold len; simpl; lia).
    unfold bind, push_unchecked, modify. cbn [at_arg set_buf buf request state max_request_size current_request_size start_state].
    replace (1 <? len (d :: s) + 1) with true by lia.
    by replace (len (d :: s) + 1 - 1) with (len (d :: s)) by lia.
Qed.

Lemma feeds_literal s l ts cur :
  len s <= u32_max -> 0 <= cur -> cur + Z.max 1 (len s) <= mx -> is_ascii_whitespace l = true ->
  feeds (literal_header s s#"+" ++ s) (at_arg [] (Argument l) ts cur)
    (at_arg [] (Argument c#" ") (ts ++ [item_token (ILiteral s)]) (cur + Z.max 1 (len s))).
Proof.
  intros Hl Hcur Hmax Hw. pose proof (len_nonneg s).
  pose proof (feeds_header (len s) l ts cur s#"+" true eq_refl) as Hh.
  unfold literal_header.
  replace ((c#"{" :: print_decimal (len s) ++ s#"+" ++ c#"}" :: [13; 10]) ++ s) with
    ((c#"{" :: print_decimal (len s) ++ s#"+" ++ c#"}" :: [13]) ++ [10] ++ s)
    by (simpl; rewrite <- !app_assoc; simpl; done).
  eapply feeds_app; [apply Hh; try done; lia|].
  destruct s as [|c s].
  - rewrite app_nil_r. apply feeds_step. unfold step; cbn [at_arg state]. unfold on_literal_seek.
    change (len []) with 0 in *. cbn [Z.eqb Pos.eqb andb at_arg max_request_size current_request_size].
    replace (mx <? cur + 0) with false by lia. cbn [Z.ltb Z.compare].
    unfold bind at 1.
    change (goto (Argument c#" ") (at_arg [] (LiteralSeek 0 true) ts cur)) with
      (at_arg [] (Argument c#" ") ts cur, @Ok (option (Request T)) Error None).
    cbv iota beta. unfold bind at 1. by rewrite push_token_at by lia.
  - eapply feeds_app.
    + apply feeds_step. unfold step; cbn [at_arg state]. unfold on_literal_seek.
      cbn [Z.eqb Pos.eqb andb at_arg max_request_size current_request_size].
      assert (1 <= len (c :: s)) by (unfold len; simpl; lia).
      replace (mx <? cur + len (c :: s)) with false by lia.
      replace (0 <? len (c :: s)) with true by lia. reflexivity.
    + replace (Z.max 1 (len (c :: s))) with (len (c :: s)) by (unfold len; simpl; lia).
      apply (feeds_data (c :: s) []); [done|]. simpl app. lia.
Qed.

Lemma item_size_nonneg i : 0 <= item_size i.
Proof. destruct i; simpl; try lia; try (pose proof (len_nonneg b); lia). Qed.

Lemma items_size_nonneg l : 0 <= items_size l.
Proof. induction l as [|i l IH]; simpl; [lia|]. pose proof (item_size_nonneg i). lia. Qed.

(** One item other than a closing parenthesis, after its separator. *)
Lemma feeds_item i l ts cur :
  item_ok (tokenize_brackets cmd) i -> i <> IClose -> is_ascii_whitespace l = true ->
  0 <= cur -> cur + item_size i <= mx ->
  exists r, feeds (item_text i) (at_arg [] (Argument l) ts cur) r /\
    pending (ts ++ [item_token i]) (cur + item_size i) r /\
    (is_open i = true -> exists c, is_ascii_whitespace c = true /\
       r = at_arg [] (Argument c) (ts ++ [item_token i]) (cur + item_size i)).
Proof.
  intros Hok Hc Hw Hcur Hmax. destruct i as [b|b|b| |]; simpl in *; [..|done].
  - destruct Hok as (Hne & Hl & Ha).
    destruct (feeds_atom b [] l ts cur Ha) as [l' Hf]; [done|].
    eexists. split; [exact Hf|]. split; [|done].
    exists b, l', ts, cur. split_and?; try done. unfold flush. by destruct b.
  - destruct Hok as [Hl Hn]. eexists. split; [by apply feeds_quoted|]. split; [|done].
    apply pending_ready.
  - eexists. split; [by apply feeds_literal|]. split; [|done]. apply pending_ready.
  - eexists. split; [by apply ready_open|]. split; [apply pending_ready|]. eauto.
Qed.

Lemma feeds_items l glued ts cur r :
  Forall (item_ok (tokenize_brackets cmd)) l -> pending ts cur r ->
  (glued = true -> exists c, is_ascii_whitespace c = true /\ r = at_arg [] (Argument c) ts cur) ->
  0 <= cur -> cur + items_size l <= mx ->
  exists r', feeds (items_text glued l) r r' /\
    pending (ts ++ map item_token l) (cur + items_size l) r'.
Proof.
  revert glued ts cur r. induction l as [|i l IH]; intros glued ts cur r Hok Hp Hg Hcur Hmax.
  - exists r. simpl. rewrite app_nil_r, Z.add_0_r. split; [apply feeds_nil|done].
  - apply Forall_cons_1 in Hok as [Hi Hok]. simpl in Hmax.
    pose proof (item_size_nonneg i). pose proof (items_size_nonneg l).
    assert (exists r1, feeds ((match i with IClose => [] | _ => if glued then [] else s#" " end)
              ++ item_text i) r r1 /\ pending (ts ++ [item_token i]) (cur + item_size i) r1 /\
              (is_open i = true -> exists c, is_ascii_whitespace c = true /\
               r1 = at_arg [] (Argument c) (ts ++ [item_token i]) (cur + item_size i)))
      as (r1 & Hf & Hp1 & Ho1).
    { assert (i = IClose \/ i <> IClose) as [->|Hni] by (destruct i; auto; right; done).
      - destruct (pending_close ts cur r Hp) as (r1 & Hf & Hp1); [simpl in *; lia|]. by exists r1.
      - assert (exists c, is_ascii_whitespace c = true /\
          feeds (if glued then [] else s#" ") r (at_arg [] (Argument c) ts cur)) as (c & Hc & Hs).
        { destruct glued; [destruct Hg as (c & ? & ->); [done|]; exists c; split; [done|apply feeds_nil]|].
          exists 32. split; [done|]. apply (pending_space ts cur r Hp). lia. }
        destruct (feeds_item i c ts cur Hi Hni Hc Hcur) as (r1 & Hf & Hp1 & Ho1); [lia|].
        exists r1. split; [|by split]. destruct i; [..|done]; by eapply feeds_app. }
    destruct (IH (is_open i) _ _ _ Hok Hp1 Ho1) as (r2 & Hf2 & Hp2); [lia..|].
    exists r2. split.
    + cbn [items_text]. rewrite app_assoc. by eapply feeds_app.
    + simpl. rewrite <- app_assoc, <- Z.add_assoc in Hp2. exact Hp2.
Qed.
End RoundTrip.

(** A complete command line: tag, optional [UID], command name, arguments. *)
Definition line_text (tg : list Z) (uid : bool) (name : list Z) (items : list Item) : list Z :=
  tg ++ s#" " ++ (if uid then s#"UID " else []) ++ name ++ s#" " ++ items_text true items ++ [13; 10].

Definition tag_ok (tg : list Z) : Prop :=
  tg <> [] /\ len tg <= 128 /\ valid tg = true /\
  Forall (fun c => is_ascii_whitespace c = false) tg.

Definition name_ok (name : list Z) : Prop :=
  name <> [] /\ len name <= 15 /\ eq_ignore_ascii_case name s#"UID" = false /\
  Forall (fun c => is_ascii_alphanumeric c = true /\ to_ascii_uppercase c = c) name.

Section Line.
Context {T : Type} {P : CommandParser T}.

Lemma feeds_tag s b max :
  Forall (fun c => is_ascii_whitespace c = false) s -> len (b ++ s) <= 128 ->
  feeds s (MkReceiver b (@request_default T P) Tag max 0 Start)
          (MkReceiver (b ++ s) request_default Tag max 0 Start).
Proof.
  revert b. induction s as [|c s IH]; intros b Hs Hl.
  - rewrite app_nil_r. apply feeds_nil.
  - apply Forall_cons_1 in Hs as [Hc Hs].
    replace (b ++ c :: s) with ((b ++ [c]) ++ s) in * by (by rewrite <- app_assoc).
    eapply feeds_cons; [|by apply IH].
    assert (len b < 128).
    { rewrite !len_app in Hl. pose proof (len_nonneg s). change (len [c]) with 1 in Hl. lia. }
    unfold step; cbn [state]. unfold on_tag. unfold is_ascii_whitespace in Hc.
    replace (c =? c#" ") with false by lia. replace ((c =? 9) || (c =? 13)) with false by lia.
    replace (c =? 10) with false by lia.
    unfold bind, push_checked, buf_push_checked. cbn [buf].
    by replace (len b <? 128) with true by lia.
Qed.

Lemma feeds_name s b tg uid max :
  Forall (fun c => is_ascii_alphanumeric c = true /\ to_ascii_uppercase c = c) s -> len (b ++ s) <= 15 ->
  feeds s (MkReceiver b (MkRequest tg (@cmd_default T P) []) (Command uid) max 0 Start)
          (MkReceiver (b ++ s) (MkRequest tg cmd_default []) (Command uid) max 0 Start).
Proof.
  revert b. induction s as [|c s IH]; intros b Hs Hl.
  - rewrite app_nil_r. apply feeds_nil.
  - apply Forall_cons_1 in Hs as [[Hc Hu] Hs].
    replace (b ++ c :: s) with ((b ++ [c]) ++ s) in * by (by rewrite <- app_assoc).
    eapply feeds_cons; [|by apply IH].
    assert (len b < 15).
    { rewrite !len_app in Hl. pose proof (len_nonneg s). change (len [c]) with 1 in Hl. lia. }
    unfold step; cbn [state]. unfold on_command. rewrite Hc, Hu.
    unfold bind, push_checked, buf_push_checked. cbn [buf].
    by replace (len b <? 15) with true by lia.
Qed.

Lemma feeds_head tg max :
  tag_ok tg ->
  feeds (tg ++ s#" ") (MkReceiver [] (@request_default T P) Start max 0 Start)
    (MkReceiver [] (MkRequest tg cmd_default []) (Command false) max 0 Start).
Proof.
  intros (Hne & Hl & Hv & Hs). destruct tg as [|c tg]; [done|].
  pose proof Hs as Hs'. apply Forall_cons_1 in Hs' as [Hc Hs'].
  eapply feeds_app; [|apply feeds_step].
  - eapply feeds_cons; [|by apply (feeds_tag tg [c])].
    unfold step; cbn [state]. unfold on_start. by rewrite Hc.
  - cbn [app]. unfold step; cbn [state]. unfold on_tag. cbn [Z.eqb Pos.eqb buf is_empty negb].
    by rewrite Hv.
Qed.

(** A command line with any of the known commands is read as one request,
    and nothing of what follows it is read. *)
Lemma parse_line tg uid name c items max rest :
  tag_ok tg -> name_ok name -> cmd_parse name uid = Some c ->
  Forall (item_ok (tokenize_brackets c)) items -> items_size items <= max ->
  parse (line_text tg uid name items ++ rest) (@with_max_request_size T P max) =
  (with_max_request_size max, Ok (MkRequest tg c (map item_token items)), rest).
Proof.
  intros Htg (Hne & Hl & Huid & Hn) Hcmd Hitems Hmax.
  unfold line_text, with_max_request_size.
  replace (tg ++ s#" " ++ (if uid then s#"UID " else []) ++ name ++ s#" " ++ items_text true items ++ [13; 10])
    with (((tg ++ s#" ") ++ (if uid then s#"UID " else []) ++ name ++ s#" ") ++ items_text true items ++ [13; 10])
    by (by rewrite <- !app_assoc).
  rewrite <- app_assoc.
  assert (feeds ((tg ++ s#" ") ++ (if uid then s#"UID " else []) ++ name ++ s#" ")
    (MkReceiver [] (@request_default T P) Start max 0 Start)
    (at_arg tg c max Start [] (Argument 32) [] 0)) as Hf.
  { eapply feeds_app; [by apply feeds_head|]. eapply feeds_app; [|eapply feeds_app].
    - instantiate (1 := MkReceiver [] (MkRequest tg cmd_default []) (Command uid) max 0 Start).
      destruct uid; [|apply feeds_nil]. by intros r.
    - by apply (feeds_name name []).
    - apply feeds_step. unfold step; cbn [app state]. unfold on_command. cbn [buf].
      change (is_ascii_alphanumeric 32) with false. change (is_ascii_whitespace 32) with true.
      cbv iota. rewrite Huid, Hcmd. by destruct name. }
  rewrite Hf.
  destruct (feeds_items tg c max Start items true [] 0 _ Hitems
    (pending_ready tg c max Start 32 [] 0)) as (r & Hfr & Hp); [by exists 32|lia|lia|].
  rewrite <- app_assoc, Hfr. cbn [app].
  pose proof (proj2 (pending_space _ _ _ _ _ _ _ Hp Hmax)) as Hcr.
  change (13 :: 10 :: rest) with ([13] ++ 10 :: rest). rewrite Hcr.
  by erewrite pending_lf; [|apply pending_ready|].
Qed.
End Line.

(** ** Literals of the two kinds *)

Section Literals.
Context {T : Type} {P : CommandParser T}.
Context (tg : list Z) (cmd : T) (mx : Z).
Notation at_arg := (@at_arg T tg cmd mx Start).

(** A synchronising literal stops the parser after its header with a
    request for exactly the announced bytes; those bytes, whatever they are,
    become one argument and nothing else.  An announced size that does not
    fit is refused at the header, before any data is asked for. *)
Theorem sync_literal s l ts cur rest :
  s <> [] -> len s <= u32_max -> 0 <= cur <= mx -> is_ascii_whitespace l = true ->
  (cur + len s <= mx ->
   let waiting := at_arg [] (LiteralData (len s)) ts cur in
   parse (literal_header s [] ++ rest) (at_arg [] (Argument l) ts cur) =
     (waiting, Err (NeedsLiteral (len s)), rest) /\
   parse (s ++ rest) waiting =
     parse rest (at_arg [] (Argument c#" ") (ts ++ [TArgument s]) (cur + len s))) /\
  (mx < cur + len s ->
   parse (literal_header s [] ++ rest) (at_arg [] (Argument l) ts cur) =
     (with_max_request_size mx,
      Err (Error_ (if is_empty tg then None else Some tg) (LiteralExceeds mx)),
      13 :: 10 :: rest)).
Proof.
  intros Hne Hl Hcur Hw. pose proof (len_nonneg s).
  assert (1 <= len s) as Hpos by (destruct s; [done|unfold len; simpl; lia]).
  split; intros Hfit.
  - split; [|by apply (feeds_data tg cmd mx Start s [])].
    unfold literal_header.
    replace ((c#"{" :: print_decimal (len s) ++ [] ++ c#"}" :: [13; 10]) ++ rest) with
      ((c#"{" :: print_decimal (len s) ++ [] ++ c#"}" :: [13]) ++ 10 :: rest)
      by (simpl; rewrite <- !app_assoc; simpl; done).
    rewrite (feeds_header tg cmd mx Start (len s) l ts cur [] false) by (done || lia).
    cbn [parse]. unfold step; cbn [state]. unfold on_literal_seek.
    change (state (at_arg [] (LiteralSeek (len s) false) ts cur)) with (LiteralSeek (len s) false).
    cbn [Z.eqb Pos.eqb andb]. by replace (0 <? len s) with true by lia.
  - unfold literal_header. cbn [app].
    assert (feeds (c#"{" :: print_decimal (len s)) (at_arg [] (Argument l) ts cur)
      (at_arg (print_decimal (len s)) (Literal false) ts cur)) as Hf.
    { apply feeds_literal_digits; [done|lia|done|lia]. }
    replace (c#"{" :: (print_decimal (len s) ++ [c#"}"; 13; 10]) ++ rest) with
      ((c#"{" :: print_decimal (len s)) ++ c#"}" :: 13 :: 10 :: rest)
      by (simpl; by rewrite <- app_assoc).
    rewrite Hf. cbn [parse]. rewrite step_literal_close by (done || lia).
    replace (mx <? cur + len s) with true by lia. done.
Qed.

Lemma feeds_discard s cur ts rest :
  s <> [] ->
  parse (s ++ rest) (at_arg [] (LiteralDiscard (len s)) ts cur) =
    (with_max_request_size mx, Err (Error_ (if is_empty tg then None else Some tg) (LiteralExceeds mx)), rest).
Proof.
  induction s as [|c s IH]; intros Hne; [done|]. cbn [app parse].
  unfold step. change (state (at_arg [] (LiteralDiscard (len (c :: s))) ts cur))
    with (LiteralDiscard (len (c :: s))). cbv iota. unfold on_literal_discard.
  destruct s as [|d s]; [done|].
  assert (1 <= len (d :: s)) by (unfold len; simpl; lia).
  replace (len (c :: d :: s)) with (len (d :: s) + 1) by (unfold len; simpl; lia).
  replace (1 <? len (d :: s) + 1) with true by lia.
  replace (len (d :: s) + 1 - 1) with (len (d :: s)) by lia.
  apply IH. done.
Qed.

(** A non-synchronising literal that does not fit cannot be refused
    before the client sends it: its bytes, and no others, are skipped -
    none is ever read as a command or kept in memory - and then the error is
    reported. *)
Theorem oversized_literal_discarded s l ts cur rest :
  s <> [] -> len s <= u32_max -> 0 <= cur <= mx -> is_ascii_whitespace l = true ->
  mx < cur + len s ->
  parse (literal_header s s#"+" ++ s ++ rest) (at_arg [] (Argument l) ts cur) =
    (with_max_request_size mx, Err (Error_ (if is_empty tg then None else Some tg) (LiteralExceeds mx)), rest).
Proof.
  intros Hne Hl Hcur Hw Hover. pose proof (len_nonneg s).
  unfold literal_header.
  replace ((c#"{" :: print_decimal (len s) ++ s#"+" ++ c#"}" :: [13; 10]) ++ s ++ rest) with
    ((c#"{" :: print_decimal (len s) ++ s#"+" ++ c#"}" :: [13]) ++ 10 :: s ++ rest)
    by (simpl; rewrite <- !app_assoc; simpl; done).
  rewrite (feeds_header tg cmd mx Start (len s) l ts cur s#"+" true) by (done || lia).
  cbn [parse]. unfold step. change (state (at_arg [] (LiteralSeek (len s) true) ts cur))
    with (LiteralSeek (len s) true). cbv iota. unfold on_literal_seek.
  change (max_request_size (at_arg [] (LiteralSeek (len s) true) ts cur)) with mx.
  change (current_request_size (at_arg [] (LiteralSeek (len s) true) ts cur)) with cur.
  cbn [Z.eqb Pos.eqb]. replace (true && (mx <? cur + len s)) with true by lia.
  by apply feeds_discard.
Qed.

(** Empty quoted strings use none of the request limit: any number of them
    is accepted under a limit of zero bytes. *)
Lemma nil_tokens_uncounted n :
  mx = 0 ->
  exists r, feeds (items_text true (repeat (IQuoted []) n)) (at_arg [] (Argument 32) [] 0) r /\
    pending tg cmd mx Start (repeat Nil n) 0 r.
Proof.
  intros Hmx.
  assert (items_size (repeat (IQuoted []) n) = 0) as Hz.
  { induction n as [|n IH]; [done|]. simpl. rewrite IH. done. }
  assert (map item_token (repeat (IQuoted []) n) = repeat Nil n) as Hm.
  { clear Hz. induction n as [|n IH]; [done|]. simpl. by rewrite IH. }
  assert (Forall (item_ok (tokenize_brackets cmd)) (repeat (IQuoted []) n)) as Hok.
  { clear. induction n as [|n IH]; simpl; [constructor|]. by constructor. }
  destruct (feeds_items tg cmd mx Start (repeat (IQuoted []) n) true [] 0 _
    Hok
    (pending_ready tg cmd mx Start 32 [] 0)) as (r & Hf & Hp); [by exists 32|lia|lia|].
  exists r. rewrite Hm, Hz in Hp. done.
Qed.
End Literals.
