(* ===== verification/ImapSequence.v ===== *)
(** * IMAP sequence sets

    The sequence-set parser of crates/imap-proto/src/parser/mod.rs, the type
    [Sequence] with its membership test and its expansion, and the writer
    [serialize_sequence] of crates/imap-proto/src/protocol/mod.rs.  The
    parser works on positions in its input, with the same state variables as
    the code. *)

From stdpp Require Import gmap sets.
From S2P Require Import Prelude Utf8 Decimals.
#[local] Open Scope Z_scope.

(** ** The type *)

(* [crates/imap-proto/src/protocol/mod.rs:88-100] Sequence *)
Inductive Sequence :=
| Number (value : Z)
| Range (start end_ : option Z)
| SavedSearch
| SList (items : list Sequence).

(* [crates/imap-proto/src/protocol/mod.rs:111-133] Sequence::contains *)
Fixpoint contains (s : Sequence) (value max_value : Z) : bool :=
  match s with
  | Number number => number =? value
  | Range (Some start) (Some end_) =>
      (start <=? value) && (value <=? end_) || (end_ <=? value) && (value <=? start)
  | Range (Some range) None | Range None (Some range) =>
      (range <=? value) && (value <=? max_value) || (max_value <=? value) && (value <=? range)
  | Range None None => value =? max_value
  | SList items => existsb (fun item => contains item value max_value) items
  | SavedSearch => false
  end.

(* [crates/imap-proto/src/protocol/mod.rs:135-141] Sequence::is_saved_search *)
Fixpoint is_saved_search (s : Sequence) : bool :=
  match s with
  | SavedSearch => true
  | SList items => existsb is_saved_search items
  | _ => false
  end.

(** [start..=end] for [start <= end]. *)
Definition inclusive (start end_ : Z) : gset Z := list_to_set (seqZ start (end_ - start + 1)).

(* [crates/imap-proto/src/protocol/mod.rs:173-189] Sequence::expand, a range *)
Definition expand_range (start end_ : option Z) (max_value : Z) : gset Z :=
  let start := match start with Some s => s | None => max_value end in
  let end_ := match end_ with Some e => e | None => max_value end in
  match Z.compare start end_ with
  | Eq => {[ start ]}
  | Datatypes.Lt => inclusive start end_
  | Datatypes.Gt => inclusive end_ start
  end.

(* [crates/imap-proto/src/protocol/mod.rs:149-169] Sequence::expand, an item *)
Definition expand_item (item : Sequence) (max_value : Z) : gset Z :=
  match item with
  | Number value => {[ value ]}
  | Range start end_ => expand_range start end_ max_value
  | _ => ∅
  end.

(* [crates/imap-proto/src/protocol/mod.rs:143-192] Sequence::expand *)
Definition expand (s : Sequence) (max_value : Z) : gset Z :=
  match s with
  | Number value => {[ value ]}
  | SList items => fold_left (fun result item => result ∪ expand_item item max_value) items ∅
  | Range start end_ => expand_range start end_ max_value
  | SavedSearch => ∅
  end.

(** ** The parser *)

Inductive SeqError :=
| NotUtf8
| NotANumber (s : list Z)
| ParseError
| NumberBeforeColon
| ColonTwice
| InvalidStar
| StarTwice
| AfterDollar
| InvalidCharacter (ch : Z) (pos : nat)
| ExpectedNumber
| EmptySet.

(* [crates/imap-proto/src/parser/mod.rs:214-222] parse_number *)
Definition parse_number (max : Z) (value : list Z) : result Z SeqError :=
  if valid value then
    match parse_unsigned max value with
    | Some n => Ok n
    | None => Err (NotANumber value)
    end
  else Err NotUtf8.

(** [value.get(from..to)]. *)
Definition get (value : list Z) (from to : nat) : option (list Z) :=
  if ((from <=? to) && (to <=? length value))%nat then Some (take (to - from) (drop from value))
  else None.

Record St := MkSt {
  sequence_set : list Sequence;
  range_start : option Z;
  token_start : option nat;
  is_wildcard : bool;
  is_range : bool;
  is_saved : bool
}.

Definition set_token (t : option nat) (s : St) : St :=
  MkSt (sequence_set s) (range_start s) t (is_wildcard s) (is_range s) (is_saved s).
Definition set_wildcard (b : bool) (s : St) : St :=
  MkSt (sequence_set s) (range_start s) (token_start s) b (is_range s) (is_saved s).

(** The number from the token's start up to [pos]. *)
Definition number_at (value : list Z) (from : nat) (pos : nat) : result Z SeqError :=
  match get value from pos with
  | Some s => parse_number u32_max s
  | None => Err ParseError
  end.

(** What one character does before an item may be added: an early return of
    the whole function, an error, or the new state and [add_token]. *)
Inductive Step := Done (s : Sequence) | Failed (e : SeqError) | Next (add_token : bool) (s : St).

(* [crates/imap-proto/src/parser/mod.rs:235-320] parse_sequence_set, match ch *)
Definition char_step (value : list Z) (pos : nat) (ch : Z) (st : St) : Step :=
  if ch =? c#"," then Next true st
  else if ch =? c#":" then
    if negb (is_range st) then
      match token_start st with
      | Some from_pos =>
          match number_at value from_pos pos with
          | Ok n => Next false (MkSt (sequence_set st) (Some n) None (is_wildcard st) true (is_saved st))
          | Err e => Failed e
          end
      | None =>
          if is_wildcard st then
            Next false (MkSt (sequence_set st) (range_start st) None false true (is_saved st))
          else Failed NumberBeforeColon
      end
    else Failed ColonTwice
  else if ch =? c#"*" then
    if negb (is_wildcard st) then
      if (length value =? 1)%nat then Done (Range None None)
      else match token_start st with
      | None => Next false (set_wildcard true st)
      | Some _ => Failed InvalidStar
      end
    else Failed StarTwice
  else if ch =? c#"$" then
    if (match value !! S pos with None => true | Some c => c =? c#"," end) then
      Next false (MkSt (sequence_set st) (range_start st) (token_start st) (is_wildcard st)
                    (is_range st) true)
    else Failed AfterDollar
  else if is_ascii_digit ch then
    if is_wildcard st then Failed InvalidStar
    else Next false (match token_start st with None => set_token (Some pos) st | Some _ => st end)
  else Failed (InvalidCharacter ch pos).

(* [crates/imap-proto/src/parser/mod.rs:322-391] parse_sequence_set, adding an item *)
Definition add_item (value : list Z) (pos : nat) (add_token : bool) (st : St) : result St SeqError :=
  let pos := if add_token then pos else S pos in
  let number := match token_start st with
                | Some from => number_at value from pos
                | None => Err ExpectedNumber
                end in
  if is_range st then
    let push e w := MkSt (sequence_set st ++ [Range (range_start st) e]) None None w false (is_saved st) in
    if negb (is_wildcard st) then
      match number with Ok n => Ok (push (Some n) (is_wildcard st)) | Err e => Err e end
    else Ok (push None false)
  else
    let push i w s := MkSt (sequence_set st ++ [i]) (range_start st) None w false s in
    if is_wildcard st then Ok (push (Range None None) false (is_saved st))
    else if is_saved st then Ok (push SavedSearch (is_wildcard st) false)
    else match number with Ok n => Ok (push (Number n) (is_wildcard st) (is_saved st)) | Err e => Err e end.

(* [crates/imap-proto/src/parser/mod.rs:234-392] parse_sequence_set, the loop *)
Fixpoint seq_loop (value : list Z) (pos : nat) (rest : list Z) (st : St) : result Sequence SeqError + St :=
  match rest with
  | [] => inr st
  | ch :: rest =>
      match char_step value pos ch st with
      | Done s => inl (Ok s)
      | Failed e => inl (Err e)
      | Next add_token st =>
          if add_token || (pos =? length value - 1)%nat then
            match add_item value pos add_token st with
            | Ok st => seq_loop value (S pos) rest st
            | Err e => inl (Err e)
            end
          else seq_loop value (S pos) rest st
      end
  end.

Definition initial : St := MkSt [] None None false false false.

(* [crates/imap-proto/src/parser/mod.rs:224-401] parse_sequence_set *)
Definition parse_sequence_set (value : list Z) : result Sequence SeqError :=
  match seq_loop value 0 value initial with
  | inl r => r
  | inr st =>
      match sequence_set st with
      | [s] => Ok s
      | [] => Err EmptySet
      | items => Ok (SList items)
      end
  end.

Example parse_ranges :
  parse_sequence_set s#"2,4:7,9,12:*" =
    Ok (SList [Number 2; Range (Some 4) (Some 7); Number 9; Range (Some 12) None]).
Proof. reflexivity. Qed.

Example parse_star_colon :
  parse_sequence_set s#"*:4,5:7" = Ok (SList [Range None (Some 4); Range (Some 5) (Some 7)]).
Proof. reflexivity. Qed.

(** A [$] after another token is taken for the saved search, and the number
    before it is lost; after [*$] it even replaces the next item. *)
Example saved_search_swallows :
  parse_sequence_set s#"17$" = Ok SavedSearch /\
  parse_sequence_set s#"*$,5" = Ok (SList [Range None None; SavedSearch]).
Proof. split; reflexivity. Qed.

(** ** The writer *)

(** The inner loop: extend the range while the next number follows;
    [range_id + 1] wraps at the top of the type in a release build (a debug
    build panics). *)
(* [crates/imap-proto/src/protocol/mod.rs:694-712] serialize_sequence, the inner loop *)
Fixpoint extend_range (range_id : Z) (ids : list Z) : Z * list Z :=
  match ids with
  | next_id :: rest =>
      if next_id =? wrap 32 (range_id + 1) then extend_range (wrap 32 (range_id + 1)) rest
      else (range_id, ids)
  | [] => (range_id, [])
  end.

(** Every turn takes a number, so the length of the list is enough fuel. *)
(* [crates/imap-proto/src/protocol/mod.rs:690-714] serialize_sequence *)
Fixpoint serialize_sequence (fuel : nat) (ids : list Z) : list Z :=
  match fuel, ids with
  | S fuel, id :: rest =>
      let '(range_id, rest) := extend_range id rest in
      print_decimal id ++
      (if negb (range_id =? id) then c#":" :: print_decimal range_id else []) ++
      (match rest with [] => [] | _ => [c#","] end) ++ serialize_sequence fuel rest
  | _, _ => []
  end.

Definition sequence_text (ids : list Z) : list Z := serialize_sequence (length ids) ids.

(** ** Membership and expansion *)

Definition single (s : Sequence) : Prop := match s with SList _ => False | _ => True end.
Definition flat (s : Sequence) : Prop := match s with SList items => Forall single items | _ => True end.

Lemma elem_of_inclusive v a b : v ∈ inclusive a b <-> a <= v <= b.
Proof. unfold inclusive. rewrite elem_of_list_to_set, elem_of_seqZ. lia. Qed.

Lemma elem_of_expand_range v start end_ m :
  let s := match start with Some s => s | None => m end in
  let e := match end_ with Some e => e | None => m end in
  v ∈ expand_range start end_ m <-> (s <= v <= e \/ e <= v <= s).
Proof.
  intros s e. unfold expand_range. fold s e. destruct (Z.compare_spec s e).
  - rewrite elem_of_singleton. lia.
  - rewrite elem_of_inclusive. lia.
  - rewrite elem_of_inclusive. lia.
Qed.

Lemma contains_single s v m : single s -> contains s v m = true <-> v ∈ expand_item s m.
Proof.
  intros Hs. destruct s as [n|[a|] [b|]| |]; simpl; try done.
  - rewrite elem_of_singleton. lia.
  - rewrite elem_of_expand_range. lia.
  - rewrite elem_of_expand_range. lia.
  - rewrite elem_of_expand_range. lia.
  - rewrite elem_of_expand_range. lia.
Qed.

Lemma elem_of_expand_items v items m r :
  v ∈ fold_left (fun result item => result ∪ expand_item item m) items r <->
  v ∈ r \/ Exists (fun i => v ∈ expand_item i m) items.
Proof.
  revert r. induction items as [|i items IH]; intros r; simpl.
  - rewrite Exists_nil. tauto.
  - rewrite IH, Exists_cons, elem_of_union. tauto.
Qed.

Lemma contains_flat s v m : flat s -> contains s v m = true <-> v ∈ expand s m.
Proof.
  destruct s as [n|a b| |items]; simpl; intros Hf.
  - by rewrite (contains_single (Number n) v m I).
  - by rewrite (contains_single (Range a b) v m I).
  - set_solver.
  - rewrite elem_of_expand_items, existsb_exists, Exists_exists. rewrite Forall_forall in Hf.
    split.
    + intros (i & Hi & Hc). right. exists i.
      split; [done|]. apply contains_single; [by apply Hf|done].
    + intros [?|(i & Hi & Hc)]; [set_solver|]. exists i.
      split; [done|]. apply contains_single; [by apply Hf|done].
Qed.

Lemma add_item_single value pos add st st' :
  add_item value pos add st = Ok st' -> Forall single (sequence_set st) -> Forall single (sequence_set st').
Proof.
  unfold add_item. intros H Hs.
  repeat match type of H with
  | (if ?b then _ else _) = _ => destruct b
  | match ?r with Ok _ => _ | Err _ => _ end = _ => destruct r
  end; simplify_eq/=; apply Forall_app; split; try done; by apply Forall_singleton.
Qed.

Lemma char_step_set value pos ch st add st' :
  char_step value pos ch st = Next add st' -> sequence_set st' = sequence_set st.
Proof.
  unfold char_step. intros H.
  repeat match type of H with
  | (if ?b then _ else _) = _ => destruct b
  | match ?r with _ => _ end = _ => destruct r
  end; simplify_eq/=; try done. by destruct (token_start st).
Qed.

Lemma char_step_done value pos ch st s : char_step value pos ch st = Done s -> single s.
Proof.
  unfold char_step. intros H.
  repeat match type of H with
  | (if ?b then _ else _) = _ => destruct b
  | match ?r with _ => _ end = _ => destruct r
  end; by simplify_eq/=.
Qed.

Lemma seq_loop_flat value rest : forall pos st,
  Forall single (sequence_set st) ->
  match seq_loop value pos rest st with
  | inl (Ok s) => flat s
  | inl (Err _) => True
  | inr st' => Forall single (sequence_set st')
  end.
Proof.
  induction rest as [|ch rest IH]; intros pos st Hs; [done|]. simpl.
  destruct (char_step value pos ch st) as [s|e|add st1] eqn:E; [|done|].
  - apply char_step_done in E. by destruct s.
  - rewrite <- (char_step_set _ _ _ _ _ _ E) in Hs.
    destruct (add || (pos =? length value - 1)%nat); [|by apply IH].
    destruct (add_item value pos add st1) as [st2|] eqn:E2; [|done].
    apply IH. by eapply add_item_single.
Qed.

Lemma parse_flat value s : parse_sequence_set value = Ok s -> flat s.
Proof.
  unfold parse_sequence_set. pose proof (seq_loop_flat value value 0 initial) as H.
  specialize (H ltac:(constructor)).
  destruct (seq_loop value 0 value initial) as [[s'|]|st]; intros E; simplify_eq; try done.
  destruct (sequence_set st) as [|i [|j l]]; simplify_eq; [|done].
  apply Forall_cons_1 in H as [H _]. by destruct s.
Qed.

(** For every sequence set that the parser accepts, the membership test
    and the expansion into a set of numbers agree, for any number and any
    maximum: ranges may be given in either order, and [*] is the maximum. *)
Theorem contains_expand text s v m :
  parse_sequence_set text = Ok s -> contains s v m = true <-> v ∈ expand s m.
Proof. intros H. apply contains_flat. by eapply parse_flat. Qed.

Lemma contains_expand_witness :
  exists s, parse_sequence_set s#"9:7,*" = Ok s /\ (contains s 8 12 = true <-> 8 ∈ expand s 12).
Proof.
  eexists. split; [reflexivity|]. exact (contains_expand s#"9:7,*" _ 8 12 eq_refl).
Defined.

(** ** Reading back what the writer writes *)

Definition is_nil (l : list Z) : bool := match l with [] => true | _ => false end.

Definition clean (acc : list Sequence) : St := MkSt acc None None false false false.

Lemma get_middle a b c : get (a ++ b ++ c) (length a) (length a + length b) = Some b.
Proof.
  unfold get. rewrite !length_app.
  replace ((_ <=? _) && _)%nat with true by (symmetry; apply andb_true_iff; split; apply Nat.leb_le; lia).
  rewrite drop_app_length. replace (length a + length b - length a)%nat with (length b) by lia.
  by rewrite take_app_length.
Qed.

Lemma number_at_print a n c :
  0 <= n <= u32_max ->
  number_at (a ++ print_decimal n ++ c) (length a) (length a + length (print_decimal n)) = Ok n.
Proof.
  intros Hn. unfold number_at. rewrite get_middle. unfold parse_number.
  assert (Forall ascii (print_decimal n)) as Ha.
  { eapply Forall_impl; [|apply print_decimal_digits; lia]. intros c' Hc%is_digit_range. unfold ascii. lia. }
  by rewrite (valid_ascii _ Ha), parse_print_unsigned by lia.
Qed.

(** A digit that is not the last character only marks the token's start. *)
Lemma char_step_digit value pos ch st :
  is_ascii_digit ch = true -> is_wildcard st = false ->
  char_step value pos ch st =
    Next false (match token_start st with None => set_token (Some pos) st | Some _ => st end).
Proof.
  intros Hd Hw. unfold char_step. pose proof Hd as Hr. apply is_digit_range in Hr.
  replace (ch =? c#",") with false by lia. replace (ch =? c#":") with false by lia.
  replace (ch =? c#"*") with false by lia. replace (ch =? c#"$") with false by lia.
  by rewrite Hd, Hw.
Qed.

Definition start_token (pos : nat) (st : St) : St :=
  match token_start st with None => set_token (Some pos) st | Some _ => st end.

Lemma seq_loop_digits value d rest : forall pos st,
  digits d -> d <> [] -> is_wildcard st = false ->
  (rest <> [] -> (pos + length d < length value)%nat) ->
  (rest = [] -> length value = (pos + length d)%nat) ->
  seq_loop value pos (d ++ rest) st =
  match rest with
  | [] => match add_item value (length value - 1) false (start_token pos st) with
          | Ok st => inr st | Err e => inl (Err e) end
  | _ => seq_loop value (pos + length d) rest (start_token pos st)
  end.
Proof.
  induction d as [|c d IH]; intros pos st Hd Hne Hw Hlt Heq; [done|].
  apply Forall_cons_1 in Hd as [Hc Hd]. cbn [app seq_loop].
  rewrite (char_step_digit value pos c st Hc Hw). fold (start_token pos st). cbn [orb].
  assert (is_wildcard (start_token pos st) = false) as Hw'
    by (unfold start_token; by destruct (token_start st)).
  assert (start_token (S pos) (start_token pos st) = start_token pos st) as Hst.
  { unfold start_token. by destruct (token_start st) eqn:E; simpl; rewrite ?E. }
  simpl length in *. destruct d as [|c' d].
  - cbn [app]. simpl length in *. destruct rest as [|x rest].
    + specialize (Heq eq_refl). replace (length value - 1)%nat with pos by lia.
      rewrite Nat.eqb_refl. by destruct (add_item value pos false (start_token pos st)).
    + specialize (Hlt ltac:(done)). rewrite (proj2 (Nat.eqb_neq pos (length value - 1))) by lia.
      by replace (pos + 1)%nat with (S pos) by lia.
  - simpl length in *.
    assert (pos <> length value - 1)%nat as Hnl.
    { destruct rest; [specialize (Heq eq_refl)|specialize (Hlt ltac:(done))]; lia. }
    rewrite (proj2 (Nat.eqb_neq pos (length value - 1))) by done.
    rewrite IH; [|done|done|done|intros H; specialize (Hlt H); simpl; lia|
      intros H; specialize (Heq H); simpl; lia].
    rewrite Hst. simpl length.
    by replace (S pos + S (length d))%nat with (pos + S (S (length d)))%nat by lia.
Qed.

(** One item of the writer: a number or a range. *)
Definition item_text (lo hi : Z) : list Z :=
  print_decimal lo ++ (if negb (hi =? lo) then c#":" :: print_decimal hi else []).
Definition item (lo hi : Z) : Sequence :=
  if negb (hi =? lo) then Range (Some lo) (Some hi) else Number lo.

Lemma comma_step value pos rest st st' :
  add_item value pos true st = Ok st' ->
  seq_loop value pos (c#"," :: rest) st = seq_loop value (S pos) rest st'.
Proof. intros E. cbn [seq_loop]. change (char_step value pos c#"," st) with (Next true st). cbn [orb]. by rewrite E. Qed.

Lemma colon_step value pos rest acc from n :
  number_at value from pos = Ok n -> (pos <> length value - 1)%nat ->
  seq_loop value pos (c#":" :: rest) (set_token (Some from) (clean acc)) =
  seq_loop value (S pos) rest (MkSt acc (Some n) None false true false).
Proof.
  intros E Hl. cbn [seq_loop]. unfold char_step; cbn [Z.eqb Pos.eqb is_range clean set_token negb token_start].
  rewrite E. cbn [orb]. by rewrite (proj2 (Nat.eqb_neq pos (length value - 1))) by done.
Qed.

(** A number that is the last token of an item, in a single item or in the
    second place of a range; [post] is what follows the item. *)
Lemma last_number value a n post st :
  value = a ++ print_decimal n ++ post -> 0 <= n <= u32_max ->
  is_wildcard st = false -> token_start st = None -> is_saved st = false ->
  (post = [] \/ exists r, post = c#"," :: r) ->
  seq_loop value (length a) (print_decimal n ++ post) st =
  seq_loop value (length a + length (print_decimal n) + (if is_nil post then 0 else 1)) (drop 1 post)
    (MkSt (sequence_set st ++ [if is_range st then Range (range_start st) (Some n) else Number n])
       (if is_range st then None else range_start st) None false false false).
Proof.
  intros Hv Hn Hw Ht Hs Hpost.
  pose proof (number_at_print a n post Hn) as Hnum. rewrite <- Hv in Hnum.
  assert (length value = length a + length (print_decimal n) + length post)%nat as Hlen
    by (rewrite Hv, !length_app; lia).
  rewrite seq_loop_digits; [|apply print_decimal_digits; lia|apply print_decimal_nonempty|done| |].
  2: { intros Hne. rewrite Hlen. destruct post; [done|]. simpl. lia. }
  2: { intros ->. simpl in *. lia. }
  unfold start_token. rewrite Ht.
  destruct Hpost as [->|[r ->]].
  - unfold add_item. cbn [token_start set_token is_range is_wildcard is_saved].
    assert (length (print_decimal n) <> 0)%nat.
    { pose proof (print_decimal_nonempty n). destruct (print_decimal n); simpl; [done|lia]. }
    simpl length in Hlen. replace (S (length value - 1)) with (length a + length (print_decimal n))%nat by lia.
    rewrite Hnum, Hw, Hs. by destruct (is_range st).
  - cbn [drop is_nil].
    replace (length a + length (print_decimal n) + 1)%nat with (S (length a + length (print_decimal n))) by lia.
    apply comma_step. unfold add_item. cbn [token_start set_token is_range is_wildcard is_saved].
    rewrite Hnum, Hw, Hs. by destruct (is_range st).
Qed.

Lemma item_loop value a lo hi post acc :
  value = a ++ item_text lo hi ++ post -> 0 <= lo <= u32_max -> 0 <= hi <= u32_max ->
  (post = [] \/ exists r, post = c#"," :: r) ->
  seq_loop value (length a) (item_text lo hi ++ post) (clean acc) =
  seq_loop value (length a + length (item_text lo hi) + (if is_nil post then 0 else 1)) (drop 1 post)
    (clean (acc ++ [item lo hi])).
Proof.
  intros Hv Hlo Hhi Hpost. unfold item_text, item in *. destruct (negb (hi =? lo)).
  - set (d1 := print_decimal lo) in *. set (d2 := print_decimal hi) in *.
    rewrite <- app_assoc in *. cbn [app] in *.
    assert (d1 <> [] /\ d2 <> []) as [Hd1 Hd2] by (split; apply print_decimal_nonempty).
    assert (length value = length a + length d1 + S (length d2) + length post)%nat as Hlen.
    { rewrite Hv, !length_app. simpl. rewrite length_app. lia. }
    assert (length d2 <> 0)%nat by (destruct d2; simpl; [done|lia]).
    rewrite seq_loop_digits; [|apply print_decimal_digits; lia|done|done|intros _; lia|done].
    unfold start_token; cbn [clean token_start].
    erewrite colon_step; [| |lia].
    2: { rewrite Hv. apply (number_at_print a lo). lia. }
    replace (S (length a + length d1)) with (length (a ++ d1 ++ s#":"))
      by (rewrite !length_app; simpl; lia).
    rewrite (last_number value (a ++ d1 ++ s#":") hi post);
      [|rewrite Hv, <- !app_assoc; done|lia|done|done|done|done].
    cbn [is_range range_start sequence_set]. unfold clean. f_equal.
    fold d2. rewrite !length_app. simpl. lia.
  - rewrite app_nil_r in *. rewrite (last_number value a lo post); [|done|lia|done|done|done|done].
    done.
Qed.

Lemma extend_range_spec ids : forall id,
  0 <= id < u32_max -> Forall (fun i => 0 <= i < u32_max) ids ->
  let '(hi, rest) := extend_range id ids in
  id <= hi < u32_max /\ exists run, ids = run ++ rest /\ forall v, In v (id :: run) <-> id <= v <= hi.
Proof.
  induction ids as [|n ids IH]; intros id Hid Hids.
  - split; [lia|]. exists []. split; [done|]. intros v. simpl. lia.
  - apply Forall_cons_1 in Hids as [Hn Hids]. cbn [extend_range].
    rewrite (wrap_small 32 (id + 1)) by (unfold in_width, u32_max in *; lia).
    destruct (Z.eqb_spec n (id + 1)) as [->|Hne].
    + specialize (IH (id + 1) Hn Hids). destruct (extend_range (id + 1) ids) as [hi rest].
      destruct IH as (Hr & run & -> & Hin). split; [lia|].
      exists (id + 1 :: run). split; [done|]. intros v.
      change (In v (id :: id + 1 :: run)) with (id = v \/ In v (id + 1 :: run)). rewrite Hin. lia.
    + split; [lia|]. exists []. split; [done|]. intros v. simpl. lia.
Qed.

(** The items that the writer gives. *)
Fixpoint seq_items (fuel : nat) (ids : list Z) : list Sequence :=
  match fuel, ids with
  | S fuel, id :: rest =>
      let '(hi, rest) := extend_range id rest in item id hi :: seq_items fuel rest
  | _, _ => []
  end.

Lemma serialize_loop value : forall fuel ids a acc,
  value = a ++ serialize_sequence fuel ids -> ids <> [] -> (length ids <= fuel)%nat ->
  Forall (fun i => 0 <= i < u32_max) ids ->
  seq_loop value (length a) (serialize_sequence fuel ids) (clean acc) =
    inr (clean (acc ++ seq_items fuel ids)) /\
  forall v m, Exists (fun i => v ∈ expand_item i m) (seq_items fuel ids) <-> In v ids.
Proof.
  induction fuel as [|fuel IH]; intros ids a acc Hv Hne Hl Hids.
  { destruct ids; simpl in *; [done|lia]. }
  destruct ids as [|id ids]; [done|]. apply Forall_cons_1 in Hids as [Hid Hids].
  cbn [serialize_sequence seq_items] in *.
  pose proof (extend_range_spec ids id Hid Hids) as He.
  destruct (extend_range id ids) as [hi rest]. destruct He as (Hhi & run & -> & Hin).
  assert (forall v m, v ∈ expand_item (item id hi) m <-> id <= v <= hi) as Hitem.
  { intros v m. unfold item. destruct (Z.eqb_spec hi id); simpl.
    - rewrite elem_of_singleton. lia.
    - rewrite elem_of_expand_range. lia. }
  rewrite (app_assoc (print_decimal id)) in *. fold (item_text id hi) in *.
  destruct rest as [|r rest].
  - assert (serialize_sequence fuel [] = []) as Hs by (by destruct fuel). rewrite Hs in *.
    assert (seq_items fuel [] = []) as Hi by (by destruct fuel). rewrite Hi.
    cbn [app] in *. split.
    + rewrite (item_loop value a id hi []); [done|done|lia|lia|by left].
    + intros v m. rewrite Exists_cons, Exists_nil, Hitem, app_nil_r, Hin. tauto.
  - apply Forall_app in Hids as [_ Hrest]. rewrite length_cons, length_app in Hl.
    destruct (IH (r :: rest) (a ++ item_text id hi ++ s#",") (acc ++ [item id hi])) as [Hloop Hex];
      [rewrite Hv, <- !app_assoc; done|done|simpl in *; lia|done|].
    split.
    + rewrite (item_loop value a id hi (s#"," ++ serialize_sequence fuel (r :: rest)));
        [|done|lia|lia|right; by eexists].
      cbn [app is_nil drop].
      replace (length a + length (item_text id hi) + 1)%nat with (length (a ++ item_text id hi ++ s#","))
        by (rewrite !length_app; simpl; lia).
      rewrite drop_0, Hloop, <- app_assoc. done.
    + intros v m. rewrite Exists_cons, Hitem, Hex.
      change (id :: run ++ r :: rest) with ((id :: run) ++ r :: rest).
      rewrite in_app_iff, Hin. tauto.
Qed.

(** C38: The text that the server writes for a list of message numbers - runs
    of consecutive numbers become ranges - is accepted by the server's own
    parser and stands for exactly the numbers of the list. *)
Theorem sequence_roundtrip ids m :
  ids <> [] -> Forall (fun i => 0 <= i < u32_max) ids ->
  exists s, parse_sequence_set (sequence_text ids) = Ok s /\
    (forall v, v ∈ expand s m <-> In v ids) /\ (forall v, contains s v m = true <-> In v ids) /\
    is_saved_search s = false.
Proof.
  intros Hne Hids. unfold parse_sequence_set, sequence_text.
  destruct (serialize_loop (serialize_sequence (length ids) ids) (length ids) ids [] [])
    as [Hloop Hex]; [done|done|lia|done|].
  simpl length in Hloop. fold initial. change initial with (clean []). rewrite Hloop. cbn [app sequence_set clean].
  assert (Forall (fun i => single i /\ is_saved_search i = false) (seq_items (length ids) ids)) as Hs.
  { generalize (length ids) as fuel. clear. intros fuel. revert ids.
    induction fuel as [|fuel IH]; intros [|id ids]; simpl; try constructor.
    destruct (extend_range id ids). constructor; [|apply IH].
    unfold item. by destruct (negb _). }
  assert (forall s, flat s -> (forall v, v ∈ expand s m <-> In v ids) ->
    (forall v, contains s v m = true <-> In v ids)) as Hc.
  { intros s Hf H v. by rewrite (contains_flat s v m Hf). }
  destruct (seq_items (length ids) ids) as [|i [|j l]] eqn:E.
  - destruct ids; [done|]. simpl in E. by destruct (extend_range z ids).
  - apply Forall_cons_1 in Hs as [[Hs Hn] _].
    assert (forall v, v ∈ expand i m <-> In v ids) as H.
    { intros v. rewrite <- (Hex v m), Exists_cons, Exists_nil. destruct i; try done; simpl; tauto. }
    exists i. split_and!; try done. apply Hc; [by destruct i|done].
  - assert (forall v, v ∈ expand (SList (i :: j :: l)) m <-> In v ids) as H.
    { intros v. rewrite <- (Hex v m). cbn [expand]. rewrite elem_of_expand_items. set_solver. }
    exists (SList (i :: j :: l)). split_and!; try done.
    + apply Hc; [|done]. eapply Forall_impl; [|exact Hs]. by intros x [? _].
    + cbn [is_saved_search]. rewrite <- not_true_iff_false, existsb_exists. intros (x & Hx & Hsv).
      rewrite Forall_forall in Hs. destruct (Hs x Hx). congruence.
Qed.

Lemma sequence_roundtrip_witness :
  sequence_text [4; 5; 6; 9; 2] = s#"4:6,9,2" /\
  exists s, parse_sequence_set (sequence_text [4; 5; 6; 9; 2]) = Ok s /\
    (forall v, v ∈ expand s 9 <-> In v [4; 5; 6; 9; 2]) /\
    (forall v, contains s v 9 = true <-> In v [4; 5; 6; 9; 2]) /\ is_saved_search s = false.
Proof.
  split; [reflexivity|]. apply sequence_roundtrip; [discriminate|].
  repeat constructor; vm_compute; congruence.
Defined.
