(* ===== verification/ImapCommand.v ===== *)
(** * IMAP commands, flags and status responses

    The tables of crates/imap-proto: the commands and their names
    (src/lib.rs, src/parser/mod.rs, src/protocol/mod.rs), the message flags
    with their IMAP and JMAP texts and their conversion to and from store
    keywords, the capabilities and SASL mechanisms, and the status responses.
    [Command] implements the interface that the receiver asks of a command
    type.  Constructors whose name another file or type has carry a prefix. *)

From S2P Require Import Prelude Utf8 Decimals JmapId Keyword ImapReceiver ImapSequence.

(** ** Commands *)

(* [crates/imap-proto/src/lib.rs:17-81] Command *)
Inductive Command :=
| CmdCapability
| CmdNoop
| CmdLogout
| CmdStartTls
| CmdAuthenticate
| CmdLogin
| CmdEnable
| CmdSelect
| CmdExamine
| CmdCreate
| CmdDelete
| CmdRename
| CmdSubscribe
| CmdUnsubscribe
| CmdList
| CmdNamespace
| CmdStatus
| CmdAppend
| CmdIdle
| CmdClose
| CmdUnselect
| CmdExpunge (uid : bool)
| CmdSearch (uid : bool)
| CmdFetch (uid : bool)
| CmdStore (uid : bool)
| CmdCopy (uid : bool)
| CmdMove (uid : bool)
| CmdLsub
| CmdCheck
| CmdSort (uid : bool)
| CmdThread (uid : bool)
| CmdSetAcl
| CmdDeleteAcl
| CmdGetAcl
| CmdListRights
| CmdMyRights
| CmdUnauthenticate
| CmdId
| CmdGetQuota
| CmdGetQuotaRoot
| CmdGetJmapAccess.

#[export] Instance Command_eq_dec : EqDecision Command.
Proof. solve_decision. Defined.

(* [crates/imap-proto/src/lib.rs:84-96] Command::is_uid *)
Definition is_uid (c : Command) : bool :=
  match c with
  | CmdFetch true | CmdSearch true | CmdCopy true | CmdMove true | CmdStore true | CmdExpunge true | CmdSort true | CmdThread true => true
  | _ => false
  end.

(* [crates/imap-proto/src/parser/mod.rs:41-85] Command::parse *)
Definition command_parse (value : list Z) (uid : bool) : option Command :=
  tiny_map
    [ (s#"CAPABILITY", CmdCapability);
      (s#"NOOP", CmdNoop);
      (s#"LOGOUT", CmdLogout);
      (s#"STARTTLS", CmdStartTls);
      (s#"AUTHENTICATE", CmdAuthenticate);
      (s#"LOGIN", CmdLogin);
      (s#"ENABLE", CmdEnable);
      (s#"SELECT", CmdSelect);
      (s#"EXAMINE", CmdExamine);
      (s#"CREATE", CmdCreate);
      (s#"DELETE", CmdDelete);
      (s#"RENAME", CmdRename);
      (s#"SUBSCRIBE", CmdSubscribe);
      (s#"UNSUBSCRIBE", CmdUnsubscribe);
      (s#"LIST", CmdList);
      (s#"NAMESPACE", CmdNamespace);
      (s#"STATUS", CmdStatus);
      (s#"APPEND", CmdAppend);
      (s#"IDLE", CmdIdle);
      (s#"CLOSE", CmdClose);
      (s#"UNSELECT", CmdUnselect);
      (s#"EXPUNGE", CmdExpunge uid);
      (s#"SEARCH", CmdSearch uid);
      (s#"FETCH", CmdFetch uid);
      (s#"STORE", CmdStore uid);
      (s#"COPY", CmdCopy uid);
      (s#"MOVE", CmdMove uid);
      (s#"SORT", CmdSort uid);
      (s#"THREAD", CmdThread uid);
      (s#"LSUB", CmdLsub);
      (s#"CHECK", CmdCheck);
      (s#"SETACL", CmdSetAcl);
      (s#"DELETEACL", CmdDeleteAcl);
      (s#"GETACL", CmdGetAcl);
      (s#"LISTRIGHTS", CmdListRights);
      (s#"MYRIGHTS", CmdMyRights);
      (s#"UNAUTHENTICATE", CmdUnauthenticate);
      (s#"ID", CmdId);
      (s#"GETQUOTA", CmdGetQuota);
      (s#"GETQUOTAROOT", CmdGetQuotaRoot);
      (s#"GETJMAPACCESS", CmdGetJmapAccess) ]
    value.

(* [crates/imap-proto/src/parser/mod.rs:88-90] Command::tokenize_brackets *)
Definition command_tokenize_brackets (c : Command) : bool :=
  match c with CmdFetch _ => true | _ => false end.

(* [crates/imap-proto/src/parser/mod.rs:40-91] CommandParser for Command *)
#[export] Instance Command_parser : CommandParser Command := {
  cmd_parse := command_parse;
  tokenize_brackets := command_tokenize_brackets;
  cmd_default := CmdNoop
}.

(* [crates/imap-proto/src/protocol/mod.rs:716-770] Display for Command *)
Definition command_to_string (c : Command) : list Z :=
  match c with
  | CmdCapability => s#"CAPABILITY"
  | CmdNoop => s#"NOOP"
  | CmdLogout => s#"LOGOUT"
  | CmdStartTls => s#"STARTTLS"
  | CmdAuthenticate => s#"AUTHENTICATE"
  | CmdLogin => s#"LOGIN"
  | CmdEnable => s#"ENABLE"
  | CmdSelect => s#"SELECT"
  | CmdExamine => s#"EXAMINE"
  | CmdCreate => s#"CREATE"
  | CmdDelete => s#"DELETE"
  | CmdRename => s#"RENAME"
  | CmdSubscribe => s#"SUBSCRIBE"
  | CmdUnsubscribe => s#"UNSUBSCRIBE"
  | CmdList => s#"LIST"
  | CmdNamespace => s#"NAMESPACE"
  | CmdStatus => s#"STATUS"
  | CmdAppend => s#"APPEND"
  | CmdIdle => s#"IDLE"
  | CmdClose => s#"CLOSE"
  | CmdUnselect => s#"UNSELECT"
  | CmdExpunge false => s#"EXPUNGE"
  | CmdSearch false => s#"SEARCH"
  | CmdFetch false => s#"FETCH"
  | CmdStore false => s#"STORE"
  | CmdCopy false => s#"COPY"
  | CmdMove false => s#"MOVE"
  | CmdSort false => s#"SORT"
  | CmdThread false => s#"THREAD"
  | CmdExpunge true => s#"UID EXPUNGE"
  | CmdSearch true => s#"UID SEARCH"
  | CmdFetch true => s#"UID FETCH"
  | CmdStore true => s#"UID STORE"
  | CmdCopy true => s#"UID COPY"
  | CmdMove true => s#"UID MOVE"
  | CmdSort true => s#"UID SORT"
  | CmdThread true => s#"UID THREAD"
  | CmdLsub => s#"LSUB"
  | CmdCheck => s#"CHECK"
  | CmdSetAcl => s#"SETACL"
  | CmdDeleteAcl => s#"DELETEACL"
  | CmdGetAcl => s#"GETACL"
  | CmdListRights => s#"LISTRIGHTS"
  | CmdMyRights => s#"MYRIGHTS"
  | CmdUnauthenticate => s#"UNAUTHENTICATE"
  | CmdId => s#"ID"
  | CmdGetQuota => s#"GETQUOTA"
  | CmdGetQuotaRoot => s#"GETQUOTAROOT"
  | CmdGetJmapAccess => s#"GETJMAPACCESS"
  end.

(** ** Message flags *)

(* [crates/imap-proto/src/protocol/mod.rs:276-307] Flag *)
Inductive Flag :=
| FSeen
| FDraft
| FFlagged
| FAnswered
| FRecent
| FImportant
| FPhishing
| FJunk
| FNotJunk
| FDeleted
| FForwarded
| FMDNSent
| FAutosent
| FCanUnsubscribe
| FFollowed
| FHasAttachment
| FHasMemo
| FHasNoAttachment
| FImported
| FIsTrusted
| FMailFlagBit0
| FMailFlagBit1
| FMailFlagBit2
| FMaskedEmail
| FMemo
| FMuted
| FNew
| FNotify
| FUnsubscribed
| FKeyword (s : list Z).

#[export] Instance Flag_eq_dec : EqDecision Flag.
Proof. solve_decision. Defined.

(* [crates/imap-proto/src/parser/mod.rs:97-126] Flag::parse_imap, the table *)
Definition imap_flags : list (list Z * Flag) :=
  [ (s#"\Seen", FSeen);
    (s#"\Answered", FAnswered);
    (s#"\Flagged", FFlagged);
    (s#"\Deleted", FDeleted);
    (s#"\Draft", FDraft);
    (s#"\Recent", FRecent);
    (s#"\Important", FImportant);
    (s#"$Forwarded", FForwarded);
    (s#"$MDNSent", FMDNSent);
    (s#"$Junk", FJunk);
    (s#"$NotJunk", FNotJunk);
    (s#"$Phishing", FPhishing);
    (s#"$Important", FImportant);
    (s#"$autosent", FAutosent);
    (s#"$canunsubscribe", FCanUnsubscribe);
    (s#"$followed", FFollowed);
    (s#"$hasattachment", FHasAttachment);
    (s#"$hasmemo", FHasMemo);
    (s#"$hasnoattachment", FHasNoAttachment);
    (s#"$imported", FImported);
    (s#"$istrusted", FIsTrusted);
    (s#"$MailFlagBit0", FMailFlagBit0);
    (s#"$MailFlagBit1", FMailFlagBit1);
    (s#"$MailFlagBit2", FMailFlagBit2);
    (s#"$maskedemail", FMaskedEmail);
    (s#"$memo", FMemo);
    (s#"$muted", FMuted);
    (s#"$new", FNew);
    (s#"$notify", FNotify);
    (s#"$unsubscribed", FUnsubscribed) ].

Inductive FlagError := InvalidUtf8 | NullFlag.

(* [crates/imap-proto/src/parser/mod.rs:94-139] Flag::parse_imap *)
Definition parse_imap (value : list Z) : result Flag FlagError :=
  match value with
  | [] => Err NullFlag
  | _ =>
      match tiny_map_ignore_case imap_flags value with
      | Some flag => Ok flag
      | None => if valid value then Ok (FKeyword value) else Err InvalidUtf8
      end
  end.

(* [crates/imap-proto/src/parser/mod.rs:144-172] Flag::parse_jmap, the table *)
Definition jmap_flags : list (list Z * Flag) :=
  [ (s#"$seen", FSeen);
    (s#"$draft", FDraft);
    (s#"$flagged", FFlagged);
    (s#"$answered", FAnswered);
    (s#"$recent", FRecent);
    (s#"$important", FImportant);
    (s#"$phishing", FPhishing);
    (s#"$junk", FJunk);
    (s#"$notjunk", FNotJunk);
    (s#"$deleted", FDeleted);
    (s#"$forwarded", FForwarded);
    (s#"$mdnsent", FMDNSent);
    (s#"$autosent", FAutosent);
    (s#"$canunsubscribe", FCanUnsubscribe);
    (s#"$followed", FFollowed);
    (s#"$hasattachment", FHasAttachment);
    (s#"$hasmemo", FHasMemo);
    (s#"$hasnoattachment", FHasNoAttachment);
    (s#"$imported", FImported);
    (s#"$istrusted", FIsTrusted);
    (s#"$MailFlagBit0", FMailFlagBit0);
    (s#"$MailFlagBit1", FMailFlagBit1);
    (s#"$MailFlagBit2", FMailFlagBit2);
    (s#"$maskedemail", FMaskedEmail);
    (s#"$memo", FMemo);
    (s#"$muted", FMuted);
    (s#"$new", FNew);
    (s#"$notify", FNotify);
    (s#"$unsubscribed", FUnsubscribed) ].

(** The characters of a valid text that are not ASCII letters or digits
    become underscores. *)
(* [crates/imap-proto/src/parser/mod.rs:141-186] Flag::parse_jmap *)
Definition parse_jmap (value : list Z) : Flag :=
  if (match value with c :: _ => c =? c#"$" | [] => false end) then
    match tiny_map_ignore_case jmap_flags value with
    | Some flag => flag
    | None => FKeyword value
    end
  else
    FKeyword (encode ((fun c => if is_ascii_alphanumeric c then c else c#"_") <$>
      match decode value with Some cs => cs | None => [] end)).

(* [crates/imap-proto/src/protocol/mod.rs:310-343] Flag::serialize *)
Definition flag_serialize (f : Flag) : list Z :=
  match f with
  | FSeen => s#"\Seen"
  | FDraft => s#"\Draft"
  | FFlagged => s#"\Flagged"
  | FAnswered => s#"\Answered"
  | FRecent => s#"\Recent"
  | FImportant => s#"\Important"
  | FPhishing => s#"$Phishing"
  | FJunk => s#"$Junk"
  | FNotJunk => s#"$NotJunk"
  | FDeleted => s#"\Deleted"
  | FForwarded => s#"$Forwarded"
  | FMDNSent => s#"$MDNSent"
  | FAutosent => s#"$autosent"
  | FCanUnsubscribe => s#"$canunsubscribe"
  | FFollowed => s#"$followed"
  | FHasAttachment => s#"$hasattachment"
  | FHasMemo => s#"$hasmemo"
  | FHasNoAttachment => s#"$hasnoattachment"
  | FImported => s#"$imported"
  | FIsTrusted => s#"$istrusted"
  | FMailFlagBit0 => s#"$MailFlagBit0"
  | FMailFlagBit1 => s#"$MailFlagBit1"
  | FMailFlagBit2 => s#"$MailFlagBit2"
  | FMaskedEmail => s#"$maskedemail"
  | FMemo => s#"$memo"
  | FMuted => s#"$muted"
  | FNew => s#"$new"
  | FNotify => s#"$notify"
  | FUnsubscribed => s#"$unsubscribed"
  | FKeyword keyword => keyword
  end.

(* [crates/imap-proto/src/protocol/mod.rs:346-381] From<Keyword> for Flag *)
Definition flag_of_keyword (k : Keyword) : Flag :=
  match k with
  | Keyword.Seen => FSeen
  | Keyword.Draft => FDraft
  | Keyword.Flagged => FFlagged
  | Keyword.Answered => FAnswered
  | Keyword.Recent => FRecent
  | Keyword.Important => FImportant
  | Keyword.Phishing => FPhishing
  | Keyword.Junk => FJunk
  | Keyword.NotJunk => FNotJunk
  | Keyword.Deleted => FDeleted
  | Keyword.Forwarded => FForwarded
  | Keyword.MdnSent => FMDNSent
  | Keyword.Autosent => FAutosent
  | Keyword.CanUnsubscribe => FCanUnsubscribe
  | Keyword.Followed => FFollowed
  | Keyword.HasAttachment => FHasAttachment
  | Keyword.HasMemo => FHasMemo
  | Keyword.HasNoAttachment => FHasNoAttachment
  | Keyword.Imported => FImported
  | Keyword.IsTrusted => FIsTrusted
  | Keyword.MailFlagBit0 => FMailFlagBit0
  | Keyword.MailFlagBit1 => FMailFlagBit1
  | Keyword.MailFlagBit2 => FMailFlagBit2
  | Keyword.MaskedEmail => FMaskedEmail
  | Keyword.Memo => FMemo
  | Keyword.Muted => FMuted
  | Keyword.New => FNew
  | Keyword.Notify => FNotify
  | Keyword.Unsubscribed => FUnsubscribed
  | Keyword.Other value => FKeyword value
  end.

(* [crates/imap-proto/src/protocol/mod.rs:420-455] From<Flag> for Keyword *)
Definition keyword_of_flag (f : Flag) : Keyword :=
  match f with
  | FSeen => Keyword.Seen
  | FDraft => Keyword.Draft
  | FFlagged => Keyword.Flagged
  | FAnswered => Keyword.Answered
  | FRecent => Keyword.Recent
  | FImportant => Keyword.Important
  | FPhishing => Keyword.Phishing
  | FJunk => Keyword.Junk
  | FNotJunk => Keyword.NotJunk
  | FDeleted => Keyword.Deleted
  | FForwarded => Keyword.Forwarded
  | FMDNSent => Keyword.MdnSent
  | FAutosent => Keyword.Autosent
  | FCanUnsubscribe => Keyword.CanUnsubscribe
  | FFollowed => Keyword.Followed
  | FHasAttachment => Keyword.HasAttachment
  | FHasMemo => Keyword.HasMemo
  | FHasNoAttachment => Keyword.HasNoAttachment
  | FImported => Keyword.Imported
  | FIsTrusted => Keyword.IsTrusted
  | FMailFlagBit0 => Keyword.MailFlagBit0
  | FMailFlagBit1 => Keyword.MailFlagBit1
  | FMailFlagBit2 => Keyword.MailFlagBit2
  | FMaskedEmail => Keyword.MaskedEmail
  | FMemo => Keyword.Memo
  | FMuted => Keyword.Muted
  | FNew => Keyword.New
  | FNotify => Keyword.Notify
  | FUnsubscribed => Keyword.Unsubscribed
  | FKeyword value => from_boxed_other value
  end.

(** ** Capabilities and SASL mechanisms *)

(* [crates/imap-proto/src/protocol/authenticate.rs:15-28] Mechanism *)
Inductive Mechanism :=
| MechPlain
| MechCramMd5
| MechDigestMd5
| MechScramSha1
| MechScramSha256
| MechApop
| MechNtlm
| MechGssapi
| MechAnonymous
| MechExternal
| MechOAuthBearer
| MechXOauth2.

(* [crates/imap-proto/src/protocol/authenticate.rs:31-46] Mechanism::serialize *)
Definition mechanism_serialize (m : Mechanism) : list Z :=
  match m with
  | MechPlain => s#"PLAIN"
  | MechCramMd5 => s#"CRAM-MD5"
  | MechDigestMd5 => s#"DIGEST-MD5"
  | MechScramSha1 => s#"SCRAM-SHA-1"
  | MechScramSha256 => s#"SCRAM-SHA-256"
  | MechApop => s#"APOP"
  | MechNtlm => s#"NTLM"
  | MechGssapi => s#"GSSAPI"
  | MechAnonymous => s#"ANONYMOUS"
  | MechExternal => s#"EXTERNAL"
  | MechOAuthBearer => s#"OAUTHBEARER"
  | MechXOauth2 => s#"XOAUTH2"
  end.

(* [crates/imap-proto/src/parser/authenticate.rs:34-56] Mechanism::parse *)
Definition mechanism_parse (value : list Z) : option Mechanism :=
  tiny_map_ignore_case
    [ (s#"PLAIN", MechPlain);
      (s#"CRAM-MD5", MechCramMd5);
      (s#"DIGEST-MD5", MechDigestMd5);
      (s#"SCRAM-SHA-1", MechScramSha1);
      (s#"SCRAM-SHA-256", MechScramSha256);
      (s#"APOP", MechApop);
      (s#"NTLM", MechNtlm);
      (s#"GSSAPI", MechGssapi);
      (s#"ANONYMOUS", MechAnonymous);
      (s#"EXTERNAL", MechExternal);
      (s#"OAUTHBEARER", MechOAuthBearer);
      (s#"XOAUTH2", MechXOauth2) ]
    value.

(* [crates/imap-proto/src/protocol/capability.rs:60-65] QuotaResourceName *)
Inductive QuotaResourceName :=
| ResStorage
| ResMessage
| ResMailbox
| ResAnnotationStorage.

(* [crates/imap-proto/src/protocol/capability.rs:15-57] Capability *)
Inductive Capability :=
| CapIMAP4rev2
| CapIMAP4rev1
| CapStartTLS
| CapLoginDisabled
| CapIdle
| CapNamespace
| CapId
| CapRights
| CapChildren
| CapMultiAppend
| CapBinary
| CapUnselect
| CapACL
| CapUIDPlus
| CapESearch
| CapSASLIR
| CapWithin
| CapEnable
| CapSearchRes
| CapSort
| CapThread
| CapListExtended
| CapListStatus
| CapESort
| CapSortDisplay
| CapSpecialUse
| CapCreateSpecialUse
| CapMove
| CapCondStore
| CapQResync
| CapLiteralPlus
| CapUnAuthenticate
| CapStatusSize
| CapObjectIdPlus
| CapPreview
| CapUtf8Accept
| CapAuth (v : Mechanism)
| CapQuota
| CapQuotaResource (v : QuotaResourceName)
| CapQuotaSet
| CapJmapAccess.

(* [crates/imap-proto/src/protocol/capability.rs:68-125] Capability::serialize *)
Definition capability_serialize (c : Capability) : list Z :=
  match c with
  | CapAuth mechanism => s#"AUTH=" ++ mechanism_serialize mechanism
  | CapIMAP4rev2 => s#"IMAP4rev2"
  | CapIMAP4rev1 => s#"IMAP4rev1"
  | CapStartTLS => s#"STARTTLS"
  | CapLoginDisabled => s#"LOGINDISABLED"
  | CapCondStore => s#"CONDSTORE"
  | CapQResync => s#"QRESYNC"
  | CapLiteralPlus => s#"LITERAL+"
  | CapUnAuthenticate => s#"UNAUTHENTICATE"
  | CapStatusSize => s#"STATUS=SIZE"
  | CapObjectIdPlus => s#"OBJECTID+"
  | CapPreview => s#"PREVIEW"
  | CapIdle => s#"IDLE"
  | CapNamespace => s#"NAMESPACE"
  | CapId => s#"ID"
  | CapChildren => s#"CHILDREN"
  | CapMultiAppend => s#"MULTIAPPEND"
  | CapBinary => s#"BINARY"
  | CapUnselect => s#"UNSELECT"
  | CapACL => s#"ACL"
  | CapRights => s#"RIGHTS=texk"
  | CapUIDPlus => s#"UIDPLUS"
  | CapESearch => s#"ESEARCH"
  | CapSASLIR => s#"SASL-IR"
  | CapWithin => s#"WITHIN"
  | CapEnable => s#"ENABLE"
  | CapSearchRes => s#"SEARCHRES"
  | CapSort => s#"SORT"
  | CapThread => s#"THREAD=REFERENCES"
  | CapListExtended => s#"LIST-EXTENDED"
  | CapListStatus => s#"LIST-STATUS"
  | CapESort => s#"ESORT"
  | CapSortDisplay => s#"SORT=DISPLAY"
  | CapSpecialUse => s#"SPECIAL-USE"
  | CapCreateSpecialUse => s#"CREATE-SPECIAL-USE"
  | CapMove => s#"MOVE"
  | CapUtf8Accept => s#"UTF8=ACCEPT"
  | CapQuota => s#"QUOTA"
  | CapQuotaSet => s#"QUOTA=SET"
  | CapJmapAccess => s#"JMAPACCESS"
  | CapQuotaResource quota_resource =>
      s#"QUOTA=RES-" ++
      match quota_resource with
      | ResStorage => s#"STORAGE"
      | ResMessage => s#"MESSAGE"
      | ResMailbox => s#"MAILBOX"
      | ResAnnotationStorage => s#"ANNOTATION-STORAGE"
      end
  end.

(* [crates/imap-proto/src/protocol/capability.rs:127-183] Capability::all_capabilities *)
Definition all_capabilities (is_authenticated offer_tls : bool) : list Capability :=
    [ CapIMAP4rev2;
      CapIMAP4rev1;
      CapEnable;
      CapSASLIR;
      CapLiteralPlus;
      CapId;
      CapUtf8Accept ] ++
    (if is_authenticated then
    [ CapJmapAccess;
      CapIdle;
      CapNamespace;
      CapChildren;
      CapMultiAppend;
      CapBinary;
      CapUnselect;
      CapACL;
      CapUIDPlus;
      CapESearch;
      CapWithin;
      CapSearchRes;
      CapSort;
      CapThread;
      CapListExtended;
      CapListStatus;
      CapESort;
      CapSortDisplay;
      CapSpecialUse;
      CapCreateSpecialUse;
      CapMove;
      CapCondStore;
      CapQResync;
      CapUnAuthenticate;
      CapStatusSize;
      CapObjectIdPlus;
      CapPreview;
      CapRights;
      CapQuota;
      CapQuotaResource ResStorage ]
    else
    [ CapAuth MechPlain;
      CapAuth MechOAuthBearer;
      CapAuth MechXOauth2 ]) ++
    (if offer_tls then [CapStartTLS] else []).

(* [crates/imap-proto/src/protocol/capability.rs:186-197] capability::Response::serialize *)
Definition capability_response_serialize (capabilities : list Capability) : list Z :=
  s#"* CAPABILITY" ++
  (capabilities ≫= fun capability => c#" " :: capability_serialize capability) ++ [13; 10].

(** ** Status responses *)

(* [crates/imap-proto/src/protocol/mod.rs:45-50] ObjectId *)
Record ObjectId := MkObjectId {
  mailbox_id : option Id;
  account_id : option Id;
  email_id : option Id;
  thread_id : option Id
}.

(* [crates/imap-proto/src/lib.rs:100-157] ResponseCode *)
Inductive ResponseCode :=
| RcAlert
| RcAlreadyExists
| RcAppendUid (uid_validity : Z) (uids : list Z)
| RcAuthenticationFailed
| RcAuthorizationFailed
| RcBadCharset
| RcCannot
| RcCapability (capabilities : list Capability)
| RcClientBug
| RcClosed
| RcContactAdmin
| RcCopyUid (uid_validity : Z) (src_uids : list Z) (dest_uids : list Z)
| RcCorruption
| RcExpired
| RcExpungeIssued
| RcHasChildren
| RcInUse
| RcLimit
| RcNonExistent
| RcNoPerm
| RcOverQuota
| RcParse
| RcPermanentFlags
| RcPrivacyRequired
| RcReadOnly
| RcReadWrite
| RcServerBug
| RcTryCreate
| RcUidNext
| RcUidNotSticky
| RcUidValidity
| RcUnavailable
| RcUnknownCte
| RcModified (ids : list Z)
| RcHighestModseq (modseq : Z)
| RcObjectId (object_id : ObjectId)
| RcUseAttr.

(* [crates/imap-proto/src/lib.rs:168-174] ResponseType *)
Inductive ResponseType := RtOk | RtNo | RtBad | RtPreAuth | RtBye.

(* [crates/imap-proto/src/lib.rs:160-165] StatusResponse *)
Record StatusResponse := MkStatus {
  status_tag : option (list Z);
  code : option ResponseCode;
  message : list Z;
  rtype : ResponseType
}.

(* [crates/imap-proto/src/lib.rs:177-181] ResponseCode::highest_modseq *)
Definition highest_modseq (modseq : Z) : ResponseCode :=
  RcHighestModseq (if 0 <? modseq then wrap 64 (modseq + 1) else 0).

(* [crates/imap-proto/src/lib.rs:185-192] StatusResponse::bad *)
Definition status_bad (message : list Z) : StatusResponse := MkStatus None None message RtBad.

(* [crates/imap-proto/src/lib.rs:194-201] StatusResponse::parse_error *)
Definition status_parse_error (message : list Z) : StatusResponse := MkStatus None (Some RcParse) message RtBad.

(* [crates/imap-proto/src/lib.rs:221-228] StatusResponse::no *)
Definition status_no (message : list Z) : StatusResponse := MkStatus None None message RtNo.

(* [crates/imap-proto/src/lib.rs:230-237] StatusResponse::ok *)
Definition status_ok (message : list Z) : StatusResponse := MkStatus None None message RtOk.

(* [crates/imap-proto/src/lib.rs:239-246] StatusResponse::bye *)
Definition status_bye (message : list Z) : StatusResponse := MkStatus None None message RtBye.

(* [crates/imap-proto/src/lib.rs:211-214] StatusResponse::with_code *)
Definition with_code (c : ResponseCode) (s : StatusResponse) : StatusResponse :=
  MkStatus (status_tag s) (Some c) (message s) (rtype s).

(* [crates/imap-proto/src/lib.rs:216-219] StatusResponse::with_tag *)
Definition with_tag (t : list Z) (s : StatusResponse) : StatusResponse :=
  MkStatus (Some t) (code s) (message s) (rtype s).

(* [crates/imap-proto/src/lib.rs:203-205] StatusResponse::database_failure *)
Definition database_failure : StatusResponse :=
  with_code RcContactAdmin (status_no s#"Database failure.").

(* [crates/imap-proto/src/lib.rs:207-209] StatusResponse::completed *)
Definition completed (command : Command) : StatusResponse :=
  status_ok (command_to_string command ++ s#" completed").

(** [Id::to_string]; the text exists for every 64-bit number
    ([JmapId.id_roundtrip]). *)
Definition id_text (id : Id) : list Z := match as_string id with Some t => t | None => [] end.

(* [crates/imap-proto/src/protocol/mod.rs:60-79] ObjectId::serialize_kvpairs *)
Definition serialize_kvpairs (o : ObjectId) : list Z :=
  let pair '(buf, first) '(key, value) :=
    match value with
    | Some value => (buf ++ (if negb first then s#" " else []) ++ key ++ id_text value, false)
    | None => (buf, first)
    end in
  fst (fold_left pair
    [(s#"ACCOUNTID ", account_id o); (s#"MAILBOXID ", mailbox_id o);
     (s#"EMAILID ", email_id o); (s#"THREADID ", thread_id o)]
    (s#"(", true)) ++ s#")".

(* [crates/imap-proto/src/protocol/mod.rs:81-84] ObjectId::serialize *)
Definition objectid_serialize (o : ObjectId) : list Z := s#"OBJECTID " ++ serialize_kvpairs o.

(* [crates/imap-proto/src/protocol/mod.rs:458-534] ResponseCode::serialize *)
Definition code_serialize (c : ResponseCode) : list Z :=
  match c with
  | RcAlert => s#"ALERT"
  | RcAlreadyExists => s#"ALREADYEXISTS"
  | RcAuthenticationFailed => s#"AUTHENTICATIONFAILED"
  | RcAuthorizationFailed => s#"AUTHORIZATIONFAILED"
  | RcBadCharset => s#"BADCHARSET"
  | RcCannot => s#"CANNOT"
  | RcClientBug => s#"CLIENTBUG"
  | RcClosed => s#"CLOSED"
  | RcContactAdmin => s#"CONTACTADMIN"
  | RcCorruption => s#"CORRUPTION"
  | RcExpired => s#"EXPIRED"
  | RcExpungeIssued => s#"EXPUNGEISSUED"
  | RcHasChildren => s#"HASCHILDREN"
  | RcInUse => s#"INUSE"
  | RcLimit => s#"LIMIT"
  | RcNonExistent => s#"NONEXISTENT"
  | RcNoPerm => s#"NOPERM"
  | RcOverQuota => s#"OVERQUOTA"
  | RcParse => s#"PARSE"
  | RcPermanentFlags => s#"PERMANENTFLAGS"
  | RcPrivacyRequired => s#"PRIVACYREQUIRED"
  | RcReadOnly => s#"READ-ONLY"
  | RcReadWrite => s#"READ-WRITE"
  | RcServerBug => s#"SERVERBUG"
  | RcTryCreate => s#"TRYCREATE"
  | RcUidNext => s#"UIDNEXT"
  | RcUidNotSticky => s#"UIDNOTSTICKY"
  | RcUidValidity => s#"UIDVALIDITY"
  | RcUnavailable => s#"UNAVAILABLE"
  | RcUnknownCte => s#"UNKNOWN-CTE"
  | RcUseAttr => s#"USEATTR"
  | RcAppendUid uid_validity uids =>
      s#"APPENDUID " ++ print_decimal uid_validity ++ s#" " ++ sequence_text uids
  | RcCapability capabilities =>
      s#"CAPABILITY" ++ (capabilities ≫= fun c => c#" " :: capability_serialize c)
  | RcCopyUid uid_validity src_uids dest_uids =>
      s#"COPYUID " ++ print_decimal uid_validity ++ s#" " ++ sequence_text src_uids ++ s#" " ++
      sequence_text dest_uids
  | RcModified ids => s#"MODIFIED " ++ sequence_text ids
  | RcObjectId object_id => objectid_serialize object_id
  | RcHighestModseq modseq => s#"HIGHESTMODSEQ " ++ print_decimal modseq
  end.

(* [crates/imap-proto/src/protocol/mod.rs:536-577] ResponseCode::as_str *)
Definition code_as_str (c : ResponseCode) : list Z :=
  match c with
  | RcAlert => s#"ALERT"
  | RcAlreadyExists => s#"ALREADYEXISTS"
  | RcAppendUid _ _ => s#"APPENDUID"
  | RcAuthenticationFailed => s#"AUTHENTICATIONFAILED"
  | RcAuthorizationFailed => s#"AUTHORIZATIONFAILED"
  | RcBadCharset => s#"BADCHARSET"
  | RcCannot => s#"CANNOT"
  | RcCapability _ => s#"CAPABILITY"
  | RcClientBug => s#"CLIENTBUG"
  | RcClosed => s#"CLOSED"
  | RcContactAdmin => s#"CONTACTADMIN"
  | RcCopyUid _ _ _ => s#"COPYUID"
  | RcCorruption => s#"CORRUPTION"
  | RcExpired => s#"EXPIRED"
  | RcExpungeIssued => s#"EXPUNGEISSUED"
  | RcHasChildren => s#"HASCHILDREN"
  | RcInUse => s#"INUSE"
  | RcLimit => s#"LIMIT"
  | RcNonExistent => s#"NONEXISTENT"
  | RcNoPerm => s#"NOPERM"
  | RcOverQuota => s#"OVERQUOTA"
  | RcParse => s#"PARSE"
  | RcPermanentFlags => s#"PERMANENTFLAGS"
  | RcPrivacyRequired => s#"PRIVACYREQUIRED"
  | RcReadOnly => s#"READ-ONLY"
  | RcReadWrite => s#"READ-WRITE"
  | RcServerBug => s#"SERVERBUG"
  | RcTryCreate => s#"TRYCREATE"
  | RcUidNext => s#"UIDNEXT"
  | RcUidNotSticky => s#"UIDNOTSTICKY"
  | RcUidValidity => s#"UIDVALIDITY"
  | RcUnavailable => s#"UNAVAILABLE"
  | RcUnknownCte => s#"UNKNOWN-CTE"
  | RcModified _ => s#"MODIFIED"
  | RcObjectId _ => s#"OBJECTID"
  | RcHighestModseq _ => s#"HIGHESTMODSEQ"
  | RcUseAttr => s#"USEATTR"
  end.

(* [crates/imap-proto/src/protocol/mod.rs:580-594] ResponseType::as_str *)
Definition type_as_str (t : ResponseType) : list Z :=
  match t with
  | RtOk => s#"OK"
  | RtNo => s#"NO"
  | RtBad => s#"BAD"
  | RtPreAuth => s#"PREAUTH"
  | RtBye => s#"BYE"
  end.

(* [crates/imap-proto/src/protocol/mod.rs:608-631] StatusResponse::serialize *)
Definition status_serialize (s : StatusResponse) (buf : list Z) : list Z :=
  buf ++
  (match status_tag s with Some tag => tag | None => s#"*" end) ++ s#" " ++
  type_as_str (rtype s) ++ s#" " ++
  (match code s with Some code => c#"[" :: code_serialize code ++ s#"] " | None => [] end) ++
  message s ++ [13; 10].

(** ** Commands: names and command lines *)

(** The name of a command without [UID]. *)
Definition base_name (c : Command) : list Z :=
  let text := command_to_string c in
  if is_uid c then drop 4 text else text.

Lemma name_ok_dec name : 
  negb (is_empty name) && (len name <=? 15) && negb (eq_ignore_ascii_case name s#"UID") &&
  forallb (fun c => is_ascii_alphanumeric c && (to_ascii_uppercase c =? c)) name = true ->
  name_ok name.
Proof.
  intros H. bool_to_prop. unfold name_ok. split_and!; [by destruct name|done|done|].
  apply Forall_forall. intros c Hc. rewrite forallb_forall in H0.
  specialize (H0 c Hc). bool_to_prop. done.
Qed.

Lemma command_names c :
  command_to_string c = (if is_uid c then s#"UID " else []) ++ base_name c /\
  command_parse (base_name c) (is_uid c) = Some c /\ name_ok (base_name c).
Proof.
  split; [|split].
  - by destruct c as [ | | | | | | | | | | | | | | | | | | | | | [] | [] | [] | [] | [] | []
      | | | [] | [] | | | | | | | | | | ].
  - by destruct c as [ | | | | | | | | | | | | | | | | | | | | | [] | [] | [] | [] | [] | []
      | | | [] | [] | | | | | | | | | | ].
  - apply name_ok_dec.
    by destruct c as [ | | | | | | | | | | | | | | | | | | | | | [] | [] | [] | [] | [] | []
      | | | [] | [] | | | | | | | | | | ].
Qed.



(** ** Witnesses of the receiver's theorems, for IMAP commands *)

Definition new_receiver (max : Z) : Receiver Command := with_max_request_size max.

Lemma new_receiver_wf max : 0 <= max -> receiver_wf (new_receiver max).
Proof. intros H. unfold receiver_wf, new_receiver; simpl. split; [by left|]. split; [lia|done]. Qed.


Definition waiting (s : State) : Receiver Command := at_arg s#"t" (CmdAppend) 10 Start [] s [] 0.

Lemma sync_literal_witness :
  parse (literal_header s#"abc" [] ++ []) (waiting (Argument 32)) =
    (waiting (LiteralData 3), Err (NeedsLiteral 3), []) /\
  parse (s#"abc" ++ s#")") (waiting (LiteralData 3)) =
    parse s#")" (at_arg s#"t" CmdAppend 10 Start [] (Argument 32) [TArgument s#"abc"] 3).
Proof.
  destruct (sync_literal s#"t" CmdAppend 10 s#"abc" 32 [] 0 []) as [H _];
    [done|vm_compute; congruence|lia|reflexivity|].
  destruct (sync_literal s#"t" CmdAppend 10 s#"abc" 32 [] 0 s#")") as [H' _];
    [done|vm_compute; congruence|lia|reflexivity|].
  split; [apply H|apply H']; vm_compute; congruence.
Defined.

Lemma oversized_literal_discarded_witness :
  parse (literal_header s#"abcdefghijk" s#"+" ++ s#"abcdefghijk" ++ s#" b NOOP") (waiting (Argument 32)) =
    (new_receiver 10, Err (Error_ (Some s#"t") (LiteralExceeds 10)), s#" b NOOP").
Proof.
  apply (oversized_literal_discarded s#"t" CmdAppend 10 s#"abcdefghijk" 32 [] 0 s#" b NOOP");
    [done|vm_compute; congruence|lia|reflexivity|vm_compute; congruence].
Defined.

(** ** Flags *)

Definition plain_flag (f : Flag) : Prop := match f with FKeyword _ => False | _ => True end.

(** A flag written to a client is read back as the same flag, whatever
    the case of its letters; any other non-empty valid text is a keyword and
    is read back unchanged. *)
Theorem flag_roundtrip f :
  (plain_flag f -> forall s, to_ascii_lowercase <$> s = to_ascii_lowercase <$> flag_serialize f ->
     parse_imap s = Ok f) /\
  (forall s, f = FKeyword s -> s <> [] -> valid s = true -> tiny_map_ignore_case imap_flags s = None ->
     parse_imap (flag_serialize f) = Ok f).
Proof.
  split.
  - intros Hf s Hs. unfold parse_imap. destruct s as [|c s].
    { destruct f; try (by destruct Hf); discriminate Hs. }
    rewrite (tiny_map_ignore_case_key imap_flags (c :: s) (flag_serialize f) Hs).
    by destruct f; try (by destruct Hf).
  - intros s -> Hne Hv Hn. unfold parse_imap. simpl. destruct s; [done|]. by rewrite Hn, Hv.
Qed.

(** Flags and store keywords correspond: converting to a keyword and back
    gives the flag, converting from a keyword and back gives the keyword when
    its text is within the limit, and the JMAP text of a keyword with a number
    is parsed as the flag that the keyword converts to. *)
Theorem flag_keyword_conversions f k :
  (match f with FKeyword s => (length s <= MAX_LENGTH)%nat | _ => True end ->
     flag_of_keyword (keyword_of_flag f) = f) /\
  (match k with Keyword.Other s => (length s <= MAX_LENGTH)%nat | _ => True end ->
     keyword_of_flag (flag_of_keyword k) = k) /\
  (known k -> parse_jmap (to_string k) = flag_of_keyword k).
Proof.
  assert (forall s, (length s <= MAX_LENGTH)%nat -> from_boxed_other s = Keyword.Other s) as Ho.
  { intros s Hs. unfold from_boxed_other. by rewrite (proj2 (Nat.leb_le _ _) Hs). }
  split_and?.
  - intros Hf. destruct f; try done. simpl. by rewrite Ho.
  - intros Hk. destruct k; try done. simpl. by rewrite Ho.
  - intros Hk. by destruct k.
Qed.

(** The SASL mechanism that a capability announces is parsed back, in any
    case of letters. *)
Theorem mechanism_roundtrip m s :
  to_ascii_lowercase <$> s = to_ascii_lowercase <$> mechanism_serialize m ->
  mechanism_parse s = Some m.
Proof.
  intros Hs. unfold mechanism_parse. rewrite (tiny_map_ignore_case_key _ _ _ Hs). by destruct m.
Qed.

Lemma mechanism_roundtrip_witness : mechanism_parse s#"cram-md5" = Some MechCramMd5.
Proof. apply (mechanism_roundtrip MechCramMd5). reflexivity. Defined.
