(* ===== verification/ImapSearch.v ===== *)
(** * IMAP searches ([crates/imap-proto/src/parser/search.rs])

    The data of SEARCH, SORT and THREAD ([protocol/search.rs],
    [protocol/thread.rs]), their parsers ([parser/search.rs], [sort.rs],
    [thread.rs]) over the tokens of a request, and the serializer of answers.
    The parser of search keys is a loop over tokens with a stack of open
    groups; what it gives is shown below to be the keys as trees, written as a
    list of filters in prefix form.  Character sets and dates are read by
    other crates, which are parameters. *)

From S2P Require Import Prelude Utf8 Text Decimals ImapReceiver ImapSequence ImapCommand.

Local Open Scope result_scope.

(** ** Data *)

(* [crates/imap-proto/src/protocol/search.rs:116-121] ModSeqEntry *)
Inductive ModSeqEntry := MShared (f : Flag) | MPrivate (f : Flag) | MAll (f : Flag) | MNone.

(* [crates/imap-proto/src/protocol/search.rs:60-113] Filter *)
Inductive Filter :=
| ISequence (s : Sequence) (uid : bool)
| IAll | IAnswered
| IBcc (t : list Z)
| IBefore (date : Z)
| IBody (t : list Z)
| ICc (t : list Z)
| IDeleted | IDraft | IFlagged
| IFrom (t : list Z)
| IHeader (name value : list Z)
| IKeyword (f : Flag)
| ILarger (n : Z)
| IOn (date : Z)
| ISeen
| ISentBefore (date : Z)
| ISentOn (date : Z)
| ISentSince (date : Z)
| ISince (date : Z)
| ISmaller (n : Z)
| ISubject (t : list Z)
| IText (t : list Z)
| ITo (t : list Z)
| IUnanswered | IUndeleted | IUndraft | IUnflagged
| IUnkeyword (f : Flag)
| IUnseen
| IAnd | IOr | INot | IEnd
| IRecent | INew | IOld
| IOlder (secs : Z)
| IYounger (secs : Z)
| IModSeq (modseq : Z) (entry : ModSeqEntry)
| IEmailId (id : list Z)
| IThreadId (id : list Z).

(* [crates/imap-proto/src/protocol/search.rs:50-57] ResultOption *)
Inductive ResultOption := Min | Max | All | Count | Save | Context.

#[export] Instance result_option_dec : EqDecision ResultOption.
Proof. solve_decision. Defined.

(* [crates/imap-proto/src/protocol/search.rs:19-29] Sort *)
Inductive Sort := ByArrival | ByCc | ByDate | ByFrom | ByDisplayFrom | BySize | BySubject | ByTo | ByDisplayTo.

(* [crates/imap-proto/src/protocol/search.rs:32-35] Comparator *)
Record Comparator := MkComparator { sort : Sort; ascending : bool }.

(* [crates/imap-proto/src/protocol/search.rs:10-16] Arguments *)
Record Arguments := MkArguments {
  arg_tag : list Z; is_esearch : bool; sorts : option (list Comparator);
  result_options : list ResultOption; filter : list Filter }.

(* [crates/imap-proto/src/protocol/thread.rs:17-20] Algorithm *)
Inductive Algorithm := OrderedSubject | References.
(* [crates/imap-proto/src/protocol/thread.rs:10-14] thread::Arguments *)
Record ThreadArguments := MkThreadArguments { thread_tag : list Z; thread_filter : list Filter; algorithm : Algorithm }.

(* [crates/imap-proto/src/protocol/mod.rs:39-42] ProtocolVersion *)
Inductive ProtocolVersion := Rev1 | Rev2.
(* [crates/imap-proto/src/protocol/mod.rs:680-682] is_rev2 *)
Definition is_rev2 (v : ProtocolVersion) : bool := match v with Rev2 => true | Rev1 => false end.

(** The error texts, one constructor per text. *)
Inductive SearchError :=
| MissingCriteria | MissingCharset | NoFilters
| ExpectedParenthesis | InvalidResultArgument | InvalidResultOption (v : list Z)
| ExpectedString | InvalidUtf8Argument | ExpectedDate | InvalidUtf8Date | InvalidDate (v : list Z)
| ExpectedInteger | BadNumber (e : SeqError) | ExpectedKeyword | BadFlag (e : FlagError)
| MissingSequence | BadSequence (e : SeqError)
| MissingModSeq | UnsupportedModSeq (v : list Z) | MissingEntryType | MissingModSeqValue
| ExpectedEmailId | ExpectedThreadId
| TooManyNested | UnexpectedParenthesis | UnexpectedToken (t : Token)
| ExpectedSortCriteria | InvalidSort (v : list Z) | MissingSort
| MissingAlgorithm | InvalidAlgorithm (v : list Z).

(** [Result::map_err]. *)
Definition map_err {A E F} (f : E -> F) (r : result A E) : result A F := match r with Ok a => Ok a | Err e => Err (f e) end.

(** ** Parsing *)

Section Parser.
(** [charset_decoder] of the mail-parser crate, and [NaiveDate::parse_from_str]
    of chrono with the format of the code, as the seconds of its midnight. *)
Variable charset_decoder : list Z -> option (list Z -> list Z).
Variable parse_from_str : list Z -> option Z.

(* [crates/imap-proto/src/parser/mod.rs:198-212] parse_date *)
Definition parse_date (value : list Z) : result Z SearchError :=
  if valid value then match parse_from_str (trim value) with Some t => Ok t | None => Err (InvalidDate value) end
  else Err InvalidUtf8Date.

(** [tokens.next().ok_or(e)]. *)
Definition next_token (e : SearchError) (tokens : list Token) : result (Token * list Token) SearchError :=
  match tokens with t :: tokens => Ok (t, tokens) | [] => Err e end.

Section Keys.
Variable decoder : option (list Z -> list Z).

(* [crates/imap-proto/src/parser/search.rs:503-517] decode_argument *)
Definition decode_argument (tokens : list Token) : result (list Z * list Token) SearchError :=
  let? (t, tokens) := next_token ExpectedString tokens in
  let argument := unwrap_bytes t in
  match decoder with
  | Some decode => Ok (decode argument, tokens)
  | None => if valid argument then Ok (argument, tokens) else Err InvalidUtf8Argument
  end.

(** A key that takes its arguments from the tokens. *)
Definition KeyParser : Type := list Token -> result (Filter * list Token) SearchError.

Definition plain (f : Filter) : KeyParser := fun tokens => Ok (f, tokens).
Definition text (f : list Z -> Filter) : KeyParser := fun tokens =>
  let? (t, tokens) := decode_argument tokens in Ok (f t, tokens).
(** An argument that is read by [read]. *)
Definition argument {A} (missing : SearchError) (read : list Z -> result A SearchError) (f : A -> Filter) : KeyParser := fun tokens =>
  let? (t, tokens) := next_token missing tokens in
  let? a := read (unwrap_bytes t) in Ok (f a, tokens).
Definition date : (Z -> Filter) -> KeyParser := argument ExpectedDate parse_date.
Definition integer : (Z -> Filter) -> KeyParser := argument ExpectedInteger (fun v => map_err BadNumber (parse_number u32_max v)).
Definition keyword : (Flag -> Filter) -> KeyParser := argument ExpectedKeyword (fun v => map_err BadFlag (parse_imap v)).
(** [Token::unwrap_string]. *)
Definition string (missing : SearchError) (f : list Z -> Filter) : KeyParser := fun tokens =>
  let? (t, tokens) := next_token missing tokens in
  match unwrap_string t with Some v => Ok (f v, tokens) | None => Err InvalidUtf8Argument end.

(* [crates/imap-proto/src/parser/search.rs:164-171] parse_filters, HEADER *)
Definition header_key : KeyParser := fun tokens =>
  let? (name, tokens) := decode_argument tokens in
  let? (value, tokens) := decode_argument tokens in Ok (IHeader name value, tokens).

(* [crates/imap-proto/src/parser/search.rs:366-386] parse_filters, the entry of MODSEQ *)
Definition modseq_entry (flag : Flag) (token : option Token) : result ModSeqEntry SearchError :=
  match token with
  | Some (TArgument value) =>
      if eq_ignore_ascii_case value s#"all" then Ok (MAll flag)
      else if eq_ignore_ascii_case value s#"shared" then Ok (MShared flag)
      else if eq_ignore_ascii_case value s#"priv" then Ok (MPrivate flag)
      else Err (UnsupportedModSeq value)
  | Some t => Err (UnsupportedModSeq (as_bytes t))
  | None => Err MissingEntryType
  end.

(* [crates/imap-proto/src/parser/search.rs:352-405] parse_filters, MODSEQ *)
Definition modseq_key : KeyParser := fun tokens =>
  let? (t, tokens) := next_token MissingModSeq tokens in
  let param := unwrap_bytes t in
  if is_nil param || existsb (fun ch => negb (is_ascii_digit ch)) param then
    if (length param <=? 7)%nat || negb (starts_with s#"/flags/" param) then Err (UnsupportedModSeq param)
    else
      let? flag := map_err BadFlag (parse_imap (skipn 7 param)) in
      let? entry := modseq_entry flag (head tokens) in
      let? (t, tokens) := next_token MissingModSeqValue (tail tokens) in
      let? n := map_err BadNumber (parse_number u64_max (unwrap_bytes t)) in
      Ok (IModSeq n entry, tokens)
  else
    let? n := map_err BadNumber (parse_number u64_max param) in
    Ok (IModSeq n MNone, tokens).

(** What a word at the place of a key is. *)
Inductive Arm := Key (p : KeyParser) | OpenGroup (operator : Filter).

(* [crates/imap-proto/src/parser/search.rs:112-445] parse_filters, the keys *)
Definition search_keys : list (list Z * Arm) :=
  [ (s#"ALL", Key (plain IAll));
    (s#"ANSWERED", Key (plain IAnswered));
    (s#"BCC", Key (text IBcc));
    (s#"BEFORE", Key (date IBefore));
    (s#"BODY", Key (text IBody));
    (s#"CC", Key (text ICc));
    (s#"DELETED", Key (plain IDeleted));
    (s#"DRAFT", Key (plain IDraft));
    (s#"FLAGGED", Key (plain IFlagged));
    (s#"FROM", Key (text IFrom));
    (s#"HEADER", Key header_key);
    (s#"KEYWORD", Key (keyword IKeyword));
    (s#"LARGER", Key (integer ILarger));
    (s#"ON", Key (date IOn));
    (s#"SEEN", Key (plain ISeen));
    (s#"SENTBEFORE", Key (date ISentBefore));
    (s#"SENTON", Key (date ISentOn));
    (s#"SENTSINCE", Key (date ISentSince));
    (s#"SINCE", Key (date ISince));
    (s#"SMALLER", Key (integer ISmaller));
    (s#"SUBJECT", Key (text ISubject));
    (s#"TEXT", Key (text IText));
    (s#"TO", Key (text ITo));
    (s#"UID", Key (argument MissingSequence (fun v => map_err BadSequence (parse_sequence_set v)) (fun s => ISequence s true)));
    (s#"UNANSWERED", Key (plain IUnanswered));
    (s#"UNDELETED", Key (plain IUndeleted));
    (s#"UNDRAFT", Key (plain IUndraft));
    (s#"UNFLAGGED", Key (plain IUnflagged));
    (s#"UNKEYWORD", Key (keyword IUnkeyword));
    (s#"UNSEEN", Key (plain IUnseen));
    (s#"OLDER", Key (integer IOlder));
    (s#"YOUNGER", Key (integer IYounger));
    (s#"OLD", Key (plain IOld));
    (s#"NEW", Key (plain INew));
    (s#"RECENT", Key (plain IRecent));
    (s#"MODSEQ", Key modseq_key);
    (s#"EMAILID", Key (string ExpectedEmailId IEmailId));
    (s#"THREADID", Key (string ExpectedThreadId IThreadId));
    (s#"OR", OpenGroup IOr);
    (s#"NOT", OpenGroup INot) ].

(** Other words are sequence sets. *)
(* [crates/imap-proto/src/parser/search.rs:112-449] parse_filters, a word *)
Definition arm_of (value : list Z) : Arm :=
  match tiny_map_ignore_case search_keys value with
  | Some arm => arm
  | None => Key (fun tokens => let? s := map_err BadSequence (parse_sequence_set value) in Ok (ISequence s false, tokens))
  end.

(** A group that is open: its filters, its operator, how many elements it has. *)
Record Group := MkGroup { filters : list Filter; operator : Filter; filters_len : nat }.

Definition is_and (f : Filter) : bool := match f with IAnd => true | _ => false end.
Definition is_or (f : Filter) : bool := match f with IOr => true | _ => false end.
Definition is_not (f : Filter) : bool := match f with INot => true | _ => false end.

(** A group that ends becomes part of the one around it. *)
(* [crates/imap-proto/src/parser/search.rs:482-490] parse_filters, a group that ends *)
Definition merge_group (g prev : Group) : Group :=
  if is_and (operator g) && (negb (is_or (operator prev)) || (filters_len g =? 1)%nat)
  then MkGroup (filters prev ++ filters g) (operator prev) (filters_len g + filters_len prev)
  else MkGroup (filters prev ++ operator g :: filters g ++ [IEnd]) (operator prev) (filters_len prev + 1).

(* [crates/imap-proto/src/parser/search.rs:479-497] parse_filters, the groups that end *)
Fixpoint close_groups (g : Group) (stack : list Group) : Group * list Group :=
  match stack with
  | [] => (g, [])
  | prev :: stack =>
      let g := merge_group g prev in
      if is_and (operator g) || (is_or (operator g) && (filters_len g <? 2)%nat) then (g, stack)
      else close_groups g stack
  end.

(* [crates/imap-proto/src/parser/search.rs:474-498] parse_filters, the end of an element *)
Definition end_element (found_parenthesis : bool) (g : Group) (stack : list Group) : Group * list Group :=
  match stack with
  | [] => (g, stack)
  | _ =>
      if found_parenthesis || (is_or (operator g) && (filters_len g =? 2)%nat) || (is_not (operator g) && (filters_len g =? 1)%nat)
      then close_groups g stack else (g, stack)
  end.

(* [crates/imap-proto/src/parser/search.rs:425-433] parse_filters, a group that begins *)
Definition open_group (op : Filter) (g : Group) (stack : list Group) : result (Group * list Group) SearchError :=
  if (10 <? length stack)%nat then Err TooManyNested else Ok (MkGroup [] op 0, g :: stack).

(** One element, to the tokens that are left. *)
(* [crates/imap-proto/src/parser/search.rs:109-498] parse_filters, the loop's body *)
Definition filters_step (token : Token) (tokens : list Token) (g : Group) (stack : list Group)
    : result (list Token * (Group * list Group)) SearchError :=
  match token with
  | TArgument value =>
      match arm_of value with
      | Key parser =>
          let? (f, tokens) := parser tokens in
          Ok (tokens, end_element false (MkGroup (filters g ++ [f]) (operator g) (S (filters_len g))) stack)
      | OpenGroup op => let? x := open_group op g stack in Ok (tokens, x)
      end
  | ParenthesisOpen => let? x := open_group IAnd g stack in Ok (tokens, x)
  | ParenthesisClose => match stack with [] => Err UnexpectedParenthesis | _ => Ok (tokens, end_element true g stack) end
  | t => Err (UnexpectedToken t)
  end.

(** Each round takes a token at least; [None] is running out of fuel. *)
(* [crates/imap-proto/src/parser/search.rs:108-499] parse_filters, the loop *)
Fixpoint filters_loop (fuel : nat) (tokens : list Token) (g : Group) (stack : list Group) : option (result (list Filter) SearchError) :=
  match tokens with
  | [] => Some (Ok (filters g))
  | token :: tokens =>
      match fuel with
      | O => None
      | S fuel =>
          match filters_step token tokens g stack with
          | Ok (tokens, (g, stack)) => filters_loop fuel tokens g stack
          | Err e => Some (Err e)
          end
      end
  end.
End Keys.

(* [crates/imap-proto/src/parser/search.rs:99-501] parse_filters *)
Definition parse_filters (tokens : list Token) (decoder : option (list Z -> list Z)) : option (result (list Filter) SearchError) :=
  filters_loop decoder (length tokens) tokens (MkGroup [] IAnd 0) [].

(* [crates/imap-proto/src/parser/search.rs:520-537] ResultOption::parse *)
Definition result_option_parse (value : list Z) : result ResultOption SearchError :=
  match tiny_map_ignore_case
    [ (s#"min", Min); (s#"max", Max); (s#"all", All); (s#"count", Count); (s#"save", Save); (s#"context", Context) ] value with
  | Some o => Ok o
  | None => Err (InvalidResultOption value)
  end.

(** The options to the closing parenthesis, or the end. *)
(* [crates/imap-proto/src/parser/search.rs:86-94] parse_result_options, the loop *)
Fixpoint options_loop (tokens : list Token) (acc : list ResultOption) : result (list ResultOption * list Token) SearchError :=
  match tokens with
  | [] => Ok (acc, [])
  | ParenthesisClose :: tokens => Ok (acc, tokens)
  | TArgument value :: tokens => let? o := result_option_parse value in options_loop tokens (acc ++ [o])
  | _ => Err InvalidResultArgument
  end.
(* [crates/imap-proto/src/parser/search.rs:75-97] parse_result_options *)
Definition parse_result_options (tokens : list Token) : result (list ResultOption * list Token) SearchError :=
  match tokens with
  | ParenthesisOpen :: tokens => options_loop tokens []
  | _ => Err ExpectedParenthesis
  end.

(** RETURN and CHARSET, in any order and number. *)
(* [crates/imap-proto/src/parser/search.rs:35-54] parse_search, the options *)
Fixpoint search_options (fuel : nat) (tokens : list Token) (options : list ResultOption) (decoder : option (list Z -> list Z)) (esearch : bool)
    : result (list Token * list ResultOption * option (list Z -> list Z) * bool) SearchError :=
  match tokens, fuel with
  | TArgument value :: rest, S fuel =>
      if eq_ignore_ascii_case value s#"return" then
        let? (options, rest) := parse_result_options rest in search_options fuel rest options decoder true
      else if eq_ignore_ascii_case value s#"charset" then
        let? (t, rest) := next_token MissingCharset rest in
        search_options fuel rest options (charset_decoder (unwrap_bytes t)) esearch
      else Ok (tokens, options, decoder, esearch)
  | _, _ => Ok (tokens, options, decoder, esearch)
  end.

(** A search without filters is refused. *)
Definition some_filters {A} (r : option (result (list Filter) SearchError)) (f : list Filter -> A) : option (result A SearchError) :=
  match r with
  | None => None
  | Some (Err e) => Some (Err e)
  | Some (Ok []) => Some (Err NoFilters)
  | Some (Ok l) => Some (Ok (f l))
  end.

(* [crates/imap-proto/src/parser/search.rs:25-72] parse_search *)
Definition parse_search (request : Request Command) (version : ProtocolVersion) : option (result Arguments SearchError) :=
  match tokens request with
  | [] => Some (Err MissingCriteria)
  | ts =>
      match search_options (length ts) ts [] None (is_rev2 version) with
      | Err e => Some (Err e)
      | Ok (ts, options, decoder, esearch) =>
          some_filters (parse_filters ts decoder) (MkArguments (tag request) esearch None options)
      end
  end.

(* [crates/imap-proto/src/parser/sort.rs:105-118] Sort::parse *)
Definition sort_parse (value : list Z) : result Sort SearchError :=
  match tiny_map_ignore_case
    [ (s#"ARRIVAL", ByArrival); (s#"CC", ByCc); (s#"DATE", ByDate); (s#"FROM", ByFrom); (s#"SIZE", BySize);
      (s#"SUBJECT", BySubject); (s#"TO", ByTo); (s#"DISPLAYFROM", ByDisplayFrom); (s#"DISPLAYTO", ByDisplayTo) ] value with
  | Some s => Ok s
  | None => Err (InvalidSort value)
  end.

(* [crates/imap-proto/src/parser/sort.rs:51-73] parse_sort, the criteria *)
Fixpoint sort_loop (tokens : list Token) (is_ascending : bool) (acc : list Comparator)
    : result (list Comparator * list Token) SearchError :=
  match tokens with
  | [] => Ok (acc, [])
  | ParenthesisClose :: tokens => Ok (acc, tokens)
  | TArgument value :: tokens =>
      if eq_ignore_ascii_case value s#"REVERSE" then sort_loop tokens false acc
      else let? s := sort_parse value in sort_loop tokens true (acc ++ [MkComparator s is_ascending])
  | _ => Err InvalidResultArgument
  end.

(* [crates/imap-proto/src/parser/sort.rs:20-101] parse_sort *)
Definition parse_sort (request : Request Command) : option (result Arguments SearchError) :=
  match tokens request with
  | [] => Some (Err MissingCriteria)
  | t :: rest =>
      let head :=
        let? (options, ts, esearch) :=
          if match t with TArgument value => eq_ignore_ascii_case value s#"return" | _ => false end
          then let? (options, ts) := parse_result_options rest in Ok (options, ts, true)
          else Ok ([], t :: rest, false) in
        match ts with
        | ParenthesisOpen :: ts =>
            let? (sorts, ts) := sort_loop ts true [] in
            match sorts with
            | [] => Err MissingSort
            | _ => let? (charset, ts) := next_token MissingCharset ts in Ok (options, esearch, sorts, charset, ts)
            end
        | _ => Err ExpectedSortCriteria
        end in
      match head with
      | Err e => Some (Err e)
      | Ok (options, esearch, sorts, charset, ts) =>
          some_filters (parse_filters ts (charset_decoder (unwrap_bytes charset)))
            (MkArguments (tag request) esearch (Some sorts) options)
      end
  end.

(* [crates/imap-proto/src/parser/thread.rs:58-70] Algorithm::parse *)
Definition algorithm_parse (value : list Z) : result Algorithm SearchError :=
  match tiny_map_ignore_case [ (s#"ORDEREDSUBJECT", OrderedSubject); (s#"REFERENCES", References) ] value with
  | Some a => Ok a
  | None => Err (InvalidAlgorithm value)
  end.

(* [crates/imap-proto/src/parser/thread.rs:20-54] parse_thread *)
Definition parse_thread (request : Request Command) : option (result ThreadArguments SearchError) :=
  match tokens request with
  | [] => Some (Err MissingCriteria)
  | t :: ts =>
      let head :=
        let? a := algorithm_parse (unwrap_bytes t) in
        let? (charset, ts) := next_token MissingCharset ts in Ok (a, charset, ts) in
      match head with
      | Err e => Some (Err e)
      | Ok (a, charset, ts) =>
          some_filters (parse_filters ts (charset_decoder (unwrap_bytes charset))) (fun l => MkThreadArguments (tag request) l a)
      end
  end.
End Parser.

(** ** Answers *)

(* [crates/imap-proto/src/protocol/mod.rs:199-208] quoted_string *)
Definition quoted_string (text : list Z) : list Z :=
  34 :: (text ≫= fun c => if (c =? 92) || (c =? 34) then [92; c] else [c]) ++ [34].

(* [crates/imap-proto/src/protocol/search.rs:38-47] Response *)
Record Response := MkResponse {
  r_is_uid : bool; r_is_esearch : bool; r_is_sort : bool; r_ids : list Z;
  r_min : option Z; r_max : option Z; r_count : option Z; r_highest_modseq : option Z }.

(* [crates/imap-proto/src/protocol/search.rs:134-183] Response::serialize *)
Definition response_serialize (r : Response) (tag : list Z) : list Z :=
  let field name (v : option Z) := match v with Some n => name ++ print_decimal n | None => [] end in
  (if r_is_esearch r then
     s#"* ESEARCH (TAG " ++ quoted_string tag ++ s#")" ++ (if r_is_uid r then s#" UID" else []) ++
     field s#" COUNT " (r_count r) ++ field s#" MIN " (r_min r) ++ field s#" MAX " (r_max r) ++
     (if is_nil (r_ids r) then [] else s#" ALL " ++ sequence_text (r_ids r)) ++
     field s#" MODSEQ " (r_highest_modseq r)
   else
     (if r_is_sort r then s#"* SORT" else s#"* SEARCH") ++ (r_ids r ≫= fun id => s#" " ++ print_decimal id) ++
     match r_highest_modseq r with Some n => s#" (MODSEQ " ++ print_decimal n ++ s#")" | None => [] end) ++ [13; 10].

(* [crates/imap-proto/src/protocol/thread.rs:28-44] thread::Response::serialize *)
Definition thread_serialize (threads : list (list Z)) : list Z :=
  let fix ids (l : list Z) := match l with [] => [] | [n] => print_decimal n | n :: l => print_decimal n ++ s#" " ++ ids l end in
  s#"* THREAD " ++ (threads ≫= fun thread => s#"(" ++ ids thread ++ s#")") ++ [13; 10].

(** ** What search keys mean

    The keys of a search are trees ([RFC 3501, 6.4.4]): a leaf with its
    words, NOT with a key, OR with two, and a list of keys in parentheses.
    All keys of a list have to match. *)

Inductive SearchKey :=
| KLeaf (words : list Token) (f : Filter)
| KNot (k : SearchKey)
| KOr (a b : SearchKey)
| KParen (l : list SearchKey).

Section Key_ind.
Variable P : SearchKey -> Prop.
Hypothesis Pleaf : forall ws f, P (KLeaf ws f).
Hypothesis Pnot : forall k, P k -> P (KNot k).
Hypothesis Por : forall a b, P a -> P b -> P (KOr a b).
Hypothesis Pparen : forall l, Forall P l -> P (KParen l).
Fixpoint SearchKey_nested_ind (k : SearchKey) : P k :=
  match k with
  | KLeaf ws f => Pleaf ws f
  | KNot k => Pnot k (SearchKey_nested_ind k)
  | KOr a b => Por a b (SearchKey_nested_ind a) (SearchKey_nested_ind b)
  | KParen l =>
      Pparen l ((fix go l := match l return Forall P l with
                             | [] => Forall_nil_2 P
                             | k :: l => Forall_cons_2 P k l (SearchKey_nested_ind k) (go l)
                             end) l)
  end.
End Key_ind.

Fixpoint key_tokens (k : SearchKey) : list Token :=
  match k with
  | KLeaf words _ => words
  | KNot k => TArgument s#"NOT" :: key_tokens k
  | KOr a b => TArgument s#"OR" :: key_tokens a ++ key_tokens b
  | KParen l => ParenthesisOpen :: flat_map key_tokens l ++ [ParenthesisClose]
  end.

(** How many groups are open inside a key. *)
Fixpoint key_depth (k : SearchKey) : nat :=
  match k with
  | KLeaf _ _ => 0
  | KNot k => S (key_depth k)
  | KOr a b => S (max (key_depth a) (key_depth b))
  | KParen l => S (list_max (map key_depth l))
  end.

Section Meaning.
Variable leaf : Filter -> bool.
Fixpoint key_holds (k : SearchKey) : bool :=
  match k with
  | KLeaf _ f => leaf f
  | KNot k => negb (key_holds k)
  | KOr a b => key_holds a || key_holds b
  | KParen l => forallb key_holds l
  end.
End Meaning.

(** The filters that the parser gives are trees too: a group is an operator,
    its elements and [IEnd]. *)
Inductive FilterTree := FLeafTree (f : Filter) | FGroup (operator : Filter) (l : list FilterTree).

Fixpoint tree_filters (t : FilterTree) : list Filter :=
  match t with
  | FLeafTree f => [f]
  | FGroup operator l => operator :: flat_map tree_filters l ++ [IEnd]
  end.

(** As an argument of OR, a list in parentheses is a group unless it has a
    single element. *)
Definition as_operand (k : SearchKey) (l : list FilterTree) : list FilterTree :=
  match k with
  | KParen _ => if (length l =? 1)%nat then l else [FGroup IAnd l]
  | _ => l
  end.
Fixpoint key_trees (k : SearchKey) : list FilterTree :=
  match k with
  | KLeaf _ f => [FLeafTree f]
  | KNot k => [FGroup INot (key_trees k)]
  | KOr a b => [FGroup IOr (as_operand a (key_trees a) ++ as_operand b (key_trees b))]
  | KParen l => flat_map key_trees l
  end.

(** NOT has one key to negate; a list in parentheses with several is spliced
    into the group of the NOT, each element of which is negated. *)
Fixpoint single_negations (k : SearchKey) : bool :=
  match k with
  | KLeaf _ _ => true
  | KNot k => (length (key_trees k) =? 1)%nat && single_negations k
  | KOr a b => single_negations a && single_negations b
  | KParen l => forallb single_negations l
  end.

Section TreeMeaning.
Variable leaf : Filter -> bool.
Fixpoint tree_holds (t : FilterTree) : bool :=
  match t with
  | FLeafTree f => leaf f
  | FGroup operator l =>
      if is_or operator then existsb tree_holds l
      else if is_not operator then forallb (fun t => negb (tree_holds t)) l
      else forallb tree_holds l
  end.

Lemma as_operand_holds k : forallb tree_holds (key_trees k) = key_holds leaf k ->
  existsb tree_holds (as_operand k (key_trees k)) = key_holds leaf k.
Proof.
  intros H. destruct k as [ws f|k|a b|l]; cbn [as_operand key_trees] in *.
  1-3: cbn in *; rewrite ?orb_false_r, ?andb_true_r in *; done.
  destruct (length _ =? 1)%nat eqn:E; [|by cbn; rewrite orb_false_r].
  apply Nat.eqb_eq in E. destruct (flat_map key_trees l) as [|t [|]]; done.
Qed.

Lemma key_trees_hold k : single_negations k = true -> forallb tree_holds (key_trees k) = key_holds leaf k.
Proof.
  induction k as [ws f|k IH|a b IHa IHb|l IH] using SearchKey_nested_ind; cbn [single_negations key_trees key_holds]; intros H.
  - cbn. apply andb_true_r.
  - apply andb_true_iff in H as [Hl H]. apply Nat.eqb_eq in Hl. specialize (IH H).
    destruct (key_trees k) as [|t [|]]; try done. cbn in *. rewrite andb_true_r in *. by rewrite andb_true_r, IH.
  - apply andb_true_iff in H as [Ha Hb]. cbn. rewrite andb_true_r, existsb_app.
    by rewrite as_operand_holds, as_operand_holds by auto.
  - induction IH as [|k l Hk _ IHl]; [done|]. cbn in H |- *. apply andb_true_iff in H as [H1 H2].
    rewrite forallb_app, Hk, IHl by done. done.
Qed.
End TreeMeaning.

(** ** The parser gives the trees *)

Lemma next_token_length e ts t ts' : next_token e ts = Ok (t, ts') -> (length ts' < length ts)%nat.
Proof. destruct ts; [done|]. intros [= <- <-]. cbn. lia. Qed.

Section Correct.
Variable parse_from_str : list Z -> option Z.
Variable decoder : option (list Z -> list Z).
Notation arm_of := (arm_of parse_from_str decoder).
Notation filters_step := (filters_step parse_from_str decoder).
Notation filters_loop := (filters_loop parse_from_str decoder).

(** The words of a leaf are a key and its arguments. *)
Definition leaf_ok (words : list Token) (f : Filter) : Prop :=
  exists value args parser, words = TArgument value :: args /\ arm_of value = Key parser /\
    forall rest, parser (args ++ rest) = Ok (f, rest).
Fixpoint key_ok (k : SearchKey) : Prop :=
  match k with
  | KLeaf words f => leaf_ok words f
  | KNot k => key_ok k
  | KOr a b => key_ok a /\ key_ok b
  | KParen l => (fix all l := match l with [] => True | k :: l => key_ok k /\ all l end) l
  end.

Lemma all_ok l : (fix all l := match l with [] => True | k :: l => key_ok k /\ all l end) l <-> Forall key_ok l.
Proof. induction l as [|k l IH]; [by split|]. split; [intros [H1 H2]|intros H]; [constructor; [done|by apply IH]|]. inversion H. split; [done|by apply IH]. Qed.

(** The loop without its fuel. *)
Inductive parses : list Token -> Group * list Group -> list Token -> Group * list Group -> Prop :=
| parses_nil ts s : parses ts s ts s
| parses_step t ts g st ts1 s1 ts2 s2 : filters_step t ts g st = Ok (ts1, s1) -> (length ts1 <= length ts)%nat ->
    parses ts1 s1 ts2 s2 -> parses (t :: ts) (g, st) ts2 s2.

Lemma parses_trans ts1 s1 ts2 s2 ts3 s3 : parses ts1 s1 ts2 s2 -> parses ts2 s2 ts3 s3 -> parses ts1 s1 ts3 s3.
Proof. induction 1; [done|]. intros. econstructor; eauto. Qed.

Lemma parses_loop ts s g st : parses ts s [] (g, st) -> forall fuel, (length ts <= fuel)%nat ->
  filters_loop fuel ts (fst s) (snd s) = Some (Ok (filters g)).
Proof.
  intros H. remember ([] : list Token) as ts0. remember (g, st) as s0.
  induction H as [ts s|t ts g0 st0 ts1 [g1 st1] ts2 s2 Hs Hl _ IH]; intros fuel Hf; subst.
  - by destruct fuel.
  - destruct fuel as [|fuel]; [cbn in Hf; lia|]. cbn [fst snd ImapSearch.filters_loop]. rewrite Hs.
    apply (IH eq_refl eq_refl). cbn in Hf. lia.
Qed.

(** A state in which an element can come: OR waits for another, NOT for one. *)
Definition waiting (s : Group * list Group) : Prop :=
  match operator (fst s) with
  | IAnd => True
  | IOr => (filters_len (fst s) < 2)%nat /\ snd s <> []
  | INot => filters_len (fst s) = 0%nat /\ snd s <> []
  | _ => False
  end.

(** The state after elements came. *)
Definition settle (g : Group) (stack : list Group) : Group * list Group :=
  if is_and (operator g) || (is_or (operator g) && (filters_len g <? 2)%nat) then (g, stack) else close_groups g stack.

Lemma close_settle g prev stack : close_groups g (prev :: stack) = settle (merge_group g prev) stack.
Proof. done. Qed.

(** What a key adds to the group that waits for it. *)
Definition added (op : Filter) (k : SearchKey) : list FilterTree :=
  if is_or op then as_operand k (key_trees k) else key_trees k.
Definition add (l : list FilterTree) (g : Group) : Group :=
  MkGroup (filters g ++ flat_map tree_filters l) (operator g) (length l + filters_len g).

Lemma as_operand_one k : (match k with KParen _ => False | _ => True end -> length (key_trees k) = 1%nat) ->
  length (as_operand k (key_trees k)) = 1%nat.
Proof. intros H. destruct k; cbn [as_operand] in *; try (by apply H). case_match; [by apply Nat.eqb_eq|done]. Qed.
Lemma operand_length k : length (as_operand k (key_trees k)) = 1%nat.
Proof. apply as_operand_one. by destruct k. Qed.

(** A group that was opened around elements ends. *)
Lemma merge_single op l g : is_and op = false -> merge_group (add l (MkGroup [] op 0)) g = add [FGroup op l] g.
Proof.
  intros H. unfold merge_group, add. cbn [operator filters filters_len flat_map tree_filters length app]. rewrite H. cbn [andb].
  f_equal; [by rewrite app_nil_r|lia].
Qed.
Lemma merge_paren l g : merge_group (add (flat_map key_trees l) (MkGroup [] IAnd 0)) g = add (added (operator g) (KParen l)) g.
Proof.
  unfold merge_group, add, added, as_operand. cbn [operator filters filters_len is_and app key_trees].
  rewrite Nat.add_0_r. destruct (is_or (operator g)); cbn [negb orb andb]; [|done].
  destruct (length _ =? 1)%nat; [done|]. cbn [flat_map tree_filters app length]. f_equal; [by rewrite app_nil_r|lia].
Qed.

Lemma open_ok op g stack : (length stack <= 10)%nat -> open_group op g stack = Ok (MkGroup [] op 0, g :: stack).
Proof. intros H. unfold open_group. by rewrite (proj2 (Nat.ltb_ge _ _)). Qed.

Lemma step_open value op ts g stack : arm_of value = OpenGroup op -> (length stack <= 10)%nat ->
  filters_step (TArgument value) ts g stack = Ok (ts, (MkGroup [] op 0, g :: stack)).
Proof. intros Ha H. unfold ImapSearch.filters_step. by rewrite Ha, open_ok. Qed.
Lemma step_paren ts g stack : (length stack <= 10)%nat ->
  filters_step ParenthesisOpen ts g stack = Ok (ts, (MkGroup [] IAnd 0, g :: stack)).
Proof. intros H. unfold ImapSearch.filters_step. by rewrite open_ok. Qed.

(** Elements of a group with AND or OR that does not end yet. *)
Lemma settle_and l stack g : operator g = IAnd -> settle (add l g) stack = (add l g, stack).
Proof. intros H. unfold settle, add. cbn. by rewrite H. Qed.
Lemma add_app l l' g : add l' (add l g) = add (l ++ l') g.
Proof. unfold add. cbn. rewrite flat_map_app, length_app, app_assoc. f_equal. lia. Qed.

Lemma list_max_cons_le n k l : (list_max (k :: l) <= n)%nat <-> (k <= n /\ list_max l <= n)%nat.
Proof. unfold list_max. cbn [fold_right]. lia. Qed.

Definition adds (k : SearchKey) : Prop := forall g stack rest, waiting (g, stack) -> key_ok k ->
  (key_depth k + length stack <= 11)%nat ->
  parses (key_tokens k ++ rest) (g, stack) rest (settle (add (added (operator g) k) g) stack).

Lemma adds_all l : Forall adds l -> Forall key_ok l -> forall g stack rest, operator g = IAnd ->
  (list_max (map key_depth l) + length stack <= 11)%nat ->
  parses (flat_map key_tokens l ++ rest) (g, stack) rest (add (flat_map key_trees l) g, stack).
Proof.
  induction 1 as [|k l Hk _ IH]; intros Ho g stack rest Hg Hd.
  { cbn. unfold add. cbn. rewrite app_nil_r. destruct g; constructor. }
  apply Forall_cons_1 in Ho as [Hok Ho]. cbn [map] in Hd. assert (H1 := proj1 (list_max_cons_le (11 - length stack) (key_depth k) (map key_depth l))).
  destruct H1 as [H1 H2]; [lia|].
  assert (length stack <= 11)%nat by lia.
  cbn [flat_map]. rewrite <- app_assoc. eapply parses_trans.
  { apply Hk; [unfold waiting; cbn; by rewrite Hg|done|lia]. }
  unfold added. rewrite Hg. cbn [is_or]. rewrite settle_and by done. rewrite <- add_app. apply IH; [done|done|lia].
Qed.

Lemma leaf_added k op : match k with KParen _ => False | _ => True end -> added op k = key_trees k.
Proof. unfold added. by destruct k, (is_or op). Qed.

Lemma key_adds k : adds k.
Proof.
  induction k as [words f|k IH|a b IHa IHb|l IH] using SearchKey_nested_ind; intros g stack rest Hw Hok Hd.
  - destruct Hok as (value & args & parser & -> & Ha & Hp). cbn [key_tokens app].
    econstructor; [unfold ImapSearch.filters_step; rewrite Ha, Hp; reflexivity|rewrite length_app; lia|].
    rewrite leaf_added by done. cbn [key_trees]. unfold add, settle, end_element. cbn [operator filters filters_len flat_map tree_filters length app is_and is_or is_not].
    destruct g as [fs op n]. cbn in *. destruct op; try done; cbn [is_and is_or is_not andb orb] in *.
    + destruct stack; apply parses_nil.
    + destruct Hw as [Hn Hs]. destruct stack as [|prev stack]; [done|].
      destruct n as [|[|n]]; [apply parses_nil..|cbn in Hn; lia].
    + destruct Hw as [Hn Hs]; cbn in Hn; subst n. destruct stack as [|prev stack]; [done|]. apply parses_nil.
  - cbn [key_tokens key_depth app] in *. econstructor; [apply (step_open _ INot); [reflexivity|lia]|done|].
    eapply parses_trans; [apply IH; [done|exact Hok|cbn; lia]|].
    cbn [operator]. unfold added at 1. cbn [is_or]. unfold settle at 1. cbn [operator add is_and is_or orb andb].
    rewrite close_settle, merge_single, leaf_added by done. apply parses_nil.
  - cbn [key_tokens key_depth app] in *. destruct Hok as [Hoa Hob]. econstructor; [apply (step_open _ IOr); [reflexivity|lia]|done|].
    rewrite <- app_assoc. eapply parses_trans; [apply IHa; [cbn; split; [lia|done]|exact Hoa|cbn; lia]|].
    cbn [operator]. unfold added at 1. cbn [is_or]. unfold settle at 1. cbn [operator add is_and is_or orb andb filters_len].
    rewrite operand_length. cbn [Nat.add Nat.ltb Nat.leb].
    eapply parses_trans; [apply IHb; [cbn; split; [rewrite ?operand_length; lia|done]|exact Hob|cbn; lia]|].
    cbn [operator add]. unfold added at 1. cbn [is_or]. rewrite add_app. unfold settle at 1. cbn [operator add is_and is_or orb andb filters_len].
    rewrite length_app, !operand_length. cbn [Nat.add Nat.ltb Nat.leb].
    rewrite close_settle, merge_single, leaf_added by done. apply parses_nil.
  - cbn [key_tokens key_depth app] in *. cbn [key_ok] in Hok. apply all_ok in Hok.
    econstructor; [apply step_paren; lia|done|].
    rewrite <- app_assoc. eapply parses_trans; [apply adds_all; [exact IH|done|done|cbn; lia]|]. cbn [app].
    econstructor; [reflexivity|done|]. unfold end_element. cbn [orb]. rewrite close_settle, merge_paren. apply parses_nil.
Qed.

(** *** The loop ends *)

Definition shrinks (p : KeyParser) : Prop := forall ts f ts', p ts = Ok (f, ts') -> (length ts' <= length ts)%nat.

Lemma bind_ok {A B E} (r : result A E) (f : A -> result B E) b : rbind r f = Ok b -> exists a, r = Ok a /\ f a = Ok b.
Proof. destruct r as [a|e]; [|done]. intros H. by exists a. Qed.

Ltac bind_inv H := let E := fresh "E" in apply bind_ok in H as ([? ?] & E & H).

Lemma decode_length ts a ts' : decode_argument decoder ts = Ok (a, ts') -> (length ts' < length ts)%nat.
Proof.
  unfold decode_argument. intros H. bind_inv H. apply next_token_length in E.
  destruct decoder; [|destruct (valid _); [|done]]; by injection H as <- <-.
Qed.

Lemma plain_shrinks f : shrinks (plain f).
Proof. by intros ts f' ts' [= <- <-]. Qed.
Lemma text_shrinks f : shrinks (text decoder f).
Proof. intros ts f' ts' H. unfold text in H. bind_inv H. injection H as <- <-. apply decode_length in E. lia. Qed.
Lemma argument_shrinks {A} e (read : list Z -> result A SearchError) f : shrinks (argument e read f).
Proof.
  intros ts f' ts' H. unfold argument in H. bind_inv H. apply bind_ok in H as (a & _ & H). injection H as <- <-.
  apply next_token_length in E. lia.
Qed.
Lemma string_shrinks e f : shrinks (string e f).
Proof.
  intros ts f' ts' H. unfold string in H. bind_inv H. destruct (unwrap_string _); [|done]. injection H as <- <-.
  apply next_token_length in E. lia.
Qed.
Lemma header_shrinks : shrinks (header_key decoder).
Proof.
  intros ts f' ts' H. unfold header_key in H. bind_inv H. bind_inv H. injection H as <- <-.
  apply decode_length in E, E0. lia.
Qed.
Lemma modseq_shrinks : shrinks modseq_key.
Proof.
  intros ts f' ts' H. unfold modseq_key in H. bind_inv H. apply next_token_length in E. destruct (_ || _).
  - destruct (_ || _); [done|]. apply bind_ok in H as (? & _ & H). apply bind_ok in H as (? & _ & H). bind_inv H.
    apply bind_ok in H as (? & _ & H). injection H as <- <-. apply next_token_length in E0.
    destruct l; cbn in E0; [lia|]. cbn in E. lia.
  - apply bind_ok in H as (? & _ & H). injection H as <- <-. lia.
Qed.

Lemma keys_shrink : Forall (fun e => match snd e with Key p => shrinks p | OpenGroup _ => True end) (search_keys parse_from_str decoder).
Proof.
  repeat constructor; cbn [snd];
    first [apply plain_shrinks|apply text_shrinks|apply argument_shrinks|apply string_shrinks|apply header_shrinks|apply modseq_shrinks].
Qed.

Lemma arm_shrinks value p : arm_of value = Key p -> shrinks p.
Proof.
  unfold ImapSearch.arm_of, tiny_map_ignore_case. destruct (List.find _ _) as [[k arm]|] eqn:E; cbn.
  - intros ->. apply List.find_some in E as [E _]. pose proof keys_shrink as H. rewrite List.Forall_forall in H. exact (H _ E).
  - intros [= <-] ts f ts' H. apply bind_ok in H as (s & _ & H). by injection H as <- <-.
Qed.

Lemma step_shrinks t ts g stack ts' s : filters_step t ts g stack = Ok (ts', s) -> (length ts' <= length ts)%nat.
Proof.
  assert (forall op, (let? x := open_group op g stack in Ok (ts, x)) = Ok (ts', s) -> (length ts' <= length ts)%nat) as Hopen.
  { intros op H. bind_inv H. by injection H as <- <-. }
  destruct t; cbn; try done.
  - destruct (arm_of b) eqn:Ea; [|apply Hopen]. intros H. bind_inv H. injection H as <- <-. by apply (arm_shrinks _ _ Ea) in E.
  - apply Hopen.
  - destruct stack; [done|]. by intros [= <- <-].
Qed.

Lemma filters_loop_total fuel : forall ts g stack, (length ts <= fuel)%nat -> filters_loop fuel ts g stack <> None.
Proof.
  induction fuel as [|fuel IH]; intros [|t ts] g stack H; try done; [cbn in H; lia|].
  cbn [ImapSearch.filters_loop]. destruct (filters_step t ts g stack) as [[ts' [g' stack']]|e] eqn:E; [|done].
  apply IH. apply step_shrinks in E. cbn in H. lia.
Qed.

(** The parser has fuel enough for any tokens. *)
Lemma parse_filters_total ts : parse_filters parse_from_str ts decoder <> None.
Proof. unfold parse_filters. exact (filters_loop_total _ _ _ _ (le_n _)). Qed.

(** *** Keys are not options *)

Lemma letters_no_sequence value c cs : to_ascii_lowercase <$> value = c :: cs -> is_ascii_lowercase c = true ->
  exists e, parse_sequence_set value = Err e.
Proof.
  destruct value as [|x value]; [done|]. cbn. intros [= Hx _] Hc.
  unfold parse_sequence_set. cbn [seq_loop]. unfold char_step.
  unfold to_ascii_lowercase, is_ascii_lowercase, is_ascii_uppercase in *.
  assert (97 <= x <= 122 \/ 65 <= x <= 90) as H by (destruct ((65 <=? x) && (x <=? 90)) eqn:E; lia).
  repeat (rewrite (proj2 (Z.eqb_neq x _)) by lia). unfold is_ascii_digit. replace ((48 <=? x) && (x <=? 57)) with false by lia. by eexists.
Qed.

(** A word in the place of options. *)
Definition is_option (t : Token) : bool :=
  match t with TArgument value => eq_ignore_ascii_case value s#"return" || eq_ignore_ascii_case value s#"charset" | _ => false end.

Lemma leaf_no_option value parser ts f ts' name : arm_of value = Key parser -> parser ts = Ok (f, ts') ->
  tiny_map_ignore_case (search_keys parse_from_str decoder) name = None ->
  match to_ascii_lowercase <$> name with c :: _ => is_ascii_lowercase c = true | [] => False end ->
  eq_ignore_ascii_case value name = false.
Proof.
  intros Ha Hp Hn Hl. destruct (eq_ignore_ascii_case value name) eqn:E; [|done]. exfalso.
  unfold eq_ignore_ascii_case in E. apply bytes_eqb_eq in E. unfold ImapSearch.arm_of in Ha.
  rewrite (tiny_map_ignore_case_key _ value name E), Hn in Ha. injection Ha as <-.
  destruct (to_ascii_lowercase <$> name) as [|c cs]; [done|]. destruct (letters_no_sequence value c cs E Hl) as [e He].
  rewrite He in Hp. done.
Qed.

Lemma key_first k : key_ok k ->
  match key_tokens k with t :: _ => is_option t = false | [] => False end.
Proof.
  intros H. destruct k as [words f|k|a b|l]; [|reflexivity..].
  destruct H as (value & args & parser & -> & Ha & Hp). cbn. apply orb_false_iff.
  split; apply (leaf_no_option value parser (args ++ []) f [] _ Ha (Hp [])); reflexivity.
Qed.

Lemma keys_no_options charset_decoder k l fuel esearch : key_ok k ->
  search_options charset_decoder fuel (flat_map key_tokens (k :: l)) [] None esearch = Ok (flat_map key_tokens (k :: l), [], None, esearch).
Proof.
  intros H. pose proof (key_first k H) as Hf. cbn [flat_map]. destruct (key_tokens k) as [|t ts]; [done|]. cbn [app].
  destruct fuel; [by destruct t|]. destruct t; [|done..]. cbn in Hf |- *. apply orb_false_iff in Hf as [-> ->]. done.
Qed.

Lemma parse_filters_keys l : Forall key_ok l -> Forall (fun k => (key_depth k <= 11)%nat) l ->
  parse_filters parse_from_str (flat_map key_tokens l) decoder = Some (Ok (flat_map tree_filters (flat_map key_trees l))).
Proof.
  intros Hok Hd.
  assert (parses (flat_map key_tokens l ++ []) (MkGroup [] IAnd 0, []) [] (add (flat_map key_trees l) (MkGroup [] IAnd 0), [])) as H.
  { apply adds_all; [apply list.Forall_forall; intros k _; apply key_adds|done|done|]. cbn. rewrite Nat.add_0_r. clear Hok.
    induction Hd as [|k l H _ IH]; [cbn; lia|]. cbn [map]. by apply list_max_cons_le. }
  rewrite app_nil_r in H. unfold parse_filters. exact (parses_loop _ _ _ _ H (length (flat_map key_tokens l)) (le_n _)).
Qed.

(** C19: the words of a list of search keys, nested in up to eleven groups,
    are parsed to the keys as trees, in prefix form; and where every NOT has a
    single key to negate, the trees say of a message what the keys say, for
    whatever the leaves mean. *)
Theorem keys_parsed l : Forall key_ok l -> Forall (fun k => (key_depth k <= 11)%nat) l ->
  parse_filters parse_from_str (flat_map key_tokens l) decoder = Some (Ok (flat_map tree_filters (flat_map key_trees l))) /\
  (forallb single_negations l = true -> forall leaf,
    forallb (tree_holds leaf) (flat_map key_trees l) = forallb (key_holds leaf) l).
Proof.
  intros Hok Hd. split; [by apply parse_filters_keys|]. intros Hs leaf. exact (key_trees_hold leaf (KParen l) Hs).
Qed.
End Correct.

(** A whole command. *)
Lemma parse_search_keys charset_decoder parse_from_str request version k l :
  tokens request = flat_map key_tokens (k :: l) ->
  Forall (key_ok parse_from_str None) (k :: l) -> Forall (fun k => (key_depth k <= 11)%nat) (k :: l) ->
  flat_map key_trees (k :: l) <> [] ->
  parse_search charset_decoder parse_from_str request version =
    Some (Ok (MkArguments (tag request) (is_rev2 version) None [] (flat_map tree_filters (flat_map key_trees (k :: l))))).
Proof.
  intros Ht Hok Hd Hn. assert (tokens request <> []) as Hne.
  { rewrite Ht. cbn [flat_map]. inversion Hok as [|? ? Hk _]; subst. pose proof (key_first parse_from_str None k Hk). by destruct (key_tokens k). }
  unfold parse_search. destruct (tokens request) as [|t ts] eqn:E; [done|]. rewrite Ht.
  rewrite (keys_no_options parse_from_str None) by (by inversion Hok).
  rewrite parse_filters_keys by done. unfold some_filters.
  destruct (flat_map key_trees (k :: l)) as [|x xs]; [done|]. cbn [flat_map]. by destruct x.
Qed.

(** ** Examples *)

Module Demo.
(** No character sets, and dates of one day. *)
Definition no_charset (name : list Z) : option (list Z -> list Z) := None.
Definition one_day (text : list Z) : option Z := if bytes_eqb text s#"1-Feb-1994" then Some 760060800 else None.

Definition word (w : list Z) (f : Filter) : SearchKey := KLeaf [TArgument w] f.
Definition with_argument (w a : list Z) (f : Filter) : SearchKey := KLeaf [TArgument w; TArgument a] f.

Definition parse (tokens : list Token) := parse_filters one_day tokens None.

(** FLAGGED SINCE 1-Feb-1994 OR (SEEN NOT FROM "Smith") 5:7 *)
Definition keys : list SearchKey :=
  [ word s#"FLAGGED" IFlagged; with_argument s#"SINCE" s#"1-Feb-1994" (ISince 760060800);
    KOr (KParen [word s#"SEEN" ISeen; KNot (with_argument s#"from" s#"Smith" (IFrom s#"Smith"))])
      (word s#"5:7" (ISequence (Range (Some 5) (Some 7)) false)) ].

Lemma plain_key_ok w f : arm_of one_day None w = Key (plain f) -> key_ok one_day None (word w f).
Proof. intros H. exists w, [], (plain f). split; [done|]. by split. Qed.

Lemma keys_parsed_witness :
  parse (flat_map key_tokens keys) = Some (Ok [IFlagged; ISince 760060800;
    IOr; IAnd; ISeen; INot; IFrom s#"Smith"; IEnd; IEnd; ISequence (Range (Some 5) (Some 7)) false; IEnd]) /\
  forall leaf, forallb (tree_holds leaf) (flat_map key_trees keys) = forallb (key_holds leaf) keys.
Proof.
  assert (Forall (key_ok one_day None) keys) as Hok.
  { repeat constructor.
    - eexists _, [], _. split; [reflexivity|]. split; reflexivity.
    - eexists _, [_], _. split; [reflexivity|]. split; reflexivity.
    - eexists _, [], _. split; [reflexivity|]. split; reflexivity.
    - eexists _, [_], _. split; [reflexivity|]. split; reflexivity.
    - eexists _, [], _. split; [reflexivity|]. split; reflexivity. }
  destruct (keys_parsed one_day None keys Hok ltac:(repeat constructor)) as [H1 H2].
  split; [exact H1|]. exact (H2 eq_refl).
Defined.

Module Findings.
(** NOT of a list: none of the keys holds, instead of not all of them. *)
Definition not_both : SearchKey := KNot (KParen [word s#"SEEN" ISeen; word s#"ANSWERED" IAnswered]).
Definition seen_only (f : Filter) : bool := match f with ISeen => true | _ => false end.
Lemma not_of_list_negates_each :
  parse (key_tokens not_both) = Some (Ok [INot; ISeen; IAnswered; IEnd]) /\
  key_holds seen_only not_both = true /\ forallb (tree_holds seen_only) (key_trees not_both) = false.
Proof. done. Qed.

(** A group that does not end takes the place of the filters before it. *)
Lemma open_group_drops_filters :
  parse [TArgument s#"UNDELETED"; TArgument s#"OR"; TArgument s#"SEEN"] = Some (Ok [ISeen]) /\
  parse [TArgument s#"UNDELETED"; ParenthesisOpen; TArgument s#"SEEN"] = Some (Ok [ISeen]).
Proof. done. Qed.
End Findings.
End Demo.
