(* ===== verification/Utf7.v ===== *)
(** * Modified UTF-7 mailbox names ([crates/imap-proto/src/utf7.rs])

    The encoder turns a text into ASCII with base64 runs of its UTF-16
    units, the decoder reads it back.  A text is the list of its characters
    (Unicode scalar values). *)

From S2P Require Import Prelude Utf8.

(** ** UTF-16: [str::encode_utf16] and [String::from_utf16] *)

Definition encode_utf16_char (c : Z) : list Z :=
  if c <? 65536 then [c]
  else [55296 + (c - 65536) / 1024; 56320 + (c - 65536) mod 1024].

Definition encode_utf16 (text : list Z) : list Z := text ≫= encode_utf16_char.

Fixpoint from_utf16 (units : list Z) : option (list Z) :=
  match units with
  | [] => Some []
  | u :: rest =>
      if (u <? 55296) || (57344 <=? u) then cons u <$> from_utf16 rest
      else if u <? 56320 then
        match rest with
        | w :: rest =>
            if (56320 <=? w) && (w <? 57344) then
              cons (65536 + (u - 55296) * 1024 + (w - 56320)) <$> from_utf16 rest
            else None
        | [] => None
        end
      else None
  end.

Lemma from_encode_utf16 text : scalars text -> from_utf16 (encode_utf16 text) = Some text.
Proof.
  induction 1 as [|c text Hc _ IH]; [done|].
  change (encode_utf16 (c :: text)) with (encode_utf16_char c ++ encode_utf16 text).
  unfold encode_utf16_char, is_scalar in *.
  destruct (Z.ltb_spec c 65536); cbn [app from_utf16].
  - replace ((c <? 55296) || (57344 <=? c)) with true by lia. by rewrite IH.
  - pose proof (Z.div_mod (c - 65536) 1024). pose proof (Z.mod_pos_bound (c - 65536) 1024).
    assert (0 <= (c - 65536) / 1024 < 1024) by lia.
    repeat decide_if. rewrite IH. simpl. f_equal. f_equal. lia.
Qed.

(** ** Tables *)

(* [crates/imap-proto/src/utf7.rs:10-17] UTF_7_RANK *)
Definition UTF_7_RANK : list Z :=
  replicate 43 255 ++ [62; 63; 255; 255; 255] ++ seqZ 52 10 ++ replicate 7 255 ++
  seqZ 0 26 ++ replicate 6 255 ++ seqZ 26 26 ++ replicate 5 255.

(* [crates/imap-proto/src/utf7.rs:19] UTF_7_MAP *)
Definition UTF_7_MAP : list Z :=
  s#"ABCDEFGHIJKLMNOPQRSTUVWXYZabcdefghijklmnopqrstuvwxyz0123456789+,".

(** ** The decoder *)

Record Dec := MkDec { d_units : list Z; d_bits : Z; d_v : Z; d_shifted : bool }.

(** The branch of a character inside a base64 run; [None] is the return of
    [None]. *)
(* [crates/imap-proto/src/utf7.rs:30-50] utf7_decode *)
Definition decode_shifted (ch : Z) (d : Dec) : option Dec :=
  if ch =? c#"-" then Some (MkDec (d_units d) 0 0 false)
  else if 127 <? ch then None
  else
    rank ← UTF_7_RANK !! Z.to_nat ch;
    if rank =? 255 then None
    else
      let v := Z.lor (wrap 32 (Z.shiftl (d_v d) 6)) rank in
      let bits := d_bits d + 6 in
      if 16 <=? bits then
        Some (MkDec (d_units d ++ [wrap 16 (Z.land (Z.shiftr v (bits - 16)) 65535)]) (bits - 16) v true)
      else Some (MkDec (d_units d) bits v true).

(** [text.peek()] looks at the next character of the rest; a [-] found there
    is consumed. *)
(* [crates/imap-proto/src/utf7.rs:28-67] utf7_decode, the loop *)
Fixpoint decode_loop (text : list Z) (d : Dec) : option Dec :=
  match text with
  | [] => Some d
  | ch :: text =>
      if d_shifted d then d ← decode_shifted ch d; decode_loop text d
      else if ch =? c#"&" then
        match text with
        | [] => Some (MkDec (d_units d ++ [wrap 16 ch]) (d_bits d) (d_v d) false)
        | next :: text' =>
            if next =? c#"-" then
              decode_loop text' (MkDec (d_units d ++ [c#"&"]) (d_bits d) (d_v d) false)
            else decode_loop text (MkDec (d_units d) (d_bits d) (d_v d) true)
        end
      else decode_loop text (MkDec (d_units d ++ [wrap 16 ch]) (d_bits d) (d_v d) false)
  end.

(* [crates/imap-proto/src/utf7.rs:21-70] utf7_decode *)
Definition utf7_decode (text : list Z) : option (list Z) :=
  d ← decode_loop text (MkDec [] 0 0 false); from_utf16 (d_units d).

(** ** The encoder *)

Record Enc := MkEnc { e_result : list Z; e_shifted : bool; e_bits : Z; e_u : Z }.

Definition map64 (i : Z) : list Z := option_list (UTF_7_MAP !! Z.to_nat (Z.land i 63)).

(** The end of a base64 run: the bits left, then [-]. *)
(* [crates/imap-proto/src/utf7.rs:80-87] utf7_encode *)
Definition unshift (e : Enc) : Enc :=
  MkEnc (e_result e ++
    (if 0 <? e_bits e then map64 (wrap 32 (Z.shiftl (e_u e) (6 - e_bits e))) else []) ++ [c#"-"])
    false 0 (e_u e).

(** [while bits >= 6]; at most three turns, since a run never has more than
    five bits left before the sixteen of a unit are added. *)
(* [crates/imap-proto/src/utf7.rs:103-106] utf7_encode *)
Fixpoint emit_sextets (fuel : nat) (e : Enc) : Enc :=
  match fuel with
  | O => e
  | S fuel =>
      if 6 <=? e_bits e then
        emit_sextets fuel (MkEnc (e_result e ++ map64 (Z.shiftr (e_u e) (e_bits e - 6)))
                             (e_shifted e) (e_bits e - 6) (e_u e))
      else e
  end.

(* [crates/imap-proto/src/utf7.rs:78-108] utf7_encode, the loop *)
Definition encode_unit (e : Enc) (ch : Z) : Enc :=
  if (32 <=? ch) && (ch <? 127) then
    let e := if e_shifted e then unshift e else e in
    MkEnc (e_result e ++ (if ch =? 38 then s#"&-" else [ch])) (e_shifted e) (e_bits e) (e_u e)
  else
    let e := if negb (e_shifted e) then MkEnc (e_result e ++ [c#"&"]) true (e_bits e) (e_u e) else e in
    emit_sextets 3 (MkEnc (e_result e) (e_shifted e) (e_bits e + 16)
                      (Z.lor (wrap 32 (Z.shiftl (e_u e) 16)) ch)).

(* [crates/imap-proto/src/utf7.rs:72-118] utf7_encode *)
Definition utf7_encode (text : list Z) : list Z :=
  let e := fold_left encode_unit (encode_utf16 text) (MkEnc [] false 0 0) in
  let e := if e_shifted e then unshift e else e in
  e_result e.

(* [crates/imap-proto/src/utf7.rs:121-127] utf7_maybe_decode *)
Definition utf7_maybe_decode (text : list Z) (is_utf8 : bool) : list Z :=
  if is_utf8 then text
  else match utf7_decode text with Some t => t | None => text end.

Example decode_taipei : utf7_decode s#"~peter/mail/&U,BTFw-" = Some (s#"~peter/mail/" ++ [21488; 21271]).
Proof. reflexivity. Qed.
Example encode_smiley : utf7_encode (s#"Hi Mom -" ++ [9786] ++ s#"-!&") = s#"Hi Mom -&Jjo--!&-".
Proof. reflexivity. Qed.

(** A character past the first plane that is written as it is loses its high
    bits. *)
Example decode_truncates : utf7_decode [128516] = Some [62980].
Proof. reflexivity. Qed.

(** ** Round trip *)

Lemma map64_spec s :
  exists c, map64 s = [c] /\ c <> c#"-" /\ 0 <= c <= 127 /\
    UTF_7_RANK !! Z.to_nat c = Some (s mod 64) /\ s mod 64 <> 255.
Proof.
  unfold map64. change 63 with (2 ^ 6 - 1). rewrite land_low by lia. change (2 ^ 6) with 64.
  pose proof (Z.mod_pos_bound s 64) as Hr. set (r := s mod 64) in *. clearbody r.
  assert (forall x, In x (seqZ 0 64) ->
    match UTF_7_MAP !! Z.to_nat x with
    | Some c => negb (c =? c#"-") && (0 <=? c) && (c <=? 127) &&
        match UTF_7_RANK !! Z.to_nat c with Some k => k =? x | None => false end
    | None => false
    end = true) as H.
  { apply forallb_forall. vm_compute. reflexivity. }
  specialize (H r). rewrite <- list_elem_of_In, elem_of_seqZ in H. specialize (H ltac:(lia)).
  destruct (UTF_7_MAP !! Z.to_nat r) as [c|]; [|done]. exists c.
  destruct (UTF_7_RANK !! Z.to_nat c) as [k|].
  - bool_to_prop. subst. split_and!; try done; try lia.
  - by rewrite andb_false_r in H.
Qed.

(** The decoder inside a base64 run, after [units], with the [n] bits of [x]
    read of the next unit. *)
Definition in_run (units : list Z) (n x : Z) (d : Dec) : Prop :=
  d_units d = units /\ d_bits d = n /\ d_shifted d = true /\ 0 <= d_v d /\ d_v d mod 2 ^ n = x.

Lemma shifted_word v n r :
  0 <= n <= 14 -> 0 <= v -> 0 <= r < 64 ->
  0 <= Z.lor (wrap 32 (Z.shiftl v 6)) r /\
  Z.lor (wrap 32 (Z.shiftl v 6)) r mod 2 ^ (n + 6) = (v mod 2 ^ n) * 64 + r.
Proof.
  intros Hn Hv Hr.
  assert (wrap 32 (Z.shiftl v 6) = Z.shiftl (v mod 2 ^ 26) 6) as ->.
  { unfold wrap. rewrite !Z.shiftl_mul_pow2 by lia. change (2 ^ 32) with (2 ^ 26 * 2 ^ 6).
    by rewrite Z.mul_mod_distr_r by lia. }
  rewrite Z.lor_comm, lor_shiftl_disjoint by (lia || (split; [lia|change (2 ^ 6) with 64; lia])).
  pose proof (Z.mod_pos_bound v (2 ^ 26)). split; [lia|].
  rewrite Z.pow_add_r by lia. change (2 ^ 6) with 64.
  assert (0 < 2 ^ n) by (apply Z.pow_pos_nonneg; lia).
  replace (v mod 2 ^ n) with ((v mod 2 ^ 26) mod 2 ^ n).
  2: { rewrite <- Znumtheory.Zmod_div_mod; [done|lia|lia|].
       exists (2 ^ (26 - n)). rewrite <- Z.pow_add_r by lia. f_equal. lia. }
  set (w := v mod 2 ^ 26) in *. pose proof (Z.div_mod w (2 ^ n)). pose proof (Z.mod_pos_bound w (2 ^ n)).
  symmetry. apply Z.mod_unique with (w / 2 ^ n); [left; nia|nia].
Qed.

Lemma run_sextet units n x d s :
  in_run units n x d -> 0 <= n <= 14 ->
  exists d', (forall rest, decode_loop (map64 s ++ rest) d = decode_loop rest d') /\
    let y := x * 64 + s mod 64 in
    if n + 6 <? 16 then in_run units (n + 6) y d'
    else in_run (units ++ [y / 2 ^ (n - 10)]) (n - 10) (y mod 2 ^ (n - 10)) d'.
Proof.
  intros (Hu & Hb & Hs & Hv & Hx) Hn.
  destruct (map64_spec s) as (c & -> & Hd & Hc & Hk & Hne).
  pose proof (Z.mod_pos_bound s 64) as Hr. set (r := s mod 64) in *. clearbody r.
  assert (forall rest, decode_loop ([c] ++ rest) d =
    d' ← (let v := Z.lor (wrap 32 (Z.shiftl (d_v d) 6)) r in
      let bits := d_bits d + 6 in
      if 16 <=? bits then
        Some (MkDec (d_units d ++ [wrap 16 (Z.land (Z.shiftr v (bits - 16)) 65535)]) (bits - 16) v true)
      else Some (MkDec (d_units d) bits v true)); decode_loop rest d') as Hloop.
  { intros rest. cbn [app decode_loop]. rewrite Hs. unfold decode_shifted.
    replace (c =? c#"-") with false by lia. replace (127 <? c) with false by lia.
    unfold mbind, option_bind. rewrite Hk. by replace (r =? 255) with false by lia. }
  destruct (shifted_word (d_v d) n r) as [Hv' Hy]; [lia|lia|lia|].
  set (v' := Z.lor (wrap 32 (Z.shiftl (d_v d) 6)) r) in *. clearbody v'.
  rewrite Hx in Hy. rewrite Hb in Hloop. cbv zeta in Hloop |- *.
  destruct (Z.leb_spec 16 (n + 6)) as [H16|H16].
  - replace (n + 6 <? 16) with false by lia. eexists. split; [exact Hloop|].
    unfold in_run; simpl. rewrite Hu.
    replace (n + 6 - 16) with (n - 10) by lia.
    assert (0 < 2 ^ (n - 10)) by (apply Z.pow_pos_nonneg; lia).
    assert (2 ^ (n + 6) = 2 ^ (n - 10) * 2 ^ 16) as Hp by (rewrite <- Z.pow_add_r by lia; f_equal; lia).
    split_and!; try done.
    + f_equal. f_equal. change 65535 with (2 ^ 16 - 1). rewrite land_low by lia.
      unfold wrap. rewrite Z.mod_mod by lia. rewrite Z.shiftr_div_pow2 by lia.
      rewrite <- Hy, Hp. rewrite Z.rem_mul_r by lia.
      rewrite Z.mul_comm, Z.div_add by lia.
      rewrite (Z.div_small (v' mod _)) by (apply Z.mod_pos_bound; lia). lia.
    + rewrite <- Hy, Hp. rewrite Z.rem_mul_r by lia.
      rewrite Z.mul_comm, Z.mod_add, Z.mod_mod by lia. done.
  - replace (n + 6 <? 16) with true by lia. eexists. split; [exact Hloop|].
    unfold in_run; simpl. split_and!; done.
Qed.

(** Where the decoder is after the whole sextets of a run of the units [us],
    of which [b] bits, the low bits of [u], are left. *)
Definition aligned (us : list Z) (b u : Z) (d : Dec) : Prop :=
  (b = 0 /\ in_run us 0 0 d) \/
  ((b = 2 \/ b = 4) /\ exists us' last,
     us = us' ++ [last] /\ in_width 16 last /\
     in_run us' (16 - b) (last / 2 ^ b) d /\ u mod 2 ^ b = last mod 2 ^ b).

(** The encoder after the units [us], and the decoder after its output. *)
Definition related (us : list Z) (e : Enc) : Prop :=
  0 <= e_u e /\
  if e_shifted e then
    exists d, (forall rest, decode_loop (e_result e ++ rest) (MkDec [] 0 0 false) = decode_loop rest d) /\
    aligned us (e_bits e) (e_u e) d
  else
    e_bits e = 0 /\
    forall rest, decode_loop (e_result e ++ rest) (MkDec [] 0 0 false) = decode_loop rest (MkDec us 0 0 false).

Lemma run_dash units n x d rest :
  in_run units n x d -> decode_loop (c#"-" :: rest) d = decode_loop rest (MkDec units 0 0 false).
Proof. intros (Hu & Hb & Hs & _). cbn [decode_loop]. rewrite Hs. unfold decode_shifted. cbn. by rewrite Hu. Qed.

Lemma pad_sextet u b : 0 <= b <= 4 -> 0 <= u ->
  wrap 32 (Z.shiftl u (6 - b)) mod 64 = (u mod 2 ^ b) * 2 ^ (6 - b).
Proof.
  intros Hb Hu. unfold wrap. change (2 ^ 32) with (64 * 2 ^ 26).
  rewrite Z.rem_mul_r by lia. rewrite (Z.mul_comm 64), Z.mod_add, Z.mod_mod by lia.
  rewrite Z.shiftl_mul_pow2 by lia.
  replace 64 with (2 ^ b * 2 ^ (6 - b)) by (rewrite <- Z.pow_add_r by lia; by replace (b + (6 - b)) with 6 by lia).
  assert (0 < 2 ^ b) by (apply Z.pow_pos_nonneg; lia).
  assert (0 < 2 ^ (6 - b)) by (apply Z.pow_pos_nonneg; lia).
  by rewrite Z.mul_mod_distr_r by lia.
Qed.

Lemma related_unshift us e : related us e -> e_shifted e = true -> related us (unshift e).
Proof.
  intros (Hu & He) Hs. rewrite Hs in He. destruct He as (d & Hd & Hst).
  split; [done|]. unfold unshift; simpl. split; [done|]. intros rest.
  rewrite <- app_assoc, Hd. destruct Hst as [(Hb & Hr)|(Hb & us' & last & -> & Hl & Hr & Hm)].
  - rewrite Hb. cbn [Z.ltb Z.compare app]. by eapply run_dash.
  - replace (0 <? e_bits e) with true by lia. rewrite <- app_assoc.
    destruct (run_sextet us' _ _ d (wrap 32 (Z.shiftl (e_u e) (6 - e_bits e))) Hr)
      as (d' & Hd' & Hr'); [lia|]. rewrite Hd'.
    rewrite pad_sextet, Hm in Hr' by lia.
    replace (16 - e_bits e + 6 <? 16) with false in Hr' by lia. cbn [app].
    rewrite (run_dash _ _ _ _ _ Hr'). f_equal. f_equal. f_equal. f_equal.
    unfold in_width in Hl. destruct Hb as [-> | ->]; simpl;
      Z.to_euclidean_division_equations; lia.
Qed.

(** The unit's value joined to the bits left of the one before. *)
Lemma unit_word u ch b :
  0 <= b <= 4 -> 0 <= u -> in_width 16 ch ->
  let y := Z.lor (wrap 32 (Z.shiftl u 16)) ch in
  0 <= y /\ y mod 2 ^ (b + 16) = (u mod 2 ^ b) * 65536 + ch.
Proof.
  intros Hb Hu Hch.
  assert (wrap 32 (Z.shiftl u 16) = Z.shiftl (u mod 2 ^ 16) 16) as ->.
  { unfold wrap. rewrite !Z.shiftl_mul_pow2 by lia. change (2 ^ 32) with (2 ^ 16 * 2 ^ 16).
    by rewrite Z.mul_mod_distr_r by lia. }
  rewrite Z.lor_comm, lor_shiftl_disjoint by (done || lia).
  unfold in_width in Hch. change (2 ^ 16) with 65536 in *. intros y.
  pose proof (Z.mod_pos_bound u 65536). split; [lia|].
  unfold y. rewrite Z.pow_add_r by lia. change (2 ^ 16) with 65536.
  assert (0 < 2 ^ b) by (apply Z.pow_pos_nonneg; lia).
  replace (u mod 2 ^ b) with ((u mod 65536) mod 2 ^ b).
  2: { rewrite <- Znumtheory.Zmod_div_mod; [done|lia|lia|].
       exists (2 ^ (16 - b)). change 65536 with (2 ^ 16). rewrite <- Z.pow_add_r by lia. f_equal. lia. }
  set (w := u mod 65536) in *. pose proof (Z.div_mod w (2 ^ b)). pose proof (Z.mod_pos_bound w (2 ^ b)).
  symmetry. apply Z.mod_unique with (w / 2 ^ b); [left; nia|nia].
Qed.

Lemma sextet_of y k b : 0 <= k -> k + 6 <= b -> Z.shiftr y k mod 64 = (y mod 2 ^ b) / 2 ^ k mod 64.
Proof.
  intros Hk Hb. rewrite Z.shiftr_div_pow2 by done.
  change 64 with (2 ^ 6). apply Z.bits_inj'. intros i Hi.
  rewrite !Z.testbit_mod_pow2 by lia. destruct (Z.ltb_spec i 6); [|done]. simpl.
  rewrite <- !Z.shiftr_div_pow2, !Z.shiftr_spec by lia.
  rewrite Z.testbit_mod_pow2 by lia. replace (i + k <? b) with true by lia. done.
Qed.

Lemma word_low u ch b k y :
  y mod 2 ^ (b + 16) = (u mod 2 ^ b) * 65536 + ch -> 0 <= k <= 4 -> 0 <= b ->
  y mod 2 ^ k = ch mod 2 ^ k.
Proof.
  intros Hm Hk Hb. transitivity ((y mod 2 ^ (b + 16)) mod 2 ^ k).
  - rewrite <- Znumtheory.Zmod_div_mod; [done|apply Z.pow_pos_nonneg; lia..|].
    exists (2 ^ (b + 16 - k)). rewrite <- Z.pow_add_r by lia. f_equal. lia.
  - rewrite Hm. replace 65536 with (2 ^ (16 - k) * 2 ^ k) by (rewrite <- Z.pow_add_r by lia;
      by replace (16 - k + k) with 16 by lia).
    rewrite Z.mul_assoc, Z.add_comm, Z.mod_add; [done|]. apply Z.pow_nonzero; lia.
Qed.

(** The sextets of one more unit, by the number of bits left before it. *)
Lemma run_unit_0 us y ch d :
  in_run us 0 0 d -> 0 <= ch < 65536 -> y mod 2 ^ (0 + 16) = ch ->
  exists d', (forall rest,
      decode_loop (map64 (Z.shiftr y 10) ++ map64 (Z.shiftr y 4) ++ rest) d = decode_loop rest d') /\
    in_run us 12 (ch / 2 ^ 4) d'.
Proof.
  intros Hr Hch Hm. pose proof (fun k => sextet_of y k (0 + 16)) as Hsx. rewrite Hm in Hsx.
  destruct (run_sextet _ _ _ _ (Z.shiftr y 10) Hr) as (d1 & E1 & H1); [lia|].
  destruct (run_sextet _ _ _ _ (Z.shiftr y 4) H1) as (d2 & E2 & H2); [lia|].
  exists d2. split; [by intros rest; rewrite E1, E2|]. rewrite !Hsx in H2 by lia. cbv zeta in H2.
  change (0 + 6 + 6 <? 16) with true in H2. cbv iota in H2. change (0 + 6 + 6) with 12 in H2.
  replace (ch / 2 ^ 4) with ((0 * 64 + ch / 2 ^ 10 mod 64) * 64 + ch / 2 ^ 4 mod 64); [exact H2|].
  change (2 ^ 10) with 1024. change (2 ^ 4) with 16. Z.to_euclidean_division_equations; lia.
Qed.

Lemma run_unit_4 us last y ch d :
  in_run us 12 (last / 2 ^ 4) d -> 0 <= last < 65536 -> 0 <= ch < 65536 ->
  y mod 2 ^ (4 + 16) = (last mod 2 ^ 4) * 65536 + ch ->
  exists d', (forall rest,
      decode_loop (map64 (Z.shiftr y 14) ++ map64 (Z.shiftr y 8) ++ map64 (Z.shiftr y 2) ++ rest) d =
      decode_loop rest d') /\
    in_run (us ++ [last]) 14 (ch / 2 ^ 2) d'.
Proof.
  intros Hr Hl Hch Hm. pose proof (fun k => sextet_of y k (4 + 16)) as Hsx. rewrite Hm in Hsx.
  destruct (run_sextet _ _ _ _ (Z.shiftr y 14) Hr) as (d1 & E1 & H1); [lia|].
  cbv zeta in H1. change (12 + 6 <? 16) with false in H1. cbv iota in H1. change (12 - 10) with 2 in H1.
  destruct (run_sextet _ _ _ _ (Z.shiftr y 8) H1) as (d2 & E2 & H2); [lia|].
  cbv zeta in H2. change (2 + 6 <? 16) with true in H2. cbv iota in H2.
  destruct (run_sextet _ _ _ _ (Z.shiftr y 2) H2) as (d3 & E3 & H3); [lia|].
  cbv zeta in H3. change (2 + 6 + 6 <? 16) with true in H3. cbv iota in H3. change (2 + 6 + 6) with 14 in H3.
  exists d3. split; [by intros rest; rewrite E1, E2, E3|]. rewrite !Hsx in H3 by lia.
  change (2 ^ 14) with 16384 in *. change (2 ^ 8) with 256 in *. change (2 ^ 4) with 16 in *. change (2 ^ 2) with 4 in *.
  set (w := last mod 16 * 65536 + ch) in *.
  replace ((last / 16 * 64 + w / 16384 mod 64) / 4) with last in H3
    by (unfold w; Z.to_euclidean_division_equations; lia).
  replace (ch / 4) with (((last / 16 * 64 + w / 16384 mod 64) mod 4 * 64 + w / 256 mod 64) * 64 + w / 4 mod 64);
    [exact H3|].
  unfold w; Z.to_euclidean_division_equations; lia.
Qed.

Lemma run_unit_2 us last y ch d :
  in_run us 14 (last / 2 ^ 2) d -> 0 <= last < 65536 -> 0 <= ch < 65536 ->
  y mod 2 ^ (2 + 16) = (last mod 2 ^ 2) * 65536 + ch ->
  exists d', (forall rest,
      decode_loop (map64 (Z.shiftr y 12) ++ map64 (Z.shiftr y 6) ++ map64 (Z.shiftr y 0) ++ rest) d =
      decode_loop rest d') /\
    in_run ((us ++ [last]) ++ [ch]) 0 0 d'.
Proof.
  intros Hr Hl Hch Hm. pose proof (fun k => sextet_of y k (2 + 16)) as Hsx. rewrite Hm in Hsx.
  destruct (run_sextet _ _ _ _ (Z.shiftr y 12) Hr) as (d1 & E1 & H1); [lia|].
  cbv zeta in H1. change (14 + 6 <? 16) with false in H1. cbv iota in H1. change (14 - 10) with 4 in H1.
  destruct (run_sextet _ _ _ _ (Z.shiftr y 6) H1) as (d2 & E2 & H2); [lia|].
  cbv zeta in H2. change (4 + 6 <? 16) with true in H2. cbv iota in H2.
  destruct (run_sextet _ _ _ _ (Z.shiftr y 0) H2) as (d3 & E3 & H3); [lia|].
  cbv zeta in H3. change (4 + 6 + 6 <? 16) with false in H3. cbv iota in H3. change (4 + 6 - 10) with 0 in H3.
  exists d3. split; [by intros rest; rewrite E1, E2, E3|]. rewrite !Hsx in H3 by lia.
  change (2 ^ 12) with 4096 in *. change (2 ^ 6) with 64 in *. change (2 ^ 4) with 16 in *. change (2 ^ 2) with 4 in *.
  change (2 ^ 0) with 1 in *. rewrite !Z.div_1_r, !Z.mod_1_r in H3.
  set (w := last mod 4 * 65536 + ch) in *.
  replace ((last / 4 * 64 + w / 4096 mod 64) / 16) with last in H3
    by (unfold w; Z.to_euclidean_division_equations; lia).
  replace (((last / 4 * 64 + w / 4096 mod 64) mod 16 * 64 + w / 64 mod 64) * 64 + w mod 64) with ch in H3
    by (unfold w; Z.to_euclidean_division_equations; lia).
  exact H3.
Qed.

Lemma run_unit us b u ch d r :
  0 <= u -> in_width 16 ch -> aligned us b u d ->
  let e := emit_sextets 3 (MkEnc r true (b + 16) (Z.lor (wrap 32 (Z.shiftl u 16)) ch)) in
  e_shifted e = true /\ 0 <= e_u e /\ exists k s, e_result e = r ++ map64 k ++ s /\
  exists d', (forall rest, decode_loop (map64 k ++ s ++ rest) d = decode_loop rest d') /\
    aligned (us ++ [ch]) (e_bits e) (e_u e) d'.
Proof.
  intros Hu Hch Hst.
  assert (0 <= b <= 4) as Hb by (destruct Hst as [[? _]|[[?|?] _]]; lia).
  destruct (unit_word u ch b Hb Hu Hch) as [Hy Hm].
  set (y := Z.lor (wrap 32 (Z.shiftl u 16)) ch) in *. clearbody y.
  unfold in_width in *. change (2 ^ 16) with 65536 in *.
  destruct Hst as [(-> & Hr)|([-> | ->] & us' & last & -> & Hl & Hr & Hmu)].
  - destruct (run_unit_0 us y ch d Hr Hch) as (d' & Hd & Hr').
    { rewrite Hm. change (2 ^ 0) with 1. rewrite Z.mod_1_r. lia. }
    split; [done|]. split; [done|]. exists (Z.shiftr y 10), (map64 (Z.shiftr y 4)).
    split; [by rewrite app_assoc|]. exists d'. split; [done|].
    right. split; [by right|]. exists us, ch. split_and!; try done. 
    by apply (word_low u ch 0).
  - rewrite Hmu in Hm. destruct (run_unit_2 us' last y ch d Hr Hl Hch Hm) as (d' & Hd & Hr').
    split; [done|]. split; [done|].
    exists (Z.shiftr y 12), (map64 (Z.shiftr y 6) ++ map64 (Z.shiftr y 0)).
    split; [by rewrite !app_assoc|]. exists d'.
    split; [by intros rest; rewrite <- app_assoc|]. by left.
  - pose proof (word_low u ch 4 2 y Hm) as Hlow. rewrite Hmu in Hm.
    destruct (run_unit_4 us' last y ch d Hr Hl Hch Hm) as (d' & Hd & Hr').
    split; [done|]. split; [done|].
    exists (Z.shiftr y 14), (map64 (Z.shiftr y 8) ++ map64 (Z.shiftr y 2)).
    split; [by rewrite !app_assoc|]. exists d'.
    split; [by intros rest; rewrite <- app_assoc|].
    right. split; [by left|]. exists (us' ++ [last]), ch. split_and!; try done. apply Hlow; lia.
Qed.

Lemma related_plain us e ch :
  related us e -> e_shifted e = false -> 32 <= ch < 127 -> related (us ++ [ch]) (encode_unit e ch).
Proof.
  intros (Hu & He) Hs Hc. rewrite Hs in He. destruct He as [Hb Hd].
  unfold encode_unit. replace ((32 <=? ch) && (ch <? 127)) with true by lia. rewrite Hs.
  split; [done|]. cbn [e_shifted]. rewrite Hs. split; [done|]. intros rest.
  cbn [e_result]. rewrite <- app_assoc, Hd. destruct (Z.eqb_spec ch 38) as [->|Hn]; [done|].
  cbn [app decode_loop d_shifted]. replace (ch =? c#"&") with false by lia.
  rewrite wrap_small by (unfold in_width; lia). done.
Qed.

Lemma related_unit us e ch :
  in_width 16 ch -> related us e -> related (us ++ [ch]) (encode_unit e ch).
Proof.
  intros Hw He. destruct ((32 <=? ch) && (ch <? 127)) eqn:E.
  - assert (encode_unit e ch = encode_unit (if e_shifted e then unshift e else e) ch) as ->.
    { unfold encode_unit. rewrite E. by destruct (e_shifted e) eqn:Es; simpl; rewrite ?Es. }
    apply related_plain; [|by destruct (e_shifted e) eqn:Es|lia].
    destruct (e_shifted e) eqn:Es; [by apply related_unshift|done].
  - unfold encode_unit. rewrite E. destruct He as (Hu & He).
    destruct (e_shifted e) eqn:Es.
    + destruct He as (d & Hd & Hal). cbn [negb].
      destruct (run_unit us _ _ ch d (e_result e) Hu Hw Hal) as (Hs' & Hu' & k & s & Hr & d' & Hd' & Hal').
      rewrite Es. split; [done|]. rewrite Hs'. exists d'. split; [|done].
      intros rest. by rewrite Hr, <- !app_assoc, Hd, Hd'.
    + destruct He as (Hb & Hd). cbn [negb e_result e_shifted e_bits e_u]. rewrite Hb.
      destruct (run_unit us 0 (e_u e) ch (MkDec us 0 0 true) (e_result e ++ [c#"&"]) Hu Hw)
        as (Hs' & Hu' & k & s & Hr & d' & Hd' & Hal'); [by left|].
      split; [done|]. rewrite Hs'. exists d'. split; [|done].
      intros rest. rewrite Hr, <- !app_assoc, Hd, <- Hd'.
      destruct (map64_spec k) as (c & -> & Hc & _). cbn [app decode_loop d_shifted].
      change (c#"&" =? c#"&") with true. cbv iota. by replace (c =? c#"-") with false by lia.
Qed.

Lemma encode_utf16_units text : scalars text -> Forall (in_width 16) (encode_utf16 text).
Proof.
  induction 1 as [|c text Hc _ IH]; [constructor|].
  change (encode_utf16 (c :: text)) with (encode_utf16_char c ++ encode_utf16 text).
  apply Forall_app. split; [|done]. unfold encode_utf16_char, is_scalar, in_width in *.
  change (2 ^ 16) with 65536.
  destruct (Z.ltb_spec c 65536); repeat constructor; Z.to_euclidean_division_equations; lia.
Qed.

Lemma related_units us vs e :
  Forall (in_width 16) vs -> related us e -> related (us ++ vs) (fold_left encode_unit vs e).
Proof.
  revert us e. induction vs as [|v vs IH]; intros us e Hv He; [by rewrite app_nil_r|].
  apply Forall_cons_1 in Hv as [Hv Hvs]. simpl.
  replace (us ++ v :: vs) with ((us ++ [v]) ++ vs) by (by rewrite <- app_assoc).
  apply IH; [done|]. by apply related_unit.
Qed.

Lemma map64_ascii k : Forall ascii (map64 k).
Proof. destruct (map64_spec k) as (c & -> & _ & Hc & _). repeat constructor; lia. Qed.

Lemma emit_ascii fuel e : Forall ascii (e_result e) -> Forall ascii (e_result (emit_sextets fuel e)).
Proof.
  revert e. induction fuel as [|fuel IH]; intros e He; simpl; [done|].
  destruct (6 <=? e_bits e); [|done]. apply IH. simpl. apply Forall_app. auto using map64_ascii.
Qed.

Lemma unshift_ascii e : Forall ascii (e_result e) -> Forall ascii (e_result (unshift e)).
Proof.
  intros He. simpl. repeat (apply Forall_app; split); [done| |by repeat constructor].
  destruct (0 <? e_bits e); [apply map64_ascii|constructor].
Qed.

Lemma encode_unit_ascii e ch : Forall ascii (e_result e) -> Forall ascii (e_result (encode_unit e ch)).
Proof.
  intros He. unfold encode_unit. destruct ((32 <=? ch) && (ch <? 127)) eqn:E.
  - simpl. apply Forall_app. split; [destruct (e_shifted e); [by apply unshift_ascii|done]|].
    destruct (ch =? 38); repeat constructor; lia.
  - apply emit_ascii. destruct (negb (e_shifted e)); simpl; [|done].
    apply Forall_app. split; [done|by repeat constructor].
Qed.

Lemma utf7_encode_ascii text : Forall ascii (utf7_encode text).
Proof.
  unfold utf7_encode.
  assert (forall us e, Forall ascii (e_result e) -> Forall ascii (e_result (fold_left encode_unit us e))) as H.
  { induction us as [|u us IH]; intros e He; simpl; [done|]. by apply IH, encode_unit_ascii. }
  specialize (H (encode_utf16 text) (MkEnc [] false 0 0) ltac:(constructor)).
  destruct (e_shifted _); [by apply unshift_ascii|done].
Qed.

(** C37: Every text, of any characters, is read back unchanged from its
    modified UTF-7 form, and that form is ASCII. *)
Theorem utf7_roundtrip text :
  scalars text -> utf7_decode (utf7_encode text) = Some text /\ Forall ascii (utf7_encode text).
Proof.
  intros Ht. split; [|apply utf7_encode_ascii]. unfold utf7_decode, utf7_encode.
  pose proof (related_units [] (encode_utf16 text) (MkEnc [] false 0 0) (encode_utf16_units text Ht)) as Hr.
  specialize (Hr ltac:(by repeat split)). simpl app in Hr.
  set (e := fold_left encode_unit (encode_utf16 text) (MkEnc [] false 0 0)) in *. clearbody e.
  assert (related (encode_utf16 text) (if e_shifted e then unshift e else e)) as Hr'.
  { destruct (e_shifted e) eqn:Es; [by apply related_unshift|done]. }
  assert (e_shifted (if e_shifted e then unshift e else e) = false) as Hs
    by (by destruct (e_shifted e) eqn:Es).
  destruct Hr' as [_ Hd]. rewrite Hs in Hd. destruct Hd as [_ Hd]. specialize (Hd []).
  rewrite app_nil_r in Hd. unfold mbind, option_bind. rewrite Hd. cbn [decode_loop d_units].
  by apply from_encode_utf16.
Qed.

Lemma utf7_roundtrip_witness : utf7_decode (utf7_encode [19968; 38; 128512; 97]) = Some [19968; 38; 128512; 97].
Proof. apply utf7_roundtrip. repeat constructor. Defined.
