(* ===== verification/IpMask.v ===== *)
(** * IP addresses and masks ([crates/registry/src/types/ipmask.rs])

    Addresses are their 32 or 128 bits as an integer, in network order;
    [parse_ip] is the parser of Rust's [std::net].  An [IpAddrOrMask] is an
    address with a netmask; the theorems say which addresses it matches, and
    that its text and its bytes read back. *)

From S2P Require Import Prelude Decimals Utf8 Text.

(** ** [std::net] *)

Inductive IpAddr := IpV4 (a : Z) | IpV6 (a : Z).

Definition ip_ok (ip : IpAddr) : Prop :=
  match ip with IpV4 a => in_width 32 a | IpV6 a => in_width 128 a end.

Definition to_digit (radix c : Z) : option Z :=
  let d := if is_ascii_digit c then c - 48
           else let l := to_ascii_lowercase c in
                if (97 <=? l) && (l <=? 122) then l - 87 else 36 in
  if d <? radix then Some d else None.

Fixpoint span_digits (radix : Z) (s : list Z) : list Z * list Z :=
  match s with
  | c :: s' => match to_digit radix c with
               | Some d => let '(ds, r) := span_digits radix s' in (d :: ds, r)
               | None => ([], s)
               end
  | [] => ([], [])
  end.

Definition read_number (radix max_digits bound : Z) (allow_zero_prefix : bool) (s : list Z) :
    option (Z * list Z) :=
  let '(ds, rest) := span_digits radix s in
  let v := fold_left (fun a d => a * radix + d) ds 0 in
  match ds with
  | [] => None
  | d :: more =>
      if (max_digits <? Z.of_nat (length ds)) || (bound <? v) ||
         (negb allow_zero_prefix && (d =? 0) && (match more with [] => false | _ => true end))
      then None else Some (v, rest)
  end.

Definition read_char (c : Z) (s : list Z) : option (list Z) :=
  match s with x :: s => if x =? c then Some s else None | [] => None end.

(** [read_separator]: nothing before the first group. *)
Definition read_sep (c : Z) (first : bool) (s : list Z) : option (list Z) :=
  if first then Some s else read_char c s.

Fixpoint read_octets (n : nat) (first : bool) (acc : Z) (s : list Z) : option (Z * list Z) :=
  match n with
  | O => Some (acc, s)
  | S n =>
      match read_sep c#"." first s with
      | None => None
      | Some s =>
          match read_number 10 3 255 false s with
          | None => None
          | Some (v, s) => read_octets n false (acc * 256 + v) s
          end
      end
  end.

Definition read_ipv4 (s : list Z) : option (Z * list Z) := read_octets 4 true 0 s.

(** [read_groups] with [n] groups left: the groups read, whether the last
    two are an IPv4 address, and the rest. *)
Fixpoint read_groups (n : nat) (first : bool) (s : list Z) : list Z * bool * list Z :=
  match n with
  | O => ([], false, s)
  | S n' =>
      let group := match read_sep c#":" first s with
        | None => None
        | Some s => read_number 16 4 65535 true s
        end in
      let ipv4 := match n' with
        | O => None
        | S _ => match read_sep c#":" first s with None => None | Some s => read_ipv4 s end
        end in
      match ipv4 with
      | Some (v, s) => ([v / 65536; v mod 65536], true, s)
      | None =>
          match group with
          | None => ([], false, s)
          | Some (g, s) => let '(gs, v4, s) := read_groups n' false s in (g :: gs, v4, s)
          end
      end
  end.

Definition groups_value (gs : list Z) : Z := fold_left (fun a g => a * 65536 + g) gs 0.

Definition read_ipv6 (s : list Z) : option (Z * list Z) :=
  let '(head, v4, s) := read_groups 8 true s in
  if Nat.eqb (length head) 8 then Some (groups_value head, s)
  else if v4 then None
  else match read_char c#":" s with
  | None => None
  | Some s =>
      match read_char c#":" s with
      | None => None
      | Some s =>
          let '(tail, _, s) := read_groups (7 - length head) true s in
          Some (groups_value head * 2 ^ (16 * Z.of_nat (8 - length head)) + groups_value tail, s)
      end
  end.

(** [str::parse::<IpAddr>]. *)
Definition parse_ip (s : list Z) : option IpAddr :=
  match read_ipv4 s with
  | Some (v, rest) => match rest with [] => Some (IpV4 v) | _ => None end
  | None => match read_ipv6 s with
            | Some (v, []) => Some (IpV6 v)
            | _ => None
            end
  end.

Example parse_ip_v4 : parse_ip s#"127.0.0.1" = Some (IpV4 2130706433).
Proof. reflexivity. Qed.
Example parse_ip_v6 : parse_ip s#"fe80::1:2" = Some (IpV6 (65152 * 2 ^ 112 + 65538)).
Proof. reflexivity. Qed.
Example parse_ip_mapped : parse_ip s#"::ffff:1.2.3.4" = Some (IpV6 (65535 * 2 ^ 32 + 16909060)).
Proof. reflexivity. Qed.
Example parse_ip_bad :
  parse_ip s#"1.2.3" = None /\ parse_ip s#"1.2.3.04" = None /\ parse_ip s#"1::2::3" = None /\
  parse_ip s#"1:2:3:4:5:6:7:8:9" = None.
Proof. repeat split; reflexivity. Qed.

Definition octet (a k : Z) : Z := a / 2 ^ (8 * k) mod 256.

(** [Display] of an IPv4 address. *)
Definition print_ipv4 (a : Z) : list Z :=
  print_decimal (octet a 3) ++ s#"." ++ print_decimal (octet a 2) ++ s#"." ++
  print_decimal (octet a 1) ++ s#"." ++ print_decimal (octet a 0).

(** [Display] of an IPv6 address: a mapped address in dotted form, the first
    longest run of two or more zero groups as [::]. *)
Definition hex_digit (d : Z) : Z := if d <? 10 then 48 + d else 87 + d.
Definition print_group (g : Z) : list Z :=
  map hex_digit
    (if g <? 16 then [g]
     else if g <? 256 then [g / 16; g mod 16]
     else if g <? 4096 then [g / 256; g / 16 mod 16; g mod 16]
     else [g / 4096; g / 256 mod 16; g / 16 mod 16; g mod 16]).

Definition groups_of (a : Z) : list Z :=
  map (fun i => a / 2 ^ (16 * (7 - i)) mod 65536) (seqZ 0 8).

Fixpoint longest_zeros (gs : list Z) (i : nat) (longest current : nat * nat) : nat * nat :=
  match gs with
  | [] => longest
  | g :: gs =>
      if g =? 0 then
        let current := (if Nat.eqb (snd current) 0 then i else fst current, S (snd current)) in
        longest_zeros gs (S i) (if Nat.ltb (snd longest) (snd current) then current else longest) current
      else longest_zeros gs (S i) longest (0%nat, 0%nat)
  end.

Definition print_ipv6 (a : Z) : list Z :=
  if a / 2 ^ 32 =? 65535 then s#"::ffff:" ++ print_ipv4 (a mod 2 ^ 32)
  else
    let gs := groups_of a in
    let '(start, len) := longest_zeros gs 0 (0%nat, 0%nat) (0%nat, 0%nat) in
    if Nat.ltb 1 len then
      join s#":" (map print_group (firstn start gs)) ++ s#"::" ++
      join s#":" (map print_group (skipn (start + len) gs))
    else join s#":" (map print_group gs).

Example print_ipv6_examples :
  print_ipv6 1 = s#"::1" /\ print_ipv6 0 = s#"::" /\
  print_ipv6 (65152 * 2 ^ 112 + 65538) = s#"fe80::1:2" /\
  print_ipv6 (65535 * 2 ^ 32 + 16909060) = s#"::ffff:1.2.3.4".
Proof. repeat split; vm_compute; reflexivity. Qed.

(** [to_ipv4_mapped], [to_ipv4], [to_ipv6_mapped]. *)
Definition to_ipv4_mapped (a : Z) : option Z :=
  if a / 2 ^ 32 =? 65535 then Some (a mod 2 ^ 32) else None.
Definition to_ipv4 (a : Z) : option Z :=
  if (a / 2 ^ 32 =? 65535) || (a / 2 ^ 32 =? 0) then Some (a mod 2 ^ 32) else None.
Definition to_ipv6_mapped (a : Z) : Z := 65535 * 2 ^ 32 + a.

(** ** Addresses with a mask *)

(* [crates/registry/src/types/ipmask.rs:20-24] IpAddrOrMask *)
Inductive IpAddrOrMask := MV4 (addr mask : Z) | MV6 (addr mask : Z).

Definition u128_max : Z := 2 ^ 128 - 1.

(* [crates/registry/src/types/ipmask.rs:27-38] IpAddrOrMask::from_ip *)
Definition from_ip (ip : IpAddr) : IpAddrOrMask :=
  match ip with IpV4 addr => MV4 addr u32_max | IpV6 addr => MV6 addr u128_max end.

(* [crates/registry/src/types/ipmask.rs:40-45] IpAddrOrMask::is_valid *)
Definition is_valid (m : IpAddrOrMask) : bool :=
  match m with MV4 addr _ => negb (addr =? 0) | MV6 _ _ => true end.

(* [crates/registry/src/types/ipmask.rs:47-53] IpAddrOrMask::try_to_ip *)
Definition try_to_ip (m : IpAddrOrMask) : option IpAddr :=
  match m with
  | MV4 addr mask => if mask =? u32_max then Some (IpV4 addr) else None
  | MV6 addr mask => if mask =? u128_max then Some (IpV6 addr) else None
  end.

(* [crates/registry/src/types/ipmask.rs:55-60] IpAddrOrMask::into_inner *)
Definition into_inner (m : IpAddrOrMask) : IpAddr * Z :=
  match m with MV4 addr mask => (IpV4 addr, mask) | MV6 addr mask => (IpV6 addr, mask) end.

(* [crates/registry/src/types/ipmask.rs:62-107] IpAddrOrMask::matches *)
Definition matches (m : IpAddrOrMask) (remote : IpAddr) : bool :=
  match m with
  | MV4 addr mask =>
      if mask =? u32_max then
        match remote with
        | IpV4 remote => addr =? remote
        | IpV6 remote => match to_ipv4_mapped remote with Some remote => addr =? remote | None => false end
        end
      else if mask =? 0 then match remote with IpV4 _ => true | IpV6 _ => false end
      else
        match (match remote with IpV4 ip => Some ip | IpV6 ip => to_ipv4 ip end) with
        | None => false
        | Some ip => Z.land ip mask =? Z.land addr mask
        end
  | MV6 addr mask =>
      if mask =? u128_max then
        match remote with
        | IpV6 remote => remote =? addr
        | IpV4 remote => to_ipv6_mapped remote =? addr
        end
      else if mask =? 0 then match remote with IpV6 _ => true | IpV4 _ => false end
      else
        Z.land (match remote with IpV6 ip => ip | IpV4 ip => to_ipv6_mapped ip end) mask
          =? Z.land addr mask
  end.


(* [crates/registry/src/types/ipmask.rs:109-124] IpAddrOrMask::to_index_key *)
Definition to_index_key (m : IpAddrOrMask) : list Z :=
  match m with
  | MV4 addr mask => be_bytes 4 addr ++ be_bytes 4 mask
  | MV6 addr mask => be_bytes 16 addr ++ be_bytes 16 mask
  end.

(** The mask of a prefix length: [MAX << (width - prefix)]. *)
Definition prefix_mask (w prefix : Z) : Z := wrap w (Z.shiftl (2 ^ w - 1) (w - prefix)).

(* [crates/registry/src/types/ipmask.rs:127-170] FromStr for IpAddrOrMask *)
Definition from_str (value : list Z) : option IpAddrOrMask :=
  match rsplit_once s#"/" value with
  | Some (addr, mask) =>
      match parse_ip (trim addr), parse_unsigned u32_max (trim mask) with
      | Some (IpV4 addr), Some mask =>
          if (8 <=? mask) && (mask <=? 32) then Some (MV4 addr (prefix_mask 32 mask)) else None
      | Some (IpV6 addr), Some mask =>
          if (8 <=? mask) && (mask <=? 128) then Some (MV6 addr (prefix_mask 128 mask)) else None
      | _, _ => None
      end
  | None =>
      match parse_ip (trim value) with
      | Some (IpV4 addr) => Some (MV4 addr u32_max)
      | Some (IpV6 addr) => Some (MV6 addr u128_max)
      | None => None
      end
  end.

Fixpoint count_ones (w : nat) (v : Z) : Z :=
  match w with O => 0 | S w => (if Z.testbit v (Z.of_nat w) then 1 else 0) + count_ones w v end.

(* [crates/registry/src/types/ipmask.rs:172-193] Display for IpAddrOrMask *)
Definition fmt (m : IpAddrOrMask) : list Z :=
  match m with
  | MV4 addr mask =>
      if mask =? u32_max then print_ipv4 addr
      else print_ipv4 addr ++ s#"/" ++ print_decimal (count_ones 32 mask)
  | MV6 addr mask =>
      if mask =? u128_max then print_ipv6 addr
      else print_ipv6 addr ++ s#"/" ++ print_decimal (count_ones 128 mask)
  end.

(* [crates/registry/src/types/ipmask.rs:214-222] Default for IpAddrOrMask *)
Definition mask_default : IpAddrOrMask := MV4 0 u32_max.

(* [crates/registry/src/types/ipmask.rs:224-237] IpAddrOrMask::pickle *)
Definition pickle (m : IpAddrOrMask) (out : list Z) : list Z :=
  match m with
  | MV4 addr mask => out ++ [4] ++ be_bytes 4 addr ++ be_bytes 4 mask
  | MV6 addr mask => out ++ [6] ++ be_bytes 16 addr ++ be_bytes 16 mask
  end.

(** [read_bytes]: the bytes, or nothing if there are not as many. *)
(* [crates/registry/src/pickle.rs:92-96] PickledStream::read_bytes *)
Definition read_bytes (n : nat) (data : list Z) : option (list Z * list Z) :=
  if (n <=? length data)%nat then Some (firstn n data, skipn n data) else None.

(* [crates/registry/src/types/ipmask.rs:239-263] IpAddrOrMask::unpickle *)
Definition unpickle (data : list Z) : option (IpAddrOrMask * list Z) :=
  match data with
  | [] => None
  | tag :: data =>
      let read n make :=
        match read_bytes n data with
        | None => None
        | Some (addr, data) =>
            match read_bytes n data with
            | None => None
            | Some (mask, data) => Some (make (of_be_bytes addr) (of_be_bytes mask), data)
            end
        end in
      if tag =? 4 then read 4%nat MV4 else if tag =? 6 then read 16%nat MV6 else None
  end.

(** ** Properties *)

Lemma ones_eq w : Z.ones w = 2 ^ w - 1.
Proof. rewrite Z.ones_equiv. lia. Qed.

Lemma prefix_mask_full w : 0 < w -> prefix_mask w w = 2 ^ w - 1.
Proof.
  intros H. unfold prefix_mask, wrap. rewrite Z.sub_diag, Z.shiftl_0_r.
  apply Z.mod_small. pose proof (Z.pow_pos_nonneg 2 w). lia.
Qed.

Lemma prefix_mask_testbit w p i : 0 <= p <= w -> 0 <= i ->
  Z.testbit (prefix_mask w p) i = (w - p <=? i) && (i <? w).
Proof.
  intros Hp Hi. unfold prefix_mask, wrap.
  destruct (Z.ltb_spec i w) as [Hw|Hw].
  - rewrite Z.mod_pow2_bits_low, Z.shiftl_spec by lia.
    rewrite <- ones_eq, andb_true_r.
    destruct (Z.leb_spec (w - p) i).
    + apply Z.ones_spec_low. lia.
    + apply Z.testbit_neg_r. lia.
  - rewrite Z.mod_pow2_bits_high by lia. by rewrite andb_false_r.
Qed.

Lemma land_prefix w p x : 0 <= p <= w -> in_width w x ->
  Z.land x (prefix_mask w p) = Z.shiftl (Z.shiftr x (w - p)) (w - p).
Proof.
  intros Hp Hx. apply Z.bits_inj'. intros i Hi.
  rewrite Z.land_spec, prefix_mask_testbit, Z.shiftl_spec by lia.
  destruct (Z.leb_spec (w - p) i).
  - rewrite Z.shiftr_spec by lia. replace (i - (w - p) + (w - p)) with i by lia.
    destruct (Z.ltb_spec i w); simpl; [by rewrite andb_true_r|].
    rewrite andb_false_r. symmetry. by apply (bits_above w).
  - rewrite andb_false_r. symmetry. apply Z.testbit_neg_r. lia.
Qed.

(** Two addresses are in the same network. *)
Lemma land_prefix_eqb w p x y : 0 <= p <= w -> in_width w x -> in_width w y ->
  (Z.land x (prefix_mask w p) =? Z.land y (prefix_mask w p)) =
  (x / 2 ^ (w - p) =? y / 2 ^ (w - p)).
Proof.
  intros Hp Hx Hy. rewrite !land_prefix, !Z.shiftl_mul_pow2, !Z.shiftr_div_pow2 by (done || lia).
  pose proof (Z.pow_pos_nonneg 2 (w - p)).
  apply eq_bool_prop_intro. rewrite !Is_true_true, !Z.eqb_eq. nia.
Qed.

Lemma prefix_mask_zero w p : 0 < p <= w -> prefix_mask w p <> 0.
Proof.
  intros Hp E. pose proof (prefix_mask_testbit w p (w - 1) ltac:(lia) ltac:(lia)) as H.
  rewrite E, Z.testbit_0_l in H. rewrite (proj2 (Z.leb_le _ _)), (proj2 (Z.ltb_lt _ _)) in H by lia. done.
Qed.

Lemma prefix_mask_max w p : 0 <= p <= w -> 0 < w -> prefix_mask w p = 2 ^ w - 1 -> p = w.
Proof.
  intros Hp Hw E. destruct (Z.eq_dec p w) as [|Hne]; [done|].
  pose proof (prefix_mask_testbit w p 0 Hp ltac:(lia)) as H.
  rewrite E, <- ones_eq, Z.ones_spec_low in H by lia.
  rewrite (proj2 (Z.leb_gt _ _)) in H by lia. done.
Qed.

(** A mask of prefix length [p] (8 to 32, or to 128) matches exactly the
    addresses of its own family whose first [p] bits are those of its
    address; an IPv4 address and an IPv6 mask are compared through the
    mapped address, and an IPv6 remote that maps an IPv4 address is compared
    with an IPv4 mask as that address. *)
Theorem matches_prefix addr4 addr6 p r4 r6 :
  in_width 32 addr4 -> in_width 128 addr6 -> in_width 32 r4 -> in_width 128 r6 -> 8 <= p ->
  (p <= 32 ->
    matches (MV4 addr4 (prefix_mask 32 p)) (IpV4 r4) = (r4 / 2 ^ (32 - p) =? addr4 / 2 ^ (32 - p)) /\
    matches (MV4 addr4 (prefix_mask 32 p)) (IpV6 (to_ipv6_mapped r4)) =
      matches (MV4 addr4 (prefix_mask 32 p)) (IpV4 r4)) /\
  (p <= 128 ->
    matches (MV6 addr6 (prefix_mask 128 p)) (IpV6 r6) = (r6 / 2 ^ (128 - p) =? addr6 / 2 ^ (128 - p)) /\
    matches (MV6 addr6 (prefix_mask 128 p)) (IpV4 r4) =
      matches (MV6 addr6 (prefix_mask 128 p)) (IpV6 (to_ipv6_mapped r4))).
Proof.
  intros H4 H6 Hr4 Hr6 Hp.
  assert (to_ipv6_mapped r4 / 2 ^ 32 = 65535 /\ to_ipv6_mapped r4 mod 2 ^ 32 = r4) as [Hd Hm].
  { unfold to_ipv6_mapped. unfold in_width in Hr4.
    split; [rewrite Z.div_add_l, Z.div_small by lia; done|].
    rewrite Z.add_comm, Z_mod_plus_full, Z.mod_small by lia. done. }
  split; intros Hmax; unfold matches.
  - destruct (Z.eqb_spec (prefix_mask 32 p) u32_max) as [E|_].
    + apply prefix_mask_max in E; [|lia|lia]. subst p. rewrite Z.sub_diag, Z.pow_0_r, !Z.div_1_r.
      split; [apply Z.eqb_sym|]. unfold to_ipv4_mapped. by rewrite Hd, Z.eqb_refl, Hm.
    + rewrite (proj2 (Z.eqb_neq _ 0)) by (apply prefix_mask_zero; lia).
      split; [apply land_prefix_eqb; (done || lia)|]. unfold to_ipv4. by rewrite Hd, Z.eqb_refl, Hm.
  - destruct (Z.eqb_spec (prefix_mask 128 p) u128_max) as [E|_].
    + apply prefix_mask_max in E; [|lia|lia]. subst p. rewrite Z.sub_diag, Z.pow_0_r, !Z.div_1_r. done.
    + rewrite (proj2 (Z.eqb_neq _ 0)) by (apply prefix_mask_zero; lia).
      split; [apply land_prefix_eqb; (done || lia)|done].
Qed.

Example matches_prefix_witness :
  matches (MV4 167772160 (prefix_mask 32 8)) (IpV4 169743371) =
    (169743371 / 2 ^ (32 - 8) =? 167772160 / 2 ^ (32 - 8)).
Proof.
  apply (matches_prefix 167772160 1 8 169743371 1); unfold in_width; lia.
Defined.

(** The deprecated [to_ipv4] also takes the IPv4-compatible addresses, so a
    network matches IPv6 addresses, the loopback [::1] among them, that the
    single address in it does not match. *)
Lemma mask_matches_compatible :
  exists net host ip ip0 net0,
    from_str s#"10.0.0.0/8" = Some net /\ from_str s#"10.1.2.3" = Some host /\
    parse_ip s#"::10.1.2.3" = Some ip /\ matches net ip = true /\ matches host ip = false /\
    parse_ip s#"::1" = Some ip0 /\ from_str s#"0.0.0.0/8" = Some net0 /\ matches net0 ip0 = true.
Proof. do 5 eexists. repeat split; vm_compute; reflexivity. Qed.

(** *** Text *)

Definition no_digit_head (s : list Z) : Prop :=
  match s with [] => True | c :: _ => to_digit 10 c = None end.

Lemma span_digits_app s rest ds :
  span_digits 10 s = (ds, []) -> no_digit_head rest -> span_digits 10 (s ++ rest) = (ds, rest).
Proof.
  revert ds. induction s as [|c s IH]; intros ds; simpl; intros H Hr.
  - simplify_eq. destruct rest as [|c r]; [done|]. simpl in *. by rewrite Hr.
  - destruct (to_digit 10 c) as [d|]; [|done].
    destruct (span_digits 10 s) as [ds' r] eqn:E. simplify_eq. by rewrite (IH ds').
Qed.

Lemma read_octet d rest : in_width 8 d -> no_digit_head rest ->
  read_number 10 3 255 false (print_decimal d ++ rest) = Some (d, rest).
Proof.
  intros Hd Hr.
  assert (read_number 10 3 255 false (print_decimal d) = Some (d, [])) as H.
  { pose proof (byte_forall
      (fun d => match read_number 10 3 255 false (print_decimal d) with
                | Some (v, []) => v =? d | _ => false end) ltac:(vm_compute; reflexivity) d Hd) as H.
    simpl in H. destruct (read_number 10 3 255 false (print_decimal d)) as [[v [|]]|]; try done.
    apply Z.eqb_eq in H. congruence. }
  unfold read_number in *. destruct (span_digits 10 (print_decimal d)) as [ds r] eqn:E.
  assert (r = []) as ->.
  { destruct ds; [done|]. destruct (_ || _); simplify_eq. done. }
  rewrite (span_digits_app _ rest ds E Hr). destruct ds; [done|]. destruct (_ || _); [done|].
  by simplify_eq.
Qed.

Lemma octet_range a k : in_width 8 (octet a k).
Proof. unfold in_width, octet. pose proof (Z.mod_pos_bound (a / 2 ^ (8 * k)) 256). lia. Qed.

Lemma octets_value a : in_width 32 a ->
  ((octet a 3 * 256 + octet a 2) * 256 + octet a 1) * 256 + octet a 0 = a.
Proof.
  unfold octet, in_width. intros H. simpl Z.mul.
  change (2 ^ 24) with 16777216. change (2 ^ 16) with 65536. change (2 ^ 8) with 256.
  change (2 ^ 0) with 1. change (2 ^ 32) with 4294967296 in H. Z.div_mod_to_equations. lia.
Qed.

Lemma read_print_ipv4 a rest : in_width 32 a -> no_digit_head rest ->
  read_ipv4 (print_ipv4 a ++ rest) = Some (a, rest).
Proof.
  intros Ha Hr. unfold read_ipv4, print_ipv4. cbn [read_octets read_sep].
  repeat (rewrite <- app_assoc;
          rewrite read_octet by (try apply octet_range; done); cbn [read_sep read_char app];
          rewrite ?Z.eqb_refl).
  rewrite read_octet by (try apply octet_range; done).
  pose proof (octets_value a Ha). do 2 f_equal. lia.
Qed.

(** Texts without white space, and without a slash. *)
Definition plain (s : list Z) : Prop := Forall (fun c => 33 <= c < 128 /\ c <> 47) s.

Lemma plain_not_ws c : 33 <= c < 128 -> is_whitespace c = false.
Proof. unfold is_whitespace. lia. Qed.

Lemma drop_while_plain s : Forall (fun c => 33 <= c < 128) s -> drop_while is_whitespace s = s.
Proof. destruct 1 as [|c s Hc _]; [done|]. simpl. by rewrite plain_not_ws. Qed.
Lemma encode_ascii s : Forall (fun c => 33 <= c < 128) s -> encode s = s.
Proof.
  induction 1 as [|c s Hc _ IH]; [done|]. change (encode (c :: s)) with (encode_char c ++ encode s).
  rewrite IH. unfold encode_char. by rewrite (proj2 (Z.ltb_lt _ _)) by lia.
Qed.

Lemma trim_plain s : Forall (fun c => 33 <= c < 128) s -> trim s = s.
Proof.
  intros H.
  assert (chars s = s) as Hc.
  { unfold chars. rewrite decode_ascii; [done|]. eapply Forall_impl; [|exact H]. unfold ascii. lia. }
  assert (trim_start s = s) as Hs by (unfold trim_start; rewrite Hc, drop_while_plain, encode_ascii; done).
  unfold trim. rewrite Hs. unfold trim_end. rewrite Hc, drop_while_plain, rev_involutive by (by apply Forall_rev).
  by apply encode_ascii.
Qed.

Lemma print_decimal_plain n : 0 <= n -> plain (print_decimal n).
Proof.
  intros H. eapply Forall_impl; [|by apply (print_decimal_digits n)].
  intros c Hc. apply is_digit_range in Hc. lia.
Qed.

Lemma print_ipv4_plain a : in_width 32 a -> plain (print_ipv4 a).
Proof.
  intros _. unfold print_ipv4, plain.
  pose proof (fun k => proj1 (octet_range a k)) as H.
  repeat apply Forall_app_2; try (apply print_decimal_plain; apply H); repeat constructor; done.
Qed.

Lemma count_ones_prefix p : 0 <= p <= 32 -> count_ones 32 (prefix_mask 32 p) = p.
Proof.
  intros Hp.
  assert (p ∈ seqZ 0 33) as Hin by (apply elem_of_seqZ; lia).
  assert (Forall (fun p => count_ones 32 (prefix_mask 32 p) = p) (seqZ 0 33)) as H
    by (apply (bool_decide_unpack _); vm_compute; reflexivity).
  rewrite Forall_forall in H. apply H. by apply list_elem_of_In.
Qed.

Lemma parse_ip_print a : in_width 32 a -> parse_ip (print_ipv4 a) = Some (IpV4 a).
Proof.
  intros Ha. unfold parse_ip. pose proof (read_print_ipv4 a [] Ha I) as H. rewrite app_nil_r in H.
  by rewrite H.
Qed.

Lemma no_slash_rsplit s : plain s -> rsplit_once s#"/" s = None.
Proof.
  intros Hs. destruct (rsplit_once s#"/" s) as [[a b]|] eqn:E; [|done].
  apply rsplit_once_some in E. subst s. apply Forall_app in Hs as [_ Hs].
  apply Forall_app in Hs as [Hs _]. apply Forall_cons_1 in Hs as [[_ Hs] _]. done.
Qed.

Lemma plain_range s : plain s -> Forall (fun c => 33 <= c < 128) s.
Proof. apply Forall_impl. lia. Qed.

(** The text of an IPv4 address or network reads back as itself, the
    prefix length being the number of ones of the mask; so does a single
    address. *)
Theorem ipv4_text_roundtrip addr p : in_width 32 addr -> 8 <= p <= 32 ->
  from_str (fmt (MV4 addr (prefix_mask 32 p))) = Some (MV4 addr (prefix_mask 32 p)) /\
  try_to_ip (MV4 addr (prefix_mask 32 p)) = (if p =? 32 then Some (IpV4 addr) else None).
Proof.
  intros Ha Hp. pose proof (print_ipv4_plain addr Ha) as Hpl. unfold fmt, try_to_ip.
  destruct (Z.eqb_spec (prefix_mask 32 p) u32_max) as [E|Hne].
  - assert (p = 32) as -> by (apply (prefix_mask_max 32); (lia || done)). split; [|done].
    unfold from_str. rewrite no_slash_rsplit, trim_plain, parse_ip_print by (done || by apply plain_range).
    by rewrite E.
  - assert (p <> 32) by (intros ->; done). rewrite (proj2 (Z.eqb_neq p 32)) by done. split; [|done].
    rewrite count_ones_prefix by lia. pose proof (print_decimal_plain p ltac:(lia)) as Hpp.
    unfold from_str. rewrite rsplit_once_last.
    2: { intros Hin. unfold plain in Hpp. rewrite Forall_forall in Hpp. specialize (Hpp _ Hin). lia. }
    rewrite !trim_plain, parse_ip_print, parse_print_unsigned by (done || (by apply plain_range) || (unfold u32_max; lia)).
    by rewrite (proj2 (Z.leb_le 8 p)), (proj2 (Z.leb_le p 32)) by lia.
Qed.

Example ipv4_text_roundtrip_witness :
  from_str (fmt (MV4 3232235776 (prefix_mask 32 24))) = Some (MV4 3232235776 (prefix_mask 32 24)).
Proof. apply (ipv4_text_roundtrip 3232235776 24); unfold in_width; lia. Defined.

(** *** Bytes *)

Definition mask_ok (m : IpAddrOrMask) : Prop :=
  match m with
  | MV4 a k => in_width 32 a /\ in_width 32 k
  | MV6 a k => in_width 128 a /\ in_width 128 k
  end.

Lemma read_be n v rest : read_bytes n (be_bytes n v ++ rest) = Some (be_bytes n v, rest).
Proof.
  unfold read_bytes. rewrite length_app, be_bytes_length.
  rewrite (proj2 (Nat.leb_le _ _)) by lia.
  rewrite firstn_app, skipn_app, be_bytes_length, Nat.sub_diag. cbn [firstn skipn].
  rewrite firstn_all2, skipn_all2 by (rewrite be_bytes_length; lia). by rewrite app_nil_r.
Qed.

(** The bytes of an address with a mask read back as itself, whatever
    follows them. *)
Theorem pickle_roundtrip m rest : mask_ok m -> unpickle (pickle m [] ++ rest) = Some (m, rest).
Proof.
  assert (forall w n v, in_width w v -> w = 8 * Z.of_nat n -> of_be_bytes (be_bytes n v) = v) as Hb.
  { intros w n v Hv ->. by apply of_be_id. }
  destruct m as [a k|a k]; intros [Ha Hk]; unfold pickle, unpickle; cbn [app];
    rewrite <- app_assoc; simpl (_ =? _); cbv iota beta zeta; rewrite !read_be;
    by rewrite (Hb _ _ _ Ha), (Hb _ _ _ Hk).
Qed.

Example pickle_roundtrip_witness :
  unpickle (pickle (MV4 3232235776 4294967040) [] ++ [1; 2]) = Some (MV4 3232235776 4294967040, [1; 2]).
Proof. apply pickle_roundtrip. unfold mask_ok, in_width. lia. Defined.
