(* ===== verification/ExprValue.v ===== *)
(** * Values of the expression language ([crates/common/src/expr])

    [Variable_] (Rust's Variable) with the operators, conversions, equality and ordering of
    eval.rs and mod.rs.  Floats are the IEEE binary64 values of SpecFloat,
    with Rust's conversions and its number parser; the shortest text of a
    float, the names of the registry's generated constants and variables,
    regular expressions and metrics are fields of the class [Schema].
    Whether a string is borrowed or owned makes no difference to a value. *)

From Stdlib Require Import SpecFloat.
From S2P Require Import Prelude Decimals.

(** ** Binary64 *)

Definition f64 : Type := spec_float.
Definition prec64 : Z := 53.
Definition emax64 : Z := 1024.
Definition f64_zero : f64 := S754_zero false.

(** [n as f64]. *)
Definition f64_of_i64 (n : Z) : f64 := binary_normalize prec64 emax64 n 0 false.
Definition f64_add : f64 -> f64 -> f64 := SFadd prec64 emax64.
Definition f64_sub : f64 -> f64 -> f64 := SFsub prec64 emax64.
Definition f64_mul : f64 -> f64 -> f64 := SFmul prec64 emax64.
Definition f64_div : f64 -> f64 -> f64 := SFdiv prec64 emax64.
Definition f64_is_zero (f : f64) : bool := SFeqb f f64_zero.

(** [f as i64] and [f as usize]: towards zero, saturating, 0 for a NaN. *)
Definition f64_trunc (lo hi : Z) (f : f64) : Z :=
  match f with
  | S754_zero _ | S754_nan => 0
  | S754_infinity s => if s then lo else hi
  | S754_finite s m e =>
      let v := Z.shiftl (Zpos m) e in clamp lo hi (if s then - v else v)
  end.

(** The value of decimal digits [d] times ten to the [k], rounded to
    nearest. *)
Definition f64_of_decimal (neg : bool) (d k : Z) : f64 :=
  if d =? 0 then S754_zero neg
  else if 0 <=? k then
    let f := binary_normalize prec64 emax64 (d * 10 ^ k) 0 false in if neg then SFopp f else f
  else
    let '(m, e, l) := SFdiv_core_binary prec64 emax64 d 0 (10 ^ (- k)) 0 in
    binary_round_aux prec64 emax64 neg m e l.

Fixpoint take_digits (s : list Z) : list Z * list Z :=
  match s with
  | c :: s' => if is_ascii_digit c then let '(d, r) := take_digits s' in (c :: d, r) else ([], s)
  | [] => ([], [])
  end.

Definition digits_value (s : list Z) : Z :=
  match parse_digits 0 s with Some v => v | None => 0 end.

(** The exponent at the end of a number. *)
Definition parse_exponent (s : list Z) : option Z :=
  match s with
  | [] => Some 0
  | c :: s =>
      if (c =? c#"e") || (c =? c#"E") then
        let '(neg, s) := match s with
          | c :: s' => if c =? c#"-" then (true, s') else if c =? c#"+" then (false, s') else (false, s)
          | [] => (false, [])
          end in
        let '(d, rest) := take_digits s in
        match d, rest with
        | _ :: _, [] => Some (if neg : bool then - digits_value d else digits_value d)
        | _, _ => None
        end
      else None
  end.

(** [str::parse::<f64>]. *)
Definition parse_f64 (s : list Z) : option f64 :=
  let '(neg, s) := match s with
    | c :: s' => if c =? c#"-" then (true, s') else if c =? c#"+" then (false, s') else (false, s)
    | [] => (false, [])
    end in
  if eq_ignore_ascii_case s s#"inf" || eq_ignore_ascii_case s s#"infinity" then Some (S754_infinity neg)
  else if eq_ignore_ascii_case s s#"nan" then Some S754_nan
  else
    let '(int, rest) := take_digits s in
    let '(frac, rest) := match rest with
      | c :: rest' => if c =? c#"." then take_digits rest' else ([], rest)
      | [] => ([], [])
      end in
    match int ++ frac with
    | [] => None
    | ds => match parse_exponent rest with
            | Some e => Some (f64_of_decimal neg (digits_value ds) (e - Z.of_nat (length frac)))
            | None => None
            end
    end.

Example parse_f64_tenth : parse_f64 s#"0.1" = Some (S754_finite false 7205759403792794 (-56)).
Proof. reflexivity. Qed.

(** ** The interface of the generated schema and of third-party code *)

Class Schema := {
  EVar : Type;                                   (* ExpressionVariable *)
  EConst : Type;                                 (* ExpressionConstant *)
  Rx : Type;                                     (* regex::Regex *)
  Metric : Type;                                 (* trc::MetricType *)
  evar_parse : list Z -> option EVar;
  econst_parse : list Z -> option EConst;
  econst_name : EConst -> list Z;                (* as_str *)
  econst_id : EConst -> Z;                       (* to_id *)
  econst_eqb : EConst -> EConst -> bool;
  evar_eqb : EVar -> EVar -> bool;
  rx_new : list Z -> option Rx;
  rx_captures : Rx -> list Z -> option (list (option (list Z)));
  metric_parse : list Z -> option Metric;
  f64_display : f64 -> list Z
}.

(** A small schema for the examples: variables and constants are numbers, a
    regular expression captures the whole text. *)
Definition demo_schema : Schema := {|
  EVar := Z; EConst := Z; Rx := unit; Metric := unit;
  evar_parse s := if bytes_eqb s s#"sender" then Some 1 else if bytes_eqb s s#"rcpt" then Some 2 else None;
  econst_parse s := if bytes_eqb s s#"relaxed" then Some 1 else None;
  econst_name _ := s#"relaxed"; econst_id c := c; econst_eqb := Z.eqb; evar_eqb := Z.eqb;
  rx_new _ := Some tt; rx_captures _ s := Some [Some s]; metric_parse _ := None; f64_display _ := []
|}.

Section Values.
Context {Sch : Schema}.

(* [crates/common/src/expr/mod.rs:54-60] Variable *)
Inductive Variable_ :=
| VString (s : list Z)
| VInteger (n : Z)
| VFloat (f : f64)
| VArray (l : list Variable_)
| VConstant (c : EConst).

(* [crates/common/src/expr/mod.rs:68-72] Variable::default *)
Definition var_default : Variable_ := VString [].

Definition of_bool (b : bool) : Variable_ := VInteger (if b then 1 else 0).

(* [crates/common/src/expr/eval.rs:593-598] Variable::is_empty *)
Definition var_is_empty (v : Variable_) : bool :=
  match v with VString [] => true | _ => false end.

(* [crates/common/src/expr/eval.rs:506-514] Variable::to_bool *)
Definition to_bool (v : Variable_) : bool :=
  match v with
  | VFloat f => negb (f64_is_zero f)
  | VInteger n => negb (n =? 0)
  | VString s => match s with [] => false | _ => true end
  | VArray a => match a with [] => false | _ => true end
  | VConstant _ => true
  end.

(* [crates/common/src/expr/eval.rs:469-485] Variable::parse_number *)
Definition parse_number (v : Variable_) : Variable_ :=
  match v with
  | VString (c :: s) =>
      match parse_i64 (c :: s) with
      | Some n => VInteger n
      | None => match parse_f64 (c :: s) with Some f => VFloat f | None => VInteger 0 end
      end
  | VInteger n => VInteger n
  | VFloat n => VFloat n
  | VArray l => VInteger (match l with [] => 1 | _ => 0 end)
  | _ => VInteger 0
  end.

(** The elements joined by CRLF; an array inside an array adds nothing, and
    the separator is only added to a non-empty text. *)
Definition join_item (result : list Z) (item : Variable_) : list Z :=
  (if (match result with [] => true | _ => false end) then result else result ++ [13; 10]) ++
  match item with
  | VString v => v
  | VInteger v => print_i64 v
  | VFloat v => f64_display v
  | VArray _ => []
  | VConstant c => econst_name c
  end.

(* [crates/common/src/expr/eval.rs:541-564] Variable::into_string *)
Definition into_string (v : Variable_) : list Z :=
  match v with
  | VString s => s
  | VInteger n => print_i64 n
  | VFloat n => f64_display n
  | VArray l => fold_left join_item l []
  | VConstant c => econst_name c
  end.

(* [crates/common/src/expr/eval.rs:516-539] Variable::to_string *)
Definition to_string (v : Variable_) : list Z := into_string v.

(** [Display]: the elements of an array, of any depth, joined by line
    feeds. *)
(* [crates/common/src/expr/eval.rs:684-702] Display for Variable *)
Fixpoint display (v : Variable_) : list Z :=
  match v with
  | VString s => s
  | VInteger n => print_i64 n
  | VFloat f => f64_display f
  | VArray l =>
      (fix go (first : bool) (l : list Variable_) : list Z :=
         match l with
         | [] => []
         | v :: l => (if first then [] else [10]) ++ display v ++ go false l
         end) true l
  | VConstant c => econst_name c
  end.

(* [crates/common/src/expr/eval.rs:566-573] Variable::to_integer *)
Definition to_integer (v : Variable_) : option Z :=
  match v with
  | VInteger n => Some n
  | VFloat n => Some (f64_trunc i64_min i64_max n)
  | VString (c :: s) => parse_i64 (c :: s)
  | _ => None
  end.

(* [crates/common/src/expr/eval.rs:575-582] Variable::to_usize *)
Definition to_usize (v : Variable_) : option Z :=
  match v with
  | VInteger n => Some (wrap 64 n)
  | VFloat n => Some (f64_trunc 0 u64_max n)
  | VString (c :: s) => parse_unsigned u64_max (c :: s)
  | _ => None
  end.

(* [crates/common/src/expr/eval.rs:584-591] Variable::len *)
Fixpoint var_len (v : Variable_) : Z :=
  match v with
  | VString s => Z.of_nat (length s)
  | VInteger _ | VFloat _ => 2
  | VArray l => (fix sum l := match l with [] => 0 | v :: l => var_len v + 2 + sum l end) l
  | VConstant c => Z.of_nat (length (econst_name c))
  end.

(* [crates/common/src/expr/eval.rs:607-613] Variable::into_array *)
Definition into_array (v : Variable_) : list Variable_ :=
  match v with
  | VArray l => l
  | v => if negb (var_is_empty v) then [v] else []
  end.

(** *** Equality and ordering *)

Definition num_eqb (a b : Variable_) : bool :=
  match a, b with
  | VInteger a, VInteger b => a =? b
  | VFloat a, VFloat b => SFeqb a b
  | VInteger a, VFloat b => SFeqb (f64_of_i64 a) b
  | VFloat b, VInteger a => SFeqb (f64_of_i64 a) b
  | _, _ => false
  end.

(* [crates/common/src/expr/eval.rs:634-649] PartialEq for Variable *)
Fixpoint var_eqb (a b : Variable_) {struct a} : bool :=
  match a, b with
  | VInteger _, (VInteger _ | VFloat _) | VFloat _, (VInteger _ | VFloat _) => num_eqb a b
  | VString a, VString b => bytes_eqb a b
  | VString _, (VInteger _ | VFloat _) => num_eqb (parse_number a) b
  | (VInteger _ | VFloat _), VString _ => num_eqb a (parse_number b)
  | VArray a, VArray b =>
      (fix all (a b : list Variable_) : bool :=
         match a, b with
         | [], [] => true
         | x :: a, y :: b => var_eqb x y && all a b
         | _, _ => false
         end) a b
  | _, _ => false
  end.

Fixpoint bytes_compare (a b : list Z) : comparison :=
  match a, b with
  | [], [] => Eq
  | [], _ => Datatypes.Lt
  | _, [] => Datatypes.Gt
  | x :: a, y :: b => match Z.compare x y with Eq => bytes_compare a b | c => c end
  end.

Definition num_cmp (a b : Variable_) : option comparison :=
  match a, b with
  | VInteger a, VInteger b => Some (Z.compare a b)
  | VFloat a, VFloat b => SFcompare a b
  | VInteger a, VFloat b => SFcompare (f64_of_i64 a) b
  | VFloat a, VInteger b => SFcompare a (f64_of_i64 b)
  | _, _ => None
  end.

(* [crates/common/src/expr/eval.rs:654-676] PartialOrd for Variable *)
Fixpoint partial_cmp (a b : Variable_) {struct a} : option comparison :=
  match a, b with
  | VInteger _, (VInteger _ | VFloat _) | VFloat _, (VInteger _ | VFloat _) => num_cmp a b
  | VString a, VString b => Some (bytes_compare a b)
  | VString _, (VInteger _ | VFloat _) => num_cmp (parse_number a) b
  | (VInteger _ | VFloat _), VString _ => num_cmp a (parse_number b)
  | VArray a, VArray b =>
      (fix lex (a b : list Variable_) : option comparison :=
         match a, b with
         | [], [] => Some Eq
         | [], _ => Some Datatypes.Lt
         | _, [] => Some Datatypes.Gt
         | x :: a, y :: b =>
             match partial_cmp x y with Some Eq => lex a b | c => c end
         end) a b
  | (VArray _ | VString _), _ => Some Datatypes.Gt
  | VConstant a, VConstant b => Some (Z.compare (econst_id a) (econst_id b))
  | _, (VArray _ | VConstant _) | VConstant _, _ => Some Datatypes.Lt
  end.

(* [crates/common/src/expr/eval.rs:678-682] Ord for Variable *)
Definition var_cmp (a b : Variable_) : comparison :=
  match partial_cmp a b with Some c => c | None => Datatypes.Gt end.

(** *** Operators *)

Definition saturate (n : Z) : Z := clamp i64_min i64_max n.

(* [crates/common/src/expr/eval.rs:346-378] Variable::op_add *)
Definition op_add (a b : Variable_) : Variable_ :=
  match a, b with
  | VInteger a, VInteger b => VInteger (saturate (a + b))
  | VFloat a, VFloat b => VFloat (f64_add a b)
  | VInteger i, VFloat f | VFloat f, VInteger i => VFloat (f64_add (f64_of_i64 i) f)
  | VArray a, VArray b => VArray (a ++ b)
  | VArray a, b => VArray (a ++ [b])
  | a, VArray b => VArray (a :: b)
  | VString s, b => match s with [] => b | _ => VString (s ++ display b) end
  | a, VString s => match s with [] => a | _ => VString (display a ++ s) end
  | a, VConstant _ => a
  | VConstant _, b => b
  end.

(** The numeric cases of the operators, all that is left after
    [parse_number]. *)
Definition num_op (int : Z -> Z -> Variable_) (flt : f64 -> f64 -> f64) (a b : Variable_) : Variable_ :=
  match a, b with
  | VInteger a, VInteger b => int a b
  | VFloat a, VFloat b => VFloat (flt a b)
  | VInteger a, VFloat b => VFloat (flt (f64_of_i64 a) b)
  | VFloat a, VInteger b => VFloat (flt a (f64_of_i64 b))
  | _, _ => VInteger 0
  end.

(* [crates/common/src/expr/eval.rs:380-391] Variable::op_subtract *)
Definition op_subtract (a b : Variable_) : Variable_ :=
  let num := num_op (fun a b => VInteger (saturate (a - b))) f64_sub in
  match a, b with
  | (VInteger _ | VFloat _), (VInteger _ | VFloat _) => num a b
  | VArray l, b => VArray (List.filter (fun v => negb (var_eqb v b)) l)
  | b, VArray l => VArray (List.filter (fun v => negb (var_eqb v b)) l)
  | a, b => num (parse_number a) (parse_number b)
  end.

(* [crates/common/src/expr/eval.rs:393-401] Variable::op_multiply *)
Definition op_multiply (a b : Variable_) : Variable_ :=
  num_op (fun a b => VInteger (saturate (a * b))) f64_mul (parse_number a) (parse_number b).

(** Division always gives a float, and 0.0 for a divisor that is zero. *)
Definition f64_div0 (a b : f64) : f64 := if negb (f64_is_zero b) then f64_div a b else f64_zero.

(* [crates/common/src/expr/eval.rs:403-419] Variable::op_divide *)
Definition op_divide (a b : Variable_) : Variable_ :=
  num_op (fun a b => VFloat (if negb (b =? 0) then f64_div (f64_of_i64 a) (f64_of_i64 b) else f64_zero))
    f64_div0 (parse_number a) (parse_number b).

(* [crates/common/src/expr/eval.rs:421-423] Variable::op_and *)
Definition op_and (a b : Variable_) : Variable_ := of_bool (to_bool a && to_bool b).
(* [crates/common/src/expr/eval.rs:425-427] Variable::op_or *)
Definition op_or (a b : Variable_) : Variable_ := of_bool (to_bool a || to_bool b).
(* [crates/common/src/expr/eval.rs:429-431] Variable::op_xor *)
Definition op_xor (a b : Variable_) : Variable_ := of_bool (xorb (to_bool a) (to_bool b)).
(* [crates/common/src/expr/eval.rs:433-435] Variable::op_eq *)
Definition op_eq (a b : Variable_) : Variable_ := of_bool (var_eqb a b).
(* [crates/common/src/expr/eval.rs:437-439] Variable::op_ne *)
Definition op_ne (a b : Variable_) : Variable_ := of_bool (negb (var_eqb a b)).

(** The comparison operators that Rust derives from [partial_cmp]. *)
(* [crates/common/src/expr/eval.rs:441-443] Variable::op_lt *)
Definition op_lt (a b : Variable_) : Variable_ :=
  of_bool (match partial_cmp a b with Some Datatypes.Lt => true | _ => false end).
(* [crates/common/src/expr/eval.rs:445-447] Variable::op_le *)
Definition op_le (a b : Variable_) : Variable_ :=
  of_bool (match partial_cmp a b with Some Datatypes.Lt | Some Eq => true | _ => false end).
(* [crates/common/src/expr/eval.rs:449-451] Variable::op_gt *)
Definition op_gt (a b : Variable_) : Variable_ :=
  of_bool (match partial_cmp a b with Some Datatypes.Gt => true | _ => false end).
(* [crates/common/src/expr/eval.rs:453-455] Variable::op_ge *)
Definition op_ge (a b : Variable_) : Variable_ :=
  of_bool (match partial_cmp a b with Some Datatypes.Gt | Some Eq => true | _ => false end).

(* [crates/common/src/expr/eval.rs:457-459] Variable::op_not *)
Definition op_not (a : Variable_) : Variable_ := of_bool (negb (to_bool a)).

(** Negation wraps at the least integer in a release build (a debug build
    panics). *)
(* [crates/common/src/expr/eval.rs:461-467] Variable::op_minus *)
Definition op_minus (a : Variable_) : Variable_ :=
  match parse_number a with
  | VInteger n => VInteger (as_i64 (- n))
  | VFloat f => VFloat (SFopp f)
  | v => v
  end.

(** *** Conversions of a result *)

(* [crates/common/src/expr/eval.rs:759-765] TryFrom<Variable> for u64 *)
Definition to_u64 (v : Variable_) : option Z := wrap 64 <$> to_integer v.

(** [StatusCode::from_u16] accepts 100 to 999. *)
(* [crates/common/src/expr/eval.rs:775-787] TryFrom<Variable> for StatusCode *)
Definition to_status_code (v : Variable_) : option Z :=
  match to_integer v with
  | Some n => let code := wrap 16 n in if (100 <=? code) && (code <? 1000) then Some code else None
  | None => None
  end.

(** The count and the period in milliseconds. *)
(* [crates/common/src/expr/mod.rs:436-457] TryFrom<Variable> for Rate *)
Definition to_rate (v : Variable_) : option (Z * Z) :=
  match v with
  | VArray [a; b] =>
      match to_integer a, to_integer b with
      | Some requests, Some period =>
          if (0 <? requests) && (0 <? period) then Some (requests, period) else None
      | _, _ => None
      end
  | _ => None
  end.

End Values.

(** ** Properties *)

Section Facts.
Context {Sch : Schema}.

(** The values that Rust can hold: every integer is an [i64]. *)
Fixpoint value_ok (v : Variable_) : Prop :=
  match v with
  | VInteger n => in_i64 n
  | VArray l => (fix all l := match l with [] => True | v :: l => value_ok v /\ all l end) l
  | _ => True
  end.

Lemma value_ok_array l : value_ok (VArray l) <-> Forall value_ok l.
Proof.
  simpl. induction l as [|v l IH]; [by split|].
  rewrite Forall_cons_iff, <- IH. done.
Qed.

Lemma saturate_range n : in_i64 (saturate n).
Proof. unfold saturate, clamp, in_i64, i64_min, i64_max. lia. Qed.

Lemma of_bool_ok b : value_ok (of_bool b).
Proof. destruct b; vm_compute; split; discriminate. Qed.

Lemma parse_i64_range s n : parse_i64 s = Some n -> in_i64 n.
Proof.
  unfold parse_i64. intros H.
  repeat match type of H with
  | context [match ?x with _ => _ end] => destruct x eqn:?; try discriminate
  end; simplify_eq; bool_to_prop; unfold in_i64; lia.
Qed.

Lemma parse_number_ok v : value_ok v -> value_ok (parse_number v).
Proof.
  destruct v as [[|c s]|n|f|l|c]; simpl; intros H; try done.
  - destruct (parse_i64 (c :: s)) as [n|] eqn:E; [by apply parse_i64_range in E|].
    destruct (parse_f64 (c :: s)); [done|]. vm_compute. split; discriminate.
  - destruct l; vm_compute; split; discriminate.
Qed.

Definition is_number (v : Variable_) : Prop :=
  match v with VInteger _ | VFloat _ => True | _ => False end.

Lemma parse_number_number v : is_number (parse_number v).
Proof.
  destruct v as [[|c s]|n|f|l|c]; simpl; try done.
  destruct (parse_i64 (c :: s)); [done|]. by destruct (parse_f64 (c :: s)).
Qed.

Lemma num_op_ok int flt a b :
  (forall x y, value_ok (int x y)) -> value_ok (num_op int flt a b).
Proof. intros H. destruct a, b; simpl; try done; try apply H; vm_compute; split; discriminate. Qed.

Lemma filter_ok f l : Forall value_ok l -> value_ok (VArray (List.filter f l)).
Proof.
  intros H. apply value_ok_array. induction H as [|v l Hv _ IH]; simpl; [constructor|].
  destruct (f v); [by constructor|done].
Qed.

Lemma op_subtract_ok a b : value_ok a -> value_ok b -> value_ok (op_subtract a b).
Proof.
  intros Ha Hb.
  assert (forall x y, value_ok (num_op (fun a b => VInteger (saturate (a - b))) f64_sub x y)) as Hn
    by (intros; apply num_op_ok; intros; apply saturate_range).
  destruct a, b; unfold op_subtract; try apply Hn; apply filter_ok; by apply value_ok_array.
Qed.

Lemma op_add_ok a b : value_ok a -> value_ok b -> value_ok (op_add a b).
Proof.
  intros Ha Hb.
  assert (forall l, Forall value_ok l -> value_ok (VArray l)) as Harr by (intros l; apply value_ok_array).
  assert (forall l, value_ok (VArray l) -> Forall value_ok l) as Harr' by (intros l; apply value_ok_array).
  destruct a, b; unfold op_add; try done;
    try (by destruct s); try (apply saturate_range);
    apply Harr; rewrite ?Forall_app, ?Forall_cons_iff; rewrite ?Forall_nil; eauto.
Qed.

(** Every operator is total on the values of the language and keeps
    their integers in 64 bits: addition, subtraction and multiplication
    saturate, negation wraps, a division by zero is zero, and comparisons and
    logic give 0 or 1. *)
Theorem operators_total a b :
  value_ok a -> value_ok b ->
  value_ok (op_add a b) /\ value_ok (op_subtract a b) /\ value_ok (op_multiply a b) /\
  value_ok (op_divide a b) /\ value_ok (op_minus a) /\ is_number (op_minus a) /\
  (is_number (op_multiply a b) /\ is_number (op_divide a b)) /\
  Forall (fun v => v = VInteger 0 \/ v = VInteger 1)
    [op_and a b; op_or a b; op_xor a b; op_eq a b; op_ne a b; op_lt a b; op_le a b; op_gt a b; op_ge a b;
     op_not a].
Proof.
  intros Ha Hb. pose proof (parse_number_number a) as Na. pose proof (parse_number_number b) as Nb.
  split_and!.
  - by apply op_add_ok.
  - by apply op_subtract_ok.
  - apply num_op_ok. intros. apply saturate_range.
  - apply num_op_ok. done.
  - unfold op_minus. destruct (parse_number a); try done. apply as_i64_range.
  - unfold op_minus. by destruct (parse_number a).
  - unfold op_multiply. by destruct (parse_number a), (parse_number b).
  - unfold op_divide. by destruct (parse_number a), (parse_number b).
  - assert (forall x, of_bool x = VInteger 0 \/ of_bool x = VInteger 1) as H by (intros []; auto).
    repeat (apply Forall_cons; [apply H|]). constructor.
Qed.

(** Two equal constants are not equal for [==], although neither is less. *)
Lemma constants_never_equal c :
  op_eq (VConstant c) (VConstant c) = VInteger 0 /\ op_le (VConstant c) (VConstant c) = VInteger 1.
Proof. unfold op_eq, op_le. simpl. by rewrite Z.compare_refl. Qed.

(** The order that [sort] uses is no order: an array and a string are each
    greater than the other, an integer and a constant each less, and strings
    and integers make a cycle. *)
Lemma order_not_antisymmetric l s n c :
  var_cmp (VArray l) (VString s) = Datatypes.Gt /\ var_cmp (VString s) (VArray l) = Datatypes.Gt /\
  var_cmp (VInteger n) (VConstant c) = Datatypes.Lt /\ var_cmp (VConstant c) (VInteger n) = Datatypes.Lt.
Proof. done. Qed.

Lemma order_not_transitive :
  var_cmp (VString s#"10") (VString s#"9") = Datatypes.Lt /\
  var_cmp (VString s#"9") (VInteger 9) = Eq /\ var_cmp (VInteger 9) (VString s#"10") = Datatypes.Lt.
Proof. done. Qed.

(** A result of 65736 is taken for the status 200. *)
Lemma status_code_wraps : to_status_code (VInteger 65736) = Some 200.
Proof. reflexivity. Qed.
End Facts.

Example operators_total_witness :
  value_ok (@op_add demo_schema (VInteger i64_max) (VInteger 1)).
Proof.
  apply (@operators_total demo_schema (VInteger i64_max) (VInteger 1)); vm_compute; split; discriminate.
Defined.
