(* ===== verification/ExprFunctions.v ===== *)
(** * The functions of the expression language
      ([crates/common/src/expr/functions])

    The synchronous functions and their table.  A function gets as many
    arguments as the table says, because the parser counts them and the
    evaluator builds that many; [arg] is the indexing.  The Unicode tables,
    the digests and the reverse name of an address are fields of [Library].
    The asynchronous functions look things up in stores and in the DNS and
    are a parameter of the evaluator. *)

From Stdlib Require Import Sorted.
From S2P Require Import Prelude Decimals Utf8 Text IpMask ExprValue.

Class Library := {
  is_alphabetic : Z -> bool;               (* char::is_alphabetic, and so on *)
  is_uppercase : Z -> bool;
  is_lowercase : Z -> bool;
  is_alphanumeric : Z -> bool;
  str_to_lowercase : list Z -> list Z;
  str_to_uppercase : list Z -> list Z;
  md5 : list Z -> list Z;                  (* the digests, as bytes *)
  sha1 : list Z -> list Z;
  sha256 : list Z -> list Z;
  sha512 : list Z -> list Z;
  to_reverse_name : IpAddr -> list Z
}.

(** A small library for the examples. *)
Definition demo_library : Library := {|
  is_alphabetic := is_ascii_alphabetic; is_uppercase := is_ascii_uppercase;
  is_lowercase := is_ascii_lowercase; is_alphanumeric := is_ascii_alphanumeric;
  str_to_lowercase := map to_ascii_lowercase; str_to_uppercase := map to_ascii_uppercase;
  md5 s := s; sha1 s := s; sha256 s := s; sha512 s := s; to_reverse_name _ := []
|}.

Section Functions.
Context {Sch : Schema} {Lib : Library}.

Definition arg (n : nat) (v : list Variable_) : Variable_ := nth n v var_default.
Definition of_usize (n : Z) : Variable_ := VInteger (as_i64 n).
Definition of_len {A} (l : list A) : Variable_ := of_usize (Z.of_nat (length l)).
Definition strings (l : list (list Z)) : Variable_ := VArray (map VString l).

(* [crates/common/src/expr/functions/mod.rs:22-35] Variable::transform *)
Definition transform (f : list Z -> Variable_) (v : Variable_) : Variable_ :=
  match v with
  | VString s => f s
  | VArray l => VArray (map (fun v => match v with VString s => f s | v => f (into_string v) end) l)
  | v => f (into_string v)
  end.

(** ** Arrays *)

(* [crates/common/src/expr/functions/array.rs:9-21] fn_count *)
Definition fn_count (v : list Variable_) : Variable_ :=
  match arg 0 v with
  | VArray a => of_len a
  | v => of_usize (if negb (var_is_empty v) then 1 else 0)
  end.

(** [sort_unstable_by]: for a total order the result is determined up to
    equal elements; [var_cmp] is one on strings and on integers. *)
Fixpoint insert_by (cmp : Variable_ -> Variable_ -> comparison) (x : Variable_) (l : list Variable_) :
    list Variable_ :=
  match l with
  | [] => [x]
  | y :: l' => match cmp x y with Datatypes.Gt => y :: insert_by cmp x l' | _ => x :: l end
  end.
Fixpoint sort_by (cmp : Variable_ -> Variable_ -> comparison) (l : list Variable_) : list Variable_ :=
  match l with [] => [] | x :: l => insert_by cmp x (sort_by cmp l) end.

(* [crates/common/src/expr/functions/array.rs:23-32] fn_sort *)
Definition fn_sort (v : list Variable_) : Variable_ :=
  let is_asc := to_bool (arg 1 v) in
  let arr := into_array (arg 0 v) in
  VArray (sort_by (if is_asc then var_cmp else fun a b => var_cmp b a) arr).

Definition contains (l : list Variable_) (x : Variable_) : bool := existsb (fun y => var_eqb y x) l.

Fixpoint dedup_loop (result arr : list Variable_) : list Variable_ :=
  match arr with
  | [] => result
  | item :: arr => dedup_loop (if negb (contains result item) then result ++ [item] else result) arr
  end.

(* [crates/common/src/expr/functions/array.rs:34-45] fn_dedup *)
Definition fn_dedup (v : list Variable_) : Variable_ := VArray (dedup_loop [] (into_array (arg 0 v))).

(* [crates/common/src/expr/functions/array.rs:47-54] fn_is_intersect *)
Definition fn_is_intersect (v : list Variable_) : Variable_ :=
  of_bool (match arg 0 v, arg 1 v with
           | VArray a, VArray b => existsb (fun x => contains b x) a
           | VArray a, item | item, VArray a => contains a item
           | _, _ => false
           end).

(* [crates/common/src/expr/functions/array.rs:56-65] fn_winnow *)
Definition fn_winnow (v : list Variable_) : Variable_ :=
  match arg 0 v with
  | VArray a => VArray (List.filter (fun i => negb (var_is_empty i)) a)
  | v => v
  end.

(** ** Email addresses *)

Record email_state := MkEmail {
  last_ch : Z; in_quote : bool; at_count : Z; dot_count : Z; lp_len : Z; value : Z
}.

Definition is_atext (ch : Z) : bool :=
  is_ascii_alphanumeric ch || existsb (Z.eqb ch) s#"!#$%&'*+-/=?^_`{|}~" || (127 <=? ch).

(** One character; [None] is the early [false]. *)
(* [crates/common/src/expr/functions/email.rs:20-75] fn_is_email, one character *)
Definition email_step (ch : Z) (st : email_state) : option email_state :=
  let '(MkEmail last q at_ dot lp val) := st in
  if is_atext ch then Some (MkEmail ch q at_ dot lp (val + 1))
  else if (ch =? c#".") && negb q then
    if negb (last =? c#".") && negb (last =? c#"@") && negb (val =? 0)
    then Some (MkEmail ch q at_ (if at_ =? 1 then dot + 1 else dot) lp (val + 1))
    else None
  else if (ch =? c#"@") && negb q then Some (MkEmail ch q (at_ + 1) dot val 0)
  else if existsb (Z.eqb ch) s#">:, " && q then Some (MkEmail ch q at_ dot lp (val + 1))
  else if (ch =? 34) && (negb q || negb (last =? 92)) then Some (MkEmail ch (negb q) at_ dot lp val)
  else if (ch =? 92) && q && negb (last =? 92) then Some (MkEmail ch q at_ dot lp val)
  else if negb q then None
  else Some (MkEmail ch q at_ dot lp val).

Fixpoint email_loop (s : list Z) (st : email_state) : option email_state :=
  match s with
  | [] => Some st
  | ch :: s => match email_step ch st with Some st => email_loop s st | None => None end
  end.

Definition is_email (s : list Z) : bool :=
  match email_loop s (MkEmail 0 false 0 0 0 0) with
  | Some st => (at_count st =? 1) && (0 <? dot_count st) && (0 <? lp_len st) && (0 <? value st)
  | None => false
  end.

(* [crates/common/src/expr/functions/email.rs:11-79] fn_is_email *)
Definition fn_is_email (v : list Variable_) : Variable_ := of_bool (is_email (to_string (arg 0 v))).

(* [crates/common/src/expr/functions/email.rs:81-104] fn_email_part *)
Definition fn_email_part (v : list Variable_) : Variable_ :=
  let part := into_string (arg 1 v) in
  transform (fun s =>
    match rsplit_once s#"@" s with
    | Some (u, d) =>
        if bytes_eqb part s#"local" then VString (trim u)
        else if bytes_eqb part s#"domain" then VString (trim d)
        else var_default
    | None => var_default
    end) (arg 0 v).

(** ** Miscellaneous *)

(* [crates/common/src/expr/functions/misc.rs:13-20] fn_is_empty *)
Definition fn_is_empty (v : list Variable_) : Variable_ :=
  of_bool (match arg 0 v with
           | VString s => match s with [] => true | _ => false end
           | VInteger _ | VFloat _ | VConstant _ => false
           | VArray a => match a with [] => true | _ => false end
           end).

(* [crates/common/src/expr/functions/misc.rs:22-24] fn_is_number *)
Definition fn_is_number (v : list Variable_) : Variable_ :=
  of_bool (match arg 0 v with VInteger _ | VFloat _ => true | _ => false end).

(* [crates/common/src/expr/functions/misc.rs:26-31] fn_bit_and *)
Definition fn_bit_and (v : list Variable_) : Variable_ :=
  match to_integer (arg 0 v), to_integer (arg 1 v) with
  | Some lhs, Some rhs => VInteger (Z.land lhs rhs)
  | _, _ => VInteger 0
  end.

(* [crates/common/src/expr/functions/misc.rs:33-39] fn_is_ip_addr *)
Definition fn_is_ip_addr (v : list Variable_) : Variable_ :=
  of_bool (match parse_ip (to_string (arg 0 v)) with Some _ => true | None => false end).

(* [crates/common/src/expr/functions/misc.rs:41-47] fn_is_ipv4_addr *)
Definition fn_is_ipv4_addr (v : list Variable_) : Variable_ :=
  of_bool (match parse_ip (to_string (arg 0 v)) with Some (IpV4 _) => true | _ => false end).

(* [crates/common/src/expr/functions/misc.rs:49-55] fn_is_ipv6_addr *)
Definition fn_is_ipv6_addr (v : list Variable_) : Variable_ :=
  of_bool (match parse_ip (to_string (arg 0 v)) with Some (IpV6 _) => true | _ => false end).

(* [crates/common/src/expr/functions/misc.rs:57-65] fn_is_ip_in_cidr *)
Definition fn_is_ip_in_cidr (v : list Variable_) : Variable_ :=
  match parse_ip (to_string (arg 0 v)) with
  | None => of_bool false
  | Some ip =>
      of_bool (match from_str (to_string (arg 1 v)) with Some mask => matches mask ip | None => false end)
  end.

(* [crates/common/src/expr/functions/misc.rs:67-76] fn_ip_reverse_name *)
Definition fn_ip_reverse_name (v : list Variable_) : Variable_ :=
  VString (match parse_ip (to_string (arg 0 v)) with Some ip => to_reverse_name ip | None => [] end).

(* [crates/common/src/expr/functions/misc.rs:78-85] fn_if_then *)
Definition fn_if_then (v : list Variable_) : Variable_ :=
  if to_bool (arg 0 v) then arg 1 v else arg 2 v.

(** ** Text *)

(* [crates/common/src/expr/functions/text.rs:14-19] fn_trim *)
Definition fn_trim (v : list Variable_) : Variable_ := transform (fun s => VString (trim s)) (arg 0 v).
(* [crates/common/src/expr/functions/text.rs:21-26] fn_trim_end *)
Definition fn_trim_end (v : list Variable_) : Variable_ :=
  transform (fun s => VString (trim_end s)) (arg 0 v).
(* [crates/common/src/expr/functions/text.rs:28-33] fn_trim_start *)
Definition fn_trim_start (v : list Variable_) : Variable_ :=
  transform (fun s => VString (trim_start s)) (arg 0 v).

(* [crates/common/src/expr/functions/text.rs:35-42] fn_len *)
Definition fn_len (v : list Variable_) : Variable_ :=
  match arg 0 v with
  | VString s => of_len s
  | VArray a => of_len a
  | v => of_len (to_string v)
  end.

(* [crates/common/src/expr/functions/text.rs:44-47] fn_to_lowercase *)
Definition fn_to_lowercase (v : list Variable_) : Variable_ :=
  transform (fun s => VString (str_to_lowercase s)) (arg 0 v).
(* [crates/common/src/expr/functions/text.rs:49-52] fn_to_uppercase *)
Definition fn_to_uppercase (v : list Variable_) : Variable_ :=
  transform (fun s => VString (str_to_uppercase s)) (arg 0 v).

(* [crates/common/src/expr/functions/text.rs:54-62] fn_is_uppercase *)
Definition fn_is_uppercase (v : list Variable_) : Variable_ :=
  transform (fun s => of_bool (forallb is_uppercase (List.filter is_alphabetic (chars s)))) (arg 0 v).
(* [crates/common/src/expr/functions/text.rs:64-72] fn_is_lowercase *)
Definition fn_is_lowercase (v : list Variable_) : Variable_ :=
  transform (fun s => of_bool (forallb is_lowercase (List.filter is_alphabetic (chars s)))) (arg 0 v).
(* [crates/common/src/expr/functions/text.rs:74-77] fn_has_digits *)
Definition fn_has_digits (v : list Variable_) : Variable_ :=
  transform (fun s => of_bool (existsb is_ascii_digit (chars s))) (arg 0 v).

(* [crates/common/src/expr/functions/text.rs:79-87] fn_split_words *)
Definition fn_split_words (v : list Variable_) : Variable_ :=
  strings (map encode (List.filter (forallb is_alphanumeric) (split_whitespace (to_string (arg 0 v))))).

Definition count_chars (p : Z -> bool) (v : Variable_) : Variable_ :=
  of_len (List.filter p (chars (to_string v))).

(* [crates/common/src/expr/functions/text.rs:89-96] fn_count_spaces *)
Definition fn_count_spaces (v : list Variable_) : Variable_ := count_chars is_whitespace (arg 0 v).
(* [crates/common/src/expr/functions/text.rs:98-105] fn_count_uppercase *)
Definition fn_count_uppercase (v : list Variable_) : Variable_ :=
  count_chars (fun c => is_alphabetic c && is_uppercase c) (arg 0 v).
(* [crates/common/src/expr/functions/text.rs:107-114] fn_count_lowercase *)
Definition fn_count_lowercase (v : list Variable_) : Variable_ :=
  count_chars (fun c => is_alphabetic c && is_lowercase c) (arg 0 v).
(* [crates/common/src/expr/functions/text.rs:116-118] fn_count_chars *)
Definition fn_count_chars (v : list Variable_) : Variable_ := of_len (chars (to_string (arg 0 v))).

(* [crates/common/src/expr/functions/text.rs:120-125] fn_eq_ignore_case *)
Definition fn_eq_ignore_case (v : list Variable_) : Variable_ :=
  of_bool (eq_ignore_ascii_case (to_string (arg 0 v)) (to_string (arg 1 v))).

(* [crates/common/src/expr/functions/text.rs:127-134] fn_contains *)
Definition fn_contains (v : list Variable_) : Variable_ :=
  of_bool (match arg 0 v with
           | VString s => str_contains s (to_string (arg 1 v))
           | VArray arr => contains arr (arg 1 v)
           | val => str_contains (to_string val) (to_string (arg 1 v))
           end).

(* [crates/common/src/expr/functions/text.rs:136-150] fn_contains_ignore_case *)
Definition fn_contains_ignore_case (v : list Variable_) : Variable_ :=
  let needle := to_string (arg 1 v) in
  of_bool (match arg 0 v with
           | VString s => str_contains (str_to_lowercase s) (str_to_lowercase needle)
           | VArray arr =>
               existsb (fun v => match v with VString s => eq_ignore_ascii_case s needle | _ => false end) arr
           | val => str_contains (to_string val) needle
           end).

(* [crates/common/src/expr/functions/text.rs:152-157] fn_starts_with *)
Definition fn_starts_with (v : list Variable_) : Variable_ :=
  of_bool (starts_with (to_string (arg 1 v)) (to_string (arg 0 v))).
(* [crates/common/src/expr/functions/text.rs:159-164] fn_ends_with *)
Definition fn_ends_with (v : list Variable_) : Variable_ :=
  of_bool (ends_with (to_string (arg 1 v)) (to_string (arg 0 v))).

(* [crates/common/src/expr/functions/text.rs:166-176] fn_lines *)
Definition fn_lines (v : list Variable_) : Variable_ :=
  match arg 0 v with
  | VString s => strings (lines s)
  | val => val
  end.

(** [n] as a length of [l], without building a large number. *)
Definition cap {A} (n : Z) (l : list A) : nat := Z.to_nat (Z.min n (Z.of_nat (length l))).

(* [crates/common/src/expr/functions/text.rs:178-186] fn_substring *)
Definition fn_substring (v : list Variable_) : Variable_ :=
  let cs := chars (to_string (arg 0 v)) in
  let cs := skipn (cap (default 0 (to_usize (arg 1 v))) cs) cs in
  VString (encode (firstn (cap (default 0 (to_usize (arg 2 v))) cs) cs)).

(* [crates/common/src/expr/functions/text.rs:188-203] fn_strip_prefix *)
Definition fn_strip_prefix (v : list Variable_) : Variable_ :=
  let prefix := into_string (arg 1 v) in
  transform (fun s => match strip_prefix prefix s with Some s => VString s | None => var_default end)
    (arg 0 v).

(* [crates/common/src/expr/functions/text.rs:205-220] fn_strip_suffix *)
Definition fn_strip_suffix (v : list Variable_) : Variable_ :=
  let suffix := into_string (arg 1 v) in
  transform (fun s => match strip_suffix suffix s with Some s => VString s | None => var_default end)
    (arg 0 v).

(* [crates/common/src/expr/functions/text.rs:222-239] fn_split *)
Definition fn_split (v : list Variable_) : Variable_ :=
  strings (split (into_string (arg 1 v)) (into_string (arg 0 v))).
(* [crates/common/src/expr/functions/text.rs:241-258] fn_rsplit *)
Definition fn_rsplit (v : list Variable_) : Variable_ :=
  strings (rsplit (into_string (arg 1 v)) (into_string (arg 0 v))).

(* [crates/common/src/expr/functions/text.rs:266-277] split_n *)
Fixpoint split_n (num : nat) (s arg : list Z) : list (list Z) :=
  match num with
  | O => [s]
  | S num =>
      match split_once arg s with
      | Some (a, b) => a :: split_n num b arg
      | None => [s]
      end
  end.

(** The number is cast to [usize], so that a negative one is a large one. *)
(* [crates/common/src/expr/functions/text.rs:260-288] fn_split_n *)
Definition fn_split_n (v : list Variable_) : Variable_ :=
  let num := wrap 64 (default 0 (to_integer (arg 2 v))) in
  strings (split_n (Z.to_nat num) (into_string (arg 0 v)) (into_string (arg 1 v))).

(* [crates/common/src/expr/functions/text.rs:290-310] fn_split_once *)
Definition fn_split_once (v : list Variable_) : Variable_ :=
  match split_once (into_string (arg 1 v)) (into_string (arg 0 v)) with
  | Some (a, b) => strings [a; b]
  | None => var_default
  end.
(* [crates/common/src/expr/functions/text.rs:312-332] fn_rsplit_once *)
Definition fn_rsplit_once (v : list Variable_) : Variable_ :=
  match rsplit_once (into_string (arg 1 v)) (into_string (arg 0 v)) with
  | Some (a, b) => strings [a; b]
  | None => var_default
  end.

(* [crates/utils/src/lib.rs:222-231] HexEncode::hex_encode *)
Definition hex_encode (bytes : list Z) : list Z :=
  bytes ≫= fun b => [hex_digit (b / 16); hex_digit (b mod 16)].

(* [crates/common/src/expr/functions/text.rs:334-359] fn_hash *)
Definition fn_hash (v : list Variable_) : Variable_ :=
  let value := into_string (arg 0 v) in
  let algo := into_string (arg 1 v) in
  if bytes_eqb algo s#"md5" then VString (hex_encode (md5 value))
  else if bytes_eqb algo s#"sha1" then VString (hex_encode (sha1 value))
  else if bytes_eqb algo s#"sha256" then VString (hex_encode (sha256 value))
  else if bytes_eqb algo s#"sha512" then VString (hex_encode (sha512 value))
  else var_default.

(** ** The tables *)

(* [crates/common/src/expr/functions/mod.rs:39-85] FUNCTIONS *)
Definition FUNCTIONS : list (list Z * (list Variable_ -> Variable_) * Z) := [
  (s#"count", fn_count, 1); (s#"sort", fn_sort, 2); (s#"dedup", fn_dedup, 1);
  (s#"winnow", fn_winnow, 1); (s#"is_intersect", fn_is_intersect, 2); (s#"is_email", fn_is_email, 1);
  (s#"email_part", fn_email_part, 2); (s#"is_empty", fn_is_empty, 1); (s#"is_number", fn_is_number, 1);
  (s#"bit_and", fn_bit_and, 2); (s#"is_ip_addr", fn_is_ip_addr, 1);
  (s#"is_ipv4_addr", fn_is_ipv4_addr, 1); (s#"is_ipv6_addr", fn_is_ipv6_addr, 1);
  (s#"is_ip_in_cidr", fn_is_ip_in_cidr, 2); (s#"ip_reverse_name", fn_ip_reverse_name, 1);
  (s#"trim", fn_trim, 1); (s#"trim_end", fn_trim_end, 1); (s#"trim_start", fn_trim_start, 1);
  (s#"len", fn_len, 1); (s#"to_lowercase", fn_to_lowercase, 1); (s#"to_uppercase", fn_to_uppercase, 1);
  (s#"is_uppercase", fn_is_uppercase, 1); (s#"is_lowercase", fn_is_lowercase, 1);
  (s#"has_digits", fn_has_digits, 1); (s#"count_spaces", fn_count_spaces, 1);
  (s#"count_uppercase", fn_count_uppercase, 1); (s#"count_lowercase", fn_count_lowercase, 1);
  (s#"count_chars", fn_count_chars, 1); (s#"contains", fn_contains, 2);
  (s#"contains_ignore_case", fn_contains_ignore_case, 2); (s#"eq_ignore_case", fn_eq_ignore_case, 2);
  (s#"starts_with", fn_starts_with, 2); (s#"ends_with", fn_ends_with, 2); (s#"lines", fn_lines, 1);
  (s#"substring", fn_substring, 3); (s#"strip_prefix", fn_strip_prefix, 2);
  (s#"strip_suffix", fn_strip_suffix, 2); (s#"split", fn_split, 2); (s#"rsplit", fn_rsplit, 2);
  (s#"split_once", fn_split_once, 2); (s#"rsplit_once", fn_rsplit_once, 2); (s#"split_n", fn_split_n, 3);
  (s#"split_words", fn_split_words, 1); (s#"hash", fn_hash, 2); (s#"if_then", fn_if_then, 3)].

(* [crates/common/src/expr/functions/mod.rs:97-107] ASYNC_FUNCTIONS *)
Definition ASYNC_FUNCTIONS : list (list Z * Z * Z) := [
  (s#"is_local_domain", 0, 1); (s#"is_local_address", 1, 1); (s#"key_get", 2, 2);
  (s#"key_exists", 3, 2); (s#"key_set", 4, 3); (s#"counter_incr", 5, 3); (s#"counter_get", 6, 2);
  (s#"dns_query", 8, 2); (s#"sql_query", 7, 3)].
End Functions.

(** ** Properties *)

Section Facts.
Context {Sch : Schema} {Lib : Library}.

(** Reading the strings back. *)
Definition as_strings (v : Variable_) : list (list Z) := match v with VArray l => map to_string l | _ => [] end.

Lemma as_strings_strings l : as_strings (strings l) = l.
Proof. unfold strings, as_strings. rewrite map_map. apply map_id. Qed.

Lemma split_n_join p num s : join p (split_n num s p) = s.
Proof.
  revert s. induction num as [|num IH]; intros s; simpl; [done|].
  destruct (split_once p s) as [[a b]|] eqn:E; [|done].
  apply split_once_some in E. specialize (IH b).
  destruct (split_n num b p) as [|y l] eqn:El; [by destruct num; simpl in El; repeat case_match|].
  simpl in *. rewrite IH. by subst.
Qed.

Lemma split_n_length p num s : (length (split_n num s p) <= S num)%nat.
Proof.
  revert s. induction num as [|num IH]; intros s; simpl; [lia|].
  destruct (split_once p s) as [[a b]|]; simpl; [specialize (IH b); lia|lia].
Qed.

(** No piece but the last one holds the separator. *)
Lemma split_fuel_pieces p fuel : forall s x, p <> [] -> (length s <= fuel)%nat ->
  In x (split_fuel fuel p s) -> str_contains x p = false.
Proof.
  induction fuel as [|fuel IH]; intros s x Hp Hlen; cbn [split_fuel].
  - destruct s; [|simpl in Hlen; lia]. intros [<-|[]]. by destruct p.
  - destruct (split_once p s) as [[a b]|] eqn:E.
    + pose proof (split_once_some _ _ _ _ E) as Hs. intros [<-|Hin].
      * unfold str_contains. destruct (split_once p a) as [[a' b']|] eqn:E'; [|done].
        apply split_once_some in E'. subst a. rewrite <- !app_assoc in Hs.
        pose proof (split_once_first _ _ _ _ _ _ E Hs) as Hl.
        rewrite !length_app in Hl. destruct p; [done|simpl in Hl; lia].
      * apply (IH b); [done| |done]. subst s. rewrite !length_app in Hlen.
        destruct p; [done|simpl in Hlen; lia].
    + intros [<-|[]]. unfold str_contains. by rewrite E.
Qed.

(** [split] and [split_n] lose nothing: the pieces joined by the
    separator are the text.  No piece of [split] holds the separator, and
    [split_n] gives at most one piece more than its number. *)
Theorem split_functions s p n :
  p <> [] -> 0 <= n < 2 ^ 63 ->
  let pieces := as_strings (fn_split [VString s; VString p]) in
  let pieces_n := as_strings (fn_split_n [VString s; VString p; VInteger n]) in
  join p pieces = s /\ Forall (fun x => str_contains x p = false) pieces /\
  join p pieces_n = s /\ Z.of_nat (length pieces_n) <= n + 1.
Proof.
  intros Hp Hn. unfold fn_split, fn_split_n, arg. cbn [nth into_string to_integer default].
  rewrite !as_strings_strings.
  assert (split p s = split_fuel (length s) p s) as -> by (by destruct p). split_and!.
  - apply split_fuel_join.
  - apply Forall_forall. intros x. by apply split_fuel_pieces.
  - apply split_n_join.
  - unfold wrap. cbn. rewrite Z.mod_small by lia. pose proof (split_n_length p (Z.to_nat n) s). lia.
Qed.

(** *** Sorting and deduplication of texts *)

Lemma bytes_compare_swap a b : bytes_compare b a = CompOpp (bytes_compare a b).
Proof.
  revert b. induction a as [|x a IH]; intros [|y b]; try done. simpl.
  rewrite (Z.compare_antisym x y). destruct (x ?= y); simpl; auto.
Qed.

Definition text_le (asc : bool) (a b : list Z) : Prop :=
  bytes_compare a b <> if asc then Datatypes.Gt else Datatypes.Lt.

Definition text_cmp (asc : bool) : Variable_ -> Variable_ -> comparison :=
  if asc then var_cmp else fun a b => var_cmp b a.

Lemma text_cmp_le asc a b : text_cmp asc (VString a) (VString b) <> Datatypes.Gt <-> text_le asc a b.
Proof.
  unfold text_le, text_cmp, var_cmp. destruct asc; simpl; [done|].
  rewrite (bytes_compare_swap a b). by destruct (bytes_compare a b).
Qed.

Lemma text_cmp_gt asc a b : text_cmp asc (VString a) (VString b) = Datatypes.Gt -> text_le asc b a.
Proof.
  unfold text_le, text_cmp, var_cmp. rewrite (bytes_compare_swap a b).
  destruct asc; simpl; [|rewrite (bytes_compare_swap a b)]; by destruct (bytes_compare a b).
Qed.

Fixpoint insert_text (asc : bool) (x : list Z) (l : list (list Z)) : list (list Z) :=
  match l with
  | [] => [x]
  | y :: l' => match text_cmp asc (VString x) (VString y) with
               | Datatypes.Gt => y :: insert_text asc x l' | _ => x :: l end
  end.
Fixpoint sort_text (asc : bool) (l : list (list Z)) : list (list Z) :=
  match l with [] => [] | x :: l => insert_text asc x (sort_text asc l) end.

Lemma sort_by_text asc l : sort_by (text_cmp asc) (map VString l) = map VString (sort_text asc l).
Proof.
  induction l as [|x l IH]; [done|]. cbn [map sort_by sort_text]. rewrite IH. clear IH.
  induction (sort_text asc l) as [|y l' IH]; [done|]. cbn [map insert_by insert_text].
  destruct (text_cmp asc (VString x) (VString y)); [done|done|]. by rewrite IH.
Qed.

Lemma insert_text_perm asc x l : Permutation (insert_text asc x l) (x :: l).
Proof.
  induction l as [|y l IH]; [done|]. cbn [insert_text].
  destruct (text_cmp _ _ _); [done|done|]. rewrite IH. constructor.
Qed.

Lemma insert_text_sorted asc x l :
  Sorted (text_le asc) l -> Sorted (text_le asc) (insert_text asc x l).
Proof.
  induction 1 as [|y l Hl IH Hh]; cbn [insert_text]; [by repeat constructor|].
  destruct (text_cmp asc (VString x) (VString y)) eqn:E.
  1, 2: constructor; [by constructor|constructor; apply text_cmp_le; congruence].
  constructor; [done|].
  destruct l as [|z l]; cbn [insert_text]; [constructor; by apply text_cmp_gt|].
  inversion_clear Hh. destruct (text_cmp asc (VString x) (VString z)); constructor; try done;
    by apply text_cmp_gt.
Qed.

Lemma contains_strings l x : contains (map VString l) (VString x) = existsb (fun y => bytes_eqb y x) l.
Proof. unfold contains. induction l as [|y l IH]; [done|]. cbn [map existsb]. by rewrite IH. Qed.

Lemma dedup_text l : forall r, NoDup r -> exists r',
  dedup_loop (map VString r) (map VString l) = map VString r' /\ NoDup r' /\
  forall x, In x r' <-> In x r \/ In x l.
Proof.
  induction l as [|x l IH]; intros r Hr; cbn [map dedup_loop].
  - exists r. naive_solver.
  - rewrite contains_strings. destruct (existsb (fun y => bytes_eqb y x) r) eqn:E; cbn [negb].
    + apply existsb_exists in E as (y & Hy & Hxy). apply bytes_eqb_eq in Hxy as ->.
      destruct (IH r Hr) as (r' & E & Hn & Hin). exists r'. split_and!; [done|done|].
      intros z. rewrite Hin. simpl. naive_solver.
    + change [VString x] with (map VString [x]). rewrite <- map_app.
      destruct (IH (r ++ [x])) as (r' & E' & Hn & Hin).
      { apply list.NoDup_app. split_and!; [done| |apply NoDup_singleton].
        intros z Hz Hzx. apply list_elem_of_singleton in Hzx as ->. apply list_elem_of_In in Hz.
        assert (existsb (fun y => bytes_eqb y x) r = true); [|congruence].
        apply existsb_exists. exists x. split; [done|apply bytes_eqb_refl]. }
      exists r'. split_and!; [done|done|]. intros z. rewrite Hin, in_app_iff. simpl. naive_solver.
Qed.

(** On texts, [sort] gives a sorted permutation of its argument,
    ascending or descending as asked, and [dedup] gives each text once. *)
Theorem sort_dedup_texts (l : list (list Z)) (asc : bool) :
  let sorted := as_strings (fn_sort [strings l; of_bool asc]) in
  let deduped := as_strings (fn_dedup [strings l]) in
  Permutation sorted l /\ Sorted (text_le asc) sorted /\
  NoDup deduped /\ forall x, In x deduped <-> In x l.
Proof.
  unfold fn_sort, fn_dedup, arg. cbn [nth into_array strings].
  assert (to_bool (of_bool asc) = asc) as -> by (by destruct asc).
  fold (text_cmp asc). rewrite sort_by_text.
  destruct (dedup_text l [] (NoDup_nil_2)) as (r & E & Hn & Hin). simpl in E. rewrite E.
  fold (strings (sort_text asc l)) (strings r). rewrite !as_strings_strings. split_and!.
  - clear. induction l as [|x l IH]; [done|]. cbn [sort_text]. by rewrite insert_text_perm, IH.
  - clear. induction l as [|x l IH]; [constructor|]. by apply insert_text_sorted.
  - done.
  - intros x. rewrite Hin. simpl. naive_solver.
Qed.

(** A negative number of pieces with an empty separator asks for almost 2^64
    empty pieces. *)
Lemma split_n_unbounded s num :
  length (split_n num s []) = S num /\
  wrap 64 (default 0 (to_integer (VInteger (-1)))) = 2 ^ 64 - 1.
Proof.
  split; [|reflexivity]. induction num as [|num IH]; [done|]. cbn [split_n].
  assert (split_once [] s = Some ([], s)) as -> by (by destruct s). cbn [length]. by rewrite IH.
Qed.

(** A domain that ends in its only dot, and a local part that ends in one,
    pass for an address. *)
Lemma is_email_accepts : is_email s#"a@b." = true /\ is_email s#"a.@b.c" = true.
Proof. split; reflexivity. Qed.
End Facts.

Example split_functions_witness :
  join s#", " (as_strings (@fn_split demo_schema [VString s#"a, b"; VString s#", "])) = s#"a, b".
Proof. apply (@split_functions demo_schema s#"a, b" s#", " 1); [discriminate|lia]. Defined.
