(* ===== verification/ExprParser.v ===== *)
(** * The expression parser ([crates/common/src/expr/parser.rs])

    A shunting-yard parser that compiles tokens into the items of a stack
    machine, with jumps for the short circuits of [&&] and [||], argument
    counts for functions and arrays, and array access.  The vectors that the
    code uses as stacks are lists with the top first; [Panicked] stands for
    an [unwrap] of [None] or an index out of range. *)

From S2P Require Import Prelude ExprValue.

(** ** Tokens and compiled items *)

(* [crates/common/src/expr/mod.rs:127-143] BinaryOperator *)
Inductive BinaryOperator :=
| Add | Subtract | Multiply | Divide | And | Or | Xor | Eq | Ne | Lt | Le | Gt | Ge.

(* [crates/common/src/expr/mod.rs:146-149] UnaryOperator *)
Inductive UnaryOperator := Not | Minus.

(* [crates/common/src/expr/parser.rs:265-277] BinaryOperator::precedence *)
Definition precedence (b : BinaryOperator) : Z :=
  match b with
  | Multiply | Divide => 7
  | Add | Subtract => 6
  | Gt | Ge | Lt | Le => 5
  | Eq | Ne => 4
  | Xor => 3
  | And => 2
  | Or => 1
  end.

(* [crates/common/src/expr/parser.rs:16] ID_ARRAY_ACCESS *)
Definition ID_ARRAY_ACCESS : Z := u32_max.
(* [crates/common/src/expr/parser.rs:17] ID_ARRAY_BUILD *)
Definition ID_ARRAY_BUILD : Z := u32_max - 1.

Section Parser.
Context {Sch : Schema}.

(* [crates/common/src/expr/mod.rs:75-80] Constant *)
Inductive Constant :=
| CStatic (c : EConst)
| CInteger (n : Z)
| CFloat (f : f64)
| CString (s : list Z).

(* [crates/common/src/expr/mod.rs:174-181] SystemVariable *)
Inductive SystemVariable :=
| Hostname | Domain | NodeId | NodeHostname | NodeRole
| SysMetric (m : Metric).

(* [crates/common/src/expr/mod.rs:38-51] ExpressionItem *)
Inductive ExpressionItem :=
| IVariable (v : EVar)
| IGlobal (g : list Z)
| ISystem (s : SystemVariable)
| ICapture (n : Z)
| IConstant (c : Constant)
| IBinary (b : BinaryOperator)
| IUnary (u : UnaryOperator)
| IRegex (r : Rx)
| IJmpIf (val : bool) (pos : Z)
| IFunction (id num_args : Z)
| IArrayAccess
| IArrayBuild (n : Z).

(* [crates/common/src/expr/mod.rs:33-35] Expression *)
Definition Expression : Type := list ExpressionItem.

(* [crates/common/src/expr/mod.rs:152-171] Token *)
Inductive Token :=
| TVariable (v : EVar)
| TGlobal (g : list Z)
| TCapture (n : Z)
| TFunction (name : list Z) (id num_args : Z)
| TConstant (c : Constant)
| TSystem (s : SystemVariable)
| TRegex (r : Rx)
| TBinary (b : BinaryOperator)
| TUnary (u : UnaryOperator)
| TOpenParen | TCloseParen | TOpenBracket | TCloseBracket | TComma.

Inductive ParseError :=
| Mismatched
| WrongArguments (name : list Z) (expected got : Z)
| MissingIndex
| MatchesArguments
| SystemArguments
| InvalidOnStack
| Panicked.

(* [crates/common/src/expr/parser.rs:9-14] ExpressionParser *)
Record PState := MkP {
  output : list ExpressionItem;
  operator_stack : list (Token * option nat);
  arg_count : list Z;
  last_is_var_or_fnc : bool
}.

(** [i32::saturating_add] and [saturating_sub] of one. *)
Definition i32_clamp (n : Z) : Z := clamp (- 2 ^ 31) (2 ^ 31 - 1) n.
(** [n as i32]. *)
Definition as_i32 (n : Z) : Z := (n + 2 ^ 31) mod 2 ^ 32 - 2 ^ 31.

(** The array that [inc_arg_count] also counts: the function below the top
    of the stack. *)
(* [crates/common/src/expr/parser.rs:237-242] ExpressionParser::inc_arg_count *)
Definition bump_array (e : Token * option nat) : Token * option nat :=
  match e with
  | (TFunction name id num_args, j) =>
      if id =? ID_ARRAY_BUILD then (TFunction name id (wrap 32 (num_args + 1)), j) else e
  | _ => e
  end.

Definition count_element (ops : list (Token * option nat)) : list (Token * option nat) :=
  match ops with
  | [] => []
  | [e] => [bump_array e]
  | top :: e :: rest => top :: bump_array e :: rest
  end.

(* [crates/common/src/expr/parser.rs:233-244] ExpressionParser::inc_arg_count *)
Definition inc_arg_count (st : PState) : PState :=
  match arg_count st with
  | x :: rest => MkP (output st) (count_element (operator_stack st)) (i32_clamp (x + 1) :: rest)
                   (last_is_var_or_fnc st)
  | [] => st
  end.

(* [crates/common/src/expr/parser.rs:246-250] ExpressionParser::dec_arg_count *)
Definition dec_arg_count (st : PState) : PState :=
  match arg_count st with
  | x :: rest => MkP (output st) (operator_stack st) (i32_clamp (x - 1) :: rest) (last_is_var_or_fnc st)
  | [] => st
  end.

(* [crates/common/src/expr/parser.rs:252-262] ExpressionParser::update_jmp_pos *)
Definition update_jmp_pos (jmp_pos : option nat) (out : list ExpressionItem) :
    result (list ExpressionItem) ParseError :=
  match jmp_pos with
  | None => Ok out
  | Some j =>
      match out !! j with
      | None => Err Panicked
      | Some (IJmpIf val _) =>
          Ok (<[j := IJmpIf val (wrap 32 (Z.of_nat (length out) - Z.of_nat j))]> out)
      | Some _ => Ok out
      end
  end.

Definition push (i : ExpressionItem) (st : PState) : PState :=
  MkP (output st ++ [i]) (operator_stack st) (arg_count st) (last_is_var_or_fnc st).
Definition push_op (t : Token) (j : option nat) (st : PState) : PState :=
  MkP (output st) ((t, j) :: operator_stack st) (arg_count st) (last_is_var_or_fnc st).
Definition set_ops (ops : list (Token * option nat)) (st : PState) : PState :=
  MkP (output st) ops (arg_count st) (last_is_var_or_fnc st).
Definition set_output (out : list ExpressionItem) (st : PState) : PState :=
  MkP out (operator_stack st) (arg_count st) (last_is_var_or_fnc st).

(** [update_jmp_pos] and the push of the operator. *)
Definition emit_binary (b : BinaryOperator) (j : option nat) (out : list ExpressionItem) :
    result (list ExpressionItem) ParseError :=
  (let? out := update_jmp_pos j out in Ok (out ++ [IBinary b]))%result.

(** The loop that pops up to the opening token. *)
(* [crates/common/src/expr/parser.rs:62-76] ExpressionParser::parse, the loop of a closing token *)
Fixpoint pop_to_open (paren : bool) (ops : list (Token * option nat)) (out : list ExpressionItem) :
    result (list ExpressionItem * list (Token * option nat)) ParseError :=
  match ops with
  | [] => Err Mismatched
  | (t, j) :: ops =>
      match t with
      | TOpenParen => if paren then Ok (out, ops) else Err Mismatched
      | TOpenBracket => if paren then Err Mismatched else Ok (out, ops)
      | TBinary b => (let? out := emit_binary b j out in pop_to_open paren ops out)%result
      | TUnary u => pop_to_open paren ops (out ++ [IUnary u])
      | _ => Err Mismatched
      end
  end.

(** A function whose arguments have just been closed. *)
(* [crates/common/src/expr/parser.rs:78-120] ExpressionParser::parse, the function below *)
Definition close_function (st : PState) : result PState ParseError :=
  match operator_stack st with
  | (TFunction name id num_args, _) :: ops =>
      match arg_count st with
      | [] => Err Panicked
      | got_args :: rest =>
          if negb (got_args =? as_i32 num_args) then
            Err (if negb (id =? u32_max) then WrongArguments name num_args got_args else MissingIndex)
          else
            Ok (MkP (output st ++ [if id =? ID_ARRAY_ACCESS then IArrayAccess
                                   else if id =? ID_ARRAY_BUILD then IArrayBuild num_args
                                   else IFunction id num_args])
                  ops rest (last_is_var_or_fnc st))
      end
  | (TRegex regex, _) :: ops =>
      match arg_count st with
      | [] => Err Panicked
      | n :: rest =>
          if negb (n =? 1) then Err MatchesArguments
          else Ok (MkP (output st ++ [IRegex regex]) ops rest (last_is_var_or_fnc st))
      end
  | (TSystem setting, _) :: ops =>
      match arg_count st with
      | [] => Err Panicked
      | n :: rest =>
          if negb (n =? 0) then Err SystemArguments
          else Ok (MkP (output st ++ [ISystem setting]) ops rest (last_is_var_or_fnc st))
      end
  | _ => Ok st
  end.

(** The loop that pops the operators that bind at least as tightly. *)
(* [crates/common/src/expr/parser.rs:126-146] ExpressionParser::parse, the loop of a binary operator *)
Fixpoint pop_tighter (b : BinaryOperator) (ops : list (Token * option nat)) (out : list ExpressionItem) :
    result (list ExpressionItem * list (Token * option nat)) ParseError :=
  match ops with
  | (TBinary top, j) :: rest =>
      if precedence b <=? precedence top then
        (let? out := emit_binary top j out in pop_tighter b rest out)%result
      else Ok (out, ops)
  | (TUnary u, _) :: rest => pop_tighter b rest (out ++ [IUnary u])
  | _ => Ok (out, ops)
  end.

(** The loop of a comma. *)
(* [crates/common/src/expr/parser.rs:191-207] ExpressionParser::parse, the loop of a comma *)
Fixpoint pop_operators (ops : list (Token * option nat)) (out : list ExpressionItem) :
    result (list ExpressionItem * list (Token * option nat)) ParseError :=
  match ops with
  | (TBinary b, j) :: rest => (let? out := emit_binary b j out in pop_operators rest out)%result
  | (TUnary u, _) :: rest => pop_operators rest (out ++ [IUnary u])
  | _ => Ok (out, ops)
  end.

Definition set_last (b : bool) (st : PState) : PState :=
  MkP (output st) (operator_stack st) (arg_count st) b.

(* [crates/common/src/expr/parser.rs:34-210] ExpressionParser::parse, one token *)
Definition token_step (token : Token) (st : PState) : result PState ParseError :=
  match token with
  | TVariable v => Ok (set_last true (push (IVariable v) (inc_arg_count st)))
  | TConstant c => Ok (set_last false (push (IConstant c) (inc_arg_count st)))
  | TGlobal g => Ok (set_last false (push (IGlobal g) (inc_arg_count st)))
  | TCapture n => Ok (set_last false (push (ICapture n) (inc_arg_count st)))
  | TUnary u => Ok (set_last false (push_op (TUnary u) None st))
  | TOpenParen => Ok (set_last false (push_op TOpenParen None st))
  | TCloseParen | TCloseBracket =>
      (let? (out, ops) :=
         pop_to_open (match token with TCloseParen => true | _ => false end)
           (operator_stack st) (output st) in
       let? st := close_function (MkP out ops (arg_count st) (last_is_var_or_fnc st)) in
       Ok (set_last true st))%result
  | TBinary b =>
      let st := dec_arg_count st in
      (let? (out, ops) := pop_tighter b (operator_stack st) (output st) in
       let '(out, j) := match b with
         | And => (out ++ [IJmpIf false 0], Some (length out))
         | Or => (out ++ [IJmpIf true 0], Some (length out))
         | _ => (out, None)
         end in
       Ok (MkP out ((TBinary b, j) :: ops) (arg_count st) false))%result
  | TFunction _ _ _ | TRegex _ | TSystem _ =>
      let st := inc_arg_count st in
      Ok (MkP (output st) ((token, None) :: operator_stack st) (0 :: arg_count st) false)
  | TOpenBracket =>
      let '(id, num_args, count, st) :=
        if last_is_var_or_fnc st then (ID_ARRAY_ACCESS, 2, 1, st)
        else (ID_ARRAY_BUILD, 0, 0, inc_arg_count st) in
      Ok (MkP (output st)
            ((TOpenBracket, None) :: (TFunction s#"array" id num_args, None) :: operator_stack st)
            (count :: arg_count st) false)
  | TComma =>
      (let? (out, ops) := pop_operators (operator_stack st) (output st) in
       Ok (MkP out ops (arg_count st) false))%result
  end.

(* [crates/common/src/expr/parser.rs:213-230] ExpressionParser::parse, the end *)
Fixpoint finish_ops (ops : list (Token * option nat)) (out : list ExpressionItem) :
    result Expression ParseError :=
  match ops with
  | [] => Ok out
  | (TBinary b, j) :: rest => (let? out := emit_binary b j out in finish_ops rest out)%result
  | (TUnary u, _) :: rest => finish_ops rest (out ++ [IUnary u])
  | _ => Err InvalidOnStack
  end.

(** The tokens one after the other. *)
Fixpoint steps (tokens : list Token) (st : PState) : result PState ParseError :=
  match tokens with
  | [] => Ok st
  | t :: tokens => (let? st := token_step t st in steps tokens st)%result
  end.

(* [crates/common/src/expr/parser.rs:20-27] ExpressionParser::new *)
Definition new : PState := MkP [] [] [] false.

(* [crates/common/src/expr/parser.rs:29-231] ExpressionParser::parse *)
Definition parse_tokens (tokens : list Token) : result Expression ParseError :=
  (let? st := steps tokens new in finish_ops (operator_stack st) (output st))%result.

End Parser.

(** ** No panic *)

Section NoPanic.
Context {Sch : Schema}.

Definition is_function (t : Token) : bool :=
  match t with TFunction _ _ _ | TRegex _ | TSystem _ => true | _ => false end.

Fixpoint functions (ops : list (Token * option nat)) : nat :=
  match ops with
  | [] => 0
  | (t, _) :: ops => (if is_function t then 1 else 0) + functions ops
  end.

(** One argument count per function on the stack, and every jump is within
    the output. *)
Definition jump_ok (n : nat) (e : Token * option nat) : Prop :=
  match snd e with Some j => (j < n)%nat | None => True end.

Definition stack_ok (st : PState) : Prop :=
  length (arg_count st) = functions (operator_stack st) /\
  Forall (jump_ok (length (output st))) (operator_stack st).

Lemma jump_ok_mono n m ops : (n <= m)%nat -> Forall (jump_ok n) ops -> Forall (jump_ok m) ops.
Proof.
  intros Hle. apply Forall_impl. intros [t [j|]]; unfold jump_ok; simpl; lia.
Qed.

Lemma emit_binary_ok b j out :
  jump_ok (length out) (TBinary b, j) ->
  exists out', emit_binary b j out = Ok out' /\ length out' = S (length out).
Proof.
  unfold emit_binary, update_jmp_pos, jump_ok. simpl. destruct j as [j|]; intros Hj.
  - destruct (lookup_lt_is_Some_2 out j Hj) as [i Hi]. rewrite Hi.
    destruct i; simpl; eexists; (split; [reflexivity|]);
      rewrite length_app, ?length_insert; simpl; lia.
  - eexists. split; [reflexivity|]. rewrite length_app. simpl. lia.
Qed.

(** What the popping loops leave: fewer operators, more output. *)
Definition popped (ops : list (Token * option nat)) (out : list ExpressionItem)
    (r : result (list ExpressionItem * list (Token * option nat)) ParseError) : Prop :=
  match r with
  | Ok (out', ops') =>
      (length out <= length out')%nat /\ functions ops' = functions ops /\ Forall (jump_ok (length out')) ops'
  | Err e => e <> Panicked
  end.

Lemma popped_mono ops out ops0 out0 r :
  popped ops0 out0 r -> functions ops0 = functions ops -> (length out <= length out0)%nat ->
  popped ops out r.
Proof.
  destruct r as [[out' ops']|e]; simpl; [|done].
  intros (H1 & H2 & H3) Hf Hl. split_and!; [lia|congruence|done].
Qed.

Lemma popped_binary b j ops out f :
  Forall (jump_ok (length out)) ((TBinary b, j) :: ops) ->
  (forall out', Forall (jump_ok (length out')) ops -> popped ops out' (f out')) ->
  popped ((TBinary b, j) :: ops) out (let? out := emit_binary b j out in f out)%result.
Proof.
  intros H IH. apply Forall_cons_1 in H as [Hj Hr].
  destruct (emit_binary_ok b j out Hj) as (out' & E & Hlen). rewrite E. cbn [rbind].
  eapply popped_mono; [apply IH|reflexivity|lia].
  apply (jump_ok_mono (length out)); [lia|done].
Qed.

Lemma popped_unary u j ops out f :
  Forall (jump_ok (length out)) ((TUnary u, j) :: ops) ->
  (forall out', Forall (jump_ok (length out')) ops -> popped ops out' (f out')) ->
  popped ((TUnary u, j) :: ops) out (f (out ++ [IUnary u])).
Proof.
  intros H IH. apply Forall_cons_1 in H as [_ Hr].
  assert (length out <= length (out ++ [IUnary u]))%nat by (rewrite length_app; lia).
  eapply popped_mono; [apply IH|reflexivity|done].
  by apply (jump_ok_mono (length out)).
Qed.

Lemma popped_stop ops out : Forall (jump_ok (length out)) ops -> popped ops out (Ok (out, ops)).
Proof. done. Qed.

Lemma pop_to_open_ok paren ops : forall out,
  Forall (jump_ok (length out)) ops -> popped ops out (pop_to_open paren ops out).
Proof.
  induction ops as [|[t j] ops IH]; intros out H; [done|]. cbn [pop_to_open].
  destruct t; try done.
  - by apply popped_binary.
  - by apply (popped_unary _ _ _ _ (pop_to_open paren ops)).
  - apply Forall_cons_1 in H as [_ H]. by destruct paren.
  - apply Forall_cons_1 in H as [_ H]. by destruct paren.
Qed.

Lemma pop_tighter_ok b ops : forall out,
  Forall (jump_ok (length out)) ops -> popped ops out (pop_tighter b ops out).
Proof.
  induction ops as [|[t j] ops IH]; intros out H; [done|]. cbn [pop_tighter].
  destruct t; try done.
  - destruct (precedence b <=? precedence b0); [by apply popped_binary|done].
  - by apply (popped_unary _ _ _ _ (pop_tighter b ops)).
Qed.

Lemma pop_operators_ok ops : forall out,
  Forall (jump_ok (length out)) ops -> popped ops out (pop_operators ops out).
Proof.
  induction ops as [|[t j] ops IH]; intros out H; [done|]. cbn [pop_operators].
  destruct t; try done.
  - by apply popped_binary.
  - by apply (popped_unary _ _ _ _ (pop_operators ops)).
Qed.

(** What a step leaves. *)
Definition step_ok (r : result PState ParseError) : Prop :=
  match r with Ok st => stack_ok st | Err e => e <> Panicked end.

Lemma functions_count ops : functions (count_element ops) = functions ops.
Proof.
  destruct ops as [|[t j] [|[t' j'] ops]]; [done| |]; simpl.
  - destruct t; try done. simpl. by destruct (id =? ID_ARRAY_BUILD).
  - destruct t'; try done. simpl. by destruct (id =? ID_ARRAY_BUILD).
Qed.

Lemma bump_array_jump n e : jump_ok n e -> jump_ok n (bump_array e).
Proof. destruct e as [t j]. destruct t; try done. simpl. by destruct (id =? ID_ARRAY_BUILD). Qed.

Lemma jump_count n ops : Forall (jump_ok n) ops -> Forall (jump_ok n) (count_element ops).
Proof.
  destruct ops as [|e [|e' ops]]; simpl; intros H; [done| |].
  - apply Forall_cons_1 in H as [H _]. constructor; [by apply bump_array_jump|done].
  - apply Forall_cons_1 in H as [H [H' H'']%Forall_cons_1].
    constructor; [done|]. constructor; [by apply bump_array_jump|done].
Qed.

Lemma inc_arg_count_ok st : stack_ok st -> stack_ok (inc_arg_count st).
Proof.
  unfold stack_ok, inc_arg_count. destruct st as [out ops [|x args] l]; simpl; [done|].
  rewrite functions_count. intros [H1 H2]. split; [done|by apply jump_count].
Qed.

Lemma dec_arg_count_ok st : stack_ok st -> stack_ok (dec_arg_count st).
Proof. unfold stack_ok, dec_arg_count. by destruct st as [out ops [|x args] l]. Qed.

Lemma output_ok out out' ops args l l' :
  stack_ok (MkP out ops args l) -> (length out <= length out')%nat -> stack_ok (MkP out' ops args l').
Proof. unfold stack_ok. simpl. intros [H1 H2] H. split; [done|by eapply jump_ok_mono]. Qed.

Lemma push_value_ok i b st : stack_ok st -> stack_ok (set_last b (push i (inc_arg_count st))).
Proof.
  intros H. apply inc_arg_count_ok in H. unfold set_last, push.
  destruct (inc_arg_count st) as [out ops args l]. simpl.
  eapply output_ok; [exact H|]. rewrite length_app. lia.
Qed.

Lemma close_function_ok st : stack_ok st -> step_ok (close_function st).
Proof.
  unfold close_function. destruct st as [out ops args l]; cbn [operator_stack arg_count output last_is_var_or_fnc].
  destruct ops as [|[t j] ops]; [done|]. intros H.
  destruct (is_function t) eqn:Ef; [|by destruct t].
  assert (exists n rest, args = n :: rest /\ forall i, stack_ok (MkP (out ++ [i]) ops rest l)) as (n & rest & -> & Hok).
  { destruct H as [H1 H2]. simpl in H1, H2. rewrite Ef in H1. destruct args as [|n rest]; [done|].
    exists n, rest. split; [done|]. intros i. split; simpl; [simpl in H1; lia|].
    apply Forall_cons_1 in H2 as [_ H2]. eapply jump_ok_mono; [|exact H2]. rewrite length_app. lia. }
  destruct t; try discriminate; destruct (negb _); simpl; try done; try apply Hok.
  by destruct (negb _).
Qed.

Lemma token_step_ok t st : stack_ok st -> step_ok (token_step t st).
Proof.
  intros H. destruct t; cbn [token_step]; try (by apply push_value_ok).
  - (* Function *) apply inc_arg_count_ok in H as [H1 H2]. split; simpl; [lia|by constructor].
  - (* System *) apply inc_arg_count_ok in H as [H1 H2]. split; simpl; [lia|by constructor].
  - (* Regex *) apply inc_arg_count_ok in H as [H1 H2]. split; simpl; [lia|by constructor].
  - (* Binary *) apply dec_arg_count_ok in H as [H1 H2].
    pose proof (pop_tighter_ok b _ _ H2) as Hp.
    destruct (pop_tighter b _ _) as [[out ops]|e]; [|done]. destruct Hp as (Hl & Hf & Hj). cbn [rbind].
    assert (forall out' j, (length out <= length out')%nat -> jump_ok (length out') (TBinary b, j) ->
      stack_ok (MkP out' ((TBinary b, j) :: ops) (arg_count (dec_arg_count st)) false)) as Hok.
    { intros out' j Hle Hjo. split; simpl; [congruence|]. constructor; [done|by eapply jump_ok_mono]. }
    destruct b; (apply Hok; unfold jump_ok; simpl; rewrite ?length_app; simpl; try done; lia).
  - (* Unary *) destruct H as [H1 H2]. split; simpl; [done|by constructor].
  - destruct H as [H1 H2]. split; simpl; [done|by constructor].
  - pose proof (pop_to_open_ok true _ _ (proj2 H)) as Hp.
    destruct (pop_to_open true _ _) as [[out ops]|e]; [|done]. destruct Hp as (Hl & Hf & Hj). cbn [rbind].
    assert (stack_ok (MkP out ops (arg_count st) (last_is_var_or_fnc st))) as Hs
      by (split; simpl; [rewrite Hf; apply H|done]).
    apply close_function_ok in Hs. by destruct (close_function _).
  - destruct (last_is_var_or_fnc st).
    + destruct H as [H1 H2]. split; simpl; [lia|]. by repeat constructor.
    + apply inc_arg_count_ok in H as [H1 H2]. split; simpl; [lia|]. by repeat constructor.
  - pose proof (pop_to_open_ok false _ _ (proj2 H)) as Hp.
    destruct (pop_to_open false _ _) as [[out ops]|e]; [|done]. destruct Hp as (Hl & Hf & Hj). cbn [rbind].
    assert (stack_ok (MkP out ops (arg_count st) (last_is_var_or_fnc st))) as Hs
      by (split; simpl; [rewrite Hf; apply H|done]).
    apply close_function_ok in Hs. by destruct (close_function _).
  - pose proof (pop_operators_ok _ _ (proj2 H)) as Hp.
    destruct (pop_operators _ _) as [[out ops]|e]; [|done]. destruct Hp as (Hl & Hf & Hj).
    split; simpl; [rewrite Hf; apply H|done].
Qed.

Lemma finish_ops_ok ops : forall out,
  Forall (jump_ok (length out)) ops -> finish_ops ops out <> Err Panicked.
Proof.
  induction ops as [|[t j] ops IH]; intros out H; [done|]. cbn [finish_ops].
  apply Forall_cons_1 in H as [Hj H]. destruct t; try done.
  - destruct (emit_binary_ok b j out Hj) as (out' & E & Hlen). rewrite E. cbn [rbind].
    apply IH. apply (jump_ok_mono (length out)); [lia|done].
  - apply IH. apply (jump_ok_mono (length out)); [rewrite length_app; lia|done].
Qed.

Lemma steps_ok tokens : forall st, stack_ok st -> step_ok (steps tokens st).
Proof.
  induction tokens as [|t tokens IH]; intros st H; [done|]. cbn [steps].
  pose proof (token_step_ok t st H) as Ht. destruct (token_step t st) as [st'|e]; [|done].
  cbn [rbind]. by apply IH.
Qed.

(** Whatever the tokens, the expression parser does not panic: every
    [unwrap] of an argument count finds one, and every jump that it patches
    lies within the output. *)
Theorem parse_no_panic tokens : parse_tokens tokens <> Err Panicked.
Proof.
  unfold parse_tokens. pose proof (steps_ok tokens new) as H.
  destruct (steps tokens new) as [st|e].
  - cbn [rbind]. apply finish_ops_ok. apply H. by split.
  - specialize (H ltac:(by split)). simpl in *. congruence.
Qed.
End NoPanic.

(** ** The reference: expressions, their tokens and their code *)

Section Compile.
Context {Sch : Schema}.

Inductive Expr :=
| EVariable (v : EVar)
| EConstant (c : Constant)
| EGlobal (g : list Z)
| ECapture (n : Z)
| ESystem (s : SystemVariable)
| EUn (u : UnaryOperator) (e : Expr)
| EBin (b : BinaryOperator) (l r : Expr)
| EParen (e : Expr)
| ECall (name : list Z) (id : Z) (args : list Expr)
| EMatches (rx : Rx) (e : Expr)
| EArray (es : list Expr)
| EIndex (base idx : Expr).

Fixpoint Expr_nested_ind (P : Expr -> Prop)
    (Hv : forall v, P (EVariable v)) (Hc : forall c, P (EConstant c)) (Hg : forall g, P (EGlobal g))
    (Hn : forall n, P (ECapture n)) (Hs : forall s, P (ESystem s))
    (Hu : forall u e, P e -> P (EUn u e)) (Hb : forall b l r, P l -> P r -> P (EBin b l r))
    (Hp : forall e, P e -> P (EParen e))
    (Hf : forall name id args, Forall P args -> P (ECall name id args))
    (Hm : forall rx e, P e -> P (EMatches rx e)) (Ha : forall es, Forall P es -> P (EArray es))
    (Hi : forall b i, P b -> P i -> P (EIndex b i)) (e : Expr) : P e :=
  let ind := Expr_nested_ind P Hv Hc Hg Hn Hs Hu Hb Hp Hf Hm Ha Hi in
  let all := fix all (l : list Expr) : Forall P l :=
    match l with [] => @List.Forall_nil _ P | x :: l => @List.Forall_cons _ P x l (ind x) (all l) end in
  match e with
  | EVariable v => Hv v | EConstant c => Hc c | EGlobal g => Hg g | ECapture n => Hn n
  | ESystem s => Hs s
  | EUn u e => Hu u e (ind e) | EBin b l r => Hb b l r (ind l) (ind r) | EParen e => Hp e (ind e)
  | ECall name id args => Hf name id args (all args)
  | EMatches rx e => Hm rx e (ind e) | EArray es => Ha es (all es)
  | EIndex b i => Hi b i (ind b) (ind i)
  end.

(** Lists with commas between them. *)
Fixpoint sep (l : list (list Token)) : list Token :=
  match l with
  | [] => []
  | [x] => x
  | x :: l => x ++ TComma :: sep l
  end.

Fixpoint toks (e : Expr) : list Token :=
  match e with
  | EVariable v => [TVariable v]
  | EConstant c => [TConstant c]
  | EGlobal g => [TGlobal g]
  | ECapture n => [TCapture n]
  | ESystem s => [TSystem s; TOpenParen; TCloseParen]
  | EUn u e => TUnary u :: toks e
  | EBin b l r => toks l ++ TBinary b :: toks r
  | EParen e => TOpenParen :: toks e ++ [TCloseParen]
  | ECall name id args =>
      TFunction name id (Z.of_nat (length args)) :: TOpenParen :: sep (map toks args) ++ [TCloseParen]
  | EMatches rx e => TRegex rx :: TOpenParen :: toks e ++ [TCloseParen]
  | EArray es => TOpenBracket :: sep (map toks es) ++ [TCloseBracket]
  | EIndex b i => toks b ++ TOpenBracket :: toks i ++ [TCloseBracket]
  end.

(** What an operator leaves before its right operand. *)
Definition jump (b : BinaryOperator) (n : nat) : list ExpressionItem :=
  match b with
  | And => [IJmpIf false (wrap 32 (Z.of_nat n + 1))]
  | Or => [IJmpIf true (wrap 32 (Z.of_nat n + 1))]
  | _ => []
  end.

(** Reverse Polish notation with the jumps. *)
Fixpoint code (e : Expr) : Expression :=
  match e with
  | EVariable v => [IVariable v]
  | EConstant c => [IConstant c]
  | EGlobal g => [IGlobal g]
  | ECapture n => [ICapture n]
  | ESystem s => [ISystem s]
  | EUn u e => code e ++ [IUnary u]
  | EBin b l r => code l ++ jump b (length (code r)) ++ code r ++ [IBinary b]
  | EParen e => code e
  | ECall name id args => concat (map code args) ++ [IFunction id (Z.of_nat (length args))]
  | EMatches rx e => code e ++ [IRegex rx]
  | EArray es => concat (map code es) ++ [IArrayBuild (Z.of_nat (length es))]
  | EIndex b i => code b ++ code i ++ [IArrayAccess]
  end.

(** How tightly an expression binds, whether its first token is counted as
    an element of the array around it, and whether a bracket after it is an
    access. *)
Definition level (e : Expr) : Z := match e with EBin b _ _ => precedence b | _ => 8 end.
Fixpoint lead (e : Expr) : bool :=
  match e with
  | EUn _ _ | EParen _ => false
  | EBin _ l _ => lead l
  | EIndex b _ => lead b
  | _ => true
  end.
Definition indexable (e : Expr) : bool :=
  match e with
  | EVariable _ | ESystem _ | EParen _ | ECall _ _ _ | EMatches _ _ | EArray _ | EIndex _ _ => true
  | _ => false
  end.

(** The expressions that the grammar of the parser writes as they are:
    operands that bind less tightly than their operator are in
    parentheses, an array element does not start with a parenthesis or a
    unary operator, and only what ends like a variable or a call is
    indexed. *)
Fixpoint wf (e : Expr) : Prop :=
  match e with
  | EUn _ e => wf e /\ level e = 8
  | EBin b l r => wf l /\ wf r /\ precedence b <= level l /\ precedence b < level r
  | EParen e | EMatches _ e => wf e
  | ECall _ id args =>
      id < ID_ARRAY_BUILD /\ Z.of_nat (length args) < 2 ^ 31 /\
      (fix all (l : list Expr) := match l with [] => True | e :: l => wf e /\ all l end) args
  | EArray es =>
      Z.of_nat (length es) < 2 ^ 31 /\
      (fix all (l : list Expr) :=
         match l with [] => True | e :: l => wf e /\ lead e = true /\ all l end) es
  | EIndex b i => wf b /\ wf i /\ indexable b = true
  | _ => True
  end.

(** *** Lemmas on the popping loops *)

Definition calm (ops : list (Token * option nat)) : Prop :=
  match ops with [] => True | (t, _) :: _ => is_function t = false end.

(** Nothing on the stack is popped by an operator of level [n] or above. *)
Definition ctx_ok (n : Z) (ops : list (Token * option nat)) : Prop :=
  match ops with
  | (TBinary b, _) :: _ => precedence b < n
  | (TUnary _, _) :: _ => 7 < n
  | _ => True
  end.

(** The operators pending after an expression of level [n]. *)
Definition pending_ok (n : Z) (P : list (Token * option nat)) : Prop :=
  Forall (fun e => match fst e with TBinary b => n <= precedence b | _ => True end) P.

Lemma precedence_range b : 1 <= precedence b <= 7.
Proof. destruct b; simpl; lia. Qed.

Lemma finish_ops_app P Q : forall out,
  finish_ops (P ++ Q) out = (let? out := finish_ops P out in finish_ops Q out)%result.
Proof.
  induction P as [|[t j] P IH]; intros out; [done|]. simpl.
  destruct t; try done. unfold rbind at 1 2. by destruct (emit_binary b j out).
Qed.

Lemma pop_to_open_pending paren P ops : forall out out',
  finish_ops P out = Ok out' -> pop_to_open paren (P ++ ops) out = pop_to_open paren ops out'.
Proof.
  induction P as [|[t j] P IH]; simpl; intros out out' H; [by simplify_eq|].
  destruct t; try done; [|by apply IH].
  destruct (emit_binary b j out); [by apply IH|done].
Qed.

Lemma pop_operators_pending P ops : forall out out',
  finish_ops P out = Ok out' -> pop_operators (P ++ ops) out = pop_operators ops out'.
Proof.
  induction P as [|[t j] P IH]; simpl; intros out out' H; [by simplify_eq|].
  destruct t; try done; [|by apply IH].
  destruct (emit_binary b j out); [by apply IH|done].
Qed.

Lemma pop_tighter_pending b P ops : forall out out',
  pending_ok (precedence b) P ->
  finish_ops P out = Ok out' -> pop_tighter b (P ++ ops) out = pop_tighter b ops out'.
Proof.
  induction P as [|[t j] P IH]; simpl; intros out out' Hp H; [by simplify_eq|].
  apply Forall_cons_1 in Hp as [Hb Hp].
  destruct t; try done; [|by apply IH].
  simpl in Hb. rewrite (proj2 (Z.leb_le _ _) Hb).
  destruct (emit_binary b0 j out); [by apply IH|done].
Qed.

Lemma pop_tighter_ctx b ops out :
  ctx_ok (precedence b) ops -> pop_tighter b ops out = Ok (out, ops).
Proof.
  pose proof (precedence_range b).
  destruct ops as [|[t j] ops]; [done|]. destruct t; simpl; try done; [|lia].
  intros H'. rewrite (proj2 (Z.leb_gt _ _)) by done. done.
Qed.

Lemma ctx_ok_mono m n ops : m <= n -> ctx_ok m ops -> ctx_ok n ops.
Proof. destruct ops as [|[[] j] ops]; simpl; try done; lia. Qed.

Lemma pending_ok_mono m n P : m <= n -> pending_ok n P -> pending_ok m P.
Proof.
  intros Hle. apply Forall_impl. intros [t j]. simpl. destruct t; try done. lia.
Qed.

(** The patch of a jump, and its absence. *)
Definition jump_slot (b : BinaryOperator) : list ExpressionItem :=
  match b with And => [IJmpIf false 0] | Or => [IJmpIf true 0] | _ => [] end.
Definition jump_pos (b : BinaryOperator) (n : nat) : option nat :=
  match b with And | Or => Some n | _ => None end.

Lemma emit_patched b out r :
  emit_binary b (jump_pos b (length out)) (out ++ jump_slot b ++ r) =
  Ok (out ++ jump b (length r) ++ r ++ [IBinary b]).
Proof.
  assert (forall v, emit_binary b (Some (length out)) (out ++ [IJmpIf v 0] ++ r) =
    Ok (out ++ [IJmpIf v (wrap 32 (Z.of_nat (length r) + 1))] ++ r ++ [IBinary b])) as H.
  { intros v. unfold emit_binary, update_jmp_pos. rewrite lookup_app_r, Nat.sub_diag by lia. simpl.
    rewrite insert_app_r_alt, Nat.sub_diag by lia. simpl. rewrite <- app_assoc.
    rewrite length_app. simpl. do 5 f_equal. lia. }
  assert (jump_pos b (length out) = None -> jump_slot b = [] -> (forall n, jump b n = []) ->
    emit_binary b (jump_pos b (length out)) (out ++ jump_slot b ++ r) =
    Ok (out ++ jump b (length r) ++ r ++ [IBinary b])) as H'.
  { intros -> -> ->. unfold emit_binary. simpl. by rewrite <- app_assoc. }
  destruct b; (done || apply H || by apply H').
Qed.

(** *** One more argument *)

Definition room (args : list Z) : Prop :=
  match args with [] => True | x :: _ => 0 <= x < 2 ^ 31 - 1 end.
Definition frame (args : list Z) : list Z :=
  match args with [] => [] | x :: args => x + 1 :: args end.
Definition bumped (b : bool) (args : list Z) (ops : list (Token * option nat)) :=
  match args with [] => ops | _ => if b then count_element ops else ops end.

Lemma clamp_inc x : 0 <= x < 2 ^ 31 - 1 -> i32_clamp (x + 1) = x + 1.
Proof. unfold i32_clamp, clamp. lia. Qed.
Lemma clamp_dec x : 0 <= x < 2 ^ 31 - 1 -> i32_clamp (x + 1 - 1) = x.
Proof. unfold i32_clamp, clamp. lia. Qed.

Lemma inc_arg_count_frame out ops args l :
  room args -> inc_arg_count (MkP out ops args l) = MkP out (bumped true args ops) (frame args) l.
Proof.
  unfold inc_arg_count. destruct args as [|x args]; simpl; [done|]. intros H. by rewrite clamp_inc.
Qed.

Lemma dec_arg_count_frame out ops args l :
  room args -> dec_arg_count (MkP out ops (frame args) l) = MkP out ops args l.
Proof.
  unfold dec_arg_count. destruct args as [|x args]; simpl; [done|]. intros H. by rewrite clamp_dec.
Qed.

Lemma calm_bump e ops : calm (e :: ops) -> bump_array e = e.
Proof. destruct e as [[] j]; done. Qed.

(** Under an operator or an opening token nothing is counted. *)
Lemma bumped_under b args e ops :
  calm ops -> bump_array e = e -> bumped b args (e :: ops) = e :: ops.
Proof.
  intros Hc He. destruct args, b; try done. destruct ops as [|e' ops]; simpl; [by rewrite He|].
  by rewrite (calm_bump e' ops).
Qed.

Lemma bumped_head b args ops : calm ops ->
  match ops with
  | [] => bumped b args ops = []
  | e :: _ => exists ops', bumped b args ops = e :: ops'
  end.
Proof.
  destruct args, b, ops as [|e [|e' ops]]; simpl; intros H; eauto.
  rewrite (calm_bump e [] H). eauto.
Qed.

Lemma calm_bumped b args ops : calm ops -> calm (bumped b args ops).
Proof.
  intros H. pose proof (bumped_head b args ops H) as Hh.
  destruct ops as [|e ops]; [by rewrite Hh|]. destruct Hh as [ops' ->]. done.
Qed.

Lemma ctx_bumped n b args ops : calm ops -> ctx_ok n ops -> ctx_ok n (bumped b args ops).
Proof.
  intros H. pose proof (bumped_head b args ops H) as Hh.
  destruct ops as [|e ops]; [by rewrite Hh|]. destruct Hh as [ops' ->]. done.
Qed.

Lemma steps_app a b st : steps (a ++ b) st = (let? st := steps a st in steps b st)%result.
Proof.
  revert st. induction a as [|t a IH]; intros st; [done|]. simpl.
  by destruct (token_step t st) as [st'|e]; simpl.
Qed.

(** *** What running the tokens of an expression leaves *)

Definition runs (e : Expr) : Prop := forall out ops args,
  calm ops -> ctx_ok (level e) ops -> room args ->
  exists out' P l,
    steps (toks e) (MkP out ops args false) =
      Ok (MkP out' (P ++ bumped (lead e) args ops) (frame args) l) /\
    pending_ok (level e) P /\ finish_ops P out' = Ok (out ++ code e) /\
    (indexable e = true -> P = [] /\ l = true).

(** An operand that is complete after its last token. *)
Lemma runs_complete e :
  (forall out ops args, calm ops -> room args -> exists l,
     steps (toks e) (MkP out ops args false) =
       Ok (MkP (out ++ code e) (bumped (lead e) args ops) (frame args) l) /\
     (indexable e = true -> l = true)) -> runs e.
Proof.
  intros H out ops args Hc _ Hr. destruct (H out ops args Hc Hr) as (l & E & Hl).
  exists (out ++ code e), [], l. split_and!; try done; [constructor|eauto].
Qed.

Lemma runs_value e t i l :
  toks e = [t] -> code e = [i] -> lead e = true ->
  (forall st, token_step t st = Ok (set_last l (push i (inc_arg_count st)))) ->
  (indexable e = true -> l = true) -> runs e.
Proof.
  intros Ht Hc Hl Hs Hi. apply runs_complete. intros out ops args _ Hr.
  exists l. split; [|done]. rewrite Ht, Hc, Hl. simpl steps. rewrite Hs, inc_arg_count_frame by done.
  done.
Qed.

Lemma runs_unary u e : level e = 8 -> runs e -> runs (EUn u e).
Proof.
  intros Hl IH out ops args Hc Hx Hr.
  destruct (IH out ((TUnary u, None) :: ops) args) as (out' & P & l & E & HP & HF & _);
    [done| |done|].
  { simpl. lia. }
  rewrite bumped_under in E by done.
  exists out', (P ++ [(TUnary u, None)]), l. split_and!.
  - cbn [toks steps token_step rbind]. unfold push_op, set_last. cbn. rewrite E.
    rewrite <- app_assoc. simpl. by destruct args.
  - apply Forall_app. split; [by rewrite Hl in HP|by repeat constructor].
  - rewrite finish_ops_app, HF. simpl. by rewrite app_assoc.
  - done.
Qed.

Lemma runs_binary b l r :
  precedence b <= level l -> precedence b < level r -> runs l -> runs r -> runs (EBin b l r).
Proof.
  intros Hl Hr IHl IHr out ops args Hc Hx Hroom. simpl level in Hx.
  destruct (IHl out ops args Hc) as (out1 & P1 & l1 & E1 & HP1 & HF1 & _);
    [by eapply ctx_ok_mono|done|].
  set (ops1 := bumped (lead l) args ops) in *.
  destruct (IHr ((out ++ code l) ++ jump_slot b)
              ((TBinary b, jump_pos b (length (out ++ code l))) :: ops1) args)
    as (out2 & P2 & l2 & E2 & HP2 & HF2 & _); [done|done|done|].
  rewrite bumped_under in E2 by (done || by apply calm_bumped).
  exists out2, (P2 ++ [(TBinary b, jump_pos b (length (out ++ code l)))]), l2. split_and!.
  - cbn [toks]. rewrite steps_app, E1. cbn [rbind steps token_step].
    rewrite dec_arg_count_frame by done. cbn [operator_stack output arg_count].
    rewrite (pop_tighter_pending b P1 ops1 out1 (out ++ code l)) by (done || by eapply pending_ok_mono).
    rewrite pop_tighter_ctx by (by apply ctx_bumped). cbn [rbind].
    rewrite <- (app_assoc P2). cbn [app lead]. fold ops1.
    destruct b; cbn in E2 |- *; rewrite ?app_nil_r in E2; exact E2.
  - apply Forall_app. split; [apply (pending_ok_mono _ (level r)); [simpl; lia|done]|].
    repeat constructor. simpl. lia.
  - rewrite finish_ops_app, HF2. cbn [rbind finish_ops].
    rewrite <- app_assoc, emit_patched. cbn [rbind finish_ops code]. by rewrite <- !app_assoc.
  - done.
Qed.


(** *** Closing tokens and arguments *)

Definition opener (paren : bool) : Token := if paren then TOpenParen else TOpenBracket.
Definition closer (paren : bool) : Token := if paren then TCloseParen else TCloseBracket.
Definition close (st : PState) : result PState ParseError :=
  (let? st := close_function st in Ok (set_last true st))%result.

Lemma close_step paren P ops out out' args l :
  finish_ops P out' = Ok out ->
  steps [closer paren] (MkP out' (P ++ (opener paren, None) :: ops) args l) = close (MkP out ops args l).
Proof.
  intros H. unfold close. cbn [steps].
  assert (token_step (closer paren) (MkP out' (P ++ (opener paren, None) :: ops) args l) =
    (let? st := close_function (MkP out ops args l) in Ok (set_last true st))%result) as ->.
  { destruct paren; cbn [token_step closer opener operator_stack output arg_count];
      rewrite (pop_to_open_pending _ P _ out' out) by done; reflexivity. }
  by destruct (close_function _).
Qed.

Lemma runs_paren e : runs e -> runs (EParen e).
Proof.
  intros IH. apply runs_complete. intros out ops args Hc Hr. exists true. split; [|done].
  destruct (IH out ((TOpenParen, None) :: ops) args) as (out' & P & l & E & HP & HF & _); try done.
  rewrite bumped_under in E by done.
  cbn [toks steps token_step rbind]. unfold push_op, set_last at 1. cbn.
  rewrite steps_app, E. cbn [rbind].
  rewrite (close_step true P ops (out ++ code e)) by done.
  unfold close. assert (bumped false args ops = ops) as -> by (by destruct args).
  unfold close_function. cbn [operator_stack].
  destruct ops as [|[t j] ops]; [done|]. simpl in Hc. by destruct t.
Qed.

Fixpoint leads (es : list Expr) : nat :=
  match es with [] => 0 | e :: es => (if lead e then 1 else 0) + leads es end.
Fixpoint bump_n (n : nat) (e : Token * option nat) : Token * option nat :=
  match n with O => e | S n => bump_n n (bump_array e) end.

Lemma runs_arg paren e out F ops k rest :
  runs e -> 0 <= k < 2 ^ 31 - 1 ->
  exists out' P l,
    steps (toks e) (MkP out ((opener paren, None) :: F :: ops) (k :: rest) false) =
      Ok (MkP out' (P ++ (opener paren, None) :: (if lead e then bump_array F else F) :: ops)
            (k + 1 :: rest) l) /\ finish_ops P out' = Ok (out ++ code e).
Proof.
  intros IH Hk.
  destruct (IH out ((opener paren, None) :: F :: ops) (k :: rest)) as (out' & P & l & E & HP & HF & _);
    [by destruct paren|by destruct paren|done|].
  exists out', P, l. split; [|done]. rewrite E. cbn [bumped frame]. by destruct (lead e).
Qed.

Lemma argument_comma paren P ops out out' args l :
  finish_ops P out' = Ok out ->
  token_step TComma (MkP out' (P ++ (opener paren, None) :: ops) args l) =
    Ok (MkP out ((opener paren, None) :: ops) args false).
Proof.
  intros H. cbn [token_step operator_stack output].
  rewrite (pop_operators_pending P _ out' out) by done. by destruct paren.
Qed.

Lemma runs_args paren es : Forall runs es -> forall F out ops k rest,
  0 <= k -> k + Z.of_nat (length es) < 2 ^ 31 ->
  exists l,
    steps (sep (map toks es) ++ [closer paren])
      (MkP out ((opener paren, None) :: F :: ops) (k :: rest) false) =
    close (MkP (out ++ concat (map code es)) (bump_n (leads es) F :: ops)
             (k + Z.of_nat (length es) :: rest) l).
Proof.
  induction 1 as [|e es He Hes IH]; intros F out ops k rest Hk Hmax.
  - exists false. cbn [map sep app concat leads bump_n length]. rewrite app_nil_r, Z.add_0_r.
    by apply (close_step paren []).
  - cbn [length] in Hmax.
    destruct (runs_arg paren e out F ops k rest He ltac:(lia)) as (out' & P & l & E & HF).
    assert (bump_n (leads (e :: es)) F = bump_n (leads es) (if lead e then bump_array F else F)) as ->.
    { cbn [leads]. by destruct (lead e). }
    destruct es as [|e' es].
    + exists l. cbn [map sep concat leads bump_n length]. rewrite app_nil_r, steps_app, E.
      by apply (close_step paren P).
    + destruct (IH (if lead e then bump_array F else F) (out ++ code e) ops (k + 1) rest) as (l' & E');
        [lia|cbn [length] in *; lia|].
      exists l'. change (sep (map toks (e :: e' :: es)))
        with (toks e ++ TComma :: sep (map toks (e' :: es))).
      rewrite <- app_assoc, steps_app, E. cbn [rbind app steps].
      rewrite (argument_comma paren P _ (out ++ code e)) by done. cbn [rbind]. rewrite E'.
      change (concat (map code (e :: e' :: es))) with (code e ++ concat (map code (e' :: es))).
      rewrite app_assoc.
      replace (k + Z.of_nat (length (e :: e' :: es))) with (k + 1 + Z.of_nat (length (e' :: es)))
        by (cbn [length]; lia).
      done.
Qed.

(** *** Functions, arrays and indexes *)

Lemma as_i32_id n : 0 <= n < 2 ^ 31 -> as_i32 n = n.
Proof. unfold as_i32. intros H. rewrite Z.mod_small by lia. lia. Qed.

Lemma bump_other n name id num j :
  id <> ID_ARRAY_BUILD -> bump_n n (TFunction name id num, j) = (TFunction name id num, j).
Proof.
  intros H. induction n as [|n IH]; [done|]. cbn [bump_n bump_array].
  by rewrite (proj2 (Z.eqb_neq _ _) H).
Qed.

Lemma bump_skip n t j : (match t with TFunction _ _ _ => False | _ => True end) -> bump_n n (t, j) = (t, j).
Proof. intros H. induction n as [|n IH]; [done|]. destruct t; done. Qed.

Lemma bump_build n name m j : 0 <= m -> m + Z.of_nat n < 2 ^ 31 ->
  bump_n n (TFunction name ID_ARRAY_BUILD m, j) = (TFunction name ID_ARRAY_BUILD (m + Z.of_nat n), j).
Proof.
  revert m. induction n as [|n IH]; intros m Hm Hn; cbn [bump_n].
  - by rewrite Z.add_0_r.
  - cbn [bump_array]. rewrite Z.eqb_refl. unfold wrap. rewrite Z.mod_small by lia.
    rewrite IH by lia. by replace (m + 1 + Z.of_nat n) with (m + Z.of_nat (S n)) by lia.
Qed.

(** A function token and its arguments in parentheses. *)
Lemma runs_function t es i :
  is_function t = true -> Forall runs es -> Z.of_nat (length es) < 2 ^ 31 ->
  (forall out ops rest l n, close_function
     (MkP out (bump_n n (t, None) :: ops) (Z.of_nat (length es) :: rest) l) =
     Ok (MkP (out ++ [i]) ops rest l)) ->
  forall e, toks e = t :: TOpenParen :: sep (map toks es) ++ [TCloseParen] ->
  code e = concat (map code es) ++ [i] -> lead e = true -> runs e.
Proof.
  intros Hf Hes Hlen Hclose e Ht Hcode Hl. apply runs_complete.
  intros out ops args Hc Hr. exists true. split; [|done]. rewrite Ht, Hcode, Hl.
  assert (forall ts, steps (t :: TOpenParen :: ts) (MkP out ops args false) =
    steps ts (MkP out ((TOpenParen, None) :: (t, None) :: bumped true args ops) (0 :: frame args) false)) as ->.
  { intros ts. destruct t; try discriminate; cbn [steps token_step]; rewrite inc_arg_count_frame by done;
      reflexivity. }
  destruct (runs_args true es Hes (t, None) out (bumped true args ops) 0 (frame args)) as (l & E);
    [lia|lia|].
  rewrite app_assoc. etransitivity; [exact E|]. unfold close. rewrite Z.add_0_l, Hclose. reflexivity.
Qed.

Lemma runs_array es :
  Forall runs es -> Z.of_nat (length es) < 2 ^ 31 -> leads es = length es -> runs (EArray es).
Proof.
  intros Hes Hlen Hlead. apply runs_complete. intros out ops args Hc Hr. exists true. split; [|done].
  cbn [toks steps token_step last_is_var_or_fnc]. rewrite inc_arg_count_frame by done. cbn [rbind].
  destruct (runs_args false es Hes (TFunction s#"array" ID_ARRAY_BUILD 0, None) out
              (bumped true args ops) 0 (frame args)) as (l & E); [lia|lia|].
  etransitivity; [exact E|]. unfold close. rewrite Hlead, bump_build by lia.
  unfold close_function. cbn [operator_stack arg_count]. rewrite !Z.add_0_l, as_i32_id, Z.eqb_refl by lia.
  cbn [negb rbind code lead]. rewrite Z.eqb_refl.
  replace (ID_ARRAY_BUILD =? ID_ARRAY_ACCESS) with false by reflexivity.
  unfold set_last. cbn. by rewrite app_assoc.
Qed.

Lemma runs_index b i : indexable b = true -> runs b -> runs i -> runs (EIndex b i).
Proof.
  intros Hi IHb IHi. apply runs_complete. intros out ops args Hc Hr. exists true. split; [|done].
  assert (level b = 8) as Hl8 by (by destruct b).
  destruct (IHb out ops args Hc) as (out' & P & l & E & HP & HF & Hx);
    [rewrite Hl8; destruct ops as [|[[] j] ops]; simpl; try done; pose proof (precedence_range b0); lia|done|].
  destruct (Hx Hi) as [-> ->]. simpl in HF. simplify_eq.
  cbn [toks]. rewrite steps_app, E. cbn [app rbind steps token_step last_is_var_or_fnc].
  destruct (runs_args false [i] (@List.Forall_cons _ runs i [] IHi (@List.Forall_nil _ runs)) 
              (TFunction s#"array" ID_ARRAY_ACCESS 2, None)
              (out ++ code b) (bumped (lead b) args ops) 1 (frame args)) as (l & E'); [lia|cbn [length]; lia|].
  etransitivity; [exact E'|]. unfold close. rewrite bump_other by done.
  unfold close_function. cbn [operator_stack arg_count length]. 
  cbn [negb rbind code lead map concat]. rewrite !app_nil_r.
  unfold set_last. cbn. by rewrite <- !app_assoc.
Qed.

Lemma wf_runs e : wf e -> runs e.
Proof.
  induction e using Expr_nested_ind; intros Hwf.
  - by apply (runs_value _ (TVariable v) (IVariable v) true).
  - by apply (runs_value _ (TConstant c) (IConstant c) false).
  - by apply (runs_value _ (TGlobal g) (IGlobal g) false).
  - by apply (runs_value _ (TCapture n) (ICapture n) false).
  - by apply (runs_function (TSystem s) [] (ISystem s)); [|constructor| |intros; rewrite bump_skip| | |].
  - destruct Hwf as [H1 H2]. apply runs_unary; auto.
  - destruct Hwf as (H1 & H2 & H3 & H4). apply runs_binary; auto.
  - apply runs_paren. auto.
  - destruct Hwf as (H1 & H2 & H3).
    assert (Forall runs args) as Hargs.
    { clear H1 H2. induction H as [|e es He Hes IH]; [constructor|].
      destruct H3 as [H3 H4]. constructor; auto. }
    apply (runs_function (TFunction name id (Z.of_nat (length args))) args
             (IFunction id (Z.of_nat (length args)))); try done.
    unfold ID_ARRAY_BUILD, u32_max in H1.
    intros. rewrite bump_other by (unfold ID_ARRAY_BUILD, u32_max; lia).
    unfold close_function. cbn [operator_stack arg_count]. rewrite as_i32_id, Z.eqb_refl by lia. cbn [negb].
    rewrite (proj2 (Z.eqb_neq id ID_ARRAY_ACCESS)) by (unfold ID_ARRAY_ACCESS, u32_max; lia).
    rewrite (proj2 (Z.eqb_neq id ID_ARRAY_BUILD)) by (unfold ID_ARRAY_BUILD, u32_max; lia). done.
  - apply (runs_function (TRegex rx) [e] (IRegex rx)); try done.
    + constructor; [auto|constructor].
    + intros. by rewrite bump_skip.
    + cbn [code map concat]. by rewrite app_nil_r.
  - destruct Hwf as [H1 H2].
    assert (Forall runs es /\ leads es = length es) as [H3 H4]; [|by apply runs_array].
    clear H1. induction H as [|e es He Hes IH]; [by split; [constructor|]|].
    destruct H2 as (Hw & Hl & H2). destruct (IH H2) as [H3 H4].
    split; [constructor; auto|]. cbn [leads length]. rewrite Hl, H4. lia.
  - destruct Hwf as (H1 & H2 & H3). apply runs_index; auto.
Qed.

Lemma parse_toks e : wf e -> parse_tokens (toks e) = Ok (code e).
Proof.
  intros H. destruct (wf_runs e H [] [] []) as (out & P & l & E & HP & HF & _); [done|done|done|].
  unfold parse_tokens, new. rewrite E. cbn [rbind operator_stack output].
  rewrite finish_ops_app. cbn [bumped]. rewrite HF. reflexivity.
Qed.

(** Compilation is correct: the tokens of a well-formed expression, of
    any nesting of operators, calls, arrays and indexes, are parsed to its
    reverse Polish code, with each operator after its operands according to
    precedence and left association, and with the jump of every [&&] and
    [||] pointing just behind the operator that it guards. *)
Theorem compile_correct e : wf e -> parse_tokens (toks e) = Ok (code e).
Proof. apply parse_toks. Qed.
End Compile.

(** [a + 2 * -b[0] && matches(r, [1, c]) || f(1, 2)] over the demonstration
    schema. *)
Definition demo_expr : @Expr demo_schema :=
  EBin Or
    (EBin And
       (EBin Add (@EVariable demo_schema 1) (EBin Multiply (EConstant (CInteger 2))
          (EUn Minus (EIndex (@EVariable demo_schema 2) (EConstant (CInteger 0))))))
       (@EMatches demo_schema tt (EArray [EConstant (CInteger 1); @EVariable demo_schema 3])))
    (ECall s#"f" 0 [EConstant (CInteger 1); EConstant (CInteger 2)]).

Lemma demo_wf : wf demo_expr.
Proof. vm_compute. repeat split; discriminate. Qed.

Example compile_correct_witness : parse_tokens (toks demo_expr) = Ok (code demo_expr).
Proof. apply compile_correct. exact demo_wf. Defined.

(** *** What the counting of array elements refuses *)

Section Findings.
Context {Sch : Schema}.

(** [[!1]] and [[(1)]]: the element is not counted, because something is
    above the bracket when its first token is read. *)
Lemma array_operand_refused c :
  parse_tokens [TOpenBracket; TUnary Not; TConstant c; TCloseBracket] = Err (WrongArguments s#"array" 0 1) /\
  parse_tokens [TOpenBracket; TOpenParen; TConstant c; TCloseParen; TCloseBracket] =
    Err (WrongArguments s#"array" 0 1).
Proof. split; reflexivity. Qed.

(** [1 +] and [1 2] are accepted. *)
Lemma malformed_accepted c :
  parse_tokens [TConstant c; TBinary Add] = Ok [IConstant c; IBinary Add] /\
  parse_tokens [TConstant c; TConstant c] = Ok [IConstant c; IConstant c].
Proof. split; reflexivity. Qed.
End Findings.
