(* ===== verification/ExprEval.v ===== *)
(** * The evaluation of compiled expressions
      ([crates/common/src/expr/eval.rs])

    The stack machine with its jumps and the captures of the last regular
    expression, the conditional blocks of the configuration, and the meaning
    of an expression as its tree says it, with the short circuits; the main
    theorem is that compiling and running an expression gives that meaning.
    The variables of a session, the server's own values and the asynchronous
    functions, which use the stores and the DNS and can fail, are fields of
    [Env]; a [World] stands for what they change. *)

From S2P Require Import Prelude ExprValue ExprParser ExprFunctions.

Class Env {Sch : Schema} := {
  World : Type;
  EvalError : Type;
  resolve_variable : EVar -> Variable_;
  resolve_global : list Z -> Variable_;
  server_name : list Z;
  default_domain_name : list Z;
  node_id : Z;
  local_hostname : list Z;
  cluster_role : list Z;
  read_metric : Metric -> f64;
  eval_fnc : Z -> list Variable_ -> World -> result Variable_ EvalError * World
}.

Section Eval.
Context {Sch : Schema} {Lib : Library} {En : Env}.

(** ** The machine *)

(** Captures and world, and the computations over them. *)
Definition State : Type := list (list Z) * World.
Definition M (A : Type) : Type := State -> result A EvalError * State.
Definition ret {A} (a : A) : M A := fun st => (Ok a, st).
Definition bind {A B} (m : M A) (f : A -> M B) : M B := fun st =>
  match m st with (Ok a, st) => f a st | (Err e, st) => (Err e, st) end.

Notation "'let*' x := m 'in' k" := (bind m (fun x => k))
  (at level 200, x binder, m at level 100, k at level 200, right associativity).

(** [stack.pop().unwrap_or_default()], on a stack with its top first. *)
Definition pop (stack : list Variable_) : Variable_ * list Variable_ :=
  match stack with v :: stack => (v, stack) | [] => (var_default, []) end.

(** The loop that fills the arguments from the last to the first. *)
Fixpoint pop_args (n : nat) (acc stack : list Variable_) : list Variable_ * list Variable_ :=
  match n with
  | O => (acc, stack)
  | S n => let '(v, stack) := pop stack in pop_args n (v :: acc) stack
  end.

(* [crates/common/src/expr/eval.rs:704-713] From<&Constant> for Variable *)
Definition of_constant (c : Constant) : Variable_ :=
  match c with
  | CStatic c => VConstant c
  | CInteger n => VInteger n
  | CFloat f => VFloat f
  | CString s => VString s
  end.

(* [crates/common/src/expr/eval.rs:222-243] EvalContext::eval, a system variable *)
Definition system_value (s : SystemVariable) : Variable_ :=
  match s with
  | Hostname => VString server_name
  | Domain => VString default_domain_name
  | NodeId => VInteger (as_i64 node_id)
  | NodeHostname => VString local_hostname
  | NodeRole => VString cluster_role
  | SysMetric m => VFloat (read_metric m)
  end.

(* [crates/common/src/expr/eval.rs:251-269] EvalContext::eval, a binary operator *)
Definition binary (b : BinaryOperator) : Variable_ -> Variable_ -> Variable_ :=
  match b with
  | Add => op_add | Subtract => op_subtract | Multiply => op_multiply | Divide => op_divide
  | And => op_and | Or => op_or | Xor => op_xor
  | Eq => op_eq | Ne => op_ne | Lt => op_lt | Le => op_le | Gt => op_gt | Ge => op_ge
  end.
Definition unary (u : UnaryOperator) : Variable_ -> Variable_ :=
  match u with Not => op_not | Minus => op_minus end.

(* [crates/common/src/expr/eval.rs:270-290] EvalContext::eval, a function *)
Definition call (id : Z) (arguments : list Variable_) : M Variable_ :=
  match nth_error FUNCTIONS (Z.to_nat id) with
  | Some (_, fnc, _) => ret (fnc arguments)
  | None => fun '(caps, w) =>
      let '(r, w) := eval_fnc (wrap 32 (id - Z.of_nat (length FUNCTIONS))) arguments w in (r, (caps, w))
  end.

Definition index (array idx : Variable_) : Variable_ :=
  let n := default 0 (to_usize idx) in
  let l := into_array array in
  if n <? Z.of_nat (length l) then nth (Z.to_nat n) l var_default else var_default.

Definition capture (n : Z) : M Variable_ := fun st =>
  (Ok (VString (if n <? Z.of_nat (length (fst st)) then nth (Z.to_nat n) (fst st) [] else [])), st).

(* [crates/common/src/expr/eval.rs:315-327] EvalContext::eval, a regular expression *)
Definition match_regex (rx : Rx) (v : Variable_) : M Variable_ := fun '(_, w) =>
  let caps := match rx_captures rx (into_string v) with
              | Some l => map (fun c => match c with Some s => s | None => [] end) l
              | None => []
              end in
  (Ok (VInteger (match caps with [] => 0 | _ => 1 end)), (caps, w)).

(** All items but the jumps. *)
(* [crates/common/src/expr/eval.rs:203-328] EvalContext::eval, one item *)
Definition item_step (i : ExpressionItem) (stack : list Variable_) : M (list Variable_) :=
  match i with
  | IVariable v => ret (resolve_variable v :: stack)
  | IGlobal g => ret (resolve_global g :: stack)
  | IConstant c => ret (of_constant c :: stack)
  | ICapture n => let* v := capture n in ret (v :: stack)
  | ISystem s => ret (system_value s :: stack)
  | IUnary u => let '(v, stack) := pop stack in ret (unary u v :: stack)
  | IBinary b =>
      let '(rhs, stack) := pop stack in
      let '(lhs, stack) := pop stack in
      ret (binary b lhs rhs :: stack)
  | IFunction id n =>
      let '(arguments, stack) := pop_args (Z.to_nat n) [] stack in
      let* v := call id arguments in ret (v :: stack)
  | IArrayAccess =>
      let '(idx, stack) := pop stack in
      let '(array, stack) := pop stack in
      ret (index array idx :: stack)
  | IArrayBuild n =>
      let '(items, stack) := pop_args (Z.to_nat n) [] stack in ret (VArray items :: stack)
  | IRegex rx => let '(v, stack) := pop stack in let* v := match_regex rx v in ret (v :: stack)
  | IJmpIf _ _ => ret stack
  end.

Definition top_bool (stack : list Variable_) : bool :=
  match stack with v :: _ => to_bool v | [] => false end.

(** The items; [skip] of them are jumped over. *)
(* [crates/common/src/expr/eval.rs:202-331] EvalContext::eval, the loop *)
Fixpoint exec (skip : Z) (items : Expression) (stack : list Variable_) : M Variable_ :=
  match items with
  | [] => ret (fst (pop stack))
  | i :: items =>
      if 0 <? skip then exec (skip - 1) items stack
      else match i with
           | IJmpIf val pos => exec (if Bool.eqb (top_bool stack) val then pos else 0) items stack
           | _ => let* stack := item_step i stack in exec 0 items stack
           end
  end.

(* [crates/common/src/expr/eval.rs:197-332] EvalContext::eval *)
Definition eval (items : Expression) : M Variable_ := exec 0 items [].

(** ** Conditional blocks *)

(* [crates/common/src/expr/if_block.rs:24-27] IfThen *)
Record IfThen := MkIfThen { expr : Expression; then_ : Expression }.
(* [crates/common/src/expr/if_block.rs:30-35] IfBlock *)
Record IfBlock := MkIfBlock { if_then : list IfThen; default_ : Expression }.

(* [crates/common/src/expr/if_block.rs:71-73] IfBlock::is_empty *)
Definition is_empty (b : IfBlock) : bool :=
  match default_ b, if_then b with [], [] => true | _, _ => false end.

Fixpoint eval_branches (l : list IfThen) (default_ : Expression) : M Variable_ :=
  match l with
  | [] => eval default_
  | b :: l => let* c := eval (expr b) in if to_bool c then eval (then_ b) else eval_branches l default_
  end.

(** The captures of a condition are those of its branch. *)
(* [crates/common/src/expr/eval.rs:159-195] EvalContext::eval, of a block *)
Definition eval_block (b : IfBlock) : M Variable_ := eval_branches (if_then b) (default_ b).

(** The server's entry point: no value for an empty block, an error or a
    result that does not convert. *)
(* [crates/common/src/expr/eval.rs:24-88] Server::eval_if *)
Definition eval_if {R} (try_into : Variable_ -> option R) (b : IfBlock) (w : World) : option R * World :=
  if is_empty b then (None, w)
  else
    let '(r, (_, w)) := eval_block b ([], w) in
    (match r with Ok v => try_into v | Err _ => None end, w).

(* [crates/common/src/expr/eval.rs:90-148] Server::eval_expr *)
Definition eval_expr {R} (try_into : Variable_ -> option R) (e : Expression) (w : World) : option R * World :=
  match e with
  | [] => (None, w)
  | _ =>
    let '(r, (_, w)) := eval e ([], w) in
    (match r with Ok v => try_into v | Err _ => None end, w)
  end.

(** ** The meaning of an expression *)

Fixpoint denot (e : Expr) : M Variable_ :=
  match e with
  | EVariable v => ret (resolve_variable v)
  | EConstant c => ret (of_constant c)
  | EGlobal g => ret (resolve_global g)
  | ECapture n => capture n
  | ESystem s => ret (system_value s)
  | EUn u e => let* v := denot e in ret (unary u v)
  | EBin And l r =>
      let* a := denot l in if to_bool a then let* b := denot r in ret (op_and a b) else ret a
  | EBin Or l r =>
      let* a := denot l in if to_bool a then ret a else let* b := denot r in ret (op_or a b)
  | EBin b l r => let* x := denot l in let* y := denot r in ret (binary b x y)
  | EParen e => denot e
  | ECall _ id args =>
      let* vs := (fix all (l : list Expr) : M (list Variable_) :=
               match l with [] => ret [] | e :: l => let* v := denot e in let* vs := all l in ret (v :: vs) end) args in
      call id vs
  | EMatches rx e => let* v := denot e in match_regex rx v
  | EArray es =>
      let* vs := (fix all (l : list Expr) : M (list Variable_) :=
               match l with [] => ret [] | e :: l => let* v := denot e in let* vs := all l in ret (v :: vs) end) es in
      ret (VArray vs)
  | EIndex b i => let* x := denot b in let* y := denot i in ret (index x y)
  end.

Fixpoint denot_all (l : list Expr) : M (list Variable_) :=
  match l with [] => ret [] | e :: l => let* v := denot e in let* vs := denot_all l in ret (v :: vs) end.
End Eval.

Notation "'let*' x := m 'in' k" := (bind m (fun x => k))
  (at level 200, x binder, m at level 100, k at level 200, right associativity).

(** ** Running the code of an expression *)

Section Correct.
Context {Sch : Schema} {Lib : Library} {En : Env}.

Lemma bind_ext {A B} (m : M A) (f g : A -> M B) st :
  (forall a st', m st = (Ok a, st') -> f a st' = g a st') -> bind m f st = bind m g st.
Proof. intros Hf. unfold bind. destruct (m st) as [[a|e] st'] eqn:E; auto. Qed.

Lemma bind_assoc {A B C} (m : M A) (f : A -> M B) (g : B -> M C) st :
  bind (bind m f) g st = bind m (fun a => bind (f a) g) st.
Proof. unfold bind. by destruct (m st) as [[a|e] st']. Qed.

Lemma exec_skip a items stack st : exec (Z.of_nat (length a)) (a ++ items) stack st = exec 0 items stack st.
Proof.
  induction a as [|i a IH]; [done|]. cbn [length app exec].
  rewrite (proj2 (Z.ltb_lt _ _)) by lia.
  replace (Z.of_nat (S (length a)) - 1) with (Z.of_nat (length a)) by lia. exact IH.
Qed.

Lemma exec_jump val pos items stack st : exec 0 (IJmpIf val pos :: items) stack st =
  exec (if Bool.eqb (top_bool stack) val then pos else 0) items stack st.
Proof. done. Qed.

Lemma pop_args_rev vs : forall acc stack,
  pop_args (length vs) acc (rev vs ++ stack) = (vs ++ acc, stack).
Proof.
  induction vs as [|v vs IH] using rev_ind; intros acc stack; [done|].
  rewrite length_app, Nat.add_comm, rev_app_distr. cbn [length Nat.add rev app pop_args pop].
  rewrite IH. by rewrite <- app_assoc.
Qed.

(** Code that leaves the value of [m] on the stack. *)
Definition computes (c : Expression) (m : M Variable_) : Prop := forall rest stack st,
  exec 0 (c ++ rest) stack st = bind m (fun v => exec 0 rest (v :: stack)) st.

Definition jumps (i : ExpressionItem) : bool := match i with IJmpIf _ _ => true | _ => false end.

Lemma exec_item i rest stack st : jumps i = false ->
  exec 0 (i :: rest) stack st = (let* s := item_step i stack in exec 0 rest s) st.
Proof. intros H. cbn [exec]. rewrite Z.ltb_irrefl. by destruct i. Qed.

(** An item after code that computes its operand. *)
Lemma computes_item c i m m' : jumps i = false -> computes c m ->
  (forall stack st, (let* v := m in item_step i (v :: stack)) st = (let* v := m' in ret (v :: stack)) st) ->
  computes (c ++ [i]) m'.
Proof.
  intros Hi Hc H rest stack st. rewrite <- app_assoc, Hc. cbn [app].
  transitivity ((let* s := (let* v := m in item_step i (v :: stack)) in exec 0 rest s) st).
  - rewrite bind_assoc. apply bind_ext. intros v st' _. by apply exec_item.
  - unfold bind at 1. rewrite H. unfold bind, ret. by destruct (m' st) as [[v|e] st'].
Qed.

Lemma computes_value i m : jumps i = false ->
  (forall stack st, item_step i stack st = (let* v := m in ret (v :: stack)) st) -> computes [i] m.
Proof.
  intros Hi H rest stack st. cbn [app]. rewrite exec_item by done.
  unfold bind at 1. rewrite H. unfold bind, ret. by destruct (m st) as [[v|e] st'].
Qed.

Lemma denot_all_eq l :
  (fix all (l : list Expr) : M (list Variable_) :=
     match l with
     | [] => ret []
     | e :: l => let* v := denot e in let* vs := all l in ret (v :: vs)
     end) l = denot_all l.
Proof. induction l as [|e l IH]; [done|]. cbn [denot_all]. by rewrite IH. Qed.

Lemma denot_all_length l st vs st' : denot_all l st = (Ok vs, st') -> length vs = length l.
Proof.
  revert st vs st'. induction l as [|e l IH]; intros st vs st'; cbn [denot_all]; unfold bind, ret.
  - intros H. by simplify_eq.
  - destruct (denot e st) as [[v|] st1]; [|done].
    destruct (denot_all l st1) as [[vs'|] st2] eqn:E; [|done].
    intros H. simplify_eq. cbn [length]. by rewrite (IH _ _ _ E).
Qed.

Lemma computes_all l : Forall (fun e => computes (code e) (denot e)) l -> forall rest stack st,
  exec 0 (concat (map code l) ++ rest) stack st =
  (let* vs := denot_all l in exec 0 rest (rev vs ++ stack)) st.
Proof.
  induction 1 as [|e l He _ IH]; intros rest stack st; [done|].
  cbn [map concat denot_all]. rewrite <- app_assoc, He, bind_assoc.
  apply bind_ext. intros v st' _. rewrite IH, bind_assoc.
  apply bind_ext. intros vs st'' _. unfold bind, ret. cbn [rev]. by rewrite <- app_assoc.
Qed.

Lemma computes_args l i f : jumps i = false ->
  Forall (fun e => computes (code e) (denot e)) l ->
  (forall vs stack st, length vs = length l ->
     item_step i (rev vs ++ stack) st = (let* v := f vs in ret (v :: stack)) st) ->
  computes (concat (map code l) ++ [i]) (let* vs := denot_all l in f vs).
Proof.
  intros Hi Hl H rest stack st. rewrite <- app_assoc, computes_all, bind_assoc by done. cbn [app].
  apply bind_ext. intros vs st' E. rewrite exec_item by done.
  unfold bind at 1. rewrite H by (by eapply denot_all_length).
  unfold bind, ret. by destruct (f vs st') as [[v|e] st''].
Qed.

Lemma pop_args_all vs stack n : n = Z.of_nat (length vs) ->
  pop_args (Z.to_nat n) [] (rev vs ++ stack) = (vs, stack).
Proof. intros ->. rewrite Nat2Z.id, pop_args_rev. by rewrite app_nil_r. Qed.

(** A binary operator without a jump. *)
Lemma computes_binary cl cr l r b :
  computes cl l -> computes cr r ->
  computes (cl ++ cr ++ [IBinary b]) (let* x := l in let* y := r in ret (binary b x y)).
Proof.
  intros Hl Hr rest stack st. rewrite <- !app_assoc, Hl, bind_assoc.
  apply bind_ext. intros x st' _. rewrite Hr, bind_assoc.
  apply bind_ext. intros y st'' _. cbn [app]. by rewrite exec_item.
Qed.

(** One with a jump over the right operand, which is taken when the left one
    is [val]. *)
Lemma computes_logic cl cr l r b val :
  computes cl l -> computes cr r ->
  computes (cl ++ IJmpIf val (Z.of_nat (length cr) + 1) :: cr ++ [IBinary b])
    (let* x := l in if Bool.eqb (to_bool x) val then ret x else let* y := r in ret (binary b x y)).
Proof.
  intros Hl Hr rest stack st. rewrite <- app_assoc, Hl, bind_assoc. cbn [app].
  apply bind_ext. intros x st' _. rewrite exec_jump. cbn [top_bool].
  destruct (Bool.eqb (to_bool x) val).
  - replace (Z.of_nat (length cr) + 1) with (Z.of_nat (length (cr ++ [IBinary b])))
      by (rewrite length_app; cbn [length]; lia).
    by rewrite exec_skip.
  - rewrite <- app_assoc, Hr, bind_assoc.
    apply bind_ext. intros y st'' _. cbn [app]. by rewrite exec_item.
Qed.

Definition small (c : Expression) : Prop := Z.of_nat (length c) < 2 ^ 32.

Lemma small_app a b : small (a ++ b) -> small a /\ small b.
Proof. unfold small. rewrite length_app. lia. Qed.

Lemma jump_small b (c : Expression) : small (c ++ [IBinary b]) -> forall b',
  jump b' (length c) = match b' with
                       | And => [IJmpIf false (Z.of_nat (length c) + 1)]
                       | Or => [IJmpIf true (Z.of_nat (length c) + 1)]
                       | _ => [] end.
Proof.
  unfold small. rewrite length_app. cbn [length]. intros H b'. unfold jump, wrap.
  rewrite Z.mod_small by lia. done.
Qed.

Lemma all_small l : small (concat (map code l)) ->
  Forall (fun e => small (code e) -> computes (code e) (denot e)) l ->
  Forall (fun e => computes (code e) (denot e)) l.
Proof.
  intros Hs H. induction H as [|e l He _ IH]; [constructor|].
  cbn [map concat] in Hs. apply small_app in Hs as [H1 H2]. constructor; auto.
Qed.

Lemma computes_ext c m m' : (forall st, m st = m' st) -> computes c m -> computes c m'.
Proof. intros H Hc rest stack st. rewrite Hc. unfold bind. by rewrite H. Qed.

Lemma code_computes e : small (code e) -> computes (code e) (denot e).
Proof.
  induction e using Expr_nested_ind; intros Hs; cbn [code] in Hs |- *.
  - by apply computes_value.
  - by apply computes_value.
  - by apply computes_value.
  - by apply computes_value.
  - by apply computes_value.
  - apply small_app in Hs as [Hs _].
    apply (computes_item _ _ (denot e)); [done|by apply IHe|].
    intros stack st. cbn [denot]. rewrite bind_assoc. by apply bind_ext.
  - pose proof (small_app _ _ Hs) as [H1 Hs2]. pose proof (small_app _ _ Hs2) as [_ Hs3].
    pose proof (small_app _ _ Hs3) as [H2 _].
    rewrite (jump_small b) by done.
    specialize (IHe1 H1). specialize (IHe2 H2).
    destruct b; try (by apply computes_binary).
    + eapply computes_ext; [|exact (computes_logic _ _ _ _ And false IHe1 IHe2)].
      intros st. cbn [denot]. apply bind_ext. intros x st' _. by destruct (to_bool x).
    + eapply computes_ext; [|exact (computes_logic _ _ _ _ Or true IHe1 IHe2)].
      intros st. cbn [denot]. apply bind_ext. intros x st' _. by destruct (to_bool x).
  - by apply IHe.
  - apply small_app in Hs as [Hs _].
    cbn [denot]. rewrite denot_all_eq. apply computes_args; [done|by apply all_small|].
    intros vs stack st Hl. cbn [item_step]. by rewrite pop_args_all by congruence.
  - apply small_app in Hs as [Hs _].
    apply (computes_item _ _ (denot e)); [done|by apply IHe|].
    intros stack st. cbn [denot]. rewrite bind_assoc. by apply bind_ext.
  - apply small_app in Hs as [Hs _].
    cbn [denot]. rewrite denot_all_eq. apply computes_args; [done|by apply all_small|].
    intros vs stack st Hl. cbn [item_step]. by rewrite pop_args_all by congruence.
  - rewrite app_assoc in Hs. apply small_app in Hs as [Hs _]. apply small_app in Hs as [H1 H2].
    intros rest stack st. rewrite <- !app_assoc, IHe1 by done. cbn [denot]. rewrite bind_assoc.
    apply bind_ext. intros x st' _. rewrite IHe2, bind_assoc by done.
    apply bind_ext. intros y st'' _. cbn [app]. by rewrite exec_item.
Qed.

Lemma eval_code e st : small (code e) -> eval (code e) st = denot e st.
Proof.
  intros Hs. unfold eval. pose proof (code_computes e Hs [] [] st) as H. rewrite app_nil_r in H. rewrite H.
  unfold bind, ret. cbn [exec]. unfold ret. cbn [pop fst]. by destruct (denot e st) as [[v|] st'].
Qed.

End Correct.

(** A server whose asynchronous functions always fail. *)
Definition demo_env : @Env demo_schema := {|
  World := unit; EvalError := unit;
  resolve_variable (v : @EVar demo_schema) := VInteger (v : Z); resolve_global _ := VInteger 0;
  server_name := s#"mx.example.org"; default_domain_name := s#"example.org"; node_id := 1;
  local_hostname := s#"node"; cluster_role := []; read_metric _ := f64_zero;
  eval_fnc _ _ w := (Err tt, w)
|}.


(** The operands of a short circuit: [2 || fails()] is [2]. *)
Example short_circuit_value :
  @denot demo_schema demo_library demo_env
    (EBin Or (EConstant (CInteger 2)) (ECall s#"is_local_domain" 45 [EConstant (CInteger 1)])) ([], tt) =
  (Ok (VInteger 2), ([], tt)).
Proof. reflexivity. Qed.

(** [1 +] is accepted and is 1. *)
Example malformed_value :
  @eval demo_schema demo_library demo_env [IConstant (CInteger 1); IBinary Add] ([], tt) =
  (Ok (VInteger 1), ([], tt)).
Proof. reflexivity. Qed.
