(* ===== verification/ExprTokenizer.v ===== *)
(** * The tokenizer of the expression language
      ([crates/common/src/expr/tokenizer.rs])

    A character loop with a buffer for names and numbers, one token of
    look-ahead, and [is_start], which tells a negation from a subtraction.
    [parse_text] is the parser pulling its tokens from it. *)

From S2P Require Import Prelude Decimals Utf8 Text ExprValue ExprParser ExprFunctions.

(** ** Durations ([crates/registry/src/types/duration.rs]) *)

Fixpoint duration_loop (s digits multiplier : list Z) : option (list Z * list Z) :=
  match s with
  | [] => Some (digits, multiplier)
  | ch :: s =>
      if is_ascii_digit ch then
        match multiplier with [] => duration_loop s (digits ++ [ch]) multiplier | _ => None end
      else if negb (is_ascii_whitespace ch) then
        duration_loop s digits (multiplier ++ [to_ascii_lowercase ch])
      else duration_loop s digits multiplier
  end.

(* [crates/registry/src/types/duration.rs:114-121] FromStr for Duration, the multiplier *)
Definition duration_unit (multiplier : list Z) : option Z :=
  if bytes_eqb multiplier s#"d" then Some 86400000
  else if bytes_eqb multiplier s#"h" then Some 3600000
  else if bytes_eqb multiplier s#"m" then Some 60000
  else if bytes_eqb multiplier s#"s" then Some 1000
  else if bytes_eqb multiplier s#"ms" || bytes_eqb multiplier [] then Some 1
  else None.

(** In milliseconds. *)
(* [crates/registry/src/types/duration.rs:98-136] FromStr for Duration *)
Definition duration_from_str (value : list Z) : option Z :=
  match duration_loop (chars value) [] [] with
  | None => None
  | Some (digits, multiplier) =>
      match duration_unit multiplier, parse_unsigned u64_max digits with
      | Some u, Some n => if n * u <=? u64_max then Some (n * u) else None
      | _, _ => None
      end
  end.

Section Tokenizer.
Context {Sch : Schema} {Lib : Library}.

(* [crates/common/src/expr/tokenizer.rs:30-34] TokenMap *)
Record TokenMap := MkMap { variables : list EVar; constants : list EConst }.

(* [crates/common/src/expr/tokenizer.rs:17-28] Tokenizer *)
Record Tokenizer := MkT {
  iter : list Z; buf : list Z; depth : Z; next_token : list Token;
  has_number : bool; has_dot : bool; has_alpha : bool; is_start : bool; is_eof : bool
}.

Inductive TokenError :=
| UnmatchedClose | UnmatchedOpen | InvalidCharacter (c : Z) | InvalidRegex | InvalidMetric
| InvalidSystem | ExpectedCharacter | UnexpectedEnd | Unterminated | InvalidUtf8
| InvalidFloat | InvalidInteger | NotAllowed | InvalidName.

(* [crates/common/src/expr/tokenizer.rs:38-51] Tokenizer::new *)
Definition new_tokenizer (expr : list Z) : Tokenizer :=
  MkT expr [] 0 [] false false false true false.

(* [crates/common/src/expr/tokenizer.rs:248-264] Tokenizer::find_char *)
Fixpoint find_char (wanted : list Z) (iter : list Z) : result (Z * list Z) TokenError :=
  match iter with
  | [] => Err UnexpectedEnd
  | ch :: iter =>
      if negb (is_ascii_whitespace ch) then
        if existsb (Z.eqb ch) wanted then Ok (ch, iter) else Err ExpectedCharacter
      else find_char wanted iter
  end.

(** [last_ch] is the last character of the text, an escaped one too. *)
Fixpoint string_loop (stop_ch last_ch : Z) (buf iter : list Z) : result (list Z * list Z) TokenError :=
  match iter with
  | [] => Err Unterminated
  | ch :: iter =>
      if negb (last_ch =? 92) then
        if negb (ch =? stop_ch) then string_loop stop_ch ch (buf ++ [ch]) iter else Ok (buf, iter)
      else
        string_loop stop_ch ch
          (buf ++ [if ch =? c#"n" then 10 else if ch =? c#"r" then 13 else if ch =? c#"t" then 9 else ch])
          iter
  end.

(* [crates/common/src/expr/tokenizer.rs:266-304] Tokenizer::parse_string *)
Definition parse_string (stop_ch : Z) (iter : list Z) : result (list Z * list Z) TokenError :=
  (let? (buf, iter) := string_loop stop_ch 0 [] iter in
   if valid buf then Ok (buf, iter) else Err InvalidUtf8)%result.

Definition find_function (name : list Z) : option (Z * Z) :=
  (fix go (i : Z) (l : list (list Z * (list Variable_ -> Variable_) * Z)) :=
     match l with
     | [] => None
     | (n, _, num_args) :: l => if bytes_eqb n name then Some (i, num_args) else go (i + 1) l
     end) 0 FUNCTIONS.

Definition find_async (name : list Z) : option (Z * Z) :=
  (fix go (l : list (list Z * Z * Z)) :=
     match l with
     | [] => None
     | (n, idx, num_args) :: l => if bytes_eqb n name then Some (idx, num_args) else go l
     end) ASYNC_FUNCTIONS.

Definition allowed {A} (eqb : A -> A -> bool) (l : list A) (x : A) : bool :=
  match l with [] => true | _ => existsb (eqb x) l end.

(** The token of a name. *)
(* [crates/common/src/expr/tokenizer.rs:329-387] Tokenizer::parse_buf, a name *)
Definition parse_name (token_map : TokenMap) (plain : bool) (buf : list Z) : result Token TokenError :=
  if plain && bytes_eqb buf s#"true" then Ok (TConstant (CInteger 1))
  else if plain && bytes_eqb buf s#"false" then Ok (TConstant (CInteger 0))
  else match (match strip_prefix s#"$" buf with Some (c :: s) => Some (c :: s) | _ => None end) with
  | Some variable =>
      if forallb is_ascii_digit variable then
        match parse_unsigned u32_max variable with
        | Some n => Ok (TCapture n)
        | None => Ok (TGlobal variable)
        end
      else Ok (TGlobal variable)
  | None =>
      match find_function buf with
      | Some (idx, num_args) => Ok (TFunction buf idx num_args)
      | None =>
          match find_async buf with
          | Some (idx, num_args) => Ok (TFunction buf (idx + Z.of_nat (length FUNCTIONS)) num_args)
          | None =>
              match evar_parse buf with
              | Some variable =>
                  if allowed evar_eqb (variables token_map) variable then Ok (TVariable variable)
                  else Err NotAllowed
              | None =>
                  match econst_parse buf with
                  | Some constant =>
                      if allowed econst_eqb (constants token_map) constant
                      then Ok (TConstant (CStatic constant)) else Err NotAllowed
                  | None =>
                      match duration_from_str buf with
                      | Some n => Ok (TConstant (CInteger (as_i64 n)))
                      | None => Err InvalidName
                      end
                  end
              end
          end
      end
  end.

(** The token of the buffer, and the tokenizer with the buffer taken. *)
(* [crates/common/src/expr/tokenizer.rs:306-388] Tokenizer::parse_buf *)
Definition parse_buf (token_map : TokenMap) (t : Tokenizer) : result (Token * Tokenizer) TokenError :=
  let text := str_or_default (buf t) in
  if has_number t && negb (has_alpha t) then
    if has_dot t then
      match parse_f64 text with
      | Some f => Ok (TConstant (CFloat f),
                      MkT (iter t) [] (depth t) (next_token t) false false (has_alpha t) (is_start t) (is_eof t))
      | None => Err InvalidFloat
      end
    else
      match parse_i64 text with
      | Some i => Ok (TConstant (CInteger i),
                      MkT (iter t) [] (depth t) (next_token t) false false (has_alpha t) (is_start t) (is_eof t))
      | None => Err InvalidInteger
      end
  else
    (let? token := parse_name token_map
         (negb (has_number t) && negb (has_dot t) &&
          ((Z.of_nat (length text) =? 4) || (Z.of_nat (length text) =? 5))) text in
     Ok (token, MkT (iter t) [] (depth t) (next_token t) false false false (is_start t) (is_eof t)))%result.

Definition set_iter (i : list Z) (t : Tokenizer) : Tokenizer :=
  MkT i (buf t) (depth t) (next_token t) (has_number t) (has_dot t) (has_alpha t) (is_start t) (is_eof t).
Definition set_start (b : bool) (t : Tokenizer) : Tokenizer :=
  MkT (iter t) (buf t) (depth t) (next_token t) (has_number t) (has_dot t) (has_alpha t) b (is_eof t).
Definition clear_name (i : list Z) (t : Tokenizer) : Tokenizer :=
  MkT i [] (depth t) (next_token t) (has_number t) (has_dot t) false (is_start t) (is_eof t).
Definition push_char (ch : Z) (number dot alpha : bool) (t : Tokenizer) : Tokenizer :=
  MkT (iter t) (buf t ++ [ch]) (depth t) (next_token t) (has_number t || number) (has_dot t || dot)
    (has_alpha t || alpha) (is_start t) (is_eof t).

(** [matches], [metric] and [system] read their text argument themselves. *)
(* [crates/common/src/expr/tokenizer.rs:93-134] Tokenizer::next, the functions with a text *)
Definition special (t : Tokenizer) : option (result (Token * Tokenizer) TokenError) :=
  if bytes_eqb (buf t) s#"matches" then Some
    (let? (stop_ch, i) := find_char [34; 39] (iter t) in
     let? (regex_str, i) := parse_string stop_ch i in
     match rx_new regex_str with
     | None => Err InvalidRegex
     | Some regex =>
         let? (_, i) := find_char s#"," i in Ok (TRegex regex, clear_name i t)
     end)%result
  else if bytes_eqb (buf t) s#"metric" then Some
    (let? (stop_ch, i) := find_char [34; 39] (iter t) in
     let? (metric_str, i) := parse_string stop_ch i in
     match metric_parse metric_str with
     | None => Err InvalidMetric
     | Some metric => Ok (TSystem (SysMetric metric), clear_name i t)
     end)%result
  else if bytes_eqb (buf t) s#"system" then Some
    (let? (stop_ch, i) := find_char [34; 39] (iter t) in
     let? (var, i) := parse_string stop_ch i in
     let sys s := Ok (TSystem s, clear_name i t) in
     if bytes_eqb var s#"domain" then sys Domain
     else if bytes_eqb var s#"hostname" then sys Hostname
     else if bytes_eqb var s#"node_id" then sys NodeId
     else if bytes_eqb var s#"node_hostname" then sys NodeHostname
     else if bytes_eqb var s#"node_role" then sys NodeRole
     else Err InvalidSystem)%result
  else None.

(** The token before a delimiter. *)
(* [crates/common/src/expr/tokenizer.rs:92-145] Tokenizer::next, the buffer before a delimiter *)
Definition prev_token (token_map : TokenMap) (ch : Z) (t : Tokenizer) :
    result (option Token * Tokenizer) TokenError :=
  match buf t with
  | [] => Ok (None, t)
  | _ =>
      match (if ch =? c#"(" then special t else None) with
      | Some r => (let? (token, t) := r in Ok (Some token, t))%result
      | None => (let? (token, t) := parse_buf token_map (set_start false t) in Ok (Some token, t))%result
      end
  end.

Definition is_b (c : Z) (l : list Z) : bool := match l with x :: _ => x =? c | [] => false end.

(** The token of a delimiter, [None] for white space. *)
(* [crates/common/src/expr/tokenizer.rs:146-223] Tokenizer::next, a delimiter *)
Definition delimiter (ch : Z) (t : Tokenizer) : result (option Token * Tokenizer) TokenError :=
  let skip := set_iter (tl (iter t)) t in
  let one b := Ok (Some (TBinary b), t) in
  if ch =? c#"&" then Ok (Some (TBinary And), if is_b c#"&" (iter t) then skip else t)
  else if ch =? c#"|" then Ok (Some (TBinary Or), if is_b c#"|" (iter t) then skip else t)
  else if ch =? c#"!" then
    if is_b c#"=" (iter t) then Ok (Some (TBinary Ne), skip) else Ok (Some (TUnary Not), t)
  else if ch =? c#"^" then one Xor
  else if ch =? c#"(" then
    Ok (Some TOpenParen, MkT (iter t) (buf t) (depth t + 1) (next_token t) (has_number t) (has_dot t)
                           (has_alpha t) (is_start t) (is_eof t))
  else if ch =? c#")" then
    if depth t =? 0 then Err UnmatchedClose
    else Ok (Some TCloseParen, MkT (iter t) (buf t) (depth t - 1) (next_token t) (has_number t) (has_dot t)
                                 (has_alpha t) (is_start t) (is_eof t))
  else if ch =? c#"+" then one Add
  else if ch =? c#"*" then one Multiply
  else if ch =? c#"/" then one Divide
  else if ch =? c#"-" then if is_start t then Ok (Some (TUnary Minus), t) else one Subtract
  else if ch =? c#"=" then
    Ok (Some (TBinary (match iter t with
                       | c :: _ => if c =? c#">" then Ge else if c =? c#"<" then Le else Eq
                       | [] => Eq
                       end)), skip)
  else if ch =? c#">" then if is_b c#"=" (iter t) then Ok (Some (TBinary Ge), skip) else one Gt
  else if ch =? c#"<" then if is_b c#"=" (iter t) then Ok (Some (TBinary Le), skip) else one Lt
  else if ch =? c#"," then Ok (Some TComma, t)
  else if ch =? c#"[" then Ok (Some TOpenBracket, t)
  else if ch =? c#"]" then Ok (Some TCloseBracket, t)
  else if (ch =? 32) || (ch =? 13) || (ch =? 10) then Ok (None, t)
  else if (ch =? 34) || (ch =? 39) then
    (let? (s, i) := parse_string ch (iter t) in Ok (Some (TConstant (CString s)), set_iter i t))%result
  else Err (InvalidCharacter ch).

Definition starts (token : Token) : bool :=
  match token with TOpenParen | TComma | TBinary _ => true | _ => false end.

Definition last_is (p : Z -> bool) (l : list Z) : bool := match rev l with c :: _ => p c | [] => false end.

(** What a character of a name or a number adds to the buffer: its flags. *)
(* [crates/common/src/expr/tokenizer.rs:63-90] Tokenizer::next, a character of the buffer *)
Definition buffered (ch : Z) (b : list Z) : option (bool * bool * bool) :=
  if is_ascii_alphabetic ch || (ch =? c#"_") || (ch =? c#"$") then Some (false, false, true)
  else if is_ascii_digit ch then Some (true, false, false)
  else if ch =? c#"." then Some (false, true, false)
  else if (ch =? c#"-") && last_is (Z.eqb c#"[") b then Some (false, false, false)
  else if (ch =? c#":") && existsb (Z.eqb c#".") b then Some (false, false, false)
  else if (ch =? c#"]") && existsb (Z.eqb c#"[") b then Some (false, false, false)
  else if (ch =? c#"*") && last_is (fun c => (c =? c#"[") || (c =? c#".")) b then Some (false, false, false)
  else None.

(** The end of the text, or a closing brace. *)
(* [crates/common/src/expr/tokenizer.rs:239-245] Tokenizer::next, the end *)
Definition end_of_text (token_map : TokenMap) (t : Tokenizer) :
    result (option Token * Tokenizer) TokenError :=
  if 0 <? depth t then Err UnmatchedOpen
  else match buf t with
       | [] => Ok (None, t)
       | _ => (let? (token, t) := parse_buf token_map t in Ok (Some token, t))%result
       end.

(* [crates/common/src/expr/tokenizer.rs:61-246] Tokenizer::next, the loop *)
Fixpoint next_loop (token_map : TokenMap) (i : list Z) (t : Tokenizer) :
    result (option Token * Tokenizer) TokenError :=
  match i with
  | [] => end_of_text token_map (set_iter [] t)
  | ch :: i =>
      let t := set_iter i t in
      match buffered ch (buf t) with
      | Some (number, dot, alpha) => next_loop token_map i (push_char ch number dot alpha t)
      | None =>
          if ch =? c#"}" then
            end_of_text token_map
              (MkT i (buf t) (depth t) (next_token t) (has_number t) (has_dot t) (has_alpha t) (is_start t) true)
          else
            (let? (prev, t) := prev_token token_map ch t in
             let? (token, t) := delimiter ch t in
             match token, prev with
             | None, Some _ => Ok (prev, t)
             | None, None => next_loop token_map i t
             | Some token, _ =>
                 let t := set_start (starts token) t in
                 match prev with
                 | Some _ => Ok (prev, MkT (iter t) (buf t) (depth t) (token :: next_token t) (has_number t)
                                         (has_dot t) (has_alpha t) (is_start t) (is_eof t))
                 | None => Ok (Some token, t)
                 end
             end)%result
      end
  end.

(* [crates/common/src/expr/tokenizer.rs:54-246] Tokenizer::next *)
Definition next (token_map : TokenMap) (t : Tokenizer) : result (option Token * Tokenizer) TokenError :=
  match next_token t with
  | token :: rest =>
      Ok (Some token, MkT (iter t) (buf t) (depth t) rest (has_number t) (has_dot t) (has_alpha t)
                        (is_start t) (is_eof t))
  | [] => if is_eof t then Ok (None, t) else next_loop token_map (iter t) t
  end.

(** ** The parser on a text *)

Inductive TextError := TokenizerError (e : TokenError) | ParserError (e : ParseError) | OutOfFuel.

(** Tokens are pulled one at a time, so that the first error of either side
    is the error. *)
Fixpoint pull (fuel : nat) (token_map : TokenMap) (t : Tokenizer) (st : PState) : result PState TextError :=
  match fuel with
  | O => Err OutOfFuel
  | S fuel =>
      match next token_map t with
      | Err e => Err (TokenizerError e)
      | Ok (None, _) => Ok st
      | Ok (Some token, t) =>
          match token_step token st with
          | Err e => Err (ParserError e)
          | Ok st => pull fuel token_map t st
          end
      end
  end.

Definition text_fuel (expr : list Z) : nat := 2 * length expr + 2.

(* [crates/common/src/expr/parser.rs:29-231] ExpressionParser::parse, on a text *)
Definition parse_text (token_map : TokenMap) (expr : list Z) : result Expression TextError :=
  match pull (text_fuel expr) token_map (new_tokenizer expr) new with
  | Err e => Err e
  | Ok st =>
      match finish_ops (operator_stack st) (output st) with
      | Ok items => Ok items
      | Err e => Err (ParserError e)
      end
  end.

(* [crates/common/src/expr/tokenizer.rs:392-395] TokenMap::with_variables *)
Definition with_variables (m : TokenMap) (l : list EVar) : TokenMap :=
  MkMap (variables m ++ l) (constants m).
(* [crates/common/src/expr/tokenizer.rs:397-400] TokenMap::with_constants *)
Definition with_constants (m : TokenMap) (l : list EConst) : TokenMap :=
  MkMap (variables m) (constants m ++ l).
End Tokenizer.

(** ** Every text is parsed or refused: the fuel is enough *)

Section Termination.
Context {Sch : Schema} {Lib : Library}.

(** Twice the characters left, and one for a pending token. *)
Definition measure (t : Tokenizer) : nat := 2 * length (iter t) + length (next_token t).

Lemma find_char_length wanted i c i' : find_char wanted i = Ok (c, i') -> (length i' < length i)%nat.
Proof.
  induction i as [|x i IH]; simpl; [done|]. destruct (negb (is_ascii_whitespace x)).
  - destruct (existsb _ wanted); [|done]. intros; simplify_eq. lia.
  - intros H. apply IH in H. lia.
Qed.

Lemma string_loop_length stop last i : forall b s i',
  string_loop stop last b i = Ok (s, i') -> (length i' < length i)%nat.
Proof.
  revert last. induction i as [|x i IH]; intros last b s i'; simpl; [done|].
  destruct (negb (last =? 92)).
  - destruct (negb (x =? stop)); [intros H; apply IH in H; lia|]. intros; simplify_eq. lia.
  - intros H. apply IH in H. lia.
Qed.

Lemma parse_string_length stop i s i' : parse_string stop i = Ok (s, i') -> (length i' < length i)%nat.
Proof.
  unfold parse_string. destruct (string_loop stop 0 [] i) as [[b r]|] eqn:E; [|done].
  cbn [rbind]. apply string_loop_length in E. destruct (valid b); [|done]. intros; by simplify_eq.
Qed.

(** The steps of [next] that only take characters. *)
Definition shorter (t t' : Tokenizer) : Prop :=
  (length (iter t') <= length (iter t))%nat /\ next_token t' = next_token t.

Lemma parse_buf_shorter m t token t' : parse_buf m t = Ok (token, t') -> shorter t t'.
Proof.
  unfold parse_buf. intros H. destruct (has_number t && negb (has_alpha t)).
  - destruct (has_dot t); [destruct (parse_f64 _)|destruct (parse_i64 _)]; simplify_eq; by split.
  - destruct (parse_name _ _ _); simpl in H; simplify_eq; by split.
Qed.

Lemma text_argument {A} i (k : list Z -> list Z -> result A TokenError) r :
  (let? (c, i) := find_char [34; 39] i in let? (x, i) := parse_string c i in k x i)%result = Ok r ->
  exists x i', (length i' < length i)%nat /\ k x i' = Ok r.
Proof.
  destruct (find_char [34; 39] i) as [[c i1]|] eqn:E1; [|done]. apply find_char_length in E1. cbn [rbind].
  destruct (parse_string c i1) as [[x i2]|] eqn:E2; [|done]. apply parse_string_length in E2. cbn [rbind].
  intros H. exists x, i2. split; [lia|done].
Qed.

Lemma special_shorter t token t' : special t = Some (Ok (token, t')) -> shorter t t'.
Proof.
  unfold special. intros H.
  destruct (bytes_eqb (buf t) s#"matches"); [|destruct (bytes_eqb (buf t) s#"metric");
    [|destruct (bytes_eqb (buf t) s#"system"); [|done]]]; apply (inj Some) in H;
    apply (text_argument (iter t)) in H as (x & i & Hlen & H).
  - destruct (rx_new x); [|done]. destruct (find_char _ i) as [[c' i'']|] eqn:E3; [|done].
    apply find_char_length in E3. cbn [rbind] in H. simplify_eq. split; simpl; [lia|done].
  - destruct (metric_parse x); [|done]. simplify_eq. split; simpl; [lia|done].
  - repeat (case_if_in H; [simplify_eq; split; simpl; [lia|done]|]). done.
Qed.

Lemma shorter_trans a b c : shorter a b -> shorter b c -> shorter a c.
Proof. intros [H1 H2] [H3 H4]. split; [lia|congruence]. Qed.

Lemma parse_buf_empties m t token t' : parse_buf m t = Ok (token, t') -> buf t' = [].
Proof.
  unfold parse_buf. intros H. destruct (has_number t && negb (has_alpha t)).
  - destruct (has_dot t); [destruct (parse_f64 _)|destruct (parse_i64 _)]; by simplify_eq.
  - destruct (parse_name _ _ _); simpl in H; by simplify_eq.
Qed.

Lemma special_empties t token t' : special t = Some (Ok (token, t')) -> buf t' = [].
Proof.
  unfold special. intros H.
  destruct (bytes_eqb (buf t) s#"matches"); [|destruct (bytes_eqb (buf t) s#"metric");
    [|destruct (bytes_eqb (buf t) s#"system"); [|done]]]; apply (inj Some) in H;
    apply (text_argument (iter t)) in H as (x & i & _ & H).
  - destruct (rx_new x); [|done]. destruct (find_char _ i) as [[c' i'']|]; [|done].
    cbn [rbind] in H. by simplify_eq.
  - destruct (metric_parse x); [|done]. by simplify_eq.
  - repeat (case_if_in H; [by simplify_eq|]). done.
Qed.

Lemma prev_token_spec m ch t prev t' : prev_token m ch t = Ok (prev, t') -> shorter t t' /\ buf t' = [].
Proof.
  unfold prev_token. destruct (buf t) as [|c b] eqn:Eb; [intros; simplify_eq; by repeat split|].
  destruct (if ch =? c#"(" then special t else None) as [r|] eqn:E.
  - destruct (ch =? c#"("); [|done]. destruct r as [[token t1]|]; [|done].
    cbn [rbind]. intros; simplify_eq. split; [by eapply special_shorter|by eapply special_empties].
  - destruct (parse_buf m (set_start false t)) as [[token t1]|] eqn:Ep; [|done].
    cbn [rbind]. intros; simplify_eq. split; [|by eapply parse_buf_empties].
    apply parse_buf_shorter in Ep. by destruct Ep.
Qed.

Lemma delimiter_spec ch t token t' :
  delimiter ch t = Ok (token, t') -> shorter t t' /\ buf t' = buf t /\ (token = None -> t' = t).
Proof.
  assert (forall tok : Token, shorter t t /\ buf t = buf t /\ (Some tok = None -> t = t)) as Hr
    by (by repeat split).
  assert (forall tok : Token, shorter t (set_iter (tl (iter t)) t) /\ buf t = buf t /\
    (Some tok = None -> set_iter (tl (iter t)) t = t)) as Hs.
  { repeat split; try done. simpl. destruct (iter t); simpl; lia. }
  unfold delimiter. intros H.
  repeat (case_if_in H; [repeat case_if_in H; try discriminate; simplify_eq;
    solve [apply Hr | apply Hs | by repeat split]|]).
  case_if_in H; [|done].
  destruct (parse_string ch (iter t)) as [[x i]|] eqn:Es; [|done]. apply parse_string_length in Es.
  cbn [rbind] in H. simplify_eq. repeat split; simpl; [lia|done].
Qed.

Lemma end_of_text_spec m t token t' :
  end_of_text m t = Ok (token, t') -> shorter t t' /\ buf t' = [] /\ (token <> None -> buf t <> []).
Proof.
  unfold end_of_text. destruct (0 <? depth t); [done|].
  destruct (buf t) eqn:Eb; [intros; simplify_eq; by repeat split|].
  destruct (parse_buf m t) as [[x t1]|] eqn:E; [|done]. cbn [rbind]. intros; simplify_eq.
  split; [by apply parse_buf_shorter in E|]. split; [by eapply parse_buf_empties|done].
Qed.

(** A token costs at least one character, and at most one token is kept. *)
Lemma next_loop_measure m i : forall t token t',
  next_loop m i t = Ok (Some token, t') -> next_token t = [] ->
  buf t' = [] /\
  (2 * length (iter t') + length (next_token t') < 2 * length i + (if buf t then 0 else 1))%nat.
Proof.
  induction i as [|ch i IH]; intros t token t' H Hn; cbn [next_loop] in H.
  - apply end_of_text_spec in H as ([H1 H2] & Hb & H3). specialize (H3 ltac:(done)).
    simpl in H1, H2, H3. rewrite H2, Hn. split; [done|]. destruct (buf t); simpl; [done|lia].
  - destruct (buffered ch (buf (set_iter i t))) as [[[number dot] alpha]|].
    { apply IH in H as [Hb H]; [|done]. split; [done|]. simpl in H |- *.
      destruct (buf t); simpl in H; lia. }
    destruct (ch =? c#"}").
    { apply end_of_text_spec in H as ([H1 H2] & Hb & _). simpl in H1, H2. rewrite H2, Hn.
      split; [done|]. simpl. lia. }
    destruct (prev_token m ch (set_iter i t)) as [[prev t1]|] eqn:E1; [|done].
    apply prev_token_spec in E1 as [[L1 N1] B1]. cbn [rbind] in H.
    destruct (delimiter ch t1) as [[tok t2]|] eqn:E2; [|done].
    apply delimiter_spec in E2 as ([L2 N2] & B2 & S2). cbn [rbind] in H. simpl in L1, N1.
    destruct tok as [tok|]; [|destruct prev].
    + split; [destruct prev; simplify_eq; simpl; congruence|].
      destruct prev; simplify_eq; simpl; rewrite N2, N1, Hn; simpl; lia.
    + simplify_eq. split; [congruence|]. rewrite N2, N1, Hn. simpl. lia.
    + apply IH in H as [Hb H]; [|congruence]. split; [done|].
      rewrite B2, B1 in H. simpl. lia.
Qed.

Lemma next_measure m t token t' : next m t = Ok (Some token, t') -> buf t = [] ->
  buf t' = [] /\ (measure t' < measure t)%nat.
Proof.
  unfold next, measure. destruct (next_token t) as [|tok rest] eqn:En.
  - destruct (is_eof t); [done|]. intros H Hb.
    apply next_loop_measure in H as [H1 H2]; [|done]. rewrite Hb in H2. split; [done|]. simpl. lia.
  - intros; simplify_eq. split; [done|]. simpl. lia.
Qed.

Lemma pull_fuel m : forall fuel t st, buf t = [] -> (measure t < fuel)%nat ->
  pull fuel m t st <> Err OutOfFuel.
Proof.
  induction fuel as [|fuel IH]; intros t st Hb Hf; [lia|]. cbn [pull].
  destruct (next m t) as [[[token|] t']|] eqn:E; [|done|done].
  apply next_measure in E as [Hb' Hm]; [|done].
  destruct (token_step token st); [|done]. apply IH; [done|lia].
Qed.

Lemma pull_no_panic m : forall fuel t st, stack_ok st ->
  match pull fuel m t st with Ok st => stack_ok st | Err e => e <> ParserError Panicked end.
Proof.
  induction fuel as [|fuel IH]; intros t st Hs; cbn [pull]; [done|].
  destruct (next m t) as [[[token|] t']|]; [|done|done].
  pose proof (token_step_ok token st Hs) as Ht. destruct (token_step token st) as [st'|e]; [by apply IH|].
  simpl in Ht. congruence.
Qed.

(** Every text is parsed or refused with an error: the tokenizer ends
    (each token takes at least a character, so that the fuel is enough), and
    the parser does not panic. *)
Theorem parse_text_total m text :
  parse_text m text <> Err OutOfFuel /\ parse_text m text <> Err (ParserError Panicked).
Proof.
  unfold parse_text.
  pose proof (pull_fuel m (text_fuel text) (new_tokenizer text) new eq_refl) as Hf.
  pose proof (pull_no_panic m (text_fuel text) (new_tokenizer text) new ltac:(by split)) as Hp.
  destruct (pull _ m _ new) as [st|e].
  - pose proof (finish_ops_ok _ _ (proj2 Hp)) as Hn.
    destruct (finish_ops (operator_stack st) (output st)); split; congruence.
  - split; [|congruence]. intros E. simplify_eq. apply Hf; [|done].
    unfold measure, text_fuel, new_tokenizer. simpl. lia.
Qed.
End Termination.

(** ** The text of tokens *)

Section Lexemes.
Context {Sch : Schema} {Lib : Library}.
Variable m : TokenMap.

Definition name_char (c : Z) : bool :=
  is_ascii_alphabetic c || (c =? c#"_") || (c =? c#"$") || is_ascii_digit c || (c =? c#".").
Definition alpha_char (c : Z) : bool := is_ascii_alphabetic c || (c =? c#"_") || (c =? c#"$").

Definition plain_name (s : list Z) : bool :=
  negb (existsb is_ascii_digit s) && negb (existsb (Z.eqb c#".") s) &&
  ((Z.of_nat (length s) =? 4) || (Z.of_nat (length s) =? 5)).

(** The operators and the punctuation; a minus depends on what is before it. *)
Definition symbols : list (Token * list Z) := [
  (TBinary And, s#"&&"); (TBinary Or, s#"||"); (TBinary Xor, s#"^"); (TBinary Add, s#"+");
  (TBinary Subtract, s#"-"); (TUnary Minus, s#"-"); (TUnary Not, s#"!");
  (TBinary Multiply, s#"*"); (TBinary Divide, s#"/"); (TBinary Eq, s#"=="); (TBinary Ne, s#"!=");
  (TBinary Lt, s#"<"); (TBinary Le, s#"<="); (TBinary Gt, s#">"); (TBinary Ge, s#">=");
  (TOpenParen, s#"("); (TCloseParen, s#")"); (TOpenBracket, s#"["); (TCloseBracket, s#"]");
  (TComma, s#",")].

(** The texts of a token: names of variables, functions, captures, globals,
    constants and durations; numbers; texts in quotes; symbols. *)
Inductive lexeme : Token -> list Z -> Prop :=
| lex_name s t : forallb name_char s = true -> existsb alpha_char s = true ->
    parse_name m (plain_name s) s = Ok t -> lexeme t s
| lex_integer n : 0 <= n <= i64_max -> lexeme (TConstant (CInteger n)) (print_decimal n)
| lex_string q s : In q [34; 39] -> ~ In q s -> ~ In 92 s -> valid s = true ->
    lexeme (TConstant (CString s)) (q :: s ++ [q])
| lex_symbol t s : In (t, s) symbols -> lexeme t s.

(** A minus is unary exactly at the start of an operand, and parentheses are
    closed that were opened. *)
Definition sign_ok (start : bool) (t : Token) : bool :=
  match t with TUnary Minus => start | TBinary Subtract => negb start | _ => true end.
Definition depth_after (d : Z) (t : Token) : Z :=
  match t with TOpenParen => d + 1 | TCloseParen => d - 1 | _ => d end.

Fixpoint well_spelled (start : bool) (d : Z) (l : list Token) : bool :=
  match l with
  | [] => d =? 0
  | t :: l => sign_ok start t && (0 <=? depth_after d t) && well_spelled (starts t) (depth_after d t) l
  end.

Definition spaced (texts : list (list Z)) : list Z := concat (map (fun s => s ++ [32]) texts).

(** The tokenizer between two tokens. *)
Definition between (start : bool) (d : Z) (i : list Z) : Tokenizer :=
  MkT i [] d [] false false false start false.

Lemma buffered_name c b : name_char c = true ->
  buffered c b = Some (is_ascii_digit c, c =? c#".", alpha_char c).
Proof.
  unfold name_char, buffered, alpha_char, is_ascii_alphabetic, is_ascii_uppercase, is_ascii_lowercase, is_ascii_digit.
  intros H. repeat case_if; f_equal; f_equal; try f_equal; lia.
Qed.

Lemma next_loop_iter i x t : next_loop m i (set_iter x t) = next_loop m i t.
Proof. by destruct i. Qed.

Definition pushed (s : list Z) (t : Tokenizer) : Tokenizer :=
  MkT (iter t) (buf t ++ s) (depth t) (next_token t)
    (has_number t || existsb is_ascii_digit s) (has_dot t || existsb (Z.eqb c#".") s)
    (has_alpha t || existsb alpha_char s) (is_start t) (is_eof t).

Lemma next_loop_name s : forall i t, forallb name_char s = true ->
  next_loop m (s ++ i) t = next_loop m i (pushed s t).
Proof.
  induction s as [|c s IH]; intros i t H; cbn [app].
  - unfold pushed. cbn [existsb]. rewrite !orb_false_r, app_nil_r. by destruct t.
  - cbn [forallb] in H. apply andb_true_iff in H as [Hc H]. cbn [next_loop].
    rewrite buffered_name, IH by done.
    rewrite <- (next_loop_iter i (iter t)). f_equal. unfold pushed, push_char, set_iter.
    cbn [iter buf depth next_token has_number has_dot has_alpha is_start is_eof existsb].
    rewrite <- app_assoc, !orb_assoc, (Z.eqb_sym c). done.
Qed.

(** The space after a name or a number. *)
Lemma next_name s i b d token t' :
  forallb name_char s = true -> s <> [] ->
  parse_buf m (MkT i s d [] (existsb is_ascii_digit s) (existsb (Z.eqb c#".") s) (existsb alpha_char s)
                 false false) = Ok (token, t') ->
  next m (between b d (s ++ 32 :: i)) = Ok (Some token, t').
Proof.
  intros Hs Hne H. unfold next. cbn [next_token between is_eof iter].
  rewrite next_loop_name by done. cbn [next_loop].
  change (buffered 32 _) with (@None (bool * bool * bool)). cbv iota.
  change (32 =? c#"}") with false. cbv iota.
  assert (prev_token m 32 (set_iter i (pushed s (between b d (s ++ 32 :: i)))) = Ok (Some token, t')) as E.
  { unfold prev_token. cbn [set_iter buf pushed between app]. destruct s as [|c s]; [done|].
    change (32 =? c#"(") with false. cbv iota. unfold set_start, set_iter, pushed, between.
    cbn [iter buf depth next_token has_number has_dot has_alpha is_start is_eof orb app].
    rewrite H. done. }
  unfold between in E |- *. rewrite E. reflexivity.
Qed.

Lemma starts_name plain s t : parse_name m plain s = Ok t -> starts t = false /\
  (forall b, sign_ok b t = true) /\ forall d, depth_after d t = d.
Proof.
  unfold parse_name. intros H.
  repeat first [case_if_in H | match type of H with context [match ?x with _ => _ end] => destruct x end];
    try discriminate; simplify_eq; done.
Qed.

Definition token_done (t : Token) (b : bool) (d : Z) (i : list Z) (text : list Z) : Prop :=
  exists i', next m (between b d (text ++ 32 :: i)) =
    Ok (Some t, between (starts t) (depth_after d t) i') /\ (i' = i \/ i' = 32 :: i).

Lemma name_valid s : forallb name_char s = true -> str_or_default s = s.
Proof.
  intros H. apply str_or_default_ascii. apply Forall_forall. intros c Hc.
  rewrite forallb_forall in H. specialize (H c Hc).
  unfold name_char, is_ascii_alphabetic, is_ascii_uppercase, is_ascii_lowercase, is_ascii_digit in H.
  unfold ascii. lia.
Qed.

Lemma token_name s t b d i : forallb name_char s = true -> existsb alpha_char s = true ->
  parse_name m (plain_name s) s = Ok t -> token_done t b d i s.
Proof.
  intros Hs Ha Hp. destruct (starts_name _ _ _ Hp) as (H1 & _ & H3). exists i. rewrite H1, H3.
  split; [|by left]. apply next_name; [done|by destruct s|].
  unfold parse_buf. cbn [buf has_number has_alpha has_dot]. rewrite Ha, andb_false_r, name_valid by done.
  fold (plain_name s). rewrite Hp. done.
Qed.

Lemma digits_name s : digits s -> s <> [] ->
  forallb name_char s = true /\ existsb is_ascii_digit s = true /\ existsb alpha_char s = false /\
  existsb (Z.eqb c#".") s = false.
Proof.
  intros Hd Hne.
  assert (forall c, In c s -> 48 <= c <= 57) as H.
  { intros c Hc. unfold digits in Hd. rewrite Forall_forall in Hd. by apply is_digit_range, Hd. }
  assert (forall p, (forall c, 48 <= c <= 57 -> p c = false) -> existsb p s = false) as Hex.
  { intros p Hp. apply not_true_iff_false. intros E. apply existsb_exists in E as (c & Hc & E).
    rewrite Hp in E by auto. done. }
  split_and!.
  - apply forallb_forall. intros c Hc. specialize (H c Hc). unfold name_char, is_ascii_digit. lia.
  - destruct s as [|c s]; [done|]. simpl. rewrite (proj2 (is_digit_range c)); [done|]. apply H. by left.
  - apply Hex. intros c Hc. unfold alpha_char, is_ascii_alphabetic, is_ascii_uppercase, is_ascii_lowercase. lia.
  - apply Hex. intros c Hc. lia.
Qed.

Lemma token_integer n b d i : 0 <= n <= i64_max ->
  token_done (TConstant (CInteger n)) b d i (print_decimal n).
Proof.
  intros Hn. exists i. split; [|by left].
  destruct (digits_name _ (print_decimal_digits n (proj1 Hn)) (print_decimal_nonempty n)) as (H1 & H2 & H3 & H4).
  apply next_name; [done|apply print_decimal_nonempty|].
  unfold parse_buf. cbn [buf has_number has_alpha has_dot]. rewrite H2, H3, H4, name_valid by done.
  cbn [andb negb].
  assert (parse_i64 (print_decimal n) = Some n) as ->.
  { pose proof (parse_print_i64 n) as H. unfold print_i64 in H.
    rewrite (proj2 (Z.ltb_ge _ _)) in H by lia. apply H. unfold in_i64, i64_min, i64_max in *. lia. }
  reflexivity.
Qed.

Lemma string_loop_plain q s : ~ In q s -> ~ In 92 s -> forall last buf i, last <> 92 ->
  string_loop q last buf (s ++ q :: i) = Ok (buf ++ s, i).
Proof.
  induction s as [|c s IH]; intros Hq Hb last buf i Hl; cbn [app string_loop];
    rewrite (proj2 (Z.eqb_neq last 92)) by done; cbn [negb].
  - by rewrite Z.eqb_refl, app_nil_r.
  - rewrite (proj2 (Z.eqb_neq c q)) by (intros ->; apply Hq; by left). cbn [negb].
    rewrite IH by (intros H; first [apply Hq; by right | apply Hb; by right | apply Hb; left; congruence]).
    by rewrite <- app_assoc.
Qed.

Lemma token_string q s b d i : In q [34; 39] -> ~ In q s -> ~ In 92 s -> valid s = true ->
  token_done (TConstant (CString s)) b d i (q :: s ++ [q]).
Proof.
  intros Hin Hq Hb Hv. exists (32 :: i). split; [|by right].
  assert (parse_string q (s ++ q :: 32 :: i) = Ok (s, 32 :: i)) as E.
  { unfold parse_string. rewrite string_loop_plain by done. cbn [rbind app]. by rewrite Hv. }
  replace ((q :: s ++ [q]) ++ 32 :: i) with (q :: s ++ q :: 32 :: i) by (cbn [app]; by rewrite <- app_assoc).
  unfold next. cbn [next_token between is_eof iter next_loop].
  destruct Hin as [<-|[<-|[]]]; cbn - [parse_string]; rewrite E; reflexivity.
Qed.

Lemma token_symbol t s b d i : In (t, s) symbols -> sign_ok b t = true -> 0 <= depth_after d t ->
  token_done t b d i s.
Proof.
  intros Hin Hs Hd. unfold symbols in Hin. cbn [In] in Hin.
  repeat (destruct Hin as [Hin|Hin]; [apply (inj2 pair) in Hin as [<- <-]; exists (32 :: i);
    (split; [|by right]); try reflexivity|]); try done.
  - simpl in Hs. destruct b; [done|reflexivity].
  - simpl in Hs. destruct b; [reflexivity|done].
  - simpl in Hd. unfold next. cbn [next_token between is_eof iter next_loop app].
    unfold delimiter. cbn. rewrite (proj2 (Z.eqb_neq d 0)) by lia. reflexivity.
Qed.

Lemma token_lexeme t s b d i : lexeme t s -> sign_ok b t = true -> 0 <= depth_after d t ->
  token_done t b d i s.
Proof.
  destruct 1; intros Hs Hd; [by apply token_name|by apply token_integer|by apply token_string|].
  by apply token_symbol.
Qed.

Lemma next_space b d i : next m (between b d (32 :: i)) = next m (between b d i).
Proof. unfold next. cbn [next_token between is_eof iter]. cbn. by rewrite <- (next_loop_iter i i). Qed.

Lemma next_done b d : d = 0 -> next m (between b d []) = Ok (None, between b d []).
Proof. intros ->. reflexivity. Qed.

Lemma pull_lexemes toks texts : Forall2 lexeme toks texts -> forall b d i st fuel,
  well_spelled b d toks = true -> (length toks < fuel)%nat ->
  i = spaced texts \/ i = 32 :: spaced texts ->
  pull fuel m (between b d i) st =
    match steps toks st with Ok st => Ok st | Err e => Err (ParserError e) end.
Proof.
  assert (forall b d i i', i = i' \/ i = 32 :: i' -> next m (between b d i) = next m (between b d i')) as Hsp.
  { intros b d i i' [->| ->]; [done|apply next_space]. }
  induction 1 as [|t s toks texts Hl _ IH]; intros b d i st fuel Hw Hf Hi;
    (destruct fuel as [|fuel]; [cbn [length] in Hf; lia|]); cbn [pull]; rewrite (Hsp _ _ _ _ Hi).
  - cbn [well_spelled] in Hw. apply Z.eqb_eq in Hw. by rewrite next_done.
  - cbn [well_spelled] in Hw. apply andb_true_iff in Hw as [Hw Hrest]. apply andb_true_iff in Hw as [Hs Hd].
    destruct (token_lexeme t s b d (spaced texts) Hl Hs ltac:(lia)) as (i' & E & Hi').
    change (spaced (s :: texts)) with ((s ++ [32]) ++ spaced texts). rewrite <- app_assoc. cbn [app].
    rewrite E. cbn [steps]. destruct (token_step t st) as [st'|e]; cbn [rbind]; [|done].
    apply IH; [done|cbn [length] in Hf; lia|done].
Qed.

(** A text of an expression: its tokens spelled with spaces after them. *)
Definition spells (e : Expr) (text : list Z) : Prop :=
  wf e /\ well_spelled true 0 (toks e) = true /\
  exists texts, Forall2 lexeme (toks e) texts /\ text = spaced texts.

Lemma parse_spelled e text : spells e text -> parse_text m text = Ok (code e).
Proof.
  intros (Hw & Hs & texts & Hl & ->). pose proof (parse_toks e Hw) as Hp. unfold parse_tokens in Hp.
  unfold parse_text.
  assert (length (toks e) <= length (spaced texts))%nat as Hlen.
  { clear -Hl. unfold spaced. induction Hl as [|t s ts ss _ _ IH]; [simpl; lia|].
    cbn [map concat length]. rewrite !length_app. cbn [length]. lia. }
  change (new_tokenizer (spaced texts)) with (between true 0 (spaced texts)).
  rewrite (pull_lexemes _ _ Hl true 0) by (done || (unfold text_fuel; lia) || by left).
  destruct (steps (toks e) new) as [st|]; [|done]. cbn [rbind] in Hp. by rewrite Hp.
Qed.

(** The text of an expression compiles: if the tokens of a well-formed
    expression are written with a space after each, by any of their texts,
    the tokenizer and the parser turn it into the expression's code; names
    are looked up with the context's variables and constants. *)
Theorem text_compiles e texts :
  wf e -> Forall2 lexeme (toks e) texts -> well_spelled true 0 (toks e) = true ->
  parse_text m (spaced texts) = Ok (code e).
Proof. intros Hw Hl Hs. apply parse_spelled. unfold spells. eauto. Qed.
End Lexemes.

(** [sender + 2 * -rcpt [ 0 ] || is_empty ( 'a b' )], over the demonstration
    schema. *)
Definition demo_text : list (list Z) :=
  [s#"sender"; s#"+"; s#"2"; s#"*"; s#"("; s#"-"; s#"rcpt"; s#"["; s#"0"; s#"]"; s#")"; s#"||";
   s#"is_empty"; s#"("; s#"'a b'"; s#")"].

Definition demo_source : @Expr demo_schema :=
  EBin Or
    (EBin Add (@EVariable demo_schema 1)
       (EBin Multiply (EConstant (CInteger 2))
          (EParen (EUn Minus (EIndex (@EVariable demo_schema 2) (EConstant (CInteger 0)))))))
    (ECall s#"is_empty" 7 [EConstant (CString s#"a b")]).

Ltac name := apply lex_name; vm_compute; reflexivity.
Ltac symbol := apply lex_symbol; unfold symbols; cbn [In]; repeat (first [left; reflexivity | right]).

Example text_compiles_witness :
  @parse_text demo_schema demo_library (MkMap [] []) (spaced demo_text) = Ok (code demo_source).
Proof.
  apply text_compiles; [|unfold demo_text; cbn [toks demo_source map sep app length]|reflexivity].
  - vm_compute. repeat split; discriminate.
  - repeat (apply List.Forall2_cons); try apply List.Forall2_nil;
      [name|symbol|apply (lex_integer _ 2); vm_compute; split; discriminate|symbol|symbol|symbol|name
      |symbol|apply (lex_integer _ 0); vm_compute; split; discriminate|symbol|symbol|symbol|name|symbol
      |apply (lex_string _ 39 s#"a b"); vm_compute; intuition discriminate|symbol].
Defined.

(** *** What the tokenizer does not do *)

Section Findings.
Let parse (s : list Z) := @parse_text demo_schema demo_library (MkMap [] []) s.

(** After a bracket and after [!] a minus is a subtraction: [[-1]] and
    [!-1] do not negate, and [--1] is the negation of nothing minus one. *)
Lemma minus_after_unary :
  parse s#"[-1]" = Ok [IConstant (CInteger 1); IBinary Subtract; IArrayBuild 0] /\
  parse s#"!-1" = Ok [IUnary Not; IConstant (CInteger 1); IBinary Subtract] /\
  parse s#"--1" = Ok [IUnary Minus; IConstant (CInteger 1); IBinary Subtract].
Proof. repeat split; vm_compute; reflexivity. Qed.

(** A single [=] takes the next character: [1=2] compares 1 with nothing. *)
Lemma equal_swallows : parse s#"1=2" = Ok [IConstant (CInteger 1); IBinary Eq].
Proof. reflexivity. Qed.

(** An escape keeps its backslash, and an escaped backslash escapes what
    follows it. *)
Lemma escape_keeps_backslash :
  parse (s#"'a" ++ [92; 110; 39]) = Ok [IConstant (CString [97; 92; 10])] /\
  parse [39; 92; 92; 39] = Err (TokenizerError Unterminated).
Proof. split; reflexivity. Qed.
End Findings.
