(* ===== verification/ExprCompile.v ===== *)
(** * Conditional settings ([crates/common/src/expr/if_block.rs])

    A setting is a list of conditions with their values and a default, all
    of them texts; it is compiled to an [IfBlock], or refused with a
    warning and replaced by the default of the setting. *)

From S2P Require Import Prelude ExprValue ExprParser ExprFunctions ExprEval ExprTokenizer.

Section Compile.
Context {Sch : Schema} {Lib : Library}.

(** The registry's [structs::Expression] and [ExpressionContext], as far as
    the compiler reads them. *)
Record ExprMatch := MkMatch { if_ : list Z; then_text : list Z }.
Record ExprSource := MkSource { match_ : list ExprMatch; else_ : list Z }.
Record ExprContext := MkCtx {
  ctx_expr : ExprSource;
  ctx_default : option ExprSource;
  allowed_variables : list EVar;
  allowed_constants : list EConst
}.

(** What [invalid_property] is told. *)
Inductive Warning :=
| MissingElse | EmptyBlock
| BadElse (e : TextError) | BadIf (num : Z) (e : TextError) | BadThen (num : Z) (e : TextError).

(* [crates/common/src/expr/if_block.rs:60-69] IfBlock::empty *)
Definition empty_block : IfBlock := MkIfBlock [] [].

(** The loop over the conditions. *)
(* [crates/common/src/expr/if_block.rs:166-203] BootstrapExprExt::try_compile_expr, the conditions *)
Fixpoint compile_matches (token_map : TokenMap) (num : Z) (l : list ExprMatch) :
    result (list IfThen) Warning :=
  match l with
  | [] => Ok []
  | m :: l =>
      match parse_text token_map (if_ m) with
      | Err err => Err (BadIf (num + 1) err)
      | Ok if_expr =>
          match parse_text token_map (then_text m) with
          | Err err => Err (BadThen (num + 1) err)
          | Ok then_expr =>
              (let? rest := compile_matches token_map (num + 1) l in
               Ok (MkIfThen if_expr then_expr :: rest))%result
          end
      end
  end.

Definition text_empty (s : list Z) : bool := match s with [] => true | _ => false end.

(* [crates/common/src/expr/if_block.rs:117-211] BootstrapExprExt::try_compile_expr *)
Definition try_compile_expr (ctx : ExprContext) (expr : ExprSource) : option IfBlock * list Warning :=
  if text_empty (else_ expr) then
    (None, match match_ expr with [] => [] | _ => [MissingElse] end)
  else if existsb (fun m => text_empty (if_ m) || text_empty (then_text m)) (match_ expr) then
    (None, [EmptyBlock])
  else
    let token_map :=
      with_constants (with_variables (MkMap [] []) (allowed_variables ctx)) (allowed_constants ctx) in
    match parse_text token_map (else_ expr) with
    | Err err => (None, [BadElse err])
    | Ok default_ =>
        match compile_matches token_map 0 (match_ expr) with
        | Err w => (None, [w])
        | Ok if_then => (Some (MkIfBlock if_then default_), [])
        end
    end.

(** [None] is the panic of [expect]. *)
(* [crates/common/src/expr/if_block.rs:108-115] BootstrapExprExt::compile_default_expr *)
Definition compile_default_expr (ctx : ExprContext) : option IfBlock * list Warning :=
  match ctx_default ctx with
  | Some d => try_compile_expr ctx d
  | None => (Some empty_block, [])
  end.

(* [crates/common/src/expr/if_block.rs:96-106] BootstrapExprExt::compile_expr *)
Definition compile_expr (ctx : ExprContext) : option IfBlock * list Warning :=
  match else_ (ctx_expr ctx), match_ (ctx_expr ctx) with
  | [], [] => (Some empty_block, [])
  | _, _ =>
      match try_compile_expr ctx (ctx_expr ctx) with
      | (Some b, w) => (Some b, w)
      | (None, w) => let '(b, w') := compile_default_expr ctx in (b, w ++ w')
      end
  end.

(* [crates/common/src/expr/if_block.rs:76-82] Expression::parse *)
Definition expression_parse (token_map : TokenMap) (expr : list Z) : option Expression :=
  match parse_text token_map expr with Ok e => Some e | Err _ => None end.

(* [crates/common/src/expr/if_block.rs:215-222] IfBlock::into_default *)
Definition into_default (b : IfBlock) : IfBlock := MkIfBlock [] (default_ b).

(** The first text constant of the default. *)
(* [crates/common/src/expr/if_block.rs:224-232] IfBlock::default_string *)
Definition default_string (b : IfBlock) : option (list Z) :=
  (fix go (l : Expression) :=
     match l with
     | [] => None
     | IConstant (CString s) :: _ => Some s
     | _ :: l => go l
     end) (default_ b).
End Compile.

(** ** Properties *)

Section Facts.
Context {Sch : Schema} {Lib : Library} {En : Env}.

(** The meaning of a setting: the value of the first condition that holds. *)
Fixpoint denot_block (l : list (Expr * Expr)) (d : Expr) : M Variable_ :=
  match l with
  | [] => denot d
  | (c, v) :: l => let* x := denot c in if to_bool x then denot v else denot_block l d
  end.

Definition context_map (ctx : ExprContext) : TokenMap := MkMap (allowed_variables ctx) (allowed_constants ctx).

(** The text of an expression, small enough for the jumps. *)
Definition text_of (m : TokenMap) (e : Expr) (s : list Z) : Prop := spells m e s /\ small (code e).

Definition match_of (m : TokenMap) (c : Expr * Expr) (t : ExprMatch) : Prop :=
  text_of m (fst c) (if_ t) /\ text_of m (snd c) (then_text t).

Lemma toks_nonempty e : toks e <> [].
Proof.
  induction e using Expr_nested_ind; cbn [toks]; try done.
  - intros E. by apply app_eq_nil in E as [_ E].
  - intros E. by apply app_eq_nil in E as [_ E].
Qed.

Lemma text_of_nonempty m e s : text_of m e s -> text_empty s = false.
Proof.
  intros [(_ & _ & texts & Hl & ->) _]. pose proof (toks_nonempty e) as Hne.
  destruct Hl as [|t s ts ss _ _]; [done|]. unfold spaced. cbn [map concat].
  destruct s; done.
Qed.

Lemma compile_matches_spelled m cs ts : Forall2 (match_of m) cs ts -> forall num,
  compile_matches m num ts = Ok (map (fun c => MkIfThen (code (fst c)) (code (snd c))) cs).
Proof.
  induction 1 as [|c t cs ts [[H1 _] [H2 _]] _ IH]; intros num; [done|].
  cbn [compile_matches map]. rewrite (parse_spelled m _ _ H1), (parse_spelled m _ _ H2), IH. done.
Qed.

Lemma eval_branches_denot cs d st :
  Forall (fun c => small (code (fst c)) /\ small (code (snd c))) cs -> small (code d) ->
  eval_branches (map (fun c => MkIfThen (code (fst c)) (code (snd c))) cs) (code d) st =
  denot_block cs d st.
Proof.
  intros H Hd. revert st. induction H as [|[c v] cs [H1 H2] _ IH]; intros st; cbn [map eval_branches denot_block].
  - by apply eval_code.
  - unfold bind. cbn [expr then_ fst snd] in *. rewrite eval_code by done.
    destruct (denot c st) as [[x|e] st']; [|done]. destruct (to_bool x); [by apply eval_code|apply IH].
Qed.

End Facts.

(** [if sender == 1 then 2 else 3], over the demonstration schema. *)
Definition demo_context : @ExprContext demo_schema :=
  MkCtx (MkSource [MkMatch s#"sender == 1 " s#"2 "] s#"3 ") None [] [].

Ltac spelled l :=
  split; [split; [vm_compute; repeat split; discriminate|split; [reflexivity|exists l; split; [|reflexivity]]]
         |reflexivity];
  cbn [toks app]; repeat (apply List.Forall2_cons); try apply List.Forall2_nil;
  first [apply (lex_integer _ 1); vm_compute; split; discriminate
        |apply (lex_integer _ 2); vm_compute; split; discriminate
        |apply (lex_integer _ 3); vm_compute; split; discriminate
        |solve [apply lex_symbol; unfold symbols; cbn [In]; repeat (first [left; reflexivity | right])]
        |apply lex_name; vm_compute; reflexivity].

