(* ===== verification/ChainedBytes.v ===== *)
(** * Chained byte slices ([crates/utils/src/chained_bytes.rs])

    Two slices read as one: the ranges of a message whose headers and body
    are stored apart. *)

From S2P Require Import Prelude.

(* [crates/utils/src/chained_bytes.rs:10-13] ChainedBytes *)
Record ChainedBytes := MkChained { first : list Z; last : list Z }.

(* [crates/utils/src/chained_bytes.rs:16-20] SliceRange *)
Inductive SliceRange :=
| Single (bytes : list Z)
| Split (first last : list Z)
| SNone.

Definition get_from (l : list Z) (start : nat) : option (list Z) := get_range l start (length l).

(* [crates/utils/src/chained_bytes.rs:23-25] ChainedBytes::new *)
Definition new (first : list Z) : ChainedBytes := MkChained first [].
(* [crates/utils/src/chained_bytes.rs:27-29] ChainedBytes::append *)
Definition append (c : ChainedBytes) (bytes : list Z) : ChainedBytes := MkChained (first c) bytes.
(* [crates/utils/src/chained_bytes.rs:31-34] ChainedBytes::with_last *)
Definition with_last (c : ChainedBytes) (bytes : list Z) : ChainedBytes := MkChained (first c) bytes.

(** [last.get(start..end - first.len())]: a reversed range wraps, and no
    slice is then that long. *)
Definition get_last (c : ChainedBytes) (start end_ : nat) : option (list Z) :=
  if (length (first c) <=? end_)%nat then get_range (last c) start (end_ - length (first c)) else None.

(* [crates/utils/src/chained_bytes.rs:59-78] ChainedBytes::get_slice_range *)
Definition get_slice_range (c : ChainedBytes) (start end_ : nat) : SliceRange :=
  let n := length (first c) in
  match get_range (first c) start end_ with
  | Some bytes => Single bytes
  | None =>
      if (n <=? start)%nat then
        match get_last c (start - n) end_ with
        | Some bytes => Single bytes
        | None => SNone
        end
      else
        match get_from (first c) start, get_last c 0 end_ with
        | Some a, Some b => Split a b
        | _, _ => SNone
        end
  end.

(* [crates/utils/src/chained_bytes.rs:113-124] SliceRange::try_into_bytes *)
Definition try_into_bytes (r : SliceRange) : option (list Z) :=
  match r with Single b => Some b | Split a b => Some (a ++ b) | SNone => None end.

(** The same cases, with the bytes copied. *)
(* [crates/utils/src/chained_bytes.rs:36-57] ChainedBytes::get *)
Definition get (c : ChainedBytes) (start end_ : nat) : option (list Z) :=
  try_into_bytes (get_slice_range c start end_).

(* [crates/utils/src/chained_bytes.rs:80-86] ChainedBytes::get_full_range *)
Definition get_full_range (c : ChainedBytes) : SliceRange :=
  match last c with [] => Single (first c) | l => Split (first c) l end.
(* [crates/utils/src/chained_bytes.rs:88-93] ChainedBytes::to_bytes *)
Definition to_bytes (c : ChainedBytes) : list Z := first c ++ last c.
(* [crates/utils/src/chained_bytes.rs:95-97] ChainedBytes::len *)
Definition chained_len (c : ChainedBytes) : nat := length (first c) + length (last c).

(* [crates/utils/src/chained_bytes.rs:105-111] SliceRange::len *)
Definition slice_len (r : SliceRange) : nat :=
  match r with Single b => length b | Split a b => length a + length b | SNone => 0 end.
(* [crates/utils/src/chained_bytes.rs:130-136] SliceRange::into_pairs *)
Definition into_pairs (r : SliceRange) : list Z * list Z :=
  match r with Single b => (b, []) | Split a b => (a, b) | SNone => ([], []) end.
(* [crates/utils/src/chained_bytes.rs:147-156] IntoIterator for SliceRange *)
Definition into_iter (r : SliceRange) : list Z := fst (into_pairs r) ++ snd (into_pairs r).

(** A range of two chained slices is the range of their concatenation,
    wherever it starts and ends, and there is none exactly where the
    concatenation has none; iterating over it gives its bytes, and its length
    is their number. *)
Theorem chained_ranges (c : ChainedBytes) (start end_ : nat) : (start <= end_)%nat ->
  get c start end_ = get_range (to_bytes c) start end_ /\
  into_iter (get_slice_range c start end_) = default [] (get_range (to_bytes c) start end_) /\
  slice_len (get_slice_range c start end_) = length (into_iter (get_slice_range c start end_)) /\
  into_iter (get_full_range c) = to_bytes c.
Proof.
  intros Hse. destruct c as [a b]. unfold get, to_bytes. cbn [first last].
  assert (try_into_bytes (get_slice_range (MkChained a b) start end_) = get_range (a ++ b) start end_) as H.
  { unfold get_slice_range, get_from, get_last. cbn [first last]. unfold get_range.
    rewrite length_app, !(proj2 (Nat.leb_le start end_)) by done. cbn [andb].
    destruct (Nat.leb_spec end_ (length a)).
    - rewrite (proj2 (Nat.leb_le end_ (length a + length b))) by lia. cbn [try_into_bytes].
      rewrite skipn_app, firstn_app, length_skipn.
      replace (end_ - start - (length a - start))%nat with 0%nat by lia. by rewrite firstn_O, app_nil_r.
    - rewrite !(proj2 (Nat.leb_le (length a) end_)) by lia.
      destruct (Nat.leb_spec (length a) start).
      + rewrite (proj2 (Nat.leb_le (start - length a) (end_ - length a))) by lia. cbn [andb].
        destruct (Nat.leb_spec (end_ - length a) (length b)).
        * rewrite (proj2 (Nat.leb_le end_ (length a + length b))) by lia. cbn [try_into_bytes].
          rewrite skipn_app, (@skipn_all2 Z start a) by lia. cbn [app]. do 2 f_equal. lia.
        * by rewrite (proj2 (Nat.leb_gt end_ (length a + length b))) by lia.
      + rewrite (proj2 (Nat.leb_le start (length a))) by lia. rewrite Nat.leb_refl.
        cbn [andb Nat.leb]. rewrite Nat.sub_0_r. cbn [skipn].
        destruct (Nat.leb_spec (end_ - length a) (length b)).
        * rewrite (proj2 (Nat.leb_le end_ (length a + length b))) by lia. cbn [try_into_bytes].
          rewrite skipn_app, firstn_app, length_skipn. replace (start - length a)%nat with 0%nat by lia.
          cbn [skipn]. f_equal. f_equal.
          -- rewrite !firstn_all2 by (rewrite length_skipn; lia). done.
          -- f_equal. lia.
        * by rewrite (proj2 (Nat.leb_gt end_ (length a + length b))) by lia. }
  assert (forall r, into_iter r = default [] (try_into_bytes r)) as Hi
    by (intros [x|x y|]; unfold into_iter; simpl; rewrite ?app_nil_r; done).
  split_and!; [done|by rewrite Hi, H| |].
  - destruct (get_slice_range _ start end_); unfold into_iter; simpl; rewrite ?length_app; simpl; lia.
  - unfold into_iter, get_full_range. cbn [first last]. destruct b; simpl; by rewrite ?app_nil_r.
Qed.

Example chained_ranges_witness :
  get (with_last (new [1; 2; 3]) [4; 5]) 2 4 = get_range [1; 2; 3; 4; 5] 2 4.
Proof. apply (chained_ranges (MkChained [1; 2; 3] [4; 5]) 2 4); lia. Defined.
