(* ===== verification/VecMap.v ===== *)
(** * Maps as vectors ([crates/utils/src/map/vec_map.rs])

    Key-value pairs in a vector that is searched from its start, for small
    maps.  Keys that are appended can repeat; a map that is only changed by
    key has each once and is a finite map.  The serde and hashing glue and
    the iterators that only borrow are not modelled. *)

From stdpp Require Import gmap.
From S2P Require Import Prelude.

Section VecMap.
Context {K : Type} `{EqDecision K} {V : Type}.

(* [crates/utils/src/map/vec_map.rs:16-24] VecMap *)
Definition VecMap : Type := list (K * V).

Definition new : VecMap := [].

(** The first value of a key, changed. *)
Fixpoint update (key : K) (f : V -> V) (m : VecMap) : option VecMap :=
  match m with
  | [] => None
  | kv :: m =>
      if decide (fst kv = key) then Some ((fst kv, f (snd kv)) :: m)
      else match update key f m with Some m => Some (kv :: m) | None => None end
  end.

(* [crates/utils/src/map/vec_map.rs:44-53] set *)
Definition set (key : K) (value : V) (m : VecMap) : VecMap * bool :=
  match update key (fun _ => value) m with
  | Some m => (m, false)
  | None => (m ++ [(key, value)], true)
  end.

(* [crates/utils/src/map/vec_map.rs:56-61] append *)
Definition append (key : K) (value : V) (m : VecMap) : VecMap := m ++ [(key, value)].

(** [Vec::insert] panics past the end. *)
(* [crates/utils/src/map/vec_map.rs:70-78] insert *)
Definition insert_at (idx : nat) (key : K) (value : V) (m : VecMap) : option VecMap :=
  if (length m <? idx)%nat then None else Some (firstn idx m ++ (key, value) :: skipn idx m).

(* [crates/utils/src/map/vec_map.rs:81-92] get *)
Fixpoint get (key : K) (m : VecMap) : option V :=
  match m with
  | [] => None
  | kv :: m => if decide (fst kv = key) then Some (snd kv) else get key m
  end.

(* [crates/utils/src/map/vec_map.rs:106-108] contains_key *)
Definition contains_key (key : K) (m : VecMap) : bool := existsb (fun kv => bool_decide (fst kv = key)) m.

(* [crates/utils/src/map/vec_map.rs:127-132] remove_entry *)
Fixpoint remove_entry (key : K) (m : VecMap) : VecMap * option (K * V) :=
  match m with
  | [] => ([], None)
  | kv :: m =>
      if decide (fst kv = key) then (m, Some kv)
      else let '(m, r) := remove_entry key m in (kv :: m, r)
  end.

(* [crates/utils/src/map/vec_map.rs:111-119] remove *)
Definition remove (key : K) (m : VecMap) : VecMap * option V :=
  let '(m, r) := remove_entry key m in (m, option_map snd r).

(* [crates/utils/src/map/vec_map.rs:122-124] remove_all *)
Definition remove_all (key : K) (m : VecMap) : VecMap := List.filter (fun kv => negb (bool_decide (fst kv = key))) m.

(** [Vec::swap_remove]: the last entry takes the place; past the end it
    panics. *)
(* [crates/utils/src/map/vec_map.rs:135-137] swap_remove *)
Definition swap_remove (index : nat) (m : VecMap) : option (VecMap * V) :=
  match nth_error m index, rev m with
  | Some kv, last :: _ =>
      let m' := removelast m in
      Some (if (index <? length m')%nat then firstn index m' ++ last :: skipn (S index) m' else m', snd kv)
  | _, _ => None
  end.

(* [crates/utils/src/map/vec_map.rs:160-168] iter_by_key *)
Definition iter_by_key (key : K) (m : VecMap) : list V :=
  omap (fun kv => if decide (fst kv = key) then Some (snd kv) else None) m.

(** The entry of a key, made when there is none, changed by [f]. *)
(* [crates/utils/src/map/vec_map.rs:209-216] get_mut_or_insert_with *)
Definition get_mut_or_insert_with (key : K) (fnc : V) (f : V -> V) (m : VecMap) : VecMap :=
  match update key f m with Some m => m | None => m ++ [(key, f fnc)] end.

(* [crates/utils/src/map/vec_map.rs:241-245] extend *)
Definition extend (l : list (K * V)) (m : VecMap) : VecMap := fold_left (fun m kv => append (fst kv) (snd kv) m) l m.

(* [crates/utils/src/map/vec_map.rs:331-341] from_iter *)
Definition from_iter (l : list (K * V)) : VecMap := extend l new.

(** ** Lemmas *)

Lemma contains_key_get key m : contains_key key m = true <-> is_Some (get key m).
Proof.
  unfold contains_key. induction m as [|[k v] m IH]; cbn; [split; [done|by intros [? [=]]]|]. destruct (decide (k = key)) as [->|Hk].
  - rewrite bool_decide_true by done. split; [by eexists|done].
  - by rewrite bool_decide_false, orb_false_l by done.
Qed.

Lemma update_spec key f m :
  match update key f m with
  | Some m' => map fst m' = map fst m /\ (exists v, get key m = Some v /\ get key m' = Some (f v)) /\
      forall k, k <> key -> get k m' = get k m
  | None => get key m = None /\ ~ In key (map fst m)
  end.
Proof.
  induction m as [|[k v] m IH]; cbn [update get map fst snd]; [split; [done|intros []]|]. destruct (decide (k = key)) as [->|Hk].
  - cbn [map fst snd get]. split_and!; [done| |].
    + exists v. by rewrite !decide_True by done.
    + intros k' Hk'. by rewrite !decide_False by done.
  - destruct (update key f m) as [m'|]; cbn [map fst snd get].
    + destruct IH as (H1 & (w & H2 & H3) & H4). split_and!; [by f_equal| |].
      * exists w. by rewrite !decide_False by done.
      * intros k' Hk'. destruct (decide (k = k')); [done|by apply H4].
    + destruct IH as [H1 H2]. split; [done|]. intros [->|H]; [done|by apply H2].
Qed.

Lemma get_app key a b : get key (a ++ b) = match get key a with Some v => Some v | None => get key b end.
Proof. induction a as [|[k v] a IH]; cbn; [done|]. by case_decide. Qed.

Lemma get_None key m : ~ In key (map fst m) -> get key m = None.
Proof.
  induction m as [|[k v] m IH]; cbn; [done|]. intros H. rewrite decide_False; [apply IH|]; intros ?; apply H; auto.
Qed.

Lemma remove_entry_spec key m : NoDup (map fst m) ->
  let m' := fst (remove_entry key m) in
  NoDup (map fst m') /\ (forall k, In k (map fst m') -> In k (map fst m) /\ k <> key) /\
  option_map snd (snd (remove_entry key m)) = get key m /\
  forall k, get k m' = if decide (k = key) then None else get k m.
Proof.
  induction m as [|[k v] m IH]; cbn [remove_entry get map fst snd]; intros Hn; [split_and!; [done..|]; intros k; by case_decide|].
  inversion Hn as [|? ? Hk Hm]; subst. rewrite list_elem_of_In in Hk. destruct (decide (k = key)) as [->|Hne].
  - cbn [fst snd]. split_and!; [done| |done|].
    + intros k' H. split; [by right|]. by intros ->.
    + intros k'. case_decide; [subst; by apply get_None|]. by rewrite decide_False.
  - destruct (IH Hm) as (H1 & H2 & H3 & H4). destruct (remove_entry key m) as [m' r]. cbn [fst snd map get] in *. split_and!.
    + constructor; [|done]. rewrite list_elem_of_In. by intros [H _]%H2.
    + intros k' [->|H]; [split; [by left|done]|]. destruct (H2 _ H). split; [by right|done].
    + done.
    + intros k'. rewrite H4. repeat case_decide; congruence.
Qed.
End VecMap.
Arguments VecMap : clear implicits.

(* [crates/utils/src/map/vec_map.rs:261-271] get_mut_or_insert *)
Definition get_mut_or_insert {K V} `{EqDecision K} (default : V) (key : K) (f : V -> V) (m : VecMap K V) : VecMap K V :=
  get_mut_or_insert_with key default f m.

(** ** Maps changed by key are finite maps *)

Section Refinement.
Context {K : Type} `{Countable K} {V : Type}.

(** The operations by key; [Change] is a change through [get_mut], [Entry]
    one through [get_mut_or_insert_with]. *)
Inductive MapOp :=
| Set_ (key : K) (value : V) | Change (key : K) (f : V -> V) | Entry (key : K) (fnc : V) (f : V -> V)
| Remove (key : K) | RemoveAll (key : K).

Definition run_op (m : VecMap K V) (op : MapOp) : VecMap K V :=
  match op with
  | Set_ key value => fst (set key value m)
  | Change key f => default m (update key f m)
  | Entry key fnc f => get_mut_or_insert_with key fnc f m
  | Remove key => fst (remove key m)
  | RemoveAll key => remove_all key m
  end.

Definition spec_op (m : gmap K V) (op : MapOp) : gmap K V :=
  match op with
  | Set_ key value => <[key := value]> m
  | Change key f => alter f key m
  | Entry key fnc f => <[key := f (default fnc (m !! key))]> m
  | Remove key | RemoveAll key => delete key m
  end.

Definition represents (m : VecMap K V) (g : gmap K V) : Prop := NoDup (map fst m) /\ forall k, get k m = g !! k.

Lemma remove_all_entry key (m : VecMap K V) : NoDup (map fst m) -> remove_all key m = fst (remove_entry key m).
Proof.
  unfold remove_all. induction m as [|[k v] m IH]; [done|]. cbn [map fst List.filter remove_entry]. intros Hn.
  inversion Hn as [|? ? Hk Hm]; subst. destruct (decide (k = key)) as [->|Hne].
  - rewrite bool_decide_true by done. cbn [negb fst]. clear IH Hn Hm. induction m as [|[k' v'] m IH]; [done|].
    cbn [map fst List.filter] in *. rewrite bool_decide_false by (intros ->; apply Hk; by left). cbn [negb].
    f_equal. apply IH. intros H'. apply Hk. by right.
  - rewrite bool_decide_false by done. cbn [negb]. rewrite IH by done. by destruct (remove_entry key m).
Qed.

Lemma represents_update m g key f : represents m g ->
  match update key f m with
  | Some m' => represents m' (alter f key g) /\ is_Some (g !! key)
  | None => g !! key = None /\ forall v, represents (m ++ [(key, v)]) (<[key := v]> g)
  end.
Proof.
  intros [Hn Hg]. pose proof (update_spec key f m) as Hu. destruct (update key f m) as [m'|].
  - destruct Hu as (H1 & (v & H2 & H3) & H4). rewrite Hg in H2. split; [|by eexists]. split; [by rewrite H1|].
    intros k. destruct (decide (k = key)) as [->|Hk]; [by rewrite lookup_alter, decide_True, H2|].
    by rewrite lookup_alter_ne, H4.
  - destruct Hu as [H1 H2]. split; [by rewrite <- Hg|]. intros v. split.
    + rewrite map_app. apply list.NoDup_app. split_and!; [done| |apply NoDup_singleton].
      intros k Hk ->%list_elem_of_singleton. by apply list_elem_of_In in Hk.
    + intros k. rewrite get_app, Hg. cbn. destruct (decide (key = k)) as [<-|Hk].
      * rewrite <- Hg, H1. by rewrite lookup_insert, decide_True.
      * rewrite lookup_insert_ne by done. by destruct (g !! k).
Qed.

Lemma represents_op m g op : represents m g -> represents (run_op m op) (spec_op g op).
Proof.
  intros Hm. destruct op as [key value|key f|key fnc f|key|key]; cbn [run_op spec_op].
  - unfold set. pose proof (represents_update m g key (fun _ => value) Hm) as Hu.
    destruct (update key _ m) as [m'|]; cbn [fst]; [|by apply Hu]. destruct Hu as [Hu [v Hv]].
    replace (<[key := value]> g) with (alter (fun _ => value) key g); [done|].
    apply map_eq. intros k. destruct (decide (key = k)) as [<-|].
    + by rewrite lookup_alter, lookup_insert, !decide_True, Hv.
    + by rewrite lookup_alter_ne, lookup_insert_ne.
  - pose proof (represents_update m g key f Hm) as Hu. destruct (update key f m) as [m'|]; cbn; [apply Hu|].
    replace (alter f key g) with g; [done|]. destruct Hu as [Hu _]. symmetry. apply map_eq. intros k.
    destruct (decide (key = k)) as [<-|]; [by rewrite lookup_alter, decide_True, Hu|by rewrite lookup_alter_ne].
  - unfold get_mut_or_insert_with. pose proof (represents_update m g key f Hm) as Hu.
    destruct (update key f m) as [m'|]; destruct Hu as [Hu Hv].
    + destruct Hv as [v Hv]. rewrite Hv. cbn. replace (<[key := f v]> g) with (alter f key g); [done|].
      apply map_eq. intros k. destruct (decide (key = k)) as [<-|].
      * by rewrite lookup_alter, lookup_insert, !decide_True, Hv.
      * by rewrite lookup_alter_ne, lookup_insert_ne.
    + rewrite Hu. apply Hv.
  - unfold remove. destruct Hm as [Hn Hg]. destruct (remove_entry_spec key m Hn) as (H1 & _ & _ & H4).
    destruct (remove_entry key m) as [m' r]. cbn [fst] in *. split; [done|]. intros k. rewrite H4, Hg, lookup_delete.
    repeat case_decide; congruence.
  - destruct Hm as [Hn Hg]. rewrite remove_all_entry by done.
    destruct (remove_entry_spec key m Hn) as (H1 & _ & _ & H4). split; [done|]. intros k. rewrite H4, Hg, lookup_delete.
    repeat case_decide; congruence.
Qed.

(** A vector map that is changed only by key, from the empty one, is a
    finite map: after any operations each key is there once, [get] and
    [contains_key] answer as the map does, and [remove] gives the value that
    the map had. *)
Theorem vec_map_refines (ops : list MapOp) (key : K) :
  let m := fold_left run_op ops new in
  let g := fold_left spec_op ops ∅ in
  NoDup (map fst m) /\ get key m = g !! key /\ contains_key key m = bool_decide (is_Some (g !! key)) /\
  snd (remove key m) = g !! key.
Proof.
  assert (forall m g, represents m g -> represents (fold_left run_op ops m) (fold_left spec_op ops g)) as Hf.
  { induction ops as [|op ops IH]; cbn [fold_left]; [done|]. intros m g Hm. by apply IH, represents_op. }
  destruct (Hf new ∅) as [H1 H2]; [split; [constructor|done]|]. cbv zeta. split_and!; [done|done| |].
  - rewrite <- H2. apply eq_true_iff_eq. by rewrite bool_decide_eq_true, contains_key_get.
  - unfold remove. destruct (remove_entry_spec key _ H1) as (_ & _ & H3 & _).
    destruct (remove_entry key _) as [m' r]. cbn [snd] in *. by rewrite H3.
Qed.
End Refinement.

(** [append] does not look: a key can be there twice, [set] changes the
    first and [remove] uncovers the second. *)
Lemma append_duplicates :
  let m := append 1 20 (append 1 10 new) in
  get 1 m = Some 10 /\ get 1 (fst (remove 1 m)) = Some 20 /\ get 1 (remove_all 1 m) = None.
Proof. done. Qed.
