(* ===== verification/ChangeLog.v ===== *)
(** * The change log ([crates/store/src/write/log.rs, query/log.rs])

    What lets clients synchronise: every commit of a batch writes, for each
    collection it touched, the items and containers that it inserted, updated
    and deleted, under a change id that grows; a query since a change id
    reads the later entries in order and folds them into one list of net
    changes.  A hash set is a [gset]; the order in which one is iterated is a
    parameter.  The entries that [Store::iterate] yields are an argument. *)

From stdpp Require Import gmap.
From S2P Require Import Prelude Utf8 Leb128 VecMap.

(** ** The writer ([write/log.rs]) *)

(* [crates/store/src/write/log.rs:31-40] Changes *)
Record Changes := MkChanges {
  item_inserts : gset Z; item_updates : gset Z; item_deletes : gset Z;
  container_inserts : gset Z; container_updates : gset Z; container_deletes : gset Z;
  container_property_changes : gset Z }.

Definition no_changes : Changes := MkChanges ∅ ∅ ∅ ∅ ∅ ∅ ∅.

(* [crates/store/src/write/log.rs:21-25] VanishedItem *)
Inductive VanishedItem := VName (name : list Z) | VId (id : Z) | VIdPair (a b : Z).

(** The collections of the two maps, by their numbers. *)
(* [crates/store/src/write/log.rs:15-18] ChangeLogBuilder *)
Record ChangeLogBuilder := MkLog { changes : VecMap Z Changes; vanished : VecMap Z (list VanishedItem) }.

(* [crates/store/src/write/log.rs:126-132] build_id *)
Definition build_id (prefix : option Z) (document_id : Z) : Z :=
  match prefix with
  | Some prefix => Z.lor (Z.shiftl prefix 32) document_id
  | None => document_id
  end.

(** The change of one collection's sets. *)
Definition item_insert (id : Z) (c : Changes) : Changes :=
  let '(MkChanges ii iu id_ ci cu cd cp) := c in
  if decide (id ∈ id_) then MkChanges ii ({[id]} ∪ iu) (id_ ∖ {[id]}) ci cu cd cp
  else MkChanges ({[id]} ∪ ii) iu id_ ci cu cd cp.
Definition item_update (id : Z) (c : Changes) : Changes :=
  let '(MkChanges ii iu id_ ci cu cd cp) := c in MkChanges ii ({[id]} ∪ iu) id_ ci cu cd cp.
Definition item_delete (id : Z) (c : Changes) : Changes :=
  let '(MkChanges ii iu id_ ci cu cd cp) := c in MkChanges ii (iu ∖ {[id]}) ({[id]} ∪ id_) ci cu cd cp.
Definition container_insert (id : Z) (c : Changes) : Changes :=
  let '(MkChanges ii iu id_ ci cu cd cp) := c in
  if decide (id ∈ cd) then MkChanges ii iu id_ ci ({[id]} ∪ cu) (cd ∖ {[id]}) cp
  else MkChanges ii iu id_ ({[id]} ∪ ci) cu cd cp.
Definition container_update (id : Z) (c : Changes) : Changes :=
  let '(MkChanges ii iu id_ ci cu cd cp) := c in MkChanges ii iu id_ ci ({[id]} ∪ cu) cd cp.
Definition container_property_update (id : Z) (c : Changes) : Changes :=
  let '(MkChanges ii iu id_ ci cu cd cp) := c in MkChanges ii iu id_ ci cu cd ({[id]} ∪ cp).
Definition container_delete (id : Z) (c : Changes) : Changes :=
  let '(MkChanges ii iu id_ ci cu cd cp) := c in
  MkChanges ii iu id_ ci (cu ∖ {[id]}) ({[id]} ∪ cd) (cp ∖ {[id]}).

Definition with_changes (collection : Z) (f : Changes -> Changes) (b : ChangeLogBuilder) : ChangeLogBuilder :=
  MkLog (get_mut_or_insert no_changes collection f (changes b)) (vanished b).

(* [crates/store/src/write/log.rs:43-50] log_container_insert *)
Definition log_container_insert (collection document_id : Z) := with_changes collection (container_insert document_id).
(* [crates/store/src/write/log.rs:52-65] log_item_insert *)
Definition log_item_insert (collection : Z) (prefix : option Z) (document_id : Z) :=
  with_changes collection (item_insert (build_id prefix document_id)).
(* [crates/store/src/write/log.rs:67-72] log_container_update *)
Definition log_container_update (collection document_id : Z) := with_changes collection (container_update document_id).
(* [crates/store/src/write/log.rs:74-79] log_container_property_update *)
Definition log_container_property_update (collection document_id : Z) :=
  with_changes collection (container_property_update document_id).
(* [crates/store/src/write/log.rs:81-91] log_item_update *)
Definition log_item_update (collection : Z) (prefix : option Z) (document_id : Z) :=
  with_changes collection (item_update (build_id prefix document_id)).
(* [crates/store/src/write/log.rs:93-99] log_container_delete *)
Definition log_container_delete (collection document_id : Z) := with_changes collection (container_delete document_id).
(* [crates/store/src/write/log.rs:101-111] log_item_delete *)
Definition log_item_delete (collection : Z) (prefix : option Z) (document_id : Z) :=
  with_changes collection (item_delete (build_id prefix document_id)).
(* [crates/store/src/write/log.rs:113-122] log_vanished_item *)
Definition log_vanished_item (collection : Z) (item : VanishedItem) (b : ChangeLogBuilder) : ChangeLogBuilder :=
  MkLog (changes b) (get_mut_or_insert [] collection (fun l => l ++ [item]) (vanished b)).

(* [crates/store/src/write/log.rs:135-140] has_container_changes *)
Definition has_container_changes (c : Changes) : bool :=
  negb (bool_decide (container_inserts c = ∅)) || negb (bool_decide (container_updates c = ∅)) ||
  negb (bool_decide (container_property_changes c = ∅)) || negb (bool_decide (container_deletes c = ∅)).
(* [crates/store/src/write/log.rs:142-146] has_item_changes *)
Definition has_item_changes (c : Changes) : bool :=
  negb (bool_decide (item_inserts c = ∅)) || negb (bool_decide (item_updates c = ∅)) ||
  negb (bool_decide (item_deletes c = ∅)).

(** Pushing integers of a type one after the other; [None]: the encoder ran
    out of its fuel. *)
Fixpoint push_all (t : int_ty) (l : list Z) (buf : list Z) : option (list Z) :=
  match l with
  | [] => Some buf
  | v :: l => match push_leb128 t buf v with Some buf => push_all t l buf | None => None end
  end.

Definition set_len (s : gset Z) : Z := Z.of_nat (size s).

Section Serialize.
Variable iter : gset Z -> list Z.

(* [crates/store/src/write/log.rs:150-188] Changes::serialize *)
Definition serialize (c : Changes) : option (list Z) :=
  match push_all t_usize [set_len (container_inserts c); set_len (container_updates c);
                          set_len (container_property_changes c); set_len (container_deletes c);
                          set_len (item_inserts c); set_len (item_updates c); set_len (item_deletes c)] [] with
  | Some buf =>
      match push_all t_u32 (iter (container_inserts c) ++ iter (container_updates c) ++
                            iter (container_property_changes c) ++ iter (container_deletes c)) buf with
      | Some buf => push_all t_u64 (iter (item_inserts c) ++ iter (item_updates c) ++ iter (item_deletes c)) buf
      | None => None
      end
  | None => None
  end.
End Serialize.

(* [crates/store/src/write/log.rs:210-215] VanishedItem::serialized_size *)
Definition serialized_size (i : VanishedItem) : Z :=
  match i with VName name => Z.of_nat (length name) + 1 | VId _ | VIdPair _ _ => 8 end.

(* [crates/store/src/write/log.rs:219-233] VanishedItems::serialize *)
Definition serialize_vanished (l : list VanishedItem) : list Z :=
  concat (map (fun i => match i with
                        | VName name => name ++ [0]
                        | VId id => be_bytes 8 id
                        | VIdPair a b => be_bytes 4 a ++ be_bytes 4 b
                        end) l).

(* [crates/store/src/write/log.rs:203-207] From<(u32, u32)> for VanishedItem *)
Definition vanished_of_pair (a b : Z) : VanishedItem := VId (Z.lor (Z.shiftl a 32) b).

(** ** The reader ([query/log.rs]) *)

(* [crates/store/src/query/log.rs:17-25] Change *)
Inductive Change :=
| InsertContainer (id : Z) | UpdateContainer (id : Z) | UpdateContainerProperty (id : Z) | DeleteContainer (id : Z)
| InsertItem (id : Z) | UpdateItem (id : Z) | DeleteItem (id : Z).

#[export] Instance change_eq_dec : EqDecision Change.
Proof. solve_decision. Defined.

(* [crates/store/src/query/log.rs:28-35] Changes *)
Record QueryChanges := MkQueryChanges {
  list_ : list Change; from_change_id : Z; to_change_id : Z;
  container_change_id : option Z; item_change_id : option Z; is_truncated : bool }.

(* [crates/store/src/query/log.rs:49-60] Changes::default *)
Definition default_changes : QueryChanges := MkQueryChanges [] 0 0 None None false.

(* [crates/store/src/query/log.rs:38-43] Query *)
Inductive Query := All | Since (change_id : Z) | SinceInclusive (change_id : Z) | RangeInclusive (from to : Z).

Definition next_u64 (it : list Z) : option (Z * list Z) :=
  match next_leb128 t_u64 it with (Some v, it) => Some (v, it) | (None, _) => None end.

(** A [for] loop over a count that reads one id in each round. *)
Fixpoint for_each (n : nat) (pos : Z) (body : Z -> Z -> list Change -> list Change) (it : list Z) (l : list Change) :
    option (list Z * list Change) :=
  match n with
  | O => Some (it, l)
  | S n =>
      match next_u64 it with
      | Some (id, it) => for_each n (pos + 1) body it (body pos id l)
      | None => None
      end
  end.

(** What the scan of an update or a delete finds: an insert of the id, at
    which it stops ([cut] is the list without it), an update, which it takes
    out ([rest]; [full] when it was not of a property only), or nothing. *)
Inductive Scan := Inserted (cut : list Change) | Updated (rest : list Change) (full : bool) | Absent.

Definition keep (c : Change) (s : Scan) : Scan :=
  match s with
  | Inserted cut => Inserted (c :: cut)
  | Updated rest full => Updated (c :: rest) full
  | Absent => Absent
  end.

Fixpoint scan (hit : Change -> option (Scan -> Scan)) (l : list Change) : Scan :=
  match l with
  | [] => Absent
  | c :: l => match hit c with Some f => f (Inserted l) | None => keep c (scan hit l) end
  end.

Definition as_update (full : bool) (s : Scan) : Scan := match s with Inserted l => Updated l full | s => s end.

(** [properties]: the scan takes out updates of properties too. *)
Definition container_hit (properties : bool) (id : Z) (c : Change) : option (Scan -> Scan) :=
  match c with
  | InsertContainer i => if i =? id then Some (fun s => s) else None
  | UpdateContainer i => if i =? id then Some (as_update true) else None
  | UpdateContainerProperty i => if properties && (i =? id) then Some (as_update false) else None
  | _ => None
  end.

(* [crates/store/src/query/log.rs:267-294] deserialize, an update of a container *)
Definition update_container (is_property_change : bool) (id : Z) (l : list Change) : list Change :=
  let new (full : bool) := if full then UpdateContainer id else UpdateContainerProperty id in
  match scan (container_hit true id) l with
  | Inserted _ => l
  | Updated rest full => rest ++ [new (full || negb is_property_change)]
  | Absent => l ++ [new (negb is_property_change)]
  end.

(* [crates/store/src/query/log.rs:301-317] deserialize, a delete of a container *)
Definition delete_container (id : Z) (l : list Change) : list Change :=
  match scan (container_hit false id) l with
  | Inserted cut => cut
  | Updated rest _ => rest ++ [DeleteContainer id]
  | Absent => l ++ [DeleteContainer id]
  end.

Definition item_hit (id : Z) (c : Change) : option (Scan -> Scan) :=
  match c with
  | InsertItem i => if i =? id then Some (fun s => s) else None
  | UpdateItem i => if i =? id then Some (as_update true) else None
  | _ => None
  end.

(* [crates/store/src/query/log.rs:331-347] deserialize, an update of an item *)
Definition update_item (id : Z) (l : list Change) : list Change :=
  match scan (item_hit id) l with
  | Inserted _ => l
  | Updated rest _ => rest ++ [UpdateItem id]
  | Absent => l ++ [UpdateItem id]
  end.

(* [crates/store/src/query/log.rs:354-370] deserialize, a delete of an item *)
Definition delete_item (id : Z) (l : list Change) : list Change :=
  match scan (item_hit id) l with
  | Inserted cut => cut
  | Updated rest _ => rest ++ [DeleteItem id]
  | Absent => l ++ [DeleteItem id]
  end.

Notation "'let!' x := m 'in' k" := (match m with Some x => k | None => None end)
  (at level 200, x pattern, k at level 200, only parsing).

(** The sums of counts are of [usize]. *)
(* [crates/store/src/query/log.rs:241-375] Changes::deserialize *)
Definition deserialize (l : list Change) (bytes : list Z) : option (list Change * (bool * bool)) :=
  let! (ci, it) := next_u64 bytes in
  let! (cu, it) := next_u64 it in
  let! (cp, it) := next_u64 it in
  let! (cd, it) := next_u64 it in
  let! (ii, it) := next_u64 it in
  let! (iu, it) := next_u64 it in
  let! (id_, it) := next_u64 it in
  let has_container := 0 <? wrap 64 (ci + cu + cp + cd) in
  let has_item := 0 <? wrap 64 (ii + iu + id_) in
  let! (it, l) := for_each (Z.to_nat ci) 0 (fun _ id l => l ++ [InsertContainer id]) it l in
  let! (it, l) := for_each (Z.to_nat (wrap 64 (cu + cp))) 0 (fun pos id l => update_container (cu <=? pos) id l) it l in
  let! (it, l) := for_each (Z.to_nat cd) 0 (fun _ id l => delete_container id l) it l in
  let! (it, l) := for_each (Z.to_nat ii) 0 (fun _ id l => l ++ [InsertItem id]) it l in
  let! (it, l) := for_each (Z.to_nat iu) 0 (fun _ id l => update_item id l) it l in
  let! (_, l) := for_each (Z.to_nat id_) 0 (fun _ id l => delete_item id l) it l in
  Some (l, (has_container, has_item)).

Definition u64_max : Z := 2 ^ 64 - 1.

(* [crates/store/src/query/log.rs:75-82] changes, the bounds of a query *)
Definition query_bounds (query : Query) : bool * Z * Z :=
  match query with
  | All => (true, 0, u64_max)
  | Since change_id => (false, change_id, u64_max)
  | SinceInclusive change_id => (true, change_id, u64_max)
  | RangeInclusive from to => (true, from, to)
  end.

(** One entry of the log: its change id and its value. *)
(* [crates/store/src/query/log.rs:98-127] changes, an entry *)
Definition read_entry (is_share_log is_inclusive : bool) (from change_id : Z) (value : list Z) (q : QueryChanges) :
    option QueryChanges :=
  if is_inclusive || negb (change_id =? from) then
    match value with
    | [] => Some (MkQueryChanges (list_ q) (from_change_id q) (to_change_id q) (container_change_id q) (item_change_id q) true)
    | _ =>
        let from_id := match list_ q with [] => change_id | _ => from_change_id q end in
        if is_share_log then
          Some (MkQueryChanges (list_ q ++ [InsertItem change_id]) from_id change_id (container_change_id q)
                  (item_change_id q) (is_truncated q))
        else
          let! (l, (has_container, has_item)) := deserialize (list_ q) value in
          Some (MkQueryChanges l from_id change_id
                  (if has_container : bool then Some change_id else container_change_id q)
                  (if has_item : bool then Some change_id else item_change_id q) (is_truncated q))
    end
  else Some (MkQueryChanges (list_ q) change_id change_id (container_change_id q) (item_change_id q) (is_truncated q)).

Fixpoint read_entries (is_share_log is_inclusive : bool) (from : Z) (entries : list (Z * list Z)) (q : QueryChanges) :
    option QueryChanges :=
  match entries with
  | [] => Some q
  | (change_id, value) :: entries =>
      let! q := read_entry is_share_log is_inclusive from change_id value q in
      read_entries is_share_log is_inclusive from entries q
  end.

(** The entries of a log that a query iterates: those within its bounds, in
    ascending order. *)
Definition iterate (query : Query) (log : list (Z * list Z)) : list (Z * list Z) :=
  let '(_, from, to) := query_bounds query in
  List.filter (fun e => (from <=? fst e) && (fst e <=? to)) log.

(** [None]: an entry does not read. *)
(* [crates/store/src/query/log.rs:63-134] Store::changes *)
Definition query_changes (is_share_log : bool) (query : Query) (log : list (Z * list Z)) : option QueryChanges :=
  let '(is_inclusive, from, _) := query_bounds query in
  read_entries is_share_log is_inclusive from (iterate query log) default_changes.

(* [crates/store/src/query/log.rs:192-225] get_last_change_id *)
Definition get_last_change_id (log : list (Z * list Z)) : option Z :=
  match rev log with [] => None | e :: _ => Some (fst e) end.

(* [crates/store/src/query/log.rs:395-402] Change::item_id *)
Definition item_id (c : Change) : option Z :=
  match c with InsertItem id | UpdateItem id | DeleteItem id => Some id | _ => None end.
(* [crates/store/src/query/log.rs:404-412] Change::container_id *)
Definition container_id (c : Change) : option Z :=
  match c with
  | InsertContainer id | UpdateContainer id | UpdateContainerProperty id | DeleteContainer id => Some id
  | _ => None
  end.
(* [crates/store/src/query/log.rs:433-441] Change::is_container_change *)
Definition is_container_change (c : Change) : bool := match container_id c with Some _ => true | None => false end.
(* [crates/store/src/query/log.rs:443-448] Change::is_item_change *)
Definition is_item_change (c : Change) : bool := match item_id c with Some _ => true | None => false end.
(* [crates/store/src/query/log.rs:379-384] total_container_changes *)
Definition total_container_changes (l : list Change) : Z := Z.of_nat (length (List.filter is_container_change l)).
(* [crates/store/src/query/log.rs:386-391] total_item_changes *)
Definition total_item_changes (l : list Change) : Z := Z.of_nat (length (List.filter is_item_change l)).

(** *** Vanished items *)

Definition take_bytes (n : nat) (it : list Z) : option (list Z * list Z) :=
  if (length it <? n)%nat then None else Some (firstn n it, skipn n it).

(* [crates/store/src/query/log.rs:452-458] deserialize_vanished for u64 *)
Definition vanished_u64 (it : list Z) : option (Z * list Z) :=
  let! (b, it) := take_bytes 8 it in Some (of_be_bytes b, it).
(* [crates/store/src/query/log.rs:462-469] deserialize_vanished for (u32, u32) *)
Definition vanished_pair (it : list Z) : option (Z * Z * list Z) :=
  let! (b, it) := take_bytes 8 it in Some (of_be_bytes (firstn 4 b), of_be_bytes (skipn 4 b), it).

Fixpoint until_zero (it : list Z) : option (list Z * list Z) :=
  match it with
  | [] => None
  | b :: it => if b =? 0 then Some ([], it) else let! (l, it) := until_zero it in Some (b :: l, it)
  end.
(* [crates/store/src/query/log.rs:473-486] deserialize_vanished for String *)
Definition vanished_name (it : list Z) : option (list Z * list Z) :=
  let! (name, it) := until_zero it in if valid name then Some (name, it) else None.

(** [while iter.peek().is_some()]: an item takes a byte at least. *)
(* [crates/store/src/query/log.rs:169-181] vanished, a value *)
Fixpoint read_vanished {T} (fuel : nat) (deserialize_vanished : list Z -> option (T * list Z)) (it : list Z) : option (list T) :=
  match it, fuel with
  | [], _ => Some []
  | _, O => None
  | _, S fuel =>
      let! (item, it) := deserialize_vanished it in
      let! l := read_vanished fuel deserialize_vanished it in Some (item :: l)
  end.

(* [crates/store/src/query/log.rs:136-190] Store::vanished *)
Definition query_vanished {T} (deserialize_vanished : list Z -> option (T * list Z)) (query : Query)
    (log : list (Z * list Z)) : option (list T) :=
  let '(is_inclusive, from, _) := query_bounds query in
  fold_left (fun acc e =>
      let! l := acc in
      if is_inclusive || negb (fst e =? from) then
        let! l' := read_vanished (length (snd e)) deserialize_vanished (snd e) in Some (l ++ l')
      else Some l)
    (iterate query log) (Some []).

(** ** Reading back what was written *)

(** The bytes of an integer: [push_leb128] of every type writes them and
    [next_leb128] of [u64] reads them. *)
Definition enc (v : Z) : list Z := groups 10 v.

Lemma push_enc t buf v : In t [t_u32; t_u64; t_usize] -> in_width 64 v -> push_leb128 t buf v = Some (buf ++ enc v).
Proof.
  intros Ht Hv. unfold push_leb128, enc. destruct Hv as [H0 Hv].
  assert (v < 128 ^ Z.of_nat 10) as H10 by (change (128 ^ Z.of_nat 10) with (2 ^ 70); lia).
  assert (10 <= fuel_of t)%nat as Hf by (destruct Ht as [<-|[<-|[<-|[]]]]; apply Nat.leb_le; reflexivity).
  rewrite to_leb128_groups; [by rewrite (groups_fuel 10 (fuel_of t)) by (done || lia)|done| |lia].
  eapply Z.lt_le_trans; [exact H10|]. apply Z.pow_le_mono_r; lia.
Qed.

Lemma next_enc v rest : in_width 64 v -> next_u64 (enc v ++ rest) = Some (v, rest).
Proof.
  intros [H0 Hv]. unfold next_u64, next_leb128, enc.
  assert (from_leb128_bytes_pos (bits t_u64) (shifts t_u64) (groups 10 v ++ rest) 0 0 =
    Some (v, Z.of_nat (length (groups 10 v)))) as E.
  { change (shifts t_u64) with (shifts_from 0 10). rewrite decode_groups with (n := 10%nat); try lia.
    - by rewrite Z.pow_0_r, Z.mul_1_r, Z.add_0_l.
    - done.
    - rewrite Z.pow_0_r, Z.mul_1_r. exact Hv. }
  rewrite (from_it_pos _ _ _ _ _ _ _ E), Z.sub_0_r, Nat2Z.id. by rewrite drop_app_length.
Qed.

Definition encs (l : list Z) : list Z := concat (map enc l).

Lemma push_all_encs t l : In t [t_u32; t_u64; t_usize] -> Forall (in_width 64) l ->
  forall buf, push_all t l buf = Some (buf ++ encs l).
Proof.
  intros Ht. induction 1 as [|v l Hv _ IH]; intros buf; cbn [push_all encs]; [by rewrite app_nil_r|].
  rewrite push_enc by done. rewrite IH. unfold encs. cbn. by rewrite <- app_assoc.
Qed.

Lemma for_each_app n m pos body it l : for_each (n + m) pos body it l =
  let! (it, l) := for_each n pos body it l in for_each m (pos + Z.of_nat n) body it l.
Proof.
  revert pos it l. induction n as [|n IH]; intros pos it l; cbn [for_each Nat.add]; [by rewrite Z.add_0_r|].
  destruct (next_u64 it) as [[id it']|]; [|done]. rewrite IH. destruct (for_each n _ _ _ _) as [[it2 l2]|]; [|done].
  f_equal. lia.
Qed.

Definition fold (f : Z -> list Change -> list Change) (ids : list Z) (l : list Change) : list Change :=
  fold_left (fun l id => f id l) ids l.

Lemma for_each_encs f body ids : Forall (in_width 64) ids -> forall pos rest l,
  (forall p, pos <= p < pos + Z.of_nat (length ids) -> forall id l, body p id l = f id l) ->
  for_each (length ids) pos body (encs ids ++ rest) l = Some (rest, fold f ids l).
Proof.
  induction 1 as [|id ids Hid _ IH]; intros pos rest l Hb; cbn [length for_each]; [done|].
  unfold encs. cbn [map concat]. rewrite <- app_assoc, next_enc by done. rewrite Hb by (cbn [length]; lia).
  apply IH. intros p Hp. apply Hb. cbn [length]. lia.
Qed.

Section Read.
(** Hash sets are iterated in any order. *)
Variable iter : gset Z -> list Z.
Hypothesis iter_elements : forall s, Permutation (iter s) (elements s).

Lemma iter_length s : Z.of_nat (length (iter s)) = set_len s.
Proof. unfold set_len. by rewrite (iter_elements s). Qed.
Lemma iter_in s id : In id (iter s) <-> id ∈ s.
Proof. rewrite <- list_elem_of_In, (iter_elements s). apply elem_of_elements. Qed.
Lemma iter_nodup s : NoDup (iter s).
Proof. rewrite (iter_elements s). apply NoDup_elements. Qed.
Lemma iter_width w s : (forall id, id ∈ s -> in_width w id) -> w <= 64 -> Forall (in_width 64) (iter s).
Proof.
  intros H Hw. apply List.Forall_forall. intros id Hid. apply iter_in, H in Hid. unfold in_width in *.
  pose proof (Z.pow_le_mono_r 2 w 64). lia.
Qed.

(** Identifiers of their types, and sets that fit in memory. *)
Definition changes_ok (c : Changes) : Prop :=
  (forall id, id ∈ item_inserts c ∪ item_updates c ∪ item_deletes c -> in_width 64 id) /\
  (forall id, id ∈ container_inserts c ∪ container_updates c ∪ container_deletes c ∪ container_property_changes c ->
     in_width 32 id) /\
  set_len (item_inserts c) + set_len (item_updates c) + set_len (item_deletes c) < 2 ^ 64 /\
  set_len (container_inserts c) + set_len (container_updates c) + set_len (container_property_changes c) +
    set_len (container_deletes c) < 2 ^ 64.

(** The changes of one entry, applied to a list of net changes. *)
Definition apply_containers (c : Changes) (l : list Change) : list Change :=
  fold delete_container (iter (container_deletes c))
    (fold (update_container true) (iter (container_property_changes c))
      (fold (update_container false) (iter (container_updates c))
        (fold (fun id l => l ++ [InsertContainer id]) (iter (container_inserts c)) l))).
Definition apply_items (c : Changes) (l : list Change) : list Change :=
  fold delete_item (iter (item_deletes c))
    (fold update_item (iter (item_updates c))
      (fold (fun id l => l ++ [InsertItem id]) (iter (item_inserts c)) l)).

Lemma set_len_empty (s : gset Z) : bool_decide (s = ∅) = (set_len s =? 0).
Proof.
  apply eq_true_iff_eq. rewrite bool_decide_eq_true, Z.eqb_eq. unfold set_len.
  split; [intros ->; by rewrite size_empty|intros H; apply leibniz_equiv, size_empty_iff; lia].
Qed.

Lemma set_len_nonneg s : 0 <= set_len s.
Proof. unfold set_len. lia. Qed.

Lemma has_changes_counts c : changes_ok c ->
  (0 <? wrap 64 (set_len (container_inserts c) + set_len (container_updates c) +
     set_len (container_property_changes c) + set_len (container_deletes c))) = has_container_changes c /\
  (0 <? wrap 64 (set_len (item_inserts c) + set_len (item_updates c) + set_len (item_deletes c))) = has_item_changes c.
Proof.
  intros (_ & _ & Hi & Hc). unfold has_container_changes, has_item_changes. rewrite !set_len_empty.
  pose proof (set_len_nonneg (item_inserts c)). pose proof (set_len_nonneg (item_updates c)).
  pose proof (set_len_nonneg (item_deletes c)). pose proof (set_len_nonneg (container_inserts c)).
  pose proof (set_len_nonneg (container_updates c)). pose proof (set_len_nonneg (container_property_changes c)).
  pose proof (set_len_nonneg (container_deletes c)).
  rewrite !wrap_small by (unfold in_width; lia).
  split; apply eq_true_iff_eq; rewrite Z.ltb_lt, ?orb_true_iff, ?negb_true_iff, ?Z.eqb_neq; lia.
Qed.

Lemma serialize_bytes c : changes_ok c ->
  serialize iter c = Some (encs [set_len (container_inserts c); set_len (container_updates c);
     set_len (container_property_changes c); set_len (container_deletes c);
     set_len (item_inserts c); set_len (item_updates c); set_len (item_deletes c)] ++
   encs (iter (container_inserts c) ++ iter (container_updates c) ++ iter (container_property_changes c) ++
         iter (container_deletes c)) ++
   encs (iter (item_inserts c) ++ iter (item_updates c) ++ iter (item_deletes c))).
Proof.
  intros (Hi & Hc & Hsi & Hsc). unfold serialize.
  rewrite push_all_encs by (cbn; auto; repeat constructor; unfold in_width, set_len in *; lia).
  rewrite push_all_encs; [|cbn; auto|rewrite !Forall_app; split_and!; (apply (iter_width 32); [set_solver|done])].
  rewrite push_all_encs; [|cbn; auto|rewrite !Forall_app; split_and!; (apply (iter_width 64); [set_solver|done])].
  by rewrite <- app_assoc.
Qed.

Lemma encs_app a b : encs (a ++ b) = encs a ++ encs b.
Proof. unfold encs. by rewrite map_app, concat_app. Qed.

(** One entry read after any others: the loops take the sets in turn. *)
Lemma deserialize_serialize c l bytes : changes_ok c -> serialize iter c = Some bytes ->
  deserialize l bytes = Some (apply_items c (apply_containers c l), (has_container_changes c, has_item_changes c)).
Proof.
  intros Hok. rewrite (serialize_bytes c Hok). intros <-%(inj Some).
  destruct (has_changes_counts c Hok) as [Hhc Hhi]. destruct Hok as (Hi & Hc & Hsi & Hsc).
  assert (forall s, set_len s < 2 ^ 64 -> in_width 64 (set_len s)) as Hw
    by (intros s Hs; pose proof (set_len_nonneg s); unfold in_width; lia).
  pose proof (set_len_nonneg (item_inserts c)). pose proof (set_len_nonneg (item_updates c)).
  pose proof (set_len_nonneg (item_deletes c)). pose proof (set_len_nonneg (container_inserts c)).
  pose proof (set_len_nonneg (container_updates c)). pose proof (set_len_nonneg (container_property_changes c)).
  pose proof (set_len_nonneg (container_deletes c)).
  unfold deserialize. unfold encs at 1. cbn [map concat]. rewrite <- !app_assoc, app_nil_l, !encs_app, <- !app_assoc.
  do 7 (rewrite next_enc by (apply Hw; lia)). cbv iota.
  assert (forall w s, (forall id, id ∈ s -> in_width w id) -> w <= 64 -> Forall (in_width 64) (iter s)) as Hf by apply iter_width.
  assert (forall s, Z.to_nat (set_len s) = length (iter s)) as Hn by (intros s; rewrite <- iter_length; lia).
  rewrite !Hn. erewrite (for_each_encs (fun id l => l ++ [InsertContainer id]));
    [|apply (Hf 32); [set_solver|done]|done].
  rewrite wrap_small by (unfold in_width; lia).
  replace (Z.to_nat (set_len (container_updates c) + set_len (container_property_changes c)))
    with (length (iter (container_updates c)) + length (iter (container_property_changes c)))%nat
    by (rewrite <- !Hn; lia).
  rewrite for_each_app.
  rewrite (for_each_encs (update_container false));
    [|apply (Hf 32); [set_solver|done]|intros p Hp id l'; f_equal; rewrite iter_length in Hp; lia].
  rewrite (for_each_encs (update_container true));
    [|apply (Hf 32); [set_solver|done]|intros p Hp id l'; f_equal; rewrite !iter_length in Hp; lia].
  rewrite (for_each_encs delete_container); [|apply (Hf 32); [set_solver|done]|done].
  rewrite (for_each_encs (fun id l => l ++ [InsertItem id])); [|apply (Hf 64); [set_solver|done]|done].
  rewrite (for_each_encs update_item); [|apply (Hf 64); [set_solver|done]|done].
  rewrite <- (app_nil_r (encs (iter (item_deletes c)))).
  rewrite (for_each_encs delete_item); [|apply (Hf 64); [set_solver|done]|done].
  by rewrite Hhc, Hhi.
Qed.

(** ** The changes of one item, or one container *)

(** The part of a list that a predicate selects. *)
Definition view (p : Change -> bool) (l : list Change) : list Change := List.filter p l.
Definition of_item (id : Z) (c : Change) : bool := bool_decide (item_id c = Some id).
Definition of_container (id : Z) (c : Change) : bool := bool_decide (container_id c = Some id).

Lemma scan_other p hit l : (forall c, p c = true -> hit c = None) ->
  (forall c f, hit c = Some f -> f = (fun s => s) \/ exists b, f = as_update b) ->
  match scan hit l with Inserted a | Updated a _ => view p a = view p l | Absent => True end.
Proof.
  intros Hp Hf. induction l as [|c l IH]; cbn [scan]; [done|]. destruct (hit c) as [f|] eqn:E.
  - assert (p c = false) as Hc by (destruct (p c) eqn:Ep; [by rewrite (Hp c Ep) in E|done]).
    destruct (Hf _ _ E) as [->|[b ->]]; cbn; by rewrite Hc.
  - destruct (scan hit l) as [a|a b|]; cbn; [| |done]; unfold view in *; by rewrite IH.
Qed.

Lemma scan_view p hit l : (forall c, p c = false -> hit c = None) ->
  (forall c f, hit c = Some f -> f = (fun s => s) \/ exists b, f = as_update b) ->
  match scan hit l with
  | Inserted a => scan hit (view p l) = Inserted (view p a)
  | Updated a b => scan hit (view p l) = Updated (view p a) b
  | Absent => scan hit (view p l) = Absent
  end.
Proof.
  intros Hp Hf. induction l as [|c l IH]; cbn [scan view List.filter]; [done|]. destruct (hit c) as [f|] eqn:E.
  - assert (p c = true) as Hc by (destruct (p c) eqn:Ep; [done|by rewrite (Hp c Ep) in E]).
    rewrite Hc. cbn [scan]. rewrite E. by destruct (Hf _ _ E) as [->|[b ->]].
  - destruct (p c) eqn:Ec; cbn [scan]; rewrite ?E.
    + destruct (scan hit l) as [a|a b|]; cbn [keep view List.filter]; rewrite ?Ec; unfold view in *; by rewrite IH.
    + destruct (scan hit l) as [a|a b|]; cbn [keep view List.filter]; rewrite ?Ec; exact IH.
Qed.

Lemma item_hit_form id c f : item_hit id c = Some f -> f = (fun s => s) \/ exists b, f = as_update b.
Proof. destruct c; cbn; try done; case_if; intros [= <-]; eauto. Qed.
Lemma container_hit_form b id c f : container_hit b id c = Some f -> f = (fun s => s) \/ exists b, f = as_update b.
Proof. destruct c; cbn; try done; case_if; intros [= <-]; eauto. Qed.

(** A step of [id'] on the view of [id]. *)
Class ViewStep (p : Z -> Change -> bool) (f : Z -> list Change -> list Change) : Prop := {
  view_same id l : view (p id) (f id l) = f id (view (p id) l);
  view_other id id' l : id' <> id -> view (p id) (f id' l) = view (p id) l }.

Lemma view_app p a b : view p (a ++ b) = view p a ++ view p b.
Proof. apply List.filter_app. Qed.

(** A step that scans and pushes, as the four of them do. *)
Lemma scan_step (p : Z -> Change -> bool) (hit : Z -> Change -> option (Scan -> Scan))
    (found : Z -> list Change -> list Change -> list Change) (full : Z -> bool -> Change) (none : Z -> Change) :
  (forall id c f, hit id c = Some f -> p id c = true /\ (forall id', id' <> id -> p id' c = false) /\
     (f = (fun s => s) \/ exists b, f = as_update b)) ->
  (forall id b, p id (full id b) = true /\ p id (none id) = true) ->
  (forall id id' b, id' <> id -> p id' (full id b) = false /\ p id' (none id) = false) ->
  (forall id l a q, view q (found id l a) = found id (view q l) (view q a)) ->
  (forall id id' l a, id' <> id -> view (p id') a = view (p id') l -> view (p id') (found id l a) = view (p id') l) ->
  ViewStep p (fun id l =>
    match scan (hit id) l with
    | Inserted a => found id l a
    | Updated rest b => rest ++ [full id b]
    | Absent => l ++ [none id]
    end).
Proof.
  intros Hh Hp Ho Hf Hf'. split.
  - intros id l. pose proof (scan_view (p id) (hit id) l) as Hs.
    lapply Hs; [clear Hs; intros Hs|intros c Hc; destruct (hit id c) eqn:E; [apply Hh in E as [E _]; congruence|done]].
    lapply Hs; [clear Hs; intros Hs|intros c f E; by apply Hh in E as (_ & _ & E)].
    destruct (Hp id true) as [_ Hn].
    destruct (scan (hit id) l) as [a|a b|]; rewrite Hs; rewrite ?view_app, ?Hf; cbn [view List.filter];
      rewrite ?Hn, ?(proj1 (Hp id b)); done.
  - intros id id' l Hne. pose proof (scan_other (p id) (hit id') l) as Hs.
    lapply Hs; [clear Hs; intros Hs|intros c Hc; destruct (hit id' c) eqn:E; [apply Hh in E as (_ & E & _); rewrite E in Hc by done; done|done]].
    lapply Hs; [clear Hs; intros Hs|intros c f E; by apply Hh in E as (_ & _ & E)].
    destruct (Ho id' id true ltac:(done)) as [_ Hn].
    destruct (scan (hit id') l) as [a|a b|].
    + by apply Hf'.
    + rewrite view_app, Hs. cbn [view List.filter]. rewrite (proj1 (Ho id' id b ltac:(done))). by rewrite app_nil_r.
    + rewrite view_app. cbn [view List.filter]. by rewrite Hn, app_nil_r.
Qed.

Ltac view_solve := unfold of_item, of_container; cbn; intros;
  repeat (case_if || case_bool_decide); naive_solver.

#[local] Instance insert_item_view : ViewStep of_item (fun id l => l ++ [InsertItem id]).
Proof. split; intros; rewrite view_app; unfold of_item; cbn; [by rewrite bool_decide_true|rewrite bool_decide_false by congruence; apply app_nil_r]. Qed.
#[local] Instance insert_container_view : ViewStep of_container (fun id l => l ++ [InsertContainer id]).
Proof. split; intros; rewrite view_app; unfold of_container; cbn; [by rewrite bool_decide_true|rewrite bool_decide_false by congruence; apply app_nil_r]. Qed.

Lemma item_hit_id id c f : item_hit id c = Some f -> item_id c = Some id /\ container_id c = None.
Proof. destruct c; cbn; try done; case_if; try done; intros _; split; f_equal; lia. Qed.
Lemma container_hit_id b id c f : container_hit b id c = Some f -> container_id c = Some id /\ item_id c = None.
Proof. destruct c; cbn; try done; case_if; try done; intros _; split; f_equal; lia. Qed.

Lemma of_item_hit id c f : item_hit id c = Some f -> of_item id c = true /\
  (forall id', id' <> id -> of_item id' c = false) /\ (f = (fun s => s) \/ exists b, f = as_update b).
Proof.
  intros E. split_and!; [| |by eapply item_hit_form]; apply item_hit_id in E as [E _]; unfold of_item; rewrite E;
    [by apply bool_decide_true|intros id' H; apply bool_decide_false; congruence].
Qed.
Lemma of_container_hit b id c f : container_hit b id c = Some f -> of_container id c = true /\
  (forall id', id' <> id -> of_container id' c = false) /\ (f = (fun s => s) \/ exists b, f = as_update b).
Proof.
  intros E. split_and!; [| |by eapply container_hit_form]; apply container_hit_id in E as [E _]; unfold of_container; rewrite E;
    [by apply bool_decide_true|intros id' H; apply bool_decide_false; congruence].
Qed.

#[local] Instance update_item_view : ViewStep of_item update_item.
Proof.
  apply (scan_step of_item item_hit (fun _ l _ => l) (fun id _ => UpdateItem id) UpdateItem);
    [apply of_item_hit|..]; try done; view_solve.
Qed.
#[local] Instance delete_item_view : ViewStep of_item delete_item.
Proof.
  apply (scan_step of_item item_hit (fun _ _ a => a) (fun id _ => DeleteItem id) DeleteItem);
    [apply of_item_hit|..]; try done; view_solve.
Qed.
#[local] Instance update_container_view b : ViewStep of_container (update_container b).
Proof.
  apply (scan_step of_container (container_hit true) (fun _ l _ => l)
    (fun id full => if full || negb b then UpdateContainer id else UpdateContainerProperty id)
    (fun id => if negb b then UpdateContainer id else UpdateContainerProperty id));
    [apply of_container_hit|..]; try done; [intros id c|intros id id' c H]; destruct b, c; view_solve.
Qed.
#[local] Instance delete_container_view : ViewStep of_container delete_container.
Proof.
  apply (scan_step of_container (container_hit false) (fun _ _ a => a) (fun id _ => DeleteContainer id) DeleteContainer);
    [apply of_container_hit|..]; try done; view_solve.
Qed.

Lemma fold_view p f `{!ViewStep p f} ids id l : NoDup ids ->
  view (p id) (fold f ids l) = if decide (id ∈ ids) then f id (view (p id) l) else view (p id) l.
Proof.
  revert l. induction ids as [|i ids IH]; intros l Hn; [done|]. apply list.NoDup_cons in Hn as [Hi Hn].
  unfold fold in *. cbn [fold_left]. rewrite IH by done. destruct (decide (i = id)) as [->|Hne].
  - rewrite view_same. rewrite decide_False by done. rewrite decide_True; [done|by left].
  - rewrite (view_other (p:=p) id i) by done. repeat case_decide; try done; set_solver.
Qed.

Lemma fold_set p f `{!ViewStep p f} s id l :
  view (p id) (fold f (iter s) l) = if decide (id ∈ s) then f id (view (p id) l) else view (p id) l.
Proof.
  rewrite fold_view; [|done|apply iter_nodup].
  destruct (decide (id ∈ iter s)) as [H|H]; rewrite list_elem_of_In, iter_in in H; [by rewrite decide_True|by rewrite decide_False].
Qed.

(** Steps on items do not touch containers, and the other way round. *)
Class ViewKeeps (p : Change -> bool) (f : Z -> list Change -> list Change) : Prop :=
  view_keeps : forall id l, view p (f id l) = view p l.

Lemma fold_keeps p f `{!ViewKeeps p f} ids l : view p (fold f ids l) = view p l.
Proof.
  revert l. induction ids as [|i ids IH]; intros l; [done|]. unfold fold in *. cbn [fold_left]. by rewrite IH, view_keeps.
Qed.

#[local] Instance insert_item_keeps id : ViewKeeps (of_container id) (fun id l => l ++ [InsertItem id]).
Proof. intros i l. rewrite view_app. unfold of_container. cbn. apply app_nil_r. Qed.
#[local] Instance insert_container_keeps id : ViewKeeps (of_item id) (fun id l => l ++ [InsertContainer id]).
Proof. intros i l. rewrite view_app. unfold of_item. cbn. apply app_nil_r. Qed.

Lemma scan_keeps p (hit : Z -> Change -> option (Scan -> Scan))
    (found : Z -> list Change -> list Change -> list Change) (full : Z -> bool -> Change) (none : Z -> Change) :
  (forall id c f, hit id c = Some f -> p c = false /\ (f = (fun s => s) \/ exists b, f = as_update b)) ->
  (forall id b, p (full id b) = false /\ p (none id) = false) ->
  (forall id l a, view p a = view p l -> view p (found id l a) = view p l) ->
  ViewKeeps p (fun id l =>
    match scan (hit id) l with
    | Inserted a => found id l a
    | Updated rest b => rest ++ [full id b]
    | Absent => l ++ [none id]
    end).
Proof.
  intros Hh Hn Hf id l. pose proof (scan_other p (hit id) l) as Hs.
  lapply Hs; [clear Hs; intros Hs|intros c Hc; destruct (hit id c) eqn:E; [apply Hh in E as [E _]; congruence|done]].
  lapply Hs; [clear Hs; intros Hs|intros c f E; by apply Hh in E as [_ E]].
  destruct (scan (hit id) l) as [a|a b|]; [by apply Hf|rewrite view_app, Hs|rewrite view_app];
    cbn [view List.filter]; rewrite ?(proj1 (Hn id b)), ?(proj2 (Hn id true)); apply app_nil_r.
Qed.

Lemma item_hit_container id i c f : item_hit i c = Some f ->
  of_container id c = false /\ (f = (fun s => s) \/ exists b, f = as_update b).
Proof. intros E. split; [|by eapply item_hit_form]. apply item_hit_id in E as [_ E]. unfold of_container. by rewrite E. Qed.
Lemma container_hit_item id b i c f : container_hit b i c = Some f ->
  of_item id c = false /\ (f = (fun s => s) \/ exists b, f = as_update b).
Proof. intros E. split; [|by eapply container_hit_form]. apply container_hit_id in E as [_ E]. unfold of_item. by rewrite E. Qed.

#[local] Instance update_item_keeps id : ViewKeeps (of_container id) update_item.
Proof.
  apply (scan_keeps _ item_hit (fun _ l _ => l) (fun id _ => UpdateItem id) UpdateItem); [apply item_hit_container|done..].
Qed.
#[local] Instance delete_item_keeps id : ViewKeeps (of_container id) delete_item.
Proof.
  apply (scan_keeps _ item_hit (fun _ _ a => a) (fun id _ => DeleteItem id) DeleteItem); [apply item_hit_container|done..].
Qed.
#[local] Instance update_container_keeps b id : ViewKeeps (of_item id) (update_container b).
Proof.
  apply (scan_keeps _ (container_hit true) (fun _ l _ => l)
    (fun id full => if full || negb b then UpdateContainer id else UpdateContainerProperty id)
    (fun id => if negb b then UpdateContainer id else UpdateContainerProperty id));
    [apply container_hit_item| |done]. by intros i [|]; destruct b.
Qed.
#[local] Instance delete_container_keeps id : ViewKeeps (of_item id) delete_container.
Proof.
  apply (scan_keeps _ (container_hit false) (fun _ _ a => a) (fun id _ => DeleteContainer id) DeleteContainer);
    [apply container_hit_item|done..].
Qed.

(** What an entry does to the changes of one item, and of one container. *)
Definition item_step (id : Z) (c : Changes) (l : list Change) : list Change :=
  let l := if decide (id ∈ item_inserts c) then l ++ [InsertItem id] else l in
  let l := if decide (id ∈ item_updates c) then update_item id l else l in
  if decide (id ∈ item_deletes c) then delete_item id l else l.
Definition container_step (id : Z) (c : Changes) (l : list Change) : list Change :=
  let l := if decide (id ∈ container_inserts c) then l ++ [InsertContainer id] else l in
  let l := if decide (id ∈ container_updates c) then update_container false id l else l in
  let l := if decide (id ∈ container_property_changes c) then update_container true id l else l in
  if decide (id ∈ container_deletes c) then delete_container id l else l.

Lemma apply_item_view id c l :
  view (of_item id) (apply_items c (apply_containers c l)) = item_step id c (view (of_item id) l).
Proof.
  unfold apply_items, apply_containers, item_step. rewrite !(fold_set of_item) by apply _.
  rewrite !fold_keeps by apply _. done.
Qed.

Lemma apply_container_view id c l :
  view (of_container id) (apply_items c (apply_containers c l)) = container_step id c (view (of_container id) l).
Proof.
  unfold apply_items, apply_containers, container_step. rewrite !fold_keeps by apply _.
  rewrite !(fold_set of_container) by apply _. done.
Qed.
End Read.

(** ** Histories *)

Inductive Action := Ins | Upd | Del.
Inductive ContainerAction := CIns | CUpd | CProp | CDel.

(** A call of the log's builder. *)
Inductive LogOp :=
| LogItem (a : Action) (collection : Z) (prefix : option Z) (document_id : Z)
| LogContainer (a : ContainerAction) (collection document_id : Z)
| LogVanished (collection : Z) (item : VanishedItem).

Definition run_log (b : ChangeLogBuilder) (op : LogOp) : ChangeLogBuilder :=
  match op with
  | LogItem Ins c p d => log_item_insert c p d b
  | LogItem Upd c p d => log_item_update c p d b
  | LogItem Del c p d => log_item_delete c p d b
  | LogContainer CIns c d => log_container_insert c d b
  | LogContainer CUpd c d => log_container_update c d b
  | LogContainer CProp c d => log_container_property_update c d b
  | LogContainer CDel c d => log_container_delete c d b
  | LogVanished c i => log_vanished_item c i b
  end.

Definition commit (ops : list LogOp) : ChangeLogBuilder := fold_left run_log ops (MkLog [] []).

(** The changes of a collection in a commit. *)
Definition commit_changes (collection : Z) (ops : list LogOp) : option Changes := get collection (changes (commit ops)).

(** What is done to one item. *)
Definition acts (collection id : Z) (ops : list LogOp) : list Action :=
  omap (fun op => match op with
                  | LogItem a c p d => if (c =? collection) && (build_id p d =? id) then Some a else None
                  | _ => None
                  end) ops.

(** Whether the item is there after actions, [None] when one of them makes
    no sense: an insert of what is there, an update or a delete of what is
    not. *)
Fixpoint presence (b : bool) (l : list Action) : option bool :=
  match l with
  | [] => Some b
  | a :: l =>
      match a, b with
      | Ins, false => presence true l
      | Upd, true => presence true l
      | Del, true => presence false l
      | _, _ => None
      end
  end.

(** Whether the item was gone at the end of some commit. *)
Fixpoint gone (b : bool) (commits : list (list Action)) : bool :=
  match commits with
  | [] => false
  | l :: commits => let b := default false (presence b l) in negb b || gone b commits
  end.

(** What a client that last saw the item as [b0] is to be told when it is
    now [b]. *)
Definition net (id : Z) (b0 b touched was_gone : bool) : list Change :=
  match b0, b with
  | false, false => []
  | false, true => [InsertItem id]
  | true, false => [DeleteItem id]
  | true, true => if was_gone then [DeleteItem id; InsertItem id] else if touched then [UpdateItem id] else []
  end.

(** *** One commit *)

(** The three sets of an item in a commit. *)
Definition act_step (s : bool * bool * bool) (a : Action) : bool * bool * bool :=
  let '(i, u, d) := s in
  match a with
  | Ins => if d : bool then (i, true, false) else (true, u, d)
  | Upd => (i, true, d)
  | Del => (i, false, true)
  end.
Definition act_sets (l : list Action) : bool * bool * bool := fold_left act_step l (false, false, false).

Definition sets_of (id : Z) (c : Changes) : bool * bool * bool :=
  (bool_decide (id ∈ item_inserts c), bool_decide (id ∈ item_updates c), bool_decide (id ∈ item_deletes c)).

Definition act_changes (a : Action) : Z -> Changes -> Changes :=
  match a with Ins => item_insert | Upd => item_update | Del => item_delete end.

Lemma sets_of_act a id id' c :
  sets_of id (act_changes a id' c) = if id' =? id then act_step (sets_of id c) a else sets_of id c.
Proof.
  destruct c as [ii iu id_ ci cu cd cp]. unfold sets_of, act_changes, item_insert, item_update, item_delete.
  destruct (Z.eqb_spec id' id) as [->|Hne]; destruct a; cbn; repeat case_decide; cbn; repeat case_bool_decide;
    set_solver.
Qed.

Lemma get_with k k' f (m : VecMap Z Changes) :
  get k (get_mut_or_insert no_changes k' f m) =
    if k' =? k then Some (f (default no_changes (get k m))) else get k m.
Proof.
  unfold get_mut_or_insert, get_mut_or_insert_with. pose proof (update_spec k' f m) as Hu.
  destruct (Z.eqb_spec k' k) as [->|Hne]; destruct (update _ f m) as [m'|].
  - destruct Hu as (_ & (v & -> & ->) & _). done.
  - destruct Hu as [-> Hn]. rewrite get_app, get_None by done. cbn. by rewrite decide_True.
  - destruct Hu as (_ & _ & Hu). by apply Hu.
  - rewrite get_app. cbn. rewrite decide_False by done. by destruct (get k m).
Qed.

Lemma commit_sets collection id ops :
  sets_of id (default no_changes (commit_changes collection ops)) = act_sets (acts collection id ops) /\
  (commit_changes collection ops = None -> acts collection id ops = []).
Proof.
  unfold commit_changes, commit, act_sets.
  assert (forall b s, sets_of id (default no_changes (get collection (changes b))) = s ->
    sets_of id (default no_changes (get collection (changes (fold_left run_log ops b)))) =
      fold_left act_step (acts collection id ops) s /\
    (get collection (changes (fold_left run_log ops b)) = None ->
       get collection (changes b) = None /\ acts collection id ops = [])) as H.
  { induction ops as [|op ops IH]; intros b s Hs; [done|]. cbn [fold_left].
    destruct op as [a c p d|a c d|c i].
    - assert (changes (run_log b (LogItem a c p d)) =
        get_mut_or_insert no_changes c (act_changes a (build_id p d)) (changes b)) as E by (by destruct a).
      destruct (IH (run_log b (LogItem a c p d)) (if (c =? collection) && (build_id p d =? id) then act_step s a else s)) as [H1 H2].
      + rewrite E, get_with. destruct (c =? collection); cbn [andb from_option Datatypes.id]; [|done]. by rewrite sets_of_act, Hs.
      + rewrite H1. unfold acts. cbn [omap list_omap]. fold (acts collection id ops).
        split; [by destruct (_ && _)|]. intros Hn. apply H2 in Hn as [Hn Ha]. rewrite E, get_with in Hn.
        destruct (c =? collection); [done|]. done.
    - destruct (IH (run_log b (LogContainer a c d)) s) as [H1 H2]; [|split; [done|]].
      + rewrite <- Hs. destruct a; cbn [run_log]; unfold log_container_insert, log_container_update,
          log_container_property_update, log_container_delete, with_changes; cbn [changes]; rewrite get_with;
          (destruct (c =? collection); [|done]); cbn [from_option Datatypes.id]; destruct (default no_changes _);
          unfold container_insert, container_update, container_property_update, container_delete;
          repeat case_decide; done.
      + intros Hn. apply H2 in Hn as [Hn Ha]. split; [|done]. revert Hn.
        destruct a; cbn [run_log]; unfold log_container_insert, log_container_update,
          log_container_property_update, log_container_delete, with_changes; cbn [changes]; rewrite get_with;
          by destruct (c =? collection).
    - destruct (IH (run_log b (LogVanished c i)) s Hs) as [H1 H2]. split; [done|]. exact H2. }
  destruct (H (MkLog [] []) (false, false, false)) as [H1 H2]; [done|]. split; [done|]. intros Hn. by destruct (H2 Hn).
Qed.

(** The sets of a commit fit: each call adds one element to them at most. *)
Definition total (c : Changes) : Z :=
  set_len (item_inserts c) + set_len (item_updates c) + set_len (item_deletes c) + set_len (container_inserts c) +
  set_len (container_updates c) + set_len (container_property_changes c) + set_len (container_deletes c).

Lemma set_len_add x (s : gset Z) : set_len ({[x]} ∪ s) <= set_len s + 1.
Proof. unfold set_len. rewrite size_union_alt, size_singleton. pose proof (subseteq_size (s ∖ {[x]}) s ltac:(set_solver)). lia. Qed.
Lemma set_len_remove x (s : gset Z) : set_len (s ∖ {[x]}) <= set_len s.
Proof. unfold set_len. pose proof (subseteq_size (s ∖ {[x]}) s ltac:(set_solver)). lia. Qed.

(** The identifiers of a call are of their types. *)
Definition op_ok (op : LogOp) : Prop :=
  match op with
  | LogItem _ _ p d => in_width 32 d /\ match p with Some p => in_width 32 p | None => True end
  | LogContainer _ _ d => in_width 32 d
  | LogVanished _ _ => True
  end.

Lemma build_id_width p d : in_width 32 d -> match p with Some p => in_width 32 p | None => True end ->
  in_width 64 (build_id p d).
Proof.
  intros Hd Hp. destruct p as [p|]; unfold build_id; [|unfold in_width in *; lia].
  rewrite Z.lor_comm, lor_shiftl_disjoint by (done || lia). unfold in_width in *. lia.
Qed.

Definition ids_ok (c : Changes) : Prop :=
  (forall id, id ∈ item_inserts c ∪ item_updates c ∪ item_deletes c -> in_width 64 id) /\
  (forall id, id ∈ container_inserts c ∪ container_updates c ∪ container_deletes c ∪ container_property_changes c ->
     in_width 32 id).

(** What a call does to its collection's sets. *)
Definition op_changes (op : LogOp) (c : Changes) : Changes :=
  match op with
  | LogItem a _ p d => act_changes a (build_id p d) c
  | LogContainer CIns _ d => container_insert d c
  | LogContainer CUpd _ d => container_update d c
  | LogContainer CProp _ d => container_property_update d c
  | LogContainer CDel _ d => container_delete d c
  | LogVanished _ _ => c
  end.

Lemma op_changes_ok op c n : op_ok op -> ids_ok c -> total c <= n ->
  ids_ok (op_changes op c) /\ total (op_changes op c) <= n + 1.
Proof.
  intros Ho [H1 H2] Hn. destruct c as [ii iu id_ ci cu cd cp].
  assert (forall x (s : gset Z), set_len ({[x]} ∪ s) <= set_len s + 1) as Ha by apply set_len_add.
  assert (forall x (s : gset Z), set_len (s ∖ {[x]}) <= set_len s) as Hd by apply set_len_remove.
  assert (forall x (s : gset Z), x ∈ s -> set_len (s ∖ {[x]}) = set_len s - 1) as Hr.
  { intros x s Hx. unfold set_len. rewrite size_difference by set_solver. rewrite size_singleton.
    pose proof (subseteq_size {[x]} s ltac:(set_solver)). rewrite size_singleton in *. lia. }
  unfold ids_ok, total in *. cbn [item_inserts item_updates item_deletes container_inserts container_updates
    container_deletes container_property_changes] in *.
  destruct op as [a k p d|a k d|k i]; cbn [op_ok] in Ho; [|split; [|]|split; [by split|cbn; lia]].
  - destruct Ho as [Hdd Hp]. pose proof (build_id_width p d Hdd Hp) as Hw.
    destruct a; cbn [op_changes act_changes]; unfold item_insert, item_update, item_delete; try case_decide;
      cbn [item_inserts item_updates item_deletes container_inserts container_updates container_deletes
        container_property_changes]; (split; [split; intros i Hi; [|by apply H2]; destruct (decide (i = build_id p d)) as [->|];
        [done|apply H1; set_solver]|]).
    + pose proof (Ha (build_id p d) iu). rewrite Hr by done. lia.
    + pose proof (Ha (build_id p d) ii). lia.
    + pose proof (Ha (build_id p d) iu). lia.
    + pose proof (Ha (build_id p d) id_). pose proof (Hd (build_id p d) iu). lia.
  - destruct a; cbn [op_changes]; unfold container_insert, container_update, container_property_update, container_delete;
      try case_decide; cbn [item_inserts item_updates item_deletes container_inserts container_updates container_deletes
        container_property_changes]; (split; intros i Hi; [by apply H1|]; destruct (decide (i = d)) as [->|];
        [done|apply H2; set_solver]).
  - destruct a; cbn [op_changes]; unfold container_insert, container_update, container_property_update, container_delete;
      try case_decide; cbn [item_inserts item_updates item_deletes container_inserts container_updates container_deletes
        container_property_changes].
    + pose proof (Ha d cu). rewrite Hr by done. lia.
    + pose proof (Ha d ci). lia.
    + pose proof (Ha d cu). lia.
    + pose proof (Ha d cp). lia.
    + pose proof (Ha d cd). pose proof (Hd d cu). pose proof (Hd d cp). lia.
Qed.

Lemma run_log_changes op b : changes (run_log b op) =
  match op with
  | LogItem _ k _ _ | LogContainer _ k _ => get_mut_or_insert no_changes k (op_changes op) (changes b)
  | LogVanished _ _ => changes b
  end.
Proof. by destruct op as [[] ? ? ?|[] ? ?|]. Qed.

Lemma commit_ok collection ops c : Forall op_ok ops -> Z.of_nat (length ops) < 2 ^ 64 ->
  commit_changes collection ops = Some c -> changes_ok c.
Proof.
  intros Ho Hn. unfold commit_changes, commit.
  assert (forall b n, (forall c, get collection (changes b) = Some c -> ids_ok c /\ total c <= n) -> 0 <= n ->
    get collection (changes (fold_left run_log ops b)) = Some c -> ids_ok c /\ total c <= n + Z.of_nat (length ops)) as H.
  { clear Hn. induction Ho as [|op ops Hop _ IH]; intros b n Hb Hn; cbn [fold_left length].
    - intros H%Hb. destruct H. split; [done|lia].
    - intros H. eapply (IH (run_log b op) (n + 1)) in H; [destruct H; split; [done|lia]| |lia].
      clear H IH. intros c'. rewrite run_log_changes.
      assert (forall c'', ids_ok c'' /\ total c'' <= n -> ids_ok (op_changes op c'') /\ total (op_changes op c'') <= n + 1) as Hs
        by (intros c'' []; by apply op_changes_ok).
      assert (forall k, get collection (get_mut_or_insert no_changes k (op_changes op) (changes b)) = Some c' ->
        ids_ok c' /\ total c' <= n + 1) as Hk.
      { intros k. rewrite get_with. destruct (k =? collection); [|intros H%Hb; destruct H; split; [done|lia]].
        intros <-%(inj Some). apply Hs. destruct (get collection (changes b)) as [c''|]; [by apply Hb|].
        split; [split; set_solver|]. change (total (from_option Datatypes.id no_changes None)) with 0. lia. }
      destruct op; [apply Hk..|]. intros H%Hb. destruct H. split; [done|lia]. }
  intros Hc. destruct (H (MkLog [] []) 0 ltac:(done) ltac:(lia) Hc) as [[H1 H2] H3].
  unfold total in H3. unfold changes_ok, set_len in *. split_and!; [done|done|lia|lia].
Qed.

(** *** One item through a history *)

Lemma presence_app b l k : presence b (l ++ k) = match presence b l with Some b => presence b k | None => None end.
Proof. revert b. induction l as [|a l IH]; intros b; [done|]. destruct a, b; cbn; done || apply IH. Qed.

(** What the sets of a commit say of an item that goes from [b] to [b']. *)
Lemma act_sets_spec l : forall b b', presence b l = Some b' ->
  let '(i, u, d) := act_sets l in
  match b, b' with
  | true, true => i = false /\ d = false /\ u = negb (bool_decide (l = []))
  | true, false => i = false /\ d = true /\ u = false
  | false, true => i = true /\ d = false
  | false, false => (l = [] /\ i = false /\ u = false /\ d = false) \/ (i = true /\ d = true /\ u = false)
  end.
Proof.
  induction l as [|a l IH] using rev_ind; intros b b'; [intros [= <-]; destruct b; cbn; auto|].
  rewrite presence_app. destruct (presence b l) as [b1|] eqn:E; [|done]. specialize (IH b b1 E).
  unfold act_sets in *. rewrite fold_left_app. destruct (fold_left act_step l _) as [[i u] d]. cbn [fold_left].
  rewrite (bool_decide_false (l ++ [a] = [])) by (by destruct l).
  destruct a, b1; cbn; try done; intros [= <-]; destruct b; cbn; naive_solver.
Qed.

(** [item_step] on the three sets. *)
Definition sets_step (id : Z) (s : bool * bool * bool) (l : list Change) : list Change :=
  let '(i, u, d) := s in
  let l := if i : bool then l ++ [InsertItem id] else l in
  let l := if u : bool then update_item id l else l in
  if d : bool then delete_item id l else l.

Lemma item_step_sets id c l : item_step id c l = sets_step id (sets_of id c) l.
Proof.
  unfold item_step, sets_step, sets_of. by repeat (case_decide; [rewrite bool_decide_true by done|rewrite bool_decide_false by done]).
Qed.

Lemma update_item_net id : update_item id [] = [UpdateItem id] /\ update_item id [InsertItem id] = [InsertItem id] /\
  update_item id [UpdateItem id] = [UpdateItem id] /\
  update_item id [DeleteItem id; InsertItem id] = [DeleteItem id; InsertItem id].
Proof. unfold update_item. cbn. by rewrite Z.eqb_refl. Qed.

Lemma delete_item_net id : delete_item id [] = [DeleteItem id] /\ delete_item id [InsertItem id] = [] /\
  delete_item id [UpdateItem id] = [DeleteItem id] /\ delete_item id [DeleteItem id; InsertItem id] = [DeleteItem id].
Proof. unfold delete_item. cbn. by rewrite Z.eqb_refl. Qed.

Lemma net_step id b0 b b' touched was_gone c l :
  presence b l = Some b' -> sets_of id c = act_sets l ->
  (b0 = true -> b = false -> was_gone = true) ->
  item_step id c (net id b0 b touched was_gone) =
    net id b0 b' (touched || negb (bool_decide (l = []))) (was_gone || negb b').
Proof.
  intros Hp Hs Hg. apply act_sets_spec in Hp. rewrite item_step_sets, Hs. destruct (act_sets l) as [[i u] d].
  destruct (update_item_net id) as (U1 & U2 & U3 & U4), (delete_item_net id) as (D1 & D2 & D3 & D4).
  destruct b, b'.
  - destruct Hp as (-> & -> & ->). destruct b0; cbn [net sets_step negb orb]; rewrite ?orb_false_r;
      destruct (bool_decide (l = [])), was_gone, touched; cbn [negb orb]; auto.
  - destruct Hp as (-> & -> & ->). destruct b0; cbn [net sets_step negb orb]; [destruct was_gone, touched|]; auto.
  - destruct Hp as (-> & ->). destruct b0; [rewrite (Hg eq_refl eq_refl)|]; cbn [net sets_step orb app]; destruct u; auto.
  - destruct Hp as [(-> & -> & -> & ->)|(-> & -> & ->)]; destruct b0; cbn [net sets_step app]; auto.
Qed.

Section Sync.
Variable iter : gset Z -> list Z.
Hypothesis iter_elements : forall s, Permutation (iter s) (elements s).
Variable collection : Z.

(** A history: commits with their change ids.  Its log has an entry for each
    commit that touches the collection. *)
Definition History : Type := list (Z * list LogOp).
Definition entry (e : Z * list LogOp) : option (Z * list Z) :=
  match commit_changes collection (snd e) with
  | Some c => option_map (pair (fst e)) (serialize iter c)
  | None => None
  end.
Definition log_of (h : History) : list (Z * list Z) := omap entry h.

Definition history_ok (h : History) : Prop :=
  Forall (fun e => Forall op_ok (snd e) /\ Z.of_nat (length (snd e)) < 2 ^ 64) h.

(** The actions on an item, commit by commit. *)
Definition item_history (id : Z) (h : History) : list (list Action) := map (fun e => acts collection id (snd e)) h.

Lemma serialize_some c : changes_ok c -> exists b v, serialize iter c = Some (b :: v).
Proof.
  intros Hc. rewrite (serialize_bytes iter iter_elements c Hc). unfold encs at 1, enc. cbn [map concat].
  destruct (groups_nonempty 10 (set_len (container_inserts c)) ltac:(lia)) as (b & l & ->). by eexists _, _.
Qed.

Lemma read_entry_commit from cid c value q : changes_ok c -> serialize iter c = Some value -> cid <> from ->
  exists q', read_entry false false from cid value q = Some q' /\ is_truncated q' = is_truncated q /\
    list_ q' = apply_items iter c (apply_containers iter c (list_ q)).
Proof.
  intros Hc Hs Hne. destruct (serialize_some c Hc) as (b & v & E). rewrite E in Hs. injection Hs as <-.
  unfold read_entry. rewrite (proj2 (Z.eqb_neq cid from)) by done. cbn [negb orb].
  rewrite (deserialize_serialize iter iter_elements c _ _ Hc E). by eexists.
Qed.

(** Reading a history's entries. *)
Lemma read_history from h : history_ok h -> Forall (fun e => from < fst e) h ->
  forall q, exists q', read_entries false false from (log_of h) q = Some q' /\ is_truncated q' = is_truncated q /\
    forall id b0 b b' touched was_gone, presence b (concat (item_history id h)) = Some b' ->
      (b0 = true -> b = false -> was_gone = true) ->
      view (of_item id) (list_ q) = net id b0 b touched was_gone ->
      view (of_item id) (list_ q') =
        net id b0 b' (touched || negb (bool_decide (concat (item_history id h) = []))) (was_gone || gone b (item_history id h)).
Proof.
  induction 1 as [|[cid ops] h [Ho Hl] _ IH]; intros Hf q.
  - exists q. split_and!; [done|done|]. intros id b0 b b' t g [= <-] _ ->. cbn. by rewrite !orb_false_r.
  - apply Forall_cons_1 in Hf as [Hcid Hf]. cbn [fst snd] in *.
    assert (exists q1, read_entries false false from (log_of ((cid, ops) :: h)) q =
        read_entries false false from (log_of h) q1 /\ is_truncated q1 = is_truncated q /\
        forall id b0 b b' touched was_gone, presence b (acts collection id ops) = Some b' ->
          (b0 = true -> b = false -> was_gone = true) ->
          view (of_item id) (list_ q) = net id b0 b touched was_gone ->
          view (of_item id) (list_ q1) =
            net id b0 b' (touched || negb (bool_decide (acts collection id ops = []))) (was_gone || negb b'))
      as (q1 & E & Et & Hq1).
    { change (log_of ((cid, ops) :: h)) with (match entry (cid, ops) with Some y => y :: log_of h | None => log_of h end).
      unfold entry at 1. cbn [fst snd]. destruct (commit_changes collection ops) as [c|] eqn:Ec.
      - pose proof (commit_ok collection ops c Ho Hl Ec) as Hok. destruct (serialize_some c Hok) as (x & v & Ev).
        rewrite Ev. cbn [option_map read_entries].
        destruct (read_entry_commit from cid c _ q Hok Ev ltac:(lia)) as (q1 & -> & Et & El).
        exists q1. split_and!; [done|done|]. intros id b0 b b' t g Hp Hg Hv.
        rewrite El, (apply_item_view iter iter_elements), Hv. apply net_step with (b := b); [done| |done].
        destruct (commit_sets collection id ops) as [Hs _]. by rewrite Ec in Hs.
      - exists q. split_and!; [done|done|]. intros id b0 b b' t g Hp Hg ->.
        destruct (commit_sets collection id ops) as [_ Hs]. rewrite (Hs Ec) in *. injection Hp as <-.
        rewrite bool_decide_true by done. cbn. rewrite orb_false_r.
        destruct b; [by rewrite orb_false_r|]. destruct b0; [by rewrite Hg|done]. }
    destruct (IH Hf q1) as (q2 & E2 & Et2 & Hq2). exists q2. split_and!; [congruence|congruence|].
    intros id b0 b b' t g Hp Hg Hv. cbn [item_history map concat fst snd gone] in *. rewrite presence_app in Hp.
    destruct (presence b (acts collection id ops)) as [b1|] eqn:E1; [|done]. cbn [from_option Datatypes.id].
    rewrite (Hq2 id b0 b1 b' (t || negb (bool_decide (acts collection id ops = []))) (g || negb b1) Hp).
    + f_equal; [|by rewrite <- orb_assoc]. rewrite <- orb_assoc. f_equal. unfold item_history.
      destruct (acts collection id ops); [done|]. by rewrite !bool_decide_false by done.
    + intros -> ->. apply orb_true_r.
    + by eapply Hq1.
Qed.

Lemma log_of_app a b : log_of (a ++ b) = log_of a ++ log_of b.
Proof. apply omap_app. Qed.

Lemma log_of_ids (P : Z -> Prop) h : Forall (fun e => P (fst e)) h -> Forall (fun e => P (fst e)) (log_of h).
Proof.
  induction 1 as [|e h He _ IH]; [constructor|].
  change (log_of (e :: h)) with (match entry e with Some y => y :: log_of h | None => log_of h end).
  unfold entry. destruct (commit_changes collection (snd e)) as [c|]; [|done]. destruct (serialize iter c); [|done].
  by constructor.
Qed.

(** The entries up to the change that the client knows do not count. *)
Lemma read_known from l : Forall (fun e => fst e <= from) l -> forall q,
  exists q', read_entries false false from (List.filter (fun e => (from <=? fst e) && (fst e <=? u64_max)) l) q = Some q' /\
    list_ q' = list_ q /\ is_truncated q' = is_truncated q.
Proof.
  induction 1 as [|[cid v] l Hc _ IH]; intros q; cbn [List.filter]; [by exists q|]. cbn [fst] in *.
  destruct (Z.leb_spec from cid); cbn [andb]; [|apply IH]. destruct (cid <=? u64_max); [|apply IH].
  cbn [read_entries read_entry]. replace cid with from by lia. unfold read_entry. rewrite Z.eqb_refl. cbn [negb orb].
  destruct (IH (MkQueryChanges (list_ q) from from (container_change_id q) (item_change_id q) (is_truncated q)))
    as (q' & -> & E1 & E2). by exists q'.
Qed.

Lemma filter_new from l : Forall (fun e => from < fst e <= u64_max) l ->
  List.filter (fun e : Z * list Z => (from <=? fst e) && (fst e <=? u64_max)) l = l.
Proof.
  induction 1 as [|e l He _ IH]; [done|]. cbn [List.filter].
  rewrite (proj2 (Z.leb_le from (fst e))), (proj2 (Z.leb_le (fst e) u64_max)) by lia. cbn [andb]. by rewrite IH.
Qed.

Lemma read_entries_app from a b q : read_entries false false from (a ++ b) q =
  let! q := read_entries false false from a q in read_entries false false from b q.
Proof. revert q. induction a as [|[cid v] a IH]; intros q; [done|]. cbn. destruct (read_entry _ _ _ _ _ _); [apply IH|done]. Qed.

(** C28: Synchronisation is right.  Take any history of commits, each any
    sequence of inserts, updates and deletes of items, in any collections,
    that make sense (nothing is inserted twice or changed while it is not
    there), and a client that knows the changes up to [since].  Then the log
    that the commits write reads back, in whatever order the hash sets are
    iterated, and the list of a query since [since] says of every item of the
    collection exactly what the client has to know: an item that it did not
    have and that exists is inserted, one that it had and that is gone is
    deleted, one that came and went is not mentioned, one that it still has is
    updated if and only if it was touched - and deleted and inserted again, in
    that order, when it was gone after some commit in between - each once. *)
Theorem changes_since (since : Z) (old new : History) (live : Z -> bool) :
  history_ok (old ++ new) -> Forall (fun e => fst e <= since) old -> Forall (fun e => since < fst e <= u64_max) new ->
  (forall id, is_Some (presence (live id) (concat (item_history id (old ++ new))))) ->
  exists q, query_changes false (Since since) (log_of (old ++ new)) = Some q /\ is_truncated q = false /\
    forall id,
      let known := presence (live id) (concat (item_history id old)) in
      let now := presence (live id) (concat (item_history id (old ++ new))) in
      view (of_item id) (list_ q) =
        net id (default false known) (default false now)
          (negb (bool_decide (concat (item_history id new) = []))) (gone (default false known) (item_history id new)).
Proof.
  intros Hok Ho Hn Hp. unfold query_changes, iterate. cbn [query_bounds]. rewrite log_of_app, List.filter_app, read_entries_app.
  rewrite (filter_new since (log_of new)) by (by apply (log_of_ids (fun i => since < i <= u64_max))).
  destruct (read_known since (log_of old)) with (q := default_changes) as (q0 & -> & El & Et);
    [by apply (log_of_ids (fun i => i <= since))|].
  apply Forall_app in Hok as [_ Hok].
  destruct (read_history since new Hok) with (q := q0) as (q & -> & Etq & Hq);
    [eapply Forall_impl; [|exact Hn]; cbn; lia|].
  exists q. split_and!; [done|by rewrite Etq, Et|]. intros id. cbv zeta.
  specialize (Hp id). unfold item_history in Hp |- *. rewrite map_app, concat_app, presence_app in Hp |- *.
  fold (item_history id old) in Hp |- *. fold (item_history id new) in Hp |- *.
  destruct (presence (live id) (concat (item_history id old))) as [b0|]; [|by destruct Hp].
  destruct Hp as [b' Hb']. cbn [from_option Datatypes.id]. rewrite Hb'. cbn [from_option Datatypes.id].
  apply (Hq id b0 b0 b' false false Hb'); [by destruct b0|]. rewrite El. by destruct b0.
Qed.
End Sync.

(** A history of one collection: items 1 and 2 are known; item 1 is updated,
    then deleted, item 3 comes and goes, item 4 comes. *)
Lemma changes_since_witness :
  let old := [(5, [LogItem Ins 0 None 1; LogItem Ins 0 None 2])] in
  let new := [(8, [LogItem Upd 0 None 1; LogItem Ins 0 None 3; LogItem Ins 9 None 1]);
              (9, [LogItem Del 0 None 1; LogItem Del 0 None 3; LogItem Ins 0 (Some 1) 4])] in
  exists q, query_changes false (Since 5) (log_of elements 0 (old ++ new)) = Some q /\ is_truncated q = false /\
    forall id,
      let known := presence false (concat (item_history 0 id old)) in
      let now := presence false (concat (item_history 0 id (old ++ new))) in
      view (of_item id) (list_ q) =
        net id (default false known) (default false now)
          (negb (bool_decide (concat (item_history 0 id new) = []))) (gone (default false known) (item_history 0 id new)).
Proof.
  apply (changes_since elements (fun s => Permutation_refl (elements s)) 0 5 _ _ (fun _ => false)).
  - repeat constructor; cbn; unfold in_width; lia.
  - repeat constructor; cbn; lia.
  - repeat constructor; cbn; unfold u64_max; lia.
  - intros id. unfold item_history, acts. cbn [map fst snd app omap list_omap].
    change (0 =? 0) with true. change (9 =? 0) with false. cbn [andb build_id].
    change (Z.lor (Z.shiftl 1 32) 4) with 4294967300.
    destruct (Z.eqb_spec 1 id) as [<-|]; [by eexists|]. destruct (Z.eqb_spec 2 id) as [<-|]; [by eexists|].
    destruct (Z.eqb_spec 3 id) as [<-|]; [by eexists|]. destruct (Z.eqb_spec 4294967300 id) as [<-|]; by eexists.
Defined.

(** The list of that query. *)
Lemma changes_since_example :
  let history := [(5, [LogItem Ins 0 None 1; LogItem Ins 0 None 2]);
                  (8, [LogItem Upd 0 None 1; LogItem Ins 0 None 3; LogItem Ins 9 None 1]);
                  (9, [LogItem Del 0 None 1; LogItem Del 0 None 3; LogItem Ins 0 (Some 1) 4])] in
  option_map list_ (query_changes false (Since 5) (log_of elements 0 history)) = Some [InsertItem 4294967300; DeleteItem 1] \/
  option_map list_ (query_changes false (Since 5) (log_of elements 0 history)) = Some [DeleteItem 1; InsertItem 4294967300].
Proof. vm_compute. auto. Qed.

(** A container whose properties changed in one commit and that is deleted
    by a later one is reported as both updated and deleted; with a full
    update in place of the property change it is only deleted. *)
Lemma property_change_then_delete :
  let history a := [(1, [LogContainer a 0 7]); (2, [LogContainer CDel 0 7])] in
  option_map list_ (query_changes false (Since 0) (log_of elements 0 (history CProp))) =
    Some [UpdateContainerProperty 7; DeleteContainer 7] /\
  option_map list_ (query_changes false (Since 0) (log_of elements 0 (history CUpd))) = Some [DeleteContainer 7].
Proof. vm_compute. auto. Qed.

(** ** Vanished items *)

(** A vanished value reads back as its items, when they are all of the type
    that is read and names have no zero byte. *)
Lemma read_vanished_concat {T} (enc : T -> list Z) (dec : list Z -> option (T * list Z)) l :
  (forall x rest, In x l -> dec (enc x ++ rest) = Some (x, rest)) -> (forall x, In x l -> enc x <> []) ->
  forall fuel, (length (concat (map enc l)) <= fuel)%nat -> read_vanished fuel dec (concat (map enc l)) = Some l.
Proof.
  induction l as [|x l IH]; intros Hd He fuel Hf; [by destruct fuel|]. cbn [map concat] in *.
  destruct (enc x) as [|b bs] eqn:E; [by destruct (He x (or_introl eq_refl))|]. cbn [app length] in *.
  destruct fuel as [|fuel]; [lia|]. cbn [read_vanished].
  pose proof (Hd x (concat (map enc l)) (or_introl eq_refl)) as Hx. rewrite E in Hx. cbn [app] in Hx. rewrite Hx.
  rewrite IH; [done|intros; apply Hd; by right|intros; apply He; by right|]. rewrite length_app in Hf. lia.
Qed.

Lemma until_zero_app name rest : Forall (fun b => b <> 0) name -> until_zero (name ++ 0 :: rest) = Some (name, rest).
Proof. induction 1 as [|b name Hb _ IH]; [done|]. cbn. rewrite (proj2 (Z.eqb_neq b 0)) by done. by rewrite IH. Qed.

Lemma take_bytes_app n b rest : length b = n -> take_bytes n (b ++ rest) = Some (b, rest).
Proof.
  intros <-. unfold take_bytes. rewrite (proj2 (Nat.ltb_ge _ _)) by (rewrite length_app; lia).
  by rewrite firstn_app, skipn_app, Nat.sub_diag, firstn_all, skipn_all, app_nil_r.
Qed.

Lemma be_bytes_pair a b : in_width 32 a -> in_width 32 b ->
  be_bytes 8 (Z.lor (Z.shiftl a 32) b) = be_bytes 4 a ++ be_bytes 4 b.
Proof.
  intros Ha Hb. rewrite Z.lor_comm, lor_shiftl_disjoint by (done || lia).
  rewrite <- (be_of_be (be_bytes 4 a ++ be_bytes 4 b)) by (apply Forall_app; split; apply be_bytes_ok).
  rewrite length_app, !be_bytes_length. f_equal. unfold of_be_bytes. rewrite fold_left_app, of_be_bytes_acc, be_bytes_length.
  fold (of_be_bytes (be_bytes 4 a)). rewrite !of_be_id by done. change (8 * Z.of_nat 4) with 32. lia.
Qed.

Lemma read_pair a b rest : in_width 32 a -> in_width 32 b ->
  vanished_pair ((be_bytes 4 a ++ be_bytes 4 b) ++ rest) = Some (a, b, rest).
Proof.
  intros Ha Hb. unfold vanished_pair. rewrite take_bytes_app by (by rewrite length_app, !be_bytes_length).
  rewrite firstn_app, skipn_app, be_bytes_length, Nat.sub_diag. cbn [firstn skipn].
  rewrite firstn_all2, skipn_all2, app_nil_r by (rewrite ?be_bytes_length; lia). cbn [app]. rewrite drop_0.
  by rewrite !of_be_id.
Qed.

(** The vanished log of a collection reads back: the names (any UTF-8
    without a zero byte), the identifiers or the pairs of 32-bit identifiers
    that a commit logged come back in order. *)
Theorem vanished_roundtrip (names : list (list Z)) (ids : list Z) (pairs : list (Z * Z)) :
  Forall (fun n => valid n = true /\ Forall (fun b => b <> 0) n) names -> Forall (in_width 64) ids ->
  Forall (fun p => in_width 32 (fst p) /\ in_width 32 (snd p)) pairs ->
  let read {T} (d : list Z -> option (T * list Z)) l := let v := serialize_vanished l in read_vanished (length v) d v in
  read vanished_name (map VName names) = Some names /\ read vanished_u64 (map VId ids) = Some ids /\
  read (fun it => vanished_pair it) (map (fun p => vanished_of_pair (fst p) (snd p)) pairs) = Some pairs /\
  read (fun it => vanished_pair it) (map (fun p => VIdPair (fst p) (snd p)) pairs) = Some pairs.
Proof.
  intros Hn Hi Hp. cbv zeta. unfold serialize_vanished. rewrite !map_map.
  rewrite List.Forall_forall in Hn, Hi, Hp. split_and!.
  - apply (read_vanished_concat (fun n => n ++ [0])); [|by intros [|]|done].
    intros n rest H. destruct (Hn n H) as [Hv H0]. unfold vanished_name. rewrite <- app_assoc. cbn [app].
    by rewrite until_zero_app, Hv.
  - apply (read_vanished_concat (be_bytes 8)); [|done|done].
    intros v rest H. apply Hi in H. unfold vanished_u64. rewrite take_bytes_app by apply be_bytes_length.
    by rewrite of_be_id.
  - apply (read_vanished_concat (fun p => be_bytes 8 (Z.lor (Z.shiftl (fst p) 32) (snd p)))); [|done|done].
    intros [a b] rest H. cbn [fst snd]. apply Hp in H as [Ha Hb]. cbn [fst snd] in *.
    rewrite be_bytes_pair by done. by apply read_pair.
  - apply (read_vanished_concat (fun p => be_bytes 4 (fst p) ++ be_bytes 4 (snd p))); [|done|done].
    intros [a b] rest H. apply Hp in H as [Ha Hb]. by apply read_pair.
Qed.

Lemma vanished_roundtrip_witness :
  let read {T} (d : list Z -> option (T * list Z)) l := let v := serialize_vanished l in read_vanished (length v) d v in
  read vanished_name (map VName [s#"a.ics"; s#"b"]) = Some [s#"a.ics"; s#"b"] /\
  read vanished_u64 (map VId [7]) = Some [7] /\
  read (fun it => vanished_pair it) (map (fun p => vanished_of_pair (fst p) (snd p)) [(1, 2)]) = Some [(1, 2)] /\
  read (fun it => vanished_pair it) (map (fun p => VIdPair (fst p) (snd p)) [(1, 2)]) = Some [(1, 2)].
Proof.
  apply (vanished_roundtrip [s#"a.ics"; s#"b"] [7] [(1, 2)]); repeat constructor; cbn; unfold in_width; lia.
Defined.
