(* ===== verification/CheekyHash.v ===== *)
(** * Hashes that hold small inputs ([crates/utils/src/cheeky_hash.rs])

    Sixteen bytes: the length of the input, saturated, and the input itself
    when it fits in fifteen bytes, else the digests of it.  The two digests
    are parameters.  The hexadecimal text, the hasher and [Debug] are not
    modelled. *)

From S2P Require Import Prelude.

Section CheekyHash.
Variables xxh3 fingerprint64 : list Z -> Z.

Definition HASH_SIZE : nat := 16.
Definition HASH_PAYLOAD : nat := 15.

(* [crates/utils/src/cheeky_hash.rs:20-20] CheekyHash *)
Definition CheekyHash : Type := list Z.

(* [crates/utils/src/cheeky_hash.rs:34-51] new *)
Definition new (bytes : list Z) : CheekyHash :=
  if (length bytes <=? HASH_PAYLOAD)%nat then
    wrap 8 (Z.of_nat (length bytes)) :: bytes ++ repeat 0 (HASH_PAYLOAD - length bytes)
  else
    Z.min (Z.of_nat (length bytes)) 255 :: be_bytes 8 (xxh3 bytes) ++ firstn 7 (be_bytes 8 (fingerprint64 bytes)).

(** The first byte of a hash. *)
Definition payload_len_nat (h : CheekyHash) : nat := Z.to_nat (default 0 (head h)).

(* [crates/utils/src/cheeky_hash.rs:92-94] payload_len *)
Definition payload_len (h : CheekyHash) : Z := default 0 (head h).
(* [crates/utils/src/cheeky_hash.rs:65-67] len *)
Definition len (h : CheekyHash) : nat := Nat.min (payload_len_nat h) HASH_PAYLOAD + 1.
(* [crates/utils/src/cheeky_hash.rs:70-72] as_bytes *)
Definition as_bytes (h : CheekyHash) : list Z := firstn (len h) h.
(* [crates/utils/src/cheeky_hash.rs:83-90] payload *)
Definition payload (h : CheekyHash) : list Z :=
  if (payload_len_nat h <=? HASH_PAYLOAD)%nat then firstn (payload_len_nat h) (skipn 1 h) else skipn 1 h.

(* [crates/utils/src/cheeky_hash.rs:53-61] deserialize *)
Definition deserialize (bytes : list Z) : option CheekyHash :=
  match bytes with
  | [] => None
  | l :: rest =>
      let n := Nat.min (Z.to_nat l) HASH_PAYLOAD in
      if (length rest <? n)%nat then None
      else Some (l :: firstn n rest ++ repeat 0 (HASH_PAYLOAD - n))
  end.

(** What every hash satisfies: after the input, or the digests, zeros. *)
Definition hash_ok (h : CheekyHash) : Prop :=
  exists l rest, h = l :: firstn (Nat.min (Z.to_nat l) HASH_PAYLOAD) rest ++
                     repeat 0 (HASH_PAYLOAD - Nat.min (Z.to_nat l) HASH_PAYLOAD) /\
    length rest = HASH_PAYLOAD /\ in_width 8 l.

Lemma new_ok bytes : hash_ok (new bytes).
Proof.
  unfold new, hash_ok. destruct (Nat.leb_spec (length bytes) HASH_PAYLOAD) as [H|H]; unfold HASH_PAYLOAD in *.
  - exists (wrap 8 (Z.of_nat (length bytes))), (bytes ++ repeat 0 (15 - length bytes)).
    rewrite wrap_small by (unfold in_width; lia). rewrite Nat2Z.id, Nat.min_l by lia.
    rewrite firstn_app, firstn_all, Nat.sub_diag, length_app, repeat_length. cbn [firstn]. rewrite app_nil_r.
    split_and!; [done|lia|unfold in_width; lia].
  - exists (Z.min (Z.of_nat (length bytes)) 255), (be_bytes 8 (xxh3 bytes) ++ firstn 7 (be_bytes 8 (fingerprint64 bytes))).
    rewrite Nat.min_r by lia. rewrite Nat.sub_diag, app_nil_r.
    assert (length (be_bytes 8 (xxh3 bytes) ++ firstn 7 (be_bytes 8 (fingerprint64 bytes))) = 15%nat) as Hl
      by (rewrite length_app, length_firstn, !be_bytes_length; lia).
    split_and!; [|done|unfold in_width; lia]. by rewrite <- Hl at 1; rewrite firstn_all.
Qed.

Lemma as_bytes_cons l rest : length rest = HASH_PAYLOAD ->
  as_bytes (l :: rest) = l :: firstn (Nat.min (Z.to_nat l) HASH_PAYLOAD) rest.
Proof. intros H. unfold as_bytes, len, payload_len_nat. cbn [head from_option]. by rewrite Nat.add_1_r. Qed.

Lemma payload_cons l rest : length rest = HASH_PAYLOAD ->
  payload (l :: rest) = firstn (Nat.min (Z.to_nat l) HASH_PAYLOAD) rest.
Proof.
  intros H. unfold payload, payload_len_nat. cbn [head from_option skipn].
  change (Datatypes.id l) with l. destruct (Nat.leb_spec (Z.to_nat l) HASH_PAYLOAD).
  - by rewrite Nat.min_l by lia.
  - rewrite Nat.min_r by lia. rewrite <- H. by rewrite firstn_all.
Qed.

Lemma deserialize_as_bytes h rest : hash_ok h -> deserialize (as_bytes h ++ rest) = Some h.
Proof.
  intros (l & r & -> & Hr & _). set (n := Nat.min (Z.to_nat l) HASH_PAYLOAD).
  assert (length (firstn n r) = n) as Hn by (rewrite length_firstn; unfold n, HASH_PAYLOAD in *; lia).
  rewrite as_bytes_cons by (rewrite length_app, Hn, repeat_length; unfold n; lia). fold n.
  rewrite firstn_app, Hn, Nat.sub_diag, firstn_firstn, Nat.min_id. cbn [firstn]. rewrite app_nil_r. cbn [app deserialize].
  fold n. rewrite (proj2 (Nat.ltb_ge _ _)) by (rewrite length_app; lia).
  rewrite firstn_app, Hn, Nat.sub_diag, firstn_firstn, Nat.min_id. cbn [firstn]. by rewrite app_nil_r.
Qed.

Lemma as_bytes_payload h : hash_ok h -> as_bytes h = payload_len h :: payload h /\
  length (payload h) = Nat.min (Z.to_nat (payload_len h)) HASH_PAYLOAD.
Proof.
  intros (l & r & -> & Hr & _). set (n := Nat.min (Z.to_nat l) HASH_PAYLOAD).
  assert (length (firstn n r) = n) as Hn by (rewrite length_firstn; unfold n, HASH_PAYLOAD in *; lia).
  assert (length (firstn n r ++ repeat 0 (HASH_PAYLOAD - n)) = HASH_PAYLOAD) as Hl
    by (rewrite length_app, Hn, repeat_length; unfold n; lia).
  rewrite as_bytes_cons, payload_cons by done. split; [done|]. fold n. rewrite length_firstn, Hl. unfold n. cbn. lia.
Qed.

(** A hash is read back from its bytes, whatever follows them, and the
    hash of an input of up to fifteen bytes is the input: two such inputs
    have the same hash only when they are equal, and no longer input has the
    hash of one. *)
Theorem cheeky_hash (a b rest : list Z) :
  deserialize (as_bytes (new a) ++ rest) = Some (new a) /\
  ((length a <= HASH_PAYLOAD)%nat -> payload (new a) = a /\ (as_bytes (new a) = as_bytes (new b) -> a = b)).
Proof.
  split; [apply deserialize_as_bytes, new_ok|]. intros Ha.
  assert (forall x, (length x <= HASH_PAYLOAD)%nat -> payload (new x) = x /\ payload_len (new x) = Z.of_nat (length x)) as Hs.
  { intros x Hx. unfold new. rewrite (proj2 (Nat.leb_le _ _)) by done.
    rewrite wrap_small by (unfold in_width, HASH_PAYLOAD in *; lia). split; [|done].
    rewrite payload_cons by (rewrite length_app, repeat_length; lia). rewrite Nat2Z.id, Nat.min_l by done.
    by rewrite firstn_app, firstn_all, Nat.sub_diag, app_nil_r. }
  destruct (Hs a Ha) as [Hp Hl]. split; [done|]. intros E.
  destruct (as_bytes_payload (new a) (new_ok a)) as [Ea _], (as_bytes_payload (new b) (new_ok b)) as [Eb _].
  rewrite Ea, Eb, Hp, Hl in E. injection E as El Ep.
  destruct (Nat.le_gt_cases (length b) HASH_PAYLOAD) as [Hb|Hb]; [by destruct (Hs b Hb) as [<- _]|].
  exfalso. unfold new in El. rewrite (proj2 (Nat.leb_gt _ _)) in El by lia.
  unfold payload_len in El. cbn in El. unfold HASH_PAYLOAD in *. lia.
Qed.
End CheekyHash.

Lemma cheeky_hash_witness :
  deserialize (as_bytes (new (fun _ => 1) (fun _ => 2) s#"mail") ++ [7]) = Some (new (fun _ => 1) (fun _ => 2) s#"mail") /\
  ((length s#"mail" <= HASH_PAYLOAD)%nat -> payload (new (fun _ => 1) (fun _ => 2) s#"mail") = s#"mail" /\
    (as_bytes (new (fun _ => 1) (fun _ => 2) s#"mail") = as_bytes (new (fun _ => 1) (fun _ => 2) s#"mail") ->
     s#"mail" = s#"mail")).
Proof. apply (cheeky_hash (fun _ => 1) (fun _ => 2) s#"mail" s#"mail" [7]). Defined.
