(* ===== verification/StoreKeys.v ===== *)
(** * The keys of the store ([crates/store/src/write/key.rs])

    Every value of the database lives under a key: a subspace, one byte, and
    the bytes that [ValueClass::serialize] writes for its class.  Integers
    are big-endian, so that the order of bytes, in which the back ends
    iterate, is that of the fields.  Tables of other crates that the code
    matches on (object types, collections) are their numbers. *)

From stdpp Require Import sets.
From S2P Require Import Prelude CheekyHash.

(** ** Writing and reading fields *)

(** A [KeySerializer] is the bytes written so far. *)
(* [crates/store/src/write/key.rs:67-71] KeySerialize for u8 *)
Definition u8 (v : Z) : list Z := [v].
(* [crates/store/src/write/key.rs:97-101] KeySerialize for u16 *)
Definition u16 (v : Z) : list Z := be_bytes 2 v.
(* [crates/store/src/write/key.rs:91-95] KeySerialize for u32 *)
Definition u32 (v : Z) : list Z := be_bytes 4 v.
(* [crates/store/src/write/key.rs:103-107] KeySerialize for u64 *)
Definition u64 (v : Z) : list Z := be_bytes 8 v.

(** [None]: the error of a corrupted key. *)
Definition be_at (n : nat) (bytes : list Z) (index : nat) : option Z :=
  option_map of_be_bytes (get_range bytes index (index + n)).
(* [crates/store/src/write/key.rs:110-119] deserialize_be_u16 *)
Definition deserialize_be_u16 := be_at 2.
(* [crates/store/src/write/key.rs:121-130] deserialize_be_u32 *)
Definition deserialize_be_u32 := be_at 4.
(* [crates/store/src/write/key.rs:132-141] deserialize_be_u64 *)
Definition deserialize_be_u64 := be_at 8.

(** ** Classes *)

Inductive IndexPropertyClass := PHash (property : Z) (hash : CheekyHash) | PInteger (property value : Z).
Inductive InMemoryClass := MKey (key : list Z) | MCounter (key : list Z).
Inductive TaskQueueClass := Task (id : Z) | Due (id due : Z).
Inductive BlobLink := LId (id : Z) | LDocument | LTemporary (until : Z).
Inductive BlobOp := BCommit (hash : list Z) | BLink (hash : list Z) (to : BlobLink).
Inductive RegistryClass :=
| Item (object_id item_id : Z)
| Reference (to_object_id to_item_id from_object_id from_item_id : Z)
| Index (index_id object_id item_id : Z) (key : list Z)
| IndexId (object_id item_id : Z)
| PrimaryKey (object_id : option Z) (index_id : Z) (key : list Z)
| IdCounter (object_id : Z).
Inductive QueueClass :=
| Message (queue_id : Z) | MessageEvent (due queue_id : Z) (queue_name : list Z)
| QuotaCount (key : list Z) | QuotaSize (key : list Z).
Inductive TelemetryClass := Span (id : Z) | Metric (id : Z).
Inductive SearchIndex := SEmail | SCalendar | SContacts | SFile | STracing | SInMemory.
Inductive SearchIndexId := Account (account_id document_id : Z) | Global (id : Z).
Inductive SearchIndexType := Term (field : Z) (hash : CheekyHash) | Field (field_id : Z) (data : list Z) | Document.

(* [crates/store/src/write/mod.rs:166-186] ValueClass *)
Inductive ValueClass :=
| Property (field : Z) | IndexProperty (p : IndexPropertyClass) | Acl (grant_account_id : Z)
| InMemory (m : InMemoryClass) | TaskQueue (t : TaskQueueClass) | Blob (b : BlobOp) | Registry (r : RegistryClass)
| Queue (q : QueueClass) | Telemetry (t : TelemetryClass)
| Search (index : SearchIndex) (id : SearchIndexId) (typ : SearchIndexType)
| Any (any_subspace : Z) (key : list Z)
| ShareNotification (notification_id notify_account_id : Z)
| DocumentId | ChangeId | Quota | TenantQuota (tenant_id : Z) | NodeId (node_id : Z).

(* [crates/store/src/lib.rs:85-90] ValueKey *)
Record ValueKey := MkKey { account_id : Z; collection : Z; document_id : Z; class : ValueClass }.
(* [crates/store/src/lib.rs:93-97] LogKey *)
Record LogKey := MkLogKey { log_account : Z; log_collection : Z; change_id : Z }.
(* [crates/store/src/lib.rs:69-75] IndexKey *)
Record IndexKey := MkIndexKey { ik_account : Z; ik_collection : Z; ik_document : Z; ik_field : Z; ik_key : list Z }.

Definition U16_MAX : Z := 65535.
Definition U32_MAX : Z := 4294967295.
Definition U8_MAX : Z := 255.
(** [u8::from(SyncCollection::ShareNotification)]. *)
Definition SHARE_NOTIFICATION : Z := 9.

(** [SearchIndex::as_u8]; an in-memory index has no keys, its panic is
    [None]. *)
(* [crates/store/src/write/key.rs:638-647] SearchIndex::to_u8 *)
Definition to_u8 (i : SearchIndex) : option Z :=
  match i with
  | SEmail => Some 0 | SCalendar => Some 1 | SContacts => Some 2 | SFile => Some 3 | STracing => Some 4
  | SInMemory => None
  end.
(* [crates/store/src/write/key.rs:649-658] SearchIndex::try_from_u8 *)
Definition try_from_u8 (v : Z) : option SearchIndex :=
  if v =? 0 then Some SEmail else if v =? 1 then Some SCalendar else if v =? 2 then Some SContacts
  else if v =? 3 then Some SFile else if v =? 4 then Some STracing else None.
(* [crates/store/src/write/key.rs:660-669] SearchIndex::name *)
Definition name (i : SearchIndex) : list Z :=
  match i with
  | SEmail => s#"email" | SCalendar => s#"calendar" | SContacts => s#"contacts" | SFile => s#"file"
  | STracing => s#"tracing" | SInMemory => s#"in_memory"
  end.
(* [crates/store/src/write/key.rs:671-680] SearchIndex::try_from_str *)
Definition try_from_str (v : list Z) : option SearchIndex :=
  if decide (v = s#"email") then Some SEmail else if decide (v = s#"calendar") then Some SCalendar
  else if decide (v = s#"contacts") then Some SContacts else if decide (v = s#"file") then Some SFile
  else if decide (v = s#"tracing") then Some STracing else None.

(* [crates/store/src/write/key.rs:284-298] ValueClass::serialize, blobs *)
Definition serialize_blob (account_id collection document_id : Z) (op : BlobOp) : list Z :=
  match op with
  | BCommit hash => hash
  | BLink hash (LId id) => hash ++ u64 id
  | BLink hash LDocument => hash ++ u32 account_id ++ u8 collection ++ u32 document_id
  | BLink hash (LTemporary until) => hash ++ u32 account_id ++ u64 until
  end.

(* [crates/store/src/write/key.rs:303-340] ValueClass::serialize, the registry *)
Definition serialize_registry (r : RegistryClass) : list Z :=
  match r with
  | Item object_id item_id => u16 object_id ++ u64 item_id
  | IndexId object_id item_id => u16 U16_MAX ++ u16 object_id ++ u64 item_id
  | Index index_id object_id item_id key => u16 object_id ++ u16 index_id ++ key ++ u64 item_id
  | Reference to_object_id to_item_id from_object_id from_item_id =>
      u16 to_object_id ++ u64 to_item_id ++ u16 from_object_id ++ u64 from_item_id
  | PrimaryKey object_id index_id key => u16 (default U16_MAX object_id) ++ u16 index_id ++ key
  | IdCounter object_id => u16 object_id
  end.

(* [crates/store/src/write/key.rs:365-419] ValueClass::serialize, search indexes *)
Definition serialize_search (index : SearchIndex) (id : SearchIndexId) (typ : SearchIndexType) : option (list Z) :=
  match to_u8 index with
  | None => None
  | Some i =>
      Some match typ with
           | Term field hash =>
               let rest := payload hash ++ u8 (payload_len hash) ++ u8 field in
               match id with
               | Account account_id document_id => u8 i ++ u32 account_id ++ rest ++ u32 document_id
               | Global id => u8 i ++ rest ++ u64 id
               end
           | Field field_id data =>
               let class := Z.lor i (Z.shiftl 1 6) in
               match id with
               | Account account_id document_id => u8 class ++ u32 account_id ++ u8 field_id ++ data ++ u32 document_id
               | Global id => u8 class ++ u8 field_id ++ data ++ u64 id
               end
           | Document =>
               let class := Z.lor i (Z.shiftl 2 6) in
               match id with
               | Account account_id document_id => u8 class ++ u32 account_id ++ u32 document_id
               | Global id => u8 class ++ u64 id
               end
           end
  end.

(** The bytes without the subspace. *)
(* [crates/store/src/write/key.rs:242-423] ValueClass::serialize *)
Definition serialize_class (account_id collection document_id : Z) (c : ValueClass) : option (list Z) :=
  match c with
  | Property property => Some (u32 account_id ++ u8 collection ++ u8 property ++ u32 document_id)
  | IndexProperty (PHash property hash) =>
      Some (u32 account_id ++ u8 collection ++ u8 property ++ as_bytes hash ++ u32 document_id)
  | IndexProperty (PInteger property value) =>
      Some (u32 account_id ++ u8 collection ++ u8 property ++ u64 value ++ u32 document_id)
  | Acl grant_account_id => Some (u32 grant_account_id ++ u32 account_id ++ u8 collection ++ u32 document_id)
  | TaskQueue (Task id) => Some (u64 0 ++ u64 id)
  | TaskQueue (Due id due) => Some (u64 due ++ u64 id)
  | Blob op => Some (serialize_blob account_id collection document_id op)
  | InMemory (MKey key) | InMemory (MCounter key) => Some key
  | Registry r => Some (serialize_registry r)
  | Queue (Message queue_id) => Some (u64 queue_id)
  | Queue (MessageEvent due queue_id queue_name) => Some (u64 due ++ u64 queue_id ++ queue_name)
  | Queue (QuotaCount key) => Some (u8 0 ++ key)
  | Queue (QuotaSize key) => Some (u8 1 ++ key)
  | Telemetry (Span id) | Telemetry (Metric id) => Some (u64 id)
  | DocumentId => Some (u32 account_id ++ u8 collection)
  | ChangeId => Some (u32 account_id)
  | Quota => Some (u32 account_id ++ u8 U8_MAX)
  | TenantQuota tenant_id => Some (u32 tenant_id ++ u8 (U8_MAX - 1))
  | NodeId node_id => Some (u32 U32_MAX ++ u16 node_id)
  | ShareNotification notification_id notify_account_id =>
      Some (u32 notify_account_id ++ u8 SHARE_NOTIFICATION ++ u64 notification_id)
  | Search index id typ => serialize_search index id typ
  | Any _ key => Some key
  end.

(** ** Subspaces *)

Definition MAILBOX_COLLECTION : Z := 1.
Definition MAILBOX_COUNTER_FIELD : Z := 84.
(** The object types that have a subspace of their own, by their numbers in
    the registry. *)
Definition directory_objects : list Z := [0; 37; 108; 83; 78; 50; 51; 80].
Definition REG_ARCHIVED_ITEM : Z := 12.
Definition REG_SPAM_SAMPLE : Z := 102.
Definition REG_TRACE : Z := 112.
Definition REG_METRIC : Z := 54.
Definition report_in_objects : list Z := [13; 32; 109].
Definition report_out_objects : list Z := [33; 110].

Definition SUBSPACE_LOGS : Z := c#"l".
Definition SUBSPACE_INDEXES : Z := c#"i".

(* [crates/store/src/write/key.rs:556-575] subspace, the registry *)
Definition registry_subspace (r : RegistryClass) : Z :=
  match r with
  | Item object_id _ =>
      if bool_decide (object_id ∈ directory_objects) then c#"d"
      else if object_id =? REG_ARCHIVED_ITEM then c#"j"
      else if object_id =? REG_SPAM_SAMPLE then c#"w"
      else if object_id =? REG_TRACE then c#"o"
      else if object_id =? REG_METRIC then c#"x"
      else if bool_decide (object_id ∈ report_in_objects) then c#"r"
      else if bool_decide (object_id ∈ report_out_objects) then c#"h"
      else c#"s"
  | IndexId _ _ | Index _ _ _ _ => c#"b"
  | Reference _ _ _ _ | PrimaryKey _ _ _ => c#"g"
  | IdCounter _ => c#"n"
  end.

(* [crates/store/src/write/key.rs:541-600] ValueClass::subspace *)
Definition subspace (collection : Z) (c : ValueClass) : Z :=
  match c with
  | Property field =>
      if (collection =? MAILBOX_COLLECTION) && (field =? MAILBOX_COUNTER_FIELD) then c#"n" else c#"p"
  | IndexProperty _ => c#"p"
  | Acl _ => c#"a"
  | TaskQueue _ => c#"f"
  | Blob _ => c#"k"
  | Registry r => registry_subspace r
  | NodeId _ => c#"g"
  | InMemory (MKey _) => c#"m"
  | InMemory (MCounter _) => c#"y"
  | Queue (Message _) => c#"e"
  | Queue (MessageEvent _ _ _) => c#"q"
  | Queue (QuotaCount _) | Queue (QuotaSize _) => c#"u"
  | Telemetry (Span _) => c#"o"
  | Telemetry (Metric _) => c#"x"
  | DocumentId | ChangeId | Quota | TenantQuota _ => c#"n"
  | ShareNotification _ _ => SUBSPACE_LOGS
  | Search _ _ _ => c#"z"
  | Any any_subspace _ => any_subspace
  end.

(** With [WITH_SUBSPACE] the subspace comes first. *)
(* [crates/store/src/write/key.rs:229-239] Key for ValueKey *)
Definition serialize (k : ValueKey) (with_subspace : bool) : option (list Z) :=
  match serialize_class (account_id k) (collection k) (document_id k) (class k) with
  | Some b => Some ((if with_subspace then u8 (subspace (collection k) (class k)) else []) ++ b)
  | None => None
  end.

(* [crates/store/src/write/key.rs:214-226] Key for LogKey *)
Definition serialize_log (k : LogKey) (with_subspace : bool) : list Z :=
  (if with_subspace then u8 SUBSPACE_LOGS else []) ++ u32 (log_account k) ++ u8 (log_collection k) ++ u64 (change_id k).

(* [crates/store/src/write/key.rs:431-447] Key for IndexKey *)
Definition serialize_index (k : IndexKey) (with_subspace : bool) : list Z :=
  (if with_subspace then u8 SUBSPACE_INDEXES else []) ++
  u32 (ik_account k) ++ u8 (ik_collection k) ++ u8 (ik_field k) ++ ik_key k ++ u32 (ik_document k).

(* [crates/store/src/write/key.rs:183-196] Key for IndexKeyPrefix *)
Definition serialize_index_prefix (account collection field : Z) (with_subspace : bool) : list Z :=
  (if with_subspace then u8 SUBSPACE_INDEXES else []) ++ u32 account ++ u8 collection ++ u8 field.

(** ** Lemmas on fields *)

Lemma be_inj n a b : in_width (8 * Z.of_nat n) a -> in_width (8 * Z.of_nat n) b -> be_bytes n a = be_bytes n b -> a = b.
Proof. intros Ha Hb E. by rewrite <- (of_be_id n a), <- (of_be_id n b), E. Qed.

Lemma app_be_inj n a b x y : in_width (8 * Z.of_nat n) a -> in_width (8 * Z.of_nat n) b ->
  be_bytes n a ++ x = be_bytes n b ++ y -> a = b /\ x = y.
Proof.
  intros Ha Hb E. apply app_inj_1 in E as [E ->]; [|by rewrite !be_bytes_length]. split; [by eapply be_inj|done].
Qed.

Lemma cons_split (a b : Z) x y : a :: x = b :: y -> a = b /\ x = y.
Proof. by intros [= -> ->]. Qed.

(** A field is read where it was written. *)
Lemma be_at_app n a b v : in_width (8 * Z.of_nat n) v -> be_at n (a ++ be_bytes n v ++ b) (length a) = Some v.
Proof.
  intros Hv. unfold be_at, get_range. rewrite !length_app, be_bytes_length.
  rewrite (proj2 (Nat.leb_le _ _)), (proj2 (Nat.leb_le _ _)) by lia. cbn [andb option_map]. f_equal.
  rewrite skipn_app, skipn_all, Nat.sub_diag. cbn [app]. rewrite drop_0, firstn_app, be_bytes_length.
  replace (length a + n - length a)%nat with n by lia. rewrite Nat.sub_diag. cbn [firstn]. rewrite app_nil_r.
  rewrite firstn_all2 by (rewrite be_bytes_length; lia). by apply of_be_id.
Qed.

(** ** Two keys of the store are different keys of the database *)

Section Injective.
(** Which integer-valued properties are indexed by a hash, and which search
    indexes have global identifiers: the code uses a property, and an index,
    always in the same way. *)
Variable hashed : Z -> Z -> bool.
Variable global : SearchIndex -> bool.

Definition u8_ok := in_width 8.
Definition u16_ok := in_width 16.
Definition u32_ok := in_width 32.
Definition u64_ok := in_width 64.

(** The fields are of their types; a task is due after 1970, object types
    and unique indexes have numbers below the largest, and no unique value
    has the length of a reference. *)
Definition class_ok (collection : Z) (c : ValueClass) : Prop :=
  match c with
  | Property field => u8_ok field
  | IndexProperty (PHash property hash) => u8_ok property /\ hash_ok hash /\ hashed collection property = true
  | IndexProperty (PInteger property value) => u8_ok property /\ u64_ok value /\ hashed collection property = false
  | Acl grant => u32_ok grant
  | TaskQueue (Task id) => u64_ok id
  | TaskQueue (Due id due) => u64_ok id /\ u64_ok due /\ due <> 0
  | Blob (BCommit hash) => length hash = 32%nat
  | Blob (BLink hash to) => length hash = 32%nat /\
      match to with LId id => u64_ok id | LDocument => True | LTemporary until => u64_ok until end
  | InMemory _ => True
  | Registry (Item o i) => u16_ok o /\ u64_ok i
  | Registry (IndexId o i) => u16_ok o /\ u64_ok i
  | Registry (Index x o i _) => u16_ok x /\ u16_ok o /\ u64_ok i /\ o <> U16_MAX
  | Registry (Reference o i o' i') => u16_ok o /\ u64_ok i /\ u16_ok o' /\ u64_ok i'
  | Registry (PrimaryKey o x key) => u16_ok x /\ x <> U16_MAX /\ length key <> 16%nat /\
      match o with Some o => u16_ok o /\ o <> U16_MAX | None => True end
  | Registry (IdCounter o) => u16_ok o
  | Queue (Message q) => u64_ok q
  | Queue (MessageEvent due q n) => u64_ok due /\ u64_ok q /\ length n = 8%nat
  | Queue _ => True
  | Telemetry (Span i) | Telemetry (Metric i) => u64_ok i
  | Search index id typ =>
      match id with
      | Account a d => global index = false /\ u32_ok a /\ u32_ok d
      | Global i => global index = true /\ u64_ok i
      end /\
      match typ with
      | Term field hash => u8_ok field /\ hash_ok hash
      | Field field _ => u8_ok field
      | Document => True
      end
  | Any _ _ => False
  | ShareNotification n a => u64_ok n /\ u32_ok a
  | DocumentId | ChangeId | Quota => True
  | TenantQuota t => u32_ok t
  | NodeId n => u16_ok n
  end.

(** Collections have numbers up to 14. *)
Definition key_ok (k : ValueKey) : Prop :=
  u32_ok (account_id k) /\ u32_ok (document_id k) /\ 0 <= collection k < 254 /\ class_ok (collection k) (class k).

(** What of a key its class uses. *)
Definition uses (c : ValueClass) : bool * bool * bool :=
  match c with
  | Property _ | IndexProperty _ | Acl _ | Blob (BLink _ LDocument) => (true, true, true)
  | Blob (BLink _ (LTemporary _)) | ChangeId | Quota => (true, false, false)
  | DocumentId => (true, true, false)
  | _ => (false, false, false)
  end.

Definition same_key (a b : ValueKey) : Prop :=
  class a = class b /\
  let '(acc, coll, doc) := uses (class a) in
  (acc = true -> account_id a = account_id b) /\ (coll = true -> collection a = collection b) /\
  (doc = true -> document_id a = document_id b).

(** Take equal fields off the front. *)
Ltac widths := first [assumption|by vm_compute].
Ltac peel H :=
  repeat (lazymatch type of H with
  | be_bytes ?n ?a ++ _ = be_bytes ?n ?b ++ _ => apply app_be_inj in H as [? H]; [|widths..]
  | be_bytes ?n ?a = be_bytes ?n ?b => apply be_inj in H; [|widths..]
  | ?a :: _ = ?b :: _ => apply cons_split in H as [? H]
  | [] ++ _ = _ => cbn [app] in H
  | _ = [] ++ _ => cbn [app] in H
  | (?a :: _) ++ _ = _ => cbn [app] in H
  | (?a ++ ?b) ++ _ = _ => rewrite <- !app_assoc in H
  end).
Ltac by_length H := exfalso; apply (f_equal length) in H; rewrite ?length_app, ?be_bytes_length in H; cbn [length] in H; lia.

Lemma hash_bytes_inj a b x y : hash_ok a -> hash_ok b -> as_bytes a ++ x = as_bytes b ++ y -> a = b /\ x = y.
Proof.
  intros Ha Hb E. assert (a = b) as -> by (apply (inj Some); by rewrite <- (deserialize_as_bytes a x), <- (deserialize_as_bytes b y), E).
  split; [done|]. by apply app_inv_head in E.
Qed.

Lemma index_numbers i j n : to_u8 i = Some n -> to_u8 j = Some n -> i = j.
Proof. destruct i, j; cbn; congruence. Qed.

(** The groups of registry classes that share a subspace. *)
Definition registry_kind (r : RegistryClass) : Z :=
  match r with Item _ _ => 0 | IndexId _ _ | Index _ _ _ _ => 1 | Reference _ _ _ _ | PrimaryKey _ _ _ => 2 | IdCounter _ => 3 end.

Lemma item_subspace o i : registry_subspace (Item o i) ∈ [c#"d"; c#"j"; c#"w"; c#"o"; c#"x"; c#"r"; c#"h"; c#"s"].
Proof. cbn [registry_subspace]. repeat case_match; set_solver. Qed.

Lemma registry_kind_subspace r r' : registry_subspace r = registry_subspace r' -> registry_kind r = registry_kind r'.
Proof.
  destruct r as [o i| | | | |], r' as [o' i'| | | | |]; try done; intros E; exfalso;
    first [pose proof (item_subspace o i) as H; rewrite E in H|pose proof (item_subspace o' i') as H; rewrite <- E in H];
    apply list_elem_of_In in H; vm_compute in H; repeat destruct H as [H|H]; done.
Qed.

Lemma registry_inj coll r r' : class_ok coll (Registry r) -> class_ok coll (Registry r') -> registry_kind r = registry_kind r' ->
  serialize_registry r = serialize_registry r' -> r = r'.
Proof.
  intros H H' Hk E. destruct r, r'; try discriminate Hk; cbn [class_ok] in H, H'; destruct_and?;
    cbn [serialize_registry] in E; unfold u16, u64 in E.
  - peel E. by subst.
  - peel E. by subst.
  - by_length E.
  - peel E. apply app_inj_2 in E as [-> E]; [|by rewrite !be_bytes_length]. peel E. by subst.
  - peel E. done.
  - peel E. by subst.
  - peel E. by subst.
  - by_length E.
  - assert (forall o : option Z, match o with Some o => u16_ok o /\ o <> U16_MAX | None => True end ->
      in_width (8 * Z.of_nat 2) (default U16_MAX o)) as Hd by (intros [o|] Ho; [apply Ho|by vm_compute]).
    apply app_be_inj in E as [Eo E]; [|by apply Hd..]. peel E. subst.
    destruct object_id as [o|], object_id0 as [o'|]; cbn in Eo; destruct_and?; subst; done.
  - peel E. by subst.
Qed.

Lemma to_u8_range i n : to_u8 i = Some n -> 0 <= n < 8.
Proof. destruct i; cbn; intros [= <-]; lia. Qed.

(** The first byte of a search key: the index and the kind of entry. *)
Definition search_kind (t : SearchIndexType) : Z := match t with Term _ _ => 0 | Field _ _ => 1 | Document => 2 end.

Lemma serialize_search_head index id typ b : serialize_search index id typ = Some b ->
  exists n rest, to_u8 index = Some n /\ b = n + 64 * search_kind typ :: rest.
Proof.
  unfold serialize_search. destruct (to_u8 index) as [n|] eqn:E; [|done]. pose proof (to_u8_range _ _ E) as Hn.
  assert (forall k, Z.lor n (Z.shiftl k 6) = n + 64 * k) as Hlor.
  { intros k. rewrite lor_shiftl_disjoint by (unfold in_width; lia). lia. }
  intros <-%(inj Some). exists n. destruct typ as [f h|f d|], id; cbn; rewrite ?Hlor; eexists; (split; [done|]);
    f_equal; lia.
Qed.

Lemma term_tail_inj h h' f f' (s s' : list Z) : hash_ok h -> hash_ok h' -> length s = length s' ->
  (payload h ++ u8 (payload_len h) ++ u8 f) ++ s = (payload h' ++ u8 (payload_len h') ++ u8 f') ++ s' ->
  h = h' /\ f = f' /\ s = s'.
Proof.
  intros H H' Hs E. apply app_inj_2 in E as [E ->]; [|done]. apply app_inj_2 in E as [Ep E]; [|done].
  injection E as El ->. split_and!; [|done..].
  destruct (as_bytes_payload h H) as [Eh _], (as_bytes_payload h' H') as [Eh' _].
  apply (inj Some). rewrite <- (deserialize_as_bytes h [] H), <- (deserialize_as_bytes h' [] H').
  by rewrite Eh, Eh', Ep, El.
Qed.

Lemma search_inj coll index id typ index' id' typ' b :
  class_ok coll (Search index id typ) -> class_ok coll (Search index' id' typ') ->
  serialize_search index id typ = Some b -> serialize_search index' id' typ' = Some b ->
  Search index id typ = Search index' id' typ'.
Proof.
  intros [H1 H2] [H1' H2'] E E'.
  destruct (serialize_search_head _ _ _ _ E) as (n & r & En & Er), (serialize_search_head _ _ _ _ E') as (n' & r' & En' & Er').
  rewrite Er in Er'. injection Er' as Eh Err. pose proof (to_u8_range _ _ En). pose proof (to_u8_range _ _ En').
  assert (n = n' /\ search_kind typ = search_kind typ') as [<- Hk] by (destruct typ, typ'; cbn in Eh |- *; lia).
  assert (index = index') as <- by (by eapply index_numbers).
  assert (match id, id' with Account _ _, Account _ _ | Global _, Global _ => True | _, _ => False end) as Hid.
  { destruct id, id'; destruct_and?; try done; congruence. }
  unfold serialize_search in E, E'. rewrite En in E, E'. rewrite <- E' in E. apply (inj Some) in E. clear E' Er Err Eh.
  destruct typ as [f h|f d|], typ' as [f' h'|f' d'|]; try discriminate Hk;
    destruct id as [a i|i], id' as [a' i'|i']; try done; cbn [class_ok] in *; destruct_and?; unfold u8, u32, u64 in E;
    cbn [app] in E; apply (f_equal (@tl Z)) in E; cbn [tl] in E.
  - apply app_be_inj in E as [<- E]; [|widths..].
    apply (term_tail_inj h h' f f' (be_bytes 4 i) (be_bytes 4 i')) in E as (<- & <- & E); [|done|done|by rewrite !be_bytes_length].
    peel E. by subst.
  - apply (term_tail_inj h h' f f' (be_bytes 8 i) (be_bytes 8 i')) in E as (<- & <- & E); [|done|done|by rewrite !be_bytes_length].
    peel E. by subst.
  - peel E. subst. apply app_inj_2 in E as [-> E]; [|by rewrite !be_bytes_length]. peel E. by subst.
  - apply cons_split in E as [-> E]. apply app_inj_2 in E as [-> E]; [|by rewrite !be_bytes_length]. peel E. by subst.
  - peel E. by subst.
  - peel E. by subst.
Qed.

(** Which classes a subspace holds. *)
Definition members (space coll : Z) (c : ValueClass) : Prop :=
  match c with
  | Property f => space = c#"p" \/ (space = c#"n" /\ coll = MAILBOX_COLLECTION /\ f = MAILBOX_COUNTER_FIELD)
  | IndexProperty _ => space = c#"p"
  | Acl _ => space = c#"a"
  | TaskQueue _ => space = c#"f"
  | Blob _ => space = c#"k"
  | InMemory (MKey _) => space = c#"m"
  | InMemory (MCounter _) => space = c#"y"
  | Registry (Item _ _) => space ∈ [c#"d"; c#"j"; c#"w"; c#"o"; c#"x"; c#"r"; c#"h"; c#"s"]
  | Registry (IndexId _ _) | Registry (Index _ _ _ _) => space = c#"b"
  | Registry (Reference _ _ _ _) | Registry (PrimaryKey _ _ _) | NodeId _ => space = c#"g"
  | Queue (Message _) => space = c#"e"
  | Queue (MessageEvent _ _ _) => space = c#"q"
  | Queue _ => space = c#"u"
  | Telemetry (Span _) => space = c#"o"
  | Telemetry (Metric _) => space = c#"x"
  | Registry (IdCounter _) | DocumentId | ChangeId | Quota | TenantQuota _ => space = c#"n"
  | ShareNotification _ _ => space = SUBSPACE_LOGS
  | Search _ _ _ => space = c#"z"
  | Any _ _ => True
  end.

Lemma subspace_members coll c : members (subspace coll c) coll c.
Proof.
  destruct c as [f|p|g|[]|t|b|r|[]|[]|i id t|a k|n a| | | |t|n]; try done; cbn [members subspace].
  - case_if; [right|by left]. split; [done|]. lia.
  - destruct r as [o i| | | | |]; try done. apply item_subspace.
Qed.

(** Classes of one subspace that are of different sorts write keys of
    different lengths, or with different marks. *)
Definition key_bytes (k : ValueKey) : option (list Z) :=
  serialize_class (account_id k) (collection k) (document_id k) (class k).

Lemma index_property_inj a b x y bytes : key_ok a -> key_ok b -> class a = IndexProperty x -> class b = IndexProperty y ->
  key_bytes a = Some bytes -> key_bytes b = Some bytes -> same_key a b.
Proof.
  destruct a as [aa ac ad aC], b as [ba bc bd bC]. intros (Ha1 & Ha2 & Ha3 & Ha4) (Hb1 & Hb2 & Hb3 & Hb4).
  cbn [class account_id collection document_id] in *. intros -> ->. unfold key_bytes, same_key. cbn [class account_id collection document_id].
  intros Ea Eb. rewrite <- Eb in Ea. clear Eb.
  destruct x as [p h|p v], y as [q g|q w]; cbn [class_ok serialize_class] in *; destruct_and?; apply (inj Some) in Ea;
    unfold u32, u8, u64 in Ea; cbn [app] in Ea; peel Ea; subst; try congruence.
  - apply hash_bytes_inj in Ea as [-> Ea]; [|done..]. peel Ea. by subst.
  - peel Ea. by subst.
Qed.

Lemma property_inj a b f bytes : key_ok a -> key_ok b -> class a = Property f ->
  match class b with Property _ | IndexProperty _ => True | _ => False end ->
  key_bytes a = Some bytes -> key_bytes b = Some bytes -> same_key a b.
Proof.
  destruct a as [aa ac ad aC], b as [ba bc bd bC]. intros (Ha1 & Ha2 & Ha3 & Ha4) (Hb1 & Hb2 & Hb3 & Hb4).
  unfold key_bytes, same_key. cbn [class account_id collection document_id] in *. intros -> Hb Ea Eb. rewrite <- Eb in Ea. clear Eb.
  destruct bC as [g|[q h|q w]| | | | | | | | | | | | | | |]; try done; cbn [class_ok] in Ha4, Hb4; destruct_and?;
    apply (inj Some) in Ea; unfold u32, u8, u64 in Ea.
  - peel Ea. by subst.
  - destruct (as_bytes_payload h ltac:(done)) as [E _]. rewrite E in Ea. by_length Ea.
Qed.

Lemma blob_inj a b x y bytes : key_ok a -> key_ok b -> class a = Blob x -> class b = Blob y ->
  key_bytes a = Some bytes -> key_bytes b = Some bytes -> same_key a b.
Proof.
  destruct a as [aa ac ad aC], b as [ba bc bd bC]. intros (Ha1 & Ha2 & Ha3 & Ha4) (Hb1 & Hb2 & Hb3 & Hb4).
  unfold key_bytes, same_key. cbn [class account_id collection document_id] in *. intros -> -> Ea Eb. rewrite <- Eb in Ea. clear Eb.
  apply (inj Some) in Ea. destruct x as [h|h [i| |u]], y as [g|g [j| |v]]; cbn [class_ok serialize_blob] in *; destruct_and?;
    unfold u32, u8, u64 in Ea; try by_length Ea; try (apply app_inj_1 in Ea as [-> Ea]; [|congruence]; peel Ea); by subst.
Qed.

(** Property and counter subspaces are counted as one, so are those of the
    registry's items and of telemetry. *)
Definition space_family (space : Z) : Z :=
  if space =? c#"n" then c#"p"
  else if bool_decide (space ∈ [c#"d"; c#"j"; c#"w"; c#"o"; c#"x"; c#"r"; c#"h"; c#"s"]) then c#"d" else space.

Definition family (c : ValueClass) : Z :=
  match c with
  | Property _ | IndexProperty _ | Registry (IdCounter _) | DocumentId | ChangeId | Quota | TenantQuota _ => c#"p"
  | Acl _ => c#"a"
  | TaskQueue _ => c#"f"
  | Blob _ => c#"k"
  | InMemory (MKey _) => c#"m"
  | InMemory (MCounter _) => c#"y"
  | Registry (Item _ _) | Telemetry _ => c#"d"
  | Registry (IndexId _ _) | Registry (Index _ _ _ _) => c#"b"
  | Registry (Reference _ _ _ _) | Registry (PrimaryKey _ _ _) | NodeId _ => c#"g"
  | Queue (Message _) => c#"e"
  | Queue (MessageEvent _ _ _) => c#"q"
  | Queue _ => c#"u"
  | ShareNotification _ _ => SUBSPACE_LOGS
  | Search _ _ _ => c#"z"
  | Any _ _ => 0
  end.

Lemma family_subspace coll c : ~ (exists s k, c = Any s k) -> space_family (subspace coll c) = family c.
Proof.
  intros H. pose proof (subspace_members coll c) as Hm. revert Hm. generalize (subspace coll c). intros s Hm.
  destruct c as [f|p|g|[]|t|b|r|[]|[]|i id t|a k|n a| | | |t|n]; try (by rewrite Hm).
  - by destruct Hm as [->|(-> & _)].
  - destruct r as [o i| | | | |]; try (by rewrite Hm).
    apply list_elem_of_In in Hm. cbn in Hm. by repeat destruct Hm as [<-|Hm]; [..|destruct Hm].
  - destruct H. by eauto.
Qed.

Lemma same_key_sym a b : same_key a b -> same_key b a.
Proof. unfold same_key. intros [E H]. rewrite <- E. split; [done|]. destruct (uses (class a)) as [[acc coll] doc]. naive_solver. Qed.

Lemma primary_node coll coll' o x key n : class_ok coll (Registry (PrimaryKey o x key)) -> class_ok coll' (NodeId n) ->
  be_bytes 2 (default U16_MAX o) ++ be_bytes 2 x ++ key = be_bytes 4 U32_MAX ++ be_bytes 2 n -> False.
Proof.
  cbn [class_ok]. intros (Hx & Hm & _ & Ho) _. change (be_bytes 4 U32_MAX) with (be_bytes 2 U16_MAX ++ be_bytes 2 U16_MAX).
  rewrite <- app_assoc. intros E.
  apply app_be_inj in E as [_ E]; [|destruct o as [o|]; [apply Ho|by vm_compute]|by vm_compute].
  apply app_be_inj in E as [E _]; [done|done|by vm_compute].
Qed.

(** In one family, keys of different sorts have different bytes. *)
Lemma family_inj a b bytes : key_ok a -> key_ok b -> family (class a) = family (class b) ->
  subspace (collection a) (class a) = subspace (collection b) (class b) ->
  key_bytes a = Some bytes -> key_bytes b = Some bytes -> same_key a b.
Proof.
  intros Ha Hb Hf Es Ea Eb.
  pose proof (subspace_members (collection a) (class a)) as Ma. pose proof (subspace_members (collection b) (class b)) as Mb.
  rewrite <- Es in Mb. revert Ma Mb. generalize (subspace (collection a) (class a)). intros s Ma Mb.
  destruct (class a) as [f|p|g|[]|[|]|x|r|[]|[]|i id t|? ?|n ac| | | |t|n] eqn:Ca;
    destruct (class b) as [f'|p'|g'|[]|[|]|x'|r'|[]|[]|i' id' t'|? ?|n' ac'| | | |t'|n'] eqn:Cb; try discriminate Hf.
  all: try (destruct r; discriminate Hf). all: try (destruct r'; discriminate Hf).
  all: try (apply (property_inj a b f bytes Ha Hb Ca); [by rewrite Cb|done..]).
  all: try (apply same_key_sym, (property_inj b a f' bytes Hb Ha Cb); [by rewrite Ca|done..]).
  all: try (by apply (index_property_inj a b p p' bytes)). all: try (by apply (blob_inj a b x x' bytes)).
  all: destruct Ha as (Ha1 & Ha2 & Ha3 & Ha), Hb as (Hb1 & Hb2 & Hb3 & Hb); unfold key_bytes, same_key in *;
    rewrite Ca in Ha, Ea |- *; rewrite Cb in Hb, Eb |- *; clear Ca Cb.
  all: try (match type of Ea with _ _ _ _ (Search _ _ _) = _ => idtac end; split; [by eapply (search_inj (collection a))|done]).
  all: rewrite <- Eb in Ea; clear Eb.
  all: try (lazymatch type of Ea with _ _ _ _ (Registry _) = _ _ _ _ (Registry _) => idtac end;
    split; [f_equal; eapply registry_inj; [exact Ha|exact Hb|by apply registry_kind_subspace|by apply (inj Some)]|done]).
  all: try destruct r as [o i| | | | |o]; try destruct r' as [o' i'| | | | |o']; try discriminate Hf.
  all: try (rewrite Ma in Mb; discriminate Mb); cbn [class_ok serialize_class serialize_registry uses] in Ha, Hb, Ea |- *;
    apply (inj Some) in Ea; unfold u8, u16, u32, u64, SHARE_NOTIFICATION, U8_MAX in Ea.
  all: try by_length Ea.
  all: try (by exfalso; eapply (primary_node 0 0); [exact Ha|exact Hb|exact Ea]).
  all: try (by exfalso; eapply (primary_node 0 0); [exact Hb|exact Ha|symmetry; exact Ea]).
  all: destruct_and?; peel Ea; subst; try (apply app_inj_1 in Ea as [-> Ea]; [|congruence]; peel Ea); try done; lia.
Qed.

End Injective.

(** ** The order of the keys *)

(** The order of bytes, in which the back ends iterate. *)
Fixpoint byte_order (a b : list Z) : comparison :=
  match a, b with
  | [], [] => Eq
  | [], _ => Lt
  | _, [] => Gt
  | x :: a, y :: b => match x ?= y with Eq => byte_order a b | c => c end
  end.

(** First by one number, then by what [rest] says. *)
Definition then_by (c rest : comparison) : comparison := match c with Eq => rest | _ => c end.

Lemma of_be_cons x l : of_be_bytes (x :: l) = x * 2 ^ (8 * Z.of_nat (length l)) + of_be_bytes l.
Proof. unfold of_be_bytes. cbn [fold_left]. by rewrite of_be_bytes_acc. Qed.

Lemma byte_order_prefix p q x y : length p = length q -> bytes_ok p -> bytes_ok q ->
  byte_order (p ++ x) (q ++ y) = then_by (of_be_bytes p ?= of_be_bytes q) (byte_order x y).
Proof.
  intros Hl Hp. revert q Hl. induction Hp as [|b p Hb Hp IH]; intros [|c q] Hl Hq; try discriminate Hl; [done|].
  injection Hl as Hl. inversion Hq as [|? ? Hc Hq']; subst. cbn [app byte_order]. rewrite !of_be_cons, Hl.
  pose proof (of_be_range p Hp) as Rp. pose proof (of_be_range q Hq') as Rq. rewrite Hl in Rp. unfold in_width in *.
  rewrite IH by done. set (m := 2 ^ (8 * Z.of_nat (length q))) in *.
  destruct (Z.compare_spec b c) as [->|H|H].
  - by rewrite Z.add_compare_mono_l.
  - rewrite (proj2 (Z.compare_lt_iff _ _)); [done|nia].
  - rewrite (proj2 (Z.compare_gt_iff _ _)); [done|nia].
Qed.

Lemma byte_order_field n a b x y : in_width (8 * Z.of_nat n) a -> in_width (8 * Z.of_nat n) b ->
  byte_order (be_bytes n a ++ x) (be_bytes n b ++ y) = then_by (a ?= b) (byte_order x y).
Proof.
  intros Ha Hb. rewrite byte_order_prefix by (apply be_bytes_ok || by rewrite !be_bytes_length).
  by rewrite !of_be_id.
Qed.

Lemma byte_order_last n a b : in_width (8 * Z.of_nat n) a -> in_width (8 * Z.of_nat n) b ->
  byte_order (be_bytes n a) (be_bytes n b) = (a ?= b).
Proof.
  intros Ha Hb. pose proof (byte_order_field n a b [] [] Ha Hb) as E. rewrite !app_nil_r in E. rewrite E.
  by destruct (a ?= b).
Qed.

Lemma byte_order_cons a b x y : byte_order (a :: x) (b :: y) = then_by (a ?= b) (byte_order x y).
Proof. cbn [byte_order]. by destruct (a ?= b). Qed.

(** The order of bytes is the order of the fields: the log of changes is
    read by account, collection and change, the queue by the time a message
    is due, then by its number and queue name, the tasks by the time they
    are due, after those without one. *)
Theorem keys_ordered (w : bool) :
  (forall a b, u32_ok (log_account a) -> u32_ok (log_account b) -> u64_ok (change_id a) -> u64_ok (change_id b) ->
    byte_order (serialize_log a w) (serialize_log b w) =
    then_by (log_account a ?= log_account b) (then_by (log_collection a ?= log_collection b) (change_id a ?= change_id b))) /\
  (forall acc col doc acc' col' doc' due q n due' q' n', u64_ok due -> u64_ok due' -> u64_ok q -> u64_ok q' ->
    exists x y, serialize (MkKey acc col doc (Queue (MessageEvent due q n))) w = Some x /\
      serialize (MkKey acc' col' doc' (Queue (MessageEvent due' q' n'))) w = Some y /\
      byte_order x y = then_by (due ?= due') (then_by (q ?= q') (byte_order n n'))) /\
  (forall acc col doc acc' col' doc' id due id' due', u64_ok due -> u64_ok due' -> u64_ok id -> u64_ok id' ->
    exists x y z, serialize (MkKey acc col doc (TaskQueue (Due id due))) w = Some x /\
      serialize (MkKey acc' col' doc' (TaskQueue (Due id' due'))) w = Some y /\
      serialize (MkKey acc' col' doc' (TaskQueue (Task id'))) w = Some z /\
      byte_order x y = then_by (due ?= due') (id ?= id') /\ (0 < due -> byte_order z x = Lt)).
Proof.
  assert (forall p x y, byte_order (p ++ x) (p ++ y) = byte_order x y) as Hp.
  { induction p as [|c p IH]; intros x y; [done|]. cbn [app byte_order]. by rewrite Z.compare_refl. }
  split_and!.
  - intros a b Ha Hb Hc Hd. unfold serialize_log. rewrite Hp. unfold u32, u8, u64.
    rewrite byte_order_field by done. cbn [app]. rewrite byte_order_cons, byte_order_last by done. done.
  - intros acc col doc acc' col' doc' due q n due' q' n' ????. eexists _, _. split_and!; [done..|]. cbn [class collection subspace].
    rewrite Hp. unfold u64. by rewrite !byte_order_field by done.
  - intros acc col doc acc' col' doc' id due id' due' ????. eexists _, _, _. split_and!; [done..| |]; cbn [class collection subspace].
    + rewrite Hp. unfold u64. by rewrite byte_order_field, byte_order_last by done.
    + intros Hd. rewrite Hp. unfold u64. rewrite byte_order_field by (done || by vm_compute).
      by rewrite (proj2 (Z.compare_lt_iff _ _)) by done.
Qed.

(** ** Examples *)

Module Demo.
Definition quota : ValueKey := MkKey 7 0 5 Quota.
Definition quota' : ValueKey := MkKey 7 3 6 Quota.
Definition documents : ValueKey := MkKey 7 3 6 DocumentId.


Definition due_early : list Z :=
  default [] (serialize (MkKey 7 0 5 (Queue (MessageEvent 256 9 (repeat 0 8)))) true).
Definition due_late : list Z :=
  default [] (serialize (MkKey 7 0 5 (Queue (MessageEvent 65535 1 (repeat 0 8)))) true).
Example earlier_first : byte_order due_early due_late = Lt.
Proof. by vm_compute. Qed.

Lemma keys_ordered_witness :
  byte_order (serialize_log (MkLogKey 7 0 255) true) (serialize_log (MkLogKey 7 0 256) true) = Lt.
Proof. rewrite (proj1 (keys_ordered true)) by (by vm_compute). by vm_compute. Defined.
End Demo.
