(* ===== verification/SearchFilter.v ===== *)
(** * Search filters and their evaluation ([crates/store/src/search])

    The data of a search ([mod.rs], [fields.rs], [document.rs]), the stack
    machine that evaluates a list of filters over sets of documents (written
    twice in the code, [local.rs] and [query.rs]) and the order of results.
    A [RoaringBitmap] is a finite set of document ids.  The meaning of a query
    as a tree, and that the machine computes it, follow the definitions. *)

From Stdlib Require Import Btauto.
From stdpp Require Import gmap sorting.
From S2P Require Import Prelude.

(** ** Data *)

(* [crates/store/src/search/mod.rs:28-35] SearchOperator *)
Inductive SearchOperator := LowerThan | LowerEqualThan | GreaterThan | GreaterEqualThan | Equal | Contains.

(* [crates/store/src/search/mod.rs:50-63] EmailSearchField *)
Inductive EmailSearchField :=
| EFrom | ETo | ECc | EBcc | ESubject | EBody | EAttachment | EReceivedAt | ESentAt | ESize | EHasAttachment | EHeaders.
(* [crates/store/src/search/mod.rs:66-74] CalendarSearchField *)
Inductive CalendarSearchField := CTitle | CDescription | CLocation | COwner | CAttendee | CStart | CUid.
(* [crates/store/src/search/mod.rs:77-89] ContactSearchField *)
Inductive ContactSearchField :=
| KMember | KKind | KName | KNickname | KOrganization | KEmail | KPhone | KOnlineService | KAddress | KNote | KUid.
(* [crates/store/src/search/mod.rs:92-95] FileSearchField *)
Inductive FileSearchField := FName | FContent.
(* [crates/store/src/search/mod.rs:98-102] TracingSearchField *)
Inductive TracingSearchField := TEventType | TQueueId | TKeywords.

(* [crates/store/src/search/mod.rs:38-47] SearchField *)
Inductive SearchField :=
| FieldAccountId | FieldDocumentId | FieldId
| Email (f : EmailSearchField) | Calendar (f : CalendarSearchField) | Contact (f : ContactSearchField)
| File (f : FileSearchField) | Tracing (f : TracingSearchField).

#[export] Instance email_field_dec : EqDecision EmailSearchField.
Proof. solve_decision. Defined.
#[export] Instance calendar_field_dec : EqDecision CalendarSearchField.
Proof. solve_decision. Defined.
#[export] Instance contact_field_dec : EqDecision ContactSearchField.
Proof. solve_decision. Defined.
#[export] Instance file_field_dec : EqDecision FileSearchField.
Proof. solve_decision. Defined.
#[export] Instance tracing_field_dec : EqDecision TracingSearchField.
Proof. solve_decision. Defined.
#[export] Instance field_dec : EqDecision SearchField.
Proof. solve_decision. Defined.
#[export] Instance operator_dec : EqDecision SearchOperator.
Proof. solve_decision. Defined.

(** A language is its number, [Language as usize]; the code matches on three
    of them. *)
Definition Language : Type := Z.
Definition L_ENGLISH : Language := 1.
Definition L_UNKNOWN : Language := 69.
Definition L_NONE : Language := 70.

(* [crates/store/src/search/mod.rs:105-111] SearchValue *)
Inductive SearchValue :=
| VText (value : list Z) (language : Language)
| VKeyValues (kv : list (list Z * list Z))
| VInt (v : Z) | VUint (v : Z) | VBoolean (b : bool).

(* [crates/store/src/search/mod.rs:127-138] SearchFilter *)
Inductive SearchFilter :=
| Operator (field : SearchField) (op : SearchOperator) (value : SearchValue)
| DocumentSet (set : gset Z)
| And | Or | Not | End.

(* [crates/store/src/search/mod.rs:141-154] SearchComparator *)
Inductive SearchComparator :=
| CmpField (field : SearchField) (ascending : bool)
| CmpDocumentSet (set : gset Z) (ascending : bool)
| CmpSortedSet (set : gmap Z Z) (ascending : bool).

(** *** Fields ([fields.rs], outside of [test_mode]) *)

(* [crates/store/src/search/fields.rs:35-48] EmailSearchField::is_indexed *)
Definition email_is_indexed (f : EmailSearchField) : bool :=
  match f with EFrom | ETo | ESubject | EReceivedAt | ESentAt | ESize | EHasAttachment => true | _ => false end.
(* [crates/store/src/search/fields.rs:67-78] EmailSearchField::is_text *)
Definition email_is_text (f : EmailSearchField) : bool :=
  match f with EFrom | ETo | ECc | EBcc | ESubject | EBody | EAttachment => true | _ => false end.
(* [crates/store/src/search/fields.rs:102-104] CalendarSearchField::is_indexed *)
Definition calendar_is_indexed (f : CalendarSearchField) : bool := match f with CStart | CUid => true | _ => false end.
(* [crates/store/src/search/fields.rs:136-138] ContactSearchField::is_indexed *)
Definition contact_is_indexed (f : ContactSearchField) : bool := match f with KUid | KKind => true | _ => false end.
(* [crates/store/src/search/fields.rs:187-192] TracingSearchField::is_indexed *)
Definition tracing_is_indexed (f : TracingSearchField) : bool := match f with TQueueId | TEventType => true | _ => false end.
(* [crates/store/src/search/fields.rs:194-196] TracingSearchField::is_text *)
Definition tracing_is_text (f : TracingSearchField) : bool := match f with TKeywords => true | _ => false end.

(* [crates/store/src/search/fields.rs:200-209] SearchField::is_indexed *)
Definition is_indexed (f : SearchField) : bool :=
  match f with
  | Email f => email_is_indexed f
  | Calendar f => calendar_is_indexed f
  | Contact f => contact_is_indexed f
  | File _ => false
  | Tracing f => tracing_is_indexed f
  | FieldAccountId | FieldDocumentId | FieldId => false
  end.
(* [crates/store/src/search/fields.rs:211-220] SearchField::is_text *)
Definition is_text (f : SearchField) : bool :=
  match f with
  | Email f => email_is_text f
  | Calendar f => negb (calendar_is_indexed f)
  | Contact f => negb (contact_is_indexed f)
  | File _ => true
  | Tracing f => tracing_is_text f
  | FieldAccountId | FieldDocumentId | FieldId => false
  end.
(* [crates/store/src/search/fields.rs:222-224] SearchField::is_json *)
Definition is_json (f : SearchField) : bool := match f with Email EHeaders => true | _ => false end.

(* [crates/store/src/search/term.rs:399-450] SearchField::u8_id *)
Definition u8_id (f : SearchField) : Z :=
  match f with
  | FieldAccountId => 0 | FieldDocumentId => 1 | FieldId => 2
  | Email f =>
      match f with
      | EFrom => 3 | ETo => 4 | ECc => 5 | EBcc => 6 | ESubject => 7 | EBody => 8 | EAttachment => 9
      | EReceivedAt => 10 | ESentAt => 11 | ESize => 12 | EHasAttachment => 13 | EHeaders => 14
      end
  | Calendar f =>
      match f with
      | CTitle => 3 | CDescription => 4 | CLocation => 5 | COwner => 6 | CAttendee => 7 | CStart => 8 | CUid => 9
      end
  | Contact f =>
      match f with
      | KMember => 3 | KKind => 4 | KName => 5 | KNickname => 6 | KOrganization => 7 | KEmail => 8 | KPhone => 9
      | KOnlineService => 10 | KAddress => 11 | KNote => 12 | KUid => 13
      end
  | File f => match f with FName => 3 | FContent => 4 end
  | Tracing f => match f with TEventType => 3 | TQueueId => 4 | TKeywords => 5 end
  end.

(** *** Making filters ([document.rs]) *)

(* [crates/store/src/search/document.rs:140-150] cond *)
Definition cond (field : SearchField) (op : SearchOperator) (value : SearchValue) : SearchFilter := Operator field op value.
(* [crates/store/src/search/document.rs:160-166] lt *)
Definition filter_lt (field : SearchField) (value : SearchValue) : SearchFilter := Operator field LowerThan value.
(* [crates/store/src/search/document.rs:168-174] le *)
Definition filter_le (field : SearchField) (value : SearchValue) : SearchFilter := Operator field LowerEqualThan value.
(* [crates/store/src/search/document.rs:176-182] gt *)
Definition filter_gt (field : SearchField) (value : SearchValue) : SearchFilter := Operator field GreaterThan value.
(* [crates/store/src/search/document.rs:184-190] ge *)
Definition filter_ge (field : SearchField) (value : SearchValue) : SearchFilter := Operator field GreaterEqualThan value.

(** [str::strip_prefix] and [str::strip_suffix] of a quote. *)
Definition strip_quotes (quote : Z) (text : list Z) : option (list Z) :=
  match text with
  | c :: t => if c =? quote then
                match rev t with c' :: t' => if c' =? quote then Some (rev t') else None | [] => None end
              else None
  | [] => None
  end.

(* [crates/store/src/search/document.rs:201-236] has_text *)
Definition has_text (field : SearchField) (text : list Z) (language : Language) : SearchFilter :=
  let '(is_exact, text) :=
    match strip_quotes 34 text with
    | Some t => (true, t)
    | None => match strip_quotes 39 text with Some t => (true, t) | None => (false, text) end
    end in
  if negb (language =? L_NONE) && is_exact then Operator field Equal (VText text language)
  else Operator field Contains (VText text language).

(* [crates/store/src/search/document.rs:248-250] is_in_set *)
Definition is_in_set (set : gset Z) : SearchFilter := DocumentSet set.

(** ** Evaluating filters *)

Definition xor (a b : gset Z) : gset Z := (a ∖ b) ∪ (b ∖ a).

(* [crates/store/src/search/local.rs:10-13] State *)
Record State := MkState { op : SearchFilter; bm : option (gset Z) }.

(** [None] is the panic of [unreachable!]. *)
(* [crates/store/src/search/query.rs:220-252] query_account, the logical operation *)
Definition apply_op (mask : gset Z) (st : State) (r : option (gset Z)) : option State :=
  match bm st with
  | Some dest =>
      match op st with
      | And => Some (MkState And (Some match r with Some s => dest ∩ s | None => ∅ end))
      | Or => Some (MkState Or (Some match r with Some s => dest ∪ s | None => dest end))
      | Not => Some (MkState Not (Some match r with Some s => dest ∩ xor s mask | None => dest end))
      | _ => None
      end
  | None =>
      Some (MkState (op st) (Some
        match r, op st with
        | Some s, Not => xor s mask
        | Some s, _ => s
        | None, Not => mask
        | None, _ => ∅
        end))
  end.

(** Whether the rest of a conjunction is skipped. *)
(* [crates/store/src/search/query.rs:255-255] query_account, the short circuit *)
Definition is_exhausted (st : State) : bool :=
  match op st, bm st with And, Some s => bool_decide (s = ∅) | _, _ => false end.

(* [crates/store/src/search/query.rs:256-262] query_account, the skipped filters *)
Fixpoint skip_to_end (filters : list SearchFilter) : list SearchFilter :=
  match filters with
  | [] => []
  | End :: _ => filters
  | _ :: filters => skip_to_end filters
  end.

Section Run.
Context {S E : Type}.
(** What a condition comes to: an error, [None] if the loop goes on with the
    next filter, or the documents. *)
Variable operator : SearchField -> SearchOperator -> SearchValue -> S -> S * result (option (option (gset Z))) E.
Variable mask : gset Z.

(** The loop, to the [bm] of the last state; [None] is a panic.  It is the
    same in [SearchQuery::filter] and in [Store::query_account]. *)
(* [crates/store/src/search/query.rs:59-264] query_account, the loop *)
Fixpoint run (filters : list SearchFilter) (s : S) (st : State) (stack : list State)
    : S * option (result (option (gset Z)) E) :=
  match filters with
  | [] => (s, Some (Ok (bm st)))
  | filter :: rest =>
      let proceed s r st stack :=
        match apply_op mask st r with
        | None => (s, None)
        | Some st =>
            if is_exhausted st then
              (fix skip (filters : list SearchFilter) :=
                 match filters with
                 | [] => run filters s st stack
                 | End :: _ => run filters s st stack
                 | _ :: filters => skip filters
                 end) rest
            else run rest s st stack
        end in
      match filter with
      | Operator field op value =>
          match operator field op value s with
          | (s, Err e) => (s, Some (Err e))
          | (s, Ok None) => run rest s st stack
          | (s, Ok (Some r)) => proceed s r st stack
          end
      | DocumentSet set => proceed s (Some set) st stack
      | And | Or | Not => run rest s (MkState filter None) (st :: stack)
      | End =>
          match stack with
          | prev_state :: stack => proceed s (bm st) prev_state stack
          | [] => (s, Some (Ok (bm st)))
          end
      end
  end.

Definition start : State := MkState And None.
End Run.

(** Without an index, conditions are ignored. *)
(* [crates/store/src/search/local.rs:104-106] filter, conditions *)
Definition no_operator (field : SearchField) (op : SearchOperator) (value : SearchValue) (s : unit)
    : unit * result (option (option (gset Z))) Empty_set := (s, Ok None).

(** [None] is a panic. *)
(* [crates/store/src/search/local.rs:72-163] filter *)
Definition filter_query (filters : list SearchFilter) (mask : gset Z) : option (gset Z) :=
  match filters with
  | [] => Some mask
  | _ =>
      match run no_operator mask filters tt start [] with
      | (_, Some (Ok results)) => Some (default ∅ results ∩ mask)
      | (_, Some (Err e)) => match e with end
      | (_, None) => None
      end
  end.

(** ** The order of results *)

(** The ids of a bitmap, from the least. *)
Definition ids (s : gset Z) : list Z := merge_sort (≤) (elements s).

(** [Ord::cmp] of what a comparator gives for two documents. *)
(* [crates/store/src/search/local.rs:201-216] into_sorted, one comparator *)
Definition compare_by (c : SearchComparator) (a b : Z) : comparison :=
  let cmp (a b : Z) (ascending : bool) := if ascending then Z.compare a b else Z.compare b a in
  match c with
  | CmpDocumentSet set ascending => cmp (Z.b2z (bool_decide (a ∈ set))) (Z.b2z (bool_decide (b ∈ set))) ascending
  | CmpSortedSet set ascending =>
      let missing := if ascending then u32_max else 0 in
      cmp (default missing (set !! a)) (default missing (set !! b)) ascending
  | CmpField _ _ => Eq
  end.

(* [crates/store/src/search/local.rs:199-222] into_sorted, the comparison *)
Fixpoint compare (comparators : list SearchComparator) (a b : Z) : comparison :=
  match comparators with
  | [] => Eq
  | c :: comparators => match compare_by c a b with Eq => compare comparators a b | ordering => ordering end
  end.

(** [slice::sort_by], a stable sort. *)
Fixpoint insert_by (cmp : Z -> Z -> comparison) (x : Z) (l : list Z) : list Z :=
  match l with
  | [] => [x]
  | y :: l' => match cmp x y with Gt => y :: insert_by cmp x l' | _ => x :: l end
  end.
Definition sort_by (cmp : Z -> Z -> comparison) (l : list Z) : list Z := fold_right (insert_by cmp) [] l.

(* [crates/store/src/search/local.rs:194-227] into_sorted *)
Definition into_sorted (results : gset Z) (comparators : list SearchComparator) : list Z :=
  let results := ids results in
  match results, comparators with
  | _ :: _, _ :: _ => sort_by (compare comparators) results
  | _, _ => results
  end.

(** ** What a query means

    A list of filters is a tree in prefix form: a connective, what it is
    applied to, [End].  For each document of the mask a query is true or
    false; [None] is a condition that the loop ignores.  A group of which
    nothing counts is false. *)

Inductive Connective := AllOf | AnyOf | NoneOf.
Inductive Query := QCond (field : SearchField) (op : SearchOperator) (value : SearchValue) | QDocs (set : gset Z)
| QGroup (c : Connective) (l : list Query).

Definition op_of (c : Connective) : SearchFilter := match c with AllOf => And | AnyOf => Or | NoneOf => Not end.

Fixpoint flatten (q : Query) : list SearchFilter :=
  match q with
  | QCond field op value => [Operator field op value]
  | QDocs set => [DocumentSet set]
  | QGroup c l => op_of c :: flat_map flatten l ++ [End]
  end.

Definition combine (c : Connective) (l : list bool) : bool :=
  match l with
  | [] => false
  | _ => match c with AllOf => forallb id l | AnyOf => existsb id l | NoneOf => forallb negb l end
  end.

(** Some [Query] in [l] counts. *)
Definition is_leaf (q : Query) : bool := match q with QGroup _ _ => false | _ => true end.

Section Query_ind.
Variable P : Query -> Prop.
Hypothesis Pcond : forall f o v, P (QCond f o v).
Hypothesis Pdocs : forall s, P (QDocs s).
Hypothesis Pgroup : forall c l, Forall P l -> P (QGroup c l).
Fixpoint Query_nested_ind (q : Query) : P q :=
  match q with
  | QCond f o v => Pcond f o v
  | QDocs s => Pdocs s
  | QGroup c l =>
      Pgroup c l ((fix go l := match l return Forall P l with
                               | [] => Forall_nil_2 P
                               | q :: l => Forall_cons_2 P q l (Query_nested_ind q) (go l)
                               end) l)
  end.
End Query_ind.

Section Meaning.
(** Which conditions are ignored, and which documents satisfy the others. *)
Variable ignored : SearchField -> bool.
Variable meaning : SearchField -> SearchOperator -> SearchValue -> Z -> bool.

Definition query_counts (q : Query) : bool := match q with QCond f _ _ => negb (ignored f) | _ => true end.

Fixpoint query_holds (d : Z) (q : Query) : bool :=
  match q with
  | QCond field op value => meaning field op value d
  | QDocs set => bool_decide (d ∈ set)
  | QGroup c l => combine c (omap (fun q => if query_counts q then Some (query_holds d q) else None) l)
  end.

(** The values of those that count. *)
Definition query_values (d : Z) (l : list Query) : list bool := omap (fun q => if query_counts q then Some (query_holds d q) else None) l.

(** Queries that the short circuit is right for: in a conjunction that is
    itself part of a query, after the first that counts there are no groups. *)
Fixpoint drop_ignored (l : list Query) : list Query :=
  match l with [] => [] | q :: l' => if query_counts q then l' else drop_ignored l' end.
Fixpoint query_ordered (q : Query) : bool :=
  match q with
  | QGroup c l =>
      forallb query_ordered l && match c with AllOf => forallb is_leaf (drop_ignored l) | _ => true end
  | _ => true
  end.
End Meaning.

(** ** The loop computes the meaning *)

Lemma skip_run {S E} (operator : SearchField -> SearchOperator -> SearchValue -> S -> S * result (option (option (gset Z))) E)
    mask s st stack rest :
  (fix skip (filters : list SearchFilter) :=
     match filters with
     | [] => run operator mask filters s st stack
     | End :: _ => run operator mask filters s st stack
     | _ :: filters => skip filters
     end) rest = run operator mask (skip_to_end rest) s st stack.
Proof. induction rest as [|[] rest IH]; done. Qed.

(** After an element that gave [r]. *)
Definition feed {S E} (operator : SearchField -> SearchOperator -> SearchValue -> S -> S * result (option (option (gset Z))) E)
    (mask : gset Z) (r : option (gset Z)) (rest : list SearchFilter) (s : S) (st : State) (stack : list State) :=
  match apply_op mask st r with
  | None => (s, None)
  | Some st => run operator mask (if is_exhausted st then skip_to_end rest else rest) s st stack
  end.

Lemma run_docs {S E} operator mask set rest s st stack :
  run (S := S) (E := E) operator mask (DocumentSet set :: rest) s st stack = feed operator mask (Some set) rest s st stack.
Proof. cbn. unfold feed. destruct (apply_op _ _ _) as [st'|]; [|done]. destruct (is_exhausted st'); [apply skip_run|done]. Qed.

Lemma run_operator {S E} operator mask f o v rest s st stack :
  run (S := S) (E := E) operator mask (Operator f o v :: rest) s st stack =
  match operator f o v s with
  | (s, Err e) => (s, Some (Err e))
  | (s, Ok None) => run operator mask rest s st stack
  | (s, Ok (Some r)) => feed operator mask r rest s st stack
  end.
Proof.
  cbn. destruct (operator f o v s) as [s' [[r|]|e]]; [|done..]. unfold feed. destruct (apply_op _ _ _) as [st'|]; [|done].
  destruct (is_exhausted st'); [apply skip_run|done].
Qed.

Lemma run_open {S E} operator mask c rest s st stack :
  run (S := S) (E := E) operator mask (op_of c :: rest) s st stack = run operator mask rest s (MkState (op_of c) None) (st :: stack).
Proof. by destruct c. Qed.

Lemma run_end {S E} operator mask rest s st prev stack :
  run (S := S) (E := E) operator mask (End :: rest) s st (prev :: stack) = feed operator mask (bm st) rest s prev stack.
Proof. cbn. unfold feed. destruct (apply_op _ _ _) as [st'|]; [|done]. destruct (is_exhausted st'); [apply skip_run|done]. Qed.

Lemma run_finish {S E} operator mask rest s st : head rest = Some End \/ rest = [] ->
  run (S := S) (E := E) operator mask rest s st [] = (s, Some (Ok (bm st))).
Proof. intros [H| ->]; [|done]. destruct rest as [|? rest]; [done|]. injection H as ->. done. Qed.

Lemma skip_to_end_finish filters : head (skip_to_end filters) = Some End \/ skip_to_end filters = [].
Proof. induction filters as [|[] filters IH]; cbn; auto. Qed.

Lemma combine_snoc c l b : l <> [] ->
  combine c (l ++ [b]) = match c with AllOf => combine c l && b | AnyOf => combine c l || b | NoneOf => combine c l && negb b end.
Proof.
  intros Hl. destruct l as [|x l]; [done|]. cbn [combine app]. destruct c; cbn.
  - rewrite forallb_app. cbn. by rewrite andb_true_r, andb_assoc.
  - rewrite existsb_app. cbn. by rewrite orb_false_r, orb_assoc.
  - rewrite forallb_app. cbn. by rewrite andb_true_r, andb_assoc.
Qed.

Lemma combine_one c b : combine c [b] = match c with NoneOf => negb b | _ => b end.
Proof. destruct c, b; done. Qed.

Lemma combine_all_false l l' : l <> [] -> combine AllOf l = false -> combine AllOf (l ++ l') = false.
Proof. destruct l as [|x l]; [done|]. intros _ H. cbn in *. by rewrite forallb_app, andb_assoc, H. Qed.

(** Membership as a boolean. *)
Lemma in_inter (d : Z) (a b : gset Z) : bool_decide (d ∈ a ∩ b) = bool_decide (d ∈ a) && bool_decide (d ∈ b).
Proof. rewrite (bool_decide_ext _ _ (elem_of_intersection a b d)). apply bool_decide_and. Qed.
Lemma in_union (d : Z) (a b : gset Z) : bool_decide (d ∈ a ∪ b) = bool_decide (d ∈ a) || bool_decide (d ∈ b).
Proof. rewrite (bool_decide_ext _ _ (elem_of_union a b d)). apply bool_decide_or. Qed.
Lemma in_none (d : Z) `{!Decision (d ∈ (∅ : gset Z))} : bool_decide (d ∈ (∅ : gset Z)) = false.
Proof. apply bool_decide_eq_false. apply not_elem_of_empty. Qed.
Lemma in_mask (d : Z) (mask : gset Z) : d ∈ mask -> bool_decide (d ∈ mask) = true.
Proof. apply bool_decide_eq_true_2. Qed.
Lemma in_xor (d : Z) (a mask : gset Z) : d ∈ mask -> bool_decide (d ∈ xor a mask) = negb (bool_decide (d ∈ a)).
Proof. intros H. unfold xor. destruct (decide (d ∈ a)) as [?|?]; [rewrite (bool_decide_true (d ∈ a)) by done|rewrite (bool_decide_false (d ∈ a)) by done];
  cbn; [apply bool_decide_false|apply bool_decide_true]; set_solver. Qed.

Lemma skip_leaves l rest : forallb is_leaf l = true -> skip_to_end (flat_map flatten l ++ End :: rest) = End :: rest.
Proof. induction l as [|[] l IH]; cbn; try done; intros H; by apply IH. Qed.

Section Correct.
Context {S E : Type}.
Variable operator : SearchField -> SearchOperator -> SearchValue -> S -> S * result (option (option (gset Z))) E.
Variable mask : gset Z.
Variable ignored : SearchField -> bool.
Variable meaning : SearchField -> SearchOperator -> SearchValue -> Z -> bool.
Variable valid : SearchField -> SearchOperator -> SearchValue -> bool.
(** What holds of the threaded state, for instance that a cache is right. *)
Variable I : S -> Prop.

(** [operator] ignores what is ignored and finds what the others mean. *)
Definition operator_correct : Prop := forall f o v s, I s ->
  if ignored f then operator f o v s = (s, Ok None)
  else valid f o v = true -> exists s' r, operator f o v s = (s', Ok (Some r)) /\ I s' /\
    forall d, d ∈ mask -> bool_decide (d ∈ default ∅ r) = meaning f o v d.

Fixpoint valid_query (q : Query) : bool :=
  match q with
  | QCond f o v => ignored f || valid f o v
  | QDocs _ => true
  | QGroup _ l => forallb valid_query l
  end.

Notation counts := (query_counts ignored).
Notation values := (query_values ignored meaning).
Notation holds := (query_holds ignored meaning).
Notation ordered := (query_ordered ignored).

(** The documents of a state are those that satisfy what was fed to it. *)
Definition agrees (c : Connective) (b : option (gset Z)) (l : list Query) : Prop :=
  match b with
  | None => existsb counts l = false
  | Some s => existsb counts l = true /\ forall d, d ∈ mask -> bool_decide (d ∈ s) = combine c (values d l)
  end.

Lemma values_app d l l' : values d (l ++ l') = values d l ++ values d l'.
Proof. apply omap_app. Qed.

Lemma values_nil d l : existsb counts l = false <-> values d l = [].
Proof.
  induction l as [|q l IH]; [done|]. unfold query_values in *. cbn. destruct (counts q); [done|]. exact IH.
Qed.

Lemma values_counted d q : counts q = true -> values d [q] = [holds d q].
Proof. intros H. unfold query_values. cbn. by rewrite H. Qed.

Lemma holds_group d c l : holds d (QGroup c l) = combine c (values d l).
Proof. done. Qed.

Lemma agrees_ignored c b l q : counts q = false -> agrees c b l -> agrees c b (l ++ [q]).
Proof.
  intros Hq. assert (values_q : forall d, values d [q] = []) by (intros d; unfold query_values; cbn; by rewrite Hq).
  destruct b as [s|]; cbn; rewrite existsb_app; cbn; rewrite Hq, !orb_false_r; [|done].
  intros [? H]. split; [done|]. intros d Hd. by rewrite values_app, values_q, app_nil_r, H.
Qed.

Lemma apply_agrees c b l q r : counts q = true -> agrees c b l ->
  (forall d, d ∈ mask -> bool_decide (d ∈ default ∅ r) = holds d q) ->
  exists s, apply_op mask (MkState (op_of c) b) r = Some (MkState (op_of c) (Some s)) /\ agrees c (Some s) (l ++ [q]).
Proof.
  intros Hq Hb Hr.
  assert (Hsome : existsb counts (l ++ [q]) = true) by (rewrite existsb_app; cbn; by rewrite Hq, orb_true_r).
  assert (forall s, (forall d, d ∈ mask -> bool_decide (d ∈ s) = combine c (values d (l ++ [q]))) ->
    agrees c (Some s) (l ++ [q])) as Hgoal by done.
  destruct b as [s|]; cbn in Hb.
  - destruct Hb as [Hl Hs].
    assert (Hsnoc : forall d, combine c (values d (l ++ [q])) = match c with
      | AllOf => combine c (values d l) && holds d q | AnyOf => combine c (values d l) || holds d q
      | NoneOf => combine c (values d l) && negb (holds d q) end).
    { intros d. rewrite values_app, values_counted by done. apply combine_snoc. rewrite <- values_nil. by rewrite Hl. }
    destruct c, r as [r|]; cbn; eexists; (split; [reflexivity|]); apply Hgoal; intros d Hd;
      rewrite Hsnoc, <- Hs, <- Hr by done; cbn [default from_option]; rewrite ?in_inter, ?in_union, ?in_xor, ?in_none by done; cbn; btauto.
  - assert (Hone : forall d, combine c (values d (l ++ [q])) = match c with NoneOf => negb (holds d q) | _ => holds d q end).
    { intros d. rewrite values_app, values_counted by done. rewrite (proj1 (values_nil d l) Hb). apply combine_one. }
    destruct c, r as [r|]; cbn; eexists; (split; [reflexivity|]); apply Hgoal; intros d Hd;
      rewrite Hone, <- Hr by done; cbn [default from_option]; rewrite ?in_xor, ?in_none, ?in_mask by done; done.
Qed.

Lemma exhausted_agrees c s l l' : is_exhausted (MkState (op_of c) (Some s)) = true -> agrees c (Some s) l ->
  agrees c (Some s) (l ++ l').
Proof.
  destruct c; cbn; try done. intros Hs [Hl H]. apply bool_decide_eq_true in Hs as ->.
  split; [by rewrite existsb_app, Hl|]. intros d Hd. specialize (H d Hd). rewrite bool_decide_false in H |- * by set_solver.
  rewrite values_app. symmetry. apply combine_all_false; [|done]. rewrite <- values_nil. by rewrite Hl.
Qed.

(** An element that counts feeds the loop what it means. *)
Definition evaluates (q : Query) : Prop := forall rest s st stack, I s -> counts q = true -> ordered q = true ->
  valid_query q = true -> exists s' r, run operator mask (flatten q ++ rest) s st stack = feed operator mask r rest s' st stack /\
    I s' /\ forall d, d ∈ mask -> bool_decide (d ∈ default ∅ r) = holds d q.

Hypothesis operator_ok : operator_correct.

(** An element that is ignored. *)
Lemma run_ignored q rest s st stack : I s -> counts q = false ->
  run operator mask (flatten q ++ rest) s st stack = run operator mask rest s st stack.
Proof.
  destruct q as [f o v| |]; cbn [query_counts]; try done. intros Hs Hq. apply negb_false_iff in Hq.
  cbn [flatten app]. rewrite run_operator. pose proof (operator_ok f o v s Hs) as H. rewrite Hq in H. by rewrite H.
Qed.

Lemma drop_ignored_after l q l' : existsb counts l = true -> drop_ignored ignored (l ++ q :: l') = drop_ignored ignored l ++ q :: l'.
Proof. induction l as [|x l IH]; [done|]. cbn. destruct (counts x); [done|]. apply IH. Qed.

(** The elements of a group, to its [End]. *)
Lemma run_nested c l : Forall evaluates l -> forall done b rest s prev stack,
  I s -> agrees c b done -> forallb ordered l = true -> forallb valid_query l = true ->
  match c with
  | AllOf => match b with Some _ => forallb is_leaf l | None => forallb is_leaf (drop_ignored ignored l) end
  | _ => true
  end = true ->
  exists s' b', run operator mask (flat_map flatten l ++ End :: rest) s (MkState (op_of c) b) (prev :: stack) =
      feed operator mask b' rest s' prev stack /\ I s' /\ agrees c b' (done ++ l).
Proof.
  induction 1 as [|q l Hq _ IH]; intros don b rest s prev stack Hs Hb Ho Hv Hc.
  { exists s, b. cbn [flat_map app]. rewrite run_end, app_nil_r. done. }
  cbn in Ho, Hv. apply andb_true_iff in Ho as [Hoq Ho], Hv as [Hvq Hv].
  cbn [flat_map]. rewrite <- app_assoc. replace (don ++ q :: l) with ((don ++ [q]) ++ l) by (by rewrite <- app_assoc). destruct (counts q) eqn:Cq.
  - destruct (Hq (flat_map flatten l ++ End :: rest) s (MkState (op_of c) b) (prev :: stack) Hs Cq Hoq Hvq) as (s' & r & -> & Hs' & Hr).
    destruct (apply_agrees c b don q r Cq Hb Hr) as (x & E1 & Hx).
    unfold feed at 1. rewrite E1. destruct (is_exhausted _) eqn:Ee.
    + assert (c = AllOf) as -> by (destruct c; done).
      assert (forallb is_leaf l = true) as Hl by (destruct b; cbn in Hc; rewrite ?Cq in Hc; [by apply andb_true_iff in Hc as [_ ?]|done]).
      rewrite skip_leaves by done. exists s', (Some x). rewrite run_end. split; [done|]. split; [done|].
      by apply exhausted_agrees.
    + apply IH; try done. destruct c; [|done..]. destruct b; cbn in Hc; rewrite ?Cq in Hc; [by apply andb_true_iff in Hc as [_ ?]|done].
  - rewrite run_ignored by done. apply IH; try done; [by apply agrees_ignored|].
    destruct c; [|done..]. destruct b; cbn in Hc; rewrite ?Cq in Hc; [by apply andb_true_iff in Hc as [_ ?]|done].
Qed.

Lemma run_query q : evaluates q.
Proof.
  induction q as [f o v|set|c l IH] using Query_nested_ind; intros rest s st stack Hs Hc Ho Hv.
  - cbn [flatten app]. rewrite run_operator. pose proof (operator_ok f o v s Hs) as H. cbn in Hc, Hv.
    apply negb_true_iff in Hc. rewrite Hc in H, Hv. destruct (H Hv) as (s' & r & -> & Hs' & Hr). by exists s', r.
  - cbn [flatten app]. rewrite run_docs. by exists s, (Some set).
  - cbn in Ho, Hv. apply andb_true_iff in Ho as [Ho Hl].
    cbn [flatten]. cbn [app]. rewrite run_open, <- app_assoc. cbn [app].
    destruct (run_nested c l IH [] None rest s st stack Hs eq_refl Ho Hv Hl) as (s' & b & -> & Hs' & Hb).
    exists s', b. split; [done|]. split; [done|]. intros d Hd. rewrite holds_group. destruct b as [x|]; cbn in Hb |- *.
    + by apply Hb.
    + rewrite (proj1 (values_nil d l) Hb). apply bool_decide_eq_false. set_solver.
Qed.

(** The whole list: the short circuit is right for any of its elements. *)
Lemma run_all l : forall don b s, I s -> agrees AllOf b don -> forallb ordered l = true -> forallb valid_query l = true ->
  exists s' b', run operator mask (flat_map flatten l) s (MkState And b) [] = (s', Some (Ok b')) /\ I s' /\
    agrees AllOf b' (don ++ l).
Proof.
  induction l as [|q l IH]; intros don b s Hs Hb Ho Hv.
  { exists s, b. by rewrite app_nil_r. }
  cbn in Ho, Hv. apply andb_true_iff in Ho as [Hoq Ho], Hv as [Hvq Hv].
  cbn [flat_map]. replace (don ++ q :: l) with ((don ++ [q]) ++ l) by (by rewrite <- app_assoc). destruct (counts q) eqn:Cq.
  - destruct (run_query q (flat_map flatten l) s (MkState And b) [] Hs Cq Hoq Hvq) as (s' & r & -> & Hs' & Hr).
    destruct (apply_agrees AllOf b don q r Cq Hb Hr) as (x & E1 & Hx). unfold feed. cbn [op_of] in E1. rewrite E1.
    destruct (is_exhausted _) eqn:Ee.
    + rewrite run_finish by apply skip_to_end_finish. exists s', (Some x). split; [done|]. split; [done|]. by apply exhausted_agrees.
    + by apply IH.
  - rewrite run_ignored by done. apply IH; try done. by apply agrees_ignored.
Qed.

(** What both evaluators give: of the mask, the documents that satisfy the
    query. *)
Lemma run_correct l s : I s -> forallb ordered l = true -> forallb valid_query l = true ->
  exists s' b, run operator mask (flat_map flatten l) s start [] = (s', Some (Ok b)) /\ I s' /\
    forall d, d ∈ default ∅ b ∩ mask <-> d ∈ mask /\ holds d (QGroup AllOf l) = true.
Proof.
  intros Hs Ho Hv. destruct (run_all l [] None s Hs eq_refl Ho Hv) as (s' & b & E1 & Hs' & Hb).
  exists s', b. split; [exact E1|]. split; [done|]. intros d. rewrite holds_group. cbn [app] in Hb. destruct b as [x|]; cbn in Hb |- *.
  - destruct Hb as [_ Hb]. rewrite elem_of_intersection. split.
    + intros [H1 H2]. rewrite <- Hb by done. split; [done|]. by apply bool_decide_eq_true.
    + intros [H1 H2]. rewrite <- Hb in H2 by done. by apply bool_decide_eq_true in H2.
  - rewrite (proj1 (values_nil d l) Hb). cbn. set_solver.
Qed.
End Correct.

(** Only sets of documents count to [SearchQuery::filter]. *)
Lemma filter_query_correct l mask : l <> [] -> forallb (query_ordered (fun _ => true)) l = true ->
  exists r, filter_query (flat_map flatten l) mask = Some r /\
    forall d, d ∈ r <-> d ∈ mask /\ query_holds (fun _ => true) (fun _ _ _ _ => false) d (QGroup AllOf l) = true.
Proof.
  intros Hl Ho. destruct (run_correct no_operator mask (fun _ => true) (fun _ _ _ _ => false) (fun _ _ _ => true) (fun _ => True)
    (fun f o v s _ => eq_refl) l tt I Ho) as (s' & b & E1 & _ & Hb).
  { clear. induction l as [|q l IH]; [done|]. cbn. rewrite IH, andb_true_r.
    induction q as [| |c l' IH'] using Query_nested_ind; [done..|]. cbn. induction IH' as [|? ? H ? IHl]; [done|]. cbn. by rewrite H, IHl. }
  exists (default ∅ b ∩ mask). split; [|done]. unfold filter_query. rewrite E1.
  destruct (flat_map flatten l) as [|f fs] eqn:Ef; [|done]. exfalso. destruct l as [|q l]; [done|]. by destruct q, l.
Qed.

(** ** Results are in the order of the comparators *)

(** Comparators compare numbers. *)
Definition sort_key (c : SearchComparator) (d : Z) : Z :=
  match c with
  | CmpDocumentSet set ascending => if ascending then Z.b2z (bool_decide (d ∈ set)) else - Z.b2z (bool_decide (d ∈ set))
  | CmpSortedSet set ascending => if ascending then default u32_max (set !! d) else - default 0 (set !! d)
  | CmpField _ _ => 0
  end.

Lemma compare_by_key c a b : compare_by c a b = Z.compare (sort_key c a) (sort_key c b).
Proof. destruct c as [|set []|set []]; cbn; try done; by rewrite Z.compare_opp. Qed.

(** [a] comes before [b]: by the comparators, then by id. *)
Definition before (cs : list SearchComparator) (a b : Z) : Prop :=
  match compare cs a b with Lt => True | Eq => a < b | Gt => False end.

Lemma compare_cons c cs a b :
  compare (c :: cs) a b = match Z.compare (sort_key c a) (sort_key c b) with Eq => compare cs a b | o => o end.
Proof. cbn. by rewrite compare_by_key. Qed.

Lemma compare_gt cs a b : compare cs a b = CompOpp (compare cs b a).
Proof.
  induction cs as [|c cs IH]; [done|]. rewrite !compare_cons, (Z.compare_antisym (sort_key c b)). by destruct (Z.compare _ _).
Qed.

Lemma compared_trans cs : Transitive (before cs).
Proof.
  unfold before. intros a b d. induction cs as [|c cs IH]; [cbn; lia|]. rewrite !compare_cons.
  destruct (Z.compare_spec (sort_key c a) (sort_key c b)), (Z.compare_spec (sort_key c b) (sort_key c d)),
    (Z.compare_spec (sort_key c a) (sort_key c d)); try done; lia.
Qed.

Lemma insert_by_perm cmp x l : Permutation (insert_by cmp x l) (x :: l).
Proof. induction l as [|y l IH]; [done|]. cbn. destruct (cmp x y); [done..|]. rewrite IH. apply Permutation_swap. Qed.

Lemma sort_by_perm cmp l : Permutation (sort_by cmp l) l.
Proof. induction l as [|x l IH]; [done|]. cbn. by rewrite insert_by_perm, IH. Qed.

(** Inserting an id that is less than the others. *)
Lemma insert_by_sorted cs x l : Forall (fun y => x < y) l -> StronglySorted (before cs) l ->
  StronglySorted (before cs) (insert_by (compare cs) x l).
Proof.
  intros Hx Hl. induction Hl as [|y l Hl IH Hy]; [repeat constructor|]. apply Forall_cons_1 in Hx as [Hxy Hx]. cbn.
  destruct (compare cs x y) eqn:E.
  1,2: assert (before cs x y) as B by (unfold before; by rewrite E); constructor; [by constructor|]; constructor; [done|];
    apply (list.Forall_impl _ _ _ Hy); intros z Hz; exact (compared_trans cs x y z B Hz).
  constructor; [by apply IH|]. rewrite insert_by_perm. constructor; [|done]. unfold before. rewrite compare_gt, E. done.
Qed.

Lemma sort_by_sorted cs l : StronglySorted Z.lt l -> StronglySorted (before cs) (sort_by (compare cs) l).
Proof.
  induction 1 as [|x l Hl IH Hx]; [constructor|].
  change (sort_by (compare cs) (x :: l)) with (insert_by (compare cs) x (sort_by (compare cs) l)).
  apply insert_by_sorted; [|done]. by rewrite sort_by_perm.
Qed.

Lemma elem_of_ids d s : d ∈ ids s <-> d ∈ s.
Proof. unfold ids. rewrite merge_sort_Permutation. apply elem_of_elements. Qed.

Lemma ids_sorted s : StronglySorted Z.lt (ids s).
Proof.
  assert (StronglySorted Z.le (ids s)) as H by (apply StronglySorted_merge_sort; apply _).
  assert (NoDup (ids s)) as N by (unfold ids; rewrite merge_sort_Permutation; apply NoDup_elements).
  induction H as [|x l _ IH Hx]; [constructor|]. apply list.NoDup_cons in N as [Nx N]. constructor; [by apply IH|].
  apply list.Forall_forall. intros y Hy. rewrite list.Forall_forall in Hx. specialize (Hx y Hy).
  assert (x <> y) by (intros ->; done). lia.
Qed.

(** The results, each once, in the order of the comparators and then of ids. *)
Lemma into_sorted_correct results cs :
  (forall d, d ∈ into_sorted results cs <-> d ∈ results) /\ StronglySorted (before cs) (into_sorted results cs).
Proof.
  pose proof (ids_sorted results) as Hs. assert (StronglySorted (before cs) (ids results) \/ cs <> []) as Hn.
  { destruct cs; [left|by right]. exact Hs. }
  unfold into_sorted. destruct (ids results) as [|x l] eqn:E; [|destruct cs as [|c cs]].
  - split; [|constructor]. intros d. by rewrite <- (elem_of_ids d results), E.
  - split; [|by destruct Hn]. intros d. by rewrite <- E, elem_of_ids.
  - split; [|by apply sort_by_sorted]. intros d. rewrite sort_by_perm, <- E. apply elem_of_ids.
Qed.
