(* ===== verification/SearchTokens.v ===== *)
(** * Words of a text ([crates/nlp/src/tokenizers], [crates/nlp/src/language])

    The tokenizers that split a text into the words that are indexed and
    searched, and the choice among them by language.  A text is its UTF-8
    bytes.  The Unicode tables, the Chinese and Japanese segmenters and the
    stemmers are parameters; the offsets of tokens, which the search does not
    use, are left out. *)

From S2P Require Import Prelude Utf8 Text SearchFilter.

(** [char::is_alphanumeric], [char::is_uppercase], the two [to_lowercase]
    (of a character, to its bytes), the segmenters [jieba_rs] and
    [tokenizers/japanese.rs], and [rust_stemmers]: [Some] when the stem is a
    text of its own. *)
Class Nlp := {
  is_alphanumeric : Z -> bool;
  is_uppercase : Z -> bool;
  char_to_lowercase : Z -> list Z;
  str_to_lowercase : list Z -> list Z;
  chinese_words : list Z -> list (list Z);
  japanese_words : list Z -> list (list Z);
  stem : Language -> list Z -> option (list Z);
}.

Section Tokens.
Context {N : Nlp}.

Definition byte_len (s : list Z) : Z := Z.of_nat (length s).
Definition is_nil (s : list Z) : bool := match s with [] => true | _ => false end.

(** The tokens, each the text so far when a character ends it. *)
(* [crates/nlp/src/tokenizers/space.rs:28-57] SpaceTokenizer::next *)
Fixpoint space_tokens (max_token_length : Z) (cs : list Z) (token : list Z) : list (list Z) :=
  let finish rest :=
    if is_nil token then rest else if byte_len token <? max_token_length then token :: rest else rest in
  match cs with
  | [] => finish []
  | ch :: cs =>
      if is_alphanumeric ch then
        space_tokens max_token_length cs (token ++ (if is_uppercase ch then char_to_lowercase ch else encode_char ch))
      else finish (space_tokens max_token_length cs [])
  end.
(* [crates/nlp/src/tokenizers/space.rs:15-23] SpaceTokenizer::new *)
Definition SpaceTokenizer (text : list Z) (max_token_length : Z) : list (list Z) :=
  space_tokens max_token_length (chars text) [].

(** A word is a run of alphanumeric characters; [upper] once one of them is
    in upper case. *)
(* [crates/nlp/src/tokenizers/word.rs:28-64] WordTokenizer::next *)
Fixpoint word_tokens (max_token_length : Z) (cs : list Z) (word : list Z) (upper : bool) : list (list Z) :=
  let finish rest :=
    if negb (is_nil word) && (byte_len word <=? max_token_length)
    then (if upper then str_to_lowercase word else word) :: rest else rest in
  match cs with
  | [] => finish []
  | ch :: cs =>
      if is_alphanumeric ch then word_tokens max_token_length cs (word ++ encode_char ch) (upper || is_uppercase ch)
      else finish (word_tokens max_token_length cs [] false)
  end.
(* [crates/nlp/src/tokenizers/word.rs:17-25] WordTokenizer::new *)
Definition WordTokenizer (text : list Z) (max_token_length : Z) : list (list Z) :=
  word_tokens max_token_length (chars text) [] false.

Definition usize_max : Z := 2 ^ 64 - 1.
Definition is_ascii_text (s : list Z) : bool := forallb (fun c => c <? 128) s.
Definition L_MANDARIN : Language := 3.
Definition L_JAPANESE : Language := 14.

(** The segmenters only see words with characters that are not ASCII. *)
(* [crates/nlp/src/tokenizers/chinese.rs:46-93] ChineseTokenizer::next *)
Definition ChineseTokenizer (tokens : list (list Z)) : list (list Z) :=
  flat_map (fun w => if is_ascii_text w then [w] else chinese_words w) tokens.
(* [crates/nlp/src/tokenizers/japanese.rs:44-70] JapaneseTokenizer::next *)
Definition JapaneseTokenizer (tokens : list (list Z)) : list (list Z) :=
  flat_map (fun w => if is_ascii_text w then [w] else japanese_words w) tokens.

(* [crates/nlp/src/language/mod.rs:22-47] tokenize_text *)
Definition tokenize_text (language : Language) (text : list Z) (max_token_length : Z) : list (list Z) :=
  if language =? L_JAPANESE then
    List.filter (fun w => byte_len w <=? max_token_length) (JapaneseTokenizer (WordTokenizer text usize_max))
  else if language =? L_MANDARIN then
    List.filter (fun w => byte_len w <=? max_token_length) (ChineseTokenizer (WordTokenizer text usize_max))
  else if language =? L_NONE then SpaceTokenizer text max_token_length
  else WordTokenizer text max_token_length.

(** The languages with a stemmer. *)
(* [crates/nlp/src/language/stemmer.rs:56-128] STEMMER_MAP *)
Definition has_stemmer (language : Language) : bool :=
  existsb (Z.eqb language) [1; 2; 4; 5; 6; 8; 9; 12; 21; 22; 23; 24; 25; 26; 27; 29; 34; 42].

(* [crates/nlp/src/language/stemmer.rs:15-20] StemmedToken *)
Record StemmedToken := MkStemmed { word : list Z; stemmed_word : option (list Z) }.

(* [crates/nlp/src/language/stemmer.rs:26-54] Stemmer *)
Definition Stemmer (text : list Z) (language : Language) (max_token_length : Z) : list StemmedToken :=
  map (fun w => MkStemmed w
         (if has_stemmer language then
            match stem language w with Some t => if bytes_eqb t w then None else Some t | None => None end
          else None))
    (tokenize_text language text max_token_length).
End Tokens.

Module Demo.
(** Tables for ASCII, and no stemmers. *)
#[export] Instance ascii_nlp : Nlp := {|
  is_alphanumeric := is_ascii_alphanumeric; is_uppercase := is_ascii_uppercase;
  char_to_lowercase c := [to_ascii_lowercase c]; str_to_lowercase := map to_ascii_lowercase;
  chinese_words w := [w]; japanese_words w := [w]; stem _ _ := None |}.

Example word_tokens_example : WordTokenizer s#"The quick, Brown-fox" 5 = [s#"the"; s#"quick"; s#"brown"; s#"fox"].
Proof. by vm_compute. Qed.
Example space_tokens_example : SpaceTokenizer s#"The quick, Brown-fox" 5 = [s#"the"; s#"fox"].
Proof. by vm_compute. Qed.
End Demo.
