(* ===== verification/SearchTerms.v ===== *)
(** * Indexing documents for search ([crates/store/src/search])

    What the built-in index stores for a document ([document.rs], [term.rs])
    and the operations that write it and take it away ([index.rs]).  The
    index is the map of the keys of its subspace: an entry for each word of
    each field, one for each field that is compared or sorted by, and for the
    document the list of them, so that they can be taken away.  Writes of one
    operation are taken to succeed; the archive's bytes ([rkyv]) are its value. *)

From stdpp Require Import gmap.
From S2P Require Import Prelude Text CheekyHash StoreKeys SearchFilter SearchTokens.

Section Terms.
Context {N : Nlp}.
(** The digests of [CheekyHash]. *)
Variables xxh3 fingerprint64 : list Z -> Z.
Notation hash_of := (CheekyHash.new xxh3 fingerprint64).

(* [crates/store/src/backend/mod.rs:37-37] MAX_TOKEN_LENGTH *)
Definition MAX_TOKEN_LENGTH : Z := 127.
(* [crates/store/src/write/mod.rs:209-209] SEARCH_INDEX_MAX_FIELD_LEN *)
Definition SEARCH_INDEX_MAX_FIELD_LEN : nat := 128.

(** ** A document *)

(** The fields, a hash map that is iterated in some order. *)
Definition Fields : Type := list (SearchField * SearchValue).
(* [crates/store/src/search/mod.rs:157-160] IndexDocument *)
Record IndexDocument := MkIndexDocument { doc_index : SearchIndex; fields : Fields }.

Fixpoint field_get (f : SearchField) (l : Fields) : option SearchValue :=
  match l with
  | [] => None
  | kv :: l => if decide (fst kv = f) then Some (snd kv) else field_get f l
  end.
Fixpoint field_insert (f : SearchField) (v : SearchValue) (l : Fields) : Fields :=
  match l with
  | [] => [(f, v)]
  | kv :: l => if decide (fst kv = f) then (f, v) :: l else kv :: field_insert f v l
  end.
Definition put (f : SearchField) (v : SearchValue) (d : IndexDocument) : IndexDocument :=
  MkIndexDocument (doc_index d) (field_insert f v (fields d)).

(* [crates/store/src/search/document.rs:10-15] new *)
Definition new_document (index : SearchIndex) : IndexDocument := MkIndexDocument index [].
(* [crates/store/src/search/document.rs:17-21] with_account_id *)
Definition with_account_id (account_id : Z) (d : IndexDocument) : IndexDocument := put FieldAccountId (VUint account_id) d.
(* [crates/store/src/search/document.rs:23-29] with_document_id *)
Definition with_document_id (document_id : Z) (d : IndexDocument) : IndexDocument := put FieldDocumentId (VUint document_id) d.

(** Runs of white space become a space, control characters go. *)
(* [crates/store/src/search/document.rs:284-301] write_sanitized *)
Fixpoint write_sanitized (last_is_space : bool) (cs : list Z) : list Z :=
  match cs with
  | [] => []
  | ch :: cs =>
      if (ch =? 32) || ((9 <=? ch) && (ch <=? 13)) then
        if last_is_space then write_sanitized true cs else 32 :: write_sanitized true cs
      else if ((0 <=? ch) && (ch <=? 31)) || ((127 <=? ch) && (ch <=? 159)) then write_sanitized last_is_space cs
      else Utf8.encode_char ch ++ write_sanitized false cs
  end.
(* [crates/store/src/search/document.rs:310-314] sanitize_text *)
Definition sanitize_text (text : list Z) : list Z := write_sanitized true (chars text).

(* [crates/store/src/search/document.rs:36-55] index_text *)
Definition index_text (f : SearchField) (value : list Z) (language : Language) (d : IndexDocument) : IndexDocument :=
  match field_get f (fields d) with
  | Some (VText existing l) => put f (VText (existing ++ [32] ++ sanitize_text value) l) d
  | Some _ => d
  | None => put f (VText (sanitize_text value) language) d
  end.
(* [crates/store/src/search/document.rs:57-60] index_bool *)
Definition index_bool (f : SearchField) (value : bool) (d : IndexDocument) : IndexDocument := put f (VBoolean value) d.
(* [crates/store/src/search/document.rs:62-65] index_integer *)
Definition index_integer (f : SearchField) (value : Z) (d : IndexDocument) : IndexDocument := put f (VInt value) d.
(* [crates/store/src/search/document.rs:67-70] index_unsigned *)
Definition index_unsigned (f : SearchField) (value : Z) (d : IndexDocument) : IndexDocument := put f (VUint value) d.
(* [crates/store/src/search/document.rs:72-80] index_keyword *)
Definition index_keyword (f : SearchField) (value : list Z) (d : IndexDocument) : IndexDocument :=
  put f (VText (sanitize_text value) L_NONE) d.

(** ** Its entries *)

(** A hash with the set of fields it is in, bits of a [u32]. *)
(* [crates/store/src/search/term.rs:32-35] Term *)
Definition Terms : Type := gmap CheekyHash Z.
(* [crates/store/src/search/term.rs:26-29] TermIndex *)
Record TermIndex := MkTermIndex { terms : Terms; index_fields : list (Z * list Z) }.

(* [crates/utils/src/map/bitmap.rs:163-165] bit_push *)
Definition bit_push (item bits : Z) : Z := Z.lor bits (wrap 32 (Z.shiftl 1 item)).
(** The items of a set of bits, from the highest; one round for each bit. *)
(* [crates/utils/src/map/bitmap.rs:167-175] bit_pop *)
Definition bit_pop (bits : Z) : option (Z * Z) :=
  if bits =? 0 then None else Some (Z.log2 bits, Z.lxor bits (Z.shiftl 1 (Z.log2 bits))).
Fixpoint bit_items (fuel : nat) (bits : Z) : list Z :=
  match fuel with
  | O => []
  | S fuel => match bit_pop bits with Some (item, bits) => item :: bit_items fuel bits | None => [] end
  end.
Definition items (bits : Z) : list Z := bit_items 32 bits.

(** [terms.entry(hash).or_default().bit_push(field)]. *)
Definition push_term (field : Z) (h : CheekyHash) (t : Terms) : Terms := <[h := bit_push field (default 0 (t !! h))]> t.
Definition push_terms (field : Z) (hs : list CheekyHash) (t : Terms) : Terms := fold_left (fun t h => push_term field h t) hs t.

(** [str::floor_char_boundary]. *)
Fixpoint floor_char_boundary (n : nat) (s : list Z) : nat :=
  match n with
  | O => O
  | S n' => match nth_error s n with
            | Some b => if (128 <=? b) && (b <? 192) then floor_char_boundary n' s else n
            | None => n
            end
  end.

(* [crates/store/src/search/term.rs:76-84] build, the text that is indexed *)
Definition truncated (truncate_at : nat) (value : list Z) : list Z :=
  if (0 <? truncate_at)%nat && (truncate_at <? length value)%nat
  then firstn (floor_char_boundary truncate_at value) value else value.

Definition star (w : list Z) : list Z := w ++ [42].

(** The hashes of a text. *)
(* [crates/store/src/search/term.rs:86-125] build, words *)
Definition text_hashes (value : list Z) (language : Language) : list CheekyHash :=
  if language =? L_UNKNOWN then map hash_of (WordTokenizer value MAX_TOKEN_LENGTH)
  else if language =? L_NONE then map hash_of (SpaceTokenizer value MAX_TOKEN_LENGTH)
  else flat_map (fun token => hash_of (word token) ::
                   match stemmed_word token with Some s => [hash_of (star s)] | None => [] end)
         (Stemmer value language MAX_TOKEN_LENGTH).

(** The hashes of a header: its name, and its name with each word. *)
(* [crates/store/src/search/term.rs:139-152] build, headers *)
Definition key_hashes (kv : list Z * list Z) : list CheekyHash :=
  hash_of (fst kv) :: map (fun token => hash_of (fst kv ++ [32] ++ token)) (SpaceTokenizer (snd kv) MAX_TOKEN_LENGTH).

(* [crates/store/src/search/term.rs:43-67] build, the state of the loop *)
Record Builder := MkBuilder {
  b_terms : Terms; b_fields : list (Z * list Z); b_account_id : option Z; b_document_id : option Z; b_id : option Z }.

Definition push_field (field : Z) (data : list Z) (b : Builder) : Builder :=
  MkBuilder (b_terms b) (b_fields b ++ [(field, data)]) (b_account_id b) (b_document_id b) (b_id b).
Definition set_terms (t : Terms) (b : Builder) : Builder :=
  MkBuilder t (b_fields b) (b_account_id b) (b_document_id b) (b_id b).

(* [crates/store/src/search/term.rs:49-172] build, one field *)
Definition build_field (truncate_at : nat) (b : Builder) (fv : SearchField * SearchValue) : Builder :=
  let '(field, value) := fv in
  match field, value with
  | FieldId, VUint v =>
      MkBuilder (b_terms b) (b_fields b ++ [(u8_id field, u64 v)]) (b_account_id b) (b_document_id b) (Some v)
  | FieldAccountId, VUint v => MkBuilder (b_terms b) (b_fields b) (Some v) (b_document_id b) (b_id b)
  | FieldDocumentId, VUint v => MkBuilder (b_terms b) (b_fields b) (b_account_id b) (Some v) (b_id b)
  | (FieldId | FieldAccountId | FieldDocumentId), _ => b
  | _, VText value language =>
      let b := if is_text field
               then set_terms (push_terms (u8_id field) (text_hashes (truncated truncate_at value) language) (b_terms b)) b
               else b in
      if is_indexed field then push_field (u8_id field) (firstn SEARCH_INDEX_MAX_FIELD_LEN value) b else b
  | _, VKeyValues kv => set_terms (push_terms (u8_id field) (flat_map key_hashes kv) (b_terms b)) b
  | _, VInt v => push_field (u8_id field) (u64 (wrap 64 v)) b
  | _, VUint v => push_field (u8_id field) (u64 v) b
  | _, VBoolean v => push_field (u8_id field) [Z.b2z v] b
  end.

(** The identifier; a document without one, or with two, is a bug of the
    caller that a debug assertion reports. *)
(* [crates/store/src/search/term.rs:183-196] build, the identifier *)
Definition document_key (b : Builder) : SearchIndexId :=
  match b_account_id b, b_document_id b, b_id b with
  | Some account_id, Some document_id, None => Account (wrap 32 account_id) (wrap 32 document_id)
  | None, None, Some id => Global id
  | _, _, _ => Global 0
  end.

(* [crates/store/src/search/term.rs:43-198] TermIndexBuilder::build *)
Definition build (document : IndexDocument) (truncate_at : nat) : TermIndex * SearchIndexId :=
  let b := fold_left (build_field truncate_at) (fields document) (MkBuilder ∅ [] None None None) in
  (MkTermIndex (b_terms b) (b_fields b), document_key b).

(** What is stored for the words and the fields. *)
Definition term_entries (t : TermIndex) : list SearchIndexType :=
  flat_map (fun '(h, bits) => map (fun f => Term f h) (items bits)) (map_to_list (terms t)).
Definition field_entries (t : TermIndex) : list SearchIndexType := map (fun '(f, data) => Field f data) (index_fields t).
Definition entries (t : TermIndex) : list SearchIndexType := term_entries t ++ field_entries t.

(** ** The index *)

(** A value is the archive of what is stored for a document, or nothing. *)
Inductive Value := Archived (t : TermIndex) | Nothing.
Definition Db : Type := gmap (list Z) Value.

(** The key without its subspace; an index in memory has none (a panic). *)
Definition key (index : SearchIndex) (id : SearchIndexId) (typ : SearchIndexType) : list Z :=
  default [] (serialize_search index id typ).

(** A batch for one document: entries that are set, and that are cleared. *)
Definition Batch : Type := list (SearchIndexType * option Value).
Definition commit_op (index : SearchIndex) (id : SearchIndexId) (db : Db) (op : SearchIndexType * option Value) : Db :=
  match snd op with Some v => <[key index id (fst op) := v]> db | None => delete (key index id (fst op)) db end.
Definition commit (index : SearchIndex) (id : SearchIndexId) (batch : Batch) (db : Db) : Db := fold_left (commit_op index id) batch db.

#[export] Instance entry_dec : EqDecision SearchIndexType.
Proof. solve_decision. Defined.

Definition set_entry (typ : SearchIndexType) : SearchIndexType * option Value := (typ, Some Nothing).
Definition clear_entry (typ : SearchIndexType) : SearchIndexType * option Value := (typ, None).

(* [crates/store/src/search/term.rs:202-254] write_index *)
Definition write_index (t : TermIndex) : Batch := (Document, Some (Archived t)) :: map set_entry (entries t).

(** The entries that are new are set; what remains of the old ones. *)
(* [crates/store/src/search/term.rs:296-330] merge_index, the new entries *)
Fixpoint merge_entries (new old : list SearchIndexType) : Batch * list SearchIndexType :=
  match new with
  | [] => ([], old)
  | typ :: new =>
      if bool_decide (typ ∈ old) then merge_entries new (List.filter (fun o => bool_decide (o <> typ)) old)
      else let '(batch, rest) := merge_entries new old in (set_entry typ :: batch, rest)
  end.

(* [crates/store/src/search/term.rs:256-351] merge_index *)
Definition merge_index (t old : TermIndex) : Batch :=
  let '(set_terms, old_terms) := merge_entries (term_entries t) (term_entries old) in
  let '(set_fields, old_fields) := merge_entries (field_entries t) (field_entries old) in
  (Document, Some (Archived t)) :: set_terms ++ set_fields ++ map clear_entry old_terms ++ map clear_entry old_fields.

(* [crates/store/src/search/term.rs:355-395] delete_index *)
Definition delete_index (t : TermIndex) : Batch := (Document, None) :: map clear_entry (entries t).

(** The entry of a document that is being indexed again; only the indexes
    whose documents change look for it.  [None] is a value that is no
    archive. *)
(* [crates/store/src/search/index.rs:34-70] index, the old entries *)
Definition old_term_index (document : IndexDocument) (db : Db) : option (option TermIndex) :=
  match doc_index document with
  | SCalendar | SContacts =>
      match field_get FieldAccountId (fields document), field_get FieldDocumentId (fields document) with
      | Some (VUint account_id), Some (VUint document_id) =>
          match db !! key (doc_index document) (Account (wrap 32 account_id) (wrap 32 document_id)) Document with
          | Some (Archived t) => Some (Some t)
          | Some Nothing => None
          | None => Some None
          end
      | _, _ => Some None
      end
  | _ => Some None
  end.

(* [crates/store/src/search/index.rs:28-96] index, one document *)
Definition index_document (truncate_at : nat) (document : IndexDocument) (db : Db) : option Db :=
  match old_term_index document db with
  | None => None
  | Some old =>
      let '(t, id) := build document truncate_at in
      Some (commit (doc_index document) id match old with Some old => merge_index t old | None => write_index t end db)
  end.

(* [crates/store/src/search/index.rs:25-98] index *)
Fixpoint index_documents (truncate_at : nat) (documents : list IndexDocument) (db : Db) : option Db :=
  match documents with
  | [] => Some db
  | document :: documents =>
      match index_document truncate_at document db with Some db => index_documents truncate_at documents db | None => None end
  end.

(** One document is taken away. *)
(* [crates/store/src/search/index.rs:153-186] unindex, by account and document *)
Definition unindex_document (index : SearchIndex) (id : SearchIndexId) (db : Db) : option Db :=
  match db !! key index id Document with
  | None => Some db
  | Some Nothing => None
  | Some (Archived t) => Some (commit index id (delete_index t) db)
  end.

Fixpoint unindex_all (index : SearchIndex) (l : list SearchIndexId) (db : Db) : option Db :=
  match l with
  | [] => Some db
  | id :: l => match unindex_document index id db with Some db => unindex_all index l db | None => None end
  end.

(** The keys from one to before another. *)
Definition in_range (from to k : list Z) : bool :=
  match byte_order from k with Gt => false | _ => match byte_order k to with Lt => true | _ => false end end.
Definition delete_range (from to : list Z) (db : Db) : Db := filter (fun kv => in_range from to (fst kv) = false) db.

Definition HASH_NULL : CheekyHash := repeat 0 16.
Definition HASH_FULL : CheekyHash := repeat 255 16.

(** All documents of an account. *)
(* [crates/store/src/search/index.rs:188-260] unindex, by account *)
Definition unindex_account (index : SearchIndex) (account_id : Z) (db : Db) : Db :=
  let range from to := delete_range (key index (Account account_id 0) from) (key index (Account account_id u32_max) to) in
  range (Term 0 HASH_NULL) (Term 255 HASH_FULL)
    (range (Field 0 [0]) (Field 255 (repeat 255 SEARCH_INDEX_MAX_FIELD_LEN))
       (range Document Document db)).

(** What a query asks to take away: documents by account (all of them when
    none is named), global identifiers, and those up to one. *)
(* [crates/store/src/search/index.rs:94-98] unindex, the state *)
Record Removals := MkRemovals {
  account_documents : list (Z * list Z); global_ids : list Z; to_id : option Z; last_account_id : option Z }.

Fixpoint add_account (a : Z) (l : list (Z * list Z)) : list (Z * list Z) :=
  match l with [] => [(a, [])] | (a', ds) :: l' => if a =? a' then l else (a', ds) :: add_account a l' end.
Fixpoint add_document (a d : Z) (l : list (Z * list Z)) : list (Z * list Z) :=
  match l with [] => [] | (a', ds) :: l' => if a =? a' then (a', ds ++ [d]) :: l' else (a', ds) :: add_document a d l' end.

(** [None] is the error of a filter that is not supported. *)
(* [crates/store/src/search/index.rs:100-146] unindex, one filter *)
Definition removal_filter (r : Removals) (filter : SearchFilter) : option Removals :=
  match filter with
  | Operator FieldAccountId Equal (VUint id) =>
      Some (MkRemovals (add_account (wrap 32 id) (account_documents r)) (global_ids r) (to_id r) (Some (wrap 32 id)))
  | Operator FieldDocumentId Equal (VUint id) =>
      match last_account_id r with
      | Some a => Some (MkRemovals (add_document a (wrap 32 id) (account_documents r)) (global_ids r) (to_id r) (Some a))
      | None => None
      end
  | Operator FieldId LowerThan (VUint id) => Some (MkRemovals (account_documents r) (global_ids r) (Some (Z.max 0 (id - 1))) (last_account_id r))
  | Operator FieldId LowerEqualThan (VUint id) => Some (MkRemovals (account_documents r) (global_ids r) (Some id) (last_account_id r))
  | Operator FieldId Equal (VUint id) => Some (MkRemovals (account_documents r) (global_ids r ++ [id]) (to_id r) (last_account_id r))
  | Operator _ _ _ | Not | DocumentSet _ => None
  | And | Or | End => Some r
  end.
Fixpoint removals (filters : list SearchFilter) (r : Removals) : option Removals :=
  match filters with
  | [] => Some r
  | f :: filters => match removal_filter r f with Some r => removals filters r | None => None end
  end.

(* [crates/store/src/search/index.rs:148-262] unindex, by account and document ids *)
Fixpoint unindex_accounts (index : SearchIndex) (l : list (Z * list Z)) (db : Db) : option Db :=
  match l with
  | [] => Some db
  | (a, []) :: l => unindex_accounts index l (unindex_account index a db)
  | (a, ds) :: l => match unindex_all index (map (Account a) ds) db with Some db => unindex_accounts index l db | None => None end
  end.

(** The documents with identifiers up to one. *)
(* [crates/store/src/search/index.rs:290-326] unindex, ranges *)
Definition ids_up_to (index : SearchIndex) (to_id : Z) (db : Db) : list SearchIndexId :=
  let from := key index (Global 0) Document in
  let to := key index (Global to_id) Document in
  omap (fun '(k, _) =>
          match byte_order from k, byte_order k to with
          | Gt, _ | _, Gt => None
          | _, _ => option_map Global (deserialize_be_u64 k (length k - 8))
          end) (map_to_list db).

(* [crates/store/src/search/index.rs:93-335] unindex *)
Definition unindex (index : SearchIndex) (filters : list SearchFilter) (db : Db) : option Db :=
  match removals filters (MkRemovals [] [] None None) with
  | None => None
  | Some r =>
      match unindex_accounts index (account_documents r) db with
      | None => None
      | Some db =>
          match unindex_all index (map Global (global_ids r)) db with
          | None => None
          | Some db =>
              match to_id r with
              | Some to_id => unindex_all index (ids_up_to index to_id db) db
              | None => Some db
              end
          end
      end
  end.

(** ** What is stored is what the archive of a document lists *)

(** Traces have global identifiers, other documents an account. *)
Definition wf_id (index : SearchIndex) (id : SearchIndexId) : Prop :=
  match id with
  | Account a d => index <> STracing /\ index <> SInMemory /\ u32_ok a /\ u32_ok d
  | Global i => index = STracing /\ u64_ok i
  end.
Definition wf_entry (typ : SearchIndexType) : Prop :=
  match typ with Term f h => u8_ok f /\ hash_ok h | Field f data => u8_ok f /\ bytes_ok data | Document => True end.

Lemma key_inj index id typ index' id' typ' : wf_id index id -> wf_id index' id' -> wf_entry typ -> wf_entry typ' ->
  key index id typ = key index' id' typ' -> index = index' /\ id = id' /\ typ = typ'.
Proof.
  intros Hi Hi' Ht Ht' E. unfold key in E.
  destruct (serialize_search index id typ) as [b|] eqn:Eb; [|exfalso; destruct index, id; cbn in Eb, Hi; naive_solver].
  destruct (serialize_search index' id' typ') as [b'|] eqn:Eb'; [|exfalso; destruct index', id'; cbn in Eb', Hi'; naive_solver].
  cbn in E. subst b'.
  assert (Search index id typ = Search index' id' typ') as [= -> -> ->]; [|done].
  apply (search_inj (fun _ _ => false) (fun i => match i with STracing => true | _ => false end) 0 index id typ index' id' typ' b); [| |done..].
  - split; [destruct id, index; naive_solver|destruct typ; naive_solver].
  - split; [destruct id', index'; naive_solver|destruct typ'; naive_solver].
Qed.

Lemma commit_app index id b b' db : commit index id (b ++ b') db = commit index id b' (commit index id b db).
Proof. apply fold_left_app. Qed.

Lemma commit_op_other index id db op k : k <> key index id (fst op) -> commit_op index id db op !! k = db !! k.
Proof. intros H. unfold commit_op. destruct (snd op); [by apply lookup_insert_ne|by apply lookup_delete_ne]. Qed.
Lemma commit_op_same index id db op : commit_op index id db op !! key index id (fst op) = snd op.
Proof. unfold commit_op. destruct (snd op); [apply lookup_insert_eq|apply lookup_delete_eq]. Qed.

(** A batch is for its document only. *)
Lemma commit_other index id batch db k : wf_id index id -> Forall (fun op => wf_entry (fst op)) batch ->
  (forall typ, wf_entry typ -> k <> key index id typ) -> commit index id batch db !! k = db !! k.
Proof.
  intros Hi Hb Hk. revert db. induction Hb as [|[typ v] batch Ht _ IH]; intros db; [done|].
  cbn [commit fold_left]. unfold commit in IH. rewrite IH. apply commit_op_other. by apply Hk.
Qed.

Section Document.
Variables (index : SearchIndex) (id : SearchIndexId).
Hypothesis Hid : wf_id index id.
Notation K := (key index id).
Notation apply_batch := (commit index id).

Lemma key_ne typ typ' : wf_entry typ -> wf_entry typ' -> typ <> typ' -> K typ <> K typ'.
Proof. intros H H' Hne E. by apply Hne, (key_inj index id typ index id typ'). Qed.

Lemma commit_cons typ v batch db typ' : wf_entry typ -> Forall (fun op => wf_entry (fst op)) batch -> wf_entry typ' ->
  ~ In typ' (map fst batch) ->
  apply_batch ((typ, v) :: batch) db !! K typ' = if decide (typ = typ') then v else db !! K typ'.
Proof.
  intros Ht Hb Ht' Hn. cbn [commit fold_left].
  transitivity (commit_op index id db (typ, v) !! K typ').
  - generalize (commit_op index id db (typ, v)). clear db. induction Hb as [|[t w] batch Hw _ IH]; intros db; [done|].
    cbn [fold_left]. rewrite IH by (intros ?; apply Hn; by right). apply commit_op_other, key_ne; [done..|].
    intros ->. apply Hn. by left.
  - destruct (decide (typ = typ')) as [<-|Hne]; [apply (commit_op_same index id db (typ, v))|].
    apply commit_op_other. by apply key_ne, not_eq_sym.
Qed.

Lemma commit_writes l db typ : Forall wf_entry l -> wf_entry typ ->
  apply_batch (map set_entry l) db !! K typ = if decide (typ ∈ l) then Some Nothing else db !! K typ.
Proof.
  intros Hl Ht. revert db. induction Hl as [|t l Hw Hl IH]; intros db; [done|].
  cbn [map commit fold_left]. unfold commit in IH. rewrite IH.
  destruct (decide (typ ∈ l)) as [?|?].
  { by rewrite decide_True by (by right). }
  destruct (decide (t = typ)) as [->|Hne].
  - rewrite decide_True by left. apply (commit_op_same index id db (set_entry typ)).
  - rewrite commit_op_other by (by apply key_ne, not_eq_sym). rewrite decide_False; [done|]. rewrite elem_of_cons. naive_solver.
Qed.

Lemma commit_clears l db typ : Forall wf_entry l -> wf_entry typ ->
  apply_batch (map clear_entry l) db !! K typ = if decide (typ ∈ l) then None else db !! K typ.
Proof.
  intros Hl Ht. revert db. induction Hl as [|t l Hw Hl IH]; intros db; [done|].
  cbn [map commit fold_left]. unfold commit in IH. rewrite IH.
  destruct (decide (typ ∈ l)) as [?|?].
  { by rewrite decide_True by (by right). }
  destruct (decide (t = typ)) as [->|Hne].
  - rewrite decide_True by left. apply (commit_op_same index id db (clear_entry typ)).
  - rewrite commit_op_other by (by apply key_ne, not_eq_sym). rewrite decide_False; [done|]. rewrite elem_of_cons. naive_solver.
Qed.
End Document.

Lemma merge_entries_spec new : forall old, exists sets rest, merge_entries new old = (map set_entry sets, rest) /\
  (forall typ, typ ∈ new <-> typ ∈ sets \/ (typ ∈ new /\ typ ∈ old)) /\ (forall typ, typ ∈ rest <-> typ ∈ old /\ typ ∉ new).
Proof.
  induction new as [|t new IH]; intros old; cbn [merge_entries].
  { exists [], old. split; [done|]. split; intros typ; rewrite ?elem_of_nil; naive_solver. }
  case_bool_decide as Hin.
  - destruct (IH (List.filter (fun o => bool_decide (o <> t)) old)) as (sets & rest & -> & Hs & Hr). exists sets, rest.
    assert (forall x, x ∈ List.filter (fun o => bool_decide (o <> t)) old <-> x ∈ old /\ x <> t) as Hf.
    { intros x. rewrite !list_elem_of_In, filter_In, bool_decide_eq_true. done. }
    split; [done|]. split; intros typ; [specialize (Hs typ)|specialize (Hr typ)]; rewrite Hf in *; rewrite elem_of_cons;
      destruct (decide (typ = t)); naive_solver.
  - destruct (IH old) as (sets & rest & -> & Hs & Hr). exists (t :: sets), rest. split; [done|].
    split; intros typ; [specialize (Hs typ)|specialize (Hr typ)]; rewrite !elem_of_cons; destruct (decide (typ = t)); naive_solver.
Qed.

(** The entries that an archive lists are those that are stored. *)
Definition indexed (db : Db) (index : SearchIndex) (id : SearchIndexId) (t : TermIndex) : Prop :=
  db !! key index id Document = Some (Archived t) /\
  forall typ, wf_entry typ -> typ <> Document -> is_Some (db !! key index id typ) <-> typ ∈ entries t.
(** Nothing is stored for a document. *)
Definition absent (db : Db) (index : SearchIndex) (id : SearchIndexId) : Prop :=
  forall typ, wf_entry typ -> db !! key index id typ = None.
(** Nothing changes for other documents. *)
Definition only (index : SearchIndex) (id : SearchIndexId) (db db' : Db) : Prop :=
  forall index' id' typ, wf_id index' id' -> wf_entry typ -> (index', id') <> (index, id) ->
    db' !! key index' id' typ = db !! key index' id' typ.
Definition wf_terms (t : TermIndex) : Prop := Forall wf_entry (entries t) /\ Document ∉ entries t.

Lemma set_entries_wf l : Forall wf_entry l -> Forall (fun op : SearchIndexType * option Value => wf_entry (fst op)) (map set_entry l).
Proof. induction 1; by constructor. Qed.
Lemma clear_entries_wf l : Forall wf_entry l -> Forall (fun op : SearchIndexType * option Value => wf_entry (fst op)) (map clear_entry l).
Proof. induction 1; by constructor. Qed.

(** Keys of the index are keys of entries, and stay so. *)
Definition db_wf (db : Db) : Prop := map_Forall (fun k _ => exists index id typ, wf_id index id /\ wf_entry typ /\ k = key index id typ) db.

Lemma commit_wf index id batch db : wf_id index id -> Forall (fun op => wf_entry (fst op)) batch -> db_wf db -> db_wf (commit index id batch db).
Proof.
  intros Hid Hb. revert db. induction Hb as [|[typ v] batch Ht _ IH]; intros db Hdb; [done|]. cbn [commit fold_left]. apply IH.
  unfold commit_op. cbn [fst snd]. destruct v; [apply map_Forall_insert_2; [by eexists _, _, _|done]|].
  intros k x Hk. apply lookup_delete_Some in Hk as [_ Hk]. by apply (Hdb k x).
Qed.

(** [only], and the keys stay keys of entries. *)
Definition changes (index : SearchIndex) (id : SearchIndexId) (db db' : Db) : Prop := only index id db db' /\ (db_wf db -> db_wf db').

Lemma commit_only index id batch db : wf_id index id -> Forall (fun op => wf_entry (fst op)) batch ->
  changes index id db (commit index id batch db).
Proof.
  intros Hid Hb. split; [|by apply commit_wf]. intros index' id' typ Hid' Ht Hne. apply commit_other; [done..|]. intros typ' Ht' E.
  apply Hne. destruct (key_inj index' id' typ index id typ') as (-> & -> & _); done.
Qed.

Lemma entries_kind t old t' old' typ : typ ∈ term_entries t \/ typ ∈ term_entries old ->
  typ ∈ field_entries t' \/ typ ∈ field_entries old' -> False.
Proof.
  assert (forall t, typ ∈ term_entries t -> exists f h, typ = Term f h) as A.
  { intros x. unfold term_entries. rewrite list_elem_of_In, in_flat_map. intros ([h b] & _ & H). apply in_map_iff in H as (f & <- & _). by exists f, h. }
  assert (forall t, typ ∈ field_entries t -> exists f h, typ = Field f h) as B.
  { intros x. unfold field_entries. rewrite list_elem_of_In, in_map_iff. intros ([f d] & <- & _). by exists f, d. }
  intros [H|H] [H'|H']; apply A in H as (? & ? & ->); apply B in H' as (? & ? & ?); done.
Qed.

Section Lifecycle.
Variables (index : SearchIndex) (id : SearchIndexId).
Hypothesis Hid : wf_id index id.

Lemma write_index_indexed t db : wf_terms t -> absent db index id ->
  indexed (commit index id (write_index t) db) index id t /\ changes index id db (commit index id (write_index t) db).
Proof.
  intros [Ht Hd] Ha. unfold write_index.
  assert (forall typ, wf_entry typ -> commit index id ((Document, Some (Archived t)) :: map set_entry (entries t)) db !! key index id typ =
    if decide (typ ∈ entries t) then Some Nothing else if decide (typ = Document) then Some (Archived t) else None) as L.
  { intros typ Hty. change (commit index id ((Document, Some (Archived t)) :: map set_entry (entries t)) db)
      with (commit index id (map set_entry (entries t)) (commit_op index id db (Document, Some (Archived t)))).
    rewrite commit_writes by done. destruct (decide (typ ∈ entries t)); [done|].
    destruct (decide (typ = Document)) as [->|Hne]; [apply (commit_op_same index id db (Document, Some (Archived t)))|].
    rewrite commit_op_other by (by apply key_ne). by apply Ha. }
  split; [split|apply commit_only; [done|constructor; [done|by apply set_entries_wf]]].
  - rewrite L by done. rewrite decide_False by done. by rewrite decide_True.
  - intros typ Hty Hne. rewrite L by done. destruct (decide (typ ∈ entries t)); [split; [done|by eexists]|].
    rewrite decide_False by done. split; [intros [? [=]]|done].
Qed.

Lemma merge_index_indexed t old db : wf_terms t -> wf_terms old -> indexed db index id old ->
  indexed (commit index id (merge_index t old) db) index id t /\ changes index id db (commit index id (merge_index t old) db).
Proof.
  intros [Ht Hd] [Ho Hdo] [_ Hold]. unfold merge_index.
  destruct (merge_entries_spec (term_entries t) (term_entries old)) as (s1 & c1 & -> & Hs1 & Hc1).
  destruct (merge_entries_spec (field_entries t) (field_entries old)) as (s2 & c2 & -> & Hs2 & Hc2).
  unfold entries in *. rewrite Forall_app in Ht, Ho. destruct Ht as [Ht1 Ht2], Ho as [Ho1 Ho2].
  assert (Forall wf_entry s1 /\ Forall wf_entry s2 /\ Forall wf_entry c1 /\ Forall wf_entry c2) as (W1 & W2 & W3 & W4).
  { rewrite list.Forall_forall in Ht1, Ht2, Ho1, Ho2. split_and!; apply list.Forall_forall; intros x Hx.
    - apply Ht1, Hs1. by left.
    - apply Ht2, Hs2. by left.
    - apply Ho1, Hc1. done.
    - apply Ho2, Hc2. done. }
  set (doc := (Document, Some (Archived t))).
  assert (forall typ, wf_entry typ -> commit index id (doc :: map set_entry s1 ++ map set_entry s2 ++ map clear_entry c1 ++ map clear_entry c2) db
      !! key index id typ =
    if decide (typ ∈ c2) then None else if decide (typ ∈ c1) then None else if decide (typ ∈ s2) then Some Nothing
    else if decide (typ ∈ s1) then Some Nothing else if decide (typ = Document) then Some (Archived t) else db !! key index id typ) as L.
  { intros typ Hty. change (doc :: ?l) with ([doc] ++ l). rewrite !commit_app.
    rewrite !commit_clears, !commit_writes by done. repeat (destruct (decide (typ ∈ _)); [done|]).
    destruct (decide (typ = Document)) as [->|Hne]; [apply (commit_op_same index id db doc)|].
    apply (commit_op_other index id db doc). by apply key_ne. }
  assert (forall typ, typ ∈ term_entries t ++ field_entries t -> typ <> Document) as Hnd by (intros ? ? ->; done).
  assert (Document ∉ s1 /\ Document ∉ s2 /\ Document ∉ c1 /\ Document ∉ c2) as (D1 & D2 & D3 & D4).
  { rewrite elem_of_app in Hd, Hdo. rewrite Hc1, Hc2. specialize (Hs1 Document). specialize (Hs2 Document). naive_solver. }
  split; [split|apply commit_only; [done|]].
  - rewrite L by done. repeat (rewrite decide_False by done). by rewrite decide_True.
  - intros typ Hty Hne. rewrite L by done. specialize (Hold typ Hty Hne). unfold entries. rewrite elem_of_app in Hold |- *.
    specialize (Hs1 typ). specialize (Hs2 typ). specialize (Hc1 typ). specialize (Hc2 typ).
    assert (kind_disjoint : typ ∈ term_entries t \/ typ ∈ term_entries old -> typ ∈ field_entries t \/ typ ∈ field_entries old -> False)
      by (apply entries_kind).
    assert (forall v : Value, is_Some (Some v) <-> True) as Hsome by (intros; split; [done|by eexists]).
    assert (is_Some (@None Value) <-> False) as Hnone by (split; [by intros [? [=]]|done]).
    clear L Hnd D1 D2 D3 D4 W1 W2 W3 W4 Ht1 Ht2 Ho1 Ho2. rewrite (decide_False (P := typ = Document)) by done.
    destruct (decide (typ ∈ term_entries t)), (decide (typ ∈ field_entries t)); [exfalso; tauto|..];
      (destruct (decide (typ ∈ c2)); [rewrite Hnone; tauto|]); (destruct (decide (typ ∈ c1)); [rewrite Hnone; tauto|]);
      (destruct (decide (typ ∈ s2)); [rewrite Hsome; tauto|]); (destruct (decide (typ ∈ s1)); [rewrite Hsome; tauto|]);
      rewrite Hold; tauto.
  - constructor; [done|]. rewrite !Forall_app. split_and!; by (apply set_entries_wf || apply clear_entries_wf).
Qed.

Lemma delete_index_absent t db : wf_terms t -> indexed db index id t ->
  absent (commit index id (delete_index t) db) index id /\ changes index id db (commit index id (delete_index t) db).
Proof.
  intros [Ht Hd] [_ Hi]. unfold delete_index. split; [|apply commit_only; [done|constructor; [done|by apply clear_entries_wf]]].
  intros typ Hty. change (commit index id ((Document, None) :: map clear_entry (entries t)) db)
    with (commit index id (map clear_entry (entries t)) (commit_op index id db (Document, None))).
  rewrite commit_clears by done. destruct (decide (typ ∈ entries t)) as [|Hn]; [done|].
  destruct (decide (typ = Document)) as [->|Hne]; [apply (commit_op_same index id db (Document, None))|].
  rewrite commit_op_other by (by apply key_ne). apply eq_None_not_Some. by rewrite Hi.
Qed.
End Lifecycle.

(** ** What is built for a document *)

Lemma log2_bit bits n : 0 < bits < 2 ^ Z.of_nat (S n) -> 0 <= Z.log2 bits <= Z.of_nat n /\ Z.testbit bits (Z.log2 bits) = true /\
  0 <= Z.lxor bits (Z.shiftl 1 (Z.log2 bits)) < 2 ^ Z.of_nat n /\
  forall i, 0 <= i -> Z.testbit (Z.lxor bits (Z.shiftl 1 (Z.log2 bits))) i = Z.testbit bits i && negb (i =? Z.log2 bits).
Proof.
  intros H. pose proof (Z.log2_nonneg bits). assert (Z.log2 bits < Z.of_nat (S n)) by (apply Z.log2_lt_pow2; lia).
  assert (forall i, 0 <= i -> Z.testbit (Z.lxor bits (Z.shiftl 1 (Z.log2 bits))) i = Z.testbit bits i && negb (i =? Z.log2 bits)) as Hx.
  { intros i Hi. rewrite Z.lxor_spec, Z.shiftl_1_l, Z.pow2_bits_eqb, (Z.eqb_sym i) by done.
    destruct (Z.eqb_spec (Z.log2 bits) i) as [<-|]; cbn; [by rewrite Z.bit_log2 by lia|by rewrite xorb_false_r, andb_true_r]. }
  split; [lia|]. split; [by apply Z.bit_log2; lia|]. split; [|done].
  assert (0 <= Z.lxor bits (Z.shiftl 1 (Z.log2 bits))) as Hp.
  { apply Z.lxor_nonneg. rewrite Z.shiftl_1_l. pose proof (Z.pow_nonneg 2 (Z.log2 bits)). lia. }
  split; [done|]. destruct (Z.eq_dec (Z.lxor bits (Z.shiftl 1 (Z.log2 bits))) 0) as [->|Hne]; [apply Z.pow_pos_nonneg; lia|].
  apply Z.log2_lt_pow2; [lia|]. assert (Z.log2 (Z.lxor bits (Z.shiftl 1 (Z.log2 bits))) < Z.log2 bits); [|lia].
  apply Z.le_neq. set (x := Z.lxor _ _) in *. assert (Z.testbit x (Z.log2 x) = true) as Hb by (apply Z.bit_log2; lia).
  rewrite Hx in Hb by apply Z.log2_nonneg. apply andb_true_iff in Hb as [Hb Hb']. bool_to_prop. split; [|done].
  destruct (Z.le_gt_cases (Z.log2 x) (Z.log2 bits)) as [|Hgt]; [done|]. rewrite Z.bits_above_log2 in Hb by lia. done.
Qed.

Lemma bit_items_spec n : forall bits, 0 <= bits < 2 ^ Z.of_nat n ->
  forall i, i ∈ bit_items n bits <-> 0 <= i /\ Z.testbit bits i = true.
Proof.
  induction n as [|n IH]; intros bits Hb i.
  - cbn. assert (bits = 0) as -> by (cbn in Hb; lia). rewrite elem_of_nil, Z.bits_0. naive_solver.
  - cbn [bit_items]. unfold bit_pop. destruct (Z.eqb_spec bits 0) as [->|Hne]; [rewrite elem_of_nil, Z.bits_0; naive_solver|].
    destruct (log2_bit bits n ltac:(lia)) as (Hl & Ht & Hr & Hx). rewrite elem_of_cons, IH by done. split.
    + intros [->|[Hi H]]; [split; [lia|done]|]. rewrite Hx in H by done. by apply andb_true_iff in H as [? _].
    + intros [Hi H]. destruct (Z.eq_dec i (Z.log2 bits)) as [->|Hn]; [by left|right]. split; [done|].
      rewrite Hx, H by done. by apply Z.eqb_neq in Hn as ->.
Qed.

(** [bits] is a [u32]. *)
Lemma items_spec bits i : in_width 32 bits -> i ∈ items bits <-> 0 <= i < 32 /\ Z.testbit bits i = true.
Proof.
  intros Hb. unfold items. rewrite bit_items_spec by exact Hb. split; [|naive_solver].
  intros [Hi H]. split; [|done]. split; [done|]. destruct (Z.lt_ge_cases i 32) as [|Hge]; [done|].
  rewrite (bits_above 32) in H by done. done.
Qed.

Lemma bit_push_spec item bits i : 0 <= item < 32 -> in_width 32 bits ->
  in_width 32 (bit_push item bits) /\ (0 <= i -> Z.testbit (bit_push item bits) i = (i =? item) || Z.testbit bits i).
Proof.
  intros Hi Hb. unfold bit_push. assert (in_width 32 (Z.shiftl 1 item)) as Hs.
  { rewrite Z.shiftl_1_l. split; [apply Z.pow_nonneg; lia|apply Z.pow_lt_mono_r; lia]. }
  rewrite wrap_small by done. split.
  - destruct Hb, Hs. split; [apply Z.lor_nonneg; lia|]. destruct (Z.eq_dec (Z.lor bits (Z.shiftl 1 item)) 0) as [->|Hne]; [done|].
    assert (0 <= Z.lor bits (Z.shiftl 1 item)) by (apply Z.lor_nonneg; lia).
    apply Z.log2_lt_pow2; [lia|]. rewrite Z.log2_lor by lia. apply Z.max_lub_lt.
    + destruct (Z.eq_dec bits 0) as [->|]; [cbn; lia|apply Z.log2_lt_pow2; lia].
    + rewrite Z.shiftl_1_l, Z.log2_pow2 by lia. lia.
  - intros Hp. rewrite Z.lor_spec, Z.shiftl_1_l, Z.pow2_bits_eqb, (Z.eqb_sym i) by lia. apply orb_comm.
Qed.

(** A word's hash is in the fields that it was pushed for. *)
Definition in_terms (t : Terms) (field : Z) (h : CheekyHash) : Prop := exists bits, t !! h = Some bits /\ field ∈ items bits.
Definition terms_ok (t : Terms) : Prop := map_Forall (fun h bits => hash_ok h /\ in_width 32 bits) t.

Lemma push_term_spec field h t : 0 <= field < 32 -> hash_ok h -> terms_ok t ->
  terms_ok (push_term field h t) /\ forall f h', in_terms (push_term field h t) f h' <-> (f = field /\ h' = h) \/ in_terms t f h'.
Proof.
  intros Hf Hh Ht. assert (in_width 32 (default 0 (t !! h))) as Hd.
  { destruct (t !! h) as [b|] eqn:E; [by apply (Ht h b)|]. by vm_compute. }
  destruct (bit_push_spec field (default 0 (t !! h)) 0 Hf Hd) as [Hw _]. split.
  - apply map_Forall_insert_2; [done|exact Ht].
  - intros f h'. unfold in_terms, push_term. destruct (decide (h' = h)) as [->|Hne].
    + setoid_rewrite lookup_insert_eq. split.
      * intros (b & [= <-] & Hb). rewrite items_spec in Hb by done. destruct Hb as [Hi Hb].
        rewrite (proj2 (bit_push_spec field _ f Hf Hd)) in Hb by lia. apply orb_true_iff in Hb as [Hb|Hb].
        { apply Z.eqb_eq in Hb as ->. by left. }
        right. destruct (t !! h) as [b|]; cbn in Hb; [|by rewrite Z.bits_0 in Hb]. exists b. by rewrite items_spec.
      * intros H. eexists. split; [done|]. rewrite items_spec by done.
        assert (0 <= f < 32 /\ (f = field \/ Z.testbit (default 0 (t !! h)) f = true)) as [Hf' H'].
        { destruct H as [[-> _]|(b & E & H)]; [by split; [|left]|]. rewrite E in Hd |- *. change (in_width 32 b) in Hd. rewrite items_spec in H by done. destruct H. split; [done|by right]. }
        split; [done|]. rewrite (proj2 (bit_push_spec field _ f Hf Hd)) by lia. destruct H' as [->| ->]; [by rewrite Z.eqb_refl|by rewrite orb_true_r].
    + setoid_rewrite lookup_insert_ne; [|done]. naive_solver.
Qed.

Lemma push_terms_spec field hs : 0 <= field < 32 -> Forall hash_ok hs -> forall t, terms_ok t ->
  terms_ok (push_terms field hs t) /\ forall f h, in_terms (push_terms field hs t) f h <-> (f = field /\ h ∈ hs) \/ in_terms t f h.
Proof.
  intros Hf Hhs. induction Hhs as [|x hs Hx _ IH]; intros t Ht.
  - split; [done|]. intros f h. rewrite elem_of_nil. naive_solver.
  - destruct (push_term_spec field x t Hf Hx Ht) as [Ht' H']. destruct (IH _ Ht') as [H1 H2]. cbn [push_terms fold_left]. split; [exact H1|].
    intros f h. rewrite elem_of_cons. unfold push_terms in H2. rewrite H2, H'. naive_solver.
Qed.

(** What a field gives: words, and what it is compared by. *)
Definition is_id (f : SearchField) : bool := match f with FieldId | FieldAccountId | FieldDocumentId => true | _ => false end.
Definition hashes_of (truncate_at : nat) (fv : SearchField * SearchValue) : list CheekyHash :=
  if is_id (fst fv) then []
  else match snd fv with
       | VText value language => if is_text (fst fv) then text_hashes (truncated truncate_at value) language else []
       | VKeyValues kv => flat_map key_hashes kv
       | _ => []
       end.
Definition data_of (fv : SearchField * SearchValue) : list (list Z) :=
  match fst fv, snd fv with
  | FieldId, VUint v => [u64 v]
  | (FieldId | FieldAccountId | FieldDocumentId), _ => []
  | f, VText value _ => if is_indexed f then [firstn SEARCH_INDEX_MAX_FIELD_LEN value] else []
  | _, VKeyValues _ => []
  | _, VInt v => [u64 (wrap 64 v)]
  | _, VUint v => [u64 v]
  | _, VBoolean v => [[Z.b2z v]]
  end.

Lemma u8_id_range f : 0 <= u8_id f < 32.
Proof. destruct f as [| | |f|f|f|f|f]; try destruct f; cbn; lia. Qed.

Lemma hashes_ok truncate_at fv : Forall hash_ok (hashes_of truncate_at fv).
Proof.
  apply list.Forall_forall. intros h. unfold hashes_of, text_hashes. rewrite list_elem_of_In. destruct (is_id _); [done|].
  destruct (snd fv) as [v l|kv| | |]; try done.
  - destruct (is_text _); [|done]. repeat case_if; rewrite ?in_map_iff, ?in_flat_map.
    1,2: intros (? & <- & _); apply new_ok.
    intros (t & _ & [<-|Ht]); [apply new_ok|]. destruct (stemmed_word t); [|done]. destruct Ht as [<-|[]]. apply new_ok.
  - rewrite in_flat_map. intros (x & _ & [<-|Hx]); [apply new_ok|]. apply in_map_iff in Hx as (? & <- & _). apply new_ok.
Qed.

Lemma build_field_spec truncate_at b fv : terms_ok (b_terms b) ->
  let b' := build_field truncate_at b fv in
  terms_ok (b_terms b') /\
  (forall f h, in_terms (b_terms b') f h <-> (f = u8_id (fst fv) /\ h ∈ hashes_of truncate_at fv) \/ in_terms (b_terms b) f h) /\
  b_fields b' = b_fields b ++ map (pair (u8_id (fst fv))) (data_of fv).
Proof.
  intros Hb. pose proof (push_terms_spec (u8_id (fst fv)) _ (u8_id_range _) (hashes_ok truncate_at fv) _ Hb) as [Hp1 Hp2].
  destruct fv as [f v]. unfold hashes_of in *. cbn [fst snd] in *.
  destruct (is_id f) eqn:Ei.
  - assert (forall h : CheekyHash, h ∈ [] <-> False) as Hnil by (intros; by rewrite elem_of_nil).
    destruct f; try done; destruct v; unfold data_of; cbn; rewrite ?app_nil_r; (split; [done|]); split; try done; intros; rewrite Hnil; naive_solver.
  - assert (build_field truncate_at b (f, v) = match v with
      | VText value language =>
          let b := if is_text f then set_terms (push_terms (u8_id f) (text_hashes (truncated truncate_at value) language) (b_terms b)) b else b in
          if is_indexed f then push_field (u8_id f) (firstn SEARCH_INDEX_MAX_FIELD_LEN value) b else b
      | VKeyValues kv => set_terms (push_terms (u8_id f) (flat_map key_hashes kv) (b_terms b)) b
      | VInt v => push_field (u8_id f) (u64 (wrap 64 v)) b
      | VUint v => push_field (u8_id f) (u64 v) b
      | VBoolean v => push_field (u8_id f) [Z.b2z v] b
      end) as -> by (destruct f; done).
    assert (data_of (f, v) = match v with
      | VText value _ => if is_indexed f then [firstn SEARCH_INDEX_MAX_FIELD_LEN value] else []
      | VKeyValues _ => [] | VInt v => [u64 (wrap 64 v)] | VUint v => [u64 v] | VBoolean v => [[Z.b2z v]] end) as -> by (by destruct f, v).
    destruct v as [value l|kv| | |]; cbn [b_terms b_fields set_terms push_field map]; rewrite ?app_nil_r; try done.
    + destruct (is_text f), (is_indexed f); cbn [b_terms b_fields set_terms push_field map]; rewrite ?app_nil_r; done.
Qed.

Lemma build_spec truncate_at document :
  let t := fst (build document truncate_at) in
  terms_ok (terms t) /\
  (forall f h, in_terms (terms t) f h <-> exists fv, fv ∈ fields document /\ f = u8_id (fst fv) /\ h ∈ hashes_of truncate_at fv) /\
  index_fields t = flat_map (fun fv => map (pair (u8_id (fst fv))) (data_of fv)) (fields document).
Proof.
  cbn [build fst terms index_fields].
  assert (forall l b, terms_ok (b_terms b) ->
    let b' := fold_left (build_field truncate_at) l b in
    terms_ok (b_terms b') /\
    (forall f h, in_terms (b_terms b') f h <-> (exists fv, fv ∈ l /\ f = u8_id (fst fv) /\ h ∈ hashes_of truncate_at fv) \/ in_terms (b_terms b) f h) /\
    b_fields b' = b_fields b ++ flat_map (fun fv => map (pair (u8_id (fst fv))) (data_of fv)) l) as G.
  { induction l as [|fv l IH]; intros b Hb.
    - cbn. rewrite app_nil_r. split; [done|]. split; [|done]. intros f h. split; [by right|]. intros [(? & H & _)|]; [by apply elem_of_nil in H|done].
    - destruct (build_field_spec truncate_at b fv Hb) as (H1 & H2 & H3). destruct (IH _ H1) as (H4 & H5 & H6). cbn [fold_left flat_map].
      split; [done|]. split; [|by rewrite H6, H3, <- app_assoc]. intros f h. rewrite H5, H2. setoid_rewrite elem_of_cons. naive_solver. }
  destruct (G (fields document) (MkBuilder ∅ [] None None None)) as (G1 & G2 & G3); [apply map_Forall_empty|].
  split; [done|]. split; [|done]. intros f h. rewrite G2. split; [|by left]. intros [|(b & Hb & _)]; [done|]. discriminate (eq_trans (eq_sym (lookup_empty (M := gmap CheekyHash) h)) Hb).
Qed.

Lemma elem_of_entries truncate_at document typ : terms_ok (terms (fst (build document truncate_at))) ->
  typ ∈ entries (fst (build document truncate_at)) <->
  exists fv, fv ∈ fields document /\
    match typ with
    | Term f h => f = u8_id (fst fv) /\ h ∈ hashes_of truncate_at fv
    | Field f data => f = u8_id (fst fv) /\ data ∈ data_of fv
    | Document => False
    end.
Proof.
  intros Ht. destruct (build_spec truncate_at document) as (_ & Hh & Hf). unfold entries. rewrite elem_of_app.
  set (t := fst (build document truncate_at)) in *.
  assert (typ ∈ term_entries t <-> match typ with Term f h => in_terms (terms t) f h | _ => False end) as ->.
  { unfold term_entries, in_terms. rewrite list_elem_of_In, in_flat_map. split.
    - intros ([h b] & Hin & Hm). apply in_map_iff in Hm as (f & <- & Hi). exists b. split; [|by apply list_elem_of_In].
      apply elem_of_map_to_list, list_elem_of_In. done.
    - destruct typ as [f h| |]; [|done..]. intros (b & Hb & Hi). exists (h, b).
      split; [by apply list_elem_of_In, elem_of_map_to_list|]. apply in_map_iff. exists f. split; [done|by apply list_elem_of_In]. }
  assert (typ ∈ field_entries t <-> match typ with Field f d => exists fv, fv ∈ fields document /\ f = u8_id (fst fv) /\ d ∈ data_of fv | _ => False end) as ->.
  { unfold field_entries. rewrite Hf, list_elem_of_In, in_map_iff. split.
    - intros ([f d] & <- & Hin). apply in_flat_map in Hin as (fv & Hfv & Hin). apply in_map_iff in Hin as (x & [= <- <-] & Hx).
      exists fv. by rewrite !list_elem_of_In.
    - destruct typ as [|f d|]; [done| |done]. intros (fv & Hfv & -> & Hd). exists (u8_id (fst fv), d). split; [done|].
      apply in_flat_map. exists fv. split; [by apply list_elem_of_In|]. apply in_map_iff. exists d. by rewrite <- list_elem_of_In. }
  destruct typ as [f h|f d|]; [rewrite Hh| |]; naive_solver.
Qed.

(** Texts are bytes. *)
Definition wf_document (document : IndexDocument) : Prop :=
  Forall (fun fv => match snd fv with VText value _ => bytes_ok value | _ => True end) (fields document).

Lemma data_bytes fv data : match snd fv with VText value _ => bytes_ok value | _ => True end -> data ∈ data_of fv -> bytes_ok data.
Proof.
  destruct fv as [f v]. unfold data_of. cbn [fst snd]. intros Hv Hd.
  assert (match v with VText value _ => data = firstn SEARCH_INDEX_MAX_FIELD_LEN value | VKeyValues _ => False
          | VInt v => data = u64 (wrap 64 v) | VUint v => data = u64 v | VBoolean v => data = [Z.b2z v] end) as Hd'.
  { destruct f, v; rewrite ?elem_of_nil, ?list_elem_of_singleton in Hd; try done; destruct (is_indexed _);
      rewrite ?elem_of_nil, ?list_elem_of_singleton in Hd; done. }
  destruct v as [value l| | | |[]]; subst; try done; [by apply Forall_take|apply be_bytes_ok|apply be_bytes_ok|..]; by repeat constructor.
Qed.

Lemma build_wf truncate_at document : wf_document document -> wf_terms (fst (build document truncate_at)).
Proof.
  intros Hdoc. destruct (build_spec truncate_at document) as (Ht & _). split.
  - apply list.Forall_forall. intros typ Hin. apply elem_of_entries in Hin as (fv & Hfv & H); [|done].
    pose proof (u8_id_range (fst fv)). unfold wf_document in Hdoc. rewrite list.Forall_forall in Hdoc. specialize (Hdoc fv Hfv).
    destruct typ as [f h|f d|]; cbn; [|destruct H as [-> H]; split; [unfold u8_ok, in_width; lia|by apply (data_bytes fv)]|done].
    destruct H as [-> H]. split; [unfold u8_ok, in_width; lia|]. pose proof (hashes_ok truncate_at fv) as Ho.
    rewrite list.Forall_forall in Ho. by apply Ho.
  - rewrite elem_of_entries by done. by intros (? & _ & []).
Qed.

(** The identifier that [build] finds is in the fields. *)
Lemma fold_id (truncate_at : nat) l b (proj : Builder -> option Z) (f : SearchField) :
  (forall b fv, proj (build_field truncate_at b fv) = match fv with (f', VUint v) => if decide (f' = f) then Some v else proj b | _ => proj b end) ->
  NoDup (map fst l) -> proj b = None \/ f ∉ map fst l ->
  proj (fold_left (build_field truncate_at) l b) = match field_get f l with Some (VUint v) => Some v | _ => proj b end.
Proof.
  intros Hp. revert b. induction l as [|[f' v] l IH]; intros b Hn Hb; [done|]. apply list.NoDup_cons in Hn as [Hn1 Hn2].
  cbn [fold_left field_get fst snd]. rewrite IH, Hp.
  - destruct (decide (f' = f)) as [->|Hne].
    + assert (field_get f l = None) as ->.
      { clear -Hn1. induction l as [|[f' w] l IH]; [done|]. cbn in *. rewrite elem_of_cons in Hn1. rewrite decide_False by naive_solver. apply IH. naive_solver. }
      by destruct v.
    + by destruct v.
  - done.
  - destruct (decide (f' = f)) as [->|Hne]; [by right|]. destruct Hb as [Hb|Hb].
    + left. rewrite Hp. destruct v; try done. by rewrite decide_False.
    + right. cbn in Hb. rewrite elem_of_cons in Hb. naive_solver.
Qed.

Lemma build_account truncate_at document a d : NoDup (map fst (fields document)) ->
  snd (build document truncate_at) = Account a d ->
  exists a' d', field_get FieldAccountId (fields document) = Some (VUint a') /\ a = wrap 32 a' /\
    field_get FieldDocumentId (fields document) = Some (VUint d') /\ d = wrap 32 d'.
Proof.
  intros Hn. set (b := MkBuilder ∅ [] None None None).
  assert (snd (build document truncate_at) = document_key (fold_left (build_field truncate_at) (fields document) b)) as -> by done.
  pose proof (fold_id truncate_at (fields document) b b_account_id FieldAccountId) as Ea.
  pose proof (fold_id truncate_at (fields document) b b_document_id FieldDocumentId) as Ed.
  specialize (Ea ltac:(intros b' [f v]; destruct f, v; cbn [build_field]; repeat case_if; done) Hn (or_introl eq_refl)).
  specialize (Ed ltac:(intros b' [f v]; destruct f, v; cbn [build_field]; repeat case_if; done) Hn (or_introl eq_refl)).
  unfold document_key. rewrite Ea, Ed. cbn [b b_account_id b_document_id]. clear Ea Ed.
  generalize (b_id (fold_left (build_field truncate_at) (fields document) b)). intros i.
  destruct (field_get FieldAccountId (fields document)) as [[]|], (field_get FieldDocumentId (fields document)) as [[]|], i;
    cbn; try done; intros [= <- <-]; eauto 10.
Qed.

Lemma index_document_spec truncate_at document db :
  let index := doc_index document in
  let t := fst (build document truncate_at) in
  let id := snd (build document truncate_at) in
  wf_document document -> wf_id index id -> NoDup (map fst (fields document)) ->
  (absent db index id \/ (index = SCalendar \/ index = SContacts) /\ exists old, wf_terms old /\ indexed db index id old) ->
  exists db', index_document truncate_at document db = Some db' /\ changes index id db db' /\ wf_terms t /\ indexed db' index id t /\
    (forall typ, wf_entry typ -> typ <> Document -> is_Some (db' !! key index id typ) <->
      exists fv, fv ∈ fields document /\
        match typ with
        | Term f h => f = u8_id (fst fv) /\ h ∈ hashes_of truncate_at fv
        | Field f data => f = u8_id (fst fv) /\ data ∈ data_of fv
        | Document => False
        end).
Proof.
  intros index t id Hdoc Hid Hn Hdb. pose proof (build_wf truncate_at document Hdoc) as Hw. fold t in Hw.
  pose proof (proj1 (build_spec truncate_at document)) as Ht.
  assert (Eid : snd (build document truncate_at) = id) by done. assert (Ein : doc_index document = index) by done.
  assert (Et : fst (build document truncate_at) = t) by done. clearbody id index t.
  assert (exists db', index_document truncate_at document db = Some db' /\ changes index id db db' /\ indexed db' index id t) as (db' & E & Ho & Hi).
  { assert (exists old, old_term_index document db = Some old /\
      match old with Some old => wf_terms old /\ indexed db index id old | None => absent db index id end) as (old & Eo & Hold).
    { unfold old_term_index. rewrite Ein. destruct Hdb as [Ha|(Hx & old & Hwo & Hold)].
      - exists None. split; [|done]. destruct id as [a d|i]; [|by destruct Hid as [-> _]].
        destruct (build_account truncate_at document a d Hn Eid) as (a' & d' & -> & -> & -> & ->). pose proof (Ha Document I) as Hd.
        by destruct index; rewrite ?Hd.
      - exists (Some old). split; [|done]. destruct Hold as [Hd _]. destruct id as [a d|i]; [|by destruct Hid as [-> _], Hx].
        destruct (build_account truncate_at document a d Hn Eid) as (a' & d' & -> & -> & -> & ->).
        by destruct Hx as [-> | ->]; rewrite Hd. }
    unfold index_document. rewrite Eo, (surjective_pairing (build document truncate_at)), Et, Eid, Ein.
    destruct old as [old|]; eexists; (split; [done|]).
    - destruct Hold as [Hwo Hold]. by destruct (merge_index_indexed index id Hid t old db Hw Hwo Hold).
    - by destruct (write_index_indexed index id Hid t db Hw Hold). }
  exists db'. split; [done|]. split; [done|]. split; [done|]. split; [done|].
  intros typ Hty Hne. rewrite (proj2 Hi), <- Et by done. by apply elem_of_entries.
Qed.

(** C22: indexing a document leaves exactly what its fields give: an entry for
    each word of each field that has words, one for each value that a field
    is compared by, and the archive that lists them; entries of other
    documents do not change.  This holds for a document that was not indexed,
    and in calendars and contacts for one that was, whatever it was before.
    Taking the document away then leaves nothing of it. *)
Theorem document_lifecycle truncate_at document db :
  let index := doc_index document in
  let t := fst (build document truncate_at) in
  let id := snd (build document truncate_at) in
  wf_document document -> wf_id index id -> NoDup (map fst (fields document)) ->
  (absent db index id \/ (index = SCalendar \/ index = SContacts) /\ exists old, wf_terms old /\ indexed db index id old) ->
  exists db', index_document truncate_at document db = Some db' /\ changes index id db db' /\ wf_terms t /\ indexed db' index id t /\
    (forall typ, wf_entry typ -> typ <> Document -> is_Some (db' !! key index id typ) <->
      exists fv, fv ∈ fields document /\
        match typ with
        | Term f h => f = u8_id (fst fv) /\ h ∈ hashes_of truncate_at fv
        | Field f data => f = u8_id (fst fv) /\ data ∈ data_of fv
        | Document => False
        end) /\
    exists db'', unindex_document index id db' = Some db'' /\ absent db'' index id /\ changes index id db' db''.
Proof.
  intros index t id Hdoc Hid Hn Hdb. destruct (index_document_spec truncate_at document db Hdoc Hid Hn Hdb) as (db' & E & Hch & Hw & Hi & Hc).
  exists db'. do 5 (split; [done|]). destruct Hi as [Hd Hi]. fold index id in Hd.
  unfold unindex_document. rewrite Hd. eexists. split; [done|]. by apply delete_index_absent.
Qed.

(** ** Taking an account away *)

Lemma delete_range_lookup from to db k : delete_range from to db !! k = if in_range from to k then None else db !! k.
Proof.
  unfold delete_range, Db in *. rewrite map_lookup_filter. destruct (db !! k) as [v|]; cbn; [|by case_if].
  destruct (in_range from to k) eqn:E; [by rewrite option_guard_False|by rewrite option_guard_True].
Qed.

Lemma byte_order_zeros n x : (n <= length x)%nat -> bytes_ok x -> byte_order (repeat 0 n) x <> Gt.
Proof.
  revert x. induction n as [|n IH]; intros x Hl Hx; [by destruct x|]. destruct x as [|b x]; [cbn in Hl; lia|].
  inversion Hx as [|? ? Hb Hx']; subst. unfold in_width in Hb. cbn [repeat byte_order].
  destruct (Z.compare_spec 0 b); [apply IH; [cbn in Hl; lia|done]|congruence|lia].
Qed.

Lemma byte_order_full n x : (length x <= n)%nat -> bytes_ok x -> x <> repeat 255 n -> byte_order x (repeat 255 n) = Lt.
Proof.
  revert x. induction n as [|n IH]; intros x Hl Hx Hne; [by destruct x; [|cbn in Hl; lia]|]. destruct x as [|b x]; [done|].
  inversion Hx as [|? ? Hb Hx']; subst. cbn. unfold in_width in Hb. destruct (Z.compare_spec b 255) as [->|H|H]; [|done|lia].
  apply IH; [cbn in Hl; lia|done|]. intros ->. by apply Hne.
Qed.

Lemma byte_order_same p x y : byte_order (p ++ x) (p ++ y) = byte_order x y.
Proof. induction p as [|c p IH]; [done|]. cbn. by rewrite Z.compare_refl. Qed.

Lemma in_range_same p from to x : in_range (p ++ from) (p ++ to) (p ++ x) = in_range from to x.
Proof. unfold in_range. by rewrite !byte_order_same. Qed.

(** Keys with another beginning are not in a range of one beginning. *)
Lemma in_range_other p q from to x : length p = length q -> p <> q -> in_range (p ++ from) (p ++ to) (q ++ x) = false.
Proof.
  revert q. induction p as [|a p IH]; intros [|b q] Hl Hne; try done. unfold in_range. cbn [app byte_order].
  destruct (Z.compare_spec a b) as [->|H|H].
  - rewrite Z.compare_refl. apply IH; [by injection Hl|congruence].
  - rewrite (proj2 (Z.compare_gt_iff b a)) by done. done.
  - done.
Qed.

(** The first bytes of the keys of an account: the kind of entry and the
    index, and the account. *)
Definition account_prefix (index : SearchIndex) (account_id : Z) (typ : SearchIndexType) : list Z :=
  u8 (default 0 (to_u8 index) + 64 * search_kind typ) ++ u32 account_id.
Definition account_rest (document_id : Z) (typ : SearchIndexType) : list Z :=
  match typ with
  | Term f h => payload h ++ u8 (payload_len h) ++ u8 f ++ u32 document_id
  | Field f data => u8 f ++ data ++ u32 document_id
  | Document => u32 document_id
  end.

Lemma key_account index a d typ : index <> SInMemory ->
  key index (Account a d) typ = account_prefix index a typ ++ account_rest d typ.
Proof.
  intros Hi. unfold key, serialize_search, account_prefix. destruct (to_u8 index) as [n|] eqn:E; [|by destruct index].
  pose proof (to_u8_range _ _ E) as Hn. assert (forall k, Z.lor n (Z.shiftl k 6) = n + 64 * k) as Hlor.
  { intros k. rewrite lor_shiftl_disjoint by (unfold in_width; lia). lia. }
  cbn [default from_option]. destruct typ; cbn [search_kind account_rest]; rewrite ?Hlor, ?Z.add_0_r, <- ?app_assoc; try done.
Qed.

Lemma prefix_length index a typ : length (account_prefix index a typ) = 5%nat.
Proof. done. Qed.

Lemma hash_bytes h : hash_ok h -> bytes_ok h -> bytes_ok (payload h) /\ in_width 8 (payload_len h).
Proof.
  intros (l & r & -> & _ & Hl) Hb. split; [|exact Hl]. unfold payload.
  case_if; [apply Forall_take|]; by apply Forall_drop.
Qed.

(** What the code writes: fields have numbers up to 14, values are cut at 128
    bytes, and no document has the largest identifier. *)
Definition written (d : Z) (typ : SearchIndexType) : Prop :=
  0 <= d < u32_max /\
  match typ with
  | Term f h => 0 < f < 255 /\ hash_ok h /\ bytes_ok h
  | Field f data => 0 < f < 255 /\ (length data <= SEARCH_INDEX_MAX_FIELD_LEN)%nat /\ bytes_ok data
  | Document => True
  end.

Definition least (typ : SearchIndexType) : SearchIndexType :=
  match typ with Term _ _ => Term 0 HASH_NULL | Field _ _ => Field 0 [0] | Document => Document end.
Definition greatest (typ : SearchIndexType) : SearchIndexType :=
  match typ with
  | Term _ _ => Term 255 HASH_FULL | Field _ _ => Field 255 (repeat 255 SEARCH_INDEX_MAX_FIELD_LEN) | Document => Document
  end.

Lemma account_rest_range d typ : written d typ ->
  in_range (account_rest 0 (least typ)) (account_rest u32_max (greatest typ)) (account_rest d typ) = true.
Proof.
  intros [Hd Ht]. assert (bytes_ok (u32 d) /\ length (u32 d) = 4%nat /\ u32 d <> repeat 255 4) as (Hb & Hl & Hne).
  { split; [apply be_bytes_ok|]. split; [apply be_bytes_length|]. intros E.
    assert (in_width (8 * Z.of_nat 4) d) as Hw by (unfold in_width, u32_max in *; cbn; lia).
    pose proof (of_be_id 4 d Hw) as Eb. unfold u32 in E. rewrite E in Eb. vm_compute in Eb. unfold u32_max in Hd. lia. }
  assert (forall n m x, (n <= length x)%nat -> (length x <= m)%nat -> bytes_ok x -> x <> repeat 255 m ->
    in_range (repeat 0 n) (repeat 255 m) x = true) as G.
  { intros n m x Hn Hm Hx Hxe. unfold in_range. rewrite (byte_order_full m x) by done.
    pose proof (byte_order_zeros n x Hn Hx). by destruct (byte_order (repeat 0 n) x). }
  assert (forall (x y : list Z) f n, x ++ f :: y <> repeat 255 n \/ f = 255) as Hrep.
  { intros x y f n. destruct (Z.eq_dec f 255); [by right|left]. intros E. assert (In f (repeat 255 n)) as Hin.
    { rewrite <- E. apply in_or_app. right. by left. } apply repeat_spec in Hin. done. }
  destruct typ as [f h|f data|]; cbn [least greatest account_rest].
  - destruct Ht as (Hf & Hh & Hhb). change (payload HASH_NULL ++ u8 (payload_len HASH_NULL) ++ u8 0 ++ u32 0) with (repeat 0 6).
    change (payload HASH_FULL ++ u8 (payload_len HASH_FULL) ++ u8 255 ++ u32 u32_max) with (repeat 255 21).
    destruct (as_bytes_payload h Hh) as [_ Hlen]. pose proof (hash_bytes h Hh Hhb) as [Hp1 Hp2].
    apply G; unfold u8 in *.
    + rewrite !length_app, Hl. cbn. lia.
    + rewrite !length_app, Hl. cbn. unfold HASH_PAYLOAD in *. lia.
    + unfold bytes_ok. rewrite !Forall_app. split_and!; [done|by constructor|constructor; [unfold in_width; lia|done]|done].
    + rewrite app_assoc. cbn [app]. destruct (Hrep (payload h ++ [payload_len h]) (u32 d) f 21%nat); [done|lia].
  - destruct Ht as (Hf & Hlen & Hdb). change (u8 0 ++ [0] ++ u32 0) with (repeat 0 6).
    change (u8 255 ++ repeat 255 SEARCH_INDEX_MAX_FIELD_LEN ++ u32 u32_max) with (repeat 255 133).
    assert (in_range (repeat 0 5) (repeat 255 133) (u8 f ++ data ++ u32 d) = true) as H5.
    { apply G; unfold u8, SEARCH_INDEX_MAX_FIELD_LEN in *.
      - rewrite !length_app, Hl. cbn. lia.
      - rewrite !length_app, Hl. cbn [length]. lia.
      - unfold bytes_ok. rewrite !Forall_app. split_and!; [constructor; [unfold in_width; lia|done]|done|done].
      - destruct (Hrep [] (data ++ u32 d) f 133%nat) as [H|H]; [exact H|lia]. }
    unfold in_range in *. cbn [repeat u8 app byte_order] in *. destruct (Z.compare_spec 0 f); try done; lia.
  - change (u32 0) with (repeat 0 4). change (u32 u32_max) with (repeat 255 4). apply G; [lia|lia|done|done].
Qed.

(** C23: taking an account away leaves no entry of any of its documents in the
    index, and takes away nothing else. *)
Theorem account_erased index account_id db : index <> SInMemory -> index <> STracing -> u32_ok account_id ->
  (forall d typ, written d typ -> unindex_account index account_id db !! key index (Account account_id d) typ = None) /\
  (forall index' account_id' d typ, index' <> SInMemory -> index' <> STracing -> u32_ok account_id' -> (index', account_id') <> (index, account_id) ->
    unindex_account index account_id db !! key index' (Account account_id' d) typ = db !! key index' (Account account_id' d) typ).
Proof.
  intros Hi Hg Ha. unfold unindex_account. split.
  - intros d typ Hw. rewrite !delete_range_lookup, !key_account by done.
    pose proof (account_rest_range d typ Hw) as Hr. destruct typ; cbn [least greatest] in Hr.
    + change (account_prefix index account_id (Term 255 HASH_FULL)) with (account_prefix index account_id (Term field hash)).
      change (account_prefix index account_id (Term 0 HASH_NULL)) with (account_prefix index account_id (Term field hash)).
      rewrite in_range_same, Hr. done.
    + change (account_prefix index account_id (Field 255 ?x)) with (account_prefix index account_id (Field field_id data)).
      change (account_prefix index account_id (Field 0 ?x)) with (account_prefix index account_id (Field field_id data)).
      rewrite in_range_same, Hr. by case_if.
    + rewrite in_range_same, Hr. by repeat case_if.
  - intros index' a' d typ Hi' Hg' Ha' Hne. rewrite !delete_range_lookup, !key_account by done.
    assert (forall t, account_prefix index account_id t <> account_prefix index' a' typ) as Hp.
    { intros t E. unfold account_prefix, u8 in E. cbn [app] in E. pose proof (f_equal (hd 0) E) as Ek. cbn [hd] in Ek.
      pose proof (f_equal (@tl Z) E) as Ea. cbn [tl] in Ea. apply Hne.
      assert (index = index' /\ account_id = a') as [-> ->]; [|done]. split.
      - destruct index, index', t, typ; try done; cbn in Ek; lia.
      - unfold u32 in Ea. rewrite <- (of_be_id 4 account_id), <- (of_be_id 4 a') by (unfold u32_ok in *; done). by rewrite Ea. }
    by rewrite !in_range_other.
Qed.
End Terms.

(** ** Examples *)

Module Demo.
Import SearchTokens.Demo.
Definition zero (_ : list Z) : Z := 0.

Definition mail (d : Z) (subject message_id : list Z) : IndexDocument :=
  put (Email EHeaders) (VKeyValues [(s#"message-id", message_id)])
    (index_integer (Email ESentAt) (- 5) (index_text (Email ESubject) subject L_ENGLISH
      (with_document_id d (with_account_id 7 (new_document SEmail))))).
Definition hello : IndexDocument := mail 3 s#"Hello, World" s#"<a1@example.org>".
Definition bye : IndexDocument := mail 4 s#"Bye" s#"<b2@example.org>".

Definition check_bytes (l : list Z) : bool := forallb (fun b => (0 <=? b) && (b <? 256)) l.
Lemma check_bytes_ok l : check_bytes l = true -> bytes_ok l.
Proof.
  unfold check_bytes. rewrite forallb_forall. intros H. apply list.Forall_forall. intros b Hb. apply list_elem_of_In, H in Hb.
  bool_to_prop. unfold in_width. lia.
Qed.

Definition check_document (d : IndexDocument) : bool :=
  forallb (fun fv => match snd fv with VText value _ => check_bytes value | _ => true end) (fields d).
Lemma check_document_ok d : check_document d = true -> wf_document d.
Proof.
  unfold check_document, wf_document. rewrite forallb_forall, list.Forall_forall. intros H fv Hfv. apply list_elem_of_In, H in Hfv.
  destruct (snd fv); try done. by apply check_bytes_ok.
Qed.

Lemma fields_nodup (l : Fields) : bool_decide (NoDup (map fst l)) = true -> NoDup (map fst l).
Proof. apply bool_decide_eq_true_1. Qed.

Lemma absent_empty index id : absent ∅ index id.
Proof. intros typ _. apply lookup_empty. Qed.

(** A word of the subject. *)
Definition word_entry : SearchIndexType := Term 7 (CheekyHash.new zero zero s#"world").

(** A mail is indexed, and taken away. *)
Lemma document_lifecycle_witness :
  exists db', index_document zero zero 0 hello ∅ = Some db' /\ is_Some (db' !! key SEmail (Account 7 3) word_entry) /\
    exists db'', unindex_document SEmail (Account 7 3) db' = Some db'' /\ absent db'' SEmail (Account 7 3).
Proof.
  destruct (document_lifecycle zero zero 0 hello ∅) as (db' & E & _ & _ & _ & Hc & db'' & E' & Ha & _).
  - by apply check_document_ok.
  - by vm_compute.
  - by apply fields_nodup.
  - left. apply absent_empty.
  - exists db'. split; [exact E|]. split; [|exists db''; split; [exact E'|exact Ha]].
    assert (wf_entry word_entry) as Hw by (split; [unfold u8_ok, in_width; lia|apply new_ok]).
    apply (proj2 (Hc word_entry Hw ltac:(done))).
    exists (Email ESubject, VText s#"Hello, World" L_ENGLISH). split; [apply list_elem_of_In; vm_compute; auto|].
    split; [done|]. apply list_elem_of_In. vm_compute. auto.
Defined.

Definition db : Db := default ∅ (index_documents zero zero 0 [hello; bye] ∅).

(** The mail of account 7 goes, that of others stays. *)
Lemma account_erased_witness :
  unindex_account SEmail 7 db !! key SEmail (Account 7 3) word_entry = None /\
  unindex_account SEmail 8 db !! key SEmail (Account 7 3) word_entry = Some Nothing.
Proof.
  split.
  - apply (proj1 (account_erased SEmail 7 db ltac:(done) ltac:(done) ltac:(by vm_compute)) 3 word_entry).
    split; [by vm_compute|]. split; [by vm_compute|]. split; [apply new_ok|]. by apply check_bytes_ok.
  - rewrite (proj2 (account_erased SEmail 8 db ltac:(done) ltac:(done) ltac:(by vm_compute)) SEmail 7 3 word_entry); [by vm_compute|done..].
Defined.
End Demo.
