(* ===== verification/SearchStore.v ===== *)
(** * Searching the built-in index ([crates/store/src/search/query.rs], [bm_u32.rs])

    Conditions are looked up in the index of [SearchTerms], with a cache of
    the documents of each word, and the loop of [SearchFilter] combines them.
    [query_account] is the search of one account.  It gives the documents of
    the mask that satisfy the query. *)

From stdpp Require Import gmap sorting.
From S2P Require Import Prelude Text CheekyHash StoreKeys SearchFilter SearchTokens SearchTerms.

Section Store.
Context {N : Nlp}.
Variables xxh3 fingerprint64 : list Z -> Z.
Notation hash_of := (CheekyHash.new xxh3 fingerprint64).

(** ** Iterating over keys *)

Definition byte_le (a b : list Z) : Prop := byte_order a b <> Gt.
#[local] Instance byte_le_dec : RelDecision byte_le.
Proof. intros a b. unfold byte_le. destruct (byte_order a b); (by left) || (right; congruence). Defined.

(** The keys from one to another, in order. *)
Definition iterate (from to : list Z) (db : Db) : list (list Z) :=
  merge_sort byte_le (List.filter (fun k => bool_decide (byte_le from k) && bool_decide (byte_le k to)) (fst <$> map_to_list db)).

(** ** Words *)

(* [crates/store/src/search/bm_u32.rs:26-28] BitmapCache *)
Definition BitmapCache : Type := gmap (CheekyHash * Z) (option (gset Z)).

Section Account.
Variables (db : Db) (index : SearchIndex) (account_id : Z).

(** The documents that a word is in. *)
(* [crates/store/src/search/bm_u32.rs:59-88] merge_bitmaps, the documents of a hash *)
Definition term_documents (hash : CheekyHash) (field : Z) : gset Z :=
  let key_len := (4 * 2 + CheekyHash.len hash + 2)%nat in
  list_to_set (omap (fun k => if (length k =? key_len)%nat then deserialize_be_u32 k (length k - 4) else None)
    (iterate (key index (Account account_id 0) (Term field hash)) (key index (Account account_id u32_max) (Term field hash)) db)).

(** [first] is [idx == 0]. *)
(* [crates/store/src/search/bm_u32.rs:31-116] merge_bitmaps *)
Fixpoint merge_loop (hashes : list CheekyHash) (field : Z) (is_union first : bool) (result : gset Z) (cache : BitmapCache)
    : BitmapCache * option (gset Z) :=
  match hashes with
  | [] => (cache, if bool_decide (result = ∅) then None else Some result)
  | hash :: hashes =>
      match cache !! (hash, field) with
      | Some (Some bm) =>
          if is_union then merge_loop hashes field is_union false (result ∪ bm) cache
          else if first then merge_loop hashes field is_union false bm cache
          else if bool_decide (result ∩ bm = ∅) then (cache, None)
          else merge_loop hashes field is_union false (result ∩ bm) cache
      | Some None => if is_union then merge_loop hashes field is_union false result cache else (cache, None)
      | None =>
          let documents := term_documents hash field in
          if bool_decide (documents = ∅) then
            if is_union then merge_loop hashes field is_union false result cache
            else (<[(hash, field) := None]> cache, None)
          else
            let cache := <[(hash, field) := Some documents]> cache in
            if is_union then merge_loop hashes field is_union false (result ∪ documents) cache
            else if first then merge_loop hashes field is_union false documents cache
            else if bool_decide (result ∩ documents = ∅) then (cache, None)
            else merge_loop hashes field is_union false (result ∩ documents) cache
      end
  end.
Definition merge_bitmaps (hashes : list CheekyHash) (field : Z) (is_union : bool) (cache : BitmapCache)
    : BitmapCache * option (gset Z) := merge_loop hashes field is_union true ∅ cache.

(** ** Values *)

(* [crates/store/src/search/bm_u32.rs:191-197] range_to_bitmap, the comparison *)
Definition value_matches (op : SearchOperator) (value match_value : list Z) : bool :=
  match op, byte_order value match_value with
  | LowerThan, Lt => true
  | LowerEqualThan, (Lt | Eq) => true
  | GreaterThan, Gt => true
  | GreaterEqualThan, (Gt | Eq) => true
  | (Equal | Contains), Eq => true
  | _, _ => false
  end.

(* [crates/store/src/search/bm_u32.rs:127-143] range_to_bitmap, the range *)
Definition value_range (field_id : Z) (match_value : list Z) (op : SearchOperator) : (list Z * Z * Z) * (list Z * Z * Z) :=
  match op with
  | LowerThan => (([], 0, field_id), (match_value, 0, field_id))
  | LowerEqualThan => (([], 0, field_id), (match_value, u32_max, field_id))
  | GreaterThan => ((match_value, u32_max, field_id), ([], u32_max, field_id + 1))
  | GreaterEqualThan => ((match_value, 0, field_id), ([], u32_max, field_id + 1))
  | Equal | Contains => ((match_value, 0, field_id), (match_value, u32_max, field_id))
  end.

(** The loop stops at a key with another beginning; [None] is the error of a
    key that is too short. *)
(* [crates/store/src/search/bm_u32.rs:177-211] range_to_bitmap, the loop *)
Fixpoint range_loop (prefix : list Z) (op : SearchOperator) (match_value : list Z) (keys : list (list Z)) (bm : gset Z)
    : option (gset Z) :=
  match keys with
  | [] => Some bm
  | k :: keys =>
      if starts_with prefix k then
        let id_pos := (length k - 4)%nat in
        match get_range k (length prefix) id_pos with
        | None => None
        | Some value =>
            if value_matches op value match_value then
              match deserialize_be_u32 k id_pos with
              | Some d => range_loop prefix op match_value keys ({[ d ]} ∪ bm)
              | None => None
              end
            else range_loop prefix op match_value keys bm
        end
      else Some bm
  end.
(* [crates/store/src/search/bm_u32.rs:119-217] range_to_bitmap *)
Definition range_to_bitmap (field_id : Z) (match_value : list Z) (op : SearchOperator) : option (option (gset Z)) :=
  let '((from_value, from_doc_id, from_field), (end_value, end_doc_id, end_field)) := value_range field_id match_value op in
  let begin_key := key index (Account account_id from_doc_id) (Field from_field from_value) in
  let end_key := key index (Account account_id end_doc_id) (Field end_field end_value) in
  let prefix := account_prefix index account_id (Field 0 []) ++ u8 field_id in
  match range_loop prefix op match_value (iterate begin_key end_key db) ∅ with
  | Some bm => Some (if bool_decide (bm = ∅) then None else Some bm)
  | None => None
  end.

(** The rank of each document's value. *)
(* [crates/store/src/search/bm_u32.rs:255-275] sort_order, the loop *)
Fixpoint sort_loop (last_value : list Z) (pos : Z) (results : gmap Z Z) (keys : list (list Z)) : gmap Z Z :=
  match keys with
  | [] => results
  | k :: keys =>
      let value := skipn 6 (firstn (length k - 4) k) in
      let pos := if bytes_eqb value last_value then pos else pos + 1 in
      match deserialize_be_u32 k (length k - 4) with
      | Some d => sort_loop value pos (<[d := pos]> results) keys
      | None => sort_loop value pos results keys
      end
  end.
(* [crates/store/src/search/bm_u32.rs:219-278] sort_order *)
Definition sort_order (field_id : Z) : gmap Z Z :=
  sort_loop [] 0 ∅ (iterate (key index (Account account_id 0) (Field field_id [0]))
    (key index (Account account_id u32_max) (Field field_id (repeat 255 SEARCH_INDEX_MAX_FIELD_LEN))) db).

(** ** Conditions *)

Inductive QueryError := AccountIdMissing | CorruptedKey | ExpectedText | ExpectedNonKeyValue | NotIndexed (f : SearchField) | Unwrap.

(* [crates/store/src/search/query.rs:94-103] query_account, the forms of a word *)
Definition token_hashes (token : StemmedToken) : list CheekyHash :=
  hash_of (word token) :: hash_of (star (word token)) ::
  match stemmed_word token with Some stemmed => [hash_of (star stemmed)] | None => [] end.

(* [crates/store/src/search/query.rs:92-132] query_account, the words of a text *)
Fixpoint contains_loop (field : Z) (tokens : list StemmedToken) (result : gset Z) (cache : BitmapCache) : BitmapCache * gset Z :=
  match tokens with
  | [] => (cache, result)
  | token :: tokens =>
      let '(cache, union) := merge_bitmaps (token_hashes token) field true cache in
      match union with
      | Some union =>
          if bool_decide (result = ∅) then contains_loop field tokens union cache
          else if bool_decide (result ∩ union = ∅) then (cache, ∅)
          else contains_loop field tokens (result ∩ union) cache
      | None => (cache, ∅)
      end
  end.

(** The bytes that a value is compared as. *)
(* [crates/store/src/search/query.rs:172-186] query_account, the bytes of a value *)
Definition value_bytes (v : SearchValue) : option (list Z) :=
  match v with
  | VText value _ => Some (firstn SEARCH_INDEX_MAX_FIELD_LEN value)
  | VInt v => Some (u64 (wrap 64 v))
  | VUint v => Some (u64 v)
  | VBoolean v => Some [Z.b2z v]
  | VKeyValues _ => None
  end.

(* [crates/store/src/search/query.rs:66-202] query_account, conditions *)
Definition lookup_condition (field : SearchField) (op : SearchOperator) (value : SearchValue) (cache : BitmapCache)
    : BitmapCache * result (option (gset Z)) QueryError :=
  if is_text field && (bool_decide (op = Contains) || bool_decide (op = Equal)) then
    match value with
    | VText value language =>
        if bool_decide (op = Equal) then
          let '(cache, r) := merge_bitmaps (map hash_of (tokenize_text language value MAX_TOKEN_LENGTH)) (u8_id field) false cache in
          (cache, Ok r)
        else
          let '(cache, r) := contains_loop (u8_id field) (Stemmer value language MAX_TOKEN_LENGTH) ∅ cache in
          (cache, Ok (if bool_decide (r = ∅) then None else Some r))
    | _ => (cache, Err ExpectedText)
    end
  else if is_json field then
    match value with
    | VKeyValues [] => (cache, Err Unwrap)
    | VKeyValues ((k, v) :: _) =>
        let '(cache, r) :=
          if is_nil v then merge_bitmaps [hash_of k] (u8_id field) false cache
          else merge_bitmaps (map (fun w => hash_of (k ++ [32] ++ w)) (SpaceTokenizer v MAX_TOKEN_LENGTH)) (u8_id field) true cache in
        (cache, Ok r)
    | _ => (cache, Err ExpectedText)
    end
  else if is_indexed field then
    match value_bytes value with
    | Some bytes =>
        match range_to_bitmap (u8_id field) bytes op with
        | Some r => (cache, Ok r)
        | None => (cache, Err CorruptedKey)
        end
    | None => (cache, Err ExpectedNonKeyValue)
    end
  else (cache, Err (NotIndexed field)).

(** The account is not a condition. *)
(* [crates/store/src/search/query.rs:61-64] query_account, the account's filter *)
Definition condition (field : SearchField) (op : SearchOperator) (value : SearchValue) (cache : BitmapCache)
    : BitmapCache * result (option (option (gset Z))) QueryError :=
  if bool_decide (field = FieldAccountId) then (cache, Ok None)
  else match lookup_condition field op value cache with
       | (cache, Ok r) => (cache, Ok (Some r))
       | (cache, Err e) => (cache, Err e)
       end.
End Account.

(** ** The search of an account *)

(* [crates/store/src/search/query.rs:36-48] query_account, the account *)
Fixpoint account_of (filters : list SearchFilter) : option Z :=
  match filters with
  | [] => None
  | Operator FieldAccountId _ (VUint id) :: _ => Some (wrap 32 id)
  | _ :: filters => account_of filters
  end.

(* [crates/store/src/search/query.rs:274-281] query_account, the comparators *)
Definition local_comparator (db : Db) (index : SearchIndex) (account_id : Z) (c : SearchComparator) : SearchComparator :=
  match c with
  | CmpField field ascending => CmpSortedSet (sort_order db index account_id (u8_id field)) ascending
  | c => c
  end.

(** [None] is a panic. *)
(* [crates/store/src/search/query.rs:25-290] query_account *)
Definition query_account (db : Db) (index : SearchIndex) (filters : list SearchFilter) (comparators : list SearchComparator)
    (mask : gset Z) : option (result (list Z) QueryError) :=
  let sorted account_id (results : gset Z) :=
    if (1 <? size results)%nat && (0 <? length comparators)%nat
    then into_sorted results (map (local_comparator db index account_id) comparators)
    else ids results in
  match account_of filters with
  | None => Some (Err AccountIdMissing)
  | Some account_id =>
      if account_id =? u32_max then Some (Err AccountIdMissing)
      else if (1 <? length filters)%nat then
        match snd (run (condition db index account_id) mask filters ∅ start []) with
        | Some (Ok bm) => Some (Ok (sorted account_id (default ∅ bm ∩ mask)))
        | Some (Err e) => Some (Err e)
        | None => None
        end
      else Some (Ok (sorted account_id mask))
  end.

(** ** Keys in order *)

Lemma byte_order_antisym a b : byte_order a b = CompOpp (byte_order b a).
Proof.
  revert b. induction a as [|x a IH]; intros [|y b]; try done. cbn. rewrite (Z.compare_antisym y x), IH. by destruct (y ?= x).
Qed.

Lemma byte_order_eq a b : byte_order a b = Eq <-> a = b.
Proof.
  revert b. induction a as [|x a IH]; intros [|y b]; try done. cbn. destruct (Z.compare_spec x y) as [->|H|H].
  - rewrite IH. naive_solver.
  - split; [done|]. intros [= -> _]. lia.
  - split; [done|]. intros [= -> _]. lia.
Qed.

Lemma byte_le_trans : Transitive byte_le.
Proof.
  unfold byte_le. intros a. induction a as [|x a IH]; intros [|y b] [|z c]; cbn; try done.
  destruct (Z.compare_spec x y) as [->|H|H]; try done.
  - destruct (y ?= z); [apply IH|done|done].
  - destruct (Z.compare_spec y z) as [->|H'|H']; try done; intros _ _; by rewrite (proj2 (Z.compare_lt_iff _ _)) by lia.
Qed.

Lemma byte_le_total : Total byte_le.
Proof. intros a b. unfold byte_le. rewrite (byte_order_antisym b a). destruct (byte_order a b); cbn; by (left + right). Qed.

#[local] Existing Instances byte_le_trans byte_le_total.

Lemma elem_of_iterate from to db k : k ∈ iterate from to db <-> is_Some (db !! k) /\ byte_le from k /\ byte_le k to.
Proof.
  unfold iterate. rewrite merge_sort_Permutation, list_elem_of_In, filter_In, andb_true_iff, !bool_decide_eq_true, <- list_elem_of_In.
  rewrite list_elem_of_fmap. split; [|intros ([v Hv] & H); split; [|done]].
  - intros [([k' v] & -> & Hin) H]. split; [|done]. apply elem_of_map_to_list in Hin. by exists v.
  - exists (k, v). split; [done|]. by apply elem_of_map_to_list.
Qed.

Lemma iterate_sorted from to db : StronglySorted byte_le (iterate from to db).
Proof. apply StronglySorted_merge_sort; apply _. Qed.

(** What lies between two keys with the same beginning has it too. *)
Lemma between_prefix p x y k : byte_le (p ++ x) k -> byte_le k (p ++ y) -> exists z, k = p ++ z.
Proof.
  unfold byte_le. revert k. induction p as [|a p IH]; intros k; [by exists k|]. destruct k as [|b k]; [done|]. cbn.
  destruct (Z.compare_spec a b) as [->|H|H]; [|rewrite (proj2 (Z.compare_gt_iff b a)) by done; done|done].
  rewrite Z.compare_refl. intros H1 H2. destruct (IH k H1 H2) as [z ->]. by exists z.
Qed.

Lemma starts_with_iff p k : starts_with p k = true <-> exists z, k = p ++ z.
Proof.
  unfold starts_with. destruct (strip_prefix p k) as [z|] eqn:E.
  - apply strip_prefix_some in E as ->. split; [by exists z|done].
  - split; [done|]. intros [z ->]. by apply strip_prefix_none with (r := z) in E.
Qed.

(** The bytes of a document's identifier. *)
Lemma u32_length d : length (u32 d) = 4%nat.
Proof. apply be_bytes_length. Qed.

Lemma deserialize_u32 x d : u32_ok d -> deserialize_be_u32 (x ++ u32 d) (length (x ++ u32 d) - 4) = Some d.
Proof.
  intros Hd. unfold deserialize_be_u32, be_at, get_range. rewrite length_app, u32_length.
  replace (length x + 4 - 4)%nat with (length x) by lia. rewrite (proj2 (Nat.leb_le _ _)), (proj2 (Nat.leb_le _ _)) by lia.
  cbn [andb]. rewrite skipn_app, Nat.sub_diag, drop_all. cbn [app]. rewrite Nat.add_comm, Nat.add_sub, skipn_O.
  rewrite firstn_all2 by (rewrite u32_length; lia). cbn [option_map]. unfold u32. f_equal. by apply of_be_id.
Qed.

Lemma split_last4 k d : bytes_ok (skipn (length k - 4) k) -> (4 <= length k)%nat -> deserialize_be_u32 k (length k - 4) = Some d ->
  u32_ok d /\ k = firstn (length k - 4) k ++ u32 d.
Proof.
  intros Hs Hl. unfold deserialize_be_u32, be_at, get_range. rewrite (proj2 (Nat.leb_le _ _)), (proj2 (Nat.leb_le _ _)) by lia.
  cbn [andb option_map]. rewrite firstn_all2 by (rewrite length_skipn; lia). intros [= <-].
  assert (length (skipn (length k - 4) k) = 4%nat) as Hl4 by (rewrite length_skipn; lia).
  pose proof (of_be_range _ Hs) as Hr. rewrite Hl4 in Hr. split; [exact Hr|].
  unfold u32. rewrite <- Hl4 at 2. rewrite be_of_be by done. by rewrite firstn_skipn.
Qed.

(** Keys end with an identifier. *)
Lemma key_tail index id typ : index <> SInMemory -> bytes_ok (skipn (length (key index id typ) - 4) (key index id typ)).
Proof.
  intros Hi. assert (exists x y, key index id typ = x ++ y /\ (4 <= length y)%nat /\ bytes_ok y) as (x & y & -> & Hl & Hy).
  { unfold key, serialize_search. destruct (to_u8 index) as [n|] eqn:E; [|by destruct index]. cbn [default from_option].
    destruct id as [a d|i].
    - assert (exists x, match typ with Term f h => u8 n ++ u32 a ++ (payload h ++ u8 (payload_len h) ++ u8 f) ++ u32 d
        | Field f data => u8 (Z.lor n (1 ≪ 6)) ++ u32 a ++ u8 f ++ data ++ u32 d
        | Document => u8 (Z.lor n (2 ≪ 6)) ++ u32 a ++ u32 d end = x ++ u32 d) as [x Hx].
      { destruct typ; eexists; rewrite ?app_assoc; reflexivity. }
      exists x, (u32 d). split; [by destruct typ|]. split; [by rewrite u32_length|apply be_bytes_ok].
    - exists match typ with Term f h => u8 n ++ payload h ++ u8 (payload_len h) ++ u8 f
        | Field f data => u8 (Z.lor n (1 ≪ 6)) ++ u8 f ++ data | Document => u8 (Z.lor n (2 ≪ 6)) end, (u64 i).
      split; [destruct typ; by rewrite <- ?app_assoc|]. split; [unfold u64; rewrite be_bytes_length; lia|apply be_bytes_ok]. }
  rewrite length_app. replace (length x + length y - 4)%nat with (length x + (length y - 4))%nat by lia.
  rewrite drop_app_add. by apply Forall_drop.
Qed.

Section Lookup.
Variables (db : Db) (index : SearchIndex) (account_id : Z).
Hypothesis db_ok : db_wf db.
Hypothesis index_ok : index <> SInMemory /\ index <> STracing.

(** A document has an entry. *)
Definition has (d : Z) (typ : SearchIndexType) : Prop := u32_ok d /\ is_Some (db !! key index (Account account_id d) typ).
#[local] Instance has_dec d typ : Decision (has d typ).
Proof. unfold has, u32_ok, in_width. apply _. Defined.

Notation docs := (term_documents db index account_id).

Definition entry_prefix (typ : SearchIndexType) : list Z :=
  account_prefix index account_id typ ++
  match typ with Term f h => payload h ++ u8 (payload_len h) ++ u8 f | Field f data => u8 f ++ data | Document => [] end.

Lemma key_split d typ : key index (Account account_id d) typ = entry_prefix typ ++ u32 d.
Proof. rewrite key_account by apply index_ok. unfold entry_prefix. destruct typ; cbn [account_rest]; by rewrite <- ?app_assoc. Qed.

Lemma u32_order a b : u32_ok a -> u32_ok b -> byte_order (u32 a) (u32 b) = (a ?= b).
Proof. intros Ha Hb. by apply byte_order_last. Qed.

Lemma key_between d typ : u32_ok d ->
  byte_le (key index (Account account_id 0) typ) (key index (Account account_id d) typ) /\
  byte_le (key index (Account account_id d) typ) (key index (Account account_id u32_max) typ).
Proof.
  intros Hd. unfold byte_le. rewrite !key_split, !byte_order_same, !u32_order by (done || by vm_compute).
  unfold u32_ok, in_width, u32_max in *. split; apply Z.compare_le_iff || (intros H; apply Z.compare_gt_iff in H); lia.
Qed.

(** A key with the bytes of an entry, and its document. *)
Lemma key_document k p d : is_Some (db !! k) -> k = p ++ firstn 4 (skipn (length p) k) -> length k = (length p + 4)%nat ->
  deserialize_be_u32 k (length k - 4) = Some d -> u32_ok d /\ k = p ++ u32 d.
Proof.
  intros [v Hv] Hk Hl Hd. apply split_last4 in Hd as [Hd Hk']; [| |lia].
  - split; [done|]. rewrite Hk'. f_equal. rewrite Hl, Nat.add_sub, Hk. by rewrite firstn_app, firstn_all, Nat.sub_diag, app_nil_r.
  - destruct (db_ok k v Hv) as (index' & id & typ & Hid & _ & ->). apply key_tail. destruct id, index'; naive_solver.
Qed.

Lemma term_documents_spec h f d : hash_ok h -> d ∈ docs h f <-> has d (Term f h).
Proof.
  intros Hh. unfold term_documents. rewrite elem_of_list_to_set, list_elem_of_omap.
  assert (4 * 2 + CheekyHash.len h + 2 = length (entry_prefix (Term f h)) + 4)%nat as Hlen.
  { unfold entry_prefix. rewrite !length_app, prefix_length. cbn [length u8]. destruct (as_bytes_payload h Hh) as [_ Hp].
    rewrite Hp. unfold CheekyHash.len, payload_len_nat, payload_len. lia. }
  rewrite Hlen. split.
  - intros (k & Hk & Hd). apply elem_of_iterate in Hk as (Hs & H1 & H2). destruct (Nat.eqb_spec (length k) (length (entry_prefix (Term f h)) + 4)) as [Hl|]; [|done].
    rewrite !key_split in H1, H2. destruct (between_prefix _ _ _ _ H1 H2) as [z Hz].
    assert (length z = 4%nat) as Hz4 by (rewrite Hz, length_app in Hl; lia).
    destruct (key_document k (entry_prefix (Term f h)) d Hs) as [Hu Hkd]; [|done|done|].
    { rewrite Hz, drop_app_length. f_equal. by rewrite firstn_all2 by lia. }
    split; [done|]. by rewrite key_split, <- Hkd.
  - intros [Hu Hs]. exists (key index (Account account_id d) (Term f h)). split; [apply elem_of_iterate; split; [done|by apply key_between]|].
    rewrite key_split at 1. rewrite length_app, u32_length, Nat.eqb_refl, key_split. by apply deserialize_u32.
Qed.

Definition cache_ok (cache : BitmapCache) : Prop :=
  forall h f v, cache !! (h, f) = Some v -> v = if bool_decide (docs h f = ∅) then None else Some (docs h f).

Lemma cache_insert h f v cache : cache_ok cache -> v = (if bool_decide (docs h f = ∅) then None else Some (docs h f)) ->
  cache_ok (<[(h, f) := v]> cache).
Proof.
  unfold cache_ok, BitmapCache in *. intros Hc Hv h' f' v'. destruct (decide ((h', f') = (h, f))) as [[= -> ->]|Hne].
  - rewrite lookup_insert_eq. naive_solver.
  - rewrite lookup_insert_ne by done. apply Hc.
Qed.

(** The documents of a hash, from the cache or the index. *)
Lemma merge_union hashes f : forall first result cache, cache_ok cache ->
  let '(cache', r) := merge_loop db index account_id hashes f true first result cache in
  cache_ok cache' /\ forall d, d ∈ default ∅ r <-> d ∈ result \/ exists h, h ∈ hashes /\ d ∈ docs h f.
Proof.
  induction hashes as [|h hashes IH]; intros first result cache Hc; cbn [merge_loop].
  { split; [done|]. intros d. setoid_rewrite elem_of_nil. case_bool_decide as E; [rewrite E|]; cbn; naive_solver. }
  assert (forall d, (d ∈ result ∪ docs h f \/ (exists h', h' ∈ hashes /\ d ∈ docs h' f)) <->
    d ∈ result \/ exists h', h' ∈ h :: hashes /\ d ∈ docs h' f) as Hgoal.
  { intros d. rewrite elem_of_union. setoid_rewrite elem_of_cons. naive_solver. }
  assert (docs h f = ∅ -> result ∪ docs h f = result) as Hempty by (intros ->; set_solver).
  destruct (cache !! (h, f)) as [[bm|]|] eqn:E; [apply Hc in E; case_bool_decide as Ed; [done|injection E as ->]|apply Hc in E; case_bool_decide as Ed; [|done]|].
  - specialize (IH false (result ∪ docs h f) cache Hc). destruct (merge_loop _ _ _ _ _ _ _ _ _) as [c' r]. destruct IH as [IH1 IH2].
    split; [done|]. intros d. by rewrite IH2, Hgoal.
  - specialize (IH false result cache Hc). destruct (merge_loop _ _ _ _ _ _ _ _ _) as [c' r]. destruct IH as [IH1 IH2].
    split; [done|]. intros d. rewrite IH2, <- Hgoal. by rewrite Hempty.
  - case_bool_decide as Ed.
    + specialize (IH false result cache Hc). destruct (merge_loop _ _ _ _ _ _ _ _ _) as [c' r]. destruct IH as [IH1 IH2].
      split; [done|]. intros d. rewrite IH2, <- Hgoal. by rewrite Hempty.
    + assert (cache_ok (<[(h, f) := Some (docs h f)]> cache)) as Hc' by (apply cache_insert; [done|by rewrite bool_decide_false]).
      specialize (IH false (result ∪ docs h f) _ Hc'). destruct (merge_loop _ _ _ _ _ _ _ _ _) as [c' r]. destruct IH as [IH1 IH2].
      split; [done|]. intros d. by rewrite IH2, Hgoal.
Qed.

Lemma merge_inter hashes f : forall first result cache, cache_ok cache -> (first = false -> result <> ∅) ->
  let '(cache', r) := merge_loop db index account_id hashes f false first result cache in
  cache_ok cache' /\ forall d, d ∈ default ∅ r <->
    (if first then hashes <> [] \/ d ∈ result else d ∈ result) /\ forall h, h ∈ hashes -> d ∈ docs h f.
Proof.
  induction hashes as [|h hashes IH]; intros first result cache Hc Hr; cbn [merge_loop].
  { split; [done|]. intros d. setoid_rewrite elem_of_nil. case_bool_decide as E; [rewrite E|]; destruct first; cbn; naive_solver set_solver. }
  set (next := if first then docs h f else result ∩ docs h f).
  assert (forall d, ((d ∈ next) /\ forall h', h' ∈ hashes -> d ∈ docs h' f) <->
    (if first then h :: hashes <> [] \/ d ∈ result else d ∈ result) /\ forall h', h' ∈ h :: hashes -> d ∈ docs h' f) as Hgoal.
  { intros d. setoid_rewrite elem_of_cons. unfold next. destruct first; [naive_solver|]. rewrite elem_of_intersection. naive_solver. }
  assert (forall d, next = ∅ -> (d ∈ default ∅ (@None (gset Z)) <->
    (if first then h :: hashes <> [] \/ d ∈ result else d ∈ result) /\ forall h', h' ∈ h :: hashes -> d ∈ docs h' f)) as Hnone.
  { intros d Hn. rewrite <- Hgoal, Hn. cbn. set_solver. }
  assert (forall c, cache_ok c ->
    let '(cache', r) := (if first then merge_loop db index account_id hashes f false false (docs h f) c
      else if bool_decide (result ∩ docs h f = ∅) then (c, None)
      else merge_loop db index account_id hashes f false false (result ∩ docs h f) c) in
    docs h f <> ∅ -> cache_ok cache' /\ forall d, d ∈ default ∅ r <->
      (if first then h :: hashes <> [] \/ d ∈ result else d ∈ result) /\ forall h', h' ∈ h :: hashes -> d ∈ docs h' f) as Hnext.
  { intros c Hc'. destruct first; [|case_bool_decide as En].
    - destruct (decide (docs h f = ∅)) as [Ed|Ed]; [destruct (merge_loop _ _ _ _ _ _ _ _ _); done|].
      specialize (IH false (docs h f) c Hc' (fun _ => Ed)). destruct (merge_loop _ _ _ _ _ _ _ _ _) as [c' r]. destruct IH as [IH1 IH2].
      intros _. split; [done|]. intros d. by rewrite IH2, <- Hgoal.
    - intros _. split; [done|]. intros d. by apply Hnone.
    - specialize (IH false (result ∩ docs h f) c Hc' (fun _ => En)). destruct (merge_loop _ _ _ _ _ _ _ _ _) as [c' r]. destruct IH as [IH1 IH2].
      intros _. split; [done|]. intros d. by rewrite IH2, <- Hgoal. }
  assert (docs h f = ∅ -> next = ∅) as Hempty by (unfold next; intros ->; destruct first; set_solver).
  destruct (cache !! (h, f)) as [[bm|]|] eqn:E; [apply Hc in E; case_bool_decide as Ed; [done|injection E as ->]|apply Hc in E; case_bool_decide as Ed; [|done]|].
  - specialize (Hnext cache Hc). destruct first; [|destruct (bool_decide (result ∩ docs h f = ∅)) eqn:En].
    1,3: destruct (merge_loop _ _ _ _ _ _ _ _ _) as [c' r]; by apply Hnext.
    by apply Hnext.
  - split; [done|]. intros d. by apply Hnone, Hempty.
  - destruct (decide (docs h f = ∅)) as [Ed|Ed]; [rewrite (bool_decide_true (docs h f = ∅)) by done|rewrite (bool_decide_false (docs h f = ∅)) by done].
    + split; [by apply cache_insert; [|rewrite bool_decide_true]|]. intros d. by apply Hnone, Hempty.
    + specialize (Hnext (<[(h, f) := Some (docs h f)]> cache)). destruct first; [|destruct (bool_decide (result ∩ docs h f = ∅)) eqn:En].
      1,3: destruct (merge_loop _ _ _ _ _ _ _ _ _) as [c' r]; apply Hnext; [|done]; apply cache_insert; [done|by rewrite bool_decide_false].
      apply Hnext; [|done]. apply cache_insert; [done|by rewrite bool_decide_false].
Qed.

(** *** Values in a range *)

Definition field_prefix (f : Z) : list Z := account_prefix index account_id (Field 0 []) ++ u8 f.

Lemma key_field d f data : key index (Account account_id d) (Field f data) = field_prefix f ++ data ++ u32 d.
Proof. rewrite key_split. unfold entry_prefix, field_prefix. by rewrite <- !app_assoc. Qed.

(** A key with the beginning of a field's entries is an entry of the field. *)
Lemma field_key k f z : is_Some (db !! k) -> u32_ok account_id -> k = field_prefix f ++ z -> exists data d,
  z = data ++ u32 d /\ u32_ok d /\ bytes_ok data /\ has d (Field f data).
Proof.
  intros [v Hv] Ha Hk. destruct (db_ok k v Hv) as (index' & id' & typ' & Hid & Ht & Ek).
  assert (index' <> SInMemory) as Hm by (destruct id', index'; naive_solver).
  unfold field_prefix, account_prefix in Hk. cbn [search_kind app u8] in Hk.
  destruct id' as [a' d'|i'].
  - rewrite key_account in Ek by done. unfold account_prefix in Ek. cbn [app u8] in Ek. rewrite Hk in Ek.
    pose proof (f_equal (hd 0) Ek) as E1. pose proof (f_equal (@tl Z) Ek) as E2. cbn [hd tl] in E1, E2. rewrite <- !app_assoc in E2.
    apply app_inj_1 in E2 as [Ea E2]; [|by rewrite !u32_length].
    assert (a' = account_id) as ->.
    { destruct Hid as (_ & _ & Ha' & _). unfold u32 in Ea. rewrite <- (of_be_id 4 account_id), <- (of_be_id 4 a') by done. by rewrite Ea. }
    assert (index' = index /\ search_kind typ' = 1) as [-> Hkind].
    { destruct index_ok as [I1 I2]. destruct index, index'; try done; destruct typ'; cbn in E1; try lia; done. }
    destruct typ' as [|f' data|]; try done. cbn [account_rest u8 app] in E2. pose proof (f_equal (hd 0) E2) as E4. cbn [hd] in E4. subst f'.
    pose proof (f_equal (@tl Z) E2) as E3. cbn [tl] in E3. destruct Hid as (_ & _ & _ & Hd).
    exists data, d'. split; [done|]. split; [done|]. split; [apply Ht|]. split; [done|]. rewrite key_field, <- E3.
    exists v. rewrite <- Hv. f_equal. rewrite Hk. unfold field_prefix, account_prefix. by cbn [search_kind app u8].
  - exfalso. destruct Hid as [-> Hi]. destruct index_ok as [I1 I2]. rewrite Hk in Ek.
    pose proof (f_equal (hd 0) Ek) as E1. unfold key, serialize_search in E1. destruct typ', index; try done; cbn in E1; lia.
Qed.

Lemma range_loop_spec f op mv begin_ keys : u32_ok account_id ->
  Forall (fun k => is_Some (db !! k) /\ byte_le (field_prefix f ++ begin_) k) keys -> StronglySorted byte_le keys -> forall bm,
  exists r, range_loop (field_prefix f) op mv keys bm = Some r /\
    forall d, d ∈ r <-> d ∈ bm \/ exists data, field_prefix f ++ data ++ u32 d ∈ keys /\ u32_ok d /\ value_matches op data mv = true.
Proof.
  intros Ha Hk Hs. induction Hs as [|k keys Hs IH Hle]; intros bm.
  { exists bm. split; [done|]. intros d. split; [by left|]. intros [|(data & H & _)]; [done|by apply elem_of_nil in H]. }
  apply Forall_cons_1 in Hk as [[Hk Hkb] Hks]. cbn [range_loop]. destruct (starts_with (field_prefix f) k) eqn:Es.
  - apply starts_with_iff in Es as [z Hz]. destruct (field_key k f z Hk Ha Hz) as (data & d & -> & Hd & _ & _).
    assert (get_range k (length (field_prefix f)) (length k - 4) = Some data) as ->.
    { rewrite Hz. rewrite !length_app, u32_length. unfold get_range. rewrite !length_app, u32_length.
      rewrite (proj2 (Nat.leb_le _ _)), (proj2 (Nat.leb_le _ _)) by lia. cbn [andb].
      rewrite drop_app_length. replace (length (field_prefix f) + (length data + 4) - 4 - length (field_prefix f))%nat with (length data) by lia.
      by rewrite take_app_length. }
    assert (deserialize_be_u32 k (length k - 4) = Some d) as -> by (rewrite Hz, app_assoc; by apply deserialize_u32).
    assert (forall data' d', u32_ok d' -> field_prefix f ++ data' ++ u32 d' = k -> data' = data /\ d' = d) as Hinj.
    { intros data' d' Hd' E. rewrite Hz in E. apply app_inv_head in E. apply app_inj_2 in E as [-> E]; [|by rewrite !u32_length].
      split; [done|]. unfold u32 in E. rewrite <- (of_be_id 4 d), <- (of_be_id 4 d') by done. by rewrite E. }
    destruct (value_matches op data mv) eqn:Em.
    + destruct (IH Hks ({[d]} ∪ bm)) as (r & -> & Hr). exists r. split; [done|]. intros d'. rewrite Hr, elem_of_union, elem_of_singleton.
      setoid_rewrite elem_of_cons. split; [|intros [H|(data' & [H|H] & Hu & H')]].
      * intros [[->|H]|(data' & H & H')]; [right; exists data; split; [by left|done]|by left|right; exists data'; split; [by right|done]].
      * by left; right.
      * left; left. by destruct (Hinj data' d' Hu H).
      * right. by exists data'.
    + destruct (IH Hks bm) as (r & -> & Hr). exists r. split; [done|]. intros d'. rewrite Hr. setoid_rewrite elem_of_cons.
      split; [intros [H|(data' & H & H')]; [by left|right; exists data'; split; [by right|done]]|].
      intros [H|(data' & [H|H] & Hu & H')]; [by left| |right; by exists data'].
      destruct (Hinj data' d' Hu H) as [-> ->]. congruence.
  - exists bm. split; [done|]. intros d. split; [by left|]. intros [|(data & H & _)]; [done|]. exfalso.
    assert (starts_with (field_prefix f) k = true); [|congruence]. apply starts_with_iff.
    apply elem_of_cons in H as [H|H]; [by eexists|].
    rewrite list.Forall_forall in Hle. apply (between_prefix _ begin_ (data ++ u32 d)); [done|by apply Hle].
Qed.

(** Values that are compared have one length, unless they are equal. *)
Definition fixed_width (f : Z) (op : SearchOperator) (mv : list Z) : Prop :=
  match op with
  | Equal | Contains => True
  | _ => forall d data, has d (Field f data) -> length data = length mv
  end.

Lemma byte_order_app_eq a b x y : length a = length b -> byte_order (a ++ x) (b ++ y) = then_by (byte_order a b) (byte_order x y).
Proof.
  revert b. induction a as [|c a IH]; intros [|c' b] Hl; try done. cbn. injection Hl as Hl. destruct (c ?= c'); [by apply IH|done|done].
Qed.

Lemma zeros_le x : (4 <= length x)%nat -> bytes_ok x -> byte_le (u32 0) x.
Proof. intros Hl Hx. change (u32 0) with (repeat 0 4). by apply byte_order_zeros. Qed.

Lemma range_to_bitmap_spec f op mv : u32_ok account_id -> 0 <= f < 255 -> fixed_width f op mv ->
  exists r, range_to_bitmap db index account_id f mv op = Some r /\
    forall d, d ∈ default ∅ r <-> exists data, has d (Field f data) /\ value_matches op data mv = true.
Proof.
  intros Ha Hf Hw. unfold range_to_bitmap. fold (field_prefix f).
  assert (exists x y : list Z, exists f', value_range f mv op = value_range f mv op /\
    match value_range f mv op with ((fv, fd, ff), (ev, ed, ef)) =>
      ff = f /\ x = fv ++ u32 fd /\ f' = ef /\ y = ev ++ u32 ed end) as (x & y & f' & _ & Hr).
  { destruct op; cbn; eauto 10. }
  destruct (value_range f mv op) as [[[fv fd] ff] [[ev ed] ef]] eqn:Ev. destruct Hr as (-> & -> & -> & ->).
  rewrite !key_field. destruct (range_loop_spec f op mv (fv ++ u32 fd) (iterate (field_prefix f ++ fv ++ u32 fd) (field_prefix ef ++ ev ++ u32 ed) db) Ha) with (bm := ∅ : gset Z)
    as (r & Er & Hr); [|apply iterate_sorted|].
  { apply list.Forall_forall. intros k. rewrite elem_of_iterate. naive_solver. }
  rewrite Er. eexists. split; [done|]. intros d.
  transitivity (d ∈ r); [case_bool_decide as E; [rewrite E; cbn; set_solver|done]|]. rewrite Hr.
  assert (forall data, has d (Field f data) -> value_matches op data mv = true ->
    byte_le (field_prefix f ++ fv ++ u32 fd) (field_prefix f ++ data ++ u32 d) /\ byte_le (field_prefix f ++ data ++ u32 d) (field_prefix ef ++ ev ++ u32 ed)) as Hin.
  { intros data Hh Hm. destruct Hh as [Hd Hs].
    assert (bytes_ok (data ++ u32 d)) as Hb.
    { rewrite key_field in Hs. destruct (field_key _ f (data ++ u32 d) Hs Ha eq_refl) as (data' & d' & E & _ & Hb & _).
      rewrite E. apply Forall_app. split; [done|apply be_bytes_ok]. }
    assert (byte_le (u32 0) (data ++ u32 d)) as Hz by (apply zeros_le; [rewrite length_app, u32_length; lia|done]).
    assert (forall d', u32_ok d' -> byte_order (u32 d) (u32 d') = (d ?= d')) as Ho by (intros; by apply u32_order).
    assert (byte_order (u32 d) (u32 u32_max) <> Gt) as Hmax by (rewrite Ho by (by vm_compute); apply Z.compare_le_iff; unfold u32_ok, in_width, u32_max in *; lia).
    assert (byte_order (u32 0) (u32 d) <> Gt) as Hmin by (rewrite u32_order by (done || by vm_compute); apply Z.compare_le_iff; unfold u32_ok, in_width in *; lia).
    assert (byte_order (field_prefix f ++ data ++ u32 d) (field_prefix (f + 1) ++ u32 u32_max) = Lt) as Hnext.
    { unfold field_prefix. rewrite <- !app_assoc, byte_order_same. cbn [u8 app byte_order].
      by rewrite (proj2 (Z.compare_lt_iff f (f + 1))) by lia. }
    assert (match op with Equal | Contains => True | _ => length data = length mv end) as Hl by (destruct op; try done; by apply (Hw d data)).
    assert (forall x, length data = length mv -> byte_order data mv = Lt -> byte_order (data ++ u32 d) (mv ++ x) = Lt) as Hlow
      by (intros x' Hx Ho'; by rewrite byte_order_app_eq, Ho').
    assert (forall x, length data = length mv -> byte_order data mv = Gt -> byte_order (mv ++ x) (data ++ u32 d) = Lt) as Hhigh
      by (intros x' Hx Ho'; by rewrite byte_order_app_eq, byte_order_antisym, Ho').
    unfold byte_le, value_matches in *.
    destruct op; cbn in Ev; injection Ev as <- <- <- <- <-; cbn [app]; (destruct (byte_order data mv) eqn:Eo; try done);
      try (apply byte_order_eq in Eo; subst data); rewrite ?byte_order_same, ?Hnext, ?Hlow, ?Hhigh by done; done. }
  split.
  - intros [H|(data & H & Hd & Hm)]; [by apply elem_of_empty in H|]. exists data. split; [|done]. apply elem_of_iterate in H as [Hs _].
    split; [done|]. by rewrite key_field.
  - intros (data & Hh & Hm). right. exists data. split; [|by destruct Hh]. apply elem_of_iterate. rewrite <- key_field.
    split; [apply Hh|]. rewrite key_field. by apply Hin.
Qed.

(** ** What a condition means *)

(** The values of a field of a document. *)
Definition values_of (f d : Z) : list (list Z) :=
  omap (fun k => match strip_prefix (field_prefix f) k with
                 | Some z => if bytes_eqb (skipn (length z - 4) z) (u32 d) then Some (firstn (length z - 4) z) else None
                 | None => None
                 end) (fst <$> map_to_list db).
Definition has_word (f d : Z) (h : CheekyHash) : bool := bool_decide (has d (Term f h)).

Definition all_of (l : list bool) : bool := negb (match l with [] => true | _ => false end) && forallb id l.

(** A text: every word, or for a search of a part of it every word in one of
    its forms.  A header: some word, or the name when no words are given.
    Other fields: the comparison. *)
Definition meaning (field : SearchField) (op : SearchOperator) (value : SearchValue) (d : Z) : bool :=
  let f := u8_id field in
  if is_text field && (bool_decide (op = Contains) || bool_decide (op = Equal)) then
    match value with
    | VText value language =>
        if bool_decide (op = Equal) then
          all_of (map (fun w => has_word f d (hash_of w)) (tokenize_text language value MAX_TOKEN_LENGTH))
        else all_of (map (fun t => existsb (has_word f d) (token_hashes t)) (Stemmer value language MAX_TOKEN_LENGTH))
    | _ => false
    end
  else if is_json field then
    match value with
    | VKeyValues ((k, v) :: _) =>
        if is_nil v then has_word f d (hash_of k)
        else existsb (fun w => has_word f d (hash_of (k ++ [32] ++ w))) (SpaceTokenizer v MAX_TOKEN_LENGTH)
    | _ => false
    end
  else match value_bytes value with
       | Some bytes => bool_decide (0 <= d < 2 ^ 32) && existsb (fun data => value_matches op data bytes) (values_of f d)
       | None => false
       end.

(** The conditions that the index answers: the value has the type of the
    field, and a field that is compared has values of the same width. *)
Definition valid (field : SearchField) (op : SearchOperator) (value : SearchValue) : bool :=
  if is_text field && (bool_decide (op = Contains) || bool_decide (op = Equal)) then
    match value with VText _ _ => true | _ => false end
  else if is_json field then match value with VKeyValues (_ :: _) => true | _ => false end
  else is_indexed field &&
    match value_bytes value with
    | Some bytes =>
        bool_decide (op = Contains) || bool_decide (op = Equal) ||
        forallb (fun k => match strip_prefix (field_prefix (u8_id field)) k with
                          | Some z => (length z =? length bytes + 4)%nat
                          | None => true
                          end) (fst <$> map_to_list db)
    | None => false
    end.

Definition ignored (field : SearchField) : bool := bool_decide (field = FieldAccountId).

Lemma keys_of k : k ∈ (fst <$> map_to_list db) <-> is_Some (db !! k).
Proof.
  rewrite list_elem_of_fmap. split.
  - intros ([k' v] & -> & H). apply elem_of_map_to_list in H. by exists v.
  - intros [v H]. exists (k, v). split; [done|]. by apply elem_of_map_to_list.
Qed.

Lemma elem_of_values f d data : u32_ok d -> data ∈ values_of f d <-> has d (Field f data).
Proof.
  intros Hd. unfold values_of. rewrite list_elem_of_omap. setoid_rewrite keys_of. unfold has. rewrite key_field. split.
  - intros (k & Hk & E). destruct (strip_prefix (field_prefix f) k) as [z|] eqn:Ez; [|done]. apply strip_prefix_some in Ez as ->.
    destruct (bytes_eqb _ _) eqn:Eb; [|done]. apply bytes_eqb_eq in Eb. injection E as <-. split; [done|].
    rewrite <- Eb, firstn_skipn. done.
  - intros [_ Hs]. eexists. split; [exact Hs|].
    assert (strip_prefix (field_prefix f) (field_prefix f ++ data ++ u32 d) = Some (data ++ u32 d)) as -> by (by apply strip_prefix_some).
    rewrite length_app, u32_length, Nat.add_sub, drop_app_length, bytes_eqb_refl. by rewrite take_app_length.
Qed.

Lemma fixed_width_of field op bytes :
  (bool_decide (op = Contains) || bool_decide (op = Equal) ||
   forallb (fun k => match strip_prefix (field_prefix (u8_id field)) k with
                     | Some z => (length z =? length bytes + 4)%nat | None => true end) (fst <$> map_to_list db)) = true ->
  fixed_width (u8_id field) op bytes.
Proof.
  intros H. unfold fixed_width. destruct op; try done; cbn [bool_decide orb] in H; rewrite !bool_decide_false in H by done;
    cbn [orb] in H; rewrite forallb_forall in H; intros d data [Hd Hs]; rewrite key_field in Hs; apply keys_of in Hs;
    apply list_elem_of_In in Hs; apply H in Hs;
    rewrite (proj2 (strip_prefix_some _ _ (data ++ u32 d))) in Hs by done; apply Nat.eqb_eq in Hs; rewrite length_app, u32_length in Hs; lia.
Qed.

Lemma all_of_spec l : all_of l = true <-> l <> [] /\ forall b, b ∈ l -> b = true.
Proof.
  clear db_ok index_ok. unfold all_of. rewrite andb_true_iff, forallb_forall. destruct l as [|b l]; [naive_solver|].
  setoid_rewrite list_elem_of_In. naive_solver.
Qed.

Lemma has_word_spec f d h : hash_ok h -> has_word f d h = true <-> d ∈ term_documents db index account_id h f.
Proof. intros Hh. rewrite term_documents_spec by done. apply bool_decide_eq_true. Qed.

Lemma token_hashes_ok t : Forall hash_ok (token_hashes t).
Proof. unfold token_hashes. destruct (stemmed_word t); repeat constructor; apply new_ok. Qed.

Lemma merge_some hashes f u : forall first result cache s,
  snd (merge_loop db index account_id hashes f u first result cache) = Some s -> s <> ∅.
Proof.
  induction hashes as [|h hashes IH]; intros first result cache s; cbn [merge_loop]; [case_bool_decide; naive_solver|].
  destruct (cache !! (h, f)) as [[bm|]|]; [|destruct u; [apply IH|done]|case_bool_decide as E; [destruct u; [apply IH|done]|]];
    (destruct u; [apply IH|]; destruct first; [apply IH|]; case_bool_decide; [done|apply IH]).
Qed.

(** A word, in one of its forms. *)
Lemma token_union f t cache : cache_ok cache ->
  let '(cache', u) := merge_bitmaps db index account_id (token_hashes t) f true cache in
  cache_ok cache' /\ (forall d, d ∈ default ∅ u <-> existsb (has_word f d) (token_hashes t) = true) /\ forall s, u = Some s -> s <> ∅.
Proof.
  intros Hc. pose proof (merge_union (token_hashes t) f true ∅ cache Hc) as Hm.
  pose proof (merge_some (token_hashes t) f true true ∅ cache) as Hs. unfold merge_bitmaps.
  destruct (merge_loop _ _ _ _ _ _ _ _ _) as [c' u]. destruct Hm as [Hc' Hu]. split; [done|]. split; [|exact Hs].
  intros d. rewrite Hu, existsb_exists. pose proof (token_hashes_ok t) as Ho. rewrite list.Forall_forall in Ho. split.
  - intros [H|(h & Hh & Hd)]; [by apply elem_of_empty in H|]. exists h. split; [by apply list_elem_of_In|]. apply has_word_spec; [by apply Ho|done].
  - intros (h & Hh & Hd). right. apply list_elem_of_In in Hh. exists h. split; [done|]. apply has_word_spec; [by apply Ho|done].
Qed.

(** Every word, in one of its forms. *)
Lemma contains_loop_spec f tokens : forall result cache, cache_ok cache -> result <> ∅ ->
  let '(cache', r) := contains_loop db index account_id f tokens result cache in
  cache_ok cache' /\ forall d, d ∈ r <-> d ∈ result /\ forall t, t ∈ tokens -> existsb (has_word f d) (token_hashes t) = true.
Proof.
  induction tokens as [|t tokens IH]; intros result cache Hc Hr; cbn [contains_loop].
  { split; [done|]. intros d. split; [|naive_solver]. intros H. split; [done|]. intros t Ht. by apply elem_of_nil in Ht. }
  pose proof (token_union f t cache Hc) as Hm. destruct (merge_bitmaps _ _ _ _ _ _ _) as [c' u]. destruct Hm as (Hc' & Hu & _).
  assert (forall r' : gset Z,
    (forall d, d ∈ r' <-> (d ∈ result /\ d ∈ default ∅ u) /\ forall t, t ∈ tokens -> existsb (has_word f d) (token_hashes t) = true) ->
    forall d, d ∈ r' <-> d ∈ result /\ forall t', t' ∈ t :: tokens -> existsb (has_word f d) (token_hashes t') = true) as G.
  { intros r' H d. rewrite H, Hu. setoid_rewrite elem_of_cons. naive_solver. }
  destruct u as [u|]; cbn in Hu, G.
  - rewrite (bool_decide_false (result = ∅)) by done. destruct (decide (result ∩ u = ∅)) as [E|E].
    + rewrite bool_decide_true by done. split; [done|]. apply G. intros d. rewrite <- elem_of_intersection, E. set_solver.
    + rewrite bool_decide_false by done. specialize (IH (result ∩ u) c' Hc' E). destruct (contains_loop _ _ _ _ _ _ _) as [c'' r].
      destruct IH as [Hc'' IH]. split; [done|]. apply G. intros d. by rewrite IH, elem_of_intersection.
  - split; [done|]. apply G. set_solver.
Qed.

Lemma contains_spec f tokens cache : cache_ok cache ->
  let '(cache', r) := contains_loop db index account_id f tokens ∅ cache in
  cache_ok cache' /\ forall d, d ∈ r <-> all_of (map (fun t => existsb (has_word f d) (token_hashes t)) tokens) = true.
Proof.
  intros Hc. destruct tokens as [|t tokens]; [split; [done|]; cbn; set_solver|]. cbn [contains_loop].
  pose proof (token_union f t cache Hc) as Hm. destruct (merge_bitmaps _ _ _ _ _ _ _) as [c' u]. destruct Hm as (Hc' & Hu & Hs).
  assert (forall d, all_of (map (fun t => existsb (has_word f d) (token_hashes t)) (t :: tokens)) = true <->
    d ∈ default ∅ u /\ forall t, t ∈ tokens -> existsb (has_word f d) (token_hashes t) = true) as G.
  { intros d. rewrite all_of_spec, Hu. split.
    - intros [_ H]. split; [|intros t' Ht']; apply H, list_elem_of_fmap; eexists; (split; [reflexivity|]); [left|by right].
    - intros [H1 H2]. split; [done|]. intros b Hb. apply list_elem_of_fmap in Hb as (t' & -> & Ht').
      apply elem_of_cons in Ht' as [->|Ht']; [done|by apply H2]. }
  destruct u as [u|]; cbn [default from_option] in G.
  - rewrite bool_decide_true by done. pose proof (contains_loop_spec f tokens u c' Hc' (Hs u eq_refl)) as H.
    destruct (contains_loop _ _ _ _ _ _ _) as [c'' r]. destruct H as [Hc'' H]. split; [done|]. intros d. by rewrite H, G.
  - split; [done|]. intros d. rewrite G. set_solver.
Qed.

Lemma default_empty (r : gset Z) : default ∅ (if bool_decide (r = ∅) then None else Some r) = r.
Proof. case_bool_decide; by subst. Qed.

(** The index answers conditions with what they mean. *)
Lemma condition_correct mask : u32_ok account_id -> (forall d, d ∈ mask -> u32_ok d) ->
  operator_correct (condition db index account_id) mask ignored meaning valid cache_ok.
Proof.
  intros Ha Hmask f o v cache Hc. unfold ignored. destruct (bool_decide (f = FieldAccountId)) eqn:Ef.
  { apply bool_decide_eq_true in Ef as ->. done. }
  apply bool_decide_eq_false in Ef. intros Hv.
  assert (forall c r, lookup_condition db index account_id f o v cache = (c, Ok r) -> cache_ok c ->
    (forall d, u32_ok d -> d ∈ default ∅ r <-> meaning f o v d = true) ->
    exists s' r, condition db index account_id f o v cache = (s', Ok (Some r)) /\ cache_ok s' /\
      forall d, d ∈ mask -> bool_decide (d ∈ default ∅ r) = meaning f o v d) as G.
  { intros c r E Hc' H. exists c, r. unfold condition. rewrite bool_decide_false, E by done. split; [done|]. split; [done|].
    intros d Hd. apply eq_true_iff_eq. rewrite bool_decide_eq_true. by apply H, Hmask. }
  unfold lookup_condition, valid, meaning in *.
  assert (forall w, hash_ok (hash_of w)) as Hok by (intros; apply new_ok).
  destruct (is_text f && _) eqn:Et; [|destruct (is_json f) eqn:Ej].
  - destruct v as [value l| | | |]; try done. destruct (bool_decide (o = Equal)).
    + pose proof (merge_inter (map hash_of (tokenize_text l value MAX_TOKEN_LENGTH)) (u8_id f) true ∅ cache Hc ltac:(done)) as Hm.
      unfold merge_bitmaps in G. destruct (merge_loop _ _ _ _ _ _ _ _ _) as [c' r]. destruct Hm as [Hc' Hm]. eapply G; [done..|].
      intros d Hd. rewrite Hm, all_of_spec. split.
      * intros [[Hn|H] Ht]; [|by apply elem_of_empty in H]. split; [by destruct (tokenize_text l value MAX_TOKEN_LENGTH)|].
        intros b Hb. apply list_elem_of_fmap in Hb as (w & -> & Hw). apply has_word_spec; [done|]. apply Ht, list_elem_of_fmap. by exists w.
      * intros [Hn Ht]. split; [left; by destruct (tokenize_text l value MAX_TOKEN_LENGTH)|]. intros h Hh. apply list_elem_of_fmap in Hh as (w & -> & Hw).
        apply has_word_spec; [done|]. apply Ht, list_elem_of_fmap. by exists w.
    + pose proof (contains_spec (u8_id f) (Stemmer value l MAX_TOKEN_LENGTH) cache Hc) as Hm.
      destruct (contains_loop _ _ _ _ _ _ _) as [c' r]. destruct Hm as [Hc' Hm]. eapply G; [done..|]. intros d Hd. by rewrite default_empty.
  - destruct v as [|[|[k v] kv]| | |]; try done. destruct (is_nil v).
    + pose proof (merge_inter [hash_of k] (u8_id f) true ∅ cache Hc ltac:(done)) as Hm.
      unfold merge_bitmaps in G. destruct (merge_loop _ _ _ _ _ _ _ _ _) as [c' r]. destruct Hm as [Hc' Hm]. eapply G; [done..|].
      intros d Hd. rewrite Hm, has_word_spec by done. setoid_rewrite list_elem_of_singleton. naive_solver.
    + pose proof (merge_union (map (fun w => hash_of (k ++ [32] ++ w)) (SpaceTokenizer v MAX_TOKEN_LENGTH)) (u8_id f) true ∅ cache Hc) as Hm.
      unfold merge_bitmaps in G. destruct (merge_loop _ _ _ _ _ _ _ _ _) as [c' r]. destruct Hm as [Hc' Hm]. eapply G; [done..|].
      intros d Hd. rewrite Hm, existsb_exists. split.
      * intros [H|(h & Hh & Hd')]; [by apply elem_of_empty in H|]. apply list_elem_of_fmap in Hh as (w & -> & Hw). exists w.
        split; [by apply list_elem_of_In|]. by apply has_word_spec.
      * intros (w & Hw & Hd'). right. exists (hash_of (k ++ [32] ++ w)). split; [|by apply has_word_spec in Hd'].
        apply list_elem_of_fmap. exists w. split; [done|by apply list_elem_of_In].
  - apply andb_true_iff in Hv as [Hi Hv]. rewrite Hi in G. destruct (value_bytes v) as [bytes|]; [|done].
    pose proof (u8_id_range f). destruct (range_to_bitmap_spec (u8_id f) o bytes Ha ltac:(lia) (fixed_width_of f o bytes Hv)) as (r & Er & Hr).
    rewrite Er in G. eapply G; [done..|]. intros d Hd. rewrite Hr, andb_true_iff, existsb_exists, bool_decide_eq_true.
    split; [intros (data & Hh & Hm); split; [done|]|intros (_ & data & Hh & Hm)]; exists data.
    + split; [|done]. by apply list_elem_of_In, elem_of_values.
    + split; [|done]. by apply elem_of_values, list_elem_of_In.
Qed.
End Lookup.

Lemma account_of_range filters a : account_of filters = Some a -> u32_ok a.
Proof.
  induction filters as [|f filters IH]; cbn; [done|].
  destruct f as [[] op v| | | | |]; try done; destruct v; try done. intros [= <-]. by apply wrap_range.
Qed.

Lemma StronglySorted_short {A} (R : A -> A -> Prop) (l : list A) : (length l <= 1)%nat -> StronglySorted R l.
Proof. destruct l as [|x [|y l]]; cbn; [constructor|repeat constructor|lia]. Qed.

(** The results in order. *)
Definition sorted_ids (db : Db) (index : SearchIndex) (account_id : Z) (comparators : list SearchComparator) (results : gset Z) : list Z :=
  if (1 <? size results)%nat && (0 <? length comparators)%nat
  then into_sorted results (map (local_comparator db index account_id) comparators)
  else ids results.

Lemma sorted_ids_spec db index account_id comparators results :
  (forall d, d ∈ sorted_ids db index account_id comparators results <-> d ∈ results) /\
  StronglySorted (before (map (local_comparator db index account_id) comparators)) (sorted_ids db index account_id comparators results).
Proof.
  unfold sorted_ids. case_if.
  - apply into_sorted_correct.
  - split; [intros d; by rewrite elem_of_ids|]. apply andb_false_iff in E as [E0|E0]; apply Nat.ltb_ge in E0.
    + apply StronglySorted_short. unfold ids. rewrite merge_sort_Permutation. exact E0.
    + destruct comparators as [|? ?]; [|cbn in E0; lia]. exact (ids_sorted results).
Qed.

Lemma query_account_spec db index account_id l comparators mask :
  db_wf db -> index <> SInMemory -> index <> STracing -> (forall d, d ∈ mask -> u32_ok d) ->
  account_of (flat_map flatten l) = Some account_id -> account_id <> u32_max -> (2 <= length (flat_map flatten l))%nat ->
  forallb (query_ordered ignored) l = true -> forallb (valid_query ignored (valid db index account_id)) l = true ->
  exists results, query_account db index (flat_map flatten l) comparators mask = Some (Ok (sorted_ids db index account_id comparators results)) /\
    forall d, d ∈ results <-> d ∈ mask /\ query_holds ignored (meaning db index account_id) d (QGroup AllOf l) = true.
Proof.
  intros Hdb Hi1 Hi2 Hmask Ha Hmax Hlen Ho Hv. pose proof (account_of_range _ _ Ha) as Hau.
  assert (cache_ok db index account_id ∅) as Hc by (intros h f v H; unfold BitmapCache in H; by rewrite lookup_empty in H).
  destruct (run_correct (condition db index account_id) mask ignored (meaning db index account_id) (valid db index account_id)
    (cache_ok db index account_id) (condition_correct db index account_id Hdb (conj Hi1 Hi2) mask Hau Hmask) l ∅ Hc Ho Hv)
    as (s' & b & E & _ & Hb).
  unfold query_account. rewrite Ha. apply Z.eqb_neq in Hmax as ->. rewrite (proj2 (Nat.ltb_lt _ _)) by lia. rewrite E. cbn [snd].
  exists (default ∅ b ∩ mask). split; [done|]. exact Hb.
Qed.


(** ** What was indexed is found *)

Notation text_hashes := (text_hashes xxh3 fingerprint64).
Notation build := (build xxh3 fingerprint64).
Notation index_document := (index_document xxh3 fingerprint64).

(** The plain words of a text. *)
Definition words_of (value : list Z) (language : Language) : list (list Z) :=
  if language =? L_UNKNOWN then WordTokenizer value MAX_TOKEN_LENGTH else tokenize_text language value MAX_TOKEN_LENGTH.

Lemma words_hashed value language w : w ∈ words_of value language -> hash_of w ∈ text_hashes value language.
Proof.
  unfold words_of, text_hashes. repeat case_if; intros Hw.
  - apply list_elem_of_fmap. by exists w.
  - apply list_elem_of_fmap. exists w. split; [done|]. subst. unfold tokenize_text in Hw. done.
  - apply list_elem_of_In, in_flat_map. exists (MkStemmed w (if has_stemmer language then
            match stem language w with Some t => if bytes_eqb t w then None else Some t | None => None end else None)).
    split; [|by left]. apply in_map_iff. exists w. split; [done|by apply list_elem_of_In].
Qed.

(** C21: a document that was indexed is found by a search for words that a
    text field of it has: all of them are among the words of the field, in
    the languages that the two texts were read in. *)
Theorem indexed_then_found document db f value language query language' mask :
  let index := doc_index document in
  db_wf db -> wf_document document -> NoDup (map fst (fields document)) ->
  index <> STracing -> index <> SInMemory ->
  forall a d, snd (build document 0) = Account a d -> u32_ok a -> a <> u32_max -> u32_ok d ->
  (absent db index (Account a d) \/ (index = SCalendar \/ index = SContacts) /\ exists old, wf_terms old /\ indexed db index (Account a d) old) ->
  (f, VText value language) ∈ fields document -> is_text f = true ->
  let words := tokenize_text language' query MAX_TOKEN_LENGTH in
  words <> [] -> (forall w, w ∈ words -> w ∈ words_of value language) ->
  d ∈ mask -> (forall d', d' ∈ mask -> u32_ok d') ->
  exists db' r, index_document 0 document db = Some db' /\ db_wf db' /\
    query_account db' index [Operator FieldAccountId Equal (VUint a); Operator f Contains (VText query language')] [] mask = Some (Ok r) /\
    d ∈ r.
Proof.
  intros index Hdb Hdoc Hn Hg Hm a d Hid Ha Hamax Hd Hold Hf Ht words Hw Hin Hdm Hmask.
  assert (wf_id index (Account a d)) as Hwid by done.
  destruct (index_document_spec xxh3 fingerprint64 0 document db) as (db' & E & [_ Hwf] & _ & _ & Hchar); rewrite ?Hid; try done.
  rewrite Hid in Hchar. fold index in Hchar.
  set (l := [QCond FieldAccountId Equal (VUint a); QCond f Contains (VText query language')]).
  assert (f <> FieldAccountId) as Hfa by (by intros ->).
  destruct (query_account_spec db' index a l [] mask) as (r & Er & Hr); try done.
  - by apply Hwf.
  - cbn. f_equal. by apply wrap_small.
  - cbn. unfold valid. by rewrite Ht, orb_true_r.
  - eexists db', _. split; [done|]. split; [by apply Hwf|]. split; [exact Er|]. apply sorted_ids_spec, Hr. split; [done|].
    assert (meaning db' index a f Contains (VText query language') d = true) as Hmean.
    { unfold meaning. rewrite Ht. rewrite (bool_decide_true (Contains = Contains)), (bool_decide_false (Contains = Equal)) by done. cbn [andb orb].
      apply (proj2 (all_of_spec _)). split.
      { unfold Stemmer. fold words. by destruct words. }
      intros b Hb. apply list_elem_of_fmap in Hb as (t & -> & Htok). unfold Stemmer in Htok. apply list_elem_of_fmap in Htok as (w & -> & Hwd).
      apply existsb_exists. exists (hash_of w). split; [by left|]. apply bool_decide_eq_true. split; [done|].
      pose proof (u8_id_range f). apply Hchar; [|done|].
      + split; [unfold u8_ok, in_width; lia|apply new_ok].
      + exists (f, VText value language). split; [done|]. split; [done|]. unfold hashes_of. cbn [fst snd].
        rewrite Ht. replace (is_id f) with false by (by destruct f). apply words_hashed. by apply Hin. }
    rewrite holds_group. unfold query_values, l. cbn. unfold ignored. rewrite (bool_decide_true (FieldAccountId = FieldAccountId)), (bool_decide_false (f = FieldAccountId)) by done. cbn.
    by rewrite Hmean.
Qed.
End Store.

(** ** Examples *)

Module Demo.
Import SearchTokens.Demo SearchTerms.Demo.

Definition search (filters : list SearchFilter) : option (result (list Z) QueryError) :=
  query_account zero zero db SEmail (Operator FieldAccountId Equal (VUint 7) :: filters) [] {[3; 4; 5]}.

Example found_by_subject : search [has_text (Email ESubject) s#"world" L_ENGLISH] = Some (Ok [3]).
Proof. by vm_compute. Qed.
Example not_found : search [Not; has_text (Email ESubject) s#"world" L_ENGLISH; End] = Some (Ok [4; 5]).
Proof. by vm_compute. Qed.
Example unindexed_field : search [Operator (Email EHasAttachment) Equal (VText s#"x" L_NONE); cond (Email EBody) LowerThan (VUint 1)]
  = Some (Ok []).
Proof. by vm_compute. Qed.

Definition db_hello : Db := default ∅ (SearchTerms.index_document zero zero 0 hello ∅).
Lemma db_hello_wf : db_wf db_hello.
Proof.
  destruct (index_document_spec zero zero 0 hello ∅) as (db' & E & [_ H] & _).
  - by apply check_document_ok.
  - by vm_compute.
  - by apply fields_nodup.
  - left. apply absent_empty.
  - unfold db_hello. rewrite E. apply H, map_Forall_empty.
Qed.

Definition not_bye : list Query :=
  [QGroup NoneOf [QCond (Email ESubject) Contains (VText s#"bye" L_NONE)];
   QCond (Email ESentAt) Equal (VInt (- 5)); QCond FieldAccountId Equal (VUint 7)].


(** The document of the subject "Hello, World" is found by "world". *)
Lemma indexed_then_found_witness :
  exists db' r, index_document zero zero 0 hello ∅ = Some db' /\ db_wf db' /\
    query_account zero zero db' SEmail [Operator FieldAccountId Equal (VUint 7); Operator (Email ESubject) Contains (VText s#"world" L_NONE)] []
      {[3; 5]} = Some (Ok r) /\ 3 ∈ r.
Proof.
  apply (indexed_then_found zero zero hello ∅ (Email ESubject) s#"Hello, World" L_ENGLISH s#"world" L_NONE {[3; 5]}) with (a := 7) (d := 3).
  - apply map_Forall_empty.
  - by apply check_document_ok.
  - by apply fields_nodup.
  - done.
  - done.
  - by vm_compute.
  - by vm_compute.
  - done.
  - by vm_compute.
  - left. apply absent_empty.
  - apply list_elem_of_In. vm_compute. auto.
  - done.
  - by vm_compute.
  - vm_compute. intros w [->|[]%elem_of_nil]%elem_of_cons. apply list_elem_of_In. cbn. auto.
  - set_solver.
  - intros d' [->%elem_of_singleton| ->%elem_of_singleton]%elem_of_union; by vm_compute.
Defined.
Module Findings.
(** Where the code does not do what it means to. *)

(** Headers are matched by any of the words, also when the whole value is
    asked for: a search for one message by its Message-ID finds every message
    with an id of the same domain. *)
Lemma header_matches_any_word :
  search [cond (Email EHeaders) Equal (VKeyValues [(s#"message-id", s#"<b2@example.org>")])] = Some (Ok [3; 4]).
Proof. by vm_compute. Qed.

(** Signed values are compared as unsigned ones: a message that was sent
    before 1970 is not found by "sent before", and is by "sent since". *)
Lemma negative_times_are_late :
  search [filter_lt (Email ESentAt) (VInt 100)] = Some (Ok []) /\ search [filter_ge (Email ESentAt) (VInt 100)] = Some (Ok [3; 4]).
Proof. by vm_compute. Qed.

(** The short circuit of a conjunction stops at the first [End], which can be
    that of a group in it: the rest is then read as if the conjunction was
    over.  "1 and not 2, or 3" finds nothing when the first has no documents. *)
Definition either_group : Query :=
  QGroup AnyOf [QGroup AllOf [QDocs ∅; QGroup NoneOf [QDocs {[4]}]]; QDocs {[3]}].
Lemma short_circuit_skips_group :
  search (flatten either_group) = Some (Ok []) /\ filter_query (flatten either_group) {[3; 4; 5]} = Some ∅ /\
  query_holds ignored (fun _ _ _ _ => false) 3 either_group = true.
Proof. by vm_compute. Qed.
End Findings.
End Demo.
