(* ===== verification/ImapQuery.v ===== *)
(** * How a session answers a search ([crates/imap/src/op/search.rs])

    The filters of an IMAP search become filters over the account's index and
    sets of messages from the session's cache; the search runs over the
    messages of the mailbox, and what it finds is given by number or UID.  The
    end of the file puts the parser, this and the index together: the answer
    has the messages that the search keys hold of. *)

From stdpp Require Import gmap sorting.
From S2P Require Import Prelude Utf8 Text JmapId Keyword ImapCommand ImapReceiver ImapSequence ImapSearch CheekyHash StoreKeys SearchFilter SearchTokens SearchTerms SearchStore.
#[local] Open Scope Z_scope.
Local Open Scope result_scope.
#[local] Notation default := (from_option (fun x => x)).

(** ** The state of a session *)

(* [crates/common/src/lib.rs:237-244] MessageCache *)
Record MessageCache := MkMessageCache { document_id : Z; mailboxes : list Z; keywords : Z; thread_id : Z }.
(* [crates/common/src/lib.rs:228-234] MessagesCache *)
Record MessagesCache := MkMessagesCache { cached : list MessageCache; keyword_names : list (list Z) }.

(* [crates/imap/src/core/mod.rs:129-132] ImapId *)
Record ImapId := MkImapId { uid : Z; seqnum : Z }.
(** [next_state] is what the mailbox will be when the client is told. *)
(* [crates/imap/src/core/mod.rs:113-120] MailboxState *)
Inductive MailboxState := MkMailboxState {
  uid_max : Z; id_to_imap : gmap Z ImapId; uid_to_id : gmap Z Z; total_messages : Z; next_state : option MailboxState }.

(* [crates/imap/src/core/mod.rs:224-237] map_result_id *)
Definition map_result_id (state : MailboxState) (document_id : Z) (is_uid : bool) : option (Z * ImapId) :=
  match id_to_imap state !! document_id with
  | Some imap_id => Some (if is_uid then uid imap_id else seqnum imap_id, imap_id)
  | None =>
      if is_uid then
        match next_state state with
        | Some next => match id_to_imap next !! document_id with Some imap_id => Some (uid imap_id, imap_id) | None => None end
        | None => None
        end
      else None
  end.

(** *** What the cache says of messages *)

Fixpoint position (name : list Z) (l : list (list Z)) : option Z :=
  match l with
  | [] => None
  | x :: l => if bytes_eqb x name then Some 0 else option_map (Z.add 1) (position name l)
  end.
(* [crates/email/src/cache/email.rs:329-339] keyword_to_id *)
Definition keyword_to_id (cache : MessagesCache) (k : Keyword) : option Z :=
  match Keyword.id k with
  | Ok id => Some id
  | Err name => option_map (Z.add OTHER) (position name (keyword_names cache))
  end.

Definition documents (p : MessageCache -> bool) (cache : MessagesCache) : gset Z :=
  list_to_set (map document_id (List.filter p (cached cache))).
(** A shift of a 128-bit integer takes the shift modulo 128. *)
Definition has_bit (keywords id : Z) : bool := Z.testbit keywords (id mod 128).

(* [crates/email/src/cache/email.rs:200-205] in_mailbox *)
Definition in_mailbox (mailbox_id : Z) : MessagesCache -> gset Z := documents (fun m => existsb (Z.eqb mailbox_id) (mailboxes m)).
(* [crates/email/src/cache/email.rs:215-220] in_thread *)
Definition in_thread (id : Z) : MessagesCache -> gset Z := documents (fun m => thread_id m =? id).
(* [crates/email/src/cache/email.rs:222-228] with_keyword *)
Definition with_keyword (k : Keyword) (cache : MessagesCache) : gset Z :=
  documents (fun m => match keyword_to_id cache k with Some id => has_bit (keywords m) id | None => false end) cache.
(* [crates/email/src/cache/email.rs:230-236] without_keyword *)
Definition without_keyword (k : Keyword) (cache : MessagesCache) : gset Z :=
  documents (fun m => match keyword_to_id cache k with Some id => negb (has_bit (keywords m) id) | None => true end) cache.

(** *** Languages of searches *)

(** What comes before the first hyphen or underscore. *)
Fixpoint before_separator (code : list Z) : list Z :=
  match code with
  | [] => []
  | c :: code => if (c =? c#"-") || (c =? c#"_") then [] else c :: before_separator code
  end.
(* [crates/nlp/src/language/mod.rs:133-191] from_iso_639 *)
Definition from_iso_639 (code : list Z) : option Language :=
  tiny_map
    [ (s#"en", 1); (s#"es", 4); (s#"pt", 5); (s#"it", 6); (s#"fr", 8); (s#"de", 9); (s#"da", 22); (s#"ru", 2); (s#"zh", 3);
      (s#"ja", 14); (s#"ar", 12); (s#"hi", 13); (s#"ko", 20); (s#"bn", 7); (s#"he", 15); (s#"ur", 44); (s#"fa", 52); (s#"ml", 53);
      (s#"or", 54); (s#"my", 55); (s#"ne", 56); (s#"si", 57); (s#"km", 58); (s#"tk", 59); (s#"am", 18); (s#"az", 49); (s#"id", 50);
      (s#"te", 51); (s#"ta", 42); (s#"vi", 43); (s#"gu", 46); (s#"pa", 48); (s#"uz", 47); (s#"hy", 68); (s#"ka", 11); (s#"la", 64);
      (s#"sl", 35); (s#"hr", 36); (s#"sr", 37); (s#"mk", 38); (s#"lt", 39); (s#"lv", 40); (s#"et", 41); (s#"tl", 67); (s#"af", 63);
      (s#"zu", 61); (s#"sn", 62); (s#"ak", 60); (s#"ca", 66); (s#"el", 29); (s#"sv", 23); (s#"pl", 17) ]
    (before_separator code).

(** ** Searching a mailbox *)

(** The headers that the code tells apart. *)
Inductive HeaderName := HSubject | HFrom | HTo | HCc | HBcc | HMessageId | HInReplyTo | HReferences | HResentMessageId | HOther.

Inductive QueryFailure :=
| NoSavedSearch | BadEmailId (id : list Z) | BadThreadId (id : list Z) | SortByCcUnsupported | SearchFailed (e : QueryError).

Section Session.
Context {N : Nlp}.
Variables xxh3 fingerprint64 : list Z -> Z.
(** [HeaderName::parse] of the mail-parser crate with the lower-case text of
    the name; [whatlang::detect] with a confidence above 0.3; the items that
    the store says have changed (since a change, or all); the clock; the
    default language; the number that the mailbox is synchronized to. *)
Variable header_name : list Z -> option (HeaderName * list Z).
Variable detect_single : list Z -> option Language.
Variable changes : option Z -> list Z.
Variable now : Z.
Variable default_language : Language.
Variable synchronized : Z.
Variables (cache : MessagesCache) (mailbox_id account_id : Z) (state : MailboxState).
(** The saved search, and the one before if this search is to be saved. *)
Variable saved_search : option (list ImapId).
Variable prev_saved_search : option (option (list ImapId)).

(* [crates/nlp/src/language/mod.rs:195-207] Language::detect *)
Definition detect (text : list Z) : list Z * Language :=
  match split_once [c#":"] text with
  | Some (l, t) =>
      match from_iso_639 l with
      | Some l => (t, l)
      | None => (text, default default_language (detect_single text))
      end
  | None => (text, default default_language (detect_single text))
  end.
(* [crates/store/src/search/document.rs:192-199] has_text_detect *)
Definition has_text_detect (field : SearchField) (text : list Z) : SearchFilter :=
  let '(text, language) := detect text in has_text field text language.

(** The messages of a saved search that are still there. *)
Definition saved_ids (l : list ImapId) : gset Z := list_to_set (omap (fun i => uid_to_id state !! uid i) l).

(** The keys of the map that the code makes. *)
(* [crates/imap/src/core/message.rs:189-242] sequence_to_ids *)
Definition sequence_to_ids (sequence : Sequence) (is_uid : bool) : result (gset Z) QueryFailure :=
  if negb (is_saved_search sequence) then
    let '(ids, uid_max, total) :=
      match next_state state with
      | Some next => (id_to_imap next, uid_max next, total_messages next)
      | None => (id_to_imap state, uid_max state, total_messages state)
      end in
    Ok (list_to_set (map fst (List.filter (fun e => if is_uid then contains sequence (uid (snd e)) uid_max else contains sequence (seqnum (snd e)) (wrap 32 total)) (map_to_list ids))))
  else match saved_search with Some l => Ok (saved_ids l) | None => Err NoSavedSearch end.

(* [crates/imap/src/op/search.rs:219-228] query, the mailbox's messages *)
Definition message_ids : gset Z := in_mailbox mailbox_id cache.

(* [crates/imap/src/op/mod.rs:44-52] from_modseq *)
Definition from_modseq (modseq : Z) : option Z := if 0 <? modseq then Some (modseq - 1) else None.
(* [crates/imap/src/op/mod.rs:54-58] to_modseq *)
Definition to_modseq (n : Z) : Z := if 0 <? n then n + 1 else 0.

(* [crates/imap/src/op/search.rs:469-520] query, HEADER *)
Definition header_filter (header value : list Z) : list SearchFilter :=
  match header_name header with
  | None => []
  | Some (HSubject, _) => [has_text_detect (Email ESubject) value]
  | Some (HFrom, _) => [has_text (Email EFrom) value L_NONE]
  | Some (HTo, _) => [has_text (Email ETo) value L_NONE]
  | Some (HCc, _) => [has_text (Email ECc) value L_NONE]
  | Some (HBcc, _) => [has_text (Email EBcc) value L_NONE]
  | Some (h, name) =>
      let op := match h with
                | HMessageId | HInReplyTo | HReferences | HResentMessageId => Equal
                | _ => match value with [] => Equal | _ => Contains end
                end in
      [cond (Email EHeaders) op (VKeyValues [(name, value)])]
  end.

(** A day. *)
Definition day_filter (field : SearchField) (date : Z) : list SearchFilter :=
  [And; filter_ge field (VInt date); filter_lt field (VInt (date + 86400)); End].

(* [crates/imap/src/op/search.rs:528-569] query, TEXT *)
Definition text_filter (text : list Z) : list SearchFilter :=
  let '(text, language) := detect text in
  [Or; has_text (Email EFrom) text L_NONE; has_text (Email ETo) text L_NONE; has_text (Email ECc) text L_NONE;
   has_text (Email EBcc) text L_NONE; has_text (Email ESubject) text language; has_text (Email EBody) text language;
   has_text (Email EAttachment) text language; End].

(* [crates/imap/src/op/search.rs:396-418] query, MODSEQ *)
Definition changed_since (modseq : Z) : gset Z :=
  list_to_set (List.filter (fun id => bool_decide (id ∈ message_ids)) (map (wrap 32) (changes (from_modseq modseq)))).

(** One filter, and whether the answer has the highest modification number. *)
(* [crates/imap/src/op/search.rs:233-589] query, one filter *)
Definition query_filter (filter : Filter) : result (list SearchFilter * bool) QueryFailure :=
  let set s := Ok ([is_in_set s], false) in
  let one f := Ok ([f], false) in
  match filter with
  | ISequence sequence uid_filter =>
      match sequence, prev_saved_search with
      | SavedSearch, Some (Some l) => set (saved_ids l)
      | SavedSearch, Some None => Err NoSavedSearch
      | _, _ => let? s := sequence_to_ids sequence uid_filter in set s
      end
  | IAll => set message_ids
  | IAnswered => set (with_keyword Answered cache)
  | IBefore date => one (filter_lt (Email EReceivedAt) (VInt date))
  | IDeleted => set (with_keyword Deleted cache)
  | IDraft => set (with_keyword Draft cache)
  | IFlagged => set (with_keyword Flagged cache)
  | IKeyword keyword => set (with_keyword (keyword_of_flag keyword) cache)
  | ILarger size => one (filter_gt (Email ESize) (VUint size))
  | IOn date => Ok (day_filter (Email EReceivedAt) date, false)
  | ISeen => set (with_keyword Seen cache)
  | ISentBefore date => one (filter_lt (Email ESentAt) (VInt date))
  | ISentOn date => Ok (day_filter (Email ESentAt) date, false)
  | ISentSince date => one (filter_ge (Email ESentAt) (VInt date))
  | ISince date => one (filter_ge (Email EReceivedAt) (VInt date))
  | ISmaller size => one (filter_lt (Email ESize) (VUint size))
  | IUnanswered => set (without_keyword Answered cache)
  | IUndeleted => set (without_keyword Deleted cache)
  | IUndraft => set (without_keyword Draft cache)
  | IUnflagged => set (without_keyword Flagged cache)
  | IUnkeyword keyword => set (without_keyword (keyword_of_flag keyword) cache)
  | IUnseen => set (without_keyword Seen cache)
  | IRecent | INew | IOld => Ok ([], false)
  | IOlder secs => one (filter_le (Email EReceivedAt) (VUint (Z.max 0 (now - secs))))
  | IYounger secs => one (filter_ge (Email EReceivedAt) (VUint (Z.max 0 (now - secs))))
  | IModSeq modseq _ => Ok ([is_in_set (changed_since modseq)], true)
  | IEmailId id =>
      match from_str id with Some id => set {[ JmapId.document_id id ]} | None => Err (BadEmailId id) end
  | IThreadId id =>
      match from_str id with Some id => set (in_thread (JmapId.document_id id) cache) | None => Err (BadThreadId id) end
  | IBcc text => one (has_text (Email EBcc) text L_NONE)
  | IBody text => one (has_text_detect (Email EBody) text)
  | ICc text => one (has_text (Email ECc) text L_NONE)
  | IFrom text => one (has_text (Email EFrom) text L_NONE)
  | IHeader header value => Ok (header_filter header value, false)
  | ISubject text => one (has_text_detect (Email ESubject) text)
  | IText text => Ok (text_filter text, false)
  | ITo text => one (has_text (Email ETo) text L_NONE)
  | IAnd => one And
  | IOr => one Or
  | INot => one Not
  | IEnd => one End
  end.

(* [crates/imap/src/op/search.rs:231-590] query, the filters *)
Fixpoint query_filters (filters : list Filter) : result (list SearchFilter * bool) QueryFailure :=
  match filters with
  | [] => Ok ([], false)
  | f :: filters =>
      let? (l, b) := query_filter f in
      let? (l', b') := query_filters filters in Ok (l ++ l', b || b')
  end.

(* [crates/imap/src/op/search.rs:595-619] query, one comparator *)
Definition query_comparator (c : Comparator) : result SearchComparator QueryFailure :=
  let field f := Ok (CmpField (Email f) (ascending c)) in
  match sort c with
  | ByArrival => field EReceivedAt
  | ByCc => Err SortByCcUnsupported
  | ByDate => field ESentAt
  | ByFrom | ByDisplayFrom => field EFrom
  | BySize => field ESize
  | BySubject => field ESubject
  | ByTo | ByDisplayTo => field ETo
  end.
Fixpoint query_comparators (l : list Comparator) : result (list SearchComparator) QueryFailure :=
  match l with
  | [] => Ok []
  | c :: l => let? c := query_comparator c in let? l := query_comparators l in Ok (c :: l)
  end.

(** [None] is a panic. *)
(* [crates/imap/src/op/search.rs:210-635] query *)
Definition query (db : Db) (filters : list Filter) (comparators : list Comparator) : option (result (list Z * bool) QueryFailure) :=
  let converted :=
    let? (filters, include_highest_modseq) := query_filters filters in
    let? comparators := query_comparators comparators in Ok (filters, comparators, include_highest_modseq) in
  match converted with
  | Err e => Some (Err e)
  | Ok (filters, comparators, include_highest_modseq) =>
      match query_account xxh3 fingerprint64 db SEmail (filters ++ [Operator FieldAccountId Equal (VUint account_id)]) comparators message_ids with
      | None => None
      | Some (Err e) => Some (Err (SearchFailed e))
      | Some (Ok l) => Some (Ok (l, include_highest_modseq))
      end
  end.

(** *** The answer *)

Record Mapped := MkMapped { min : option (Z * ImapId); max : option (Z * ImapId); total : Z; imap_ids : list Z; saved : list ImapId }.

(* [crates/imap/src/op/search.rs:669-698] map_search_results, one result *)
Definition map_result (is_uid find_min find_max : bool) (m : Mapped) (document_id : Z) : Mapped :=
  match map_result_id state document_id is_uid with
  | None => m
  | Some (id, imap_id) =>
      let better (find : bool) (less : Z -> Z -> bool) (old : option (Z * ImapId)) :=
        if find then match old with
                     | Some (prev, _) => if less id prev then Some (id, imap_id) else old
                     | None => Some (id, imap_id)
                     end
        else old in
      if find_min || find_max then
        MkMapped (better find_min Z.ltb (min m)) (better find_max Z.gtb (max m)) (total m + 1) (imap_ids m) (saved m)
      else MkMapped (min m) (max m) (total m + 1) (imap_ids m ++ [id]) (saved m ++ [imap_id])
  end.
(* [crates/imap/src/op/search.rs:655-707] map_search_results *)
Definition map_search_results (ids : list Z) (is_uid find_min find_max : bool) : Mapped :=
  let m := fold_left (map_result is_uid find_min find_max) ids (MkMapped None None 0 [] []) in
  if find_min || find_max then
    let found := omap (fun x => x) [min m; max m] in
    MkMapped (min m) (max m) (total m) (imap_ids m ++ map fst found) (saved m ++ map snd found)
  else m.

(** The answer, and what is saved if it is to be. *)
(* [crates/imap/src/op/search.rs:109-208] search *)
Definition search (db : Db) (arguments : Arguments) (is_uid : bool) : option (result (Response * list ImapId) QueryFailure) :=
  let has o := bool_decide (o ∈ result_options arguments) in
  let is_sort := match sorts arguments with Some _ => true | None => false end in
  match query db (filter arguments) (default [] (sorts arguments)) with
  | None => None
  | Some (Err e) => Some (Err e)
  | Some (Ok (result_set, include_highest_modseq)) =>
      let m := map_search_results result_set is_uid (has Min) (has Max) in
      let imap_ids := if is_sort then imap_ids m else merge_sort (≤) (imap_ids m) in
      Some (Ok (MkResponse is_uid (is_esearch arguments) is_sort
        (match result_options arguments with [] => imap_ids | _ => if has All then imap_ids else [] end)
        (option_map fst (min m)) (option_map fst (max m))
        (if has Count then Some (total m) else None)
        (if include_highest_modseq then Some (to_modseq synchronized) else None), saved m))
  end.
End Session.

(** ** What a search finds *)

(** *** The answer has what was found *)

Lemma map_results_plain state is_uid ids m : fold_left (map_result state is_uid false false) ids m =
  let found := omap (fun d => map_result_id state d is_uid) ids in
  MkMapped (min m) (max m) (total m + Z.of_nat (length found)) (imap_ids m ++ map fst found) (saved m ++ map snd found).
Proof.
  revert m. induction ids as [|d ids IH]; intros m.
  - destruct m. cbn. by rewrite Z.add_0_r, !app_nil_r.
  - cbn [fold_left omap list_omap]. rewrite IH. unfold map_result. destruct (map_result_id state d is_uid) as [[id i]|]; [|done].
    cbn. rewrite <- !app_assoc. f_equal. lia.
Qed.

Section FilterTree_ind.
Variable P : FilterTree -> Prop.
Hypothesis Pleaf : forall f, P (FLeafTree f).
Hypothesis Pgroup : forall op l, Forall P l -> P (FGroup op l).
Fixpoint FilterTree_nested_ind (t : FilterTree) : P t :=
  match t with
  | FLeafTree f => Pleaf f
  | FGroup op l =>
      Pgroup op l ((fix go l := match l return Forall P l with
                                | [] => Forall_nil_2 P
                                | t :: l => Forall_cons_2 P t l (FilterTree_nested_ind t) (go l)
                                end) l)
  end.
End FilterTree_ind.

(** Conditions and sets, to the end of their group. *)
Fixpoint leaves (l : list SearchFilter) : option (list Query) :=
  match l with
  | [End] => Some []
  | Operator f o v :: l => option_map (cons (QCond f o v)) (leaves l)
  | DocumentSet s :: l => option_map (cons (QDocs s)) (leaves l)
  | _ => None
  end.
(** The query that the filters of a leaf are. *)
Definition single_query (l : list SearchFilter) : option Query :=
  match l with
  | [Operator f o v] => Some (QCond f o v)
  | [DocumentSet s] => Some (QDocs s)
  | And :: l => option_map (QGroup AllOf) (leaves l)
  | Or :: l => option_map (QGroup AnyOf) (leaves l)
  | _ => None
  end.

Lemma leaves_flatten l qs : leaves l = Some qs -> l = flat_map flatten qs ++ [End].
Proof.
  revert qs. induction l as [|f l IH]; intros qs H; [done|].
  destruct f; try done; cbn in H.
  - destruct (leaves l) as [qs'|] eqn:E; [|done]. injection H as <-. cbn. by rewrite (IH _ eq_refl).
  - destruct (leaves l) as [qs'|] eqn:E; [|done]. injection H as <-. cbn. by rewrite (IH _ eq_refl).
  - destruct l; [|done]. by injection H as <-.
Qed.

Lemma single_query_flatten l q : single_query l = Some q -> l = flatten q.
Proof.
  destruct l as [|f l]; [done|]. destruct f; cbn; try done.
  - destruct l; [|done]. by intros [= <-].
  - destruct l; [|done]. by intros [= <-].
  - destruct (leaves l) as [qs|] eqn:E; [|done]. intros [= <-]. cbn. f_equal. by apply leaves_flatten.
  - destruct (leaves l) as [qs|] eqn:E; [|done]. intros [= <-]. cbn. f_equal. by apply leaves_flatten.
Qed.

Definition names_account (f : SearchFilter) : bool := match f with Operator FieldAccountId _ _ => true | _ => false end.

#[local] Arguments names_account : simpl never.
Lemma has_text_account f text language : names_account (has_text (Email f) text language) = false.
Proof. unfold has_text. repeat case_match; done. Qed.

Lemma account_of_last l account_id : existsb names_account l = false ->
  account_of (l ++ [Operator FieldAccountId Equal (VUint account_id)]) = Some (wrap 32 account_id).
Proof.
  induction l as [|f l IH]; [done|]. cbn. intros H. apply orb_false_iff in H as [Hf H]. specialize (IH H).
  destruct f as [[]| | | | |]; done.
Qed.

(** Queries of conditions and groups that are not empty. *)
Fixpoint tree_wf (t : FilterTree) : Prop :=
  match t with
  | FLeafTree _ => True
  | FGroup op l => (op = IAnd \/ op = IOr \/ op = INot) /\ l <> [] /\
      (fix all l := match l with [] => True | t :: l => tree_wf t /\ all l end) l
  end.
Lemma all_trees l : (fix all l := match l with [] => True | t :: l => tree_wf t /\ all l end) l <-> Forall tree_wf l.
Proof.
  induction l as [|t l IH]; [by split|]. split; [intros [H1 H2]; constructor; [done|by apply IH]|].
  intros H. inversion H. split; [done|by apply IH].
Qed.

(** Lists in parentheses have a key at least. *)
Fixpoint no_empty_list (k : SearchKey) : bool :=
  match k with
  | KLeaf _ _ => true
  | KNot k => no_empty_list k
  | KOr a b => no_empty_list a && no_empty_list b
  | KParen l => match l with [] => false | _ => forallb no_empty_list l end
  end.
Fixpoint key_leaves (k : SearchKey) : list Filter :=
  match k with
  | KLeaf _ f => [f]
  | KNot k => key_leaves k
  | KOr a b => key_leaves a ++ key_leaves b
  | KParen l => flat_map key_leaves l
  end.
Fixpoint tree_leaves (t : FilterTree) : list Filter :=
  match t with FLeafTree f => [f] | FGroup _ l => flat_map tree_leaves l end.

Lemma key_trees_wf k : no_empty_list k = true ->
  Forall tree_wf (key_trees k) /\ key_trees k <> [] /\ flat_map tree_leaves (key_trees k) = key_leaves k.
Proof.
  assert (forall k, Forall tree_wf (key_trees k) /\ key_trees k <> [] /\ flat_map tree_leaves (key_trees k) = key_leaves k ->
    Forall tree_wf (as_operand k (key_trees k)) /\ flat_map tree_leaves (as_operand k (key_trees k)) = key_leaves k) as Hop.
  { intros [| | |l] (H1 & H2 & H3); cbn [as_operand]; try done. destruct (_ =? _)%nat; [done|]. split; [|by cbn; rewrite app_nil_r].
    constructor; [|done]. cbn [tree_wf]. rewrite all_trees. auto. }
  induction k as [ws f|k IH|a b IHa IHb|l IH] using SearchKey_nested_ind; cbn [no_empty_list key_trees key_leaves]; intros H.
  - by repeat constructor.
  - destruct (IH H) as (H1 & H2 & H3). split_and!; [|done|by cbn; rewrite app_nil_r]. constructor; [|done].
    cbn [tree_wf]. rewrite all_trees. auto.
  - apply andb_true_iff in H as [Ha Hb]. destruct (Hop a (IHa Ha)) as [H1 H2], (Hop b (IHb Hb)) as [H3 H4].
    split_and!; [|done|by cbn; rewrite app_nil_r, flat_map_app, H2, H4]. constructor; [|done].
    cbn [tree_wf]. rewrite all_trees, Forall_app. split_and!; [auto| |done|done].
    pose proof (operand_length a) as Hl. by destruct (as_operand a _).
  - destruct l as [|k l]; [done|]. clear Hop. cbn in H. apply andb_true_iff in H as [Hk H]. inversion IH as [|? ? IHk IHl]; subst.
    destruct (IHk Hk) as (H1 & H2 & H3). cbn [flat_map]. split_and!.
    + apply Forall_app. split; [done|]. clear - IHl H. induction IHl as [|k l Hk _ IHl]; [done|]. cbn in H |- *.
      apply andb_true_iff in H as [H1 H]. apply Forall_app. split; [by apply Hk|by apply IHl].
    + by destruct (key_trees k).
    + rewrite flat_map_app, H3. f_equal. clear - IHl H. induction IHl as [|k l Hk _ IHl]; [done|]. cbn in H |- *.
      apply andb_true_iff in H as [H1 H]. destruct (Hk H1) as (_ & _ & H2). by rewrite flat_map_app, H2, IHl.
Qed.

Lemma combine_map {A} c (f : A -> bool) l : l <> [] ->
  combine c (map f l) = match c with
                        | AllOf => forallb f l | AnyOf => existsb f l | NoneOf => forallb (fun x => negb (f x)) l
                        end.
Proof.
  assert (forall g : bool -> bool, forallb g (map f l) = forallb (fun x => g (f x)) l) as Ha
    by (intros g; clear; induction l as [|x l IH]; [done|]; cbn; by rewrite IH).
  assert (existsb Datatypes.id (map f l) = existsb f l) as He by (clear; induction l as [|x l IH]; [done|]; cbn; by rewrite IH).
  intros Hl. transitivity (match c with AllOf => forallb Datatypes.id (map f l) | AnyOf => existsb Datatypes.id (map f l) | NoneOf => forallb negb (map f l) end);
    [by destruct l|]. rewrite He, !Ha. done.
Qed.

Section Finds.
Context {N : Nlp}.
Variables xxh3 fingerprint64 : list Z -> Z.
Variable header_name : list Z -> option (HeaderName * list Z).
Variable detect_single : list Z -> option Language.
Variable changes : option Z -> list Z.
Variable now : Z.
Variable default_language : Language.
Variable synchronized : Z.
Variables (cache : MessagesCache) (mailbox_id account_id : Z) (state : MailboxState).
Variable saved_search : option (list ImapId).
Variable prev_saved_search : option (option (list ImapId)).
Notation query_filter := (query_filter header_name detect_single changes now default_language cache mailbox_id state saved_search prev_saved_search).
Notation query_filters := (query_filters header_name detect_single changes now default_language cache mailbox_id state saved_search prev_saved_search).
Notation detect := (detect detect_single default_language).

(** What a leaf asks of the index and the cache; RECENT, NEW and OLD, headers
    without a name and identifiers that are none ask nothing. *)
Definition leaf_query (f : Filter) : option Query :=
  match query_filter f with Ok (l, _) => single_query l | Err _ => None end.
Definition leaf_supported (f : Filter) : bool := match leaf_query f with Some _ => true | None => false end.

Definition connective (op : Filter) : Connective := if is_or op then AnyOf else if is_not op then NoneOf else AllOf.
Fixpoint tree_query (t : FilterTree) : Query :=
  match t with
  | FLeafTree f => default (QDocs ∅) (leaf_query f)
  | FGroup op l => QGroup (connective op) (map tree_query l)
  end.

Lemma query_filter_account f l b : query_filter f = Ok (l, b) -> existsb names_account l = false.
Proof.
  destruct f; cbn [ImapQuery.query_filter]; unfold has_text_detect, text_filter, header_filter;
    try (intros [= <- <-]; cbn [existsb]; rewrite ?has_text_account; done).
  - repeat case_match; try done; try (by intros [= <- <-]);
      (destruct (sequence_to_ids _ _ _ _); [by intros [= <- <-]|done]).
  - destruct (detect t). intros [= <- <-]. cbn [existsb]. by rewrite has_text_account.
  - intros [= <- <-]. destruct (header_name name) as [[[] ?]|]; cbn [existsb]; rewrite ?has_text_account; try done.
    unfold has_text_detect. destruct (detect value). by rewrite has_text_account.
  - destruct (detect t). intros [= <- <-]. cbn [existsb]. by rewrite has_text_account.
  - destruct (detect t). intros [= <- <-]. cbn [existsb]. by rewrite !has_text_account.
  - destruct (from_str id); [by intros [= <- <-]|done].
  - destruct (from_str id); [by intros [= <- <-]|done].
Qed.

Lemma query_filters_app fs fs' l b l' b' : query_filters fs = Ok (l, b) -> query_filters fs' = Ok (l', b') ->
  query_filters (fs ++ fs') = Ok (l ++ l', b || b').
Proof.
  revert l b. induction fs as [|f fs IH]; intros l b H H'; [by injection H as <- <-|].
  cbn [app ImapQuery.query_filters] in *. destruct (query_filter f) as [[lf bf]|]; [|done]. cbn [rbind] in *.
  destruct (query_filters fs) as [[ls bs]|]; [|done]. injection H as <- <-.
  rewrite (IH _ _ eq_refl H'). cbn [rbind]. by rewrite app_assoc, orb_assoc.
Qed.

Lemma leaf_filters f : leaf_supported f = true ->
  exists b, query_filter f = Ok (flatten (default (QDocs ∅) (leaf_query f)), b).
Proof.
  unfold leaf_supported, leaf_query. destruct (query_filter f) as [[l b]|]; [|done].
  destruct (single_query l) as [q|] eqn:E; [|done]. exists b. cbn. by rewrite (single_query_flatten l q).
Qed.

(** The filters of a tree become the query that the tree is. *)
Lemma tree_filters_query t : tree_wf t -> Forall (fun f => leaf_supported f = true) (tree_leaves t) ->
  exists b, query_filters (tree_filters t) = Ok (flatten (tree_query t), b).
Proof.
  induction t as [f|op l IH] using FilterTree_nested_ind; intros Hw Hs.
  - apply Forall_cons_1 in Hs as [Hs _]. destruct (leaf_filters f Hs) as [b E]. exists (b || false). cbn [tree_filters ImapQuery.query_filters tree_query].
    rewrite E. cbn. by rewrite app_nil_r.
  - cbn [tree_wf] in Hw. rewrite all_trees in Hw. destruct Hw as (Hop & _ & Hw).
    assert (exists b, query_filters (flat_map tree_filters l) = Ok (flat_map flatten (map tree_query l), b)) as [b E].
    { clear Hop. induction IH as [|t l Ht _ IHl]; [by exists false|]. apply Forall_cons_1 in Hw as [Hw1 Hw].
      cbn [tree_leaves flat_map] in Hs. apply Forall_app in Hs as [Hs1 Hs].
      destruct (Ht Hw1 Hs1) as [b1 E1], (IHl Hw Hs) as [b2 E2]. exists (b1 || b2). cbn [flat_map map]. by apply query_filters_app. }
    exists (b || false).
    assert (query_filters (flat_map tree_filters l ++ [IEnd]) = Ok (flat_map flatten (map tree_query l) ++ [End], b || false)) as E2
      by (by apply query_filters_app).
    cbn [tree_filters ImapQuery.query_filters tree_query flatten].
    destruct Hop as [->|[->| ->]]; cbn [ImapQuery.query_filter rbind]; rewrite E2; done.
Qed.

Lemma trees_query ts : Forall tree_wf ts -> Forall (fun f => leaf_supported f = true) (flat_map tree_leaves ts) ->
  exists b, query_filters (flat_map tree_filters ts) = Ok (flat_map flatten (map tree_query ts), b).
Proof.
  induction 1 as [|t ts Hw _ IH]; intros Hs; [by exists false|]. cbn [flat_map] in Hs. apply Forall_app in Hs as [H1 H2].
  destruct (tree_filters_query t Hw H1) as [b1 E1], (IH H2) as [b2 E2]. exists (b1 || b2). cbn [flat_map map]. by apply query_filters_app.
Qed.

Lemma query_filters_account fs : forall l b, query_filters fs = Ok (l, b) -> existsb names_account l = false.
Proof.
  induction fs as [|f fs IH]; intros l b H; [by injection H as <- <-|]. cbn [ImapQuery.query_filters] in H.
  destruct (query_filter f) as [[lf bf]|] eqn:E; [|done]. cbn [rbind] in H.
  destruct (query_filters fs) as [[ls bs]|]; [|done]. injection H as <- <-.
  rewrite existsb_app, (query_filter_account _ _ _ E). by apply (IH ls bs).
Qed.

(** *** What a message has to satisfy *)

Variable db : Db.
Notation says := (query_holds ignored (meaning xxh3 fingerprint64 db SEmail account_id)).

(** The index and the cache say this of a message for a leaf. *)
Definition leaf_holds (d : Z) (f : Filter) : bool := says d (default (QDocs ∅) (leaf_query f)).

Lemma leaf_counts f : leaf_supported f = true -> query_counts ignored (default (QDocs ∅) (leaf_query f)) = true.
Proof.
  intros H. destruct (leaf_filters f H) as [b E]. apply query_filter_account in E.
  destruct (default _ _) as [fl o v| |]; [|done..]. cbn in E |- *. rewrite orb_false_r in E. by destruct fl.
Qed.

Lemma tree_counts t : tree_wf t -> Forall (fun f => leaf_supported f = true) (tree_leaves t) -> query_counts ignored (tree_query t) = true.
Proof. destruct t; intros _ H; [|done]. apply Forall_cons_1 in H as [H _]. by apply leaf_counts. Qed.

Lemma tree_query_holds d t : tree_wf t -> Forall (fun f => leaf_supported f = true) (tree_leaves t) ->
  says d (tree_query t) = tree_holds (leaf_holds d) t.
Proof.
  induction t as [f|op l IH] using FilterTree_nested_ind; intros Hw Hs; [done|].
  cbn [tree_wf] in Hw. rewrite all_trees in Hw. destruct Hw as (Hop & Hl & Hw). cbn [tree_query tree_holds tree_leaves] in *.
  assert (query_values ignored (meaning xxh3 fingerprint64 db SEmail account_id) d (map tree_query l) = map (tree_holds (leaf_holds d)) l) as E.
  { clear Hop Hl. induction IH as [|t l Ht _ IHl]; [done|]. cbn [flat_map] in Hs. apply Forall_cons_1 in Hw as [Hw1 Hw].
    apply Forall_app in Hs as [Hs1 Hs]. unfold query_values in *. cbn. rewrite tree_counts, Ht by done. by rewrite IHl. }
  change (combine (connective op) (query_values ignored (meaning xxh3 fingerprint64 db SEmail account_id) d (map tree_query l)) =
    if is_or op then existsb (tree_holds (leaf_holds d)) l
    else if is_not op then forallb (fun t => negb (tree_holds (leaf_holds d) t)) l else forallb (tree_holds (leaf_holds d)) l).
  rewrite E, combine_map by done. unfold connective. by destruct (is_or op), (is_not op).
Qed.

Lemma trees_hold d ts : Forall tree_wf ts -> Forall (fun f => leaf_supported f = true) (flat_map tree_leaves ts) -> ts <> [] ->
  says d (QGroup AllOf (map tree_query ts ++ [QCond FieldAccountId Equal (VUint account_id)])) = forallb (tree_holds (leaf_holds d)) ts.
Proof.
  intros Hw Hs Hn. rewrite <- (combine_map AllOf) by done.
  change (combine AllOf (query_values ignored (meaning xxh3 fingerprint64 db SEmail account_id) d
    (map tree_query ts ++ [QCond FieldAccountId Equal (VUint account_id)])) = combine AllOf (map (tree_holds (leaf_holds d)) ts)).
  rewrite values_app.
  change (query_values ignored (meaning xxh3 fingerprint64 db SEmail account_id) d [QCond FieldAccountId Equal (VUint account_id)]) with (@nil bool).
  rewrite app_nil_r. f_equal.
  clear Hn. induction Hw as [|t ts H _ IH]; [done|]. cbn [flat_map] in Hs. apply Forall_app in Hs as [Hs1 Hs].
  unfold query_values in *. cbn. rewrite tree_counts, tree_query_holds by done. by rewrite IH.
Qed.

Notation search := (search xxh3 fingerprint64 header_name detect_single changes now default_language synchronized cache mailbox_id
  account_id state saved_search prev_saved_search).
Notation query := (query xxh3 fingerprint64 header_name detect_single changes now default_language cache mailbox_id account_id state
  saved_search prev_saved_search).
Notation messages := (message_ids cache mailbox_id).

Lemma flatten_length q : (1 <= length (flatten q))%nat.
Proof. destruct q; cbn; lia. Qed.

(** The query of a list of trees. *)
Lemma query_finds ts : ts <> [] -> Forall tree_wf ts -> Forall (fun f => leaf_supported f = true) (flat_map tree_leaves ts) ->
  db_wf db -> (forall d, d ∈ messages -> u32_ok d) -> u32_ok account_id -> account_id <> u32_max ->
  forallb (query_ordered ignored) (map tree_query ts) = true ->
  forallb (valid_query ignored (valid db SEmail account_id)) (map tree_query ts) = true ->
  exists r b, query db (flat_map tree_filters ts) [] = Some (Ok (r, b)) /\
    forall d, d ∈ r <-> d ∈ messages /\ forallb (tree_holds (leaf_holds d)) ts = true.
Proof.
  intros Hts Hw Hs Hdb Hmask Ha Hmax Ho Hv. destruct (trees_query ts Hw Hs) as [b Eq].
  set (qs := map tree_query ts ++ [QCond FieldAccountId Equal (VUint account_id)]).
  assert (flat_map flatten qs = flat_map flatten (map tree_query ts) ++ [Operator FieldAccountId Equal (VUint account_id)]) as Eqs
    by (unfold qs; by rewrite flat_map_app).
  destruct (query_account_spec xxh3 fingerprint64 db SEmail account_id qs [] messages) as (r & Er & Hr); [done..| | | | | |].
  - rewrite Eqs, account_of_last; [|by apply (query_filters_account _ _ _ Eq)]. f_equal. by apply Z.mod_small.
  - done.
  - rewrite Eqs, length_app. destruct ts as [|t ts]; [done|]. cbn [map flat_map]. rewrite length_app.
    pose proof (flatten_length (tree_query t)). cbn [length]. lia.
  - unfold qs. by rewrite forallb_app, Ho.
  - unfold qs. by rewrite forallb_app, Hv.
  - exists (sorted_ids db SEmail account_id [] r), b. unfold ImapQuery.query. rewrite Eq. cbn [rbind query_comparators].
    rewrite <- Eqs, Er. split; [done|]. intros d. rewrite (proj1 (sorted_ids_spec db SEmail account_id [] r) d), Hr.
    unfold qs. by rewrite trees_hold.
Qed.

(** A search without options gives what the query finds. *)
Lemma search_plain tag esearch fs is_uid r b : query db fs [] = Some (Ok (r, b)) ->
  exists response saved, search db (MkArguments tag esearch None [] fs) is_uid = Some (Ok (response, saved)) /\
    StronglySorted Z.le (r_ids response) /\
    forall n, n ∈ r_ids response <-> exists d i, d ∈ r /\ map_result_id state d is_uid = Some (n, i).
Proof.
  intros Eq. unfold ImapQuery.search. cbn [filter sorts result_options from_option]. rewrite Eq. eexists _, _. split; [reflexivity|].
  cbn [r_ids]. unfold map_search_results. cbn [orb]. rewrite !bool_decide_eq_false_2 by set_solver. cbn [orb].
  rewrite map_results_plain. cbn [imap_ids app]. split; [apply StronglySorted_merge_sort; apply _|].
  intros n. rewrite merge_sort_Permutation. split.
  - intros H. apply list_elem_of_In, in_map_iff in H as ([n' i] & <- & H). apply list_elem_of_In, list_elem_of_omap in H as (d & Hd & H).
    by exists d, i.
  - intros (d & i & Hd & H). apply list_elem_of_In, in_map_iff. exists (n, i). split; [done|].
    apply list_elem_of_In, list_elem_of_omap. by exists d.
Qed.


End Finds.

(** ** Examples *)

Module Demo.
Import SearchTokens.Demo SearchTerms.Demo SearchStore.Demo.

Definition no_header (name : list Z) : option (HeaderName * list Z) := None.
Definition no_language (text : list Z) : option Language := None.
Definition no_changes (since : option Z) : list Z := [].

(** Three messages of mailbox 1: one seen, one deleted, one of each. *)
Definition cache : MessagesCache :=
  MkMessagesCache [MkMessageCache 3 [1] (2 ^ SEEN) 0; MkMessageCache 4 [1] (2 ^ DELETED) 0; MkMessageCache 5 [1] (2 ^ SEEN + 2 ^ DELETED) 0] [].
Definition state : MailboxState :=
  MkMailboxState 50 (list_to_map [(3, MkImapId 30 1); (4, MkImapId 40 2); (5, MkImapId 50 3)])
    (list_to_map [(30, 3); (40, 4); (50, 5)]) 3 None.

Definition answer (saved : option (list ImapId)) (options : list ResultOption) (filters : list Filter) : option (result (Response * list ImapId) QueryFailure) :=
  ImapQuery.search zero zero no_header no_language no_changes 0 L_ENGLISH 9 cache 1 7 state saved None db_hello
    (MkArguments s#"a" true None options filters) true.
Definition found (saved : option (list ImapId)) (options : list ResultOption) (filters : list Filter) : option (list Z) :=
  match answer saved options filters with Some (Ok (r, _)) => Some (r_ids r) | _ => None end.

(** SUBJECT world NOT DELETED *)
Definition keys : list SearchKey :=
  [ImapSearch.Demo.with_argument s#"SUBJECT" s#"world" (ISubject s#"world"); KNot (ImapSearch.Demo.word s#"DELETED" IDeleted)].
Definition request : Request ImapCommand.Command := MkRequest s#"a" (CmdSearch true) (flat_map key_tokens keys).


Module Findings.
(** RETURN (MIN ALL) and (MAX ALL) leave out all messages but one. *)
Lemma min_replaces_all :
  found None [] [IAll] = Some [30; 40; 50] /\ found None [Min; All] [IAll] = Some [30] /\ found None [Max; All] [IAll] = Some [50].
Proof. by vm_compute. Qed.

(** NEW, which is RECENT and UNSEEN, has messages that were seen. *)
Lemma new_is_not_unseen :
  found None [] [INew] = Some [30; 40; 50] /\ found None [] [IUnseen] = Some [40] /\ found None [] [INot; INew; IEnd] = Some [].
Proof. by vm_compute. Qed.

(** The saved search in a list takes the place of the list. *)
Lemma saved_search_in_list :
  found (Some [MkImapId 30 1]) [] [ISequence (SList [Number 50; SavedSearch]) true] = Some [30].
Proof. by vm_compute. Qed.

(** A text that begins with the code of a language and a colon is searched
    for without them. *)
Lemma language_prefix_dropped : detect no_language L_ENGLISH s#"id:4711" = (s#"4711", 50).
Proof. by vm_compute. Qed.
End Findings.
End Demo.
