(* ===== verification/Pop3.v ===== *)
(** * POP3 ([crates/pop3/src/protocol])

    The request parser as a state machine that is fed a byte at a time, and
    the serializer of responses.  [Parser::parse] takes bytes until a request
    or an error is complete and leaves the rest; here it returns the parser,
    its outcome and the rest of the input. *)

From S2P Require Import Prelude Decimals Utf8 ChainedBytes.

(* [crates/pop3/src/protocol/mod.rs:60-74] Mechanism *)
Inductive Mechanism :=
| Plain | CramMd5 | DigestMd5 | ScramSha1 | ScramSha256 | MApop | Ntlm | Gssapi | Anonymous
| External | OAuthBearer | XOauth2.

(* [crates/pop3/src/protocol/mod.rs:10-58] Command *)
Inductive Command (T M : Type) :=
| User (name : T)
| Pass (string : T)
| Apop (name digest : T)
| Quit
| Stat
| List_ (msg : option Z)
| Retr (msg : Z)
| Dele (msg : Z)
| DeleMany (msgs : list Z)
| Noop
| Rset
| Top (msg n : Z)
| Uidl (msg : option Z)
| Capa
| Stls
| Utf8_
| Auth (mechanism : M) (params : list T).
Arguments User {T M}. Arguments Pass {T M}. Arguments Apop {T M}. Arguments Quit {T M}.
Arguments Stat {T M}. Arguments List_ {T M}. Arguments Retr {T M}. Arguments Dele {T M}.
Arguments DeleMany {T M}. Arguments Noop {T M}. Arguments Rset {T M}. Arguments Top {T M}.
Arguments Uidl {T M}. Arguments Capa {T M}. Arguments Stls {T M}. Arguments Utf8_ {T M}.
Arguments Auth {T M}.

(** A request as it is read, and as it is returned. *)
Definition Partial : Type := Command (list Z) (list Z).
Definition Request : Type := Command (list Z) Mechanism.

Inductive Reason :=
| InvalidCommand | TooManyArguments | MissingArguments | InvalidUtf8 | InvalidDigit | OutOfRange
| UnsupportedMechanism (value : list Z).

(* [crates/pop3/src/protocol/request.rs:12-15] Error *)
Inductive Error := NeedsMoreData | Parse (r : Reason).

(** The buffer of a command holds the bytes read; the Rust array is padded
    with zeros. *)
(* [crates/pop3/src/protocol/request.rs:18-33] State *)
Inductive State :=
| Init
| InCommand (buf : list Z)
| Argument (request : Partial) (num : Z) (last_is_space : bool)
| InError (reason : Reason).

(* [crates/pop3/src/protocol/request.rs:40-40] MAX_ARG_LEN *)
Definition MAX_ARG_LEN : Z := 256.

(* [crates/pop3/src/protocol/request.rs:287-321] Mechanism::parse *)
Definition mechanism_parse (value : list Z) : result Mechanism Error :=
  let same x := eq_ignore_ascii_case value x in
  if same s#"PLAIN" then Ok Plain
  else if same s#"CRAM-MD5" then Ok CramMd5
  else if same s#"DIGEST-MD5" then Ok DigestMd5
  else if same s#"SCRAM-SHA-1" then Ok ScramSha1
  else if same s#"SCRAM-SHA-256" then Ok ScramSha256
  else if same s#"APOP" then Ok MApop
  else if same s#"NTLM" then Ok Ntlm
  else if same s#"GSSAPI" then Ok Gssapi
  else if same s#"ANONYMOUS" then Ok Anonymous
  else if same s#"EXTERNAL" then Ok External
  else if same s#"OAUTHBEARER" then Ok OAuthBearer
  else if same s#"XOAUTH2" then Ok XOauth2
  else Err (Parse (UnsupportedMechanism value)).

(** The verbs; [top] is padded. *)
(* [crates/pop3/src/protocol/request.rs:151-177] Command::parse *)
Definition command_parse (buf : list Z) : result Partial Reason :=
  let same x := bytes_eqb buf x in
  if same s#"user" then Ok (User [])
  else if same s#"uidl" then Ok (Uidl None)
  else if same s#"utf8" then Ok Utf8_
  else if same s#"pass" then Ok (Pass [])
  else if same s#"apop" then Ok (Apop [] [])
  else if same s#"auth" then Ok (Auth [] [])
  else if same s#"quit" then Ok Quit
  else if same s#"list" then Ok (List_ None)
  else if same s#"retr" then Ok (Retr 0)
  else if same s#"rset" then Ok Rset
  else if same s#"dele" then Ok (Dele 0)
  else if same s#"noop" then Ok Noop
  else if same s#"top" then Ok (Top 0 0)
  else if same s#"capa" then Ok Capa
  else if same s#"stls" then Ok Stls
  else if same s#"stat" then Ok Stat
  else Err InvalidCommand.

(* [crates/pop3/src/protocol/request.rs:274-284] add_digit *)
Definition add_digit (num byte : Z) : result Z Reason :=
  if is_ascii_digit byte then
    let n := num * 10 + (byte - 48) in if n <=? u32_max then Ok n else Err OutOfRange
  else Err InvalidDigit.

Definition short (s : list Z) (max : Z) : bool := Z.of_nat (length s) <? max.
Definition sum_lengths (l : list (list Z)) : Z := fold_right (fun p a => Z.of_nat (length p) + a) 0 l.

(** Append a byte to the last parameter. *)
Fixpoint push_last (l : list (list Z)) (byte : Z) : list (list Z) :=
  match l with
  | [] => []
  | [p] => [p ++ [byte]]
  | p :: l => p :: push_last l byte
  end.

(** The [unwrap] of the last parameter is of a non-empty list, because a
    second argument pushes one. *)
(* [crates/pop3/src/protocol/request.rs:179-227] Command::update_argument *)
Definition update_argument (c : Partial) (arg_num byte : Z) : result Partial Reason :=
  match c with
  | User name =>
      if (arg_num =? 1) && short name MAX_ARG_LEN then Ok (User (name ++ [byte])) else Err TooManyArguments
  | Pass string =>
      if (arg_num =? 1) && short string MAX_ARG_LEN then Ok (Pass (string ++ [byte])) else Err TooManyArguments
  | Apop name digest =>
      if (arg_num <=? 2) && short name MAX_ARG_LEN && short digest MAX_ARG_LEN then
        Ok (if arg_num =? 1 then Apop (name ++ [byte]) digest else Apop name (digest ++ [byte]))
      else Err TooManyArguments
  | List_ msg =>
      if arg_num =? 1 then (let? n := add_digit (default 0 msg) byte in Ok (List_ (Some n)))%result
      else Err TooManyArguments
  | Retr msg =>
      if arg_num =? 1 then (let? n := add_digit msg byte in Ok (Retr n))%result else Err TooManyArguments
  | Dele msg =>
      if arg_num =? 1 then (let? n := add_digit msg byte in Ok (Dele n))%result else Err TooManyArguments
  | Top msg n =>
      if arg_num <=? 2 then
        if arg_num =? 1 then (let? m := add_digit msg byte in Ok (Top m n))%result
        else (let? m := add_digit n byte in Ok (Top msg m))%result
      else Err TooManyArguments
  | Uidl msg =>
      if arg_num =? 1 then (let? n := add_digit (default 0 msg) byte in Ok (Uidl (Some n)))%result
      else Err TooManyArguments
  | Auth mechanism params =>
      if (arg_num <=? 4) && short mechanism 64 && (sum_lengths params <? MAX_ARG_LEN * 4) then
        if arg_num =? 1 then Ok (Auth (mechanism ++ [byte]) params)
        else
          let params := if Z.of_nat (length params) <? arg_num - 1 then params ++ [[]] else params in
          Ok (Auth mechanism (push_last params byte))
      else Err TooManyArguments
  | _ => Err TooManyArguments
  end.

(* [crates/pop3/src/protocol/request.rs:269-271] into_string *)
Definition into_string (bytes : list Z) : result (list Z) Error :=
  if valid bytes then Ok bytes else Err (Parse InvalidUtf8).

Fixpoint into_strings (l : list (list Z)) : result (list (list Z)) Error :=
  match l with
  | [] => Ok []
  | p :: l => (let? p := into_string p in let? l := into_strings l in Ok (p :: l))%result
  end.

(* [crates/pop3/src/protocol/request.rs:229-265] Command::finalize *)
Definition finalize (c : Partial) (num_args : Z) : result Request Error :=
  let missing := Err (Parse MissingArguments) in
  (match c with
   | User name => if num_args =? 1 then let? name := into_string name in Ok (User name) else missing
   | Pass string => if num_args =? 1 then let? s := into_string string in Ok (Pass s) else missing
   | Apop name digest =>
       if num_args =? 2 then
         let? name := into_string name in let? digest := into_string digest in Ok (Apop name digest)
       else missing
   | Quit => Ok Quit
   | Stat => Ok Stat
   | List_ msg => Ok (List_ msg)
   | Retr msg => if num_args =? 1 then Ok (Retr msg) else missing
   | Dele msg => if num_args =? 1 then Ok (Dele msg) else missing
   | Noop => Ok Noop
   | Rset => Ok Rset
   | Top msg n => if num_args =? 2 then Ok (Top msg n) else missing
   | Uidl msg => Ok (Uidl msg)
   | Capa => Ok Capa
   | Stls => Ok Stls
   | Utf8_ => Ok Utf8_
   | Auth mechanism params =>
       if 1 <=? num_args then
         let? m := mechanism_parse mechanism in let? ps := into_strings params in Ok (Auth m ps)
       else missing
   | DeleMany _ => missing
   end)%result.

(** One byte: the next state, and the outcome that ends the call. *)
Definition Step : Type := State * option (result Request Error).

Definition lower (b : Z) : Z := Z.lor b 32.

(* [crates/pop3/src/protocol/request.rs:49-68] Parser::parse, before a command *)
Definition on_init (byte : Z) : Step :=
  if (byte =? 32) || (byte =? 9) || (byte =? 13) || (byte =? 10) then (Init, None)
  else if is_ascii_lowercase byte then (InCommand [byte], None)
  else if is_ascii_uppercase byte then (InCommand [lower byte], None)
  else (InError InvalidCommand, None).

(* [crates/pop3/src/protocol/request.rs:69-106] Parser::parse, in a command *)
Definition on_command (buf : list Z) (byte : Z) : Step :=
  let len := Z.of_nat (length buf) in
  let complete := (len =? 4) || (len =? 3) in
  if (is_ascii_lowercase byte || (byte =? c#"8")) && (len <? 4) then (InCommand (buf ++ [byte]), None)
  else if is_ascii_uppercase byte && (len <? 4) then (InCommand (buf ++ [lower byte]), None)
  else if ((byte =? 32) || (byte =? 9)) && complete then
    match command_parse buf with
    | Ok request => (Argument request 0 true, None)
    | Err err => (InError err, None)
    end
  else if byte =? 13 then (InCommand buf, None)
  else if (byte =? 10) && complete then
    (Init, Some (match command_parse buf with
                 | Ok request => finalize request 0
                 | Err err => Err (Parse err)
                 end))
  else (InError InvalidCommand, None).

(* [crates/pop3/src/protocol/request.rs:107-135] Parser::parse, in the arguments *)
Definition on_argument (request : Partial) (num : Z) (last_is_space : bool) (byte : Z) : Step :=
  if (byte =? 32) || (byte =? 9) then (Argument request num true, None)
  else if byte =? 13 then (Argument request num last_is_space, None)
  else if byte =? 10 then (Init, Some (finalize request num))
  else
    let num := if last_is_space then num + 1 else num in
    match update_argument request num byte with
    | Ok request => (Argument request num false, None)
    | Err err => (InError err, None)
    end.

(* [crates/pop3/src/protocol/request.rs:136-142] Parser::parse, after an error *)
Definition on_error (reason : Reason) (byte : Z) : Step :=
  if byte =? 10 then (Init, Some (Err (Parse reason))) else (InError reason, None).

Definition step (st : State) (byte : Z) : Step :=
  match st with
  | Init => on_init byte
  | InCommand buf => on_command buf byte
  | Argument request num sp => on_argument request num sp byte
  | InError reason => on_error reason byte
  end.

(* [crates/pop3/src/protocol/request.rs:43-147] Parser::parse *)
Fixpoint parse (st : State) (bytes : list Z) : State * result Request Error * list Z :=
  match bytes with
  | [] => (st, Err NeedsMoreData, [])
  | byte :: bytes =>
      match step st byte with
      | (st, Some r) => (st, r, bytes)
      | (st, None) => parse st bytes
      end
  end.

(** The caller's loop: every outcome up to the one that asks for more. *)
Fixpoint outcomes (st : State) (bytes : list Z) : State * list (result Request Error) :=
  match bytes with
  | [] => (st, [])
  | byte :: bytes =>
      match step st byte with
      | (st, Some r) => let '(st, l) := outcomes st bytes in (st, r :: l)
      | (st, None) => outcomes st bytes
      end
  end.

(** ** Responses *)

(* [crates/pop3/src/protocol/response.rs:131-146] Mechanism::as_str *)
Definition as_str (m : Mechanism) : list Z :=
  match m with
  | Plain => s#"PLAIN" | CramMd5 => s#"CRAM-MD5" | DigestMd5 => s#"DIGEST-MD5"
  | ScramSha1 => s#"SCRAM-SHA-1" | ScramSha256 => s#"SCRAM-SHA-256" | MApop => s#"APOP"
  | Ntlm => s#"NTLM" | Gssapi => s#"GSSAPI" | Anonymous => s#"ANONYMOUS" | External => s#"EXTERNAL"
  | OAuthBearer => s#"OAUTHBEARER" | XOauth2 => s#"XOAUTH2"
  end.

Definition crlf : list Z := [13; 10].

(* [crates/pop3/src/protocol/response.rs:11-23] Response *)
Inductive Response (T : Type) :=
| ROk (message : list Z)
| RErr (message : list Z)
| RList (octets : list T)
| RMessage (bytes : SliceRange) (lines : Z)
| RCapability (mechanisms : list Mechanism) (stls : bool).
Arguments ROk {T}. Arguments RErr {T}. Arguments RList {T}. Arguments RMessage {T}.
Arguments RCapability {T}.

(** The transparency procedure: the bytes written and the last byte read. *)
(* [crates/pop3/src/protocol/response.rs:60-82] Response::serialize, the loop over a message *)
Fixpoint message_loop (lines line_count last_byte : Z) (bytes : list Z) : list Z * Z :=
  match bytes with
  | [] => ([], last_byte)
  | byte :: bytes =>
      let out :=
        (if (byte =? 10) && negb (last_byte =? 13) then [13] else []) ++
        (if (byte =? c#".") && (last_byte =? 10) then [c#"."] else []) ++ [byte] in
      if (0 <? lines) && (byte =? 10) && (line_count + 1 =? lines) then (out, byte)
      else
        let '(more, last) :=
          message_loop lines (if (0 <? lines) && (byte =? 10) then line_count + 1 else line_count) byte bytes in
        (out ++ more, last)
  end.

Definition message_body (lines : Z) (bytes : list Z) : list Z :=
  let '(out, last) := message_loop lines 0 0 bytes in
  out ++ (if negb (last =? 10) then crlf else []) ++ s#"." ++ crlf.

Fixpoint numbered {T} (display : T -> list Z) (num : Z) (l : list T) : list Z :=
  match l with
  | [] => []
  | octet :: l => print_decimal (num + 1) ++ s#" " ++ display octet ++ crlf ++ numbered display (num + 1) l
  end.

Definition is_plain (m : Mechanism) : bool := match m with Plain => true | _ => false end.

(* [crates/pop3/src/protocol/response.rs:26-127] Response::serialize *)
Definition serialize {T} (display : T -> list Z) (r : Response T) : list Z :=
  match r with
  | ROk message => s#"+OK " ++ message ++ crlf
  | RErr message => s#"-ERR " ++ message ++ crlf
  | RList octets =>
      s#"+OK " ++ print_decimal (Z.of_nat (length octets)) ++ s#" messages" ++ crlf ++
      numbered display 0 octets ++ s#"." ++ crlf
  | RMessage bytes lines =>
      s#"+OK " ++ print_decimal (Z.of_nat (slice_len bytes)) ++ s#" octets" ++ crlf ++
      message_body lines (into_iter bytes)
  | RCapability mechanisms stls =>
      s#"+OK Capability list follows" ++ crlf ++
      (match mechanisms with
       | [] => []
       | _ => (if existsb is_plain mechanisms then s#"USER" ++ crlf else []) ++
              s#"SASL" ++ concat (map (fun m => s#" " ++ as_str m) mechanisms) ++ crlf
       end) ++
      (if stls then s#"STLS" ++ crlf else []) ++
      concat (map (fun c => c ++ crlf)
        [s#"TOP"; s#"RESP-CODES"; s#"PIPELINING"; s#"EXPIRE NEVER"; s#"UIDL"; s#"UTF8";
         s#"IMPLEMENTATION Stalwart Server"]) ++
      s#"." ++ crlf
  end.

(** The repository's test. *)
Example serialize_test :
  serialize (fun n : Z => print_decimal n)
    (RMessage (Split (s#"Subject: test" ++ crlf ++ crlf ++ s#"." ++ crlf)
                     (s#"test." ++ crlf ++ s#".test" ++ crlf ++ s#"a")) 0) =
  s#"+OK 35 octets" ++ crlf ++ s#"Subject: test" ++ crlf ++ crlf ++ s#".." ++ crlf ++ s#"test." ++ crlf ++
  s#"..test" ++ crlf ++ s#"a" ++ crlf ++ s#"." ++ crlf.
Proof. vm_compute. reflexivity. Qed.

(** ** Properties of responses *)

(** A client: the lines of a multi-line response up to the single dot, with
    the stuffed dots removed, and what follows. *)
Fixpoint read_body (start : bool) (s : list Z) : option (list Z * list Z) :=
  match s with
  | [] => None
  | c :: s1 =>
      if start && (c =? c#".") then
        match s1 with
        | a :: b :: rest => if (a =? 13) && (b =? 10) then Some ([], rest) else read_body false s1
        | _ => None
        end
      else
        match s1 with
        | d :: s2 =>
            if (c =? 13) && (d =? 10) then
              match read_body true s2 with Some (l, r) => Some (c :: d :: l, r) | None => None end
            else match read_body false s1 with Some (l, r) => Some (c :: l, r) | None => None end
        | [] => None
        end
  end.

(** The message with CRLF line ends. *)
Fixpoint canonical (last : Z) (bytes : list Z) : list Z :=
  match bytes with
  | [] => if last =? 10 then [] else crlf
  | b :: bytes => (if (b =? 10) && negb (last =? 13) then [13; 10] else [b]) ++ canonical b bytes
  end.

(** What the loop and the end write after the byte [last]. *)
Definition emitted (last : Z) (bytes : list Z) : list Z :=
  let '(out, l) := message_loop 0 0 last bytes in
  out ++ (if negb (l =? 10) then crlf else []) ++ s#"." ++ crlf.

Lemma emitted_cons last b bytes : emitted last (b :: bytes) =
  (if (b =? 10) && negb (last =? 13) then [13] else []) ++
  (if (b =? c#".") && (last =? 10) then [c#"."] else []) ++ b :: emitted b bytes.
Proof.
  unfold emitted. cbn [message_loop]. change (0 <? 0) with false. cbn [andb].
  destruct (message_loop 0 0 b bytes) as [out l]. by rewrite <- !app_assoc.
Qed.

Lemma read_plain b c d s : c <> 13 -> (b = true -> c <> c#".") ->
  read_body b (c :: d :: s) = match read_body false (d :: s) with Some (l, r) => Some (c :: l, r) | None => None end.
Proof.
  intros Hc Hb. cbn [read_body]. rewrite (proj2 (Z.eqb_neq c 13)) by done. cbn [andb].
  destruct b; [|done]. by rewrite (proj2 (Z.eqb_neq c 46)) by auto.
Qed.

Lemma read_newline b s :
  read_body b (13 :: 10 :: s) = match read_body true s with Some (l, r) => Some (13 :: 10 :: l, r) | None => None end.
Proof. cbn [read_body]. by rewrite andb_false_r. Qed.

Lemma read_cr b d s : d <> 10 ->
  read_body b (13 :: d :: s) = match read_body false (d :: s) with Some (l, r) => Some (13 :: l, r) | None => None end.
Proof.
  intros Hd. cbn [read_body]. rewrite andb_false_r. simpl (13 =? 13).
  by rewrite (proj2 (Z.eqb_neq d 10)) by done.
Qed.

Lemma emitted_nonempty last bytes : exists d s, emitted last bytes = d :: s.
Proof.
  destruct bytes as [|b bytes].
  - unfold emitted. simpl. destruct (last =? 10); simpl; eauto.
  - rewrite emitted_cons. destruct (_ && _); [simpl; eauto|]. destruct (_ && _); simpl; eauto.
Qed.

(** The client reads what is written after a byte; a carriage return is
    read together with what follows it. *)
Lemma read_emitted bytes : forall rest,
  (forall last b, last <> 13 -> (last = 10 -> b = true) ->
     (b = true -> last = 10 \/ hd 0 bytes <> c#".") ->
     read_body b (emitted last bytes ++ rest) = Some (canonical last bytes, rest)) /\
  (forall b, read_body b (13 :: emitted 13 bytes ++ rest) = Some (13 :: canonical 13 bytes, rest)).
Proof.
  induction bytes as [|c bytes IH]; intros rest.
  - split.
    + intros last b Hl Hb _. unfold emitted. cbn. destruct (Z.eqb_spec last 10) as [->|]; cbn.
      * by rewrite Hb.
      * by rewrite andb_false_r.
    + intros b. cbn. by rewrite andb_false_r.
  - destruct (IH rest) as [IHA IHB]. split.
    + intros last b Hl Hb Hd. rewrite emitted_cons. cbn [canonical].
      rewrite (proj2 (Z.eqb_neq last 13)) by done. cbn [negb]. rewrite andb_true_r.
      destruct (Z.eqb_spec c 10) as [->|H10].
      { cbn [andb app Z.eqb Pos.eqb]. rewrite read_newline, (IHA 10 true) by (done || by left). done. }
      destruct (Z.eq_dec c 13) as [->|H13]; [cbn [andb app Z.eqb Pos.eqb]; by rewrite IHB|].
      destruct (emitted_nonempty c bytes) as (d & s & E).
      assert (read_body false (emitted c bytes ++ rest) = Some (canonical c bytes, rest)) as Hrec
        by (by apply IHA).
      destruct (Z.eqb_spec c 46) as [->|Hdot]; cbn [andb app].
      * destruct (Z.eqb_spec last 10) as [->|Hl10].
        -- rewrite Hb by done. cbn [app].
           assert (read_body true (46 :: 46 :: emitted 46 bytes ++ rest) =
             read_body false (46 :: emitted 46 bytes ++ rest)) as -> by (rewrite E; reflexivity).
           rewrite E in Hrec |- *. cbn [app] in Hrec |- *. rewrite read_plain by done. by rewrite Hrec.
        -- cbn [app]. destruct b; [destruct (Hd eq_refl) as [?|Hne]; [done|by destruct Hne]|].
           rewrite E in Hrec |- *. cbn [app] in Hrec |- *. rewrite read_plain by done. by rewrite Hrec.
      * rewrite E in Hrec |- *. cbn [app] in Hrec |- *. rewrite read_plain by done. by rewrite Hrec.
    + intros b. rewrite emitted_cons. cbn [canonical Z.eqb Pos.eqb negb]. rewrite !andb_false_r. cbn [app].
      destruct (Z.eq_dec c 10) as [->|H10].
      { rewrite read_newline, (IHA 10 true) by (done || by left). done. }
      rewrite read_cr by done.
      destruct (Z.eq_dec c 13) as [->|H13]; [by rewrite IHB|].
      destruct (emitted_nonempty c bytes) as (d & s & E).
      assert (read_body false (emitted c bytes ++ rest) = Some (canonical c bytes, rest)) as Hrec
        by (by apply IHA).
      rewrite E in Hrec |- *. cbn [app] in Hrec |- *. rewrite read_plain by done. by rewrite Hrec.
Qed.

(** The status line of a response, and what follows it. *)
Fixpoint read_status (s : list Z) : option (list Z * list Z) :=
  match s with
  | a :: s1 =>
      match s1 with
      | b :: s2 => if (a =? 13) && (b =? 10) then Some ([], s2)
                   else match read_status s1 with Some (l, r) => Some (a :: l, r) | None => None end
      | [] => None
      end
  | [] => None
  end.

Lemma read_status_line l s : ~ In 13 l -> read_status (l ++ crlf ++ s) = Some (l, s).
Proof.
  induction l as [|a l IH]; intros H; [done|]. cbn [app read_status].
  rewrite IH by naive_solver. destruct l as [|b l]; cbn [app];
    rewrite (proj2 (Z.eqb_neq a 13)) by naive_solver; done.
Qed.

(** A client reads back the message of a RETR response whole: after the
    status line the lines up to the single dot, with the stuffed dots
    removed, are the message with CRLF line ends, and what follows the
    response is left; provided the message does not start with a dot. *)
Theorem message_transparency (display : Z -> list Z) bytes rest :
  hd 0 (into_iter bytes) <> c#"." ->
  exists status, read_status (serialize display (RMessage bytes 0) ++ rest) =
      Some (status, message_body 0 (into_iter bytes) ++ rest) /\
    read_body true (message_body 0 (into_iter bytes) ++ rest) =
      Some (canonical 0 (into_iter bytes), rest).
Proof.
  intros Hd. exists (s#"+OK " ++ print_decimal (Z.of_nat (slice_len bytes)) ++ s#" octets"). split.
  - cbn [serialize]. rewrite <- read_status_line.
    + f_equal. by rewrite <- !app_assoc.
    + rewrite !in_app_iff. intros [H|[H|H]]; [simpl in H; lia| |simpl in H; lia].
      pose proof (print_decimal_digits (Z.of_nat (slice_len bytes)) ltac:(lia)) as Hdig.
      unfold digits in Hdig. rewrite Forall_forall in Hdig. specialize (Hdig _ H). done.
  - change (message_body 0 (into_iter bytes)) with (emitted 0 (into_iter bytes)).
    apply read_emitted; [done|done|]. intros _. by right.
Qed.

Example message_transparency_witness :
  exists status, read_status (serialize print_decimal (RMessage (Single (s#"a" ++ crlf ++ s#".b")) 0) ++ [1]) =
      Some (status, message_body 0 (s#"a" ++ crlf ++ s#".b") ++ [1]) /\
    read_body true (message_body 0 (s#"a" ++ crlf ++ s#".b") ++ [1]) =
      Some (canonical 0 (s#"a" ++ crlf ++ s#".b"), [1]).
Proof. apply (message_transparency print_decimal (Single (s#"a" ++ crlf ++ s#".b")) [1]). discriminate. Defined.

(** A message that starts with a dot is not stuffed there: the client takes
    the first line for the end, and the rest for the next response. *)
Lemma leading_dot_ends :
  read_body true (message_body 0 (s#"." ++ crlf ++ s#"+OK forged" ++ crlf)) =
    Some ([], s#"+OK forged" ++ crlf ++ s#"." ++ crlf).
Proof. reflexivity. Qed.

(** [TOP] counts the header lines too, and a count of 0 sends the whole
    message. *)
Lemma top_counts_headers :
  message_body 1 (s#"A: b" ++ crlf ++ s#"C: d" ++ crlf ++ crlf ++ s#"body" ++ crlf) =
    s#"A: b" ++ crlf ++ s#"." ++ crlf /\
  message_body 0 (s#"A: b" ++ crlf ++ crlf ++ s#"body" ++ crlf) =
    s#"A: b" ++ crlf ++ crlf ++ s#"body" ++ crlf ++ s#"." ++ crlf.
Proof. split; reflexivity. Qed.

(** ** Properties of the request parser *)

(** The bytes take the machine from one state to another without an
    outcome. *)
Fixpoint feeds (st : State) (bytes : list Z) (st' : State) : Prop :=
  match bytes with
  | [] => st = st'
  | b :: bytes => exists mid, step st b = (mid, None) /\ feeds mid bytes st'
  end.

Lemma feeds_outcomes bytes rest st st' : feeds st bytes st' -> outcomes st (bytes ++ rest) = outcomes st' rest.
Proof.
  revert st. induction bytes as [|b bytes IH]; intros st; cbn [feeds app outcomes]; [by intros ->|].
  intros (mid & E & H). rewrite E. by apply IH.
Qed.

Lemma pop3_feeds_app a b st mid st' : feeds st a mid -> feeds mid b st' -> feeds st (a ++ b) st'.
Proof.
  revert st. induction a as [|x a IH]; intros st; cbn [feeds app]; [by intros ->|].
  intros (m & E & H) Hb. exists m. split; [done|]. by apply IH.
Qed.

(** *** What the parser keeps is bounded *)

Definition in_u32 (n : Z) : Prop := 0 <= n <= u32_max.

Definition partial_ok (c : Partial) : Prop :=
  match c with
  | User s | Pass s => Z.of_nat (length s) <= MAX_ARG_LEN
  | Apop a b => Z.of_nat (length a) <= MAX_ARG_LEN /\ Z.of_nat (length b) <= MAX_ARG_LEN
  | List_ n | Uidl n => in_u32 (default 0 n)
  | Retr n | Dele n => in_u32 n
  | Top a b => in_u32 a /\ in_u32 b
  | Auth m ps => Z.of_nat (length m) <= 64 /\ sum_lengths ps <= MAX_ARG_LEN * 4 /\ (length ps <= 3)%nat
  | DeleMany _ => False
  | _ => True
  end.

Definition state_ok (st : State) : Prop :=
  match st with
  | InCommand buf => (length buf <= 4)%nat
  | Argument c num sp =>
      partial_ok c /\ 0 <= num /\ (sp = false -> 1 <= num) /\
      (match c with Auth _ ps => Z.of_nat (length ps) <= Z.max 0 (num - 1) | _ => True end)
  | _ => True
  end.

Lemma add_digit_ok n b m : in_u32 n -> add_digit n b = Ok m -> in_u32 m.
Proof.
  unfold add_digit, in_u32, is_ascii_digit. intros Hn H.
  destruct (_ && _) eqn:E; [|done]. bool_to_prop. destruct (_ <=? u32_max) eqn:E'; [|done].
  apply Z.leb_le in E'. simplify_eq. lia.
Qed.

Lemma push_last_sum l b : (0 < length l)%nat ->
  sum_lengths (push_last l b) = sum_lengths l + 1 /\ length (push_last l b) = length l.
Proof.
  induction l as [|p [|q l] IH]; cbn [length]; [lia| |].
  - intros _. cbn. rewrite length_app. cbn. lia.
  - intros _. destruct IH as [IH1 IH2]; [cbn; lia|].
    change (push_last (p :: q :: l) b) with (p :: push_last (q :: l) b).
    unfold sum_lengths in *. cbn [fold_right] in *. cbn [length] in *. lia.
Qed.

Lemma sum_lengths_app a b : sum_lengths (a ++ b) = sum_lengths a + sum_lengths b.
Proof. unfold sum_lengths. induction a; cbn [app fold_right]; lia. Qed.

Lemma short_spec s n : short s n = true <-> Z.of_nat (length s) < n.
Proof. unfold short. apply Z.ltb_lt. Qed.

Lemma update_ok c num b c' : 0 < num -> partial_ok c ->
  (match c with Auth _ ps => Z.of_nat (length ps) <= num - 1 | _ => True end) ->
  update_argument c num b = Ok c' ->
  partial_ok c' /\ (match c' with Auth _ ps => Z.of_nat (length ps) <= num - 1 | _ => True end).
Proof.
  assert (forall s (x : Z), length (s ++ [x]) = S (length s)) as Hl by (intros; rewrite length_app; simpl; lia).
  intros Hnum Hc Hps H. destruct c; cbn [update_argument] in H; try done;
    repeat (case_if_in H; try discriminate); rewrite ?short_spec in *; simplify_eq;
    try (split; [|done]; cbn [partial_ok] in *; rewrite ?Hl; lia);
    try (destruct (add_digit _ b) as [n'|] eqn:Ed; [|done]; cbn [rbind] in H; simplify_eq;
         split; [|done]; cbn [partial_ok] in *; intuition eauto using add_digit_ok).
  all: cbn [partial_ok] in *; destruct Hc as (Hm & Hs & Hn).
  - destruct (push_last_sum (params ++ [[]]) b) as [Q5 Q6]; rewrite length_app in *; cbn [length] in *; [lia|].
    rewrite Q5, Q6, sum_lengths_app. cbn. lia.
  - destruct (push_last_sum params b) as [Q5 Q6]; [lia|]. rewrite Q5, Q6. lia.
Qed.

Lemma step_state_ok st b : state_ok st -> state_ok (fst (step st b)).
Proof.
  destruct st as [|buf|c num sp|r]; cbn [step]; intros H.
  - unfold on_init. repeat case_if; cbn; lia.
  - unfold on_command. repeat case_if; cbn [fst state_ok] in *; rewrite ?length_app; cbn [length]; try done; try lia.
    destruct (command_parse buf) as [c|] eqn:Ec; [|done].
    unfold command_parse in Ec.
    repeat (case_if_in Ec; [simplify_eq; cbn; unfold in_u32, u32_max, MAX_ARG_LEN; lia|]). done.
  - destruct H as (H1 & H2 & H4 & H3). unfold on_argument.
    repeat (case_if; [cbn; by repeat split|]).
    set (num' := if sp then num + 1 else num).
    assert (0 < num' /\ num <= num' /\ Z.max 0 (num - 1) <= num' - 1) as (Hn & Hn' & Hm)
      by (unfold num'; destruct sp; [lia|specialize (H4 eq_refl); lia]).
    destruct (update_argument c num' b) as [c'|] eqn:Eu; [|done]. cbn [fst state_ok].
    apply update_ok in Eu as [E1 E2]; [|done|done|destruct c; try done; lia].
    split_and!; [done|lia|lia|]. destruct c'; try done. lia.
  - unfold on_error. by case_if.
Qed.

(** *** Requests read back *)

Definition verb (r : Request) : list Z :=
  match r with
  | User _ => s#"user" | Pass _ => s#"pass" | Apop _ _ => s#"apop" | Quit => s#"quit" | Stat => s#"stat"
  | List_ _ => s#"list" | Retr _ => s#"retr" | Dele _ => s#"dele" | DeleMany _ => s#"dele"
  | Noop => s#"noop" | Rset => s#"rset" | Top _ _ => s#"top" | Uidl _ => s#"uidl" | Capa => s#"capa"
  | Stls => s#"stls" | Utf8_ => s#"utf8" | Auth _ _ => s#"auth"
  end.

Definition optional (n : option Z) : list (list Z) := match n with Some n => [print_decimal n] | None => [] end.

Definition args (r : Request) : list (list Z) :=
  match r with
  | User s | Pass s => [s]
  | Apop a b => [a; b]
  | List_ n | Uidl n => optional n
  | Retr n | Dele n => [print_decimal n]
  | Top a b => [print_decimal a; print_decimal b]
  | Auth m ps => as_str m :: ps
  | _ => []
  end.

(** Arguments that the line can carry: not empty, without white space, valid
    and within the limits; an APOP name must leave room for the digest. *)
Definition blank (b : Z) : bool := (b =? 32) || (b =? 9) || (b =? 13) || (b =? 10).
Definition arg_ok (max : Z) (a : list Z) : Prop :=
  a <> [] /\ Forall (fun b => blank b = false) a /\ Z.of_nat (length a) <= max /\ valid a = true.

Definition request_ok (r : Request) : Prop :=
  match r with
  | User s | Pass s => arg_ok MAX_ARG_LEN s
  | Apop a b => arg_ok (MAX_ARG_LEN - 1) a /\ arg_ok MAX_ARG_LEN b
  | List_ n | Uidl n => in_u32 (default 0 n)
  | Retr n | Dele n => in_u32 n
  | Top a b => in_u32 a /\ in_u32 b
  | Auth _ ps => Forall (arg_ok (MAX_ARG_LEN * 4)) ps /\ sum_lengths ps <= MAX_ARG_LEN * 4 /\ (length ps <= 3)%nat
  | DeleMany _ => False
  | _ => True
  end.

(** A line: the verb in any case, and the arguments after single spaces. *)
Definition spaced (l : list (list Z)) : list Z := concat (map (cons 32) l).
Definition line_of (r : Request) (line : list Z) : Prop :=
  exists v, map to_ascii_lowercase v = verb r /\ line = v ++ spaced (args r) ++ crlf.

Fixpoint update_all (c : Partial) (num : Z) (a : list Z) : result Partial Reason :=
  match a with
  | [] => Ok c
  | b :: a => (let? c := update_argument c num b in update_all c num a)%result
  end.

Fixpoint update_args (c : Partial) (num : Z) (l : list (list Z)) : result Partial Reason :=
  match l with
  | [] => Ok c
  | a :: l => (let? c := update_all c (num + 1) a in update_args c (num + 1) l)%result
  end.

Lemma on_argument_byte c num sp b c' : blank b = false ->
  update_argument c (if sp : bool then num + 1 else num) b = Ok c' ->
  step (Argument c num sp) b = (Argument c' (if sp then num + 1 else num) false, None).
Proof.
  unfold blank. intros Hb H. cbn [step]. unfold on_argument.
  repeat (case_if; [exfalso; lia|]). by rewrite H.
Qed.

Lemma feeds_word a : forall c num c', Forall (fun b => blank b = false) a ->
  update_all c num a = Ok c' -> feeds (Argument c num false) a (Argument c' num false).
Proof.
  induction a as [|b a IH]; intros c num c' Ha H; cbn [update_all] in H; [by simplify_eq|].
  apply Forall_cons_1 in Ha as [Hb Ha].
  destruct (update_argument c num b) as [c1|] eqn:E; [|done]. cbn [rbind] in H.
  exists (Argument c1 num false). split; [by apply (on_argument_byte c num false)|]. by apply IH.
Qed.

Lemma feeds_arg a c num c' : a <> [] -> Forall (fun b => blank b = false) a ->
  update_all c (num + 1) a = Ok c' -> feeds (Argument c num true) a (Argument c' (num + 1) false).
Proof.
  destruct a as [|b a]; [done|]. intros _ Ha H. apply Forall_cons_1 in Ha as [Hb Ha]. cbn [update_all] in H.
  destruct (update_argument c (num + 1) b) as [c1|] eqn:E; [|done]. cbn [rbind] in H.
  exists (Argument c1 (num + 1) false). split; [by apply (on_argument_byte c num true)|]. by apply feeds_word.
Qed.

Definition word (a : list Z) : Prop := a <> [] /\ Forall (fun b => blank b = false) a.

Lemma feeds_args l : forall c num c', Forall word l ->
  update_args c num l = Ok c' ->
  feeds (Argument c num false) (spaced l) (Argument c' (num + Z.of_nat (length l)) false).
Proof.
  induction l as [|a l IH]; intros c num c' Hl H; cbn [update_args] in H.
  - simplify_eq. cbn. by rewrite Z.add_0_r.
  - apply Forall_cons_1 in Hl as [[Hne Ha] Hl].
    destruct (update_all c (num + 1) a) as [c1|] eqn:E; [|done]. cbn [rbind] in H.
    change (spaced (a :: l)) with ((32 :: a) ++ spaced l).
    apply (pop3_feeds_app _ _ _ (Argument c1 (num + 1) false)).
    + exists (Argument c num true). split; [done|]. by apply feeds_arg.
    + replace (num + Z.of_nat (length (a :: l))) with (num + 1 + Z.of_nat (length l)) by (cbn [length]; lia).
      by apply IH.
Qed.

(** The first argument follows the verb. *)
Lemma feeds_line_args l c c' buf : l <> [] -> Forall word l -> (length buf = 3 \/ length buf = 4)%nat ->
  command_parse buf = Ok c -> update_args c 0 l = Ok c' ->
  feeds (InCommand buf) (spaced l) (Argument c' (Z.of_nat (length l)) false).
Proof.
  intros Hne Hl Hlen Hc H. destruct l as [|a l]; [done|]. apply Forall_cons_1 in Hl as [[Ha1 Ha2] Hl].
  cbn [update_args] in H. destruct (update_all c (0 + 1) a) as [c1|] eqn:E; [|done]. cbn [rbind] in H.
  change (spaced (a :: l)) with (32 :: a ++ spaced l). exists (Argument c 0 true). split.
  - cbn [step]. unfold on_command.
    assert ((Z.of_nat (length buf) =? 4) || (Z.of_nat (length buf) =? 3) = true) as -> by lia.
    cbn. by rewrite Hc.
  - apply (pop3_feeds_app _ _ _ (Argument c1 1 false)); [by apply (feeds_arg a c 0)|].
    replace (Z.of_nat (length (a :: l))) with (1 + Z.of_nat (length l)) by (cbn [length]; lia).
    by apply feeds_args.
Qed.

(** *** The verb, in any case *)

Definition verb_char (b : Z) : bool := is_ascii_lowercase b || (b =? c#"8").

Lemma lower_uppercase b : is_ascii_uppercase b = true -> lower b = to_ascii_lowercase b.
Proof.
  intros H. assert (in_width 8 b) as Hb by (unfold is_ascii_uppercase in H; unfold in_width; lia).
  assert (negb (is_ascii_uppercase b) || (lower b =? to_ascii_lowercase b) = true) as Hl.
  { apply (byte_forall (fun b => negb (is_ascii_uppercase b) || (lower b =? to_ascii_lowercase b)));
      [by vm_compute|done]. }
  rewrite H in Hl. by apply Z.eqb_eq.
Qed.

(** A byte whose lower case is a letter of a verb is one of the two cases. *)
Lemma verb_byte b : verb_char (to_ascii_lowercase b) = true ->
  (is_ascii_lowercase b || (b =? c#"8") = true /\ to_ascii_lowercase b = b) \/
  (is_ascii_lowercase b || (b =? c#"8") = false /\ is_ascii_uppercase b = true).
Proof.
  unfold verb_char, to_ascii_lowercase, is_ascii_lowercase, is_ascii_uppercase. intros H.
  destruct ((65 <=? b) && (b <=? 90)) eqn:E; bool_to_prop.
  - right. split; [lia|done].
  - left. done.
Qed.

Lemma feeds_letters v : forall buf,
  Forall (fun b => verb_char (to_ascii_lowercase b) = true) v -> (length buf + length v <= 4)%nat ->
  feeds (InCommand buf) v (InCommand (buf ++ map to_ascii_lowercase v)).
Proof.
  induction v as [|b v IH]; intros buf Hv Hl; [cbn; by rewrite app_nil_r|].
  apply Forall_cons_1 in Hv as [Hb Hv]. cbn [length] in Hl. cbn [map].
  exists (InCommand (buf ++ [to_ascii_lowercase b])). split.
  - cbn [step]. unfold on_command.
    assert ((Z.of_nat (length buf) <? 4) = true) as -> by lia.
    destruct (verb_byte b Hb) as [[-> E]|[-> Hu]]; [by rewrite E|].
    cbn [andb]. by rewrite Hu, lower_uppercase.
  - replace (buf ++ to_ascii_lowercase b :: map to_ascii_lowercase v)
      with ((buf ++ [to_ascii_lowercase b]) ++ map to_ascii_lowercase v) by (by rewrite <- app_assoc).
    apply IH; [done|]. rewrite length_app. cbn [length]. lia.
Qed.

Lemma verb_facts r : Forall (fun b => verb_char b = true) (verb r) /\
  (length (verb r) = 3 \/ length (verb r) = 4)%nat /\
  match verb r with b :: _ => is_ascii_lowercase b = true | [] => False end.
Proof.
  destruct r; (split; [repeat constructor|split; [cbn; lia|reflexivity]]).
Qed.

Lemma feeds_verb r v : map to_ascii_lowercase v = verb r -> feeds Init v (InCommand (verb r)).
Proof.
  intros E. destruct (verb_facts r) as (Hv & Hl & Hh). rewrite <- E in Hv, Hl, Hh |- *.
  rewrite length_map in Hl. rewrite Forall_map in Hv. destruct v as [|b v]; [done|].
  cbn [map] in Hh |- *. apply Forall_cons_1 in Hv as [_ Hv]. cbn [length] in Hl.
  exists (InCommand [to_ascii_lowercase b]). split.
  - cbn [step]. unfold on_init.
    assert (((b =? 32) || (b =? 9) || (b =? 13) || (b =? 10)) = false) as ->.
    { unfold to_ascii_lowercase, is_ascii_lowercase, is_ascii_uppercase in Hh. case_if_in Hh; lia. }
    destruct (is_ascii_lowercase b) eqn:El.
    + unfold to_ascii_lowercase.
      by assert (is_ascii_uppercase b = false) as -> by
        (unfold is_ascii_lowercase in El; unfold is_ascii_uppercase; lia).
    + assert (is_ascii_uppercase b = true) as Hu.
      { unfold to_ascii_lowercase in Hh. destruct (is_ascii_uppercase b); [done|congruence]. }
      by rewrite Hu, lower_uppercase.
  - apply (feeds_letters v [to_ascii_lowercase b]); [done|cbn; lia].
Qed.

(** *** The arguments *)

Lemma update_all_bytes (f : list Z -> Partial) num max a : forall s,
  (forall s b, Z.of_nat (length s) < max -> update_argument (f s) num b = Ok (f (s ++ [b]))) ->
  Z.of_nat (length s + length a) <= max -> update_all (f s) num a = Ok (f (s ++ a)).
Proof.
  induction a as [|b a IH]; intros s Hf Hl; cbn [update_all]; [by rewrite app_nil_r|].
  cbn [length] in Hl. rewrite Hf by lia. cbn [rbind]. rewrite IH.
  - by rewrite <- app_assoc.
  - done.
  - rewrite length_app. cbn [length]. lia.
Qed.

Lemma update_all_digits (f : Z -> Partial) num ds : forall n v,
  (forall n b, update_argument (f n) num b = (let? m := add_digit n b in Ok (f m))%result) ->
  parse_digits n ds = Some v -> 0 <= n -> v <= u32_max -> update_all (f n) num ds = Ok (f v).
Proof.
  induction ds as [|b ds IH]; intros n v Hf Hp Hn Hv; cbn [parse_digits update_all] in *; [by simplify_eq|].
  rewrite Hf. unfold add_digit. destruct (is_ascii_digit b) eqn:Hb; [|done].
  apply is_digit_range in Hb.
  pose proof (parse_digits_nonneg _ _ _ Hp ltac:(lia)) as Hle.
  assert ((n * 10 + (b - 48) <=? u32_max) = true) as -> by lia. cbn [rbind]. apply IH; [done|done|lia|done].
Qed.

Lemma update_decimal (f : Z -> Partial) num n :
  (forall n b, update_argument (f n) num b = (let? m := add_digit n b in Ok (f m))%result) ->
  in_u32 n -> update_all (f 0) num (print_decimal n) = Ok (f n).
Proof.
  intros Hf [H1 H2]. apply update_all_digits; [done|by apply print_decimal_spec|lia|done].
Qed.

(** A first digit makes an absent number one. *)
Lemma update_absent (f : option Z -> Partial) n :
  (forall m b, update_argument (f m) 1 b = (let? m := add_digit (default 0 m) b in Ok (f (Some m)))%result) ->
  in_u32 n -> update_all (f None) 1 (print_decimal n) = Ok (f (Some n)).
Proof.
  intros Hf Hn. rewrite <- (update_decimal (fun n => f (Some n)) 1 n); [|by intros; rewrite Hf|done].
  destruct (print_decimal n) as [|b l] eqn:E; [by apply print_decimal_nonempty in E|].
  cbn [update_all]. by rewrite !Hf.
Qed.

Lemma push_last_app l p b : push_last (l ++ [p]) b = l ++ [p ++ [b]].
Proof.
  induction l as [|q l IH]; [done|]. cbn [app push_last]. rewrite IH. by destruct l.
Qed.

Lemma update_params m ps num b : num = Z.of_nat (length ps) + 2 -> num <= 4 ->
  Z.of_nat (length m) < 64 -> sum_lengths ps < MAX_ARG_LEN * 4 ->
  update_argument (Auth m ps) num b = Ok (Auth m (ps ++ [[b]])).
Proof.
  intros -> Hn Hm Hs. cbn [update_argument]. unfold short.
  rewrite (proj2 (Z.leb_le _ 4)), (proj2 (Z.ltb_lt (Z.of_nat (length m)) 64)),
    (proj2 (Z.ltb_lt (sum_lengths ps) _)) by lia. cbn [andb].
  rewrite (proj2 (Z.eqb_neq _ 1)), (proj2 (Z.ltb_lt (Z.of_nat (length ps)) _)) by lia.
  by rewrite push_last_app.
Qed.

Lemma update_last_param m ps p num b : num = Z.of_nat (length ps) + 2 -> num <= 4 ->
  Z.of_nat (length m) < 64 -> sum_lengths ps + Z.of_nat (length p) < MAX_ARG_LEN * 4 ->
  update_argument (Auth m (ps ++ [p])) num b = Ok (Auth m (ps ++ [p ++ [b]])).
Proof.
  intros -> Hn Hm Hs. cbn [update_argument]. unfold short.
  rewrite sum_lengths_app. cbn [sum_lengths fold_right].
  rewrite (proj2 (Z.leb_le _ 4)), (proj2 (Z.ltb_lt (Z.of_nat (length m)) 64)),
    (proj2 (Z.ltb_lt _ (MAX_ARG_LEN * 4))) by (unfold sum_lengths in *; cbn [fold_right]; lia).
  cbn [andb]. rewrite length_app. cbn [length].
  rewrite (proj2 (Z.eqb_neq _ 1)), (proj2 (Z.ltb_ge _ (_ - 1))) by lia. by rewrite push_last_app.
Qed.

Lemma update_auth m ps : forall done_, Forall (arg_ok (MAX_ARG_LEN * 4)) ps ->
  Z.of_nat (length m) < 64 -> sum_lengths (done_ ++ ps) <= MAX_ARG_LEN * 4 -> (length (done_ ++ ps) <= 3)%nat ->
  update_args (Auth m done_) (Z.of_nat (length done_) + 1) ps = Ok (Auth m (done_ ++ ps)).
Proof.
  induction ps as [|p ps IH]; intros done_ Hps Hm Hs Hl; cbn [update_args]; [by rewrite app_nil_r|].
  apply Forall_cons_1 in Hps as [(Hne & _) Hps].
  rewrite sum_lengths_app in Hs. cbn [sum_lengths fold_right] in Hs. rewrite length_app in Hl. cbn [length] in Hl.
  assert (0 <= fold_right (fun p a => Z.of_nat (length p) + a) 0 ps) as Hpos by (clear; induction ps; cbn [fold_right]; lia).
  destruct p as [|b p]; [done|]. cbn [length] in Hs. cbn [update_all].
  rewrite update_params by lia. cbn [rbind].
  rewrite (update_all_bytes (fun p => Auth m (done_ ++ [p])) _ (MAX_ARG_LEN * 4 - sum_lengths done_) p).
  - cbn [rbind app]. replace (Z.of_nat (length done_) + 1 + 1) with (Z.of_nat (length (done_ ++ [b :: p])) + 1)
      by (rewrite length_app; cbn; lia).
    rewrite IH; rewrite <- ?app_assoc; cbn [app]; [done|done|done| |].
    + rewrite sum_lengths_app. cbn [sum_lengths fold_right length]. lia.
    + rewrite length_app. cbn [length]. lia.
  - intros s x Hsx. apply update_last_param; lia.
  - cbn [length]. lia.
Qed.

Lemma into_string_ok a max : arg_ok max a -> into_string a = Ok a.
Proof. intros (_ & _ & _ & H). unfold into_string. by rewrite H. Qed.

Lemma into_strings_ok l max : Forall (arg_ok max) l -> into_strings l = Ok l.
Proof.
  induction 1 as [|a l Ha _ IH]; [done|]. cbn [into_strings].
  rewrite (into_string_ok _ _ Ha). cbn [rbind]. by rewrite IH.
Qed.

Lemma mechanism_names m : mechanism_parse (as_str m) = Ok m /\ Z.of_nat (length (as_str m)) < 64 /\
  Forall (fun b => blank b = false) (as_str m) /\ as_str m <> [].
Proof. destruct m; (split; [reflexivity|split; [cbn; lia|split; [repeat constructor|done]]]). Qed.

Lemma numeral_word n : in_u32 n -> word (print_decimal n).
Proof.
  intros [Hn _]. split; [apply print_decimal_nonempty|].
  eapply List.Forall_impl; [|apply print_decimal_digits; done]. intros c Hc%is_digit_range. unfold blank. lia.
Qed.

Lemma arg_word max a : arg_ok max a -> word a.
Proof. intros (H1 & H2 & _). by split. Qed.

Lemma args_words r : request_ok r -> Forall word (args r).
Proof.
  destruct r; cbn [request_ok args]; intros H; repeat match goal with
    | H : _ /\ _ |- _ => destruct H | n : option Z |- _ => destruct n; cbn [optional default] in * end;
    repeat apply List.Forall_cons; eauto using arg_word, numeral_word; try apply List.Forall_nil.
  - split; apply mechanism_names.
  - eapply List.Forall_impl; [|done]. intros a. apply arg_word.
Qed.

Lemma update_word (f : list Z -> Partial) num a :
  (forall s b, Z.of_nat (length s) < MAX_ARG_LEN -> update_argument (f s) num b = Ok (f (s ++ [b]))) ->
  arg_ok MAX_ARG_LEN a -> update_all (f []) num a = Ok (f a).
Proof. intros Hf (_ & _ & Hl & _). by apply (update_all_bytes f num MAX_ARG_LEN a []). Qed.

Lemma short_true s max : Z.of_nat (length s) < max -> short s max = true.
Proof. apply short_spec. Qed.

(** The request that a verb starts is the one its arguments complete. *)
Lemma args_complete r : request_ok r -> exists c c',
  command_parse (verb r) = Ok c /\ update_args c 0 (args r) = Ok c' /\
  finalize c' (Z.of_nat (length (args r))) = Ok r.
Proof.
  destruct r; cbn [request_ok verb args]; intros H; try (exfalso; exact H); eexists.
  4, 5, 9, 10, 13, 14, 15: by eexists.
  - exists (User name). split; [done|]. cbn [update_args].
    rewrite (update_word User) by (done || intros s b Hs; cbn; by rewrite short_true). split; [done|].
    cbn. by rewrite (into_string_ok _ _ H).
  - exists (Pass string). split; [done|]. cbn [update_args].
    rewrite (update_word Pass) by (done || intros s b Hs; cbn; by rewrite short_true). split; [done|].
    cbn. by rewrite (into_string_ok _ _ H).
  - exists (Apop name digest). split; [done|]. destruct H as [H1 H2]. cbn [update_args].
    rewrite (update_word (fun s => Apop s [])).
    2: { intros s b Hs. cbn. by rewrite short_true. }
    2: { destruct H1 as (? & ? & ? & ?). repeat split; try done. unfold MAX_ARG_LEN in *. lia. }
    cbn [rbind]. rewrite (update_word (Apop name)); [|intros s b Hs; cbn|done].
    2: { rewrite !short_true; [done|done|]. destruct H1 as (_ & _ & ? & _). lia. }
    split; [done|]. cbn. by rewrite (into_string_ok _ _ H1), (into_string_ok _ _ H2).
  - exists (List_ msg). split; [done|]. destruct msg as [n|]; [|done]. cbn [optional update_args].
    by rewrite (update_absent List_).
  - exists (Retr msg). split; [done|]. cbn [update_args]. by rewrite (update_decimal Retr).
  - exists (Dele msg). split; [done|]. cbn [update_args]. by rewrite (update_decimal Dele).
  - exists (Top msg n). split; [done|]. destruct H as [H1 H2]. cbn [update_args].
    rewrite (update_decimal (fun m => Top m 0)) by done. cbn [rbind]. by rewrite (update_decimal (Top msg)).
  - exists (Uidl msg). split; [done|]. destruct msg as [n|]; [|done]. cbn [optional update_args].
    by rewrite (update_absent Uidl).
  - exists (Auth (as_str mechanism) params). split; [done|]. destruct H as (H1 & H2 & H3).
    destruct (mechanism_names mechanism) as (Hm & Hl & _). cbn [update_args].
    rewrite (update_all_bytes (fun s => Auth s []) (0 + 1) 64 (as_str mechanism) []).
    2: { intros s b Hs. cbn. by rewrite short_true. }
    2: { cbn [length]. lia. }
    cbn [rbind app]. pose proof (update_auth (as_str mechanism) params [] H1 Hl H2 H3) as Hu.
    cbn [length app] in Hu. split; [exact Hu|].
    cbn [finalize]. rewrite (proj2 (Z.leb_le 1 _)) by (cbn [length]; lia).
    by rewrite Hm; cbn [rbind]; rewrite (into_strings_ok _ _ H1).
Qed.

Lemma feeds_end_command r : feeds (InCommand (verb r)) [13] (InCommand (verb r)).
Proof. exists (InCommand (verb r)). by destruct r. Qed.

Lemma line_outcome r line rest : request_ok r -> line_of r line ->
  outcomes Init (line ++ rest) = (let '(st, l) := outcomes Init rest in (st, Ok r :: l)).
Proof.
  intros Hr (v & Ev & ->). destruct (args_complete r Hr) as (c & c' & Hc & Hu & Hf).
  rewrite <- !app_assoc, (feeds_outcomes v _ _ _ (feeds_verb r v Ev)).
  destruct (verb_facts r) as (_ & Hlen & _).
  destruct (decide (args r = [])) as [E|E].
  - rewrite E in *. change (spaced [] ++ crlf ++ rest) with ([13] ++ 10 :: rest).
    rewrite (feeds_outcomes [13] _ _ _ (feeds_end_command r)).
    cbn [outcomes update_args length] in *. simplify_eq. cbn [step].
    assert (on_command (verb r) 10 = (Init, Some (finalize c' 0))) as ->.
    { change (Z.of_nat 0) with 0 in Hf. unfold on_command. assert ((Z.of_nat (length (verb r)) =? 4) || (Z.of_nat (length (verb r)) =? 3) = true) as -> by lia.
      cbn. by rewrite Hc. }
    by change (Z.of_nat 0) with 0 in Hf; rewrite Hf.
  - rewrite (feeds_outcomes _ _ _ _ (feeds_line_args _ _ _ _ E (args_words r Hr) Hlen Hc Hu)).
    rewrite <- Hf. reflexivity.
Qed.

(** Requests sent in a pipeline are read back one by one: whatever the
    case of the verbs, a list of lines, each the verb and the arguments of a
    request within the limits, gives exactly these requests, in order, and
    the parser is ready for the next line. *)
Theorem requests_roundtrip (rs : list Request) (lines : list (list Z)) :
  Forall request_ok rs -> Forall2 line_of rs lines ->
  outcomes Init (concat lines) = (Init, map Ok rs).
Proof.
  intros Hr H. induction H as [|r line rs lines Hl _ IH]; [done|].
  apply Forall_cons_1 in Hr as [Hr Hrs]. cbn [concat map].
  by rewrite (line_outcome r line) by done; rewrite IH.
Qed.

Example requests_roundtrip_witness :
  outcomes Init (s#"UsEr me" ++ crlf ++ s#"top 2 30" ++ crlf ++ s#"AUTH PLAIN AGE=" ++ crlf) =
    (Init, [Ok (User s#"me"); Ok (Top 2 30); Ok (Auth Plain [s#"AGE="])]).
Proof.
  apply (requests_roundtrip [User s#"me"; Top 2 30; Auth Plain [s#"AGE="]]
    [s#"UsEr me" ++ crlf; s#"top 2 30" ++ crlf; s#"AUTH PLAIN AGE=" ++ crlf]).
  - assert (forall n, 0 <=? n = true -> n <=? u32_max = true -> in_u32 n) as Hn
      by (intros n H1 H2; bool_to_prop; by split).
    assert (arg_ok MAX_ARG_LEN s#"me" /\ arg_ok (MAX_ARG_LEN * 4) s#"AGE=") as [H1 H2]
      by (split; (split; [done|split; [repeat constructor|split; [by vm_compute|reflexivity]]])).
    apply List.Forall_cons; [exact H1|]. apply List.Forall_cons; [by split; apply Hn|].
    apply List.Forall_cons; [|apply List.Forall_nil].
    split; [by apply Forall_singleton|]. split; [by vm_compute|cbn; lia].
  - repeat constructor; [by exists (s#"UsEr")|by exists (s#"top")|by exists (s#"AUTH")].
Defined.

(** *** Every line has one outcome, errors included *)

(** What a line does: nothing while the parser waits for a verb, one outcome
    otherwise; a verb of one or two letters has none either. *)
Definition line_end (st : State) : State * list (result Request Error) :=
  match st with
  | Init => (Init, [])
  | InCommand buf =>
      if (Z.of_nat (length buf) =? 4) || (Z.of_nat (length buf) =? 3) then
        (Init, [match command_parse buf with Ok c => finalize c 0 | Err e => Err (Parse e) end])
      else (InError InvalidCommand, [])
  | Argument c num _ => (Init, [finalize c num])
  | InError e => (Init, [Err (Parse e)])
  end.

Lemma step_no_newline st b : b <> 10 -> exists st', step st b = (st', None).
Proof.
  intros Hb. destruct st; cbn [step]; unfold on_init, on_command, on_argument, on_error;
    rewrite ?(proj2 (Z.eqb_neq b 10)) by done; cbn [andb];
    repeat case_if; eauto; destruct (command_parse _) || destruct (update_argument _ _ _); eauto.
Qed.

Lemma feeds_no_newline l : forall st, ~ In 10 l -> exists st', feeds st l st'.
Proof.
  induction l as [|b l IH]; intros st H; [by exists st|].
  destruct (step_no_newline st b) as [mid Hm]; [naive_solver|].
  destruct (IH mid) as [st' Hs]; [naive_solver|]. by exists st', mid.
Qed.

Lemma feeds_state_ok l : forall st st', state_ok st -> feeds st l st' -> state_ok st'.
Proof.
  induction l as [|b l IH]; cbn [feeds]; intros st st' Hs; [by intros <-|].
  intros (mid & E & H). apply (IH mid); [|done]. apply (step_state_ok _ b) in Hs. by rewrite E in Hs.
Qed.

Lemma outcomes_newline st rest : outcomes st (10 :: rest) =
  (let '(st1, out) := line_end st in let '(st2, l) := outcomes st1 rest in (st2, out ++ l)).
Proof.
  destruct st as [|buf|c num sp|e]; cbn [outcomes step line_end].
  - change (on_init 10) with (Init, @None (result Request Error)). cbv iota. by destruct (outcomes _ _).
  - unfold on_command. change (is_ascii_lowercase 10 || (10 =? c#"8")) with false.
    change (is_ascii_uppercase 10) with false. cbn [andb orb Z.eqb Pos.eqb].
    destruct (_ || _); [done|]. by destruct (outcomes _ _).
  - by unfold on_argument.
  - done.
Qed.



(** A verb of one or two letters takes the following line into its error:
    the end of its own line is consumed without an outcome. *)
Lemma short_line_swallows :
  outcomes Init (s#"AB" ++ crlf ++ s#"NOOP" ++ crlf) = (Init, [Err (Parse InvalidCommand)]).
Proof. reflexivity. Qed.

(** A name of 256 bytes leaves no room for the digest of APOP, which a
    name of [USER] may have. *)
Lemma apop_long_name :
  outcomes Init (s#"APOP " ++ repeat c#"a" 256 ++ s#" d" ++ crlf) = (Init, [Err (Parse TooManyArguments)]) /\
  outcomes Init (s#"USER " ++ repeat c#"a" 256 ++ crlf) = (Init, [Ok (User (repeat c#"a" 256))]).
Proof. split; vm_compute; reflexivity. Qed.

(** [outcomes] is the caller's loop over [parse]: it stops at the call that
    asks for more, and takes the others one after the other. *)
Lemma finalize_complete c num : finalize c num <> Err NeedsMoreData.
Proof.
  assert (forall s, into_string s <> Err NeedsMoreData) as Hs by (intros s; unfold into_string; by case_if).
  assert (forall l, into_strings l <> Err NeedsMoreData) as Hl.
  { induction l as [|p l IH]; [done|]. cbn [into_strings]. specialize (Hs p).
    destruct (into_string p) as [|[]]; cbn [rbind]; try done.
    destruct (into_strings l) as [|[]]; cbn [rbind]; congruence. }
  destruct c; cbn [finalize]; try case_if; try done.
  - specialize (Hs name). destruct (into_string name); cbn [rbind]; congruence.
  - specialize (Hs string). destruct (into_string string); cbn [rbind]; congruence.
  - pose proof (Hs name). destruct (into_string name); cbn [rbind]; [|congruence].
    specialize (Hs digest). destruct (into_string digest); cbn [rbind]; congruence.
  - unfold mechanism_parse. repeat (case_if; [cbn [rbind]|]); try done;
      specialize (Hl params); destruct (into_strings params); cbn [rbind]; congruence.
Qed.

Lemma step_complete st b st' r : step st b = (st', Some r) -> r <> Err NeedsMoreData.
Proof.
  destruct st as [|buf|c num sp|e]; cbn [step];
    [unfold on_init|unfold on_command|unfold on_argument|unfold on_error]; repeat case_if; try done;
    try (destruct (command_parse buf)); try (destruct (update_argument _ _ _)); intros [= <- <-];
    first [apply finalize_complete|done].
Qed.

Lemma outcomes_parse st bytes : outcomes st bytes =
  match parse st bytes with
  | (st, Err NeedsMoreData, _) => (st, [])
  | (st, r, rest) => let '(st, l) := outcomes st rest in (st, r :: l)
  end.
Proof.
  revert st. induction bytes as [|b bytes IH]; intros st; [done|]. cbn [outcomes parse].
  destruct (step st b) as [st1 [r|]] eqn:E; [|apply IH].
  pose proof (step_complete _ _ _ _ E). by destruct r as [|[]].
Qed.
