(* ===== verification/Pop3Session.v ===== *)
(** * The POP3 session ([crates/pop3/src/client.rs, session.rs, mailbox.rs, op/])

    The session as a machine over its receiver, its state and the server.
    The server's stores, limiters and authentication are parameters over a
    world [W]; [unreachable!] and [unwrap] of nothing are [Panicked]. *)

From Stdlib Require Import Sorted.
From S2P Require Import Prelude Decimals Utf8 ChainedBytes Pop3.

(** ** Credentials ([crates/directory/src/core/sasl.rs]) *)

Inductive Credentials :=
| Basic (username secret : list Z)
| Bearer (username : option (list Z)) (token : list Z).

(** The fields after the first and the second zero byte. *)
(* [crates/directory/src/core/sasl.rs:12-25] decode_sasl_challenge_plain, the loop *)
Fixpoint plain_fields (arg_num : nat) (challenge username secret : list Z) : list Z * list Z :=
  match challenge with
  | [] => (username, secret)
  | ch :: rest =>
      if ch =? 0 then plain_fields (S arg_num) rest username secret
      else if (arg_num =? 1)%nat then plain_fields arg_num rest (username ++ [ch]) secret
      else if (arg_num =? 2)%nat then plain_fields arg_num rest username (secret ++ [ch])
      else plain_fields arg_num rest username secret
  end.

(* [crates/directory/src/core/sasl.rs:11-37] decode_sasl_challenge_plain *)
Definition decode_sasl_challenge_plain (challenge : list Z) : option Credentials :=
  let '(username, secret) := plain_fields 0 challenge [] [] in
  match username, secret with
  | _ :: _, _ :: _ => if valid username && valid secret then Some (Basic username secret) else None
  | _, _ => None
  end.

(** ** Errors ([trc::Error]) *)

(** The kinds of events that the session's errors have. *)
Inductive Event :=
| EPop3Error | EAuthError | EAuthFailed | ETooManyAttempts | EConcurrentRequest | ETooManyRequests
| ENetwork | ESecurity | EOther.

Record TrcError := MkTrc { event : Event; details : option (list Z) }.

(* [crates/trc/src/event/mod.rs:208-216] Error::must_disconnect *)
Definition must_disconnect (e : TrcError) : bool :=
  match event e with
  | ENetwork | ETooManyAttempts | EConcurrentRequest | ETooManyRequests | ESecurity => true
  | _ => false
  end.

(* [crates/trc/src/event/mod.rs:219-221] Error::should_write_err *)
Definition should_write_err (e : TrcError) : bool :=
  match event e with ENetwork | ESecurity => false | _ => true end.

(** The reasons as the parser words them. *)
Definition reason_text (r : Reason) : list Z :=
  match r with
  | InvalidCommand => s#"Invalid command"
  | TooManyArguments => s#"Too many arguments"
  | MissingArguments => s#"Missing arguments"
  | InvalidUtf8 => s#"Invalid UTF-8"
  | InvalidDigit => s#"Invalid digit"
  | OutOfRange => s#"Numeric argument out of range"
  | UnsupportedMechanism value => s#"Unsupported mechanism '" ++ from_utf8_lossy value ++ s#"'."
  end.

Definition pop3_error (text : list Z) : TrcError := MkTrc EPop3Error (Some text).

(** ** The mailbox *)

(* [crates/pop3/src/mailbox.rs:26-31] Message *)
Record Message := MkMessage { id : Z; uid : Z; size : Z; deleted : bool }.
(* [crates/pop3/src/mailbox.rs:18-24] Mailbox *)
Record Mailbox := MkMailbox { messages : list Message; account_id : Z; uid_validity : Z; total : Z; mailbox_size : Z }.

(** The parts of the message cache that are read: of every message its
    document, its size and its mailboxes with the UIDs there, and the UID
    validity of the inbox. *)
Record CachedMessage := MkCached { document_id : Z; cached_size : Z; mailboxes : list (Z * Z) }.
Record Cache := MkCache { items : list CachedMessage; inbox_validity : option Z }.

(** A [BTreeMap] by UID: an ordered association list, a later entry
    replaces. *)
Fixpoint map_insert (k : Z) (v : Z * Z) (l : list (Z * (Z * Z))) : list (Z * (Z * Z)) :=
  match l with
  | [] => [(k, v)]
  | (k', v') :: l' =>
      if k <? k' then (k, v) :: l
      else if k =? k' then (k, v) :: l'
      else (k', v') :: map_insert k v l'
  end.

Definition INBOX_ID : Z := 0.

(** A [u32] counter wraps in the released build. *)
(* [crates/pop3/src/mailbox.rs:43-83] fetch_mailbox, from the cache *)
Definition make_mailbox (account : Z) (cache : Cache) : Mailbox :=
  match items cache with
  | [] => MkMailbox [] 0 0 0 0
  | items =>
      let by_uid m := match List.find (fun b => fst b =? INBOX_ID) (mailboxes m) with
                      | Some b => Some (snd b, (document_id m, cached_size m))
                      | None => None
                      end in
      let message_map := fold_left (fun l e => map_insert (fst e) (snd e) l) (omap by_uid items) [] in
      MkMailbox (map (fun e => MkMessage (fst (snd e)) (fst e) (snd (snd e)) false) message_map)
        account (default 0 (inbox_validity cache))
        (wrap 32 (Z.of_nat (length message_map)))
        (fold_left (fun s e => wrap 32 (s + snd (snd e))) message_map 0)
  end.

(** [messages.get(msg.saturating_sub(1))]. *)
(* [crates/pop3/src/op/delete.rs:29-29] handle_dele, the index of a number *)
Definition message_index (msg : Z) : nat := Z.to_nat (Z.max 0 (msg - 1)).
Definition get_message (m : Mailbox) (msg : Z) : option Message := nth_error (messages m) (message_index msg).

Definition set_deleted (b : bool) (m : Message) : Message := MkMessage (id m) (uid m) (size m) b.
Definition with_messages (m : Mailbox) (l : list Message) : Mailbox :=
  MkMailbox l (account_id m) (uid_validity m) (total m) (mailbox_size m).

Fixpoint update_nth {A} (l : list A) (n : nat) (f : A -> A) : list A :=
  match l, n with
  | [], _ => []
  | x :: l, O => f x :: l
  | x :: l, S n => x :: update_nth l n f
  end.

(** One message of a DELE: the answer, and the mailbox. *)
(* [crates/pop3/src/op/delete.rs:28-41] handle_dele, a message *)
Definition dele_one (m : Mailbox) (msg : Z) : Mailbox * list Z :=
  match get_message m msg with
  | Some message =>
      if deleted message then (m, s#"-ERR message " ++ print_decimal msg ++ s#" already deleted" ++ crlf)
      else (with_messages m (update_nth (messages m) (message_index msg) (set_deleted true)),
            s#"+OK message " ++ print_decimal msg ++ s#" deleted" ++ crlf)
  | None => (m, s#"-ERR no such message" ++ crlf)
  end.

(* [crates/pop3/src/op/delete.rs:24-42] handle_dele, the messages *)
Fixpoint dele_all (m : Mailbox) (msgs : list Z) : Mailbox * list Z :=
  match msgs with
  | [] => (m, [])
  | msg :: msgs => let '(m, a) := dele_one m msg in let '(m, b) := dele_all m msgs in (m, a ++ b)
  end.

(** ** The session *)

Inductive Permission := Pop3Authenticate | Pop3Dele | Pop3List | Pop3Uidl | Pop3Stat | Pop3Retr.
Inductive SessionResult := Continue | UpgradeTls | SClose.
Inductive LimiterResult := Allowed | Forbidden | Disabled.

Inductive Outcome (A : Type) := Ret (a : A) | Fail (e : TrcError) | Panicked.
Arguments Ret {A}. Arguments Fail {A}. Arguments Panicked {A}.

Section Session.
Context {W Token Batch : Type}.

(** The configuration. *)
Variables (allow_plain_auth rate_limited : bool) (max_auth_failures : Z).
(** The server: authentication, limits, caches and stores. *)
Variable authenticate : Credentials -> W -> W * result Token TrcError.
Variable in_flight : Token -> W -> W * LimiterResult.
Variable token_account : Token -> Z.
Variable has_permission : Token -> Permission -> bool.
Variable permission_name : Permission -> list Z.
Variable rate_allowed : Z -> W -> W * result bool TrcError.
Variable fail2banned : W -> W * result bool TrcError.
Variable get_cached_messages : Z -> W -> W * result Cache TrcError.
Variable get_metadata : Z -> Z -> W -> W * result (option (list Z * Z * list Z)) TrcError.
Variable get_blob : list Z -> W -> W * result (option (list Z)) TrcError.
Variable emails_delete : Z -> Token -> list Z -> W -> W * result (list Z * Batch) TrcError.
Variable batch_is_empty : Batch -> bool.
Variable commit_batch : Batch -> W -> W * result unit TrcError.
(** The client's socket: what it takes after what it was sent. *)
Variable socket_takes : list Z -> list Z -> bool.
(** The listener's TLS. *)
Variable acceptor_is_tls : bool.
Variable tls_accept : W -> W * bool.
(** Decoders of other crates, and the message of an event without details. *)
Variable base64_decode : list Z -> option (list Z).
Variable decode_oauth : list Z -> option Credentials.
Variable event_message : Event -> list Z.

(* [crates/pop3/src/lib.rs:49-59] State *)
Inductive SState :=
| NotAuthenticated (auth_failures : Z) (username : option (list Z))
| Authenticated (mailbox : Mailbox) (access_token : Token).

(** [output]: what the client was sent; [tls]: the stream is TLS. *)
(* [crates/pop3/src/lib.rs:38-47] Session *)
Record Session := MkSession { receiver : Pop3.State; sstate : SState; output : list Z; tls : bool }.

Definition M (A : Type) : Type := Session * W -> Session * W * Outcome A.
Definition ret {A} (a : A) : M A := fun st => (st, Ret a).
Definition fail {A} (e : TrcError) : M A := fun st => (st, Fail e).
Definition panic {A} : M A := fun st => (st, Panicked).
Definition mbind {A B} (m : M A) (k : A -> M B) : M B := fun st =>
  match m st with
  | (st, Ret a) => k a st
  | (st, Fail e) => (st, Fail e)
  | (st, Panicked) => (st, Panicked)
  end.
Notation "'let*' x := m 'in' k" := (mbind m (fun x => k)) (at level 10, x pattern, m at level 100, k at level 200).

Definition get_session : M Session := fun st => (st, Ret (fst st)).
Definition set_state (s : SState) : M unit := fun '(se, w) =>
  ((MkSession (receiver se) s (output se) (tls se), w), Ret tt).
Definition set_receiver (r : Pop3.State) : M unit := fun '(se, w) =>
  ((MkSession r (sstate se) (output se) (tls se), w), Ret tt).
(** A call of the server. *)
Definition call {A} (f : W -> W * result A TrcError) : M A := fun '(se, w) =>
  let '(w, r) := f w in ((se, w), match r with Ok a => Ret a | Err e => Fail e end).
Definition call_pure {A} (f : W -> W * A) : M A := fun '(se, w) => let '(w, a) := f w in ((se, w), Ret a).

(* [crates/pop3/src/session.rs:153-175] write_bytes *)
Definition write_bytes (bytes : list Z) : M unit := fun '(se, w) =>
  if socket_takes (output se) bytes then ((MkSession (receiver se) (sstate se) (output se ++ bytes) (tls se), w), Ret tt)
  else ((se, w), Fail (MkTrc ENetwork None)).

(* [crates/pop3/src/session.rs:177-180] write_ok *)
Definition write_ok (message : list Z) : M unit := write_bytes (serialize (T:=Z) print_decimal (ROk message)).

(* [crates/pop3/src/protocol/response.rs:153-164] SerializeResponse for trc::Error *)
Definition error_response (e : TrcError) : list Z :=
  s#"-ERR " ++ default (event_message (event e)) (details e) ++ crlf.

(* [crates/pop3/src/session.rs:182-195] write_err *)
Definition write_err (e : TrcError) : M bool := fun st =>
  if should_write_err e then
    match write_bytes (error_response e) st with
    | (st, Ret _) => (st, Ret (negb (must_disconnect e)))
    | (st, Fail _) => (st, Ret false)
    | (st, Panicked) => (st, Panicked)
    end
  else (st, Ret (negb (must_disconnect e))).

(** [State::mailbox] and [State::access_token]. *)
(* [crates/pop3/src/lib.rs:61-82] State::mailbox, access_token *)
Definition authenticated : M (Mailbox * Token) :=
  let* s := get_session in
  match sstate s with Authenticated m t => ret (m, t) | NotAuthenticated _ _ => panic end.

(* [crates/common/src/auth/access_token.rs:624-633] enforce_permission *)
Definition enforce (t : Token) (p : Permission) : M unit :=
  if has_permission t p then ret tt else fail (MkTrc ESecurity (Some (permission_name p))).

(* [crates/pop3/src/mailbox.rs:34-44] fetch_mailbox *)
Definition fetch_mailbox (account : Z) : M Mailbox :=
  let* cache := call (get_cached_messages account) in ret (make_mailbox account cache).

(* [crates/pop3/src/op/authenticate.rs:63-114] handle_auth *)
Definition handle_auth (credentials : Credentials) : M unit := fun '(se, w) =>
  let '(w, r) := authenticate credentials w in
  match r with
  | Err err =>
      match event err with
      | EAuthFailed =>
          match sstate se with
          | NotAuthenticated failures username =>
              if failures <? max_auth_failures then
                ((MkSession (receiver se) (NotAuthenticated (failures + 1) username) (output se) (tls se), w), Fail err)
              else ((se, w), Fail (MkTrc ETooManyAttempts None))
          | Authenticated _ _ => ((se, w), Fail (MkTrc ETooManyAttempts None))
          end
      | _ => ((se, w), Fail err)
      end
  | Ok token =>
      (let* _ := enforce token Pop3Authenticate in
       let* limit := call_pure (in_flight token) in
       match limit with
       | Forbidden => fail (MkTrc EConcurrentRequest None)
       | _ =>
           let* mailbox := fetch_mailbox (token_account token) in
           let* _ := set_state (Authenticated mailbox token) in
           write_ok s#"Authentication successful"
       end) (se, w)
  end.

(* [crates/pop3/src/op/authenticate.rs:20-61] handle_sasl *)
Definition handle_sasl (mechanism : Mechanism) (params : list (list Z)) : M unit :=
  let run decode :=
    match rev params with
    | param :: _ =>
        match (match base64_decode param with Some challenge => decode challenge | None => None end) with
        | Some credentials => handle_auth credentials
        | None => fail (MkTrc EAuthError (Some s#"Invalid SASL challenge"))
        end
    | [] =>
        let* _ := set_receiver (Argument (Auth (as_str mechanism) []) 1 true) in
        write_bytes (s#"+" ++ crlf)
    end in
  match mechanism with
  | Plain => run decode_sasl_challenge_plain
  | OAuthBearer | XOauth2 => run decode_oauth
  | _ => fail (MkTrc EAuthError (Some s#"Authentication mechanism not supported."))
  end.

(* [crates/pop3/src/op/delete.rs:18-51] handle_dele *)
Definition handle_dele (msgs : list Z) : M unit :=
  let* mt := authenticated in
  let '(mailbox, token) := mt in
  let* _ := enforce token Pop3Dele in
  let '(mailbox, response) := dele_all mailbox msgs in
  let* _ := set_state (Authenticated mailbox token) in
  write_bytes response.

(* [crates/pop3/src/op/delete.rs:53-72] handle_rset *)
Definition handle_rset : M unit :=
  let* mt := authenticated in
  let '(mailbox, token) := mt in
  let count := length (List.filter deleted (messages mailbox)) in
  let* _ := set_state (Authenticated (with_messages mailbox (map (set_deleted false) (messages mailbox))) token) in
  write_ok (print_decimal (Z.of_nat count) ++ s#" messages undeleted").

(** The marked messages, as the bitmap lists them: distinct and in order. *)
Fixpoint bitmap_insert (x : Z) (l : list Z) : list Z :=
  match l with
  | [] => [x]
  | y :: l' => if x <? y then x :: l else if x =? y then l else y :: bitmap_insert x l'
  end.
(* [crates/pop3/src/op/delete.rs:79-85] handle_quit, the marked messages *)
Definition marked (m : Mailbox) : list Z :=
  fold_left (fun l x => bitmap_insert (id x) l) (List.filter deleted (messages m)) [].

(* [crates/pop3/src/op/delete.rs:74-136] handle_quit *)
Definition handle_quit : M unit :=
  let* s := get_session in
  match sstate s with
  | Authenticated mailbox token =>
      match marked mailbox with
      | [] => write_ok s#"Stalwart POP3 bids you farewell (no messages deleted)."
      | ids =>
          let* r := call (emails_delete (account_id mailbox) token ids) in
          let '(not_deleted, batch) := r in
          let* _ := if batch_is_empty batch then ret tt else call (commit_batch batch) in
          match not_deleted with
          | [] => write_ok (s#"Stalwart POP3 bids you farewell (" ++ print_decimal (Z.of_nat (length ids)) ++
                            s#" messages deleted).")
          | _ => write_bytes (serialize (T:=Z) print_decimal (RErr s#"Some messages could not be deleted"))
          end
      end
  | NotAuthenticated _ _ => write_ok s#"Stalwart POP3 bids you farewell."
  end.

(* [crates/pop3/src/op/list.rs:15-54] handle_list *)
Definition handle_list (msg : option Z) : M unit :=
  let* mt := authenticated in
  let '(mailbox, token) := mt in
  let* _ := enforce token Pop3List in
  match msg with
  | Some msg =>
      match get_message mailbox msg with
      | Some message => write_ok (print_decimal msg ++ s#" " ++ print_decimal (size message))
      | None => fail (pop3_error s#"No such message.")
      end
  | None => write_bytes (serialize print_decimal (RList (map size (messages mailbox))))
  end.

(* [crates/pop3/src/op/list.rs:96-97] handle_uidl, an identifier *)
Definition unique_id (mailbox : Mailbox) (m : Message) : list Z :=
  print_decimal (uid_validity mailbox) ++ print_decimal (uid m).

(* [crates/pop3/src/op/list.rs:56-103] handle_uidl *)
Definition handle_uidl (msg : option Z) : M unit :=
  let* mt := authenticated in
  let '(mailbox, token) := mt in
  let* _ := enforce token Pop3Uidl in
  match msg with
  | Some msg =>
      match get_message mailbox msg with
      | Some message => write_ok (print_decimal msg ++ s#" " ++ unique_id mailbox message)
      | None => fail (pop3_error s#"No such message.")
      end
  | None => write_bytes (serialize (fun x => x) (RList (map (unique_id mailbox) (messages mailbox))))
  end.

(* [crates/pop3/src/op/list.rs:105-124] handle_stat *)
Definition handle_stat : M unit :=
  let* mt := authenticated in
  let '(mailbox, token) := mt in
  let* _ := enforce token Pop3Stat in
  write_ok (print_decimal (total mailbox) ++ s#" " ++ print_decimal (mailbox_size mailbox)).

(* [crates/pop3/src/op/fetch.rs:21-90] handle_fetch *)
Definition handle_fetch (msg : Z) (lines : option Z) : M unit :=
  let* mt := authenticated in
  let '(mailbox, token) := mt in
  let* _ := enforce token Pop3Retr in
  let gone := fail (pop3_error s#"Failed to fetch message. Perhaps another session deleted it?") in
  match get_message mailbox msg with
  | Some message =>
      let* metadata := call (get_metadata (account_id mailbox) (id message)) in
      match metadata with
      | Some (raw_headers, body_offset, blob_hash) =>
          let* blob := call (get_blob blob_hash) in
          match blob with
          | Some bytes =>
              let body := default [] (get_from bytes (Z.to_nat body_offset)) in
              write_bytes (serialize (T:=Z) print_decimal
                (RMessage (get_full_range (with_last (new raw_headers) body)) (default 0 lines)))
          | None => gone
          end
      | None => gone
      end
  | None => fail (pop3_error s#"No such message.")
  end.

(* [crates/pop3/src/op/mod.rs:20-43] handle_capa *)
Definition handle_capa : M unit :=
  let* s := get_session in
  write_bytes (serialize (T:=Z) print_decimal
    (RCapability (if tls s || allow_plain_auth then [Plain; OAuthBearer; XOauth2] else [OAuthBearer; XOauth2])
       (negb (tls s)))).

(* [crates/pop3/src/client.rs:178-268] validate_request *)
Definition validate_request (command : Request) : M Request :=
  let* s := get_session in
  let plain :=
    match sstate s with
    | NotAuthenticated _ username =>
        if tls s || allow_plain_auth then
          match command, username with
          | Pass _, None => fail (pop3_error s#"Username was not provided.")
          | _, _ => ret command
          end
        else fail (pop3_error s#"Cannot authenticate over plain-text.")
    | Authenticated _ _ => fail (pop3_error s#"Already authenticated.")
    end in
  match command with
  | Capa | Quit | Noop => ret command
  | Auth Plain _ | User _ | Pass _ | Apop _ _ => plain
  | Auth _ _ =>
      match sstate s with
      | NotAuthenticated _ _ => ret command
      | Authenticated _ _ => fail (pop3_error s#"Already authenticated.")
      end
  | Stls => if tls s then fail (pop3_error s#"Already in TLS mode.") else ret command
  | _ =>
      match sstate s with
      | Authenticated mailbox _ =>
          if rate_limited then
            let* allowed := call (rate_allowed (account_id mailbox)) in
            if allowed : bool then ret command else fail (MkTrc ETooManyRequests None)
          else ret command
      | NotAuthenticated _ _ => fail (pop3_error s#"Not authenticated.")
      end
  end.

Definition then_ (m : M unit) (r : SessionResult) : M SessionResult := let* _ := m in ret r.

(* [crates/pop3/src/client.rs:84-156] ingest, a command *)
Definition execute (command : Request) : M SessionResult :=
  match command with
  | User name =>
      let* s := get_session in
      match sstate s with
      | NotAuthenticated failures _ =>
          let* _ := set_state (NotAuthenticated failures (Some name)) in
          then_ (write_ok (name ++ s#" is a valid mailbox")) Continue
      | Authenticated _ _ => panic
      end
  | Pass string =>
      let* s := get_session in
      match sstate s with
      | NotAuthenticated failures (Some username) =>
          let* _ := set_state (NotAuthenticated failures None) in
          then_ (handle_auth (Basic username string)) Continue
      | _ => panic
      end
  | Quit => then_ handle_quit SClose
  | Stat => then_ handle_stat Continue
  | List_ msg => then_ (handle_list msg) Continue
  | Retr msg => then_ (handle_fetch msg None) Continue
  | Dele msg => then_ (handle_dele [msg]) Continue
  | DeleMany msgs => then_ (handle_dele msgs) Continue
  | Top msg n => then_ (handle_fetch msg (Some n)) Continue
  | Uidl msg => then_ (handle_uidl msg) Continue
  | Noop => then_ (write_ok s#"NOOP") Continue
  | Rset => then_ handle_rset Continue
  | Capa => then_ handle_capa Continue
  | Stls => then_ (write_ok s#"Begin TLS negotiation now") UpgradeTls
  | Utf8_ => then_ (write_ok s#"UTF8 enabled") Continue
  | Auth mechanism params => then_ (handle_sasl mechanism params) Continue
  | Apop _ _ => fail (pop3_error s#"APOP not supported.")
  end.

(** The requests of one read, DELE after DELE as one. *)
Definition Pending : Type := result Request TrcError.

(* [crates/pop3/src/client.rs:33-49] ingest, grouping *)
Definition combine (last : Pending) (request : Request) : list Pending :=
  match request, last with
  | Dele msg, Ok (DeleMany msgs) => [Ok (DeleMany (msgs ++ [msg]))]
  | Dele msg, Ok (Dele other_msg) => [Ok (DeleMany [other_msg; msg])]
  | _, _ => [last; Ok request]
  end.

Fixpoint push_request (requests : list Pending) (request : Request) : list Pending :=
  match requests with
  | [] => [Ok request]
  | [last] => combine last request
  | x :: requests => x :: push_request requests request
  end.

(** [None]: the client is a port scanner and the session ends. *)
(* [crates/pop3/src/client.rs:27-79] ingest, the requests *)
Fixpoint gather (fuel : nat) (bytes : list Z) (requests : list Pending) : M (option (list Pending)) :=
  match fuel with
  | O => panic
  | S fuel =>
      let* s := get_session in
      match parse (receiver s) bytes with
      | (st, Ok request, rest) =>
          let* _ := set_receiver st in gather fuel rest (push_request requests request)
      | (st, Err NeedsMoreData, _) => let* _ := set_receiver st in ret (Some requests)
      | (st, Err (Parse reason), rest) =>
          let* _ := set_receiver st in
          let push := gather fuel rest (requests ++ [Err (MkTrc EPop3Error (Some (reason_text reason)))]) in
          match sstate s with
          | NotAuthenticated _ _ => fun st =>
              match call fail2banned st with
              | (st, Ret true) => (st, Ret None)
              | (st, Panicked) => (st, Panicked)
              | (st, _) => push st
              end
          | Authenticated _ _ => push
          end
      end
  end.

(* [crates/pop3/src/client.rs:82-162] ingest, the result of a request *)
Definition handle_request (request : Pending) : M SessionResult :=
  match request with
  | Ok command => let* command := validate_request command in execute command
  | Err e => fail e
  end.

(* [crates/pop3/src/client.rs:81-175] ingest, the loop over the requests *)
Fixpoint run_requests (requests : list Pending) : M SessionResult :=
  match requests with
  | [] => ret Continue
  | request :: requests => fun st =>
      match handle_request request st with
      | (st, Ret Continue) => run_requests requests st
      | (st, Ret r) => (st, Ret r)
      | (st, Fail e) =>
          match write_err e st with
          | (st, Ret true) => run_requests requests st
          | (st, Ret false) => (st, Ret SClose)
          | (st, Fail _) | (st, Panicked) => (st, Panicked)
          end
      | (st, Panicked) => (st, Panicked)
      end
  end.

(* [crates/pop3/src/client.rs:19-176] ingest *)
Definition ingest (bytes : list Z) : M SessionResult :=
  let* requests := gather (S (length bytes)) bytes [] in
  match requests with
  | Some requests => run_requests requests
  | None => ret SClose
  end.

(** ** The connection *)

(** What the wait for the client ends with: bytes (at most 8192), the end of
    the stream, an error of it, no bytes in time, the server's shutdown. *)
Inductive Read := RBytes (bytes : list Z) | RClosed | RError | RTimeout | RShutdown.

(** [Waiting]: the reads are used up and the session goes on. *)
Inductive ConnResult := Upgrade (rest : list Read) | Ended | Waiting.

(** [write_bytes(..).await.ok()]. *)
Definition farewell (bytes : list Z) : M ConnResult := fun st => (fst (write_bytes bytes st), Ret Ended).

(* [crates/pop3/src/session.rs:63-133] handle_conn *)
Fixpoint handle_conn (reads : list Read) : M ConnResult :=
  match reads with
  | [] => ret Waiting
  | RBytes [] :: _ | RClosed :: _ | RError :: _ => ret Ended
  | RBytes bytes :: reads =>
      let* result := ingest bytes in
      match result with
      | Continue => handle_conn reads
      | UpgradeTls => ret (Upgrade reads)
      | SClose => ret Ended
      end
  | RTimeout :: _ => farewell (s#"-ERR Connection timed out." ++ crlf)
  | RShutdown :: _ => farewell (s#"* BYE Server shutting down." ++ crlf)
  end.

Definition SERVER_GREETING : list Z := s#"+OK Stalwart POP3 at your service." ++ crlf.

Definition new_session (tls : bool) : Session := MkSession Init (NotAuthenticated 0 None) [] tls.

(** The session with the TLS stream: everything else is kept. *)
(* [crates/pop3/src/session.rs:135-149] into_tls *)
Definition into_tls : M bool := fun '(se, w) =>
  let '(w, accepted) := tls_accept w in
  if accepted : bool then ((MkSession (receiver se) (sstate se) (output se) true, w), Ret true)
  else ((se, w), Ret false).

(* [crates/pop3/src/session.rs:31-53] Pop3SessionManager::handle *)
Definition handle (reads : list Read) : M unit := fun st =>
  match write_bytes SERVER_GREETING st with
  | (st, Ret _) =>
      (let* result := handle_conn reads in
       match result with
       | Upgrade rest =>
           if acceptor_is_tls then
             let* accepted := into_tls in
             if accepted : bool then let* _ := handle_conn rest in ret tt else ret tt
           else ret tt
       | _ => ret tt
       end) st
  | (st, Fail _) => (st, Ret tt)
  | (st, Panicked) => (st, Panicked)
  end.

(** ** The session never panics *)

Definition nopanic {A} (m : M A) (st : Session * W) : Prop := snd (m st) <> Panicked.

Lemma nopanic_bind {A B} (m : M A) (k : A -> M B) st :
  nopanic m st -> (forall a st', m st = (st', Ret a) -> nopanic (k a) st') -> nopanic (mbind m k) st.
Proof.
  unfold nopanic, mbind. intros Hm Hk. destruct (m st) as [st' [a|e|]] eqn:E; cbn [snd] in *; [by apply Hk|done|done].
Qed.

(** The primitives never panic. *)
Class Safe {A} (m : M A) : Prop := safe : forall st, nopanic m st.

#[local] Instance safe_ret {A} (a : A) : Safe (ret a).
Proof. done. Qed.
#[local] Instance safe_fail {A} e : Safe (@fail A e).
Proof. done. Qed.
#[local] Instance safe_get : Safe get_session.
Proof. done. Qed.
#[local] Instance safe_set_state s : Safe (set_state s).
Proof. by intros [se w]. Qed.
#[local] Instance safe_set_receiver r : Safe (set_receiver r).
Proof. by intros [se w]. Qed.
#[local] Instance safe_call {A} (f : W -> W * result A TrcError) : Safe (call f).
Proof. intros [se w]. unfold nopanic, call. destruct (f w) as [w' [a|e]]; done. Qed.
#[local] Instance safe_call_pure {A} (f : W -> W * A) : Safe (call_pure f).
Proof. intros [se w]. unfold nopanic, call_pure. by destruct (f w). Qed.
#[local] Instance safe_write_bytes b : Safe (write_bytes b).
Proof. intros [se w]. unfold nopanic, write_bytes. by case_if. Qed.
#[local] Instance safe_write_ok b : Safe (write_ok b).
Proof. apply safe_write_bytes. Qed.
#[local] Instance safe_enforce t p : Safe (enforce t p).
Proof. unfold enforce. destruct (has_permission t p); apply _. Qed.
#[local] Instance safe_bind {A B} (m : M A) (k : A -> M B) : Safe m -> (forall a, Safe (k a)) -> Safe (mbind m k).
Proof. intros Hm Hk st. apply nopanic_bind; [apply Hm|intros; apply Hk]. Qed.
#[local] Instance safe_fetch_mailbox a : Safe (fetch_mailbox a).
Proof. unfold fetch_mailbox. apply _. Qed.

#[local] Instance safe_handle_auth c : Safe (handle_auth c).
Proof.
  intros [se w]. unfold nopanic, handle_auth. destruct (authenticate c w) as [w' [token|err]].
  - lazymatch goal with |- snd (?m ?st) <> Panicked => enough (Safe m) as Hs by exact (Hs st) end.
    apply safe_bind; [apply _|]. intros _. apply safe_bind; [apply _|].
    intros []; apply _.
  - destruct (event err); try done. destruct (sstate se); try done. by case_if.
Qed.

#[local] Instance safe_handle_sasl m ps : Safe (handle_sasl m ps).
Proof.
  unfold handle_sasl. destruct m; try apply _; destruct (rev ps); try apply _;
    destruct (base64_decode _) as [c|]; try apply _; [destruct (decode_sasl_challenge_plain c)|
    destruct (decode_oauth c)|destruct (decode_oauth c)]; apply _.
Qed.

Definition is_authenticated (s : SState) : bool := match s with Authenticated _ _ => true | _ => false end.

Lemma nopanic_authenticated {A} (k : Mailbox * Token -> M A) st :
  is_authenticated (sstate (fst st)) = true -> (forall mt, Safe (k mt)) -> nopanic (mbind authenticated k) st.
Proof.
  intros H Hk. apply nopanic_bind; [|intros; apply Hk].
  unfold nopanic, authenticated, mbind, get_session. cbn. by destruct (sstate (fst st)).
Qed.

(** The commands that [validate_request] lets through. *)
Definition allowed (c : Request) (s : SState) : Prop :=
  match c with
  | User _ | Auth _ _ | Apop _ _ => is_authenticated s = false
  | Pass _ => match s with NotAuthenticated _ (Some _) => True | _ => False end
  | List_ _ | Retr _ | Dele _ | DeleMany _ | Top _ _ | Uidl _ | Utf8_ | Stat | Rset => is_authenticated s = true
  | _ => True
  end.

Lemma validate_ret c st st' c' : validate_request c st = (st', Ret c') ->
  c' = c /\ fst st' = fst st /\ allowed c (sstate (fst st)).
Proof.
  unfold validate_request, mbind, get_session. destruct st as [se w]. cbn [fst].
  assert (forall st2 k, (let* b := call (rate_allowed k) in
      if b : bool then ret c else fail (MkTrc ETooManyRequests None)) (se, w) = (st2, Ret c') ->
      c' = c /\ fst st2 = se) as Hrate.
  { intros st2 k. unfold mbind, call. destruct (rate_allowed k w) as [w' [[]|e]]; cbn; intros [= <- <-]; done. }
  destruct c; destruct (sstate se) as [f u|mb t] eqn:Es;
    try (destruct mechanism); try (destruct u); cbn; try (destruct (tls se)); try (destruct allow_plain_auth);
    cbn; intros H; try discriminate H; try (injection H as <- <-; rewrite ?Es; by split_and!);
    destruct rate_limited; try (injection H as <- <-; rewrite ?Es; by split_and!);
    destruct (Hrate _ _ H) as [-> ->]; rewrite ?Es; by split_and!.
Qed.

#[local] Instance safe_validate c : Safe (validate_request c).
Proof.
  unfold validate_request. apply safe_bind; [apply _|]. intros s. unfold ret.
  assert (forall k, Safe (let* b := call (rate_allowed k) in
      if b : bool then ret c else fail (MkTrc ETooManyRequests None))) as Hrate
    by (intros k; apply safe_bind; [apply _|intros []; apply _]).
  destruct c; destruct (sstate s) as [f u|mb t]; try (destruct mechanism); try (destruct (tls s || allow_plain_auth));
    try (destruct u); try destruct (tls s); try apply Hrate; try (by intros st); destruct rate_limited;
    try apply Hrate; by intros st.
Qed.

Lemma nopanic_handlers st : is_authenticated (sstate (fst st)) = true ->
  (forall l, nopanic (handle_dele l) st) /\ nopanic handle_rset st /\ (forall m, nopanic (handle_list m) st) /\
  (forall m, nopanic (handle_uidl m) st) /\ nopanic handle_stat st /\ (forall m l, nopanic (handle_fetch m l) st).
Proof.
  intros H. split_and!; intros; apply nopanic_authenticated; try done; intros [mb t]; try apply safe_bind; try apply _;
    intros _; try (destruct m; try destruct (get_message _ _); apply _).
  - destruct (dele_all _ _). apply _.
  - destruct (get_message _ _); [|apply _]. apply safe_bind; [apply _|]. intros [[[rh bo] bh]|]; [|apply _].
    apply safe_bind; [apply _|]. intros []; apply _.
Qed.

Lemma nopanic_then m r st : nopanic m st -> nopanic (then_ m r) st.
Proof. intros H. apply nopanic_bind; [done|intros; apply safe_ret]. Qed.

#[local] Instance safe_handle_quit : Safe handle_quit.
Proof.
  unfold handle_quit. apply safe_bind; [apply _|]. intros s. destruct (sstate s); [apply _|].
  destruct (marked mailbox); [apply _|]. apply safe_bind; [apply _|]. intros [nd b].
  apply safe_bind; [destruct (batch_is_empty b); apply _|]. intros _. destruct nd; apply _.
Qed.

Lemma nopanic_execute c st : allowed c (sstate (fst st)) -> nopanic (execute c) st.
Proof.
  intros H. destruct c; cbn [allowed execute] in *; try (destruct (nopanic_handlers st H) as (H1 & H2 & H3 & H4 & H5 & H6));
    try (apply nopanic_then; (apply safe || auto)); try apply safe_fail.
  - apply nopanic_bind; [done|]. intros s st' [= <- <-].
    destruct (sstate (fst st)) as [f u|]; [|done]. apply safe_bind; [apply _|]. intros _. apply safe_bind; apply _.
  - apply nopanic_bind; [done|]. intros s st' [= <- <-].
    destruct (sstate (fst st)) as [f [u|]|]; [|done..]. apply safe_bind; [apply _|]. intros _. apply safe_bind; apply _.
Qed.

Lemma parse_rest st bytes st' r rest : parse st bytes = (st', r, rest) -> r = Err NeedsMoreData \/ (length rest < length bytes)%nat.
Proof.
  revert st. induction bytes as [|b bytes IH]; intros st; cbn [parse]; [intros [= <- <- <-]; by left|].
  destruct (step st b) as [st1 [r1|]]; [intros [= <- <- <-]; right; cbn; lia|].
  intros [?|?]%IH; [by left|right; cbn; lia].
Qed.

#[local] Instance safe_command c : Safe (mbind (validate_request c) execute).
Proof.
  intros st. apply nopanic_bind; [apply safe_validate|]. intros c' st' H.
  apply validate_ret in H as (-> & E & Ha). apply nopanic_execute. by rewrite E.
Qed.

#[local] Instance safe_handle_request r : Safe (handle_request r).
Proof. unfold handle_request. destruct r; apply _. Qed.

(** The loops end with a value: their errors are answered. *)
Class Ends {A} (m : M A) : Prop := ends : forall st, exists a, snd (m st) = Ret a.

#[local] Instance ends_ret {A} (a : A) : Ends (ret a).
Proof. intros st. by exists a. Qed.
#[local] Instance ends_get : Ends get_session.
Proof. intros st. by exists (fst st). Qed.
#[local] Instance ends_set_receiver r : Ends (set_receiver r).
Proof. intros [se w]. by exists tt. Qed.
#[local] Instance ends_farewell b : Ends (farewell b).
Proof. intros st. by exists Ended. Qed.
#[local] Instance ends_into_tls : Ends into_tls.
Proof. intros [se w]. unfold into_tls. destruct (tls_accept w) as [w' []]; eauto. Qed.
#[local] Instance ends_bind {A B} (m : M A) (k : A -> M B) : Ends m -> (forall a, Ends (k a)) -> Ends (mbind m k).
Proof.
  intros Hm Hk st. unfold mbind. destruct (Hm st) as [a E]. destruct (m st) as [st' r]. cbn [snd] in E. subst r. apply Hk.
Qed.
#[local] Instance ends_write_err e : Ends (write_err e).
Proof.
  intros st. unfold write_err. destruct (should_write_err e); [|by eexists].
  pose proof (safe (m := write_bytes (error_response e)) st) as H. unfold nopanic in H.
  destruct (write_bytes _ st) as [st' []]; [by eexists..|done].
Qed.

(** A read of [n] bytes has at most [n] requests. *)
Lemma ends_gather fuel : forall bytes requests, (length bytes < fuel)%nat -> Ends (gather fuel bytes requests).
Proof.
  induction fuel as [|fuel IH]; intros bytes requests Hf; [lia|]. cbn [gather].
  apply ends_bind; [apply _|]. intros s. destruct (parse (receiver s) bytes) as [[st r] rest] eqn:E.
  apply parse_rest in E. destruct r as [request|[|reason]].
  - apply ends_bind; [apply _|]. intros _. apply IH. destruct E as [[=]|]; lia.
  - apply ends_bind; apply _.
  - assert (length rest < fuel)%nat as Hr by (destruct E as [[=]|]; lia).
    apply ends_bind; [apply _|]. intros _. destruct (sstate s); [|by apply IH].
    intros st1. pose proof (safe (m := call fail2banned) st1) as Hc. unfold nopanic in Hc.
    destruct (call fail2banned st1) as [st2 [[]|e|]]; cbn in *; try done; [by exists None|by apply IH..].
Qed.

#[local] Instance ends_run_requests requests : Ends (run_requests requests).
Proof.
  induction requests as [|request requests IH]; [apply _|]. intros st. cbn [run_requests].
  pose proof (safe (m := handle_request request) st) as Hs. unfold nopanic in Hs.
  destruct (handle_request request st) as [st' [[]|e|]]; cbn [snd] in *; try apply IH; try done; try (by eexists).
  destruct (ends_write_err e st') as [b E]. destruct (write_err e st') as [st2 r]. cbn [snd] in E. subst r.
  destruct b; [apply IH|by eexists].
Qed.

#[local] Instance ends_ingest bytes : Ends (ingest bytes).
Proof. unfold ingest. apply ends_bind; [apply ends_gather; lia|]. intros []; apply _. Qed.

#[local] Instance ends_handle_conn reads : Ends (handle_conn reads).
Proof.
  induction reads as [|[[|b bytes]| | | |] reads IH]; cbn [handle_conn]; try apply _.
  apply ends_bind; [apply _|]. intros []; apply _.
Qed.

Lemma handle_ret reads st : snd (handle reads st) = Ret tt.
Proof.
  unfold handle. pose proof (safe (m := write_bytes SERVER_GREETING) st) as Hw. unfold nopanic in Hw.
  destruct (write_bytes SERVER_GREETING st) as [st1 [[]|e|]]; cbn [snd] in *; try done.
  match goal with |- snd (?m st1) = _ => enough (Ends m) as Hm by (by destruct (Hm st1) as [[] E]) end.
  apply ends_bind; [apply _|]. intros [rest| |]; [|apply _..]. destruct acceptor_is_tls; [|apply _].
  apply ends_bind; [apply _|]. intros []; [|apply _]. apply ends_bind; apply _.
Qed.

(** ** What a command does to the state *)

Definition unmark (m : Mailbox) : Mailbox := with_messages m (map (set_deleted false) (messages m)).

(** The mailbox after a command of the transaction state. *)
Definition effect (c : Request) (t : Token) (m : Mailbox) : Mailbox :=
  match c with
  | Dele msg => if has_permission t Pop3Dele then fst (dele_all m [msg]) else m
  | DeleMany msgs => if has_permission t Pop3Dele then fst (dele_all m msgs) else m
  | Rset => unmark m
  | _ => m
  end.

Ltac run_monad := unfold mbind, get_session, authenticated, ret, fail, enforce, call, set_state, write_ok, write_bytes.

Lemma handle_dele_state l se w m t : sstate se = Authenticated m t ->
  handle_dele l (se, w) =
    if has_permission t Pop3Dele then
      write_bytes (snd (dele_all m l))
        (MkSession (receiver se) (Authenticated (fst (dele_all m l)) t) (output se) (tls se), w)
    else ((se, w), Fail (MkTrc ESecurity (Some (permission_name Pop3Dele)))).
Proof.
  intros Es. unfold handle_dele. run_monad. cbn. rewrite Es. destruct (has_permission t Pop3Dele); [|done].
  by destruct (dele_all m l).
Qed.

(** The world's stores: reading a message does not change them. *)
Section Stores.
Variable D : Type.
Variable store : W -> D.
Definition keeps_store {A} (f : W -> W * A) : Prop := forall w, store (fst (f w)) = store w.
Hypothesis metadata_keeps : forall a i, keeps_store (get_metadata a i).
Hypothesis blob_keeps : forall h, keeps_store (get_blob h).

(** Operations that only read: neither the state nor the stores change. *)
Definition same (st st' : Session * W) : Prop :=
  sstate (fst st') = sstate (fst st) /\ store (snd st') = store (snd st).

Class Reads {A} (m : M A) : Prop := reads : forall st, same st (fst (m st)).

#[local] Instance reads_ret {A} (a : A) : Reads (ret a).
Proof. done. Qed.
#[local] Instance reads_fail {A} e : Reads (@fail A e).
Proof. done. Qed.
#[local] Instance reads_authenticated : Reads authenticated.
Proof. intros [se w]. unfold authenticated. run_monad. cbn. by destruct (sstate se) eqn:E. Qed.
#[local] Instance reads_get : Reads get_session.
Proof. done. Qed.
#[local] Instance reads_enforce t p : Reads (enforce t p).
Proof. unfold enforce. by destruct (has_permission t p). Qed.
#[local] Instance reads_write_bytes b : Reads (write_bytes b).
Proof. intros [se w]. unfold write_bytes. by case_if. Qed.
#[local] Instance reads_write_ok b : Reads (write_ok b).
Proof. apply reads_write_bytes. Qed.
#[local] Instance reads_bind {A B} (m : M A) (k : A -> M B) : Reads m -> (forall a, Reads (k a)) -> Reads (mbind m k).
Proof.
  intros Hm Hk st. unfold mbind. specialize (Hm st). destruct (m st) as [st' [a|e|]]; cbn [fst] in *; try done.
  specialize (Hk a st'). destruct Hm, Hk. split; congruence.
Qed.
Lemma reads_call {A} (f : W -> W * result A TrcError) : keeps_store f -> Reads (call f).
Proof. intros H [se w]. unfold call. specialize (H w). by destruct (f w) as [w' []]. Qed.
#[local] Instance reads_metadata a i : Reads (call (get_metadata a i)).
Proof. apply reads_call, metadata_keeps. Qed.
#[local] Instance reads_blob h : Reads (call (get_blob h)).
Proof. apply reads_call, blob_keeps. Qed.

#[local] Instance reads_list m : Reads (handle_list m).
Proof.
  apply reads_bind; [apply _|]. intros [mb t]. apply reads_bind; [apply _|]. intros _.
  destruct m; [destruct (get_message _ _)|]; apply _.
Qed.
#[local] Instance reads_uidl m : Reads (handle_uidl m).
Proof.
  apply reads_bind; [apply _|]. intros [mb t]. apply reads_bind; [apply _|]. intros _.
  destruct m; [destruct (get_message _ _)|]; apply _.
Qed.
#[local] Instance reads_stat : Reads handle_stat.
Proof. apply reads_bind; [apply _|]. intros [mb t]. apply _. Qed.
#[local] Instance reads_fetch m l : Reads (handle_fetch m l).
Proof.
  apply reads_bind; [apply _|]. intros [mb t]. apply reads_bind; [apply _|]. intros _.
  destruct (get_message _ _); [|apply _]. apply reads_bind; [apply _|]. intros [[[rh bo] bh]|]; [|apply _].
  apply reads_bind; [apply _|]. intros []; apply _.
Qed.

Lemma reads_quit : (forall a t ids, keeps_store (emails_delete a t ids)) -> (forall b, keeps_store (commit_batch b)) ->
  Reads handle_quit.
Proof.
  intros He Hc. apply reads_bind; [apply _|]. intros s. destruct (sstate s) as [|m t]; [apply _|].
  destruct (marked m) as [|i ids]; [apply _|]. apply reads_bind; [apply reads_call, He|]. intros [nd b].
  apply reads_bind; [destruct (batch_is_empty b); [apply _|apply reads_call, Hc]|]. intros _. destruct nd; apply _.
Qed.

(** A command after the login: the ones of the login are refused. *)
Definition login_command (c : Request) : bool :=
  match c with User _ | Pass _ | Apop _ _ | Auth _ _ => true | _ => false end.

Lemma validate_authenticated c se w m t : sstate se = Authenticated m t -> rate_limited = false ->
  validate_request c (se, w) =
    if login_command c then ((se, w), Fail (pop3_error s#"Already authenticated."))
    else match c with
         | Stls => if tls se then ((se, w), Fail (pop3_error s#"Already in TLS mode.")) else ((se, w), Ret c)
         | _ => ((se, w), Ret c)
         end.
Proof.
  intros Es Hr. unfold validate_request. run_monad. cbn. rewrite Es.
  destruct c; try (destruct mechanism); cbn; rewrite ?Hr; try done. by destruct (tls se).
Qed.

Lemma then_fst m r st : fst (then_ m r st) = fst (m st).
Proof. unfold then_, mbind. by destruct (m st) as [st' []]. Qed.

(** A command of the transaction state, [QUIT] apart: the mailbox changes as
    [effect] says and the stores do not. *)
Lemma execute_effect (c : Request) se w m t : sstate se = Authenticated m t -> login_command c = false -> c <> Quit ->
  sstate (fst (fst (execute c (se, w)))) = Authenticated (effect c t m) t /\ store (snd (fst (execute c (se, w)))) = store w.
Proof.
  intros Es Hl Hq.
  assert (forall k : M unit, Reads k ->
    sstate (fst (fst (k (se, w)))) = Authenticated m t /\ store (snd (fst (k (se, w)))) = store w) as Hk.
  { intros k H. destruct (H (se, w)) as [E1 E2]. cbn in *. by rewrite E1, E2. }
  assert (forall l, sstate (fst (fst (handle_dele l (se, w)))) =
      Authenticated (if has_permission t Pop3Dele then fst (dele_all m l) else m) t /\
      store (snd (fst (handle_dele l (se, w)))) = store w) as Hd.
  { intros l. rewrite (handle_dele_state l se w m t Es). destruct (has_permission t Pop3Dele); [|done].
    by unfold write_bytes; case_if. }
  destruct c; try done; cbn [execute effect]; rewrite ?then_fst; try (apply Hk; apply _); try apply Hd.
  unfold handle_rset. run_monad. cbn. rewrite Es. by case_if.
Qed.

Lemma handle_request_effect (c : Request) se w m t : sstate se = Authenticated m t -> rate_limited = false -> c <> Quit ->
  let st' := fst (handle_request (Ok c) (se, w)) in
  sstate (fst st') = Authenticated (effect c t m) t /\ store (snd st') = store w.
Proof.
  intros Es Hr Hq. cbn [handle_request]. unfold mbind. rewrite (validate_authenticated c se w m t Es Hr).
  destruct (login_command c) eqn:El; [by destruct c|].
  pose proof (execute_effect c se w m t Es El Hq).
  destruct c; try done. by destruct (tls se).
Qed.

(** *** The requests of a read *)

Lemma write_err_same e st : same st (fst (write_err e st)).
Proof.
  unfold write_err. destruct (should_write_err e); [|done].
  pose proof (reads_write_bytes (error_response e) st) as H. by destruct (write_bytes _ st) as [st' []].
Qed.

Lemma run_requests_app a b st : run_requests (a ++ b) st =
  match run_requests a st with (st, Ret Continue) => run_requests b st | o => o end.
Proof.
  revert st. induction a as [|r a IH]; intros st; [done|]. cbn [app run_requests].
  destruct (handle_request r st) as [st1 [[]|e|]]; try done.
  destruct (write_err e st1) as [st2 [[]|e2|]]; try done.
Qed.

(** The marks after commands, as the protocol has them: [DELE] sets the one
    of its message, [RSET] clears all. *)
Definition spec_marks (marks : list bool) (c : Request) : list bool :=
  match c with
  | Dele msg => <[message_index msg := true]> marks
  | DeleMany msgs => fold_left (fun marks msg => <[message_index msg := true]> marks) msgs marks
  | Rset => replicate (length marks) false
  | _ => marks
  end.

Definition marks (m : Mailbox) : list bool := map deleted (messages m).

(** All of a mailbox but the marks. *)
Definition static (m : Mailbox) : list (Z * Z * Z) * Z * Z * Z * Z :=
  (map (fun x => (id x, uid x, size x)) (messages m), account_id m, uid_validity m, total m, mailbox_size m).

Lemma update_nth_marks l n : map deleted (update_nth l n (set_deleted true)) = <[n := true]> (map deleted l).
Proof. revert n. induction l as [|x l IH]; intros [|n]; cbn; [done..|]. by rewrite IH. Qed.

Lemma update_nth_static l n : map (fun x => (id x, uid x, size x)) (update_nth l n (set_deleted true)) =
  map (fun x => (id x, uid x, size x)) l.
Proof. revert n. induction l as [|x l IH]; intros [|n]; cbn; [done..|]. by rewrite IH. Qed.

Lemma get_message_lookup m msg : get_message m msg = messages m !! message_index msg.
Proof.
  unfold get_message. generalize (message_index msg). induction (messages m) as [|x l IH]; intros [|n]; cbn; auto.
Qed.

Lemma dele_one_spec m msg : marks (fst (dele_one m msg)) = <[message_index msg := true]> (marks m) /\
  static (fst (dele_one m msg)) = static m.
Proof.
  unfold dele_one, marks. rewrite get_message_lookup. destruct (messages m !! message_index msg) as [x|] eqn:E.
  - destruct (deleted x) eqn:Ed; cbn [fst].
    + split; [|done]. symmetry. apply list_insert_id. change (map deleted (messages m)) with (deleted <$> messages m).
      by rewrite list_lookup_fmap, E, <- Ed.
    + cbn. unfold static. cbn. by rewrite update_nth_marks, update_nth_static.
  - split; [|done]. cbn. symmetry. apply list_insert_ge. rewrite length_map. by apply lookup_ge_None.
Qed.

Lemma dele_all_spec msgs : forall m,
  marks (fst (dele_all m msgs)) = fold_left (fun marks msg => <[message_index msg := true]> marks) msgs (marks m) /\
  static (fst (dele_all m msgs)) = static m.
Proof.
  induction msgs as [|msg msgs IH]; intros m; [done|]. cbn [dele_all fold_left].
  destruct (dele_one_spec m msg) as [E1 E2]. destruct (dele_one m msg) as [m1 a]. cbn [fst] in *.
  destruct (IH m1) as [E3 E4]. destruct (dele_all m1 msgs) as [m2 b]. cbn [fst] in *. split; congruence.
Qed.

Lemma effect_static c t m : static (effect c t m) = static m.
Proof.
  destruct c; try done; cbn [effect]; try (destruct (has_permission t Pop3Dele); [apply dele_all_spec|done]).
  unfold unmark, static. cbn. by rewrite map_map.
Qed.

Lemma effect_marks c t m : has_permission t Pop3Dele = true -> marks (effect c t m) = spec_marks (marks m) c.
Proof.
  intros Hp. destruct c; try done; cbn [effect spec_marks]; rewrite ?Hp.
  - by destruct (dele_all_spec [msg] m) as [-> _].
  - by destruct (dele_all_spec msgs m) as [-> _].
  - unfold unmark, marks. cbn. rewrite map_map, length_map. induction (messages m); cbn in *; congruence.
Qed.

Lemma run_requests_effect (cmds : list Request) : forall st m t, sstate (fst st) = Authenticated m t -> rate_limited = false ->
  has_permission t Pop3Dele = true -> Forall (fun c => c <> Quit) cmds ->
  let '(st', r) := run_requests (map Ok cmds) st in
  store (snd st') = store (snd st) /\
  (r = Ret Continue -> exists m', sstate (fst st') = Authenticated m' t /\ static m' = static m /\
     marks m' = fold_left spec_marks cmds (marks m)).
Proof.
  induction cmds as [|c cmds IH]; intros st m t Es Hr Hp Hq; [cbn; eauto 10|].
  apply Forall_cons_1 in Hq as [Hc Hq]. destruct st as [se w]. cbn [fst snd] in *.
  destruct (handle_request_effect c se w m t Es Hr Hc) as [E1 E2].
  assert (forall st2, same (fst (handle_request (Ok c) (se, w))) st2 ->
    let '(st', r) := run_requests (map Ok cmds) st2 in
    store (snd st') = store w /\
    (r = Ret Continue -> exists m', sstate (fst st') = Authenticated m' t /\ static m' = static m /\
     marks m' = fold_left spec_marks (c :: cmds) (marks m))) as Hnext.
  { intros st2 [S1 S2]. rewrite E1 in S1. specialize (IH st2 _ t S1 Hr Hp Hq).
    destruct (run_requests (map Ok cmds) st2) as [st' r]. destruct IH as [H1 H2]. split; [congruence|].
    intros Hc'. destruct (H2 Hc') as (m' & A & B & C). exists m'. rewrite effect_static in B.
    rewrite effect_marks in C by done. by split_and!. }
  cbn [map run_requests]. destruct (handle_request (Ok c) (se, w)) as [st1 [[]|e|]]; cbn [fst] in *; try done.
  - by apply Hnext.
  - pose proof (write_err_same e st1) as Hw. destruct (write_err e st1) as [st2 [[]|e2|]]; cbn [fst] in *.
    + by apply Hnext.
    + destruct Hw. split; [congruence|done].
    + destruct Hw. split; [congruence|done].
    + destruct Hw. split; [congruence|done].
Qed.

(** *** QUIT *)

Definition delete_and_commit (account : Z) (t : Token) (ids : list Z) (w : W) : W :=
  match emails_delete account t ids w with
  | (w, Ok (_, batch)) => if batch_is_empty batch then w else fst (commit_batch batch w)
  | (w, Err _) => w
  end.

Lemma bitmap_insert_spec x l : StronglySorted Z.lt l ->
  StronglySorted Z.lt (bitmap_insert x l) /\ forall y, In y (bitmap_insert x l) <-> y = x \/ In y l.
Proof.
  induction 1 as [|z l Hs IH Hz]; cbn [bitmap_insert]; [split; [by repeat constructor|cbn; intuition]|].
  destruct (Z.ltb_spec x z).
  - split; [|cbn; intuition]. constructor; [by constructor|]. constructor; [done|].
    eapply Forall_impl; [|exact Hz]. cbn. lia.
  - destruct (Z.eqb_spec x z); [subst; split; [by constructor|cbn; intuition]|].
    destruct IH as [IH1 IH2]. split; [|intros y; cbn; rewrite IH2; intuition]. constructor; [done|].
    apply List.Forall_forall. intros y [->|Hy]%IH2; [lia|]. by eapply List.Forall_forall in Hz.
Qed.

Lemma marked_fold (l : list Message) : forall acc, StronglySorted Z.lt acc ->
  let r := fold_left (fun l x => bitmap_insert (id x) l) l acc in
  StronglySorted Z.lt r /\ forall y, In y r <-> In y acc \/ exists x, In x l /\ id x = y.
Proof.
  induction l as [|x l IH]; intros acc Ha; cbn [fold_left]; [split; [done|]; cbn; naive_solver|].
  destruct (bitmap_insert_spec (id x) acc Ha) as [H1 H2]. destruct (IH _ H1) as [H3 H4]. split; [done|].
  intros y. rewrite H4, H2. cbn. naive_solver.
Qed.

Lemma marked_spec m : StronglySorted Z.lt (marked m) /\
  forall y, In y (marked m) <-> exists i x, messages m !! i = Some x /\ id x = y /\ marks m !! i = Some true.
Proof.
  destruct (marked_fold (List.filter deleted (messages m)) []) as [H1 H2]; [constructor|]. split; [done|].
  intros y. unfold marked. rewrite H2. cbn. unfold marks. split.
  - intros [[]|(x & Hx & <-)]. apply filter_In in Hx as [Hx Hd]. apply list_elem_of_In, list_elem_of_lookup in Hx as [i Hi].
    exists i, x. change (map deleted (messages m)) with (deleted <$> messages m). rewrite list_lookup_fmap, Hi. cbn.
    split_and!; congruence.
  - intros (i & x & Hi & <- & Hd). right. exists x. split; [|done].
    change (map deleted (messages m)) with (deleted <$> messages m) in Hd. rewrite list_lookup_fmap, Hi in Hd.
    apply filter_In. split; [|cbn in Hd; congruence]. eapply list_elem_of_In, list_elem_of_lookup; eauto.
Qed.

Lemma static_ids m m' i : static m' = static m -> id <$> messages m' !! i = id <$> messages m !! i.
Proof.
  intros Hs. injection Hs as Hs _ _ _ _.
  assert (id <$> messages m' = id <$> messages m) as E.
  { apply (f_equal (map (fun p => fst (fst p)))) in Hs. by rewrite !map_map in Hs. }
  by rewrite <- !list_lookup_fmap, E.
Qed.

Lemma write_world b st : snd (fst (write_bytes b st)) = snd st.
Proof. destruct st as [se w]. unfold write_bytes. by case_if. Qed.

Lemma run_one_world r st : snd (fst (run_requests [r] st)) = snd (fst (handle_request r st)).
Proof.
  cbn [run_requests]. destruct (handle_request r st) as [st1 [[]|e|]]; try done.
  unfold write_err. destruct (should_write_err e).
  - pose proof (write_world (error_response e) st1).
    destruct (write_bytes _ st1) as [st2 [|e2|]]; [destruct (negb _)|..]; done.
  - by destruct (negb _).
Qed.

Lemma quit_world st m t : sstate (fst st) = Authenticated m t ->
  snd (fst (run_requests [@Ok Request TrcError Quit] st)) =
    match marked m with [] => snd st | ids => delete_and_commit (account_id m) t ids (snd st) end.
Proof.
  intros Es. rewrite run_one_world. destruct st as [se w]. cbn [fst snd] in *.
  change (handle_request (Ok Quit) (se, w)) with (then_ handle_quit SClose (se, w)). rewrite then_fst.
  unfold handle_quit, mbind at 1. cbn [get_session fst]. rewrite Es.
  destruct (marked m) as [|i ids]; [apply (write_world _ (se, w))|].
  unfold delete_and_commit, mbind, call.
  destruct (emails_delete (account_id m) t (i :: ids) w) as [w1 [[nd batch]|e]]; [|done].
  destruct (batch_is_empty batch); [|destruct (commit_batch batch w1) as [w2 [|e]]; [|done]];
    destruct nd; apply (write_world _ (se, _)).
Qed.

End Stores.

(** ** Message numbers *)

(** A relation on states that every request respects is respected by whole
    connections: nothing else of them touches the state. *)
Section Lifting.
Context (R : SState -> SState -> Prop) `{!PreOrder R}.
Definition along (st st' : Session * W) : Prop := R (sstate (fst st)) (sstate (fst st')).
Class Along {A} (m : M A) : Prop := alongs : forall st, along st (fst (m st)).
Context (along_request : forall r, Along (handle_request r)).

Lemma along_same st st' : sstate (fst st') = sstate (fst st) -> along st st'.
Proof. unfold along. by intros ->. Qed.
Lemma along_trans st1 st2 st3 : along st1 st2 -> along st2 st3 -> along st1 st3.
Proof. unfold along. by etrans. Qed.
#[local] Instance along_bind {A B} (m : M A) (k : A -> M B) : Along m -> (forall a, Along (k a)) -> Along (mbind m k).
Proof.
  intros Hm Hk st. unfold mbind. specialize (Hm st). destruct (m st) as [st' [a|e|]]; cbn [fst] in *; try done.
  by eapply along_trans, Hk.
Qed.
#[local] Instance along_ret {A} (a : A) : Along (ret a).
Proof. intros st. by apply along_same. Qed.
#[local] Instance along_get : Along get_session.
Proof. intros st. by apply along_same. Qed.
#[local] Instance along_set_receiver r : Along (set_receiver r).
Proof. intros [se w]. by apply along_same. Qed.
#[local] Instance along_call {A} (f : W -> W * result A TrcError) : Along (call f).
Proof. intros [se w]. apply along_same. unfold call. by destruct (f w) as [w' []]. Qed.
#[local] Instance along_write b : Along (write_bytes b).
Proof. intros [se w]. apply along_same. unfold write_bytes. by case_if. Qed.
#[local] Instance along_write_err e : Along (write_err e).
Proof.
  intros st. unfold write_err. destruct (should_write_err e); [|by apply along_same].
  pose proof (along_write (error_response e) st) as H. by destruct (write_bytes _ st) as [st' []].
Qed.

#[local] Instance along_gather fuel : forall bytes requests, Along (gather fuel bytes requests).
Proof.
  induction fuel as [|fuel IH]; intros bytes requests; [intros st; by apply along_same|]. cbn [gather].
  apply along_bind; [apply _|]. intros s. destruct (parse (receiver s) bytes) as [[st [request|[|reason]]] rest]; try apply _.
  apply along_bind; [apply _|]. intros _. destruct (sstate s); [|apply IH].
  intros st1. pose proof (along_call fail2banned st1) as Hc.
  destruct (call fail2banned st1) as [st2 [[]|e|]]; cbn [fst] in *; try done; by eapply along_trans, IH.
Qed.

#[local] Instance along_run_requests requests : Along (run_requests requests).
Proof.
  induction requests as [|request requests IH]; [apply _|]. intros st. cbn [run_requests].
  pose proof (along_request request st) as H. destruct (handle_request request st) as [st1 [[]|e|]]; cbn [fst] in *; try done;
    [by eapply along_trans|].
  pose proof (along_write_err e st1) as Hw.
  destruct (write_err e st1) as [st2 [[]|e2|]]; cbn [fst] in *; repeat (eapply along_trans; [eassumption|]); try done;
    by apply along_same.
Qed.

#[local] Instance along_ingest bytes : Along (ingest bytes).
Proof. unfold ingest. apply along_bind; [apply _|]. intros []; apply _. Qed.

#[local] Instance along_farewell b : Along (farewell b).
Proof. intros st. apply (along_write b st). Qed.

Lemma along_handle_conn reads : Along (handle_conn reads).
Proof.
  induction reads as [|[[|b bytes]| | | |] reads IH]; cbn [handle_conn]; try apply _.
  apply along_bind; [apply _|]. intros []; apply _.
Qed.

Lemma along_handle reads : Along (handle reads).
Proof.
  pose proof along_handle_conn. assert (Along into_tls) as Htls.
  { intros [se w]. apply along_same. unfold into_tls. by destruct (tls_accept w) as [w' []]. }
  intros st. unfold handle. pose proof (along_write SERVER_GREETING st) as Hw.
  destruct (write_bytes SERVER_GREETING st) as [st1 [[]|e|]]; cbn [fst] in *; [|done..].
  eapply along_trans; [exact Hw|].
  match goal with |- along st1 (fst (?m st1)) => enough (Along m) as Hm by exact (Hm st1) end.
  apply along_bind; [apply _|]. intros [rest| |]; [|apply _..]. destruct acceptor_is_tls; [|apply _].
  apply along_bind; [apply _|]. intros []; [|apply _]. apply along_bind; apply _.
Qed.
End Lifting.

Lemma validate_session c st : fst (fst (validate_request c st)) = fst st.
Proof.
  assert (forall k, fst (fst ((let* b := call (rate_allowed k) in
      if b : bool then ret c else fail (MkTrc ETooManyRequests None)) st)) = fst st) as Hrate.
  { intros k. unfold mbind, call. destruct st as [se w]. by destruct (rate_allowed k w) as [w' [[]|e]]. }
  unfold validate_request, mbind at 1, get_session.
  destruct c; try (destruct mechanism); destruct (sstate (fst st)) as [f u|mb t];
    try (destruct (tls (fst st) || allow_plain_auth)); try (destruct u); try destruct (tls (fst st));
    try destruct rate_limited; by try apply Hrate.
Qed.

(** After the login, every request keeps the session, its token and its
    mailbox but for the marks. *)
Definition follows (s s' : SState) : Prop :=
  match s with
  | Authenticated m t => exists m', s' = Authenticated m' t /\ static m' = static m
  | NotAuthenticated _ _ => True
  end.

#[local] Instance follows_preorder : PreOrder follows.
Proof.
  split.
  - intros [|m t]; cbn; eauto.
  - intros [|m t] s2 s3; cbn; [done|]. intros (m' & -> & E). cbn. intros (m2 & -> & E2). exists m2. split; congruence.
Qed.

Lemma request_follows r st : follows (sstate (fst st)) (sstate (fst (fst (handle_request r st)))).
Proof.
  destruct (sstate (fst st)) as [|m t] eqn:Es; [done|]. destruct r as [c|e]; [|exists m; by cbn].
  cbn [handle_request]. unfold mbind. pose proof (validate_session c st) as Ev.
  destruct (validate_request c st) as [st1 [c'|e|]] eqn:E; cbn [fst] in *; try (rewrite Ev, Es; by exists m).
  apply validate_ret in E as (-> & _ & Ha). rewrite Es in Ha. destruct st1 as [se w]. cbn [fst] in *. subst se.
  assert (c = Quit \/ c <> Quit) as [->|Hq] by (destruct c; auto; by right).
  - cbn [execute]. rewrite then_fst. destruct (reads_quit unit (fun _ => tt) ltac:(done) ltac:(done) (fst st, w)) as [E _].
    rewrite E. cbn [fst]. rewrite Es. by exists m.
  - destruct (execute_effect unit (fun _ => tt) ltac:(done) ltac:(done) c (fst st) w m t Es) as [-> _]; [by destruct c|done|].
    eexists. by rewrite effect_static.
Qed.

(** Message numbers are good for a session: whatever the client sends
    after the login - any reads, well-formed or not, with TLS started or not -
    the session stays logged in with the same token, and its mailbox has the
    same messages with the same documents, UIDs and sizes at the same
    numbers, the same totals and the same validity; only marks change. *)
Theorem message_numbers_stable (reads : list Read) (se : Session) (w : W) (m : Mailbox) (t : Token) :
  sstate se = Authenticated m t ->
  exists m', sstate (fst (fst (handle reads (se, w)))) = Authenticated m' t /\ static m' = static m.
Proof.
  intros Es. pose proof (along_handle follows request_follows reads (se, w)) as H.
  unfold along in H. cbn [fst] in H. by rewrite Es in H.
Qed.

(** ** Grouped commands *)

(** What an outcome of the parser becomes. *)
Definition pending_of (r : result Request Error) : Pending :=
  match r with
  | Ok request => Ok request
  | Err (Parse reason) => Err (pop3_error (reason_text reason))
  | Err NeedsMoreData => Err (pop3_error [])
  end.

Definition push_pending (requests : list Pending) (r : Pending) : list Pending :=
  match r with Ok request => push_request requests request | Err _ => requests ++ [r] end.

Definition with_receiver (st : Session * W) (r : Pop3.State) : Session * W :=
  (MkSession r (sstate (fst st)) (output (fst st)) (tls (fst st)), snd st).

Lemma gather_outcomes fuel : forall bytes requests st m t, (length bytes < fuel)%nat ->
  sstate (fst st) = Authenticated m t ->
  gather fuel bytes requests st =
    let '(receiver', outs) := outcomes (receiver (fst st)) bytes in
    (with_receiver st receiver', Ret (Some (fold_left push_pending (map pending_of outs) requests))).
Proof.
  induction fuel as [|fuel IH]; intros bytes requests [se w] m t Hf Es; [lia|]. cbn [gather fst snd] in *.
  unfold mbind at 1. cbn [get_session fst]. rewrite outcomes_parse.
  destruct (parse (receiver se) bytes) as [[st r] rest] eqn:E. pose proof (parse_rest _ _ _ _ _ E) as Hl.
  assert (forall requests, r <> Err NeedsMoreData -> gather fuel rest requests (MkSession st (sstate se) (output se) (tls se), w) =
    let '(receiver', outs) := outcomes st rest in
    (with_receiver (se, w) receiver', Ret (Some (fold_left push_pending (map pending_of outs) requests)))) as Hn.
  { intros rs Hr. erewrite IH; [cbn [fst receiver]; by destruct (outcomes st rest)|destruct Hl; [congruence|lia]|exact Es]. }
  destruct r as [request|[|reason]]; [|done|].
  - unfold mbind. cbn. rewrite Hn by done. by destruct (outcomes st rest).
  - rewrite Es. unfold mbind. cbn. rewrite Hn by done. by destruct (outcomes st rest).
Qed.

Lemma dele_all_app a b m :
  dele_all m (a ++ b) = (fst (dele_all (fst (dele_all m a)) b), snd (dele_all m a) ++ snd (dele_all (fst (dele_all m a)) b)).
Proof.
  revert m. induction a as [|x a IH]; intros m; cbn [app dele_all fst snd]; [by destruct (dele_all m b)|].
  destruct (dele_one m x) as [m1 r1]. rewrite IH. destruct (dele_all m1 a) as [m2 r2]. cbn [fst snd].
  by rewrite app_assoc.
Qed.

Section Grouping.
Context (takes : forall sent bytes, socket_takes sent bytes = true) (unlimited : rate_limited = false).
Context (t : Token) (may_delete : has_permission t Pop3Dele = true).

Lemma run_dele l se w m (request : Request) : sstate se = Authenticated m t -> (request = DeleMany l \/ exists n, l = [n] /\ request = Dele n) ->
  handle_request (Ok request) (se, w) =
    ((MkSession (receiver se) (Authenticated (fst (dele_all m l)) t) (output se ++ snd (dele_all m l)) (tls se), w), Ret Continue).
Proof.
  intros Es Hr. cbn [handle_request]. unfold mbind. rewrite (validate_authenticated request se w m t Es unlimited).
  destruct Hr as [->|(n & -> & ->)]; cbn [login_command execute]; unfold then_, mbind;
    rewrite (handle_dele_state _ se w m t Es), may_delete; unfold write_bytes; by rewrite takes.
Qed.

Lemma run_combine last (request : Request) st m : sstate (fst st) = Authenticated m t ->
  run_requests (combine last request) st = run_requests [last; Ok request] st.
Proof.
  intros Es. destruct st as [se w].
  assert (forall l n (last : Request), (last = DeleMany l \/ exists n, l = [n] /\ last = Dele n) ->
    run_requests [Ok (DeleMany (l ++ [n]))] (se, w) = run_requests [Ok last; Ok (Dele n)] (se, w)) as H.
  { intros l n c Hc. cbn [run_requests]. rewrite (run_dele (l ++ [n]) se w m _ Es) by (by left).
    rewrite (run_dele l se w m c Es Hc). cbv iota. erewrite (run_dele [n]); [|reflexivity|right; by exists n].
    cbn [receiver sstate output tls]. rewrite dele_all_app. cbn [fst snd]. by rewrite app_assoc. }
  destruct request; try done. destruct last as [[]|]; try done; cbn [combine].
  - apply (H [msg0]). eauto.
  - apply (H msgs). by left.
Qed.

Lemma run_cons x a b st m : sstate (fst st) = Authenticated m t ->
  (forall st' m', sstate (fst st') = Authenticated m' t -> run_requests a st' = run_requests b st') ->
  run_requests (x :: a) st = run_requests (x :: b) st.
Proof.
  intros Es H. cbn [run_requests]. pose proof (request_follows x st) as Hf. rewrite Es in Hf.
  destruct Hf as (m' & Hf & _). destruct (handle_request x st) as [st1 [[]|e|]]; cbn [fst] in *; try done; [by eapply H|].
  destruct (write_err_same unit (fun _ => tt) e st1) as [Hw _].
  destruct (write_err e st1) as [st2 [[]|e2|]]; cbn [fst] in *; try done. eapply H. by rewrite Hw.
Qed.

Lemma run_push request reqs : forall st m, sstate (fst st) = Authenticated m t ->
  run_requests (push_request reqs request) st = run_requests (reqs ++ [Ok request]) st.
Proof.
  induction reqs as [|x reqs IH]; intros st m Es; [done|]. destruct reqs as [|y reqs].
  - by eapply run_combine.
  - change (push_request (x :: y :: reqs) request) with (x :: push_request (y :: reqs) request). by eapply run_cons.
Qed.

Lemma run_group ps : forall acc st m, sstate (fst st) = Authenticated m t ->
  run_requests (fold_left push_pending ps acc) st = run_requests (acc ++ ps) st.
Proof.
  induction ps as [|p ps IH]; intros acc st m Es; [by rewrite app_nil_r|]. cbn [fold_left].
  rewrite (IH _ _ _ Es). change (p :: ps) with ([p] ++ ps). rewrite app_assoc.
  rewrite (run_requests_app (acc ++ [p])), (run_requests_app (push_pending acc p)).
  destruct p as [request|e]; [|done].
  cbn [push_pending]. by erewrite run_push by done.
Qed.

(** C30: Grouping deletions is invisible: a read of a logged-in client whose
    socket takes the answers and whose account may delete and has no rate
    limit is answered as if each outcome of the parser, request or error, had
    been handled on its own and in order; the answers, the mailbox, the
    stores and the end of the session are the same. *)
Theorem ingest_in_order (bytes : list Z) (st : Session * W) (m : Mailbox) : sstate (fst st) = Authenticated m t ->
  let parsed := outcomes (receiver (fst st)) bytes in
  ingest bytes st = run_requests (map pending_of (snd parsed)) (with_receiver st (fst parsed)).
Proof.
  intros Es. pose proof (gather_outcomes (S (length bytes)) bytes [] st m t ltac:(lia) Es) as H.
  unfold ingest, mbind at 1. rewrite H. destruct (outcomes (receiver (fst st)) bytes) as [r outs].
  by erewrite run_group.
Qed.
End Grouping.

(** ** The session's invariant *)

Definition Zsum (l : list Z) : Z := fold_right Z.add 0 l.

(** Messages by increasing UID, their number and the sum of their sizes as
    32-bit counters have them. *)
Definition mailbox_ok (m : Mailbox) : Prop :=
  StronglySorted Z.lt (map uid (messages m)) /\ total m = wrap 32 (Z.of_nat (length (messages m))) /\
  mailbox_size m = wrap 32 (Zsum (map size (messages m))).

Definition session_ok (s : SState) : Prop :=
  match s with
  | NotAuthenticated failures _ => 0 <= failures <= max_auth_failures
  | Authenticated m _ => mailbox_ok m
  end.

Lemma map_insert_keys k v l : StronglySorted Z.lt (map fst l) ->
  StronglySorted Z.lt (map fst (map_insert k v l)) /\ forall y, In y (map fst (map_insert k v l)) <-> y = k \/ In y (map fst l).
Proof.
  induction l as [|[k' v'] l IH]; cbn [map_insert map fst]; intros Hs; [split; [by repeat constructor|cbn; intuition]|].
  inversion Hs as [|? ? Hl Hk]; subst. destruct (Z.ltb_spec k k').
  - split; [|cbn; intuition]. constructor; [done|]. constructor; [done|]. eapply Forall_impl; [|exact Hk]. cbn. lia.
  - destruct (Z.eqb_spec k k') as [->|]; [split; [by constructor|cbn; intuition]|].
    destruct (IH Hl) as [H1 H2]. cbn [map fst]. split; [|intros y; cbn; rewrite H2; intuition].
    constructor; [done|]. apply List.Forall_forall. intros y [->|Hy]%H2; [lia|]. by eapply List.Forall_forall in Hk.
Qed.

Lemma map_insert_fold (l : list (Z * (Z * Z))) : forall acc, StronglySorted Z.lt (map fst acc) ->
  StronglySorted Z.lt (map fst (fold_left (fun l e => map_insert (fst e) (snd e) l) l acc)).
Proof. induction l as [|x l IH]; intros acc H; [done|]. cbn. apply IH. by apply map_insert_keys. Qed.

Lemma wrap_fold {A} (f : A -> Z) l : forall acc,
  fold_left (fun s e => wrap 32 (s + f e)) l (wrap 32 acc) = wrap 32 (acc + Zsum (map f l)).
Proof.
  induction l as [|x l IH]; intros acc; cbn [fold_left map]; [by rewrite Z.add_0_r|].
  assert (wrap 32 (wrap 32 acc + f x) = wrap 32 (acc + f x)) as -> by (by apply Z.add_mod_idemp_l). rewrite IH. unfold Zsum. cbn [map fold_right]. by rewrite Z.add_assoc.
Qed.

Lemma make_mailbox_ok account cache : mailbox_ok (make_mailbox account cache).
Proof.
  unfold make_mailbox. destruct (items cache) as [|x l]; [by split_and!; [constructor|..]|].
  set (mm := fold_left _ (omap _ _) []). unfold mailbox_ok. cbn [messages total mailbox_size]. split_and!.
  - rewrite map_map. cbn. apply map_insert_fold. constructor.
  - by rewrite length_map.
  - rewrite map_map. cbn. exact (wrap_fold (fun e => snd (snd e)) mm 0).
Qed.

(** The mailbox of an account without messages is the default one, whose
    account is 0. *)
Lemma empty_mailbox_account account v : account_id (make_mailbox account (MkCache [] v)) = 0.
Proof. done. Qed.

Lemma handle_auth_ok c se w : session_ok (sstate se) -> session_ok (sstate (fst (fst (handle_auth c (se, w))))).
Proof.
  intros Ho. unfold handle_auth. destruct (authenticate c w) as [w1 [token|err]].
  - unfold fetch_mailbox, call_pure. run_monad. destruct (has_permission token Pop3Authenticate); [|done].
    cbn. destruct (in_flight token w1) as [w2 []]; cbn; try done;
      destruct (get_cached_messages (token_account token) w2) as [w3 [cache|e]]; cbn; try done; case_if; apply make_mailbox_ok.
  - destruct (event err); try done. destruct (sstate se) as [f u|m t] eqn:Es; cbn [fst sstate]; [|by rewrite Es].
    cbn in Ho. destruct (Z.ltb_spec f max_auth_failures); cbn [fst sstate]; [cbn; lia|by rewrite Es].
Qed.

Lemma handle_sasl_ok mech ps st : session_ok (sstate (fst st)) -> session_ok (sstate (fst (fst (handle_sasl mech ps st)))).
Proof.
  intros Ho. destruct st as [se w]. unfold handle_sasl. destruct mech; try done; (destruct (rev ps) as [|p l];
    [run_monad; cbn; by case_if|]; destruct (base64_decode p) as [ch|]; [|done];
    (match goal with |- context [match ?o with Some c => handle_auth c | None => _ end] => destruct o end);
    [by apply handle_auth_ok|done]).
Qed.

Lemma execute_ok c st : session_ok (sstate (fst st)) -> is_authenticated (sstate (fst st)) = false ->
  allowed c (sstate (fst st)) -> session_ok (sstate (fst (fst (execute c st)))).
Proof.
  destruct st as [se w]. cbn [fst]. intros Ho Hn Ha.
  destruct (sstate se) as [f u|] eqn:Es; [|done]. destruct c; cbn [execute allowed] in *; try done; rewrite ?then_fst;
    try (unfold handle_quit, handle_capa; run_monad; cbn; rewrite ?Es; cbn; case_if; cbn; rewrite ?Es; exact Ho).
  - unfold then_. run_monad. cbn. rewrite Es. cbn. by destruct (socket_takes _ _).
  - unfold mbind at 1, get_session. cbn [fst]. rewrite Es. destruct u as [u|]; [|done].
    unfold mbind at 1. cbn [set_state]. rewrite then_fst. by apply handle_auth_ok.
  - cbn. by rewrite Es.
  - apply handle_sasl_ok. cbn. by rewrite Es.
Qed.

Lemma mailbox_ok_static m m' : static m' = static m -> mailbox_ok m -> mailbox_ok m'.
Proof.
  intros E (H1 & H2 & H3). injection E as E _ _ Et Es. unfold mailbox_ok. rewrite Et, Es, H2, H3.
  assert (map uid (messages m') = map uid (messages m)) as ->
    by (apply (f_equal (map (fun p => snd (fst p)))) in E; by rewrite !map_map in E).
  assert (map size (messages m') = map size (messages m)) as ->
    by (apply (f_equal (map snd)) in E; by rewrite !map_map in E).
  apply (f_equal length) in E. rewrite !length_map in E. by rewrite E.
Qed.

Lemma request_ok_session r st : session_ok (sstate (fst st)) -> session_ok (sstate (fst (fst (handle_request r st)))).
Proof.
  intros Ho. destruct (sstate (fst st)) as [f u|m t] eqn:Es.
  - destruct r as [c|e]; [|cbn; by rewrite Es]. cbn [handle_request]. unfold mbind.
    pose proof (validate_session c st) as Ev.
    destruct (validate_request c st) as [st1 [c'|e|]] eqn:E; cbn [fst] in *; try (by rewrite Ev, Es).
    apply validate_ret in E as (-> & _ & Ha). rewrite Es in Ha. apply execute_ok; by rewrite Ev, Es.
  - pose proof (request_follows r st) as H. rewrite Es in H. destruct H as (m' & -> & E).
    cbn. by apply (mailbox_ok_static m).
Qed.

Definition keeps_ok (s s' : SState) : Prop := session_ok s -> session_ok s'.
#[local] Instance keeps_ok_preorder : PreOrder keeps_ok.
Proof. split; unfold keeps_ok; [by intros s|intros s1 s2 s3; auto]. Qed.


(** The default mailbox and numbers below one: [DELE 0] is [DELE 1]. *)
Lemma message_zero m : get_message m 0 = get_message m 1.
Proof. done. Qed.

(** The identifier of UIDL has no separator: two messages of two validities
    can share it. *)
Lemma unique_id_collides :
  unique_id (MkMailbox [] 1 1 1 9) (MkMessage 5 11 9 false) = unique_id (MkMailbox [] 1 11 1 9) (MkMessage 6 1 9 false).
Proof. done. Qed.

End Session.

(** ** A server *)

(** A server with one account: the world is the list of deleted documents,
    tokens are account numbers, the password is [pass]. *)
Module Demo.
Definition World : Type := list Z.
Definition cache (w : World) : Cache :=
  MkCache (List.filter (fun c => negb (bool_decide (document_id c ∈ w)))
             [MkCached 31 120 [(0, 2)]; MkCached 30 80 [(3, 9); (0, 1)]; MkCached 33 50 [(4, 1)]; MkCached 40 7 [(0, 5)]])
    (Some 7).
Definition authenticate (c : Credentials) (w : World) : World * result Z TrcError :=
  match c with
  | Basic _ secret => if bool_decide (secret = s#"pass") then (w, Ok 3) else (w, Err (MkTrc EAuthFailed None))
  | Bearer _ _ => (w, Err (MkTrc EAuthFailed None))
  end.
Definition read_ok {A} (a : A) (w : World) : World * result A TrcError := (w, Ok a).

Definition permitted (_ : Z) (_ : Permission) : bool := true.
Definition metadata (_ i : Z) : World -> World * result (option (list Z * Z * list Z)) TrcError :=
  read_ok (Some (s#"Subject: x" ++ crlf, 4, [i])).
Definition blob (_ : list Z) : World -> World * result (option (list Z)) TrcError := read_ok (Some s#"Sub\nbody").
Definition delete (_ _ : Z) (ids : list Z) (w : World) : World * result (list Z * bool) TrcError := (w ++ ids, Ok ([], false)).
Definition takes (_ _ : list Z) : bool := true.

Definition serve (reads : list Read) (st : Session (Token:=Z) * World) : Session (Token:=Z) * World * Outcome unit :=
  handle (W:=World) (Batch:=bool) true false 3 authenticate (fun _ w => (w, Allowed)) (fun t => t)
    permitted (fun _ => s#"permission") (fun _ => read_ok true) (read_ok false) (fun _ w => (w, Ok (cache w)))
    metadata blob delete negb (fun _ => read_ok tt) takes true (fun w => (w, true))
    (fun _ => None) (fun _ => None) (fun _ => s#"Error") reads st.
Definition run (is_tls : bool) (reads : list Read) := serve reads (new_session is_tls, []).
Definition read_requests (requests : list Pending) (st : Session (Token:=Z) * World) :=
  run_requests (W:=World) (Batch:=bool) true false 3 authenticate (fun _ w => (w, Allowed)) (fun t => t)
    permitted (fun _ => s#"permission") (fun _ => read_ok true) (fun _ w => (w, Ok (cache w)))
    metadata blob delete negb (fun _ => read_ok tt) takes (fun _ => None) (fun _ => None) (fun _ => s#"Error") requests st.
Definition read_bytes (bytes : list Z) (st : Session (Token:=Z) * World) :=
  ingest (W:=World) (Batch:=bool) true false 3 authenticate (fun _ w => (w, Allowed)) (fun t => t)
    permitted (fun _ => s#"permission") (fun _ => read_ok true) (read_ok false) (fun _ w => (w, Ok (cache w)))
    metadata blob delete negb (fun _ => read_ok tt) takes (fun _ => None) (fun _ => None) (fun _ => s#"Error") bytes st.

(** A session after the login. *)
Definition inbox : Mailbox := make_mailbox 3 (cache []).
Definition logged_in : Session (Token:=Z) := MkSession Init (Authenticated inbox 3) [] false.

Definition sent (r : Session (Token:=Z) * World * Outcome unit) : list Z := output (fst (fst r)).

Definition login : list Z := s#"USER joe" ++ crlf ++ s#"PASS pass" ++ crlf.

(** Login, two deletions in one read, QUIT. *)
Example session_example :
  let r := run false [RBytes (login ++ s#"LIST" ++ crlf ++ s#"DELE 1" ++ crlf ++ s#"DELE 3" ++ crlf ++ s#"QU");
                            RBytes (s#"IT" ++ crlf)] in
  snd (fst r) = [30; 40] /\
  sent r = SERVER_GREETING ++ s#"+OK joe is a valid mailbox" ++ crlf ++ s#"+OK Authentication successful" ++ crlf ++
    s#"+OK 3 messages" ++ crlf ++ s#"1 80" ++ crlf ++ s#"2 120" ++ crlf ++ s#"3 7" ++ crlf ++ s#"." ++ crlf ++
    s#"+OK message 1 deleted" ++ crlf ++ s#"+OK message 3 deleted" ++ crlf ++
    s#"+OK Stalwart POP3 bids you farewell (2 messages deleted)." ++ crlf.
Proof. vm_compute. split; reflexivity. Qed.

(** Two deletions in one read before the login get one error, not two. *)
Example one_error_for_two :
  sent (run false [RBytes (s#"DELE 1" ++ crlf ++ s#"DELE 2" ++ crlf)]) = SERVER_GREETING ++ s#"-ERR Not authenticated." ++ crlf.
Proof. vm_compute. reflexivity. Qed.

(** The start of a command that came with STLS in clear text is completed
    by what comes over TLS. *)
Example clear_text_prefix :
  sent (run false [RBytes (s#"STLS" ++ crlf ++ s#"USER eve"); RBytes crlf]) =
    SERVER_GREETING ++ s#"+OK Begin TLS negotiation now" ++ crlf ++ s#"+OK eve is a valid mailbox" ++ crlf.
Proof. vm_compute. reflexivity. Qed.


Example message_numbers_stable_witness :
  exists m', sstate (fst (fst (serve [RBytes (s#"DELE 2" ++ crlf ++ s#"junk" ++ crlf); RTimeout] (logged_in, [])))) =
    Authenticated m' 3 /\ static m' = static inbox.
Proof. apply (message_numbers_stable (W:=World) (Token:=Z) (Batch:=bool)). reflexivity. Defined.

Example ingest_in_order_witness :
  let bytes := s#"DELE 1" ++ crlf ++ s#"DELE 2" ++ crlf ++ s#"bad" ++ crlf ++ s#"DELE 3" ++ crlf ++ s#"LI" in
  let parsed := outcomes Init bytes in
  read_bytes bytes (logged_in, []) = read_requests (map pending_of (snd parsed)) (with_receiver (logged_in, []) (fst parsed)).
Proof.
  intros bytes parsed.
  apply (ingest_in_order (W:=World) (Token:=Z) (Batch:=bool)) with (t := 3) (m := inbox); reflexivity.
Defined.

End Demo.
