(* ===== verification/EdgeFrame.v ===== *)
(** * The edge tunnel's frames ([edge/src/frame.rs])

    Big-endian length-prefixed frames, their encoder, and the incremental
    decoder that is fed the chunks of a socket.  Indexing a payload out of
    its bounds would be a panic of the Rust code, here [None]. *)

From S2P Require Import Prelude.

(* [edge/src/frame.rs:9-9] MAX_FRAME_PAYLOAD *)
Definition MAX_FRAME_PAYLOAD : Z := 65536.
(* [edge/src/frame.rs:10-10] MAX_DATA_PAYLOAD *)
Definition MAX_DATA_PAYLOAD : Z := 16384.
(* [edge/src/frame.rs:12-18] HELLO_PAIRS *)
Definition HELLO_PAIRS : list (Z * Z) := [(25, 2525); (465, 2465); (993, 2993); (80, 8088); (443, 8448)].

(* [edge/src/frame.rs:20-20] TY_HELLO *)
Definition TY_HELLO : Z := 1.
(* [edge/src/frame.rs:21-21] TY_HELLO_OK *)
Definition TY_HELLO_OK : Z := 2.
(* [edge/src/frame.rs:22-22] TY_PING *)
Definition TY_PING : Z := 3.
(* [edge/src/frame.rs:23-23] TY_PONG *)
Definition TY_PONG : Z := 4.
(* [edge/src/frame.rs:24-24] TY_OPEN *)
Definition TY_OPEN : Z := 5.
(* [edge/src/frame.rs:25-25] TY_OPEN_OK *)
Definition TY_OPEN_OK : Z := 6.
(* [edge/src/frame.rs:26-26] TY_OPEN_FAIL *)
Definition TY_OPEN_FAIL : Z := 7.
(* [edge/src/frame.rs:27-27] TY_DATA *)
Definition TY_DATA : Z := 8.
(* [edge/src/frame.rs:28-28] TY_CLOSE *)
Definition TY_CLOSE : Z := 9.
(* [edge/src/frame.rs:29-29] TY_QUOTA *)
Definition TY_QUOTA : Z := 10.
(* [edge/src/frame.rs:31-31] HEADER *)
Definition HEADER : nat := 5.

(* [edge/src/frame.rs:112-128] ProtocolError *)
Inductive ProtocolError :=
| TooLong | DataTooLong | Truncated | UnknownType | BadLength | BadHello | BadState | BadMonth | BadAddress
| BadReason | BadConn | SecondHello | Cap | ConnExhausted | Proxy.

(* [edge/src/frame.rs:34-38] OpenFailReason *)
Inductive OpenFailReason := DialRefused | BadPort | FailCap.
(* [edge/src/frame.rs:52-56] CloseReason *)
Inductive CloseReason := Eof | Reset | LocalClose.
(* [edge/src/meter.rs:11-15] QuotaState *)
Inductive QuotaState := QOpen | PausedQuota | Override.

(* [edge/src/frame.rs:34-38] OpenFailReason as u8 *)
Definition fail_code (r : OpenFailReason) : Z := match r with DialRefused => 1 | BadPort => 2 | FailCap => 3 end.
(* [edge/src/frame.rs:52-56] CloseReason as u8 *)
Definition close_code (r : CloseReason) : Z := match r with Eof => 1 | Reset => 2 | LocalClose => 3 end.
(* [edge/src/meter.rs:11-15] QuotaState as u8 *)
Definition state_code (s : QuotaState) : Z := match s with QOpen => 0 | PausedQuota => 1 | Override => 2 end.

(* [edge/src/frame.rs:41-48] OpenFailReason::from_u8 *)
Definition fail_of (v : Z) : result OpenFailReason ProtocolError :=
  if v =? 1 then Ok DialRefused else if v =? 2 then Ok BadPort else if v =? 3 then Ok FailCap else Err BadReason.
(* [edge/src/frame.rs:59-66] CloseReason::from_u8 *)
Definition close_of (v : Z) : result CloseReason ProtocolError :=
  if v =? 1 then Ok Eof else if v =? 2 then Ok Reset else if v =? 3 then Ok LocalClose else Err BadReason.
(* [edge/src/meter.rs:18-25] QuotaState::from_u8 *)
Definition state_of (v : Z) : result QuotaState ProtocolError :=
  if v =? 0 then Ok QOpen else if v =? 1 then Ok PausedQuota else if v =? 2 then Ok Override else Err BadState.

(** An [Ipv4Addr] is its four octets. *)
(* [edge/src/frame.rs:70-109] Frame *)
Inductive Frame :=
| Hello
| HelloOk (tx_bytes : Z) (state : QuotaState) (year month : Z)
| Ping (unix_ms : Z)
| Pong (unix_ms : Z)
| Open (conn_id public_port src_port : Z) (addr : list Z)
| OpenOk (conn_id : Z)
| OpenFail (conn_id : Z) (reason : OpenFailReason)
| Data (conn_id : Z) (payload : list Z)
| Close (conn_id : Z) (reason : CloseReason)
| Quota (tx_bytes : Z) (state : QuotaState).

(* [edge/src/frame.rs:154-164] hello_payload *)
Definition hello_payload : list Z :=
  be_bytes 2 1 ++ be_bytes 2 5 ++ concat (map (fun p => be_bytes 2 (fst p) ++ be_bytes 2 (snd p)) HELLO_PAIRS).

(* [edge/src/frame.rs:166-186] validate_header *)
Definition validate_header (ty len : Z) : result unit ProtocolError :=
  if MAX_FRAME_PAYLOAD <? len then Err TooLong
  else
    let check (matches : bool) :=
      if matches then Ok tt
      else if (ty =? TY_DATA) && (8 <=? len) then Err DataTooLong
      else Err BadLength in
    if ty =? TY_HELLO then check (len =? 24)
    else if ty =? TY_HELLO_OK then check (len =? 12)
    else if (ty =? TY_PING) || (ty =? TY_PONG) || (ty =? TY_OPEN_OK) then check (len =? 8)
    else if ty =? TY_OPEN then check (len =? 28)
    else if (ty =? TY_OPEN_FAIL) || (ty =? TY_CLOSE) || (ty =? TY_QUOTA) then check (len =? 9)
    else if ty =? TY_DATA then check ((8 <=? len) && (len - 8 <=? MAX_DATA_PAYLOAD))
    else Err UnknownType.

(* [edge/src/frame.rs:188-195] encode_mapped *)
Definition encode_mapped (addr : list Z) : list Z := repeat 0 10 ++ [255; 255] ++ addr.

(* [edge/src/frame.rs:197-202] decode_mapped *)
Definition decode_mapped (bytes : list Z) : result (list Z) ProtocolError :=
  if negb (length bytes =? 16)%nat || negb (bytes_eqb (firstn 10 bytes) (repeat 0 10))
     || negb (nth 10 bytes 0 =? 255) || negb (nth 11 bytes 0 =? 255)
  then Err BadAddress
  else Ok (skipn 12 bytes).

(** [read_u16] and [read_u64], by the number of bytes. *)
(* [edge/src/frame.rs:204-216] read_u16, read_u64 *)
Definition read_uint (n : nat) (buf : list Z) (at_ : nat) : result Z ProtocolError :=
  match get_range buf at_ (at_ + n) with
  | Some slice => Ok (of_be_bytes slice)
  | None => Err Truncated
  end.

Definition month_ok (month : Z) : bool := (1 <=? month) && (month <=? 12).

(** The type and the payload of a frame. *)
(* [edge/src/frame.rs:220-292] Frame::encode, the payload *)
Definition encode_payload (f : Frame) : result (Z * list Z) ProtocolError :=
  match f with
  | Hello => Ok (TY_HELLO, hello_payload)
  | HelloOk tx_bytes state year month =>
      if month_ok month then
        Ok (TY_HELLO_OK, be_bytes 8 tx_bytes ++ [state_code state] ++ be_bytes 2 year ++ [month])
      else Err BadMonth
  | Ping unix_ms => Ok (TY_PING, be_bytes 8 unix_ms)
  | Pong unix_ms => Ok (TY_PONG, be_bytes 8 unix_ms)
  | Open conn_id public_port src_port addr =>
      Ok (TY_OPEN, be_bytes 8 conn_id ++ be_bytes 2 public_port ++ be_bytes 2 src_port ++ encode_mapped addr)
  | OpenOk conn_id => Ok (TY_OPEN_OK, be_bytes 8 conn_id)
  | OpenFail conn_id reason => Ok (TY_OPEN_FAIL, be_bytes 8 conn_id ++ [fail_code reason])
  | Data conn_id body =>
      if MAX_DATA_PAYLOAD <? Z.of_nat (length body) then Err DataTooLong
      else Ok (TY_DATA, be_bytes 8 conn_id ++ body)
  | Close conn_id reason => Ok (TY_CLOSE, be_bytes 8 conn_id ++ [close_code reason])
  | Quota tx_bytes state => Ok (TY_QUOTA, be_bytes 8 tx_bytes ++ [state_code state])
  end.

(* [edge/src/frame.rs:219-297] Frame::encode *)
Definition encode (f : Frame) : result (list Z) ProtocolError :=
  (let? p := encode_payload f in
   Ok (fst p :: be_bytes 4 (wrap 32 (Z.of_nat (length (snd p)))) ++ snd p))%result.

(** Code that can return an error or panic: [None] is an index out of
    bounds, of [payload[i]] and [payload[a..b]]. *)
Definition Panics (A : Type) : Type := option (result A ProtocolError).
Definition pbind {A B} (o : Panics A) (f : A -> Panics B) : Panics B :=
  match o with Some (Ok a) => f a | Some (Err e) => Some (Err e) | None => None end.
Declare Scope panics_scope.
Delimit Scope panics_scope with panics.
Notation "'let!' x := r 'in' k" := (pbind r (fun x => k))
  (at level 10, x pattern, r at level 100, k at level 200) : panics_scope.

Definition index (payload : list Z) (i : nat) : Panics Z := Ok <$> nth_error payload i.
Definition slice (payload : list Z) (start end_ : nat) : Panics (list Z) := Ok <$> get_range payload start end_.

(* [edge/src/frame.rs:300-353] decode_payload *)
Definition decode_payload (ty : Z) (payload : list Z) : Panics Frame :=
  let read n at_ := Some (read_uint n payload at_) in
  (if ty =? TY_HELLO then Some (if bytes_eqb payload hello_payload then Ok Hello else Err BadHello)
   else if ty =? TY_HELLO_OK then
     let! month := index payload 11 in
     if month_ok month then
       let! tx_bytes := read 8%nat 0%nat in
       let! s := index payload 8 in let! state := Some (state_of s) in
       let! year := read 2%nat 9%nat in
       Some (Ok (HelloOk tx_bytes state year month))
     else Some (Err BadMonth)
   else if ty =? TY_PING then let! unix_ms := read 8%nat 0%nat in Some (Ok (Ping unix_ms))
   else if ty =? TY_PONG then let! unix_ms := read 8%nat 0%nat in Some (Ok (Pong unix_ms))
   else if ty =? TY_OPEN then
     let! conn_id := read 8%nat 0%nat in
     let! public_port := read 2%nat 8%nat in
     let! src_port := read 2%nat 10%nat in
     let! mapped := slice payload 12 28 in let! addr := Some (decode_mapped mapped) in
     Some (Ok (Open conn_id public_port src_port addr))
   else if ty =? TY_OPEN_OK then let! conn_id := read 8%nat 0%nat in Some (Ok (OpenOk conn_id))
   else if ty =? TY_OPEN_FAIL then
     let! conn_id := read 8%nat 0%nat in
     let! r := index payload 8 in let! reason := Some (fail_of r) in
     Some (Ok (OpenFail conn_id reason))
   else if ty =? TY_DATA then
     let! conn_id := read 8%nat 0%nat in
     let! body := slice payload 8 (length payload) in
     Some (Ok (Data conn_id body))
   else if ty =? TY_CLOSE then
     let! conn_id := read 8%nat 0%nat in
     let! r := index payload 8 in let! reason := Some (close_of r) in
     Some (Ok (Close conn_id reason))
   else if ty =? TY_QUOTA then
     let! tx_bytes := read 8%nat 0%nat in
     let! s := index payload 8 in let! state := Some (state_of s) in
     Some (Ok (Quota tx_bytes state))
   else Some (Err UnknownType))%panics.

(** The decoder keeps the bytes of an incomplete frame.  [push] gives the
    bytes kept and the frames; the loop takes a frame each time round. *)
(* [edge/src/frame.rs:357-359] Decoder *)
Record Decoder := MkDecoder { buf : list Z }.
(* [edge/src/frame.rs:362-364] Decoder::new *)
Definition decoder_new : Decoder := MkDecoder [].

(** The decoder with the frames or the error; [None] is a panic, or fuel
    that ran out. *)
Definition Pushed : Type := option (Decoder * result (list Frame) ProtocolError).

(** Take from the input what the buffer lacks of [n] bytes; [None] when the
    input is too short. *)
(* [edge/src/frame.rs:369-376] Decoder::push, filling the buffer *)
Definition fill (b : list Z) (n : nat) (input : list Z) : option (list Z * list Z) :=
  if (length b <? n)%nat then
    let need := (n - length b)%nat in
    if (length input <? need)%nat then None else Some (b ++ firstn need input, skipn need input)
  else Some (b, input).

(** The type and the length of a header; [buf[0]] and [buf[1..5]]. *)
(* [edge/src/frame.rs:377-381] Decoder::push, the header *)
Definition header (b : list Z) : option (Z * Z) :=
  match nth_error b 0, get_range b 1 5 with
  | Some ty, Some len => Some (ty, of_be_bytes len)
  | _, _ => None
  end.

(** The loop takes a frame each time round. *)
(* [edge/src/frame.rs:368-401] Decoder::push, the loop *)
Fixpoint push_loop (fuel : nat) (b input : list Z) (out : list Frame) : Pushed :=
  match fuel with
  | O => None
  | S fuel =>
      match fill b HEADER input with
      | None => Some (MkDecoder (b ++ input), Ok out)
      | Some (b, input) =>
          match header b with
          | None => None
          | Some (ty, len) =>
              match validate_header ty len with
              | Err e => Some (MkDecoder b, Err e)
              | Ok _ =>
                  let total := (HEADER + Z.to_nat len)%nat in
                  match fill b total input with
                  | None => Some (MkDecoder (b ++ input), Ok out)
                  | Some (b, input) =>
                      match pbind (slice b HEADER total) (decode_payload ty) with
                      | None => None
                      | Some (Err e) => Some (MkDecoder b, Err e)
                      | Some (Ok frame) =>
                          match skipn total b, input with
                          | [], [] => Some (MkDecoder [], Ok (out ++ [frame]))
                          | b, input => push_loop fuel b input (out ++ [frame])
                          end
                      end
                  end
              end
          end
      end
  end.

(** Every round but the last takes a frame of at least five bytes. *)
(* [edge/src/frame.rs:366-403] Decoder::push *)
Definition push (d : Decoder) (input : list Z) : Pushed :=
  push_loop (S (length (buf d) + length input)) (buf d) input [].

(* [edge/src/frame.rs:406-412] Decoder::finish *)
Definition finish (d : Decoder) : result unit ProtocolError :=
  match buf d with [] => Ok tt | _ => Err Truncated end.

(** The chunks of a socket, one call for each, until an error. *)
Fixpoint push_all (d : Decoder) (chunks : list (list Z)) : Pushed :=
  match chunks with
  | [] => Some (d, Ok [])
  | c :: chunks =>
      match push d c with
      | Some (d, Ok fs) =>
          match push_all d chunks with
          | Some (d, Ok gs) => Some (d, Ok (fs ++ gs))
          | r => r
          end
      | r => r
      end
  end.

(** ** The frames of a byte string

    What the decoder should do, without its buffer: the first frame of a byte
    string, and all of them. *)

Inductive Next := More | Took (f : Frame) (rest : list Z) | Bad (e : ProtocolError) | Stuck.

Definition next_frame (s : list Z) : Next :=
  match header s with
  | None => More
  | Some (ty, len) =>
      match validate_header ty len with
      | Err e => Bad e
      | Ok _ =>
          let total := (HEADER + Z.to_nat len)%nat in
          match get_range s HEADER total with
          | None => More
          | Some payload =>
              match decode_payload ty payload with
              | None => Stuck
              | Some (Err e) => Bad e
              | Some (Ok f) => Took f (skipn total s)
              end
          end
      end
  end.

(** The frames of a byte string, and the incomplete rest or the error at
    which they end. *)
Inductive decodes : list Z -> list Frame -> list Z + ProtocolError -> Prop :=
| decodes_more s : next_frame s = More -> decodes s [] (inl s)
| decodes_bad s e : next_frame s = Bad e -> decodes s [] (inr e)
| decodes_took s f rest fs res : next_frame s = Took f rest -> decodes rest fs res -> decodes s (f :: fs) res.

Lemma decodes_det s fs res : decodes s fs res -> forall fs' res', decodes s fs' res' -> fs = fs' /\ res = res'.
Proof.
  induction 1 as [s E|s e E|s f rest fs res E _ IH]; intros fs' res' H; inversion H; subst; try congruence;
    try (split; congruence).
  assert (f0 = f /\ rest0 = rest) as [-> ->] by (split; congruence).
  by destruct (IH _ _ H1) as [-> ->].
Qed.

Lemma get_range_some s a b r : get_range s a b = Some r ->
  (a <= b <= length s)%nat /\ r = firstn (b - a) (skipn a s).
Proof.
  unfold get_range. destruct (Nat.leb_spec a b), (Nat.leb_spec b (length s)); simpl; intros [= <-]; done.
Qed.

Lemma get_range_none s a b : (a <= b)%nat -> get_range s a b = None -> (length s < b)%nat.
Proof.
  unfold get_range. intros H. rewrite (proj2 (Nat.leb_le a b)) by done.
  destruct (Nat.leb_spec b (length s)); [done|]. intros _. lia.
Qed.

Lemma get_range_app s t a b : (b <= length s)%nat -> get_range (s ++ t) a b = get_range s a b.
Proof.
  unfold get_range. intros H. rewrite length_app, !(proj2 (Nat.leb_le b _)) by lia.
  destruct (Nat.leb_spec a b); [|done]. cbn [andb]. f_equal.
  rewrite skipn_app, firstn_app, length_skipn. replace (b - a - (length s - a))%nat with 0%nat by lia.
  by rewrite firstn_O, app_nil_r.
Qed.

Lemma header_spec s : (header s = None /\ (length s < HEADER)%nat) \/
  (exists ty len, header s = Some (ty, len) /\ (HEADER <= length s)%nat).
Proof.
  unfold header, HEADER. destruct s as [|a [|b [|c [|d [|e s]]]]];
    try (left; split; [reflexivity|cbn; lia]). right. eexists _, _. split; [|cbn; lia].
  unfold get_range. cbn. reflexivity.
Qed.

Lemma header_app s t : (HEADER <= length s)%nat -> header (s ++ t) = header s.
Proof.
  intros H. unfold header. rewrite get_range_app by (unfold HEADER in H; lia).
  by rewrite nth_error_app1 by (unfold HEADER in H; lia).
Qed.

Lemma fill_none b n input : fill b n input = None -> (length (b ++ input) < n)%nat.
Proof.
  unfold fill. rewrite length_app. destruct (Nat.ltb_spec (length b) n); [|done].
  destruct (Nat.ltb_spec (length input) (n - length b)); [lia|done].
Qed.

Lemma fill_some b n input b' input' : fill b n input = Some (b', input') ->
  b' ++ input' = b ++ input /\ (n <= length b')%nat /\ (length b <= n -> length b' = n)%nat /\
  (n <= length b -> b' = b)%nat.
Proof.
  unfold fill. destruct (Nat.ltb_spec (length b) n) as [Hb|Hb].
  - destruct (Nat.ltb_spec (length input) (n - length b)); [done|]. intros [= <- <-].
    rewrite <- app_assoc, firstn_skipn, length_app, length_firstn. split_and!; [done|lia|lia|lia].
  - intros [= <- <-]. split_and!; [done|lia|lia|done].
Qed.

Lemma took_shorter s f rest : next_frame s = Took f rest -> (length rest < length s)%nat.
Proof.
  unfold next_frame. destruct (header_spec s) as [[-> H]|(ty & len & -> & H)]; [done|].
  destruct (validate_header ty len); [|done]. destruct (get_range _ _ _) as [p|] eqn:E; [|done].
  apply get_range_some in E as [E _]. destruct (decode_payload ty p) as [[|]|]; [|done|done].
  intros [= <- <-]. rewrite length_skipn. unfold HEADER in *. lia.
Qed.

(** *** A payload of the right length is decoded without a panic *)

Lemma validate_length ty len : validate_header ty len = Ok tt -> 0 <= len ->
  match ty with
  | 1 => len = 24 | 2 => len = 12 | 3 | 4 | 6 => len = 8 | 5 => len = 28 | 7 | 9 | 10 => len = 9
  | 8 => 8 <= len <= 8 + MAX_DATA_PAYLOAD
  | _ => False
  end.
Proof.
  unfold validate_header, TY_HELLO, TY_HELLO_OK, TY_PING, TY_PONG, TY_OPEN_OK, TY_OPEN, TY_OPEN_FAIL, TY_CLOSE,
    TY_QUOTA, TY_DATA. intros H Hl. case_if_in H; [done|]. bool_to_prop.
  repeat match type of H with
  | (if ?b then _ else _) = Ok tt =>
      destruct b eqn:?; [|try done]; try (case_if_in H; [|case_if_in H; done])
  end; bool_to_prop; repeat match goal with E : _ || _ = true |- _ => apply orb_true_iff in E as [E|E] end;
    bool_to_prop; subst; try done; lia.
Qed.

Lemma index_some p i : (i < length p)%nat -> exists v, index p i = Some (Ok v).
Proof.
  intros H. unfold index. destruct (nth_error p i) as [v|] eqn:E; [by exists v|].
  apply nth_error_None in E. lia.
Qed.

Lemma slice_some p a b : (a <= b <= length p)%nat -> exists v, slice p a b = Some (Ok v).
Proof.
  intros H. unfold slice, get_range. rewrite (proj2 (Nat.leb_le a b)), (proj2 (Nat.leb_le b _)) by lia. by eexists.
Qed.

(** Step over one read of a payload: it gives a value or an error. *)
Ltac read_step :=
  match goal with
  | |- context [pbind (index ?p ?i) _] =>
      destruct (index_some p i) as [? ->]; [lia|]; cbn [pbind]
  | |- context [pbind (slice ?p ?a ?b) _] =>
      destruct (slice_some p a b) as [? ->]; [lia|]; cbn [pbind]
  end.

Lemma decode_total ty p : validate_header ty (Z.of_nat (length p)) = Ok tt -> decode_payload ty p <> None.
Proof.
  intros H. apply validate_length in H; [|lia].
  assert (In ty [1; 2; 3; 4; 5; 6; 7; 8; 9; 10]) as Hty.
  { destruct ty as [|ty|ty]; try (by destruct H). simpl.
    do 4 (destruct ty as [ty|ty|]; try (by destruct H); try tauto). }
  simpl in Hty. repeat destruct Hty as [<-|Hty]; [.. |done]; cbv iota in H; unfold decode_payload;
    cbn [Z.eqb Pos.eqb TY_HELLO TY_HELLO_OK TY_PING TY_PONG TY_OPEN TY_OPEN_OK TY_OPEN_FAIL TY_DATA TY_CLOSE TY_QUOTA];
    repeat first [read_step|case_match|progress (cbn [pbind])]; done.
Qed.

Lemma next_frame_total s : bytes_ok s -> next_frame s <> Stuck.
Proof.
  intros Hs. unfold next_frame. destruct (header s) as [[ty len]|] eqn:Eh; [|done].
  destruct (validate_header ty len) as [[]|] eqn:E; [|done].
  destruct (get_range _ _ _) as [p|] eqn:Ep; [|done]. apply get_range_some in Ep as [Hr ->].
  destruct (decode_payload _ _) as [[|]|] eqn:Ed; [done|done|].
  apply decode_total in Ed; [done|]. rewrite length_firstn, length_skipn. rewrite <- E. f_equal.
  assert (0 <= len).
  { unfold header in Eh. destruct (nth_error s 0); [|done]. destruct (get_range s 1 5) as [l|] eqn:El; [|done].
    apply get_range_some in El as [_ ->]. simplify_eq. apply of_be_range. apply Forall_take, Forall_drop, Hs. }
  lia.
Qed.

Lemma decodes_total s : bytes_ok s -> exists fs res, decodes s fs res.
Proof.
  remember (length s) as n eqn:En. revert s En. induction n as [n IH] using lt_wf_ind. intros s -> Hs.
  pose proof (next_frame_total s Hs) as Hn. destruct (next_frame s) as [|f rest|e|] eqn:E; [| | |done].
  - eexists _, _. by apply decodes_more.
  - pose proof (took_shorter _ _ _ E). destruct (IH (length rest)) with (s := rest) as (fs & res & H1); [lia|done| |].
    + unfold next_frame in E. destruct (header s) as [[ty len]|]; [|done]. destruct (validate_header _ _); [|done].
      destruct (get_range _ _ _); [|done]. destruct (decode_payload _ _) as [[|]|]; simplify_eq. by apply Forall_drop.
    + eexists _, _. by eapply decodes_took.
  - eexists _, _. by apply decodes_bad.
Qed.

(** *** The decoder computes them *)

Lemma next_frame_fill b input b1 i1 : fill b HEADER input = Some (b1, i1) ->
  header b1 = header (b ++ input) /\ (HEADER <= length b1)%nat /\ header b1 <> None.
Proof.
  intros H. apply fill_some in H as (<- & H & _ & _).
  rewrite header_app by done. split_and!; [done|done|]. destruct (header_spec b1) as [[_ H1]|(ty & len & -> & _)]; [lia|done].
Qed.

Definition outcome (out fs : list Frame) (res : list Z + ProtocolError) (p : Pushed) : Prop :=
  match res with
  | inl r => p = Some (MkDecoder r, Ok (out ++ fs))
  | inr e => exists d, p = Some (d, Err e)
  end.

Lemma push_step b input fuel out : next_frame b = More -> (length (b ++ input) < fuel)%nat ->
  match next_frame (b ++ input) with
  | More => push_loop fuel b input out = Some (MkDecoder (b ++ input), Ok out)
  | Bad e => exists d, push_loop fuel b input out = Some (d, Err e)
  | Took f rest => exists fuel', (length rest < fuel')%nat /\
      push_loop fuel b input out = push_loop fuel' [] rest (out ++ [f])
  | Stuck => True
  end.
Proof.
  intros Hb Hf. destruct fuel as [|fuel]; [lia|]. cbn [push_loop].
  destruct (fill b HEADER input) as [[b1 i1]|] eqn:E1.
  - pose proof (next_frame_fill _ _ _ _ E1) as (Hh & H5 & Hsome).
    pose proof (fill_some _ _ _ _ _ E1) as (Hcat & _ & Hshort & Hlong).
    unfold next_frame. rewrite <- Hh. destruct (header b1) as [[ty len]|] eqn:Ehd; [|done].
    destruct (validate_header ty len) as [[]|] eqn:Ev; [|by eexists]. cbv zeta.
    set (total := (HEADER + Z.to_nat len)%nat).
    assert (length b1 <= total)%nat as Htot.
    { destruct (Nat.le_gt_cases HEADER (length b)) as [Hl|Hl]; [|rewrite Hshort by lia; lia].
      rewrite (Hlong Hl) in *. unfold next_frame in Hb. rewrite Ehd, Ev in Hb. fold total in Hb.
      destruct (get_range b HEADER total) eqn:Eg; [destruct (decode_payload _ _) as [[]|]; discriminate|].
      apply get_range_none in Eg; lia. }
    rewrite <- Hcat in Hf |- *. destruct (fill b1 total i1) as [[b2 i2]|] eqn:E2.
    + apply fill_some in E2 as (Hcat2 & H2 & Hlen2 & _). specialize (Hlen2 Htot).
      unfold slice. rewrite <- Hcat2, get_range_app by lia.
      destruct (get_range b2 HEADER total) as [p|] eqn:Eg.
      2: { apply get_range_none in Eg; lia. }
      cbn [fmap option_fmap option_map pbind]. destruct (decode_payload ty p) as [[f|e]|]; [|by eexists|done].
      rewrite (skipn_all2 b2), skipn_app, Hlen2, Nat.sub_diag, (skipn_all2 b2) by lia. cbn [app skipn].
      rewrite <- Hcat2, length_app, Hlen2 in Hf. assert (5 <= total)%nat by (unfold total, HEADER; lia). destruct i2 as [|x i2].
      * exists 1%nat. split; [cbn; lia|reflexivity].
      * exists fuel. change (drop 0 (x :: i2)) with (x :: i2). split; [cbn [length] in *; lia|done].
    + apply fill_none in E2. unfold get_range.
      rewrite (proj2 (Nat.leb_gt total _)) by lia. by rewrite andb_false_r.
  - apply fill_none in E1. unfold next_frame. destruct (header_spec (b ++ input)) as [[-> _]|(? & ? & _ & ?)]; [done|lia].
Qed.

Lemma push_decodes s fs res : decodes s fs res -> forall b input fuel out,
  s = b ++ input -> next_frame b = More -> (length s < fuel)%nat ->
  outcome out fs res (push_loop fuel b input out).
Proof.
  induction 1 as [s E|s e E|s f rest fs res E _ IH]; intros b input fuel out -> Hb Hf;
    pose proof (push_step b input fuel out Hb Hf) as Hs; rewrite E in Hs.
  - cbn. by rewrite app_nil_r.
  - done.
  - destruct Hs as (fuel' & Hf' & ->). specialize (IH [] rest fuel' (out ++ [f]) eq_refl eq_refl Hf').
    destruct res; cbn [outcome] in *; [|done]. by rewrite <- app_assoc in IH.
Qed.

(** *** Chunks *)


Lemma took_app s t f rest : next_frame s = Took f rest -> next_frame (s ++ t) = Took f (rest ++ t).
Proof.
  unfold next_frame. destruct (header_spec s) as [[-> H]|(ty & len & E & H)]; [done|].
  rewrite header_app, E by done. destruct (validate_header ty len); [|done]. cbv zeta.
  destruct (get_range s _ _) as [p|] eqn:Eg; [|done]. pose proof (get_range_some _ _ _ _ Eg) as [Hr _].
  rewrite get_range_app, Eg by lia. destruct (decode_payload ty p) as [[|]|]; try done. intros [= <- <-].
  rewrite skipn_app. by replace (HEADER + Z.to_nat len - length s)%nat with 0%nat by lia.
Qed.

Lemma bad_app s t e : next_frame s = Bad e -> next_frame (s ++ t) = Bad e.
Proof.
  unfold next_frame. destruct (header_spec s) as [[-> H]|(ty & len & E & H)]; [done|].
  rewrite header_app, E by done. destruct (validate_header ty len); [|done]. cbv zeta.
  destruct (get_range s _ _) as [p|] eqn:Eg; [|done]. pose proof (get_range_some _ _ _ _ Eg) as [Hr _].
  rewrite get_range_app, Eg by lia. by destruct (decode_payload ty p) as [[|]|].
Qed.

Lemma decodes_app s fs res : decodes s fs res -> forall t,
  match res with
  | inl r => forall gs res', decodes (r ++ t) gs res' -> decodes (s ++ t) (fs ++ gs) res'
  | inr e => decodes (s ++ t) fs (inr e)
  end.
Proof.
  induction 1 as [s E|s e E|s f rest fs res E _ IH]; intros t.
  - by intros gs res' H.
  - by apply decodes_bad, bad_app.
  - specialize (IH t). apply (took_app _ t) in E. destruct res as [r|e].
    + intros gs res' H. cbn [app]. eapply decodes_took; [done|]. by apply IH.
    + by eapply decodes_took.
Qed.

Lemma decodes_rest s fs r : decodes s fs (inl r) -> next_frame r = More.
Proof. intros H. remember (inl r) as res eqn:E. induction H; simplify_eq; auto. Qed.

Lemma decodes_rest_ok s fs r : decodes s fs (inl r) -> bytes_ok s -> bytes_ok r.
Proof.
  intros H. remember (inl r) as res eqn:E. induction H as [| |s f rest fs res Ef H IH]; simplify_eq; [done|].
  intros Hs. apply IH; [done|]. unfold next_frame in Ef. destruct (header s) as [[ty len]|]; [|done].
  destruct (validate_header _ _); [|done]. destruct (get_range _ _ _); [|done].
  destruct (decode_payload _ _) as [[|]|]; simplify_eq. by apply Forall_drop.
Qed.

(** An incomplete frame is shorter than the longest one. *)
Lemma more_bounded s : next_frame s = More -> bytes_ok s -> Z.of_nat (length s) < 5 + 8 + MAX_DATA_PAYLOAD.
Proof.
  unfold next_frame. intros H Hs. destruct (header_spec s) as [[_ Hl]|(ty & len & E & Hl)];
    [unfold HEADER in Hl; unfold MAX_DATA_PAYLOAD; lia|]. rewrite E in H.
  destruct (validate_header ty len) as [[]|] eqn:Ev; [|done].
  assert (0 <= len) as H0.
  { unfold header in E. destruct (nth_error s 0); [|done]. destruct (get_range s 1 5) as [l|] eqn:El; [|done].
    apply get_range_some in El as [_ ->]. simplify_eq. apply of_be_range, Forall_take, Forall_drop, Hs. }
  destruct (get_range _ _ _) as [p|] eqn:Eg; [destruct (decode_payload _ _) as [[|]|]; discriminate|].
  apply get_range_none in Eg; [|lia]. apply validate_length in Ev; [|done].
  assert (len <= 8 + MAX_DATA_PAYLOAD) by (unfold MAX_DATA_PAYLOAD in *; repeat case_match; lia).
  unfold HEADER in Eg. lia.
Qed.

Lemma push_all_decodes chunks : forall b fs res, next_frame b = More -> bytes_ok b -> Forall bytes_ok chunks ->
  decodes (b ++ concat chunks) fs res -> outcome [] fs res (push_all (MkDecoder b) chunks).
Proof.
  induction chunks as [|c chunks IH]; intros b fs res Hb Hok Hc H; cbn [concat push_all] in *.
  - rewrite app_nil_r in H. destruct (decodes_det _ _ _ H [] (inl b)) as [-> ->]; [by apply decodes_more|]. done.
  - apply Forall_cons_1 in Hc as [Hc Hcs].
    destruct (decodes_total (b ++ c)) as (fs1 & res1 & H1); [by apply Forall_app|].
    pose proof (push_decodes _ _ _ H1 b c (S (length b + length c)) [] eq_refl Hb ltac:(rewrite length_app; lia)) as Hp.
    unfold push. cbn [buf]. rewrite app_assoc in H. pose proof (decodes_app _ _ _ H1 (concat chunks)) as Ha.
    destruct res1 as [r1|e1]; cbn [outcome] in Hp.
    + pose proof (decodes_rest _ _ _ H1) as Hr1.
      assert (bytes_ok r1) as Hr1ok by (eapply decodes_rest_ok; [done|by apply Forall_app]).
      rewrite Hp. cbn [app]. destruct (decodes_total (r1 ++ concat chunks)) as (gs & res' & Hg).
      { apply Forall_app; split; [done|]. by apply Forall_concat. }
      destruct (decodes_det _ _ _ H _ _ (Ha _ _ Hg)) as [-> ->].
      specialize (IH r1 gs res' Hr1 Hr1ok Hcs Hg). destruct res'; cbn [outcome] in *; [by rewrite IH|].
      destruct IH as [d ->]. by eexists.
    + destruct Hp as [d ->]. destruct (decodes_det _ _ _ H _ _ Ha) as [-> ->]. by exists d.
Qed.

(** The decoder does not depend on how the socket cuts the stream: any
    chunks give the frames, the kept bytes or the error of the whole input in
    one call, no input makes it panic, and what it keeps between two calls is
    shorter than the longest frame. *)
Theorem push_chunks (chunks : list (list Z)) : Forall bytes_ok chunks ->
  match push decoder_new (concat chunks) with
  | Some (d, Ok fs) => push_all decoder_new chunks = Some (d, Ok fs) /\
      Z.of_nat (length (buf d)) < 5 + 8 + MAX_DATA_PAYLOAD
  | Some (_, Err e) => exists d, push_all decoder_new chunks = Some (d, Err e)
  | None => False
  end.
Proof.
  intros Hc. assert (bytes_ok (concat chunks)) as Hok by (by apply Forall_concat).
  destruct (decodes_total (concat chunks) Hok) as (fs & res & H).
  pose proof (push_all_decodes chunks [] fs res eq_refl (List.Forall_nil _) Hc H) as Ha.
  pose proof (push_decodes _ _ _ H [] (concat chunks) _ [] eq_refl eq_refl (Nat.lt_succ_diag_r _)) as Hp.
  unfold push. cbn [buf decoder_new length Nat.add]. destruct res as [r|e]; cbn [outcome app] in *.
  - rewrite Hp. split; [done|]. cbn [buf]. apply more_bounded; [by eapply decodes_rest|by eapply decodes_rest_ok].
  - by destruct Hp as [d ->].
Qed.

(** ** Round trips *)

Definition frame_ok (f : Frame) : Prop :=
  match f with
  | Hello => True
  | HelloOk tx _ year month => in_width 64 tx /\ in_width 16 year /\ 1 <= month <= 12
  | Ping ms | Pong ms => in_width 64 ms
  | Open id p s addr => in_width 64 id /\ in_width 16 p /\ in_width 16 s /\ bytes_ok addr /\ length addr = 4%nat
  | OpenOk id | OpenFail id _ | Close id _ => in_width 64 id
  | Data id body => in_width 64 id /\ bytes_ok body /\ Z.of_nat (length body) <= MAX_DATA_PAYLOAD
  | Quota tx _ => in_width 64 tx
  end.

Lemma get_range_mid (a l r : list Z) x y : x = length a -> y = (length a + length l)%nat ->
  get_range (a ++ l ++ r) x y = Some l.
Proof.
  intros -> ->. unfold get_range. rewrite !length_app, !(proj2 (Nat.leb_le _ _)) by lia. cbn [andb]. f_equal.
  rewrite skipn_app, skipn_all, Nat.sub_diag. cbn [app skipn].
  replace (length a + length l - length a)%nat with (length l) by lia.
  by rewrite drop_0, firstn_app, firstn_all, Nat.sub_diag, firstn_O, app_nil_r.
Qed.

(** An encoded integer as its bytes, so that reads evaluate. *)
Lemma be8 v : in_width 64 v -> exists a b c d e f g h,
  be_bytes 8 v = [a; b; c; d; e; f; g; h] /\ of_be_bytes [a; b; c; d; e; f; g; h] = v.
Proof. intros H. eexists _, _, _, _, _, _, _, _. split; [reflexivity|]. exact (of_be_id 8 v H). Qed.

Lemma be2 v : in_width 16 v -> exists a b, be_bytes 2 v = [a; b] /\ of_be_bytes [a; b] = v.
Proof. intros H. eexists _, _. split; [reflexivity|]. exact (of_be_id 2 v H). Qed.

(** Replace the integers of a payload by their bytes. *)
Ltac explode :=
  repeat match goal with
  | H : in_width 64 ?v |- context [be_bytes 8 ?v] =>
      let E := fresh "E" in destruct (be8 v H) as (? & ? & ? & ? & ? & ? & ? & ? & E & ?); rewrite E; clear E
  | H : in_width 16 ?v |- context [be_bytes 2 ?v] =>
      let E := fresh "E" in destruct (be2 v H) as (? & ? & E & ?); rewrite E; clear E
  end.

Lemma get_range_skip (s : list Z) a : (a <= length s)%nat -> get_range s a (length s) = Some (skipn a s).
Proof.
  intros H. unfold get_range. rewrite (proj2 (Nat.leb_le _ _) H), Nat.leb_refl. cbn [andb].
  by rewrite firstn_all2 by (rewrite length_skipn; lia).
Qed.

(** The type and the payload of a well-formed frame decode to it. *)
Lemma decode_encoded f : frame_ok f -> exists ty p, encode_payload f = Ok (ty, p) /\
  validate_header ty (Z.of_nat (length p)) = Ok tt /\ decode_payload ty p = Some (Ok f).
Proof.
  assert (forall m, 1 <= m <= 12 -> month_ok m = true) as Hm by (unfold month_ok; intros; lia).
  destruct f; cbn [frame_ok encode_payload]; intros H; repeat match goal with H : _ /\ _ |- _ => destruct H end;
    rewrite ?Hm by lia; try (eexists _, _; split; [reflexivity|]; explode).
  - split; vm_compute; reflexivity.
  - split; [done|]. cbn -[of_be_bytes month_ok]. rewrite (Hm month) by lia.
    destruct state; cbn -[of_be_bytes]; congruence.
  - split; [done|]. cbn -[of_be_bytes]. congruence.
  - split; [done|]. cbn -[of_be_bytes]. congruence.
  - do 4 (destruct addr as [|? addr]; [done|]). destruct addr; [|done].
    split; [done|]. cbn -[of_be_bytes]. congruence.
  - split; [done|]. cbn -[of_be_bytes]. congruence.
  - split; [done|]. destruct reason; cbn -[of_be_bytes]; congruence.
  - assert ((MAX_DATA_PAYLOAD <? Z.of_nat (length payload)) = false) as -> by lia.
    eexists _, _. split; [reflexivity|]. explode. cbn [app length]. split.
    + unfold validate_header. cbn [Z.eqb Pos.eqb TY_DATA TY_HELLO TY_HELLO_OK TY_PING TY_PONG TY_OPEN_OK TY_OPEN TY_OPEN_FAIL TY_CLOSE TY_QUOTA orb].
      unfold MAX_FRAME_PAYLOAD, MAX_DATA_PAYLOAD in *.
      rewrite (proj2 (Z.ltb_ge _ _)), (proj2 (Z.leb_le 8 _)), (proj2 (Z.leb_le _ 16384)) by lia. done.
    + unfold decode_payload. cbn [Z.eqb Pos.eqb TY_DATA TY_HELLO TY_HELLO_OK TY_PING TY_PONG TY_OPEN_OK TY_OPEN TY_OPEN_FAIL TY_CLOSE TY_QUOTA].
      unfold slice. rewrite get_range_skip by (cbn [length]; lia). cbn -[of_be_bytes].
      rewrite take_0, drop_0. congruence.
  - split; [done|]. destruct reason; cbn -[of_be_bytes]; congruence.
  - split; [done|]. destruct state; cbn -[of_be_bytes]; congruence.
Qed.

(** A frame at the front of a byte string is read, whatever follows. *)
Lemma next_frame_encode f : frame_ok f -> exists enc, encode f = Ok enc /\
  forall rest, next_frame (enc ++ rest) = Took f rest.
Proof.
  intros Hf. destruct (decode_encoded f Hf) as (ty & p & He & Hv & Hd). unfold encode. rewrite He.
  eexists. split; [reflexivity|]. intros rest. cbn [fst snd].
  assert (Z.of_nat (length p) < 2 ^ 32) as Hp.
  { unfold validate_header in Hv. case_if_in Hv; [done|]. unfold MAX_FRAME_PAYLOAD in *. bool_to_prop. lia. }
  rewrite (wrap_small 32) by (unfold in_width; lia).
  pose proof (of_be_id 4 (Z.of_nat (length p)) ltac:(unfold in_width; simpl Z.mul; lia)) as Hlen.
  pose proof (be_bytes_length 4 (Z.of_nat (length p))) as Hl4.
  set (l := be_bytes 4 (Z.of_nat (length p))) in *.
  assert ((ty :: l ++ p) ++ rest = [ty] ++ l ++ p ++ rest) as -> by (cbn [app]; by rewrite <- app_assoc).
  unfold next_frame.
  assert (header ([ty] ++ l ++ p ++ rest) = Some (ty, Z.of_nat (length p))) as ->.
  { unfold header. by rewrite (get_range_mid [ty] l (p ++ rest)), Hlen by (cbn [length]; lia). }
  rewrite Hv. cbv zeta. rewrite Nat2Z.id. change ([ty] ++ l ++ p ++ rest) with ((ty :: l) ++ p ++ rest).
  rewrite (get_range_mid (ty :: l) p rest) by (cbn [length]; unfold HEADER; lia). rewrite Hd. f_equal.
  rewrite app_assoc. replace (HEADER + length p)%nat with (length ((ty :: l) ++ p)) by (rewrite length_app; cbn [length]; unfold HEADER; lia).
  by rewrite drop_app_length.
Qed.

Fixpoint encode_all (fs : list Frame) : result (list Z) ProtocolError :=
  match fs with
  | [] => Ok []
  | f :: fs => (let? a := encode f in let? b := encode_all fs in Ok (a ++ b))%result
  end.

Lemma decodes_encoded fs : Forall frame_ok fs -> exists enc, encode_all fs = Ok enc /\ decodes enc fs (inl []).
Proof.
  induction 1 as [|f fs Hf _ (b & Eb & IH)]; [exists []; split; [done|by apply decodes_more]|].
  destruct (next_frame_encode f Hf) as (a & Ea & Hn). exists (a ++ b). cbn [encode_all]. rewrite Ea, Eb.
  split; [done|]. eapply decodes_took; [apply Hn|done].
Qed.

Lemma hello_bytes_ok : bytes_ok hello_payload.
Proof. apply List.Forall_forall. intros x Hx. vm_compute in Hx. repeat destruct Hx as [<-|Hx]; done. Qed.

Lemma encode_bytes_ok f enc : frame_ok f -> encode f = Ok enc -> bytes_ok enc.
Proof.
  unfold encode. intros Hf H. destruct (encode_payload f) as [[ty p]|] eqn:E; [|done]. cbn [rbind fst snd] in H.
  simplify_eq. assert (in_width 8 ty /\ bytes_ok p) as [Ht Hp].
  { assert (forall x, in_width 8 (x mod 256)) as Hmod by (intros; by apply (wrap_range 8)).
    destruct f; cbn [frame_ok encode_payload] in *; repeat match goal with H : _ /\ _ |- _ => destruct H end;
      try (case_if_in E; try discriminate E); injection E as <- <-; (split; [done|]);
      try apply hello_bytes_ok; repeat (apply List.Forall_cons; [first [apply Hmod|done|idtac]|]);
      try apply List.Forall_nil; try done.
    - by destruct state.
    - unfold in_width. lia.
    - by destruct reason.
    - by destruct reason.
    - by destruct state. }
  repeat (apply List.Forall_cons; [first [done|by apply (wrap_range 8)]|]). done.
Qed.

(** C36: Any frames within the limits, encoded one after the other and cut
    into any chunks, are read back in order with nothing left over. *)
Theorem frames_roundtrip (fs : list Frame) (chunks : list (list Z)) : Forall frame_ok fs ->
  encode_all fs = Ok (concat chunks) -> push_all decoder_new chunks = Some (decoder_new, Ok fs) /\
    finish decoder_new = Ok tt.
Proof.
  intros Hf He. destruct (decodes_encoded fs Hf) as (enc & E & H). split; [|done].
  assert (enc = concat chunks) as -> by congruence.
  assert (bytes_ok (concat chunks)) as Hok.
  { clear H. revert He. generalize (concat chunks). clear E. induction Hf as [|f fs Hf _ IH]; intros s Hs;
      cbn [encode_all] in Hs; [simplify_eq; apply List.Forall_nil|].
    destruct (encode f) as [a|] eqn:Ea; [|done]. cbn [rbind] in Hs. destruct (encode_all fs) as [b|]; [|done].
    cbn [rbind] in Hs. injection Hs as <-. apply Forall_app_2; [by eapply encode_bytes_ok|by apply IH]. }
  assert (Forall bytes_ok chunks) as Hc.
  { clear -Hok. induction chunks as [|c chunks IH]; [by apply List.Forall_nil|]. cbn [concat] in Hok.
    apply Forall_app in Hok as [? ?]. apply List.Forall_cons; auto. }
  apply (push_all_decodes chunks [] fs (inl []) eq_refl (List.Forall_nil _) Hc H).
Qed.

Example frames_roundtrip_witness :
  push_all decoder_new (map (fun b => [b]) (be_bytes 1 3 ++ be_bytes 4 8 ++ be_bytes 8 77)) =
    Some (decoder_new, Ok [Ping 77]) /\ finish decoder_new = Ok tt.
Proof. apply frames_roundtrip; [by apply Forall_singleton|reflexivity]. Defined.

(** *** The decoder accepts nothing but what the encoder writes *)

Lemma be_of_be_n n l : length l = n -> bytes_ok l -> be_bytes n (of_be_bytes l) = l.
Proof. intros <-. apply be_of_be. Qed.

Lemma fail_code_of v r : fail_of v = Ok r -> fail_code r = v.
Proof. unfold fail_of. intros H. repeat case_if_in H; simplify_eq; done. Qed.
Lemma close_code_of v r : close_of v = Ok r -> close_code r = v.
Proof. unfold close_of. intros H. repeat case_if_in H; simplify_eq; done. Qed.
Lemma state_code_of v r : state_of v = Ok r -> state_code r = v.
Proof. unfold state_of. intros H. repeat case_if_in H; simplify_eq; done. Qed.

Lemma pbind_ok {A B} (o : Panics A) (f : A -> Panics B) b :
  pbind o f = Some (Ok b) <-> exists a, o = Some (Ok a) /\ f a = Some (Ok b).
Proof. destruct o as [[a|e]|]; simpl; naive_solver. Qed.

Lemma decode_mapped_ok l addr : decode_mapped l = Ok addr -> l = encode_mapped addr /\ length addr = 4%nat.
Proof.
  unfold decode_mapped. intros H. do 16 (destruct l as [|? l]; [discriminate H|]). destruct l; [|discriminate H].
  cbn -[repeat] in H. case_if_in H; [done|].
  assert ([z; z0; z1; z2; z3; z4; z5; z6; z7; z8] = repeat 0 10) as Ez by (by apply bytes_eqb_eq).
  cbn in Ez. by simplify_eq.
Qed.

(** The bytes of a decoded payload are those of its integers. *)
Ltac reread :=
  match goal with Hd : _ = Some (Ok ?f) |- encode_payload ?f = _ =>
    cbn -[of_be_bytes] in Hd; injection Hd as <-; cbn [encode_payload] end;
  repeat match goal with E : month_ok _ = true |- _ => rewrite E; clear E end;
  unfold bytes_ok in *;
  repeat match goal with H : Forall _ (_ :: _) |- _ => apply List.Forall_cons_iff in H as [? H] end;
  rewrite ?be_of_be_n by (first [done|unfold bytes_ok; repeat apply List.Forall_cons; first [assumption|apply List.Forall_nil]]);
  done.

(** What a payload of the right length decodes to encodes to it. *)
Lemma encode_decoded ty p f : bytes_ok p -> validate_header ty (Z.of_nat (length p)) = Ok tt ->
  decode_payload ty p = Some (Ok f) -> encode_payload f = Ok (ty, p).
Proof.
  intros Hp H Hd. apply validate_length in H; [|lia].
  assert (In ty [1; 2; 3; 4; 5; 6; 7; 8; 9; 10]) as Hty.
  { destruct ty as [|ty|ty]; try (by destruct H). simpl.
    do 4 (destruct ty as [ty|ty|]; try (by destruct H); try tauto). }
  simpl in Hty. repeat destruct Hty as [<-|Hty]; [.. |done]; cbv iota in H; unfold decode_payload in Hd;
    cbn [Z.eqb Pos.eqb TY_HELLO TY_HELLO_OK TY_PING TY_PONG TY_OPEN TY_OPEN_OK TY_OPEN_FAIL TY_DATA TY_CLOSE TY_QUOTA] in Hd.
  - case_if_in Hd; simplify_eq. by apply bytes_eqb_eq in E as ->.
  - do 12 (destruct p as [|? p]; [discriminate H|]). destruct p; [|cbn [length] in H; lia].
    cbn -[of_be_bytes month_ok state_of] in Hd. case_if_in Hd; [|done].
    destruct (state_of _) as [st|] eqn:Es; [|done]. apply state_code_of in Es as <-. reread.
  - do 8 (destruct p as [|? p]; [discriminate H|]). destruct p; [|cbn [length] in H; lia]. reread.
  - do 8 (destruct p as [|? p]; [discriminate H|]). destruct p; [|cbn [length] in H; lia]. reread.
  - do 28 (destruct p as [|? p]; [discriminate H|]). destruct p; [|cbn [length] in H; lia].
    cbn -[of_be_bytes decode_mapped] in Hd. destruct (decode_mapped _) as [addr|] eqn:Em; [|done].
    apply decode_mapped_ok in Em as [Em Hl]. do 4 (destruct addr as [|? addr]; [done|]). destruct addr; [|done].
    cbn in Em. injection Em as -> -> -> -> -> -> -> -> -> -> -> -> -> -> -> ->. reread.
  - do 8 (destruct p as [|? p]; [discriminate H|]). destruct p; [|cbn [length] in H; lia]. reread.
  - do 9 (destruct p as [|? p]; [discriminate H|]). destruct p; [|cbn [length] in H; lia].
    cbn -[of_be_bytes fail_of] in Hd. destruct (fail_of _) as [r|] eqn:Es; [|done].
    apply fail_code_of in Es as <-. reread.
  - do 8 (destruct p as [|? p]; [cbn [length] in H; lia|]). unfold slice in Hd.
    rewrite get_range_skip in Hd by (cbn [length]; lia). cbn -[of_be_bytes] in Hd. rewrite take_0, drop_0 in Hd.
    injection Hd as <-. cbn [encode_payload length] in *.
    rewrite (proj2 (Z.ltb_ge MAX_DATA_PAYLOAD _)) by lia.
    rewrite be_of_be_n; [done|done|]. unfold bytes_ok in *.
    do 8 (apply List.Forall_cons_iff in Hp as [? Hp]). repeat apply List.Forall_cons; first [assumption|apply List.Forall_nil].
  - do 9 (destruct p as [|? p]; [discriminate H|]). destruct p; [|cbn [length] in H; lia].
    cbn -[of_be_bytes close_of] in Hd. destruct (close_of _) as [r|] eqn:Es; [|done].
    apply close_code_of in Es as <-. reread.
  - do 9 (destruct p as [|? p]; [discriminate H|]). destruct p; [|cbn [length] in H; lia].
    cbn -[of_be_bytes state_of] in Hd. destruct (state_of _) as [st|] eqn:Es; [|done].
    apply state_code_of in Es as <-. reread.
Qed.

Lemma took_encode s f rest : bytes_ok s -> next_frame s = Took f rest ->
  exists enc, encode f = Ok enc /\ s = enc ++ rest.
Proof.
  intros Hs H. destruct (header_spec s) as [[E _]|(ty & len & E & Hl)]; [unfold next_frame in H; by rewrite E in H|].
  unfold next_frame in H. rewrite E in H.
  destruct s as [|a [|b [|c [|d [|e s]]]]]; try (cbn in Hl; unfold HEADER in Hl; lia).
  unfold header in E. cbn -[of_be_bytes] in E. rewrite take_0 in E. injection E as <- <-.
  set (l := [b; c; d; e]) in *. set (len := of_be_bytes l) in *.
  assert (bytes_ok l /\ bytes_ok s) as [Hlo Hso].
  { unfold bytes_ok in *. do 5 (apply List.Forall_cons_iff in Hs as [? Hs]). split; [|done].
    repeat apply List.Forall_cons; first [assumption|apply List.Forall_nil]. }
  pose proof (of_be_range l Hlo) as Hr. change (8 * Z.of_nat (length l)) with 32 in Hr. fold len in Hr.
  destruct (validate_header a len) as [[]|] eqn:Ev; [|done]. cbv zeta in H.
  destruct (get_range (a :: b :: c :: d :: e :: s) _ _) as [p|] eqn:Eg; [|done].
  apply get_range_some in Eg as [Hg ->]. destruct (decode_payload _ _) as [[f'|]|] eqn:Ed; [|done|done].
  injection H as <- <-. unfold HEADER in *. cbn [length] in Hg.
  replace (5 + Z.to_nat len - 5)%nat with (Z.to_nat len) in Ed by lia.
  change (drop 5 (a :: b :: c :: d :: e :: s)) with s in Ed. change (drop (5 + Z.to_nat len) (a :: l ++ s)) with (drop (Z.to_nat len) s).
  unfold in_width in Hr.
  assert (Z.of_nat (length (firstn (Z.to_nat len) s)) = len) as Hp by (rewrite length_firstn; lia).
  apply encode_decoded in Ed; [|by apply Forall_take|by rewrite Hp].
  unfold encode. rewrite Ed. cbn [rbind fst snd]. rewrite Hp, wrap_small by done.
  unfold len. rewrite be_of_be_n by done. eexists. split; [reflexivity|].
  fold len. cbn [app]. rewrite <- app_assoc, firstn_skipn. done.
Qed.

Lemma decodes_encode s fs res : decodes s fs res -> bytes_ok s ->
  match res with
  | inl r => exists enc, encode_all fs = Ok enc /\ s = enc ++ r
  | inr _ => True
  end.
Proof.
  induction 1 as [s E|s e E|s f rest fs res E _ IH]; intros Hs; [by exists []|done|].
  destruct (took_encode s f rest Hs E) as (a & Ea & ->). apply Forall_app in Hs as [_ Hs].
  specialize (IH Hs). destruct res as [r|]; [|done]. destruct IH as (b & Eb & ->).
  exists (a ++ b). cbn [encode_all]. rewrite Ea, Eb. split; [done|by rewrite <- app_assoc].
Qed.

(** The decoder accepts nothing but the encodings of frames: the bytes
    of the frames that it reads, followed by what it keeps, are the input;
    so two inputs that are read whole as the same frames are the same. *)
Theorem decoded_canonical (s : list Z) (d : Decoder) (fs : list Frame) : bytes_ok s ->
  push decoder_new s = Some (d, Ok fs) -> exists enc, encode_all fs = Ok enc /\ s = enc ++ buf d.
Proof.
  intros Hs Hp. destruct (decodes_total s Hs) as (fs' & res & H).
  pose proof (push_decodes _ _ _ H [] s (S (length s)) [] eq_refl eq_refl (Nat.lt_succ_diag_r _)) as Ho.
  change (push_loop (S (length s)) [] s []) with (push decoder_new s) in Ho.
  pose proof (decodes_encode _ _ _ H Hs) as He. destruct res as [r|e]; cbn [outcome app] in Ho.
  - rewrite Hp in Ho. injection Ho as -> ->. done.
  - destruct Ho as [d' Ho]. congruence.
Qed.

Example decoded_canonical_witness :
  exists enc, encode_all [Ping 77] = Ok enc /\ be_bytes 1 3 ++ be_bytes 4 8 ++ be_bytes 8 77 ++ [9] = enc ++ [9].
Proof.
  apply (decoded_canonical (be_bytes 1 3 ++ be_bytes 4 8 ++ be_bytes 8 77 ++ [9]) (MkDecoder [9]) [Ping 77]);
    [|vm_compute; reflexivity].
  apply List.Forall_forall. intros x Hx. vm_compute in Hx. repeat destruct Hx as [<-|Hx]; done.
Defined.

Example push_chunks_witness :
  match push decoder_new (concat [[3; 0; 0]; [0; 9]]) with
  | Some (d, Ok fs) => push_all decoder_new [[3; 0; 0]; [0; 9]] = Some (d, Ok fs) /\
      Z.of_nat (length (buf d)) < 5 + 8 + MAX_DATA_PAYLOAD
  | Some (_, Err e) => exists d, push_all decoder_new [[3; 0; 0]; [0; 9]] = Some (d, Err e)
  | None => False
  end.
Proof. apply (push_chunks [[3; 0; 0]; [0; 9]]). by repeat (apply List.Forall_cons || apply List.Forall_nil). Defined.
