(* ===== verification/EdgeSession.v ===== *)
(** * The edge tunnel's session rules ([edge/src/session.rs], [edge/src/meter.rs], [edge/src/proxy.rs])

    Connection ids, the control session, the timers, the egress meter and the
    calendar of the quota month.  Durations are in milliseconds. *)

From stdpp Require Import gmap.
From S2P Require Import Prelude EdgeFrame.

(* [edge/src/session.rs:11-11] MAX_CONNS *)
Definition MAX_CONNS : Z := 64.
(* [edge/src/session.rs:12-12] PING_INTERVAL *)
Definition PING_INTERVAL : Z := 15000.
(* [edge/src/session.rs:13-13] PONG_TIMEOUT *)
Definition PONG_TIMEOUT : Z := 45000.

(** ** Connection ids *)

(* [edge/src/session.rs:16-19] IdWindow *)
Record IdWindow := MkIds { next : Z; open : gset Z }.

(* [edge/src/session.rs:22-26] Admit *)
Inductive Admit := Opened | AdmitCap.

(* [edge/src/session.rs:29-34] IdWindow::new *)
Definition ids_new : IdWindow := MkIds 1 ∅.

(* [edge/src/session.rs:36-38] IdWindow::open_count *)
Definition open_count (w : IdWindow) : Z := Z.of_nat (size (open w)).

(** [checked_add(1)] on a [u64]. *)
Definition next_id (n : Z) : option Z := if n + 1 <=? u64_max then Some (n + 1) else None.

(* [edge/src/session.rs:40-51] IdWindow::alloc *)
Definition alloc (w : IdWindow) : IdWindow * result Z ProtocolError :=
  if MAX_CONNS <=? open_count w then (w, Err Cap)
  else match next_id (next w) with
       | Some n => (MkIds n ({[next w]} ∪ open w), Ok (next w))
       | None => (w, Err ConnExhausted)
       end.

(* [edge/src/session.rs:55-68] IdWindow::admit *)
Definition admit_id (w : IdWindow) (id : Z) : IdWindow * result Admit ProtocolError :=
  if negb (id =? next w) then (w, Err BadConn)
  else match next_id (next w) with
       | Some n =>
           if MAX_CONNS <=? open_count w then (MkIds n (open w), Ok AdmitCap)
           else (MkIds n ({[id]} ∪ open w), Ok Opened)
       | None => (w, Err ConnExhausted)
       end.

(* [edge/src/session.rs:70-76] IdWindow::require_open *)
Definition require_open (w : IdWindow) (id : Z) : result unit ProtocolError :=
  if decide (id ∈ open w) then Ok tt else Err BadConn.

(* [edge/src/session.rs:78-84] IdWindow::close *)
Definition close (w : IdWindow) (id : Z) : IdWindow * result unit ProtocolError :=
  if decide (id ∈ open w) then (MkIds (next w) (open w ∖ {[id]}), Ok tt) else (w, Err BadConn).

(** ** The control session *)

(* [edge/src/session.rs:103-109] HelloOnce::observe *)
Definition observe (seen : bool) : bool * result unit ProtocolError :=
  if seen then (true, Err SecondHello) else (true, Ok tt).

(** The generation is a [u64] that a new connection increments. *)
(* [edge/src/session.rs:123-127] SessionGate::admit *)
Definition gate_admit (current : Z) : Z * (Z * option Z) :=
  let prev := if current =? 0 then None else Some current in
  let current := wrap 64 (current + 1) in
  (current, (current, prev)).

(* [edge/src/session.rs:129-131] SessionGate::is_current *)
Definition is_current (current generation : Z) : bool := current =? generation.

(* [edge/src/session.rs:135-145] reconnect_delay *)
Definition reconnect_delay (attempt jitter : Z) : Z :=
  (if attempt =? 0 then 1 else if attempt =? 1 then 2 else if attempt =? 2 then 4
   else if attempt =? 3 then 8 else if attempt =? 4 then 16 else 30) * 1000 + Z.min jitter 1000.

(* [edge/src/session.rs:148-150] ping_interval *)
Definition ping_interval (jitter : Z) : Z := PING_INTERVAL + Z.min jitter 2000.

(* [edge/src/session.rs:152-154] tunnel_dead *)
Definition tunnel_dead (since_pong : Z) : bool := PONG_TIMEOUT <=? since_pong.

(** ** Ports *)

(* [edge/src/proxy.rs:10-15] loopback_for *)
Definition loopback_for (public_port : Z) : option Z :=
  snd <$> List.find (fun p => fst p =? public_port) HELLO_PAIRS.

(* [edge/src/proxy.rs:18-20] wants_proxy *)
Definition wants_proxy (public_port : Z) : bool :=
  (public_port =? 25) || (public_port =? 465) || (public_port =? 993).

(** ** The egress meter *)

(* [edge/src/meter.rs:7-7] PAUSE_AT *)
Definition PAUSE_AT : Z := 9 * Z.shiftl 1 30 / 10.

(* [edge/src/meter.rs:29-32] Meter *)
Record Meter := MkMeter { tx_bytes : Z; override_on : bool }.

(* [edge/src/meter.rs:46-54] Meter::state *)
Definition state (m : Meter) : QuotaState :=
  if override_on m then Override else if PAUSE_AT <=? tx_bytes m then PausedQuota else QOpen.

(* [edge/src/meter.rs:58-60] Meter::data_allowed *)
Definition data_allowed (m : Meter) : bool := override_on m || (tx_bytes m <? PAUSE_AT).

(* [edge/src/meter.rs:64-67] Meter::note_tx *)
Definition note_tx (m : Meter) (n : Z) : Meter * bool :=
  let m := MkMeter (Z.min u64_max (tx_bytes m + n)) (override_on m) in (m, negb (data_allowed m)).

(* [edge/src/meter.rs:69-71] Meter::roll_month *)
Definition roll_month (m : Meter) : Meter := MkMeter 0 (override_on m).

(* [edge/src/meter.rs:78-81] NicCounter *)
Record NicCounter := MkNic { cumulative : Z; last_raw : Z }.
(* [edge/src/meter.rs:84-89] NicCounter::new *)
Definition nic_new : NicCounter := MkNic 0 0.

(* [edge/src/meter.rs:91-99] NicCounter::sample *)
Definition sample (c : NicCounter) (raw : Z) : NicCounter :=
  let add n := Z.min u64_max (cumulative c + n) in
  MkNic (if raw <? last_raw c then add raw else add (raw - last_raw c)) raw.

(* [edge/src/meter.rs:101-103] NicCounter::roll_month *)
Definition nic_roll_month (c : NicCounter) : NicCounter := MkNic 0 (last_raw c).

(** ** The month of a Unix time *)

(** Rust's integer division truncates; only [era] divides a number that
    could be negative. *)
(* [edge/src/meter.rs:114-125] utc_year_month *)
Definition utc_year_month (unix_secs : Z) : Z * Z :=
  let z := unix_secs / 86400 + 719468 in
  let era := Z.quot (if 0 <=? z then z else z - 146096) 146097 in
  let doe := z - era * 146097 in
  let yoe := (doe - doe / 1460 + doe / 36524 - doe / 146096) / 365 in
  let y := yoe + era * 400 in
  let doy := doe - (365 * yoe + yoe / 4 - yoe / 100) in
  let mp := (5 * doy + 2) / 153 in
  let month := if mp <? 10 then mp + 3 else mp - 9 in
  let year := if month <=? 2 then y + 1 else y in
  (wrap 16 year, month).

(** ** The ids are never reused *)

Definition ids_ok (w : IdWindow) : Prop :=
  1 <= next w <= u64_max /\ (forall id, id ∈ open w -> 1 <= id < next w) /\ open_count w <= MAX_CONNS.

Lemma open_count_add w id : id ∉ open w -> Z.of_nat (size ({[id]} ∪ open w)) = open_count w + 1.
Proof. intros H. unfold open_count. rewrite size_union by set_solver. rewrite size_singleton. lia. Qed.

Lemma alloc_ok w : ids_ok w ->
  ids_ok (fst (alloc w)) /\
  match snd (alloc w) with
  | Ok id => id = next w /\ id ∉ open w /\ next (fst (alloc w)) = id + 1 /\ open (fst (alloc w)) = {[id]} ∪ open w
  | Err Cap => fst (alloc w) = w /\ open_count w = MAX_CONNS
  | Err _ => fst (alloc w) = w
  end.
Proof.
  intros (Hn & Ho & Hc). assert (next w ∉ open w) as Hnew by (intros H; apply Ho in H; lia).
  unfold alloc, next_id. case_if; cbn [fst snd]; [split; [done|split; [done|lia]]|]. case_if; cbn [fst snd]; [|by split_and!].
  split; [|done]. split_and!; cbn [next open]; [lia|lia| |].
  - intros id [->%elem_of_singleton|H]%elem_of_union; [lia|]. apply Ho in H. lia.
  - change (Z.of_nat (size ({[next w]} ∪ open w)) <= MAX_CONNS). rewrite open_count_add by done. lia.
Qed.

Lemma admit_ok w id : ids_ok w ->
  ids_ok (fst (admit_id w id)) /\
  match snd (admit_id w id) with
  | Ok Opened => id = next w /\ id ∉ open w /\ fst (admit_id w id) = MkIds (id + 1) ({[id]} ∪ open w)
  | Ok AdmitCap => id = next w /\ id ∉ open w /\ fst (admit_id w id) = MkIds (id + 1) (open w)
  | Err _ => fst (admit_id w id) = w
  end.
Proof.
  intros (Hn & Ho & Hc). assert (next w ∉ open w) as Hnew by (intros H; apply Ho in H; lia).
  unfold admit_id, next_id. destruct (Z.eqb_spec id (next w)) as [->|]; cbn [negb]; [|by split_and!].
  case_if; cbn [fst snd]; [|by split_and!]. case_if; cbn [fst snd]; (split; [|done]); split_and!; cbn [next open]; try lia.
  - intros id H. apply Ho in H. lia.
  - done.
  - intros id [->%elem_of_singleton|H]%elem_of_union; [lia|]. apply Ho in H. lia.
  - change (Z.of_nat (size ({[next w]} ∪ open w)) <= MAX_CONNS). rewrite open_count_add by done. lia.
Qed.

Lemma close_ok w id : ids_ok w -> ids_ok (fst (close w id)) /\ next (fst (close w id)) = next w.
Proof.
  intros (Hn & Ho & Hc). unfold close. case_if; cbn [fst]; [|by split_and!].
  split; [|done]. split_and!; cbn [next open]; [lia|lia|set_solver|].
  unfold open_count in *. cbn [open]. rewrite size_difference by set_solver. lia.
Qed.

(** What the two sides do with a window. *)
Inductive IdOp := OAlloc | OAdmit (id : Z) | OClose (id : Z).

(** One operation: the window, and the id that it hands out. *)
Definition id_op (w : IdWindow) (o : IdOp) : IdWindow * list Z :=
  match o with
  | OAlloc => match alloc w with (w, Ok id) => (w, [id]) | (w, Err _) => (w, []) end
  | OAdmit id => match admit_id w id with (w, Ok _) => (w, [id]) | (w, Err _) => (w, []) end
  | OClose id => (fst (close w id), [])
  end.

Fixpoint id_ops (w : IdWindow) (os : list IdOp) : IdWindow * list Z :=
  match os with
  | [] => (w, [])
  | o :: os => let '(w, a) := id_op w o in let '(w, b) := id_ops w os in (w, a ++ b)
  end.

Lemma id_op_ok w o : ids_ok w -> ids_ok (fst (id_op w o)) /\
  (snd (id_op w o) = [] /\ next (fst (id_op w o)) = next w \/
   snd (id_op w o) = [next w] /\ next (fst (id_op w o)) = next w + 1).
Proof.
  intros Hw. destruct o as [|id|id]; cbn [id_op].
  - destruct (alloc_ok w Hw) as [H1 H2]. destruct (alloc w) as [w' [id|e]]; cbn [fst snd] in *.
    + destruct H2 as (-> & _ & H3 & _). by split; [|right].
    + split; [done|left]. destruct e; try (destruct H2 as [-> _]); try subst w'; done.
  - destruct (admit_ok w id Hw) as [H1 H2]. destruct (admit_id w id) as [w' [[]|e]]; cbn [fst snd] in *.
    + destruct H2 as (-> & _ & ->). by split; [|right].
    + destruct H2 as (-> & _ & ->). by split; [|right].
    + subst w'. by split; [|left].
  - destruct (close_ok w id Hw) as [H1 H2]. by split; [|left].
Qed.

Lemma id_ops_run os : forall w, ids_ok w ->
  ids_ok (fst (id_ops w os)) /\ snd (id_ops w os) = seqZ (next w) (next (fst (id_ops w os)) - next w) /\
  next w <= next (fst (id_ops w os)).
Proof.
  induction os as [|o os IH]; intros w Hw; cbn [id_ops].
  - cbn [fst snd]. rewrite Z.sub_diag. by split_and!.
  - destruct (id_op_ok w o Hw) as [H1 H2]. destruct (id_op w o) as [w1 a]; cbn [fst snd] in *.
    destruct (IH w1 H1) as (H3 & H4 & H5). destruct (id_ops w1 os) as [w2 b]; cbn [fst snd] in *.
    destruct H2 as [[-> H2]|[-> H2]]; rewrite H2 in *; split_and!; try done; try lia. cbn [app]. rewrite H4.
    rewrite (seqZ_cons (next w)) by lia. f_equal. f_equal; lia.
Qed.

(** Whatever the sequence of allocations, admissions and closings, on
    either side of the tunnel: the ids handed out are 1, 2, 3, ... without a
    gap and without reuse, the open ones are among them, and at most 64 are
    open at a time. *)
Theorem ids_monotonic (os : list IdOp) :
  let '(w, handed) := id_ops ids_new os in
  handed = seqZ 1 (next w - 1) /\ NoDup handed /\ (forall id, id ∈ open w -> id ∈ handed) /\
  open_count w <= MAX_CONNS.
Proof.
  assert (ids_ok ids_new) as H0.
  { split_and!; [done|done|intros id H; by apply elem_of_empty in H|]. unfold open_count. cbn. by rewrite size_empty. }
  destruct (id_ops_run os ids_new H0) as ((_ & Ho & Hc) & H2 & _). destruct (id_ops ids_new os) as [w handed].
  cbn [fst snd next ids_new] in *. subst handed. split_and!; [done|apply NoDup_seqZ| |done].
  intros id H. apply elem_of_seqZ. apply Ho in H. lia.
Qed.

(** ** The calendar

    The reference: years are counted from 1970 one by one, months within
    the year, with the Gregorian leap years. *)

Definition leap (y : Z) : bool := (y mod 4 =? 0) && (negb (y mod 100 =? 0) || (y mod 400 =? 0)).
Definition year_length (y : Z) : Z := if leap y then 366 else 365.
Definition month_length (y m : Z) : Z :=
  if m =? 2 then (if leap y then 29 else 28)
  else if (m =? 4) || (m =? 6) || (m =? 9) || (m =? 11) then 30 else 31.

(** The days from 1970-01-01 to the first of January of [1970 + n]. *)
Fixpoint year_start (n : nat) : Z :=
  match n with O => 0 | S n => year_start n + year_length (1970 + Z.of_nat n) end.

(** The days of the months before the [n + 1]-st. *)
Fixpoint month_start (y : Z) (n : nat) : Z :=
  match n with O => 0 | S n => month_start y n + month_length y (Z.of_nat n + 1) end.

Definition leaps (y : Z) : Z := y / 4 - y / 100 + y / 400.

Lemma div_pred y n : 0 < n -> (y - 1) / n = y / n - (if y mod n =? 0 then 1 else 0).
Proof.
  intros Hn. pose proof (Z.div_mod y n ltac:(lia)) as H. pose proof (Z.mod_pos_bound y n Hn).
  set (q := y / n) in *. set (m := y mod n) in *. clearbody q m. subst y.
  destruct (Z.eqb_spec m 0) as [E|E]; symmetry.
  - apply Z.div_unique with (r := n - 1); [left; lia|lia].
  - apply Z.div_unique with (r := m - 1); [left; lia|lia].
Qed.

Lemma leaps_step y : leaps y = leaps (y - 1) + (if leap y then 1 else 0).
Proof.
  unfold leaps, leap. rewrite !div_pred by lia.
  assert (forall a b, 0 < a -> 0 < b -> y mod (b * a) = 0 -> y mod a = 0) as Hd.
  { intros a b Ha Hb H. apply Z.mod_divide in H; [|nia]. apply Z.mod_divide; [lia|].
    eapply Z.divide_trans; [|exact H]. by exists b. }
  assert (y mod 100 = 0 -> y mod 4 = 0) by (by apply (Hd 4 25)).
  assert (y mod 400 = 0 -> y mod 100 = 0) by (by apply (Hd 100 4)). clear Hd.
  generalize dependent (y / 4). generalize dependent (y / 100). generalize dependent (y / 400).
  generalize dependent (y mod 4). generalize dependent (y mod 100). generalize dependent (y mod 400). intros m400 m100 H1 m4 H2 q400 q100 q4.
  destruct (Z.eqb_spec m4 0), (Z.eqb_spec m100 0), (Z.eqb_spec m400 0); cbn [andb orb negb]; lia.
Qed.

Lemma year_start_closed n :
  year_start n = 365 * Z.of_nat n + leaps (1969 + Z.of_nat n) - leaps 1969.
Proof.
  induction n as [|n IH]; [reflexivity|]. cbn [year_start]. rewrite IH. unfold year_length.
  pose proof (leaps_step (1970 + Z.of_nat n)) as Hl.
  replace (1970 + Z.of_nat n - 1) with (1969 + Z.of_nat n) in Hl by lia.
  replace (1969 + Z.of_nat (S n)) with (1970 + Z.of_nat n) by lia. destruct (leap _); lia.
Qed.

(** The year that starts in March, and the month counted from March. *)
Lemma month_start_closed y n : (n < 12)%nat ->
  let mp := (Z.of_nat n + 10) mod 12 in
  month_start y n = (153 * mp + 2) / 5 + (if (n <? 2)%nat then -306 else 59 + if leap y then 1 else 0) /\
  (Z.of_nat n + 1 = if mp <? 10 then mp + 3 else mp - 9).
Proof.
  intros Hn. do 12 (destruct n as [|n]; [unfold month_start, month_length; generalize (leap y);
    intros []; split; vm_compute; reflexivity|]). lia.
Qed.

Lemma month_length_march y n : (n < 12)%nat -> let mp := (Z.of_nat n + 10) mod 12 in
  (153 * mp + 2) / 5 + month_length y (Z.of_nat n + 1) =
    if mp =? 11 then 365 + (if leap y then 1 else 0) else (153 * (mp + 1) + 2) / 5.
Proof.
  intros Hn. do 12 (destruct n as [|n]; [unfold month_length; generalize (leap y); intros [];
    vm_compute; reflexivity|]). lia.
Qed.

(** Within a cycle of 400 years the year is recovered from the day. *)
Lemma year_of_era c k j doy doe : 0 <= c < 4 -> 0 <= k < 25 -> 0 <= j < 4 -> 0 <= doy <= 365 ->
  (doy = 365 -> j = 3 /\ (k <> 24 \/ c = 3)) ->
  doe = 36524 * c + 1461 * k + 365 * j + doy ->
  (doe - doe / 1460 + doe / 36524 - doe / 146096) / 365 = 100 * c + 4 * k + j.
Proof.
  intros Hc Hk Hj Hd Hl He. assert (0 <= doe <= 146096) as Hr by lia.
  assert (doe / 146096 = if doe =? 146096 then 1 else 0) as E1.
  { destruct (Z.eqb_spec doe 146096); [subst; by rewrite e|]. apply Z.div_small. lia. }
  assert (doe / 36524 = if doe =? 146096 then 4 else c) as E2.
  { destruct (Z.eqb_spec doe 146096) as [->|]; [done|]. symmetry.
    apply Z.div_unique with (r := 1461 * k + 365 * j + doy); [left; lia|lia]. }
  rewrite E1, E2. pose proof (Z.div_mod doe 1460 ltac:(lia)) as Hq. pose proof (Z.mod_pos_bound doe 1460 ltac:(lia)) as Hm.
  set (q := doe / 1460) in *. set (m := doe mod 1460) in *. clearbody q m.
  symmetry. destruct (Z.eqb_spec doe 146096).
  - apply Z.div_unique with (r := doe - q + 4 - 1 - 365 * (100 * c + 4 * k + j)); [left; lia|lia].
  - apply Z.div_unique with (r := doe - q + c - 0 - 365 * (100 * c + 4 * k + j)); [left|lia].
    assert (c = 0 \/ c = 1 \/ c = 2 \/ c = 3) as Hcc by lia. assert (j = 0 \/ j = 1 \/ j = 2 \/ j = 3) as Hjj by lia.
    destruct Hcc as [->|[->|[->| ->]]], Hjj as [->|[->|[->| ->]]]; lia.
Qed.

(** A year as its place in the cycles of 400, 100 and 4 years. *)
Lemma year_split Y : 0 <= Y -> exists E c k j, Y = 400 * E + 100 * c + 4 * k + j /\
  0 <= E /\ 0 <= c < 4 /\ 0 <= k < 25 /\ 0 <= j < 4.
Proof.
  intros HY. pose proof (Z.div_mod Y 400 ltac:(lia)). pose proof (Z.mod_pos_bound Y 400 ltac:(lia)).
  assert (0 <= Y / 400) by (apply Z.div_pos; lia).
  set (E := Y / 400) in *. set (r := Y mod 400) in *. clearbody E r.
  pose proof (Z.div_mod r 100 ltac:(lia)). pose proof (Z.mod_pos_bound r 100 ltac:(lia)).
  set (c := r / 100) in *. set (s := r mod 100) in *. clearbody c s.
  pose proof (Z.div_mod s 4 ltac:(lia)). pose proof (Z.mod_pos_bound s 4 ltac:(lia)).
  set (k := s / 4) in *. set (j := s mod 4) in *. clearbody k j. exists E, c, k, j. lia.
Qed.

Lemma leaps_split E c k j : 0 <= c < 4 -> 0 <= k < 25 -> 0 <= j < 4 ->
  leaps (400 * E + 100 * c + 4 * k + j) = 97 * E + 24 * c + k.
Proof.
  intros Hc Hk Hj. unfold leaps. set (Y := 400 * E + 100 * c + 4 * k + j).
  assert (Y / 4 = 100 * E + 25 * c + k) as -> by (symmetry; apply Z.div_unique with (r := j); [left; lia|unfold Y; lia]).
  assert (Y / 100 = 4 * E + c) as -> by (symmetry; apply Z.div_unique with (r := 4 * k + j); [left; lia|unfold Y; lia]).
  assert (Y / 400 = E) as ->
    by (symmetry; apply Z.div_unique with (r := 100 * c + 4 * k + j); [left; lia|unfold Y; lia]). lia.
Qed.

(** The year after a year that is in its cycles at [c], [k], [j] is a leap
    year only where a day is added. *)
Lemma leap_next E c k j : 0 <= c < 4 -> 0 <= k < 25 -> 0 <= j < 4 ->
  leap (400 * E + 100 * c + 4 * k + j + 1) = true -> j = 3 /\ (k <> 24 \/ c = 3).
Proof.
  intros Hc Hk Hj Hl. pose proof (leaps_step (400 * E + 100 * c + 4 * k + j + 1)) as Hs.
  rewrite Hl in Hs. replace (400 * E + 100 * c + 4 * k + j + 1 - 1) with (400 * E + 100 * c + 4 * k + j) in Hs by lia.
  rewrite leaps_split in Hs by done.
  destruct (Z.eq_dec j 3) as [->|Hj3].
  - split; [done|]. destruct (Z.eq_dec k 24) as [->|]; [right|by left].
    destruct (Z.eq_dec c 3); [done|].
    replace (400 * E + 100 * c + 4 * 24 + 3 + 1) with (400 * E + 100 * (c + 1) + 4 * 0 + 0) in Hs by lia.
    rewrite leaps_split in Hs by lia. lia.
  - replace (400 * E + 100 * c + 4 * k + j + 1) with (400 * E + 100 * c + 4 * k + (j + 1)) in Hs by lia.
    rewrite leaps_split in Hs by lia. lia.
Qed.

(** The computation, from the year that starts in March. *)
Lemma utc_from_march E c k j doy t mp : 0 <= E -> 0 <= c < 4 -> 0 <= k < 25 -> 0 <= j < 4 ->
  0 <= doy <= 365 -> (doy = 365 -> j = 3 /\ (k <> 24 \/ c = 3)) -> 0 <= t < 86400 ->
  (153 * mp + 2) / 5 <= doy < (153 * (mp + 1) + 2) / 5 -> 0 <= mp <= 11 ->
  let Y := 400 * E + 100 * c + 4 * k + j in
  utc_year_month ((365 * Y + (97 * E + 24 * c + k) + doy - 719468) * 86400 + t) =
    (wrap 16 (if mp <? 10 then Y else Y + 1), if mp <? 10 then mp + 3 else mp - 9).
Proof.
  intros HE Hc Hk Hj Hd Hl Ht Hmp Hmp' Y. unfold utc_year_month.
  set (z := 365 * Y + (97 * E + 24 * c + k) + doy).
  rewrite Z.div_add_l, (Z.div_small t), Z.add_0_r by lia. replace (z - 719468 + 719468) with z by lia.
  set (doe := 36524 * c + 1461 * k + 365 * j + doy).
  assert (z = 146097 * E + doe) as Ez by (unfold z, doe, Y; lia).
  assert (0 <= doe < 146097) as Hdoe by (unfold doe; lia).
  rewrite (proj2 (Z.leb_le 0 z)), Z.quot_div_nonneg by lia.
  assert (z / 146097 = E) as -> by (symmetry; apply Z.div_unique with (r := doe); [left; lia|lia]).
  replace (z - E * 146097) with doe by lia. cbv zeta.
  rewrite (year_of_era c k j doy doe) by (done || lia).
  assert ((100 * c + 4 * k + j) / 4 = 25 * c + k) as ->
    by (symmetry; apply Z.div_unique with (r := j); [left; lia|lia]).
  assert ((100 * c + 4 * k + j) / 100 = c) as ->
    by (symmetry; apply Z.div_unique with (r := 4 * k + j); [left; lia|lia]).
  replace (doe - (365 * (100 * c + 4 * k + j) + (25 * c + k) - c)) with doy by (unfold doe; lia).
  assert ((5 * doy + 2) / 153 = mp) as ->.
  { pose proof (Z.div_mod (153 * mp + 2) 5 ltac:(lia)). pose proof (Z.mod_pos_bound (153 * mp + 2) 5 ltac:(lia)).
    pose proof (Z.div_mod (153 * (mp + 1) + 2) 5 ltac:(lia)).
    pose proof (Z.mod_pos_bound (153 * (mp + 1) + 2) 5 ltac:(lia)).
    symmetry. apply Z.div_unique with (r := 5 * doy + 2 - 153 * mp); [left; lia|lia]. }
  f_equal. f_equal. replace (100 * c + 4 * k + j + E * 400) with Y by (unfold Y; lia).
  destruct (Z.ltb_spec mp 10).
  - by rewrite (proj2 (Z.leb_gt _ 2)) by lia.
  - by rewrite (proj2 (Z.leb_le _ 2)) by lia.
Qed.

(** The month of a Unix time is that of the Gregorian calendar: for
    every day of every month since 1970 and every second of the day the
    computation gives the month and the year, modulo 2^16. *)
Theorem utc_year_month_correct (n m : nat) (d t : Z) : (m < 12)%nat ->
  0 <= d < month_length (1970 + Z.of_nat n) (Z.of_nat m + 1) -> 0 <= t < 86400 ->
  utc_year_month ((year_start n + month_start (1970 + Z.of_nat n) m + d) * 86400 + t) =
    (wrap 16 (1970 + Z.of_nat n), Z.of_nat m + 1).
Proof.
  intros Hm Hd Ht. set (y := 1970 + Z.of_nat n) in *.
  destruct (month_start_closed y m Hm) as [Ems Emm]. pose proof (month_length_march y m Hm) as Hlen.
  cbv zeta in Hlen.
  set (mp := (Z.of_nat m + 10) mod 12) in *. assert (0 <= mp <= 11) as Hmp
    by (pose proof (Z.mod_pos_bound (Z.of_nat m + 10) 12); lia).
  assert ((m < 2)%nat <-> 10 <= mp) as Hmm
    by (unfold mp; clear -Hm; do 12 (destruct m as [|m]; [vm_compute; intuition (discriminate || lia)|]); lia).
  pose proof (Z.div_mod (153 * mp + 2) 5 ltac:(lia)). pose proof (Z.mod_pos_bound (153 * mp + 2) 5 ltac:(lia)).
  pose proof (Z.div_mod (153 * (mp + 1) + 2) 5 ltac:(lia)).
  pose proof (Z.mod_pos_bound (153 * (mp + 1) + 2) 5 ltac:(lia)).
  set (Y := if (m <? 2)%nat then y - 1 else y).
  destruct (year_split Y) as (E & c & k & j & EY & HE & Hc & Hk & Hj); [unfold Y, y; case_if; lia|].
  set (doy := (153 * mp + 2) / 5 + d).
  assert (year_start n + month_start y m + d = 365 * Y + (97 * E + 24 * c + k) + doy - 719468) as ->.
  { rewrite year_start_closed, Ems, <- (leaps_split E c k j), <- EY by done.
    replace (1969 + Z.of_nat n) with (y - 1) by (unfold y; lia). change (leaps 1969) with 477. unfold doy, Y.
    pose proof (leaps_step y). unfold y in *. destruct (Nat.ltb_spec m 2); lia. }
  rewrite EY, (utc_from_march E c k j doy t mp); try done.
  - rewrite <- EY. unfold Y. destruct (Nat.ltb_spec m 2), (Z.ltb_spec mp 10); try lia; f_equal; try done; f_equal; lia.
  - unfold doy. destruct (Z.eqb_spec mp 11); destruct (leap y); lia.
  - intros H365. unfold doy in H365. destruct (Z.eqb_spec mp 11) as [E11|]; [|lia].
    assert (leap y = true) as Hl by (destruct (leap y); [done|lia]).
    apply (leap_next E); [done..|]. rewrite <- EY. unfold Y. rewrite (proj2 (Nat.ltb_lt m 2)) by lia.
    by replace (y - 1 + 1) with y by lia.
  - unfold doy. destruct (Z.eqb_spec mp 11) as [->|]; destruct (leap y); lia.
Qed.

Example utc_year_month_correct_witness :
  utc_year_month ((year_start 54 + month_start 2024 1 + 28) * 86400 + 86399) = (2024, 2).
Proof. apply (utc_year_month_correct 54 1 28 86399); [lia|reflexivity || (vm_compute; by split)|lia]. Defined.
