(* ===== verification/EdgeRelay.v ===== *)
(** * The edge tunnel's relay ([edge/src/relay.rs])

    The two ends of the tunnel as machines.  On the VM a session thread
    handles the frames of the control connection, one thread accepts public
    connections and one thread for each connection reads its socket; all of
    them work on [Shared], whose every field is behind a lock or is atomic,
    and their steps interleave.  The Mac has a thread for the frames and one
    for each dialled socket.

    Sockets are named by their connection ids.  Of the control connection the
    model keeps the frames written to it, of the public sockets the bytes;
    whether a socket still takes bytes is part of the state, what a read
    gives is an input of the step. *)

From stdpp Require Import gmap.
From S2P Require Import Prelude EdgeFrame EdgeSession.

(** What ends a session: [io::Error], made of a protocol error or not. *)
Inductive IoError := Protocol (e : ProtocolError) | Io.

(** [closed] holds the connections whose flag is set; [dead] those whose
    socket refuses bytes; [up] whether the control connection takes bytes. *)
(* [edge/src/relay.rs:63-70] Shared *)
Record Shared := MkShared {
  ids : IdWindow;
  waiting : gset Z;
  writers : gset Z;
  closed : gset Z;
  meter : Meter;
  stop : bool;
  up : bool;
  sent : list Frame;
  dead : gset Z;
  written : list (Z * list Z);
}.

Definition set_ids s x := MkShared x (waiting s) (writers s) (closed s) (meter s) (stop s) (up s) (sent s) (dead s) (written s).
Definition set_waiting s x := MkShared (ids s) x (writers s) (closed s) (meter s) (stop s) (up s) (sent s) (dead s) (written s).
Definition set_writers s x := MkShared (ids s) (waiting s) x (closed s) (meter s) (stop s) (up s) (sent s) (dead s) (written s).
Definition set_closed s x := MkShared (ids s) (waiting s) (writers s) x (meter s) (stop s) (up s) (sent s) (dead s) (written s).
Definition set_meter s x := MkShared (ids s) (waiting s) (writers s) (closed s) x (stop s) (up s) (sent s) (dead s) (written s).
Definition set_stop s x := MkShared (ids s) (waiting s) (writers s) (closed s) (meter s) x (up s) (sent s) (dead s) (written s).
Definition set_up s x := MkShared (ids s) (waiting s) (writers s) (closed s) (meter s) (stop s) x (sent s) (dead s) (written s).
Definition set_sent s x := MkShared (ids s) (waiting s) (writers s) (closed s) (meter s) (stop s) (up s) x (dead s) (written s).
Definition set_dead s x := MkShared (ids s) (waiting s) (writers s) (closed s) (meter s) (stop s) (up s) (sent s) x (written s).
Definition set_written s x := MkShared (ids s) (waiting s) (writers s) (closed s) (meter s) (stop s) (up s) (sent s) (dead s) x.

(** An operation on the shared state: the state, and a result. *)
Definition Op (A : Type) : Type := Shared * result A IoError.

(* [edge/src/relay.rs:51-56] Ctrl::send *)
Definition send (s : Shared) (f : Frame) : Op unit :=
  match encode f with
  | Err e => (s, Err (Protocol e))
  | Ok _ => if up s then (set_sent s (sent s ++ [f]), Ok tt) else (s, Err Io)
  end.

(** [closed.swap(true)]: the state, and whether the flag was clear. *)
Definition swap_closed (s : Shared) (id : Z) : Shared * bool :=
  (set_closed s ({[id]} ∪ closed s), negb (bool_decide (id ∈ closed s))).

(* [edge/src/relay.rs:386-400] retire *)
Definition retire (s : Shared) (id : Z) (send_close : bool) : Op unit :=
  match close (ids s) id with
  | (_, Err e) => (s, Err (Protocol e))
  | (w, Ok _) =>
      let s := set_ids s w in
      let '(s, r) :=
        if decide (id ∈ writers s) then
          let s := set_writers s (writers s ∖ {[id]}) in
          let '(s, first) := swap_closed s id in
          if send_close && first then send s (Close id LocalClose) else (s, Ok tt)
        else (s, Ok tt) in
      match r with
      | Err e => (s, Err e)
      | Ok _ => (set_waiting s (waiting s ∖ {[id]}), Ok tt)
      end
  end.

Section Relay.
(** The order in which a hash map lists its keys. *)
Variable keys : gset Z -> list Z.

(* [edge/src/relay.rs:402-416] pause *)
Definition pause (s : Shared) : Shared :=
  if stop s then s
  else
    let s := fold_left (fun s id => fst (retire s id true)) (keys (writers s)) (set_stop s true) in
    fst (send s (Quota (tx_bytes (meter s)) (state (meter s)))).

(** ** The VM's threads *)

(** A thread of a public connection, by the place where it is. *)
Inductive Uplink := UHead | UMeter | URead | USend (payload : list Z) | UNote (n : Z) | UDone.
(** The session thread: between frames, before the bytes of a DATA frame are
    counted, or ended. *)
Inductive Session := SReady | SNote (n : Z) | SEnded.

(** What a read of a socket gives. *)
Inductive Read := REof | RBytes (payload : list Z) | RError.

Record Vm := MkVm {
  shared : Shared;
  session : Session;
  uplinks : list (Z * Uplink);
  hello_seen : bool;
  forwarding : bool;
  listening : bool;
}.

Definition set_shared v s := MkVm s (session v) (uplinks v) (hello_seen v) (forwarding v) (listening v).

(** The end of a connection, found by its own thread. *)
(* [edge/src/relay.rs:345-354] uplink, the end of a connection *)
Definition close_uplink (s : Shared) (id : Z) (reason : CloseReason) : Shared :=
  let '(s, first) := swap_closed s id in
  if first then fst (send (set_ids s (fst (close (ids s) id))) (Close id reason)) else s.

(** One step of a thread; the read is used where it reads. *)
(* [edge/src/relay.rs:331-384] uplink *)
Definition uplink_step (s : Shared) (id : Z) (pc : Uplink) (r : Read) : Shared * Uplink :=
  match pc with
  | UHead => (s, if stop s || bool_decide (id ∈ closed s) then UDone else UMeter)
  | UMeter => (s, if data_allowed (meter s) then URead else UDone)
  | URead =>
      match r with
      | REof => (close_uplink s id Eof, UDone)
      | RBytes payload => (s, USend payload)
      | RError => (close_uplink s id Reset, UDone)
      end
  | USend payload =>
      match send s (Data id payload) with
      | (s, Ok _) => (s, UNote (Z.of_nat (length payload)))
      | (s, Err _) => (s, UDone)
      end
  | UNote n =>
      let '(m, reached) := note_tx (meter s) n in
      let s := set_meter s m in
      if reached then (pause s, UDone) else (s, UHead)
  | UDone => (s, UDone)
  end.

(** The frame's first part: what is checked and written. *)
(* [edge/src/relay.rs:288-300] on_vm_frame, DATA up to the write *)
Definition data_begin (s : Shared) (id : Z) (payload : list Z) : Op bool :=
  if negb (data_allowed (meter s)) then (pause s, Ok false)
  else match require_open (ids s) id with
       | Err e => (s, Err (Protocol e))
       | Ok _ =>
           if decide (id ∈ writers s) then
             if decide (id ∈ dead s) then (s, Err Io)
             else (set_written s (written s ++ [(id, payload)]), Ok true)
           else (s, Err (Protocol BadConn))
       end.

(* [edge/src/relay.rs:301-303] on_vm_frame, DATA after the write *)
Definition data_end (s : Shared) (n : Z) : Shared :=
  let '(m, reached) := note_tx (meter s) n in
  let s := set_meter s m in
  if reached then pause s else s.

(** The thread of a new connection. *)
(* [edge/src/relay.rs:313-329] start_uplink *)
Definition start_uplink (v : Vm) (id : Z) : Vm :=
  let s := shared v in
  MkVm (set_writers s ({[id]} ∪ writers s)) (session v) (uplinks v ++ [(id, UHead)])
       (hello_seen v) (forwarding v) (listening v).

(** The frames other than DATA. *)
(* [edge/src/relay.rs:265-311] on_vm_frame *)
Definition on_vm_frame (v : Vm) (f : Frame) : Vm * result unit IoError :=
  let s := shared v in
  match f with
  | Hello =>
      let '(seen, r) := observe (hello_seen v) in
      (MkVm s (session v) (uplinks v) seen (forwarding v) (listening v),
       match r with Ok _ => Ok tt | Err e => Err (Protocol e) end)
  | Ping ms => let '(s, r) := send s (Pong ms) in (set_shared v s, r)
  | Pong _ => (v, Ok tt)
  | OpenOk id =>
      match require_open (ids s) id with
      | Err e => (v, Err (Protocol e))
      | Ok _ =>
          if decide (id ∈ waiting s) then
            (start_uplink (set_shared v (set_waiting s (waiting s ∖ {[id]}))) id, Ok tt)
          else (v, Err (Protocol BadConn))
      end
  | OpenFail id _ =>
      match close (ids s) id with
      | (_, Err e) => (v, Err (Protocol e))
      | (w, Ok _) => (set_shared v (set_waiting (set_ids s w) (waiting s ∖ {[id]})), Ok tt)
      end
  | Data id payload =>
      match data_begin s id payload with
      | (s, Ok true) => (set_shared v (data_end s (Z.of_nat (length payload))), Ok tt)
      | (s, Ok false) => (set_shared v s, Ok tt)
      | (s, Err e) => (set_shared v s, Err e)
      end
  | Close id _ => let '(s, r) := retire s id false in (set_shared v s, r)
  | HelloOk _ _ _ _ | Open _ _ _ _ | Quota _ _ => (v, Err (Protocol UnknownType))
  end.

(** [binds] is whether the public listener can be bound, [secs] the clock. *)
(* [edge/src/relay.rs:201-226] answer_hello *)
Definition answer_hello (v : Vm) (secs : Z) (binds : bool) : Vm * result bool IoError :=
  let s := shared v in
  let tx := tx_bytes (meter s) in
  let st := state (meter s) in
  let '(year, month) := utc_year_month secs in
  match send s (HelloOk tx st year month) with
  | (s, Err e) => (set_shared v s, Err e)
  | (s, Ok _) =>
      if negb (data_allowed (meter s)) then
        match send s (Quota tx st) with
        | (s, Err e) => (set_shared v s, Err e)
        | (s, Ok _) => (set_shared v s, Ok false)
        end
      else if binds then
        (MkVm s (session v) (uplinks v) (hello_seen v) (forwarding v) true, Ok true)
      else (set_shared v s, Err Io)
  end.

(** A frame as the session's loop takes it: the first HELLO is answered. *)
(* [edge/src/relay.rs:188-194] vm_session, a frame *)
Definition session_frame (v : Vm) (f : Frame) (secs : Z) (binds : bool) : Vm * result unit IoError :=
  match f with
  | Hello =>
      if forwarding v then on_vm_frame v f
      else
        let '(seen, r) := observe (hello_seen v) in
        let v := MkVm (shared v) (session v) (uplinks v) seen (forwarding v) (listening v) in
        match r with
        | Err e => (v, Err (Protocol e))
        | Ok _ =>
            match answer_hello v secs binds with
            | (v, Ok fwd) => (MkVm (shared v) (session v) (uplinks v) (hello_seen v) fwd (listening v), Ok tt)
            | (v, Err e) => (v, Err e)
            end
        end
  | _ => on_vm_frame v f
  end.

(** One public connection, accepted while the loop's condition holds. *)
(* [edge/src/relay.rs:228-263] accept_loop *)
Definition accept_one (v : Vm) (advertise_port src_port : Z) (addr : list Z) : Vm :=
  let s := shared v in
  let halt s := MkVm s (session v) (uplinks v) (hello_seen v) (forwarding v) false in
  if stop s || negb (data_allowed (meter s)) then halt s
  else
    match alloc (ids s) with
    | (w, Ok id) =>
        match send (set_waiting (set_ids s w) ({[id]} ∪ waiting s)) (Open id advertise_port src_port addr) with
        | (s, Ok _) => set_shared v s
        | (s, Err _) => halt s
        end
    | (w, Err Cap) => set_shared v (set_ids s w)
    | (w, Err _) => halt (set_ids s w)
    end.

(* [edge/src/relay.rs:153-177] vm_session, the start *)
Definition vm_new (tx : Z) (quota_override : bool) : Vm :=
  MkVm (MkShared ids_new ∅ ∅ ∅ (MkMeter tx quota_override) false true [] ∅ []) SReady [] false false false.

(** ** The VM's steps

    Each step is one thread between two accesses of the shared state that
    another thread can see in between.  A frame other than DATA is one step;
    [step_stop] is the end of the loop and [step_lost] a read error;
    [step_ping] and [step_silent] are the thread of [spawn_ping]; the
    environment can take down the control connection or a public socket. *)

Definition read_ok (r : Read) : Prop :=
  match r with RBytes p => (0 < length p)%nat /\ Z.of_nat (length p) <= MAX_DATA_PAYLOAD | _ => True end.

Definition end_session (v : Vm) : Vm :=
  MkVm (shared v) SEnded (uplinks v) (hello_seen v) (forwarding v) (listening v).

Definition set_session v p := MkVm (shared v) p (uplinks v) (hello_seen v) (forwarding v) (listening v).

Inductive vm_step : Vm -> Vm -> Prop :=
| step_accept v port src addr : listening v = true -> vm_step v (accept_one v port src addr)
| step_frame v f secs binds : session v = SReady -> (forall id p, f <> Data id p) ->
    vm_step v (match session_frame v f secs binds with
               | (v, Ok _) => v
               | (v, Err _) => end_session v
               end)
| step_data v id p : session v = SReady -> Z.of_nat (length p) <= MAX_DATA_PAYLOAD ->
    vm_step v (match data_begin (shared v) id p with
               | (s, Ok true) => set_session (set_shared v s) (SNote (Z.of_nat (length p)))
               | (s, Ok false) => set_shared v s
               | (s, Err _) => end_session (set_shared v s)
               end)
| step_note v n : session v = SNote n ->
    vm_step v (set_session (set_shared v (data_end (shared v) n)) SReady)
| step_uplink v l1 id pc l2 r s pc' : uplinks v = l1 ++ (id, pc) :: l2 -> read_ok r ->
    uplink_step (shared v) id pc r = (s, pc') ->
    vm_step v (MkVm s (session v) (l1 ++ (id, pc') :: l2) (hello_seen v) (forwarding v) (listening v))
| step_stop v : session v = SReady -> vm_step v (end_session (set_shared v (set_stop (shared v) true)))
| step_lost v : session v = SReady -> vm_step v (end_session v)
| step_ping v ms : vm_step v (set_shared v (fst (send (shared v) (Ping ms))))
| step_silent v : vm_step v (set_shared v (set_up (set_stop (shared v) true) false))
| step_down v : vm_step v (set_shared v (set_up (shared v) false))
| step_dead v id : vm_step v (set_shared v (set_dead (shared v) ({[id]} ∪ dead (shared v)))).

(** The states that the machine reaches, with the largest number of threads
    that ever were between their check of the meter and their count. *)
Definition counting (pc : Uplink) : Z := match pc with URead | USend _ | UNote _ => 1 | _ => 0 end.
Definition in_flight (v : Vm) : Z :=
  (match session v with SNote _ => 1 | _ => 0 end) + fold_right (fun u a => counting (snd u) + a) 0 (uplinks v).

Inductive reaches (v0 : Vm) : Vm -> Z -> Prop :=
| reaches_refl : reaches v0 v0 (in_flight v0)
| reaches_step v peak v' : reaches v0 v peak -> vm_step v v' -> reaches v0 v' (Z.max peak (in_flight v')).

(** *** What leaves the VM *)

Definition frame_bytes (f : Frame) : Z := match f with Data _ p => Z.of_nat (length p) | _ => 0 end.
Definition egress (s : Shared) : Z :=
  fold_right (fun f a => frame_bytes f + a) 0 (sent s) +
  fold_right (fun w a => Z.of_nat (length (snd w)) + a) 0 (written s).

(** The bytes that a thread has sent and not counted yet. *)
Definition uncounted (pc : Uplink) : Z := match pc with UNote n => n | _ => 0 end.
Definition pending (v : Vm) : Z :=
  (match session v with SNote n => n | _ => 0 end) + fold_right (fun u a => uncounted (snd u) + a) 0 (uplinks v).

(** *** What most operations do

    They leave the meter and the bytes written to public sockets alone, send
    neither data nor OPEN, set flags only, and send CLOSE only for the
    connections whose flag they set. *)

Definition close_ids (fs : list Frame) : list Z :=
  omap (fun f => match f with Close id _ => Some id | _ => None end) fs.
Definition open_ids (fs : list Frame) : list Z :=
  omap (fun f => match f with Open id _ _ _ => Some id | _ => None end) fs.
Definition data_free (fs : list Frame) : Prop := Forall (fun f => frame_bytes f = 0) fs.

Definition evolves (s s' : Shared) : Prop :=
  meter s' = meter s /\ written s' = written s /\ closed s ⊆ closed s' /\ next (ids s') = next (ids s) /\
  exists fs, sent s' = sent s ++ fs /\ data_free fs /\ open_ids fs = [] /\ NoDup (close_ids fs) /\
    forall id, id ∈ close_ids fs -> id ∉ closed s /\ id ∈ closed s'.

(** A change of the fields that the relation does not speak of. *)
Lemma evolves_silent s s' : meter s' = meter s -> written s' = written s -> closed s ⊆ closed s' ->
  next (ids s') = next (ids s) -> sent s' = sent s -> evolves s s'.
Proof.
  intros H1 H2 H3 H4 H5. split_and!; try done. exists []. rewrite app_nil_r. split_and!; try done.
  - apply List.Forall_nil.
  - apply NoDup_nil_2.
  - intros id H. by apply not_elem_of_nil in H.
Qed.

Lemma evolves_refl s : evolves s s.
Proof. by apply evolves_silent. Qed.

Lemma evolves_trans a b c : evolves a b -> evolves b c -> evolves a c.
Proof.
  intros (M1 & W1 & C1 & N1 & fs & S1 & D1 & O1 & U1 & K1) (M2 & W2 & C2 & N2 & gs & S2 & D2 & O2 & U2 & K2).
  split_and!; [congruence|congruence|set_solver|congruence|]. exists (fs ++ gs). split_and!.
  - by rewrite S2, S1, app_assoc.
  - by apply Forall_app_2.
  - unfold open_ids in *. by rewrite omap_app, O1, O2.
  - unfold close_ids in *. rewrite omap_app. apply list.NoDup_app. split_and!; [done| |done].
    intros id H1 H2. apply K1 in H1 as [_ H1]. by apply K2 in H2 as [H2 _].
  - unfold close_ids in *. rewrite omap_app. intros id [H|H]%elem_of_app.
    + apply K1 in H as [? ?]. set_solver.
    + apply K2 in H as [? ?]. set_solver.
Qed.

(** Frames of no connection. *)
Definition plain (f : Frame) : Prop := frame_bytes f = 0 /\ close_ids [f] = [] /\ open_ids [f] = [].

Lemma send_evolves s f : plain f -> evolves s (fst (send s f)).
Proof.
  intros (H1 & H2 & H3). unfold send. destruct (encode f); [|apply evolves_refl].
  destruct (up s); [|apply evolves_refl]. split_and!; try done. exists [f]. split_and!; try done.
  - by apply Forall_singleton.
  - rewrite H2. apply NoDup_nil_2.
  - rewrite H2. intros id H. by apply not_elem_of_nil in H.
Qed.

(** Setting a flag and sending the CLOSE that it allows. *)
Lemma close_evolves s id reason w : next w = next (ids s) -> id ∉ closed s ->
  evolves s (fst (send (set_ids (set_closed s ({[id]} ∪ closed s)) w) (Close id reason))).
Proof.
  intros Hw Hid. unfold send. destruct (encode _); [|apply evolves_silent; cbn; try done; set_solver].
  destruct (up _); cbn [fst]; [|apply evolves_silent; cbn; try done; set_solver].
  split_and!; try done; [cbn; set_solver|]. exists [Close id reason]. split_and!; try done.
  - by apply Forall_singleton.
  - apply NoDup_singleton.
  - cbn. intros i ->%list_elem_of_singleton. set_solver.
Qed.

Lemma close_next w id : next (fst (close w id)) = next w.
Proof. unfold close. by case_if. Qed.

Lemma retire_evolves s id c : evolves s (fst (retire s id c)).
Proof.
  unfold retire. pose proof (close_next (ids s) id) as Hn. destruct (close (ids s) id) as [w [[]|e]]; [|apply evolves_refl].
  cbn [fst] in Hn. set (s1 := set_ids s w). assert (evolves s s1) as H1 by (by apply evolves_silent).
  assert (forall s', evolves s s' -> evolves s (set_waiting s' (waiting s' ∖ {[id]}))) as Hw
    by (intros s' H; eapply evolves_trans; [exact H|by apply evolves_silent]).
  case_decide; [|by apply Hw]. cbn [swap_closed].
  set (s2 := set_writers s1 (writers s1 ∖ {[id]})).
  destruct (decide (id ∈ closed s2)) as [Hin|Hin].
  - rewrite (bool_decide_eq_true_2 _ Hin), andb_false_r. apply Hw, evolves_silent; try done. cbn. set_solver.
  - rewrite (bool_decide_eq_false_2 _ Hin), andb_true_r. destruct c.
    + assert (evolves s (fst (send (set_closed s2 ({[id]} ∪ closed s2)) (Close id LocalClose)))) as H2.
      { eapply evolves_trans; [exact (evolves_trans _ _ s2 H1 (evolves_silent s1 s2 eq_refl eq_refl ltac:(done) eq_refl eq_refl))|].
        by apply (close_evolves s2 id LocalClose (ids s2)). }
      destruct (send _ _) as [s3 [[]|e]]; cbn [fst] in *; [by apply Hw|done].
    + apply Hw, evolves_silent; try done. cbn. set_solver.
Qed.

Lemma pause_evolves s : evolves s (pause s).
Proof.
  unfold pause. destruct (stop s); [apply evolves_refl|].
  eapply evolves_trans; [|by apply send_evolves].
  assert (forall l s0, evolves s s0 -> evolves s (fold_left (fun s id => fst (retire s id true)) l s0)) as H.
  { induction l as [|id l IH]; intros s0 H0; [done|]. cbn [fold_left]. apply IH.
    eapply evolves_trans; [done|apply retire_evolves]. }
  apply H. by apply evolves_silent.
Qed.

Lemma close_uplink_evolves s id reason : evolves s (close_uplink s id reason).
Proof.
  unfold close_uplink. cbn [swap_closed]. destruct (decide (id ∈ closed s)) as [Hin|Hin].
  - rewrite (bool_decide_eq_true_2 _ Hin). apply evolves_silent; try done. cbn. set_solver.
  - rewrite (bool_decide_eq_false_2 _ Hin). by apply close_evolves; [apply close_next|].
Qed.

(** A frame other than DATA, as the session takes it. *)
Lemma observe_seen b : fst (observe b) = true.
Proof. by destruct b. Qed.

Definition same_threads (v v' : Vm) : Prop :=
  session v' = session v /\ (uplinks v' = uplinks v \/ exists id, uplinks v' = uplinks v ++ [(id, UHead)]).

Lemma on_vm_frame_evolves v f : (forall id p, f <> Data id p) ->
  evolves (shared v) (shared (fst (on_vm_frame v f))) /\ same_threads v (fst (on_vm_frame v f)) /\
  listening (fst (on_vm_frame v f)) = listening v.
Proof.
  intros Hf. destruct f; cbn [on_vm_frame]; try (split; [apply evolves_refl|split; [split; [done|by left]|done]]).
  - destruct (observe (hello_seen v)). cbn. split; [apply evolves_refl|split; [split; [done|by left]|done]].
  - pose proof (send_evolves (shared v) (Pong unix_ms) ltac:(done)) as H. destruct (send _ _) as [s r]. cbn in *.
    split; [done|split; [split; [done|by left]|done]].
  - destruct (require_open _ _); [|split; [apply evolves_refl|split; [split; [done|by left]|done]]].
    case_decide; cbn; [|split; [apply evolves_refl|split; [split; [done|by left]|done]]].
    split; [by apply evolves_silent|split; [split; [done|right; by eexists]|done]].
  - pose proof (close_next (ids (shared v)) conn_id) as Hn. destruct (close _ _) as [w [|]]; cbn in *.
    + split; [by apply evolves_silent|split; [split; [done|by left]|done]].
    + split; [apply evolves_refl|split; [split; [done|by left]|done]].
  - by destruct (Hf conn_id payload).
  - pose proof (retire_evolves (shared v) conn_id false) as H. destruct (retire _ _ _) as [s r]. cbn in *.
    split; [done|split; [split; [done|by left]|done]].
Qed.

Lemma answer_hello_evolves v secs binds :
  evolves (shared v) (shared (fst (answer_hello v secs binds))) /\
  session (fst (answer_hello v secs binds)) = session v /\ uplinks (fst (answer_hello v secs binds)) = uplinks v.
Proof.
  unfold answer_hello. destruct (utc_year_month secs) as [year month].
  pose proof (send_evolves (shared v) (HelloOk (tx_bytes (meter (shared v))) (EdgeSession.state (meter (shared v))) year month)
    ltac:(done)) as H1. destruct (send (shared v) _) as [s [[]|e]]; cbn [fst] in H1; [|by split_and!].
  case_if.
  - pose proof (send_evolves s (Quota (tx_bytes (meter (shared v))) (EdgeSession.state (meter (shared v))))
      ltac:(done)) as H2. destruct (send s _) as [s2 [[]|e]]; cbn [fst] in *; cbn; split_and!; try done;
      by eapply evolves_trans.
  - destruct binds; by split_and!.
Qed.

Lemma session_frame_evolves v f secs binds : (forall id p, f <> Data id p) ->
  evolves (shared v) (shared (fst (session_frame v f secs binds))) /\ same_threads v (fst (session_frame v f secs binds)) /\
  (f <> Hello -> listening (fst (session_frame v f secs binds)) = listening v).
Proof.
  intros Hf. pose proof (on_vm_frame_evolves v f Hf) as H. destruct f; try (destruct H as (? & ? & ?); by split_and!).
  cbn [session_frame]. destruct (forwarding v); [destruct H as (? & ? & ?); by split_and!|].
  destruct (observe (hello_seen v)) as [seen [[]|e]]; [|by split; [apply evolves_refl|split; [split; [|left]|]]].
  set (v1 := MkVm _ _ _ _ _ _). pose proof (answer_hello_evolves v1 secs binds) as (H1 & H2 & H3).
  destruct (answer_hello v1 secs binds) as [v2 [b|e]]; cbn [fst] in *; cbn; split; try done; (split; [split; [done|by left]|done]).
Qed.

(** What the accepting thread does: it allocates at most one id and sends
    the OPEN of exactly that one. *)
Definition opens_one (v v' : Vm) : Prop :=
  evolves (shared v) (shared v') \/
  let s := shared v in let s' := shared v' in
  meter s' = meter s /\ written s' = written s /\ closed s' = closed s /\ next (ids s') = next (ids s) + 1 /\
  next (ids s') <= u64_max /\
  ((exists p q a, sent s' = sent s ++ [Open (next (ids s)) p q a]) \/ sent s' = sent s /\ listening v' = false).

Lemma accept_one_spec v port src addr : let v' := accept_one v port src addr in
  session v' = session v /\ uplinks v' = uplinks v /\ opens_one v v'.
Proof.
  cbv zeta. unfold accept_one. case_if; [split_and!; try done; left; apply evolves_refl|].
  unfold alloc, next_id. case_if; [split_and!; try done; left; by apply evolves_silent|]. case_if.
  2: { split_and!; try done. left. by apply evolves_silent. }
  unfold send. destruct (encode _); [destruct (up _)|]; cbn; split_and!; try done; right; cbn; split_and!; try done;
    first [left; by eexists _, _, _|by right].
Qed.

(** *** The meter *)

Lemma evolves_egress s s' : evolves s s' -> egress s' = egress s /\ meter s' = meter s.
Proof.
  intros (M & W & _ & _ & fs & S & D & _). split; [|done]. unfold egress. rewrite S, W.
  enough (fold_right (fun f a => frame_bytes f + a) 0 (sent s ++ fs) =
          fold_right (fun f a => frame_bytes f + a) 0 (sent s)) by lia.
  assert (fold_right (fun f a => frame_bytes f + a) 0 fs = 0) as H0
    by (clear -D; induction D as [|f fs Hf _ IH]; cbn [fold_right]; lia).
  clear -H0. induction (sent s) as [|f l IH]; cbn [app fold_right]; lia.
Qed.

Definition pc_ok (pc : Uplink) : Prop :=
  match pc with
  | USend p => Z.of_nat (length p) <= MAX_DATA_PAYLOAD
  | UNote n => 0 <= n <= MAX_DATA_PAYLOAD
  | _ => True
  end.

Definition total (g : Uplink -> Z) (l : list (Z * Uplink)) : Z := fold_right (fun u a => g (snd u) + a) 0 l.

Lemma total_app g a b : total g (a ++ b) = total g a + total g b.
Proof. unfold total. induction a; cbn [app fold_right]; lia. Qed.
Lemma total_cons g u l : total g (u :: l) = g (snd u) + total g l.
Proof. done. Qed.

Section Meter.
Variable tx0 peak_max : Z.
Definition limit : Z := Z.max tx0 (PAUSE_AT - 1).
Hypothesis Hmax : limit + MAX_DATA_PAYLOAD * peak_max <= u64_max.

(** Every byte sent is counted or about to be, and the count and what the
    threads past their check may add are below the limit. *)
Definition metered (v : Vm) (peak : Z) : Prop :=
  override_on (meter (shared v)) = false /\
  tx_bytes (meter (shared v)) + pending v = tx0 + egress (shared v) /\
  tx_bytes (meter (shared v)) + MAX_DATA_PAYLOAD * in_flight v <= limit + MAX_DATA_PAYLOAD * peak /\
  Forall (fun u => pc_ok (snd u)) (uplinks v) /\
  (match session v with SNote n => 0 <= n <= MAX_DATA_PAYLOAD | _ => True end) /\
  in_flight v <= peak.

Lemma counting_range pc : 0 <= counting pc <= 1.
Proof. destruct pc; cbn; lia. Qed.

Lemma total_counting_nonneg l : 0 <= total counting l.
Proof. induction l as [|u l IH]; [done|]. rewrite total_cons. pose proof (counting_range (snd u)). lia. Qed.

(** Steps that do not move bytes, and do not move a thread past its check. *)
Lemma metered_quiet v v' peak : metered v peak -> evolves (shared v) (shared v') ->
  pending v' = pending v -> in_flight v' = in_flight v ->
  Forall (fun u => pc_ok (snd u)) (uplinks v') ->
  (match session v' with SNote n => 0 <= n <= MAX_DATA_PAYLOAD | _ => True end) ->
  metered v' (Z.max peak (in_flight v')).
Proof.
  intros (H1 & H2 & H3 & H4 & H5 & H6) [E1 E2]%evolves_egress P F U S. unfold metered.
  rewrite E1, E2, P, F, Z.max_l by lia. by split_and!.
Qed.

Lemma same_threads_counts v v' : same_threads v v' ->
  pending v' = pending v /\ in_flight v' = in_flight v /\
  (Forall (fun u => pc_ok (snd u)) (uplinks v) -> Forall (fun u => pc_ok (snd u)) (uplinks v')) /\
  session v' = session v.
Proof.
  intros [Hs Hu]. unfold pending, in_flight. fold (total uncounted (uplinks v)). fold (total uncounted (uplinks v')).
  fold (total counting (uplinks v)). fold (total counting (uplinks v')). rewrite Hs.
  destruct Hu as [->|[id ->]]; [done|]. rewrite !total_app. cbn. split_and!; try lia; [|done].
  intros H. apply Forall_app_2; [done|]. by apply Forall_singleton.
Qed.

Lemma note_small m n : override_on m = false -> tx_bytes m + n <= u64_max ->
  fst (note_tx m n) = MkMeter (tx_bytes m + n) false.
Proof. intros Ho Hn. unfold note_tx. cbn [fst]. by rewrite Ho, Z.min_r by lia. Qed.

Lemma send_data s id p :
  (snd (send s (Data id p)) = Ok tt /\ fst (send s (Data id p)) = set_sent s (sent s ++ [Data id p])) \/
  fst (send s (Data id p)) = s /\ exists e, snd (send s (Data id p)) = Err e.
Proof.
  unfold send. destruct (encode _); [destruct (up s)|]; cbn; [by left|right|right]; (split; [done|by eexists]).
Qed.

Lemma egress_sent s id p : egress (set_sent s (sent s ++ [Data id p])) = egress s + Z.of_nat (length p).
Proof.
  unfold egress. cbn [sent written set_sent].
  enough (fold_right (fun f a => frame_bytes f + a) 0 (sent s ++ [Data id p]) =
    fold_right (fun f a => frame_bytes f + a) 0 (sent s) + Z.of_nat (length p)) by lia.
  induction (sent s); cbn [app fold_right frame_bytes] in *; lia.
Qed.

Lemma egress_written s id p : egress (set_written s (written s ++ [(id, p)])) = egress s + Z.of_nat (length p).
Proof.
  unfold egress. cbn [sent written set_written].
  enough (fold_right (fun w a => Z.of_nat (length (snd w)) + a) 0 (written s ++ [(id, p)]) =
    fold_right (fun w a => Z.of_nat (length (snd w)) + a) 0 (written s) + Z.of_nat (length p)) by lia.
  induction (written s); cbn [app fold_right snd] in *; lia.
Qed.

(** A step of a connection's thread. *)
Lemma uplink_metered v l1 id pc l2 r s pc' peak : peak <= peak_max ->
  uplinks v = l1 ++ (id, pc) :: l2 -> read_ok r -> uplink_step (shared v) id pc r = (s, pc') -> metered v peak ->
  let v' := MkVm s (session v) (l1 ++ (id, pc') :: l2) (hello_seen v) (forwarding v) (listening v) in
  metered v' (Z.max peak (in_flight v')).
Proof.
  intros Hpk Hu Hr Hst (H1 & H2 & H3 & H4 & H5 & H6) v'.
  rewrite Hu in H4. apply Forall_app in H4 as [HA HB]. apply Forall_cons_1 in HB as [Hpc HB]. cbn [snd] in Hpc.
  assert (in_flight v' = in_flight v - counting pc + counting pc') as Hin.
  { unfold in_flight, v'. cbn [session uplinks]. rewrite Hu. fold (total counting (l1 ++ (id, pc) :: l2)).
    fold (total counting (l1 ++ (id, pc') :: l2)). rewrite !total_app, !total_cons. cbn [snd]. lia. }
  assert (pending v' = pending v - uncounted pc + uncounted pc') as Hpe.
  { unfold pending, v'. cbn [session uplinks]. rewrite Hu. fold (total uncounted (l1 ++ (id, pc) :: l2)).
    fold (total uncounted (l1 ++ (id, pc') :: l2)). rewrite !total_app, !total_cons. cbn [snd]. lia. }
  assert (forall q, pc' = q -> pc_ok q -> Forall (fun u => pc_ok (snd u)) (uplinks v')) as HF.
  { intros q -> Hq. unfold v'. cbn [uplinks]. apply Forall_app_2; [done|]. by apply List.Forall_cons. }
  unfold metered. rewrite Hin, Hpe. unfold v' in *. cbn [shared session uplinks] in *. clear v' Hin Hpe.
  unfold MAX_DATA_PAYLOAD in *.
  destruct pc; cbn [uplink_step] in Hst.
  - injection Hst as <- <-. destruct (_ || _); cbn [counting uncounted] in *; split_and!; try done; try lia; by eapply HF.
  - injection Hst as <- <-. destruct (data_allowed (meter (shared v))) eqn:Ed; cbn [counting uncounted];
      split_and!; try done; try lia; try by eapply HF.
    unfold data_allowed in Ed. rewrite H1 in Ed. cbn [orb] in Ed. apply Z.ltb_lt in Ed. unfold limit in *. lia.
  - destruct r; cbn [read_ok] in Hr; injection Hst as <- <-; cbn [counting uncounted] in *.
    + pose proof (evolves_egress _ _ (close_uplink_evolves (shared v) id Eof)) as [E1 E2]. rewrite E1, E2.
      split_and!; try done; try lia; by eapply HF.
    + split_and!; try done; try lia. eapply HF; [done|]. cbn. unfold MAX_DATA_PAYLOAD in *. lia.
    + pose proof (evolves_egress _ _ (close_uplink_evolves (shared v) id Reset)) as [E1 E2]. rewrite E1, E2.
      split_and!; try done; try lia; by eapply HF.
  - cbn [pc_ok] in Hpc. destruct (send_data (shared v) id payload) as [[E1 E2]|(E1 & e & E2)];
      destruct (send _ _) as [s1 r1]; cbn [fst snd] in *; subst; injection Hst as <- <-; cbn [counting uncounted] in *.
    + rewrite egress_sent. cbn [meter set_sent]. split_and!; try done; try lia. eapply HF; [done|].
      cbn. unfold MAX_DATA_PAYLOAD in *. lia.
    + split_and!; try done; try lia; by eapply HF.
  - cbn [pc_ok] in Hpc. unfold MAX_DATA_PAYLOAD in Hpc.
    assert (1 <= in_flight v) as Hone.
    { unfold in_flight. rewrite Hu. fold (total counting (l1 ++ (id, UNote n) :: l2)).
      rewrite total_app, total_cons. cbn [snd counting]. pose proof (total_counting_nonneg l1).
      pose proof (total_counting_nonneg l2). destruct (session v); lia. }
    pose proof (note_small (meter (shared v)) n H1) as Hn. destruct (note_tx _ n) as [m reached] eqn:En. cbn [fst] in Hn.
    rewrite Hn in Hst by lia. clear Hn En.
    assert (egress (set_meter (shared v) (MkMeter (tx_bytes (meter (shared v)) + n) false)) = egress (shared v)) as Eg by done.
    destruct reached; injection Hst as <- <-; cbn [counting uncounted] in *.
    + pose proof (evolves_egress _ _ (pause_evolves (set_meter (shared v) (MkMeter (tx_bytes (meter (shared v)) + n) false)))) as [E1 E2].
      rewrite E1, E2, Eg. cbn [meter set_meter override_on tx_bytes]. split_and!; try done; try lia; by eapply HF.
    + rewrite Eg. cbn [meter set_meter override_on tx_bytes]. split_and!; try done; try lia; by eapply HF.
  - injection Hst as <- <-. cbn [counting uncounted] in *. split_and!; try done; try lia; by eapply HF.
Qed.

Lemma same_data v v' : session v' = session v -> uplinks v' = uplinks v ->
  pending v' = pending v /\ in_flight v' = in_flight v.
Proof. unfold pending, in_flight. by intros -> ->. Qed.

(** Ending the session between two frames. *)
Lemma ended_counts v : session v = SReady -> pending (end_session v) = pending v /\ in_flight (end_session v) = in_flight v.
Proof. unfold pending, in_flight. cbn. by intros ->. Qed.

Lemma step_metered v v' peak : peak <= peak_max -> metered v peak -> vm_step v v' ->
  metered v' (Z.max peak (in_flight v')).
Proof.
  intros Hpk Hm Hst. pose proof Hm as (H1 & H2 & H3 & H4 & H5 & H6).
  destruct Hst as [v port src addr Hl|v f secs binds Hs Hf|v id p Hs Hp|v n Hs|v l1 id pc l2 r s pc' Hu Hr He
    |v|v|v ms|v|v|v id].
  - destruct (accept_one_spec v port src addr) as (E1 & E2 & E3). destruct (same_data _ _ E1 E2) as [P F].
    destruct E3 as [E3|(M & W & _ & _ & _ & E3)].
    + apply (metered_quiet v); try done; [by rewrite E2|by rewrite E1].
    + assert (egress (shared (accept_one v port src addr)) = egress (shared v)) as Eg.
      { unfold egress. rewrite W. destruct E3 as [(a & b & c & ->)|[-> _]]; [|done].
        rewrite fold_right_app. cbn [fold_right frame_bytes]. done. }
      unfold metered. rewrite P, F, M, Eg, E1, E2, Z.max_l by lia. by split_and!.
  - destruct (session_frame_evolves v f secs binds Hf) as (E1 & E2 & _).
    destruct (session_frame v f secs binds) as [v1 r]. cbn [fst] in *.
    destruct (same_threads_counts _ _ E2) as (P & F & U & S). specialize (U H4).
    destruct r as [[]|e]; [by apply (metered_quiet v); try done; rewrite S|].
    destruct (ended_counts v1) as [P' F']; [congruence|].
    apply (metered_quiet v); try done; by rewrite ?P', ?F'.
  - unfold data_begin. destruct (data_allowed (meter (shared v))) eqn:Ed; cbn [negb].
    + destruct (ended_counts v Hs) as [P F].
      assert (metered (end_session v) (Z.max peak (in_flight (end_session v)))) as He
        by (apply (metered_quiet v); try done; apply evolves_refl).
      destruct (require_open _ _); [|done]. case_decide; [|done]. case_decide; [done|]. cbn [fst].
      set (v1 := set_session _ _).
      assert (in_flight v1 = in_flight v + 1) as Hin by (unfold in_flight, v1; cbn; rewrite Hs; lia).
      assert (pending v1 = pending v + Z.of_nat (length p)) as Hpe by (unfold pending, v1; cbn; rewrite Hs; lia).
      unfold metered. rewrite Hin, Hpe. unfold v1. cbn [shared set_session set_shared session uplinks].
      rewrite egress_written. cbn [meter set_written].
      unfold data_allowed in Ed. rewrite H1 in Ed. cbn [orb] in Ed. apply Z.ltb_lt in Ed.
      split_and!; try done; try lia. unfold limit, MAX_DATA_PAYLOAD in *. lia.
    + apply (metered_quiet v); try done. cbn. apply pause_evolves.
  - unfold data_end. assert (1 <= in_flight v) as Hone.
    { unfold in_flight. rewrite Hs. pose proof (total_counting_nonneg (uplinks v)). unfold total in *. lia. }
    rewrite Hs in H5. pose proof (note_small (meter (shared v)) n H1) as Hn.
    destruct (note_tx _ n) as [m reached] eqn:En. cbn [fst] in Hn.
    rewrite Hn by (unfold MAX_DATA_PAYLOAD in *; lia). clear Hn En. set (s1 := set_meter _ _).
    assert (meter (if reached then pause s1 else s1) = meter s1 /\
            egress (if reached then pause s1 else s1) = egress (shared v)) as [E1 E2].
    { destruct reached; [|done]. by destruct (evolves_egress _ _ (pause_evolves s1)). }
    set (v1 := set_session _ _).
    assert (in_flight v1 = in_flight v - 1) as Hin by (unfold in_flight, v1; cbn; rewrite Hs; lia).
    assert (pending v1 = pending v - n) as Hpe by (unfold pending, v1; cbn; rewrite Hs; lia).
    unfold metered. rewrite Hin, Hpe. unfold v1. cbn [shared set_session set_shared session uplinks].
    rewrite E1, E2. unfold s1. cbn [meter set_meter override_on tx_bytes]. unfold MAX_DATA_PAYLOAD in *.
    split_and!; try done; lia.
  - by eapply uplink_metered.
  - destruct (ended_counts v) as [P F]; [done|].
    by apply (metered_quiet v); try done; apply evolves_silent.
  - destruct (ended_counts v) as [P F]; [done|].
    by apply (metered_quiet v); try done; apply evolves_refl.
  - apply (metered_quiet v); try done. by apply send_evolves.
  - by apply (metered_quiet v); try done; apply evolves_silent.
  - by apply (metered_quiet v); try done; apply evolves_silent.
  - by apply (metered_quiet v); try done; apply evolves_silent.
Qed.

Lemma reaches_metered v peak : reaches (vm_new tx0 false) v peak -> peak <= peak_max -> metered v peak.
Proof.
  intros H. induction H as [|v peak v' _ IH Hst]; intros Hpk.
  - unfold metered, pending, in_flight, egress, limit, MAX_DATA_PAYLOAD. cbn. split_and!; try done; lia.
  - apply (step_metered v); [lia|apply IH; lia|done].
Qed.
End Meter.


(** *** OPEN and CLOSE frames *)

(** The OPEN frames carry the ids 1, 2, ...; every id allocated so far has
    been announced unless an OPEN could not be sent, after which the accepting
    thread has ended for good. *)
Definition frames_ok (v : Vm) : Prop :=
  let s := shared v in
  NoDup (close_ids (sent s)) /\ (forall id, id ∈ close_ids (sent s) -> id ∈ closed s) /\
  exists k, open_ids (sent s) = seqZ 1 k /\ 0 <= k <= next (ids s) - 1 /\
    (k = next (ids s) - 1 \/ listening v = false /\ hello_seen v = true) /\
    (listening v = true -> hello_seen v = true) /\ next (ids s) <= u64_max.

Lemma frames_evolve v v' : frames_ok v -> evolves (shared v) (shared v') ->
  (listening v = false /\ hello_seen v = true -> listening v' = false /\ hello_seen v' = true) ->
  ((listening v = true -> hello_seen v = true) -> listening v' = true -> hello_seen v' = true) -> frames_ok v'.
Proof.
  intros (H1 & H2 & k & H3 & H4 & H5 & H6 & H7) (_ & _ & C & N & fs & S & _ & O & U & K) L Q. unfold frames_ok. rewrite S, N.
  unfold close_ids, open_ids in *. rewrite !omap_app, O, app_nil_r. split_and!.
  - apply list.NoDup_app. split_and!; [done| |done]. intros id Ha Hb. apply H2 in Ha. by apply K in Hb as [? _].
  - intros id [Ha|Hb]%elem_of_app; [by apply C, H2|by apply K].
  - exists k. split_and!; [done|lia|lia| |by apply Q|lia]. destruct H5; [by left|right; by apply L].
Qed.

Lemma open_ids_app a b : open_ids (a ++ b) = open_ids a ++ open_ids b.
Proof. apply omap_app. Qed.
Lemma close_ids_app a b : close_ids (a ++ b) = close_ids a ++ close_ids b.
Proof. apply omap_app. Qed.


Lemma hello_frame v secs binds : let v' := fst (session_frame v Hello secs binds) in
  listening v = false /\ hello_seen v = true -> listening v' = false /\ hello_seen v' = true.
Proof.
  cbv zeta. intros [Hl Hs]. cbn [session_frame on_vm_frame]. rewrite Hs. cbn [observe].
  by destruct (forwarding v).
Qed.

Lemma accept_seen v port src addr : hello_seen (accept_one v port src addr) = hello_seen v.
Proof.
  unfold accept_one. case_if; [done|]. destruct (alloc _) as [w [id|e]]; [by destruct (send _ _) as [? []]|by destruct e].
Qed.

Lemma on_vm_frame_seen v f : f <> Hello -> hello_seen (fst (on_vm_frame v f)) = hello_seen v.
Proof.
  intros Hf. destruct f; cbn [on_vm_frame]; try done.
  - by destruct (send _ _).
  - destruct (require_open _ _); [|done]. by case_decide.
  - by destruct (close _ _) as [? []].
  - destruct (data_begin _ _ _) as [? [[]|]]; done.
  - by destruct (retire _ _ _).
Qed.

Lemma session_frame_seen v f secs binds : f <> Hello ->
  hello_seen (fst (session_frame v f secs binds)) = hello_seen v.
Proof. intros Hf. rewrite <- (on_vm_frame_seen v f Hf). by destruct f. Qed.

(** After a HELLO was handled, one was seen. *)
Lemma hello_sets v secs binds : hello_seen (fst (session_frame v Hello secs binds)) = true.
Proof.
  cbn [session_frame on_vm_frame]. destruct (forwarding v), (hello_seen v); cbn [observe fst]; try done.
  set (v1 := MkVm _ _ _ _ _ _). unfold answer_hello. destruct (utc_year_month _).
  destruct (send _ _) as [? []]; [|done]. case_if; [by destruct (send _ _) as [? []]|by destruct binds].
Qed.

(** A change that leaves the frames, the flags and the ids alone. *)
Lemma frames_same v v' : frames_ok v -> close_ids (sent (shared v')) = close_ids (sent (shared v)) ->
  open_ids (sent (shared v')) = open_ids (sent (shared v)) -> closed (shared v') = closed (shared v) ->
  ids (shared v') = ids (shared v) -> listening v' = listening v -> hello_seen v' = hello_seen v -> frames_ok v'.
Proof. unfold frames_ok. intros H E1 E2 E3 E4 E5 E6. by rewrite E1, E2, E3, E4, E5, E6. Qed.

Lemma frames_uplink v id pc r s pc' l : frames_ok v -> uplink_step (shared v) id pc r = (s, pc') ->
  frames_ok (MkVm s (session v) l (hello_seen v) (forwarding v) (listening v)).
Proof.
  intros Hok He.
  assert (forall s, evolves (shared v) s ->
    frames_ok (MkVm s (session v) l (hello_seen v) (forwarding v) (listening v))) as H.
  { intros s' E. by apply (frames_evolve v). }
  destruct pc; cbn [uplink_step] in He.
  - injection He as <- _. apply H, evolves_refl.
  - injection He as <- _. apply H, evolves_refl.
  - destruct r; injection He as <- _; apply H; [apply close_uplink_evolves|apply evolves_refl|apply close_uplink_evolves].
  - destruct (send_data (shared v) id payload) as [[E1 E2]|(E1 & e & E2)];
      destruct (send _ _) as [s1 r1]; cbn [fst snd] in *; subst; injection He as <- _; [|apply H, evolves_refl].
    apply (frames_same v); try done; cbn [shared sent set_sent]; rewrite ?close_ids_app, ?open_ids_app; by rewrite app_nil_r.
  - destruct (note_tx _ n) as [m [|]]; injection He as <- _.
    + set (s1 := set_meter (shared v) m).
      apply (frames_evolve (MkVm s1 (session v) l (hello_seen v) (forwarding v) (listening v)));
        [by apply (frames_same v)|apply pause_evolves|done|done].
    + by apply (frames_same v).
  - injection He as <- _. apply H, evolves_refl.
Qed.

Lemma step_frames v v' : frames_ok v -> vm_step v v' -> frames_ok v'.
Proof.
  intros Hok Hst.
  destruct Hst as [v port src addr Hl|v f secs binds Hs Hf|v id p Hs Hp|v n Hs|v l1 id pc l2 r s pc' Hu Hr He
    |v Hs|v Hs|v ms|v|v|v id]; try (by apply (frames_same v)).
  - destruct (accept_one_spec v port src addr) as (_ & _ & [E|E]).
    { apply (frames_evolve v); [done|done|intros [? _]; congruence|rewrite accept_seen; auto]. }
    destruct Hok as (H1 & H2 & k & H3 & H4 & H5 & H6 & _). destruct E as (_ & _ & C & N & Nx & E).
    destruct H5 as [H5|[? _]]; [|congruence]. unfold frames_ok. cbv zeta in *. rewrite C, N, accept_seen, (H6 Hl). rewrite N in Nx.
    destruct E as [(a & b & c & ->)|[-> L]].
    + rewrite close_ids_app, open_ids_app. cbn [close_ids open_ids omap list_omap]. rewrite app_nil_r, H3.
      split_and!; [done|done|]. exists (k + 1). split_and!; [|lia|lia|left; lia|done|done].
      rewrite seqZ_app by lia. f_equal. rewrite seqZ_cons by lia. replace (next (ids (shared v))) with (1 + k) by lia. done.
    + split_and!; [done|done|]. exists k. split_and!; [done|lia|lia|by right|done|done].
  - destruct (session_frame_evolves v f secs binds Hf) as (E1 & _ & E3).
    assert (frames_ok (fst (session_frame v f secs binds))) as H.
    { apply (frames_evolve v); [done|done| |].
      - intros Hls. destruct f; try (by rewrite E3, session_frame_seen by done). by apply hello_frame.
      - intros Hls. destruct f; try (by rewrite E3, session_frame_seen by done).
        intros _. by apply hello_sets. }
    destruct (session_frame v f secs binds) as [v1 [[]|e]]; cbn [fst] in H; [done|by apply (frames_same v1)].
  - destruct (data_begin (shared v) id p) as [s [[]|e]] eqn:E; unfold data_begin in E;
      (case_if_in E; [|destruct (require_open _ _); [|]; repeat case_decide]); simplify_eq; try (by apply (frames_same v)).
    apply (frames_evolve v); [done|apply pause_evolves|done|done].
  - unfold data_end. destruct (note_tx _ n) as [m [|]]; [|by apply (frames_same v)].
    apply (frames_evolve (set_shared v (set_meter (shared v) m))); [by apply (frames_same v)|apply pause_evolves|done|done].
  - apply (frames_uplink v id pc r s pc'); done.
  - apply (frames_evolve v); [done|by apply send_evolves|done|done].
Qed.

Lemma reaches_frames tx ov v peak : reaches (vm_new tx ov) v peak -> frames_ok v.
Proof.
  induction 1 as [|v peak v' _ IH Hst]; [|by eapply step_frames].
  unfold frames_ok. cbn. split; [apply NoDup_nil_2|split; [by intros id H%not_elem_of_nil|]].
  exists 0. split_and!; try done. by left.
Qed.

(** Whatever the Mac and the public clients do and however the threads
    interleave, the VM announces the connections 1, 2, 3, ... in order and
    without a gap, and sends at most one CLOSE for each. *)
Theorem vm_frames (tx0 : Z) (quota_override : bool) (v : Vm) (peak : Z) :
  reaches (vm_new tx0 quota_override) v peak ->
  open_ids (sent (shared v)) = seqZ 1 (Z.of_nat (length (open_ids (sent (shared v))))) /\
  NoDup (close_ids (sent (shared v))).
Proof.
  intros H. apply reaches_frames in H as (H1 & _ & k & H2 & H3 & _). split; [|done].
  rewrite H2, length_seqZ, Z2Nat.id by lia. done.
Qed.
(** *** Executable runs *)

Inductive VmEvent :=
| EAccept (port src : Z) (addr : list Z)
| EFrame (f : Frame)
| ENote
| EUplink (n : nat) (r : Read)
| EDead (id : Z).

Definition read_okb (r : Read) : bool :=
  match r with RBytes p => (0 <? length p)%nat && (Z.of_nat (length p) <=? MAX_DATA_PAYLOAD) | _ => true end.

(** The thread number [n], and the list around it. *)
Fixpoint pick (n : nat) (l : list (Z * Uplink)) : option (list (Z * Uplink) * (Z * Uplink) * list (Z * Uplink)) :=
  match l with
  | [] => None
  | u :: l =>
      match n with
      | O => Some ([], u, l)
      | S n => match pick n l with Some (a, x, b) => Some (u :: a, x, b) | None => None end
      end
  end.

Definition vm_do (v : Vm) (e : VmEvent) : option Vm :=
  match e with
  | EAccept port src addr => if listening v then Some (accept_one v port src addr) else None
  | EFrame (Data id p) =>
      match session v with
      | SReady =>
          if Z.of_nat (length p) <=? MAX_DATA_PAYLOAD then
            Some (match data_begin (shared v) id p with
                  | (s, Ok true) => set_session (set_shared v s) (SNote (Z.of_nat (length p)))
                  | (s, Ok false) => set_shared v s
                  | (s, Err _) => end_session (set_shared v s)
                  end)
          else None
      | _ => None
      end
  | EFrame f =>
      match session v with
      | SReady => Some (match session_frame v f 0 true with (v, Ok _) => v | (v, Err _) => end_session v end)
      | _ => None
      end
  | ENote =>
      match session v with
      | SNote n => Some (set_session (set_shared v (data_end (shared v) n)) SReady)
      | _ => None
      end
  | EUplink n r =>
      match pick n (uplinks v) with
      | Some (l1, (id, pc), l2) =>
          if read_okb r then
            let '(s, pc') := uplink_step (shared v) id pc r in
            Some (MkVm s (session v) (l1 ++ (id, pc') :: l2) (hello_seen v) (forwarding v) (listening v))
          else None
      | None => None
      end
  | EDead id => Some (set_shared v (set_dead (shared v) ({[id]} ∪ dead (shared v))))
  end.

Lemma pick_spec n l a u b : pick n l = Some (a, u, b) -> l = a ++ u :: b.
Proof.
  revert n a. induction l as [|x l IH]; intros [|n] a; cbn [pick]; try done; [by intros [= <- <- <-]|].
  destruct (pick n l) as [[[a' x'] b']|] eqn:E; [|done]. intros [= <- <- <-]. by rewrite (IH _ _ E).
Qed.

Lemma vm_do_step v e v' : vm_do v e = Some v' -> vm_step v v'.
Proof.
  destruct e as [port src addr|f| |n r|id]; cbn [vm_do].
  - destruct (listening v) eqn:E; [|done]. intros [= <-]. by apply step_accept.
  - destruct f; cbv iota; destruct (session v) eqn:E; cbv iota; try done; 
      try (intros <-%(inj Some); match goal with |- context [session_frame v ?f 0 true] =>
             refine (step_frame v f 0 true E _); intros ? ?; discriminate end).
    destruct (_ <=? MAX_DATA_PAYLOAD) eqn:E2; [|done]. intros [= <-]. apply step_data; [done|by apply Z.leb_le].
  - destruct (session v) as [|n|] eqn:E; try done. intros [= <-]. by apply step_note.
  - destruct (pick n (uplinks v)) as [[[l1 [id pc]] l2]|] eqn:E; [|done]. destruct (read_okb r) eqn:Er; [|done].
    destruct (uplink_step _ _ _ _) as [s pc'] eqn:Es. intros [= <-].
    eapply step_uplink; [by eapply pick_spec| |done]. destruct r; try done. cbn [read_okb] in Er.
    apply andb_true_iff in Er as [E1%Nat.ltb_lt E2%Z.leb_le]. by split.
  - intros [= <-]. apply step_dead.
Qed.

Fixpoint vm_run (v : Vm) (peak : Z) (es : list VmEvent) : option (Vm * Z) :=
  match es with
  | [] => Some (v, peak)
  | e :: es => match vm_do v e with Some v => vm_run v (Z.max peak (in_flight v)) es | None => None end
  end.

Lemma vm_run_reaches v0 es : forall v peak v' peak', reaches v0 v peak ->
  vm_run v peak es = Some (v', peak') -> reaches v0 v' peak'.
Proof.
  induction es as [|e es IH]; cbn [vm_run]; intros v peak v' peak' Hv H; [by simplify_eq|].
  destruct (vm_do v e) as [v1|] eqn:E; [|done]. eapply IH; [|done].
  eapply reaches_step; [done|by eapply vm_do_step].
Qed.
End Relay.

Definition run_from (tx0 : Z) (es : list VmEvent) : Vm * Z :=
  default (vm_new tx0 false, 0) (vm_run elements (vm_new tx0 false) 0 es).

Lemma run_from_reaches tx0 es : is_Some (vm_run elements (vm_new tx0 false) 0 es) ->
  reaches elements (vm_new tx0 false) (fst (run_from tx0 es)) (snd (run_from tx0 es)).
Proof.
  unfold run_from. intros [[v p] E]. rewrite E. cbn. eapply vm_run_reaches; [|done].
  apply reaches_refl.
Qed.

(** A connection that is opened and has read three bytes. *)
Definition demo : list VmEvent :=
  [EFrame Hello; EAccept 25 40000 [203; 0; 113; 9]; EFrame (OpenOk 1);
   EUplink 0 REof; EUplink 0 REof; EUplink 0 (RBytes [1; 2; 3]); EUplink 0 REof].


Example vm_frames_witness :
  open_ids (sent (shared (fst (run_from 0 demo)))) =
    seqZ 1 (Z.of_nat (length (open_ids (sent (shared (fst (run_from 0 demo))))))) /\
  NoDup (close_ids (sent (shared (fst (run_from 0 demo))))).
Proof.
  apply (vm_frames elements 0 false (fst (run_from 0 demo)) (snd (run_from 0 demo))), run_from_reaches.
  vm_compute. by eexists.
Defined.

(** ** Runs that show limits of the design *)

Definition accept_and_check (id : Z) (n : nat) : list VmEvent :=
  [EAccept 25 40000 [203; 0; 113; 9]; EFrame (OpenOk id); EUplink n REof; EUplink n REof].
Definition full : Read := RBytes (repeat 0 16384).

(** Two connections that both pass the check below the line send a frame
    each: the line is crossed by two frames. *)
Lemma two_frames_cross :
  let '(v, peak) := run_from (PAUSE_AT - 1) (EFrame Hello :: accept_and_check 1 0 ++ accept_and_check 2 1 ++
    [EUplink 0 full; EUplink 1 full; EUplink 0 full; EUplink 1 full; EUplink 0 full; EUplink 1 full]) in
  tx_bytes (meter (shared v)) = PAUSE_AT - 1 + 2 * MAX_DATA_PAYLOAD /\ peak = 2.
Proof. vm_compute. by split. Qed.

(** A client that half-closes ends everybody's session: its id is closed at
    once, and the answer that the Mac is sending names a closed id.  The
    session thread ends without setting [stop], and the accepting thread goes
    on. *)
Lemma half_close_ends_session :
  let v := fst (run_from 0 (EFrame Hello :: accept_and_check 1 0 ++ [EUplink 0 REof; EFrame (Data 1 [1])])) in
  session v = SEnded /\ stop (shared v) = false /\ up (shared v) = true /\ listening v = true.
Proof. vm_compute. by split_and!. Qed.

(** So does a client whose socket refuses a write. *)
Lemma reset_client_ends_session :
  let v := fst (run_from 0 (EFrame Hello :: accept_and_check 1 0 ++ [EDead 1; EFrame (Data 1 [1])])) in
  session v = SEnded /\ stop (shared v) = false /\ listening v = true.
Proof. vm_compute. by split_and!. Qed.

(** The sockets of connections that the client closed stay in [writers]: no
    id is open and more sockets are held than connections are allowed. *)
Lemma closed_sockets_kept :
  let v := fst (run_from 0 (EFrame Hello ::
    concat (map (fun n => accept_and_check (Z.of_nat n + 1) n ++ [EUplink n REof]) (seq 0 65)))) in
  open_count (ids (shared v)) = 0 /\ size (writers (shared v)) = 65%nat.
Proof. vm_compute. by split. Qed.
