(* ===== verification/EdgeMac.v ===== *)
(** * The Mac's end of the tunnel ([edge/src/relay.rs]), and the two ends together

    The Mac's session thread keeps the window of ids to itself; a thread for
    each dialled socket copies what it reads to the control connection.  A
    dial's outcome and what the reads give are inputs. *)

From stdpp Require Import gmap.
From S2P Require Import Prelude EdgeFrame EdgeSession EdgeRelay.

Record Mac := MkMac {
  m_ids : IdWindow;
  m_writers : gset Z;
  m_closed : gset Z;
  m_threads : list Z;
  m_up : bool;
  m_sent : list Frame;
  m_dead : gset Z;
  m_written : list (Z * list Z);
}.

Definition with_ids m w := MkMac w (m_writers m) (m_closed m) (m_threads m) (m_up m) (m_sent m) (m_dead m) (m_written m).
Definition with_closed m c := MkMac (m_ids m) (m_writers m) c (m_threads m) (m_up m) (m_sent m) (m_dead m) (m_written m).

Definition MacOp : Type := Mac * result unit IoError.

(* [edge/src/relay.rs:51-56] Ctrl::send, on the Mac *)
Definition mac_send (m : Mac) (f : Frame) : MacOp :=
  match encode f with
  | Err e => (m, Err (Protocol e))
  | Ok _ =>
      if m_up m then
        (MkMac (m_ids m) (m_writers m) (m_closed m) (m_threads m) (m_up m) (m_sent m ++ [f]) (m_dead m) (m_written m), Ok tt)
      else (m, Err Io)
  end.

(** [write_all] on a dialled socket. *)
Definition mac_write (m : Mac) (id : Z) (p : list Z) : MacOp :=
  if decide (id ∈ m_dead m) then (m, Err Io)
  else (MkMac (m_ids m) (m_writers m) (m_closed m) (m_threads m) (m_up m) (m_sent m) (m_dead m) (m_written m ++ [(id, p)]), Ok tt).

(** A dial is refused, or gives a socket. *)
Inductive Dial := Refused | Dialled.

Definition mac_then (r : MacOp) (k : Mac -> MacOp) : MacOp :=
  match r with (m, Ok _) => k m | (m, Err e) => (m, Err e) end.

Section Mac.
(** [encode_proxy_v2], by the proxy-header crate: the header for a source
    address and port and the public port. *)
Variable proxy_header : list Z -> Z -> Z -> list Z.

(* [edge/src/relay.rs:487-544] open_on_mac *)
Definition open_on_mac (m : Mac) (conn_id public_port src_port : Z) (addr : list Z) (dial : Dial) : MacOp :=
  match admit_id (m_ids m) conn_id with
  | (_, Err e) => (m, Err (Protocol e))
  | (w, Ok AdmitCap) => mac_send (with_ids m w) (OpenFail conn_id FailCap)
  | (w, Ok Opened) =>
      let m := with_ids m w in
      let fail reason :=
        match close (m_ids m) conn_id with
        | (_, Err e) => (m, Err (Protocol e))
        | (w, Ok _) => mac_send (with_ids m w) (OpenFail conn_id reason)
        end in
      match loopback_for public_port with
      | None => fail BadPort
      | Some loopback =>
          match dial with
          | Refused => fail DialRefused
          | Dialled =>
              mac_then
                (if wants_proxy public_port then mac_write m conn_id (proxy_header addr src_port public_port)
                 else (m, Ok tt))
                (fun m => mac_then (mac_send m (OpenOk conn_id)) (fun m =>
                   (MkMac (m_ids m) ({[conn_id]} ∪ m_writers m) (m_closed m) (m_threads m ++ [conn_id]) (m_up m)
                      (m_sent m) (m_dead m) (m_written m), Ok tt)))
          end
      end
  end.

(* [edge/src/relay.rs:441-482] serve_mac, a frame *)
Definition mac_frame (m : Mac) (f : Frame) (dial : Dial) : MacOp :=
  match f with
  | HelloOk _ _ _ _ | Pong _ | Quota _ _ => (m, Ok tt)
  | Ping ms => mac_send m (Pong ms)
  | Open id port src addr => open_on_mac m id port src addr dial
  | Data id payload =>
      match require_open (m_ids m) id with
      | Err e => (m, Err (Protocol e))
      | Ok _ => if decide (id ∈ m_writers m) then mac_write m id payload else (m, Err (Protocol BadConn))
      end
  | Close id _ =>
      match close (m_ids m) id with
      | (_, Err e) => (m, Err (Protocol e))
      | (w, Ok _) =>
          let m := with_ids m w in
          (if decide (id ∈ m_writers m) then
             MkMac (m_ids m) (m_writers m ∖ {[id]}) ({[id]} ∪ m_closed m) (m_threads m) (m_up m) (m_sent m) (m_dead m) (m_written m)
           else m, Ok tt)
      end
  | Hello | OpenOk _ | OpenFail _ _ => (m, Err (Protocol UnknownType))
  end.

(** One round of a socket's thread: [None] when it ends. *)
(* [edge/src/relay.rs:546-584] mac_uplink *)
Definition mac_uplink (m : Mac) (id : Z) (r : Read) : Mac * bool :=
  let finish reason :=
    if decide (id ∈ m_closed m) then (m, false)
    else (fst (mac_send (with_closed m ({[id]} ∪ m_closed m)) (Close id reason)), false) in
  if decide (id ∈ m_closed m) then (m, false)
  else match r with
       | REof => finish Eof
       | RError => finish Reset
       | RBytes payload => match mac_send m (Data id payload) with (m, Ok _) => (m, true) | (m, Err _) => (m, false) end
       end.

(* [edge/src/relay.rs:418-427] serve_mac, the start *)
Definition mac_new : Mac :=
  fst (mac_send (MkMac ids_new ∅ ∅ [] true [] ∅ []) Hello).

(** What happens at the Mac: a frame arrives, a thread has read its socket,
    the control connection or a socket stops taking bytes. *)
Inductive MacEvent :=
| MFrame (f : Frame) (dial : Dial)
| MRead (id : Z) (r : Read)
| MDown
| MDead (id : Z).

Definition mac_event (m : Mac) (e : MacEvent) : MacOp :=
  match e with
  | MFrame f dial => mac_frame m f dial
  | MRead id r => (if decide (id ∈ m_threads m) then fst (mac_uplink m id r) else m, Ok tt)
  | MDown => (MkMac (m_ids m) (m_writers m) (m_closed m) (m_threads m) false (m_sent m) (m_dead m) (m_written m), Ok tt)
  | MDead id => (MkMac (m_ids m) (m_writers m) (m_closed m) (m_threads m) (m_up m) (m_sent m) ({[id]} ∪ m_dead m) (m_written m), Ok tt)
  end.

(** The session ends at its first error. *)
Fixpoint mac_run (m : Mac) (es : list MacEvent) : MacOp :=
  match es with
  | [] => (m, Ok tt)
  | e :: es => mac_then (mac_event m e) (fun m => mac_run m es)
  end.

Definition frames_of (es : list MacEvent) : list Frame :=
  omap (fun e => match e with MFrame f _ => Some f | _ => None end) es.

(** ** The ids of the two ends agree *)

Lemma mac_send_ids m f : m_ids (fst (mac_send m f)) = m_ids m.
Proof. unfold mac_send. destruct (encode f); [|done]. by destruct (m_up m). Qed.

Lemma mac_write_ids m id p : m_ids (fst (mac_write m id p)) = m_ids m.
Proof. unfold mac_write. by case_decide. Qed.

Lemma close_ids_ok w id w' r : ids_ok w -> close w id = (w', r) -> ids_ok w' /\ next w' = next w.
Proof. intros Hw E. pose proof (close_ok w id Hw). by rewrite E in H. Qed.

(** An OPEN with the next id is admitted and moves [next]. *)
Lemma admit_next w id : ids_ok w -> id = next w -> id + 1 <= u64_max ->
  exists w' a, admit_id w id = (w', Ok a) /\ ids_ok w' /\ next w' = id + 1.
Proof.
  intros Hw -> Hn. pose proof (admit_ok w (next w) Hw) as [H1 H2].
  unfold admit_id, next_id in *. rewrite Z.eqb_refl in *. cbn [negb] in *.
  rewrite (proj2 (Z.leb_le (next w + 1) u64_max)) in * by done. case_if; eexists _, _; split_and!; done.
Qed.

Lemma open_on_mac_ids m id port src addr dial : ids_ok (m_ids m) -> id = next (m_ids m) -> id + 1 <= u64_max ->
  let m' := fst (open_on_mac m id port src addr dial) in ids_ok (m_ids m') /\ next (m_ids m') = id + 1.
Proof.
  intros Hm Hid Hn. cbv zeta. unfold open_on_mac. destruct (admit_next _ _ Hm Hid Hn) as (w & a & -> & Hw & Hnx).
  assert (forall m0 reason, m_ids m0 = w ->
    let m' := fst (match close (m_ids m0) id with
              | (_, Err e) => (m0, Err (Protocol e))
              | (w, Ok _) => mac_send (with_ids m0 w) (OpenFail id reason) end) in
    ids_ok (m_ids m') /\ next (m_ids m') = id + 1) as Hfail.
  { intros m0 reason E. cbv zeta. destruct (close (m_ids m0) id) as [w2 [u|e]] eqn:Ec; cbn [fst]; [|by rewrite E].
    rewrite mac_send_ids. cbn. rewrite E in Ec. by destruct (close_ids_ok _ _ _ _ Hw Ec) as [? ->]. }
  destruct a; [|by rewrite mac_send_ids].
  destruct (loopback_for port); [|by apply Hfail]. destruct dial; [by apply Hfail|].
  assert (m_ids (fst (if wants_proxy port then mac_write (with_ids m w) id (proxy_header addr src port)
                      else (with_ids m w, Ok tt))) = w) as H1 by (case_if; [apply mac_write_ids|done]).
  destruct (if wants_proxy port then _ else _) as [m1 [u|e]]; cbn [mac_then fst] in *; [|by rewrite H1].
  pose proof (mac_send_ids m1 (OpenOk id)) as H2. destruct (mac_send m1 (OpenOk id)) as [m2 [u2|e]]; cbn [mac_then fst] in *;
    cbn; by rewrite H2, H1.
Qed.

(** The other events leave [next] alone. *)
Lemma mac_event_ids m e : ids_ok (m_ids m) -> open_ids (frames_of [e]) = [] ->
  let m' := fst (mac_event m e) in ids_ok (m_ids m') /\ next (m_ids m') = next (m_ids m).
Proof.
  intros Hm He. cbv zeta. destruct e as [f dial|id r| |id]; cbn [mac_event]; try done.
  - destruct f; cbn [mac_frame]; try done.
    + by rewrite mac_send_ids.
    + destruct (require_open _ _); [|done]. case_decide; [by rewrite mac_write_ids|done].
    + destruct (close (m_ids m) conn_id) as [w [u|e]] eqn:Ec; [|done].
      destruct (close_ids_ok _ _ _ _ Hm Ec) as [? Hn]. case_decide; by cbn.
  - case_decide; [|done]. cbn [fst]. unfold mac_uplink. repeat case_decide; destruct r; cbn [fst];
      rewrite ?mac_send_ids; try done; pose proof (mac_send_ids m (Data id payload)) as E;
      destruct (mac_send m (Data id payload)) as [m1 [u|e]]; cbn [fst] in *; by rewrite E.
Qed.

Lemma frames_of_cons e es : frames_of (e :: es) = frames_of [e] ++ frames_of es.
Proof. destruct e; reflexivity. Qed.

(** After the OPENs [n .. n + k - 1] the next id is [n + k]. *)
Lemma mac_run_ids es : forall m m' k, ids_ok (m_ids m) -> next (m_ids m) + k <= u64_max -> 0 <= k ->
  open_ids (frames_of es) = seqZ (next (m_ids m)) k -> mac_run m es = (m', Ok tt) ->
  ids_ok (m_ids m') /\ next (m_ids m') = next (m_ids m) + k.
Proof.
  induction es as [|e es IH]; intros m m' k Hm Hk H0 Ho Hr; cbn [mac_run] in Hr.
  - injection Hr as <-. cbn in Ho. destruct (Z.eq_dec k 0) as [->|]; [by rewrite Z.add_0_r|].
    by rewrite seqZ_cons in Ho by lia.
  - rewrite frames_of_cons, open_ids_app in Ho.
    destruct (decide (open_ids (frames_of [e]) = [])) as [E|E].
    + rewrite E in Ho. cbn [app] in Ho. destruct (mac_event_ids m e Hm E) as [H1 H2].
      destruct (mac_event m e) as [m1 [u|x]]; cbn [mac_then fst] in *; [|done].
      rewrite <- H2 in Ho, Hk. destruct (IH m1 m' k H1 Hk H0 Ho Hr) as [? ->]. split; [done|lia].
    + destruct e as [f dial|id r| |id]; try done. destruct f; try done.
      cbn [frames_of open_ids omap list_omap app] in Ho.
      assert (1 <= k) as Hk1 by (destruct (Z.eq_dec k 0) as [->|]; [done|lia]).
      rewrite seqZ_cons in Ho by lia. injection Ho as Hid Ho.
      destruct (open_on_mac_ids m conn_id public_port src_port addr dial Hm Hid ltac:(lia)) as [H1 H2].
      cbn [mac_event mac_frame] in Hr.
      destruct (open_on_mac _ _ _ _ _ _) as [m1 [u|x]]; cbn [mac_then fst] in *; [|done].
      destruct (IH m1 m' (k - 1) H1) as [H3 H4]; [lia|lia| |done|].
      * rewrite H2, Hid. rewrite Ho. f_equal; lia.
      * split; [done|lia].
Qed.

(** C35: The two ends agree on the ids.  Whatever the interleaving on the VM,
    the outcomes of the Mac's dials and reads and the other frames, an OPEN
    that the VM has sent, and that arrives at the Mac in order with the ones
    before it, is admitted: it never ends the session as a reused or unknown
    id. *)
Theorem opens_admitted (keys : gset Z -> list Z) (tx0 : Z) (quota_override : bool) (v : Vm) (peak : Z)
    (es : list MacEvent) (id port src : Z) (addr : list Z) (dial : Dial) (m : Mac) :
  reaches keys (vm_new tx0 quota_override) v peak ->
  open_ids (frames_of (es ++ [MFrame (Open id port src addr) dial])) `prefix_of` open_ids (sent (shared v)) ->
  mac_run mac_new es = (m, Ok tt) ->
  exists a, snd (admit_id (m_ids m) id) = Ok a.
Proof.
  intros Hv Hp Hr. apply reaches_frames in Hv as (_ & _ & k & Hk & Hle & _ & _ & Hmax).
  assert (ids_ok ids_new) as H0.
  { split_and!; [done|done|intros i H; by apply elem_of_empty in H|]. unfold open_count. cbn. by rewrite size_empty. }
  assert (open_ids (frames_of (es ++ [MFrame (Open id port src addr) dial])) = open_ids (frames_of es) ++ [id]) as E
    by (unfold frames_of; by rewrite omap_app, open_ids_app).
  rewrite E, Hk in Hp. destruct Hp as [rest Hp].
  set (n := Z.of_nat (length (open_ids (frames_of es)))).
  assert (n < k) as Hn.
  { apply (f_equal length) in Hp. rewrite length_seqZ, !length_app in Hp. cbn in Hp. unfold n. lia. }
  rewrite <- app_assoc in Hp. replace k with (n + (k - n)) in Hp by lia. rewrite seqZ_app in Hp by lia.
  apply app_inj_1 in Hp as [Ha Hb]; [|rewrite length_seqZ; unfold n; lia].
  rewrite (seqZ_cons (1 + n)) in Hb by lia. injection Hb as Hid _.
  destruct (mac_run_ids es mac_new m n H0) as [H1 H2]; [cbn; lia|lia|by rewrite <- Ha|done|].
  cbn in H2. destruct (admit_next (m_ids m) id H1) as (w & a & -> & _); [lia|lia|by exists a].
Qed.
End Mac.

(** The witness of [opens_admitted]: a run of the VM with two connections,
    and the Mac after the first. *)
Definition two_opens : list VmEvent :=
  [EFrame Hello; EAccept 25 40000 [203; 0; 113; 9]; EAccept 443 40001 [203; 0; 113; 10]].
Definition one_opened : Mac :=
  fst (mac_run (fun _ _ _ => []) mac_new [MFrame (Open 1 25 40000 [203; 0; 113; 9]) Dialled]).

Example opens_admitted_witness : exists a, snd (admit_id (m_ids one_opened) 2) = Ok a.
Proof.
  apply (opens_admitted (fun _ _ _ => []) elements 0 false (fst (run_from 0 two_opens)) (snd (run_from 0 two_opens))
    [MFrame (Open 1 25 40000 [203; 0; 113; 9]) Dialled] 2 443 40001 [203; 0; 113; 10] Dialled one_opened).
  - apply run_from_reaches. vm_compute. by eexists.
  - exists []. vm_compute. reflexivity.
  - unfold one_opened. vm_compute. reflexivity.
Defined.

(** The Mac never frees the id of a connection that its own server closed:
    after 64 of them every OPEN is refused, with no connection left. *)
Definition served (id : Z) : list MacEvent := [MFrame (Open id 443 40000 [203; 0; 113; 9]) Dialled; MRead id REof].

Lemma server_close_leaks_ids :
  let '(m, r) := mac_run (fun _ _ _ => []) mac_new
    (concat (map (fun n => served (Z.of_nat n + 1)) (seq 0 64)) ++
     [MFrame (Open 65 443 40000 [203; 0; 113; 9]) Dialled]) in
  r = Ok tt /\ last (m_sent m) Hello = OpenFail 65 FailCap /\ m_closed m = m_writers m.
Proof. vm_compute. by split_and!. Qed.
