(* ===== verification/Milter.v ===== *)
(** * The milter protocol ([crates/smtp/src/inbound/milter])

    A milter is a filter that the SMTP server talks to over a socket: it is
    told of the connection, the envelope and the message, and answers with
    actions and modifications.  This file has the frames and their receiver,
    the commands and the answers with their bytes, and the client.  Strings
    are UTF-8 bytes. *)

From S2P Require Import Prelude Decimals Utf8 Text IpMask.

(** ** Messages *)

(* [crates/smtp/src/inbound/milter/mod.rs:146-150] Options *)
Record Options := MkOptions { version : Z; actions : Z; protocol : Z }.

(* [crates/smtp/src/inbound/milter/mod.rs:158-161] Macro *)
Record Macro := MkMacro { macro_name : list Z; macro_value : list Z }.
(* [crates/smtp/src/inbound/milter/mod.rs:153-156] Macros *)
Record Macros := MkMacros { cmdcode : Z; macros : list Macro }.

(* [crates/smtp/src/inbound/milter/mod.rs:52-86] Command *)
Inductive Command :=
| Abort
| Body (value : list Z)
| EndOfBody
| Data
| Connect (hostname : list Z) (port : Z) (address : IpAddr)
| CMacro (m : Macros)
| Header (name value : list Z)
| EndOfHeader
| Helo (hostname : list Z)
| MailFrom (sender : list Z) (args : option (list (list Z)))
| Rcpt (recipient : list Z) (args : option (list (list Z)))
| OptionNegotiation (opt : Options)
| Quit
| QuitNewConnection.

(* [crates/smtp/src/inbound/milter/mod.rs:99-108] Action *)
Inductive Action :=
| Accept | Continue | Discard | Reject | TempFail | ReplyCode (code : list Z) (text : list Z) | Shutdown | ConnectionFailure.

(* [crates/smtp/src/inbound/milter/mod.rs:111-143] Modification *)
Inductive Modification :=
| ChangeFrom (sender args : list Z)
| AddRcpt (recipient args : list Z)
| DeleteRcpt (recipient : list Z)
| ReplaceBody (value : list Z)
| AddHeader (name value : list Z)
| InsertHeader (index : Z) (name value : list Z)
| ChangeHeader (index : Z) (name value : list Z)
| Quarantine (reason : list Z).

(* [crates/smtp/src/inbound/milter/mod.rs:89-96] Response *)
Inductive Response :=
| RAction (a : Action)
| RModification (m : Modification)
| Progress
| Skip
| SetSymbols
| ROptions (opt : Options).

(* [crates/smtp/src/inbound/milter/mod.rs:36-44] Error *)
Inductive Error :=
| Io | FrameTooLarge (size : Z) | FrameInvalid (bytes : list Z) | Unexpected (r : Response) | Timeout | TLSInvalidName
| Disconnected.

(** ** Frames *)

(* [crates/smtp/src/inbound/milter/receiver.rs:9-18] State *)
Inductive State :=
| SLen (buf : list Z)                    (* the bytes read of the length *)
| SFrame (buf : list Z) (frame_len : Z).

(* [crates/smtp/src/inbound/milter/receiver.rs:20-24] Receiver *)
Record Receiver := MkReceiver { packet_pos : nat; rstate : State; max_frame_len : Z }.

(* [crates/smtp/src/inbound/milter/receiver.rs:26-30] FrameResult *)
Inductive FrameResult := Frame (bytes : list Z) | Incomplete | TooLarge (size : Z).

(* [crates/smtp/src/inbound/milter/receiver.rs:42-48] with_max_frame_len *)
Definition with_max_frame_len (n : Z) : Receiver := MkReceiver 0 (SLen []) n.

(** [packet.get(start..)]. *)
Definition get_from (packet : list Z) (start : nat) : option (list Z) :=
  if (start <=? length packet)%nat then Some (skipn start packet) else None.

(* [crates/smtp/src/inbound/milter/receiver.rs:54-64] read_frame, the length *)
Fixpoint read_len (missing : nat) (buf : list Z) (packet : list Z) (pos : nat) : list Z * nat * bool :=
  match missing with
  | O => (buf, pos, true)
  | S missing =>
      match nth_error packet pos with
      | Some byte => read_len missing (buf ++ [byte]) packet (S pos)
      | None => (buf, pos, false)
      end
  end.

(* [crates/smtp/src/inbound/milter/receiver.rs:50-109] read_frame *)
Definition read_frame (r : Receiver) (packet : list Z) : Receiver * FrameResult :=
  match packet with
  | [] => (r, Incomplete)
  | _ =>
      match rstate r with
      | SLen buf =>
          match read_len (4 - length buf) buf packet (packet_pos r) with
          | (buf, _, false) => (MkReceiver 0 (SLen buf) (max_frame_len r), Incomplete)
          | (buf, pos, true) =>
              let len := of_be_bytes buf in
              if len <=? max_frame_len r then
                match get_range packet pos (pos + Z.to_nat len) with
                | Some frame => (MkReceiver (pos + Z.to_nat len) (SLen []) (max_frame_len r), Frame frame)
                | None =>
                    (MkReceiver 0 (SFrame (default [] (get_from packet pos)) len) (max_frame_len r), Incomplete)
                end
              else (MkReceiver pos (SLen buf) (max_frame_len r), TooLarge len)
          end
      | SFrame buf frame_len =>
          let bytes_pending := (Z.to_nat frame_len - length buf)%nat in
          match get_range packet (packet_pos r) (packet_pos r + bytes_pending) with
          | Some bytes => (MkReceiver (packet_pos r + bytes_pending) (SLen []) (max_frame_len r), Frame (buf ++ bytes))
          | None =>
              match get_from packet (packet_pos r) with
              | Some bytes => (MkReceiver 0 (SFrame (buf ++ bytes) frame_len) (max_frame_len r), Incomplete)
              | None => (MkReceiver 0 (SFrame buf frame_len) (max_frame_len r), Incomplete)
              end
          end
      end
  end.

(** ** Commands *)

Definition NUL : list Z := [0].
(** [x.len() as u32]. *)
Definition len32 (l : list Z) : Z := wrap 32 (Z.of_nat (length l)).

(* [crates/smtp/src/inbound/milter/protocol.rs:51-56] Command::build *)
Definition build (command len : Z) : list Z := be_bytes 4 (wrap 32 (len + 1)) ++ [command].

(* [crates/smtp/src/inbound/milter/protocol.rs:104-117] Command::serialize, macros *)
Definition serialize_macros (m : Macros) : list Z :=
  build c#"D" (fold_left (fun acc x => wrap 32 (acc + len32 (macro_name x) + 1 + len32 (macro_value x) + 1)) (macros m) 1) ++
  [cmdcode m] ++ concat (map (fun x => macro_name x ++ NUL ++ macro_value x ++ NUL) (macros m)).

(** MAIL and RCPT: an address and its parameters. *)
(* [crates/smtp/src/inbound/milter/protocol.rs:136-150] Command::serialize, MailFrom *)
Definition serialize_envelope (code : Z) (address : list Z) (args : option (list (list Z))) : list Z :=
  build code (len32 address + 1 +
    match args with Some args => fold_left (fun acc arg => wrap 32 (acc + len32 arg)) args 0 + 1 | None => 0 end) ++
  address ++ NUL ++
  match args with Some args => concat (map (fun arg => arg ++ NUL) args) | None => [] end.

(** [IpAddr::to_string]. *)
Definition ip_to_string (a : IpAddr) : list Z :=
  match a with IpV4 a => print_ipv4 a | IpV6 a => print_ipv6 a end.

(* [crates/smtp/src/inbound/milter/protocol.rs:58-182] Command::serialize *)
Definition serialize (c : Command) : list Z :=
  match c with
  | Abort => build c#"A" 0
  | Body value => build c#"B" (len32 value) ++ value
  | EndOfBody => build c#"E" 0
  | Connect hostname port address =>
      let family := match address with IpV4 _ => c#"4" | IpV6 _ => c#"6" end in
      let address := ip_to_string address in
      build c#"C" (len32 hostname + 1 + 1 + 2 + len32 address + 1) ++
      hostname ++ NUL ++ [family] ++ be_bytes 2 port ++ address ++ NUL
  | CMacro m => serialize_macros m
  | Header name value => build c#"L" (len32 name + 1 + len32 value + 1) ++ name ++ NUL ++ value ++ NUL
  | EndOfHeader => build c#"N" 0
  | Helo hostname => build c#"H" (len32 hostname + 1) ++ hostname ++ NUL
  | MailFrom sender args => serialize_envelope c#"M" sender args
  | Rcpt recipient args => serialize_envelope c#"R" recipient args
  | OptionNegotiation opt =>
      build c#"O" 12 ++ be_bytes 4 (version opt) ++ be_bytes 4 (actions opt) ++ be_bytes 4 (protocol opt)
  | Quit => build c#"Q" 0
  | Data => build c#"T" 0
  | QuitNewConnection => build c#"K" 0
  end.

(** ** Answers *)

(** [None]: the bytes end without a zero, or are not UTF-8. *)
(* [crates/smtp/src/inbound/milter/protocol.rs:463-472] read_nul_terminated *)
Fixpoint read_nul_loop (bytes buf : list Z) : option (list Z * list Z) :=
  match bytes with
  | [] => None
  | byte :: bytes => if byte =? 0 then Some (buf, bytes) else read_nul_loop bytes (buf ++ [byte])
  end.
Definition read_nul_terminated (bytes : list Z) : option (list Z * list Z) :=
  match read_nul_loop bytes [] with
  | Some (buf, bytes) => if valid buf then Some (buf, bytes) else None
  | None => None
  end.

(* [crates/smtp/src/inbound/milter/protocol.rs:474-480] read_u32 *)
Definition read_u32 (bytes : list Z) : option (Z * list Z) :=
  match bytes with
  | a :: b :: c :: d :: bytes => Some (of_be_bytes [a; b; c; d], bytes)
  | _ => None
  end.

Notation "'let!' p := r 'in' k" := (match r with Some p => k | None => None end)
  (at level 10, p pattern, r at level 100, k at level 200).

Definition read_two (bytes : list Z) : option (list Z * list Z) :=
  let! (a, bytes) := read_nul_terminated bytes in
  let! (b, _) := read_nul_terminated bytes in Some (a, b).
Definition read_three (bytes : list Z) : option (Z * list Z * list Z) :=
  let! (i, bytes) := read_u32 bytes in
  let! (a, b) := read_two bytes in Some (i, a, b).

Definition action_codes : list (Z * Action) :=
  [(c#"a", Accept); (c#"c", Continue); (c#"d", Discard); (c#"r", Reject); (c#"t", TempFail); (c#"4", Shutdown);
   (c#"f", ConnectionFailure)].

(* [crates/smtp/src/inbound/milter/protocol.rs:266-335] Response::deserialize *)
Definition deserialize (bytes : list Z) : option Response :=
  match bytes with
  | [] => None
  | code :: bytes =>
      match List.find (fun e => fst e =? code) action_codes with
      | Some (_, a) => Some (RAction a)
      | None =>
          if code =? c#"+" then let! (a, _) := read_nul_terminated bytes in Some (RModification (AddRcpt a []))
          else if code =? c#"-" then let! (a, _) := read_nul_terminated bytes in Some (RModification (DeleteRcpt a))
          else if code =? c#"b" then Some (RModification (ReplaceBody bytes))
          else if code =? c#"h" then let! (a, b) := read_two bytes in Some (RModification (AddHeader a b))
          else if code =? c#"m" then let! (i, a, b) := read_three bytes in Some (RModification (ChangeHeader i a b))
          else if code =? c#"p" then Some Progress
          else if code =? c#"q" then let! (a, _) := read_nul_terminated bytes in Some (RModification (Quarantine a))
          else if code =? c#"y" then
            match bytes with
            | a :: b :: c :: _ :: bytes =>
                let! (text, _) := read_nul_terminated bytes in Some (RAction (ReplyCode [a; b; c] text))
            | _ => None
            end
          else if code =? c#"O" then
            let! (v, bytes) := read_u32 bytes in
            let! (a, bytes) := read_u32 bytes in
            let! (p, _) := read_u32 bytes in Some (ROptions (MkOptions v a p))
          else if code =? c#"2" then let! (a, b) := read_two bytes in Some (RModification (AddRcpt a b))
          else if code =? c#"e" then let! (a, b) := read_two bytes in Some (RModification (ChangeFrom a b))
          else if code =? c#"s" then Some Skip
          else if code =? c#"l" then Some SetSymbols
          else if code =? c#"i" then let! (i, a, b) := read_three bytes in Some (RModification (InsertHeader i a b))
          else None
      end
  end.

(* [crates/smtp/src/inbound/milter/protocol.rs:337-342] can_continue *)
Definition can_continue (r : Response) : bool :=
  match r with Progress | RAction Accept | RAction Continue => true | _ => false end.

(* [crates/smtp/src/inbound/milter/protocol.rs:344-349] into_action *)
Definition into_action (r : Response) : result Action Error :=
  match r with RAction a => Ok a | r => Err (Unexpected r) end.

(** The filter's side, which the tests use. *)
(* [crates/smtp/src/inbound/milter/protocol.rs:354-370] Response::serialize, actions *)
Definition serialize_action (a : Action) : list Z :=
  match a with
  | Accept => build c#"a" 0
  | Continue => build c#"c" 0
  | Discard => build c#"d" 0
  | Reject => build c#"r" 0
  | TempFail => build c#"t" 0
  | ReplyCode code text => build c#"y" (len32 text + 4 + 1) ++ code ++ [32] ++ text ++ NUL
  | Shutdown => build c#"4" 0
  | ConnectionFailure => build c#"f" 0
  end.

(* [crates/smtp/src/inbound/milter/protocol.rs:371-448] Response::serialize, modifications *)
Definition serialize_modification (m : Modification) : list Z :=
  let two code a b := build code (len32 a + len32 b + 2) ++ a ++ NUL ++ b ++ NUL in
  let three code i a b := build code (len32 a + len32 b + 4 + 2) ++ be_bytes 4 i ++ a ++ NUL ++ b ++ NUL in
  match m with
  | ChangeFrom sender args => two c#"e" sender args
  | AddRcpt recipient args => two c#"2" recipient args
  | DeleteRcpt recipient => build c#"-" (len32 recipient + 1) ++ recipient ++ NUL
  | ReplaceBody value => build c#"b" (len32 value) ++ value
  | AddHeader name value => two c#"h" name value
  | InsertHeader index name value => three c#"i" index name value
  | ChangeHeader index name value => three c#"m" index name value
  | Quarantine reason => build c#"q" (len32 reason + 1) ++ reason ++ NUL
  end.

(* [crates/smtp/src/inbound/milter/protocol.rs:352-460] Response::serialize *)
Definition serialize_response (r : Response) : list Z :=
  match r with
  | RAction a => serialize_action a
  | RModification m => serialize_modification m
  | Progress => build c#"p" 0
  | Skip => build c#"s" 0
  | SetSymbols => build c#"l" 0
  | ROptions opt =>
      build c#"O" 12 ++ be_bytes 4 (version opt) ++ be_bytes 4 (actions opt) ++ be_bytes 4 (protocol opt)
  end.

(** ** The client *)

(** What a read of the filter's socket gives: bytes (none at its end) or an
    error; a client without more reads times out. *)
Inductive Read := RBytes (bytes : list Z) | RError (e : Error).

Inductive MilterVersion := V2 | V6.

Definition MILTER_CHUNK_SIZE : nat := 65535.

(** The flags of the negotiation. *)
(* [crates/smtp/src/inbound/milter/mod.rs:175-195] SMFIF, SMFIP *)
Definition SMFIP_NOCONNECT : Z := 1.
Definition SMFIP_NOHELO : Z := 2.
Definition SMFIP_NOMAIL : Z := 4.
Definition SMFIP_NORCPT : Z := 8.
Definition SMFIP_NOBODY : Z := 16.
Definition SMFIP_NOHDRS : Z := 32.
Definition SMFIP_NOEOH : Z := 64.
Definition SMFIP_NR_HDR : Z := 128.
Definition SMFIP_NODATA : Z := 512.
Definition SMFIP_NR_CONN : Z := 4096.
Definition SMFIP_NR_HELO : Z := 8192.
Definition SMFIP_NR_MAIL : Z := 16384.
Definition SMFIP_NR_RCPT : Z := 32768.
Definition SMFIP_NR_DATA : Z := 65536.
Definition SMFIP_NR_EOH : Z := 262144.
Definition SMFIP_NR_BODY : Z := 524288.

(** The commands so far are kept as they are and as the bytes written. *)
(* [crates/smtp/src/inbound/milter/mod.rs:20-33] MilterClient *)
Record MilterClient := MkClient {
  input : list Read; output : list Z; sent : list Command;
  buf : list Z; receiver : Receiver; mversion : MilterVersion; options : Z;
  flags_actions : Z; flags_protocol : Z }.

(** Steps of the client, which an error of the type [E] ends. *)
Definition Step (E A : Type) : Type := MilterClient -> MilterClient * result A E.
Definition M : Type -> Type := Step Error.
Definition ret {E A} (a : A) : Step E A := fun c => (c, Ok a).
Definition fail {E A} (e : E) : Step E A := fun c => (c, Err e).
Definition mbind {E A B} (m : Step E A) (k : A -> Step E B) : Step E B := fun c =>
  match m c with (c, Ok a) => k a c | (c, Err e) => (c, Err e) end.
Notation "'let*' x := m 'in' k" := (mbind m (fun x => k)) (at level 10, x pattern, m at level 100, k at level 200).

Definition with_input (c : MilterClient) (i : list Read) (b : list Z) (r : Receiver) : MilterClient :=
  MkClient i (output c) (sent c) b r (mversion c) (options c) (flags_actions c) (flags_protocol c).
Definition with_options (o : Z) : M unit := fun c =>
  (MkClient (input c) (output c) (sent c) (buf c) (receiver c) (mversion c) o (flags_actions c) (flags_protocol c), Ok tt).

(* [crates/smtp/src/inbound/milter/client.rs:327-357] read *)
Fixpoint read_loop (reads : list Read) (b : list Z) (r : Receiver) : list Read * list Z * Receiver * result Response Error :=
  match read_frame r b with
  | (r, Frame frame) =>
      (reads, b, r, match deserialize frame with Some response => Ok response | None => Err (FrameInvalid frame) end)
  | (r, TooLarge size) => (reads, b, r, Err (FrameTooLarge size))
  | (r, Incomplete) =>
      match reads with
      | [] => ([], b, r, Err Timeout)
      | RError e :: reads => (reads, b, r, Err e)
      | RBytes [] :: reads => (reads, [], r, Err Disconnected)
      | RBytes bytes :: reads => read_loop reads bytes r
      end
  end.
Definition read : M Response := fun c =>
  let '(i, b, r, result) := read_loop (input c) (buf c) (receiver c) in (with_input c i b r, result).

(* [crates/smtp/src/inbound/milter/client.rs:360-362] has_option *)
Definition has_option (opt : Z) : M bool := fun c => (c, Ok (Z.land (options c) opt =? opt)).

Definition expect_action : M Action := let* r := read in fun c => (c, into_action r).

Section Client.
(** What the filter's socket takes after what was written. *)
Variable socket_takes : list Z -> list Z -> result unit Error.

(* [crates/smtp/src/inbound/milter/client.rs:311-325] write *)
Definition write (action : Command) : M unit := fun c =>
  match socket_takes (output c) (serialize action) with
  | Ok _ =>
      (MkClient (input c) (output c ++ serialize action) (sent c ++ [action]) (buf c) (receiver c) (mversion c) (options c)
         (flags_actions c) (flags_protocol c), Ok tt)
  | Err e => (c, Err e)
  end.

(* [crates/smtp/src/inbound/milter/client.rs:100-117] init *)
Definition init : M Options := fun c =>
  (let* _ := write (OptionNegotiation (MkOptions (match mversion c with V2 => 2 | V6 => 6 end) (flags_actions c) (flags_protocol c))) in
   let* response := read in
   match response with
   | ROptions opt => let* _ := with_options (protocol opt) in ret opt
   | response => fail (Unexpected response)
   end) c.

(** A command that the filter may have declined, with its macros, and its
    answer, which the filter may have declined to give. *)
Definition step (no nr : Z) (m : option Macros) (command : Command) : M Action :=
  let* declined := has_option no in
  if declined : bool then ret Accept
  else
    let* _ := match m with Some m => write (CMacro m) | None => ret tt end in
    let* _ := write command in
    let* silent := has_option nr in
    if silent : bool then ret Accept else expect_action.

Definition with_cmd_code (code : Z) (m : list Macro) : option Macros := Some (MkMacros code m).

(* [crates/smtp/src/inbound/milter/client.rs:119-143] connection *)
Definition connection (hostname : list Z) (remote_ip : IpAddr) (remote_port : Z) (m : list Macro) : M Action :=
  step SMFIP_NOCONNECT SMFIP_NR_CONN (with_cmd_code c#"C" m) (Connect hostname remote_port remote_ip).
(* [crates/smtp/src/inbound/milter/client.rs:145-164] helo *)
Definition helo (hostname : list Z) (m : list Macro) : M Action :=
  step SMFIP_NOHELO SMFIP_NR_HELO (with_cmd_code c#"H" m) (Helo hostname).
(* [crates/smtp/src/inbound/milter/client.rs:166-191] mail_from *)
Definition mail_from (addr : list Z) (m : list Macro) : M Action :=
  step SMFIP_NOMAIL SMFIP_NR_MAIL (with_cmd_code c#"M" m) (MailFrom addr None).
(* [crates/smtp/src/inbound/milter/client.rs:193-218] rcpt_to *)
Definition rcpt_to (addr : list Z) (m : list Macro) : M Action :=
  step SMFIP_NORCPT SMFIP_NR_RCPT (with_cmd_code c#"R" m) (Rcpt addr None).

(** [None]: all headers are written. *)
(* [crates/smtp/src/inbound/milter/client.rs:227-240] headers, the loop *)
Fixpoint header_loop (headers : list (list Z * list Z)) : M (option Action) :=
  match headers with
  | [] => ret None
  | (name, value) :: headers =>
      let* _ := write (Header (trim name) (trim value)) in
      let* silent := has_option SMFIP_NR_HDR in
      if silent : bool then header_loop headers
      else
        let* response := read in
        match response with
        | RAction Accept | RAction Continue => header_loop headers
        | RAction action => ret (Some action)
        | response => fail (Unexpected response)
        end
  end.

(* [crates/smtp/src/inbound/milter/client.rs:220-249] headers *)
Definition headers (h : list (list Z * list Z)) : M Action :=
  let* declined := has_option SMFIP_NOHDRS in
  if declined : bool then ret Accept
  else
    let* action := header_loop h in
    match action with
    | Some action => ret action
    | None =>
        let* _ := write EndOfHeader in
        let* silent := has_option SMFIP_NR_EOH in
        if silent : bool then ret Accept else expect_action
    end.

(* [crates/smtp/src/inbound/milter/client.rs:251-259] data *)
Definition data : M Action := fun c =>
  match mversion c with
  | V6 => step SMFIP_NODATA SMFIP_NR_DATA None Data c
  | V2 => (c, Ok Accept)
  end.

(** [body.chunks(n)]. *)
Fixpoint chunks (fuel : nat) (n : nat) (l : list Z) : list (list Z) :=
  match fuel, l with
  | S fuel, _ :: _ => firstn n l :: chunks fuel n (skipn n l)
  | _, _ => []
  end.

(* [crates/smtp/src/inbound/milter/client.rs:263-277] body, the chunks *)
Fixpoint body_loop (values : list (list Z)) : M (option Action) :=
  match values with
  | [] => ret None
  | value :: values =>
      let* _ := write (Body value) in
      let* silent := has_option SMFIP_NR_BODY in
      if silent : bool then body_loop values
      else
        let* response := read in
        match response with
        | RAction Accept | RAction Continue | Progress => body_loop values
        | Skip => ret None
        | RAction reject => ret (Some reject)
        | response => fail (Unexpected response)
        end
  end.

(** The frames that follow: there are at most as many as bytes still to
    come. *)
(* [crates/smtp/src/inbound/milter/client.rs:282-297] body, the modifications *)
Fixpoint collect (fuel : nat) (modifications : list Modification) : M (Action * list Modification) :=
  match fuel with
  | O => fail Timeout
  | S fuel =>
      let* response := read in
      match response with
      | RAction action => ret (action, modifications)
      | RModification modification => collect fuel (modifications ++ [modification])
      | Progress => collect fuel modifications
      | unexpected => fail (Unexpected unexpected)
      end
  end.

Definition pending (c : MilterClient) : nat :=
  length (buf c) + sum_list_with (fun r => match r with RBytes b => length b | RError _ => 0%nat end) (input c).

(* [crates/smtp/src/inbound/milter/client.rs:261-301] body *)
Definition body (b : list Z) : M (Action * list Modification) :=
  let* declined := has_option SMFIP_NOBODY in
  if declined : bool then ret (Accept, [])
  else
    let* action := body_loop (chunks (length b) MILTER_CHUNK_SIZE b) in
    match action with
    | Some reject => ret (reject, [])
    | None => let* _ := write EndOfBody in fun c => collect (S (pending c)) [] c
    end.

(** ** Running a filter ([crates/smtp/src/inbound/milter/message.rs]) *)

(** What of the session a filter is told; of the message, its parsed headers
    and its bytes. *)
Record Told := MkTold {
  client_ptr : option (list Z); helo_domain : list Z; remote_ip : IpAddr; remote_port : Z; hostname : list Z;
  tls_version : list Z; tls_cipher : list Z; sender : option (list Z); login : option (list Z);
  recipients : list (list Z); message : option (list (list Z * list Z) * list Z) }.

Variable DAEMON_NAME : list Z.

(* [crates/smtp/src/inbound/milter/message.rs:25-28] Rejection *)
Inductive Rejection := ByAction (a : Action) | ByError (e : Error).

(* [crates/smtp/src/inbound/milter/message.rs:525-530] assert_continue *)
Definition assert_continue (a : Action) : result unit Rejection :=
  match a with Continue | Accept => Ok tt | a => Err (ByAction a) end.

(** Steps that a rejection ends. *)
Definition R : Type -> Type := Step Rejection.
Definition lift {A} (m : M A) : R A := fun c =>
  match m c with (c, Ok a) => (c, Ok a) | (c, Err e) => (c, Err (ByError e)) end.
Definition asserted (m : M Action) : R unit := let* a := lift m in fun c => (c, assert_continue a).

Fixpoint each {A} (f : A -> R unit) (l : list A) : R unit :=
  match l with [] => ret tt | x :: l => let* _ := f x in each f l end.

(** [let _ = client.quit().await]. *)
Definition quit : R unit := fun c => (fst (write Quit c), Ok tt).

Definition angle (addr : list Z) : list Z := s#"<" ++ addr ++ s#">".
Definition mac (name value : list Z) : Macro := MkMacro name value.

(* [crates/smtp/src/inbound/milter/message.rs:201-214] run, the connection *)
Definition connect_macros (t : Told) : list Macro :=
  [mac s#"{daemon_name}" DAEMON_NAME; mac s#"j" (hostname t); mac s#"{client_addr}" (ip_to_string (remote_ip t));
   mac s#"{client_port}" (print_decimal (remote_port t)); mac s#"{client_ptr}" (default s#"unknown" (client_ptr t))].

(* [crates/smtp/src/inbound/milter/message.rs:190-257] run, the envelope *)
Definition run_envelope (t : Told) : R unit :=
  match sender t with
  | Some addr =>
      let* _ := asserted (mail_from (angle addr)
        (mac s#"{mail_addr}" addr :: match login t with Some name => [mac s#"{auth_authen}" name] | None => [] end)) in
      each (fun addr => asserted (rcpt_to (angle addr) [mac s#"{rcpt_addr}" addr])) (recipients t)
  | None => ret tt
  end.

(* [crates/smtp/src/inbound/milter/message.rs:259-282] run, the message *)
Definition run_message (t : Told) : R (list Modification) :=
  match message t with
  | Some (parsed_headers, raw_message) =>
      let* _ := asserted data in
      let* _ := asserted (headers (map (fun h => (str_or_default (fst h), str_or_default (snd h))) parsed_headers)) in
      let* (action, modifications) := lift (body raw_message) in
      let* _ := fun c => (c, assert_continue action) in
      let* _ := quit in ret modifications
  | None => let* _ := quit in ret []
  end.

(* [crates/smtp/src/inbound/milter/message.rs:185-289] run *)
Definition run (t : Told) : R (list Modification) :=
  let* _ := lift init in
  let* _ := asserted (connection (default (helo_domain t) (client_ptr t)) (remote_ip t) (remote_port t) (connect_macros t)) in
  let* _ := asserted (helo (helo_domain t) [mac s#"{cipher}" (tls_cipher t); mac s#"{tls_version}" (tls_version t)]) in
  let* _ := run_envelope t in
  run_message t.

(** *** A run is not rejected by an action that lets the message pass *)

Definition rejects {A} (m : R A) : Prop := forall c a, snd (m c) = Err (ByAction a) -> a <> Accept /\ a <> Continue.

Lemma rejects_bind {A B} (m : R A) (k : A -> R B) : rejects m -> (forall a, rejects (k a)) -> rejects (mbind m k).
Proof. intros H K c a. unfold mbind. specialize (H c). destruct (m c) as [c' [x | e]]; [apply K |]. intros [= ->]. exact (H a eq_refl). Qed.
Lemma rejects_ret {A} (x : A) : rejects (ret x).
Proof. intros c a. discriminate. Qed.
Lemma rejects_lift {A} (m : M A) : rejects (lift m).
Proof. intros c a. unfold lift. destruct (m c) as [c' [x | e]]; discriminate. Qed.
Lemma rejects_assert x : rejects (fun c => (c, assert_continue x)).
Proof. intros c a. destruct x; cbn; intros [= <-]; split; discriminate. Qed.
Lemma rejects_asserted m : rejects (asserted m).
Proof. apply rejects_bind; [apply rejects_lift | intros x; apply rejects_assert]. Qed.
Lemma rejects_each {A} (f : A -> R unit) l : (forall x, rejects (f x)) -> rejects (each f l).
Proof. intros H. induction l as [|x l IH]; [apply rejects_ret|]. apply rejects_bind; [apply H | intros; exact IH]. Qed.
Lemma rejects_quit : rejects quit.
Proof. intros c a. discriminate. Qed.

Lemma run_rejects t : rejects (run t).
Proof.
  unfold run, run_envelope, run_message. repeat (apply rejects_bind; [apply rejects_lift || apply rejects_asserted | intros ?]).
  apply rejects_bind.
  - destruct (sender t); [|apply rejects_ret]. apply rejects_bind; [apply rejects_asserted | intros ?].
    apply rejects_each. intros x. apply rejects_asserted.
  - intros ?. destruct (message t) as [[h b]|]; repeat (apply rejects_bind; [apply rejects_asserted || apply rejects_lift || apply rejects_quit | intros ?]);
      try apply rejects_ret.
    match goal with x : (Action * list Modification)%type |- _ => destruct x end. apply rejects_bind; [apply rejects_assert|]. intros ?. apply rejects_bind; [apply rejects_quit|].
    intros ?. apply rejects_ret.
Qed.
End Client.

(** ** The receiver reads the frames of the stream *)

(** Bytes of a frame that the receiver has taken. *)
Definition held (r : Receiver) : list Z :=
  match rstate r with SLen b => b | SFrame b n => be_bytes 4 n ++ b end.

Definition receiver_ok (r : Receiver) (b : list Z) : Prop :=
  (packet_pos r <= length b)%nat /\
  match rstate r with
  | SLen h => (length h < 4)%nat /\ bytes_ok h
  | SFrame h n => in_width 32 n /\ n <= max_frame_len r /\ (length h < Z.to_nat n)%nat
  end.

(** What is still to be read, with what is held. *)
Definition stream (r : Receiver) (b : list Z) (reads : list (list Z)) : list Z :=
  held r ++ skipn (packet_pos r) b ++ concat reads.

Lemma read_len_spec missing buf packet pos : (pos <= length packet)%nat ->
  read_len missing buf packet pos =
  let taken := firstn missing (skipn pos packet) in
  (buf ++ taken, (pos + length taken)%nat, (missing <=? length (skipn pos packet))%nat).
Proof.
  revert buf pos. induction missing as [|m IH]; intros buf pos Hp; cbn [read_len firstn].
  - cbn [length]. by rewrite app_nil_r, Nat.add_0_r.
  - destruct (nth_error packet pos) as [x|] eqn:E.
    + apply nth_error_split in E as (l1 & l2 & -> & <-). rewrite IH by (rewrite length_app; cbn; lia).
      rewrite drop_app_length. replace (l1 ++ x :: l2) with ((l1 ++ [x]) ++ l2) by by rewrite <- app_assoc.
      replace (S (length l1)) with (length (l1 ++ [x])) by (rewrite length_app; cbn; lia). rewrite drop_app_length.
      cbn zeta. cbn [firstn length Nat.leb]. rewrite <- app_assoc, length_app. cbn [app length].
      f_equal; f_equal; lia.
    + apply nth_error_None in E. rewrite skipn_all2 by lia. cbn. by rewrite app_nil_r, Nat.add_0_r.
Qed.

Lemma get_range_take (l : list Z) pos n : (pos <= length l)%nat ->
  get_range l pos (pos + n) = if (n <=? length (skipn pos l))%nat then Some (firstn n (skipn pos l)) else None.
Proof.
  intros H. unfold get_range. rewrite length_skipn. replace (pos + n - pos)%nat with n by lia.
  rewrite (proj2 (Nat.leb_le pos (pos + n))) by lia. cbn [andb].
  destruct (Nat.leb_spec (pos + n) (length l)), (Nat.leb_spec n (length l - pos)); done || lia.
Qed.

Lemma get_from_skip (l : list Z) pos : (pos <= length l)%nat -> get_from l pos = Some (skipn pos l).
Proof. intros H. unfold get_from. by rewrite (proj2 (Nat.leb_le _ _)). Qed.

(** One attempt: the frame, or all of the packet is taken. *)
Lemma read_frame_spec r b n frame tail reads : receiver_ok r b -> in_width 32 n -> n <= max_frame_len r ->
  0 < n -> length frame = Z.to_nat n -> stream r b reads = be_bytes 4 n ++ frame ++ tail ->
  match read_frame r b with
  | (r', Frame f) => f = frame /\ receiver_ok r' b /\ stream r' b reads = tail /\ max_frame_len r' = max_frame_len r
  | (r', Incomplete) => receiver_ok r' [] /\ stream r' [] reads = be_bytes 4 n ++ frame ++ tail /\ max_frame_len r' = max_frame_len r
      /\ packet_pos r' = 0%nat
  | (_, TooLarge _) => False
  end.
Proof.
  intros [Hp Hs] Hn Hmax Hpos Hf E. unfold read_frame, stream, held in *. destruct b as [|b0 b'].
  { cbn [length] in Hp. destruct r as [pos st max]. cbn [packet_pos rstate max_frame_len] in *.
    assert (pos = 0%nat) as -> by lia. split_and!; [split; [cbn; lia|done]|done..]. }
  set (b := b0 :: b') in *. clearbody b. clear b0 b'. destruct r as [pos st max]. cbn [packet_pos rstate max_frame_len] in *.
  destruct st as [h|h m].
  - destruct Hs as [Hh Hb]. rewrite read_len_spec by done. cbn zeta.
    set (rest := skipn pos b) in *. destruct (Nat.leb_spec (4 - length h) (length rest)) as [H|H].
    + assert (h ++ firstn (4 - length h) rest = be_bytes 4 n /\
        skipn (4 - length h) rest ++ concat reads = frame ++ tail) as [Eh Et].
      { rewrite <- (firstn_skipn (4 - length h) rest) in E. rewrite <- app_assoc, app_assoc in E.
        apply app_inj_1 in E as [E1 E2]; [done|]. rewrite length_app, length_firstn, be_bytes_length. lia. }
      rewrite Eh. rewrite of_be_id by done. rewrite (proj2 (Z.leb_le _ _)) by done.
      rewrite length_firstn, Nat.min_l by done.
      assert (skipn (pos + (4 - length h)) b = skipn (4 - length h) rest) as Er
        by (unfold rest; rewrite skipn_skipn; f_equal; lia).
      assert ((pos + (4 - length h) <= length b)%nat) as Hp' by (unfold rest in H; rewrite length_skipn in H; lia).
      rewrite get_range_take, Er by done. set (rest' := skipn (4 - length h) rest) in *.
      destruct (Nat.leb_spec (Z.to_nat n) (length rest')) as [H'|H'].
      * rewrite <- (firstn_skipn (Z.to_nat n) rest') in Et. rewrite <- app_assoc in Et.
        apply app_inj_1 in Et as [E1 E2]; [|rewrite length_firstn; lia].
        cbn [rstate packet_pos max_frame_len app]. split_and!; [done| | |done].
        -- split; [unfold rest', rest in H'; rewrite !length_skipn in H'; cbn; lia|]. split; [cbn; lia|constructor].
        -- rewrite (Nat.add_comm _ (Z.to_nat n)), <- skipn_skipn, Er. done.
      * rewrite get_from_skip, Er by done. change (default [] (Some rest')) with rest'.
        cbn [rstate packet_pos max_frame_len skipn app length].
        split_and!; [split; [cbn; lia|done]| |done..]. by rewrite <- app_assoc, Et.
    + cbn [rstate packet_pos max_frame_len skipn app length]. rewrite firstn_all2 by lia. split_and!; [split; [cbn; lia|]| |done..].
      * cbn [rstate]. rewrite length_app. split; [lia|]. apply (f_equal (firstn 4)) in E.
        rewrite (take_app_length' (be_bytes 4 n)) in E by by rewrite be_bytes_length.
        rewrite app_assoc, firstn_app, (firstn_all2 (h ++ rest)) in E by (rewrite length_app; lia).
        pose proof (be_bytes_ok 4 n) as Hbe. rewrite <- E in Hbe.
        by apply Forall_app in Hbe as [? _].
      * by rewrite <- app_assoc.
  - destruct Hs as (Hw & Hm & Hh). rewrite <- app_assoc in E. apply app_inj_1 in E as [E1 E2]; [|by rewrite !be_bytes_length].
    assert (m = n) as -> by (by rewrite <- (of_be_id 4 m), <- (of_be_id 4 n), E1).
    rewrite get_range_take by done. set (rest := skipn pos b) in *.
    destruct (Nat.leb_spec (Z.to_nat n - length h) (length rest)) as [H|H].
    + rewrite <- (firstn_skipn (Z.to_nat n - length h) rest) in E2. rewrite <- app_assoc, app_assoc in E2.
      apply app_inj_1 in E2 as [E3 E4]; [|rewrite length_app, length_firstn; lia].
      cbn [rstate packet_pos max_frame_len app]. split_and!; [done| | |done].
      * split; [unfold rest in H; rewrite length_skipn in H; cbn; lia|]. split; [cbn; lia|constructor].
      * rewrite Nat.add_comm, <- skipn_skipn. done.
    + rewrite get_from_skip by done. fold rest. cbn [rstate packet_pos max_frame_len skipn app length].
      split_and!; [split; [cbn; lia|]| |done..].
      * cbn [rstate max_frame_len]. rewrite length_app. split_and!; [done..|lia].
      * by rewrite <- !app_assoc, E2.
Qed.

Lemma held_incomplete r n frame tail : receiver_ok r [] -> in_width 32 n -> length frame = Z.to_nat n ->
  held r = be_bytes 4 n ++ frame ++ tail -> False.
Proof.
  intros [_ Hs] Hn Hf E. unfold held in E. destruct (rstate r) as [h|h m].
  - apply (f_equal length) in E. rewrite !length_app, be_bytes_length in E. lia.
  - destruct Hs as (Hm & _ & Hh). apply app_inj_1 in E as [E1 E2]; [|by rewrite !be_bytes_length].
    assert (m = n) as -> by (by rewrite <- (of_be_id 4 m), <- (of_be_id 4 n), E1).
    apply (f_equal length) in E2. rewrite length_app in E2. lia.
Qed.

Definition nonempty (l : list (list Z)) : Prop := Forall (fun c => c <> []) l.

Lemma read_loop_spec chunks b r n frame tail response : nonempty chunks -> receiver_ok r b ->
  in_width 32 n -> n <= max_frame_len r -> 0 < n -> length frame = Z.to_nat n -> deserialize frame = Some response ->
  stream r b chunks = be_bytes 4 n ++ frame ++ tail ->
  exists chunks' b' r', read_loop (map RBytes chunks) b r = (map RBytes chunks', b', r', Ok response) /\
    nonempty chunks' /\ receiver_ok r' b' /\ stream r' b' chunks' = tail /\ max_frame_len r' = max_frame_len r.
Proof.
  intros Hc Hr Hn Hmax Hpos Hf Hd. revert b r Hr Hmax.
  induction Hc as [|c chunks Hc Hcs IH]; intros b r Hr Hmax E; cbn [map read_loop];
    pose proof (read_frame_spec r b n frame tail _ Hr Hn Hmax Hpos Hf E) as Hs;
    destruct (read_frame r b) as [r' [f| |size]]; try done.
  - destruct Hs as (-> & Hr' & E' & Hm). rewrite Hd. exists [], b, r'. split_and!; try done. by constructor.
  - destruct Hs as (Hr' & E' & _). exfalso. eapply held_incomplete; [exact Hr'|exact Hn|exact Hf|].
    unfold stream in E'. cbn [concat] in E'. rewrite skipn_nil, !app_nil_r in E'. exact E'.
  - destruct Hs as (-> & Hr' & E' & Hm). rewrite Hd. exists (c :: chunks), b, r'. split_and!; try done. by constructor.
  - destruct Hs as (Hr' & E' & Hm & Hp). destruct c as [|c0 c]; [done|].
    destruct (IH (c0 :: c) r') as (ch & b2 & r2 & E2 & H2 & H3 & H4 & H5).
    + destruct Hr' as [_ Hr']. split; [rewrite Hp; cbn; lia|done].
    + by rewrite Hm.
    + rewrite <- E'. unfold stream. rewrite Hp. by cbn [skipn concat app].
    + exists ch, b2, r2. split_and!; try done. by rewrite H5.
Qed.

(** ** The bytes of answers *)

(** A Rust string without a zero byte. *)
Definition text_ok (s : list Z) : Prop := valid s = true /\ ~ In 0 s.

Definition response_ok (r : Response) : Prop :=
  Z.of_nat (length (serialize_response r)) < 2 ^ 32 /\
  match r with
  | RAction (ReplyCode code text) => length code = 3%nat /\ text_ok text
  | RModification (ChangeFrom a b) | RModification (AddRcpt a b) | RModification (AddHeader a b) => text_ok a /\ text_ok b
  | RModification (DeleteRcpt a) | RModification (Quarantine a) => text_ok a
  | RModification (InsertHeader i a b) | RModification (ChangeHeader i a b) => in_width 32 i /\ text_ok a /\ text_ok b
  | ROptions o => in_width 32 (version o) /\ in_width 32 (actions o) /\ in_width 32 (protocol o)
  | _ => True
  end.

Lemma read_nul_app s rest : text_ok s -> read_nul_terminated (s ++ NUL ++ rest) = Some (s, rest).
Proof.
  intros [Hv Hz]. unfold read_nul_terminated.
  assert (forall s buf, ~ In 0 s -> read_nul_loop (s ++ NUL ++ rest) buf = Some (buf ++ s, rest)) as H.
  { clear. induction s as [|b s IH]; intros buf H; cbn [app read_nul_loop NUL].
    - by rewrite app_nil_r.
    - destruct (Z.eqb_spec b 0) as [->|Hb]; [by destruct H; left|]. rewrite IH by (intros ?; apply H; by right).
      by rewrite <- app_assoc. }
  rewrite H by done. cbn [app]. by rewrite Hv.
Qed.

Lemma read_two_app a b : text_ok a -> text_ok b -> read_two (a ++ NUL ++ b ++ NUL) = Some (a, b).
Proof.
  intros Ha Hb. unfold read_two. rewrite read_nul_app by done.
  pose proof (read_nul_app b [] Hb) as E. rewrite app_nil_r in E. by rewrite E.
Qed.

Lemma read_u32_app v rest : in_width 32 v -> read_u32 (be_bytes 4 v ++ rest) = Some (v, rest).
Proof.
  intros Hv. rewrite <- (of_be_id 4 v Hv) at 2. cbn [be_bytes app read_u32]. done.
Qed.

Lemma read_three_app i a b : in_width 32 i -> text_ok a -> text_ok b ->
  read_three (be_bytes 4 i ++ a ++ NUL ++ b ++ NUL) = Some (i, a, b).
Proof. intros Hi Ha Hb. unfold read_three. rewrite read_u32_app by done. by rewrite read_two_app. Qed.

(** A frame: its length, its code and the rest. *)
Lemma build_frame code len rest : len = Z.of_nat (length rest) -> len + 1 < 2 ^ 32 ->
  build code len ++ rest = be_bytes 4 (len + 1) ++ (code :: rest) /\ in_width 32 (len + 1) /\ 0 < len + 1 /\
  length (code :: rest) = Z.to_nat (len + 1).
Proof.
  intros -> H. unfold build. rewrite <- app_assoc, wrap_small by (unfold in_width; lia). cbn [app length].
  split_and!; [done|unfold in_width; lia|lia|lia].
Qed.

Lemma len32_small l : Z.of_nat (length l) < 2 ^ 32 -> len32 l = Z.of_nat (length l).
Proof. intros H. unfold len32. rewrite wrap_small; [done|unfold in_width; lia]. Qed.

Lemma build_length code len : length (build code len) = 5%nat.
Proof. unfold build. by rewrite length_app, be_bytes_length. Qed.

Ltac frame_lens H :=
  rewrite ?length_app, ?build_length, ?be_bytes_length in H; cbn [length NUL] in H;
  rewrite ?len32_small by lia.

Lemma response_frame r : response_ok r -> exists n frame, serialize_response r = be_bytes 4 n ++ frame /\
  in_width 32 n /\ 0 < n /\ length frame = Z.to_nat n /\ deserialize frame = Some r.
Proof.
  assert (forall code len rest, len = Z.of_nat (length rest) -> len + 1 < 2 ^ 32 -> deserialize (code :: rest) = Some r ->
    exists n frame, build code len ++ rest = be_bytes 4 n ++ frame /\ in_width 32 n /\ 0 < n /\ length frame = Z.to_nat n /\
      deserialize frame = Some r) as Hf.
  { intros code len rest Hl Hs Hd. destruct (build_frame code len rest Hl Hs) as (E & Hw & Hp & Hn).
    exists (len + 1), (code :: rest). by rewrite E. }
  assert (forall code, deserialize [code] = Some r -> exists n frame, build code 0 = be_bytes 4 n ++ frame /\ in_width 32 n /\
      0 < n /\ length frame = Z.to_nat n /\ deserialize frame = Some r) as H0.
  { intros code Hd. rewrite <- (app_nil_r (build code 0)). by apply Hf. }
  intros [Hl Ho]. destruct r as [[]|[]| | | |o]; cbn [serialize_response serialize_action serialize_modification] in *;
    destruct_and?; try (by apply H0); frame_lens Hl; apply Hf;
    try (rewrite ?length_app, ?be_bytes_length; cbn [length NUL]; lia).
  all: cbn [deserialize List.find action_codes fst Z.eqb Pos.eqb].
  - destruct code as [|a [|b [|c [|]]]]; try discriminate. cbn [app].
    pose proof (read_nul_app text [] ltac:(done)) as E. rewrite app_nil_r in E. by rewrite E.
  - by rewrite read_two_app.
  - by rewrite read_two_app.
  - pose proof (read_nul_app recipient [] ltac:(done)) as E. rewrite app_nil_r in E. by rewrite E.
  - done.
  - by rewrite read_two_app.
  - by rewrite read_three_app.
  - by rewrite read_three_app.
  - pose proof (read_nul_app reason [] ltac:(done)) as E. rewrite app_nil_r in E. by rewrite E.
  - destruct o as [v a p]. cbn [version actions protocol] in *. rewrite !read_u32_app by done.
    pose proof (read_u32_app p [] ltac:(done)) as E. rewrite app_nil_r in E. by rewrite E.
Qed.

(** The client has these answers before it, cut into reads somehow. *)
Definition sees (c : MilterClient) (rs : list Response) : Prop :=
  Forall (fun r => response_ok r /\ Z.of_nat (length (serialize_response r)) <= max_frame_len (receiver c)) rs /\
  exists chunks, input c = map RBytes chunks /\ nonempty chunks /\ receiver_ok (receiver c) (buf c) /\
    stream (receiver c) (buf c) chunks = concat (map serialize_response rs).

Lemma read_sees c r rs : sees c (r :: rs) ->
  exists i b rc, read c = (with_input c i b rc, Ok r) /\ sees (with_input c i b rc) rs.
Proof.
  intros (Hr & chunks & Hi & Hn & Hok & E). apply Forall_cons_1 in Hr as [[Hr Hm] Hrs].
  destruct (response_frame r Hr) as (n & frame & Er & Hw & Hp & Hl & Hd).
  cbn [map concat] in E. rewrite Er, <- app_assoc in E.
  assert (n <= max_frame_len (receiver c)) as Hle by (rewrite Er, length_app, Hl in Hm; lia).
  destruct (read_loop_spec chunks (buf c) (receiver c) n frame _ r Hn Hok Hw Hle Hp Hl Hd E) as (ch & b & r' & E1 & H1 & H2 & H3 & H4).
  exists (map RBytes ch), b, r'. unfold read. rewrite Hi, E1. split; [done|]. split; [by cbn; rewrite H4|]. by exists ch.
Qed.

(** What the client reads, answer after answer. *)
Fixpoint read_all (n : nat) : M (list Response) :=
  match n with
  | O => ret []
  | S n => let* r := read in let* rs := read_all n in ret (r :: rs)
  end.

(** A client that has just connected. *)
Definition connected (reads : list Read) (max : Z) (v : MilterVersion) (actions protocol : Z) : MilterClient :=
  MkClient reads [] [] [] (with_max_frame_len max) v 0 actions protocol.

Lemma connected_sees reads max v fa fp rs :
  Forall response_ok rs -> nonempty reads -> concat reads = concat (map serialize_response rs) ->
  Forall (fun r => Z.of_nat (length (serialize_response r)) <= max) rs ->
  sees (connected (map RBytes reads) max v fa fp) rs.
Proof.
  intros Hr Hn E Hm. split; [by apply Forall_and|]. exists reads.
  split_and!; [done|done| |done]. split; [done|]. split; [cbn; lia|constructor].
Qed.

(** However the answers of a filter are cut into reads, the client reads
    these answers, in their order: framing, codes, strings and numbers are
    undone, and no byte is lost. *)
Theorem answers_any_reads (responses : list Response) (reads : list (list Z)) (max : Z) :
  Forall response_ok responses -> nonempty reads -> concat reads = concat (map serialize_response responses) ->
  Forall (fun r => Z.of_nat (length (serialize_response r)) <= max) responses ->
  snd (read_all (length responses) (connected (map RBytes reads) max V6 0 0)) = Ok responses.
Proof.
  intros Hr Hn E Hm. pose proof (connected_sees reads max V6 0 0 responses Hr Hn E Hm) as Hs. revert Hs.
  generalize (connected (map RBytes reads) max V6 0 0). clear. induction responses as [|r rs IH]; intros c Hs; [done|].
  destruct (read_sees c r rs Hs) as (i & b & rc & E & Hs'). cbn [length read_all]. unfold mbind. rewrite E.
  specialize (IH _ Hs'). destruct (read_all (length rs) _) as [c' [l|e]]; cbn [snd ret] in *; [|discriminate IH].
  by injection IH as ->.
Qed.

(** ** The conversation *)

Section Conversation.
Variable socket_takes : list Z -> list Z -> result unit Error.
Variable DAEMON_NAME : list Z.

(** What a filter with the options [o] is to be told, in order: nothing that
    it declined. *)
Definition unless (o no : Z) (l : list Command) : list Command := if Z.land o no =? no then [] else l.

Definition plan_envelope (o : Z) (t : Told) : list Command :=
  match sender t with
  | Some addr =>
      unless o SMFIP_NOMAIL
        [CMacro (MkMacros c#"M" (mac s#"{mail_addr}" addr ::
                   match login t with Some name => [mac s#"{auth_authen}" name] | None => [] end));
         MailFrom (angle addr) None] ++
      concat (map (fun addr => unless o SMFIP_NORCPT
        [CMacro (MkMacros c#"R" [mac s#"{rcpt_addr}" addr]); Rcpt (angle addr) None]) (recipients t))
  | None => []
  end.

Definition plan_headers (h : list (list Z * list Z)) : list Command :=
  map (fun h => Header (trim (str_or_default (fst h))) (trim (str_or_default (snd h)))) h.

Definition plan_message (v : MilterVersion) (o : Z) (t : Told) : list Command :=
  match message t with
  | Some (parsed_headers, raw_message) =>
      match v with V6 => unless o SMFIP_NODATA [Data] | V2 => [] end ++
      unless o SMFIP_NOHDRS (plan_headers parsed_headers ++ [EndOfHeader]) ++
      unless o SMFIP_NOBODY (map Body (chunks (length raw_message) MILTER_CHUNK_SIZE raw_message) ++ [EndOfBody])
  | None => []
  end.

Definition plan (v : MilterVersion) (o : Z) (t : Told) : list Command :=
  unless o SMFIP_NOCONNECT
    [CMacro (MkMacros c#"C" (connect_macros DAEMON_NAME t));
     Connect (default (helo_domain t) (client_ptr t)) (remote_port t) (remote_ip t)] ++
  unless o SMFIP_NOHELO
    [CMacro (MkMacros c#"H" [mac s#"{cipher}" (tls_cipher t); mac s#"{tls_version}" (tls_version t)]); Helo (helo_domain t)] ++
  plan_envelope o t ++ plan_message v o t ++ [Quit].

(** A filter may skip the rest of the body, and QUIT need not arrive. *)
Definition essential (c : Command) : bool := match c with Body _ | Quit => false | _ => true end.

(** A step says commands of [p], in order and framed; all the essential ones
    when it gives a value of [d]. *)
Definition says {E A} (o : Z) (v : MilterVersion) (m : Step E A) (p : list Command) (d : A -> Prop) : Prop :=
  forall c, options c = o -> mversion c = v ->
  options (fst (m c)) = o /\ mversion (fst (m c)) = v /\
  exists l, sent (fst (m c)) = sent c ++ l /\ output (fst (m c)) = output c ++ concat (map serialize l) /\ sublist l p /\
    (forall a, snd (m c) = Ok a -> d a -> List.filter essential l = List.filter essential p).

Definition any {A} (a : A) : Prop := True.

Lemma says_bind_post {E A B} o v (P : A -> Prop) (m : Step E A) (k : A -> Step E B) p q (d : A -> Prop) (d' : B -> Prop) :
  says o v m p d -> (forall c a, snd (m c) = Ok a -> P a) -> (forall a, P a -> says o v (k a) q d') ->
  (forall a c b, P a -> snd (k a c) = Ok b -> d' b -> d a) -> says o v (mbind m k) (p ++ q) d'.
Proof.
  intros Hm HP Hk Hd c Ho Hv. unfold mbind. destruct (Hm c Ho Hv) as (Ho' & Hv' & l & E1 & E2 & E3 & E4).
  pose proof (HP c) as Hp. destruct (m c) as [c' [a|e]]; cbn [fst snd] in *.
  - specialize (Hp a eq_refl).
    destruct (Hk a Hp c' Ho' Hv') as (Ho2 & Hv2 & l2 & F1 & F2 & F3 & F4). split_and!; [done..|].
    exists (l ++ l2). rewrite F1, F2, E1, E2, map_app, concat_app, !app_assoc. split_and!; [done..|by apply sublist_app|].
    intros b Hb Hd'. rewrite !List.filter_app. rewrite (F4 b Hb Hd'), (E4 a eq_refl); [done|]. by eapply Hd.
  - split_and!; [done..|]. exists l. split_and!; [done|done|by apply sublist_inserts_r|done].
Qed.

Lemma says_bind {E A B} o v (m : Step E A) (k : A -> Step E B) p q (d : A -> Prop) (d' : B -> Prop) :
  says o v m p d -> (forall a, says o v (k a) q d') ->
  (forall a c b, snd (k a c) = Ok b -> d' b -> d a) -> says o v (mbind m k) (p ++ q) d'.
Proof. intros Hm Hk Hd. apply (says_bind_post o v any m k p q d d'); by eauto. Qed.

(** A step that stops before its commands. *)
Lemma says_early {E A} o v (m : Step E A) p (d : A -> Prop) :
  (forall c, fst (m c) = c) -> (forall c a, snd (m c) = Ok a -> ~ d a) -> says o v m p d.
Proof.
  intros Hc Hd c Ho Hv. rewrite Hc. split_and!; [done..|]. exists []. cbn [map concat]. rewrite !app_nil_r.
  split_and!; [done..|apply sublist_nil_l|]. intros a Ha Hda. by destruct (Hd c a Ha).
Qed.

Lemma says_quiet {E A} o v (m : Step E A) d :
  (forall c, options (fst (m c)) = options c /\ mversion (fst (m c)) = mversion c /\ sent (fst (m c)) = sent c /\
             output (fst (m c)) = output c) -> says o v m [] d.
Proof.
  intros H c <- <-. destruct (H c) as (-> & -> & -> & ->). split_and!; [done..|]. exists [].
  cbn [map concat]. rewrite !app_nil_r. split_and!; [done..|constructor|done].
Qed.

Lemma says_weaken {E A} o v (m : Step E A) p (d d' : A -> Prop) : says o v m p d -> (forall a, d' a -> d a) -> says o v m p d'.
Proof.
  intros H Hd c Ho Hv. destruct (H c Ho Hv) as (H1 & H2 & l & H3 & H4 & H5 & H6). split_and!; [done..|].
  exists l. split_and!; [done..|]. intros a Ha ?. apply (H6 a Ha). auto.
Qed.

(** A step that says nothing first. *)
Lemma says_then {E A B} o v (m : Step E A) (k : A -> Step E B) q (d' : B -> Prop) :
  (forall d, says o v m [] d) -> (forall a, says o v (k a) q d') -> says o v (mbind m k) q d'.
Proof. intros Hm Hk. apply (says_bind o v m k [] q any); [apply Hm|done|done]. Qed.

Lemma says_ret {E A} o v (a : A) d : @says E A o v (ret a) [] d.
Proof. by apply says_quiet. Qed.
Lemma says_read o v d : says o v read [] d.
Proof. apply says_quiet. intros c. unfold read. by destruct (read_loop _ _ _) as [[[? ?] ?] ?]. Qed.
Lemma says_expect o v d : says o v expect_action [] d.
Proof. apply says_then; [apply says_read|]. intros r. by apply says_quiet. Qed.

Lemma says_write o v cmd d : says o v (write socket_takes cmd) [cmd] d.
Proof.
  intros c Ho Hv. unfold write. destruct (socket_takes _ _); cbn [fst snd options mversion sent output]; split_and!; try done.
  - exists [cmd]. cbn [map concat]. rewrite app_nil_r. by split_and!.
  - exists []. cbn [map concat]. rewrite !app_nil_r. split_and!; [done..|by constructor|done].
Qed.

Lemma says_option {E A} o v opt (k : bool -> Step E A) p d : says o v (k (Z.land o opt =? opt)) p d ->
  says o v (fun c => k (Z.land (options c) opt =? opt) c) p d.
Proof. intros H c <- Hv. by apply H. Qed.

Lemma says_has_option {A} o v opt (k : bool -> M A) p d : says o v (k (Z.land o opt =? opt)) p d ->
  says o v (mbind (has_option opt) k) p d.
Proof. intros H. exact (says_option o v opt k p d H). Qed.

Lemma says_unless {A} o v no (m : M A) (a : A) p d :
  says o v m p d -> says o v (mbind (has_option no) (fun b : bool => if b then ret a else m)) (unless o no p) d.
Proof.
  intros H. apply says_has_option. unfold unless. destruct (Z.land o no =? no); [apply says_ret|done].
Qed.

Lemma says_step o v no nr m cmd :
  says o v (step socket_takes no nr m cmd) (unless o no (match m with Some m => [CMacro m] | None => [] end ++ [cmd])) any.
Proof.
  apply says_unless. apply (says_bind _ _ _ _ _ _ any); [destruct m; [apply says_write|apply says_ret]| |done]. intros _.
  apply (says_bind _ _ _ _ [cmd] [] any); [apply says_write| |done]. intros _. apply says_has_option.
  destruct (Z.land o nr =? nr); [apply says_ret|apply says_expect].
Qed.

Definition passes (a : Action) : Prop := a = Accept \/ a = Continue.

Lemma header_loop_post h c a : snd (header_loop socket_takes h c) = Ok (Some a) -> ~ passes a.
Proof.
  revert c. induction h as [|[name value] h IH]; intros c; cbn [header_loop]; [done|].
  unfold mbind. destruct (write socket_takes _ c) as [c1 [?|?]]; [|done]. unfold has_option at 1.
  destruct (Z.land (options c1) SMFIP_NR_HDR =? SMFIP_NR_HDR); [apply IH|].
  destruct (read c1) as [c2 [r|e]]; [|done]. intros H.
  destruct r as [[]| | | | |]; try discriminate H; try (by apply IH in H); injection H as <-; by intros [?|?].
Qed.

Definition missing {A} (a : option A) : Prop := a = None.

Lemma says_header_loop o v h :
  says o v (header_loop socket_takes h) (map (fun h => Header (trim (fst h)) (trim (snd h))) h) missing.
Proof.
  induction h as [|[name value] h IH]; cbn [header_loop map fst snd]; [apply says_ret|].
  apply (says_bind _ _ _ _ [_] _ any); [apply says_write| |done]. intros _. apply says_has_option.
  destruct (Z.land o SMFIP_NR_HDR =? SMFIP_NR_HDR); [done|].
  apply says_then; [intros; apply says_read|]. intros r.
  destruct r as [[]| | | | |]; try done; apply says_early; try done; intros c a Ha Hm; unfold missing in Hm; cbn in Ha; congruence.
Qed.

Lemma says_headers o v h : says o v (headers socket_takes h)
  (unless o SMFIP_NOHDRS (map (fun h => Header (trim (fst h)) (trim (snd h))) h ++ [EndOfHeader])) passes.
Proof.
  apply says_unless.
  apply (says_bind_post _ _ (fun a => match a with Some a => ~ passes a | None => True end) _ _ _ _ missing);
    [apply says_header_loop|intros c [a|]; [apply header_loop_post|done]| |].
  - intros [a|] Ha; [apply says_early; [done|by intros c b [= <-]]|].
    apply (says_bind _ _ _ _ [EndOfHeader] [] any); [apply says_write| |done]. intros _. apply says_has_option.
    destruct (Z.land o SMFIP_NR_EOH =? SMFIP_NR_EOH); [apply says_ret|apply says_expect].
  - intros [a|] c b Ha; [|done]. by intros [= <-].
Qed.

Lemma says_body_loop o v l d : says o v (body_loop socket_takes l) (map Body l) d.
Proof.
  induction l as [|x l IH]; cbn [body_loop map]; [apply says_ret|].
  apply (says_bind _ _ _ _ [_] _ any); [apply says_write| |done]. intros _. apply says_has_option.
  destruct (Z.land o SMFIP_NR_BODY =? SMFIP_NR_BODY); [done|].
  apply says_then; [intros; apply says_read|]. intros r.
  assert (forall m : M (option Action), (forall c, fst (m c) = c) -> says o v m (map Body l) d) as Hs.
  { intros m Hm c Ho Hv. rewrite Hm. split_and!; [done..|]. exists []. cbn [map concat]. rewrite !app_nil_r.
    split_and!; [done..|apply sublist_nil_l|]. intros _ _ _. clear. induction l; done. }
  destruct r as [[]| | | | |]; try done; by apply Hs.
Qed.

Lemma body_loop_post l c a : snd (body_loop socket_takes l c) = Ok (Some a) -> ~ passes a.
Proof.
  revert c. induction l as [|x l IH]; intros c; cbn [body_loop]; [done|].
  unfold mbind. destruct (write socket_takes _ c) as [c1 [?|?]]; [|done]. unfold has_option at 1.
  destruct (Z.land (options c1) SMFIP_NR_BODY =? SMFIP_NR_BODY); [apply IH|].
  destruct (read c1) as [c2 [r|e]]; [|done]. intros H.
  destruct r as [[]| | | | |]; try discriminate H; try (by apply IH in H); injection H as <-; by intros [?|?].
Qed.

Lemma says_collect o v n ms d : says o v (collect n ms) [] d.
Proof.
  revert ms. induction n as [|n IH]; intros ms; cbn [collect]; [by apply says_quiet|].
  apply says_then; [intros; apply says_read|]. intros []; try apply IH; by apply says_quiet.
Qed.

Lemma says_body o v b : says o v (body socket_takes b)
  (unless o SMFIP_NOBODY (map Body (chunks (length b) MILTER_CHUNK_SIZE b) ++ [EndOfBody])) (fun a => passes (fst a)).
Proof.
  apply says_unless.
  apply (says_bind_post _ _ (fun a => match a with Some a => ~ passes a | None => True end) _ _ _ _ any);
    [apply says_body_loop|intros c [a|]; [apply body_loop_post|done]| |done].
  intros [a|] Ha; [apply says_early; [done|by intros c x [= <-]]|].
  apply (says_bind _ _ _ _ [EndOfBody] [] any); [apply says_write| |done]. intros _ c. apply says_collect.
Qed.

Lemma says_lift {A} o v (m : M A) p d : says o v m p d -> says o v (lift m) p d.
Proof.
  intros H c Ho Hv. unfold lift. destruct (H c Ho Hv) as (H1 & H2 & l & H3 & H4 & H5 & H6).
  destruct (m c) as [c' [a|e]]; cbn [fst snd] in *; split_and!; try done; exists l; split_and!; try done.
  intros x [= <-]. by apply H6.
Qed.

Lemma assert_passes a : assert_continue a = Ok tt -> passes a.
Proof. unfold passes. destruct a; cbn; intros [=]; auto. Qed.

Lemma says_asserted o v (m : M Action) p : says o v m p passes -> says o v (asserted m) p any.
Proof.
  intros H. rewrite <- (app_nil_r p). apply (says_bind _ _ _ _ p [] passes); [by apply says_lift| |].
  - intros a. by apply says_quiet.
  - intros a c [] Hb _. cbn [snd] in Hb. by apply assert_passes.
Qed.

Lemma says_each {A} o v (f : A -> R unit) g (l : list A) : (forall x, says o v (f x) (g x) any) ->
  says o v (each f l) (concat (map g l)) any.
Proof.
  intros H. induction l as [|x l IH]; [apply says_ret|]. cbn [each map concat].
  by apply (says_bind _ _ _ _ _ _ any).
Qed.

Lemma says_quit o v d : says o v (quit socket_takes) [Quit] d.
Proof.
  intros c Ho Hv. unfold quit. destruct (says_write o v Quit any c Ho Hv) as (H1 & H2 & l & H3 & H4 & H5 & _).
  cbn [fst snd]. split_and!; [done..|]. exists l. split_and!; [done..|]. intros _ _ _.
  inversion H5 as [|? ? ? H|? ? ? H]; subst; inversion H; subst; done.
Qed.

Lemma says_plan o v t : says o v (mbind (asserted (connection socket_takes (default (helo_domain t) (client_ptr t)) (remote_ip t) (remote_port t) (connect_macros DAEMON_NAME t))) (fun _ =>
    mbind (asserted (helo socket_takes (helo_domain t) [mac s#"{cipher}" (tls_cipher t); mac s#"{tls_version}" (tls_version t)])) (fun _ =>
    mbind (run_envelope socket_takes t) (fun _ => run_message socket_takes t)))) (plan v o t) any.
Proof.
  assert (forall no nr m cmd, says o v (asserted (step socket_takes no nr (Some m) cmd)) (unless o no [CMacro m; cmd]) any) as Hs.
  { intros. apply says_asserted. eapply says_weaken; [apply says_step|done]. }
  unfold plan. apply (says_bind _ _ _ _ _ _ any); [apply Hs| |done]. intros _.
  apply (says_bind _ _ _ _ _ _ any); [apply Hs| |done]. intros _.
  apply (says_bind _ _ _ _ _ _ any); [| |done].
  - unfold run_envelope, plan_envelope. destruct (sender t); [|apply says_ret].
    apply (says_bind _ _ _ _ _ _ any); [apply Hs| |done]. intros _. apply says_each. intros x. apply Hs.
  - intros _. unfold run_message, plan_message. destruct (message t) as [[ph raw]|].
    + rewrite <- !app_assoc. apply (says_bind _ _ _ _ _ _ any); [apply says_asserted| |done].
      { intros c Ho Hv. unfold data. rewrite Hv. destruct v; [by apply says_ret|].
        by apply (says_weaken _ _ _ _ any passes (says_step o V6 SMFIP_NODATA SMFIP_NR_DATA None Data)). }
      intros _. apply (says_bind _ _ _ _ _ _ any); [apply says_asserted| |done].
      { unfold plan_headers.
        replace (map (fun h => Header (trim (str_or_default (fst h))) (trim (str_or_default (snd h)))) ph) with
          (map (fun h => Header (trim (fst h)) (trim (snd h))) (map (fun h => (str_or_default (fst h), str_or_default (snd h))) ph))
          by by rewrite map_map.
        apply says_headers. }
      intros _. apply (says_bind _ _ _ _ _ _ (fun a => passes (fst a))); [apply says_lift, says_body| |].
      * intros [action ms]. apply says_then; [intros; by apply says_quiet|]. intros _.
        apply (says_bind _ _ _ _ [Quit] [] any); [apply says_quit| |done]. intros _. apply says_ret.
      * intros [action ms] c b. cbn [fst]. unfold mbind at 1. destruct (assert_continue action) as [[]|] eqn:E; [|done].
        intros _ _. by apply assert_passes.
    + cbn [app]. apply (says_bind _ _ _ _ [Quit] [] any); [apply says_quit| |done]. intros _. apply says_ret.
Qed.

End Conversation.

(** ** The fuel of the modifications is enough *)

Definition receiver_inv (r : Receiver) (b : list Z) : Prop :=
  (packet_pos r <= length b)%nat /\
  match rstate r with SLen h => (length h < 4)%nat | SFrame h n => (length h < Z.to_nat n)%nat end.

(** Bytes that have come or will come, and are not taken. *)
Definition unread (c : MilterClient) : nat :=
  (length (buf c) - packet_pos (receiver c)) +
  sum_list_with (fun r => match r with RBytes b => length b | RError _ => 0%nat end) (input c).

Lemma read_frame_less r b : receiver_inv r b ->
  match read_frame r b with
  | (r', Frame _) => receiver_inv r' b /\ (length b - packet_pos r' < length b - packet_pos r)%nat
  | (r', Incomplete) => (forall b', receiver_inv r' b') /\ packet_pos r' = 0%nat
  | (_, TooLarge _) => True
  end.
Proof.
  intros [Hp Hs]. unfold read_frame. destruct b as [|b0 b'].
  { destruct r as [pos st max]. cbn in *. assert (pos = 0%nat) as -> by lia. split; [|done]. intros b'. split; [cbn; lia|done]. }
  set (b := b0 :: b') in *. clearbody b. clear b0 b'. destruct r as [pos st max]. cbn [packet_pos rstate max_frame_len] in *.
  destruct st as [h|h m].
  - rewrite read_len_spec by done. cbn zeta. rewrite length_firstn, length_skipn.
    destruct (Nat.leb_spec (4 - length h) (length b - pos)) as [H|H].
    + destruct (of_be_bytes _ <=? max); [|done]. rewrite Nat.min_l by done. rewrite get_range_take, length_skipn by lia.
      destruct (Nat.leb_spec (Z.to_nat (of_be_bytes (h ++ firstn (4 - length h) (skipn pos b)))) (length b - (pos + (4 - length h)))) as [H'|H'].
      * unfold receiver_inv. cbn. split; [split|]; lia.
      * rewrite get_from_skip by lia. split; [|done]. intros b'. split; [cbn; lia|]. cbn. rewrite length_skipn. lia.
    + split; [|done]. intros b'. split; [cbn; lia|]. cbn. rewrite length_app, length_firstn, length_skipn. lia.
  - rewrite get_range_take, length_skipn by done. destruct (Nat.leb_spec (Z.to_nat m - length h) (length b - pos)) as [H|H].
    + unfold receiver_inv. cbn. split; [split|]; lia.
    + rewrite get_from_skip by done. split; [|done]. intros b'. split; [cbn; lia|]. cbn. rewrite length_app, length_skipn. lia.
Qed.

Lemma read_less c r : receiver_inv (receiver c) (buf c) -> snd (read c) = Ok r ->
  receiver_inv (receiver (fst (read c))) (buf (fst (read c))) /\ (unread (fst (read c)) < unread c)%nat.
Proof.
  destruct c as [reads out se b rc v o fa fp]. unfold read, unread. cbn [input buf receiver]. revert b rc.
  induction reads as [|rd reads IH]; intros b rc Hi; cbn [read_loop]; pose proof (read_frame_less rc b Hi) as Hl;
    destruct (read_frame rc b) as [rc' [f| |size]]; cbn; try done.
  - intros _. destruct Hl as [? ?]. split; [done|]. lia.
  - intros _. destruct Hl as [? ?]. split; [done|]. lia.
  - destruct Hl as [Hl Hp]. destruct rd as [[|x bytes]|e]; [done| |done].
    intros Hr. specialize (IH (x :: bytes) rc' (Hl _)).
    destruct (read_loop reads (x :: bytes) rc') as [[[i b2] r2] res] eqn:E. cbn [snd fst] in *. destruct (IH Hr) as [H1 H2].
    split; [done|]. cbn [input buf receiver with_input sum_list_with] in *. rewrite Hp in H2. cbn [length] in *. lia.
Qed.

Lemma collect_enough n m ms c : receiver_inv (receiver c) (buf c) -> (unread c < n)%nat -> (unread c < m)%nat ->
  collect n ms c = collect m ms c.
Proof.
  revert m ms c. induction n as [|n IH]; intros m ms c Hi Hn Hm; [lia|]. destruct m as [|m]; [lia|].
  cbn [collect]. unfold mbind. pose proof (read_less c) as Hl. destruct (read c) as [c' [r|e]]; [|done].
  cbn [fst snd] in Hl. destruct (Hl r Hi eq_refl) as [Hi' Hu]. destruct r; try done; apply IH; try done; lia.
Qed.

Lemma unread_pending c : (unread c <= pending c)%nat.
Proof. unfold unread, pending. lia. Qed.

(** ** A filter that accepts *)

Section Accepting.
Variable socket_takes : list Z -> list Z -> result unit Error.
Hypothesis socket_open : forall a b, socket_takes a b = Ok tt.
Variable DAEMON_NAME : list Z.

(** How many answers a filter with the options [o] is to give before the
    end of the body. *)
Definition replies_step (o no nr : Z) : nat :=
  if Z.land o no =? no then 0 else if Z.land o nr =? nr then 0 else 1.
Definition replies_headers (o : Z) (n : nat) : nat :=
  if Z.land o SMFIP_NOHDRS =? SMFIP_NOHDRS then 0
  else (if Z.land o SMFIP_NR_HDR =? SMFIP_NR_HDR then 0 else n) + (if Z.land o SMFIP_NR_EOH =? SMFIP_NR_EOH then 0 else 1).
Definition replies_envelope (o : Z) (t : Told) : nat :=
  match sender t with
  | Some _ => replies_step o SMFIP_NOMAIL SMFIP_NR_MAIL + length (recipients t) * replies_step o SMFIP_NORCPT SMFIP_NR_RCPT
  | None => 0
  end.
Definition replies (v : MilterVersion) (o : Z) (t : Told) (ph : list (list Z * list Z)) (raw : list Z) : nat :=
  replies_step o SMFIP_NOCONNECT SMFIP_NR_CONN + (replies_step o SMFIP_NOHELO SMFIP_NR_HELO + (replies_envelope o t +
  (match v with V6 => replies_step o SMFIP_NODATA SMFIP_NR_DATA | V2 => 0 end + (replies_headers o (length ph) +
  (if Z.land o SMFIP_NR_BODY =? SMFIP_NR_BODY then 0 else length (chunks (length raw) MILTER_CHUNK_SIZE raw)))))).

Definition continues (k : nat) (rs : list Response) : list Response := repeat (RAction Continue) k ++ rs.

Lemma continues_app j k rs : continues (j + k) rs = continues j (continues k rs).
Proof. unfold continues. by rewrite repeat_app, <- app_assoc. Qed.

(** A step takes [k] answers that let it go on, and gives a value of [Q]. *)
Definition hears {E A} (o : Z) (v : MilterVersion) (m : Step E A) (k : nat) (Q : A -> Prop) : Prop :=
  forall c rs, options c = o -> mversion c = v -> sees c (continues k rs) ->
  exists c' a, m c = (c', Ok a) /\ Q a /\ options c' = o /\ mversion c' = v /\ sees c' rs.

Lemma hears_bind {E A B} o v (m : Step E A) (k : A -> Step E B) i j (Q : A -> Prop) (Q' : B -> Prop) :
  hears o v m i Q -> (forall a, Q a -> hears o v (k a) j Q') -> hears o v (mbind m k) (i + j) Q'.
Proof.
  intros Hm Hk c rs Ho Hv Hs. rewrite continues_app in Hs. destruct (Hm c _ Ho Hv Hs) as (c' & a & E1 & Ha & Ho' & Hv' & Hs').
  destruct (Hk a Ha c' rs Ho' Hv' Hs') as (c2 & b & E2 & ?). exists c2, b. unfold mbind. by rewrite E1.
Qed.

Lemma hears_ret {E A} o v (a : A) (Q : A -> Prop) : Q a -> @hears E A o v (ret a) 0 Q.
Proof. intros Ha c rs Ho Hv Hs. by exists c, a. Qed.

Lemma hears_has_option {A} o v opt (k : bool -> M A) n Q : hears o v (k (Z.land o opt =? opt)) n Q ->
  hears o v (mbind (has_option opt) k) n Q.
Proof. intros H c rs <- Hv Hs. by apply H. Qed.

Lemma hears_write o v cmd : hears o v (write socket_takes cmd) 0 any.
Proof.
  intros c rs Ho Hv Hs. unfold write. rewrite socket_open. eexists _, tt. by split_and!.
Qed.

Lemma hears_read {A} o v (k : Response -> M A) n Q :
  hears o v (k (RAction Continue)) n Q -> hears o v (mbind read k) (S n) Q.
Proof.
  intros H c rs Ho Hv Hs. destruct (read_sees c _ _ Hs) as (i & b & rc & E & Hs').
  destruct (H (with_input c i b rc) rs Ho Hv Hs') as (c' & a & ?). exists c', a. unfold mbind. by rewrite E.
Qed.

Lemma hears_step o v no nr m cmd : hears o v (step socket_takes no nr m cmd) (replies_step o no nr) passes.
Proof.
  unfold step, replies_step. apply hears_has_option. destruct (Z.land o no =? no); [apply hears_ret; by left|].
  apply (hears_bind _ _ _ _ 0 _ any); [destruct m; [apply hears_write|by apply hears_ret]|]. intros _ _.
  apply (hears_bind _ _ _ _ 0 _ any); [apply hears_write|]. intros _ _. apply hears_has_option.
  destruct (Z.land o nr =? nr); [apply hears_ret; by left|]. apply hears_read.
  intros c rs ? ? ?. exists c, Continue. cbn. split_and!; try done. by right.
Qed.

Lemma hears_header_loop o v h : hears o v (header_loop socket_takes h)
  (if Z.land o SMFIP_NR_HDR =? SMFIP_NR_HDR then 0 else length h) missing.
Proof.
  induction h as [|[name value] h IH]; cbn [header_loop length]; [case_if; by apply hears_ret|].
  apply (hears_bind _ _ _ _ 0 _ any); [apply hears_write|]. intros _ _. apply hears_has_option.
  destruct (Z.land o SMFIP_NR_HDR =? SMFIP_NR_HDR); [done|]. by apply hears_read.
Qed.

Lemma hears_headers o v h : hears o v (headers socket_takes h) (replies_headers o (length h)) passes.
Proof.
  unfold headers, replies_headers. apply hears_has_option.
  destruct (Z.land o SMFIP_NOHDRS =? SMFIP_NOHDRS); [apply hears_ret; by left|].
  apply (hears_bind _ _ _ _ _ _ missing); [apply hears_header_loop|]. intros a ->.
  apply (hears_bind _ _ _ _ 0 _ any); [apply hears_write|]. intros _ _. apply hears_has_option.
  destruct (Z.land o SMFIP_NR_EOH =? SMFIP_NR_EOH); [apply hears_ret; by left|]. apply hears_read.
  intros c rs ? ? ?. exists c, Continue. cbn. split_and!; try done. by right.
Qed.

Lemma hears_body_loop o v l : hears o v (body_loop socket_takes l)
  (if Z.land o SMFIP_NR_BODY =? SMFIP_NR_BODY then 0 else length l) missing.
Proof.
  induction l as [|x l IH]; cbn [body_loop length]; [case_if; by apply hears_ret|].
  apply (hears_bind _ _ _ _ 0 _ any); [apply hears_write|]. intros _ _. apply hears_has_option.
  destruct (Z.land o SMFIP_NR_BODY =? SMFIP_NR_BODY); [done|]. by apply hears_read.
Qed.

Lemma hears_asserted o v (m : M Action) k : hears o v m k passes -> hears o v (asserted m) k any.
Proof.
  intros H c rs Ho Hv Hs. destruct (H c rs Ho Hv Hs) as (c' & a & E & Ha & ?). exists c', tt.
  unfold asserted, mbind, lift. rewrite E. split_and!; try apply H0; [|done]. by destruct Ha as [-> | ->].
Qed.

Lemma hears_each {A} o v (f : A -> R unit) k (l : list A) : (forall x, hears o v (f x) k any) ->
  hears o v (each f l) (length l * k) any.
Proof.
  intros H. induction l as [|x l IH]; [by apply hears_ret|]. cbn [each length Nat.mul].
  by apply (hears_bind _ _ _ _ _ _ any).
Qed.

Lemma sees_unread c rs : sees c rs -> receiver_inv (receiver c) (buf c) /\ (length rs <= unread c)%nat.
Proof.
  intros (Hr & chunks & Hi & Hn & Hok & E). split.
  { destruct Hok as [Hp Hs]. split; [done|]. destruct (rstate (receiver c)); [apply Hs|apply Hs]. }
  assert (unread c = length (skipn (packet_pos (receiver c)) (buf c) ++ concat chunks)) as ->.
  { unfold unread. rewrite Hi, length_app, length_skipn. f_equal. clear. induction chunks as [|x l IH]; [done|].
    cbn [map sum_list_with concat]. rewrite length_app. by rewrite IH. }
  set (u := skipn _ _ ++ _) in *. unfold stream in E. fold u in E.
  assert (forall rs, Forall (fun r => response_ok r /\ Z.of_nat (length (serialize_response r)) <= max_frame_len (receiver c)) rs ->
    (length rs <= length (concat (map serialize_response rs)))%nat) as Hlen.
  { clear. induction 1 as [|r rs [Hr _] _ IH]; [done|]. cbn [map concat length]. rewrite length_app.
    destruct (response_frame r Hr) as (n & f & -> & _). rewrite length_app, be_bytes_length. lia. }
  destruct rs as [|r rs]; [cbn; lia|]. apply Forall_cons_1 in Hr as [[Hr Hm] Hrs].
  destruct (response_frame r Hr) as (n & frame & Er & Hw & Hp & Hl & Hd). cbn [map concat] in E. rewrite Er, <- app_assoc in E.
  specialize (Hlen rs Hrs). apply (f_equal length) in E as El. rewrite !length_app, be_bytes_length in El.
  assert (length (held (receiver c)) < 4 + length frame)%nat; [|cbn [length]; lia].
  destruct Hok as [_ Hs]. unfold held in *. destruct (rstate (receiver c)) as [h|h m]; [lia|].
  rewrite <- app_assoc in E. apply app_inj_1 in E as [E1 E2]; [|by rewrite !be_bytes_length].
  destruct Hs as (Hm1 & _ & Hs). assert (m = n) as -> by (by rewrite <- (of_be_id 4 m), <- (of_be_id 4 n), E1).
  rewrite length_app, be_bytes_length. lia.
Qed.

Lemma collect_sees ms acc n c : sees c (map RModification ms ++ [RAction Accept]) -> (length ms < n)%nat ->
  exists c', collect n acc c = (c', Ok (Accept, acc ++ ms)).
Proof.
  revert acc n c. induction ms as [|m ms IH]; intros acc n c Hs Hn; (destruct n as [|n]; [cbn in Hn; lia|]);
    cbn [map app] in Hs; destruct (read_sees c _ _ Hs) as (i & b & rc & E & Hs'); cbn [collect]; unfold mbind; rewrite E.
  - rewrite app_nil_r. eauto.
  - destruct (IH (acc ++ [m]) n _ Hs') as [c' E']; [cbn in Hn; lia|]. rewrite E', <- app_assoc. by exists c'.
Qed.

(** The step gives [b] before these answers. *)
Definition ends {E B} (o : Z) (v : MilterVersion) (m : Step E B) (rs : list Response) (b : B) : Prop :=
  forall c, options c = o -> mversion c = v -> sees c rs -> snd (m c) = Ok b.

Lemma ends_bind {E A B} o v (m : Step E A) (k : A -> Step E B) i rs (Q : A -> Prop) b :
  hears o v m i Q -> (forall a, Q a -> ends o v (k a) rs b) -> ends o v (mbind m k) (continues i rs) b.
Proof.
  intros Hm Hk c Ho Hv Hs. destruct (Hm c rs Ho Hv Hs) as (c' & a & E1 & Ha & Ho' & Hv' & Hs').
  unfold mbind. rewrite E1. by apply Hk.
Qed.

Lemma ends_body o v raw ms (k : Action * list Modification -> R (list Modification)) :
  Z.land o SMFIP_NOBODY <> SMFIP_NOBODY -> (forall c, snd (k (Accept, ms) c) = Ok ms) ->
  ends o v (mbind (lift (body socket_takes raw)) k)
    (continues (if Z.land o SMFIP_NR_BODY =? SMFIP_NR_BODY then 0 else length (chunks (length raw) MILTER_CHUNK_SIZE raw))
      (map RModification ms ++ [RAction Accept])) ms.
Proof.
  intros Hb Hk c Ho Hv Hs. unfold mbind at 1, lift, body, mbind at 1, has_option at 1. rewrite Ho.
  rewrite (proj2 (Z.eqb_neq _ _)) by done.
  destruct (hears_body_loop o v (chunks (length raw) MILTER_CHUNK_SIZE raw) c _ Ho Hv Hs) as (c' & a & E1 & -> & Ho' & Hv' & Hs').
  unfold mbind. rewrite E1. destruct (hears_write o v EndOfBody c' _ Ho' Hv' Hs') as (c2 & [] & E2 & _ & _ & _ & Hs2). rewrite E2.
  destruct (sees_unread c2 _ Hs2) as [_ Hu]. rewrite length_app, length_map in Hu. cbn [length] in Hu.
  pose proof (unread_pending c2). destruct (collect_sees ms [] (S (pending c2)) c2 Hs2 ltac:(lia)) as [c3 E3]. rewrite E3. apply Hk.
Qed.

(** A filter that answers the negotiation, lets every command pass that
    it is to answer, and at the end of the body gives its modifications and
    accepts, gets all of them applied: the client returns exactly these
    modifications, in order, whatever the options, the message and the
    cutting of the answers into reads. *)
Theorem accepting_filter (t : Told) (ph : list (list Z * list Z)) (raw : list Z) (opt : Options) (ms : list Modification)
    (reads : list (list Z)) (max : Z) (v : MilterVersion) (fa fp : Z) :
  let answers := ROptions opt :: continues (replies v (protocol opt) t ph raw) (map RModification ms ++ [RAction Accept]) in
  message t = Some (ph, raw) -> Z.land (protocol opt) SMFIP_NOBODY <> SMFIP_NOBODY ->
  Forall response_ok answers -> Forall (fun r => Z.of_nat (length (serialize_response r)) <= max) answers ->
  nonempty reads -> concat reads = concat (map serialize_response answers) ->
  snd (run socket_takes DAEMON_NAME t (connected (map RBytes reads) max v fa fp)) = Ok ms.
Proof.
  intros answers Ht Hbody Hok Hmax Hne E.
  pose proof (connected_sees reads max v fa fp answers Hok Hne E Hmax) as Hs. unfold answers in Hs. set (o := protocol opt) in *.
  unfold run, mbind at 1, lift at 1, init, mbind at 1. unfold write at 1. rewrite socket_open. set (c1 := MkClient _ _ _ _ _ _ _ _ _).
  assert (sees c1 (ROptions opt :: continues (replies v o t ph raw) (map RModification ms ++ [RAction Accept]))) as Hs1 by exact Hs.
  assert (mversion c1 = v) as Hv by done. clearbody c1. clear Hs E Hok Hmax answers.
  destruct (read_sees c1 _ _ Hs1) as (i & b & rc & E1 & Hs2). unfold mbind at 1. rewrite E1. cbn [with_options with_input mbind ret].
  set (c2 := MkClient _ _ _ _ _ _ _ _ _).
  assert (sees c2 (continues (replies v o t ph raw) (map RModification ms ++ [RAction Accept]))) as Hs3 by exact Hs2.
  assert (options c2 = o /\ mversion c2 = v) as [Ho2 Hv2] by done. clearbody c2. clear c1 Hs1 Hs2 E1 Hv i b rc.
  revert c2 Ho2 Hv2 Hs3. change (ends o v (let* _ := asserted (connection socket_takes (default (helo_domain t) (client_ptr t)) (remote_ip t)
      (remote_port t) (connect_macros DAEMON_NAME t)) in
    let* _ := asserted (helo socket_takes (helo_domain t) [mac s#"{cipher}" (tls_cipher t); mac s#"{tls_version}" (tls_version t)]) in
    let* _ := run_envelope socket_takes t in run_message socket_takes t)
    (continues (replies v o t ph raw) (map RModification ms ++ [RAction Accept])) ms).
  assert (forall no nr m cmd, hears o v (asserted (step socket_takes no nr m cmd)) (replies_step o no nr) any) as Hstep
    by (intros; apply hears_asserted, hears_step).
  unfold replies. rewrite !continues_app.
  apply (ends_bind _ _ _ _ _ _ any); [apply Hstep|intros _ _]. apply (ends_bind _ _ _ _ _ _ any); [apply Hstep|intros _ _].
  apply (ends_bind _ _ _ _ _ _ any).
  { unfold run_envelope, replies_envelope. destruct (sender t); [|by apply hears_ret].
    apply (hears_bind _ _ _ _ _ _ any); [apply Hstep|]. intros _ _. apply hears_each. intros x. apply Hstep. }
  intros _ _. unfold run_message. rewrite Ht. apply (ends_bind _ _ _ _ _ _ any).
  { apply hears_asserted. intros c rs Ho Hv Hs. unfold data. rewrite Hv. destruct v; [by apply hears_ret; [left|..]|by apply (hears_step o V6)]. }
  intros _ _. apply (ends_bind _ _ _ _ _ _ any).
  { rewrite <- (length_map (fun h => (str_or_default (fst h), str_or_default (snd h))) ph). apply hears_asserted, hears_headers. }
  intros _ _. by apply ends_body.
Qed.
End Accepting.

(** ** Examples *)

Module Demo.
Definition open_socket (_ _ : list Z) : result unit Error := Ok tt.
Definition told : Told := MkTold None s#"client.org" (IpV4 167772161) 4000 s#"mx.org" s#"" s#"" (Some s#"a@b.c") None
  [s#"d@e.f"] (Some ([(s#"Subject", s#" hi")], s#"Subject: hi" ++ [13; 10; 13; 10] ++ s#"body")).

(** The filter answers to the connection and RCPT only, and to the body. *)
Definition opt : Options := MkOptions 6 0 (Z.lor SMFIP_NOHELO (Z.lor SMFIP_NR_MAIL (Z.lor SMFIP_NOHDRS SMFIP_NR_DATA))).
Definition answers : list Response :=
  [ROptions opt; RAction Continue; RAction Continue; RAction Continue; RModification (AddHeader s#"X-Spam" s#"no"); RAction Accept].
(** Its bytes come one at a time. *)
Definition reads : list (list Z) := map (fun b => [b]) (concat (map serialize_response answers)).

Ltac solve_ok := repeat (apply List.Forall_cons; [try (split; [by vm_compute|]); try by vm_compute|]); try apply List.Forall_nil.

Lemma answers_ok : Forall response_ok answers.
Proof.
  solve_ok. split; (split; [by vm_compute|cbn; lia]).
Qed.

Lemma answers_any_reads_witness :
  snd (read_all 6 (connected (map RBytes reads) 100 V6 0 0)) = Ok answers.
Proof.
  apply (answers_any_reads answers reads 100).
  - apply answers_ok.
  - by repeat (apply List.Forall_cons; [discriminate|]).
  - by vm_compute.
  - solve_ok.
Defined.

Lemma accepting_filter_witness :
  snd (run open_socket s#"mail" told (connected (map RBytes reads) 100 V6 0 0)) = Ok [AddHeader s#"X-Spam" s#"no"].
Proof.
  apply (accepting_filter open_socket (fun _ _ => eq_refl) s#"mail" told [(s#"Subject", s#" hi")]
    (s#"Subject: hi" ++ [13; 10; 13; 10] ++ s#"body") opt [AddHeader s#"X-Spam" s#"no"] reads 100 V6 0 0).
  - done.
  - by vm_compute.
  - exact answers_ok.
  - solve_ok.
  - by repeat (apply List.Forall_cons; [discriminate|]).
  - by vm_compute.
Defined.

Definition told_again (o : Z) (l : list Response) : MilterClient * result (list Modification) Rejection :=
  run open_socket s#"mail" told
    (connected [RBytes (concat (map serialize_response (ROptions (MkOptions 6 0 o) :: l)))] 100 V6 0 0).

(** A filter that asks not to be sent the end of the headers is sent it. *)
Lemma noeoh_ignored : exists c,
  told_again (Z.lor SMFIP_NOEOH (Z.lor SMFIP_NR_CONN (Z.lor SMFIP_NR_HELO (Z.lor SMFIP_NR_MAIL (Z.lor SMFIP_NR_RCPT (Z.lor SMFIP_NR_HDR
    (Z.lor SMFIP_NR_EOH (Z.lor SMFIP_NR_DATA SMFIP_NR_BODY)))))))) [RAction Accept] = (c, Ok []) /\ In EndOfHeader (sent c).
Proof. eexists. split; [by vm_compute|]. vm_compute. tauto. Qed.

(** PROGRESS, which keeps the connection alive, ends it outside the body. *)
Lemma progress_refused : snd (told_again 0 [Progress; RAction Continue]) = Err (ByError (Unexpected Progress)).
Proof. by vm_compute. Qed.

(** Two parameters of MAIL make the declared length one too short. *)
Lemma two_parameters_misframed :
  let b := serialize (MailFrom s#"<a@b>" (Some [s#"SIZE=1"; s#"BODY=7BIT"])) in
  of_be_bytes (firstn 4 b) + 1 = Z.of_nat (length (skipn 4 b)).
Proof. by vm_compute. Qed.
End Demo.
