(* ===== verification/SmtpData.v ===== *)
(** * What an SMTP session knows, and how filters change it
      ([crates/smtp/src/core/mod.rs, scripts/envelope.rs, inbound/milter/message.rs, inbound/hooks/message.rs])

    The data of a session, the changes that scripts make to the envelope, and
    those that milters and hooks ask for: of the envelope, the headers and
    the body of a message. *)

From S2P Require Import Prelude Decimals Utf8 Text Milter.

(** What other crates do: the flags and parameter parsers of smtp-proto, the
    Unicode tables and IDNA. *)
Class Crates := {
  MAIL_BY_NOTIFY : Z; MAIL_BY_RETURN : Z; MAIL_BY_TRACE : Z; MAIL_RET_FULL : Z; MAIL_RET_HDRS : Z; MAIL_REQUIRETLS : Z;
  RCPT_NOTIFY_SUCCESS : Z; RCPT_NOTIFY_FAILURE : Z; RCPT_NOTIFY_DELAY : Z; RCPT_NOTIFY_NEVER : Z;
  mail_from_parameters : list Z -> option (Z * option (list Z));   (* the flags and the envelope id *)
  rcpt_to_parameters : list Z -> option (Z * option (list Z));     (* the flags and the original recipient *)
  to_lowercase : list Z -> list Z;
  char_to_lowercase : Z -> list Z;
  domain_to_ascii : list Z -> option (list Z)
}.

(** The flags as the crate has them, for the examples. *)
Definition demo_crates : Crates := {|
  MAIL_BY_NOTIFY := 2 ^ 5; MAIL_BY_RETURN := 2 ^ 6; MAIL_BY_TRACE := 2 ^ 7; MAIL_RET_FULL := 2 ^ 3; MAIL_RET_HDRS := 2 ^ 4;
  MAIL_REQUIRETLS := 2 ^ 8; RCPT_NOTIFY_SUCCESS := 1; RCPT_NOTIFY_FAILURE := 2; RCPT_NOTIFY_DELAY := 4; RCPT_NOTIFY_NEVER := 8;
  mail_from_parameters _ := None; rcpt_to_parameters _ := None; to_lowercase := map to_ascii_lowercase;
  char_to_lowercase c := [to_ascii_lowercase c]; domain_to_ascii _ := None |}.

Section Data.
Context {Cr : Crates}.

(** ** Addresses ([crates/utils/src/lib.rs]) *)

Definition is_ascii (s : list Z) : bool := forallb (fun c => c <? 128) s.

(* [crates/utils/src/lib.rs:157-186] to_lowercase_address *)
Definition to_lowercase_address (address : list Z) (lower_local : bool) : list Z :=
  match rsplit_once s#"@" address with
  | Some (local, domain) =>
      (if lower_local then encode (chars local ≫= char_to_lowercase) else local) ++ s#"@" ++
      (if is_ascii domain then encode (chars domain ≫= char_to_lowercase)
       else match domain_to_ascii domain with Some d => d | None => to_lowercase domain end)
  | None => to_lowercase address
  end.
(* [crates/utils/src/lib.rs:189-191] try_domain_part *)
Definition try_domain_part (s : list Z) : option (list Z) := option_map snd (rsplit_once s#"@" s).
(* [crates/utils/src/lib.rs:194-196] try_local_part *)
Definition try_local_part (s : list Z) : option (list Z) := option_map fst (rsplit_once s#"@" s).
(* [crates/utils/src/lib.rs:199-204] domain_part *)
Definition domain_part (s : list Z) : list Z := default [] (try_domain_part s).
(* [crates/utils/src/lib.rs:207-215] to_ascii_domain *)
Definition to_ascii_domain (s : list Z) : option (list Z) := if is_ascii s then Some s else domain_to_ascii s.

(* [crates/smtp/src/core/mod.rs:97-103] SessionAddress *)
Record SessionAddress := MkAddress {
  address : list Z; address_lcase : list Z; domain : list Z; flags : Z; dsn_info : option (list Z) }.

(* [crates/smtp/src/core/mod.rs:298-307] SessionAddress::new *)
Definition address_new (address : list Z) : SessionAddress :=
  let address_lcase := to_lowercase address in MkAddress address address_lcase (domain_part address_lcase) 0 None.

(* [crates/smtp/src/core/mod.rs:180-184] PartialEq for SessionAddress *)
Definition address_eqb (a b : SessionAddress) : bool := bytes_eqb (address_lcase a) (address_lcase b).

(* [crates/smtp/src/core/mod.rs:194-201] Ord for SessionAddress *)
Definition address_le (le : list Z -> list Z -> bool) (a b : SessionAddress) : bool :=
  if bytes_eqb (domain a) (domain b) then le (address_lcase a) (address_lcase b) else le (domain a) (domain b).

Definition contains (l : list SessionAddress) (a : SessionAddress) : bool := existsb (address_eqb a) l.

(** ** The data of a session *)

(* [crates/common/src/auth/mod.rs:164-168] AccountInfo *)
Record AccountInfo := MkAccount { account_name : list Z; addresses : list (list Z) }.

Inductive SpfResult := SpfPass | SpfFail | SpfSoftFail | SpfNeutral | SpfNone | SpfTempError | SpfPermError.
Record SpfOutput := MkSpf { spf_result : SpfResult; report_address : option (list Z) }.
Inductive IprevResult := IprevPass | IprevFail | IprevTempError | IprevPermError | IprevNone.
Record IprevOutput := MkIprev { iprev_result : IprevResult; ptr : option (list (list Z)) }.
Inductive DkimResult := DkimPass | DkimNone | DkimNeutral | DkimFail | DkimPermError | DkimTempError.
Inductive DmarcResult := DmarcPass | DmarcFail | DmarcTempError | DmarcPermError | DmarcNone.
Inductive Policy := PolicyReject | PolicyQuarantine | PolicyNone | PolicyUnspecified.

(* [crates/smtp/src/inbound/mod.rs:33-45] AuthResult for SpfResult *)
Definition spf_str (r : SpfResult) : list Z :=
  match r with
  | SpfPass => s#"pass" | SpfFail => s#"fail" | SpfSoftFail => s#"softfail" | SpfNeutral => s#"neutral"
  | SpfNone => s#"none" | SpfTempError => s#"temperror" | SpfPermError => s#"permerror"
  end.
(* [crates/smtp/src/inbound/mod.rs:47-57] AuthResult for IprevResult *)
Definition iprev_str (r : IprevResult) : list Z :=
  match r with
  | IprevPass => s#"pass" | IprevFail => s#"fail" | IprevTempError => s#"temperror" | IprevPermError => s#"permerror"
  | IprevNone => s#"none"
  end.
(* [crates/smtp/src/inbound/mod.rs:59-70] AuthResult for DkimResult *)
Definition dkim_str (r : DkimResult) : list Z :=
  match r with
  | DkimPass => s#"pass" | DkimNone => s#"none" | DkimNeutral => s#"neutral" | DkimFail => s#"fail"
  | DkimPermError => s#"permerror" | DkimTempError => s#"temperror"
  end.
(* [crates/smtp/src/inbound/mod.rs:72-82] AuthResult for DmarcResult *)
Definition dmarc_str (r : DmarcResult) : list Z :=
  match r with
  | DmarcPass => s#"pass" | DmarcFail => s#"fail" | DmarcTempError => s#"temperror" | DmarcPermError => s#"permerror"
  | DmarcNone => s#"none"
  end.
(* [crates/smtp/src/inbound/mod.rs:84-92] AuthResult for Policy *)
Definition policy_str (p : Policy) : list Z :=
  match p with PolicyReject => s#"reject" | PolicyQuarantine => s#"quarantine" | PolicyNone | PolicyUnspecified => s#"none" end.

(** The fields that change; the addresses of both ends are fixed. *)
(* [crates/smtp/src/core/mod.rs:62-94] SessionData *)
Record SessionData := MkData {
  helo_domain : list Z; mail_from : option SessionAddress; rcpt_to : list SessionAddress; rcpt_errors : Z;
  rcpt_oks : Z; message : list Z; authenticated_as : option AccountInfo; auth_errors : Z; priority : Z;
  delivery_by : Z; future_release : Z; valid_until : Z; bytes_left : Z; messages_sent : Z; iprev : option
  IprevOutput; spf_ehlo : option SpfOutput; spf_mail_from : option SpfOutput }.

Definition set_helo_domain (v : list Z) (d : SessionData) : SessionData :=
  MkData v (mail_from d) (rcpt_to d) (rcpt_errors d) (rcpt_oks d) (message d) (authenticated_as d) (auth_errors
  d) (priority d) (delivery_by d) (future_release d) (valid_until d) (bytes_left d) (messages_sent d) (iprev d)
  (spf_ehlo d) (spf_mail_from d).
Definition set_mail_from (v : option SessionAddress) (d : SessionData) : SessionData :=
  MkData (helo_domain d) v (rcpt_to d) (rcpt_errors d) (rcpt_oks d) (message d) (authenticated_as d)
  (auth_errors d) (priority d) (delivery_by d) (future_release d) (valid_until d) (bytes_left d) (messages_sent
  d) (iprev d) (spf_ehlo d) (spf_mail_from d).
Definition set_rcpt_to (v : list SessionAddress) (d : SessionData) : SessionData :=
  MkData (helo_domain d) (mail_from d) v (rcpt_errors d) (rcpt_oks d) (message d) (authenticated_as d)
  (auth_errors d) (priority d) (delivery_by d) (future_release d) (valid_until d) (bytes_left d) (messages_sent
  d) (iprev d) (spf_ehlo d) (spf_mail_from d).
Definition set_rcpt_errors (v : Z) (d : SessionData) : SessionData :=
  MkData (helo_domain d) (mail_from d) (rcpt_to d) v (rcpt_oks d) (message d) (authenticated_as d) (auth_errors
  d) (priority d) (delivery_by d) (future_release d) (valid_until d) (bytes_left d) (messages_sent d) (iprev d)
  (spf_ehlo d) (spf_mail_from d).
Definition set_rcpt_oks (v : Z) (d : SessionData) : SessionData :=
  MkData (helo_domain d) (mail_from d) (rcpt_to d) (rcpt_errors d) v (message d) (authenticated_as d)
  (auth_errors d) (priority d) (delivery_by d) (future_release d) (valid_until d) (bytes_left d) (messages_sent
  d) (iprev d) (spf_ehlo d) (spf_mail_from d).
Definition set_message (v : list Z) (d : SessionData) : SessionData :=
  MkData (helo_domain d) (mail_from d) (rcpt_to d) (rcpt_errors d) (rcpt_oks d) v (authenticated_as d)
  (auth_errors d) (priority d) (delivery_by d) (future_release d) (valid_until d) (bytes_left d) (messages_sent
  d) (iprev d) (spf_ehlo d) (spf_mail_from d).
Definition set_authenticated_as (v : option AccountInfo) (d : SessionData) : SessionData :=
  MkData (helo_domain d) (mail_from d) (rcpt_to d) (rcpt_errors d) (rcpt_oks d) (message d) v (auth_errors d)
  (priority d) (delivery_by d) (future_release d) (valid_until d) (bytes_left d) (messages_sent d) (iprev d)
  (spf_ehlo d) (spf_mail_from d).
Definition set_auth_errors (v : Z) (d : SessionData) : SessionData :=
  MkData (helo_domain d) (mail_from d) (rcpt_to d) (rcpt_errors d) (rcpt_oks d) (message d) (authenticated_as d)
  v (priority d) (delivery_by d) (future_release d) (valid_until d) (bytes_left d) (messages_sent d) (iprev d)
  (spf_ehlo d) (spf_mail_from d).
Definition set_priority (v : Z) (d : SessionData) : SessionData :=
  MkData (helo_domain d) (mail_from d) (rcpt_to d) (rcpt_errors d) (rcpt_oks d) (message d) (authenticated_as d)
  (auth_errors d) v (delivery_by d) (future_release d) (valid_until d) (bytes_left d) (messages_sent d) (iprev
  d) (spf_ehlo d) (spf_mail_from d).
Definition set_delivery_by (v : Z) (d : SessionData) : SessionData :=
  MkData (helo_domain d) (mail_from d) (rcpt_to d) (rcpt_errors d) (rcpt_oks d) (message d) (authenticated_as d)
  (auth_errors d) (priority d) v (future_release d) (valid_until d) (bytes_left d) (messages_sent d) (iprev d)
  (spf_ehlo d) (spf_mail_from d).
Definition set_future_release (v : Z) (d : SessionData) : SessionData :=
  MkData (helo_domain d) (mail_from d) (rcpt_to d) (rcpt_errors d) (rcpt_oks d) (message d) (authenticated_as d)
  (auth_errors d) (priority d) (delivery_by d) v (valid_until d) (bytes_left d) (messages_sent d) (iprev d)
  (spf_ehlo d) (spf_mail_from d).
Definition set_bytes_left (v : Z) (d : SessionData) : SessionData :=
  MkData (helo_domain d) (mail_from d) (rcpt_to d) (rcpt_errors d) (rcpt_oks d) (message d) (authenticated_as d)
  (auth_errors d) (priority d) (delivery_by d) (future_release d) (valid_until d) v (messages_sent d) (iprev d)
  (spf_ehlo d) (spf_mail_from d).
Definition set_messages_sent (v : Z) (d : SessionData) : SessionData :=
  MkData (helo_domain d) (mail_from d) (rcpt_to d) (rcpt_errors d) (rcpt_oks d) (message d) (authenticated_as d)
  (auth_errors d) (priority d) (delivery_by d) (future_release d) (valid_until d) (bytes_left d) v (iprev d)
  (spf_ehlo d) (spf_mail_from d).
Definition set_iprev (v : option IprevOutput) (d : SessionData) : SessionData :=
  MkData (helo_domain d) (mail_from d) (rcpt_to d) (rcpt_errors d) (rcpt_oks d) (message d) (authenticated_as d)
  (auth_errors d) (priority d) (delivery_by d) (future_release d) (valid_until d) (bytes_left d) (messages_sent
  d) v (spf_ehlo d) (spf_mail_from d).
Definition set_spf_ehlo (v : option SpfOutput) (d : SessionData) : SessionData :=
  MkData (helo_domain d) (mail_from d) (rcpt_to d) (rcpt_errors d) (rcpt_oks d) (message d) (authenticated_as d)
  (auth_errors d) (priority d) (delivery_by d) (future_release d) (valid_until d) (bytes_left d) (messages_sent
  d) (iprev d) v (spf_mail_from d).
Definition set_spf_mail_from (v : option SpfOutput) (d : SessionData) : SessionData :=
  MkData (helo_domain d) (mail_from d) (rcpt_to d) (rcpt_errors d) (rcpt_oks d) (message d) (authenticated_as d)
  (auth_errors d) (priority d) (delivery_by d) (future_release d) (valid_until d) (bytes_left d) (messages_sent
  d) (iprev d) (spf_ehlo d) v.
Definition set_valid_until (v : Z) (d : SessionData) : SessionData :=
  MkData (helo_domain d) (mail_from d) (rcpt_to d) (rcpt_errors d) (rcpt_oks d) (message d) (authenticated_as d)
  (auth_errors d) (priority d) (delivery_by d) (future_release d) v (bytes_left d) (messages_sent d) (iprev d)
  (spf_ehlo d) (spf_mail_from d).

(* [crates/smtp/src/core/mod.rs:135-171] SessionData::new *)
Definition data_new (now : Z) : SessionData :=
  MkData [] None [] 0 0 [] None 0 0 0 0 now 0 0 None None None.

(* [crates/smtp/src/inbound/session.rs:485-494] reset *)
Definition reset (d : SessionData) : SessionData :=
  set_rcpt_oks 0 (set_future_release 0 (set_delivery_by 0 (set_priority 0 (set_message []
    (set_rcpt_to [] (set_spf_mail_from None (set_mail_from None d))))))).

(** [last_mut]. *)
Definition update_last {A} (f : A -> A) (l : list A) : list A :=
  match rev l with [] => [] | x :: l => rev (f x :: l) end.
Definition update_from (f : SessionAddress -> SessionAddress) (d : SessionData) : SessionData :=
  set_mail_from (option_map f (mail_from d)) d.
Definition update_to (f : SessionAddress -> SessionAddress) (d : SessionData) : SessionData :=
  set_rcpt_to (update_last f (rcpt_to d)) d.

Definition set_flags (f : Z) (a : SessionAddress) : SessionAddress :=
  MkAddress (address a) (address_lcase a) (domain a) f (dsn_info a).
Definition set_dsn_info (i : option (list Z)) (a : SessionAddress) : SessionAddress :=
  MkAddress (address a) (address_lcase a) (domain a) (flags a) i.
Definition set_address (x lcase dom : list Z) (a : SessionAddress) : SessionAddress := MkAddress x lcase dom (flags a) (dsn_info a).

Definition has_at (s : list Z) : bool := existsb (Z.eqb c#"@") s.
(** [flags &= !mask]. *)
Definition clear_flags (mask f : Z) : Z := Z.ldiff f mask.

(** ** Changes by scripts *)

Inductive Envelope := EFrom | ETo | EByMode | EByTrace | ENotify | ERet | EOrcpt | EEnvid | EByTimeAbsolute | EByTimeRelative.

(* [crates/smtp/src/scripts/envelope.rs:82-101] apply_envelope_modification, NOTIFY *)
Definition notify_flags (value : list Z) (f : Z) : Z :=
  let f := clear_flags (Z.lor (Z.lor (Z.lor RCPT_NOTIFY_DELAY RCPT_NOTIFY_FAILURE) RCPT_NOTIFY_SUCCESS) RCPT_NOTIFY_NEVER) f in
  if bytes_eqb value s#"NEVER" then Z.lor f RCPT_NOTIFY_NEVER
  else fold_left (fun f value =>
    let value := trim value in
    if bytes_eqb value s#"SUCCESS" then Z.lor f RCPT_NOTIFY_SUCCESS
    else if bytes_eqb value s#"FAILURE" then Z.lor f RCPT_NOTIFY_FAILURE
    else if bytes_eqb value s#"DELAY" then Z.lor f RCPT_NOTIFY_DELAY else f) (split s#"," value) f.

(* [crates/smtp/src/scripts/envelope.rs:17-124] apply_envelope_modification *)
Definition apply_envelope_modification (envelope : Envelope) (value : list Z) (d : SessionData) : SessionData :=
  match envelope with
  | EFrom =>
      let put x lcase dom :=
        set_mail_from (Some (match mail_from d with
                             | Some a => set_address x lcase dom a
                             | None => MkAddress x lcase dom 0 None
                             end)) d in
      if has_at value then let lcase := to_lowercase value in put value lcase (domain_part lcase)
      else match value with [] => put [] [] [] | _ => d end
  | ETo =>
      if has_at value then
        let lcase := to_lowercase value in
        match rcpt_to d with
        | [] => set_rcpt_to [MkAddress value lcase (domain_part lcase) 0 None] d
        | _ => update_to (set_address value lcase (domain_part lcase)) d
        end
      else d
  | EByMode =>
      update_from (fun a =>
        let f := clear_flags (Z.lor MAIL_BY_NOTIFY MAIL_BY_RETURN) (flags a) in
        set_flags (if bytes_eqb value s#"N" then Z.lor f MAIL_BY_NOTIFY
                   else if bytes_eqb value s#"R" then Z.lor f MAIL_BY_RETURN else f) a) d
  | EByTrace =>
      update_from (fun a => set_flags (if bytes_eqb value s#"T" then Z.lor (flags a) MAIL_BY_TRACE
                                       else clear_flags MAIL_BY_TRACE (flags a)) a) d
  | ENotify => update_to (fun a => set_flags (notify_flags value (flags a)) a) d
  | ERet =>
      update_from (fun a =>
        let f := clear_flags (Z.lor MAIL_RET_FULL MAIL_RET_HDRS) (flags a) in
        set_flags (if bytes_eqb value s#"FULL" then Z.lor f MAIL_RET_FULL
                   else if bytes_eqb value s#"HDRS" then Z.lor f MAIL_RET_HDRS else f) a) d
  | EOrcpt => update_to (set_dsn_info (Some value)) d
  | EEnvid => update_from (set_dsn_info (Some value)) d
  | EByTimeAbsolute | EByTimeRelative => d
  end.

(** ** Changes by filters *)

(** The parts of a parsed message that are read. *)
Record AuthMessage := MkMessage {
  raw_parsed_headers : list (list Z * list Z); raw_headers : list Z; raw_body : list Z; raw_message : list Z }.

(* [crates/smtp/src/inbound/milter/message.rs:539-550] strip_brackets *)
Definition strip_brackets (addr : list Z) : list Z :=
  let addr := trim addr in
  match strip_prefix s#"<" addr with
  | Some addr => match rsplit_once s#">" addr with Some (addr, _) => trim addr | None => trim addr end
  | None => addr
  end.

(** An address that a filter gives, with the parameters that parse. *)
(* [crates/smtp/src/inbound/milter/message.rs:306-333] apply_milter_modifications, an address *)
Definition filter_address (parameters : list Z -> option (Z * option (list Z))) (a args : list Z) : SessionAddress :=
  let lcase := to_lowercase a in
  let '(f, info) :=
    match args with
    | [] => (0, None)
    | _ => default (0, None) (parameters (args ++ [10]))
    end in
  MkAddress a lcase (domain_part lcase) f info.

(** The index, the name, the value, and whether it changes a header that is
    there. *)
Definition HeaderChange : Type := Z * list Z * list Z * bool.
Record Changes := MkChanges { new_body : list Z; header_changes : list HeaderChange; needs_rewrite : bool }.

(* [crates/smtp/src/inbound/milter/message.rs:302-407] apply_milter_modifications, a modification *)
Definition modification_step (m : AuthMessage) (st : SessionData * Changes) (modification : Modification) : SessionData * Changes :=
  let '(d, c) := st in
  let add ch rewrite := (d, MkChanges (new_body c) (header_changes c ++ [ch]) (needs_rewrite c || rewrite)) in
  match modification with
  | ChangeFrom sender args =>
      (set_mail_from (Some (filter_address mail_from_parameters (strip_brackets sender) args)) d, c)
  | AddRcpt recipient args =>
      let recipient := strip_brackets recipient in
      if has_at recipient then
        let rcpt := filter_address rcpt_to_parameters recipient args in
        (if contains (rcpt_to d) rcpt then d else set_rcpt_to (rcpt_to d ++ [rcpt]) d, c)
      else (d, c)
  | DeleteRcpt recipient =>
      let recipient := strip_brackets recipient in
      (set_rcpt_to (List.filter (fun r => negb (bytes_eqb (address_lcase r) recipient)) (rcpt_to d)) d, c)
  | ReplaceBody value => (d, MkChanges (new_body c ++ value) (header_changes c) (needs_rewrite c))
  | AddHeader name value => add (0, name, value, false) false
  | InsertHeader index name value => add (index, name, value, false) true
  | ChangeHeader index name value =>
      if match value with [] => true | _ => existsb (fun h => eq_ignore_ascii_case (fst h) name) (raw_parsed_headers m) end then
        add (index, name, value, true) true
      else add (0, name, value, false) false
  | Quarantine reason => add (0, s#"X-Quarantine", reason, false) false
  end.

(** The position of the [index]-th header of the name, from 1. *)
(* [crates/smtp/src/inbound/milter/message.rs:437-450] apply_milter_modifications, a changed header *)
Fixpoint change_header (index : Z) (name value : list Z) (count : Z) (headers : list (list Z * list Z)) : list (list Z * list Z) :=
  match headers with
  | [] => []
  | (n, v) :: rest =>
      if eq_ignore_ascii_case n name then
        if count + 1 =? index then match value with [] => rest | _ => (n, value) :: rest end
        else (n, v) :: change_header index name value (count + 1) rest
      else (n, v) :: change_header index name value count rest
  end.

(** The position of the [index]-th header of the name, of the last one when
    there are fewer, the first position when there is none. *)
(* [crates/smtp/src/inbound/milter/message.rs:452-464] apply_milter_modifications, the position *)
Fixpoint header_position (index : Z) (name : list Z) (pos : nat) (count : Z) (found : nat) (headers : list (list Z * list Z)) : nat :=
  match headers with
  | [] => found
  | (n, _) :: rest =>
      if eq_ignore_ascii_case n name then
        if count + 1 =? index then pos else header_position index name (S pos) (count + 1) pos rest
      else header_position index name (S pos) count found rest
  end.

(* [crates/smtp/src/inbound/milter/message.rs:435-474] apply_milter_modifications, the headers *)
Definition header_step (headers : list (list Z * list Z)) (ch : HeaderChange) : list (list Z * list Z) :=
  let '(index, name, value, is_change) := ch in
  if is_change : bool then change_header index name value 0 headers
  else
    let pos := if 0 <? index then header_position index name 0 0 0 headers else 0%nat in
    firstn pos headers ++ (name, value) :: skipn pos headers.

Definition ends_with_lf (s : list Z) : bool := match rev s with x :: _ => x =? 10 | [] => false end.
Definition crlf : list Z := [13; 10].

(* [crates/smtp/src/inbound/milter/message.rs:486-495] apply_milter_modifications, writing a header *)
Definition write_header (h : list Z * list Z) : list Z :=
  fst h ++ (match snd h with c :: _ => if is_ascii_whitespace c then s#":" else s#": " | [] => s#": " end) ++ snd h ++
  (if ends_with_lf (snd h) then [] else crlf).

(* [crates/smtp/src/inbound/milter/message.rs:510-515] apply_milter_modifications, an added header *)
Definition added_header (ch : HeaderChange) : list Z :=
  let '(_, name, value, _) := ch in name ++ s#": " ++ value ++ (if ends_with_lf value then [] else crlf).

(* [crates/smtp/src/inbound/milter/message.rs:409-520] apply_milter_modifications, the message *)
Definition rewrite_message (m : AuthMessage) (c : Changes) : option (list Z) :=
  match header_changes c with
  | [] => match new_body c with [] => None | b => Some (raw_headers m ++ b) end
  | changes =>
      let body := match new_body c with [] => raw_body m | b => b end in
      if needs_rewrite c then
        let headers := fold_left header_step changes (raw_parsed_headers m) in
        Some (concat (map write_header headers) ++ crlf ++ body)
      else Some (concat (map added_header changes) ++ raw_headers m ++ body)
  end.

(** The message as edited, when it is. *)
(* [crates/smtp/src/inbound/milter/message.rs:293-521] apply_milter_modifications *)
Definition apply_milter_modifications (modifications : list Modification) (m : AuthMessage) (d : SessionData) :
    SessionData * option (list Z) :=
  let '(d, c) := fold_left (modification_step m) modifications (d, MkChanges [] [] false) in
  (d, rewrite_message m c).

(** ** The outcome of filters *)

(* [crates/smtp/src/inbound/mod.rs:24-27] FilterResponse *)
Record FilterResponse := MkFilter { fmessage : list Z; disconnect : bool }.
(* [crates/smtp/src/inbound/mod.rs:95-100] accept *)
Definition fr_accept : FilterResponse := MkFilter (s#"250 2.0.0 Message queued for delivery." ++ crlf) false.
(* [crates/smtp/src/inbound/mod.rs:102-107] reject *)
Definition fr_reject : FilterResponse := MkFilter (s#"503 5.5.3 Message rejected." ++ crlf) false.
(* [crates/smtp/src/inbound/mod.rs:109-114] temp_fail *)
Definition fr_temp_fail : FilterResponse := MkFilter (s#"451 4.3.5 Unable to accept message at this time." ++ crlf) false.
(* [crates/smtp/src/inbound/mod.rs:116-121] shutdown *)
Definition fr_shutdown : FilterResponse := MkFilter (s#"421 4.3.0 Server shutting down." ++ crlf) true.
(* [crates/smtp/src/inbound/mod.rs:123-128] server_failure *)
Definition fr_server_failure : FilterResponse := MkFilter (s#"451 4.3.5 Unable to accept message at this time." ++ crlf) false.
Definition fr_default : FilterResponse := MkFilter [] false.
(* [crates/smtp/src/inbound/mod.rs:130-135] disconnect *)
Definition with_disconnect (f : FilterResponse) : FilterResponse := MkFilter (fmessage f) true.

(** [None]: the [unreachable!] of an action that lets the message pass. *)
(* [crates/smtp/src/inbound/milter/message.rs:98-118] run_milters, a rejection *)
Definition rejected_by (a : Action) : option FilterResponse :=
  match a with
  | Discard => Some fr_accept
  | Reject => Some fr_reject
  | TempFail => Some fr_temp_fail
  | ReplyCode code text => Some (MkFilter (code ++ [32] ++ text ++ (if ends_with_lf text then [] else crlf)) false)
  | Shutdown => Some fr_shutdown
  | ConnectionFailure => Some (with_disconnect fr_default)
  | Accept | Continue => None
  end.

Definition is_replace_body (m : Modification) : bool := match m with ReplaceBody _ => true | _ => false end.

(* [crates/smtp/src/inbound/milter/message.rs:64-77] run_milters, the modifications *)
Definition merge_modifications (old new : list Modification) : list Modification :=
  match old with
  | [] => new
  | _ =>
      (if existsb is_replace_body new then List.filter (fun m => negb (is_replace_body m)) old else old) ++ new
  end.

(** The configuration of a milter; what talking to it gives. *)
Record Milter := MkMilter { run_on_stage : bool; enabled : option bool; tempfail_on_error : bool }.

(** [Some (Err _)]: the response to the client; [None]: a panic. *)
(* [crates/smtp/src/inbound/milter/message.rs:31-156] run_milters *)
Fixpoint run_milters (connect_and_run : nat -> result (list Modification) Rejection) (n : nat) (milters : list Milter)
    (modifications : list Modification) : option (result (list Modification) FilterResponse) :=
  match milters with
  | [] => Some (Ok modifications)
  | milter :: milters =>
      if negb (run_on_stage milter) || negb (default false (enabled milter)) then
        run_milters connect_and_run (S n) milters modifications
      else
        match connect_and_run n with
        | Ok new => run_milters connect_and_run (S n) milters (merge_modifications modifications new)
        | Err (ByAction a) => option_map Err (rejected_by a)
        | Err (ByError _) =>
            if tempfail_on_error milter then Some (Err fr_server_failure)
            else run_milters connect_and_run (S n) milters modifications
        end
  end.

(** ** Hooks *)

Inductive HookAction := HAccept | HDiscard | HReject | HQuarantine.
(* [crates/smtp/src/inbound/hooks/mod.rs:148-157] SmtpResponse *)
Record SmtpResponse := MkSmtpResponse { status : option Z; enhanced_status : option (list Z); rmessage : option (list Z); rdisconnect : bool }.
(* [crates/smtp/src/inbound/hooks/mod.rs:161-194] Modification *)
Inductive HookModification :=
| HChangeFrom (value : list Z) (parameters : list (list Z * option (list Z)))
| HAddRecipient (value : list Z) (parameters : list (list Z * option (list Z)))
| HDeleteRecipient (value : list Z)
| HReplaceContents (value : list Z)
| HAddHeader (name value : list Z)
| HInsertHeader (index : Z) (name value : list Z)
| HChangeHeader (index : Z) (name value : list Z)
| HDeleteHeader (index : Z) (name : list Z).
(* [crates/smtp/src/inbound/hooks/mod.rs:127-133] Response *)
Record HookResponse := MkHookResponse { haction : HookAction; hresponse : option SmtpResponse; hmodifications : list HookModification }.

(** The map's entries in the order in which it is iterated. *)
(* [crates/smtp/src/inbound/hooks/message.rs:254-268] flatten_parameters *)
Definition flatten_parameters (parameters : list (list Z * option (list Z))) : list Z :=
  fold_left (fun arguments p =>
    (match arguments with [] => [] | _ => arguments ++ [32] end) ++ fst p ++
    match snd p with Some value => s#"=" ++ value | None => [] end) parameters [].

(* [crates/smtp/src/inbound/hooks/message.rs:71-108] run_mta_hooks, a modification *)
Definition of_hook (m : HookModification) : Modification :=
  match m with
  | HChangeFrom value parameters => ChangeFrom value (flatten_parameters parameters)
  | HAddRecipient value parameters => AddRcpt value (flatten_parameters parameters)
  | HDeleteRecipient value => DeleteRcpt value
  | HReplaceContents value => ReplaceBody value
  | HAddHeader name value => AddHeader name value
  | HInsertHeader index name value => InsertHeader index name value
  | HChangeHeader index name value => ChangeHeader index name value
  | HDeleteHeader index name => ChangeHeader index name []
  end.

(** [None]: the hook lets the message pass. *)
(* [crates/smtp/src/inbound/hooks/message.rs:126-150] run_mta_hooks, the answer *)
Definition hook_answer (r : HookResponse) : option FilterResponse :=
  match match haction r with
        | HAccept => None
        | HDiscard | HQuarantine => Some fr_accept
        | HReject => Some fr_reject
        end with
  | None => None
  | Some message =>
      Some match hresponse r with
           | Some response =>
               MkFilter
                 (match status response, rmessage response with
                  | Some status, Some text =>
                      match enhanced_status response with
                      | Some enhanced => print_decimal status ++ [32] ++ enhanced ++ [32] ++ text ++ crlf
                      | None => print_decimal status ++ [32] ++ text ++ crlf
                      end
                  | _, _ => fmessage message
                  end) (rdisconnect response)
           | None => message
           end
  end.

(* [crates/smtp/src/inbound/hooks/message.rs:30-169] run_mta_hooks *)
Fixpoint run_mta_hooks (run_mta_hook : nat -> option HookResponse) (n : nat) (hooks : list Milter)
    (modifications : list Modification) : result (list Modification) FilterResponse :=
  match hooks with
  | [] => Ok modifications
  | hook :: hooks =>
      if negb (run_on_stage hook) || negb (default false (enabled hook)) then run_mta_hooks run_mta_hook (S n) hooks modifications
      else
        match run_mta_hook n with
        | Some response =>
            let modifications := merge_modifications modifications (map of_hook (hmodifications response)) in
            match hook_answer response with
            | None => run_mta_hooks run_mta_hook (S n) hooks modifications
            | Some message => Err message
            end
        | None => if tempfail_on_error hook then Err fr_server_failure else run_mta_hooks run_mta_hook (S n) hooks modifications
        end
  end.

(** ** What modifications do *)

(** Whether the address is a recipient after the modifications, by the last
    of them that is about it. *)
Definition recipient_after (x : list Z) (p : bool) (m : Modification) : bool :=
  match m with
  | AddRcpt r _ => let r := strip_brackets r in if has_at r && bytes_eqb (to_lowercase r) x then true else p
  | DeleteRcpt r => if bytes_eqb (strip_brackets r) x then false else p
  | _ => p
  end.

Definition is_recipient (x : list Z) (d : SessionData) : bool := existsb (fun r => bytes_eqb (address_lcase r) x) (rcpt_to d).

Lemma filter_address_lcase p a args : address_lcase (filter_address p a args) = to_lowercase a.
Proof. unfold filter_address. destruct args; [done|]. by destruct (default _ _). Qed.

Lemma existsb_filter_neq x r (l : list SessionAddress) :
  existsb (fun a => bytes_eqb (address_lcase a) x) (List.filter (fun a => negb (bytes_eqb (address_lcase a) r)) l) =
  if bytes_eqb r x then false else existsb (fun a => bytes_eqb (address_lcase a) x) l.
Proof.
  destruct (bytes_eqb r x) eqn:E.
  - apply bytes_eqb_eq in E as ->. induction l as [|a l IH]; [done|]. cbn [List.filter].
    destruct (bytes_eqb (address_lcase a) x) eqn:E; cbn; [done|]. by rewrite E.
  - induction l as [|a l IH]; [done|]. cbn [List.filter existsb].
    destruct (bytes_eqb (address_lcase a) r) eqn:Er; cbn [negb existsb]; [|by rewrite IH].
    apply bytes_eqb_eq in Er as ->. by rewrite E, IH.
Qed.

Lemma modification_recipient msg x d c m :
  is_recipient x (fst (modification_step msg (d, c) m)) = recipient_after x (is_recipient x d) m.
Proof.
  unfold is_recipient. destruct m; cbn [modification_step recipient_after fst]; try done.
  - destruct (has_at (strip_brackets recipient)) eqn:Ha; [|done]. cbn [andb fst].
    set (rcpt := filter_address _ _ _). assert (address_lcase rcpt = to_lowercase (strip_brackets recipient)) as El by apply filter_address_lcase.
    rewrite <- El. destruct (contains (rcpt_to d) rcpt) eqn:Ec.
    + destruct (bytes_eqb (address_lcase rcpt) x) eqn:E; [|done]. apply bytes_eqb_eq in E as <-.
      unfold contains in Ec. apply existsb_exists in Ec as (a & Hin & Ha'). apply existsb_exists. exists a. split; [done|].
      unfold address_eqb in Ha'. apply bytes_eqb_eq in Ha' as ->. apply bytes_eqb_refl.
    + cbn [rcpt_to set_rcpt_to]. rewrite existsb_app. cbn [existsb]. rewrite orb_false_r.
      destruct (bytes_eqb (address_lcase rcpt) x); [by rewrite orb_true_r|by rewrite orb_false_r].
  - cbn [rcpt_to set_rcpt_to]. apply existsb_filter_neq.
  - by destruct (match value with [] => true | _ => _ end).
Qed.

Lemma modifications_recipients msg x ms d c :
  is_recipient x (fst (fold_left (modification_step msg) ms (d, c))) = fold_left (recipient_after x) ms (is_recipient x d).
Proof.
  revert d c. induction ms as [|m ms IH]; intros d c; [done|]. cbn [fold_left].
  rewrite <- (modification_recipient msg x d c m). destruct (modification_step msg (d, c) m) as [d' c']. apply IH.
Qed.

(** How many headers have the name. *)
Definition named (name : list Z) (h : list (list Z * list Z)) : Z :=
  Z.of_nat (length (List.filter (fun h => eq_ignore_ascii_case (fst h) name) h)).

Lemma change_header_spec name value index h1 n v h2 count : eq_ignore_ascii_case n name = true ->
  count + named name h1 + 1 = index -> 0 <= count ->
  change_header index name value count (h1 ++ (n, v) :: h2) =
  h1 ++ match value with [] => h2 | _ => (n, value) :: h2 end.
Proof.
  intros Hn. revert count. induction h1 as [|[a b] h1 IH]; intros count Hi Hc; cbn [app change_header].
  - rewrite Hn. unfold named in Hi. cbn in Hi. rewrite (proj2 (Z.eqb_eq _ _)) by lia. by destruct value.
  - unfold named in Hi. cbn [List.filter fst] in Hi. destruct (eq_ignore_ascii_case a name) eqn:E.
    + cbn [length] in Hi. rewrite (proj2 (Z.eqb_neq _ _)) by lia. rewrite IH; [done|unfold named; lia|lia].
    + rewrite IH; [done|unfold named; lia|lia].
Qed.

Lemma change_header_none name value index h count : index <= count \/ count + named name h < index ->
  change_header index name value count h = h.
Proof.
  revert count. induction h as [|[a b] h IH]; intros count Hi; [done|]. cbn [change_header].
  unfold named in Hi. cbn [List.filter fst] in Hi. destruct (eq_ignore_ascii_case a name) eqn:E.
  - cbn [length] in Hi. rewrite (proj2 (Z.eqb_neq _ _)) by lia. rewrite IH; [done|]. unfold named. lia.
  - rewrite IH; [done|]. unfold named. lia.
Qed.

(** A modification that leaves what is there in place. *)
Definition only_adds (m : Modification) : bool :=
  match m with ReplaceBody _ | InsertHeader _ _ _ | ChangeHeader _ _ _ => false | _ => true end.

Lemma only_adds_changes msg ms d c : forallb only_adds ms = true -> needs_rewrite c = false ->
  exists l, snd (fold_left (modification_step msg) ms (d, c)) = MkChanges (new_body c) (header_changes c ++ l) false.
Proof.
  revert d c. induction ms as [|m ms IH]; intros d c Hm Hc.
  - exists []. rewrite app_nil_r. destruct c; cbn in *. by subst.
  - cbn [forallb fold_left] in *. apply andb_prop in Hm as [Hm Hms].
    destruct m; try discriminate Hm; cbn [modification_step].
    + by apply IH.
    + destruct (has_at _); by apply IH.
    + by apply IH.
    + destruct (IH d (MkChanges (new_body c) (header_changes c ++ [(0, name, value, false)]) (needs_rewrite c || false)) Hms) as [l E];
        [by cbn; rewrite orb_false_r|]. exists ((0, name, value, false) :: l). etransitivity; [exact E|]. cbn. by rewrite <- app_assoc.
    + destruct (IH d (MkChanges (new_body c) (header_changes c ++ [(0, s#"X-Quarantine", reason, false)]) (needs_rewrite c || false)) Hms) as [l E];
        [by cbn; rewrite orb_false_r|]. exists ((0, s#"X-Quarantine", reason, false) :: l). etransitivity; [exact E|]. cbn. by rewrite <- app_assoc.
Qed.

End Data.

Module Demo.
#[local] Existing Instance demo_crates.

Definition d : SessionData := set_rcpt_to [address_new s#"user@org.net"] (data_new 0).
Definition m : AuthMessage := MkMessage [(s#"To", s#"x"); (s#"Received", s#"1"); (s#"received", s#"2")] (s#"..") s#"body" (s#"..body").


(** A recipient that a filter deletes with its own capitals stays. *)
Lemma delete_compares_case : is_recipient s#"user@org.net" (fst (apply_milter_modifications [DeleteRcpt s#"<User@org.net>"] m d)) = true.
Proof. by vm_compute. Qed.

(** A hook that asks for quarantine: the message gets the answer of an
    accepted one, and no modification reaches it. *)
Lemma quarantine_discards hs ms :
  run_mta_hooks (fun _ => Some (MkHookResponse HQuarantine None [])) 0 (MkMilter true (Some true) true :: hs) ms = Err fr_accept.
Proof. done. Qed.
End Demo.
