(* ===== verification/SmtpQueue.v ===== *)
(** * Messages of the queue ([crates/smtp/src/queue, inbound/data.rs])

    A queued message with its recipients, how an accepted message becomes one,
    its schedule — when a delivery is tried, a notification sent, a recipient
    given up — and what notifications report. *)

From S2P Require Import Prelude Decimals Utf8 Text IpMask Milter SmtpData.

(** [u64] sums, which wrap in a release build. *)
Definition add64 (a b : Z) : Z := wrap 64 (a + b).

(** ** Data *)

(* [crates/smtp/src/queue/mod.rs:32-35] Schedule *)
Record Schedule := MkSchedule { due : Z; inner : Z }.

(* [crates/common/src/config/smtp/queue.rs:121-124] QueueExpiry *)
Inductive QueueExpiry := Ttl (seconds : Z) | Attempts (count : Z).

(** A reply of smtp-proto. *)
Record Response := MkResponse { code : Z; esc : Z * Z * Z; response_text : list Z }.
(* [crates/smtp/src/queue/mod.rs:166-169] HostResponse *)
Record HostResponse := MkHost { host_name : list Z; host_response : Response }.
(* [crates/smtp/src/queue/mod.rs:182-208] Error, UnexpectedResponse *)
Inductive Error :=
| DnsError (e : list Z) | UnexpectedResponse (command : list Z) (response : Response) | ConnectionError (e : list Z)
| TlsError (e : list Z) | DaneError (e : list Z) | MtaStsError (e : list Z) | RateLimited | ConcurrencyLimited | QueueIo (e : list Z).
(* [crates/smtp/src/queue/mod.rs:221-224] ErrorDetails *)
Record ErrorDetails := MkError { entity : list Z; details : Error }.
(* [crates/smtp/src/queue/mod.rs:145-154] Status *)
Inductive Status :=
| Scheduled | Completed (r : HostResponse) | TemporaryFailure (e : ErrorDetails) | PermanentFailure (e : ErrorDetails).

(* [crates/smtp/src/queue/mod.rs:110-121] Recipient *)
Record Recipient := MkRecipient {
  raddress : list Z; retry : Schedule; notify : Schedule; expires : QueueExpiry; queue : list Z; rstatus : Status;
  rflags : Z; orcpt : option (list Z) }.

(* [crates/smtp/src/queue/mod.rs:94-98] Metadata *)
Inductive Metadata := QueueSize (key : list Z) (id : Z) | QueueCount (key : list Z) (id : Z) | RcptHeaders (value : list Z) (id : Z).

(** [blob_hash] is the hash of the message that is kept as a blob. *)
(* [crates/smtp/src/queue/mod.rs:57-73] Message *)
Record Message := MkQueued {
  created : Z; blob_hash : list Z; return_path : list Z; recipients : list Recipient; mflags : Z;
  env_id : option (list Z); mpriority : Z; msize : Z; metadata : list Metadata }.

(* [crates/smtp/src/queue/mod.rs:45-54] MessageSource *)
Inductive MessageSource :=
| Authenticated | Unauthenticated (dmarc_pass : bool) (train_spam : option bool) | Dsn | Report | Autogenerated.

(* [crates/smtp/src/queue/mod.rs:123-128] FROM_AUTHENTICATED .. FROM_AUTOGENERATED *)
Definition source_flag (s : MessageSource) : Z :=
  match s with
  | Authenticated => 2 ^ 32
  | Unauthenticated false _ => 2 ^ 33
  | Unauthenticated true _ => 2 ^ 34
  | Dsn => 2 ^ 35
  | Report => 2 ^ 36
  | Autogenerated => 2 ^ 37
  end.
(* [crates/smtp/src/queue/mod.rs:130-130] RCPT_DSN_SENT *)
Definition RCPT_DSN_SENT : Z := 2 ^ 32.
(* [crates/smtp/src/queue/mod.rs:132-132] RCPT_SPAM_PAYLOAD *)
Definition RCPT_SPAM_PAYLOAD : Z := 2 ^ 34.

(* [crates/smtp/src/queue/mod.rs:247-252] Schedule::now *)
Definition schedule_now (now : Z) : Schedule := MkSchedule now 0.
(* [crates/smtp/src/queue/mod.rs:254-259] Schedule::later *)
Definition schedule_later (now duration : Z) : Schedule := MkSchedule (add64 now duration) 0.

(** What the queue is given: a message under its id, where it comes from, the
    headers that are written before it, its bytes, and those that were
    received. *)
Record Queued := MkEntry {
  q_id : Z; q_message : Message; q_source : MessageSource; q_headers : list Z; q_bytes : list Z; q_original : list Z }.

(** How messages of a queue are retried ([virtual_queue]: where). *)
(* [crates/common/src/config/smtp/queue.rs:103-108] QueueStrategy *)
Record QueueStrategy := MkStrategy { s_retry : list Z; s_notify : list Z; s_expiry : QueueExpiry; s_virtual_queue : list Z }.

(* [crates/common/src/config/smtp/queue.rs:50-50] DEFAULT_QUEUE_NAME *)
Definition DEFAULT_QUEUE_NAME : list Z := s#"default" ++ [0].

Definition set_status (x : Status) (r : Recipient) : Recipient :=
  MkRecipient (raddress r) (retry r) (notify r) (expires r) (queue r) x (rflags r) (orcpt r).
Definition set_notify (x : Schedule) (r : Recipient) : Recipient :=
  MkRecipient (raddress r) (retry r) x (expires r) (queue r) (rstatus r) (rflags r) (orcpt r).
Definition set_retry (x : Schedule) (r : Recipient) : Recipient :=
  MkRecipient (raddress r) x (notify r) (expires r) (queue r) (rstatus r) (rflags r) (orcpt r).
Definition set_rflags (x : Z) (r : Recipient) : Recipient :=
  MkRecipient (raddress r) (retry r) (notify r) (expires r) (queue r) (rstatus r) x (orcpt r).
Definition set_schedule (ret nt : Schedule) (e : QueueExpiry) (q : list Z) (r : Recipient) : Recipient :=
  MkRecipient (raddress r) ret nt e q (rstatus r) (rflags r) (orcpt r).
Definition set_recipients (l : list Recipient) (m : Message) : Message :=
  MkQueued (created m) (blob_hash m) (return_path m) l (mflags m) (env_id m) (mpriority m) (msize m) (metadata m).
Definition set_metadata (l : list Metadata) (m : Message) : Message :=
  MkQueued (created m) (blob_hash m) (return_path m) (recipients m) (mflags m) (env_id m) (mpriority m) (msize m) l.
Definition set_msize (n : Z) (m : Message) : Message :=
  MkQueued (created m) (blob_hash m) (return_path m) (recipients m) (mflags m) (env_id m) (mpriority m) n (metadata m).

(* [crates/smtp/src/outbound/session.rs:478-480] has_flag *)
Definition rcpt_has_flag (r : Recipient) (flag : Z) : bool := negb (Z.land (rflags r) flag =? 0).

Definition is_pending (r : Recipient) : bool :=
  match rstatus r with Scheduled | TemporaryFailure _ => true | Completed _ | PermanentFailure _ => false end.

Section Queue.
Context {Cr : Crates}.
(** The strategy that the settings choose for a recipient of a message. *)
Variable strategy : Message -> Recipient -> QueueStrategy.

(* [crates/smtp/src/queue/mod.rs:457-468] Recipient::new *)
Definition recipient_new (now : Z) (address : list Z) : Recipient :=
  MkRecipient (to_lowercase_address address false) (schedule_now now) (schedule_now now) (Attempts 0) DEFAULT_QUEUE_NAME
    Scheduled 0 None.

(** ** An accepted message becomes a queued one *)

Definition notify_any : Z := Z.lor (Z.lor (Z.lor RCPT_NOTIFY_DELAY RCPT_NOTIFY_FAILURE) RCPT_NOTIFY_SUCCESS) RCPT_NOTIFY_NEVER.

(* [crates/smtp/src/inbound/data.rs:873-885] build_message, the flags of a recipient *)
Definition recipient_flags (f : Z) : Z :=
  if negb (Z.land f notify_any =? 0) then f else Z.lor (Z.lor f RCPT_NOTIFY_DELAY) RCPT_NOTIFY_FAILURE.

(** The time after which the sender is notified, and when the recipient
    expires, for a message with the flags [f]. *)
(* [crates/smtp/src/inbound/data.rs:912-958] build_message, expiration and notification *)
Definition deadlines (now : Z) (d : SessionData) (f : Z) (s : QueueStrategy) : Schedule * QueueExpiry :=
  let num_intervals := Z.max (Z.of_nat (length (s_notify s))) 1 in
  let next_notify := match s_notify s with n :: _ => n | [] => 86400 end in
  let by_ := delivery_by d in
  let later x := schedule_later now (add64 (future_release d) x) in
  if by_ =? 0 then
    (later next_notify, match s_expiry s with Ttl time => Ttl (add64 (future_release d) time) | Attempts count => Attempts count end)
  else if negb (Z.land f MAIL_BY_RETURN =? 0) then (later next_notify, Ttl (wrap 64 by_))
  else
    let '(at_, expiry) :=
      match s_expiry s with
      | Ttl expire_secs =>
          (if 0 <? by_ then
             let notify_at := wrap 64 by_ in if notify_at <? expire_secs then notify_at else next_notify
           else
             let notify_at := wrap 64 (- by_) in if notify_at <? expire_secs then expire_secs - notify_at else next_notify,
           Ttl expire_secs)
      | Attempts _ => (next_notify, Ttl (Z.abs by_))
      end in
    (* no further notification *)
    (MkSchedule (due (later at_)) (wrap 32 (num_intervals - 1)), expiry).

(* [crates/smtp/src/inbound/data.rs:870-966] build_message, a recipient *)
Definition build_recipient (now : Z) (d : SessionData) (m : Message) (a : SessionAddress) : Message :=
  let r := set_rflags (recipient_flags (flags a)) (recipient_new now (address a)) in
  let r := MkRecipient (raddress r) (retry r) (notify r) (expires r) (queue r) (rstatus r) (rflags r) (dsn_info a) in
  let s := strategy (set_recipients (recipients m ++ [r]) m) r in
  let '(n, e) := deadlines now d (mflags m) s in
  let again := if future_release d =? 0 then schedule_now now else schedule_later now (future_release d) in
  set_recipients (recipients m ++ [set_schedule again n e (s_virtual_queue s) r]) m.

(** The order of [str]. *)
Fixpoint bytes_leb (a b : list Z) : bool :=
  match a, b with
  | [], _ => true
  | _ :: _, [] => false
  | x :: a, y :: b => (x <? y) || ((x =? y) && bytes_leb a b)
  end.

(** [sort_unstable], whose result is one up to equal addresses. *)
Fixpoint insert_address (a : SessionAddress) (l : list SessionAddress) : list SessionAddress :=
  match l with
  | [] => [a]
  | b :: l => if address_le bytes_leb a b then a :: b :: l else b :: insert_address a l
  end.
Definition sort_addresses (l : list SessionAddress) : list SessionAddress := fold_right insert_address [] l.

(* [crates/smtp/src/inbound/data.rs:839-975] build_message *)
Definition build_message (now : Z) (d : SessionData) (mail_from : SessionAddress) (rcpt_to : list SessionAddress) : Message :=
  fold_left (build_recipient now d) (sort_addresses rcpt_to)
    (MkQueued now [] (to_lowercase_address (address mail_from) false) [] (flags mail_from) (dsn_info mail_from) (priority d) 0 []).

(** ** Messages that the server makes *)

(* [crates/smtp/src/queue/spool.rs:88-112] new_message *)
Definition new_message (now : Z) (return_path : list Z) : Message :=
  MkQueued now [] (to_lowercase_address return_path false) [] 0 None 0 0 [].

(* [crates/smtp/src/queue/spool.rs:638-658] add_expanded_recipient *)
Definition add_expanded_recipient (now : Z) (rcpt : list Z) (m : Message) : Message :=
  let r := recipient_new now rcpt in
  let s := strategy (set_recipients (recipients m ++ [r]) m) r in
  let n := schedule_later now (add64 (match s_notify s with n :: _ => n | [] => 86400 end) now) in
  set_recipients (recipients m ++ [set_schedule (retry r) n (s_expiry s) (s_virtual_queue s) r]) m.

(** ** Expiry and the next events *)

(* [crates/smtp/src/queue/manager.rs:343-348] expiration_time *)
Definition expiration_time (r : Recipient) (created : Z) : option Z :=
  match expires r with Ttl time => Some (add64 created time) | Attempts _ => None end.
(* [crates/smtp/src/queue/manager.rs:350-355] is_expired *)
Definition is_expired (r : Recipient) (created now : Z) : bool :=
  match expires r with Ttl time => add64 created time <=? now | Attempts count => count <=? inner (retry r) end.

(** Of the recipients that wait, in one queue or in all. *)
Definition in_queue (q : option (list Z)) (r : Recipient) : bool :=
  is_pending r && match q with Some q => bytes_eqb (queue r) q | None => true end.

Definition least (x : option Z) (y : Z) : option Z := Some match x with Some x => if y <? x then y else x | None => y end.
Definition greatest (x : option Z) (y : Z) : option Z := Some match x with Some x => if x <? y then y else x | None => y end.

(* [crates/smtp/src/queue/manager.rs:233-239] next_event, of a recipient *)
Definition earlier_event (created : Z) (r : Recipient) : Z :=
  let e := Z.min (due (retry r)) (due (notify r)) in
  match expiration_time r created with Some x => Z.min e x | None => e end.
(* [crates/smtp/src/queue/manager.rs:228-252] next_event *)
Definition next_event (m : Message) (q : option (list Z)) : option Z :=
  fold_left (fun n r => least n (earlier_event (created m) r)) (List.filter (in_queue q) (recipients m)) None.
(* [crates/smtp/src/queue/manager.rs:254-271] next_delivery_event *)
Definition next_delivery_event (m : Message) (q : option (list Z)) : option Z :=
  fold_left (fun n r => least n (due (retry r))) (List.filter (in_queue q) (recipients m)) None.
(* [crates/smtp/src/queue/manager.rs:273-290] next_dsn *)
Definition next_dsn (m : Message) (q : option (list Z)) : option Z :=
  fold_left (fun n r => least n (due (notify r))) (List.filter (in_queue q) (recipients m)) None.
(* [crates/smtp/src/queue/manager.rs:292-311] expires *)
Definition last_expiry (m : Message) (q : option (list Z)) : option Z :=
  fold_left (fun n r => match expiration_time r (created m) with Some x => greatest n x | None => n end)
    (List.filter (in_queue q) (recipients m)) None.

(** The map from queues to times, in the order of its first entries. *)
(* [crates/smtp/src/queue/manager.rs:324-334] next_events, an entry *)
Fixpoint put_event (q : list Z) (x : Z) (l : list (list Z * Z)) : list (list Z * Z) :=
  match l with
  | [] => [(q, x)]
  | (q', y) :: l => if bytes_eqb q q' then (q', if x <? y then x else y) :: l else (q', y) :: put_event q x l
  end.
(* [crates/smtp/src/queue/manager.rs:313-339] next_events *)
Definition next_events (m : Message) : list (list Z * Z) :=
  fold_left (fun l r => put_event (queue r) (earlier_event (created m) r) l) (List.filter (in_queue None) (recipients m)) [].

(** ** The outcome of an attempt *)

(* [crates/smtp/src/queue/dsn.rs:543-548] into_permanent *)
Definition into_permanent (x : Status) : Status := match x with TemporaryFailure e => PermanentFailure e | x => x end.
(* [crates/smtp/src/queue/dsn.rs:550-555] into_temporary *)
Definition into_temporary (x : Status) : Status := match x with PermanentFailure e => TemporaryFailure e | x => x end.

(** Whether some recipient waits, and whether one waits in this queue. *)
(* [crates/smtp/src/outbound/delivery.rs:1495-1498] PendingDelivery *)
Inductive PendingDelivery := Yes (matches_queue : bool) | No.

(* [crates/smtp/src/outbound/delivery.rs:1508-1550] has_pending_delivery, a recipient *)
Definition expire_recipient (created now : Z) (r : Recipient) : Recipient :=
  match rstatus r with
  | TemporaryFailure _ => if is_expired r created now then set_status (into_permanent (rstatus r)) r else r
  | Scheduled =>
      if is_expired r created now then
        set_status (PermanentFailure (MkError (domain_part (raddress r))
                      (QueueIo s#"Message expired without any delivery attempts made."))) r
      else r
  | _ => r
  end.

(* [crates/smtp/src/outbound/delivery.rs:1502-1564] has_pending_delivery *)
Definition has_pending_delivery (now : Z) (queue_name : list Z) (m : Message) : Message * PendingDelivery :=
  let l := map (expire_recipient (created m) now) (recipients m) in
  (set_recipients l m,
   if existsb is_pending l then Yes (existsb (fun r => is_pending r && bytes_eqb (queue r) queue_name) l) else No).

(** [None]: the index or the schedule is empty, which panics. *)
(* [crates/smtp/src/outbound/delivery.rs:1566-1591] set_rcpt_status *)
Definition set_rcpt_status (now : Z) (st : Status) (idx : nat) (m : Message) : option Message :=
  match recipients m !! idx with
  | None => None
  | Some r =>
      let r := set_status st r in
      let m := set_recipients (<[idx := r]> (recipients m)) m in
      if is_pending r then
        let s := strategy m r in
        match s_retry s !! Nat.min (Z.to_nat (inner (retry r))) (length (s_retry s) - 1) with
        | None => None
        | Some wait =>
            let r := set_schedule (MkSchedule (add64 now wait) (wrap 32 (inner (retry r) + 1))) (notify r) (s_expiry s)
                       (s_virtual_queue s) r in
            Some (set_recipients (<[idx := r]> (recipients m)) m)
        end
      else Some m
  end.

Definition rate_limited (r : Recipient) : Recipient := set_status (TemporaryFailure (MkError s#"localhost" RateLimited)) r.
(* [crates/smtp/src/outbound/delivery.rs:1593-1600] set_rcpt_rate_limit *)
Definition set_rcpt_rate_limit (idx : nat) (retry_at : Z) (m : Message) : option Message :=
  match recipients m !! idx with
  | None => None
  | Some r => Some (set_recipients (<[idx := rate_limited (set_retry (MkSchedule retry_at (inner (retry r))) r)]> (recipients m)) m)
  end.

(** ** Notifications *)

(* [crates/smtp/src/queue/dsn.rs:656-662] write_response *)
Definition write_response (r : Response) : list Z :=
  List.filter (fun c => negb (c =? 10) && negb (c =? 13)) (response_text r).
Definition print_esc (r : Response) : list Z :=
  let '(a, b, c) := esc r in print_decimal a ++ s#"." ++ print_decimal b ++ s#"." ++ print_decimal c.

(* [crates/smtp/src/queue/dsn.rs:427-440] HostResponse::write_dsn_text *)
Definition host_dsn_text (r : HostResponse) (addr : list Z) : list Z :=
  s#"<" ++ addr ++ s#"> (delivered to '" ++ host_name r ++ s#"' with code " ++ print_decimal (code (host_response r)) ++ s#" (" ++
  print_esc (host_response r) ++ s#") '" ++ write_response (host_response r) ++ s#"')" ++ crlf.

(* [crates/smtp/src/queue/dsn.rs:444-460] UnexpectedResponse::write_dsn_text *)
Definition unexpected_dsn_text (command : list Z) (r : Response) (host addr : list Z) : list Z :=
  s#"<" ++ addr ++ s#"> (host '" ++ host ++ s#"' rejected " ++
  (match command with [] => s#"transaction" | _ => s#"command '" ++ command ++ s#"'" end) ++
  s#" with code " ++ print_decimal (code r) ++ s#" (" ++ print_esc r ++ s#") '" ++ write_response r ++ s#"')" ++ crlf.

(* [crates/smtp/src/queue/dsn.rs:464-507] ErrorDetails::write_dsn_text *)
Definition error_dsn_text (e : ErrorDetails) (addr : list Z) : list Z :=
  let at_ := s#"<" ++ addr ++ s#"> " in
  match details e with
  | UnexpectedResponse command r => unexpected_dsn_text command r (entity e) addr
  | DnsError err => at_ ++ s#"(failed to lookup '" ++ entity e ++ s#"': " ++ err ++ s#")" ++ crlf
  | ConnectionError d => at_ ++ s#"(connection to '" ++ entity e ++ s#"' failed: " ++ d ++ s#")" ++ crlf
  | TlsError d => at_ ++ s#"(TLS error from '" ++ entity e ++ s#"': " ++ d ++ s#")" ++ crlf
  | DaneError d => at_ ++ s#"(DANE failed to authenticate '" ++ entity e ++ s#"': " ++ d ++ s#")" ++ crlf
  | MtaStsError d => at_ ++ s#"(MTA-STS failed to authenticate '" ++ entity e ++ s#"': " ++ d ++ s#")" ++ crlf
  | RateLimited => at_ ++ s#"(rate limited)" ++ crlf
  | ConcurrencyLimited => at_ ++ s#"(too many concurrent connections to remote server)" ++ crlf
  | QueueIo err => at_ ++ s#"(queue error: " ++ err ++ s#")" ++ crlf
  end.

(* [crates/smtp/src/queue/dsn.rs:636-648] Response::write_dsn_status *)
Definition response_dsn_status (r : Response) : list Z :=
  let '(a, _, _) := esc r in
  if 0 <? a then print_esc r
  else print_decimal (code r / 100) ++ s#"." ++ print_decimal ((code r / 10) mod 10) ++ s#"." ++ print_decimal (code r mod 10).

(** The text [rfc822_date t] of a time. *)
Variable rfc822_date : Z -> list Z.

(* [crates/smtp/src/queue/dsn.rs:561-569] write_dsn_action *)
Definition dsn_action (x : Status) : list Z :=
  s#"Action: " ++ match x with Completed _ => s#"delivered" | PermanentFailure _ => s#"failed" | _ => s#"delayed" end ++ crlf.
(* [crates/smtp/src/queue/dsn.rs:580-602] write_dsn_status *)
Definition dsn_status (x : Status) : list Z :=
  s#"Status: " ++
  match x with
  | Completed r => response_dsn_status (host_response r)
  | TemporaryFailure e | PermanentFailure e =>
      match details e with
      | UnexpectedResponse _ r => response_dsn_status r
      | _ => match x with PermanentFailure _ => s#"5.0.0" | _ => s#"4.0.0" end
      end
  | Scheduled => s#"4.0.0"
  end ++ crlf.
(* [crates/smtp/src/queue/dsn.rs:604-624] write_dsn_remote_mta *)
Definition dsn_remote_mta (x : Status) : list Z :=
  match x with
  | Completed r => s#"Remote-MTA: dns;" ++ host_name r ++ crlf
  | TemporaryFailure e | PermanentFailure e =>
      match details e with
      | UnexpectedResponse _ _ | ConnectionError _ | TlsError _ | DaneError _ => s#"Remote-MTA: dns;" ++ entity e ++ crlf
      | _ => []
      end
  | Scheduled => []
  end.
(* [crates/smtp/src/queue/dsn.rs:626-632] write_dsn_diagnostic *)
Definition dsn_diagnostic (x : Status) : list Z :=
  match x with
  | TemporaryFailure (MkError _ (UnexpectedResponse _ r)) | PermanentFailure (MkError _ (UnexpectedResponse _ r)) =>
      s#"Diagnostic-Code: smtp;" ++ print_decimal (code r) ++ s#" " ++ write_response r ++ crlf
  | _ => []
  end.
(* [crates/smtp/src/queue/dsn.rs:573-578] Status::write_dsn *)
Definition status_dsn (x : Status) : list Z := dsn_action x ++ dsn_status x ++ dsn_diagnostic x ++ dsn_remote_mta x.
(* [crates/smtp/src/queue/dsn.rs:524-529] Recipient::write_dsn *)
Definition rcpt_dsn_fields (r : Recipient) : list Z :=
  match orcpt r with Some o => s#"Original-Recipient: rfc822;" ++ o ++ crlf | None => [] end ++
  s#"Final-Recipient: rfc822;" ++ raddress r ++ crlf.
(* [crates/smtp/src/queue/dsn.rs:531-539] write_dsn_will_retry_until *)
Definition will_retry_until (now created : Z) (r : Recipient) : list Z :=
  match expiration_time r created with
  | Some x => if now <? x then s#"Will-Retry-Until: " ++ rfc822_date x ++ crlf else []
  | None => []
  end.
(* [crates/smtp/src/queue/dsn.rs:511-520] write_dsn_headers *)
Definition dsn_headers (m : Message) (reporting_mta : list Z) : list Z :=
  s#"Reporting-MTA: dns;" ++ reporting_mta ++ crlf ++ s#"Arrival-Date: " ++ rfc822_date (created m) ++ crlf ++
  match env_id m with Some e => s#"Original-Envelope-Id: " ++ e ++ crlf | None => [] end ++ crlf.

(** The texts of a notification: of successes, delays and failures, and the
    fields for each recipient. *)
Record DsnTexts := MkTexts { txt_success : list Z; txt_delay : list Z; txt_failed : list Z; dsn_fields : list Z }.

(** A recipient after it was reported, and the texts with its own. *)
(* [crates/smtp/src/queue/dsn.rs:145-189] build_dsn, a recipient *)
Definition report_recipient (now created : Z) (r : Recipient) (t : DsnTexts) : Recipient * DsnTexts :=
  if rcpt_has_flag r (Z.lor RCPT_DSN_SENT RCPT_NOTIFY_NEVER) then (r, t)
  else
    let fields := dsn_fields t ++ rcpt_dsn_fields r ++ status_dsn (rstatus r) in
    let sent := set_rflags (Z.lor (rflags r) RCPT_DSN_SENT) r in
    let delayed := (due (notify r) <=? now) && rcpt_has_flag r RCPT_NOTIFY_DELAY in
    let delay e :=
      MkTexts (txt_success t) (txt_delay t ++ error_dsn_text e (raddress r)) (txt_failed t)
        (fields ++ will_retry_until now created r ++ crlf) in
    match rstatus r with
    | Completed response =>
        (sent, if rcpt_has_flag r RCPT_NOTIFY_SUCCESS
               then MkTexts (txt_success t ++ host_dsn_text response (raddress r)) (txt_delay t) (txt_failed t) (fields ++ crlf)
               else t)
    | TemporaryFailure response => (r, if delayed then delay response else t)
    | PermanentFailure response =>
        (sent, if rcpt_has_flag r RCPT_NOTIFY_FAILURE
               then MkTexts (txt_success t) (txt_delay t) (txt_failed t ++ error_dsn_text response (raddress r)) (fields ++ crlf)
               else t)
    | Scheduled => (r, if delayed then delay (MkError s#"localhost" ConcurrencyLimited) else t)
    end.

Fixpoint report_recipients (now created : Z) (l : list Recipient) (t : DsnTexts) : list Recipient * DsnTexts :=
  match l with
  | [] => ([], t)
  | r :: l =>
      let '(r, t) := report_recipient now created r t in
      let '(l, t) := report_recipients now created l t in (r :: l, t)
  end.

(** The subject and the text of the notification. *)
(* [crates/smtp/src/queue/dsn.rs:197-253] build_dsn, the text *)
Definition dsn_text (t : DsnTexts) : list Z * list Z :=
  let has l := match l with [] => false | _ => true end in
  let s := has (txt_success t) in let d := has (txt_delay t) in let f := has (txt_failed t) in
  let blank := crlf ++ crlf in
  let '(intro, subject, is_mixed) :=
    if s && negb d && negb f then
      (s#"Your message has been successfully delivered to the following recipients:", s#"Successfully delivered message", false)
    else if d && negb s && negb f then
      (s#"There was a temporary problem delivering your message to the following recipients:",
       s#"Warning: Delay in message delivery", false)
    else if f && negb s && negb d then
      (s#"Your message could not be delivered to the following recipients:", s#"Failed to deliver message", false)
    else if s then (s#"Your message has been partially delivered:", s#"Partially delivered message", true)
    else
      (s#"Your message could not be delivered to some recipients:",
       s#"Warning: Temporary and permanent failures during message delivery", true) in
  let section (on : bool) title body := if on then (if is_mixed : bool then title ++ crlf else []) ++ body ++ crlf else [] in
  (subject,
   intro ++ blank ++
   section s s#"    ----- Delivery to the following addresses was successful -----" (txt_success t) ++
   section d s#"    ----- There was a temporary problem delivering to these addresses -----" (txt_delay t) ++
   section f s#"    ----- Delivery to the following addresses failed -----" (txt_failed t)).

(** The message after its recipients were reported, and what is reported. *)
(* [crates/smtp/src/queue/dsn.rs:135-195] build_dsn *)
Definition build_dsn (now : Z) (m : Message) : Message * option DsnTexts :=
  let '(l, t) := report_recipients now (created m) (recipients m) (MkTexts [] [] [] []) in
  (set_recipients l m,
   match txt_success t, txt_delay t, txt_failed t with [], [], [] => None | _, _, _ => Some t end).

(* [crates/smtp/src/queue/dsn.rs:364-391] update_next_dsn, a recipient *)
Definition next_notification (now : Z) (m : Message) (r : Recipient) : Recipient :=
  if is_pending r && (due (notify r) <=? now) then
    let n := wrap 32 (inner (notify r) + 1) in
    match s_notify (strategy m r) !! Z.to_nat n with
    | Some wait => set_notify (MkSchedule (add64 now wait) n) r
    | None => set_notify (MkSchedule u64_max (inner (notify r))) r
    end
  else r.
(* [crates/smtp/src/queue/dsn.rs:360-392] update_next_dsn *)
Definition update_next_dsn (now : Z) (m : Message) : Message :=
  set_recipients (map (next_notification now m) (recipients m)) m.

(* [crates/smtp/src/queue/dsn.rs:398-414] handle_double_bounce, a recipient *)
Definition double_bounce (now created : Z) (r : Recipient) : Recipient :=
  let r :=
    if negb (rcpt_has_flag r (Z.lor RCPT_DSN_SENT RCPT_NOTIFY_NEVER)) then
      match rstatus r with PermanentFailure _ => set_rflags (Z.lor (rflags r) RCPT_DSN_SENT) r | _ => r end
    else r in
  if due (notify r) <=? now then
    set_notify (MkSchedule match expiration_time r created with Some d => add64 d 10 | None => u64_max end (inner (notify r))) r
  else r.
(* [crates/smtp/src/queue/dsn.rs:394-423] handle_double_bounce *)
Definition handle_double_bounce (now : Z) (m : Message) : Message :=
  set_recipients (map (double_bounce now (created m)) (recipients m)) m.

(** The message afterwards, and the texts of the notification that is queued
    to its return path. *)
(* [crates/smtp/src/queue/dsn.rs:34-68] send_dsn *)
Definition send_dsn (now : Z) (m : Message) : Message * option DsnTexts :=
  let '(m, t) := match return_path m with [] => (handle_double_bounce now m, None) | _ => build_dsn now m end in
  (update_next_dsn now m, t).
End Queue.
