(* ===== verification/SmtpServer.v ===== *)
(** * The server around an SMTP session ([crates/smtp/src/core])

    The state of a session, the effects of its handlers, and the interface of
    everything they call: settings, DNS, stores, filters, the directory, the
    queue, the parsers of smtp-proto and the client's socket.  A call may
    depend on and change the world [W]. *)

From S2P Require Import Prelude Decimals Utf8 Text IpMask Milter SmtpData SmtpQueue.

(** ** Requests (smtp-proto) *)

Record MailFrom := MkMailFrom {
  m_address : list Z; m_flags : Z; m_size : Z; m_by : Z; m_env_id : option (list Z); m_mt_priority : Z;
  m_hold_for : Z; m_hold_until : Z }.
Record RcptTo := MkRcptTo { r_address : list Z; r_flags : Z; r_orcpt : option (list Z) }.

Inductive Request :=
| QEhlo (host : list Z) | QHelo (host : list Z) | QLhlo (host : list Z)
| QMail (from : MailFrom) | QRcpt (to : RcptTo)
| QData | QBdat (chunk_size : Z) (is_last : bool)
| QAuth (mechanism : Z) (initial_response : list Z)
| QNoop | QVrfy (value : list Z) | QExpn (value : list Z) | QStartTls | QRset | QQuit | QHelp
| QOther.                                   (* ETRN, ATRN and BURL *)

Inductive ParseError :=
| NeedsMoreData | UnknownCommand | InvalidResponse | InvalidSenderAddress | InvalidRecipientAddress
| SyntaxError (syntax : list Z) | InvalidParameter (param : list Z) | UnsupportedParameter (param : list Z) | ResponseTooLong.

(** ** Answers of the server's parts *)

(* [crates/common/src/config/smtp/auth.rs:68-73] VerifyStrategy *)
Inductive VerifyStrategy := Relaxed | Strict | Disable.
(* [crates/common/src/config/smtp/auth.rs:358-360] verify *)
Definition verify (v : VerifyStrategy) : bool := match v with Strict | Relaxed => true | Disable => false end.
(* [crates/common/src/config/smtp/auth.rs:363-365] is_strict *)
Definition is_strict (v : VerifyStrategy) : bool := match v with Strict => true | _ => false end.

(* [crates/common/src/network/mod.rs:40-47] RcptResolution *)
Inductive RcptResolution :=
| RAccept | RExpand (members : list (list Z)) | RRewrite (address : list Z) | UnknownRecipient | UnknownDomain.

Inductive Stage := SConnect | SEhlo | SMail | SRcpt | SData.

(* [crates/smtp/src/scripts/mod.rs:22-32] ScriptResult *)
Inductive ScriptModification := SetEnvelope (name : Envelope) (value : list Z) | SAddHeader (name value : list Z).
Inductive ScriptResult :=
| ScriptAccept (modifications : list ScriptModification)
| ScriptReplace (message : list Z) (modifications : list ScriptModification)
| ScriptReject (message : list Z) | ScriptDiscard.

Inductive Credentials :=
| CBasic (username secret : list Z) | CBearer (username : option (list Z)) (token : list Z).

(** Why an authentication fails, as the session tells it. *)
Inductive AuthFailure := AuthFailed | TokenExpired | MfaRequired | Unauthorized | OtherSecurity | OtherFailure.

(** What the settings see of a session: its data, its name and TLS. *)
Record View := MkView { v_data : SessionData; v_hostname : list Z; v_tls : bool }.

(** A limiter of the inbound rate. *)
(* [crates/smtp/src/core/throttle.rs:181-211] is_allowed, a limiter *)
Record Limiter := MkLimiter {
  lim_matches : View -> option bool;       (* its expression; [Some true] when that is empty *)
  lim_rcpt_domain : bool }.

Inductive ServerProtocol := Smtp | Lmtp.

(** The settings that the handlers evaluate; [None]: no value. *)
Record Settings := {
  transfer_limit : View -> option Z; duration : View -> option Z; timeout : View -> option Z;
  verify_ehlo : View -> option VerifyStrategy; verify_mail_from : View -> option VerifyStrategy;
  verify_iprev_ : View -> option VerifyStrategy;
  s_ehlo_require : View -> option bool; reject_non_fqdn : View -> option bool;
  s_auth_require : View -> option bool; s_auth_errors_max : View -> option Z; s_auth_errors_wait : View -> option Z;
  expn : View -> option bool; vrfy : View -> option bool;
  s_rcpt_errors_max : View -> option Z; s_rcpt_errors_wait : View -> option Z; max_recipients : View -> option Z;
  dsn : View -> option bool; s_max_message_size : View -> option Z;
  mechanisms : View -> option Z; must_match_sender : View -> option bool;
  pipelining : View -> option bool; chunking : View -> option bool; requiretls : View -> option bool;
  s_future_release : View -> option Z; deliver_by : View -> option Z; mt_priority : View -> option Z;
  no_soliciting : View -> option (list Z);
  connect_hostname : View -> option (list Z); greeting : View -> option (list Z);
  script : Stage -> View -> option (list Z);
  is_allowed_sender : View -> option bool; mail_rewrite : View -> option (list Z);
  rcpt_rewrite_empty : bool; rcpt_rewrite : View -> option (list Z); relay : View -> option bool;
  max_messages : View -> option Z;
  milters : Stage -> View -> list Milter; hooks : Stage -> View -> list Milter;
  grey_list_expiry : option Z;
  limiters_rcpt : list Limiter; limiters_sender : list Limiter; limiters_remote : list Limiter
}.

(** The extensions of an EHLO response. *)
Inductive Capability :=
| EXT_ENHANCED_STATUS_CODES | EXT_8BIT_MIME | EXT_BINARY_MIME | EXT_SMTP_UTF8 | EXT_START_TLS | EXT_PIPELINING | EXT_CHUNKING
| EXT_EXPN | EXT_VRFY | EXT_REQUIRE_TLS | EXT_DSN | EXT_AUTH (mechanisms : Z) | EXT_FUTURE_RELEASE (interval datetime : Z)
| EXT_DELIVER_BY (seconds : Z) | EXT_MT_PRIORITY (priority : Z) | EXT_SIZE (size : Z) | EXT_NO_SOLICITING (keywords : option (list Z)).

Class Server := {
  #[global] crates :: Crates;
  W : Type;
  (* the settings, which may be reloaded *)
  settings : W -> Settings;
  now : W -> Z;                                            (* a clock in seconds *)
  (* the receivers of smtp-proto *)
  RequestReceiver : Type; request_new : RequestReceiver;
  request_ingest : RequestReceiver -> list Z -> RequestReceiver * result Request ParseError * list Z;
  DataReceiver : Type; data_receiver : DataReceiver;
  data_ingest : DataReceiver -> list Z -> list Z -> DataReceiver * list Z * list Z * bool;
  BdatReceiver : Type; bdat_receiver : Z -> bool -> BdatReceiver; bdat_is_last : BdatReceiver -> bool;
  bdat_ingest : BdatReceiver -> list Z -> list Z -> BdatReceiver * list Z * list Z * bool;
  DummyReceiver : Type; dummy_bdat : Z -> DummyReceiver; dummy_data : DataReceiver -> DummyReceiver;
  dummy_ingest : DummyReceiver -> list Z -> DummyReceiver * list Z * bool;
  DummyLine : Type; dummy_line : DummyLine; dummy_line_ingest : DummyLine -> list Z -> DummyLine * list Z * bool;
  line_ingest : list Z -> list Z -> list Z * list Z * bool;
  MAX_LINE_LENGTH : nat;
  write_ehlo_response : list Z -> list Capability -> list Z;
  debug_char : Z -> list Z;                                (* of Rust's [Debug], by the Unicode tables *)
  (* the listener and the socket *)
  protocol : ServerProtocol;
  acceptor_is_tls : bool;
  tls_accept : W -> W * bool;
  socket_takes : list (list Z) -> list Z -> bool;
  (* DNS *)
  verify_spf : View -> list Z -> W -> W * SpfOutput;       (* the domain that is checked *)
  verify_iprev : W -> W * IprevOutput;
  spf_report : SpfOutput -> bool -> W -> W;
  has_valid_labels : list Z -> bool;
  (* scripts and filters *)
  Script : Type; get_trusted_sieve_script : list Z -> W -> option Script;
  run_script : Script -> Stage -> View -> W -> W * ScriptResult;
  milter_io : Stage -> View -> W -> W * (nat -> result (list Modification) Rejection);
  hook_io : Stage -> View -> W -> W * (nat -> option HookResponse);
  (* stores and directories *)
  rcpt_resolve : list Z -> W -> W * result RcptResolution unit;
  sync_member : list Z -> W -> W;
  is_scanner_fail2banned : W -> W * result bool unit;
  is_rcpt_fail2banned : list Z -> W -> W * result bool unit;
  is_loiter_fail2banned : W -> W * result bool unit;
  key_exists : list Z -> W -> W * result bool unit;
  key_set : list Z -> Z -> W -> W * result unit unit;
  is_rate_allowed : Limiter -> View -> W -> W * result (option Z) unit;  (* [Some]: the limit is reached *)
  base64_decode : list Z -> option (list Z);
  decode_plain : list Z -> option Credentials; decode_oauth : list Z -> option Credentials;
  into_string : list Z -> list Z;
  authenticate_account : Credentials -> W -> W * result AccountInfo AuthFailure;
  AUTH_PLAIN : Z; AUTH_LOGIN : Z; AUTH_OAUTHBEARER : Z; AUTH_XOAUTH2 : Z
}.

Section Session.
Context {Sv : Server}.

(* [crates/smtp/src/core/mod.rs:106-132] SessionParameters *)
Record SessionParameters := MkParams {
  p_timeout : Z; ehlo_require : bool; ehlo_reject_non_fqdn : bool; auth_require : bool; auth_errors_max : Z;
  auth_errors_wait : Z; rcpt_errors_max : Z; rcpt_errors_wait : Z; rcpt_max : Z; rcpt_dsn : bool; can_expn : bool;
  can_vrfy : bool; max_message_size : Z; p_iprev : VerifyStrategy; p_spf_ehlo : VerifyStrategy;
  p_spf_mail_from : VerifyStrategy }.
(** [SessionParameters::default()]. *)
Definition default_params : SessionParameters :=
  MkParams 0 false false false 0 0 0 0 0 false false false 0 Relaxed Relaxed Relaxed.

(** [mechanism] and the credentials so far. *)
(* [crates/smtp/src/inbound/auth.rs:15-18] SaslToken *)
Record SaslToken := MkToken { mechanism : Z; credentials : Credentials }.

(* [crates/smtp/src/core/mod.rs:41-50] State *)
Inductive State :=
| SRequest (r : RequestReceiver)
| SBdat (r : BdatReceiver)
| SData_ (r : DataReceiver)
| SSasl (buf : list Z) (token : SaslToken)
| SSkipData (r : DummyReceiver) (response : list Z)
| SRequestTooLarge (r : DummyLine)
| SAccepted (queue_id : Z)
| SNone.

(** [output]: the replies written, one by one; [queued]: what the queue took. *)
(* [crates/smtp/src/core/mod.rs:52-60] Session *)
Record Session := MkSession {
  hostname : list Z; sstate : State; tls : bool; data : SessionData; params : SessionParameters; output : list (list Z);
  queued : list Queued }.

Definition view (s : Session) : View := MkView (data s) (hostname s) (tls s).

(** ** Effects: [Disconnect] is [Err(())], which ends the session;
       [OutOfFuel]: a loop was given too little. *)

Inductive Outcome (A : Type) := Ret (a : A) | Disconnect | Panicked | OutOfFuel.
#[global] Arguments Ret {A}. #[global] Arguments Disconnect {A}. #[global] Arguments Panicked {A}. #[global] Arguments OutOfFuel {A}.

Definition M (A : Type) : Type := Session * W -> Session * W * Outcome A.
Definition ret {A} (a : A) : M A := fun st => (st, Ret a).
Definition disconnect_ {A} : M A := fun st => (st, Disconnect).
Definition panic {A} : M A := fun st => (st, Panicked).
Definition mbind {A B} (m : M A) (k : A -> M B) : M B := fun st =>
  match m st with
  | (st, Ret a) => k a st
  | (st, Disconnect) => (st, Disconnect)
  | (st, Panicked) => (st, Panicked)
  | (st, OutOfFuel) => (st, OutOfFuel)
  end.

Definition get : M Session := fun st => (st, Ret (fst st)).
Definition get_data : M SessionData := fun st => (st, Ret (data (fst st))).
Definition get_params : M SessionParameters := fun st => (st, Ret (params (fst st))).
Definition with_data (d : SessionData) (s : Session) : Session := MkSession (hostname s) (sstate s) (tls s) d (params s) (output s) (queued s).
Definition modify (f : SessionData -> SessionData) : M unit := fun '(s, w) => ((with_data (f (data s)) s, w), Ret tt).
Definition set_params (p : SessionParameters) : M unit := fun '(s, w) =>
  ((MkSession (hostname s) (sstate s) (tls s) (data s) p (output s) (queued s), w), Ret tt).
Definition set_state (x : State) : M unit := fun '(s, w) =>
  ((MkSession (hostname s) x (tls s) (data s) (params s) (output s) (queued s), w), Ret tt).
Definition set_hostname (h : list Z) : M unit := fun '(s, w) =>
  ((MkSession h (sstate s) (tls s) (data s) (params s) (output s) (queued s), w), Ret tt).

(** [server.eval_if(..)]. *)
Definition eval_if {A} (f : Settings -> View -> option A) : M (option A) := fun '(s, w) => ((s, w), Ret (f (settings w) (view s))).
Definition eval_or {A} (f : Settings -> View -> option A) (d : A) : M A := fun '(s, w) =>
  ((s, w), Ret (default d (f (settings w) (view s)))).
Definition call {A} (f : W -> W * A) : M A := fun '(s, w) => let '(w, a) := f w in ((s, w), Ret a).
Definition call_view {A} (f : View -> W -> W * A) : M A := fun '(s, w) => let '(w, a) := f (view s) w in ((s, w), Ret a).
Definition read_world {A} (f : W -> A) : M A := fun '(s, w) => ((s, w), Ret (f w)).
Definition read_clock : M Z := fun '(s, w) => ((s, w), Ret (now w)).

(* [crates/smtp/src/inbound/session.rs:497-529] write *)
Definition write (bytes : list Z) : M unit := fun '(s, w) =>
  if socket_takes (output s) bytes then
    ((MkSession (hostname s) (sstate s) (tls s) (data s) (params s) (output s ++ [bytes]) (queued s), w), Ret tt)
  else ((s, w), Disconnect).

Definition line (s : list Z) : list Z := s ++ [13; 10].
Definition reply (s : list Z) : M unit := write (line s).

(* [crates/smtp/src/inbound/auth.rs:203-208] authenticated_as *)
Definition authenticated_name (d : SessionData) : option (list Z) := option_map account_name (authenticated_as d).
(* [crates/smtp/src/inbound/auth.rs:210-212] is_authenticated *)
Definition is_authenticated (d : SessionData) : bool := match authenticated_as d with Some _ => true | None => false end.
End Session.

Notation "'let*' x := m 'in' k" := (mbind m (fun x => k)) (at level 10, x pattern, m at level 100, k at level 200).
