(* ===== verification/SmtpCommands.v ===== *)
(** * The commands of SMTP ([crates/smtp/src/inbound, core/params.rs, core/throttle.rs])

    EHLO, AUTH, MAIL, RCPT, VRFY and EXPN, with the parameters that the
    settings give and the inbound rate limits. *)

From S2P Require Import Prelude Decimals Utf8 Text Milter SmtpData SmtpQueue SmtpServer.

Section Commands.
Context {Sv : Server}.

Definition FROM_MB : Z := 25 * 1024 * 1024.
Definition usize_max : Z := u64_max.

(** ** Parameters *)

(* [crates/smtp/src/core/params.rs:12-101] eval_session_params *)
Definition eval_session_params : M unit :=
  let* bytes_left := eval_or transfer_limit (250 * 1024 * 1024) in
  let* _ := modify (set_bytes_left bytes_left) in
  let* seconds := eval_or duration (15 * 60) in
  let* _ := modify (fun d => set_valid_until (valid_until d + seconds) d) in
  let* timeout := eval_or timeout (5 * 60) in
  let* spf_ehlo := eval_or verify_ehlo Relaxed in
  let* spf_mail_from := eval_or verify_mail_from Relaxed in
  let* iprev := eval_or verify_iprev_ Relaxed in
  let* ehlo_require := eval_or s_ehlo_require true in
  let* reject := eval_or reject_non_fqdn true in
  let* auth_require := eval_or s_auth_require false in
  let* errors_max := eval_or s_auth_errors_max 3 in
  let* errors_wait := eval_or s_auth_errors_wait 30 in
  let* can_expn := eval_or expn false in
  let* can_vrfy := eval_or vrfy false in
  let* p := get_params in
  set_params (MkParams timeout ehlo_require reject auth_require errors_max errors_wait (rcpt_errors_max p) (rcpt_errors_wait p)
    (rcpt_max p) (rcpt_dsn p) can_expn can_vrfy (max_message_size p) iprev spf_ehlo spf_mail_from).

(* [crates/smtp/src/core/params.rs:103-116] eval_post_auth_params *)
Definition eval_post_auth_params : M unit :=
  let* can_expn := eval_or expn false in
  let* can_vrfy := eval_or vrfy false in
  let* p := get_params in
  set_params (MkParams (p_timeout p) (ehlo_require p) (ehlo_reject_non_fqdn p) (auth_require p) (auth_errors_max p) (auth_errors_wait p)
    (rcpt_errors_max p) (rcpt_errors_wait p) (rcpt_max p) (rcpt_dsn p) can_expn can_vrfy (max_message_size p) (p_iprev p)
    (p_spf_ehlo p) (p_spf_mail_from p)).

(* [crates/smtp/src/core/params.rs:118-158] eval_rcpt_params *)
Definition eval_rcpt_params : M unit :=
  let* errors_max := eval_or s_rcpt_errors_max 10 in
  let* errors_wait := eval_or s_rcpt_errors_wait 30 in
  let* max := eval_or max_recipients 100 in
  let* dsn := eval_or dsn true in
  let* size := eval_if s_max_message_size in
  let size := match size with Some n => if n =? 0 then usize_max else n | None => FROM_MB end in
  let* p := get_params in
  set_params (MkParams (p_timeout p) (ehlo_require p) (ehlo_reject_non_fqdn p) (auth_require p) (auth_errors_max p) (auth_errors_wait p)
    errors_max errors_wait max dsn (can_expn p) (can_vrfy p) size (p_iprev p) (p_spf_ehlo p) (p_spf_mail_from p)).

(** ** Rate limits *)

Definition last_rcpt (d : SessionData) : option SessionAddress := list.last (rcpt_to d).

(** Limits by recipient domain count a domain once. *)
(* [crates/smtp/src/core/throttle.rs:189-200] is_allowed, the domain *)
Definition domain_counted (l : Limiter) (d : SessionData) : bool :=
  lim_rcpt_domain l &&
  let dom := match last_rcpt d with Some r => domain r | None => [] end in
  (1 <? length (List.filter (fun p => bytes_eqb (domain p) dom) (rcpt_to d)))%nat.

(* [crates/smtp/src/core/throttle.rs:181-236] is_allowed, the limiters *)
Fixpoint check_limits (l : list Limiter) : M bool :=
  match l with
  | [] => ret true
  | t :: l =>
      let* s := get in
      if default false (lim_matches t (view s)) && negb (domain_counted t (data s)) then
        let* r := call_view (is_rate_allowed t) in
        match r with Ok (Some _) => ret false | _ => check_limits l end
      else check_limits l
  end.

(* [crates/smtp/src/core/throttle.rs:172-237] is_allowed *)
Definition is_allowed : M bool :=
  let* s := read_world settings in
  let* d := get_data in
  check_limits match rcpt_to d with
               | _ :: _ => limiters_rcpt s
               | [] => match mail_from d with Some _ => limiters_sender s | None => limiters_remote s end
               end.

(** ** Scripts and filters *)

(* [crates/smtp/src/inbound/ehlo.rs:89-115] handle_ehlo, the script *)
Definition script_at (stage : Stage) : M (option ScriptResult) :=
  let* name := eval_if (fun s => script s stage) in
  match name with
  | Some name =>
      let* found := read_world (get_trusted_sieve_script name) in
      match found with
      | Some script => let* r := call_view (run_script script stage) in ret (Some r)
      | None => ret None
      end
  | None => ret None
  end.

(** The outcome of the milters, or the answer that they give. *)
Definition milters_at (stage : Stage) : M (result (list Modification) FilterResponse) := fun '(s, w) =>
  let m := milters (settings w) stage (view s) in
  let '(w, io) := milter_io stage (view s) w in
  ((s, w), match run_milters io 0 m [] with Some r => Ret r | None => Panicked end).
Definition hooks_at (stage : Stage) : M (result (list Modification) FilterResponse) := fun '(s, w) =>
  let h := hooks (settings w) stage (view s) in
  let '(w, io) := hook_io stage (view s) w in
  ((s, w), Ret (run_mta_hooks io 0 h [])).

(** Stages of a handler: [false] ends it, a reply has been written. *)
Definition then_if (m : M bool) (k : M unit) : M unit := let* go := m in if go : bool then k else ret tt.
Definition and_if (m k : M bool) : M bool := let* go := m in if go : bool then k else ret false.
Notation "m >?> k" := (and_if m k) (at level 62, right associativity).
Definition stop (r : list Z) : M bool := let* _ := reply r in ret false.
Definition go : M bool := ret true.

(** A filter's rejection undoes the step and is the reply. *)
Definition filtered (m : M (result (list Modification) FilterResponse)) (undo : SessionData -> SessionData) : M bool :=
  let* r := m in
  match r with
  | Ok _ => go
  | Err message => let* _ := modify undo in let* _ := write (fmessage message) in ret false
  end.

Definition apply_script_modifications (l : list ScriptModification) : M unit :=
  modify (fun d => fold_left (fun d m =>
    match m with SetEnvelope name value => apply_envelope_modification name value d | SAddHeader _ _ => d end) l d).

(** A script that may change the envelope. *)
(* [crates/smtp/src/inbound/mail.rs:151-187] handle_mail_from, the script *)
Definition script_step (stage : Stage) (undo : SessionData -> SessionData) : M bool :=
  let* r := script_at stage in
  match r with
  | Some (ScriptAccept modifications) => let* _ := apply_script_modifications modifications in go
  | Some (ScriptReject message) => let* _ := modify undo in let* _ := write message in ret false
  | _ => go
  end.

(** ** SPF *)

(* [crates/smtp/src/inbound/mail.rs:529-580] handle_spf *)
Definition handle_spf (spf_output : SpfOutput) (strict : bool) : M bool :=
  let* result :=
    match spf_result spf_output with
    | SpfPass => ret true
    | result =>
        if strict then
          match result with
          | SpfTempError => stop s#"451 4.7.24 Temporary SPF validation error."
          | _ => stop (s#"550 5.7.23 SPF validation failed, status: " ++ spf_str result ++ s#".")
          end
        else ret true
    end in
  let* _ := call (fun w => (spf_report spf_output (negb result) w, tt)) in
  ret result.

(** ** EHLO *)

(** What a refused EHLO restores. *)
Definition ehlo_refused (prev : list Z) (d : SessionData) : SessionData :=
  set_spf_ehlo None (set_helo_domain prev (set_mail_from None d)).

(* [crates/smtp/src/inbound/ehlo.rs:48-87] handle_ehlo, SPF *)
Definition ehlo_spf (prev : list Z) : M bool :=
  let* p := get_params in
  if verify (p_spf_ehlo p) then
    let* d := get_data in
    let* out := call_view (fun v => verify_spf v (helo_domain d)) in
    let* ok := handle_spf out (is_strict (p_spf_ehlo p)) in
    if ok : bool then let* _ := modify (set_spf_ehlo (Some out)) in go
    else let* _ := modify (fun d => set_helo_domain prev (set_mail_from None d)) in ret false
  else go.

(* [crates/smtp/src/inbound/ehlo.rs:25-132] handle_ehlo, a new domain *)
Definition ehlo_domain (domain : list Z) : M bool :=
  let* s := get in
  if bytes_eqb domain (helo_domain (data s)) then go
  else if ehlo_reject_non_fqdn (params s) && negb (has_valid_labels domain) then stop s#"550 5.5.0 Invalid EHLO domain."
  else
    let prev := helo_domain (data s) in
    let* _ := modify (set_helo_domain domain) in
    ehlo_spf prev >?>
    (let* r := script_at SEhlo in
     match r with
     | Some (ScriptReject message) => let* _ := modify (ehlo_refused prev) in let* _ := write message in ret false
     | _ => go
     end) >?>
    filtered (milters_at SEhlo) (ehlo_refused prev) >?>
    filtered (hooks_at SEhlo) (ehlo_refused prev).

Definition cap (b : bool) (c : Capability) : list Capability := if b then [c] else [].

(* [crates/smtp/src/inbound/ehlo.rs:145-290] handle_ehlo, the extensions *)
Definition ehlo_capabilities (now : Z) (c : Settings) (v : View) : list Capability :=
  [EXT_ENHANCED_STATUS_CODES; EXT_8BIT_MIME; EXT_BINARY_MIME; EXT_SMTP_UTF8] ++
  cap (negb (v_tls v) && acceptor_is_tls) EXT_START_TLS ++
  cap (default true (pipelining c v)) EXT_PIPELINING ++
  cap (default true (chunking c v)) EXT_CHUNKING ++
  cap (default false (expn c v)) EXT_EXPN ++
  cap (default false (vrfy c v)) EXT_VRFY ++
  cap (default true (requiretls c v)) EXT_REQUIRE_TLS ++
  cap (default false (dsn c v)) EXT_DSN ++
  (if is_authenticated (v_data v) then []
   else let m := default 0 (mechanisms c v) in cap (negb (m =? 0)) (EXT_AUTH m)) ++
  match s_future_release c v with Some n => [EXT_FUTURE_RELEASE n (now + n)] | None => [] end ++
  match deliver_by c v with Some n => [EXT_DELIVER_BY n] | None => [] end ++
  match mt_priority c v with Some n => [EXT_MT_PRIORITY n] | None => [] end ++
  (let n := default FROM_MB (s_max_message_size c v) in cap (0 <? n) (EXT_SIZE n)) ++
  match no_soliciting c v with
  | Some [] => [EXT_NO_SOLICITING None]
  | Some t => [EXT_NO_SOLICITING (Some t)]
  | None => []
  end.

(* [crates/smtp/src/inbound/ehlo.rs:24-291] handle_ehlo *)
Definition handle_ehlo (domain : list Z) (is_extended : bool) : M unit :=
  then_if (ehlo_domain domain) (
    let* d := get_data in
    let* _ := match mail_from d with Some _ => modify reset | None => ret tt end in
    let* s := get in
    if negb is_extended then reply (s#"250 " ++ hostname s ++ s#" you had me at HELO")
    else
      let* now := read_clock in
      let* c := read_world settings in
      write (write_ehlo_response (hostname s) (ehlo_capabilities now c (view s)))).

(** ** AUTH *)

Definition no_credentials : Credentials := CBasic [] [].

(* [crates/smtp/src/inbound/auth.rs:21-42] SaslToken::from_mechanism *)
Definition from_mechanism (m : Z) : option SaslToken :=
  if (m =? AUTH_PLAIN) || (m =? AUTH_LOGIN) then Some (MkToken m no_credentials)
  else if (m =? AUTH_OAUTHBEARER) || (m =? AUTH_XOAUTH2) then Some (MkToken m (CBearer None []))
  else None.

(* [crates/smtp/src/inbound/auth.rs:185-201] auth_error *)
Definition auth_error (response : list Z) : M bool :=
  let* _ := modify (fun d => set_auth_errors (auth_errors d + 1) d) in
  let* _ := write response in
  let* s := get in
  if auth_errors (data s) <? auth_errors_max (params s) then ret false
  else
    let* _ := reply s#"455 4.3.0 Too many authentication errors, disconnecting." in
    disconnect_.

(** [false]: no more is expected of the client. *)
(* [crates/smtp/src/inbound/auth.rs:110-183] authenticate *)
Definition authenticate (credentials : Credentials) : M bool :=
  let* r := call (authenticate_account credentials) in
  match r with
  | Ok account =>
      let* _ := modify (set_authenticated_as (Some account)) in
      let* _ := eval_post_auth_params in
      stop s#"235 2.7.0 Authentication succeeded."
  | Err AuthFailed => auth_error (line s#"535 5.7.8 Authentication credentials invalid.")
  | Err TokenExpired => auth_error (line s#"535 5.7.8 OAuth token expired.")
  | Err MfaRequired =>
      auth_error (line (s#"334 5.7.8 This account requires multi-factor authentication. " ++
                        s#"Alternatively, you can use an app password if your account has one."))
  | Err Unauthorized => stop s#"550 5.7.1 Your account is not authorized to use this service."
  | Err OtherSecurity => disconnect_
  | Err OtherFailure => stop s#"454 4.7.0 Temporary authentication failure"
  end.

(** The token afterwards, and whether a further line is expected. *)
(* [crates/smtp/src/inbound/auth.rs:46-108] handle_sasl_response *)
Definition handle_sasl_response (token : SaslToken) (response : list Z) : M (SaslToken * bool) :=
  let m := mechanism token in
  let keep (k : M bool) := let* b := k in ret (token, b) in
  let challenge (text : list Z) (token : SaslToken) := let* _ := reply text in ret (token, true) in
  let invalid := keep (auth_error (line s#"500 5.5.6 Invalid challenge.")) in
  match response with
  | [] =>
      if (m =? AUTH_PLAIN) || (m =? AUTH_XOAUTH2) || (m =? AUTH_OAUTHBEARER) then challenge s#"334 " token
      else if m =? AUTH_LOGIN then
        match credentials token with
        | CBasic [] [] => challenge s#"334 VXNlcm5hbWU6" token
        | _ => invalid
        end
      else invalid
  | _ =>
      match base64_decode response with
      | Some response =>
          if m =? AUTH_PLAIN then
            match decode_plain response with Some c => keep (authenticate c) | None => invalid end
          else if m =? AUTH_LOGIN then
            match credentials token with
            | CBasic [] secret => challenge s#"334 UGFzc3dvcmQ6" (MkToken m (CBasic (into_string response) secret))
            | CBasic username _ =>
                let* b := authenticate (CBasic username (into_string response)) in ret (MkToken m no_credentials, b)
            | _ => invalid
            end
          else if (m =? AUTH_OAUTHBEARER) || (m =? AUTH_XOAUTH2) then
            match decode_oauth response with Some c => keep (authenticate c) | None => invalid end
          else invalid
      | None => invalid
      end
  end.

(** ** VRFY and EXPN *)

(* [crates/smtp/src/inbound/vrfy.rs:14-64] handle_vrfy *)
Definition handle_vrfy (address : list Z) : M unit :=
  let* p := get_params in
  if can_vrfy p then
    let* r := call (rcpt_resolve (to_lowercase_address address true)) in
    match r with
    | Ok RAccept | Ok (RRewrite _) => reply (s#"250 " ++ address)
    | Ok _ => reply s#"550 5.1.2 Address not found."
    | Err _ => reply s#"252 2.4.3 Unable to verify address at this time."
    end
  else reply s#"252 2.5.1 VRFY is disabled.".

(* [crates/smtp/src/inbound/vrfy.rs:74-82] handle_expn, the members *)
Fixpoint expn_lines (l : list (list Z)) : list Z :=
  match l with
  | [] => []
  | [value] => line (s#"250 " ++ value)
  | value :: l => line (s#"250-" ++ value) ++ expn_lines l
  end.

(* [crates/smtp/src/inbound/vrfy.rs:66-121] handle_expn *)
Definition handle_expn (address : list Z) : M unit :=
  let* p := get_params in
  if can_expn p then
    let* r := call (rcpt_resolve (to_lowercase_address address true)) in
    match r with
    | Ok (RExpand addresses) => write (expn_lines addresses)
    | Ok _ => reply s#"550 5.1.2 Mailing list not found."
    | Err _ => reply s#"252 2.4.3 Unable to expand mailing list at this time."
    end
  else reply s#"252 2.5.1 EXPN is disabled.".

(** ** MAIL *)

Definition drop_sender : SessionData -> SessionData := set_mail_from None.
(** A refusal after the sender is set. *)
Definition refuse (r : list Z) : M bool := let* _ := modify drop_sender in stop r.

(** [mail_from.as_ref().unwrap()]. *)
Definition sender : M SessionAddress :=
  let* d := get_data in match mail_from d with Some a => ret a | None => panic end.

(* [crates/smtp/src/inbound/mail.rs:24-84] handle_mail_from, the order of commands *)
Definition mail_sequence : M bool :=
  let* s := get in
  let d := data s in
  let p := params s in
  if match helo_domain d with [] => true | _ => false end &&
     (ehlo_require p || verify (p_spf_ehlo p) || verify (p_spf_mail_from p)) then stop s#"503 5.5.1 Polite people say EHLO first."
  else if match mail_from d with Some _ => true | None => false end then stop s#"503 5.5.1 Multiple MAIL commands not allowed."
  else if auth_require p && negb (is_authenticated d) then stop s#"503 5.5.1 You must authenticate first."
  else if match iprev d with None => true | Some _ => false end && verify (p_iprev p) then
    let* out := call verify_iprev in
    let* _ := modify (set_iprev (Some out)) in go
  else go.

(* [crates/smtp/src/inbound/mail.rs:86-109] handle_mail_from, reverse DNS *)
Definition mail_reverse_dns : M bool :=
  let* s := get in
  if is_strict (p_iprev (params s)) then
    match option_map iprev_result (iprev (data s)) with
    | Some IprevPass => go
    | Some IprevTempError => stop s#"451 4.7.25 Temporary error validating reverse DNS."
    | _ => stop s#"550 5.7.25 Reverse DNS validation failed."
    end
  else go.

(* [crates/smtp/src/inbound/mail.rs:111-127] handle_mail_from, the sender *)
Definition sender_of (from : MailFrom) : SessionAddress :=
  match m_address from with
  | [] => MkAddress [] [] [] (m_flags from) (m_env_id from)
  | a => let lcase := to_lowercase_address a true in MkAddress a lcase (domain_part lcase) (m_flags from) (m_env_id from)
  end.

(* [crates/smtp/src/inbound/mail.rs:129-149] handle_mail_from, whether the sender is allowed *)
Definition mail_allowed (from : MailFrom) : M bool :=
  let* _ := modify (set_mail_from (Some (sender_of from))) in
  let* allowed := eval_or is_allowed_sender true in
  if allowed : bool then go else refuse s#"550 5.7.1 Sender address not allowed.".

(* [crates/smtp/src/inbound/mail.rs:151-199] handle_mail_from, the filters *)
Definition mail_filters : M bool :=
  script_step SMail drop_sender >?>
  filtered (milters_at SMail) drop_sender >?>
  filtered (hooks_at SMail) drop_sender.

(* [crates/smtp/src/inbound/mail.rs:201-229] handle_mail_from, rewriting *)
Definition mail_rewritten : M bool :=
  let* new := eval_if mail_rewrite in
  match new with
  | Some new_address =>
      let* a := sender in
      let* _ :=
        if has_at new_address then
          let lcase := to_lowercase_address new_address true in
          modify (set_mail_from (Some (set_address new_address lcase (domain_part lcase) a)))
        else match new_address with [] => modify (set_mail_from (Some (set_address [] [] [] a))) | _ => ret tt end in
      go
  | None => go
  end.

(* [crates/smtp/src/inbound/mail.rs:231-271] handle_mail_from, the user's own addresses *)
Definition mail_matches : M bool :=
  let* d := get_data in
  match authenticated_as d with
  | Some account =>
      let* must := eval_or must_match_sender true in
      if must : bool then
        let* a := sender in
        if bytes_eqb (account_name account) (address_lcase a) || existsb (fun e => bytes_eqb e (address_lcase a)) (addresses account)
        then go
        else refuse s#"501 5.5.4 You are not allowed to send from this address."
      else go
  | None => go
  end.

Definition has_flag (f mask : Z) : bool := negb (Z.land f mask =? 0).

(* [crates/smtp/src/inbound/mail.rs:292-331] handle_mail_from, BY *)
Definition mail_by (from : MailFrom) : M bool :=
  if has_flag (m_flags from) (Z.lor MAIL_BY_NOTIFY MAIL_BY_RETURN) then
    let* max := eval_if deliver_by in
    match max with
    | Some seconds =>
        let abs := if m_by from =? i64_min then 0 else Z.abs (m_by from) in
        if (abs <=? seconds) && ((0 <? m_by from) || has_flag (m_flags from) MAIL_BY_NOTIFY) then
          let* _ := modify (set_delivery_by (m_by from)) in go
        else refuse (s#"501 5.5.4 BY parameter exceeds maximum of " ++ print_decimal seconds ++ s#" seconds.")
    | None => refuse s#"501 5.5.4 DELIVERBY extension has been disabled."
    end
  else go.

(* [crates/smtp/src/inbound/mail.rs:332-360] handle_mail_from, MT-PRIORITY *)
Definition mail_priority (from : MailFrom) : M bool :=
  if m_mt_priority from =? 0 then go
  else
    let* on := eval_if mt_priority in
    match on with
    | Some _ =>
        if (-6 <=? m_mt_priority from) && (m_mt_priority from <? 6) then
          let* _ := modify (set_priority (m_mt_priority from)) in go
        else refuse s#"501 5.5.4 Invalid priority value."
    | None => refuse s#"501 5.5.4 MT-PRIORITY extension has been disabled."
    end.

(* [crates/smtp/src/inbound/mail.rs:361-381] handle_mail_from, SIZE *)
Definition mail_size (from : MailFrom) : M bool :=
  if 0 <? m_size from then
    let* max := eval_or s_max_message_size FROM_MB in
    if (0 <? max) && (max <? m_size from) then refuse s#"552 5.3.4 Message too big for system." else go
  else go.

(* [crates/smtp/src/inbound/mail.rs:382-425] handle_mail_from, HOLDFOR and HOLDUNTIL *)
Definition mail_hold (from : MailFrom) : M bool :=
  if negb (m_hold_for from =? 0) || negb (m_hold_until from =? 0) then
    let* max := eval_if s_future_release in
    match max with
    | Some max_hold =>
        let* now := read_clock in
        let hold_for := if negb (m_hold_for from =? 0) then m_hold_for from else Z.max 0 (m_hold_until from - now) in
        if hold_for <=? max_hold then let* _ := modify (set_future_release hold_for) in go
        else refuse (s#"501 5.5.4 Requested hold time exceeds maximum of " ++ print_decimal max_hold ++ s#" seconds.")
    | None => refuse s#"501 5.5.4 FUTURERELEASE extension has been disabled."
    end
  else go.

(* [crates/smtp/src/inbound/mail.rs:273-438] handle_mail_from, the parameters *)
Definition mail_parameters (from : MailFrom) : M bool :=
  (if has_flag (m_flags from) MAIL_REQUIRETLS then
     let* on := eval_or requiretls false in
     if on : bool then go else refuse s#"501 5.5.4 REQUIRETLS has been disabled."
   else go) >?>
  mail_by from >?> mail_priority from >?> mail_size from >?> mail_hold from >?>
  (match m_env_id from with
   | Some _ => let* on := eval_or dsn false in if on : bool then go else refuse s#"501 5.5.4 DSN extension has been disabled."
   | None => go
   end).

(* [crates/smtp/src/inbound/mail.rs:440-526] handle_mail_from, SPF *)
Definition mail_spf : M bool :=
  let* s := get in
  if verify (p_spf_mail_from (params s)) then
    let* a := sender in
    let* out := call_view (fun v => verify_spf v (match address a with [] => helo_domain (data s) | _ => domain a end)) in
    let* ok := handle_spf out (is_strict (p_spf_mail_from (params s))) in
    if ok : bool then let* _ := modify (set_spf_mail_from (Some out)) in go
    else let* _ := modify drop_sender in ret false
  else go.

(* [crates/smtp/src/inbound/mail.rs:23-527] handle_mail_from *)
Definition handle_mail_from (from : MailFrom) : M unit :=
  then_if (mail_sequence >?> mail_reverse_dns >?> mail_allowed from >?> mail_filters >?> mail_rewritten >?> mail_matches >?>
           mail_parameters from) (
    let* allowed := is_allowed in
    if allowed : bool then
      then_if mail_spf (let* _ := sender in let* _ := eval_rcpt_params in reply s#"250 2.1.0 OK")
    else
      let* _ := sender in
      let* _ := modify drop_sender in reply s#"452 4.4.5 Rate limit exceeded, try again later.").

(** ** RCPT *)

Definition KV_GREYLIST : Z := 16.

(** [rcpt_to.pop()]. *)
Definition pop (d : SessionData) : SessionData := set_rcpt_to (removelast (rcpt_to d)) d.
Definition push (a : SessionAddress) (d : SessionData) : SessionData := set_rcpt_to (rcpt_to d ++ [a]) d.
Definition one_more (d : SessionData) : SessionData := set_rcpt_oks (rcpt_oks d + 1) d.
(** [rcpt_to.last().unwrap()]. *)
Definition recipient : M SessionAddress :=
  let* d := get_data in match last_rcpt d with Some a => ret a | None => panic end.
Definition accepted : M bool := let* _ := modify one_more in stop s#"250 2.1.5 OK".

(* [crates/smtp/src/inbound/rcpt.rs:396-440] rcpt_error *)
Definition rcpt_error (response rcpt : list Z) : M bool :=
  let* _ := modify (fun d => set_rcpt_errors (rcpt_errors d + 1) d) in
  let* s := get in
  let too_many := rcpt_errors_max (params s) <=? rcpt_errors (data s) in
  let* _ := call (is_rcpt_fail2banned rcpt) in
  if negb too_many then stop response
  else let* _ := reply s#"451 4.3.0 Too many errors, disconnecting." in disconnect_.

Definition notify_mask : Z := Z.lor (Z.lor (Z.lor RCPT_NOTIFY_DELAY RCPT_NOTIFY_NEVER) RCPT_NOTIFY_SUCCESS) RCPT_NOTIFY_FAILURE.

(* [crates/smtp/src/inbound/rcpt.rs:43-70] handle_rcpt_to, the order of commands *)
Definition rcpt_sequence (to : RcptTo) : M bool :=
  let* s := get in
  let d := data s in
  match mail_from d with
  | None => stop s#"503 5.5.1 MAIL is required first."
  | Some _ =>
      if rcpt_max (params s) <=? Z.min (Z.of_nat (length (rcpt_to d))) (rcpt_oks d) then stop s#"455 4.5.3 Too many recipients."
      else if (has_flag (r_flags to) notify_mask || match r_orcpt to with Some _ => true | None => false end) &&
              negb (rcpt_dsn (params s)) then stop s#"501 5.5.4 DSN extension has been disabled."
      else go
  end.

(* [crates/smtp/src/inbound/rcpt.rs:72-91] handle_rcpt_to, the recipient *)
Definition rcpt_of (to : RcptTo) : SessionAddress :=
  let lcase := to_lowercase_address (r_address to) true in
  MkAddress (r_address to) lcase (domain_part lcase) (r_flags to) (r_orcpt to).
Definition rcpt_pushed (to : RcptTo) : M bool :=
  let* d := get_data in
  if contains (rcpt_to d) (rcpt_of to) then accepted else let* _ := modify (push (rcpt_of to)) in go.

(* [crates/smtp/src/inbound/rcpt.rs:154-174] handle_rcpt_to, rewriting *)
Definition rcpt_rewritten : M bool :=
  let* new := eval_if rcpt_rewrite in
  match new with
  | Some new_address =>
      let* a := recipient in
      let* _ :=
        if has_at new_address then
          let lcase := to_lowercase_address new_address true in
          modify (update_to (set_address new_address lcase (domain_part lcase)))
        else ret tt in
      go
  | None => go
  end.

(* [crates/smtp/src/inbound/rcpt.rs:176-187] handle_rcpt_to, duplicates *)
Definition rcpt_unique : M bool :=
  let* a := recipient in
  let* d := get_data in
  if (1 <? length (List.filter (address_eqb a) (rcpt_to d)))%nat then let* _ := modify pop in accepted else go.

Definition runs_at (stage : Stage) : M bool := fun '(s, w) =>
  ((s, w), Ret (existsb run_on_stage (milters (settings w) stage (view s)) || existsb run_on_stage (hooks (settings w) stage (view s)))).

(* [crates/smtp/src/inbound/rcpt.rs:93-188] handle_rcpt_to, the filters *)
Definition rcpt_filters : M bool :=
  let* name := eval_if (fun s => script s SRcpt) in
  let* found := read_world (fun w => match name with Some n => get_trusted_sieve_script n w | None => None end) in
  let* empty := read_world (fun w => rcpt_rewrite_empty (settings w)) in
  let* filters := runs_at SRcpt in
  if match found with Some _ => true | None => false end || negb empty || filters then
    (match found with
     | Some script =>
         let* r := call_view (run_script script SRcpt) in
         match r with
         | ScriptAccept modifications => let* _ := apply_script_modifications modifications in go
         | ScriptReject message => let* _ := modify pop in let* _ := write message in ret false
         | _ => go
         end
     | None => go
     end) >?>
    filtered (milters_at SRcpt) pop >?> filtered (hooks_at SRcpt) pop >?> rcpt_rewritten >?> rcpt_unique
  else go.

(** The members of a list, which take the place of its address. *)
(* [crates/smtp/src/inbound/rcpt.rs:190-264] handle_rcpt_to, the address *)
Definition rcpt_verified : M (option (option (list (list Z)))) :=
  let* a := recipient in
  let refused (text : list Z) := let* _ := modify pop in let* _ := rcpt_error text (address_lcase a) in ret None in
  let* r := call (rcpt_resolve (address_lcase a)) in
  match r with
  | Ok RAccept => ret (Some None)
  | Ok (RRewrite new) =>
      let* _ := modify pop in
      let* d := get_data in
      let new_addr := address_new new in
      if contains (rcpt_to d) new_addr then let* _ := accepted in ret None
      else
        let* _ := modify (push (set_flags (flags a) (set_dsn_info (Some (s#"rfc822;" ++ address_lcase a)) new_addr))) in
        ret (Some None)
  | Ok (RExpand members) => ret (Some (Some members))
  | Ok UnknownRecipient => refused s#"550 5.1.2 Mailbox does not exist."
  | Ok UnknownDomain =>
      let* relay := eval_or relay false in
      if relay : bool then ret (Some None) else refused s#"550 5.1.2 Relay not allowed."
  | Err _ =>
      let* _ := modify pop in
      let* _ := reply s#"451 4.4.3 Unable to verify address at this time." in ret None
  end.

(* [crates/smtp/src/inbound/rcpt.rs:267-333] handle_rcpt_to, greylisting *)
Definition rcpt_greylisted : M bool :=
  let* d := get_data in
  let* expiry := read_world (fun w => grey_list_expiry (settings w)) in
  match expiry with
  | Some duration =>
      if is_authenticated d then go
      else
        let* from := sender in
        let* to := recipient in
        let key := KV_GREYLIST :: address_lcase from ++ address_lcase to in
        let* known := call (key_exists key) in
        match known with
        | Ok false =>
            let* saved := call (key_set key duration) in
            match saved with
            | Ok _ => let* _ := modify pop in stop s#"452 4.2.2 Greylisted, please try again in a few moments."
            | Err _ => go
            end
        | _ => go
        end
  | None => go
  end.

(** One member: added unless it is there already or is the list itself. *)
(* [crates/smtp/src/inbound/rcpt.rs:357-389] handle_rcpt_to, the members *)
Fixpoint expand_members (list_addr : SessionAddress) (members : list (list Z)) : M unit :=
  match members with
  | [] => ret tt
  | member :: members =>
      let member_addr := address_new member in
      let* d := get_data in
      let* _ :=
        if negb (contains (rcpt_to d) member_addr) && negb (bytes_eqb (address_lcase member_addr) (address_lcase list_addr)) then
          let* _ := call (fun w => (sync_member (address_lcase member_addr) w, tt)) in
          modify (push (set_flags (flags list_addr) (set_dsn_info (Some (s#"rfc822;" ++ address_lcase list_addr)) member_addr)))
        else ret tt in
      expand_members list_addr members
  end.

(* [crates/smtp/src/inbound/rcpt.rs:266-393] handle_rcpt_to, the end *)
Definition rcpt_added (members : option (list (list Z))) : M unit :=
  let* allowed := is_allowed in
  if allowed : bool then
    then_if rcpt_greylisted (
      let* list_addr := recipient in
      let* _ :=
        match members with
        | Some members => let* _ := modify pop in expand_members list_addr members
        | None => ret tt
        end in
      let* _ := accepted in ret tt)
  else
    let* _ := recipient in
    let* _ := modify pop in
    reply s#"452 4.4.5 Rate limit exceeded, try again later.".

(* [crates/smtp/src/inbound/rcpt.rs:26-394] handle_rcpt_to *)
Definition handle_rcpt_to (to : RcptTo) : M unit :=
  then_if (rcpt_sequence to >?> rcpt_pushed to >?> rcpt_filters) (
    let* members := rcpt_verified in
    match members with
    | Some members => rcpt_added members
    | None => ret tt
    end).
End Commands.
