(* ===== verification/SmtpMessage.v ===== *)
(** * Accepting a message ([crates/smtp/src/inbound/data.rs])

    What happens between the last byte of a message and the reply: it is
    parsed, authenticated, taken for a report, given headers, classified,
    filtered, run through a script and put into the queue.  Every stage may
    end with a reply of its own. *)

From S2P Require Import Prelude Decimals Utf8 Text IpMask Milter SmtpData SmtpQueue SmtpServer SmtpCommands.

(** ** What mail-parser and mail-auth give *)

Inductive Algorithm := RsaSha1 | RsaSha256 | OtherAlgorithm.
Record DkimSignature := MkSignature { algorithm : Algorithm; b_len : Z }.
Record Part := MkPart { is_rfc822 : bool; is_rfc822_headers : bool; offset_body : nat; offset_end : nat }.
Record ContentType := MkContentType { ctype : list Z; subtype : option (list Z); attribute : list Z -> option (list Z) }.
(** [root_children]: when the body of the root part is a multipart. *)
Record ParsedMessage := MkParsed {
  has_known_header : bool; content_type : option ContentType; root_children : option (list nat); parts : list Part;
  auth_message : AuthMessage; has_date_header : bool; has_message_id_header : bool; received_headers_count : Z;
  dkim_headers : list DkimSignature; has_dkim2_signatures : bool; has_dkim2_errors : bool }.

Record DkimOutput := MkDkim { dkim_result : DkimResult; failure_report_addr : option (list Z); dkim_domain : option (list Z) }.
Record DmarcOutput := MkDmarc { dmarc_spf : DmarcResult; dmarc_dkim : DmarcResult; dmarc_policy : Policy; requested_reports : bool }.
Inductive Dkim2DsnFailure := DsnChainFailed | ReturnedChainFailed | NotAligned | OtherDsnFailure.

Inductive AddressMatch := MStartsWith (prefix : list Z) | MEndsWith (suffix : list Z) | MEquals (value : list Z).

Inductive SpamFilterAction :=
| SpamAllow (headers : list Z) (train_spam : option bool) (is_spam : bool) (results : list bool)
| SpamDiscard | SpamReject | SpamDisabled.

(** What a script at this stage is told besides the session. *)
Record ScriptInput := MkInput {
  i_headers : list Z; i_spam_status : option bool; i_arc_result : list Z; i_dkim_result : list Z; i_dkim_domains : list (list Z);
  i_dmarc_result : list Z; i_dmarc_policy : list Z; i_message : ParsedMessage }.

Record MessageSettings := {
  dkim_strict : bool; max_received_headers : View -> option Z;
  verify_dkim_ : View -> option VerifyStrategy; verify_dmarc_ : View -> option VerifyStrategy;
  verify_arc_ : View -> option VerifyStrategy;
  dkim_send : View -> option Z;                            (* the rate of reports *)
  analysis_addresses : list AddressMatch; analysis_forward : bool;
  add_received : View -> option bool; add_auth_results : View -> option bool; add_received_spf : View -> option bool;
  add_return_path : View -> option bool; add_date : View -> option bool; add_message_id : View -> option bool;
  spam_enabled : bool; spam_filter : View -> option bool
}.

Class MailServer {Sv : Server} := {
  message_settings : W -> MessageSettings;
  (* the socket *)
  remote_ip : IpAddr; tls_version_and_cipher : list Z * list Z;
  asn : option (Z * option (list Z)); country : option (list Z);
  (* mail-parser and mail-auth *)
  parse_message : bool -> list Z -> option ParsedMessage;
  auth_parses : list Z -> bool;
  verify_dkim : View -> ParsedMessage -> list DkimSignature -> W -> W * list DkimOutput;
  verify_arc : View -> ParsedMessage -> W -> W * DkimResult;
  Dkim2Output : Type; dkim2_is_none : Dkim2Output -> bool; chain_is_empty : Dkim2Output -> bool;
  verify_dkim2 : View -> ParsedMessage -> W -> W * Dkim2Output;
  verify_dkim2_dsn : View -> ParsedMessage -> list Z -> bool -> W -> W * option Dkim2DsnFailure;
  verify_dmarc : View -> ParsedMessage -> list DkimOutput -> option Dkim2Output -> list Z -> SpfOutput -> W -> W * DmarcOutput;
  AuthResult : Type;
  auth_dkim : list DkimOutput -> ParsedMessage -> AuthResult; auth_dkim2 : Dkim2Output -> AuthResult;
  auth_spf_ehlo : SpfOutput -> list Z -> AuthResult; auth_spf_mail_from : SpfOutput -> list Z -> list Z -> AuthResult;
  auth_iprev : IprevOutput -> AuthResult; auth_dmarc : DmarcOutput -> AuthResult;
  write_auth_results : list Z -> list AuthResult -> list Z;
  write_received_spf : View -> SpfOutput -> list Z;
  (* reports *)
  send_dkim_report : list Z -> DkimOutput -> bool -> W -> W;
  send_dmarc_report : DmarcOutput -> bool -> W -> W;
  analyze_report : ParsedMessage -> W -> W;
  (* filters *)
  spam_classify : View -> ParsedMessage -> list DkimOutput -> option Dkim2Output -> option DkimResult -> option DmarcResult ->
                  option Policy -> W -> W * SpamFilterAction;
  milter_message_io : ParsedMessage -> View -> W -> W * (nat -> result (list Modification) Rejection);
  hook_message_io : ParsedMessage -> View -> W -> W * (nat -> option HookResponse);
  run_message_script : Script -> ScriptInput -> View -> W -> W * ScriptResult;
  (* the queue *)
  generate_id : W -> W * Z;
  date_header : W -> list Z; message_id_header : list Z -> W -> list Z;
  queue_strategy : W -> Message -> Recipient -> QueueStrategy;
  has_quota : Message -> W -> W * option (list Metadata);
  queue_write : Queued -> W -> W * bool
}.

Section Message.
Context {Sv : Server} {Ml : MailServer}.

(** ** Stages: [Err] is the reply that ends the handler *)

Definition Stage_ (A : Type) : Type := M (result A (list Z)).
Definition then_ {A B} (m : Stage_ A) (k : A -> Stage_ B) : Stage_ B :=
  let* r := m in match r with Ok a => k a | Err reply => ret (Err reply) end.
Definition pass {A} (a : A) : Stage_ A := ret (Ok a).
Definition answer {A} (text : list Z) : Stage_ A := ret (Err (line text)).
Notation "'let+' x := m 'in' k" := (then_ m (fun x => k)) (at level 10, x pattern, m at level 100, k at level 200).

Definition message_or {A} (f : MessageSettings -> View -> option A) (d : A) : M A := fun '(s, w) =>
  ((s, w), Ret (default d (f (message_settings w) (view s)))).
Definition from_settings {A} (f : MessageSettings -> A) : M A := fun '(s, w) => ((s, w), Ret (f (message_settings w))).
Definition effect (f : W -> W) : M unit := fun '(s, w) => ((s, f w), Ret tt).
Definition sent_one (d : SessionData) : SessionData := set_messages_sent (messages_sent d + 1) d.

(* [crates/smtp/src/inbound/data.rs:58-103] queue_message, parsing and loop detection *)
Definition parse_stage (raw : list Z) : Stage_ ParsedMessage :=
  let* strict := from_settings dkim_strict in
  match parse_message strict raw with
  | Some p =>
      if has_known_header p then
        let* max := message_or max_received_headers 50 in
        if max <? received_headers_count p then answer s#"450 4.4.6 Too many Received headers. Possible loop detected."
        else pass p
      else answer s#"550 5.7.7 Failed to parse message."
  | None => answer s#"550 5.7.7 Failed to parse message."
  end.

(** ** Authentication *)

(* [crates/smtp/src/inbound/data.rs:118-133] queue_message, insecure signatures *)
Definition secure (g : DkimSignature) : bool :=
  match algorithm g with RsaSha1 => false | RsaSha256 => negb (b_len g <? 128) | OtherAlgorithm => true end.

Definition dkim_is (r : DkimResult) (o : DkimOutput) : bool :=
  match r, dkim_result o with DkimPass, DkimPass | DkimTempError, DkimTempError => true | _, _ => false end.

(* [crates/smtp/src/inbound/data.rs:155-161] queue_message, DKIM reports *)
Fixpoint dkim_reports (rejected : bool) (l : list DkimOutput) : M unit :=
  match l with
  | [] => ret tt
  | o :: l =>
      let* _ := match failure_report_addr o with Some rcpt => effect (send_dkim_report rcpt o rejected) | None => ret tt end in
      dkim_reports rejected l
  end.

(* [crates/smtp/src/inbound/data.rs:105-191] queue_message, DKIM *)
Definition dkim_stage (p : ParsedMessage) (dkim dmarc : VerifyStrategy) : Stage_ (list DkimOutput) :=
  if verify dkim || verify dmarc then
    let* out := call_view (fun v => verify_dkim v p (List.filter secure (dkim_headers p))) in
    let rejected := is_strict dkim && negb (existsb (dkim_is DkimPass) out) in
    let* rate := message_or (fun s v => Some (dkim_send s v)) None in
    let* _ := match rate with Some _ => dkim_reports rejected out | None => ret tt end in
    if rejected then
      if existsb (dkim_is DkimTempError) out then answer s#"451 4.7.20 No passing DKIM signatures found."
      else answer s#"550 5.7.20 No passing DKIM signatures found."
    else pass out
  else pass [].

(* [crates/smtp/src/inbound/data.rs:193-236] queue_message, ARC *)
Definition arc_stage (p : ParsedMessage) : Stage_ (option DkimResult) :=
  let* arc := message_or verify_arc_ Relaxed in
  if verify arc then
    let* out := call_view (fun v => verify_arc v p) in
    match out with
    | DkimPass | DkimNone => pass (Some out)
    | DkimTempError => if is_strict arc then answer s#"451 4.7.29 ARC validation failed." else pass (Some out)
    | _ => if is_strict arc then answer s#"550 5.7.29 ARC validation failed." else pass (Some out)
    end
  else pass None.

(* [crates/smtp/src/inbound/data.rs:1095-1106] parse_dkim2_dsn, the parts *)
Fixpoint returned_part (p : ParsedMessage) (raw : list Z) (children : list nat) (returned : list Z * bool) : option (list Z * bool) :=
  match children with
  | [] => Some returned
  | child :: children =>
      match parts p !! child with
      | None => None
      | Some part =>
          if is_rfc822 part then
            match get_range raw (offset_body part) (offset_end part) with
            | Some b => returned_part p raw children (b, true)
            | None => None
            end
          else if is_rfc822_headers part then
            match get_range raw (offset_body part) (offset_end part) with
            | Some b => returned_part p raw children (b, false)
            | None => None
            end
          else returned_part p raw children returned
      end
  end.

(** The message that a delivery status notification returns, and whether it
    is the whole of it. *)
(* [crates/smtp/src/inbound/data.rs:1075-1117] parse_dkim2_dsn *)
Definition parse_dkim2_dsn (p : ParsedMessage) (raw : list Z) : option (list Z * bool) :=
  match content_type p with
  | Some ct =>
      if eq_ignore_ascii_case (ctype ct) s#"multipart" &&
         match subtype ct with Some x => eq_ignore_ascii_case x s#"report" | None => false end &&
         match attribute ct s#"report-type" with Some x => eq_ignore_ascii_case x s#"delivery-status" | None => false end then
        match root_children p with
        | Some children =>
            match returned_part p raw children ([], false) with
            | Some ([], _) | None => None
            | Some (returned, full) => if auth_parses returned then Some (returned, full) else None
            end
        | None => None
        end
      else None
  | None => None
  end.

(* [crates/smtp/src/inbound/data.rs:238-319] queue_message, DKIM2 *)
Definition dkim2_stage (p : ParsedMessage) (raw : list Z) (dkim dmarc : VerifyStrategy) : Stage_ (option Dkim2Output) :=
  let* _ := sender in
  if (verify dkim || verify dmarc) && (has_dkim2_signatures p || has_dkim2_errors p) then
    let* failure :=
      match parse_dkim2_dsn p raw with
      | Some (returned, full) =>
          if verify dkim && has_dkim2_signatures p then call_view (fun v => verify_dkim2_dsn v p returned full) else ret None
      | None => ret None
      end in
    match failure with
    | Some (DsnChainFailed | ReturnedChainFailed | NotAligned) =>
        let* _ := modify sent_one in answer s#"550 5.7.1 DSN rejected due to DKIM2 verification failure."
    | _ => let* out := call_view (fun v => verify_dkim2 v p) in pass (Some out)
    end
  else pass None.

(* [crates/smtp/src/inbound/data.rs:321-349] queue_message, the authentication results *)
Definition auth_results (p : ParsedMessage) (dkim : list DkimOutput) (dkim2 : option Dkim2Output) (d : SessionData) (from : SessionAddress) :
    list AuthResult :=
  match dkim with [] => [] | _ => [auth_dkim dkim p] end ++
  match dkim2 with Some o => if dkim2_is_none o && chain_is_empty o then [] else [auth_dkim2 o] | None => [] end ++
  match spf_ehlo d with Some o => [auth_spf_ehlo o (helo_domain d)] | None => [] end ++
  match spf_mail_from d with Some o => [auth_spf_mail_from o (address from) (helo_domain d)] | None => [] end ++
  match iprev d with Some o => [auth_iprev o] | None => [] end.

Definition dmarc_eqb (a b : DmarcResult) : bool :=
  match a, b with
  | DmarcPass, DmarcPass | DmarcFail, DmarcFail | DmarcTempError, DmarcTempError | DmarcPermError, DmarcPermError
  | DmarcNone, DmarcNone => true
  | _, _ => false
  end.

(* [crates/smtp/src/inbound/data.rs:351-446] queue_message, DMARC *)
Definition dmarc_stage (p : ParsedMessage) (dmarc : VerifyStrategy) (dkim : list DkimOutput) (dkim2 : option Dkim2Output)
    (from : SessionAddress) (is_report : bool) : Stage_ (option DmarcOutput) :=
  if verify dmarc then
    let* d := get_data in
    let spf := default (MkSpf SpfNone None) (spf_mail_from d) in
    let dom := match domain from with [] => helo_domain d | x => x end in
    let* out := call_view (fun v => verify_dmarc v p dkim dkim2 dom spf) in
    let passed := dmarc_eqb (dmarc_spf out) DmarcPass || dmarc_eqb (dmarc_dkim out) DmarcPass in
    let rejected := is_strict dmarc && match dmarc_policy out with PolicyReject => true | _ => false end && negb passed in
    let is_temp_fail := (rejected && dmarc_eqb (dmarc_spf out) DmarcTempError) || dmarc_eqb (dmarc_dkim out) DmarcTempError in
    let* _ := if requested_reports out && negb is_report then effect (send_dmarc_report out rejected) else ret tt in
    if rejected then
      if is_temp_fail then answer s#"451 4.7.1 Email temporarily rejected per DMARC policy."
      else answer s#"550 5.7.1 Email rejected per DMARC policy."
    else pass (Some out)
  else pass None.

(* [crates/smtp/src/inbound/data.rs:395-403] queue_message, the result of DMARC *)
Definition dmarc_result (o : DmarcOutput) : DmarcResult :=
  if dmarc_eqb (dmarc_spf o) DmarcPass || dmarc_eqb (dmarc_dkim o) DmarcPass then DmarcPass
  else if negb (dmarc_eqb (dmarc_spf o) DmarcNone) then dmarc_spf o
  else if negb (dmarc_eqb (dmarc_dkim o) DmarcNone) then dmarc_dkim o
  else DmarcNone.

(** ** Reports *)

Definition address_matches (a : list Z) (m : AddressMatch) : bool :=
  match m with
  | MStartsWith prefix => starts_with prefix a
  | MEndsWith suffix => ends_with suffix a
  | MEquals value => bytes_eqb a value
  end.

(** By any recipient, under its original address. *)
(* [crates/smtp/src/reporting/inbound.rs:38-61] is_report *)
Definition is_report (addresses : list AddressMatch) (d : SessionData) : bool :=
  existsb (fun m => existsb (fun a =>
    let rcpt := match dsn_info a with Some i => default (address_lcase a) (strip_prefix s#"rfc822;" i) | None => address_lcase a end in
    address_matches rcpt m) (rcpt_to d)) addresses.

(* [crates/smtp/src/inbound/data.rs:448-483] queue_message, reports *)
Definition report_stage (p : ParsedMessage) (report : bool) : Stage_ unit :=
  if report then
    let* forward := from_settings analysis_forward in
    let* _ := effect (analyze_report p) in
    if forward : bool then pass tt
    else let* _ := modify sent_one in answer s#"250 2.0.0 Message queued for delivery."
  else pass tt.

(** ** Headers *)

Definition hex_digit (upper : bool) (n : Z) : Z := if n <? 10 then 48 + n else (if upper then 55 else 87) + n.
Fixpoint hex_fuel (fuel : nat) (upper : bool) (n : Z) : list Z :=
  match fuel with
  | O => []
  | S fuel => if n <? 16 then [hex_digit upper n] else hex_fuel fuel upper (n / 16) ++ [hex_digit upper (n mod 16)]
  end.
(** Of a [u64]. *)
Definition print_hex (upper : bool) (n : Z) : list Z := hex_fuel 16 upper n.

(* [crates/smtp/src/inbound/data.rs:1015-1072] write_received *)
Definition write_received (s : Session) (id : Z) (date : list Z) : list Z :=
  s#"Received: from " ++ helo_domain (data s) ++ s#" (" ++
  match iprev (data s) with
  | Some (MkIprev _ (Some (p :: _))) => default p (strip_suffix s#"." p)
  | _ => s#"unknown"
  end ++ s#" [" ++ ip_to_string remote_ip ++ s#"]" ++
  match asn, country with
  | None, None => []
  | _, _ =>
      s#" (" ++
      match asn with
      | Some (id, name) => s#"AS" ++ print_decimal id ++ match name with Some n => s#" " ++ n | None => [] end
      | None => []
      end ++
      match country with Some c => match asn with Some _ => s#", " | None => [] end ++ c | None => [] end ++ s#")"
  end ++ s#")" ++ crlf ++ [9] ++
  (if tls s then
     s#"(using " ++ fst tls_version_and_cipher ++ s#" with cipher " ++ snd tls_version_and_cipher ++ s#")" ++ crlf ++ [9]
   else []) ++
  s#"by " ++ hostname s ++ s#" (Stalwart SMTP) with " ++
  (match tls s, is_authenticated (data s) with
   | true, false => s#"ESMTPS" | true, true => s#"ESMTPSA" | false, false => s#"ESMTP" | false, true => s#"ESMTPA"
   end) ++
  s#" id " ++ print_hex true id ++ s#";" ++ crlf ++ [9] ++ date ++ crlf.

(* [crates/smtp/src/inbound/data.rs:485-523] queue_message, headers *)
Definition headers_stage (id : Z) (results : list AuthResult) : M (list Z) :=
  let* s := get in
  let* received := message_or add_received true in
  let* date := read_world date_header in
  let* auth := message_or add_auth_results true in
  let* spf := message_or add_received_spf true in
  ret ((if received : bool then write_received s id date else []) ++
       (if auth : bool then write_auth_results (hostname s) results else []) ++
       match spf_mail_from (data s) with
       | Some o => if spf : bool then write_received_spf (view s) o else []
       | None => []
       end).

(** ** Filters *)

Definition set_flag (f : Z) (a : SessionAddress) : SessionAddress := set_flags (Z.lor (flags a) f) a.

(* [crates/smtp/src/inbound/data.rs:561-568] queue_message, the scores of recipients *)
Fixpoint mark_spam (results : list bool) (l : list SessionAddress) : list SessionAddress :=
  match results, l with
  | is_spam :: results, a :: l => (if is_spam : bool then set_flag RCPT_SPAM_PAYLOAD a else a) :: mark_spam results l
  | _, _ => l
  end.

(** The headers with the filter's, the sample to train on, and the verdict. *)
(* [crates/smtp/src/inbound/data.rs:525-597] queue_message, the spam filter *)
Definition spam_stage (p : ParsedMessage) (dkim : list DkimOutput) (dkim2 : option Dkim2Output) (arc : option DkimResult)
    (dmarc : option DmarcOutput) (headers : list Z) : Stage_ (list Z * option bool * option bool) :=
  let* enabled := from_settings spam_enabled in
  let* on := message_or spam_filter true in
  if enabled && on then
    let* r := call_view (fun v => spam_classify v p dkim dkim2 arc (option_map dmarc_result dmarc) (option_map dmarc_policy dmarc)) in
    match r with
    | SpamAllow h train_spam is_spam results =>
        let* _ := modify (fun d => set_rcpt_to (mark_spam results (rcpt_to d)) d) in
        pass (headers ++ h, train_spam, Some is_spam)
    | SpamDiscard => let* _ := modify sent_one in answer s#"250 2.0.0 Message queued for delivery."
    | SpamReject => let* _ := modify sent_one in answer s#"550 5.7.1 Message rejected due to excessive spam score."
    | SpamDisabled => pass (headers, None, None)
    end
  else pass (headers, None, None).

(* [crates/smtp/src/inbound/data.rs:599-637] queue_message, milters and hooks *)
Definition filter_stage (p : ParsedMessage) : Stage_ (option (list Z)) :=
  let* m := (fun '(s, w) =>
    let l := milters (settings w) SData (view s) in
    let '(w, io) := milter_message_io p (view s) w in
    ((s, w), match run_milters io 0 l [] with Some r => Ret r | None => Panicked end)) in
  match m with
  | Err response => ret (Err (fmessage response))
  | Ok modifications =>
      let* h := (fun '(s, w) =>
        let l := hooks (settings w) SData (view s) in
        let '(w, io) := hook_message_io p (view s) w in
        ((s, w), Ret (run_mta_hooks io 0 l []))) in
      match h with
      | Err response => ret (Err (fmessage response))
      | Ok more =>
          let all := match more with [] => modifications | _ => List.filter (fun m => negb (is_replace_body m)) modifications ++ more end in
          match all with
          | [] => pass None
          | _ => fun '(s, w) =>
              let '(d, edited) := apply_milter_modifications all (auth_message p) (data s) in
              ((with_data d s, w), Ret (Ok edited))
          end
      end
  end.

(** The headers that a script adds. *)
(* [crates/smtp/src/inbound/data.rs:721-735] queue_message, modifications by the script *)
Definition script_headers (l : list ScriptModification) : list Z :=
  concat (map (fun m =>
    match m with
    | SAddHeader name value => name ++ s#": " ++ value ++ (if ends_with_lf value then [] else crlf)
    | SetEnvelope _ _ => []
    end) l).

Definition dkim_summary (l : list DkimOutput) : list Z :=
  match List.find (dkim_is DkimPass) l with
  | Some o => dkim_str (dkim_result o)
  | None => match l with o :: _ => dkim_str (dkim_result o) | [] => [] end
  end.
Definition dkim_domains (l : list DkimOutput) : list (list Z) :=
  concat (map (fun o => if dkim_is DkimPass o then match dkim_domain o with Some d => [to_lowercase d] | None => [] end else []) l).

(* [crates/smtp/src/inbound/data.rs:639-736] queue_message, the script *)
Definition script_stage (p : ParsedMessage) (dkim : list DkimOutput) (arc : option DkimResult) (dmarc : option DmarcOutput)
    (headers : list Z) (spam_status : option bool) (edited : option (list Z)) : Stage_ (list Z * option (list Z)) :=
  let* name := eval_if (fun s => script s SData) in
  let* found := read_world (fun w => match name with Some n => get_trusted_sieve_script n w | None => None end) in
  match found with
  | None => pass (headers, edited)
  | Some script =>
      let input := MkInput headers spam_status (match arc with Some r => dkim_str r | None => [] end) (dkim_summary dkim)
                     (dkim_domains dkim) (match dmarc with Some o => dmarc_str (dmarc_result o) | None => [] end)
                     (match dmarc with Some o => policy_str (dmarc_policy o) | None => [] end) p in
      let* r := call_view (run_message_script script input) in
      match r with
      | ScriptAccept modifications =>
          let* _ := apply_script_modifications modifications in pass (headers ++ script_headers modifications, edited)
      | ScriptReplace message modifications =>
          let* _ := apply_script_modifications modifications in pass (headers ++ script_headers modifications, Some message)
      | ScriptReject message => ret (Err message)
      | ScriptDiscard => answer s#"250 2.0.0 Message queued for delivery."
      end
  end.

(** ** The queue *)

(* [crates/smtp/src/inbound/data.rs:745-779] queue_message, missing headers *)
Definition last_headers (p : ParsedMessage) (m : Message) (headers : list Z) : M (list Z) :=
  let* s := get in
  let* path := message_or add_return_path true in
  let* date := message_or add_date true in
  let* date_text := read_world date_header in
  let* id := message_or add_message_id true in
  let* id_text := read_world (message_id_header (hostname s)) in
  ret (headers ++
       (if path : bool then s#"Return-Path: <" ++ return_path m ++ s#">" ++ crlf else []) ++
       (if negb (has_date_header p) && date then s#"Date: " ++ date_text ++ crlf else []) ++
       (if negb (has_message_id_header p) && id then s#"Message-ID: " ++ id_text ++ crlf else [])).

(* [crates/smtp/src/inbound/data.rs:787-810] queue_message, the source *)
Definition source_of (d : SessionData) (dmarc : option DmarcOutput) (train_spam : option bool) : MessageSource :=
  if is_authenticated d then Authenticated
  else Unauthenticated match dmarc with Some o => dmarc_eqb (dmarc_result o) DmarcPass | None => false end train_spam.

(* [crates/smtp/src/inbound/data.rs:738-836] queue_message, queueing *)
Definition queue_stage (p : ParsedMessage) (raw : list Z) (id : Z) (headers : list Z) (edited : option (list Z))
    (dmarc : option DmarcOutput) (train_spam : option bool) : M (list Z) :=
  let* from := sender in
  let* d := get_data in
  let* _ := modify (set_rcpt_to []) in
  let* m := read_world (fun w => build_message (queue_strategy w) (now w) d from (rcpt_to d)) in
  let* headers := last_headers p m headers in
  let bytes := default raw edited in
  let m := set_msize (Z.of_nat (length bytes + length headers)) m in
  let* quota := call (has_quota m) in
  match quota with
  | None => ret (line s#"452 4.3.1 Mail system full, try again later.")
  | Some metadata =>
      let entry := MkEntry id (set_metadata metadata m) (source_of d dmarc train_spam) headers bytes raw in
      let* ok := call (queue_write entry) in
      if ok : bool then
        let* _ := (fun '(s, w) =>
          ((MkSession (hostname s) (SAccepted id) (tls s) (data s) (params s) (output s) (queued s ++ [entry]), w), Ret tt)) in
        let* _ := modify sent_one in
        ret (line (s#"250 2.0.0 Message queued with id " ++ print_hex false id ++ s#"."))
      else ret (line s#"451 4.3.5 Unable to accept message at this time.")
  end.

(** The reply to the whole message. *)
(* [crates/smtp/src/inbound/data.rs:57-837] queue_message *)
Definition queue_message : M (list Z) :=
  let* r :=
    let* d := get_data in
    let raw := message d in
    let* _ := modify (set_message []) in
    let+ p := parse_stage raw in
    let* dkim := message_or verify_dkim_ Relaxed in
    let* dmarc := message_or verify_dmarc_ Relaxed in
    let+ dkim_output := dkim_stage p dkim dmarc in
    let+ arc_output := arc_stage p in
    let+ dkim2_output := dkim2_stage p raw dkim dmarc in
    let* from := sender in
    let* d := get_data in
    let results := auth_results p dkim_output dkim2_output d from in
    let* addresses := from_settings analysis_addresses in
    let report := negb (is_authenticated d) && is_report addresses d in
    let+ dmarc_output := dmarc_stage p dmarc dkim_output dkim2_output from report in
    let results := results ++ match dmarc_output with Some o => [auth_dmarc o] | None => [] end in
    let+ _ := report_stage p report in
    let* id := call generate_id in
    let* headers := headers_stage id results in
    let+ (headers, train_spam, spam_status) := spam_stage p dkim_output dkim2_output arc_output dmarc_output headers in
    let+ edited := filter_stage p in
    let+ (headers, edited) := script_stage p dkim_output arc_output dmarc_output headers spam_status edited in
    let* reply := queue_stage p raw id headers edited dmarc_output train_spam in
    ret (Ok reply)
  in match r with Ok reply | Err reply => ret reply end.

(** The refusal of DATA and BDAT. *)
(* [crates/smtp/src/inbound/data.rs:977-1013] can_send_data *)
Definition can_send_data : M (option (list Z)) :=
  let* d := get_data in
  match mail_from d, rcpt_to d with
  | None, _ => ret (Some (line s#"503 5.5.1 MAIL is required first."))
  | Some _, [] => ret (Some (line s#"503 5.5.1 RCPT is required first."))
  | Some _, _ :: _ =>
      let* max := eval_or max_messages 10 in
      if messages_sent d <? max then ret None
      else ret (Some (line s#"452 4.4.5 Maximum number of messages per session exceeded."))
  end.
End Message.
