(* ===== verification/SmtpSession.v ===== *)
(** * An SMTP connection ([crates/smtp/src/inbound/session.rs, spawn.rs])

    Reads are given to the state machine of a session, which hands requests to
    their handlers and messages to the queue; a connection starts with the
    throttle and the greeting, and may go over to TLS once. *)

From S2P Require Import Prelude Decimals Utf8 Text Milter SmtpData SmtpQueue SmtpServer SmtpCommands SmtpMessage.

Section Connection.
Context {Sv : Server} {Ml : MailServer}.

(** ** Requests *)

(** What is read next: [Stay] in the state, [Become] another one, or
    [Leave] for TLS. *)
Inductive After := Stay | Become (s : State) | Leave.
Definition stay (m : M unit) : M After := let* _ := m in ret Stay.

(* [crates/smtp/src/inbound/session.rs:57-67] ingest, DATA *)
Definition data_request : M After :=
  let* refusal := can_send_data in
  match refusal with
  | Some response => stay (write response)
  | None =>
      let* _ := reply s#"354 Start mail input; end with <CRLF>.<CRLF>" in
      let* _ := modify (set_message []) in
      ret (Become (SData_ data_receiver))
  end.

(* [crates/smtp/src/inbound/session.rs:68-100] ingest, BDAT *)
Definition bdat_request (chunk_size : Z) (is_last : bool) : M After :=
  let* refusal := can_send_data in
  let* s := get in
  ret (Become
    match refusal with
    | Some response => SSkipData (dummy_bdat chunk_size) response
    | None =>
        if Z.min usize_max (chunk_size + Z.of_nat (length (message (data s)))) <? max_message_size (params s)
        then SBdat (bdat_receiver chunk_size is_last)
        else SSkipData (dummy_bdat chunk_size) (line s#"552 5.3.4 Message too big for system.")
    end).

(* [crates/smtp/src/inbound/session.rs:101-154] ingest, AUTH *)
Definition auth_request (mechanism : Z) (initial_response : list Z) : M After :=
  let* auth := eval_or mechanisms 0 in
  let* d := get_data in
  if auth =? 0 then stay (reply s#"503 5.5.1 AUTH not allowed.")
  else if is_authenticated d then stay (reply s#"503 5.5.1 Already authenticated.")
  else
    match from_mechanism (Z.land mechanism auth) with
    | Some token =>
        let* (token, more) := handle_sasl_response token initial_response in
        ret (if more : bool then Become (SSasl [] token) else Stay)
    | None => stay (reply s#"554 5.7.8 Authentication mechanism not supported.")
    end.

(* [crates/smtp/src/inbound/session.rs:166-197] ingest, STARTTLS *)
Definition starttls_request : M After :=
  let* s := get in
  if tls s then stay (reply s#"504 5.7.4 Already in TLS mode.")
  else if acceptor_is_tls then let* _ := reply s#"220 2.0.0 Ready to start TLS." in ret Leave
  else stay (reply s#"502 5.7.0 TLS not available.").

Definition smtp_only (m : M unit) (refusal : list Z) : M After :=
  stay match protocol with Smtp => m | Lmtp => reply refusal end.
Definition lmtp_only (m : M unit) (refusal : list Z) : M After :=
  stay match protocol with Lmtp => m | Smtp => reply refusal end.

(* [crates/smtp/src/inbound/session.rs:38-254] ingest, a request *)
Definition handle_request (r : Request) : M After :=
  match r with
  | QRcpt to => stay (handle_rcpt_to to)
  | QMail from => stay (handle_mail_from from)
  | QEhlo host => smtp_only (handle_ehlo host true) s#"500 5.5.1 Invalid command."
  | QData => data_request
  | QBdat chunk_size is_last => bdat_request chunk_size is_last
  | QAuth mechanism initial_response => auth_request mechanism initial_response
  | QNoop => stay (reply s#"250 2.0.0 OK")
  | QVrfy value => stay (handle_vrfy value)
  | QExpn value => stay (handle_expn value)
  | QStartTls => starttls_request
  | QRset => stay (let* _ := modify reset in reply s#"250 2.0.0 OK")
  | QQuit => let* _ := reply s#"221 2.0.0 Bye." in disconnect_
  | QHelp => stay (reply s#"250 2.0.0 Help can be found at https://stalw.art")
  | QHelo host => smtp_only (handle_ehlo host false) s#"500 5.5.1 Invalid command: LHLO expected."
  | QLhlo host => lmtp_only (handle_ehlo host true) s#"502 5.5.1 Invalid command: EHLO expected."
  | QOther => stay (reply s#"502 5.5.1 Command not implemented.")
  end.

Definition debug_string (t : list Z) : list Z := 34 :: concat (map debug_char (chars t)) ++ [34].

(** [None]: more bytes are needed. *)
(* [crates/smtp/src/inbound/session.rs:255-360] ingest, an invalid request *)
Definition handle_error (e : ParseError) : M (option After) :=
  let reply_ t := let* _ := reply t in ret (Some Stay) in
  match e with
  | NeedsMoreData => ret None
  | UnknownCommand | InvalidResponse =>
      let* d := get_data in
      let* banned := (if is_authenticated d then ret (Ok false) else call is_scanner_fail2banned) in
      match banned with
      | Ok true => disconnect_
      | _ => reply_ s#"500 5.5.1 Invalid command."
      end
  | InvalidSenderAddress => reply_ s#"501 5.1.8 Bad sender's system address."
  | InvalidRecipientAddress => reply_ s#"501 5.1.3 Bad destination mailbox address syntax."
  | SyntaxError syntax =>
      let* p := get_params in
      if negb (ehlo_reject_non_fqdn p) && starts_with s#"EHLO " syntax then
        let* _ := handle_ehlo s#"null" true in ret (Some Stay)
      else reply_ (s#"501 5.5.2 Syntax error, expected: " ++ syntax)
  | InvalidParameter param => reply_ (s#"501 5.5.4 Invalid parameter " ++ debug_string param ++ s#".")
  | UnsupportedParameter param => reply_ (s#"504 5.5.4 Unsupported parameter " ++ debug_string param ++ s#".")
  | ResponseTooLong => ret (Some (Become (SRequestTooLarge dummy_line)))
  end.

(** ** Messages *)

Fixpoint write_times (n : nat) (bytes : list Z) : M unit :=
  match n with O => ret tt | S n => let* _ := write bytes in write_times n bytes end.

(** The replies to a message; no reply at all ends the session. *)
(* [crates/smtp/src/inbound/session.rs:366-381] ingest, the end of a message *)
Definition end_of_message : M unit :=
  let* message := queue_message in
  let* d := get_data in
  match message with
  | [] => disconnect_
  | _ =>
      let* _ := write_times match protocol with Smtp => 1%nat | Lmtp => Z.to_nat (rcpt_oks d) end message in
      modify reset
  end.

(** ** The state machine *)

(** After a step: go on with the rest of the read, wait for more in a state,
    or leave for TLS. *)
Inductive Next := GoOn (st : State) (rest : list Z) | Wait (st : State) | ToTls.

Definition default_state : State := SRequest request_new.

(** [len]: of the whole read. *)
(* [crates/smtp/src/inbound/session.rs:35-476] ingest, a step *)
Definition ingest_step (len : Z) (st : State) (iter : list Z) : M Next :=
  match st with
  | SRequest receiver =>
      let '(receiver, r, iter) := request_ingest receiver iter in
      let* after := match r with Ok request => let* a := handle_request request in ret (Some a) | Err e => handle_error e end in
      ret match after with
          | None => Wait (SRequest receiver)
          | Some Stay => GoOn (SRequest receiver) iter
          | Some (Become st) => GoOn st iter
          | Some Leave => ToTls
          end
  | SData_ receiver =>
      let* s := get in
      if Z.of_nat (length (message (data s))) + len <? max_message_size (params s) then
        let '(receiver, message, iter, done_) := data_ingest receiver iter (message (data s)) in
        let* _ := modify (set_message message) in
        if done_ : bool then let* _ := end_of_message in ret (GoOn default_state iter)
        else ret (Wait (SData_ receiver))
      else ret (GoOn (SSkipData (dummy_data receiver) (line s#"552 5.3.4 Message too big for system.")) iter)
  | SBdat receiver =>
      let* s := get in
      let '(receiver, message, iter, done_) := bdat_ingest receiver iter (message (data s)) in
      let* _ := modify (set_message message) in
      if done_ : bool then
        let* _ := if bdat_is_last receiver then end_of_message else reply s#"250 2.6.0 Chunk accepted." in
        ret (GoOn default_state iter)
      else ret (Wait (SBdat receiver))
  | SSasl buf token =>
      let '(buf, iter, done_) := line_ingest buf iter in
      if done_ : bool then
        if (length buf <? MAX_LINE_LENGTH)%nat then
          let* (token, more) := handle_sasl_response token buf in
          ret (GoOn (if more : bool then SSasl [] token else default_state) iter)
        else
          let* _ := auth_error (line s#"500 5.5.6 Authentication Exchange line is too long.") in
          ret (GoOn default_state iter)
      else ret (Wait (SSasl buf token))
  | SSkipData receiver response =>
      let '(receiver, iter, done_) := dummy_ingest receiver iter in
      if done_ : bool then
        let* _ := modify (set_message []) in
        let* _ := write response in
        ret (GoOn default_state iter)
      else ret (Wait (SSkipData receiver response))
  | SRequestTooLarge receiver =>
      let '(receiver, iter, done_) := dummy_line_ingest receiver iter in
      if done_ : bool then let* _ := reply s#"554 5.3.4 Line is too long." in ret (GoOn default_state iter)
      else ret (Wait (SRequestTooLarge receiver))
  | SNone | SAccepted _ => panic
  end.

Fixpoint ingest_loop (fuel : nat) (len : Z) (st : State) (iter : list Z) : M (option State) :=
  match fuel with
  | O => fun st => (st, OutOfFuel)
  | S fuel =>
      let* next := ingest_step len st iter in
      match next with
      | GoOn st iter => ingest_loop fuel len st iter
      | Wait st => ret (Some st)
      | ToTls => ret None
      end
  end.

(** Enough steps for a read of [n] bytes. *)
Definition ingest_fuel (n : nat) : nat := 3 * n + 3.

(** [false]: the connection is to go over to TLS. *)
(* [crates/smtp/src/inbound/session.rs:30-481] ingest *)
Definition ingest (bytes : list Z) : M bool :=
  let* s := get in
  let* _ := set_state SNone in
  let* st := ingest_loop (ingest_fuel (length bytes)) (Z.of_nat (length bytes)) (sstate s) bytes in
  match st with
  | Some st => let* _ := set_state st in ret true
  | None => let* _ := set_state default_state in ret false
  end.

(** ** The connection *)

(** [.write(..).await.ok()]. *)
Definition write_quietly (bytes : list Z) : M unit := fun st =>
  match write bytes st with (st, Ret _) | (st, Disconnect) => (st, Ret tt) | (st, o) => (st, o) end.

(** A script or a filter may refuse the connection. *)
Definition refused_by (m : M (result (list Modification) FilterResponse)) : M bool :=
  let* r := m in
  match r with
  | Ok _ => ret true
  | Err response => let* _ := write_quietly (fmessage response) in ret false
  end.

(* [crates/smtp/src/inbound/spawn.rs:73-140] init_conn *)
Definition init_conn : M bool :=
  let* _ := eval_session_params in
  and_if
    (let* r := script_at SConnect in
     match r with Some (ScriptReject message) => let* _ := write_quietly message in ret false | _ => ret true end)
    (and_if (refused_by (milters_at SConnect)) (and_if (refused_by (hooks_at SConnect)) (
      let* name := eval_or connect_hostname [] in
      let* _ := set_hostname match name with [] => s#"localhost" | _ => name end in
      let* greeting := eval_if greeting in
      let text := match greeting with
                  | Some (c :: g) => line (s#"220 " ++ c :: g)
                  | _ => line s#"220 Stalwart ESMTP at your service."
                  end in
      fun st => match write text st with
                | (st, Ret _) => (st, Ret true)
                | (st, Disconnect) => (st, Ret false)
                | (st, Panicked) => (st, Panicked)
                | (st, OutOfFuel) => (st, OutOfFuel)
                end))).

(** What the connection's task waits for. *)
Inductive Event := ERead (bytes : list Z) | EReadError | ETimeout | EShutdown.
Inductive Conn := Open | Upgrade | Closed.

(* [crates/smtp/src/inbound/spawn.rs:146-247] handle_conn, an event *)
Definition conn_step (e : Event) : M Conn :=
  let* s := get in
  let says before after := let* _ := write_quietly (line (before ++ hostname s ++ after)) in ret Closed in
  match e with
  | ERead [] => ret Closed
  | ERead bytes =>
      let* time := read_clock in
      let n := Z.of_nat (length bytes) in
      let left := bytes_left (data s) in
      if (time <? valid_until (data s)) && (n <=? left) then
        let* _ := modify (set_bytes_left (left - n)) in
        fun st => match ingest bytes st with
                  | (st, Ret true) => (st, Ret Open)
                  | (st, Ret false) => (st, Ret Upgrade)
                  | (st, Disconnect) => (st, Ret Closed)
                  | (st, Panicked) => (st, Panicked)
                  | (st, OutOfFuel) => (st, OutOfFuel)
                  end
      else if left <? n then says s#"452 4.7.28 " s#" Session exceeded transfer quota."
      else
        let* c := says s#"421 4.3.2 " s#" Session open for too long." in
        let* _ := call is_loiter_fail2banned in ret c
  | EReadError => ret Closed
  | ETimeout => says s#"221 2.0.0 " s#" Disconnecting inactive client."
  | EShutdown => says s#"421 4.3.0 " s#" Server shutting down."
  end.

(** The events that were not looked at, and how the connection is then. *)
(* [crates/smtp/src/inbound/spawn.rs:142-251] handle_conn *)
Fixpoint handle_conn (events : list Event) : M (list Event * Conn) :=
  match events with
  | [] => ret ([], Open)
  | e :: events =>
      let* c := conn_step e in
      match c with Open => handle_conn events | _ => ret (events, c) end
  end.

(* [crates/smtp/src/inbound/spawn.rs:253-266] into_tls *)
Definition into_tls : M bool := fun '(s, w) =>
  let '(w, ok) := tls_accept w in
  ((MkSession (hostname s) (sstate s) (if ok then true else tls s) (data s) (params s) (output s) (queued s), w), Ret ok).

(** A connection that implicit TLS may have covered from the start. *)
Definition session_new (now : Z) (is_tls : bool) : Session :=
  MkSession [] default_state is_tls (data_new now) default_params [] [].

(* [crates/smtp/src/inbound/spawn.rs:21-51] handle *)
Definition handle (events : list Event) : M Conn :=
  let* allowed := is_allowed in
  let* started := (if allowed : bool then init_conn else ret false) in
  if started : bool then
    let* (events, c) := handle_conn events in
    match c with
    | Upgrade =>
        let* ok := (if acceptor_is_tls then into_tls else ret false) in
        if ok : bool then let* (_, c) := handle_conn events in ret match c with Open => Open | _ => Closed end
        else ret Closed
    | c => ret c
    end
  else ret Closed.

Definition serve (is_tls : bool) (events : list Event) (w : W) : Session * W * Outcome Conn :=
  handle events (session_new (now w) is_tls, w).
End Connection.
