(* ===== verification/SmtpLogic.v ===== *)
(** * Reasoning about handlers of an SMTP session

    [wp m Q st]: from the state [st], [m] does not panic or run out of fuel,
    returns a value and a state of [Q], or ends the session in a state of
    [D].  One rule per effect; [step] applies them. *)

From S2P Require Import Prelude Decimals Utf8 Text Milter SmtpData SmtpQueue SmtpServer SmtpCommands SmtpMessage SmtpSession.

Section Wp.
Context {Sv : Server} (D : Session -> Prop).

Definition wp {A} (m : M A) (Q : A -> Session -> W -> Prop) (st : Session * W) : Prop :=
  match m st with
  | ((s, w), Ret a) => Q a s w
  | ((s, _), Disconnect) => D s
  | (_, Panicked) | (_, OutOfFuel) => False
  end.

Lemma wp_mono {A} (m : M A) (Q Q' : A -> Session -> W -> Prop) st : wp m Q st -> (forall a s w, Q a s w -> Q' a s w) -> wp m Q' st.
Proof. unfold wp. destruct (m st) as [[s w] []]; auto. Qed.

Lemma wp_intro {A} (m : M A) (Q : A -> Session -> W -> Prop) st :
  match m st with
  | ((s, w), Ret a) => Q a s w
  | ((s, _), Disconnect) => D s
  | (_, Panicked) | (_, OutOfFuel) => False
  end -> wp m Q st.
Proof. auto. Qed.

Lemma wp_seq {A B} (m : M A) (k : A -> M B) (Q : B -> Session -> W -> Prop) st :
  wp m (fun a s w => wp (k a) Q (s, w)) st -> wp (mbind m k) Q st.
Proof. unfold wp, mbind. destruct (m st) as [[s w] []]; auto. Qed.

Lemma wp_ret {A} (a : A) (Q : A -> Session -> W -> Prop) s w : Q a s w -> wp (ret a) Q (s, w).
Proof. auto. Qed.

Lemma wp_disconnect {A} (Q : A -> Session -> W -> Prop) s w : D s -> wp disconnect_ Q (s, w).
Proof. auto. Qed.

Definition said (bytes : list Z) (s : Session) : Session :=
  MkSession (hostname s) (sstate s) (tls s) (data s) (params s) (output s ++ [bytes]) (queued s).

Lemma wp_write bytes (Q : unit -> Session -> W -> Prop) s w : D s -> Q tt (said bytes s) w -> wp (write bytes) Q (s, w).
Proof. unfold wp, write. intros. case_if; auto. Qed.

Lemma wp_reply text (Q : unit -> Session -> W -> Prop) s w : D s -> Q tt (said (line text) s) w -> wp (reply text) Q (s, w).
Proof. apply wp_write. Qed.

Lemma wp_stop text (Q : bool -> Session -> W -> Prop) s w : D s -> Q false (said (line text) s) w -> wp (stop text) Q (s, w).
Proof. intros. apply wp_seq, wp_reply; auto. Qed.

Lemma wp_write_quietly bytes (Q : unit -> Session -> W -> Prop) s w : Q tt s w -> Q tt (said bytes s) w -> wp (write_quietly bytes) Q (s, w).
Proof. unfold wp, write_quietly, write. case_if; auto. Qed.

Lemma wp_try_write bytes (Q : bool -> Session -> W -> Prop) s w : Q false s w -> Q true (said bytes s) w ->
  wp (fun st => match write bytes st with
                | (st, Ret _) => (st, Ret true)
                | (st, Disconnect) => (st, Ret false)
                | (st, Panicked) => (st, Panicked)
                | (st, OutOfFuel) => (st, OutOfFuel)
                end) Q (s, w).
Proof. unfold wp, write. case_if; auto. Qed.

Lemma wp_call {A} (f : W -> W * A) (Q : A -> Session -> W -> Prop) s w :
  (forall w' a, f w = (w', a) -> Q a s w') -> wp (call f) Q (s, w).
Proof. unfold wp, call. destruct (f w) eqn:F. auto. Qed.

Lemma wp_call_view {A} (f : View -> W -> W * A) (Q : A -> Session -> W -> Prop) s w :
  (forall w' a, f (view s) w = (w', a) -> Q a s w') -> wp (call_view f) Q (s, w).
Proof. unfold wp, call_view. destruct (f (view s) w) eqn:F. auto. Qed.

Lemma wp_and_if m k (Q : bool -> Session -> W -> Prop) st :
  wp m (fun b s w => if b : bool then wp k Q (s, w) else Q false s w) st -> wp (and_if m k) Q st.
Proof. intros H. apply wp_seq. eapply wp_mono; [exact H |]. intros [] ? ?; auto. Qed.

Lemma wp_then_if m k (Q : unit -> Session -> W -> Prop) st :
  wp m (fun b s w => if b : bool then wp k Q (s, w) else Q tt s w) st -> wp (then_if m k) Q st.
Proof. intros H. apply wp_seq. eapply wp_mono; [exact H |]. intros [] ? ?; auto. Qed.

Lemma wp_then {A B} (m : Stage_ A) (k : A -> Stage_ B) (Q : result B (list Z) -> Session -> W -> Prop) st :
  wp m (fun r s w => match r with Ok a => wp (k a) Q (s, w) | Err e => Q (Err e) s w end) st -> wp (then_ m k) Q st.
Proof. intros H. apply wp_seq. eapply wp_mono; [exact H |]. intros [] ? ?; auto. Qed.
End Wp.

#[global] Opaque write.


(** The effects that only read or write the state. *)
Ltac effect_ :=
  apply wp_intro;
  cbv beta iota delta [get get_data get_params modify set_params set_state set_hostname eval_or eval_if read_clock message_or
    from_settings effect read_world fst snd].

(** One effect, or one operation on effects. *)
Ltac step :=
  lazymatch goal with
  | |- wp _ (mbind _ _) _ _ => apply wp_seq
  | |- wp _ (ret _) _ _ => apply wp_ret
  | |- wp _ go _ _ => apply wp_ret
  | |- wp _ (pass _) _ _ => apply wp_ret
  | |- wp _ (answer _) _ _ => apply wp_ret
  | |- wp _ disconnect_ _ _ => apply wp_disconnect
  | |- wp _ (write _) _ _ => apply wp_write
  | |- wp _ (reply _) _ _ => apply wp_reply
  | |- wp _ (stop _) _ _ => apply wp_stop
  | |- wp _ (call _) _ _ => apply wp_call; intros ? ? ?
  | |- wp _ (call_view _) _ _ => apply wp_call_view; intros ? ? ?
  | |- wp _ (and_if _ _) _ _ => apply wp_and_if
  | |- wp _ (then_if _ _) _ _ => apply wp_then_if
  | |- wp _ (then_ _ _) _ _ => apply wp_then
  | |- wp _ get _ _ => effect_
  | |- wp _ get_data _ _ => effect_
  | |- wp _ get_params _ _ => effect_
  | |- wp _ (modify _) _ _ => effect_
  | |- wp _ (set_params _) _ _ => effect_
  | |- wp _ (set_state _) _ _ => effect_
  | |- wp _ (set_hostname _) _ _ => effect_
  | |- wp _ (eval_or _ _) _ _ => effect_
  | |- wp _ (eval_if _) _ _ => effect_
  | |- wp _ read_clock _ _ => effect_
  | |- wp _ (message_or _ _) _ _ => effect_
  | |- wp _ (from_settings _) _ _ => effect_
  | |- wp _ (effect _) _ _ => effect_
  | |- wp _ (read_world _) _ _ => effect_
  | |- wp _ (fun _ => _) _ _ => effect_
  end; cbv beta zeta.
