(* ===== verification/SmtpSafety.v ===== *)
(** * What holds of every SMTP session

    Whatever the client sends, and whatever settings, scripts, filters,
    directories and stores answer: the session does not panic and every read
    is processed in bounded time; a message is only queued for recipients that
    the directory, the relay setting, a script or a filter allowed; where
    authentication is required it has taken place; messages stay below the
    size limit, and authentication attempts below theirs. *)

From S2P Require Import Prelude Decimals Utf8 Text Milter SmtpData SmtpQueue SmtpServer SmtpCommands SmtpMessage SmtpSession SmtpLogic.

(** ** What is relied on

    The receivers of smtp-proto: they take bytes from the front of what they
    are given, a complete request or line takes at least one, and a message
    grows by no more than was taken; a chunk is complete once its bytes are
    there.  Sizes fit a [usize].  A milter's run does not end with an action that lets the message
    pass ([Milter.run_rejects] has this of the client). *)
Class Laws {Sv : Server} {Ml : MailServer} := {
  request_takes r l : let '(_, x, rest) := request_ingest r l in
    (length rest <= length l)%nat /\ (x <> Err NeedsMoreData -> (length rest < length l)%nat);
  data_takes r l m : let '(_, m', rest, _) := data_ingest r l m in
    (length rest <= length l)%nat /\ (length m' + length rest <= length m + length l)%nat;
  bdat_left : BdatReceiver -> Z;
  chunk_size_fits r l n last : snd (fst (request_ingest r l)) = Ok (QBdat n last) -> 0 <= n;
  size_fits w v n : s_max_message_size (settings w) v = Some n -> n <= usize_max;
  bdat_new n last : 0 <= n -> 0 <= bdat_left (bdat_receiver n last) <= n /\ bdat_is_last (bdat_receiver n last) = last;
  bdat_takes r l m : let '(r', m', rest, done_) := bdat_ingest r l m in
    (length rest <= length l)%nat /\ bdat_is_last r' = bdat_is_last r /\ 0 <= bdat_left r' /\
    Z.of_nat (length m') + bdat_left r' = Z.of_nat (length m) + bdat_left r;
  dummy_takes r l : (length (snd (fst (dummy_ingest r l))) <= length l)%nat;
  dummy_line_takes r l : (length (snd (fst (dummy_line_ingest r l))) <= length l)%nat;
  line_takes b l : let '(_, rest, done_) := line_ingest b l in
    (length rest <= length l)%nat /\ (done_ = true -> (length rest < length l)%nat);
  milter_rejects stage v w n a : snd (milter_io stage v w) n = Err (ByAction a) -> rejected_by a <> None;
  milter_message_rejects p v w n a : snd (milter_message_io p v w) n = Err (ByAction a) -> rejected_by a <> None
}.

Section Safety.
Context {Sv : Server} {Ml : MailServer}.

(** ** Which recipients a message may have *)

(** An address as it is spelled and in lower case. *)
Inductive permitted : list Z -> list Z -> Prop :=
| by_directory a x w : snd (rcpt_resolve x w) = Ok RAccept -> permitted a x
| by_relay a x w w' v : snd (rcpt_resolve x w) = Ok UnknownDomain -> relay (settings w') v = Some true -> permitted a x
| by_rewriting a y w : snd (rcpt_resolve y w) = Ok (RRewrite a) -> permitted a (to_lowercase a)
| by_list a y l w : snd (rcpt_resolve y w) = Ok (RExpand l) -> In a l -> permitted a (to_lowercase a)
| by_script a sc stage v w l : snd (run_script sc stage v w) = ScriptAccept l -> In (SetEnvelope ETo a) l ->
    permitted a (to_lowercase a)
| by_message_script a sc i v w r l : snd (run_message_script sc i v w) = r ->
    (r = ScriptAccept l \/ exists m, r = ScriptReplace m l) -> In (SetEnvelope ETo a) l -> permitted a (to_lowercase a)
| by_milter a args p v w n l : snd (milter_message_io p v w) n = Ok l -> In (AddRcpt a args) l ->
    permitted (strip_brackets a) (to_lowercase (strip_brackets a))
| by_hook a args p v w n r : snd (hook_message_io p v w) n = Some r -> In (AddRcpt a args) (map of_hook (hmodifications r)) ->
    permitted (strip_brackets a) (to_lowercase (strip_brackets a)).

Definition ok_address (a : SessionAddress) : Prop := permitted (address a) (address_lcase a).

(** ** Limits *)

(* the size of messages that the setting allows *)
Definition size_limit (o : option Z) : Z := match o with Some n => if n =? 0 then usize_max else n | None => FROM_MB end.
Definition below_limit (n : Z) : Prop := exists w v, n < size_limit (s_max_message_size (settings w) v).

(** ** The invariant *)

Definition good_entry (required : bool) (q : Queued) : Prop :=
  Forall (fun r => exists a x, permitted a x /\ raddress r = to_lowercase_address a false) (recipients (q_message q)) /\
  below_limit (Z.of_nat (length (q_original q))) /\
  (required = true -> q_source q = Authenticated).

(** At any end. *)
Definition Fin (required : bool) (errors_max errors : Z) (q : list Queued) : Prop :=
  0 <= errors <= Z.max 1 errors_max /\ Forall (good_entry required) q.
Definition fin (s : Session) : Prop := Fin (auth_require (params s)) (auth_errors_max (params s)) (auth_errors (data s)) (queued s).

(** While the session lives. *)
Definition Inv (required : bool) (errors_max max_size : Z) (from : option SessionAddress) (rcpts : list SessionAddress)
    (account : option AccountInfo) (errors oks : Z) (q : list Queued) : Prop :=
  (required = true -> from <> None -> account <> None) /\
  0 <= errors /\ (errors = 0 \/ errors < errors_max) /\
  Forall ok_address rcpts /\ 0 <= oks /\
  (max_size = 0 \/ exists w v, max_size = size_limit (s_max_message_size (settings w) v)) /\
  Forall (good_entry required) q.
Definition inv (s : Session) : Prop :=
  Inv (auth_require (params s)) (auth_errors_max (params s)) (max_message_size (params s)) (mail_from (data s)) (rcpt_to (data s))
    (authenticated_as (data s)) (auth_errors (data s)) (rcpt_oks (data s)) (queued s).

Lemma inv_fin s : inv s -> fin s.
Proof. intros (_ & ? & ? & _ & _ & _ & ?). split; [lia | assumption]. Qed.

Lemma Inv_from required em mx from from' rcpts account e oks q : (from' <> None -> from <> None) ->
  Inv required em mx from rcpts account e oks q -> Inv required em mx from' rcpts account e oks q.
Proof. unfold Inv. intuition. Qed.
Lemma Inv_rcpts required em mx from rcpts rcpts' account e oks q : Forall ok_address rcpts' ->
  Inv required em mx from rcpts account e oks q -> Inv required em mx from rcpts' account e oks q.
Proof. unfold Inv. intuition. Qed.

(** The invariant as what holds after a handler. *)
Definition kept {A} (_ : A) (s : Session) (_ : W) : Prop := inv s.

(** A stage that goes on with [P], or ends the handler. *)
Definition ends (P : Session -> Prop) (b : bool) (s : Session) (_ : W) : Prop := if b then P s else inv s.

(** A state that differs in the replies only. *)
Definition quiet (s s' : Session) : Prop :=
  exists out, s' = MkSession (hostname s) (sstate s) (tls s) (data s) (params s) out (queued s).
Lemma quiet_refl s : quiet s s.
Proof. exists (output s). destruct s; reflexivity. Qed.
Lemma quiet_said b s : quiet s (said b s).
Proof. eexists. reflexivity. Qed.
Lemma quiet_inv s s' : quiet s s' -> inv s -> inv s'.
Proof. intros [? ->] H. exact H. Qed.
Lemma quiet_trans s1 s2 s3 : quiet s1 s2 -> quiet s2 s3 -> quiet s1 s3.
Proof. intros [? ->] [? ->]. eexists. reflexivity. Qed.
End Safety.

Create HintDb smtp.
#[export] Hint Resolve inv_fin quiet_refl quiet_said : smtp.

(** Goals about a state that agrees with a known one where it matters. *)
Ltac same :=
  cbv beta iota;
  repeat match goal with H : kept _ _ _ |- _ => red in H end;
  match goal with
  | H : inv ?s |- fin _ => exact (inv_fin s H)
  | H : fin _ |- fin _ => exact H
  | H : inv _ |- inv _ => exact H
  | H : inv _ |- kept _ _ _ => exact H
  | H : inv _ |- ends _ false _ _ => exact H
  | |- quiet _ _ => solve [eauto using quiet_refl, quiet_said, quiet_trans]
  end.
(** Steps as far as they go, with the side conditions about the ends. *)
Ltac steps := repeat (step; try same); try same.

Section Quiet.
Context {Sv : Server} {Ml : MailServer} {L : Laws}.
Notation wp := (wp fin).

Lemma run_milters_total io l : (forall n a, io n = Err (ByAction a) -> rejected_by a <> None) ->
  forall n ms, run_milters io n l ms <> None.
Proof.
  intros H. induction l as [| x l IH]; cbn; intros n ms; [discriminate |].
  case_if; [apply IH |]. destruct (io n) as [? | [a | ?]] eqn:E; [apply IH | | case_if; [discriminate | apply IH]].
  destruct (rejected_by a) eqn:Ra; [discriminate |]. destruct (H _ _ E Ra).
Qed.

Lemma milters_quiet stage s w : fin s -> wp (milters_at stage) (fun _ s' _ => quiet s s') (s, w).
Proof.
  intros F. unfold milters_at. step. destruct (milter_io stage (view s) w) as [w' io] eqn:E.
  destruct (run_milters io 0 _ []) eqn:R; [same |].
  apply (run_milters_total io) in R; [tauto |]. intros n a Hn. eapply (milter_rejects stage (view s) w n). rewrite E. exact Hn.
Qed.
Lemma hooks_quiet stage s w : fin s -> wp (hooks_at stage) (fun _ s' _ => quiet s s') (s, w).
Proof. intros F. unfold hooks_at. step. destruct (hook_io stage (view s) w). same. Qed.

Lemma script_quiet stage s w : fin s ->
  wp (script_at stage) (fun r s' _ => quiet s s' /\
    forall l, r = Some (ScriptAccept l) -> exists sc v w, snd (run_script sc stage v w) = ScriptAccept l) (s, w).
Proof.
  intros F. unfold script_at. steps. destruct (script _ _ _); steps; [| split; [same | discriminate]].
  destruct (get_trusted_sieve_script _ _) as [sc |]; steps; [| split; [same | discriminate]].
  split; [same |]. intros l1 [= ->]. exists sc, (view s), w. rewrite H. reflexivity.
Qed.

Lemma filtered_wp m undo s w : (forall d, auth_errors (undo d) = auth_errors d) -> fin s ->
  wp m (fun _ s' _ => quiet s s') (s, w) ->
  wp (filtered m undo) (fun b s' _ => quiet (if b : bool then s else with_data (undo (data s)) s) s') (s, w).
Proof.
  intros U I H. unfold filtered. step. eapply wp_mono; [exact H |]. intros [? | ?] s' w' [out ->]; steps.
  - eexists. reflexivity.
  - unfold fin. cbn. rewrite U. exact I.
  - eexists. reflexivity.
Qed.

Lemma spf_quiet out strict s w : fin s -> wp (handle_spf out strict) (fun _ s' _ => quiet s s') (s, w).
Proof.
  intros F. unfold handle_spf. destruct (spf_result out), strict; steps.
Qed.

Lemma limits_quiet l s w : fin s -> wp (check_limits l) (fun _ s' _ => s' = s) (s, w).
Proof.
  intros F. revert w. induction l as [| t l' IH]; intros w; cbn [check_limits]; steps; [reflexivity |].
  case_if; [| apply IH]. steps. destruct a as [[] |]; steps; [reflexivity | apply IH | apply IH].
Qed.
Lemma allowed_quiet s w : fin s -> wp is_allowed (fun _ s' _ => s' = s) (s, w).
Proof. intros F. unfold is_allowed. do 4 step. exact (limits_quiet _ s w F). Qed.
End Quiet.

(** ** The handlers keep the invariant *)

Section Handlers.
Context {Sv : Server} {Ml : MailServer} {L : Laws}.
Notation wp := (wp fin).

Lemma after_quiet {A} (m : M A) (Q : A -> Session -> W -> Prop) s w :
  wp m (fun _ s' _ => quiet s s') (s, w) -> (forall a s' w', quiet s s' -> Q a s' w') -> wp m Q (s, w).
Proof. intros H K. eapply wp_mono; [exact H |]. intros. apply K. assumption. Qed.

(** A filter whose refusal may only take the sender away. *)
Lemma filtered_kept m undo s w :
  (forall d, auth_errors (undo d) = auth_errors d) ->
  (inv s -> inv (with_data (undo (data s)) s)) ->
  inv s -> wp m (fun _ s' _ => quiet s s') (s, w) -> wp (filtered m undo) kept (s, w).
Proof.
  intros U K I H. eapply wp_mono; [apply filtered_wp; [exact U | exact (inv_fin s I) | exact H] |].
  intros [] s' w' [out ->]; [exact I | exact (K I)].
Qed.

Lemma drop_inv s : inv s -> inv (with_data (drop_sender (data s)) s).
Proof. apply Inv_from. cbn. tauto. Qed.
Lemma refused_inv prev s : inv s -> inv (with_data (ehlo_refused prev (data s)) s).
Proof. apply Inv_from. cbn. tauto. Qed.

Lemma ehlo_spf_kept prev s w : inv s -> wp (ehlo_spf prev) kept (s, w).
Proof.
  intros I. unfold ehlo_spf. steps. case_if; steps.
  apply after_quiet; [apply spf_quiet; same |]. intros ok s' w1 [out ->]. destruct ok; steps. exact (drop_inv s I).
Qed.

Lemma kept_bind {A B} (m : M A) (k : A -> M B) s w :
  wp m kept (s, w) -> (forall a s w, inv s -> wp (k a) kept (s, w)) -> wp (mbind m k) kept (s, w).
Proof. intros H K. apply wp_seq. eapply wp_mono; [exact H |]. intros. apply K. assumption. Qed.
Lemma kept_and m k s w : wp m kept (s, w) -> (forall s w, inv s -> wp k kept (s, w)) -> wp (and_if m k) kept (s, w).
Proof. intros H K. apply wp_and_if. eapply wp_mono; [exact H |]. intros [] ? ? ?; [apply K |]; assumption. Qed.
Lemma kept_then m k s w : wp m kept (s, w) -> (forall s w, inv s -> wp k kept (s, w)) -> wp (then_if m k) kept (s, w).
Proof. intros H K. apply wp_then_if. eapply wp_mono; [exact H |]. intros [] ? ? ?; [apply K |]; assumption. Qed.

Lemma domain_kept dom s w : inv s -> wp (ehlo_domain dom) kept (s, w).
Proof.
  intros I. unfold ehlo_domain. steps. case_if; [steps |]. case_if; [steps |]. do 2 step.
  repeat (apply kept_and; [| intros ? ? ?]).
  - apply ehlo_spf_kept. exact I.
  - step. apply after_quiet; [eapply wp_mono; [apply script_quiet; same | intros ? ? ? [Q _]; exact Q] |]. intros r s2 w2 Q.
    apply quiet_inv in Q; [| assumption].
    destruct r as [[] |]; steps; try exact (inv_fin _ (refused_inv _ _ Q)); exact (refused_inv _ _ Q).
  - apply filtered_kept; [reflexivity | apply refused_inv | assumption | apply milters_quiet; same].
  - apply filtered_kept; [reflexivity | apply refused_inv | assumption | apply hooks_quiet; same].
Qed.

Lemma reset_inv s : inv s -> inv (with_data (reset (data s)) s).
Proof. unfold inv, Inv. cbn. intros (? & ? & ? & ? & ? & ? & ?). repeat split; try assumption; try tauto; try lia. constructor. Qed.

Lemma ehlo_kept dom ext s w : inv s -> wp (handle_ehlo dom ext) kept (s, w).
Proof.
  intros I. unfold handle_ehlo. apply kept_then; [apply domain_kept; exact I |]. intros s1 w1 I1. step. step.
  apply kept_bind; [destruct (mail_from (data s1)); steps; apply reset_inv; exact I1 |].
  intros _ s2 w2 I2. steps. case_if; steps.
Qed.

(** ** Authentication *)

Lemma auth_error_kept r s w : inv s -> wp (auth_error r) kept (s, w).
Proof.
  intros I. unfold auth_error. destruct I as (? & ? & ? & ? & ? & ? & ?).
  assert (F : Fin (auth_require (params s)) (auth_errors_max (params s)) (auth_errors (data s) + 1) (queued s))
    by (split; [lia | assumption]).
  do 4 step; [exact F |]. do 2 step. case_if; steps; [| exact F ..].
  repeat split; cbn in *; bool_to_prop; try assumption; lia.
Qed.

Lemma authenticate_kept c s w : inv s -> wp (authenticate c) kept (s, w).
Proof.
  intros I. unfold authenticate. step. step.
  destruct a as [account | []]; try (apply auth_error_kept; exact I); unfold eval_post_auth_params; repeat step; try same;
    cbv [fin Fin inv kept Inv] in *; cbn in *; intuition congruence.
Qed.

Lemma wp_keep {A} (m : M A) (t : SaslToken) s w : wp m kept (s, w) -> wp (let* b := m in ret (t, b)) kept (s, w).
Proof. intros H. step. eapply wp_mono; [exact H |]. intros. step. assumption. Qed.

Lemma sasl_kept token response s w : inv s -> wp (handle_sasl_response token response) kept (s, w).
Proof.
  intros I. unfold handle_sasl_response.
  repeat (case_if || match goal with |- wp match ?x with _ => _ end _ _ => destruct x end);
  first [ apply wp_keep; first [apply auth_error_kept | apply authenticate_kept]; exact I | steps ].
Qed.

Lemma vrfy_kept a s w : inv s -> wp (handle_vrfy a) kept (s, w).
Proof. intros I. unfold handle_vrfy. steps. case_if; steps. destruct a0 as [[] |]; steps. Qed.
Lemma expn_kept a s w : inv s -> wp (handle_expn a) kept (s, w).
Proof. intros I. unfold handle_expn. steps. case_if; steps. destruct a0 as [[] |]; steps. Qed.

(** ** MAIL *)

Lemma chain P Q m k s w : wp m (ends P) (s, w) -> (forall s w, P s -> wp k (ends Q) (s, w)) -> wp (and_if m k) (ends Q) (s, w).
Proof. intros H K. apply wp_and_if. eapply wp_mono; [exact H |]. intros [] ? ? ?; [apply K |]; assumption. Qed.
Lemma chain_end P m k s w : wp m (ends P) (s, w) -> (forall s w, P s -> wp k kept (s, w)) -> wp (then_if m k) kept (s, w).
Proof. intros H K. apply wp_then_if. eapply wp_mono; [exact H |]. intros [] ? ? ?; [apply K |]; assumption. Qed.

Definition has_sender (s : Session) : Prop := inv s /\ mail_from (data s) <> None.

(** A condition that does not look at the replies. *)
Definition silent (P : Session -> Prop) : Prop := forall s s', quiet s s' -> P s -> P s'.

Lemma filtered_ends P m undo s w : (forall d, auth_errors (undo d) = auth_errors d) -> silent P ->
  fin s -> P s -> inv (with_data (undo (data s)) s) -> wp m (fun _ s' _ => quiet s s') (s, w) -> wp (filtered m undo) (ends P) (s, w).
Proof.
  intros U C F I K H. eapply wp_mono; [apply filtered_wp; eassumption |].
  intros [] s' w' Q; [exact (C _ _ Q I) | exact (quiet_inv _ _ Q K)].
Qed.

Lemma sender_silent : silent has_sender.
Proof. intros s s' [out ->] H. exact H. Qed.

Lemma sequence_ends s w : inv s ->
  wp mail_sequence (ends (fun s => inv s /\ (auth_require (params s) = true -> authenticated_as (data s) <> None))) (s, w).
Proof.
  intros I. unfold mail_sequence. do 2 step. case_if; [steps |]. destruct (mail_from (data s)) eqn:F; [steps |].
  destruct (auth_require (params s) && negb (is_authenticated (data s))) eqn:A; [steps |].
  assert (Au : auth_require (params s) = true -> authenticated_as (data s) <> None).
  { intros R. rewrite R in A. revert A. unfold is_authenticated. destruct (authenticated_as (data s)); cbn; congruence. }
  case_if; repeat step; split; auto; exact I.
Qed.

Lemma put_sender_inv x s : inv s -> (auth_require (params s) = true -> authenticated_as (data s) <> None) ->
  has_sender (with_data (set_mail_from (Some x) (data s)) s).
Proof. intros I A. split; [| discriminate]. red in I |- *. unfold Inv in *. cbn in *. tauto. Qed.
Lemma has_sender_auth s : has_sender s -> auth_require (params s) = true -> authenticated_as (data s) <> None.
Proof. intros [(H & _) F] R. exact (H R F). Qed.

(** What may change between MAIL and RCPT without touching the invariant. *)
Lemma has_sender_data f s : has_sender s ->
  (mail_from (f (data s)) = mail_from (data s) \/ mail_from (f (data s)) <> None) ->
  rcpt_to (f (data s)) = rcpt_to (data s) -> authenticated_as (f (data s)) = authenticated_as (data s) ->
  auth_errors (f (data s)) = auth_errors (data s) -> rcpt_oks (f (data s)) = rcpt_oks (data s) -> has_sender (with_data (f (data s)) s).
Proof.
  intros S Hf R A E O. pose proof (has_sender_auth s S) as Au. destruct S as [I F]. split; cbn; [| destruct Hf as [-> |]; assumption].
  red in I |- *. unfold Inv in *. cbn in *. rewrite R, A, E, O. tauto.
Qed.

(** *** Scripts and the envelope *)

Definition script_data (l : list ScriptModification) (d : SessionData) : SessionData :=
  fold_left (fun d m => match m with SetEnvelope name value => apply_envelope_modification name value d | SAddHeader _ _ => d end) l d.

Lemma update_last_app {A} (f : A -> A) l x : update_last f (l ++ [x]) = l ++ [f x].
Proof. unfold update_last. rewrite rev_unit. cbn. rewrite rev_involutive. reflexivity. Qed.
Lemma update_last_cases {A} (f : A -> A) l : l = [] \/ exists l' x, l = l' ++ [x] /\ update_last f l = l' ++ [f x].
Proof. destruct l as [| x l' _] using rev_ind; [left; reflexivity | right]. exists l', x. split; [reflexivity | apply update_last_app]. Qed.

Lemma update_last_forall (P : SessionAddress -> Prop) f l : (forall x, P x -> P (f x)) -> Forall P l -> Forall P (update_last f l).
Proof.
  intros H F. destruct (update_last_cases f l) as [-> | (l' & x & -> & ->)]; [constructor |].
  apply Forall_app in F as [F1 F2]. apply Forall_app. split; [exact F1 |]. inversion F2; subst. constructor; auto.
Qed.
Lemma update_last_pending {A} (f : A -> A) l : removelast (update_last f l) = removelast l /\ (l <> [] -> update_last f l <> []).
Proof.
  destruct (update_last_cases f l) as [-> | (l' & x & -> & ->)]; [split; [reflexivity | tauto] |].
  rewrite !removelast_last. split; [reflexivity | intros _; destruct l'; discriminate].
Qed.

(** What a script does not touch. *)
Definition untouched (d d' : SessionData) : Prop :=
  authenticated_as d' = authenticated_as d /\ auth_errors d' = auth_errors d /\ rcpt_oks d' = rcpt_oks d /\ message d' = message d /\
  (mail_from d <> None -> mail_from d' <> None).

Lemma untouched_refl d : untouched d d.
Proof. repeat split; auto. Qed.
Lemma untouched_trans d1 d2 d3 : untouched d1 d2 -> untouched d2 d3 -> untouched d1 d3.
Proof. unfold untouched. intuition congruence. Qed.

Lemma envelope_untouched name value d : untouched d (apply_envelope_modification name value d).
Proof.
  destruct name; cbn; repeat case_if; try destruct value; try (destruct (rcpt_to d));
    repeat split; cbn; auto; destruct (mail_from d); cbn; congruence.
Qed.
Lemma script_untouched l d : untouched d (script_data l d).
Proof.
  revert d. induction l as [| [name value | name value] l IH]; intros d; [apply untouched_refl | | exact (IH d)].
  exact (untouched_trans _ _ _ (envelope_untouched name value d) (IH _)).
Qed.

(** The recipients that a script leaves. *)
Definition allows (l : list ScriptModification) : Prop := forall a, In (SetEnvelope ETo a) l -> permitted a (to_lowercase a).

Lemma envelope_recipients name value d : (name = ETo -> permitted value (to_lowercase value)) ->
  Forall ok_address (rcpt_to d) -> Forall ok_address (rcpt_to (apply_envelope_modification name value d)).
Proof.
  intros P F. destruct name; cbn; repeat case_if; try destruct value; auto; try (destruct (rcpt_to d) eqn:R; cbn; rewrite ?R);
    try (constructor; [exact (P eq_refl) | constructor]); try assumption;
    apply update_last_forall; auto; intros; exact (P eq_refl).
Qed.
Lemma script_recipients l d : allows l -> Forall ok_address (rcpt_to d) -> Forall ok_address (rcpt_to (script_data l d)).
Proof.
  revert d. induction l as [| [name value | name value] l IH]; intros d A F; cbn; [exact F | |].
  - apply IH; [intros a Ha; apply A; right; exact Ha |]. apply envelope_recipients; [| exact F].
    intros ->. apply A. left. reflexivity.
  - apply IH; [intros a Ha; apply A; right; exact Ha | exact F].
Qed.

Lemma envelope_pending name value d : rcpt_to d <> [] ->
  removelast (rcpt_to (apply_envelope_modification name value d)) = removelast (rcpt_to d) /\
  rcpt_to (apply_envelope_modification name value d) <> [].
Proof.
  intros N. destruct name; cbn; repeat case_if; try destruct value; auto; try (destruct (rcpt_to d) eqn:R; [congruence |]; rewrite <- R in *; cbn);
    split; try apply update_last_pending; assumption.
Qed.
Lemma script_pending l d : rcpt_to d <> [] ->
  removelast (rcpt_to (script_data l d)) = removelast (rcpt_to d) /\ rcpt_to (script_data l d) <> [].
Proof.
  revert d. induction l as [| [name value | name value] l IH]; intros d N; [auto | | exact (IH d N)].
  destruct (envelope_pending name value d N) as [E N1]. destruct (IH _ N1) as [E2 N2]. cbn. split; [| exact N2].
  rewrite <- E. exact E2.
Qed.

(** *** The stages of MAIL *)

Lemma has_sender_inv s : has_sender s -> inv s.
Proof. intros [H _]. exact H. Qed.
Lemma has_sender_drop s : has_sender s -> inv (with_data (drop_sender (data s)) s).
Proof. intros [H _]. exact (drop_inv s H). Qed.

Lemma refuse_ends P r s w : inv s -> wp (refuse r) (ends P) (s, w).
Proof. intros I. apply drop_inv in I. unfold refuse. steps. Qed.

Lemma sender_wp (Q : SessionAddress -> Session -> W -> Prop) s w : mail_from (data s) <> None -> (forall a, Q a s w) -> wp sender Q (s, w).
Proof. intros F K. unfold sender. do 2 step. destruct (mail_from (data s)); [| congruence]. step. apply K. Qed.

Lemma allowed_ends from s w : inv s /\ (auth_require (params s) = true -> authenticated_as (data s) <> None) ->
  wp (mail_allowed from) (ends has_sender) (s, w).
Proof.
  intros [I A]. unfold mail_allowed. do 4 step. pose proof (put_sender_inv (sender_of from) s I A) as H.
  case_if; [step; exact H | apply refuse_ends, has_sender_inv, H].
Qed.

Lemma has_sender_script l s : allows l -> has_sender s -> has_sender (with_data (script_data l (data s)) s).
Proof.
  intros A S. pose proof (has_sender_auth s S) as Au. destruct S as [I F].
  pose proof (script_untouched l (data s)) as (E1 & E2 & E3 & _ & E5). pose proof (script_recipients l (data s) A) as R.
  split; [| exact (E5 F)]. red in I |- *. unfold Inv in *. cbn in *. rewrite E1, E2, E3. tauto.
Qed.

Lemma script_step_ends P stage undo s w :
  (forall l s, allows l -> P s -> P (with_data (script_data l (data s)) s)) -> silent P -> (forall s, P s -> fin s) ->
  (forall s, P s -> inv (with_data (undo (data s)) s)) -> P s -> wp (script_step stage undo) (ends P) (s, w).
Proof.
  intros K S F U I. unfold script_step. step. eapply wp_mono; [apply script_quiet; auto |].
  intros r s1 w1 [Q R]. pose proof (S _ _ Q I) as I1. pose proof (F _ (S _ _ Q I)).
  destruct r as [[] |]; repeat step; try exact I1; try exact (U _ I1).
  - apply (K _ _ ltac:(intros a Ha; destruct (R _ eq_refl) as (sc & v & w0 & E); exact (by_script a sc stage v w0 _ E Ha)) I1).
  - exact (inv_fin _ (U _ I1)).
Qed.

Lemma mail_filters_ends s w : has_sender s -> wp mail_filters (ends has_sender) (s, w).
Proof.
  intros S. unfold mail_filters.
  eapply chain; [apply (script_step_ends has_sender); auto using has_sender_script, sender_silent, has_sender_drop, has_sender_inv, inv_fin |].
  intros s1 w1 S1.
  eapply chain; [apply (filtered_ends has_sender); auto using sender_silent, has_sender_drop, has_sender_inv, inv_fin;
    apply milters_quiet; auto using has_sender_inv, inv_fin |].
  intros s2 w2 S2.
  apply (filtered_ends has_sender); auto using sender_silent, has_sender_drop, has_sender_inv, inv_fin;
    apply hooks_quiet; auto using has_sender_inv, inv_fin.
Qed.

Lemma has_sender_put x s : has_sender s -> has_sender (with_data (set_mail_from (Some x) (data s)) s).
Proof. intros S. apply (put_sender_inv x s (has_sender_inv s S) (has_sender_auth s S)). Qed.

Lemma rewritten_ends s w : has_sender s -> wp mail_rewritten (ends has_sender) (s, w).
Proof.
  intros S. unfold mail_rewritten. do 2 step. destruct (mail_rewrite _ _) as [new |]; [| step; exact S]. step.
  apply sender_wp; [apply S |]. intros a. step. case_if; [| destruct new]; repeat step; first [exact S | exact (has_sender_put _ s S)].
Qed.

Lemma matches_ends s w : has_sender s -> wp mail_matches (ends has_sender) (s, w).
Proof.
  intros S. unfold mail_matches. do 2 step. destruct (authenticated_as _); [| step; exact S]. do 2 step.
  case_if; [| step; exact S]. step. apply sender_wp; [apply S |]. intros b.
  case_if; [step; exact S | apply refuse_ends, S].
Qed.

(** A stage that only looks at settings and keeps a parameter. *)
Ltac parameter S :=
  repeat first [ apply refuse_ends, S | case_if | step | match goal with |- wp match ?x with _ => _ end _ _ => destruct x end ];
  exact S.

Lemma by_ends from s w : has_sender s -> wp (mail_by from) (ends has_sender) (s, w).
Proof. intros S. unfold mail_by. parameter S. Qed.
Lemma priority_ends from s w : has_sender s -> wp (mail_priority from) (ends has_sender) (s, w).
Proof. intros S. unfold mail_priority. parameter S. Qed.
Lemma size_ends from s w : has_sender s -> wp (mail_size from) (ends has_sender) (s, w).
Proof. intros S. unfold mail_size. parameter S. Qed.
Lemma hold_ends from s w : has_sender s -> wp (mail_hold from) (ends has_sender) (s, w).
Proof. intros S. unfold mail_hold. parameter S. Qed.

Lemma parameters_ends from s w : has_sender s -> wp (mail_parameters from) (ends has_sender) (s, w).
Proof.
  intros S0. unfold mail_parameters.
  eapply chain; [parameter S0 | intros s1 w1 S1]. eapply chain; [apply by_ends, S1 | intros s2 w2 S2].
  eapply chain; [apply priority_ends, S2 | intros s3 w3 S3]. eapply chain; [apply size_ends, S3 | intros s4 w4 S4].
  eapply chain; [apply hold_ends, S4 | intros s5 w5 S5]. parameter S5.
Qed.

Lemma mail_spf_ends s w : has_sender s -> wp mail_spf (ends has_sender) (s, w).
Proof.
  intros S. unfold mail_spf. do 2 step. case_if; [| step; exact S]. step. apply sender_wp; [apply S |]. intros a. do 2 step.
  step. apply after_quiet; [apply spf_quiet, inv_fin, S |]. intros ok s1 w2 Q. pose proof (sender_silent _ _ Q S) as S1.
  destruct ok; repeat step; [exact S1 | exact (has_sender_drop _ S1)].
Qed.

Lemma size_limit_param w v : exists w' v', match s_max_message_size (settings w) v with
    | Some n => if n =? 0 then usize_max else n | None => FROM_MB end = size_limit (s_max_message_size (settings w') v').
Proof. exists w, v. reflexivity. Qed.

Lemma rcpt_params_kept s w : inv s -> wp eval_rcpt_params kept (s, w).
Proof.
  intros (H1 & H2 & H3 & H4 & H5 & H6 & H7). unfold eval_rcpt_params. repeat step.
  repeat split; try assumption. right. apply size_limit_param.
Qed.

Lemma mail_kept from s w : inv s -> wp (handle_mail_from from) kept (s, w).
Proof.
  intros I. unfold handle_mail_from. apply (chain_end has_sender).
  - eapply chain; [apply sequence_ends, I | intros s1 w1 S1].
    eapply chain; [| intros s2 w2 S2; eapply chain; [apply allowed_ends, S2 | intros s3 w3 S3]].
    + unfold mail_reverse_dns. do 2 step. destruct S1 as [I1 A1]. case_if; [| step; split; assumption].
      destruct (option_map _ _) as [[] |]; steps. split; assumption.
    + eapply chain; [apply mail_filters_ends, S3 | intros s4 w4 S4]. eapply chain; [apply rewritten_ends, S4 | intros s5 w5 S5].
      eapply chain; [apply matches_ends, S5 | intros s6 w6 S6]. apply parameters_ends, S6.
  - intros s1 w1 S1. step. eapply wp_mono; [apply allowed_quiet, inv_fin, S1 |]. intros ok s2 w2 ->. case_if.
    + eapply chain_end; [apply mail_spf_ends, S1 | intros s3 w3 S3]. step. apply sender_wp; [apply S3 |]. intros a.
      apply kept_bind; [apply rcpt_params_kept, S3 |]. intros _ s4 w4 I4. steps.
    + step. apply sender_wp; [apply S1 |]. intros a. pose proof (has_sender_drop _ S1). steps.
Qed.

(** ** RCPT *)

(** Only the last recipient is still to be verified. *)
Definition pending (s : Session) : Prop :=
  inv (with_data (pop (data s)) s) /\ rcpt_to (data s) <> [] /\ mail_from (data s) <> None.
(** All recipients are verified, and there is one. *)
Definition verified (s : Session) : Prop := inv s /\ rcpt_to (data s) <> [] /\ mail_from (data s) <> None.

Lemma pending_silent : silent pending.
Proof. intros s s' [out ->] H. exact H. Qed.
Lemma pending_fin s : pending s -> fin s.
Proof. intros [H _]. exact (inv_fin _ H). Qed.
Lemma pending_pop s : pending s -> inv (with_data (pop (data s)) s).
Proof. intros [H _]. exact H. Qed.

Lemma forall_removelast {A} (P : A -> Prop) l : Forall P l -> Forall P (removelast l).
Proof. intros F. destruct l as [| x l _] using rev_ind; [constructor |]. rewrite removelast_last. apply Forall_app in F. apply F. Qed.
Lemma forall_last {A} (P : A -> Prop) l : Forall P (removelast l) -> (forall x, list.last l = Some x -> P x) -> Forall P l.
Proof.
  intros F H. destruct l as [| x l _] using rev_ind; [constructor |]. rewrite removelast_last in F. rewrite last_snoc in H.
  apply Forall_app. auto.
Qed.

Lemma verified_pending s : verified s -> pending s.
Proof.
  intros (I & N & F). split; [| split; assumption]. eapply (Inv_rcpts _ _ _ _ (rcpt_to (data s))); [| exact I].
  apply forall_removelast, I.
Qed.
Lemma pending_verified s a : pending s -> last_rcpt (data s) = Some a -> ok_address a -> verified s.
Proof.
  intros (I & N & F) E A. split; [| split; assumption]. eapply (Inv_rcpts _ _ _ _ (removelast (rcpt_to (data s)))); [| exact I].
  apply forall_last; [apply I |]. unfold last_rcpt in E. intros x. rewrite E. intros [= <-]. exact A.
Qed.
Lemma push_inv a s : inv s -> ok_address a -> inv (with_data (push a (data s)) s).
Proof.
  intros I A. eapply (Inv_rcpts _ _ _ _ (rcpt_to (data s))); [| exact I]. cbn. apply Forall_app. split; [apply I | auto].
Qed.

Lemma ends_kept m st : wp m (ends inv) st -> wp m kept st.
Proof. intros H. eapply wp_mono; [exact H |]. intros []; auto. Qed.
Lemma accepted_ends P s w : inv s -> wp accepted (ends P) (s, w).
Proof.
  intros I. unfold accepted. do 2 step.
  assert (H : inv (with_data (one_more (data s)) s)) by (red in I |- *; unfold Inv in *; cbn; intuition lia). steps.
Qed.

Lemma recipient_wp (Q : SessionAddress -> Session -> W -> Prop) s w : rcpt_to (data s) <> [] ->
  (forall a, last_rcpt (data s) = Some a -> Q a s w) -> wp recipient Q (s, w).
Proof.
  intros N K. unfold recipient. do 2 step. destruct (last_rcpt (data s)) eqn:E; [step; auto |].
  unfold last_rcpt in E. apply last_None in E. congruence.
Qed.

Lemma rcpt_error_ends r x s w : inv s -> wp (rcpt_error r x) kept (s, w).
Proof.
  intros I. unfold rcpt_error. do 4 step. assert (H : inv (with_data (set_rcpt_errors (rcpt_errors (data s) + 1) (data s)) s)) by exact I.
  do 2 step. case_if; steps.
Qed.

Lemma rcpt_sequence_ends to s w : inv s -> wp (rcpt_sequence to) (ends has_sender) (s, w).
Proof.
  intros I. unfold rcpt_sequence. do 2 step. destruct (mail_from (data s)) eqn:F; [| steps].
  repeat (case_if; [steps; fail |]). steps. split; [exact I | congruence].
Qed.

Lemma rcpt_pushed_ends to s w : has_sender s -> wp (rcpt_pushed to) (ends pending) (s, w).
Proof.
  intros [I F]. unfold rcpt_pushed. do 2 step. case_if; [apply accepted_ends, I |]. repeat step. split; [| split; [cbn; destruct (rcpt_to (data s)); discriminate | exact F]].
  eapply (Inv_rcpts _ _ _ _ (rcpt_to (data s))); [| exact I]. cbn. rewrite removelast_last. apply I.
Qed.

Lemma pending_script l s : pending s -> pending (with_data (script_data l (data s)) s).
Proof.
  intros (I & N & F). pose proof (script_untouched l (data s)) as (E1 & E2 & E3 & _ & E5).
  destruct (script_pending l (data s) N) as [E N'].
  assert (Au : auth_require (params s) = true -> authenticated_as (data s) <> None) by (intros R; exact (proj1 I R F)).
  split; [| split; [exact N' | exact (E5 F)]]. red in I |- *. unfold Inv in *. cbn in *. rewrite E, E1, E2, E3. tauto.
Qed.
Lemma pending_update f s : pending s -> pending (with_data (update_to f (data s)) s).
Proof.
  intros (I & N & F). destruct (update_last_pending f (rcpt_to (data s))) as [E N'].
  split; [| split; [exact (N' N) | exact F]]. red in I |- *. unfold Inv in *. cbn in *. rewrite E. exact I.
Qed.

Lemma rcpt_rewritten_ends s w : pending s -> wp rcpt_rewritten (ends pending) (s, w).
Proof.
  intros H. unfold rcpt_rewritten. do 2 step. destruct (rcpt_rewrite _ _); [| step; exact H]. step.
  apply recipient_wp; [apply H |]. intros a _. step. case_if; repeat step; [exact (pending_update _ s H) | exact H].
Qed.
Lemma rcpt_unique_ends s w : pending s -> wp rcpt_unique (ends pending) (s, w).
Proof.
  intros H. unfold rcpt_unique. step. apply recipient_wp; [apply H |]. intros a _. do 2 step.
  case_if; [| step; exact H]. do 2 step. apply accepted_ends, H.
Qed.

Lemma rcpt_filters_ends s w : pending s -> wp rcpt_filters (ends pending) (s, w).
Proof.
  intros H. unfold rcpt_filters. do 6 step. step. unfold runs_at. step. case_if; [| step; exact H].
  eapply chain; [| intros s1 w1 H1; eapply chain; [| intros s2 w2 H2; eapply chain; [| intros s3 w3 H3; eapply chain; [| intros s4 w4 H4]]]].
  - destruct (match script _ _ _ with Some _ => _ | None => _ end) as [sc |]; [| step; exact H]. do 2 step.
    pose proof (pending_pop s H). destruct a as [l | |m |]; repeat step; try exact H; try same. exact (pending_script l s H).
  - apply (filtered_ends pending); auto using pending_silent, pending_pop, pending_fin; apply milters_quiet; auto using pending_fin.
  - apply (filtered_ends pending); auto using pending_silent, pending_pop, pending_fin; apply hooks_quiet; auto using pending_fin.
  - apply rcpt_rewritten_ends, H3.
  - apply rcpt_unique_ends, H4.
Qed.

(** The members of a list that was resolved. *)
Definition allowed_members (l : list (list Z)) : Prop := forall a, In a l -> permitted a (to_lowercase a).

(** The recipient is verified, or it is a list of these members, or it was
    refused. *)
Definition resolved (r : option (option (list (list Z)))) (s : Session) (_ : W) : Prop :=
  match r with
  | Some None => verified s
  | Some (Some members) => pending s /\ allowed_members members
  | None => inv s
  end.

Lemma refused_resolved t x s w : pending s ->
  wp (let* _ := modify pop in let* _ := rcpt_error t x in ret None) resolved (s, w).
Proof.
  intros H. do 2 step. step. eapply wp_mono; [apply rcpt_error_ends, H |]. intros ? s1 w1 I1. step. exact I1.
Qed.

Lemma rcpt_verified_resolved s w : pending s -> wp rcpt_verified resolved (s, w).
Proof.
  intros H. unfold rcpt_verified. step. apply recipient_wp; [apply H |]. intros a La. do 2 step.
  assert (R : snd (rcpt_resolve (address_lcase a) w) = a0) by (rewrite H0; reflexivity).
  destruct a0 as [[| members | new | |] |].
  - step. apply (pending_verified s a H La). exact (by_directory _ _ _ R).
  - step. split; [exact H |]. intros x Hx. exact (by_list _ _ _ _ R Hx).
  - do 4 step. pose proof (pending_pop s H) as I. case_if.
    + step. eapply wp_mono; [apply ends_kept, accepted_ends, I |]. intros ? s1 w1 I1. step. exact I1.
    + repeat step. split; [apply (push_inv _ _ I); exact (by_rewriting _ _ _ R) |].
      split; [cbn; destruct (removelast _); discriminate | apply H].
  - apply refused_resolved, H.
  - do 2 step. destruct (relay (settings w') (view s)) as [[] |] eqn:Rel; cbn [default from_option id]; [| apply refused_resolved, H ..].
    step. apply (pending_verified s a H La). exact (by_relay _ _ _ _ _ R Rel).
  - pose proof (pending_pop s H) as I. steps. exact I.
Qed.

Lemma rcpt_greylisted_wp s w : pending s -> wp rcpt_greylisted (fun b s' _ => if b : bool then s' = s else inv s') (s, w).
Proof.
  intros H. pose proof (pending_pop s H). unfold rcpt_greylisted. do 4 step. destruct (grey_list_expiry _); [| step; reflexivity].
  case_if; [step; reflexivity |]. step. apply sender_wp; [apply H |]. intros from. step. apply recipient_wp; [apply H |]. intros to _.
  do 2 step. destruct a as [[] |]; [step; reflexivity | | step; reflexivity].
  do 2 step. destruct a as [[] |]; [| step; reflexivity]. steps.
Qed.

Lemma expand_kept list_addr members s w : allowed_members members -> inv s -> wp (expand_members list_addr members) kept (s, w).
Proof.
  revert s w. induction members as [| member members IH]; intros s w A I; cbn [expand_members]; [steps |].
  do 3 step. assert (A' : allowed_members members) by (intros x Hx; apply A; right; exact Hx).
  case_if; repeat step; apply IH; auto. apply (push_inv _ _ I). apply A. left. reflexivity.
Qed.

Lemma rcpt_added_kept members s w : resolved (Some members) s w -> wp (rcpt_added members) kept (s, w).
Proof.
  intros R. assert (H : pending s) by (destruct members; [apply R | apply verified_pending, R]).
  unfold rcpt_added. step. eapply wp_mono; [apply allowed_quiet, pending_fin, H |]. intros ok s1 w1 ->. case_if.
  - apply wp_then_if. eapply wp_mono; [apply rcpt_greylisted_wp, H |]. intros [] s1 w2; [intros -> | auto]. step.
    apply recipient_wp; [apply H |]. intros a _.
    apply kept_bind; [| intros _ s2 w3 I2; apply kept_bind; [apply ends_kept, accepted_ends, I2 | intros; steps]].
    destruct members as [members |]; [| step; apply R]. do 2 step. apply expand_kept; [apply R | apply pending_pop, H].
  - step. apply recipient_wp; [apply H |]. intros a _. pose proof (pending_pop s H). steps.
Qed.

Lemma rcpt_kept to s w : inv s -> wp (handle_rcpt_to to) kept (s, w).
Proof.
  intros I. unfold handle_rcpt_to. apply (chain_end pending).
  - eapply chain; [apply rcpt_sequence_ends, I | intros s1 w1 S1]. eapply chain; [apply rcpt_pushed_ends, S1 | intros s2 w2 S2].
    apply rcpt_filters_ends, S2.
  - intros s1 w1 H. step. eapply wp_mono; [apply rcpt_verified_resolved, H |]. intros [members |] s2 w2 R; [| step; exact R].
    exact (rcpt_added_kept _ _ _ R).
Qed.
End Handlers.
