(* ===== verification/SmtpDemo.v ===== *)
(** * A small server for the examples

    Commands of one byte, a message that ends with a dot, lines that end with
    a line feed, local addresses that exist, and a world that is one of two sets of settings.
    It satisfies what the theorems rely on. *)

From S2P Require Import Prelude Decimals Utf8 Text IpMask Milter SmtpData SmtpQueue SmtpServer SmtpCommands SmtpMessage SmtpSession SmtpSafety.

Definition find_byte (c : Z) : list Z -> list Z -> list Z * list Z * bool :=
  fix go buf l := match l with
                  | [] => (buf, [], false)
                  | x :: l => if x =? c then (buf, l, true) else go (buf ++ [x]) l
                  end.

Inductive Config := Plain | Submission.
(** Under [Submission] a client has to authenticate. *)
Definition demo_settings (c : Config) : Settings := {|
  transfer_limit _ := None; duration _ := None; timeout _ := None; verify_ehlo _ := Some Disable; verify_mail_from _ := Some Disable;
  verify_iprev_ _ := Some Disable; s_ehlo_require _ := None; reject_non_fqdn _ := None;
  s_auth_require _ := match c with Plain => None | Submission => Some true end;
  s_auth_errors_max _ := None; s_auth_errors_wait _ := None; expn _ := Some true; vrfy _ := None; s_rcpt_errors_max _ := None;
  s_rcpt_errors_wait _ := None; max_recipients _ := None; dsn _ := None; s_max_message_size _ := Some 8; mechanisms _ := Some 1;
  must_match_sender _ := None; pipelining _ := None; chunking _ := None; requiretls _ := None; s_future_release _ := None;
  deliver_by _ := None; mt_priority _ := Some 0; no_soliciting _ := None; connect_hostname _ := None; greeting _ := None;
  script _ _ := None; is_allowed_sender _ := None; mail_rewrite _ := None; rcpt_rewrite_empty := true; rcpt_rewrite _ := None;
  relay v := Some (is_authenticated (v_data v)); max_messages _ := None;
  milters _ _ := []; hooks _ _ := []; grey_list_expiry := None; limiters_rcpt := []; limiters_sender := []; limiters_remote := [] |}.

Definition a_mail : MailFrom := MkMailFrom s#"me@there.org" 0 0 0 None 0 0 0.
(** E, H, L: greetings; M: MAIL; m: MAIL with REQUIRETLS; p: with priority 6;
    s: with a size of 8; R: a local recipient; r: one elsewhere; N: one that
    asks for a notification; P: the one of reports; O: a local one that the
    client says was it; X: a list; D: DATA; 1, 2, 3: a BDAT of so many
    bytes, 9: the last one, of three; A: AUTH; T: STARTTLS; Z: RSET; Q: QUIT. *)
Definition demo_request (c : Z) : result Request ParseError :=
  if c =? c#"E" then Ok (QEhlo s#"x.org") else if c =? c#"H" then Ok (QHelo s#"y.org") else if c =? c#"L" then Ok (QLhlo s#"z.org")
  else if c =? c#"M" then Ok (QMail a_mail)
  else if c =? c#"m" then Ok (QMail (MkMailFrom s#"me@there.org" (2 ^ 8) 0 0 None 0 0 0))
  else if c =? c#"p" then Ok (QMail (MkMailFrom s#"me@there.org" 0 0 0 None 6 0 0))
  else if c =? c#"s" then Ok (QMail (MkMailFrom s#"me@there.org" 0 8 0 None 0 0 0))
  else if c =? c#"R" then Ok (QRcpt (MkRcptTo s#"User@local" 0 None))
  else if c =? c#"r" then Ok (QRcpt (MkRcptTo s#"you@away.org" 0 None))
  else if c =? c#"N" then Ok (QRcpt (MkRcptTo s#"other@local" 1 None))
  else if c =? c#"P" then Ok (QRcpt (MkRcptTo s#"reports@local" 0 None))
  else if c =? c#"O" then Ok (QRcpt (MkRcptTo s#"User@local" 0 (Some s#"rfc822;reports@local")))
  else if c =? c#"X" then Ok (QRcpt (MkRcptTo s#"list@lists" 0 None))
  else if c =? c#"D" then Ok QData
  else if c =? c#"9" then Ok (QBdat 3 true)
  else if (c#"0" <=? c) && (c <=? c#"8") then Ok (QBdat (c - c#"0") false)
  else if c =? c#"A" then Ok (QAuth 1 []) else if c =? c#"T" then Ok QStartTls
  else if c =? c#"Z" then Ok QRset else if c =? c#"Q" then Ok QQuit
  else if c =? c#"!" then Err ResponseTooLong else Err UnknownCommand.

#[local] Existing Instance demo_crates.

Definition demo_server (p : ServerProtocol) : Server := {|
  crates := demo_crates; W := Config; settings := demo_settings; now _ := 1000;
  RequestReceiver := unit; request_new := tt;
  request_ingest _ l := match l with [] => (tt, Err NeedsMoreData, []) | c :: l => (tt, demo_request c, l) end;
  DataReceiver := unit; data_receiver := tt;
  data_ingest _ l m := let '(m, l, d) := find_byte c#"." m l in (tt, m, l, d);
  BdatReceiver := nat * bool; bdat_receiver n last := (Z.to_nat n, last); bdat_is_last := snd;
  bdat_ingest r l m := ((fst r - length l)%nat, snd r, m ++ firstn (fst r) l, skipn (fst r) l, (fst r <=? length l)%nat);
  DummyReceiver := option nat; dummy_bdat n := Some (Z.to_nat n); dummy_data _ := None;
  dummy_ingest r l := match r with
                      | Some n => (Some (n - length l)%nat, skipn n l, (n <=? length l)%nat)
                      | None => let '(_, l, d) := find_byte c#"." [] l in (None, l, d)
                      end;
  DummyLine := unit; dummy_line := tt;
  dummy_line_ingest _ l := let '(_, l, d) := find_byte 10 [] l in (tt, l, d);
  line_ingest := find_byte 10; MAX_LINE_LENGTH := 2048;
  write_ehlo_response h c := s#"250 " ++ h ++ (if existsb (fun x => match x with EXT_REQUIRE_TLS => true | _ => false end) c then s#" REQUIRETLS" else []);
  debug_char c := [c]; protocol := p; acceptor_is_tls := true; tls_accept w := (w, true); socket_takes _ _ := true;
  verify_spf _ _ w := (w, MkSpf SpfNone None); verify_iprev w := (w, MkIprev IprevNone None); spf_report _ _ w := w;
  has_valid_labels _ := true;
  Script := unit; get_trusted_sieve_script _ _ := None; run_script _ _ _ w := (w, ScriptDiscard);
  milter_io _ _ w := (w, fun _ => Ok []); hook_io _ _ w := (w, fun _ => None);
  rcpt_resolve a w := (w, if bytes_eqb (domain_part a) s#"local" then Ok RAccept
                          else if bytes_eqb (domain_part a) s#"lists" then Ok (RExpand [s#"Ann@local"; s#"bob@local"])
                          else Ok UnknownDomain);
  sync_member _ w := w; is_scanner_fail2banned w := (w, Ok false); is_rcpt_fail2banned _ w := (w, Ok false);
  is_loiter_fail2banned w := (w, Ok false); key_exists _ w := (w, Ok true); key_set _ _ w := (w, Ok tt); is_rate_allowed _ _ w := (w, Ok None);
  base64_decode l := Some l; decode_plain l := Some (CBasic l []); decode_oauth _ := None; into_string l := l;
  authenticate_account c w := (w, match c with CBasic u _ => if bytes_eqb u s#"me" then Ok (MkAccount s#"me@there.org" []) else Err AuthFailed
                                  | _ => Err AuthFailed end);
  AUTH_PLAIN := 1; AUTH_LOGIN := 2; AUTH_OAUTHBEARER := 4; AUTH_XOAUTH2 := 8 |}.

Definition demo_mail (p : ServerProtocol) : @MailServer (demo_server p) :=
  @Build_MailServer (demo_server p)
    (fun _ => {| dkim_strict := true; max_received_headers _ := None; verify_dkim_ _ := Some Disable; verify_dmarc_ _ := Some Disable;
       verify_arc_ _ := Some Disable; dkim_send _ := None; analysis_addresses := [MEquals s#"reports@local"]; analysis_forward := false;
       add_received _ := Some false; add_auth_results _ := Some false; add_received_spf _ := Some false; add_return_path _ := Some false;
       add_date _ := Some false; add_message_id _ := Some false; spam_enabled := false; spam_filter _ := None |})
    (IpV4 2130706433) ([], []) None None
    (fun _ raw => Some (MkParsed true None None [] (MkMessage [] [] raw raw) false false 0 [] false false)) (fun _ => true)
    (fun _ _ _ w => (w, [])) (fun _ _ w => (w, DkimNone))
    unit (fun _ => true) (fun _ => true) (fun _ _ w => (w, tt)) (fun _ _ _ _ w => (w, None))
    (fun _ _ _ _ _ _ w => (w, MkDmarc DmarcNone DmarcNone PolicyNone false))
    unit (fun _ _ => tt) (fun _ => tt) (fun _ _ => tt) (fun _ _ _ => tt) (fun _ => tt) (fun _ => tt) (fun _ _ => []) (fun _ _ => [])
    (fun _ _ _ w => w) (fun _ _ w => w) (fun _ w => w)
    (fun _ _ _ _ _ _ _ w => (w, SpamDisabled)) (fun _ _ w => (w, fun _ => Ok [])) (fun _ _ w => (w, fun _ => None))
    (fun _ _ _ w => (w, ScriptDiscard))
    (fun w => (w, 7)) (fun _ => []) (fun _ _ => []) (fun _ _ _ => MkStrategy [60] [60] (Ttl 100) s#"default")
    (fun _ w => (w, Some [])) (fun _ w => (w, true)).

Lemma find_byte_takes c b l : let '(b', rest, d) := find_byte c b l in
  (length rest <= length l)%nat /\ (length b' + length rest <= length b + length l)%nat /\ (d = true -> (length rest < length l)%nat).
Proof.
  revert b. induction l as [| x l IH]; intros b; cbn; [repeat split; [lia.. | discriminate] |]. case_if; [repeat split; lia |].
  specialize (IH (b ++ [x])). destruct (find_byte c (b ++ [x]) l) as [[b' rest] d]. rewrite length_app in IH. cbn in IH.
  destruct IH as (H1 & H2 & H3). repeat split; [lia | lia | intros D; specialize (H3 D); lia].
Qed.


Section Lawful.
Context (p : ServerProtocol).
#[local] Instance server : Server := demo_server p.
#[local] Instance mail : MailServer := demo_mail p.

Lemma demo_request_takes (r : RequestReceiver) l : let '(_, x, rest) := request_ingest r l in
  (length rest <= length l)%nat /\ (x <> Err NeedsMoreData -> (length rest < length l)%nat).
Proof. destruct l as [| c l]; cbn; split; try lia. congruence. Qed.
Lemma demo_chunk_size (r : RequestReceiver) l n last : snd (fst (request_ingest r l)) = Ok (QBdat n last) -> 0 <= n.
Proof.
  destruct l as [| c l]; cbn [request_ingest server demo_server fst snd]; [discriminate |]. unfold demo_request.
  repeat (destruct (c =? _); [try discriminate; try (intros [= <- <-]; lia) |]).
  all: case_if; [intros [= <- <-]; lia | discriminate].
Qed.
Lemma demo_bdat_takes (r : BdatReceiver) l m : let '(r', m', rest, d) := bdat_ingest r l m in
  (length rest <= length l)%nat /\ bdat_is_last r' = bdat_is_last r /\ 0 <= Z.of_nat (fst (r' : nat * bool)) /\
  Z.of_nat (length m') + Z.of_nat (fst (r' : nat * bool)) = Z.of_nat (length m) + Z.of_nat (fst (r : nat * bool)).
Proof. cbn. rewrite length_app, length_firstn, length_skipn. repeat split; lia. Qed.
Lemma demo_dummy_takes (r : DummyReceiver) l : (length (snd (fst (dummy_ingest r l))) <= length l)%nat.
Proof.
  destruct r as [n |]; cbn; [rewrite length_skipn; lia |]. pose proof (find_byte_takes 46 [] l) as H.
  destruct (find_byte 46 [] l) as [[b rest] d]. cbn in *. lia.
Qed.

#[local] Instance laws : Laws.
Proof.
  refine {| bdat_left r := Z.of_nat (fst (r : nat * bool)) |}.
  - exact demo_request_takes.
  - intros r l m. cbn. pose proof (find_byte_takes 46 m l) as H. destruct (find_byte 46 m l) as [[b rest] d]. lia.
  - exact demo_chunk_size.
  - intros w v n. cbn. intros [= <-]. discriminate.
  - intros n last H. cbn. split; [lia | reflexivity].
  - exact demo_bdat_takes.
  - exact demo_dummy_takes.
  - intros r l. cbn. pose proof (find_byte_takes 10 [] l) as H. destruct (find_byte 10 [] l) as [[b rest] d]. cbn. lia.
  - intros b l. cbn. pose proof (find_byte_takes 10 b l) as H. destruct (find_byte 10 b l) as [[b' rest] d]. split; [lia | apply H].
  - cbn. discriminate.
  - cbn. discriminate.
Defined.

(** What the client of a connection is told, and what is queued. *)
Definition talk (c : Config) (reads : list (list Z)) : list (list Z) :=
  let '((s, _), _) := serve false (map ERead reads) c in output s.
Definition taken (c : Config) (reads : list (list Z)) : list Queued :=
  let '((s, _), _) := serve false (map ERead reads) c in queued s.
End Lawful.
