(* ===== verification/SmtpReplies.v ===== *)
(** * How many replies a client gets

    [says n m]: when [m] returns [a], it has written [n a] replies.  A stage
    of a handler has written one reply exactly when it ends the handler, so a
    command gets one reply; a message gets one, or over LMTP one for every
    recipient that was accepted. *)

From S2P Require Import Prelude Decimals Utf8 Text Milter SmtpData SmtpQueue SmtpServer SmtpCommands SmtpMessage SmtpSession SmtpLogic SmtpSafety SmtpDemo.

#[local] Transparent write.

Section Replies.
Context {Sv : Server} {Ml : MailServer}.

Definition replies (s : Session) : nat := length (output s).

Definition says {A} (n : A -> nat) (m : M A) : Prop := forall s w,
  match m (s, w) with ((s', _), Ret a) => replies s' = (replies s + n a)%nat | _ => True end.

Definition none {A} (_ : A) : nat := 0.
Definition one {A} (_ : A) : nat := 1.
(** Of a stage: [false] has been told to the client. *)
Definition if_ended (b : bool) : nat := if b then 0 else 1.

Lemma tells_ret {A} (n : A -> nat) a : n a = 0%nat -> says n (ret a).
Proof. intros H s w. cbn. lia. Qed.
Lemma tells_bind {A B} (m : M A) (k : A -> M B) (f : A -> nat) (n : B -> nat) :
  says f m -> (forall a s w, match k a (s, w) with ((s', _), Ret b) => (replies s' + f a = replies s + n b)%nat | _ => True end) ->
  says n (mbind m k).
Proof.
  intros H K s w. unfold mbind. specialize (H s w). destruct (m (s, w)) as [[s1 w1] [a | | |]]; auto.
  specialize (K a s1 w1). destruct (k a (s1, w1)) as [[s2 w2] [b | | |]]; auto. lia.
Qed.

Lemma tells_quiet {A B} (m : M A) (k : A -> M B) n : says none m -> (forall a, says n (k a)) -> says n (mbind m k).
Proof.
  intros H K. eapply tells_bind; [exact H |]. intros a s w. specialize (K a s w). destruct (k a (s, w)) as [[s2 w2] []]; auto.
  unfold none. lia.
Qed.
Lemma tells_once {A B} (m : M A) (k : A -> M B) : says one m -> (forall a, says none (k a)) -> says one (mbind m k).
Proof.
  intros H K. eapply tells_bind; [exact H |]. intros a s w. specialize (K a s w). destruct (k a (s, w)) as [[s2 w2] []]; auto.
  unfold none, one in *. lia.
Qed.
Lemma tells_stop_after {A} (m : M A) : says one m -> says if_ended (let* _ := m in ret false).
Proof. intros H. apply (tells_bind m _ one); [exact H |]. intros a s w. reflexivity. Qed.
Lemma tells_and_if m k : says if_ended m -> says if_ended k -> says if_ended (and_if m k).
Proof.
  intros H K. eapply tells_bind; [exact H |]. intros [] s w; [| cbn; lia].
  specialize (K s w). destruct (k (s, w)) as [[s2 w2] []]; auto. cbn. lia.
Qed.
Lemma tells_then_if m k : says if_ended m -> says one k -> says one (then_if m k).
Proof.
  intros H K. eapply tells_bind; [exact H |]. intros [] s w; [| reflexivity].
  specialize (K s w). destruct (k (s, w)) as [[s2 w2] []]; auto. cbn. unfold one in *. lia.
Qed.
Lemma tells_panic {A} (n : A -> nat) : says n panic.
Proof. intros s w. exact I. Qed.
Lemma tells_disconnect {A} (n : A -> nat) : says n disconnect_.
Proof. intros s w. exact I. Qed.
Lemma tells_write b : says one (write b).
Proof. intros s w. unfold write. case_if; [| exact I]. apply length_app. Qed.
Lemma tells_reply t : says one (reply t).
Proof. apply tells_write. Qed.
Lemma tells_stop t : says if_ended (stop t).
Proof. apply tells_stop_after, tells_reply. Qed.

Lemma tells_effect {A} (m : M A) : (forall s w, match m (s, w) with ((s', _), Ret a) => output s' = output s | _ => True end) -> says none m.
Proof. intros H s w. specialize (H s w). destruct (m (s, w)) as [[s' w'] []]; auto. unfold replies, none. rewrite H. lia. Qed.

(** ** The effects that write nothing *)

Lemma tells_get : says none get. Proof. apply tells_effect. intros s w. reflexivity. Qed.
Lemma tells_get_data : says none get_data. Proof. apply tells_effect. intros s w. reflexivity. Qed.
Lemma tells_get_params : says none get_params. Proof. apply tells_effect. intros s w. reflexivity. Qed.
Lemma tells_modify f : says none (modify f). Proof. apply tells_effect. intros s w. reflexivity. Qed.
Lemma tells_set_params p : says none (set_params p). Proof. apply tells_effect. intros s w. reflexivity. Qed.
Lemma tells_eval_or {A} (f : Settings -> View -> option A) d : says none (eval_or f d).
Proof. apply tells_effect. intros s w. reflexivity. Qed.
Lemma tells_eval_if {A} (f : Settings -> View -> option A) : says none (eval_if f).
Proof. apply tells_effect. intros s w. reflexivity. Qed.
Lemma tells_read_world {A} (f : W -> A) : says none (read_world f). Proof. apply tells_effect. intros s w. reflexivity. Qed.
Lemma tells_read_clock : says none read_clock. Proof. apply tells_effect. intros s w. reflexivity. Qed.
Lemma tells_call {A} (f : W -> W * A) : says none (call f).
Proof. apply tells_effect. intros s w. unfold call. destruct (f w). reflexivity. Qed.
Lemma tells_call_view {A} (f : View -> W -> W * A) : says none (call_view f).
Proof. apply tells_effect. intros s w. unfold call_view. destruct (f (view s) w). reflexivity. Qed.
Lemma tells_message_or {A} (f : MessageSettings -> View -> option A) d : says none (message_or f d).
Proof. apply tells_effect. intros s w. reflexivity. Qed.
Lemma tells_from_settings {A} (f : MessageSettings -> A) : says none (from_settings f).
Proof. apply tells_effect. intros s w. reflexivity. Qed.
Lemma tells_world_effect f : says none (effect f). Proof. apply tells_effect. intros s w. reflexivity. Qed.
Lemma tells_milters stage : says none (milters_at stage).
Proof. apply tells_effect. intros s w. unfold milters_at. destruct (milter_io _ _ _). destruct (run_milters _ _ _ _); [reflexivity | exact I]. Qed.
Lemma tells_hooks stage : says none (hooks_at stage).
Proof. apply tells_effect. intros s w. unfold hooks_at. destruct (hook_io _ _ _). reflexivity. Qed.
Lemma tells_runs_at stage : says none (runs_at stage). Proof. apply tells_effect. intros s w. reflexivity. Qed.
End Replies.

Section Derived.
Context {Sv : Server} {Ml : MailServer}.

Lemma tells_last {A B} (n : B -> nat) (m : M A) : says n (let* _ := m in disconnect_).
Proof. intros s w. unfold mbind. destruct (m (s, w)) as [[s1 w1] []]; exact I. Qed.
Lemma tells_stop_one t : says one (stop t).
Proof. apply tells_once; [apply tells_reply |]. intros _. apply tells_ret. reflexivity. Qed.
Lemma tells_sender : says none sender.
Proof. apply tells_effect. intros s w. unfold sender, mbind, get_data. cbn. destruct (mail_from _); [reflexivity | exact I]. Qed.
Lemma tells_recipient : says none recipient.
Proof. apply tells_effect. intros s w. unfold recipient, mbind, get_data. cbn. destruct (last_rcpt _); [reflexivity | exact I]. Qed.
Lemma tells_apply l : says none (apply_script_modifications l).
Proof. apply tells_modify. Qed.
(** Of a stage that gives nothing once it has told the client. *)
Definition if_none {A} (r : option A) : nat := match r with None => 1 | Some _ => 0 end.
Lemma tells_after {A B} (m : M A) (b : B) n : says one m -> n b = 1%nat -> says n (let* _ := m in ret b).
Proof. intros H E. apply (tells_bind m _ one); [exact H |]. intros a s w. cbn. unfold one. lia. Qed.
End Derived.

Create HintDb says.
#[export] Hint Resolve tells_last tells_stop_one tells_sender tells_recipient tells_apply : says.
#[export] Hint Resolve tells_get tells_get_data tells_get_params tells_modify tells_set_params tells_eval_or tells_eval_if tells_read_world
  tells_read_clock tells_call tells_call_view tells_message_or tells_from_settings tells_world_effect tells_milters tells_hooks tells_runs_at
  tells_write tells_reply tells_stop tells_panic tells_disconnect : says.

(** Counts through binds, branches and the stages of a handler. *)
Ltac count1 :=
  lazymatch goal with
  | |- says if_ended (and_if _ _) => apply tells_and_if
  | |- says one (then_if _ _) => apply tells_then_if
  | |- says _ (ret _) => apply tells_ret; reflexivity
  | |- says if_ended go => apply tells_ret; reflexivity
  | |- says _ (if ?b then _ else _) => destruct b
  | |- says _ (match ?x with _ => _ end) => destruct x
  | |- says _ (let _ := _ in _) => cbv zeta
  | |- says _ (mbind (handle_spf _ _) _) => fail
  | |- says _ (mbind _ _) =>
      first
        [ apply tells_last
        | apply tells_quiet; [solve [auto with says nocore] | intros ?]
        | apply tells_stop_after
        | apply tells_after; [solve [auto with says nocore] | reflexivity]
        | apply tells_once; [solve [auto with says nocore] | intros ?]
        | apply tells_quiet; [| intros ?] ]
  | |- _ => solve [auto with says nocore]
  end; cbv beta.
Ltac count := repeat count1.

Section Handlers.
Context {Sv : Server} {Ml : MailServer}.

Lemma tells_filtered m undo : says none m -> says if_ended (filtered m undo).
Proof. intros H. unfold filtered. apply tells_quiet; [exact H |]. intros []; count. Qed.
Lemma tells_script stage : says none (script_at stage).
Proof. unfold script_at. count. Qed.
Lemma tells_script_step stage undo : says if_ended (script_step stage undo).
Proof. unfold script_step. apply tells_quiet; [apply tells_script |]. intros a. count. Qed.
Lemma tells_check_limits l : says none (check_limits l).
Proof. induction l as [| t l IH]; cbn [check_limits]; count; apply IH. Qed.
Lemma tells_is_allowed : says none is_allowed.
Proof. unfold is_allowed. count; apply tells_check_limits. Qed.
Lemma tells_spf out strict : says if_ended (handle_spf out strict).
Proof.
  unfold handle_spf. apply (tells_bind _ _ if_ended); [count |]. intros r s w. reflexivity.
Qed.
End Handlers.
#[export] Hint Resolve tells_filtered tells_script tells_script_step tells_is_allowed tells_spf : says.

Section Commands.
Context {Sv : Server} {Ml : MailServer}.

(** A stage that SPF may end. *)
Lemma tells_spf_then out strict (yes no : M unit) : says none yes -> says none no ->
  says if_ended (let* ok := handle_spf out strict in if ok : bool then let* _ := yes in go else let* _ := no in ret false).
Proof.
  intros Y N. apply (tells_bind _ _ if_ended); [apply tells_spf |]. intros [] s w; [specialize (Y s w) | specialize (N s w)]; unfold mbind.
  - destruct (yes (s, w)) as [[s2 w2] []]; auto. cbn in *. unfold none in Y. lia.
  - destruct (no (s, w)) as [[s2 w2] []]; auto. cbn in *. unfold none in N. lia.
Qed.

Lemma tells_ehlo_domain dom : says if_ended (ehlo_domain dom).
Proof.
  unfold ehlo_domain. count; try apply tells_ret; try reflexivity.
  unfold ehlo_spf. count. apply tells_spf_then; apply tells_modify.
Qed.
Lemma tells_ehlo dom ext : says one (handle_ehlo dom ext).
Proof. unfold handle_ehlo. count1; [apply tells_ehlo_domain |]. count. Qed.

Lemma tells_auth_error r : says one (auth_error r).
Proof. unfold auth_error. count. Qed.
#[local] Hint Resolve tells_auth_error : says.
Lemma tells_authenticate c : says one (authenticate c).
Proof. unfold authenticate, eval_post_auth_params. count. Qed.
#[local] Hint Resolve tells_authenticate : says.
Lemma tells_sasl token response : says one (handle_sasl_response token response).
Proof. unfold handle_sasl_response. count. Qed.
Lemma tells_vrfy a : says one (handle_vrfy a).
Proof. unfold handle_vrfy. count. Qed.
Lemma tells_expn a : says one (handle_expn a).
Proof. unfold handle_expn. count. Qed.

Lemma tells_refuse r : says if_ended (refuse r).
Proof. unfold refuse. count. Qed.
End Commands.
#[export] Hint Resolve tells_refuse tells_auth_error tells_authenticate : says.

Section Mail.
Context {Sv : Server} {Ml : MailServer}.

Lemma tells_mail from : says one (handle_mail_from from).
Proof.
  unfold handle_mail_from, mail_sequence, mail_reverse_dns, mail_allowed, mail_filters, mail_rewritten, mail_matches, mail_parameters, mail_by,
    mail_priority, mail_size, mail_hold, mail_spf, eval_rcpt_params. count. apply tells_spf_then; apply tells_modify.
Qed.

Lemma tells_rcpt_error r x : says one (rcpt_error r x).
Proof. unfold rcpt_error. count. Qed.
#[local] Hint Resolve tells_rcpt_error : says.

Lemma tells_accepted : says one accepted.
Proof. unfold accepted. count. Qed.
Lemma tells_accepted_stage : says if_ended accepted.
Proof. unfold accepted. count. Qed.
#[local] Hint Resolve tells_accepted tells_accepted_stage : says.

Lemma tells_rcpt_verified : says if_none rcpt_verified.
Proof. unfold rcpt_verified. count. Qed.
Lemma tells_expand a l : says none (expand_members a l).
Proof. induction l as [| x l IH]; cbn [expand_members]; count. Qed.
#[local] Hint Resolve tells_expand : says.

Lemma tells_rcpt_stages to : says if_ended (and_if (rcpt_sequence to) (and_if (rcpt_pushed to) rcpt_filters)).
Proof. unfold rcpt_sequence, rcpt_pushed, rcpt_filters, rcpt_rewritten, rcpt_unique. count. Qed.
Lemma tells_rcpt_added members : says one (rcpt_added members).
Proof.
  unfold rcpt_added, rcpt_greylisted. count.
Qed.
Lemma tells_rcpt to : says one (handle_rcpt_to to).
Proof.
  unfold handle_rcpt_to. apply tells_then_if; [apply tells_rcpt_stages |]. apply (tells_bind _ _ if_none); [apply tells_rcpt_verified |].
  intros [members |] s w; [| reflexivity]. pose proof (tells_rcpt_added members s w) as H.
  destruct (rcpt_added members (s, w)) as [[s1 w1] []]; auto. cbn in *. lia.
Qed.
End Mail.

(** ** Messages *)

Section Messages.
Context {Sv : Server} {Ml : MailServer}.

(** What the handling of a message does not touch before it is answered. *)
Definition told (s : Session) : list (list Z) * Z := (output s, rcpt_oks (data s)).
Definition quietly {A} (m : M A) : Prop := forall s w, match m (s, w) with ((s', _), Ret _) => told s' = told s | _ => True end.

Lemma quietly_bind {A B} (m : M A) (k : A -> M B) : quietly m -> (forall a, quietly (k a)) -> quietly (mbind m k).
Proof.
  intros H K s w. unfold mbind. specialize (H s w). destruct (m (s, w)) as [[s1 w1] [a | | |]]; auto.
  specialize (K a s1 w1). destruct (k a (s1, w1)) as [[s2 w2] [b | | |]]; auto. congruence.
Qed.
Lemma quietly_then {A B} (m : Stage_ A) (k : A -> Stage_ B) : quietly m -> (forall a, quietly (k a)) -> quietly (then_ m k).
Proof. intros H K. apply quietly_bind; [exact H |]. intros [a | e]; [apply K | intros s w; reflexivity]. Qed.
Lemma quietly_modify f : (forall d, rcpt_oks (f d) = rcpt_oks d) -> quietly (modify f).
Proof. intros H s w. unfold told. cbn. rewrite H. reflexivity. Qed.
Lemma quietly_call {A} (f : W -> W * A) : quietly (call f).
Proof. intros s w. unfold call. destruct (f w). reflexivity. Qed.
Lemma quietly_call_view {A} (f : View -> W -> W * A) : quietly (call_view f).
Proof. intros s w. unfold call_view. destruct (f (view s) w). reflexivity. Qed.
Lemma quietly_sender : quietly sender.
Proof. intros s w. unfold sender, mbind, get_data. cbn. destruct (mail_from _); [reflexivity | exact I]. Qed.

Lemma modifications_oks m l d : rcpt_oks (fst (apply_milter_modifications l m d)) = rcpt_oks d.
Proof.
  unfold apply_milter_modifications. generalize (MkChanges [] [] false). revert d.
  induction l as [| x l IH]; intros d c; cbn [fold_left]; [reflexivity |].
  assert (H : rcpt_oks (fst (modification_step m (d, c) x)) = rcpt_oks d) by (destruct x; cbn; repeat case_if; reflexivity).
  destruct (modification_step m (d, c) x) as [d1 c1]. cbn in H. rewrite IH. exact H.
Qed.

Ltac quiet1 :=
  lazymatch goal with
  | |- quietly (mbind _ _) => apply quietly_bind; [| intros ?]
  | |- quietly (then_ _ _) => apply quietly_then; [| intros ?]
  | |- quietly (call _) => apply quietly_call
  | |- quietly (call_view _) => apply quietly_call_view
  | |- quietly sender => apply quietly_sender
  | |- quietly (modify _) => apply quietly_modify; intros ?
  | |- quietly (apply_script_modifications _) => apply quietly_modify; intros ?; apply script_untouched
  | |- quietly (if ?b then _ else _) => destruct b
  | |- quietly (match ?x with _ => _ end) => destruct x
  | |- quietly (let _ := _ in _) => cbv zeta
  | |- quietly _ => intros ? ?; reflexivity
  | |- _ => reflexivity
  end; cbv beta.
Ltac quietly_ := repeat quiet1.

Lemma quietly_reports b l : quietly (dkim_reports b l).
Proof. induction l as [| x l IH]; cbn [dkim_reports]; quietly_; exact IH. Qed.
Lemma quietly_filters p : quietly (filter_stage p).
Proof.
  unfold filter_stage. apply quietly_bind.
  - intros s w. destruct (milter_message_io _ _ _). destruct (run_milters _ _ _ _); [reflexivity | exact I].
  - intros [l |]; [| quietly_]. apply quietly_bind; [intros s w; destruct (hook_message_io _ _ _); reflexivity |].
    intros [more |]; [| quietly_]. cbv zeta. destruct more as [| x more].
    + destruct l as [| y l]; [quietly_ |]. intros s w. pose proof (modifications_oks (auth_message p) (y :: l) (data s)) as H.
      destruct (apply_milter_modifications _ _ _). unfold told. cbn in *. rewrite H. reflexivity.
    + destruct (List.filter _ l ++ x :: more) as [| y l']; [quietly_ |]. intros s w.
      pose proof (modifications_oks (auth_message p) (y :: l') (data s)) as H.
      destruct (apply_milter_modifications _ _ _). unfold told. cbn in *. rewrite H. reflexivity.
Qed.

Lemma quietly_queue : quietly queue_message.
Proof.
  unfold queue_message, parse_stage, dkim_stage, arc_stage, dkim2_stage, dmarc_stage, report_stage, headers_stage, spam_stage, script_stage,
    queue_stage, last_headers.
  quietly_; try apply quietly_reports; try apply quietly_filters.
Qed.
End Messages.

(** ** Every command is answered *)

Section Answers.
Context {Sv : Server} {Ml : MailServer}.

(** The replies to a message. *)
Definition per_message (s : Session) : nat := match protocol with Smtp => 1 | Lmtp => Z.to_nat (rcpt_oks (data s)) end.

Lemma write_times_tells n b : says (fun _ => n) (write_times n b).
Proof.
  induction n as [| n IH]; cbn [write_times]; [intros s w; cbn; lia |].
  apply (tells_bind _ _ one); [apply tells_write |]. intros ? s w. specialize (IH s w).
  destruct (write_times n b (s, w)) as [[s1 w1] []]; auto. unfold one. lia.
Qed.

Lemma end_answers s w :
  match end_of_message (s, w) with ((s', _), Ret _) => replies s' = (replies s + per_message s)%nat | _ => True end.
Proof.
  unfold end_of_message, mbind at 1. pose proof (quietly_queue s w) as Q. destruct (queue_message (s, w)) as [[s1 w1] [m | | |]]; auto.
  unfold mbind at 1, get_data. cbn [fst]. destruct m as [| c m]; [exact I |]. unfold mbind.
  injection Q as Q1 Q2. rewrite Q2. change (match protocol with Smtp => 1%nat | Lmtp => Z.to_nat (rcpt_oks (data s)) end) with (per_message s).
  pose proof (write_times_tells (per_message s) (c :: m) s1 w1) as N. destruct (write_times _ _ _) as [[s2 w2] [[] | | |]]; auto.
  cbn. unfold replies in *. cbn. congruence.
Qed.

(** A state in which the client is owed the reply to a command. *)
Definition owes (st : State) : bool := match st with SBdat _ | SSkipData _ _ | SRequestTooLarge _ => true | _ => false end.
Definition answers (a : After) : nat := match a with Become st => if owes st then 0 else 1 | _ => 1 end.

Lemma tells_stay m : says one m -> says answers (stay m).
Proof. intros H. apply tells_after; [exact H | reflexivity]. Qed.

Lemma request_answers r : says answers (handle_request r).
Proof.
  destruct r; cbn [handle_request]; unfold smtp_only, lmtp_only;
    try match goal with |- context [protocol] => destruct protocol end;
    try (apply tells_stay; first [apply tells_rcpt | apply tells_mail | apply tells_ehlo | apply tells_vrfy | apply tells_expn | count; fail]).
  - (* DATA *)
    unfold data_request. apply tells_quiet; [unfold can_send_data; count |]. intros [r |]; [apply tells_stay; count |].
    apply (tells_bind _ _ one); [count |]. intros ? s w. reflexivity.
  - (* BDAT *)
    unfold bdat_request. apply tells_quiet; [unfold can_send_data; count |]. intros r. apply tells_quiet; [count |].
    intros s. apply tells_ret. destruct r; [reflexivity |]. case_if; reflexivity.
  - (* AUTH *)
    unfold auth_request. apply tells_quiet; [count |]. intros auth. apply tells_quiet; [count |]. intros d.
    case_if; [apply tells_stay; count |]. case_if; [apply tells_stay; count |].
    destruct (from_mechanism _); [| apply tells_stay; count]. apply (tells_bind _ _ one); [apply tells_sasl |].
    intros [t []] s1 w1; reflexivity.
  - (* STARTTLS *)
    unfold starttls_request. apply tells_quiet; [count |]. intros s0. case_if; [apply tells_stay; count |].
    case_if; [| apply tells_stay; count]. apply tells_after; [count | reflexivity].
  - apply tells_last.
Qed.

Definition error_answers (e : ParseError) (a : option After) : nat := match a with Some a => answers a | None => 0 end.
Lemma handled_answers e : says (error_answers e) (handle_error e).
Proof.
  destruct e; cbn [handle_error]; try (apply tells_after; [count | reflexivity]); try (apply tells_ret; reflexivity).
  1, 2: apply tells_quiet; [count |]; intros d; apply tells_quiet; [count |]; intros [[] |];
    first [apply tells_disconnect | apply tells_after; [count | reflexivity]].
  apply tells_quiet; [count |]. intros p. case_if; apply tells_after; first [reflexivity | apply tells_ehlo | count].
Qed.

(** The replies that a step is to write. *)
Definition due_replies (s : Session) (st : State) (x : Next) : nat :=
  match x with
  | Wait _ => 0
  | ToTls => 1
  | GoOn st' _ =>
      if owes st' then 0
      else match st with
           | SData_ _ => per_message s
           | SBdat r => if bdat_is_last r then per_message s else 1
           | _ => 1
           end
  end.

Lemma step_answers {L : Laws} (len : Z) (st : State) (iter : list Z) (s : Session) (w : W) :
  match ingest_step len st iter (s, w) with
  | ((s', _), Ret x) => replies s' = (replies s + due_replies s st x)%nat
  | _ => True
  end.
Proof.
  destruct st as [r | r | r | buf token | r response | r | |]; cbn [ingest_step].
  - destruct (request_ingest r iter) as [[r' x] rest].
    assert (H : says (fun a => match a with Some a => answers a | None => 0%nat end)
                  (match x with Ok request => let* a := handle_request request in ret (Some a) | Err e => handle_error e end)).
    { destruct x as [q | e]; [| apply handled_answers]. apply (tells_bind _ _ answers); [apply request_answers |]. intros a s1 w1. cbn. lia. }
    specialize (H s w). unfold mbind at 1. destruct (_ (s, w)) as [[s1 w1] [[[| st' |] |] | | |]]; auto.
  - unfold mbind at 1, get. cbn [fst]. pose proof (bdat_takes r iter (message (data s))) as T.
    destruct (bdat_ingest r iter _) as [[[r' m] rest] d]. destruct T as (_ & T & _). unfold mbind at 1, modify at 1.
    destruct d; [| cbn; unfold replies; cbn; lia]. unfold mbind. destruct (bdat_is_last r').
    + pose proof (end_answers (with_data (set_message m (data s)) s) w) as E. destruct (end_of_message _) as [[s2 w2] []]; auto.
      cbn. rewrite <- T. exact E.
    + pose proof (tells_reply s#"250 2.6.0 Chunk accepted." (with_data (set_message m (data s)) s) w) as E.
      destruct (reply _ _) as [[s2 w2] []]; auto. cbn. rewrite <- T. exact E.
  - unfold mbind at 1, get. cbn [fst]. case_if; [| cbn; lia].
    destruct (data_ingest r iter _) as [[[r' m] rest] d]. unfold mbind at 1, modify at 1.
    destruct d; [| cbn; unfold replies; cbn; lia]. unfold mbind.
    pose proof (end_answers (with_data (set_message m (data s)) s) w) as R. destruct (end_of_message _) as [[s2 w2] []]; auto.
  - destruct (line_ingest buf iter) as [[buf' rest] d]. destruct d; [| cbn; lia]. case_if.
    + pose proof (tells_sasl token buf' s w) as R. unfold mbind. destruct (handle_sasl_response _ _ _) as [[s1 w1] [[t []] | | |]]; auto.
    + pose proof (tells_auth_error (line s#"500 5.5.6 Authentication Exchange line is too long.") s w) as R. unfold mbind.
      destruct (auth_error _ _) as [[s1 w1] []]; auto.
  - destruct (dummy_ingest r iter) as [[r' rest] d]. destruct d; [| cbn; lia]. unfold mbind at 1, modify at 1.
    pose proof (tells_write response (with_data (set_message [] (data s)) s) w) as R. unfold mbind. destruct (write _ _) as [[s1 w1] []]; auto.
  - destruct (dummy_line_ingest r iter) as [[r' rest] d]. destruct d; [| cbn; lia].
    pose proof (tells_reply s#"554 5.3.4 Line is too long." s w) as R. unfold mbind. destruct (reply _ _) as [[s1 w1] []]; auto.
  - exact I.
  - exact I.
Qed.

End Answers.

Module Demo.
#[local] Existing Instance demo_crates.
#[local] Instance sv : Server := demo_server Lmtp.
#[local] Instance ml : MailServer := demo_mail Lmtp.
#[local] Instance lw : Laws := laws Lmtp.

(** Of a session with a sender and two recipients, the end of the data. *)
Definition before : Session * @W sv := fst (serve false (map ERead [s#"LMRND"]) (Plain : @W sv)).
Definition ending : @State sv := @SData_ sv tt.

Definition after : Session * @W sv := fst (ingest_step 3 ending s#"hi." (fst before, snd before)).

End Demo.
