(* ===== verification/SmtpIntake.v ===== *)
(** * Messages and whole sessions keep the invariant

    The stages that a message passes, the state machine of a session with the
    fuel of its loop, and a connection from the first byte to the last. *)

From S2P Require Import Prelude Decimals Utf8 Text Milter SmtpData SmtpQueue SmtpServer SmtpCommands SmtpMessage SmtpSession SmtpLogic SmtpSafety.

(** ** The recipients of a queued message *)

Section Built.
Context {Cr : Crates} (strategy : Message -> Recipient -> QueueStrategy).

Lemma sort_addresses_in a l : In a (sort_addresses l) -> In a l.
Proof.
  induction l as [| b l IH]; cbn; [tauto |].
  enough (H : forall l, In a (insert_address b l) -> b = a \/ In a l) by (intros Ha; apply H in Ha as [|]; auto).
  clear. induction l as [| c l IH]; cbn; [tauto |]. case_if; cbn; [tauto |]. intros [|]; [tauto |]. apply IH in H. tauto.
Qed.

Definition from_addresses (l : list SessionAddress) (m : Message) : Prop :=
  Forall (fun r => exists a, In a l /\ raddress r = to_lowercase_address (address a) false) (recipients m).

Lemma build_recipient_from now d l m a : In a l -> from_addresses l m -> from_addresses l (build_recipient strategy now d m a).
Proof.
  intros Ha H. unfold build_recipient. destruct (deadlines _ _ _ _) as [n e].
  apply Forall_app. split; [exact H | constructor; [exists a; auto | constructor]].
Qed.

Lemma build_message_from now d from l : from_addresses l (build_message strategy now d from l).
Proof.
  unfold build_message.
  assert (H : forall l' m, (forall a, In a l' -> In a l) -> from_addresses l m ->
                           from_addresses l (fold_left (build_recipient strategy now d) l' m)).
  { induction l' as [| a l' IH]; intros m Hl Hm; [exact Hm |]. apply IH; [intros; apply Hl; right; assumption |].
    apply build_recipient_from; [apply Hl; left; reflexivity | exact Hm]. }
  apply H; [intros a; apply sort_addresses_in | constructor].
Qed.
End Built.

Section Intake.
Context {Sv : Server} {Ml : MailServer} {L : Laws}.
Notation wp := (wp fin).

(** ** Filters *)

Lemma merge_in m old new : In m (merge_modifications old new) -> In m old \/ In m new.
Proof.
  unfold merge_modifications. destruct old; [auto |]. intros Hm. apply in_app_or in Hm as [Hm |]; [left | auto].
  case_if_in Hm; [apply List.filter_In in Hm; apply Hm | exact Hm].
Qed.

Lemma run_milters_in io l n ms ms' m : run_milters io n l ms = Some (Ok ms') -> In m ms' ->
  In m ms \/ exists k l', io k = Ok l' /\ In m l'.
Proof.
  revert n ms. induction l as [| x l IH]; cbn; intros n ms; [intros [= ->]; auto |]. case_if; [apply IH |].
  destruct (io n) as [new | [a | e]] eqn:Io; intros R Hm.
  - destruct (IH _ _ R Hm) as [H1 | H1]; [apply merge_in in H1 as [|]; eauto | auto].
  - destruct (rejected_by a); discriminate.
  - case_if_in R; [discriminate | eapply IH; eassumption].
Qed.
Lemma run_mta_hooks_in io l n ms ms' m : run_mta_hooks io n l ms = Ok ms' -> In m ms' ->
  In m ms \/ exists k r, io k = Some r /\ In m (map of_hook (hmodifications r)).
Proof.
  revert n ms. induction l as [| x l IH]; cbn; intros n ms; [intros [= ->]; auto |]. case_if; [apply IH |].
  destruct (io n) as [r |] eqn:Io; intros R Hm.
  - destruct (hook_answer r); [discriminate |]. destruct (IH _ _ R Hm) as [H1 | H1]; [apply merge_in in H1 as [|]; eauto | auto].
  - case_if_in R; [discriminate | eapply IH; eassumption].
Qed.

Definition adds_allowed (l : list Modification) : Prop :=
  forall a args, In (AddRcpt a args) l -> permitted (strip_brackets a) (to_lowercase (strip_brackets a)).

Lemma modification_keeps m d c x : (forall a args, x = AddRcpt a args -> permitted (strip_brackets a) (to_lowercase (strip_brackets a))) ->
  Forall ok_address (rcpt_to d) -> let '(d', _) := modification_step m (d, c) x in untouched d d' /\ Forall ok_address (rcpt_to d').
Proof.
  intros P F. destruct x; cbn; repeat case_if; try (split; [apply untouched_refl | assumption]).
  - split; [repeat split; discriminate | exact F].
  - split; [repeat split; auto |]. apply Forall_app. split; [exact F |]. constructor; [| constructor].
    unfold ok_address, filter_address. destruct args; [exact (P _ _ eq_refl) |]. destruct (default _ _). exact (P _ _ eq_refl).
  - split; [repeat split; auto |]. apply List.Forall_forall. intros y Hy. apply List.filter_In in Hy as [Hy _].
    rewrite List.Forall_forall in F. exact (F y Hy).
Qed.

Lemma modifications_keep m l d : adds_allowed l -> Forall ok_address (rcpt_to d) ->
  untouched d (fst (apply_milter_modifications l m d)) /\ Forall ok_address (rcpt_to (fst (apply_milter_modifications l m d))).
Proof.
  unfold apply_milter_modifications. generalize (MkChanges [] [] false). revert d.
  induction l as [| x l IH]; intros d c A F; cbn [fold_left]; [split; [apply untouched_refl | exact F] |].
  pose proof (modification_keeps m d c x ltac:(intros a args ->; exact (A a args (or_introl eq_refl))) F) as H.
  destruct (modification_step m (d, c) x) as [d1 c1]. destruct H as [H1 H2].
  destruct (IH d1 c1 ltac:(intros a args Ha; exact (A a args (or_intror Ha))) H2) as [H3 H4].
  split; [exact (untouched_trans _ _ _ H1 H3) | exact H4].
Qed.

Lemma has_sender_untouched d s : has_sender s -> untouched (data s) d -> Forall ok_address (rcpt_to d) -> has_sender (with_data d s).
Proof.
  intros S (E1 & E2 & E3 & _ & E5) R. pose proof (has_sender_auth s S) as Au. destruct S as [I F].
  split; [| exact (E5 F)]. red in I |- *. unfold Inv in *. cbn in *. rewrite E1, E2, E3. tauto.
Qed.

(** ** The stages of a message *)

Definition going {A} (_ : A) (s : Session) (_ : W) : Prop := has_sender s.

(** A stage that does not touch what the invariant is about. *)
Ltac stage S :=
  repeat first [ case_if | step | match goal with |- wp match ?x with _ => _ end _ _ => destruct x end ]; exact S.

Lemma going_then {A B} (m : Stage_ A) (k : A -> Stage_ B) s w :
  wp m going (s, w) -> (forall a s w, has_sender s -> wp (k a) going (s, w)) -> wp (then_ m k) going (s, w).
Proof. intros H K. apply wp_then. eapply wp_mono; [exact H |]. intros [] ? ? ?; [apply K |]; assumption. Qed.
Lemma going_bind {A B} (m : M A) (k : A -> M B) s w :
  wp m going (s, w) -> (forall a s w, has_sender s -> wp (k a) going (s, w)) -> wp (mbind m k) going (s, w).
Proof. intros H K. apply wp_seq. eapply wp_mono; [exact H |]. intros. apply K. assumption. Qed.
Lemma going_sender {B} (k : SessionAddress -> M B) s w : has_sender s -> (forall a, wp (k a) going (s, w)) ->
  wp (let* a := sender in k a) going (s, w).
Proof. intros S K. step. apply sender_wp; [apply S | exact K]. Qed.

Lemma parse_going raw s w : has_sender s -> wp (parse_stage raw) going (s, w).
Proof. intros S. unfold parse_stage. stage S. Qed.

Lemma reports_going b l s w : has_sender s -> wp (dkim_reports b l) going (s, w).
Proof.
  intros S. revert w. induction l as [| o l IH]; intros w; cbn [dkim_reports]; [stage S |].
  step. destruct (failure_report_addr o); step; apply IH.
Qed.
Lemma dkim_going p dkim dmarc s w : has_sender s -> wp (dkim_stage p dkim dmarc) going (s, w).
Proof.
  intros S. unfold dkim_stage. case_if; [| stage S]. do 4 step.
  apply going_bind; [destruct (dkim_send _ _); cbn [default from_option id]; [apply reports_going; exact S | stage S] |]. intros _ s1 w2 S1. stage S1.
Qed.
Lemma arc_going p s w : has_sender s -> wp (arc_stage p) going (s, w).
Proof. intros S. unfold arc_stage. stage S. Qed.
Lemma dkim2_going p raw dkim dmarc s w : has_sender s -> wp (dkim2_stage p raw dkim dmarc) going (s, w).
Proof.
  intros S. unfold dkim2_stage. apply going_sender; [exact S |]. intros _. case_if; [| stage S].
  apply going_bind; [stage S |]. intros f s1 w1 S1. stage S1.
Qed.
Lemma dmarc_going p dmarc dkim dkim2 from report s w : has_sender s -> wp (dmarc_stage p dmarc dkim dkim2 from report) going (s, w).
Proof.
  intros S. unfold dmarc_stage. case_if; [| stage S]. do 4 step.
  apply going_bind; [stage S |]. intros _ s1 w1 S1. stage S1.
Qed.
Lemma report_going p report s w : has_sender s -> wp (report_stage p report) going (s, w).
Proof. intros S. unfold report_stage. stage S. Qed.
Lemma headers_going id results s w : has_sender s -> wp (headers_stage id results) going (s, w).
Proof. intros S. unfold headers_stage. stage S. Qed.

Lemma mark_spam_ok results l : Forall ok_address l -> Forall ok_address (mark_spam results l).
Proof.
  revert l. induction results as [| b results IH]; intros l F; [exact F |]. destruct l as [| a l]; [exact F |].
  inversion F; subst. constructor; [destruct b; assumption | apply IH; assumption].
Qed.
Lemma spam_going p dkim dkim2 arc dmarc headers s w : has_sender s -> wp (spam_stage p dkim dkim2 arc dmarc headers) going (s, w).
Proof.
  intros S. unfold spam_stage. do 4 step. case_if; [| stage S]. do 2 step.
  assert (K : forall r, has_sender (with_data (set_rcpt_to (mark_spam r (rcpt_to (data s))) (data s)) s)).
  { intros r. apply (has_sender_untouched _ _ S); [repeat split; auto |]. apply mark_spam_ok, S. }
  destruct a as [h t b r | | |]; [| stage S ..]. repeat step. exact (K r).
Qed.

Lemma filters_going p s w : has_sender s -> wp (filter_stage p) going (s, w).
Proof.
  intros S. unfold filter_stage. do 2 step. destruct (milter_message_io p (view s) w) as [w1 io] eqn:E.
  destruct (run_milters io 0 _ []) as [[ms |] |] eqn:R; [| stage S |].
  2: { apply (run_milters_total io) in R; [tauto |]. intros n a Hn. eapply (milter_message_rejects p (view s) w n). rewrite E. exact Hn. }
  do 2 step. destruct (hook_message_io p (view s) w1) as [w2 hio] eqn:E2.
  destruct (run_mta_hooks hio 0 _ []) as [more |] eqn:R2; [| stage S].
  assert (A1 : adds_allowed ms).
  { intros a args Ha. destruct (run_milters_in _ _ _ _ _ _ R Ha) as [[] | (k & l' & Ek & Hl)].
    apply (by_milter a args p (view s) w k l'); [rewrite E; exact Ek | exact Hl]. }
  assert (A2 : adds_allowed more).
  { intros a args Ha. destruct (run_mta_hooks_in _ _ _ _ _ _ R2 Ha) as [[] | (k & r & Ek & Hl)].
    apply (by_hook a args p (view s) w1 k r); [rewrite E2; exact Ek | exact Hl]. }
  assert (A : adds_allowed match more with [] => ms | _ => List.filter (fun m => negb (is_replace_body m)) ms ++ more end).
  { destruct more as [| x more]; [exact A1 |]. intros a args Ha. apply in_app_or in Ha as [Ha | Ha]; [| exact (A2 a args Ha)].
    apply List.filter_In in Ha as [Ha _]. exact (A1 a args Ha). }
  revert A. generalize (match more with [] => ms | _ => List.filter (fun m => negb (is_replace_body m)) ms ++ more end).
  intros [| x l] A; [stage S |]. step. pose proof (modifications_keep (auth_message p) (x :: l) (data s) A (proj1 (proj2 (proj2 (proj2 (proj1 S)))))) as [U F].
  destruct (apply_milter_modifications _ _ _). exact (has_sender_untouched _ _ S U F).
Qed.

Lemma script_going p dkim arc dmarc headers spam edited s w : has_sender s ->
  wp (script_stage p dkim arc dmarc headers spam edited) going (s, w).
Proof.
  intros S. unfold script_stage. do 4 step.
  destruct (match script _ _ _ with Some _ => _ | None => _ end) as [sc |]; [| stage S]. do 2 step.
  destruct a as [l | m l | |]; try (stage S); unfold apply_script_modifications; do 3 step; apply has_sender_script; try exact S; intros x Hx;
    (eapply by_message_script; [reflexivity | rewrite H; cbn; eauto | exact Hx]).
Qed.

(** ** The queue *)

Lemma entry_good s now d from id meta n src h b raw l : has_sender s -> below_limit (Z.of_nat (length raw)) -> 
  Forall ok_address l -> (is_authenticated (data s) = true -> src = Authenticated) ->
  forall strategy, good_entry (auth_require (params s))
    (MkEntry id (set_metadata meta (set_msize n (build_message strategy now d from l))) src h b raw).
Proof.
  intros S B F A strategy. split; [| split; [exact B |]].
  - pose proof (build_message_from strategy now d from l) as H. unfold from_addresses in H.
    apply List.Forall_forall. rewrite List.Forall_forall in H, F. intros r Hr. destruct (H r Hr) as (a & Ha & E).
    exists (address a), (address_lcase a). split; [exact (F a Ha) | exact E].
  - intros R. apply A. pose proof (has_sender_auth s S R) as N. unfold is_authenticated.
    destruct (authenticated_as (data s)); congruence.
Qed.

Lemma queue_stage_kept p raw id headers edited dmarc train s w : has_sender s -> below_limit (Z.of_nat (length raw)) ->
  wp (queue_stage p raw id headers edited dmarc train) kept (s, w).
Proof.
  intros S B. assert (N : has_sender (with_data (set_rcpt_to [] (data s)) s)).
  { apply (has_sender_untouched _ _ S); [repeat split; auto | constructor]. }
  unfold queue_stage. step. apply sender_wp; [apply S |]. intros from. do 6 step. unfold last_headers.
  apply wp_seq. repeat step. destruct a as [meta |]; [| step; exact (proj1 N)]. repeat step.
  destruct a; repeat step; [| exact (proj1 N)].
  destruct N as [N _]. red. unfold inv, Inv in *. cbn in *.
  destruct N as (N1 & N2 & N3 & N4 & N5 & N6 & N7). split_and!; try assumption. apply Forall_app. split; [exact N7 |].
  constructor; [| constructor]. apply entry_good; [exact S | exact B | apply S |].
  unfold source_of. intros ->. reflexivity.
Qed.

Lemma queue_message_kept s w : has_sender s -> below_limit (Z.of_nat (length (message (data s)))) -> wp queue_message kept (s, w).
Proof.
  intros S0 B. unfold queue_message. apply wp_seq. do 4 step. assert (S : has_sender (with_data (set_message [] (data s)) s)) by exact S0.
  revert S B. generalize (message (data s)). generalize (with_data (set_message [] (data s)) s). clear S0 s. intros s raw S B.
  eapply wp_mono with (Q := kept); [| intros [] ? ? ?; step; assumption].
  assert (T : forall A B (m : Stage_ A) (k : A -> Stage_ B) s w, wp m going (s, w) ->
    (forall a s w, has_sender s -> wp (k a) kept (s, w)) -> wp (then_ m k) kept (s, w)).
  { clear. intros A B m k s w H K. apply wp_then. eapply wp_mono; [exact H |]. intros [] ? ? G; [exact (K _ _ _ G) | exact (proj1 G)]. }
  apply T; [apply parse_going, S | intros p s1 w1 S1]. do 4 step.
  apply T; [apply dkim_going, S1 | intros dkim s2 w2 S2]. apply T; [apply arc_going, S2 | intros arc s3 w3 S3].
  apply T; [apply dkim2_going, S3 | intros dkim2 s4 w4 S4]. step. apply sender_wp; [apply S4 |]. intros from. do 4 step.
  apply T; [apply dmarc_going, S4 | intros dm s5 w5 S5]. apply T; [apply report_going, S5 | intros [] s6 w6 S6]. do 2 step.
  step. eapply wp_mono; [apply headers_going, S6 |]. intros h s7 w7 S7.
  apply T; [apply spam_going, S7 | intros [[h2 train] spam] s8 w8 S8]. apply T; [apply filters_going, S8 | intros edited s9 w9 S9].
  apply T; [apply script_going, S9 | intros [h3 edited2] s10 w10 S10].
  step. eapply wp_mono; [apply queue_stage_kept; [exact S10 | exact B] |]. intros r s11 w11 I. step. exact I.
Qed.

Lemma write_times_kept n b s w : inv s -> wp (write_times n b) kept (s, w).
Proof.
  revert s w. induction n as [| n IH]; intros s w I; cbn [write_times]; [steps |]. do 2 step; [same |]. apply IH. exact I.
Qed.

Lemma end_kept s w : has_sender s -> below_limit (Z.of_nat (length (message (data s)))) -> wp end_of_message kept (s, w).
Proof.
  intros S B. unfold end_of_message. apply kept_bind; [apply queue_message_kept; assumption |]. intros m s1 w1 I1. do 2 step.
  destruct m; [steps |]. apply kept_bind; [apply write_times_kept, I1 |]. intros _ s2 w2 I2. step. exact (reset_inv _ I2).
Qed.

(** ** The state machine of a session *)

(** What a state relies on. *)
Definition state_ready (st : State) (s : Session) : Prop :=
  match st with
  | SData_ _ => mail_from (data s) <> None
  | SBdat r => mail_from (data s) <> None /\ Z.of_nat (length (message (data s))) + bdat_left r < max_message_size (params s)
  | SNone | SAccepted _ => False
  | _ => True
  end.
Definition ready (st : State) (s : Session) : Prop := inv s /\ state_ready st s.

Definition after_ready (a : After) (s : Session) (_ : W) : Prop :=
  match a with Stay | Leave => inv s | Become st => ready st s end.

Lemma within_limit s n : inv s -> 0 <= n < max_message_size (params s) -> below_limit n.
Proof. intros (_ & _ & _ & _ & _ & [H | (w & v & H)] & _) N; [lia |]. exists w, v. rewrite <- H. lia. Qed.
Lemma limit_fits s : inv s -> max_message_size (params s) <= usize_max.
Proof.
  assert (U : FROM_MB <= usize_max /\ 0 <= usize_max) by (vm_compute; split; discriminate).
  intros (_ & _ & _ & _ & _ & [-> | (w & v & ->)] & _); [lia |].
  unfold size_limit. destruct (s_max_message_size _ _) eqn:E; [| lia]. case_if; [lia |]. exact (size_fits _ _ _ E).
Qed.

Lemma stay_ready m s w : wp m kept (s, w) -> wp (stay m) after_ready (s, w).
Proof. intros H. unfold stay. step. eapply wp_mono; [exact H |]. intros ? ? ? I. step. exact I. Qed.

Lemma can_send_wp s w : wp can_send_data (fun r s' _ => s' = s /\ (r = None -> mail_from (data s) <> None)) (s, w).
Proof.
  unfold can_send_data. do 2 step. destruct (mail_from (data s)) eqn:F; [| step; split; [reflexivity | discriminate]].
  destruct (rcpt_to (data s)); [step; split; [reflexivity | discriminate] |]. do 2 step.
  case_if; step; (split; [reflexivity | congruence]).
Qed.

Lemma data_request_ready s w : inv s -> wp data_request after_ready (s, w).
Proof.
  intros I. unfold data_request. step. eapply wp_mono; [apply can_send_wp |]. intros r s1 w1 [-> F].
  destruct r as [r |]; [apply stay_ready; steps |]. steps. split; [exact I | exact (F eq_refl)].
Qed.
Lemma bdat_request_ready n last s w : inv s -> 0 <= n -> wp (bdat_request n last) after_ready (s, w).
Proof.
  intros I N. unfold bdat_request. step. eapply wp_mono; [apply can_send_wp |]. intros r s1 w1 [-> F]. do 3 step.
  split; [exact I |]. destruct r as [r |]; [exact Logic.I |]. case_if; [| exact Logic.I]. split; [exact (F eq_refl) |].
  pose proof (bdat_new n last N). pose proof (limit_fits s I). lia.
Qed.
Lemma auth_request_ready m r s w : inv s -> wp (auth_request m r) after_ready (s, w).
Proof.
  intros I. unfold auth_request. do 4 step. case_if; [apply stay_ready; steps |]. case_if; [apply stay_ready; steps |].
  destruct (from_mechanism _) as [t |]; [| apply stay_ready; steps]. step. eapply wp_mono; [apply sasl_kept, I |].
  intros [t' []] s1 w1 I1; step; [split; [exact I1 | exact Logic.I] | exact I1].
Qed.
Lemma starttls_ready s w : inv s -> wp starttls_request after_ready (s, w).
Proof. intros I. unfold starttls_request. do 2 step. repeat case_if; try (apply stay_ready; steps). steps. exact I. Qed.

Lemma request_ready r s w : inv s -> (forall n last, r = QBdat n last -> 0 <= n) -> wp (handle_request r) after_ready (s, w).
Proof.
  intros I N. destruct r; cbn [handle_request]; unfold smtp_only, lmtp_only;
    try match goal with |- context [protocol] => destruct protocol end;
    try (apply stay_ready; first [apply ehlo_kept, I | apply rcpt_kept, I | apply mail_kept, I | apply vrfy_kept, I | apply expn_kept, I | steps; fail]).
  - apply data_request_ready, I.
  - apply bdat_request_ready; [exact I | exact (N _ _ eq_refl)].
  - apply auth_request_ready, I.
  - apply starttls_ready, I.
  - apply stay_ready. do 2 step. pose proof (reset_inv s I). steps.
  - steps.
Qed.

Definition error_ready (e : ParseError) (a : option After) (s : Session) (w : W) : Prop :=
  match a with None => inv s | Some a => e <> NeedsMoreData /\ after_ready a s w end.
Lemma error_handled e s w : inv s -> wp (handle_error e) (error_ready e) (s, w).
Proof.
  intros I. destruct e; cbn [handle_error].
  all: try (steps; first [exact I | split; [discriminate | exact I]]).
  1, 2: do 3 step; eapply wp_mono with (Q := kept); [case_if; repeat step; exact I |];
    intros [[] |] s1 w1 I1; steps; (split; [discriminate | exact I1]).
  - do 2 step. case_if; [| steps; split; [discriminate | exact I]]. step. eapply wp_mono; [apply ehlo_kept, I |].
    intros ? s1 w1 I1. step. split; [discriminate | exact I1].
  - step. split; [discriminate | split; [exact I | exact Logic.I]].
Qed.

(** ** Progress *)

(** What is left to do of a read: more for a state that may be left without
    taking a byte. *)
Definition weight (st : State) : nat := match st with SRequest _ => 0 | SData_ _ => 2 | _ => 1 end.
Definition left (st : State) (iter : list Z) : nat := 3 * length iter + weight st.

Definition next_ready (st : State) (iter : list Z) (x : Next) (s : Session) (_ : W) : Prop :=
  match x with
  | GoOn st' iter' => ready st' s /\ (left st' iter' < left st iter)%nat
  | Wait st' => ready st' s
  | ToTls => inv s
  end.

Lemma go_on st iter iter' s w : (length iter' <= length iter)%nat -> (1 <= weight st)%nat -> inv s ->
  next_ready st iter (GoOn default_state iter') s w.
Proof. intros. split; [split; [assumption | exact Logic.I] | unfold left; cbn [weight default_state]; lia]. Qed.

Lemma with_message_inv m s : inv s -> inv (with_data (set_message m (data s)) s).
Proof. intros I. exact I. Qed.

Lemma weight_most st : (weight st <= 2)%nat.
Proof. destruct st; cbn; lia. Qed.

Lemma request_step len r iter s w : inv s -> wp (ingest_step len (SRequest r) iter) (next_ready (SRequest r) iter) (s, w).
Proof.
  intros I. cbn [ingest_step]. pose proof (request_takes r iter) as T. pose proof (chunk_size_fits r iter) as C.
  destruct (request_ingest r iter) as [[r' x] rest]. destruct T as [_ T]. cbn [fst snd] in C. step.
  eapply wp_mono with (Q := fun a s w => match a with None => inv s | Some a => x <> Err NeedsMoreData /\ after_ready a s w end).
  { destruct x as [request | e].
    - step. eapply wp_mono; [apply request_ready; [exact I |] |].
      + intros n last ->. exact (C n last eq_refl).
      + intros a s1 w1 A. step. split; [discriminate | exact A].
    - eapply wp_mono; [apply error_handled, I |]. intros [a |] s1 w1 E; [| exact E]. destruct E as [E A]. split; [congruence | exact A]. }
  intros [a |] s1 w1 A; step; [| split; [apply A | exact Logic.I]]. destruct A as [X A]. specialize (T X).
  destruct a as [| st |]; [| | exact A].
  - split; [split; [exact A | exact Logic.I] | unfold left; cbn; lia].
  - split; [exact A | pose proof (weight_most st); unfold left; cbn [weight]; lia].
Qed.

Lemma step_ready len st iter s w : ready st s -> Z.of_nat (length iter) <= len ->
  wp (ingest_step len st iter) (next_ready st iter) (s, w).
Proof.
  intros [I R] Hl. destruct st as [r | r | r | buf token | r response | r | |]; try (destruct R; fail).
  - apply request_step, I.
  - cbn [ingest_step]. do 2 step. pose proof (bdat_takes r iter (message (data s))) as T.
    destruct (bdat_ingest r iter _) as [[[r' m] rest] done_]. destruct T as (T1 & _ & T3 & T4). destruct R as [F R].
    do 2 step. case_if; [| step; split; [exact I | split; [exact F | cbn; lia]]].
    apply wp_seq. eapply wp_mono with (Q := kept); [| intros ? s1 w1 I1; step; apply go_on; [exact T1 | cbn; lia | exact I1]].
    case_if; [apply end_kept; [split; [exact I | exact F] |] | steps].
    apply (within_limit s); [exact I | cbn; lia].
  - cbn [ingest_step]. do 2 step. case_if.
    + pose proof (data_takes r iter (message (data s))) as T. destruct (data_ingest r iter _) as [[[r' m] rest] done_]. destruct T as [T1 T2].
      do 2 step. case_if; [| step; split; [exact I | exact R]].
      apply wp_seq. eapply wp_mono; [apply end_kept; [split; [exact I | exact R] |] |].
      * apply (within_limit s); [exact I | cbn; lia].
      * intros ? s1 w1 I1. step. apply go_on; [exact T1 | cbn; lia | exact I1].
    + step. split; [split; [exact I | exact Logic.I] | unfold left; cbn; lia].
  - cbn [ingest_step]. pose proof (line_takes buf iter) as T. destruct (line_ingest buf iter) as [[buf' rest] done_]. destruct T as [T1 T2].
    case_if; [| step; split; [exact I | exact Logic.I]]. specialize (T2 eq_refl). case_if.
    + step. eapply wp_mono; [apply sasl_kept, I |]. intros [t []] s1 w1 I1; step;
        (split; [split; [exact I1 | exact Logic.I] | unfold left; cbn; lia]).
    + step. eapply wp_mono; [apply auth_error_kept, I |]. intros ? s1 w1 I1. step. apply go_on; [exact T1 | cbn; lia | exact I1].
  - cbn [ingest_step]. pose proof (dummy_takes r iter) as T. destruct (dummy_ingest r iter) as [[r' rest] done_].
    case_if; [| step; split; [exact I | exact Logic.I]]. pose proof (with_message_inv [] s I). steps. apply go_on; [exact T | cbn; lia | assumption].
  - cbn [ingest_step]. pose proof (dummy_line_takes r iter) as T. destruct (dummy_line_ingest r iter) as [[r' rest] done_].
    case_if; [| step; split; [exact I | exact Logic.I]]. steps. apply go_on; [exact T | cbn; lia | assumption].
Qed.

Lemma loop_ready fuel len st iter s w : (left st iter < fuel)%nat -> Z.of_nat (length iter) <= len -> ready st s ->
  wp (ingest_loop fuel len st iter) (fun r s _ => match r with Some st => ready st s | None => inv s end) (s, w).
Proof.
  revert st iter s w. induction fuel as [| fuel IH]; intros st iter s w F Hl R; [lia |]. cbn [ingest_loop].
  step. eapply wp_mono; [apply step_ready; eassumption |]. intros [st' iter' | st' |] s1 w1 N; [| step; exact N ..].
  destruct N as [R1 F1]. apply IH; [lia | | exact R1]. unfold left in F1. pose proof (weight_most st). lia.
Qed.

(** *** A read *)

Definition at_rest (s : Session) : Prop := ready (sstate s) s.

Lemma ingest_ready bytes s w : at_rest s -> wp (ingest bytes) (fun _ s _ => at_rest s) (s, w).
Proof.
  intros R. unfold ingest. do 4 step. step.
  eapply wp_mono; [apply (loop_ready _ _ (sstate s)); [| lia | exact R] |].
  - unfold left, ingest_fuel. pose proof (weight_most (sstate s)). lia.
  - intros [st |] s1 w1 R1; repeat step; [exact R1 |]. split; [exact R1 | exact Logic.I].
Qed.

(** ** A connection *)

Definition conn_ready (c : Conn) (s : Session) (_ : W) : Prop := match c with Closed => fin s | _ => at_rest s end.

Lemma conn_step_ready e s w : at_rest s -> wp (conn_step e) conn_ready (s, w).
Proof.
  intros R. pose proof (inv_fin s (proj1 R)) as F. unfold conn_step. do 2 step.
  assert (says : forall (Q : Conn -> Session -> W -> Prop) t w, (forall s, fin s -> Q Closed s w) ->
    wp (let* _ := write_quietly t in ret Closed) Q (s, w)).
  { intros Q t w1 K. step. apply wp_write_quietly; step; apply K; exact F. }
  destruct e as [[| b bytes] | | |]; try (step; exact F); try (apply says; intros; assumption).
  do 2 step. case_if; [| case_if].
  - do 2 step. assert (R' : at_rest (with_data (set_bytes_left (bytes_left (data s) - Z.of_nat (length (b :: bytes))) (data s)) s)) by exact R.
    pose proof (ingest_ready (b :: bytes) _ w R') as G. unfold wp in G |- *. destruct (ingest _ _) as [[s1 w1] [[] | | |]]; exact G.
  - apply says. intros. assumption.
  - step. apply says. intros s1 F1. repeat step. exact F1.
Qed.

Lemma handle_conn_ready events s w : at_rest s -> wp (handle_conn events) (fun r => conn_ready (snd r)) (s, w).
Proof.
  revert s w. induction events as [| e events IH]; intros s w R; cbn [handle_conn]; [step; exact R |].
  step. eapply wp_mono; [apply conn_step_ready, R |]. intros [] s1 w1 C; [apply IH, C | step; exact C ..].
Qed.

(** Before the first command. *)
Definition fresh (s : Session) : Prop :=
  inv s /\ mail_from (data s) = None /\ queued s = [] /\ auth_errors (data s) = 0 /\ sstate s = default_state.

Definition rests {A} (_ : A) (s : Session) (_ : W) : Prop := at_rest s.

Lemma params_fresh s w : fresh s -> wp eval_session_params rests (s, w).
Proof.
  intros ((_ & H2 & _ & H4 & H5 & H6 & _) & F & Q & E & S). unfold eval_session_params. repeat step.
  split; cbn; [| rewrite S; exact Logic.I]. unfold inv, Inv. cbn.
  rewrite F, Q, E in *. split_and!; auto; try lia; constructor.
Qed.

Lemma at_rest_quiet s s' : quiet s s' -> at_rest s -> at_rest s'.
Proof. intros [? ->] R. exact R. Qed.
Lemma at_rest_fin s : at_rest s -> fin s.
Proof. intros [I _]. exact (inv_fin s I). Qed.

Lemma quietly_rests b s w : at_rest s -> wp (let* _ := write_quietly b in ret false) rests (s, w).
Proof. intros R. step. apply wp_write_quietly; step; exact R. Qed.
Lemma rests_and m k s w : wp m rests (s, w) -> (forall s w, at_rest s -> wp k rests (s, w)) -> wp (and_if m k) rests (s, w).
Proof. intros H K. apply wp_and_if. eapply wp_mono; [exact H |]. intros [] ? ? R; [apply K |]; exact R. Qed.
Lemma refused_by_rests m s w : at_rest s -> wp m (fun _ s' _ => quiet s s') (s, w) -> wp (refused_by m) rests (s, w).
Proof.
  intros R H. unfold refused_by. step. eapply wp_mono; [exact H |].
  intros [a | a] s1 w1 Q; pose proof (at_rest_quiet _ _ Q R); [step; assumption | apply quietly_rests; assumption].
Qed.

Lemma init_conn_rests s w : fresh s -> wp init_conn rests (s, w).
Proof.
  intros Fr. unfold init_conn. step. eapply wp_mono; [apply params_fresh, Fr |]. intros ? s1 w1 I1.
  apply rests_and; [| intros s2 w2 I2; apply rests_and; [| intros s3 w3 I3; apply rests_and; [| intros s4 w4 I4]]].
  - step. eapply wp_mono; [apply script_quiet, at_rest_fin, I1 |]. intros r s2 w2 [Q _]. pose proof (at_rest_quiet _ _ Q I1).
    destruct r as [[] |]; try (step; assumption). apply quietly_rests. assumption.
  - apply refused_by_rests; [exact I2 | apply milters_quiet, at_rest_fin, I2].
  - apply refused_by_rests; [exact I3 | apply hooks_quiet, at_rest_fin, I3].
  - do 6 step. apply wp_try_write; exact I4.
Qed.

Lemma new_fresh now t : fresh (session_new now t).
Proof.
  split; [| auto]. red. unfold Inv. cbn. split_and!; auto; try lia; try constructor; discriminate.
Qed.

Lemma serve_fin is_tls events w0 : wp (handle events) (fun _ s _ => fin s) (session_new (now w0) is_tls, w0).
Proof.
  pose proof (new_fresh (now w0) is_tls) as Fr. unfold handle. step.
  eapply wp_mono; [apply allowed_quiet, inv_fin, Fr |]. intros ok s w ->. step.
  eapply wp_mono with (Q := rests).
  { case_if; [apply init_conn_rests, Fr | step]. split; [apply Fr | exact Logic.I]. }
  intros go s1 w1 R1. case_if; [| step; apply at_rest_fin, R1]. step.
  eapply wp_mono; [apply handle_conn_ready, R1 |]. intros [rest []] s2 w2 C; [step; apply at_rest_fin, C | | step; exact C].
  step. eapply wp_mono with (Q := rests).
  { case_if; [| step; exact C]. unfold into_tls. step. destruct (tls_accept w2) as [w3 []]; exact C. }
  intros go2 s3 w3 R3. case_if; [| step; apply at_rest_fin, R3]. step.
  eapply wp_mono; [apply handle_conn_ready, R3 |]. intros [? []] s4 w4 C4; step; first [exact C4 | apply at_rest_fin, C4].
Qed.
End Intake.
