(* ===== verification/SmtpGuarantees.v ===== *)
(** * What holds of every SMTP connection

    The theorems about [serve], from the invariant, and what modelling the
    session showed. *)

From S2P Require Import Prelude Decimals Utf8 Text Milter SmtpData SmtpQueue SmtpServer SmtpCommands SmtpMessage SmtpSession SmtpLogic SmtpSafety SmtpIntake SmtpDemo.

Section Guarantees.
Context {Sv : Server} {Ml : MailServer} {L : Laws}.

Lemma serve_ends is_tls events w :
  match serve is_tls events w with ((s, _), o) => o <> Panicked /\ o <> OutOfFuel /\ fin s end.
Proof.
  pose proof (serve_fin is_tls events w) as H. unfold wp, serve in *. destruct (handle events _) as [[s w1] [c | | |]];
    [split_and!; [discriminate | discriminate | exact H] .. | destruct H | destruct H].
Qed.

(** C2: A connection never panics and its loop never runs out of steps.
    Whatever the client sends, and whatever settings, scripts, milters, hooks,
    directories, stores and DNS answer: no [unwrap] of the sender, of the last
    recipient or of a milter's action fails, the state that [ingest] leaves is
    one it can go on from, and a read of [n] bytes is done after at most
    [3 * n + 3] transitions. *)
Theorem session_never_panics (is_tls : bool) (events : list Event) (w : W) :
  snd (serve is_tls events w) <> Panicked /\ snd (serve is_tls events w) <> OutOfFuel.
Proof. pose proof (serve_ends is_tls events w) as H. destruct (serve _ _ _) as [[s w1] o]. split; apply H. Qed.


(** C3: Where authentication is required, only an authenticated client
    submits messages: each one queued has an authenticated source. *)
Theorem only_authenticated_submit (is_tls : bool) (events : list Event) (w : W) (q : Queued) :
  auth_require (params (fst (fst (serve is_tls events w)))) = true ->
  In q (queued (fst (fst (serve is_tls events w)))) -> q_source q = Authenticated.
Proof.
  pose proof (serve_ends is_tls events w) as H. destruct (serve _ _ _) as [[s w1] o]. destruct H as (_ & _ & _ & H). cbn. intros A Q.
  rewrite List.Forall_forall in H. destruct (H q Q) as (_ & _ & G). exact (G A).
Qed.

(** C5: A message that was queued is shorter, as received, than a limit that
    the settings gave; and a client has failed to authenticate at most as
    often as the settings allow when its connection ends. *)
Theorem sizes_and_attempts_bounded (is_tls : bool) (events : list Event) (w : W) :
  let s := fst (fst (serve is_tls events w)) in
  (forall q, In q (queued s) -> exists w v, Z.of_nat (length (q_original q)) < size_limit (s_max_message_size (settings w) v)) /\
  0 <= auth_errors (data s) <= Z.max 1 (auth_errors_max (params s)).
Proof.
  pose proof (serve_ends is_tls events w) as H. destruct (serve _ _ _) as [[s w1] o]. destruct H as (_ & _ & E & H). cbn. split; [| exact E].
  intros q Q. rewrite List.Forall_forall in H. apply (H q Q).
Qed.
End Guarantees.

(** ** Examples *)

Module Demo.
#[local] Existing Instance demo_crates.
#[local] Instance sv : Server := demo_server Smtp.
#[local] Instance ml : MailServer := demo_mail Smtp.
#[local] Instance lw : Laws := laws Smtp.

Definition plain : @W sv := Plain.
Definition submission : @W sv := Submission.
Definition to_a_list : list Event := map ERead [s#"EMRXrD"; s#"hello."; s#"Q"].
Definition submitted : list Event := map ERead [s#"EMA"; s#"no" ++ [10]; s#"A"; s#"me" ++ [10]; s#"MrD"; s#"hello."].

Lemma session_never_panics_witness :
  snd (serve false to_a_list plain) = Ret Closed /\ snd (serve false to_a_list plain) <> Panicked.
Proof. split; [vm_compute; reflexivity | apply (session_never_panics false to_a_list plain)]. Defined.

Definition no_entry : Queued := MkEntry 0 (new_message 0 []) Dsn [] [] [].
Definition first_of (events : list Event) (c : @W sv) : Queued := hd no_entry (queued (fst (fst (serve false events c)))).
Definition first_recipient (q : Queued) : Recipient := hd (recipient_new 0 []) (recipients (q_message q)).


Lemma only_authenticated_submit_witness : q_source (first_of submitted submission) = Authenticated /\
  length (queued (fst (fst (serve false submitted submission)))) = 1%nat.
Proof.
  split; [| vm_compute; reflexivity].
  apply (only_authenticated_submit false submitted submission); vm_compute; [reflexivity | left; reflexivity].
Defined.

Lemma sizes_and_attempts_bounded_witness : auth_errors (data (fst (fst (serve false submitted submission)))) = 1 /\
  (exists w v, Z.of_nat (length (q_original (first_of submitted submission))) < size_limit (s_max_message_size (settings w) v)).
Proof.
  split; [vm_compute; reflexivity |].
  apply (sizes_and_attempts_bounded false submitted submission). vm_compute. left. reflexivity.
Defined.
End Demo.

(** ** What modelling showed *)

Module Findings.
Definition last_reply (l : list (list Z)) : list Z := last l [].
Definition messages (p : ServerProtocol) (reads : list (list Z)) : list (list Z) := map q_original (taken p Plain reads).

(** A refused greeting takes the sender away and keeps the recipients and
    the chunks of the transaction. *)
Lemma refused_greeting_keeps {Cr : Crates} prev d :
  mail_from (ehlo_refused prev d) = None /\ rcpt_to (ehlo_refused prev d) = rcpt_to d /\ message (ehlo_refused prev d) = message d.
Proof. repeat split. Qed.

(** Without a setting, REQUIRETLS is advertised and then refused. *)
Lemma requiretls_advertised_refused :
  talk Smtp Plain [s#"Em"] =
    [line s#"220 Stalwart ESMTP at your service."; s#"250 localhost REQUIRETLS"; line s#"501 5.5.4 REQUIRETLS has been disabled."].
Proof. vm_compute. reflexivity. Qed.

(** A chunk that is too large takes the chunks before it away, and the last
    one is then accepted as the whole message. *)
Lemma refused_chunk_truncates :
  messages Smtp [s#"EMR"; s#"5"; s#"first"; s#"8"; s#"too long"; s#"9"; s#"end"] = [s#"end"].
Proof. vm_compute. reflexivity. Qed.

(** A message of just the size that MAIL allowed is refused; the limit is 8. *)
Lemma maximal_size_refused :
  map (fun n => nth n (talk Smtp Plain [s#"EsR"; s#"8"; s#"12345678"]) []) [2%nat; 4%nat] =
  [line s#"250 2.1.0 OK"; line s#"552 5.3.4 Message too big for system."].
Proof. vm_compute. reflexivity. Qed.

(** What follows a message in the same read counts for its size. *)
Lemma pipelined_bytes_counted :
  messages Smtp [s#"EMRD"; s#"hi."; s#"ZZZZZZ"] = [s#"hi"] /\ messages Smtp [s#"EMRD"; s#"hi.ZZZZZZ"] = [].
Proof. split; vm_compute; reflexivity. Qed.

(** Over LMTP a message for two recipients gets two replies, and one reply
    when it is too large. *)
Lemma lmtp_too_large_once :
  length (talk Lmtp Plain [s#"LMRND"; s#"hi."]) = 8%nat /\ length (talk Lmtp Plain [s#"LMRND"; s#"123456789."]) = 7%nat.
Proof. split; vm_compute; reflexivity. Qed.

(** A transaction that was begun in plain text goes on after STARTTLS. *)
Lemma transaction_survives_starttls : messages Smtp [s#"EMR"; s#"T"; s#"D"; s#"hi."] = [s#"hi"].
Proof. vm_compute. reflexivity. Qed.

(** Of the priorities from -6 to 6 the last is refused. *)
Lemma priority_six_refused : last_reply (talk Smtp Plain [s#"Ep"]) = line s#"501 5.5.4 Invalid priority value.".
Proof. vm_compute. reflexivity. Qed.

(** A message that has the address of reports among its recipients, or among
    what the client says the original ones were, reaches none of them; the
    client is told that it was queued. *)
Lemma report_address_discards :
  messages Smtp [s#"EMRPD"; s#"hi."] = [] /\ messages Smtp [s#"EMOD"; s#"hi."] = [] /\
  last_reply (talk Smtp Plain [s#"EMRPD"; s#"hi."]) = line s#"250 2.0.0 Message queued for delivery.".
Proof. split_and!; vm_compute; reflexivity. Qed.

(** A milter that asks for the connection to be closed gives an answer
    without text, and only the end of a message looks at that. *)
Lemma connection_failure_is_silent : rejected_by ConnectionFailure = Some (MkFilter [] true).
Proof. reflexivity. Qed.
End Findings.
