(* ===== verification/QueueSpool.v ===== *)
(** * The spool and the delivery of messages ([crates/smtp/src/queue/spool.rs, quota.rs, outbound/delivery.rs])

    What the store holds of the queue — messages, the events that say when a
    queue has to look at one, the counters of quotas — with the batches that
    change it, and a worker's task: the recipients that are due are grouped
    and tried, and the message is written back or removed. *)

From stdpp Require Import gmap.
From S2P Require Import Prelude Decimals Utf8 Text Milter SmtpData SmtpQueue.

(** ** The store *)

(** The time, the message and the queue; in the order of the keys. *)
(* [crates/smtp/src/queue/mod.rs:37-42] QueuedMessage *)
Definition QueuedMessage : Type := Z * Z * list Z.

Record Spool := MkSpool {
  messages : gmap Z Message; events : gset QueuedMessage; counts : gmap (list Z) Z; sizes : gmap (list Z) Z }.
Definition empty_spool : Spool := MkSpool ∅ ∅ ∅ ∅.

(** The operations of a batch; a merge function may refuse. *)
Inductive Op :=
| ClearEvent (e : QueuedMessage) | SetEvent (e : QueuedMessage)
| AddCount (key : list Z) (n : Z) | AddSize (key : list Z) (n : Z)
| SetMessage (id : Z) (m : Message) | ClearMessage (id : Z)
| MergeMessage (id : Z) (f : Message -> option Message).

Definition add_counter (key : list Z) (n : Z) (c : gmap (list Z) Z) : gmap (list Z) Z := <[key := default 0 (c !! key) + n]> c.

Definition apply_op (s : Spool) (o : Op) : option Spool :=
  match o with
  | ClearEvent e => Some (MkSpool (messages s) (events s ∖ {[e]}) (counts s) (sizes s))
  | SetEvent e => Some (MkSpool (messages s) ({[e]} ∪ events s) (counts s) (sizes s))
  | AddCount key n => Some (MkSpool (messages s) (events s) (add_counter key n (counts s)) (sizes s))
  | AddSize key n => Some (MkSpool (messages s) (events s) (counts s) (add_counter key n (sizes s)))
  | SetMessage id m => Some (MkSpool (<[id := m]> (messages s)) (events s) (counts s) (sizes s))
  | ClearMessage id => Some (MkSpool (delete id (messages s)) (events s) (counts s) (sizes s))
  | MergeMessage id f =>
      match messages s !! id with
      | Some m =>
          match f m with
          | Some m => Some (MkSpool (<[id := m]> (messages s)) (events s) (counts s) (sizes s))
          | None => None
          end
      | None => None
      end
  end.

(** All of a batch, or nothing. *)
Fixpoint write_batch (l : list Op) (s : Spool) : option Spool :=
  match l with
  | [] => Some s
  | o :: l => match apply_op s o with Some s => write_batch l s | None => None end
  end.

(** ** Quotas *)

(** [matches] and [key] of an expression over the message and a recipient. *)
(* [crates/common/src/config/smtp/queue.rs:172-178] QueueQuota *)
Record QueueQuota := MkQuota {
  matches : Message -> option Recipient -> bool; new_key : Message -> option Recipient -> list Z;
  max_size : option Z; max_count : option Z }.
(* [crates/common/src/config/smtp/queue.rs:165-169] QueueQuotas *)
Record QueueQuotas := MkQuotas { q_sender : list QueueQuota; q_rcpt : list QueueQuota; q_rcpt_domain : list QueueQuota }.

(** [get_counter(..).unwrap_or(0) as u64]. *)
Definition get_counter (key : list Z) (c : gmap (list Z) Z) : Z := wrap 64 (default 0 (c !! key)).

Section Quotas.
Context {Cr : Crates}.

(** [None]: the quota is exceeded. *)
(* [crates/smtp/src/queue/quota.rs:122-179] check_quota *)
Definition check_quota (s : Spool) (q : QueueQuota) (m : Message) (r : option Recipient) (size id : Z) (refs : list Metadata) :
    option (list Metadata) :=
  if matches q m r then
    let key := new_key q m r in
    let refs :=
      match max_size q with
      | Some max => if max <? add64 (get_counter key (sizes s)) size then None else Some (refs ++ [QueueSize key id])
      | None => Some refs
      end in
    match refs, max_count q with
    | Some refs, Some max => if max <? add64 (get_counter key (counts s)) 1 then None else Some (refs ++ [QueueCount key id])
    | refs, _ => refs
    end
  else Some refs.

Definition each_quota {A} (f : A -> list Metadata -> option (list Metadata)) (l : list A) (refs : list Metadata) : option (list Metadata) :=
  fold_left (fun refs x => match refs with Some refs => f x refs | None => None end) l (Some refs).

Definition numbered {A} (l : list A) : list (Z * A) := combine (map Z.of_nat (seq 0 (length l))) l.

(** The domains that were seen, and the references so far. *)
(* [crates/smtp/src/queue/quota.rs:66-92] has_quota, by domain *)
Definition domain_quotas (s : Spool) (l : list QueueQuota) (m : Message) (refs : list Metadata) : option (list Metadata) :=
  snd (fold_left (fun st q =>
    fold_left (fun '(seen, refs) '(i, r) =>
      let d := domain_part (raddress r) in
      if existsb (bytes_eqb d) seen then (seen, refs)
      else (d :: seen, match refs with
                       | Some refs => check_quota s q m (Some r) (msize m) (wrap 64 (Z.shiftl (i + 1) 32)) refs
                       | None => None
                       end)) (numbered (recipients m)) st) l ([], Some refs)).

(* [crates/smtp/src/queue/quota.rs:37-120] has_quota *)
Definition has_quota (s : Spool) (c : QueueQuotas) (m : Message) : option (list Metadata) :=
  match each_quota (fun q => check_quota s q m None (msize m) 0) (q_sender c) [] with
  | None => None
  | Some refs =>
      match domain_quotas s (q_rcpt_domain c) m refs with
      | None => None
      | Some refs =>
          each_quota (fun q => each_quota (fun '(i, r) => check_quota s q m (Some r) (msize m) (i + 1)) (numbered (recipients m)))
            (q_rcpt c) refs
      end
  end.

Definition is_done (r : Recipient) : bool := negb (is_pending r).

(** The ids of the quotas of recipients that are done; a domain once. *)
(* [crates/smtp/src/queue/quota.rs:192-205] release_quota, the ids *)
Definition quota_ids (l : list Recipient) : list Z :=
  snd (fold_left (fun '(seen, ids) '(i, r) =>
    if is_done r then
      let d := domain_part (raddress r) in
      if existsb (bytes_eqb d) seen then (seen, ids ++ [i + 1])
      else (d :: seen, ids ++ [wrap 64 (Z.shiftl (i + 1) 32); i + 1])
    else (seen, ids)) (numbered l) ([], [])).

(** The operations that take a message's quotas, or give them back. *)
Definition quota_op (sign size : Z) (x : Metadata) : list Op :=
  match x with
  | QueueCount key _ => [AddCount key sign]
  | QueueSize key _ => [AddSize key (sign * size)]
  | RcptHeaders _ _ => []
  end.
Definition quota_ops (sign : Z) (m : Message) : list Op := concat (map (quota_op sign (as_i64 (msize m))) (metadata m)).

Definition released (ids : list Z) (x : Metadata) : bool :=
  match x with QueueCount _ id | QueueSize _ id => existsb (Z.eqb id) ids | RcptHeaders _ _ => false end.

(* [crates/smtp/src/queue/quota.rs:183-231] release_quota *)
Definition release_quota (m : Message) : Message * list Op :=
  let ids := quota_ids (recipients m) in
  (set_metadata (List.filter (fun x => negb (released ids x)) (metadata m)) m,
   concat (map (quota_op (-1) (as_i64 (msize m))) (List.filter (released ids) (metadata m)))).

(** ** Batches of the spool *)

Definition set_mflags (f : Z) (m : Message) : Message :=
  MkQueued (created m) (blob_hash m) (return_path m) (recipients m) f (env_id m) (mpriority m) (msize m) (metadata m).
Definition set_blob_hash (h : list Z) (m : Message) : Message :=
  MkQueued (created m) h (return_path m) (recipients m) (mflags m) (env_id m) (mpriority m) (msize m) (metadata m).

Definition event_ops (id : Z) (m : Message) : list Op := map (fun '(q, due) => SetEvent (due, id, q)) (next_events m).

(** The message as it is stored; [bytes]: with its headers. *)
(* [crates/smtp/src/queue/spool.rs:336-399] queue, the message *)
Definition prepare (hash : list Z) (bytes : list Z) (source : MessageSource) (refs : list Metadata) (m : Message) : Message :=
  let m := set_blob_hash hash (set_mflags (Z.lor (mflags m) (source_flag source)) m) in
  set_metadata refs (if msize m =? 0 then set_msize (Z.of_nat (length bytes)) m else m).

(* [crates/smtp/src/queue/spool.rs:465-586] queue, the batch *)
Definition queue_batch (id : Z) (m : Message) : list Op := quota_ops 1 m ++ event_ops id m ++ [SetMessage id m].

(** The recipients of one queue are taken over; [None]: another message. *)
(* [crates/smtp/src/queue/spool.rs:705-751] save_changes, the merge function *)
Definition merge_recipients (queue_name : list Z) (new cur : Message) : option Message :=
  if bytes_eqb (blob_hash cur) (blob_hash new) && (length (recipients cur) =? length (recipients new))%nat then
    Some (set_recipients (map (fun '(c, n) => if bytes_eqb (queue n) queue_name then n else c)
                            (combine (recipients cur) (recipients new))) cur)
  else None.

(* [crates/smtp/src/queue/spool.rs:660-768] save_changes *)
Definition save_changes (prev : option Z) (id : Z) (queue_name : list Z) (is_multi_queue : bool) (m : Message) : list Op :=
  let '(m, release) := release_quota m in
  release ++ match prev with Some due => [ClearEvent (due, id, queue_name)] | None => [] end ++ event_ops id m ++
  [if is_multi_queue : bool then MergeMessage id (merge_recipients queue_name m) else SetMessage id m].

(* [crates/smtp/src/queue/spool.rs:770-826] remove *)
Definition remove (prev : option Z) (id : Z) (queue_name : list Z) (m : Message) : list Op :=
  match prev with
  | Some due => [ClearEvent (due, id, queue_name)]
  | None => map (fun '(q, due) => ClearEvent (due, id, q)) (next_events m)
  end ++ quota_ops (-1) m ++ [ClearMessage id].

(** The recipients that an administrator changed, by their indices. *)
(* [crates/smtp/src/queue/spool.rs:880-925] save_registry_changes, the merge function *)
Definition merge_modified (modified : list nat) (new cur : Message) : option Message :=
  if bytes_eqb (blob_hash cur) (blob_hash new) && (length (recipients cur) =? length (recipients new))%nat then
    let cur := MkQueued (created cur) (blob_hash cur) (return_path cur) (recipients cur) (mflags cur) (env_id new) (mpriority new)
                 (msize cur) (metadata cur) in
    Some (set_recipients (fold_left (fun l i => match recipients new !! i with Some r => <[i := r]> l | None => l end) modified
                            (recipients cur)) cur)
  else None.
(* [crates/smtp/src/queue/spool.rs:828-938] save_registry_changes *)
Definition save_registry_changes (id : Z) (prev_events : list (list Z * Z)) (modified : list nat) (m : Message) : list Op :=
  let '(m, release) := release_quota m in
  release ++ map (fun '(q, due) => ClearEvent (due, id, q)) prev_events ++ event_ops id m ++ [MergeMessage id (merge_modified modified m)].
(* [crates/smtp/src/queue/spool.rs:940-989] remove_registry *)
Definition remove_registry (id : Z) (prev_events : list (list Z * Z)) (m : Message) : list Op :=
  map (fun '(q, due) => ClearEvent (due, id, q)) prev_events ++ quota_ops (-1) m ++ [ClearMessage id].

(* [crates/smtp/src/queue/spool.rs:294-305] MessageWrapper::new *)
Definition is_multi_queue (queue_name : list Z) (m : Message) : bool :=
  existsb (fun r => is_pending r && negb (bytes_eqb (queue r) queue_name)) (recipients m).
End Quotas.

(** ** A worker's task *)

(* [crates/smtp/src/outbound/mod.rs:29-42] DeliveryResult *)
Inductive DeliveryResult :=
| RDomain (status : Status) (rcpt_idxs : list nat) | RAccount (status : Status) (rcpt_idx : nat)
| RRateLimited (rcpt_idxs : list nat) (retry_at : Z).

(** The domain, the route and the headers of a group of recipients. *)
Definition RouteKey : Type := list Z * nat * option (list Z).
Definition Routes : Type := list (RouteKey * list nat).

(** The recipients that a result is about. *)
Definition result_idxs (r : DeliveryResult) : list nat :=
  match r with RDomain _ l => l | RAccount _ j => [j] | RRateLimited l _ => l end.

(** What a delivery meets: the strategies, the limiters' answers (the time
    of the next try), routes, the order in which the map of groups is
    iterated, and what comes of trying the groups. *)
Record Outbound := MkOutbound {
  strategy_of : Message -> Recipient -> QueueStrategy; sender_limits : Message -> list (option Z);
  route_of : Message -> Recipient -> nat; hash_order : Routes -> Routes;
  outcomes : Message -> Routes -> list DeliveryResult;
  rfc822_date_of : Z -> list Z;
  clock : nat -> Z                                          (* its readings, one after the other *)
}.

Section Deliver.
Context {Cr : Crates} (O : Outbound).

Fixpoint first_some {A} (l : list (option A)) : option A :=
  match l with [] => None | Some x :: _ => Some x | None :: l => first_some l end.

(** Due in the queue now. *)
Definition due_now (now : Z) (queue_name : list Z) (r : Recipient) : bool :=
  is_pending r && (due (retry r) <=? now) && bytes_eqb (queue r) queue_name.

(* [crates/smtp/src/outbound/delivery.rs:195-209] deliver_task, the sender is limited *)
Definition limit_sender (now retry_at : Z) (queue_name : list Z) (m : Message) : Message :=
  set_recipients (map (fun r =>
    if due_now now queue_name r then rate_limited (set_retry (MkSchedule retry_at (inner (retry r))) r) else r) (recipients m)) m.

(* [crates/smtp/src/outbound/delivery.rs:222-232] deliver_task, the headers for all *)
Fixpoint default_headers (l : list Metadata) : option (list Z) :=
  match l with
  | [] => None
  | RcptHeaders value id :: l => if id =? u64_max then Some value else default_headers l
  | _ :: l => default_headers l
  end.
(* [crates/smtp/src/outbound/delivery.rs:249-260] deliver_task, the headers of a recipient *)
Fixpoint headers_for (idx : nat) (fallback : option (list Z)) (l : list Metadata) : option (list Z) :=
  match l with
  | [] => fallback
  | RcptHeaders value id :: l => if id =? Z.of_nat idx then Some value else headers_for idx fallback l
  | _ :: l => headers_for idx fallback l
  end.

Definition key_eqb (a b : RouteKey) : bool :=
  let '(d, r, h) := a in let '(d', r', h') := b in
  bytes_eqb d d' && (r =? r')%nat &&
  match h, h' with Some x, Some y => bytes_eqb x y | None, None => true | _, _ => false end.
Fixpoint add_route (k : RouteKey) (idx : nat) (l : Routes) : Routes :=
  match l with
  | [] => [(k, [idx])]
  | (k', i) :: l => if key_eqb k k' then (k', i ++ [idx]) :: l else (k', i) :: add_route k idx l
  end.

(* [crates/smtp/src/outbound/delivery.rs:217-267] deliver_task, the groups *)
Definition routes (now : Z) (queue_name : list Z) (m : Message) : Routes :=
  fold_left (fun l '(idx, r) =>
    if due_now now queue_name r then
      add_route (domain_part (raddress r), route_of O m r, headers_for idx (default_headers (metadata m)) (metadata m)) idx l
    else l) (combine (seq 0 (length (recipients m))) (recipients m)) [].

Fixpoint each_rcpt (f : nat -> Message -> option Message) (l : list nat) (m : Message) : option Message :=
  match l with [] => Some m | i :: l => match f i m with Some m => each_rcpt f l m | None => None end end.
(* [crates/smtp/src/outbound/delivery.rs:1437-1456] deliver_task, a result *)
Definition apply_result (now : Z) (m : Message) (r : DeliveryResult) : option Message :=
  match r with
  | RDomain status idxs => each_rcpt (set_rcpt_status (strategy_of O) now status) idxs m
  | RAccount status idx => set_rcpt_status (strategy_of O) now status idx m
  | RRateLimited idxs retry_at => each_rcpt (fun i => set_rcpt_rate_limit i retry_at) idxs m
  end.
(* [crates/smtp/src/outbound/delivery.rs:1436-1457] deliver_task, the results *)
Fixpoint apply_results (now : Z) (l : list DeliveryResult) (m : Message) : option Message :=
  match l with [] => Some m | r :: l => match apply_result now m r with Some m => apply_results now l m | None => None end end.

Inductive Written := WSave | WRemove.
(* [crates/common/src/ipc.rs:123-127] QueueEventStatus *)
Inductive QueueEventStatus := Completed_ | Locked_ | Deferred_.
Definition status_of (w : Written) : QueueEventStatus := match w with WSave => Deferred_ | WRemove => Completed_ end.

Definition notices (o : option DsnTexts) : list DsnTexts := match o with Some t => [t] | None => [] end.

(** The message to write, whether it is saved or removed, and the
    notifications that were queued; [None]: a panic. *)
(* [crates/smtp/src/outbound/delivery.rs:152-300] deliver_task *)
Definition deliver_task (queue_name : list Z) (m : Message) : option (Message * Written * list DsnTexts) :=
  let '(m, pending) := has_pending_delivery (clock O 0) queue_name m in
  let '(m, dsn) := send_dsn (strategy_of O) (rfc822_date_of O) (clock O 1) m in
  let is_due := match next_delivery_event m (Some queue_name) with Some due => due <=? clock O 2 | None => false end in
  match pending with
  | No => Some (m, WRemove, notices dsn)
  | Yes true =>
      if negb is_due then Some (m, WSave, notices dsn)
      else
        match first_some (sender_limits O m) with
        | Some retry_at => Some (limit_sender (clock O 3) retry_at queue_name m, WSave, notices dsn)
        | None =>
            let results := outcomes O m (hash_order O (routes (clock O 4) queue_name m)) in
            match apply_results (clock O 5) results m with
            | None => None
            | Some m =>
                let '(m, dsn') := send_dsn (strategy_of O) (rfc822_date_of O) (clock O 6) m in
                Some (m, match next_event m None with Some _ => WSave | None => WRemove end, notices dsn ++ notices dsn')
            end
        end
  | Yes false => Some (m, WSave, notices dsn)
  end.
End Deliver.
