(* ===== verification/QueueWorkers.v ===== *)
(** * Workers that share the queue

    Workers take events of the spool, lock a message in a queue, read it, try
    its recipients and write it back; new messages arrive meanwhile.  Whatever
    the interleaving: no message with a pending recipient is without an event,
    no two workers try the same recipient at a time, and a recipient that is
    done stays done. *)

From stdpp Require Import gmap relations.
From S2P Require Import Prelude Decimals Utf8 Text Milter SmtpData SmtpQueue QueueSpool.

(** ** A task on its own copy *)

Section Task.
Context {Cr : Crates}.

(** What a task of queue [q] may do to a recipient. *)
Definition evolves (q : list Z) (r r' : Recipient) : Prop :=
  raddress r' = raddress r /\ (is_pending r = false -> is_pending r' = false /\ queue r' = queue r) /\
  (queue r <> q -> queue r' = queue r).
Definition message_evolves (q : list Z) (m m' : Message) : Prop :=
  blob_hash m' = blob_hash m /\ Forall2 (evolves q) (recipients m) (recipients m').

(** The results are about recipients that were tried. *)
Record Lawful (O : Outbound) : Prop := {
  order_lawful l g : In g (hash_order O l) -> In g l;
  outcomes_lawful m l r i : In r (outcomes O m l) -> In i (result_idxs r) -> exists g, In g l /\ In i (snd g)
}.

Lemma same_recipient_evolves q r : evolves q r r.
Proof. unfold evolves. auto. Qed.
Lemma recipient_evolves_trans q r1 r2 r3 : evolves q r1 r2 -> evolves q r2 r3 -> evolves q r1 r3.
Proof.
  intros (A1 & B1 & C1) (A2 & B2 & C2). split; [congruence | split].
  - intros P. destruct (B1 P) as [P2 Q2]. destruct (B2 P2) as [P3 Q3]. split; [exact P3 | congruence].
  - intros N. specialize (C1 N). rewrite <- C1 in N. specialize (C2 N). congruence.
Qed.
Lemma message_evolves_refl q m : message_evolves q m m.
Proof. split; [reflexivity |]. apply Forall2_same_length_lookup. split; [reflexivity |]. intros i x y Hx Hy. rewrite Hx in Hy. injection Hy as ->. apply same_recipient_evolves. Qed.
Lemma message_evolves_trans q m1 m2 m3 : message_evolves q m1 m2 -> message_evolves q m2 m3 -> message_evolves q m1 m3.
Proof.
  intros [H1 F1] [H2 F2]. split; [congruence |]. clear H1 H2. revert F2. generalize (recipients m3). induction F1 as [| x y l1 l2 Hxy F1 IH]; intros l3 F2; [exact F2 |].
  inversion F2; subst. constructor; [eapply recipient_evolves_trans; eassumption | auto].
Qed.

(** A change of every recipient that keeps the address, the queue and being
    done. *)
Lemma map_evolves q f m : (forall r, evolves q r (f r)) -> message_evolves q m (set_recipients (map f (recipients m)) m).
Proof.
  intros H. split; [reflexivity |]. cbn. apply Forall2_same_length_lookup. split; [symmetry; apply length_map |].
  intros i x y Hx Hy. change (map f (recipients m)) with (f <$> recipients m) in Hy. rewrite list_lookup_fmap, Hx in Hy. injection Hy as <-. apply H.
Qed.

Lemma same_evolves q r r' : raddress r' = raddress r -> (is_pending r = false -> is_pending r' = false) -> queue r' = queue r -> evolves q r r'.
Proof. unfold evolves. auto. Qed.

Lemma expire_evolves q created now r : evolves q r (expire_recipient created now r).
Proof.
  unfold expire_recipient. destruct r as [a rt nt e qn st f o]. destruct st; cbn; try apply same_recipient_evolves;
    case_if; try apply same_recipient_evolves; apply same_evolves; try reflexivity; cbn; congruence.
Qed.

(** Notifications change the flags and the time of the next one. *)
Definition reported (r r' : Recipient) : Prop := raddress r' = raddress r /\ rstatus r' = rstatus r /\ queue r' = queue r /\ retry r' = retry r.
Definition message_reported (m m' : Message) : Prop := blob_hash m' = blob_hash m /\ Forall2 reported (recipients m) (recipients m').

Lemma reported_refl r : reported r r.
Proof. repeat split. Qed.
Lemma map_reported f l : (forall r, reported r (f r)) -> Forall2 reported l (map f l).
Proof. intros H. induction l; constructor; auto. Qed.
Lemma reported_trans_list l1 l2 l3 : Forall2 reported l1 l2 -> Forall2 reported l2 l3 -> Forall2 reported l1 l3.
Proof.
  intros F. revert l3. induction F as [| x y l1 l2 Hxy F IH]; intros l3 F2; [exact F2 |]. inversion F2; subst.
  constructor; [unfold reported in *; intuition congruence | auto].
Qed.

Lemma notification_reported strategy now m r : reported r (next_notification strategy now m r).
Proof. unfold next_notification. case_if; [| apply reported_refl]. destruct (_ !! _); repeat split. Qed.
Lemma bounce_reported now created r : reported r (double_bounce now created r).
Proof. unfold double_bounce. destruct r as [a rt nt e qn st f o]. destruct st; cbn; repeat case_if; repeat split. Qed.
Lemma report_reported date now created r t : reported r (fst (report_recipient date now created r t)).
Proof. unfold report_recipient. destruct r as [a rt nt e qn st f o]. destruct st; cbn; repeat case_if; repeat split. Qed.
Lemma reports_reported date now created l t : Forall2 reported l (fst (report_recipients date now created l t)).
Proof.
  revert t. induction l as [| r l IH]; intros t; cbn; [constructor |]. pose proof (report_reported date now created r t) as H.
  destruct (report_recipient date now created r t) as [r' t']. specialize (IH t').
  destruct (report_recipients date now created l t') as [l' t'']. constructor; assumption.
Qed.

Lemma send_dsn_reported strategy date now m : message_reported m (fst (send_dsn strategy date now m)).
Proof.
  assert (U : forall m, message_reported m (update_next_dsn strategy now m)).
  { intros m'. split; [reflexivity | apply map_reported, notification_reported]. }
  unfold send_dsn. destruct (return_path m) as [| c p].
  - destruct (U (handle_double_bounce now m)) as [U1 U2]. split; [exact U1 |].
    eapply reported_trans_list; [apply map_reported, bounce_reported | exact U2].
  - unfold build_dsn. pose proof (reports_reported date now (created m) (recipients m) (MkTexts [] [] [] [])) as R.
    destruct (report_recipients _ _ _ _ _) as [l t]. destruct (U (set_recipients l m)) as [U1 U2]. cbn [fst snd].
    split; [exact U1 | eapply reported_trans_list; [exact R | exact U2]].
Qed.

Lemma pending_reported r r' : reported r r' -> is_pending r' = is_pending r.
Proof. intros (_ & H & _). unfold is_pending. rewrite H. reflexivity. Qed.
Lemma reported_evolves q m m' : message_reported m m' -> message_evolves q m m'.
Proof.
  intros [H F]. split; [exact H |]. eapply Forall2_impl; [| exact F]. intros r r' R. pose proof (pending_reported r r' R) as P.
  destruct R as (R1 & R2 & R3 & _). apply same_evolves; congruence.
Qed.
Lemma existsb_pending_reported l l' : Forall2 reported l l' -> existsb is_pending l' = existsb is_pending l.
Proof. induction 1 as [| x y l l' R F IH]; cbn; [reflexivity |]. rewrite IH, (pending_reported _ _ R). reflexivity. Qed.

(** Statuses are set by index; the others stay. *)
Definition owned (q : list Z) (m : Message) (i : nat) : Prop :=
  exists r, recipients m !! i = Some r /\ is_pending r = true /\ queue r = q.
Definition touches (P : nat -> Prop) (m m' : Message) : Prop :=
  blob_hash m' = blob_hash m /\ length (recipients m') = length (recipients m) /\
  forall i r, recipients m !! i = Some r ->
    exists r', recipients m' !! i = Some r' /\ raddress r' = raddress r /\ (r' = r \/ P i).

Lemma touches_refl P m : touches P m m.
Proof. split_and!; auto. intros i r H. exists r. auto. Qed.
Lemma touches_trans P m1 m2 m3 : touches P m1 m2 -> touches P m2 m3 -> touches P m1 m3.
Proof.
  intros (A1 & B1 & C1) (A2 & B2 & C2). split_and!; [congruence | congruence |]. intros i r H.
  destruct (C1 i r H) as (r1 & H1 & E1 & D1). destruct (C2 i r1 H1) as (r2 & H2 & E2 & D2).
  exists r2. split_and!; [exact H2 | congruence |]. destruct D1 as [-> |]; [exact D2 | right; assumption].
Qed.

Lemma insert_touches (P : nat -> Prop) m i r r' : recipients m !! i = Some r -> raddress r' = raddress r -> P i ->
  touches P m (set_recipients (<[i := r']> (recipients m)) m).
Proof.
  intros H A Hi. split_and!; [reflexivity | cbn; apply length_insert |]. intros j x Hx. cbn.
  destruct (decide (i = j)) as [<- | N].
  - exists r'. split_and!; [apply list_lookup_insert_eq; eapply lookup_lt_Some; exact H | congruence | auto].
  - exists x. rewrite list_lookup_insert_ne by exact N. auto.
Qed.

Lemma set_status_touches (P : nat -> Prop) strategy now st i m m' : P i -> set_rcpt_status strategy now st i m = Some m' -> touches P m m'.
Proof.
  intros Hi. unfold set_rcpt_status. destruct (recipients m !! i) as [r |] eqn:H; [| discriminate].
  assert (L : (i < length (recipients m))%nat) by (eapply lookup_lt_Some; exact H).
  case_if; [| intros X; injection X as <-; exact (insert_touches P m i r (set_status st r) H eq_refl Hi)].
  destruct (s_retry _ !! _); [| discriminate]. intros X. injection X as <-. cbn. rewrite list_insert_insert_eq.
  exact (insert_touches P m i r (set_schedule _ _ _ _ (set_status st r)) H eq_refl Hi).
Qed.
Lemma rate_limit_touches (P : nat -> Prop) at_ i m m' : P i -> set_rcpt_rate_limit i at_ m = Some m' -> touches P m m'.
Proof.
  intros Hi. unfold set_rcpt_rate_limit. destruct (recipients m !! i) as [r |] eqn:H; [| discriminate].
  intros [= <-]. exact (insert_touches P m i r (rate_limited (set_retry _ r)) H eq_refl Hi).
Qed.
Lemma each_rcpt_touches (P : nat -> Prop) f l m m' : (forall i m m', P i -> f i m = Some m' -> touches P m m') ->
  (forall i, In i l -> P i) -> each_rcpt f l m = Some m' -> touches P m m'.
Proof.
  intros F. revert m. induction l as [| i l IH]; cbn; intros m Hl; [intros [= <-]; apply touches_refl |].
  destruct (f i m) as [m1 |] eqn:E; [| discriminate]. intros H.
  eapply touches_trans; [eapply F; [apply Hl; left; reflexivity | exact E] | apply IH; [intros j Hj; exact (Hl j (or_intror Hj)) | exact H]].
Qed.

Lemma apply_results_touches (P : nat -> Prop) O now l m m' : (forall r i, In r l -> In i (result_idxs r) -> P i) ->
  apply_results O now l m = Some m' -> touches P m m'.
Proof.
  revert m. induction l as [| r l IH]; cbn; intros m Hl; [intros [= <-]; apply touches_refl |].
  destruct (apply_result O now m r) as [m1 |] eqn:E; [| discriminate]. intros H.
  eapply touches_trans; [| apply IH; [intros x i Hx Hi; exact (Hl x i (or_intror Hx) Hi) | exact H]].
  assert (Hr : forall i, In i (result_idxs r) -> P i) by (intros i; exact (Hl r i (or_introl eq_refl))).
  destruct r as [st idxs | st j | idxs at_]; cbn in E.
  - eapply each_rcpt_touches; [| exact Hr | exact E]. intros j x y Hj Ej. exact (set_status_touches P _ _ _ j _ _ Hj Ej).
  - eapply set_status_touches; [| exact E]. apply Hr. left. reflexivity.
  - eapply each_rcpt_touches; [| exact Hr | exact E]. intros j x y Hj Ej. exact (rate_limit_touches P _ j _ _ Hj Ej).
Qed.

(** The groups hold indices of recipients that are due. *)
Definition grouped (P : nat -> Prop) (l : Routes) : Prop := forall g i, In g l -> In i (snd g) -> P i.
Lemma add_route_grouped (P : nat -> Prop) k i l : P i -> grouped P l -> grouped P (add_route k i l).
Proof.
  intros Hi. induction l as [| [k' idxs] l IH]; cbn; intros G.
  - intros g j [<- | []] Hj. destruct Hj as [<- | []]. exact Hi.
  - case_if.
    + intros g j [<- | Hg] Hj; [| exact (G g j (or_intror Hg) Hj)]. cbn in Hj. apply in_app_or in Hj as [Hj | [<- | []]]; [| exact Hi].
      exact (G _ j (or_introl eq_refl) Hj).
    + intros g j [<- | Hg] Hj; [exact (G _ j (or_introl eq_refl) Hj) |].
      apply (IH ltac:(intros g' j' Hg'; exact (G g' j' (or_intror Hg'))) g j Hg Hj).
Qed.

Lemma combine_seq_in {A} (l : list A) i x : In (i, x) (combine (seq 0 (length l)) l) -> l !! i = Some x.
Proof.
  enough (H : forall n, In (i, x) (combine (seq n (length l)) l) -> (n <= i)%nat /\ l !! (i - n)%nat = Some x).
  { intros H0. destruct (H _ H0) as [_ H1]. rewrite Nat.sub_0_r in H1. exact H1. }
  induction l as [| y l IH]; cbn; intros n; [tauto |]. intros [[= -> ->] | H]; [split; [lia | rewrite Nat.sub_diag; reflexivity] |].
  destruct (IH _ H) as [H1 H2]. split; [lia |]. replace (i - n)%nat with (S (i - S n)) by lia. exact H2.
Qed.

Lemma routes_grouped O now q m : grouped (owned q m) (routes O now q m).
Proof.
  unfold routes.
  assert (H : forall l acc, (forall i r, In (i, r) l -> recipients m !! i = Some r) -> grouped (owned q m) acc ->
    grouped (owned q m) (fold_left (fun l '(idx, r) =>
      if due_now now q r then
        add_route (domain_part (raddress r), route_of O m r, headers_for idx (default_headers (metadata m)) (metadata m)) idx l
      else l) l acc)).
  { induction l as [| [i r] l IH]; intros acc Hl G; [exact G |]. cbn [fold_left]. apply IH; [intros; apply Hl; right; assumption |].
    case_if; [| exact G]. apply add_route_grouped; [| exact G]. exists r. unfold due_now in E. bool_to_prop.
    split_and!; [apply Hl; left; reflexivity | assumption |]. apply bytes_eqb_eq. assumption. }
  apply H; [intros i r; apply combine_seq_in |]. intros g i [].
Qed.

Lemma results_owned O now q m r i : Lawful O ->
  In r (outcomes O m (hash_order O (routes O now q m))) -> In i (result_idxs r) -> owned q m i.
Proof.
  intros L Hr Hi. destruct (outcomes_lawful O L _ _ _ _ Hr Hi) as (g & Hg & Hi'). apply (order_lawful O L) in Hg.
  exact (routes_grouped O now q m g i Hg Hi').
Qed.

Lemma touches_evolves q m m' : touches (owned q m) m m' -> message_evolves q m m'.
Proof.
  intros (A & B & C). split; [exact A |]. apply Forall2_same_length_lookup. split; [symmetry; exact B |]. intros i r r' Hr Hr'.
  destruct (C i r Hr) as (x & Hx & E & D). rewrite Hr' in Hx. injection Hx as <-. destruct D as [-> | (y & Hy & P & Q)]; [apply same_recipient_evolves |].
  rewrite Hr in Hy. injection Hy as <-. split; [exact E | split; [congruence | tauto]].
Qed.

(** *** The whole task *)

Lemma limit_evolves q now at_ m : message_evolves q m (limit_sender now at_ q m).
Proof.
  apply map_evolves. intros r. case_if; [| apply same_recipient_evolves]. unfold due_now in E. bool_to_prop.
  match goal with H : bytes_eqb _ _ = true |- _ => apply bytes_eqb_eq in H end.
  split; [reflexivity | split; [congruence | tauto]].
Qed.
Lemma limit_pending q now at_ m : existsb is_pending (recipients m) = true -> existsb is_pending (recipients (limit_sender now at_ q m)) = true.
Proof.
  cbn. generalize (recipients m). induction l as [| r l IH]; cbn; [auto |]. intros H. apply orb_true_iff in H as [H | H].
  - rewrite orb_true_iff. left. case_if; [reflexivity | exact H].
  - rewrite (IH H). apply orb_true_r.
Qed.

Lemma next_event_pending m : (exists x, next_event m None = Some x) -> existsb is_pending (recipients m) = true.
Proof.
  intros [x H]. apply not_false_iff_true. intros N. unfold next_event in H.
  replace (List.filter (in_queue None) (recipients m)) with (@nil Recipient) in H; [discriminate |].
  revert N. generalize (recipients m). induction l as [| r l IH]; cbn; [reflexivity |]. intros N. apply orb_false_iff in N as [N1 N2].
  unfold in_queue at 1. rewrite N1. cbn. exact (IH N2).
Qed.

(** The copy evolves, and a message that is saved has a pending recipient. *)
Lemma deliver_task_spec O q m m' w dsn : Lawful O -> deliver_task O q m = Some (m', w, dsn) ->
  message_evolves q m m' /\ (w = WSave -> existsb is_pending (recipients m') = true).
Proof.
  intros L. unfold deliver_task, has_pending_delivery.
  assert (E0 : message_evolves q m (set_recipients (map (expire_recipient (created m) (clock O 0)) (recipients m)) m))
    by (apply map_evolves; intros; apply expire_evolves).
  revert E0. set (l := map _ (recipients m)). set (m0 := set_recipients l m). intros E0.
  pose proof (send_dsn_reported (strategy_of O) (rfc822_date_of O) (clock O 1) m0) as R1. destruct (send_dsn _ _ (clock O 1) m0) as [m1 d1]. cbn [fst] in R1.
  assert (E1 : message_evolves q m m1) by exact (message_evolves_trans _ _ _ _ E0 (reported_evolves q _ _ R1)).
  destruct (existsb is_pending l) eqn:P0; [| intros X; injection X as <- <- <-; split; [exact E1 | discriminate]].
  assert (P1 : existsb is_pending (recipients m1) = true) by (rewrite (existsb_pending_reported _ _ (proj2 R1)); exact P0).
  destruct (existsb (fun r => is_pending r && bytes_eqb (queue r) q) l); [| intros X; injection X as <- <- <-; auto]. destruct (negb _); [intros X; injection X as <- <- <-; auto |].
  destruct (first_some _) as [at_ |].
  - intros X; injection X as <- <- <-. split; [exact (message_evolves_trans _ _ _ _ E1 (limit_evolves _ _ _ _)) | intros _; apply limit_pending, P1].
  - destruct (apply_results _ _ _ _) as [m2 |] eqn:A; [| discriminate].
    assert (E2 : message_evolves q m m2).
    { eapply message_evolves_trans; [exact E1 | apply touches_evolves]. eapply apply_results_touches; [| exact A].
      intros r i Hr Hi. exact (results_owned O _ q m1 r i L Hr Hi). }
    pose proof (send_dsn_reported (strategy_of O) (rfc822_date_of O) (clock O 6) m2) as R2. destruct (send_dsn _ _ _ m2) as [m3 d3]. cbn [fst] in R2.
    intros X; injection X as <- <- <-. split; [exact (message_evolves_trans _ _ _ _ E2 (reported_evolves q _ _ R2)) |].
    destruct (next_event m3 None) eqn:N; [| discriminate]. intros _. apply next_event_pending. eauto.
Qed.
End Task.

(** ** Batches *)

Section Batches.
Context {Cr : Crates}.

Lemma write_batch_app l1 l2 s : write_batch (l1 ++ l2) s = match write_batch l1 s with Some s => write_batch l2 s | None => None end.
Proof. revert s. induction l1 as [| o l1 IH]; cbn; intros s; [reflexivity |]. destruct (apply_op s o); [apply IH | reflexivity]. Qed.

Definition same_queue (s s' : Spool) : Prop := messages s' = messages s /\ events s' = events s.

(** Only counters. *)
Definition counter_op (o : Op) : Prop := match o with AddCount _ _ | AddSize _ _ => True | _ => False end.
Lemma counters_batch l s : Forall counter_op l -> exists s', write_batch l s = Some s' /\ same_queue s s'.
Proof.
  intros F. revert s. induction F as [| o l Ho F IH]; intros s; [exists s; repeat split |].
  destruct o; try destruct Ho; cbn; match goal with |- context [write_batch l ?x] => destruct (IH x) as (s' & E & H) end;
    exists s'; split; auto.
Qed.
Lemma quota_op_counter sign size x : Forall counter_op (quota_op sign size x).
Proof. destruct x; repeat constructor. Qed.
Lemma quota_list_counter sign size l : Forall counter_op (concat (map (quota_op sign size) l)).
Proof. induction l as [| x l IH]; cbn; [constructor |]. apply Forall_app. split; [apply quota_op_counter | exact IH]. Qed.

Definition due_events (id : Z) (m : Message) : gset QueuedMessage := list_to_set (map (fun '(q, due) => (due, id, q)) (next_events m)).
Lemma events_batch id m s : exists s', write_batch (event_ops id m) s = Some s' /\ messages s' = messages s /\
  events s' ≡ due_events id m ∪ events s.
Proof.
  unfold event_ops, due_events. generalize (next_events m). intros l. revert s. induction l as [| [q due] l IH]; intros s; cbn.
  - exists s. split_and!; [reflexivity | reflexivity | set_solver].
  - match goal with |- context [write_batch _ ?x] => destruct (IH x) as (s' & E & M & V) end.
    exists s'. split_and!; [exact E | exact M |]. rewrite V. cbn. set_solver.
Qed.

Lemma next_events_some m : existsb is_pending (recipients m) = true -> exists q due l, next_events m = (q, due) :: l.
Proof.
  intros P. unfold next_events.
  assert (K : forall l acc, acc <> [] -> fold_left (fun l r => put_event (queue r) (earlier_event (created m) r) l) l acc <> []).
  { induction l as [| r l IH]; intros acc N; [exact N |]. cbn. apply IH. destruct acc as [| [q y] acc]; [contradiction |]. cbn. case_if; discriminate. }
  assert (E : List.filter (in_queue None) (recipients m) <> []).
  { apply existsb_exists in P as (r & H & P). intros N. apply (in_nil (a := r)). rewrite <- N. apply filter_In. split; [exact H |].
    unfold in_queue. rewrite P. reflexivity. }
  destruct (List.filter (in_queue None) (recipients m)) as [| r l]; [contradiction |]. cbn [fold_left].
  match goal with |- context [fold_left ?f l ?x] => destruct (fold_left f l x) as [| [q due] t] eqn:F end; [| eauto].
  exfalso. refine (K l _ _ F); discriminate.
Qed.
Lemma due_events_some id m : existsb is_pending (recipients m) = true -> exists e, e ∈ due_events id m /\ e.1.2 = id.
Proof.
  intros P. destruct (next_events_some m P) as (q & due & l & E). exists (due, id, q). split; [| reflexivity].
  unfold due_events. rewrite E. cbn. set_solver.
Qed.

(** *** What the batches of a message do *)

Lemma save_effect due id q multi m s s' : write_batch (save_changes (Some due) id q multi m) s = Some s' ->
  events s' ≡ due_events id m ∪ events s ∖ {[ (due, id, q) ]} /\
  exists x, messages s' = <[id := x]> (messages s) /\
    if multi : bool then exists cur, messages s !! id = Some cur /\ merge_recipients q (fst (release_quota m)) cur = Some x
    else x = fst (release_quota m).
Proof.
  unfold save_changes. destruct (release_quota m) as [m1 ops] eqn:R. cbn [fst]. rewrite write_batch_app.
  destruct (counters_batch ops s) as (s1 & -> & M1 & V1).
  { unfold release_quota in R. injection R as <- <-. apply quota_list_counter. }
  cbn [app write_batch apply_op]. rewrite write_batch_app.
  assert (D : next_events m1 = next_events m) by (unfold release_quota in R; injection R as <- <-; reflexivity).
  match goal with |- context [write_batch (event_ops id m1) ?x] => destruct (events_batch id m1 x) as (s2 & -> & M2 & V2) end.
  cbn in M2, V2. rewrite M1 in M2. rewrite V1 in V2. assert (V3 : due_events id m1 = due_events id m) by (unfold due_events; rewrite D; reflexivity).
  rewrite V3 in V2. destruct multi; cbn; rewrite M2.
  - destruct (messages s !! id) as [cur |]; [| discriminate]. destruct (merge_recipients q m1 cur) as [x |] eqn:X; [| discriminate].
    intros Y. injection Y as <-. cbn. split; [exact V2 |]. exists x. split; [reflexivity |]. exists cur. split; [reflexivity | exact X].
  - intros Y. injection Y as <-. cbn. split; [exact V2 |]. exists m1. split; reflexivity.
Qed.

Lemma remove_effect due id q m s s' : write_batch (remove (Some due) id q m) s = Some s' ->
  events s' = events s ∖ {[ (due, id, q) ]} /\ messages s' = delete id (messages s).
Proof.
  unfold remove. cbn [app write_batch apply_op]. rewrite write_batch_app.
  match goal with |- context [write_batch (quota_ops ?a m) ?x] => destruct (counters_batch (quota_ops a m) x) as (s1 & -> & M1 & V1) end.
  { apply quota_list_counter. }
  cbn in M1, V1 |- *. intros Y. injection Y as <-. cbn. rewrite M1, V1. split; reflexivity.
Qed.

Lemma queue_effect id m s : exists s', write_batch (queue_batch id m) s = Some s' /\
  events s' ≡ due_events id m ∪ events s /\ messages s' = <[id := m]> (messages s).
Proof.
  unfold queue_batch. rewrite write_batch_app. destruct (counters_batch (quota_ops 1 m) s (quota_list_counter _ _ _)) as (s1 & -> & M1 & V1).
  rewrite write_batch_app. destruct (events_batch id m s1) as (s2 & -> & M2 & V2). cbn. eexists. split; [reflexivity |]. cbn.
  rewrite M2, M1, <- V1. split; [exact V2 | reflexivity].
Qed.
End Batches.
