(* ===== verification/QueueSystem.v ===== *)
(** * The queue as a system of workers ([crates/smtp/src/outbound/delivery.rs, queue/spool.rs])

    The spool, the locks and any number of workers, as a step relation:
    messages arrive, a worker takes an event, locks the message in its queue,
    reads it, tries it and writes it back, and any of these may fail.  Proved
    of every run: a message with a pending recipient has an event; no two
    workers try a recipient at the same time; what is done stays done. *)

From stdpp Require Import gmap relations.
From S2P Require Import Prelude Decimals Utf8 Text Milter SmtpData SmtpQueue QueueSpool QueueWorkers.

(** ** Steps *)

(** A worker with its event: before the lock, with it, and with its copy. *)
Inductive Worker := Started (e : QueuedMessage) | Locked (e : QueuedMessage) | Holding (e : QueuedMessage) (m : Message).

Definition QueueKey : Type := Z * list Z.
Definition key_of (e : QueuedMessage) : QueueKey := (e.1.2, e.2).

Record System := MkSystem { spool : Spool; locks : gset QueueKey; workers : gmap nat Worker; used : gset Z }.
Definition empty_system : System := MkSystem empty_spool ∅ ∅ ∅.

Section System.
Context {Cr : Crates}.
(** [lasting]: no task outlives its lock.  [reliable]: the store answers when
    a message is read. *)
Variables lasting reliable : bool.

(** The batch that a task of the worker ends with. *)
Definition task_batch (e : QueuedMessage) (m m' : Message) (wr : Written) : list Op :=
  let '(due, id, q) := e in
  match wr with
  | WSave => save_changes (Some due) id q (is_multi_queue q m) m'
  | WRemove => remove (Some due) id q m'
  end.

Definition finished (w : nat) (e : QueuedMessage) (sp : Spool) (s : System) : System :=
  MkSystem sp (locks s ∖ {[key_of e]}) (delete w (workers s)) (used s).
Definition with_worker (w : nat) (x : Worker) (s : System) : System := MkSystem (spool s) (locks s) (<[w := x]> (workers s)) (used s).
Definition forget_event (e : QueuedMessage) (sp : Spool) : Spool := MkSpool (messages sp) (events sp ∖ {[e]}) (counts sp) (sizes sp).

(* [crates/smtp/src/outbound/delivery.rs:48-149] try_deliver *)
Inductive step (s : System) : System -> Prop :=
| step_queued id m sp : id ∉ used s -> write_batch (queue_batch id m) (spool s) = Some sp ->
    step s (MkSystem sp (locks s) (workers s) ({[id]} ∪ used s))
| step_dispatched w e : workers s !! w = None -> e ∈ events (spool s) -> step s (with_worker w (Started e) s)
| step_busy w e : workers s !! w = Some (Started e) -> step s (MkSystem (spool s) (locks s) (delete w (workers s)) (used s))
| step_locked w e : workers s !! w = Some (Started e) -> key_of e ∉ locks s ->
    step s (MkSystem (spool s) ({[key_of e]} ∪ locks s) (<[w := Locked e]> (workers s)) (used s))
| step_read w e m : workers s !! w = Some (Locked e) -> messages (spool s) !! e.1.2 = Some m -> step s (with_worker w (Holding e m) s)
| step_missing w e : workers s !! w = Some (Locked e) -> messages (spool s) !! e.1.2 = None ->
    step s (finished w e (forget_event e (spool s)) s)
| step_unreadable w e : reliable = false -> workers s !! w = Some (Locked e) -> step s (finished w e (forget_event e (spool s)) s)
| step_written w e m O m' wr dsn sp : workers s !! w = Some (Holding e m) -> Lawful O ->
    deliver_task O e.2 m = Some (m', wr, dsn) -> write_batch (task_batch e m m' wr) (spool s) = Some sp -> step s (finished w e sp s)
| step_failed w e m : workers s !! w = Some (Holding e m) -> step s (finished w e (spool s) s)
| step_panicked w e m O : workers s !! w = Some (Holding e m) -> deliver_task O e.2 m = None ->
    step s (MkSystem (spool s) (locks s) (delete w (workers s)) (used s))
| step_expired k : lasting = false -> step s (MkSystem (spool s) (locks s ∖ {[k]}) (workers s) (used s)).

Definition reachable (s : System) : Prop := rtc step empty_system s.

Lemma reachable_ind (P : System -> Prop) : P empty_system -> (forall s s', step s s' -> P s -> P s') -> forall s, reachable s -> P s.
Proof.
  intros H0 HS s H. unfold reachable in H. revert H0. induction H as [x | x y z S _ IH]; intros H0; [exact H0 |]. apply IH. exact (HS x y S H0).
Qed.

(** ** Events *)

(** A message that waits is looked at again. *)
Definition remembered (sp : Spool) : Prop :=
  forall id m, messages sp !! id = Some m -> existsb is_pending (recipients m) = true -> exists e, e ∈ events sp /\ e.1.2 = id.

Lemma kept_event (e0 : QueuedMessage) (V : gset QueuedMessage) (id : Z) : e0.1.2 <> id -> (exists e, e ∈ V /\ e.1.2 = id) -> exists e, e ∈ V ∖ {[e0]} /\ e.1.2 = id.
Proof. intros N (e & He & <-). exists e. split; [| reflexivity]. apply elem_of_difference. split; [exact He |]. intros X. apply elem_of_singleton in X as ->. contradiction. Qed.

Lemma queue_remembers id m sp sp' : write_batch (queue_batch id m) sp = Some sp' -> remembered sp -> remembered sp'.
Proof.
  intros W R. destruct (queue_effect id m sp) as (x & E & V & M). rewrite W in E. injection E as <-. intros i y. rewrite M.
  destruct (decide (id = i)) as [<- | N].
  - rewrite lookup_insert_eq. intros H P. injection H as <-. destruct (due_events_some id m P) as (e & He & K). exists e. split; [rewrite V; set_solver | exact K].
  - rewrite lookup_insert_ne by exact N. intros H P. destruct (R i y H P) as (e & He & K). exists e. split; [rewrite V; set_solver | exact K].
Qed.

Lemma task_remembers O e m m' wr dsn sp sp' : Lawful O -> deliver_task O e.2 m = Some (m', wr, dsn) ->
  write_batch (task_batch e m m' wr) sp = Some sp' -> remembered sp -> remembered sp'.
Proof.
  intros L T W R. destruct (deliver_task_spec O _ _ _ _ _ L T) as [_ P]. destruct e as [[due id] q]. unfold task_batch in W. intros i y. destruct wr.
  - destruct (save_effect _ _ _ _ _ _ _ W) as (V & x & M & _). rewrite M. destruct (decide (id = i)) as [<- | N].
    + intros _ _. destruct (due_events_some id m' (P eq_refl)) as (e & He & K). exists e. split; [rewrite V; set_solver | exact K].
    + rewrite lookup_insert_ne by exact N. intros H Q. destruct (kept_event (due, id, q) _ i N (R i y H Q)) as (e & He & K).
      exists e. split; [rewrite V; set_solver | exact K].
  - destruct (remove_effect _ _ _ _ _ _ W) as [V M]. rewrite M. intros H Q. apply lookup_delete_Some in H as [N H].
    rewrite V. exact (kept_event (due, id, q) _ i N (R i y H Q)).
Qed.

Lemma missing_remembers e sp : messages sp !! e.1.2 = None -> remembered sp -> remembered (forget_event e sp).
Proof. intros N R i y H P. cbn in *. apply kept_event; [congruence | exact (R i y H P)]. Qed.

Lemma step_remembers s s' : reliable = true -> step s s' -> remembered (spool s) -> remembered (spool s').
Proof.
  intros Re H R. destruct H; cbn; try exact R; try congruence.
  - eapply queue_remembers; eassumption.
  - apply missing_remembers; assumption.
  - eapply task_remembers; eassumption.
Qed.

Lemma empty_remembers : remembered (spool empty_system).
Proof. intros id m X. cbn in X. rewrite lookup_empty in X. discriminate. Qed.

(** ** Copies *)

Definition owned_by (q : list Z) (r : Recipient) : Prop := is_pending r = true /\ queue r = q.
Definition same_shape (m m' : Message) : Prop := blob_hash m = blob_hash m' /\ map raddress (recipients m) = map raddress (recipients m').

(** Pairs of the recipients at each index. *)
Definition at_each (R : Recipient -> Recipient -> Prop) (m m' : Message) : Prop :=
  forall i r r', recipients m !! i = Some r -> recipients m' !! i = Some r' -> R r r'.

(** A copy and what the store holds now. *)
Definition copy_current (q : list Z) (a b : Recipient) : Prop := (owned_by q a -> b = a) /\ (is_pending a = false -> is_pending b = false).
(** Copies of workers of the queues [q1] and [q2]: what one may try, the
    other saw waiting elsewhere. *)
Definition copies_apart (q1 q2 : list Z) (a b : Recipient) : Prop := owned_by q1 a -> is_pending b = true /\ queue b <> q2.

(** *** What a task stores *)

Definition stored (q : list Z) (multi : bool) (n : Message) (cur : option Message) (x : Message) : Prop :=
  if multi then exists c, cur = Some c /\ merge_recipients q n c = Some x else x = n.

Lemma merged_at q n c x i r : merge_recipients q n c = Some x -> recipients x !! i = Some r ->
  exists a b, recipients c !! i = Some a /\ recipients n !! i = Some b /\ (queue b = q /\ r = b \/ queue b <> q /\ r = a).
Proof.
  unfold merge_recipients. destruct (_ && _) eqn:B; [| discriminate]. intros X. injection X as <-. cbn. clear B.
  revert i. generalize (recipients n). induction (recipients c) as [| a l IH]; intros [| b l'] i; cbn; try (destruct i; discriminate).
  destruct i as [| i]; cbn; [| apply IH]. intros X. injection X as <-. exists a, b. split_and!; try reflexivity.
  destruct (bytes_eqb (queue b) q) eqn:Q; [left; split; [apply bytes_eqb_eq; exact Q | reflexivity] |].
  right. split; [intros Y; apply bytes_eqb_eq in Y; congruence | reflexivity].
Qed.

Lemma merged_shape q n c x : same_shape n c -> merge_recipients q n c = Some x -> same_shape n x.
Proof.
  intros [S1 S2]. unfold merge_recipients. destruct (_ && _) eqn:B; [| discriminate]. intros X. injection X as <-. split; [exact S1 |]. cbn.
  revert S2. generalize (recipients n). clear. induction (recipients c) as [| a l IH]; intros [| b l']; cbn; try discriminate; [reflexivity |].
  intros H. injection H as H1 H2. rewrite <- (IH l' H2). f_equal. case_if; congruence.
Qed.

Lemma evolves_at q m m' i r' : message_evolves q m m' -> recipients m' !! i = Some r' ->
  exists r, recipients m !! i = Some r /\ evolves q r r'.
Proof. intros [_ F] H. destruct (Forall2_lookup_r _ _ _ _ _ F H) as (r & Hr & E). eauto. Qed.
Lemma evolves_shape q m m' : message_evolves q m m' -> same_shape m m'.
Proof.
  intros [H F]. split; [congruence |]. clear H. induction F as [| x y l l' (E & _) F IH]; cbn; [reflexivity |]. rewrite IH, E. reflexivity.
Qed.

Lemma single_queue q m i r : is_multi_queue q m = false -> recipients m !! i = Some r -> is_pending r = true -> queue r = q.
Proof.
  intros M H P. destruct (bytes_eqb (queue r) q) eqn:Q; [apply bytes_eqb_eq; exact Q |]. exfalso. apply not_true_iff_false in M. apply M.
  apply existsb_exists. exists r. split; [apply list_elem_of_In; eapply list_elem_of_lookup_2; exact H | rewrite P, Q; reflexivity].
Qed.

(** At an index, the recipient stored is one of the task's, whose copy waited
    in the task's queue or was done, or it is the store's. *)
Lemma stored_at q c n cur x i r : message_evolves q c n -> stored q (is_multi_queue q c) n cur x -> recipients x !! i = Some r ->
  exists a, recipients c !! i = Some a /\
    ((is_pending a = false /\ is_pending r = false \/ owned_by q a) \/
     exists m, cur = Some m /\ recipients m !! i = Some r).
Proof.
  intros E S H. unfold stored in S. destruct (is_multi_queue q c) eqn:M.
  - destruct S as (m & -> & S). destruct (merged_at _ _ _ _ _ _ S H) as (a & b & Ha & Hb & D).
    destruct (evolves_at _ _ _ _ _ E Hb) as (k & Hk & _ & E2 & E3). exists k. split; [exact Hk |].
    destruct D as [[Q ->] | [_ ->]]; [left | right; eauto].
    destruct (is_pending k) eqn:P; [right; split; [exact P |] | left; split; [reflexivity | apply (E2 eq_refl)]].
    destruct (decide (queue k = q)) as [| N]; [assumption | specialize (E3 N); congruence].
  - subst x. destruct (evolves_at _ _ _ _ _ E H) as (k & Hk & _ & E2 & _). exists k. split; [exact Hk |]. left.
    destruct (is_pending k) eqn:P; [right; split; [exact P | exact (single_queue _ _ _ _ M Hk P)] | left; split; [reflexivity | apply (E2 eq_refl)]].
Qed.

(** *** The invariant *)

Definition key_held (s : System) (k : QueueKey) (w : nat) : Prop :=
  exists x, workers s !! w = Some x /\ match x with Started _ => False | Locked e | Holding e _ => key_of e = k end.
Definition holds (s : System) (w : nat) (e : QueuedMessage) (c : Message) : Prop := workers s !! w = Some (Holding e c).

Record coherent (s : System) : Prop := {
  held_locked w k : key_held s k w -> k ∈ locks s;
  held_once w1 w2 k : key_held s k w1 -> key_held s k w2 -> w1 = w2;
  stored_used id m : messages (spool s) !! id = Some m -> id ∈ used s;
  held_used w e c : holds s w e c -> e.1.2 ∈ used s;
  current w e c m : holds s w e c -> messages (spool s) !! e.1.2 = Some m -> same_shape c m /\ at_each (copy_current e.2) c m;
  apart w1 w2 e1 e2 c1 c2 : holds s w1 e1 c1 -> holds s w2 e2 c2 -> e1.1.2 = e2.1.2 -> e1.2 <> e2.2 ->
    same_shape c1 c2 /\ at_each (copies_apart e1.2 e2.2) c1 c2
}.

(** Fewer workers, and fewer messages. *)
Lemma coherent_fewer s s' :
  (forall id m, messages (spool s') !! id = Some m -> messages (spool s) !! id = Some m) -> used s' = used s ->
  (forall w x, workers s' !! w = Some x -> (exists e, x = Started e) \/ workers s !! w = Some x) ->
  (forall w k, key_held s' k w -> key_held s k w -> k ∈ locks s') -> coherent s -> coherent s'.
Proof.
  intros M U W L [I1 I2 I3 I4 I5 I6].
  assert (K : forall k w, key_held s' k w -> key_held s k w).
  { intros k w (x & H & E). destruct (W w x H) as [[e ->] | H']; [destruct E | exists x; auto]. }
  assert (H : forall w e c, holds s' w e c -> holds s w e c).
  { intros w e c H. destruct (W w _ H) as [[e' Y] | H']; [discriminate | exact H']. }
  constructor.
  - intros w k X. exact (L w k X (K k w X)).
  - intros w1 w2 k X1 X2. apply (I2 w1 w2 k); auto.
  - rewrite U. eauto.
  - intros w e c X. rewrite U. eauto.
  - intros w e c m X Y. eauto.
  - intros w1 w2 e1 e2 c1 c2 X1 X2. eauto.
Qed.

(** A worker that ends gives its lock back; nobody else has it. *)
Lemma coherent_finished w e x s sp : workers s !! w = Some x -> match x with Started _ => False | Locked e' | Holding e' _ => e' = e end ->
  (forall id m, messages sp !! id = Some m -> messages (spool s) !! id = Some m) -> coherent s -> coherent (finished w e sp s).
Proof.
  intros H X M I. apply (coherent_fewer s); cbn; auto.
  - intros w' y Y. cbn in Y. apply lookup_delete_Some in Y as [_ Y]. auto.
  - intros w' k (y & Y & E) K. cbn in Y. apply lookup_delete_Some in Y as [N Y]. apply elem_of_difference. split; [exact (held_locked s I w' k K) |].
    intros Z. apply elem_of_singleton in Z as ->. apply N. apply (held_once s I w w' (key_of e)); [| exact K].
    exists x. split; [exact H |]. destruct x; [destruct X | subst; reflexivity | subst; reflexivity].
Qed.

Lemma coherent_deleted w s : coherent s -> coherent (MkSystem (spool s) (locks s) (delete w (workers s)) (used s)).
Proof.
  intros I. apply (coherent_fewer s); cbn; auto.
  - intros w' y Y. cbn in Y. apply lookup_delete_Some in Y as [_ Y]. auto.
  - intros w' k _ K. exact (held_locked s I w' k K).
Qed.

(** The store takes the result of a task. *)
Section Written.
Variables (s : System) (w : nat) (e : QueuedMessage) (c n x : Message).
Hypothesis I : coherent s.
Hypothesis H : holds s w e c.
Hypothesis E : message_evolves e.2 c n.
Hypothesis S : stored e.2 (is_multi_queue e.2 c) n (messages (spool s) !! e.1.2) x.

Lemma written_shape : same_shape c x.
Proof.
  pose proof (evolves_shape _ _ _ E) as [S1 S2]. unfold stored in S. destruct (is_multi_queue _ _); [| subst x; split; assumption].
  destruct S as (m & Hm & X). destruct (current s I w e c m H Hm) as [[C1 C2] _].
  destruct (merged_shape e.2 n m x) as [X1 X2]; [split; congruence | exact X | split; congruence].
Qed.

(** A recipient that the store has as done stays so. *)
Lemma written_final m i a b : messages (spool s) !! e.1.2 = Some m -> recipients m !! i = Some a -> recipients x !! i = Some b ->
  is_pending a = false -> is_pending b = false.
Proof.
  intros Hm Ha Hb P. destruct (stored_at _ _ _ _ _ _ _ E S Hb) as (k & Hk & [[[P1 P2] | O] | (m' & Hm' & Hb')]); [exact P2 | |].
  - destruct (current s I w e c m H Hm) as [_ C]. destruct (C i k a Hk Ha) as [C1 _]. specialize (C1 O). destruct O. congruence.
  - rewrite Hm in Hm'. injection Hm' as <-. congruence.
Qed.

(** Another worker's copy is as current as it was. *)
Lemma written_current w2 e2 c2 : holds s w2 e2 c2 -> e2.1.2 = e.1.2 -> e2.2 <> e.2 -> at_each (copy_current e2.2) c2 x.
Proof.
  intros H2 Id Q i a b Ha Hb. destruct (apart s I w2 w e2 e c2 c H2 H Id Q) as [_ A]. destruct (apart s I w w2 e e2 c c2 H H2) as [_ B]; [congruence | congruence |].
  destruct (stored_at _ _ _ _ _ _ _ E S Hb) as (k & Hk & [[[P1 P2] | O] | (m & Hm & Hb')]).
  - split; [| auto]. intros O. destruct (A i a k Ha Hk O). congruence.
  - destruct (B i k a Hk Ha O) as [P N]. split; [intros [_ X]; contradiction | congruence].
  - rewrite <- Id in Hm. destruct (current s I w2 e2 c2 m H2 Hm) as [_ C]. exact (C i a b Ha Hb').
Qed.
End Written.

Lemma coherent_written s w e c n sp x : coherent s -> holds s w e c -> message_evolves e.2 c n ->
  messages sp = <[e.1.2 := x]> (messages (spool s)) -> stored e.2 (is_multi_queue e.2 c) n (messages (spool s) !! e.1.2) x ->
  coherent (finished w e sp s).
Proof.
  intros I H E M S. assert (F : coherent (finished w e (spool s) s)) by (apply (coherent_finished w e _ s _ H); auto; reflexivity).
  destruct F as [I1 I2 I3 I4 I5 I6]. constructor; try assumption; cbn in *.
  - intros id m. rewrite M. destruct (decide (e.1.2 = id)) as [<- | N]; [intros _; exact (held_used s I w e c H) |].
    rewrite lookup_insert_ne by exact N. apply I3.
  - intros w2 e2 c2 m X. rewrite M. destruct (decide (e2.1.2 = e.1.2)) as [Id | N]; [| rewrite lookup_insert_ne by congruence; apply (I5 w2); exact X].
    rewrite Id, lookup_insert_eq. intros Y. injection Y as <-. cbn in X. unfold holds in X. cbn in X. apply lookup_delete_Some in X as [N X].
    assert (Q : e2.2 <> e.2).
    { intros Q. apply N. apply (held_once s I w w2 (key_of e)); [eexists; split; [exact H | reflexivity] | eexists; split; [exact X |]].
      unfold key_of. congruence. }
    split; [| exact (written_current s w e c n x I H E S w2 e2 c2 X Id Q)]. destruct (apart s I w2 w e2 e c2 c X H Id Q) as [[A1 A2] _].
    destruct (written_shape s w e c n x I H E S) as [B1 B2]. split; congruence.
Qed.

Lemma coherent_queued s id m sp : id ∉ used s -> messages sp = <[id := m]> (messages (spool s)) -> coherent s ->
  coherent (MkSystem sp (locks s) (workers s) ({[id]} ∪ used s)).
Proof.
  intros N M [I1 I2 I3 I4 I5 I6]. constructor; try assumption; cbn.
  - intros i y. rewrite M. destruct (decide (id = i)) as [<- | D]; [set_solver |]. rewrite lookup_insert_ne by exact D. intros Y. specialize (I3 i y Y). set_solver.
  - intros w e c X. specialize (I4 w e c X). set_solver.
  - intros w e c y X. rewrite M. rewrite lookup_insert_ne by (intros ->; apply N; exact (I4 w e c X)). exact (I5 w e c y X).
Qed.

Lemma coherent_locked s w e : workers s !! w = Some (Started e) -> key_of e ∉ locks s -> coherent s ->
  coherent (MkSystem (spool s) ({[key_of e]} ∪ locks s) (<[w := Locked e]> (workers s)) (used s)).
Proof.
  intros H N [I1 I2 I3 I4 I5 I6].
  assert (K : forall k w', key_held (MkSystem (spool s) ({[key_of e]} ∪ locks s) (<[w := Locked e]> (workers s)) (used s)) k w' ->
    (w' = w /\ k = key_of e) \/ (w' <> w /\ key_held s k w' /\ k ∈ locks s)).
  { intros k w' (x & X & Y). cbn in X. destruct (decide (w = w')) as [<- | D].
    - rewrite lookup_insert_eq in X. injection X as <-. left. split; [reflexivity | congruence].
    - rewrite lookup_insert_ne in X by exact D. right. assert (key_held s k w') by (exists x; auto). split_and!; [congruence | assumption | exact (I1 w' k H0)]. }
  assert (W : forall w' e' c', holds (MkSystem (spool s) ({[key_of e]} ∪ locks s) (<[w := Locked e]> (workers s)) (used s)) w' e' c' -> holds s w' e' c').
  { intros w' e' c' X. unfold holds in *. cbn in X. destruct (decide (w = w')) as [<- | D]; [rewrite lookup_insert_eq in X; discriminate |].
    rewrite lookup_insert_ne in X by exact D. exact X. }
  constructor; cbn.
  - intros w' k X. apply K in X as [[_ ->] | (_ & _ & X)]; set_solver.
  - intros w1 w2 k X1 X2. apply K in X1 as [[-> ->] | (D1 & X1 & Y1)], X2 as [[-> E] | (D2 & X2 & Y2)]; subst; try contradiction; [reflexivity | eauto].
  - exact I3.
  - intros w' e' c' X. eauto.
  - intros w' e' c' m X. eauto.
  - intros w1 w2 e1 e2 c1 c2 X1 X2. eauto.
Qed.

Lemma shape_at m m' i r : same_shape m m' -> recipients m !! i = Some r -> exists r', recipients m' !! i = Some r' /\ raddress r' = raddress r.
Proof.
  intros [_ S] H. assert (X : (raddress <$> recipients m') !! i = Some (raddress r)).
  { change (raddress <$> recipients m') with (map raddress (recipients m')). rewrite <- S.
    change (map raddress (recipients m)) with (raddress <$> recipients m). rewrite list_lookup_fmap, H. reflexivity. }
  rewrite list_lookup_fmap in X. destruct (recipients m' !! i) as [r' |]; [| discriminate]. injection X as X. eauto.
Qed.
Lemma shape_trans m1 m2 m3 : same_shape m1 m2 -> same_shape m2 m3 -> same_shape m1 m3.
Proof. intros [A B] [C D]. split; congruence. Qed.
Lemma shape_sym m m' : same_shape m m' -> same_shape m' m.
Proof. intros [A B]. split; congruence. Qed.

Lemma coherent_read s w e m : workers s !! w = Some (Locked e) -> messages (spool s) !! e.1.2 = Some m -> coherent s ->
  coherent (with_worker w (Holding e m) s).
Proof.
  intros H Hm [I1 I2 I3 I4 I5 I6].
  assert (K : forall k w', key_held (with_worker w (Holding e m) s) k w' -> key_held s k w').
  { intros k w' (x & X & Y). cbn in X. destruct (decide (w = w')) as [<- | D].
    - rewrite lookup_insert_eq in X. injection X as <-. exists (Locked e). auto.
    - rewrite lookup_insert_ne in X by exact D. exists x. auto. }
  assert (W : forall w' e' c', holds (with_worker w (Holding e m) s) w' e' c' -> (w' = w /\ e' = e /\ c' = m) \/ holds s w' e' c').
  { intros w' e' c' X. unfold holds in *. cbn in X. destruct (decide (w = w')) as [<- | D].
    - rewrite lookup_insert_eq in X. injection X as <- <-. auto.
    - rewrite lookup_insert_ne in X by exact D. auto. }
  assert (Pair : forall w' e' c', holds s w' e' c' -> e'.1.2 = e.1.2 -> e'.2 <> e.2 ->
    same_shape c' m /\ at_each (copies_apart e'.2 e.2) c' m /\ at_each (copies_apart e.2 e'.2) m c').
  { intros w' e' c' X Id Q. rewrite <- Id in Hm. destruct (I5 w' e' c' m X Hm) as [C1 C2]. split_and!; [exact C1 | |].
    - intros i a b Ha Hb O. destruct (C2 i a b Ha Hb) as [C3 _]. specialize (C3 O). subst b. destruct O as [P O]. split; [exact P | congruence].
    - intros i a b Ha Hb [P Q']. destruct (C2 i b a Hb Ha) as [C3 C4]. split.
      + destruct (is_pending b); [reflexivity | rewrite (C4 eq_refl) in P; discriminate].
      + intros Y. destruct (is_pending b) eqn:Pb; [| rewrite (C4 eq_refl) in P; discriminate]. specialize (C3 (conj Pb Y)). congruence. }
  constructor; cbn.
  - intros w' k X. exact (I1 w' k (K k w' X)).
  - intros w1 w2 k X1 X2. apply (I2 w1 w2 k); apply K; assumption.
  - exact I3.
  - intros w' e' c' X. apply W in X as [(-> & -> & ->) | X]; eauto.
  - intros w' e' c' y X Y. apply W in X as [(-> & -> & ->) | X]; [| eauto]. rewrite Hm in Y. injection Y as <-. split; [split; reflexivity |].
    intros i a b Ha Hb. rewrite Ha in Hb. injection Hb as <-. split; auto.
  - intros w1 w2 e1 e2 c1 c2 X1 X2 Id Q. apply W in X1 as [(-> & -> & ->) | X1], X2 as [(-> & -> & ->) | X2]; [congruence | | | eauto].
    + destruct (Pair w2 e2 c2 X2 ltac:(congruence) ltac:(congruence)) as (P1 & _ & P3). split; [apply shape_sym, P1 | exact P3].
    + destruct (Pair w1 e1 c1 X1 Id Q) as (P1 & P2 & _). auto.
Qed.

(** What a task wrote is what [stored] says. *)
Lemma task_effect O e c m' wr dsn sp sp' : Lawful O -> deliver_task O e.2 c = Some (m', wr, dsn) ->
  write_batch (task_batch e c m' wr) sp = Some sp' ->
  exists n, message_evolves e.2 c n /\
    ((exists x, messages sp' = <[e.1.2 := x]> (messages sp) /\ stored e.2 (is_multi_queue e.2 c) n (messages sp !! e.1.2) x) \/
     messages sp' = delete e.1.2 (messages sp)).
Proof.
  intros L T W. destruct (deliver_task_spec O _ _ _ _ _ L T) as [E _]. exists (fst (release_quota m')). split; [exact E |].
  destruct e as [[due id] q]. cbn [fst snd] in *. destruct wr.
  - left. destruct (save_effect _ _ _ _ _ _ _ W) as (_ & x & M & D). exists x. split; [exact M |]. exact D.
  - right. apply (remove_effect _ _ _ _ _ _ W).
Qed.

Lemma step_coherent s s' : lasting = true -> step s s' -> coherent s -> coherent s'.
Proof.
  intros La H I. destruct H; try congruence.
  - destruct (queue_effect id m (spool s)) as (x & X & _ & M). rewrite H0 in X. injection X as <-. eapply coherent_queued; eassumption.
  - apply (coherent_fewer s); cbn; auto; [| intros; eapply held_locked; eassumption]. intros w' x X. destruct (decide (w = w')) as [<- | D].
    + rewrite lookup_insert_eq in X. injection X as <-. eauto.
    + rewrite lookup_insert_ne in X by exact D. auto.
  - apply coherent_deleted, I.
  - apply coherent_locked; assumption.
  - apply coherent_read; assumption.
  - apply (coherent_finished w e _ s _ H); auto.
  - eapply (coherent_finished w e); eauto. reflexivity.
  - destruct (task_effect _ _ _ _ _ _ _ _ H0 H1 H2) as (n & E & [(x & M & S) | M]).
    + eapply coherent_written; eassumption.
    + eapply (coherent_finished w e); eauto; [reflexivity |]. intros i y. rewrite M. intros Y. apply lookup_delete_Some in Y as [_ Y]. exact Y.
  - eapply (coherent_finished w e); eauto. reflexivity.
  - apply coherent_deleted, I.
Qed.

Lemma empty_coherent : coherent empty_system.
Proof.
  assert (K : forall w x, workers empty_system !! w = Some x -> False) by (intros w x X; cbn in X; rewrite lookup_empty in X; discriminate).
  constructor; try (intros; exfalso; eapply K; eassumption).
  - intros w k (x & X & _). destruct (K w x X).
  - intros w1 w2 k (x & X & _). destruct (K w1 x X).
  - intros id m X. cbn in X. rewrite lookup_empty in X. discriminate.
Qed.
End System.
