(* ===== verification/QueueManager.v ===== *)
(** * The queue's manager ([crates/smtp/src/queue/manager.rs, spool.rs])

    One task that holds what is in flight: it sleeps until the next event or
    until something is sent to it, reads the events of the store that are due,
    starts workers within the limits of their queues, and keeps locks of its
    own so as not to start two for one event.  Instants are nanoseconds of a
    monotonic clock, [now] is the time in seconds. *)

From stdpp Require Import gmap relations sorting.
From S2P Require Import Prelude Milter SmtpData SmtpQueue QueueSpool QueueSystem.

(** ** State *)

(* [crates/smtp/src/queue/spool.rs:49-49] LOCK_EXPIRY *)
Definition LOCK_EXPIRY : Z := 10 * 60.
(* [crates/smtp/src/queue/spool.rs:50-50] QUEUE_REFRESH *)
Definition QUEUE_REFRESH : Z := 5 * 60.
(* [crates/smtp/src/queue/spool.rs:51-51] INFINITE_LOCK *)
Definition INFINITE_LOCK : Z := 60 * 60 * 24 * 365.
Definition from_secs (n : Z) : Z := n * 1000000000.
(* [crates/smtp/src/queue/manager.rs:55] BACK_PRESSURE_WARN_INTERVAL *)
Definition BACK_PRESSURE_WARN_INTERVAL : Z := from_secs 60.

(* [crates/smtp/src/queue/manager.rs:34-39] QueueStats *)
Record QueueStats := MkStats { in_flight : Z; max_in_flight : Z; last_warning : Z }.
(* [crates/smtp/src/queue/manager.rs:41-45] LockedMessage *)
Record LockedMessage := MkLocked { lock_expires : Z; revision : Z }.
(** Without the channel. *)
(* [crates/smtp/src/queue/manager.rs:24-32] Queue *)
Record Queue := MkQueue {
  locked : gmap QueueKey LockedMessage; locked_revision : Z; stats : gmap (list Z) QueueStats; next_refresh : Z; is_paused : bool }.
(* [crates/common/src/ipc.rs:109-120] QueueEvent *)
Inductive QueueEvent :=
| Refresh | WorkerDone (queue_id : Z) (queue_name : list Z) (status : QueueEventStatus) | Paused (paused : bool) | ReloadSettings | Stop.

Definition set_locked (x : gmap QueueKey LockedMessage) (q : Queue) : Queue := MkQueue x (locked_revision q) (stats q) (next_refresh q) (is_paused q).
Definition set_stats (x : gmap (list Z) QueueStats) (q : Queue) : Queue := MkQueue (locked q) (locked_revision q) x (next_refresh q) (is_paused q).
Definition set_next_refresh (x : Z) (q : Queue) : Queue := MkQueue (locked q) (locked_revision q) (stats q) x (is_paused q).
Definition set_paused (x : bool) (q : Queue) : Queue := MkQueue (locked q) (locked_revision q) (stats q) (next_refresh q) x.

(* [crates/smtp/src/queue/manager.rs:363-369] QueueStats::new *)
Definition stats_new (instant max_in_flight : Z) : QueueStats := MkStats 0 max_in_flight (instant - BACK_PRESSURE_WARN_INTERVAL).
(* [crates/smtp/src/queue/manager.rs:371-374] has_capacity *)
Definition has_capacity (s : QueueStats) : bool := in_flight s <? max_in_flight s.
(* [crates/smtp/src/queue/manager.rs:58-68] Queue::new *)
Definition queue_new (instant : Z) : Queue := MkQueue ∅ 0 ∅ (instant + from_secs 1) false.

(** ** The events that are due *)

(** Whether the event is to be tried, and when to look again. *)
(* [crates/smtp/src/queue/spool.rs:155-190] next_event, an event *)
Definition scan_event (now : Z) (e : QueuedMessage) (q : Queue) (next : Z) : Queue * bool * Z :=
  let lock x := set_locked (<[key_of e := MkLocked x (locked_revision q)]> (locked q)) q in
  if match stats q !! e.2 with Some s => has_capacity s | None => true end then
    match locked q !! key_of e with
    | Some l =>
        if lock_expires l <=? now then (lock (add64 now INFINITE_LOCK), true, next)
        else (lock (lock_expires l), false, if lock_expires l <? next then lock_expires l else next)
    | None => (lock (add64 now INFINITE_LOCK), true, next)
    end
  else (q, false, next).
(** The first event in the future ends the scan. *)
(* [crates/smtp/src/queue/spool.rs:141-200] next_event, the events *)
Fixpoint scan (now : Z) (l : list QueuedMessage) (q : Queue) (messages : list QueuedMessage) (next : Z) : Queue * list QueuedMessage * Z :=
  match l with
  | [] => (q, messages, next)
  | e :: l =>
      if e.1.1 <=? now then
        let '(q, add, next) := scan_event now e q next in
        scan now l q (if add : bool then messages ++ [e] else messages) next
      else (q, messages, if e.1.1 <? next then e.1.1 else next)
  end.
(** [store]: the events in the order of their keys, up to an error. *)
(* [crates/smtp/src/queue/spool.rs:114-211] next_event *)
Definition next_event (now : Z) (store : list QueuedMessage) (q : Queue) : Queue * list QueuedMessage * Z :=
  let q := MkQueue (locked q) (add64 (locked_revision q) 1) (stats q) (next_refresh q) (is_paused q) in
  scan now (List.filter (fun e => e.1.1 <=? add64 now QUEUE_REFRESH) store) q [] (add64 now QUEUE_REFRESH).

(** ** Workers *)

Section Workers.
(** The number of threads of a queue, or the default. *)
Variable threads : list Z -> Z.

(** Those that are started, in their order. *)
(* [crates/smtp/src/queue/manager.rs:108-141] start, the messages *)
Fixpoint dispatch (instant : Z) (l : list QueuedMessage) (q : Queue) : Queue * list QueuedMessage :=
  match l with
  | [] => (q, [])
  | e :: l =>
      let s := match stats q !! e.2 with Some s => s | None => stats_new instant (threads e.2) end in
      if has_capacity s then
        let '(q, started) := dispatch instant l (set_stats (<[e.2 := MkStats (add64 (in_flight s) 1) (max_in_flight s) (last_warning s)]> (stats q)) q) in
        (q, e :: started)
      else
        let warned := if BACK_PRESSURE_WARN_INTERVAL <=? instant - last_warning s then instant else last_warning s in
        dispatch instant l
          (set_locked (delete (key_of e) (locked q)) (set_stats (<[e.2 := MkStats (in_flight s) (max_in_flight s) warned]> (stats q)) q))
  end.

(** The clocks are read more than once. *)
Record Clocks := MkClocks { scanned_at : Z; dispatched_at : Z; unlocked_at : Z; slept_at : Z }.

(* [crates/smtp/src/queue/manager.rs:99-150] start, the queue is processed *)
Definition process (c : Clocks) (shuffle : list QueuedMessage -> list QueuedMessage) (store : list QueuedMessage) (q : Queue) :
    Queue * list QueuedMessage :=
  let '(q, messages, next) := next_event (scanned_at c) store q in
  let messages := if (3 <? length messages)%nat then shuffle messages else messages in
  let '(q, started) := dispatch (dispatched_at c) messages q in
  let now := unlocked_at c in
  let keep (x : QueueKey * LockedMessage) := now < lock_expires (snd x) /\ revision (snd x) = locked_revision q in
  let q := set_locked (base.filter keep (locked q)) q in
  (set_next_refresh (slept_at c + from_secs (Z.max 0 (next - now))) q, started).

(** ** Events *)

(** [settings]: the virtual queues; [jitter]: 5 to 9.  [None]: a panic.  The
    profiles build without overflow checks, so the counter wraps. *)
(* [crates/smtp/src/queue/manager.rs:159-225] handle_event *)
Definition handle_event (now instant jitter : Z) (settings : list (list Z * Z)) (e : QueueEvent) (q : Queue) : option (Queue * bool) :=
  match e with
  | WorkerDone queue_id queue_name status =>
      match stats q !! queue_name with
      | None => None
      | Some s =>
          let s := MkStats (wrap 64 (in_flight s - 1)) (max_in_flight s) (last_warning s) in
          let q := set_stats (<[queue_name := s]> (stats q)) q in
          let free := set_locked (delete (queue_id, queue_name) (locked q)) q in
          Some match status with
               | Completed_ => (free, negb (size (locked free) =? 0)%nat || negb (has_capacity s))
               | Locked_ =>
                   let expires := LOCK_EXPIRY + jitter in
                   let q := if instant + from_secs expires <? next_refresh q then set_next_refresh (instant + from_secs expires) q else q in
                   let q := set_locked (<[(queue_id, queue_name) := MkLocked (add64 now expires) (locked_revision q)]> (locked q)) q in
                   (q, (1 <? size (locked q))%nat || negb (has_capacity s))
               | Deferred_ => (free, true)
               end
      end
  | Refresh => Some (q, true)
  | Paused paused => Some (set_paused paused q, negb paused)
  | ReloadSettings =>
      let reload x '(name, n) :=
        <[name := match x !! name with Some s => MkStats (in_flight s) n (last_warning s) | None => stats_new instant n end]> x in
      Some (set_stats (fold_left reload settings (stats q)) q, false)
  | Stop => Some (set_paused true q, false)
  end.

(** What came with an event: the clocks and the jitter. *)
Record Arrival := MkArrival { ar_event : QueueEvent; ar_now : Z; ar_instant : Z; ar_jitter : Z }.
(* [crates/smtp/src/queue/manager.rs:83-88] start, what was sent *)
Fixpoint handle_events (settings : list (list Z * Z)) (l : list Arrival) (q : Queue) (refresh : bool) : option (Queue * bool) :=
  match l with
  | [] => Some (q, refresh)
  | a :: l =>
      match handle_event (ar_now a) (ar_instant a) (ar_jitter a) settings (ar_event a) q with
      | Some (q, r) => handle_events settings l q (r || refresh)
      | None => None
      end
  end.

(** [arrivals]: what was sent, or nothing when the sleep ended. *)
(* [crates/smtp/src/queue/manager.rs:70-157] start, a round *)
Definition round (c : Clocks) (shuffle : list QueuedMessage -> list QueuedMessage) (settings : list (list Z * Z)) (store : list QueuedMessage)
    (arrivals : list Arrival) (instant : Z) (q : Queue) : option (Queue * list QueuedMessage) :=
  match match arrivals with [] => Some (q, true) | _ => handle_events settings arrivals q false end with
  | None => None
  | Some (q, refresh) =>
      if is_paused q then Some (set_next_refresh (instant + from_secs 86400) q, [])
      else if refresh || (next_refresh q <=? instant) then Some (process c shuffle store q)
      else Some (q, [])
  end.
End Workers.

(** ** Workers are counted *)

Section Counting.
Variable threads : list Z -> Z.

(** The manager, and the events whose workers have not reported yet. *)
Record State := MkState { manager : Queue; running : list QueueKey }.
Definition running_in (name : list Z) (l : list QueueKey) : Z := Z.of_nat (length (List.filter (fun k => bytes_eqb k.2 name) l)).
Definition done (l : list Arrival) : list QueueKey :=
  omap (fun a => match ar_event a with WorkerDone id name _ => Some (id, name) | _ => None end) l.
Definition small (settings : list (list Z * Z)) : Prop := Forall (fun x => x.2 < 2 ^ 64) settings.

(** A round: workers that run report, others are started. *)
Inductive manager_step : State -> State -> Prop :=
| step_round c shuffle settings store arrivals instant q q' l rest started :
    small settings -> Permutation l (done arrivals ++ rest) ->
    round threads c shuffle settings store arrivals instant q = Some (q', started) ->
    manager_step (MkState q l) (MkState q' (map key_of started ++ rest)).
Definition manager_reachable (instant : Z) (s : State) : Prop := rtc manager_step (MkState (queue_new instant) []) s.

(** What is in flight is what runs. *)
Definition counted (q : Queue) (l : list QueueKey) : Prop := forall name,
  match stats q !! name with
  | Some s => in_flight s = running_in name l /\ in_flight s < 2 ^ 64 /\ max_in_flight s < 2 ^ 64
  | None => running_in name l = 0
  end.
Definition limited (q : Queue) (name : list Z) (l : list QueueKey) : Prop := exists s, stats q !! name = Some s /\ running_in name l <= max_in_flight s.

Lemma running_cons k name l : running_in name (k :: l) = (if bytes_eqb k.2 name then 1 else 0) + running_in name l.
Proof. unfold running_in. cbn. destruct (bytes_eqb k.2 name); cbn [length]; lia. Qed.
Lemma running_nonneg name l : 0 <= running_in name l.
Proof. unfold running_in. lia. Qed.
Lemma running_perm name l l' : Permutation l l' -> running_in name l = running_in name l'.
Proof. intros P. unfold running_in. f_equal. induction P; cbn; repeat case_match; cbn; congruence. Qed.
Lemma counted_perm q l l' : Permutation l l' -> counted q l -> counted q l'.
Proof.
  intros P H name. specialize (H name). rewrite <- (running_perm name l l' P). exact H.
Qed.
Lemma counted_stats q q' l : stats q' = stats q -> counted q l -> counted q' l.
Proof. intros E H name. rewrite E. apply H. Qed.

Lemma report_counted now instant jitter settings id name st q l : counted q ((id, name) :: l) ->
  exists q' r, handle_event now instant jitter settings (WorkerDone id name st) q = Some (q', r) /\ counted q' l.
Proof.
  intros H. pose proof (H name) as N. rewrite running_cons in N. cbn [snd] in N. rewrite bytes_eqb_refl in N. pose proof (running_nonneg name l) as P.
  cbn [handle_event]. destruct (stats q !! name) as [s |] eqn:S; [| lia]. destruct N as (N1 & N2 & N3).
  assert (K : counted (set_stats (<[name := MkStats (wrap 64 (in_flight s - 1)) (max_in_flight s) (last_warning s)]> (stats q)) q) l).
  { intros n. cbn [stats set_stats]. specialize (H n). rewrite running_cons in H. cbn [snd] in H. destruct (decide (name = n)) as [<- | D].
    - rewrite lookup_insert_eq. cbn [in_flight max_in_flight]. rewrite wrap_small by (unfold in_width; lia). lia.
    - rewrite lookup_insert_ne by exact D. rewrite (proj2 (bytes_eqb_neq name n) D) in H. exact H. }
  destruct st; do 2 eexists; (split; [reflexivity |]); [exact K | | exact K]. destruct (_ <? next_refresh _); exact K.
Qed.

Lemma reload_counted instant settings q l : small settings -> counted q l ->
  counted (set_stats (fold_left (fun x '(name, n) =>
        <[name := match x !! name with Some s => MkStats (in_flight s) n (last_warning s) | None => stats_new instant n end]> x) settings (stats q)) q) l.
Proof.
  intros S H. change (counted (set_stats (stats q) q) l) in H. revert H. generalize (stats q). induction S as [| [name n] settings Hn S IH]; intros x H; [exact H |].
  cbn [fold_left]. apply IH. intros k. specialize (H k). cbn [stats set_stats] in *. destruct (decide (name = k)) as [<- | D]; [| rewrite lookup_insert_ne by exact D; exact H].
  rewrite lookup_insert_eq. cbn in Hn. destruct (x !! name); cbn; lia.
Qed.
Lemma handle_counted settings a q l : small settings -> counted q (done [a] ++ l) ->
  exists q' r, handle_event (ar_now a) (ar_instant a) (ar_jitter a) settings (ar_event a) q = Some (q', r) /\ counted q' l.
Proof.
  destruct a as [e now instant jitter]. intros S H. destruct e as [| id name st | p | |]; cbn in H |- *.
  - eauto.
  - exact (report_counted now instant jitter settings id name st q l H).
  - eauto.
  - do 2 eexists. split; [reflexivity | apply reload_counted; assumption].
  - eauto.
Qed.
Lemma handle_all_counted settings arrivals q l r : small settings -> counted q (done arrivals ++ l) ->
  exists q' r', handle_events settings arrivals q r = Some (q', r') /\ counted q' l.
Proof.
  intros S. revert q r. induction arrivals as [| a arrivals IH]; intros q r H; [exists q, r; auto |]. cbn [handle_events].
  destruct (handle_counted settings a q (done arrivals ++ l) S) as (q1 & r1 & E & C).
  { replace (done [a] ++ done arrivals ++ l) with (done (a :: arrivals) ++ l); [exact H |].
    unfold done. cbn. destruct (match ar_event a with WorkerDone _ _ _ => _ | _ => _ end); reflexivity. }
  rewrite E. apply IH, C.
Qed.

Lemma dispatch_counted instant l q r : (forall name, threads name < 2 ^ 64) -> counted q r ->
  let '(q', started) := dispatch threads instant l q in
  counted q' (map key_of started ++ r) /\
  forall name, limited q name r \/ In name (map snd started) -> limited q' name (map key_of started ++ r).
Proof.
  intros T. revert q r. induction l as [| e l IH]; intros q r C; [split; [exact C | intros name [H | []]; exact H] |]. cbn [dispatch].
  set (s := match stats q !! e.2 with Some s => s | None => stats_new instant (threads e.2) end).
  assert (Hs : in_flight s = running_in e.2 r /\ in_flight s < 2 ^ 64 /\ max_in_flight s < 2 ^ 64).
  { pose proof (C e.2) as H. unfold s. destruct (stats q !! e.2); [exact H |]. cbn. specialize (T e.2). lia. }
  destruct (has_capacity s) eqn:Cap.
  - unfold has_capacity in Cap. apply Z.ltb_lt in Cap. pose proof (running_nonneg e.2 r) as P.
    set (s' := MkStats (add64 (in_flight s) 1) (max_in_flight s) (last_warning s)).
    assert (F : in_flight s' = in_flight s + 1) by (cbn; unfold add64; rewrite wrap_small by (unfold in_width; lia); reflexivity).
    assert (K : counted (set_stats (<[e.2 := s']> (stats q)) q) (key_of e :: r)).
    { intros n. rewrite running_cons. cbn [stats set_stats key_of snd]. specialize (C n). destruct (decide (e.2 = n)) as [<- | D].
      - rewrite lookup_insert_eq, bytes_eqb_refl, F. cbn. lia.
      - rewrite lookup_insert_ne by exact D. rewrite (proj2 (bytes_eqb_neq e.2 n) D). exact C. }
    assert (L : forall n, limited q n r \/ n = e.2 -> limited (set_stats (<[e.2 := s']> (stats q)) q) n (key_of e :: r)).
    { intros n H. unfold limited. cbn [stats set_stats]. rewrite running_cons. cbn [key_of snd]. destruct (decide (e.2 = n)) as [<- | D].
      - exists s'. rewrite lookup_insert_eq, bytes_eqb_refl. cbn. split; [reflexivity | lia].
      - rewrite lookup_insert_ne by exact D. rewrite (proj2 (bytes_eqb_neq e.2 n) D). destruct H as [H | ->]; [exact H | contradiction]. }
    specialize (IH _ _ K). destruct (dispatch threads instant l _) as [q' started]. destruct IH as [IH1 IH2].
    assert (Pm : Permutation (map key_of started ++ key_of e :: r) (map key_of (e :: started) ++ r)) by (symmetry; apply Permutation_middle).
    split; [exact (counted_perm _ _ _ Pm IH1) |]. intros n H. assert (G : limited q' n (map key_of started ++ key_of e :: r)).
    { apply IH2. destruct H as [H | [<- | H]]; [left; apply L; left; exact H | left; apply L; right; reflexivity | right; exact H]. }
    destruct G as (x & X & Lx). exists x. split; [exact X |]. rewrite <- (running_perm n _ _ Pm). exact Lx.
  - set (w := if BACK_PRESSURE_WARN_INTERVAL <=? instant - last_warning s then instant else last_warning s).
    set (q1 := set_locked (delete (key_of e) (locked q)) (set_stats (<[e.2 := MkStats (in_flight s) (max_in_flight s) w]> (stats q)) q)).
    assert (K : counted q1 r).
    { intros n. cbn [stats set_stats set_locked q1]. destruct (decide (e.2 = n)) as [<- | D]; [rewrite lookup_insert_eq; exact Hs |].
      rewrite lookup_insert_ne by exact D. apply C. }
    specialize (IH q1 r K). destruct (dispatch threads instant l q1) as [q' started]. destruct IH as [IH1 IH2]. split; [exact IH1 |].
    intros n H. apply IH2. destruct H as [(x & X & Lx) | H]; [left | right; exact H]. unfold limited. cbn [stats set_stats set_locked q1].
    destruct (decide (e.2 = n)) as [<- | D]; [| rewrite lookup_insert_ne by exact D; eauto]. rewrite lookup_insert_eq. eexists. split; [reflexivity |]. cbn.
    unfold s. rewrite X. exact Lx.
Qed.

Lemma scan_event_stats now e q next : stats (scan_event now e q next).1.1 = stats q.
Proof. unfold scan_event. case_match; [| reflexivity]. destruct (locked q !! key_of e); [case_if |]; reflexivity. Qed.
Lemma scan_stats now l q ms next : stats (scan now l q ms next).1.1 = stats q.
Proof.
  revert q ms next. induction l as [| e l IH]; intros q ms next; [reflexivity |]. cbn. case_if; [| reflexivity].
  pose proof (scan_event_stats now e q next) as S. destruct (scan_event now e q next) as [[q1 add] n]. rewrite IH. exact S.
Qed.

Lemma process_counted c shuffle store q r : (forall name, threads name < 2 ^ 64) -> counted q r ->
  let '(q', started) := process threads c shuffle store q in
  counted q' (map key_of started ++ r) /\ forall name, In name (map snd started) -> limited q' name (map key_of started ++ r).
Proof.
  intros T C. unfold process, next_event.
  match goal with |- context [scan ?a ?b ?d ?e ?f] => pose proof (scan_stats a b d e f) as S; destruct (scan a b d e f) as [[q1 ms] next] end. cbn in S.
  assert (C1 : counted q1 r) by (exact (counted_stats q q1 r S C)).
  match goal with |- context [dispatch threads ?i ?l q1] => pose proof (dispatch_counted i l q1 r T C1) as D; destruct (dispatch threads i l q1) as [q2 started] end.
  destruct D as [D1 D2]. split; [exact D1 | intros name H; apply D2; right; exact H].
Qed.

Lemma round_counted c shuffle settings store arrivals instant q rest : (forall name, threads name < 2 ^ 64) -> small settings ->
  counted q (done arrivals ++ rest) -> exists q' started, round threads c shuffle settings store arrivals instant q = Some (q', started) /\
  counted q' (map key_of started ++ rest) /\ forall name, In name (map snd started) -> limited q' name (map key_of started ++ rest).
Proof.
  intros T S C. unfold round.
  assert (H : exists q1 r1, match arrivals with [] => Some (q, true) | _ => handle_events settings arrivals q false end = Some (q1, r1) /\ counted q1 rest).
  { destruct arrivals as [| a l]; [exists q, true; auto | apply handle_all_counted; assumption]. }
  destruct H as (q1 & r1 & -> & C1). destruct (is_paused q1); [do 2 eexists; split; [reflexivity |]; split; [exact C1 | intros name []] |].
  destruct (r1 || _); [| do 2 eexists; split; [reflexivity |]; split; [exact C1 | intros name []]].
  pose proof (process_counted c shuffle store q1 rest T C1) as P. destruct (process threads c shuffle store q1) as [q' started]. eauto.
Qed.

(** C9: Workers are counted and limited.  Through all rounds of the manager,
    with workers that report in any order, settings that are reloaded, pauses
    and reads of the store that fail, what is in flight in a queue is the
    number of its workers that have not reported; so a report finds its queue
    and the counter does not wrap, and a queue in which a worker is started
    has no more of them than its settings allow. *)
Theorem workers_limited (start : Z) (st : State) : (forall name, threads name < 2 ^ 64) -> manager_reachable start st ->
  (forall name s, stats (manager st) !! name = Some s -> in_flight s = running_in name (running st)) /\
  forall c shuffle settings store arrivals instant rest, small settings -> Permutation (running st) (done arrivals ++ rest) ->
    exists q' started, round threads c shuffle settings store arrivals instant (manager st) = Some (q', started) /\
      forall name, In name (map snd started) -> limited q' name (map key_of started ++ rest).
Proof.
  intros T R. assert (C : counted (manager st) (running st)).
  { unfold manager_reachable in R. remember (MkState (queue_new start) []) as s0 eqn:E. assert (C0 : counted (manager s0) (running s0)) by (subst; intros name; reflexivity).
    clear E. induction R as [| x y z S R IH]; [exact C0 |]. apply IH. destruct S as [c shuffle settings store arrivals instant q q' l rest started Sm P Ro].
    cbn in *. destruct (round_counted c shuffle settings store arrivals instant q rest T Sm (counted_perm _ _ _ P C0)) as (q2 & st2 & E & K & _).
    rewrite Ro in E. injection E as <- <-. exact K. }
  split.
  - intros name s H. specialize (C name). rewrite H in C. apply C.
  - intros c shuffle settings store arrivals instant rest Sm P.
    destruct (round_counted c shuffle settings store arrivals instant (manager st) rest T Sm (counted_perm _ _ _ P C)) as (q' & started & E & _ & L). eauto.
Qed.
End Counting.

(** ** Events are not overlooked *)

Section Covering.
Variable threads : list Z -> Z.

(** No worker more fits in the queue. *)
Definition full (q : Queue) (name : list Z) : Prop := exists s, stats q !! name = Some s /\ has_capacity s = false.
(** A lock of the manager holds the event back until it expires. *)
Definition held_back (now : Z) (q : Queue) (e : QueuedMessage) (until : Z) : Prop :=
  exists l, locked q !! key_of e = Some l /\ now < lock_expires l /\ lock_expires l = until.

(** The locks during a scan are those before it, or of events to be tried. *)
Definition locks_known (q0 q : Queue) (ms : list QueuedMessage) : Prop := forall k l, locked q !! k = Some l ->
  (exists l0, locked q0 !! k = Some l0 /\ lock_expires l0 = lock_expires l) \/ exists e, In e ms /\ key_of e = k.
Definition tried (ms : list QueuedMessage) (e : QueuedMessage) : Prop := exists e', In e' ms /\ key_of e' = key_of e.

Lemma scan_event_covers now q0 q e ms next : locks_known q0 q ms ->
  let '(q', add, next') := scan_event now e q next in
  let ms' := if add : bool then ms ++ [e] else ms in
  locks_known q0 q' ms' /\ next' <= next /\
  (tried ms' e \/ full q e.2 \/ exists until, held_back now q0 e until /\ next' <= until).
Proof.
  intros K. unfold scan_event.
  assert (L : forall x (b : bool), (exists l0, locked q0 !! key_of e = Some l0 /\ lock_expires l0 = x) \/ tried (if b then ms ++ [e] else ms) e ->
    locks_known q0 (set_locked (<[key_of e := MkLocked x (locked_revision q)]> (locked q)) q) (if b then ms ++ [e] else ms)).
  { intros x b H k l. cbn [locked set_locked]. destruct (decide (key_of e = k)) as [<- | D].
    - rewrite lookup_insert_eq. intros [= <-]. exact H.
    - rewrite lookup_insert_ne by exact D. intros E. destruct (K k l E) as [A | (e' & A & B)]; [left; exact A | right].
      exists e'. split; [destruct b; [apply in_or_app; left |]; exact A | exact B]. }
  assert (T : tried (ms ++ [e]) e) by (exists e; split; [apply in_or_app; right; left; reflexivity | reflexivity]).
  destruct (match stats q !! e.2 with Some s => has_capacity s | None => true end) eqn:Cap.
  - destruct (locked q !! key_of e) as [l |] eqn:E; [| split_and!; [apply (L _ true); right; exact T | lia | left; exact T]].
    destruct (lock_expires l <=? now) eqn:X; [split_and!; [apply (L _ true); right; exact T | lia | left; exact T] |]. apply Z.leb_gt in X.
    assert (N : (if lock_expires l <? next then lock_expires l else next) <= Z.min next (lock_expires l)) by (destruct (lock_expires l <? next) eqn:Y; lia).
    split_and!; [| lia |]; destruct (K _ _ E) as [(l0 & A & B) | A].
    + apply (L _ false). left. eauto.
    + apply (L _ false). right. exact A.
    + right. right. exists (lock_expires l). split; [exists l0; split_and!; [exact A | lia | exact B] | lia].
    + left. exact A.
  - split_and!; [exact K | lia |]. right. left. destruct (stats q !! e.2) as [s |] eqn:S; [exists s; auto | discriminate].
Qed.

Lemma tried_more ms l e : tried ms e -> tried (ms ++ l) e.
Proof. intros (e' & A & B). exists e'. split; [apply in_or_app; left; exact A | exact B]. Qed.

(** After a scan of events in their order. *)
Lemma scan_covers now q0 l q ms next : StronglySorted (fun a b => a.1.1 <= b.1.1) l -> locks_known q0 q ms ->
  let '(q', ms', next') := scan now l q ms next in
  next' <= next /\ (exists more, ms' = ms ++ more) /\
  forall e, In e l ->
    (e.1.1 <= now -> tried ms' e \/ full q e.2 \/ exists until, held_back now q0 e until /\ next' <= until) /\ (now < e.1.1 -> next' <= e.1.1).
Proof.
  intros S. revert q ms next. induction S as [| e l S IH Hd]; intros q ms next K; [cbn; split_and!; [lia | exists []; rewrite app_nil_r; reflexivity | intros e []] |].
  cbn [scan]. destruct (e.1.1 <=? now) eqn:D.
  - apply Z.leb_le in D. pose proof (scan_event_covers now q0 q e ms next K) as C. pose proof (scan_event_stats now e q next) as St.
    destruct (scan_event now e q next) as [[q1 add] next1]. cbn in St. destruct C as (K1 & N1 & C1).
    specialize (IH q1 (if add then ms ++ [e] else ms) next1 K1). destruct (scan now l q1 _ next1) as [[q2 ms2] next2].
    destruct IH as (N2 & (more & M2) & C2). split_and!; [lia | destruct add; subst ms2; [rewrite <- app_assoc |]; eauto |].
    intros x [<- | Hx].
    + split; [intros _ | lia]. destruct C1 as [T | [F | (until & H & U)]]; [left; rewrite M2; apply tried_more, T | right; left; exact F | right; right; exists until; split; [exact H | lia]].
    + destruct (C2 x Hx) as [A B]. split; [intros Dx | exact B]. destruct (A Dx) as [T | [(s & F) | H]]; [left; exact T | right; left; exists s; rewrite <- St; exact F | right; right; exact H].
  - apply Z.leb_gt in D. rewrite List.Forall_forall in Hd.
    assert (N : (if e.1.1 <? next then e.1.1 else next) <= Z.min next e.1.1) by (destruct (e.1.1 <? next) eqn:Y; lia).
    split_and!; [lia | exists []; rewrite app_nil_r; reflexivity |]. intros x [<- | Hx]; [split; lia |]. specialize (Hd x Hx). cbn in Hd. split; lia.
Qed.

(** A message is started, or its queue is full. *)
Lemma dispatch_starts instant l q : let '(q', started) := dispatch threads instant l q in
  (forall name, full q name -> full q' name) /\ forall e, In e l -> In e started \/ full q' e.2.
Proof.
  revert q. induction l as [| e l IH]; intros q; [cbn; split; [auto | intros e []] |]. cbn [dispatch].
  set (s := match stats q !! e.2 with Some s => s | None => stats_new instant (threads e.2) end).
  assert (Fs : forall s' q1, stats q1 = <[e.2 := s']> (stats q) -> (has_capacity s = false -> has_capacity s' = false) -> forall name, full q name -> full q1 name).
  { intros s' q1 E H name (x & X & Cx). unfold full. rewrite E. destruct (decide (e.2 = name)) as [<- | D]; [| rewrite lookup_insert_ne by exact D; eauto].
    exists s'. rewrite lookup_insert_eq. split; [reflexivity |]. apply H. unfold s. rewrite X. exact Cx. }
  destruct (has_capacity s) eqn:Cap.
  - match goal with |- context [dispatch threads instant l ?q1] => specialize (IH q1); assert (M : forall name, full q name -> full q1 name) by
      (eapply Fs; [reflexivity | discriminate]); destruct (dispatch threads instant l q1) as [q' started] end.
    destruct IH as [IH1 IH2]. split; [auto |]. intros x [<- | Hx]; [left; left; reflexivity |]. destruct (IH2 x Hx); [left; right; assumption | right; assumption].
  - match goal with |- context [dispatch threads instant l ?q1] => specialize (IH q1); assert (M : forall name, full q name -> full q1 name) by
      (eapply Fs; [reflexivity | intros _; exact Cap]); assert (Fe : full q1 e.2) by (eexists; cbn [stats set_stats set_locked]; rewrite lookup_insert_eq; split; [reflexivity | exact Cap]);
      destruct (dispatch threads instant l q1) as [q' started] end.
    destruct IH as [IH1 IH2]. split; [auto |]. intros x [<- | Hx]; [right; auto |]. exact (IH2 x Hx).
Qed.

(** C10: No event is overlooked.  When the manager looks at the store, each
    event that is due is started, or another one of its message and queue is,
    or its queue is full, or the manager holds it back and wakes up when that
    ends; and the manager wakes up no later than the next event is due. *)
Theorem due_events_covered (c : Clocks) (shuffle : list QueuedMessage -> list QueuedMessage) (store : list QueuedMessage) (q : Queue) (e : QueuedMessage) :
  StronglySorted (fun a b => a.1.1 <= b.1.1) store -> (forall l, Permutation (shuffle l) l) ->
  0 <= scanned_at c -> scanned_at c + QUEUE_REFRESH < 2 ^ 64 -> In e store ->
  let '(q', started) := process threads c shuffle store q in
  let wakes_by t := next_refresh q' <= slept_at c + from_secs (Z.max 0 (t - unlocked_at c)) in
  (e.1.1 <= scanned_at c -> tried started e \/ full q' e.2 \/ exists until, held_back (scanned_at c) q e until /\ wakes_by until) /\
  (scanned_at c < e.1.1 -> wakes_by e.1.1).
Proof.
  intros S P N0 N1 He. unfold process, next_event. set (now := scanned_at c) in *.
  assert (W : add64 now QUEUE_REFRESH = now + QUEUE_REFRESH) by (unfold add64; rewrite wrap_small; [reflexivity | unfold in_width, QUEUE_REFRESH in *; lia]).
  rewrite W. set (q0 := MkQueue _ _ _ _ _). set (l := List.filter (fun x : Z * Z * list Z => x.1.1 <=? now + QUEUE_REFRESH) store).
  assert (Sl : StronglySorted (fun a b => a.1.1 <= b.1.1) l).
  { unfold l. clear - S. induction S as [| x l S IH H]; cbn; [constructor |]. case_if; [| exact IH]. constructor; [exact IH |].
    rewrite List.Forall_forall in H |- *. intros y Hy. apply filter_In in Hy as [Hy _]. exact (H y Hy). }
  pose proof (scan_covers now q0 l q0 [] (now + QUEUE_REFRESH) Sl ltac:(intros k x H; left; eauto)) as C.
  pose proof (scan_stats now l q0 [] (now + QUEUE_REFRESH)) as St.
  destruct (scan now l q0 [] (now + QUEUE_REFRESH)) as [[q1 ms] next]. cbn in St. destruct C as (Cn & _ & C).
  set (ms' := if (3 <? length ms)%nat then shuffle ms else ms).
  assert (Pm : forall x, In x ms -> In x ms') by (intros x Hx; unfold ms'; case_if; [apply (Permutation_in x (Permutation_sym (P ms))); exact Hx | exact Hx]).
  pose proof (dispatch_starts (dispatched_at c) ms' q1) as D. destruct (dispatch threads (dispatched_at c) ms' q1) as [q2 started]. destruct D as [D1 D2].
  assert (Wk : forall t, next <= t -> slept_at c + from_secs (Z.max 0 (next - unlocked_at c)) <= slept_at c + from_secs (Z.max 0 (t - unlocked_at c))) by (unfold from_secs; lia).
  cbv beta iota zeta. cbn [next_refresh set_next_refresh]. split.
  - intros Due. assert (Hl : In e l) by (apply filter_In; split; [exact He | apply Z.leb_le; unfold QUEUE_REFRESH; lia]).
    destruct (C e Hl) as [A _]. destruct (A Due) as [(x & Hx & K) | [(s & F & Cs) | (until & H & U)]].
    + destruct (D2 x (Pm x Hx)) as [Y | Y]; [left; exists x; auto | right; left]. replace e.2 with x.2 by (unfold key_of in K; congruence). exact Y.
    + right. left. apply D1. exists s. split; [rewrite St; exact F | exact Cs].
    + right. right. exists until. split; [exact H | exact (Wk until U)].
  - intros Due. apply Wk. destruct (e.1.1 <=? now + QUEUE_REFRESH) eqn:X; [| apply Z.leb_gt in X; lia].
    assert (Hl : In e l) by (apply filter_In; split; [exact He | exact X]). destruct (C e Hl) as [_ B]. exact (B Due).
Qed.
End Covering.

(** ** Runs *)

Module Demo.
Definition one_thread (name : list Z) : Z := 1.
Definition noon : Clocks := MkClocks 1000 5000 1000 9000.
(** Two messages for one queue that are due, and one that will be. *)
Definition first : QueuedMessage := (900, 1, s#"local").
Definition second : QueuedMessage := (950, 2, s#"local").
Definition later : QueuedMessage := (1100, 3, s#"remote").
Definition store : list QueuedMessage := [first; second; later].
Definition at_noon : Queue * list QueuedMessage := process one_thread noon (fun l => rev l) store (queue_new 0).
Definition reports (l : list QueueEvent) : list Arrival := map (fun e => MkArrival e 1001 10000 7) l.

Lemma workers_limited_witness :
  snd at_noon = [first] /\
  exists q' started, round one_thread noon (fun l => rev l) [] store (reports [WorkerDone 1 s#"local" Deferred_]) 10000 (fst at_noon) = Some (q', started) /\
    map snd started = [s#"local"] /\ limited q' s#"local" (map key_of started ++ []).
Proof.
  split; [vm_compute; reflexivity |].
  assert (R : manager_reachable one_thread 0 (MkState (fst at_noon) (map key_of (snd at_noon)))).
  { apply rtc_once. replace (map key_of (snd at_noon)) with (map key_of (snd at_noon) ++ []) by apply app_nil_r.
    apply (step_round one_thread noon (fun l => rev l) [] store [] 0 (queue_new 0) (fst at_noon) [] [] (snd at_noon));
      [constructor | constructor | vm_compute; reflexivity]. }
  destruct (workers_limited one_thread 0 (MkState (fst at_noon) (map key_of (snd at_noon))) ltac:(intros; reflexivity) R) as [_ H].
  destruct (H noon (fun l => rev l) [] store (reports [WorkerDone 1 s#"local" Deferred_]) 10000 []) as (q' & started & E & L); [constructor | vm_compute; reflexivity |].
  exists q', started. split; [exact E |].
  assert (M : map snd started = [s#"local"]).
  { vm_compute in E. injection E as _ <-. reflexivity. }
  split; [exact M | apply L; rewrite M; left; reflexivity].
Defined.

Lemma due_events_covered_witness :
  (tried (snd at_noon) second \/ full (fst at_noon) s#"local" \/ exists until, held_back 1000 (queue_new 0) second until /\ next_refresh (fst at_noon) <= 9000 + from_secs (Z.max 0 (until - 1000))) /\
  next_refresh (fst at_noon) <= 9000 + from_secs 100.
Proof.
  assert (S : StronglySorted (fun a b : QueuedMessage => a.1.1 <= b.1.1) store) by (repeat constructor; cbn; lia).
  assert (P : forall l : list QueuedMessage, Permutation (rev l) l) by (intros; symmetry; apply Permutation_rev).
  split.
  - apply (due_events_covered one_thread noon (fun l => rev l) store (queue_new 0) second S P); cbn; [lia | unfold QUEUE_REFRESH; lia | tauto | lia].
  - apply (due_events_covered one_thread noon (fun l => rev l) store (queue_new 0) later S P); cbn; [lia | unfold QUEUE_REFRESH; lia | tauto | lia].
Defined.

(** *** What the model shows *)

(** With one thread, the second message waits for it; the worker of the first
    one reports that it is done, and the manager goes back to sleep until the
    next event of the future, or for five minutes. *)
Lemma completed_does_not_rescan : exists q,
  round one_thread noon (fun l => rev l) [] store (reports [WorkerDone 1 s#"local" Completed_]) 10000 (fst at_noon) = Some (q, []) /\
  option_map has_capacity (stats q !! s#"local") = Some true /\ locked q = ∅ /\ next_refresh q = 9000 + from_secs 100.
Proof. eexists. split; [vm_compute; reflexivity |]. vm_compute. auto. Qed.

(** While the queue is full its events are skipped before their locks are
    marked, so a look at the store drops the lock of the worker that runs;
    with a thread more, the next look starts a second worker for its event. *)
Definition looked : Queue * list QueuedMessage := process one_thread noon (fun l => rev l) [first] (fst at_noon).
Lemma running_lock_dropped :
  locked (fst at_noon) !! key_of first = Some (MkLocked (1000 + INFINITE_LOCK) 1) /\ snd looked = [] /\ locked (fst looked) = ∅ /\
  option_map snd (round one_thread noon (fun l => rev l) [(s#"local", 2)] [first] (reports [ReloadSettings; Refresh]) 10000 (fst looked)) = Some [first].
Proof. vm_compute. auto. Qed.
End Demo.
