(* ===== verification/QueueGuarantees.v ===== *)
(** * What the queue guarantees

    Whatever the interleaving of workers, and whatever the network, the
    settings and the failures of writes do: no message is forgotten, a
    recipient is tried by one worker at a time, and an outcome is final.  And
    what happens when a task outlives its lock or the store does not answer. *)

From stdpp Require Import gmap relations.
From S2P Require Import Prelude Decimals Utf8 Text Milter SmtpData SmtpQueue QueueSpool QueueWorkers QueueSystem.

Section Guarantees.
Context {Cr : Crates}.

(** C6: No message is forgotten.  As long as reads of the store do not fail,
    every message in the queue with a recipient that waits has an event, so
    the manager comes back to it: after any interleaving of arrivals and
    workers, with panics, failed or refused writes and locks that expire. *)
Theorem no_message_forgotten (lasting : bool) (s : System) (id : Z) (m : Message) :
  reachable lasting true s -> messages (spool s) !! id = Some m -> existsb is_pending (recipients m) = true ->
  exists due q, (due, id, q) ∈ events (spool s).
Proof.
  intros R H P. assert (K : remembered (spool s)).
  { apply (reachable_ind lasting true (fun s => remembered (spool s))); [exact empty_remembers | | exact R].
    intros x y. exact (step_remembers lasting true x y eq_refl). }
  destruct (K id m H P) as ([[due i] q] & He & <-). eauto.
Qed.

Lemma reachable_coherent reliable s : reachable true reliable s -> coherent s.
Proof.
  apply (reachable_ind true reliable coherent); [exact empty_coherent |]. intros x y. exact (step_coherent true reliable x y eq_refl).
Qed.

(** C7: One attempt at a time.  As long as no task outlives its lock, two
    workers never hold copies of a message in which both would try the same
    recipient, though several may work on it in different queues. *)
Theorem one_attempt_at_a_time (reliable : bool) (s : System) (w1 w2 : nat) (e1 e2 : QueuedMessage) (c1 c2 : Message) (i : nat) :
  reachable true reliable s -> workers s !! w1 = Some (Holding e1 c1) -> workers s !! w2 = Some (Holding e2 c2) -> w1 <> w2 ->
  e1.1.2 = e2.1.2 -> ~ (owned e1.2 c1 i /\ owned e2.2 c2 i).
Proof.
  intros R H1 H2 N Id [(a & Ha & A) (b & Hb & B & Q)]. pose proof (reachable_coherent reliable s R) as I.
  assert (D : e1.2 <> e2.2).
  { intros Q'. apply N. apply (held_once s I w1 w2 (key_of e1)); [exists (Holding e1 c1); auto | exists (Holding e2 c2); split; [exact H2 |]].
    unfold key_of. congruence. }
  destruct (apart s I w1 w2 e1 e2 c1 c2 H1 H2 Id D) as [_ C]. destruct (C i a b Ha Hb A) as [_ X]. contradiction.
Qed.

(** C8: An outcome is final.  As long as no task outlives its lock, a
    recipient that the store has as delivered or failed is that recipient,
    delivered or failed, after every step that keeps the message, although
    workers of other queues write back copies they read before. *)
Theorem outcome_is_final (reliable : bool) (s s' : System) (id : Z) (m m' : Message) (i : nat) (r : Recipient) :
  reachable true reliable s -> step true reliable s s' -> messages (spool s) !! id = Some m -> messages (spool s') !! id = Some m' ->
  recipients m !! i = Some r -> is_pending r = false ->
  exists r', recipients m' !! i = Some r' /\ raddress r' = raddress r /\ is_pending r' = false.
Proof.
  intros R T H H' Hr P. pose proof (reachable_coherent reliable s R) as I.
  assert (Same : messages (spool s') !! id = messages (spool s) !! id -> exists r', recipients m' !! i = Some r' /\ raddress r' = raddress r /\ is_pending r' = false).
  { intros E. rewrite E, H in H'. injection H' as <-. exists r. auto. }
  destruct T as [id0 y sp F W | | | | | | | w e c O n wr dsn sp Hw L D B | | |]; try (apply Same; reflexivity).
  - apply Same. destruct (queue_effect id0 y (spool s)) as (x & X & _ & M). rewrite W in X. injection X as <-. cbn. rewrite M.
    apply lookup_insert_ne. intros ->. apply F. exact (stored_used s I id m H).
  - destruct (task_effect _ _ _ _ _ _ _ _ L D B) as (k & E & [(x & M & S) | M]); cbn in H', Same; rewrite M in H', Same.
    + destruct (decide (e.1.2 = id)) as [Id | N]; [| apply Same, lookup_insert_ne, N]. rewrite Id, lookup_insert_eq in H'. injection H' as <-.
      rewrite Id in S. rewrite <- Id in H, S.
      destruct (current s I w e c m Hw H) as [S1 _].
      destruct (shape_at m x i r (shape_trans _ _ _ (shape_sym _ _ S1) (written_shape s w e c k x I Hw E S)) Hr) as (b & Hb & X).
      exists b. split_and!; [exact Hb | exact X |].
      exact (written_final s w e c k x I Hw E S m i r b H Hr Hb P).
    + destruct (decide (e.1.2 = id)) as [<- | N]; [rewrite lookup_delete_eq in H'; discriminate | apply Same, lookup_delete_ne, N].
Qed.
End Guarantees.

(** ** Runs *)

Section Runs.
Context {Cr : Crates}.

(** What a worker is asked to do next, or what befalls the system. *)
Inductive Move :=
| Arrive (id : Z) (m : Message) | Dispatch (w : nat) (e : QueuedMessage) | Lock (w : nat) | Read (w : nat) | Finish (w : nat)
| Unreadable (w : nat) | Expire (k : QueueKey).

Variables (O : Outbound) (lasting reliable : bool).

Definition move (x : Move) (s : System) : option System :=
  match x with
  | Arrive id m =>
      if decide (id ∈ used s) then None
      else match write_batch (queue_batch id m) (spool s) with
           | Some sp => Some (MkSystem sp (locks s) (workers s) ({[id]} ∪ used s))
           | None => None
           end
  | Dispatch w e =>
      match workers s !! w with
      | Some _ => None
      | None => if decide (e ∈ events (spool s)) then Some (with_worker w (Started e) s) else None
      end
  | Lock w =>
      match workers s !! w with
      | Some (Started e) =>
          if decide (key_of e ∈ locks s) then Some (MkSystem (spool s) (locks s) (delete w (workers s)) (used s))
          else Some (MkSystem (spool s) ({[key_of e]} ∪ locks s) (<[w := Locked e]> (workers s)) (used s))
      | _ => None
      end
  | Read w =>
      match workers s !! w with
      | Some (Locked e) =>
          match messages (spool s) !! e.1.2 with
          | Some m => Some (with_worker w (Holding e m) s)
          | None => Some (finished w e (forget_event e (spool s)) s)
          end
      | _ => None
      end
  | Finish w =>
      match workers s !! w with
      | Some (Holding e m) =>
          match deliver_task O e.2 m with
          | Some (m', wr, _) =>
              match write_batch (task_batch e m m' wr) (spool s) with
              | Some sp => Some (finished w e sp s)
              | None => Some (finished w e (spool s) s)
              end
          | None => Some (MkSystem (spool s) (locks s) (delete w (workers s)) (used s))
          end
      | _ => None
      end
  | Unreadable w =>
      match workers s !! w with
      | Some (Locked e) => if reliable then None else Some (finished w e (forget_event e (spool s)) s)
      | _ => None
      end
  | Expire k => if lasting then None else Some (MkSystem (spool s) (locks s ∖ {[k]}) (workers s) (used s))
  end.

Fixpoint run (l : list Move) (s : System) : option System :=
  match l with [] => Some s | x :: l => match move x s with Some s => run l s | None => None end end.

Hypothesis L : Lawful O.

Lemma move_step x s s' : move x s = Some s' -> step lasting reliable s s'.
Proof.
  destruct x as [id m | w e | w | w | w | w | k]; cbn [move].
  - case_decide as D; [discriminate |]. destruct (write_batch _ _) as [sp |] eqn:W; [| discriminate]. intros [= <-]. exact (step_queued _ _ s id m sp D W).
  - destruct (workers s !! w) eqn:Hw; [discriminate |]. case_decide as D; [| discriminate]. intros [= <-]. exact (step_dispatched _ _ s w e Hw D).
  - destruct (workers s !! w) as [[e | |] |] eqn:Hw; try discriminate. case_decide as D; intros [= <-]; [exact (step_busy _ _ s w e Hw) | exact (step_locked _ _ s w e Hw D)].
  - destruct (workers s !! w) as [[| e |] |] eqn:Hw; try discriminate. destruct (messages (spool s) !! _) as [m |] eqn:M; intros [= <-];
      [exact (step_read _ _ s w e m Hw M) | exact (step_missing _ _ s w e Hw M)].
  - destruct (workers s !! w) as [[| | e m] |] eqn:Hw; try discriminate. destruct (deliver_task O e.2 m) as [[[m' wr] dsn] |] eqn:T.
    + destruct (write_batch _ _) as [sp |] eqn:W; intros [= <-]; [exact (step_written _ _ s w e m O m' wr dsn sp Hw L T W) | exact (step_failed _ _ s w e m Hw)].
    + intros [= <-]. exact (step_panicked _ _ s w e m O Hw T).
  - destruct (workers s !! w) as [[| e |] |] eqn:Hw; try discriminate. destruct reliable eqn:Re; [discriminate |]. intros [= <-].
    exact (step_unreadable _ _ s w e eq_refl Hw).
  - destruct lasting eqn:La; [discriminate |]. intros [= <-]. exact (step_expired _ _ s k eq_refl).
Qed.

Lemma run_reachable l s : run l empty_system = Some s -> reachable lasting reliable s.
Proof.
  unfold reachable. generalize empty_system. induction l as [| x l IH]; cbn; intros s0; [intros [= <-]; constructor |].
  destruct (move x s0) as [s1 |] eqn:M; [| discriminate]. intros H. econstructor; [exact (move_step x s0 s1 M) | exact (IH s1 H)].
Qed.
End Runs.

Module Demo.
#[local] Existing Instance demo_crates.

(** At [ok] messages are taken; elsewhere they are deferred. *)
Definition accepted : HostResponse := MkHost s#"mx" (MkResponse 250 (2, 0, 0) s#"OK").
Definition deferred : ErrorDetails := MkError s#"mx" (ConnectionError s#"refused").
Definition demo_outbound : Outbound := {|
  strategy_of _ r := MkStrategy [60] [3600] (Ttl 86400) (queue r); sender_limits _ := []; route_of _ _ := 0%nat;
  hash_order l := l;
  outcomes _ := map (fun '(k, idxs) => RDomain (if bytes_eqb (fst (fst k)) s#"ok" then Completed accepted else TemporaryFailure deferred) idxs);
  rfc822_date_of _ := []; clock _ := 1000 |}.
Lemma demo_lawful : Lawful demo_outbound.
Proof.
  constructor; [auto |]. intros m l r i H Hi. apply in_map_iff in H as ([k idxs] & <- & H). exists (k, idxs). auto.
Qed.

Definition to (address q : list Z) : Recipient :=
  MkRecipient address (MkSchedule 1000 0) (MkSchedule 4600 0) (Ttl 86400) q Scheduled 0 None.
Definition letter : Message := MkQueued 1000 [1] s#"me@there" [to s#"ann@ok" s#"local"; to s#"bob@away" s#"remote"] 0 None 0 10 [].
Definition e_local : QueuedMessage := (1000, 7, s#"local").
Definition e_remote : QueuedMessage := (1000, 7, s#"remote").

(** Both queues work on the letter at a time. *)
Definition both : list Move := [Arrive 7 letter; Dispatch 1 e_local; Dispatch 2 e_remote; Lock 1; Lock 2; Read 1; Read 2].
Definition get {A} (x : A) (o : option A) : A := match o with Some y => y | None => x end.
Definition after (lasting reliable : bool) (l : list Move) : System := get empty_system (run demo_outbound lasting reliable l empty_system).
Definition letter_in (s : System) : Message := get (new_message 0 []) (messages (spool s) !! 7).

Lemma after_reachable lasting reliable l s : run demo_outbound lasting reliable l empty_system = Some s -> reachable lasting reliable s.
Proof. exact (run_reachable demo_outbound lasting reliable demo_lawful l s). Qed.

Lemma no_message_forgotten_witness :
  map is_pending (recipients (letter_in (after true true (both ++ [Finish 1; Finish 2])))) = [false; true] /\ exists due q, (due, 7, q) ∈ events (spool (after true true (both ++ [Finish 1; Finish 2]))).
Proof.
  split; [vm_compute; reflexivity |].
  apply (no_message_forgotten true (after true true (both ++ [Finish 1; Finish 2])) 7 (letter_in (after true true (both ++ [Finish 1; Finish 2])))).
  - apply (after_reachable true true (both ++ [Finish 1; Finish 2])). vm_compute. reflexivity.
  - vm_compute. reflexivity.
  - vm_compute. reflexivity.
Defined.

Lemma one_attempt_at_a_time_witness : ~ (owned s#"local" letter 0 /\ owned s#"remote" letter 0).
Proof.
  apply (one_attempt_at_a_time true (after true true both) 1 2 e_local e_remote letter letter 0).
  - apply (after_reachable true true both). vm_compute. reflexivity.
  - vm_compute. reflexivity.
  - vm_compute. reflexivity.
  - discriminate.
  - reflexivity.
Defined.

Lemma outcome_is_final_witness :
  exists r', recipients (letter_in (after true true (both ++ [Finish 1; Finish 2]))) !! 0%nat = Some r' /\ raddress r' = s#"ann@ok" /\ is_pending r' = false.
Proof.
  apply (outcome_is_final true (after true true (both ++ [Finish 1])) (after true true (both ++ [Finish 1; Finish 2])) 7
           (letter_in (after true true (both ++ [Finish 1]))) _ 0 (set_rflags RCPT_DSN_SENT (set_status (Completed accepted) (to s#"ann@ok" s#"local")))).
  - apply (after_reachable true true (both ++ [Finish 1])). vm_compute. reflexivity.
  - apply (move_step demo_outbound true true demo_lawful (Finish 2)). vm_compute. reflexivity.
  - vm_compute. reflexivity.
  - vm_compute. reflexivity.
  - vm_compute. reflexivity.
  - reflexivity.
Defined.
End Demo.

(** ** What the model shows *)

Module Findings.
Import Demo.
#[local] Existing Instance demo_crates.

(** A read that fails is taken for a message that is gone: its event is
    cleared, and the message stays in the store with nothing to wake it. *)
Definition unread : list Move :=
  [Arrive 7 letter; Dispatch 1 e_local; Lock 1; Unreadable 1; Dispatch 1 e_remote; Lock 1; Unreadable 1].
Lemma unread_message_forgotten : forall s, s = after true false unread ->
  reachable true false s /\ messages (spool s) !! 7 = Some letter /\ existsb is_pending (recipients letter) = true /\ events (spool s) = ∅.
Proof.
  intros s ->. split; [apply (after_reachable true false unread); vm_compute; reflexivity | vm_compute; auto].
Qed.

(** A task that outlives its lock is overtaken by another one of its queue. *)
Definition overtaken : list Move :=
  [Arrive 7 letter; Dispatch 1 e_local; Lock 1; Read 1; Dispatch 2 e_local; Expire (7, s#"local"); Lock 2; Read 2].
Lemma overtaken_after_expiry : forall s, s = after false true overtaken ->
  reachable false true s /\ workers s !! 1%nat = Some (Holding e_local letter) /\ workers s !! 2%nat = Some (Holding e_local letter) /\
  owned s#"local" letter 0.
Proof.
  intros s ->. split; [apply (after_reachable false true overtaken); vm_compute; reflexivity |].
  split; [vm_compute; reflexivity |]. split; [vm_compute; reflexivity |]. eexists. repeat split.
Qed.

Definition with_strategy (f : Message -> Recipient -> QueueStrategy) : Outbound := {|
  strategy_of := f; sender_limits _ := []; route_of _ _ := 0%nat; hash_order l := l;
  outcomes := outcomes demo_outbound; rfc822_date_of _ := []; clock _ := 1000 |}.

(** A schedule without waits: the length minus one underflows, and the task
    ends with its lock. *)
Lemma empty_schedule_panics :
  deliver_task (with_strategy (fun _ r => MkStrategy [] [3600] (Ttl 86400) (queue r))) s#"remote" letter = None.
Proof. vm_compute. reflexivity. Qed.

(** A recipient that a failure moves to another queue while a second queue
    waits: the merge leaves the old entry, with its first schedule. *)
Definition moving : Outbound := with_strategy (fun _ r => MkStrategy [60] [3600] (Ttl 86400) s#"slow").
Lemma moved_recipient_not_merged : exists m wr dsn x,
  deliver_task moving s#"remote" letter = Some (m, wr, dsn) /\ wr = WSave /\ is_multi_queue s#"remote" letter = true /\
  map queue (recipients m) = [s#"local"; s#"slow"] /\
  merge_recipients s#"remote" m letter = Some x /\ map queue (recipients x) = [s#"local"; s#"remote"] /\
  map (fun r => inner (retry r)) (recipients x) = [0; 0].
Proof. do 4 eexists. split; [vm_compute; reflexivity |]. vm_compute. repeat split. Qed.

(** A recipient of another queue that expired is reported by a worker that
    does not save it, so it is reported again. *)
Definition expired : Recipient :=
  MkRecipient s#"bob@away" (MkSchedule 1000 0) (MkSchedule 4600 0) (Ttl 0) s#"remote" Scheduled RCPT_NOTIFY_FAILURE None.
Definition half_expired : Message := set_recipients [to s#"ann@away" s#"local"; expired] letter.
Lemma expired_reported_unsaved : exists m t x, is_multi_queue s#"local" half_expired = true /\
  deliver_task demo_outbound s#"local" half_expired = Some (m, WSave, [t]) /\ txt_failed t <> [] /\
  merge_recipients s#"local" m half_expired = Some x /\ recipients x !! 1%nat = Some expired.
Proof. do 3 eexists. split; [vm_compute; reflexivity |]. split; [vm_compute; reflexivity |]. split; [discriminate |]. split; vm_compute; reflexivity. Qed.

(** A message without recipients is stored and has no event. *)
Lemma no_recipients_no_event : forall s, s = after true true [Arrive 7 (set_recipients [] letter)] ->
  messages (spool s) !! 7 = Some (set_recipients [] letter) /\ events (spool s) = ∅.
Proof. intros s ->. vm_compute. auto. Qed.

(** Of several quotas of domains only the first is looked at. *)
Definition full : Spool := MkSpool ∅ ∅ (<[ [9] := 5 ]> ∅) ∅.
Definition quota_a : QueueQuota := MkQuota (fun _ _ => false) (fun _ _ => [8]) None (Some 5).
Definition quota_b : QueueQuota := MkQuota (fun _ _ => true) (fun _ _ => [9]) None (Some 5).
Lemma second_domain_quota_skipped :
  has_quota full (MkQuotas [] [] [quota_b]) letter = None /\ has_quota full (MkQuotas [] [] [quota_a; quota_b]) letter = Some [].
Proof. vm_compute. auto. Qed.

(** The quota of a recipient that is done is given back when the task of its
    queue is saved by a merge, and the reference to it stays in the store. *)
Definition counted : Message :=
  set_metadata [QueueCount [9] 1] (set_recipients [set_status (Completed accepted) (to s#"ann@ok" s#"local"); to s#"bob@away" s#"remote"] letter).
Lemma quota_given_back_twice : forall m ops x, release_quota counted = (m, ops) -> merge_recipients s#"local" m counted = Some x ->
  ops = [AddCount [9] (-1)] /\ snd (release_quota x) = [AddCount [9] (-1)].
Proof. intros m ops x H. vm_compute in H. injection H as <- <-. intros H. vm_compute in H. injection H as <-. vm_compute. auto. Qed.

(** The first notification about an expanded recipient is due after twice the
    time since the epoch. *)
Lemma expanded_notified_late strategy :
  map (fun r => due (notify r)) (recipients (add_expanded_recipient (fun _ r => strategy) 1700000000 s#"ann@ok" (new_message 0 []))) =
  [add64 1700000000 (add64 match s_notify strategy with n :: _ => n | [] => 86400 end 1700000000)].
Proof. reflexivity. Qed.
End Findings.
