(* ===== verification/OutboundClient.v ===== *)
(** * The SMTP client ([crates/smtp/src/outbound/client.rs, error.rs, mod.rs])

    What goes over a connection is a trace of events, and the peer, the network
    and the TLS stack are functions of the trace so far: they answer as they
    like, knowing all that happened.  An operation takes the trace and returns
    its result with the events it adds.  The parsers of replies are
    smtp-proto's. *)

From S2P Require Import Prelude Decimals Utf8 Text IpMask Milter SmtpData SmtpQueue.

(** ** Types *)

(** A wait for bytes ends with the end of the stream, an error, or the
    timeout. *)
Inductive Ending := Eof | ReadError (e : list Z) | ReadElapsed.
Inductive WriteFailure := WriteError (e : list Z) | WriteElapsed.

(* [crates/smtp/src/outbound/error.rs:12-54] ClientError *)
Inductive ClientError :=
| CIo (e : list Z) | CTls (e : list Z) | CBase64 (e : list Z) | CInvalidChallenge | CUnparseableReply
| CUnexpectedReply (r : Response) | CAuthenticationFailed (r : Response) | CInvalidTLSName | CMissingCredentials
| CMissingMailFrom | CMissingRcptTo | CUnsupportedAuthMechanism | CTimeout | CMissingStartTls.

Inductive Severity := PositiveCompletion | PositiveIntermediate | TransientNegativeCompletion | PermanentNegativeCompletion | InvalidSeverity.
(** An error of smtp-proto. *)
Inductive ReplyError := ReplyNeedsMore | ReplyInvalid (code : Z) | ReplyOther.

(* [crates/directory/src/lib.rs:19-29] Credentials *)
Inductive Credentials := Basic (username secret : list Z) | Bearer (token : list Z) (username : option (list Z)).

(** The certificates of a peer are checked against the roots, or not at all. *)
Inductive Connector := PkiVerify | DummyVerify.

(** ** Reports about TLS, whose sending is an event *)

(* [crates/common/src/config/smtp/resolver.rs:47-52] TlsaMatching *)
Inductive TlsaMatching := Full | Sha256 | Sha512.
(* [crates/common/src/config/smtp/resolver.rs:54-60] TlsaEntry *)
Record TlsaEntry := MkTlsaEntry { is_end_entity : bool; is_spki : bool; matching : TlsaMatching; tlsa_data : list Z }.
(* [crates/common/src/config/smtp/resolver.rs:62-67] Tlsa *)
Record Tlsa := MkTlsa { entries : list TlsaEntry; has_end_entities : bool; has_intermediates : bool }.
(* [crates/common/src/config/smtp/resolver.rs:69-76] Mode *)
Inductive Mode := Enforce | Testing | ModeNone.
(* [crates/common/src/config/smtp/resolver.rs:78-83] MxPattern *)
Inductive MxPattern := MxEquals (host : list Z) | MxStartsWith (domain : list Z).
(* [crates/common/src/config/smtp/resolver.rs:85-91] Policy *)
Record Policy := MkPolicy { policy_id : list Z; mode : Mode; policy_mx : list MxPattern; max_age : Z }.

(* [crates/common/src/ipc.rs:155-160] PolicyType *)
Inductive PolicyType := PTlsa (t : option Tlsa) | PSts (p : option Policy) | PNone.
Inductive ResultType :=
| TOther | TStsPolicyInvalid | TStsPolicyFetchError | TValidationFailure | TTlsaInvalid | TDnssecInvalid | TDaneRequired
| TStartTlsNotSupported | TCertificateNotTrusted.
Record FailureDetails := MkFailure {
  result_type : ResultType; failure_mx : option (list Z); failure_ip : option IpAddr; reason_code : option (list Z) }.
(* [crates/common/src/config/smtp/report.rs:69-75] AggregateFrequency *)
Inductive AggregateFrequency := Hourly | Daily | Weekly | Never.
(** The record that asked for reports, as text. *)
(* [crates/common/src/ipc.rs:146-153] TlsEvent *)
Record TlsEvent := MkTlsEvent { te_domain : list Z; te_policy : PolicyType; te_failure : option FailureDetails; te_record : list Z; te_interval : AggregateFrequency }.

(** What happens, in its order: a connection is made to a host; bytes are
    handed to the socket, in the clear or over TLS; bytes are taken from it;
    a handshake is made; a message is handed to the local store; a report is
    scheduled. *)
Inductive Act :=
| Connected (mx : list Z) (ip : IpAddr) (port : Z)
| Wrote (tls : bool) (bytes : list Z)
| Received (tls : bool) (bytes : list Z)
| Handshaken (mx : list Z) (c : Connector)
| HandedOver (rcpts : list nat)
| Reported (e : TlsEvent).
Definition Trace : Type := list Act.

(** smtp-proto, base64, and everything at the other end. *)
Class Wire := {
  severity : Response -> Severity;
  to_mechanism : Z -> list Z;
  response_text_of : Response -> list Z;                         (* its Display *)
  MAX_RESPONSE_LENGTH : Z;
  EXT_CHUNKING : Z; EXT_DSN : Z; EXT_REQUIRE_TLS : Z; EXT_SIZE : Z; EXT_SMTP_UTF8 : Z; EXT_START_TLS : Z;
  AUTH_LOGIN : Z; AUTH_PLAIN : Z; AUTH_XOAUTH2 : Z; AUTH_OAUTHBEARER : Z;
  MAIL_SMTPUTF8 : Z;
  ReplyReceiver : Type; reply_new : ReplyReceiver; reply_from_code : Z -> ReplyReceiver; reply_reset : ReplyReceiver -> ReplyReceiver;
  reply_parse : ReplyReceiver -> list Z -> ReplyReceiver * result Response ReplyError * list Z;
  EhloResponse : Type; ehlo_parse : list Z -> result EhloResponse ReplyError * list Z;
  has_capability : EhloResponse -> Z -> bool; auth_mechanisms : EhloResponse -> Z;
  base64_encode : list Z -> list Z; base64_decode : list Z -> result (list Z) (list Z);
  valid_server_name : list Z -> bool;
  connects : Trace -> option IpAddr -> IpAddr -> Z -> Z -> option ClientError;    (* from, to, port, timeout *)
  writes : Trace -> list Z -> Z -> option WriteFailure;
  arrivals : Trace -> Z -> list (list Z) * Ending;
  handshakes : Trace -> Connector -> list Z -> Z -> option ClientError;
  peer_certificates : Trace -> option (list (list Z));
  get_blob : Trace -> list Z -> result (option (list Z)) unit
}.

(** ** The monad *)

Definition M (A : Type) : Type := Trace -> A * Trace.
Definition tret {A} (x : A) : M A := fun _ => (x, []).
Definition tbind {A B} (m : M A) (f : A -> M B) : M B :=
  fun t => let '(x, l) := m t in let '(y, l') := f x (t ++ l) in (y, l ++ l').
Definition emit (a : Act) : M unit := fun _ => (tt, [a]).
Definition looking {A} (f : Trace -> A) : M A := fun t => (f t, []).

Declare Scope wire_scope.
Delimit Scope wire_scope with wire.
Notation "'let#' x := m 'in' k" := (tbind m (fun x => k)) (at level 200, x pattern, m at level 100, k at level 200) : wire_scope.
Notation "'try#' x := m 'in' k" :=
  (tbind m (fun r => match r with Ok x => k | Err e => tret (Err e) end))
  (at level 200, x name, m at level 100, k at level 200) : wire_scope.
Notation "m ;# k" := (tbind m (fun _ => k)) (at level 199, right associativity) : wire_scope.
#[local] Open Scope wire_scope.

Definition map_err {A E F} (f : E -> F) (r : result A E) : result A F := match r with Ok x => Ok x | Err e => Err (f e) end.
Definition tmap {A B} (f : A -> B) (m : M A) : M B := tbind m (fun x => tret (f x)).

Section Client.
Context {Cr : Crates} {Wi : Wire}.

(** ** Errors *)

(* [crates/smtp/src/outbound/error.rs:114-138] Display for ClientError *)
Definition client_error_text (e : ClientError) : list Z :=
  match e with
  | CIo e => s#"I/O error: " ++ e
  | CTls e => s#"TLS error: " ++ e
  | CBase64 e => s#"Base64 decode error: " ++ e
  | CInvalidChallenge => s#"SMTP authentication error: Invalid challenge"
  | CUnparseableReply => s#"Unparseable SMTP reply"
  | CUnexpectedReply r => s#"Unexpected reply: " ++ response_text_of r
  | CAuthenticationFailed r => s#"Authentication failed: " ++ response_text_of r
  | CInvalidTLSName => s#"Invalid TLS name provided"
  | CMissingCredentials => s#"Missing authentication credentials"
  | CMissingMailFrom => s#"Missing message sender"
  | CMissingRcptTo => s#"Missing message recipients"
  | CUnsupportedAuthMechanism => s#"The server does no support any of the available authentication methods"
  | CTimeout => s#"Connection timeout"
  | CMissingStartTls => s#"STARTTLS extension unavailable"
  end.

(* [crates/smtp/src/outbound/error.rs:65-68] is_positive_completion *)
Definition is_positive_completion (r : Response) : bool := (200 <=? code r) && (code r <=? 299).
(* [crates/smtp/src/outbound/error.rs:90-98] assert_code *)
Definition assert_code (c : Z) (r : Response) : result unit ClientError := if code r =? c then Ok tt else Err (CUnexpectedReply r).

Definition temporary (entity : list Z) (e : Error) : Status := TemporaryFailure (MkError entity e).
Definition permanent (entity : list Z) (e : Error) : Status := PermanentFailure (MkError entity e).
(** Whether a failed reply is final is up to its severity. *)
Definition failed_reply (r : Response) (entity : list Z) (e : Error) : Status :=
  match severity r with PermanentNegativeCompletion => permanent entity e | _ => temporary entity e end.

(* [crates/smtp/src/outbound/mod.rs:45-88] from_smtp_error *)
Definition from_smtp_error (hostname command : list Z) (e : ClientError) : Status :=
  match e with
  | CIo _ | CTls _ | CBase64 _ | CUnparseableReply | CAuthenticationFailed _ | CMissingCredentials | CMissingMailFrom
  | CMissingRcptTo | CTimeout => temporary hostname (ConnectionError (client_error_text e))
  | CUnexpectedReply r => failed_reply r hostname (UnexpectedResponse (trim command) r)
  | CInvalidChallenge | CUnsupportedAuthMechanism | CInvalidTLSName | CMissingStartTls =>
      permanent hostname (ConnectionError (client_error_text e))
  end.

(* [crates/smtp/src/outbound/mod.rs:90-116] from_starttls_error *)
Definition from_starttls_error (hostname : list Z) (r : option Response) : Status :=
  match r with
  | Some r => failed_reply r hostname (UnexpectedResponse s#"STARTTLS" r)
  | None => permanent hostname (TlsError s#"STARTTLS not advertised by host.")
  end.

(* [crates/smtp/src/outbound/mod.rs:118-141] from_tls_error *)
Definition from_tls_error (hostname : list Z) (e : ClientError) : Status :=
  match e with
  | CInvalidTLSName => permanent hostname (TlsError s#"Invalid hostname")
  | CTimeout => temporary hostname (TlsError s#"TLS handshake timed out")
  | CTls e => temporary hostname (TlsError (s#"Handshake failed: " ++ e))
  | CIo e => temporary hostname (TlsError (s#"I/O error: " ++ e))
  | _ => permanent hostname (TlsError s#"Other TLS error")
  end.

(* [crates/smtp/src/outbound/mod.rs:143-148] Status::timeout *)
Definition status_timeout (hostname stage : list Z) : Status := temporary hostname (ConnectionError (s#"Timeout while " ++ stage)).

(** ** Reading and writing *)

(* [crates/smtp/src/outbound/client.rs:34-38] SmtpClient *)
Record Client := MkClient { over_tls : bool; timeout : Z }.
Definition set_timeout (x : Z) (c : Client) : Client := MkClient (over_tls c) x.

(** Inside of a timeout: what went wrong, or that it elapsed. *)
Inductive Wrong := Elapsed | Failed (e : ClientError).
Definition elapsed_is (x : ClientError) (w : Wrong) : ClientError := match w with Elapsed => x | Failed e => e end.

Definition write_all (c : Client) (bytes : list Z) : M (result unit Wrong) :=
  fun t => (match writes t bytes (timeout c) with
            | None => Ok tt
            | Some (WriteError e) => Err (Failed (CIo e))
            | Some WriteElapsed => Err Elapsed
            end, [Wrote (over_tls c) bytes]).

Definition end_error (e : Ending) : Wrong :=
  match e with Eof => Failed CUnparseableReply | ReadError e => Failed (CIo e) | ReadElapsed => Elapsed end.

(** The chunks that arrive are parsed one after the other. *)
(* [crates/smtp/src/outbound/client.rs:369-392] read, the loop *)
Fixpoint read_loop (tls : bool) (p : ReplyReceiver) (l : list (list Z)) (e : Ending) : result Response Wrong * Trace :=
  match l with
  | [] => (Err (end_error e), [])
  | [] :: _ => (Err (Failed CUnparseableReply), [])
  | buf :: l =>
      let '(p, r, _) := reply_parse p buf in
      match r with
      | Ok reply => (Ok reply, [Received tls buf])
      | Err ReplyNeedsMore => let '(r, t) := read_loop tls p l e in (r, Received tls buf :: t)
      | Err _ => (Err (Failed CUnparseableReply), [Received tls buf])
      end
  end.
(* [crates/smtp/src/outbound/client.rs:365-393] read *)
Definition read (c : Client) : M (result Response Wrong) :=
  fun t => let '(l, e) := arrivals t (timeout c) in read_loop (over_tls c) reply_new l e.

(** The replies that a chunk completes; [more]: how many are to come after
    the next one. *)
(* [crates/smtp/src/outbound/client.rs:413-430] read_many, a chunk *)
Fixpoint parse_many (more : nat) (p : ReplyReceiver) (buf : list Z) (acc : list Response) : result (ReplyReceiver * nat * list Response) ClientError + list Response :=
  let '(p, r, rest) := reply_parse p buf in
  match r with
  | Ok reply =>
      match more with
      | O => inr (acc ++ [reply])
      | S more => parse_many more (reply_reset p) rest (acc ++ [reply])
      end
  | Err ReplyNeedsMore => inl (Ok (p, more, acc))
  | Err _ => inl (Err CUnparseableReply)
  end.
(* [crates/smtp/src/outbound/client.rs:400-434] read_many, the loop *)
Fixpoint read_many_loop (tls : bool) (more : nat) (p : ReplyReceiver) (acc : list Response) (l : list (list Z)) (e : Ending) :
    result (list Response) Wrong * Trace :=
  match l with
  | [] => (Err (end_error e), [])
  | [] :: _ => (Err (Failed CUnparseableReply), [])
  | buf :: l =>
      match parse_many more p buf acc with
      | inr replies => (Ok replies, [Received tls buf])
      | inl (Ok (p, more, acc)) => let '(r, t) := read_many_loop tls more p acc l e in (r, Received tls buf :: t)
      | inl (Err e) => (Err (Failed e), [Received tls buf])
      end
  end.
(** At least one reply is asked for. *)
(* [crates/smtp/src/outbound/client.rs:395-437] read_many *)
Definition read_many (c : Client) (num : nat) : M (result (list Response) Wrong) :=
  fun t => let '(l, e) := arrivals t (timeout c) in read_many_loop (over_tls c) (num - 1) reply_new [] l e.

(** The bytes so far are kept and parsed from their start. *)
(* [crates/smtp/src/outbound/client.rs:313-362] read_ehlo, the loop *)
Fixpoint read_ehlo_loop (tls : bool) (concat : list Z) (l : list (list Z)) (e : Ending) : result EhloResponse Wrong * Trace :=
  match l with
  | [] => (Err (end_error e), [])
  | [] :: _ => (Err (Failed CUnparseableReply), [])
  | buf :: l =>
      let a := Received tls buf in
      if negb match concat with [] => true | _ => false end && negb (Z.of_nat (length buf + length concat) <? MAX_RESPONSE_LENGTH)
      then (Err (Failed CUnparseableReply), [a])
      else
        let concat := concat ++ buf in
        let again := let '(r, t) := read_ehlo_loop tls concat l e in (r, a :: t) in
        let '(r, rest) := ehlo_parse concat in
        match r with
        | Ok reply => (Ok reply, [a])
        | Err ReplyNeedsMore => again
        | Err (ReplyInvalid code) =>
            let '(_, r, _) := reply_parse (reply_from_code code) rest in
            match r with
            | Ok response => (Err (Failed (CUnexpectedReply response)), [a])
            | Err ReplyNeedsMore => again
            | Err _ => (Err (Failed CUnparseableReply), [a])
            end
        | Err ReplyOther => (Err (Failed CUnparseableReply), [a])
        end
  end.
(* [crates/smtp/src/outbound/client.rs:309-363] read_ehlo *)
Definition read_ehlo (c : Client) : M (result EhloResponse Wrong) :=
  fun t => let '(l, e) := arrivals t (timeout c) in read_ehlo_loop (over_tls c) [] l e.

(* [crates/smtp/src/outbound/client.rs:440-457] cmd *)
Definition cmd (c : Client) (bytes : list Z) : M (result Response ClientError) :=
  tmap (map_err (elapsed_is CTimeout)) (try# x := write_all c bytes in read c).

(* [crates/smtp/src/outbound/client.rs:126-135] read_greeting *)
Definition read_greeting (c : Client) (hostname : list Z) : M (result unit Status) :=
  tmap (fun r => match r with
                 | Err Elapsed => Err (status_timeout hostname s#"reading greeting")
                 | Err (Failed e) => Err (from_smtp_error hostname [] e)
                 | Ok r => map_err (from_smtp_error hostname []) (assert_code 220 r)
                 end) (read c).

Definition data_command (bdat_cmd : option (list Z)) : list Z := match bdat_cmd with Some x => x | None => s#"DATA" end.
(* [crates/smtp/src/outbound/client.rs:137-148] read_smtp_data_response *)
Definition read_smtp_data_response (c : Client) (hostname : list Z) (bdat_cmd : option (list Z)) : M (result Response Status) :=
  tmap (map_err (fun w => match w with
                          | Elapsed => status_timeout hostname s#"reading SMTP DATA response"
                          | Failed e => from_smtp_error hostname (data_command bdat_cmd) e
                          end)) (read c).
(* [crates/smtp/src/outbound/client.rs:150-159] read_lmtp_data_response *)
Definition read_lmtp_data_response (c : Client) (hostname : list Z) (num_responses : nat) : M (result (list Response) Status) :=
  tmap (map_err (fun w => match w with
                          | Elapsed => status_timeout hostname s#"reading LMTP DATA responses"
                          | Failed e => from_smtp_error hostname [] e
                          end)) (read_many c num_responses).

(** ** The message *)

(* [crates/smtp/src/outbound/client.rs:161-169] write_chunks *)
Fixpoint write_chunks (c : Client) (l : list (list Z)) : M (result unit Wrong) :=
  match l with [] => tret (Ok tt) | chunk :: l => try# x := write_all c chunk in write_chunks c l end.

(** The pieces that are written: [cur] is what was passed since the last dot
    that was doubled. *)
(* [crates/smtp/src/outbound/client.rs:476-491] write_message, the loop *)
Fixpoint dot_pieces (cur : list Z) (is_cr_or_lf : bool) (l : list Z) : list (list Z) :=
  match l with
  | [] => [cur]
  | byte :: l =>
      if (byte =? c#".") && is_cr_or_lf then cur :: [c#"."] :: dot_pieces [byte] false l
      else dot_pieces (cur ++ [byte]) ((byte =? 10) || (byte =? 13)) l
  end.
(* [crates/smtp/src/outbound/client.rs:459-494] write_message *)
Definition write_message (c : Client) (message : list Z) : M (result unit Wrong) :=
  write_chunks c (dot_pieces [] false message ++ [crlf ++ s#"." ++ crlf]).

Definition queue_system_error : Status := temporary s#"localhost" (QueueIo s#"Queue system error.").

(* [crates/smtp/src/outbound/client.rs:186-225] send_message, what is written *)
Definition write_data (c : Client) (raw_message : list Z) (rcpt_headers : option (list Z)) (bdat_cmd : option (list Z)) :
    M (result unit Wrong) :=
  match bdat_cmd with
  | Some bdat => write_chunks c (bdat :: match rcpt_headers with Some h => [h] | None => [] end ++ [raw_message])
  | None =>
      try# x := write_chunks c [s#"DATA" ++ crlf] in
      try# r := read c in
      match assert_code 354 r with
      | Err e => tret (Err (Failed e))
      | Ok _ =>
          try# x := match rcpt_headers with Some h => write_chunks c [h] | None => tret (Ok tt) end in
          write_message c raw_message
      end
  end.
(** The BDAT command, if chunking is used, and whether all was written. *)
(* [crates/smtp/src/outbound/client.rs:171-262] send_message *)
Definition send_message (c : Client) (hostname : list Z) (timeout_data : Z) (m : Message) (rcpt_headers : option (list Z)) (chunking : bool) :
    M (option (list Z) * result unit Status) :=
  let# blob := looking (fun t => get_blob t (blob_hash m)) in
  let none := if chunking then Some [] else None in
  match blob with
  | Ok (Some raw_message) =>
      let bdat_cmd :=
        if chunking then
          Some (s#"BDAT " ++ print_decimal (Z.of_nat (length raw_message + match rcpt_headers with Some h => length h | None => 0 end)) ++ s#" LAST" ++ crlf)
        else None in
      let# r := write_data (set_timeout timeout_data c) raw_message rcpt_headers bdat_cmd in
      tret (bdat_cmd, map_err (fun w => match w with
                                        | Elapsed => status_timeout hostname s#"sending message"
                                        | Failed e => from_smtp_error hostname (data_command bdat_cmd) e
                                        end) r)
  | _ => tret (none, Err queue_system_error)
  end.

(* [crates/smtp/src/outbound/client.rs:264-289] say_helo *)
Definition say_helo (c : Client) (hostname local_hostname : list Z) (is_smtp : bool) (timeout_ehlo : Z) : M (result EhloResponse Status) :=
  let bytes := (if is_smtp then s#"EHLO " else s#"LHLO ") ++ local_hostname ++ crlf in
  let c := set_timeout timeout_ehlo c in
  tmap (map_err (fun w => match w with
                          | Elapsed => status_timeout hostname s#"reading EHLO response"
                          | Failed e => from_smtp_error hostname bytes e
                          end)) (try# x := write_all c bytes in read_ehlo c).

(** The answer is read and thrown away. *)
(* [crates/smtp/src/outbound/client.rs:291-307] quit *)
Definition quit (c : Client) : M unit :=
  let c := set_timeout 10 c in
  let# r := write_all c (s#"QUIT" ++ crlf) in
  match r with
  | Err _ => tret tt
  | Ok _ => fun t => (tt, match fst (arrivals t 10) with [] | [] :: _ => [] | buf :: _ => [Received (over_tls c) (firstn 128 buf)] end)
  end.

(** ** Authentication *)

(* [crates/smtp/src/outbound/client.rs:641-661] encode_credentials, AUTH LOGIN *)
Definition login_answer (username secret challenge : list Z) : result (list Z) ClientError :=
  match base64_decode challenge with
  | Err e => Err (CBase64 e)
  | Ok challenge =>
      match get_range challenge 0 9, get_range challenge 0 8 with
      | None, _ => Err CInvalidChallenge
      | Some nine, Some eight =>
          if eq_ignore_ascii_case s#"user name" nine || eq_ignore_ascii_case s#"username" eight then Ok username
          else if eq_ignore_ascii_case s#"password" eight then Ok secret
          else Err CInvalidChallenge
      | Some nine, None => if eq_ignore_ascii_case s#"user name" nine then Ok username else Err CInvalidChallenge
      end
  end.
(* [crates/smtp/src/outbound/client.rs:622-673] encode_credentials *)
Definition encode_credentials (cr : Credentials) (mechanism : Z) (challenge : list Z) : result (list Z) ClientError :=
  match cr with
  | Basic username secret =>
      if mechanism =? AUTH_PLAIN then Ok (base64_encode ([0] ++ username ++ [0] ++ secret))
      else if mechanism =? AUTH_LOGIN then
        match login_answer username secret challenge with Ok x => Ok (base64_encode x) | Err e => Err e end
      else Err CUnsupportedAuthMechanism
  | Bearer token username =>
      if mechanism =? AUTH_XOAUTH2 then
        Ok (base64_encode (s#"user=" ++ match username with Some u => u | None => [] end ++ [1] ++ s#"auth=Bearer " ++ token ++ [1; 1]))
      else if mechanism =? AUTH_OAUTHBEARER then Ok (base64_encode token)
      else Err CUnsupportedAuthMechanism
  end.

(* [crates/smtp/src/outbound/client.rs:101-123] auth, the rounds *)
Fixpoint auth_rounds (c : Client) (cr : Credentials) (mechanism : Z) (n : nat) (reply : Response) : M (result unit ClientError) :=
  match n with
  | O => tret (Err (CUnexpectedReply reply))
  | S n =>
      if code reply =? 334 then
        match encode_credentials cr mechanism (response_text reply) with
        | Err e => tret (Err e)
        | Ok x => try# reply := cmd c (x ++ crlf) in auth_rounds c cr mechanism n reply
        end
      else if code reply =? 235 then tret (Ok tt)
      else tret (Err (CUnexpectedReply reply))
  end.
(* [crates/smtp/src/outbound/client.rs:81-124] auth *)
Definition auth (c : Client) (cr : Credentials) (mechanism : Z) : M (result unit ClientError) :=
  if negb (Z.land mechanism (Z.lor (Z.lor AUTH_PLAIN AUTH_XOAUTH2) AUTH_OAUTHBEARER) =? 0) then
    match encode_credentials cr mechanism [] with
    | Err e => tret (Err e)
    | Ok x => try# reply := cmd c (s#"AUTH " ++ to_mechanism mechanism ++ s#" " ++ x ++ crlf) in auth_rounds c cr mechanism 3 reply
    end
  else try# reply := cmd c (s#"AUTH " ++ to_mechanism mechanism ++ crlf) in auth_rounds c cr mechanism 3 reply.

(** Each round takes the highest bit, so 64 rounds are enough. *)
(* [crates/smtp/src/outbound/client.rs:56-79] authenticate, the loop *)
Fixpoint auth_loop (c : Client) (cr : Credentials) (fuel : nat) (available : Z) (err : option Response) : M (result unit ClientError) :=
  let failed := Err match err with Some r => CAuthenticationFailed r | None => CUnsupportedAuthMechanism end in
  match fuel with
  | O => tret failed
  | S fuel =>
      if available =? 0 then tret failed
      else
        let mechanism := 2 ^ Z.log2 available in
        let available := Z.lxor available mechanism in
        let# r := auth c cr mechanism in
        match r with
        | Ok _ => tret (Ok tt)
        | Err (CUnexpectedReply reply) =>
            if code reply =? 535 then tret (Err (CAuthenticationFailed reply)) else auth_loop c cr fuel available (Some reply)
        | Err CUnsupportedAuthMechanism => auth_loop c cr fuel available err
        | Err e => tret (Err e)
        end
  end.
(* [crates/smtp/src/outbound/client.rs:41-79] authenticate *)
Definition authenticate (c : Client) (cr : Credentials) (capabilities : EhloResponse) : M (result unit ClientError) :=
  auth_loop c cr 64
    (Z.land match cr with Basic _ _ => Z.lor AUTH_LOGIN AUTH_PLAIN | Bearer _ _ => Z.lor AUTH_OAUTHBEARER AUTH_XOAUTH2 end
       (auth_mechanisms capabilities)) None.

(** ** Connections and TLS *)

(* [crates/smtp/src/outbound/client.rs:512-544] into_tls *)
Definition into_tls (c : Client) (k : Connector) (hostname : list Z) : M (result Client ClientError) :=
  if valid_server_name hostname then
    fun t => (match handshakes t k hostname (timeout c) with Some e => Err e | None => Ok (MkClient true (timeout c)) end, [Handshaken hostname k])
  else tret (Err CInvalidTLSName).

(* [crates/smtp/src/outbound/client.rs:547-588] connect, connect_using *)
Definition connect (mx : list Z) (local_ip : option IpAddr) (remote_ip : IpAddr) (port timeout : Z) : M (result Client ClientError) :=
  fun t => (match connects t local_ip remote_ip port timeout with Some e => Err e | None => Ok (MkClient false timeout) end,
            [Connected mx remote_ip port]).

(* [crates/smtp/src/outbound/client.rs:681-693] StartTlsResult *)
Inductive StartTlsResult := TlsSuccess (c : Client) | TlsFailed (e : ClientError) | TlsUnavailable (r : option Response) (c : Client).
(* [crates/smtp/src/outbound/client.rs:590-619] try_start_tls *)
Definition try_start_tls (c : Client) (k : Connector) (hostname : list Z) (capabilities : EhloResponse) : M StartTlsResult :=
  if has_capability capabilities EXT_START_TLS then
    let# r := cmd c (s#"STARTTLS" ++ crlf) in
    match r with
    | Ok response =>
        if code response =? 220 then
          let# r := into_tls c k hostname in
          tret match r with Ok c => TlsSuccess c | Err e => TlsFailed e end
        else tret (TlsUnavailable (Some response) c)
    | Err e => tret (TlsFailed e)
    end
  else tret (TlsUnavailable None c).
End Client.
