(* ===== verification/OutboundSession.v ===== *)
(** * A session with a remote server ([crates/smtp/src/outbound/session.rs, local.rs])

    The dialogue of a delivery from its greeting on: the capabilities,
    authentication, the sender, the recipients, the message, and what each
    reply means for which recipient; and the delivery to the local store. *)

From stdpp Require Import gmap.
From S2P Require Import Prelude Decimals Utf8 Text IpMask Milter SmtpData SmtpQueue QueueSpool OutboundClient.
#[local] Open Scope wire_scope.

(** Without the server and the span. *)
(* [crates/smtp/src/outbound/session.rs:25-34] SessionParams *)
Record SessionParams (E : Type) := MkParams {
  hostname : list Z; credentials : option Credentials; capabilities : option E; is_smtp : bool; local_hostname : list Z;
  timeout_ehlo : Z; timeout_mail : Z; timeout_rcpt : Z; timeout_data : Z }.
Arguments MkParams {E}.
Arguments hostname {E}. Arguments credentials {E}. Arguments capabilities {E}. Arguments is_smtp {E}.
Arguments local_hostname {E}. Arguments timeout_ehlo {E}. Arguments timeout_mail {E}. Arguments timeout_rcpt {E}. Arguments timeout_data {E}.

(** What the local store says of a recipient. *)
(* [crates/email/src/message/delivery.rs:37-47] LocalDeliveryStatus *)
Inductive LocalDeliveryStatus :=
| LocalSuccess | LocalTemporaryFailure (reason : list Z) | LocalPermanentFailure (code : Z * Z * Z) (reason : list Z).

Section Session.
Context {Cr : Crates} {Wi : Wire}.

(* [crates/smtp/src/outbound/session.rs:471-473] has_flag *)
Definition message_has_flag (m : Message) (flag : Z) : bool := negb (Z.land (mflags m) flag =? 0).

(* [crates/smtp/src/outbound/session.rs:409-434] build_mail_from *)
Definition build_mail_from (m : Message) (c : EhloResponse) : list Z :=
  s#"MAIL FROM:<" ++ return_path m ++ s#">" ++
  (if has_capability c EXT_SIZE then s#" SIZE=" ++ print_decimal (msize m) else []) ++
  (if message_has_flag m MAIL_REQUIRETLS && has_capability c EXT_REQUIRE_TLS then s#" REQUIRETLS" else []) ++
  (if message_has_flag m MAIL_SMTPUTF8 && has_capability c EXT_SMTP_UTF8 then s#" SMTPUTF8" else []) ++
  (if has_capability c EXT_DSN then
     (if message_has_flag m MAIL_RET_FULL then s#" RET=FULL" else if message_has_flag m MAIL_RET_HDRS then s#" RET=HDRS" else []) ++
     match env_id m with Some e => s#" ENVID=" ++ e | None => [] end
   else []) ++ crlf.

(* [crates/smtp/src/outbound/session.rs:441-461] build_rcpt_to, what is asked to be notified of *)
Definition notify_list (r : Recipient) : list (list Z) :=
  (if rcpt_has_flag r RCPT_NOTIFY_SUCCESS then [s#"SUCCESS"] else []) ++
  (if rcpt_has_flag r RCPT_NOTIFY_DELAY then [s#"DELAY"] else []) ++
  (if rcpt_has_flag r RCPT_NOTIFY_FAILURE then [s#"FAILURE"] else []).
(* [crates/smtp/src/outbound/session.rs:436-468] build_rcpt_to *)
Definition build_rcpt_to (r : Recipient) (c : EhloResponse) : list Z :=
  s#"RCPT TO:<" ++ raddress r ++ s#">" ++
  (if has_capability c EXT_DSN then
     if rcpt_has_flag r (Z.lor (Z.lor RCPT_NOTIFY_SUCCESS RCPT_NOTIFY_FAILURE) RCPT_NOTIFY_DELAY) then
       s#" NOTIFY=" ++ join s#"," (notify_list r)
     else if rcpt_has_flag r RCPT_NOTIFY_NEVER then s#" NOTIFY=NEVER" else []
   else []) ++ crlf.

(** The recipients that were accepted, with the reply to each. *)
Definition Accepted : Type := list (nat * Status).

(** [Err]: the session was given up, and what became of the recipients. *)
(* [crates/smtp/src/outbound/session.rs:165-245] deliver, RCPT TO *)
Fixpoint rcpt_loop (c : Client) (p : SessionParams EhloResponse) (caps : EhloResponse) (m : Message) (all l : list nat)
    (accepted : Accepted) (statuses : list DeliveryResult) : M (result (Accepted * list DeliveryResult) (list DeliveryResult)) :=
  match l with
  | [] => tret (Ok (accepted, statuses))
  | idx :: l =>
      match recipients m !! idx with
      | None => rcpt_loop c p caps m all l accepted statuses     (* panics; the indices are those of recipients *)
      | Some r =>
          if negb (is_pending r) then rcpt_loop c p caps m all l accepted statuses
          else
            let bytes := build_rcpt_to r caps in
            let# reply := cmd c bytes in
            match reply with
            | Ok response =>
                match severity response with
                | PositiveCompletion =>
                    rcpt_loop c p caps m all l (accepted ++ [(idx, Completed (MkHost (hostname p) response))]) statuses
                | _ =>
                    rcpt_loop c p caps m all l accepted
                      (statuses ++ [RAccount (failed_reply response (hostname p) (UnexpectedResponse (trim bytes) response)) idx])
                end
            | Err e => quit c ;# tret (Err (statuses ++ [RDomain (from_smtp_error (hostname p) [] e) all]))
            end
      end
  end.

(* [crates/smtp/src/outbound/session.rs:337-384] deliver, a reply over LMTP *)
Definition lmtp_status (hostname : list Z) (bdat_cmd : option (list Z)) (response : Response) : Status :=
  match severity response with
  | PositiveCompletion => Completed (MkHost hostname response)
  | _ => failed_reply response hostname (UnexpectedResponse (data_command bdat_cmd) response)
  end.

(* [crates/smtp/src/outbound/session.rs:247-404] deliver, the message *)
Definition deliver_data (c : Client) (p : SessionParams EhloResponse) (caps : EhloResponse) (m : Message) (all : list nat)
    (rcpt_headers : option (list Z)) (accepted : Accepted) (statuses : list DeliveryResult) : M (list DeliveryResult) :=
  let gives_up status := quit c ;# tret (statuses ++ [RDomain status all]) in
  let# sent := send_message c (hostname p) (timeout_data p) m rcpt_headers (has_capability caps EXT_CHUNKING) in
  let '(bdat_cmd, r) := sent in
  match r with
  | Err status => gives_up status
  | Ok _ =>
      if is_smtp p then
        let# reply := read_smtp_data_response c (hostname p) bdat_cmd in
        match reply with
        | Ok response =>
            if code response =? 250 then
              quit c ;# tret (statuses ++ map (fun '(idx, status) => RAccount status idx) accepted)
            else gives_up (from_smtp_error (hostname p) (data_command bdat_cmd) (CUnexpectedReply response))
        | Err status => gives_up status
        end
      else
        let# replies := read_lmtp_data_response c (hostname p) (length accepted) in
        match replies with
        | Ok responses =>
            quit c ;# tret (statuses ++ map (fun '((idx, _), response) => RAccount (lmtp_status (hostname p) bdat_cmd response) idx)
                                          (combine accepted responses))
        | Err status => gives_up status
        end
  end.

(** From MAIL FROM on. *)
(* [crates/smtp/src/outbound/session.rs:122-407] deliver, the transaction *)
Definition transaction (c : Client) (p : SessionParams EhloResponse) (caps : EhloResponse) (m : Message) (all : list nat)
    (rcpt_headers : option (list Z)) : M (list DeliveryResult) :=
  let c := set_timeout (timeout_mail p) c in
  let bytes := build_mail_from m caps in
  let# reply := cmd c bytes in
  match match reply with Ok r => if is_positive_completion r then Ok r else Err (CUnexpectedReply r) | Err e => Err e end with
  | Err e => quit c ;# tret [RDomain (from_smtp_error (hostname p) bytes e) all]
  | Ok _ =>
      let c := set_timeout (timeout_rcpt p) c in
      let# r := rcpt_loop c p caps m all all [] [] in
      match r with
      | Err statuses => tret statuses
      | Ok (accepted, statuses) =>
          match accepted with
          | [] => quit c ;# tret statuses
          | _ => deliver_data c p caps m all rcpt_headers accepted statuses
          end
      end
  end.

(* [crates/smtp/src/outbound/session.rs:77-120] deliver, authentication *)
Definition authenticated_transaction (c : Client) (p : SessionParams EhloResponse) (caps : EhloResponse) (m : Message) (all : list nat)
    (rcpt_headers : option (list Z)) : M (list DeliveryResult) :=
  match credentials p with
  | None => transaction c p caps m all rcpt_headers
  | Some cr =>
      let# r := authenticate c cr caps in
      match r with
      | Ok _ => transaction c p caps m all rcpt_headers
      | Err e => quit c ;# tret [RDomain (from_smtp_error (hostname p) s#"AUTH ..." e) all]
      end
  end.

(* [crates/smtp/src/outbound/session.rs:37-407] deliver *)
Definition deliver (c : Client) (p : SessionParams EhloResponse) (m : Message) (rcpt_idxs : list nat) (rcpt_headers : option (list Z)) :
    M (list DeliveryResult) :=
  match capabilities p with
  | Some caps => authenticated_transaction c p caps m rcpt_idxs rcpt_headers
  | None =>
      let# r := say_helo c (hostname p) (local_hostname p) (is_smtp p) (timeout_ehlo p) in
      match r with
      | Ok caps => authenticated_transaction c p caps m rcpt_idxs rcpt_headers
      | Err status => quit c ;# tret [RDomain status rcpt_idxs]
      end
  end.

(** ** Local delivery *)

(** [deliver_message] of the mail store: a status for each recipient. *)
Variable ingest : Trace -> Message -> list (list Z * option (list Z) * bool) -> list LocalDeliveryStatus.

(* [crates/smtp/src/outbound/local.rs:61-96] deliver_local, a result *)
Definition local_status (address : list Z) (x : LocalDeliveryStatus) : Status :=
  let command := s#"RCPT TO:<" ++ address ++ s#">" in
  match x with
  | LocalSuccess => Completed (MkHost s#"localhost" (MkResponse 250 (2, 1, 5) s#"OK"))
  | LocalTemporaryFailure reason => temporary s#"localhost" (UnexpectedResponse command (MkResponse 451 (4, 3, 0) reason))
  | LocalPermanentFailure code reason => permanent s#"localhost" (UnexpectedResponse command (MkResponse 550 code reason))
  end.

(** The messages that Sieve scripts make are queued like others. *)
(* [crates/smtp/src/outbound/local.rs:23-98] deliver_local *)
Definition deliver_local (m : Message) (rcpt_idxs : list nat) : M (list DeliveryResult) :=
  let l := omap (fun idx => match recipients m !! idx with Some r => Some (idx, r) | None => None end) rcpt_idxs in
  let rcpts := map (fun '(_, r) => (to_lowercase (raddress r), orcpt r, rcpt_has_flag r RCPT_SPAM_PAYLOAD)) l in
  let# statuses := looking (fun t => ingest t m rcpts) in
  emit (HandedOver rcpt_idxs) ;#
  tret (map (fun '((idx, r), x) => RAccount (local_status (raddress r) x) idx) (combine l statuses)).
End Session.
