(* ===== verification/OutboundHosts.v ===== *)
(** * Where to deliver, and what to trust ([crates/smtp/src/outbound/lookup.rs, mta_sts, dane, mod.rs])

    The hosts of a domain and their addresses, MTA-STS policies, TLSA records
    and the check of certificates against them.  Resolvers, caches, HTTP and
    the parsers of certificates are the interface [World]; they are functions
    of the trace, so an answer may differ from one moment to the next. *)

From stdpp Require Import gmap.
From S2P Require Import Prelude Decimals Utf8 Text IpMask Milter SmtpData SmtpQueue OutboundClient.
#[local] Open Scope wire_scope.
#[local] Open Scope result_scope.

(** ** Data *)

(** Errors of mail-auth and of the resolver, with the texts they carry. *)
Inductive AuthError := ARecordNotFound (code : list Z) | AInvalidRecordType | AResolver (e : list Z) | AOther (e : list Z).
Inductive Proof_ := ProofSecure | ProofInsecure | ProofBogus | ProofIndeterminate.
(* [crates/smtp/src/outbound/dane/dnssec.rs:296-303] proof_to_dnssec_status *)
Inductive DnssecStatus := Secure | Insecure | Bogus | Indeterminate.
(** No records, with the proofs of the NSEC records that deny them; a denial
    with its own proof; or another error. *)
Inductive NetError :=
| NoRecordsFound (no_error : bool) (authorities : option (list (bool * Proof_))) | NsecError (no_error : bool) (proof : Proof_)
| OtherNetError (e : AuthError).
Record Mx := MkMx { preference : Z; exchanges : list (list Z) }.
Record MxRecords := MkMxRecords { rrset : list Mx; mx_dnssec : DnssecStatus }.

Inductive CertUsage := DaneEe | DaneTa | OtherUsage.
Inductive Matching := MRaw | MSha256 | MSha512 | MOther.
Inductive Selector := SelSpki | SelFull | SelOther.
Record TlsaRdata := MkTlsaRdata { cert_usage : CertUsage; rmatching : Matching; selector : Selector; cert_data : list Z }.
(* [crates/smtp/src/outbound/dane/dnssec.rs:45-49] TlsaResult *)
Inductive TlsaResult := TlsaSecure (t : Tlsa) | TlsaBogus | TlsaMissing.

(** A request that timed out, could not connect, or had the status 404. *)
Record HttpError := MkHttpError { is_timeout : bool; is_connect : bool; is_not_found : bool }.
(* [crates/smtp/src/outbound/mta_sts/mod.rs:12-16] mta_sts::Error *)
Inductive StsError := StsDns (e : AuthError) | StsHttp (e : HttpError) | StsInvalidPolicy (e : list Z).

(** mail-auth's, with the cases that the source distinguishes. *)
Inductive IpLookupStrategy := Ipv4Only | Ipv6Only | Ipv4thenIpv6 | Ipv6thenIpv4.
(* [crates/common/src/config/smtp/queue.rs:83-88] MxConfig *)
Record MxConfig := MkMxConfig { max_mx : Z; max_multi_homed : nat; ip_lookup_strategy : IpLookupStrategy }.
(* [crates/common/src/config/smtp/queue.rs:190-194] HostOrIp *)
Inductive HostOrIp := Host (h : list Z) | Ip (ip : IpAddr) (ip_str : list Z).
(* [crates/common/src/config/smtp/queue.rs:180-188] RelayConfig *)
Record RelayConfig := MkRelay {
  relay_address : HostOrIp; relay_port : Z; relay_smtp : bool; relay_auth : option Credentials; tls_implicit : bool;
  tls_allow_invalid_certs : bool }.
(* [crates/common/src/config/smtp/queue.rs:76-81] RoutingStrategy *)
Inductive RoutingStrategy := RouteLocal | RouteMx (c : MxConfig) | RouteRelay (r : RelayConfig).

(* [crates/smtp/src/outbound/mod.rs:235-244] NextHop *)
Inductive NextHop := HopRelay (r : RelayConfig) | HopMx (is_implicit : bool) (host : list Z) (config : MxConfig) (status : DnssecStatus).

(** A certificate as x509-parser sees it. *)
Record Cert := MkCert { public_key : list Z; issuer : list Z; subject : list Z }.

Class World := {
  auth_error_text : AuthError -> list Z;
  net_error_into : NetError -> AuthError;
  to_fqdn : list Z -> list Z;
  shuffle : Trace -> list (list Z) -> list (list Z);
  ipv4_lookup : Trace -> list Z -> result (list IpAddr) AuthError; ipv6_lookup : Trace -> list Z -> result (list IpAddr) AuthError;
  dnssec_available : bool;
  plain_mx : Trace -> list Z -> result MxRecords AuthError;
  mx_cache : Trace -> list Z -> option MxRecords; dnssec_mx : Trace -> list Z -> result (list (Proof_ * option (Z * list Z))) NetError;
  tlsa_cache : Trace -> list Z -> option Tlsa; dnssec_tlsa : Trace -> list Z -> result (list (Proof_ * option TlsaRdata)) NetError;
  sts_record : Trace -> list Z -> result (list Z) AuthError;      (* the id of the TXT record *)
  sts_cache : Trace -> list Z -> option Policy;
  sts_fetch : Trace -> list Z -> Z -> result (option (list Z)) HttpError;
  utf8_error : list Z -> list Z;
  parse_certificate : list Z -> option Cert;
  sha256 : list Z -> list Z; sha512 : list Z -> list Z;
  der_value : list Z -> option (list Z);
  Anchor : Type; anchor_of_certificate : list Z -> option Anchor; anchor_of_key : list Z -> list Z -> Anchor;
  end_entity_cert : list Z -> bool;
  verify_for_usage : Trace -> list Z -> list Anchor -> list (list Z) -> bool; valid_for_name : list Z -> list Z -> bool
}.

(** [{:?}] of a text of ASCII characters. *)
Definition debug_byte (b : Z) : list Z :=
  if b =? 9 then s#"\t" else if b =? 10 then s#"\n" else if b =? 13 then s#"\r" else if b =? 34 then [92; 34]
  else if b =? 92 then [92; 92] else if b =? 0 then s#"\0" else [b].
Definition debug_str (l : list Z) : list Z := [34] ++ concat (map debug_byte l) ++ [34].

Section Hosts.
Context {Cr : Crates} {Wi : Wire} {Wo : World}.

(** ** Errors *)

(* [crates/smtp/src/outbound/mod.rs:157-172] from_mail_auth_error *)
Definition from_mail_auth_error (entity : list Z) (e : AuthError) : Status :=
  match e with
  | ARecordNotFound code => permanent entity (DnsError (s#"Domain not found: " ++ code))
  | _ => temporary entity (DnsError (auth_error_text e))
  end.
(* [crates/smtp/src/outbound/mod.rs:174-232] from_mta_sts_error *)
Definition from_mta_sts_error (entity : list Z) (e : StsError) : Status :=
  match e with
  | StsDns (ARecordNotFound code) => permanent entity (MtaStsError (s#"Record not found: " ++ code))
  | StsDns AInvalidRecordType => permanent entity (MtaStsError s#"Failed to parse MTA-STS DNS record.")
  | StsDns e => temporary entity (MtaStsError (s#"DNS lookup error: " ++ auth_error_text e))
  | StsHttp e =>
      if is_timeout e then temporary entity (MtaStsError s#"Timeout fetching policy.")
      else if is_connect e then temporary entity (MtaStsError s#"Could not reach policy host.")
      else if is_not_found e then permanent entity (MtaStsError s#"Policy not found.")
      else temporary entity (MtaStsError s#"Failed to fetch policy.")
  | StsInvalidPolicy e => permanent entity (MtaStsError (s#"Failed to parse policy: " ++ e))
  end.
(* [crates/smtp/src/outbound/mta_sts/lookup.rs:113-140] Display for mta_sts::Error *)
Definition sts_error_text (e : StsError) : list Z :=
  match e with
  | StsDns (ARecordNotFound code) => s#"Record not found: " ++ code
  | StsDns AInvalidRecordType => s#"Failed to parse MTA-STS DNS record."
  | StsDns e => s#"DNS lookup error: " ++ auth_error_text e
  | StsHttp e =>
      if is_timeout e then s#"Timeout fetching policy."
      else if is_connect e then s#"Could not reach policy host."
      else if is_not_found e then s#"Policy not found." else s#"Failed to fetch policy."
  | StsInvalidPolicy e => s#"Failed to parse policy: " ++ e
  end.
(* [crates/smtp/src/outbound/mta_sts/lookup.rs:104-111] ResultType from mta_sts::Error *)
Definition sts_result_type (e : StsError) : ResultType := match e with StsInvalidPolicy _ => TStsPolicyInvalid | _ => TStsPolicyFetchError end.

(** ** Hosts *)

(* [crates/smtp/src/outbound/mod.rs:248-262] hostname *)
Definition hop_hostname (h : NextHop) : list Z :=
  match h with
  | HopMx _ host _ _ => match strip_suffix s#"." host with Some x => x | None => host end
  | HopRelay r => match relay_address r with Host x => x | Ip _ text => text end
  end.
(* [crates/smtp/src/outbound/mod.rs:265-279] fqdn_hostname *)
Definition fqdn_hostname (h : NextHop) : HostOrIp :=
  match h with
  | HopMx _ host _ _ => Host (if ends_with s#"." host then host else host ++ s#".")
  | HopRelay r => relay_address r
  end.
(* [crates/smtp/src/outbound/mod.rs:282-287] max_multi_homed *)
Definition hop_max_multi_homed (h : NextHop) : nat := match h with HopMx _ _ c _ => max_multi_homed c | HopRelay _ => 10 end.
(* [crates/smtp/src/outbound/mod.rs:290-295] ip_lookup_strategy *)
Definition hop_ip_strategy (h : NextHop) : IpLookupStrategy := match h with HopMx _ _ c _ => ip_lookup_strategy c | HopRelay _ => Ipv4thenIpv6 end.
(* [crates/smtp/src/outbound/mod.rs:298-306] port *)
Definition hop_port (h : NextHop) : Z := match h with HopMx _ _ _ _ => 25 | HopRelay r => relay_port r end.
(* [crates/smtp/src/outbound/mod.rs:309-314] credentials *)
Definition hop_credentials (h : NextHop) : option Credentials := match h with HopMx _ _ _ _ => None | HopRelay r => relay_auth r end.
(* [crates/smtp/src/outbound/mod.rs:317-327] allow_invalid_certs *)
Definition hop_allow_invalid_certs (h : NextHop) : bool := match h with HopMx _ _ _ _ => false | HopRelay r => tls_allow_invalid_certs r end.
(* [crates/smtp/src/outbound/mod.rs:330-335] implicit_tls *)
Definition hop_implicit_tls (h : NextHop) : bool := match h with HopMx _ _ _ _ => false | HopRelay r => tls_implicit r end.
(* [crates/smtp/src/outbound/mod.rs:338-343] is_smtp *)
Definition hop_is_smtp (h : NextHop) : bool := match h with HopMx _ _ _ _ => true | HopRelay r => relay_smtp r end.
(* [crates/smtp/src/outbound/mod.rs:345-350] dnssec_status *)
Definition hop_dnssec (h : NextHop) : DnssecStatus := match h with HopMx _ _ _ s => s | HopRelay _ => Indeterminate end.

(** The hosts, up to [max_mx] of them; [None]: a null MX. *)
(* [crates/smtp/src/outbound/lookup.rs:216-247] to_remote_hosts, the records *)
Fixpoint remote_hosts_of (t : Trace) (status : DnssecStatus) (config : MxConfig) (l : list Mx) (acc : list NextHop) : option (list NextHop) :=
  match l with
  | [] => Some acc
  | mx :: l =>
      let hop host := HopMx false host config status in
      match exchanges mx with
      | [] => remote_hosts_of t status config l acc
      | [host] =>
          if (preference mx =? 0) && bytes_eqb host s#"." then None
          else
            let acc := acc ++ [hop host] in
            if Z.of_nat (length acc) =? max_mx config then Some acc else remote_hosts_of t status config l acc
      | hosts =>
          let fix add hosts acc :=
            match hosts with
            | [] => (acc, false)
            | host :: hosts =>
                let acc := acc ++ [hop host] in
                if Z.of_nat (length acc) =? max_mx config then (acc, true) else add hosts acc
            end in
          let '(acc, full) := add (shuffle t hosts) acc in
          if full : bool then Some acc else remote_hosts_of t status config l acc
      end
  end.
(* [crates/smtp/src/outbound/lookup.rs:207-259] to_remote_hosts *)
Definition to_remote_hosts (t : Trace) (r : MxRecords) (domain : list Z) (config : MxConfig) : option (list NextHop) :=
  match rrset r with
  | [] => Some [HopMx true domain config (mx_dnssec r)]
  | l => remote_hosts_of t (mx_dnssec r) config l []
  end.

(* [crates/smtp/src/outbound/lookup.rs:35-102] ip_lookup *)
Definition ip_lookup (t : Trace) (key : list Z) (strategy : IpLookupStrategy) (max_results : nat) : result (list IpAddr) AuthError :=
  let '(has_ipv4, has_ipv6, v4_first) :=
    match strategy with
    | Ipv4Only => (true, false, false) | Ipv6Only => (false, true, false)
    | Ipv4thenIpv6 => (true, true, true) | Ipv6thenIpv4 => (true, true, false)
    end in
  let? v4 := (if has_ipv4 : bool then
                match ipv4_lookup t key with Ok l => Ok l | Err e => if has_ipv6 : bool then Ok [] else Err e end
              else Ok []) in
  if has_ipv6 : bool then
    let? v6 := (match ipv6_lookup t key with Ok l => Ok l | Err e => match v4 with [] => Err e | _ => Ok [] end end) in
    Ok (firstn max_results (if v4_first : bool then v4 ++ v6 else v6 ++ v4))
  else Ok (firstn max_results v4).

(** [IpAddr::is_loopback]. *)
Definition is_loopback (ip : IpAddr) : bool := match ip with IpV4 a => Z.shiftr a 24 =? 127 | IpV6 a => a =? 1 end.

(* [crates/smtp/src/outbound/lookup.rs:105-176] resolve_host *)
Definition resolve_host (t : Trace) (h : NextHop) (envelope_mx : list Z) : result (list IpAddr) Status :=
  let? ips :=
    (match fqdn_hostname h with
     | Host name =>
         match ip_lookup t name (hop_ip_strategy h) (hop_max_multi_homed h) with
         | Ok l => Ok l
         | Err (ARecordNotFound _) =>
             Err (permanent (hop_hostname h)
                    match h with
                    | HopMx true _ _ _ => DnsError s#"no MX record found."
                    | _ => ConnectionError s#"record not found for MX"
                    end)
         | Err e => Err (temporary (hop_hostname h) (ConnectionError (s#"lookup error: " ++ auth_error_text e)))
         end
     | Ip ip _ => Ok [ip]
     end) in
  match ips with
  | [] => Err (temporary (hop_hostname h) (DnsError (s#"No IP addresses found for " ++ debug_str envelope_mx ++ s#".")))
  | _ =>
      match List.filter (fun ip => negb (is_loopback ip)) ips with
      | [] => Err (permanent (hop_hostname h) (ConnectionError s#"host resolves loopback address"))
      | l => Ok l
      end
  end.

(** ** DNSSEC *)

Definition proof_status (p : Proof_) : DnssecStatus :=
  match p with ProofSecure => Secure | ProofInsecure => Insecure | ProofBogus => Bogus | ProofIndeterminate => Indeterminate end.
Definition rank (s : DnssecStatus) : Z := match s with Bogus => 0 | Indeterminate => 1 | Insecure => 2 | Secure => 3 end.
(* [crates/smtp/src/outbound/dane/dnssec.rs:305-316] least_secure *)
Definition least_secure (a b : DnssecStatus) : DnssecStatus := if rank a <=? rank b then a else b.
Definition least_of (x : option DnssecStatus) (p : Proof_) : option DnssecStatus :=
  Some match x with Some s => least_secure s (proof_status p) | None => proof_status p end.

(* [crates/smtp/src/outbound/dane/dnssec.rs:287-294] denial_dnssec_status *)
Definition denial_dnssec_status (authorities : list (bool * Proof_)) : DnssecStatus :=
  match fold_left (fun x '(is_nsec, p) => if is_nsec : bool then least_of x p else x) authorities None with
  | Some s => s
  | None => Indeterminate
  end.
(** Whether the response code was NoError, and the status. *)
(* [crates/smtp/src/outbound/dane/dnssec.rs:257-285] NegativeAnswer::from_error *)
Definition negative_answer (e : NetError) : option (bool * DnssecStatus) :=
  match e with
  | NoRecordsFound no_error authorities =>
      Some (no_error, match authorities with Some l => denial_dnssec_status l | None => Indeterminate end)
  | NsecError no_error p => Some (no_error, proof_status p)
  | OtherNetError _ => None
  end.

(** Exchanges of one preference are together; then by preference. *)
Fixpoint add_exchange (p : Z) (x : list Z) (l : list Mx) : list Mx :=
  match l with
  | [] => [MkMx p [x]]
  | m :: l => if preference m =? p then MkMx p (exchanges m ++ [x]) :: l else m :: add_exchange p x l
  end.
Fixpoint insert_mx (m : Mx) (l : list Mx) : list Mx :=
  match l with [] => [m] | n :: l' => if preference m <=? preference n then m :: l else n :: insert_mx m l' end.
(* [crates/smtp/src/outbound/dane/dnssec.rs:105-137] mx_lookup, the records *)
Definition mx_records (answers : list (Proof_ * option (Z * list Z))) : MxRecords :=
  let '(status, l) :=
    fold_left (fun '(status, l) '(p, mx) =>
      match mx with
      | Some (pref, exchange) => (least_of status p, add_exchange pref (to_lowercase exchange) l)
      | None => (status, l)
      end) answers (None, []) in
  MkMxRecords (fold_right insert_mx [] l) match status with Some s => s | None => Indeterminate end.

(* [crates/smtp/src/outbound/dane/dnssec.rs:52-145] mx_lookup *)
Definition mx_lookup (t : Trace) (domain : list Z) : result MxRecords AuthError :=
  if negb dnssec_available then plain_mx t domain
  else
    let key := to_fqdn domain in
    let lookup :=
      match dnssec_mx t key with
      | Ok answers => Ok (mx_records answers)
      | Err e =>
          match negative_answer e with
          | Some (true, status) => Ok (MkMxRecords [] status)
          | _ => Err (net_error_into e)
          end
      end in
    match mx_cache t key with
    | Some r => match mx_dnssec r with Indeterminate => lookup | _ => Ok r end
    | None => lookup
    end.

(* [crates/smtp/src/outbound/dane/dnssec.rs:195-225] tlsa_lookup, a record *)
Definition tlsa_entry (p : Proof_) (r : TlsaRdata) : option TlsaEntry :=
  match p, cert_usage r, rmatching r, selector r with
  | ProofSecure, (DaneEe | DaneTa) as u, (MRaw | MSha256 | MSha512) as m, (SelSpki | SelFull) as s =>
      Some (MkTlsaEntry match u with DaneEe => true | _ => false end match s with SelSpki => true | _ => false end
              match m with MRaw => Full | MSha256 => Sha256 | _ => Sha512 end (cert_data r))
  | _, _, _, _ => None
  end.
(* [crates/smtp/src/outbound/dane/dnssec.rs:183-247] tlsa_lookup, the records *)
Definition tlsa_records (answers : list (Proof_ * option TlsaRdata)) : TlsaResult :=
  let '(status, l) :=
    fold_left (fun '(status, l) '(p, r) =>
      match r with
      | Some r => (least_of status p, match tlsa_entry p r with Some e => l ++ [e] | None => l end)
      | None => (status, l)
      end) answers (None, []) in
  match status with
  | Some Bogus => TlsaBogus
  | Some Secure => TlsaSecure (MkTlsa l (existsb is_end_entity l) (existsb (fun e => negb (is_end_entity e)) l))
  | _ => TlsaMissing
  end.
(* [crates/smtp/src/outbound/dane/dnssec.rs:147-248] tlsa_lookup *)
Definition tlsa_lookup (t : Trace) (name : list Z) : result TlsaResult AuthError :=
  let key := to_fqdn name in
  match tlsa_cache t key with
  | Some x => Ok (TlsaSecure x)
  | None =>
      match dnssec_tlsa t key with
      | Ok answers => Ok (tlsa_records answers)
      | Err e =>
          match negative_answer e with
          | Some (_, Bogus) => Ok TlsaBogus
          | Some _ => Ok TlsaMissing
          | None => Err (net_error_into e)
          end
      end
  end.

(** ** DANE *)

(* [crates/smtp/src/outbound/dane/verify.rs:225-237] record_matches *)
Definition record_matches (e : TlsaEntry) (c : Cert) (raw : list Z) : bool :=
  let selected := if is_spki e then public_key c else raw in
  bytes_eqb match matching e with Full => selected | Sha256 => sha256 selected | Sha512 => sha512 selected end (tlsa_data e).
(* [crates/smtp/src/outbound/dane/verify.rs:217-223] is_chain_top *)
Definition is_chain_top (parsed : list Cert) (depth : nat) (c : Cert) : bool :=
  negb (existsb (fun '(other, x) => negb (other =? depth)%nat && bytes_eqb (subject x) (issuer c)) (combine (seq 0 (length parsed)) parsed)).

(* [crates/smtp/src/outbound/dane/verify.rs:102-124] verify_end_entity *)
Definition verify_end_entity (t : Tlsa) (first : Cert) (raw : list Z) : bool :=
  has_end_entities t && existsb (fun e => is_end_entity e && record_matches e first raw) (entries t).

(** The anchors of a record; [chain]: the certificates after the first one,
    with their depths. *)
(* [crates/smtp/src/outbound/dane/verify.rs:145-184] verify_trust_anchor, a record *)
Definition record_anchors (e : TlsaEntry) (parsed : list Cert) (chain : list (nat * (Cert * list Z))) : list Anchor :=
  let anchor x := match anchor_of_certificate x with Some a => [a] | None => [] end in
  match is_spki e, matching e with
  | false, Full => anchor (tlsa_data e)
  | true, Full =>
      match List.find (fun '(_, (c, _)) => bytes_eqb (public_key c) (tlsa_data e)) chain with
      | Some (_, (_, raw)) => anchor raw
      | None =>
          match der_value (tlsa_data e) with
          | Some spki =>
              concat (map (fun '(depth, (c, _)) =>
                if is_chain_top parsed depth c then
                  match der_value (issuer c) with Some subject => [anchor_of_key subject spki] | None => [] end
                else []) chain)
          | None => []
          end
      end
  | _, _ => concat (map (fun '(_, (c, raw)) => if record_matches e c raw then anchor raw else []) chain)
  end.
(* [crates/smtp/src/outbound/dane/verify.rs:126-215] verify_trust_anchor *)
Definition verify_trust_anchor (tr : Trace) (t : Tlsa) (reference_ids : list (list Z)) (raws : list (list Z)) (parsed : list Cert) : bool :=
  match raws with
  | [] => false
  | first :: rest =>
      has_intermediates t && end_entity_cert first &&
      let chain := combine (seq 1 (length rest)) (combine (tl parsed) rest) in
      let anchors := concat (map (fun e => record_anchors e parsed chain) (List.filter (fun e => negb (is_end_entity e)) (entries t))) in
      negb match anchors with [] => true | _ => false end && verify_for_usage tr first anchors rest &&
      existsb (fun name => valid_server_name name && valid_for_name first name) reference_ids
  end.

(* [crates/smtp/src/outbound/dane/verify.rs:27-99] TlsaVerify::verify *)
Definition dane_verify (tr : Trace) (t : Tlsa) (hostname : list Z) (reference_ids : list (list Z)) (certificates : option (list (list Z))) :
    result unit Status :=
  match certificates with
  | None | Some [] => Err (temporary hostname (DaneError s#"No certificates were provided by host"))
  | Some ((first :: _) as raws) =>
      match mapM parse_certificate raws with
      | None => Err (temporary hostname (DaneError s#"Failed to parse X.509 certificate"))
      | Some parsed =>
          if match parsed with c :: _ => verify_end_entity t c first | [] => false end || verify_trust_anchor tr t reference_ids raws parsed
          then Ok tt
          else Err (permanent hostname (DaneError s#"No matching certificates found in TLSA records"))
      end
  end.

(** ** MTA-STS *)

Record PolicyAcc := MkAcc { acc_mode : Mode; acc_max_age : Z; acc_mx : list MxPattern }.
(* [crates/smtp/src/outbound/mta_sts/parse.rs:30-59] Policy::parse, a key *)
Definition policy_key (key value : list Z) (a : PolicyAcc) : result PolicyAcc (list Z) :=
  if bytes_eqb key s#"mx" then
    Ok match strip_prefix s#"*." value with
       | Some [] => a
       | Some suffix => MkAcc (acc_mode a) (acc_max_age a) (acc_mx a ++ [MxStartsWith (to_lowercase suffix)])
       | None => match value with [] => a | _ => MkAcc (acc_mode a) (acc_max_age a) (acc_mx a ++ [MxEquals (to_lowercase value)]) end
       end
  else if bytes_eqb key s#"max_age" then
    Ok match parse_unsigned u64_max value with Some x => MkAcc (acc_mode a) x (acc_mx a) | None => a end
  else if bytes_eqb key s#"mode" then
    if bytes_eqb value s#"enforce" then Ok (MkAcc Enforce (acc_max_age a) (acc_mx a))
    else if bytes_eqb value s#"testing" then Ok (MkAcc Testing (acc_max_age a) (acc_mx a))
    else if bytes_eqb value s#"none" then Ok (MkAcc ModeNone (acc_max_age a) (acc_mx a))
    else Err (s#"Unsupported mode " ++ debug_str value ++ s#".")
  else if bytes_eqb key s#"version" then
    if eq_ignore_ascii_case value s#"STSv1" then Ok a else Err (s#"Unsupported version " ++ debug_str value ++ s#".")
  else Ok a.
(* [crates/smtp/src/outbound/mta_sts/parse.rs:21-63] Policy::parse, the loop *)
Fixpoint policy_loop (fuel : nat) (data : list Z) (a : PolicyAcc) : result PolicyAcc (list Z) :=
  match fuel with
  | O => Ok a
  | S fuel =>
      match split_once s#":" data with
      | None => Ok a
      | Some (key, next_data) =>
          let '(value, data) := match split_once [10] next_data with Some (v, d) => (v, d) | None => (next_data, []) end in
          let? a := policy_key (trim key) (trim value) a in
          match data with [] => Ok a | _ => policy_loop fuel data a end
      end
  end.
(* [crates/smtp/src/outbound/mta_sts/parse.rs:16-75] Policy::parse *)
Definition parse_policy (data id : list Z) : result Policy (list Z) :=
  let? a := policy_loop (length data) data (MkAcc ModeNone 86400 []) in
  match acc_mx a with
  | [] => Err s#"No 'mx' entries found."
  | mx => Ok (MkPolicy id (acc_mode a) mx (acc_max_age a))
  end.

(* [crates/smtp/src/outbound/mta_sts/verify.rs:15-38] verify *)
Definition policy_verify (p : Policy) (mx_host : list Z) : bool :=
  match mode p with
  | ModeNone => true
  | _ =>
      existsb (fun x => match x with
                        | MxEquals host => bytes_eqb host mx_host
                        | MxStartsWith domain => match split_once s#"." mx_host with Some (_, suffix) => bytes_eqb suffix domain | None => false end
                        end) (policy_mx p)
  end.
(* [crates/smtp/src/outbound/mta_sts/verify.rs:40-42] enforce *)
Definition enforce (p : Policy) : bool := match mode p with Enforce => true | _ => false end.

(** [MAX_POLICY_SIZE] is the fetch's. *)
(* [crates/smtp/src/outbound/mta_sts/lookup.rs:33-101] lookup_mta_sts_policy *)
Definition lookup_mta_sts_policy (t : Trace) (domain : list Z) (timeout : Z) : result Policy StsError :=
  match sts_record t (s#"_mta-sts." ++ domain ++ s#".") with
  | Err e => match sts_cache t domain with Some p => Ok p | None => Err (StsDns e) end
  | Ok id =>
      let fetch :=
        match sts_fetch t (s#"https://mta-sts." ++ domain ++ s#"/.well-known/mta-sts.txt") timeout with
        | Err e => Err (StsHttp e)
        | Ok None => Err (StsInvalidPolicy s#"Policy too large")
        | Ok (Some bytes) =>
            match decode bytes with
            | None => Err (StsInvalidPolicy (utf8_error bytes))
            | Some _ => match parse_policy bytes id with Ok p => Ok p | Err e => Err (StsInvalidPolicy e) end
            end
        end in
      match sts_cache t domain with
      | Some p => if bytes_eqb (policy_id p) id then Ok p else fetch
      | None => fetch
      end
  end.
End Hosts.
