(* ===== verification/OutboundAttempt.v ===== *)
(** * Trying a group of recipients ([crates/smtp/src/outbound/delivery.rs])

    For a domain and a route: the policies that the domain publishes, its
    hosts, their addresses, a connection with the TLS that settings and
    policies ask for, and the session.  What comes of it is a list of results
    for the recipients, and a trace. *)

From stdpp Require Import gmap.
From S2P Require Import Prelude Decimals Utf8 Text IpMask Milter SmtpData SmtpQueue QueueSpool OutboundClient OutboundSession OutboundHosts.
#[local] Open Scope wire_scope.

(** ** Settings *)

(* [crates/common/src/config/smtp/queue.rs:202-208] RequireOptional *)
Inductive RequireOptional := Optional | Require_ | Disable_.
(* [crates/common/src/config/smtp/queue.rs:126-135] TlsStrategy *)
Record TlsStrategy := MkTlsStrategy {
  dane : RequireOptional; mta_sts : RequireOptional; tls : RequireOptional; allow_invalid_certs : bool;
  timeout_tls : Z; timeout_mta_sts : Z }.
Definition tries (x : RequireOptional) : bool := match x with Disable_ => false | _ => true end.
Definition requires (x : RequireOptional) : bool := match x with Require_ => true | _ => false end.
(* [crates/common/src/config/smtp/queue.rs:690-696] try_start_tls *)
Definition tries_start_tls (s : TlsStrategy) : bool := tries (tls s).
(* [crates/common/src/config/smtp/queue.rs:716-721] is_tls_required *)
Definition is_tls_required (s : TlsStrategy) : bool := requires (tls s) || requires (dane s) || requires (mta_sts s).

(** An address to connect from, with the name to greet with. *)
(* [crates/common/src/config/smtp/queue.rs:151-155] IpAndHost *)
Definition IpAndHost : Type := IpAddr * option (list Z).
(* [crates/common/src/config/smtp/queue.rs:137-149] ConnectionStrategy *)
Record ConnectionStrategy := MkConnection {
  source_ipv4 : list IpAndHost; source_ipv6 : list IpAndHost; ehlo_hostname : option (list Z);
  c_timeout_connect : Z; c_timeout_greeting : Z; c_timeout_ehlo : Z; c_timeout_mail : Z; c_timeout_rcpt : Z; c_timeout_data : Z }.

(** What expressions see of a delivery. *)
(* [crates/smtp/src/queue/mod.rs:262-282] QueueEnvelope *)
Record Envelope := MkEnvelope { env_rcpt : Recipient; env_mx : list Z; env_remote_ip : IpAddr; env_local_ip : IpAddr }.
Definition no_ip : IpAddr := IpV4 0.
Definition envelope_new (r : Recipient) : Envelope := MkEnvelope r [] no_ip no_ip.
Definition set_mx (x : list Z) (e : Envelope) : Envelope := MkEnvelope (env_rcpt e) x (env_remote_ip e) (env_local_ip e).
Definition set_remote_ip (x : IpAddr) (e : Envelope) : Envelope := MkEnvelope (env_rcpt e) (env_mx e) x (env_local_ip e).
Definition set_local_ip (x : IpAddr) (e : Envelope) : Envelope := MkEnvelope (env_rcpt e) (env_mx e) (env_remote_ip e) x.

(** Settings, limiters (the time of the next try), the random choice of a
    source address, the TLS report records and the mail store. *)
Class OutSettings := {
  route_config : nat -> RoutingStrategy;
  tls_of : Message -> Envelope -> TlsStrategy;
  connection_of : Message -> Envelope -> ConnectionStrategy;
  rcpt_limited : Trace -> Message -> Envelope -> list (option Z); remote_limited : Trace -> Message -> Envelope -> list (option Z);
  report_interval : Message -> Envelope -> AggregateFrequency; tls_rpt_record : Trace -> list Z -> result (list Z) AuthError;
  server_name : list Z; choose : Trace -> nat -> nat;
  deliver_message : Trace -> Message -> list (list Z * option (list Z) * bool) -> list LocalDeliveryStatus
}.

Section Attempt.
Context {Cr : Crates} {Wi : Wire} {Wo : World} {Se : OutSettings}.

(** ** Reports *)

(* [crates/smtp/src/reporting/tls.rs:44-47] TlsRptOptions *)
Definition TlsRptOptions : Type := list Z * AggregateFrequency.
Definition schedule_report (r : option TlsRptOptions) (domain : list Z) (policy : PolicyType) (failure : option FailureDetails) : M unit :=
  match r with
  | Some (record, interval) => emit (Reported (MkTlsEvent domain policy failure record interval))
  | None => tret tt
  end.
(* [crates/common/src/ipc.rs:256-264] PolicyType of both policies *)
Definition policy_type (p : option Policy) (t : option Tlsa) : PolicyType :=
  match p, t with Some p, _ => PSts (Some p) | None, Some t => PTlsa (Some t) | None, None => PNone end.

(* [crates/smtp/src/outbound/delivery.rs:326-399] deliver_task, the TLS report *)
Definition tls_report_of (is_smtp is_mx : bool) (m : Message) (e : Envelope) (domain : list Z) : M (option TlsRptOptions) :=
  if is_smtp && is_mx && negb (message_has_flag m (source_flag Report)) then
    match report_interval m e with
    | Never => tret None
    | interval =>
        let# r := looking (fun t => tls_rpt_record t (s#"_smtp._tls." ++ domain ++ s#".")) in
        tret match r with Ok record => Some (record, interval) | Err _ => None end
    end
  else tret None.

(* [crates/smtp/src/outbound/delivery.rs:401-525] deliver_task, the MTA-STS policy *)
Definition sts_policy_of (is_smtp is_mx : bool) (s : TlsStrategy) (report : option TlsRptOptions) (domain : list Z) :
    M (result (option Policy) Status) :=
  if is_mx && tries (mta_sts s) && is_smtp then
    let# r := looking (fun t => lookup_mta_sts_policy t domain (timeout_mta_sts s)) in
    match r with
    | Ok p => tret (Ok (Some p))
    | Err e =>
        let strict := requires (mta_sts s) in
        match e with
        | StsDns (ARecordNotFound _) =>
            if strict then
              schedule_report report domain (PSts None)
                (Some (MkFailure TOther None None (Some s#"MTA-STS is required and no policy was found.")))
            else tret tt
        | StsDns (AResolver _) => tret tt
        | _ => schedule_report report domain (PSts None) (Some (MkFailure (sts_result_type e) None None (Some (sts_error_text e))))
        end ;#
        tret (if strict then Err (from_mta_sts_error domain e) else Ok None)
    end
  else tret (Ok None).

(** ** A host *)

(** The next address, the next host, or the end of the group. *)
Inductive Next := NextIp (last : Status) | NextHost (last : Status) | NextRoute (l : list DeliveryResult).

(* [crates/smtp/src/outbound/delivery.rs:601-660] deliver_task, the host against MTA-STS *)
Definition check_sts (p : option Policy) (report : option TlsRptOptions) (domain mx : list Z) : M (result unit Status) :=
  match p with
  | None => tret (Ok tt)
  | Some p =>
      if policy_verify p mx then tret (Ok tt)
      else
        schedule_report report domain (PSts (Some p))
          (Some (MkFailure TValidationFailure (Some mx) None (Some s#"MX not authorized by policy."))) ;#
        tret (if enforce p then Err (permanent mx (MtaStsError (s#"MX " ++ debug_str mx ++ s#" not authorized by policy."))) else Ok tt)
  end.

(* [crates/smtp/src/outbound/delivery.rs:705-1001] deliver_task, the DANE policy *)
Definition dane_policy_of (is_smtp : bool) (s : TlsStrategy) (h : NextHop) (report : option TlsRptOptions) (domain mx : list Z) :
    M (result (option Tlsa) Status) :=
  if tries (dane s) && is_smtp then
    let strict := requires (dane s) in
    let report_tlsa p r reason := schedule_report report domain p (Some (MkFailure r (Some mx) None (Some reason))) in
    let no_records reason text :=
      if strict then
        report_tlsa (PTlsa None) TDaneRequired reason ;# tret (Err (permanent mx (DaneError text)))
      else tret (Ok None) in
    match hop_dnssec h with
    | Secure =>
        let# r := looking (fun t => tlsa_lookup t (s#"_25._tcp." ++ mx ++ s#".")) in
        match r with
        | Ok (TlsaSecure t) =>
            if has_end_entities t || has_intermediates t then tret (Ok (Some t))
            else
              report_tlsa (PTlsa (Some t)) TTlsaInvalid s#"Invalid TLSA record." ;#
              tret (if strict then Err (permanent mx (DaneError s#"No valid TLSA records were found")) else Ok None)
        | Ok TlsaBogus =>
            report_tlsa (PTlsa None) TDnssecInvalid s#"Bogus TLSA records were found." ;#
            tret (Err (temporary mx (DaneError s#"Bogus TLSA records were found")))
        | Ok TlsaMissing => no_records s#"No TLSA DNSSEC records found." s#"No TLSA DNSSEC records found"
        | Err (ARecordNotFound _) => no_records s#"No TLSA records found for MX." s#"No TLSA records found"
        | Err e => tret (Err (from_mail_auth_error mx e))
        end
    | Bogus =>
        report_tlsa (PTlsa None) TDnssecInvalid s#"Bogus MX records were found." ;#
        tret (Err (temporary mx (DaneError s#"Bogus MX records were found")))
    | _ => no_records s#"MX host is not in a DNSSEC signed zone." s#"No TLSA DNSSEC records found"
    end
  else tret (Ok None).

(** What is known when a connection to a host is made. *)
Record Hop := MkHop {
  hop : NextHop; h_domain : list Z; h_mx : list Z; h_report : option TlsRptOptions; h_sts : option Policy; h_dane : option Tlsa;
  h_tls : TlsStrategy; h_conn : ConnectionStrategy; h_ip : IpAddr }.

(* [crates/smtp/src/outbound/delivery.rs:1108-1112] deliver_task, is_strict_tls *)
Definition is_strict_tls (m : Message) (h : Hop) : bool :=
  is_tls_required (h_tls h) || message_has_flag m MAIL_REQUIRETLS ||
  match h_sts h with Some _ => true | None => false end || match h_dane h with Some _ => true | None => false end.
(* [crates/smtp/src/outbound/delivery.rs:1113-1120] deliver_task, the TLS connector *)
Definition tls_connector (h : Hop) : Connector :=
  if allow_invalid_certs (h_tls h) || hop_allow_invalid_certs (hop h) || match h_dane h with Some _ => true | None => false end
  then DummyVerify else PkiVerify.

Definition with_capabilities {E} (x : option E) (p : SessionParams E) : SessionParams E :=
  MkParams (hostname p) (credentials p) x (is_smtp p) (local_hostname p) (timeout_ehlo p) (timeout_mail p) (timeout_rcpt p) (timeout_data p).

(* [crates/smtp/src/outbound/delivery.rs:1199-1246] deliver_task, DANE is verified *)
Definition verify_dane (h : Hop) : M (result unit Status) :=
  match h_dane h with
  | None => tret (Ok tt)
  | Some t =>
      let# r := looking (fun tr => dane_verify tr t (h_mx h) [h_mx h; h_domain h] (peer_certificates tr)) in
      match r with
      | Ok _ => tret (Ok tt)
      | Err status =>
          schedule_report (h_report h) (h_domain h) (PTlsa (Some t))
            (Some (MkFailure TValidationFailure (Some (h_mx h)) (Some (h_ip h)) (Some s#"No matching certificates found."))) ;#
          tret (Err status)
      end
  end.

(* [crates/smtp/src/outbound/delivery.rs:1168-1359] deliver_task, STARTTLS *)
Definition with_start_tls (c : Client) (caps : EhloResponse) (p : SessionParams EhloResponse) (h : Hop) (m : Message) (idxs : list nat)
    (headers : option (list Z)) : M Next :=
  let report := schedule_report (h_report h) (h_domain h) in
  let failure r reason := Some (MkFailure r (Some (h_mx h)) (Some (h_ip h)) (Some reason)) in
  let# r := try_start_tls (set_timeout (timeout_tls (h_tls h)) c) (tls_connector h) (h_mx h) caps in
  match r with
  | TlsSuccess c =>
      let# v := verify_dane h in
      match v with
      | Err status => tret (NextHost status)
      | Ok _ => report (policy_type (h_sts h) (h_dane h)) None ;# tmap NextRoute (deliver c p m idxs headers)
      end
  | TlsUnavailable response c =>
      report (policy_type (h_sts h) (h_dane h))
        (failure TStartTlsNotSupported match response with Some r => response_text_of r | None => s#"STARTTLS was not advertised by host" end) ;#
      if is_strict_tls m h then tret (NextHost (from_starttls_error (h_mx h) response))
      else tmap NextRoute (deliver c (with_capabilities (Some caps) p) m idxs headers)
  | TlsFailed e =>
      match e with CTls e => report (policy_type (h_sts h) (h_dane h)) (failure TCertificateNotTrusted e) | _ => tret tt end ;#
      tret (NextHost (if is_strict_tls m h then from_tls_error (h_mx h) e else into_temporary (from_tls_error (h_mx h) e)))
  end.

(* [crates/smtp/src/outbound/delivery.rs:1122-1378] deliver_task, a connection in the clear *)
Definition over_clear (c : Client) (p : SessionParams EhloResponse) (h : Hop) (m : Message) (idxs : list nat) (headers : option (list Z)) : M Next :=
  let c := set_timeout (c_timeout_greeting (h_conn h)) c in
  let# r := read_greeting c (h_mx h) in
  match r with
  | Err status => tret (NextHost status)
  | Ok _ =>
      let# r := say_helo c (hostname p) (local_hostname p) (is_smtp p) (timeout_ehlo p) in
      match r with
      | Err status => tret (NextHost status)
      | Ok caps =>
          if tries_start_tls (h_tls h) then with_start_tls c caps p h m idxs headers else tmap NextRoute (deliver c p m idxs headers)
      end
  end.
(* [crates/smtp/src/outbound/delivery.rs:1379-1424] deliver_task, implicit TLS *)
Definition over_implicit_tls (c : Client) (p : SessionParams EhloResponse) (h : Hop) (m : Message) (idxs : list nat) (headers : option (list Z)) :
    M Next :=
  let# r := into_tls (set_timeout (timeout_tls (h_tls h)) c) (tls_connector h) (h_mx h) in
  match r with
  | Err e => tret (NextHost (from_tls_error (h_mx h) e))
  | Ok c =>
      let c := set_timeout (c_timeout_greeting (h_conn h)) c in
      let# r := read_greeting c (h_mx h) in
      match r with
      | Err status => tret (NextHost status)
      | Ok _ => tmap NextRoute (deliver c p m idxs headers)
      end
  end.

(* [crates/smtp/src/outbound/lookup.rs:184-195] source_ip *)
Definition source_ip (t : Trace) (s : ConnectionStrategy) (ip : IpAddr) : option IpAndHost :=
  let ips := match ip with IpV4 _ => source_ipv4 s | IpV6 _ => source_ipv6 s end in
  match ips with [] => None | [x] => Some x | _ => ips !! (choose t (length ips) mod length ips)%nat end.

Definition or_else {A} (x y : option A) : option A := match x with Some _ => x | None => y end.

(** The envelope stays with what was set in it. *)
(* [crates/smtp/src/outbound/delivery.rs:1003-1428] deliver_task, an address *)
Definition try_ip (h : NextHop) (domain : list Z) (report : option TlsRptOptions) (sts : option Policy) (tlsa : option Tlsa) (s : TlsStrategy)
    (m : Message) (idxs : list nat) (headers : option (list Z)) (e : Envelope) (ip : IpAddr) : M (Next * Envelope) :=
  let e := set_remote_ip ip e in
  let mx := env_mx e in
  let# limits := looking (fun t => remote_limited t m e) in
  match first_some limits with
  | Some retry_at => tret (NextRoute [RRateLimited idxs retry_at], e)
  | None =>
      let conn := connection_of m e in
      let# source := looking (fun t => source_ip t conn ip) in
      let e := set_local_ip match source with Some (x, _) => x | None => no_ip end e in
      let# r := connect mx match source with Some (x, _) => Some x | None => None end ip (hop_port h) (c_timeout_connect conn) in
      match r with
      | Err err => tret (NextIp (from_smtp_error mx [] err), e)
      | Ok c =>
          let local := match or_else match source with Some (_, x) => x | None => None end (ehlo_hostname conn) with Some x => x | None => server_name end in
          let p := MkParams mx (hop_credentials h) None (hop_is_smtp h) local (c_timeout_ehlo conn) (c_timeout_mail conn)
                     (c_timeout_rcpt conn) (c_timeout_data conn) in
          let x := MkHop h domain mx report sts tlsa s conn ip in
          let# next := (if hop_implicit_tls h then over_implicit_tls c p x m idxs headers else over_clear c p x m idxs headers) in
          tret (next, e)
      end
  end.

(* [crates/smtp/src/outbound/delivery.rs:1003-1004] deliver_task, each address *)
Fixpoint try_ips (h : NextHop) (domain : list Z) (report : option TlsRptOptions) (sts : option Policy) (tlsa : option Tlsa) (s : TlsStrategy)
    (m : Message) (idxs : list nat) (headers : option (list Z)) (e : Envelope) (last : Status) (l : list IpAddr) : M (Next * Envelope) :=
  match l with
  | [] => tret (NextHost last, e)
  | ip :: l =>
      let# r := try_ip h domain report sts tlsa s m idxs headers e ip in
      match r with
      | (NextIp last, e) => try_ips h domain report sts tlsa s m idxs headers e last l
      | (next, e) => tret (next, e)
      end
  end.

(* [crates/smtp/src/outbound/delivery.rs:600-1004] deliver_task, a host *)
Definition try_host (is_smtp : bool) (domain : list Z) (report : option TlsRptOptions) (sts : option Policy) (m : Message) (idxs : list nat)
    (headers : option (list Z)) (e : Envelope) (last : Status) (h : NextHop) : M (Next * Envelope) :=
  let mx := hop_hostname h in
  let e := set_mx mx e in
  let# r := check_sts sts report domain mx in
  match r with
  | Err status => tret (NextHost status, e)
  | Ok _ =>
      let s := tls_of m e in
      let# r := looking (fun t => resolve_host t h mx) in
      match r with
      | Err status => tret (NextHost status, e)
      | Ok ips =>
          let# r := dane_policy_of is_smtp s h report domain mx in
          match r with
          | Err status => tret (NextHost status, e)
          | Ok tlsa => try_ips h domain report sts tlsa s m idxs headers e last ips
          end
      end
  end.

(* [crates/smtp/src/outbound/delivery.rs:598-600] deliver_task, each host *)
Fixpoint try_hosts (is_smtp : bool) (domain : list Z) (report : option TlsRptOptions) (sts : option Policy) (m : Message) (idxs : list nat)
    (headers : option (list Z)) (e : Envelope) (last : Status) (l : list NextHop) : M (list DeliveryResult) :=
  match l with
  | [] => tret [RDomain last idxs]
  | h :: l =>
      let# r := try_host is_smtp domain report sts m idxs headers e last h in
      match r with
      | (NextRoute l, _) => tret l
      | (NextIp last, e) | (NextHost last, e) => try_hosts is_smtp domain report sts m idxs headers e last l
      end
  end.

(** The hosts, or what becomes of the recipients without one. *)
(* [crates/smtp/src/outbound/delivery.rs:527-596] deliver_task, the hosts *)
Definition hosts_of (domain : list Z) (route : RoutingStrategy) (idxs : list nat) : M (result (list NextHop) (list DeliveryResult)) :=
  match route with
  | RouteMx config =>
      let# r := looking (fun t => match mx_lookup t domain with
                                  | Ok r => Ok (to_remote_hosts t r domain config)
                                  | Err (ARecordNotFound _) => Ok (to_remote_hosts t (MkMxRecords [] Indeterminate) domain config)
                                  | Err e => Err e
                                  end) in
      tret match r with
           | Ok (Some l) => Ok l
           | Ok None => Err [RDomain (permanent domain (DnsError s#"Domain does not accept messages (null MX)")) idxs]
           | Err e => Err [RDomain (from_mail_auth_error domain e) idxs]
           end
  | RouteRelay r => tret (Ok [HopRelay r])
  | RouteLocal => tret (Ok [])
  end.

(* [crates/smtp/src/outbound/delivery.rs:300-600] deliver_task, a group over SMTP *)
Definition deliver_remote (m : Message) (domain : list Z) (route : RoutingStrategy) (headers : option (list Z)) (idxs : list nat) (e : Envelope) :
    M (list DeliveryResult) :=
  let is_mx := match route with RouteMx _ => true | _ => false end in
  let is_smtp := match route with RouteRelay r => relay_smtp r | _ => true end in
  let s := tls_of m e in
  let# report := tls_report_of is_smtp is_mx m e domain in
  let# sts := sts_policy_of is_smtp is_mx s report domain in
  match sts with
  | Err status => tret [RDomain status idxs]
  | Ok sts =>
      let# hosts := hosts_of domain route idxs in
      match hosts with
      | Err l => tret l
      | Ok hosts => try_hosts is_smtp domain report sts m idxs headers e Scheduled hosts
      end
  end.

(** A group has a recipient. *)
(* [crates/smtp/src/outbound/delivery.rs:269-316] deliver_task, a group *)
Definition deliver_group (m : Message) (g : RouteKey * list nat) : M (list DeliveryResult) :=
  let '((domain, route, headers), idxs) := g in
  match idxs with
  | [] => tret []
  | i :: _ =>
      match recipients m !! i with
      | None => tret []
      | Some r =>
          let e := envelope_new r in
          let# limits := looking (fun t => rcpt_limited t m e) in
          match first_some limits with
          | Some retry_at => tret [RRateLimited idxs retry_at]
          | None =>
              match route_config route with
              | RouteLocal => deliver_local deliver_message m idxs
              | route => deliver_remote m domain route headers idxs e
              end
          end
      end
  end.

(* [crates/smtp/src/outbound/delivery.rs:269-271] deliver_task, each group *)
Fixpoint deliver_groups (m : Message) (l : Routes) : M (list DeliveryResult) :=
  match l with
  | [] => tret []
  | g :: l => let# x := deliver_group m g in let# y := deliver_groups m l in tret (x ++ y)
  end.
End Attempt.
