(* ===== verification/OutboundLogic.v ===== *)
(** * Reasoning about what is sent

    [tells Q m]: the result of [m] and the events it adds satisfy [Q],
    whatever happened before; [says R F m]: the result satisfies [R] and every
    event [F].  Rules for the monad, and for the operations of a client: they
    only write and read on its connection. *)

From stdpp Require Import gmap.
From S2P Require Import Prelude Decimals Utf8 Text IpMask Milter SmtpData SmtpQueue QueueSpool OutboundClient OutboundSession OutboundHosts OutboundAttempt.
#[local] Open Scope wire_scope.

Create HintDb wire.

Definition tells {A} (Q : A -> Trace -> Prop) (m : M A) : Prop := forall t, Q (fst (m t)) (snd (m t)).
Definition says {A} (R : A -> Prop) (F : Act -> Prop) (m : M A) : Prop := tells (fun x l => R x /\ Forall F l) m.

Lemma tells_tret {A} (Q : A -> Trace -> Prop) x : Q x [] -> tells Q (tret x).
Proof. intros H t. exact H. Qed.
Lemma tells_looking {A} (Q : A -> Trace -> Prop) f : (forall t, Q (f t) []) -> tells Q (looking f).
Proof. intros H t. exact (H t). Qed.
Lemma tells_emit (Q : unit -> Trace -> Prop) a : Q tt [a] -> tells Q (emit a).
Proof. intros H t. exact H. Qed.
Lemma tells_tbind {A B} (Q1 : A -> Trace -> Prop) (Q2 : B -> Trace -> Prop) (m : M A) (f : A -> M B) :
  tells Q1 m -> (forall x l, Q1 x l -> tells (fun y l' => Q2 y (l ++ l')) (f x)) -> tells Q2 (tbind m f).
Proof.
  intros H1 H2 t. unfold tbind. specialize (H1 t). destruct (m t) as [x l]. specialize (H2 x l H1 (t ++ l)).
  destruct (f x (t ++ l)) as [y l']. exact H2.
Qed.
Lemma tells_mono {A} (Q Q' : A -> Trace -> Prop) m : (forall x l, Q x l -> Q' x l) -> tells Q m -> tells Q' m.
Proof. intros H K t. apply H, K. Qed.

Lemma says_tret {A} (R : A -> Prop) F x : R x -> says R F (tret x).
Proof. intros H. apply tells_tret. auto. Qed.
Lemma says_looking {A} (R : A -> Prop) F f : (forall t, R (f t)) -> says R F (looking f).
Proof. intros H. apply tells_looking. auto. Qed.
Lemma says_emit (R : unit -> Prop) (F : Act -> Prop) a : R tt -> F a -> says R F (emit a).
Proof. intros H K. apply tells_emit. auto. Qed.
Lemma says_tbind {A B} (R1 : A -> Prop) (R2 : B -> Prop) F (m : M A) (f : A -> M B) :
  says R1 F m -> (forall x, R1 x -> says R2 F (f x)) -> says R2 F (tbind m f).
Proof.
  intros H1 H2. apply (tells_tbind _ _ _ _ H1). intros x l [Hx Hl] t. destruct (H2 x Hx t) as [Hy Hl']. split; [exact Hy |].
  apply Forall_app. auto.
Qed.
Lemma says_map {A B} (R : B -> Prop) F (f : A -> B) (m : M A) : says (fun x => R (f x)) F m -> says R F (tmap f m).
Proof. intros H. apply (says_tbind _ _ _ _ _ H). intros x Hx. apply says_tret, Hx. Qed.
Lemma says_mono {A} (R R' : A -> Prop) F m : (forall x, R x -> R' x) -> says R F m -> says R' F m.
Proof. intros H. apply tells_mono. intros x l [Hx Hl]. auto. Qed.
Definition anything {A} (x : A) : Prop := True.
Lemma says_any {A} (R : A -> Prop) F m : says R F m -> says anything F m.
Proof. apply says_mono. intros. exact I. Qed.

(** A step of a proof: bind, test, or end; what is left is about operations. *)
Ltac says_step :=
  match goal with
  | |- says _ _ (tret _) => apply says_tret
  | |- says _ _ (looking _) => apply says_looking; intros ?t
  | |- says _ _ (emit _) => apply says_emit
  | |- says _ _ (tbind (looking _) _) => apply (says_tbind anything); [apply says_looking; intros; exact I | intros ?x _]
  | |- says _ _ (tmap _ _) => apply says_map
  | |- says _ _ (let '(_, _) := ?x in _) => destruct x
  | |- says _ _ (match ?x with _ => _ end) => destruct x eqn:?
  end.

Section Rules.
Context {Cr : Crates} {Wi : Wire} {Wo : World} {Se : OutSettings}.

(** *** The client *)

Section Client.
Variables (c : Client) (F : Act -> Prop).
(** What is read on a connection of this kind is allowed. *)
Hypothesis reads_ok : forall b, F (Received (over_tls c) b).

Lemma write_all_says n b : F (Wrote (over_tls c) b) -> says anything F (write_all (set_timeout n c) b).
Proof. intros H t. cbn. split; [exact I | constructor; [exact H | constructor]]. Qed.

Lemma read_loop_acts p l e : Forall F (snd (read_loop (over_tls c) p l e)).
Proof.
  revert p. induction l as [| b l IH]; intros p; cbn; [constructor |]. destruct b as [| x b]; [constructor |].
  destruct (reply_parse p (x :: b)) as [[p' r] rest]. destruct r as [r | [| k |]]; cbn; try (repeat constructor; apply reads_ok).
  specialize (IH p'). destruct (read_loop _ p' l e). constructor; [apply reads_ok | exact IH].
Qed.
Lemma read_says n : says anything F (read (set_timeout n c)).
Proof. intros t. unfold read. destruct (arrivals t _) as [l e]. split; [exact I | apply read_loop_acts]. Qed.

Lemma read_ehlo_acts b l e : Forall F (snd (read_ehlo_loop (over_tls c) b l e)).
Proof.
  revert b. induction l as [| x l IH]; intros b; cbn; [constructor |]. destruct x as [| x y]; [constructor |].
  assert (K : Forall F (snd (let '(r, t) := read_ehlo_loop (over_tls c) (b ++ x :: y) l e in (r, Received (over_tls c) (x :: y) :: t)))).
  { specialize (IH (b ++ x :: y)). destruct (read_ehlo_loop _ _ l e). constructor; [apply reads_ok | exact IH]. }
  case_if; [repeat constructor; apply reads_ok |]. destruct (ehlo_parse _) as [[r | [| k |]] rest]; try exact K; try (repeat constructor; apply reads_ok).
  destruct (reply_parse _ rest) as [[p [r | [| k' |]]] rest']; try exact K; repeat constructor; apply reads_ok.
Qed.
Lemma read_ehlo_says n : says anything F (read_ehlo (set_timeout n c)).
Proof. intros t. unfold read_ehlo. destruct (arrivals t _) as [l e]. split; [exact I | apply read_ehlo_acts]. Qed.

Lemma read_many_acts k p acc l e : Forall F (snd (read_many_loop (over_tls c) k p acc l e)).
Proof.
  revert k p acc. induction l as [| b l IH]; intros k p acc; cbn; [constructor |]. destruct b as [| x b]; [constructor |].
  destruct (parse_many k p (x :: b) acc) as [[[[p' k'] acc'] | err] | r]; try (repeat constructor; apply reads_ok).
  specialize (IH k' p' acc'). destruct (read_many_loop _ k' p' acc' l e). constructor; [apply reads_ok | exact IH].
Qed.
Lemma read_many_says n k : says anything F (read_many (set_timeout n c) k).
Proof. intros t. unfold read_many. destruct (arrivals t _) as [l e]. split; [exact I | apply read_many_acts]. Qed.

Lemma write_then {A} (m : M (result A Wrong)) n b :
  F (Wrote (over_tls c) b) -> says anything F m -> says anything F (try# x := write_all (set_timeout n c) b in m).
Proof. intros H K. apply (says_tbind anything); [apply write_all_says, H |]. intros x _. destruct x; [exact K | apply says_tret; exact I]. Qed.

Lemma cmd_says n b : F (Wrote (over_tls c) b) -> says anything F (cmd (set_timeout n c) b).
Proof. intros H. apply says_map, (says_any anything), write_then; [exact H | apply read_says]. Qed.
Lemma say_helo_says h l s n : F (Wrote (over_tls c) ((if s : bool then s#"EHLO " else s#"LHLO ") ++ l ++ crlf)) -> says anything F (say_helo c h l s n).
Proof. intros H. apply says_map, (says_any anything), write_then; [exact H | apply read_ehlo_says]. Qed.
Lemma read_greeting_says n h : says anything F (read_greeting (set_timeout n c) h).
Proof. apply says_map, (says_any anything), read_says. Qed.

(** And anything that is written. *)
Hypothesis writes_ok : forall b, F (Wrote (over_tls c) b).

Lemma write_chunks_says n l : says anything F (write_chunks (set_timeout n c) l).
Proof. induction l as [| b l IH]; [apply says_tret; exact I |]. cbn. apply write_then; [apply writes_ok | exact IH]. Qed.
Lemma write_data_says n raw headers bdat : says anything F (write_data (set_timeout n c) raw headers bdat).
Proof.
  unfold write_data. destruct bdat; [apply write_chunks_says |].
  apply (says_tbind anything); [apply write_chunks_says | intros [x | x] _; [| apply says_tret; exact I]].
  apply (says_tbind anything); [apply read_says | intros [r | r] _; [| apply says_tret; exact I]].
  destruct (assert_code 354 r); [| apply says_tret; exact I].
  apply (says_tbind anything); [| intros [y | y] _; [apply write_chunks_says | apply says_tret; exact I]].
  destruct headers; [apply write_chunks_says | apply says_tret; exact I].
Qed.
Lemma send_message_says h n m headers chunking : says anything F (send_message c h n m headers chunking).
Proof.
  unfold send_message. says_step. destruct x as [[raw |] |]; try (apply says_tret; exact I).
  apply (says_tbind anything); [apply write_data_says | intros r _; apply says_tret; exact I].
Qed.
Lemma quit_says : says anything F (quit c).
Proof.
  apply (says_tbind anything); [apply write_all_says, writes_ok | intros [x | x] _; [| apply says_tret; exact I]]. intros t. cbn.
  destruct (fst (arrivals t 10)) as [| [| b l] l']; (split; [exact I |]); repeat constructor. apply reads_ok.
Qed.

Lemma auth_rounds_says n cr k j r : says anything F (auth_rounds (set_timeout n c) cr k j r).
Proof.
  revert r. induction j as [| j IH]; intros r; [apply says_tret; exact I |]. cbn.
  case_if; [| case_if; apply says_tret; exact I]. destruct (encode_credentials _ _ _); [| apply says_tret; exact I].
  apply (says_tbind anything); [apply cmd_says, writes_ok | intros [x | x] _; [apply IH | apply says_tret; exact I]].
Qed.
Lemma auth_says n cr k : says anything F (auth (set_timeout n c) cr k).
Proof.
  unfold auth. case_if; [destruct (encode_credentials _ _ _); [| apply says_tret; exact I] |];
    (apply (says_tbind anything); [apply cmd_says, writes_ok | intros [x | x] _; [apply auth_rounds_says | apply says_tret; exact I]]).
Qed.
Lemma auth_loop_says n cr fuel a e : says anything F (auth_loop (set_timeout n c) cr fuel a e).
Proof.
  revert a e. induction fuel as [| fuel IH]; intros a e; [apply says_tret; exact I |]. cbn. case_if; [apply says_tret; exact I |].
  apply (says_tbind anything); [apply auth_says |]. intros [x | x] _; [apply says_tret; exact I |].
  destruct x; try (apply says_tret; exact I); [case_if; [apply says_tret; exact I | apply IH] | apply IH].
Qed.
End Client.

Lemma same_timeout c : c = set_timeout (timeout c) c.
Proof. destruct c. reflexivity. Qed.

(** *** The session *)

Section Deliver.
Variables (c : Client) (F : Act -> Prop).
Hypothesis writes_ok : forall b, F (Wrote (over_tls c) b).
Hypothesis reads_ok : forall b, F (Received (over_tls c) b).

Lemma quit_then {A} n (x : A) : says anything F (quit (set_timeout n c) ;# tret x).
Proof. apply (says_tbind anything); [apply (quit_says (set_timeout n c)); auto | intros; apply says_tret; exact I]. Qed.

Lemma rcpt_loop_says n p caps m all l acc st : says anything F (rcpt_loop (set_timeout n c) p caps m all l acc st).
Proof.
  revert acc st. induction l as [| i l IH]; intros acc st; [apply says_tret; exact I |]. cbn [rcpt_loop].
  destruct (recipients m !! i) as [r |]; [| apply IH]. case_if; [apply IH |].
  apply (says_tbind anything); [apply cmd_says; auto |]. intros [x | x] _; [| apply quit_then].
  destruct (severity x); apply IH.
Qed.
Lemma deliver_data_says n p caps m all headers acc st : says anything F (deliver_data (set_timeout n c) p caps m all headers acc st).
Proof.
  unfold deliver_data. apply (says_tbind anything); [apply (send_message_says (set_timeout n c)); auto |].
  intros [bdat [x | x]] _; [| apply quit_then]. case_if.
  - apply (says_tbind anything); [apply says_map, (says_any anything), read_says; auto |]. intros [r | r] _; [| apply quit_then].
    case_if; apply quit_then.
  - apply (says_tbind anything); [apply says_map, (says_any anything), read_many_says; auto |]. intros [r | r] _; apply quit_then.
Qed.
Lemma transaction_says p caps m all headers : says anything F (transaction c p caps m all headers).
Proof.
  unfold transaction. apply (says_tbind anything); [apply cmd_says; auto |]. intros r _.
  destruct (match r with Ok _ => _ | Err _ => _ end); [| apply quit_then].
  apply (says_tbind anything); [apply (rcpt_loop_says (timeout_rcpt p)) |]. intros [[acc st] | st] _; [| apply says_tret; exact I].
  destruct acc; [apply quit_then | apply (deliver_data_says (timeout_rcpt p))].
Qed.
Lemma deliver_says p m idxs headers : says anything F (deliver c p m idxs headers).
Proof.
  assert (Q : forall A (x : A), says anything F (quit c ;# tret x)) by (intros; rewrite (same_timeout c); apply quit_then).
  assert (K : forall caps, says anything F (authenticated_transaction c p caps m idxs headers)).
  { intros caps. unfold authenticated_transaction. destruct (credentials p) as [cr |]; [| apply transaction_says].
    apply (says_tbind anything); [| intros [x | x] _; [apply transaction_says | apply Q]]. unfold authenticate. rewrite (same_timeout c). apply auth_loop_says; auto. }
  unfold deliver. destruct (capabilities p); [apply K |]. apply (says_tbind anything); [apply say_helo_says; auto |].
  intros [caps | st] _; [apply K | apply Q].
Qed.
End Deliver.
End Rules.

(** ** A whole attempt

    Events that an attempt may add: reads, anything over TLS, in the clear
    only what is harmless, reports, connections that the policy allows, and
    handshakes with the connector of a host. *)

Section Attempts.
Context {Cr : Crates} {Wi : Wire} {Wo : World} {Se : OutSettings}.

(** A name that the settings give to this server. *)
Definition own_name (m : Message) (name : list Z) : Prop :=
  name = server_name \/
  exists e, ehlo_hostname (connection_of m e) = Some name \/
            exists ip, In (ip, Some name) (source_ipv4 (connection_of m e) ++ source_ipv6 (connection_of m e)).
(** A greeting, or the request for TLS. *)
Definition harmless (m : Message) (b : list Z) : Prop :=
  b = s#"STARTTLS" ++ crlf \/ exists verb name, (verb = s#"EHLO " \/ verb = s#"LHLO ") /\ own_name m name /\ b = verb ++ name ++ crlf.
Variables (m : Message) (sts : option Policy) (host_ok : NextHop -> Prop) (dane_ok : option Tlsa -> Prop) (F : Act -> Prop).

(** What is known of a host when a connection is made. *)
Definition hop_ok (h : Hop) : Prop :=
  (exists e, h_tls h = tls_of m e) /\ h_sts h = sts /\ host_ok (hop h) /\ dane_ok (h_dane h) /\
  match h_dane h with Some _ => tries (dane (h_tls h)) = true | None => True end.
Definition authorized (mx : list Z) : Prop := forall p, sts = Some p -> enforce p = true -> policy_verify p mx = true.

Hypothesis F_read : forall tls b, F (Received tls b).
Hypothesis F_tls : forall b, F (Wrote true b).
Hypothesis F_clear : forall b, harmless m b -> F (Wrote false b).
Hypothesis F_report : forall e, F (Reported e).
Hypothesis F_connect : forall mx ip port, authorized mx -> F (Connected mx ip port).
Hypothesis F_handshake : forall h, hop_ok h -> F (Handshaken (h_mx h) (tls_connector h)).

(** TLS is tried, and insisted on. *)
Hypothesis strict : forall h, hop_ok h -> is_strict_tls m h = true.
Hypothesis tried : forall e, tries_start_tls (tls_of m e) = true.

Lemma report_says r d p f : says anything F (schedule_report r d p f).
Proof. unfold schedule_report. destruct r as [[record i] |]; [apply says_emit; [exact I | apply F_report] | apply says_tret; exact I]. Qed.
Lemma report_then {A} (R : A -> Prop) r d p f x : says R F x -> says R F (schedule_report r d p f ;# x).
Proof. intros H. apply (says_tbind anything); [apply report_says | intros; exact H]. Qed.

Lemma harmless_hello (s : bool) name : own_name m name -> harmless m ((if s then s#"EHLO " else s#"LHLO ") ++ name ++ crlf).
Proof. intros N. right. exists (if s then s#"EHLO " else s#"LHLO "), name. destruct s; auto. Qed.
Lemma own_names t e ip : own_name m
  match or_else match source_ip t (connection_of m e) ip with Some (_, x) => x | None => None end (ehlo_hostname (connection_of m e)) with
  | Some x => x | None => server_name end.
Proof.
  assert (K : forall x, (let conn := connection_of m e in source_ip t conn ip = Some x) ->
    In x (source_ipv4 (connection_of m e) ++ source_ipv6 (connection_of m e))).
  { intros x. unfold source_ip. intros H. apply in_or_app.
    assert (In x match ip with IpV4 _ => source_ipv4 (connection_of m e) | IpV6 _ => source_ipv6 (connection_of m e) end) by
      (destruct (match ip with IpV4 _ => _ | IpV6 _ => _ end) as [| y [| z l]]; [discriminate | injection H as ->; left; reflexivity | apply list_elem_of_In, (list_elem_of_lookup_2 _ _ _ H)]).
    destruct ip; auto. }
  destruct (source_ip t (connection_of m e) ip) as [[a [name |]] |] eqn:S; cbn [or_else].
  - right. exists e. right. exists a. exact (K _ S).
  - destruct (ehlo_hostname _) eqn:E; [right; exists e; left; exact E | left; reflexivity].
  - destruct (ehlo_hostname _) eqn:E; [right; exists e; left; exact E | left; reflexivity].
Qed.

Definition secured (r : StartTlsResult) : Prop := match r with TlsSuccess c => over_tls c = true | _ => True end.
Lemma try_start_tls_says c h caps : over_tls c = false -> hop_ok h -> says secured F (try_start_tls c (tls_connector h) (h_mx h) caps).
Proof.
  intros C H. unfold try_start_tls. case_if; [| apply says_tret; exact I]. apply (says_tbind anything).
  - rewrite (same_timeout c). apply cmd_says; [intros; apply F_read | rewrite C; apply F_clear; left; reflexivity].
  - intros [r | r] _; [| apply says_tret; exact I]. case_if; [| apply says_tret; exact I].
    apply (says_tbind (fun r => match r with Ok c => over_tls c = true | Err _ => True end)); [| intros [x | x] X; apply says_tret; exact X].
    unfold into_tls. case_if; [| apply says_tret; exact I]. intros t. cbn. split; [destruct (handshakes t _ _ _); [exact I | reflexivity] |].
    constructor; [apply F_handshake, H | constructor].
Qed.
Lemma into_tls_says c h : hop_ok h -> says (fun r => match r with Ok c => over_tls c = true | Err _ => True end) F (into_tls c (tls_connector h) (h_mx h)).
Proof.
  intros H. unfold into_tls. case_if; [| apply says_tret; exact I]. intros t. cbn. split; [destruct (handshakes t _ _ _); [exact I | reflexivity] |].
  constructor; [apply F_handshake, H | constructor].
Qed.

Lemma deliver_over_tls c p idxs headers : over_tls c = true -> says anything F (tmap NextRoute (deliver c p m idxs headers)).
Proof. intros C. apply says_map, (says_any anything), deliver_says; intros b; rewrite C; auto. Qed.

Lemma verify_dane_says h : says anything F (verify_dane h).
Proof.
  unfold verify_dane. destruct (h_dane h); [| apply says_tret; exact I]. says_step. destruct x; [apply says_tret; exact I |].
  apply report_then, says_tret. exact I.
Qed.

Lemma with_start_tls_says c caps p h idxs headers : over_tls c = false -> hop_ok h ->
  says anything F (with_start_tls c caps p h m idxs headers).
Proof.
  intros C H. unfold with_start_tls. apply (says_tbind secured); [apply try_start_tls_says; assumption |]. intros [c' | e | r c'] S.
  - apply (says_tbind anything); [apply verify_dane_says |]. intros [v | v] _; [| apply says_tret; exact I].
    apply report_then, deliver_over_tls, S.
  - apply (says_tbind anything); [destruct e; try (apply says_tret; exact I); apply report_says | intros; apply says_tret; exact I].
  - apply report_then. rewrite (strict h H). apply says_tret. exact I.
Qed.

Lemma over_clear_says c p h idxs headers : over_tls c = false -> hop_ok h -> own_name m (local_hostname p) -> says anything F (over_clear c p h m idxs headers).
Proof.
  intros C H N. unfold over_clear. apply (says_tbind anything); [apply read_greeting_says; intros; apply F_read |]. intros [x | x] _; [| apply says_tret; exact I].
  apply (says_tbind anything).
  - apply say_helo_says; [intros; apply F_read |]. cbn. rewrite C. apply F_clear, harmless_hello, N.
  - intros [caps | st] _; [| apply says_tret; exact I]. destruct H as ((e & E) & H). rewrite E, tried. apply with_start_tls_says; [exact C |].
    split; [exists e; exact E | exact H].
Qed.
Lemma over_implicit_tls_says c p h idxs headers : hop_ok h -> says anything F (over_implicit_tls c p h m idxs headers).
Proof.
  intros H. unfold over_implicit_tls. eapply says_tbind; [apply into_tls_says, H |]. intros [c' | e] C; [| apply says_tret; exact I].
  apply (says_tbind anything); [apply read_greeting_says; intros; apply F_read |]. intros [x | x] _; [| apply says_tret; exact I].
  apply deliver_over_tls. exact C.
Qed.

Definition kept_mx (e : Envelope) (x : Next * Envelope) : Prop := env_mx (snd x) = env_mx e.

Lemma try_ip_says h domain report dane s idxs headers e ip :
  (exists e, s = tls_of m e) -> host_ok h -> (forall ip port, F (Connected (env_mx e) ip port)) -> dane_ok dane -> match dane with Some _ => tries (OutboundAttempt.dane s) = true | None => True end ->
  says (kept_mx e) F (try_ip h domain report sts dane s m idxs headers e ip).
Proof.
  intros S H A Dk D. unfold try_ip. says_step. destruct (first_some x); [apply says_tret; reflexivity |].
  apply (says_tbind (fun source => own_name m
    match or_else match source with Some (_, y) => y | None => None end (ehlo_hostname (connection_of m (set_remote_ip ip e))) with
    | Some y => y | None => server_name end)); [apply says_looking; intros; apply own_names |]. intros source N.
  eapply (says_tbind (fun r => match r with Ok c => over_tls c = false | Err _ => True end)).
  { intros t. cbn. split; [destruct (connects t _ _ _ _); [exact I | reflexivity] |]. constructor; [apply A | constructor]. }
  intros [c | err] C; [| apply says_tret; reflexivity]. apply (says_tbind anything); [| intros y _; apply says_tret; reflexivity].
  match goal with |- context [MkHop ?a ?b ?c ?d ?f ?g ?i ?j ?k] => assert (K : hop_ok (MkHop a b c d f g i j k)) by (split; [exact S | split_and!; [reflexivity | exact H | exact Dk | exact D]]) end.
  case_if; [apply over_implicit_tls_says, K | apply over_clear_says; [exact C | exact K |]]. apply N.
Qed.

Lemma try_ips_says h domain report dane s idxs headers e last l :
  (exists e, s = tls_of m e) -> host_ok h -> (forall ip port, F (Connected (env_mx e) ip port)) -> dane_ok dane -> match dane with Some _ => tries (OutboundAttempt.dane s) = true | None => True end ->
  says anything F (try_ips h domain report sts dane s m idxs headers e last l).
Proof.
  intros S H A Dk D. revert e last A. induction l as [| ip l IH]; intros e last A; [apply says_tret; exact I |]. cbn.
  eapply says_tbind; [apply try_ip_says; assumption |]. intros [n e'] E. unfold kept_mx in E. cbn in E.
  destruct n; [apply IH; rewrite E; exact A | apply says_tret; exact I | apply says_tret; exact I].
Qed.

Definition dane_tried (s : TlsStrategy) (r : result (option Tlsa) Status) : Prop :=
  match r with Ok (Some _) => tries (dane s) = true | _ => True end.
Lemma dane_policy_says is_smtp s h report domain mx : says (dane_tried s) F (dane_policy_of is_smtp s h report domain mx).
Proof.
  unfold dane_policy_of. destruct (tries (dane s) && is_smtp) eqn:T; [| apply says_tret; exact I]. apply andb_true_iff in T as [T _].
  assert (N : forall r t, says (dane_tried s) F
    (if requires (dane s) then schedule_report report domain (PTlsa None) (Some (MkFailure TDaneRequired (Some mx) None (Some r))) ;#
       tret (Err (permanent mx (DaneError t))) else tret (Ok None))).
  { intros r t. case_if; [apply report_then |]; apply says_tret; exact I. }
  destruct (hop_dnssec h); try apply N; [| apply report_then, says_tret; exact I].
  apply (says_tbind anything); [apply says_looking; intros; exact I |]. intros [[t | |] | err] _; try apply N.
  - case_if; [apply says_tret; exact T |]. apply report_then, says_tret. case_if; exact I.
  - apply report_then, says_tret. exact I.
  - destruct err; try apply N; apply says_tret; exact I.
Qed.

Lemma check_sts_says report domain mx : says (fun r => r = Ok tt -> authorized mx) F (check_sts sts report domain mx).
Proof.
  unfold check_sts, authorized. destruct sts as [p |]; [| apply says_tret; discriminate]. destruct (policy_verify p mx) eqn:V.
  - apply says_tret. intros _ q Q. injection Q as <-. auto.
  - apply report_then, says_tret. destruct (enforce p) eqn:E; [discriminate |]. intros _ q Q. injection Q as <-. congruence.
Qed.

Lemma try_host_says is_smtp domain report idxs headers e last h : host_ok h -> (forall d, dane_ok d) ->
  says anything F (try_host is_smtp domain report sts m idxs headers e last h).
Proof.
  intros H Dk. unfold try_host. eapply says_tbind; [apply check_sts_says |]. intros [[] | st] A; [| apply says_tret; exact I].
  says_step. destruct x as [ips | st]; [| apply says_tret; exact I].
  eapply says_tbind; [apply dane_policy_says |]. intros [d | st] D; [| apply says_tret; exact I].
  apply try_ips_says; [eexists; reflexivity | exact H | intros; apply F_connect; exact (A eq_refl) | apply Dk | destruct d; [exact D | exact I]].
Qed.
Lemma try_hosts_says is_smtp domain report idxs headers e last l : Forall host_ok l -> (forall d, dane_ok d) ->
  says anything F (try_hosts is_smtp domain report sts m idxs headers e last l).
Proof.
  intros H Dk. revert e last. induction H as [| h l Hh H IH]; intros e last; [apply says_tret; exact I |]. cbn.
  apply (says_tbind anything); [apply try_host_says; assumption |]. intros [[x | x | x] e'] _; [apply IH | apply IH | apply says_tret; exact I].
Qed.
End Attempts.
