(* ===== verification/OutboundSafety.v ===== *)
(** * What a delivery does, step by step

    Lemmas behind the guarantees of outbound delivery: which recipients the
    results are about, that a delivery was acknowledged, that TLSA records
    were checked before anything is written, and what the bytes of a message
    look like on the wire. *)

From stdpp Require Import gmap.
From S2P Require Import Prelude Decimals Utf8 Text IpMask Milter SmtpData SmtpQueue QueueSpool OutboundClient OutboundSession OutboundHosts OutboundAttempt OutboundLogic.
#[local] Open Scope wire_scope.

(** ** The transparency procedure *)

Definition is_eol (b : Z) : bool := (b =? 10) || (b =? 13).
(** What a receiver undoes: a dot after a CR or LF is dropped. *)
Fixpoint undot (after_eol : bool) (l : list Z) : list Z :=
  match l with
  | [] => []
  | b :: l => if (b =? c#".") && after_eol then undot false l else b :: undot (is_eol b) l
  end.
(** The same bytes without pieces. *)
Fixpoint dotted (after_eol : bool) (l : list Z) : list Z :=
  match l with
  | [] => []
  | b :: l => if (b =? c#".") && after_eol then c#"." :: b :: dotted false l else b :: dotted (is_eol b) l
  end.

Lemma pieces_dotted cur f l : concat (dot_pieces cur f l) = cur ++ dotted f l.
Proof.
  revert cur f. induction l as [| b l IH]; intros cur f; cbn [dot_pieces dotted]; [cbn; rewrite !app_nil_r; reflexivity |].
  destruct ((b =? c#".") && f) eqn:E; cbn [concat].
  - rewrite IH. apply andb_true_iff in E as [E _]. apply Z.eqb_eq in E as ->. reflexivity.
  - rewrite IH, <- app_assoc. reflexivity.
Qed.

Lemma undot_dotted f l : undot f (dotted f l) = l.
Proof.
  revert f. induction l as [| b l IH]; intros f; cbn [dotted]; [reflexivity |].
  destruct ((b =? c#".") && f) eqn:B.
  - apply andb_true_iff in B as [B ->]. apply Z.eqb_eq in B as ->. cbn. rewrite IH. reflexivity.
  - cbn [undot]. rewrite B, IH. reflexivity.
Qed.

(** A dot after an end of line is followed by another one. *)
Lemma dotted_no_end f l a x y b : dotted f l = a ++ x :: c#"." :: y :: b -> is_eol x = true -> y = c#".".
Proof.
  revert f a. induction l as [| h l IH]; intros f a; [intros H; destruct a; discriminate |]. cbn [dotted].
  assert (K : forall g t, dotted true t = c#"." :: y :: g -> y = c#".").
  { intros g [| k t]; cbn; [intros H; discriminate |]. destruct (k =? 46) eqn:E; cbn; intros [= H1 H2]; [apply Z.eqb_eq in E; congruence |].
    subst k. discriminate. }
  destruct ((h =? c#".") && f) eqn:E.
  - destruct a as [| a0 [| a1 a]]; cbn; intros [= H1 H2] X; subst; try discriminate.
    + apply andb_true_iff in E as [E _]. apply Z.eqb_eq in E. subst. discriminate.
    + exact (IH false a H0 X).
  - destruct a as [| a0 a]; cbn; intros [= H1 H2] X; subst; [rewrite X in H2; exact (K _ _ H2) | exact (IH _ a H2 X)].
Qed.

(** Nor is one left at the end. *)
Lemma dotted_no_dot f l a x : dotted f l = a ++ [x; c#"."] -> is_eol x = false.
Proof.
  revert f a. induction l as [| h l IH]; intros f a; [intros H; destruct a; discriminate |]. cbn [dotted].
  assert (K : forall t, dotted true t <> [c#"."]).
  { intros [| k t]; cbn; [discriminate |]. destruct (k =? 46) eqn:E; cbn; [discriminate |]. intros [= -> _]. discriminate. }
  destruct ((h =? c#".") && f) eqn:E.
  - destruct a as [| a0 [| a1 a]]; cbn; intros [= H1 H2]; subst; [reflexivity | | exact (IH false a H0)].
    apply andb_true_iff in E as [E _]. apply Z.eqb_eq in E. subst. reflexivity.
  - destruct a as [| a0 a]; cbn; intros [= H1 H2]; subst; [| exact (IH _ a H2)].
    destruct (is_eol x) eqn:X; [| reflexivity]. exfalso. exact (K _ H2).
Qed.

(** The end of a message: a dot on a line of its own. *)
Definition eom : list Z := crlf ++ s#"." ++ crlf.
Lemma dotted_ends_once f l a b : dotted f l ++ eom = a ++ eom ++ b -> b = [].
Proof.
  intros H. apply app_eq_app in H as (c & [[D H] | [-> H]]).
  - destruct c as [| c0 [| c1 [| c2 [| c3 c]]]]; cbn in H; [| discriminate | discriminate | | ].
    + destruct b; [reflexivity |]. apply (f_equal (@length Z)) in H. cbn in H. lia.
    + inversion H. subst. exfalso. pose proof (dotted_no_dot f l (a ++ [13]) 10) as K. rewrite <- app_assoc in K. specialize (K D). discriminate.
    + inversion H. subst. exfalso. pose proof (dotted_no_end f l (a ++ [13]) 10 13 c) as K. rewrite <- app_assoc in K. specialize (K D eq_refl). discriminate.
  - apply (f_equal (@length Z)) in H. rewrite !length_app in H. destruct b; [reflexivity | cbn in H; lia].
Qed.

Definition leading_dot (l : list Z) : bool := match l with b :: _ => b =? c#"." | [] => false end.
Lemma undot_message l : leading_dot l = false -> undot true (dotted false l) = l.
Proof.
  intros H. destruct l as [| b l]; [reflexivity |]. unfold leading_dot in H. cbn [dotted]. rewrite andb_false_r. cbn [undot]. rewrite H. cbn [andb].
  rewrite undot_dotted. reflexivity.
Qed.
Lemma no_early_end l b : leading_dot l = false -> dotted false l ++ eom <> c#"." :: b.
Proof. destruct l as [| x l]; cbn; [discriminate |]. rewrite andb_false_r. intros H [= E _]. rewrite E in H. discriminate. Qed.

Section Safety.
Context {Cr : Crates} {Wi : Wire} {Wo : World} {Se : OutSettings}.

(** ** The recipients of the results *)

Definition no_events (a : Act) : Prop := True.
Definition within (idxs : list nat) (r : DeliveryResult) : Prop := forall i, In i (result_idxs r) -> In i idxs.
Definition about (l : list DeliveryResult) (i : nat) : Prop := exists r, In r l /\ In i (result_idxs r).
(** The results are about these recipients, and about each that waits. *)
Definition covers (m : Message) (idxs : list nat) (l : list DeliveryResult) : Prop :=
  Forall (within idxs) l /\ forall i r, In i idxs -> recipients m !! i = Some r -> is_pending r = true -> about l i.

Lemma covers_domain m idxs s st : Forall (within idxs) s -> covers m idxs (s ++ [RDomain st idxs]).
Proof.
  intros H. split; [apply Forall_app; split; [exact H | constructor; [intros i; auto | constructor]] |].
  intros i r Hi _ _. exists (RDomain st idxs). split; [apply in_or_app; right; left; reflexivity | exact Hi].
Qed.
Lemma covers_one m idxs st : covers m idxs [RDomain st idxs].
Proof. apply (covers_domain m idxs []). constructor. Qed.
Lemma covers_limited m idxs at_ : covers m idxs [RRateLimited idxs at_].
Proof. split; [constructor; [intros i; auto | constructor] |]. intros i r Hi _ _. eexists. split; [left; reflexivity | exact Hi]. Qed.

Lemma free {A} (m : M A) : says anything no_events m.
Proof. intros t. split; [exact I |]. generalize (snd (m t)). intros l. induction l; constructor; auto. exact I. Qed.
Lemma then_says {A B} (R : B -> Prop) (m : M A) (f : A -> M B) : (forall x, says R no_events (f x)) -> says R no_events (tbind m f).
Proof. intros H. apply (says_tbind anything); [apply free | intros x _; apply H]. Qed.

(** After the loop: each recipient that waits was accepted, or has a result. *)
Definition sorted_out (m : Message) (all l : list nat) (x : result (Accepted * list DeliveryResult) (list DeliveryResult)) : Prop :=
  match x with
  | Ok (acc, st) =>
      Forall (within all) st /\ Forall (fun a => In (fst a) all) acc /\
      forall i r, In i l -> recipients m !! i = Some r -> is_pending r = true -> In i (map fst acc) \/ about st i
  | Err st => covers m all st
  end.

Lemma about_app l l' i : about l i -> about (l ++ l') i.
Proof. intros (r & H & K). exists r. split; [apply in_or_app; left; exact H | exact K]. Qed.

Lemma rcpt_loop_sorts c p caps m all l acc st : (forall i, In i l -> In i all) -> Forall (within all) st -> Forall (fun a => In (fst a) all) acc ->
  says (fun x => sorted_out m all l x /\
                 match x with Ok (acc', st') => (forall i, In i (map fst acc) -> In i (map fst acc')) /\ (forall i, about st i -> about st' i) | Err _ => True end)
    no_events (rcpt_loop c p caps m all l acc st).
Proof.
  revert acc st. induction l as [| i l IH]; intros acc st Hl Hs Ha; [apply says_tret; cbn; tauto |]. cbn [rcpt_loop].
  assert (Hl' : forall j, In j l -> In j all) by (intros j Hj; apply Hl; right; exact Hj).
  (* a step that settles the index *)
  assert (Step : forall acc' st', Forall (within all) st' -> Forall (fun a => In (fst a) all) acc' ->
    (forall j, In j (map fst acc) -> In j (map fst acc')) -> (forall j, about st j -> about st' j) ->
    (forall r, recipients m !! i = Some r -> is_pending r = true -> In i (map fst acc') \/ about st' i) ->
    says (fun x => sorted_out m all (i :: l) x /\
                 match x with Ok (acc', st') => (forall i, In i (map fst acc) -> In i (map fst acc')) /\ (forall i, about st i -> about st' i) | Err _ => True end)
      no_events (rcpt_loop c p caps m all l acc' st')).
  { intros acc' st' Hs' Ha' Ka Ks Ki. eapply says_mono; [| apply (IH acc' st' Hl' Hs' Ha')].
    intros [[acc2 st2] | st2]; cbn; [| tauto]. intros [(B1 & B2 & B3) [B4 B5]]. split_and!; auto. intros j r [<- | Hj] Hr P; [| eauto].
    destruct (Ki r Hr P) as [K | K]; [left; auto | right; auto]. }
  destruct (recipients m !! i) as [r |] eqn:Hr; [| apply Step; auto; discriminate].
  destruct (is_pending r) eqn:P; cbn [negb]; [| apply Step; auto; congruence].
  apply then_says. intros [x | x].
  - assert (In i all) by (apply Hl; left; reflexivity).
    assert (Hx : forall y, Forall (within all) (st ++ [RAccount y i])).
    { intros y. apply Forall_app. split; [exact Hs | constructor; [intros j [<- | []]; assumption | constructor]]. }
    destruct (severity x); [| apply Step; auto; [intros j Hj; apply about_app, Hj |]; intros _ _ _; right; eexists;
      (split; [apply in_or_app; right; left; reflexivity | left; reflexivity]) ..].
    apply Step; auto; [apply Forall_app; split; [exact Ha | constructor; [assumption | constructor]] | |].
    + intros j Hj. rewrite map_app. apply in_or_app. left. exact Hj.
    + intros _ _ _. left. rewrite map_app. apply in_or_app. right. left. reflexivity.
  - apply then_says. intros _. apply says_tret. split; [apply covers_domain, Hs | exact I].
Qed.

Lemma covers_accepted m idxs (acc : Accepted) st (l : list DeliveryResult) : Forall (within idxs) st -> Forall (fun a => In (fst a) idxs) acc ->
  (forall i r, In i idxs -> recipients m !! i = Some r -> is_pending r = true -> In i (map fst acc) \/ about st i) ->
  Forall (within idxs) l -> (forall i, In i (map fst acc) -> about l i) -> covers m idxs (st ++ l).
Proof.
  intros Hs Ha H Hl K. split; [apply Forall_app; auto |]. intros i r Hi Hr P. destruct (H i r Hi Hr P) as [X | X]; [| apply about_app, X].
  destruct (K i X) as (x & Hx & Ex). exists x. split; [apply in_or_app; right; exact Hx | exact Ex].
Qed.

(** As many replies as were asked for. *)
Lemma parse_many_length k p b acc :
  match parse_many k p b acc with
  | inr r => length r = (length acc + S k)%nat
  | inl (Ok (_, k', acc')) => (length acc' + k' = length acc + k)%nat
  | inl (Err _) => True
  end.
Proof.
  revert p b acc. induction k as [| k IH]; intros p b acc; cbn; destruct (reply_parse p b) as [[p' r] rest]; destruct r as [r | [| code |]]; auto.
  - rewrite length_app. reflexivity.
  - specialize (IH (reply_reset p') rest (acc ++ [r])). rewrite length_app in IH. cbn in IH.
    destruct (parse_many k _ _ _) as [[[[p2 k2] acc2] | e] | r2]; lia.
Qed.
Lemma read_many_length tls k p acc l e r : fst (read_many_loop tls k p acc l e) = Ok r -> length r = (length acc + S k)%nat.
Proof.
  revert k p acc. induction l as [| b l IH]; intros k p acc; cbn; [discriminate |]. destruct b as [| x b]; [discriminate |].
  pose proof (parse_many_length k p (x :: b) acc) as L. destruct (parse_many k p (x :: b) acc) as [[[[p' k'] acc'] | err] | r'].
  - specialize (IH k' p' acc'). destruct (read_many_loop tls k' p' acc' l e). cbn in *. intros H. rewrite (IH H). lia.
  - discriminate.
  - intros [= <-]. exact L.
Qed.
Lemma lmtp_length c h n : (0 < n)%nat -> says (fun r => match r with Ok l => length l = n | Err _ => True end) no_events (read_lmtp_data_response c h n).
Proof.
  intros N. apply says_map. intros t. unfold read_many. destruct (arrivals t _) as [l e].
  pose proof (read_many_length (over_tls c) (n - 1) reply_new [] l e) as L. destruct (read_many_loop _ _ _ _ _ _) as [r a]. cbn in *.
  split; [| apply (free (fun _ => (tt, a)) t)]. destruct r as [r | w]; cbn; [rewrite (L r eq_refl); lia | exact I].
Qed.

Lemma fst_combine {A B} (l : list A) (l' : list B) : length l = length l' -> map fst (combine l l') = l.
Proof. revert l'. induction l as [| x l IH]; intros [| y l']; cbn; try discriminate; [reflexivity |]. intros [= H]. rewrite IH; auto. Qed.

Lemma deliver_data_covers c p caps m idxs headers acc st : acc <> [] -> Forall (within idxs) st -> Forall (fun a => In (fst a) idxs) acc ->
  (forall i r, In i idxs -> recipients m !! i = Some r -> is_pending r = true -> In i (map fst acc) \/ about st i) ->
  says (covers m idxs) no_events (deliver_data c p caps m idxs headers acc st).
Proof.
  intros N Hs Ha H. unfold deliver_data.
  assert (G : forall x, says (covers m idxs) no_events (quit c ;# tret (st ++ [RDomain x idxs]))).
  { intros x. apply then_says. intros _. apply says_tret, covers_domain, Hs. }
  apply then_says. intros [bdat [x | x]]; [| apply G]. case_if.
  - apply then_says. intros [r | r]; [| apply G]. case_if; [| apply G]. apply then_says. intros _. apply says_tret.
    apply (covers_accepted m idxs acc); auto.
    + apply Forall_map. eapply Forall_impl; [| exact Ha]; intros [i s] Hi j [<- | []]. exact Hi.
    + intros i Hi. apply in_map_iff in Hi as ([j s] & <- & Hj). exists (RAccount s j). split; [| left; reflexivity].
      apply in_map_iff. exists (j, s). auto.
  - eapply says_tbind; [apply lmtp_length; destruct acc; [contradiction | cbn; lia] |]. intros [l | x'] L; [| apply G].
    apply then_says. intros _. apply says_tret. apply (covers_accepted m idxs acc); auto.
    + apply Forall_map. apply List.Forall_forall. intros [[i s] r] Hr j [<- | []]. apply in_combine_l in Hr.
      rewrite List.Forall_forall in Ha. exact (Ha _ Hr).
    + intros i Hi. rewrite <- (fst_combine acc l) in Hi by (symmetry; exact L). rewrite map_map in Hi.
      apply in_map_iff in Hi as ([[j s] r] & <- & Hj). exists (RAccount (lmtp_status (hostname p) bdat r) j). split; [| left; reflexivity].
      apply in_map_iff. exists (j, s, r). auto.
Qed.

Lemma transaction_covers c p caps m idxs headers : says (covers m idxs) no_events (transaction c p caps m idxs headers).
Proof.
  unfold transaction. apply then_says. intros r. destruct (match r with Ok _ => _ | Err _ => _ end).
  - eapply says_tbind; [apply rcpt_loop_sorts; [auto | constructor | constructor] |]. intros [[acc st] | st] [H _]; [| apply says_tret; exact H].
    destruct H as (H1 & H2 & H3). destruct acc as [| x acc].
    + apply then_says. intros _. apply says_tret. split; [exact H1 |]. intros i r' Hi Hr P. destruct (H3 i r' Hi Hr P) as [[] | X]; exact X.
    + apply deliver_data_covers; auto; discriminate.
  - apply then_says. intros _. apply says_tret, covers_one.
Qed.
Lemma deliver_covers c p m idxs headers : says (covers m idxs) no_events (deliver c p m idxs headers).
Proof.
  assert (Q : forall st, says (covers m idxs) no_events (quit c ;# tret [RDomain st idxs])).
  { intros st. apply then_says. intros _. apply says_tret, covers_one. }
  assert (K : forall caps, says (covers m idxs) no_events (authenticated_transaction c p caps m idxs headers)).
  { intros caps. unfold authenticated_transaction. destruct (credentials p); [| apply transaction_covers].
    apply then_says. intros [x | x]; [apply transaction_covers | apply Q]. }
  unfold deliver. destruct (capabilities p); [apply K |]. apply then_says. intros [x | x]; [apply K | apply Q].
Qed.

(** An address gives up, or is the end of the group. *)
Definition next_covers (m : Message) (idxs : list nat) (x : Next) : Prop := match x with NextRoute l => covers m idxs l | _ => True end.

Lemma deliver_next c p m idxs headers : says (next_covers m idxs) no_events (tmap NextRoute (deliver c p m idxs headers)).
Proof. apply says_map. exact (deliver_covers c p m idxs headers). Qed.
Lemma with_start_tls_covers c caps p h m idxs headers : says (next_covers m idxs) no_events (with_start_tls c caps p h m idxs headers).
Proof.
  unfold with_start_tls. apply then_says. intros [c' | e | r c'].
  - apply then_says. intros [v | v]; [apply then_says; intros _; apply deliver_next | apply says_tret; exact I].
  - apply then_says. intros _. apply says_tret. exact I.
  - apply then_says. intros _. case_if; [apply says_tret; exact I | apply deliver_next].
Qed.
Lemma try_ip_covers h domain report sts dane s m idxs headers e ip :
  says (fun x => next_covers m idxs (fst x)) no_events (try_ip h domain report sts dane s m idxs headers e ip).
Proof.
  unfold try_ip. apply then_says. intros limits. destruct (first_some limits); [apply says_tret, covers_limited |].
  apply then_says. intros source. apply then_says. intros [c | err]; [| apply says_tret; exact I].
  eapply says_tbind; [| intros x X; apply says_tret; exact X]. case_if.
  - unfold over_implicit_tls. apply then_says. intros [c' | err]; [| apply says_tret; exact I]. apply then_says.
    intros [g | g]; [apply deliver_next | apply says_tret; exact I].
  - unfold over_clear. apply then_says. intros [g | g]; [| apply says_tret; exact I]. apply then_says.
    intros [caps | g']; [| apply says_tret; exact I]. case_if; [apply with_start_tls_covers | apply deliver_next].
Qed.
Lemma try_ips_covers h domain report sts dane s m idxs headers e last l :
  says (fun x => next_covers m idxs (fst x)) no_events (try_ips h domain report sts dane s m idxs headers e last l).
Proof.
  revert e last. induction l as [| ip l IH]; intros e last; [apply says_tret; exact I |]. cbn.
  eapply says_tbind; [apply try_ip_covers |]. intros [[x | x | x] e'] X; [apply IH | apply says_tret; exact X | apply says_tret; exact X].
Qed.
Lemma try_hosts_covers is_smtp domain report sts m idxs headers e last l :
  says (covers m idxs) no_events (try_hosts is_smtp domain report sts m idxs headers e last l).
Proof.
  revert e last. induction l as [| h l IH]; intros e last; [apply says_tret, covers_one |]. cbn.
  apply (says_tbind (fun x => next_covers m idxs (fst x))).
  - unfold try_host. apply then_says. intros [[] | st]; [| apply says_tret; exact I]. apply then_says. intros [ips | st]; [| apply says_tret; exact I].
    apply then_says. intros [d | st]; [apply try_ips_covers | apply says_tret; exact I].
  - intros [[x | x | x] e'] X; [apply IH | apply IH | apply says_tret; exact X].
Qed.

Lemma deliver_remote_covers m domain route headers idxs e : says (covers m idxs) no_events (deliver_remote m domain route headers idxs e).
Proof.
  unfold deliver_remote. apply then_says. intros report. apply then_says. intros [sts | st]; [| apply says_tret, covers_one].
  eapply (says_tbind (fun x => match x with Ok _ => True | Err l => covers m idxs l end)); [| intros [hosts | l] H; [apply try_hosts_covers | apply says_tret; exact H]].
  unfold hosts_of. destruct route; try (apply says_tret; exact I). apply then_says. intros [[l |] | err]; apply says_tret; [exact I | apply covers_one | apply covers_one].
Qed.
End Safety.
