(* ===== verification/OutboundAcknowledged.v ===== *)
(** * Who says that a message was delivered

    A recipient counts as delivered over SMTP only after its RCPT TO was
    answered positively, the whole message was written, and the answer to it
    was 250; and nothing else that an attempt meets counts as a delivery. *)

From stdpp Require Import gmap.
From S2P Require Import Prelude Decimals Utf8 Text IpMask Milter SmtpData SmtpQueue QueueSpool OutboundClient OutboundSession OutboundHosts OutboundAttempt OutboundLogic OutboundSafety.
#[local] Open Scope wire_scope.

Section Acknowledged.
Context {Cr : Crates} {Wi : Wire} {Wo : World} {Se : OutSettings}.

(** ** Statuses that are no deliveries *)

Definition failed (st : Status) : Prop := match st with Completed _ => False | _ => True end.
Definition fails {A} (r : result A Status) : Prop := match r with Ok _ => True | Err st => failed st end.

Lemma failed_reply_failed r h e : failed (failed_reply r h e).
Proof. unfold failed_reply. destruct (severity r); exact I. Qed.
Lemma smtp_error_failed h command e : failed (from_smtp_error h command e).
Proof. destruct e; try exact I. apply failed_reply_failed. Qed.
Lemma starttls_error_failed h r : failed (from_starttls_error h r).
Proof. destruct r; [apply failed_reply_failed | exact I]. Qed.
Lemma tls_error_failed h e : failed (from_tls_error h e).
Proof. destruct e; exact I. Qed.
Lemma into_temporary_failed st : failed st -> failed (into_temporary st).
Proof. destruct st; auto. Qed.
Lemma auth_error_failed h e : failed (from_mail_auth_error h e).
Proof. destruct e; exact I. Qed.
Lemma sts_error_failed h e : failed (from_mta_sts_error h e).
Proof. destruct e as [[] | e |]; cbn; repeat case_if; exact I. Qed.
Lemma dane_failed tr t h ids certs : fails (dane_verify tr t h ids certs).
Proof. unfold dane_verify. destruct certs as [[| c l] |]; try exact I. destruct (mapM _ _); [case_if |]; exact I. Qed.
Lemma resolve_failed t h mx : fails (resolve_host t h mx).
Proof.
  unfold resolve_host. destruct (fqdn_hostname h) as [name | ip text].
  - destruct (ip_lookup _ _ _ _) as [[| x l] | []]; try exact I. cbn -[List.filter]. destruct (List.filter _ _); exact I.
  - cbn -[List.filter]. destruct (List.filter _ _); exact I.
Qed.

(** ** Exchanges *)

(** What was read is this reply, as smtp-proto parses it. *)
Definition replied (tls : bool) (r : Response) (l : Trace) : Prop :=
  exists chunks e, read_loop tls reply_new chunks e = (Ok r, l).
Definition answered (tls : bool) (b : list Z) (r : Response) (l : Trace) : Prop :=
  exists l', l = Wrote tls b :: l' /\ replied tls r l'.

Definition means {A} (Q : A -> Trace -> Prop) (r : result A Wrong) (l : Trace) : Prop := match r with Ok x => Q x l | Err _ => True end.

Lemma read_tells c : tells (means (replied (over_tls c))) (read c).
Proof.
  intros t. unfold read. destruct (arrivals t _) as [l e]. destruct (read_loop _ _ l e) as [[r | w] a] eqn:R; [| exact I]. exists l, e. exact R.
Qed.
Lemma cmd_tells c b : tells (fun r l => match r with Ok r => answered (over_tls c) b r l | Err _ => True end) (cmd c b).
Proof.
  unfold cmd, tmap. eapply (tells_tbind (means (answered (over_tls c) b))).
  - eapply (tells_tbind (fun _ l => l = [Wrote (over_tls c) b])); [intros t; reflexivity |]. intros [x | x] l ->; [| apply tells_tret; exact I].
    eapply tells_mono; [| apply read_tells]. intros [r | w] l; [| exact (fun _ => I)]. intros R. exists l. auto.
  - intros [r | w] l R; apply tells_tret; [rewrite app_nil_r; exact R | exact I].
Qed.

Lemma write_chunks_tells c l : tells (means (fun _ a => a = map (Wrote (over_tls c)) l)) (write_chunks c l).
Proof.
  induction l as [| b l IH]; [apply tells_tret; reflexivity |]. cbn.
  eapply (tells_tbind (fun _ a => a = [Wrote (over_tls c) b])); [intros t; reflexivity |]. intros [x | x] a ->; [| apply tells_tret; exact I].
  eapply tells_mono; [| exact IH]. intros [r | w] a; [intros -> | intros _]; [reflexivity | exact I].
Qed.

(** The pieces in which a message is written, after DATA or with BDAT. *)
Definition body (raw : list Z) (headers bdat : option (list Z)) : list (list Z) :=
  match bdat with
  | Some b => b :: match headers with Some h => [h] | None => [] end ++ [raw]
  | None => match headers with Some h => [h] | None => [] end ++ dot_pieces [] false raw ++ [crlf ++ s#"." ++ crlf]
  end.
Definition message_sent (tls : bool) (raw : list Z) (headers : option (list Z)) (l : Trace) : Prop :=
  exists before bdat, l = before ++ map (Wrote tls) (body raw headers bdat).

Lemma write_data_tells c raw headers bdat : tells (means (fun _ => message_sent (over_tls c) raw headers)) (write_data c raw headers bdat).
Proof.
  unfold write_data. destruct bdat as [b |].
  - eapply tells_mono; [| apply write_chunks_tells]. intros [[] | w] l; [| exact (fun _ => I)]. intros E. exists [], (Some b). exact E.
  - eapply (tells_tbind (fun _ _ => True)); [intros t; exact I |]. intros [x | x] l1 _; [| apply tells_tret; exact I].
    eapply (tells_tbind (fun _ _ => True)); [intros t; exact I |]. intros [r | x'] l2 _; [| apply tells_tret; exact I].
    destruct (assert_code 354 r); [| apply tells_tret; exact I].
    eapply (tells_tbind (means (fun _ a => a = map (Wrote (over_tls c)) match headers with Some h => [h] | None => [] end))).
    { destruct headers; [apply (write_chunks_tells c [l]) | apply tells_tret; reflexivity]. }
    intros [y | y] l3 H3; [cbn in H3; subst l3 | apply tells_tret; exact I]. unfold write_message.
    eapply tells_mono; [| apply write_chunks_tells]. intros [[] | w] l; [| exact (fun _ => I)]. intros ->.
    exists (l1 ++ l2), None. cbn [body]. rewrite !map_app, <- !app_assoc. reflexivity.
Qed.

Lemma send_message_tells c h n m headers chunking :
  tells (fun x l => match snd x with
                    | Ok _ => exists t raw, get_blob t (blob_hash m) = Ok (Some raw) /\ message_sent (over_tls c) raw headers l
                    | Err st => failed st
                    end) (send_message c h n m headers chunking).
Proof.
  unfold send_message. eapply (tells_tbind (fun x l => l = [] /\ exists t, x = get_blob t (blob_hash m))); [intros t; split; [reflexivity | exists t; reflexivity] |].
  intros x l [-> [t Hx]]. destruct x as [[raw |] |]; try (apply tells_tret; exact I).
  eapply tells_tbind; [apply write_data_tells |]. intros [[] | w] l H; apply tells_tret; cbn [snd map_err].
  - exists t, raw. split; [symmetry; exact Hx |]. rewrite app_nil_r. exact H.
  - destruct w; [exact I | apply smtp_error_failed].
Qed.

(** ** The session *)

(** In [l] the recipient was accepted with the reply that is kept. *)
Definition taken (tls : bool) (p : SessionParams EhloResponse) (m : Message) (l : Trace) (a : nat * Status) : Prop :=
  exists r caps reply before exchange after,
    l = before ++ exchange ++ after /\ recipients m !! fst a = Some r /\ answered tls (build_rcpt_to r caps) reply exchange /\
    severity reply = PositiveCompletion /\ snd a = Completed (MkHost (hostname p) reply).

(** In [l] the recipient was accepted; then the message was written, and
    answered with 250. *)
Definition delivered (m : Message) (headers : option (list Z)) (i : nat) (h : HostResponse) (l : Trace) : Prop :=
  exists tls r caps before exchange between sent ack acked after t raw,
    l = before ++ exchange ++ between ++ sent ++ acked ++ after /\
    recipients m !! i = Some r /\ answered tls (build_rcpt_to r caps) (host_response h) exchange /\ severity (host_response h) = PositiveCompletion /\
    get_blob t (blob_hash m) = Ok (Some raw) /\ message_sent tls raw headers sent /\ replied tls ack acked /\ code ack = 250.

Definition settled (m : Message) (headers : option (list Z)) (l : Trace) (r : DeliveryResult) : Prop :=
  match r with
  | RAccount (Completed h) i => delivered m headers i h l
  | RDomain st _ => failed st
  | _ => True
  end.
Definition all_settled m headers (x : list DeliveryResult) (l : Trace) : Prop := Forall (settled m headers l) x.

Lemma delivered_in m headers i h a l : delivered m headers i h l -> delivered m headers i h (a ++ l).
Proof.
  intros (tls & r & caps & before & exchange & between & sent & ack & acked & after & t & raw & -> & H).
  exists tls, r, caps, (a ++ before), exchange, between, sent, ack, acked, after, t, raw. rewrite <- !app_assoc. auto.
Qed.
Lemma settled_in m headers a l r : settled m headers l r -> settled m headers (a ++ l) r.
Proof. destruct r as [st l' | [] i | l' at_]; cbn; auto. apply delivered_in. Qed.
Lemma all_settled_in m headers x a l : all_settled m headers x l -> all_settled m headers x (a ++ l).
Proof. intros H. eapply Forall_impl; [| exact H]. intros r. apply settled_in. Qed.

Lemma taken_in tls p m l b a : taken tls p m l a -> taken tls p m (l ++ b) a.
Proof.
  intros (r & caps & reply & before & exchange & after & -> & H). exists r, caps, reply, before, exchange, (after ++ b).
  rewrite <- !app_assoc. auto.
Qed.
Lemma all_taken_in tls p m l b acc : Forall (taken tls p m l) acc -> Forall (taken tls p m (l ++ b)) acc.
Proof. intros H. eapply Forall_impl; [| exact H]. intros a. apply taken_in. Qed.

(** A step whose result is not looked at. *)
Lemma later {A B} (Q : B -> Trace -> Prop) (m : M A) (f : A -> M B) :
  (forall x a l, Q x l -> Q x (a ++ l)) -> (forall x, tells Q (f x)) -> tells Q (tbind m f).
Proof. intros H K. apply (tells_tbind (fun _ _ => True)); [intros t; exact I |]. intros x l _. eapply tells_mono; [| apply K]. intros y l'. apply H. Qed.
Definition no_success (r : DeliveryResult) : Prop :=
  match r with RAccount (Completed _) _ => False | RDomain st _ => failed st | _ => True end.
Lemma no_success_settled m headers l x : Forall no_success x -> all_settled m headers x l.
Proof. intros H. eapply Forall_impl; [| exact H]. intros [s l' | [] i | l' a]; cbn; tauto. Qed.
Lemma given_up m headers c x st : Forall no_success x -> failed st ->
  forall idxs, tells (all_settled m headers) (quit c ;# tret (x ++ [RDomain st idxs])).
Proof.
  intros H K idxs. apply later; [intros; apply all_settled_in; assumption |]. intros _. apply tells_tret, Forall_app. split.
  - apply no_success_settled, H.
  - constructor; [exact K | constructor].
Qed.

Lemma rcpt_loop_tells c p caps m all l acc st pre : Forall (taken (over_tls c) p m pre) acc -> Forall no_success st ->
  tells (fun x a => match x with
                    | Ok (acc', st') => Forall (taken (over_tls c) p m (pre ++ a)) acc' /\ Forall no_success st'
                    | Err st' => Forall no_success st'
                    end) (rcpt_loop c p caps m all l acc st).
Proof.
  revert acc st pre. induction l as [| i l IH]; intros acc st pre Ha Hs; [apply tells_tret; rewrite app_nil_r; auto |]. cbn [rcpt_loop].
  destruct (recipients m !! i) as [r |] eqn:Hr; [| apply IH; assumption]. destruct (negb (is_pending r)); [apply IH; assumption |].
  eapply tells_tbind; [apply cmd_tells |]. intros [reply | e] a H.
  - assert (Hs' : forall st', Forall no_success (st ++ [RAccount st' i]) -> tells (fun x b => match x with
                    | Ok (acc', st') => Forall (taken (over_tls c) p m (pre ++ a ++ b)) acc' /\ Forall no_success st'
                    | Err st' => Forall no_success st'
                    end) (rcpt_loop c p caps m all l acc (st ++ [RAccount st' i]))).
    { intros st' K. eapply tells_mono; [| apply (IH acc (st ++ [RAccount st' i]) (pre ++ a) (all_taken_in _ _ _ _ _ _ Ha) K)].
      intros [[acc' st2] | st2] b; [rewrite <- app_assoc |]; auto. }
    destruct (severity reply) eqn:S; [| apply Hs'; apply Forall_app; (split; [exact Hs | constructor; [pose proof (failed_reply_failed reply (hostname p)
      (UnexpectedResponse (trim (build_rcpt_to r caps)) reply)) as K; cbn; destruct (failed_reply _ _ _); auto | constructor]]) ..].
    assert (T : Forall (taken (over_tls c) p m (pre ++ a)) (acc ++ [(i, Completed (MkHost (hostname p) reply))])).
    { apply Forall_app. split; [apply all_taken_in, Ha | constructor; [| constructor]].
      exists r, caps, reply, pre, a, []. rewrite app_nil_r. auto. }
    eapply tells_mono; [| apply (IH _ st (pre ++ a) T Hs)]. intros [[acc' st2] | st2] b; [rewrite <- app_assoc |]; auto.
  - eapply (tells_tbind (fun _ _ => True)); [intros t; exact I |]. intros x b _. apply tells_tret, Forall_app. split; [exact Hs |].
    constructor; [apply smtp_error_failed | constructor].
Qed.

Lemma taken_delivered p m headers tls pre sent ack acked after t raw i h :
  taken tls p m pre (i, Completed h) -> get_blob t (blob_hash m) = Ok (Some raw) -> message_sent tls raw headers sent ->
  replied tls ack acked -> code ack = 250 ->
  delivered m headers i h (pre ++ sent ++ acked ++ after).
Proof.
  intros (r & caps & reply & before & exchange & rest & -> & H1 & H2 & H3 & H4) G S A C. cbn in *. injection H4 as ->.
  exists tls, r, caps, before, exchange, rest, sent, ack, acked, after, t, raw. rewrite <- !app_assoc. split_and!; auto.
Qed.

Lemma deliver_data_tells c p caps m all headers acc st pre : is_smtp p = true -> Forall (taken (over_tls c) p m pre) acc -> Forall no_success st ->
  tells (fun x a => all_settled m headers x (pre ++ a)) (deliver_data c p caps m all headers acc st).
Proof.
  intros S Ha Hs. unfold deliver_data. rewrite S.
  assert (G : forall x a, failed x -> tells (fun y b => all_settled m headers y (pre ++ a ++ b)) (quit c ;# tret (st ++ [RDomain x all]))).
  { intros x a K. eapply tells_mono; [| exact (given_up m headers c st x Hs K all)]. intros y b H. apply all_settled_in, all_settled_in, H. }
  eapply tells_tbind; [apply send_message_tells |]. intros [bdat [[] | x]] sent Hm; [| apply G, Hm].
  destruct Hm as (t & raw & Hb & Hm). cbn [snd] in *.
  eapply (tells_tbind (fun x l => match x with Ok r => replied (over_tls c) r l | Err st => failed st end)).
  { eapply tells_tbind; [apply read_tells |]. intros [r | w] l H; apply tells_tret; [rewrite app_nil_r; exact H |]. destruct w; [exact I | apply smtp_error_failed]. }
  intros [r | x] acked Hr.
  - case_if; [| eapply tells_mono; [| apply (G _ (sent ++ acked)); apply smtp_error_failed]; intros y b; cbn beta; rewrite <- app_assoc; auto].
    eapply (tells_tbind (fun _ _ => True)); [intros t'; exact I |]. intros _ a _. apply tells_tret. rewrite app_nil_r. apply Forall_app. split.
    + apply no_success_settled, Hs.
    + apply Forall_map. eapply Forall_impl; [| exact Ha]. intros [i s] T. pose proof T as (r2 & cp & reply & b1 & ex & b2 & _ & _ & _ & _ & Es).
      cbn in Es. subst s. cbn. apply (taken_delivered p m headers (over_tls c) _ sent r acked a t raw); auto.
  - eapply tells_mono; [| apply (G x (sent ++ acked)); exact Hr]. intros y b. cbn beta. rewrite <- app_assoc. auto.
Qed.

Lemma transaction_tells c p caps m all headers : is_smtp p = true -> tells (all_settled m headers) (transaction c p caps m all headers).
Proof.
  intros S. unfold transaction. apply later; [intros; apply all_settled_in; assumption |]. intros r.
  destruct (match r with Ok _ => _ | Err _ => _ end) as [x | e].
  - eapply tells_tbind; [apply (rcpt_loop_tells _ p caps m all all [] [] []); constructor |]. intros [[acc st] | st] a; cbn [app].
    + intros [Ha Hs]. destruct acc as [| y acc].
      * eapply (tells_tbind (fun _ _ => True)); [intros t; exact I |]. intros _ b _. apply tells_tret, no_success_settled, Hs.
      * apply (deliver_data_tells (set_timeout (timeout_rcpt p) (set_timeout (timeout_mail p) c))); assumption.
    + intros Hs. apply tells_tret, no_success_settled, Hs.
  - apply (given_up m headers _ []); [constructor | apply smtp_error_failed].
Qed.
Lemma deliver_tells c p m idxs headers : is_smtp p = true -> tells (all_settled m headers) (deliver c p m idxs headers).
Proof.
  intros S.
  assert (K : forall caps, tells (all_settled m headers) (authenticated_transaction c p caps m idxs headers)).
  { intros caps. unfold authenticated_transaction. destruct (credentials p); [| apply transaction_tells, S].
    apply later; [intros; apply all_settled_in; assumption |]. intros [x | e]; [apply transaction_tells, S |].
    apply (given_up m headers c []); [constructor | apply smtp_error_failed]. }
  unfold deliver. destruct (capabilities p); [apply K |].
  eapply (tells_tbind (fun x _ => fails x)).
  { unfold say_helo. eapply (tells_tbind (fun _ _ => True)); [intros t; exact I |]. intros [x | w] l _; apply tells_tret; [exact I |].
    destruct w; [exact I | apply smtp_error_failed]. }
  intros [caps | st] l H.
  - eapply tells_mono; [| apply K]. intros x l'. apply all_settled_in.
  - eapply tells_mono; [| exact (given_up m headers c [] st (List.Forall_nil _) H idxs)]. intros x l'. apply all_settled_in.
Qed.

(** ** The hosts *)

Definition next_settled (m : Message) (headers : option (list Z)) (x : Next) (l : Trace) : Prop :=
  match x with NextRoute r => all_settled m headers r l | NextIp st | NextHost st => failed st end.
Lemma next_settled_in m headers x a l : next_settled m headers x l -> next_settled m headers x (a ++ l).
Proof. destruct x; cbn; auto. apply all_settled_in. Qed.

(** A step that ends with the status of a failure, or goes on. *)
Lemma or_fails {A B} (Q : B -> Trace -> Prop) (m : M (result A Status)) (f : result A Status -> M B) :
  (forall x a l, Q x l -> Q x (a ++ l)) -> tells (fun x _ => fails x) m ->
  (forall x, tells Q (f (Ok x))) -> (forall st, failed st -> tells Q (f (Err st))) -> tells Q (tbind m f).
Proof.
  intros H K F G. eapply tells_tbind; [exact K |]. intros [x | st] l X; eapply tells_mono; [| apply F | | apply G, X]; intros y l'; apply H.
Qed.

Lemma deliver_settles c p m idxs headers : is_smtp p = true -> tells (next_settled m headers) (tmap NextRoute (deliver c p m idxs headers)).
Proof.
  intros S. eapply tells_tbind; [apply deliver_tells, S |]. intros x l H. apply tells_tret. rewrite app_nil_r. exact H.
Qed.
Lemma verify_dane_fails h : tells (fun x _ => fails x) (verify_dane h).
Proof.
  unfold verify_dane. destruct (h_dane h) as [t |]; [| apply tells_tret; exact I].
  eapply (tells_tbind (fun x _ => fails x)); [intros tr; apply dane_failed |]. intros [[] | st] l H; [apply tells_tret; exact I |].
  eapply (tells_tbind (fun _ _ => True)); [intros tr; exact I |]. intros _ l' _. apply tells_tret, H.
Qed.
Lemma greeting_fails c h : tells (fun x _ => fails x) (read_greeting c h).
Proof.
  eapply (tells_tbind (fun _ _ => True)); [intros t; exact I |]. intros [r | []] l _; apply tells_tret; [| exact I | apply smtp_error_failed].
  unfold assert_code. case_if; [exact I | apply smtp_error_failed].
Qed.
Lemma hello_fails c h n s k : tells (fun x _ => fails x) (say_helo c h n s k).
Proof. eapply (tells_tbind (fun _ _ => True)); [intros t; exact I |]. intros [r | []] l _; apply tells_tret; [exact I | exact I | apply smtp_error_failed]. Qed.

Lemma with_start_tls_settles c caps p h m idxs headers : is_smtp p = true -> tells (next_settled m headers) (with_start_tls c caps p h m idxs headers).
Proof.
  intros S. unfold with_start_tls. apply later; [apply next_settled_in |]. intros [c' | e | r c'].
  - apply or_fails; [apply next_settled_in | apply verify_dane_fails | intros _ | intros st H; apply tells_tret, H].
    apply later; [apply next_settled_in |]. intros _. apply deliver_settles, S.
  - apply later; [apply next_settled_in |]. intros _. apply tells_tret. cbn. case_if; [| apply into_temporary_failed]; apply tls_error_failed.
  - apply later; [apply next_settled_in |]. intros _. case_if; [apply tells_tret, starttls_error_failed | apply deliver_settles, S].
Qed.
Lemma try_ip_settles h domain report sts dane s m idxs headers e ip : hop_is_smtp h = true ->
  tells (fun x => next_settled m headers (fst x)) (try_ip h domain report sts dane s m idxs headers e ip).
Proof.
  intros S. assert (In_ : forall (x : Next * Envelope) a l, next_settled m headers (fst x) l -> next_settled m headers (fst x) (a ++ l)) by (intros; apply next_settled_in; assumption).
  unfold try_ip. apply later; [exact In_ |]. intros limits. destruct (first_some limits).
  { apply tells_tret. constructor; [exact I | constructor]. }
  apply later; [exact In_ |]. intros source. apply later; [exact In_ |]. intros [c | err]; [| apply tells_tret, smtp_error_failed].
  eapply tells_tbind; [| intros x l H; apply tells_tret; rewrite app_nil_r; exact H]. case_if.
  - unfold over_implicit_tls. apply later; [apply next_settled_in |]. intros [c' | err]; [| apply tells_tret, tls_error_failed].
    apply or_fails; [apply next_settled_in | apply greeting_fails | intros _; apply deliver_settles, S | intros st H; apply tells_tret, H].
  - unfold over_clear. apply or_fails; [apply next_settled_in | apply greeting_fails | intros _ | intros st H; apply tells_tret, H].
    apply or_fails; [apply next_settled_in | apply hello_fails | intros caps | intros st H; apply tells_tret, H].
    case_if; [apply with_start_tls_settles, S | apply deliver_settles, S].
Qed.
Lemma try_ips_settles h domain report sts dane s m idxs headers e last l : hop_is_smtp h = true -> failed last ->
  tells (fun x => next_settled m headers (fst x)) (try_ips h domain report sts dane s m idxs headers e last l).
Proof.
  intros S. revert e last. induction l as [| ip l IH]; intros e last K; [apply tells_tret; exact K |]. cbn.
  eapply tells_tbind; [apply try_ip_settles, S |]. intros [[x | x | x] e'] a H; cbn in H.
  - eapply tells_mono; [| apply (IH e' x H)]. intros y b. apply next_settled_in.
  - apply tells_tret. exact H.
  - apply tells_tret. rewrite app_nil_r. exact H.
Qed.

Lemma check_sts_fails p report domain mx : tells (fun x _ => fails x) (check_sts p report domain mx).
Proof.
  unfold check_sts. destruct p as [p |]; [| apply tells_tret; exact I]. destruct (policy_verify p mx); [apply tells_tret; exact I |].
  eapply (tells_tbind (fun _ _ => True)); [intros t; exact I |]. intros _ l _. apply tells_tret. case_if; exact I.
Qed.
Lemma dane_policy_fails is_smtp s h report domain mx : tells (fun x _ => fails x) (dane_policy_of is_smtp s h report domain mx).
Proof.
  assert (R : forall r d p f (x : result (option Tlsa) Status), fails x -> tells (fun x _ => fails x) (schedule_report r d p f ;# tret x)).
  { intros r d p f x H. eapply (tells_tbind (fun _ _ => True)); [intros t; exact I |]. intros _ l _. apply tells_tret, H. }
  unfold dane_policy_of. destruct (tries (dane s) && is_smtp); [| apply tells_tret; exact I].
  destruct (hop_dnssec h); try (case_if; [apply R |]; try apply tells_tret; exact I); [| apply R; exact I].
  eapply (tells_tbind (fun _ _ => True)); [intros t; exact I |]. intros [[t | |] | err] l _.
  - case_if; [apply tells_tret; exact I |]. apply R. case_if; exact I.
  - apply R. exact I.
  - case_if; [apply R; exact I | apply tells_tret; exact I].
  - destruct err; [case_if; [apply R; exact I | apply tells_tret; exact I] | apply tells_tret, auth_error_failed ..].
Qed.

Lemma try_hosts_settles is_smtp domain report sts m idxs headers e last l : Forall (fun h => hop_is_smtp h = true) l -> failed last ->
  tells (all_settled m headers) (try_hosts is_smtp domain report sts m idxs headers e last l).
Proof.
  intros S. revert e last. induction S as [| h l Sh S IH]; intros e last K; [apply tells_tret; constructor; [exact K | constructor] |]. cbn.
  eapply (tells_tbind (fun x => next_settled m headers (fst x))).
  - assert (In_ : forall (x : Next * Envelope) a l, next_settled m headers (fst x) l -> next_settled m headers (fst x) (a ++ l)) by (intros; apply next_settled_in; assumption).
    unfold try_host. apply or_fails; [exact In_ | apply check_sts_fails | intros _ | intros st H; apply tells_tret, H].
    apply or_fails; [exact In_ | intros t; apply resolve_failed | intros ips | intros st H; apply tells_tret, H].
    apply or_fails; [exact In_ | apply dane_policy_fails | intros d | intros st H; apply tells_tret, H].
    apply try_ips_settles; assumption.
  - intros [[x | x | x] e'] a H; cbn in H.
    + eapply tells_mono; [| apply (IH e' x H)]. intros y b. apply all_settled_in.
    + eapply tells_mono; [| apply (IH e' x H)]. intros y b. apply all_settled_in.
    + apply tells_tret. rewrite app_nil_r. exact H.
Qed.

(** The hosts of a domain are no relays. *)
Definition of_domain (h : NextHop) : Prop := match h with HopMx _ _ _ _ => True | HopRelay _ => False end.
Lemma remote_hosts_mx t status config l acc hosts : Forall of_domain acc ->
  remote_hosts_of t status config l acc = Some hosts -> Forall of_domain hosts.
Proof.
  revert acc. induction l as [| mx l IH]; intros acc Ha; cbn [remote_hosts_of]; [intros [= <-]; exact Ha |].
  assert (A : forall host acc, Forall of_domain acc -> Forall of_domain (acc ++ [HopMx false host config status])).
  { intros host acc' K. apply Forall_app. split; [exact K | constructor; [exact I | constructor]]. }
  destruct (exchanges mx) as [| host [| h2 hs]]; [apply IH, Ha | |].
  - case_if; [discriminate |]. case_if; [intros [= <-] | apply IH]; apply A, Ha.
  - generalize (shuffle t (host :: h2 :: hs)). intros names.
    match goal with |- context [(?f names acc)] => set (add := f) end.
    assert (K : forall names acc, Forall of_domain acc -> Forall of_domain (fst (add names acc))).
    { clear - A. intros names. induction names as [| n names IHn]; intros acc Ha; [exact Ha |]. cbn. case_if; [apply A, Ha | apply IHn, A, Ha]. }
    specialize (K names acc Ha). destruct (add names acc) as [acc' full]. destruct full; [intros [= <-]; exact K | apply IH, K].
Qed.
Lemma to_remote_hosts_mx t r domain config l : to_remote_hosts t r domain config = Some l -> Forall of_domain l.
Proof. unfold to_remote_hosts. destruct (rrset r); [intros [= <-]; constructor; [exact I | constructor] | apply remote_hosts_mx; constructor]. Qed.
Lemma mx_hosts domain config idxs :
  tells (fun x _ => match x with Ok l => Forall of_domain l | Err l => Forall no_success l end) (hosts_of domain (RouteMx config) idxs).
Proof.
  eapply (tells_tbind (fun x _ => match x with Ok (Some l) => Forall of_domain l | _ => True end)).
  - intros t. cbn -[to_remote_hosts]. destruct (mx_lookup t domain) as [r | []]; try exact I;
      (match goal with |- context [to_remote_hosts ?a ?b ?c ?d] => destruct (to_remote_hosts a b c d) eqn:E end; [exact (to_remote_hosts_mx _ _ _ _ _ E) | exact I]).
  - intros [[l |] | err] a H; apply tells_tret; [exact H | constructor; [exact I | constructor] | constructor; [apply auth_error_failed | constructor]].
Qed.
Definition speaks_smtp (route : RoutingStrategy) : Prop := match route with RouteRelay r => relay_smtp r = true | _ => True end.
Lemma hosts_smtp domain route idxs : speaks_smtp route ->
  tells (fun x _ => match x with Ok l => Forall (fun h => hop_is_smtp h = true) l | Err l => Forall no_success l end) (hosts_of domain route idxs).
Proof.
  intros S. destruct route as [| config | r]; [apply tells_tret; constructor | | apply tells_tret; constructor; [exact S | constructor]].
  eapply tells_mono; [| apply mx_hosts]. intros [l | l] _ H; [| exact H]. eapply Forall_impl; [| exact H]. intros [] K; [contradiction | reflexivity].
Qed.

Lemma deliver_remote_settles m domain route headers idxs e : speaks_smtp route ->
  tells (all_settled m headers) (deliver_remote m domain route headers idxs e).
Proof.
  intros S. unfold deliver_remote. apply later; [intros; apply all_settled_in; assumption |]. intros report.
  apply or_fails; [intros; apply all_settled_in; assumption | | intros sts | intros st H; apply tells_tret; constructor; [exact H | constructor]].
  - unfold sts_policy_of. case_if; [| apply tells_tret; exact I]. eapply (tells_tbind (fun _ _ => True)); [intros t; exact I |]. intros [p | err] l _; [apply tells_tret; exact I |].
    eapply (tells_tbind (fun _ _ => True)); [intros t; exact I |]. intros _ l' _. apply tells_tret. case_if; [apply sts_error_failed | exact I].
  - eapply tells_tbind; [apply hosts_smtp, S |]. intros [hosts | l] a H.
    + eapply tells_mono; [| apply try_hosts_settles; [exact H | exact I]]. intros x b. apply all_settled_in.
    + apply tells_tret, no_success_settled, H.
Qed.
End Acknowledged.
