(* ===== verification/OutboundGuarantees.v ===== *)
(** * What outbound delivery guarantees

    Against any peer, any network and any settings: a message that must be
    encrypted is not sent in the clear; an enforced MTA-STS policy and TLSA
    records are obeyed; a recipient is reported as delivered only when the
    server said so; each recipient of a group gets a result, as the queue
    expects; and the bytes of a message arrive unchanged. *)

From stdpp Require Import gmap.
From S2P Require Import Prelude Decimals Utf8 Text IpMask Milter SmtpData SmtpQueue QueueSpool QueueWorkers OutboundClient OutboundSession OutboundHosts OutboundAttempt OutboundLogic OutboundSafety OutboundAcknowledged.
#[local] Open Scope wire_scope.

Section Guarantees.
Context {Cr : Crates} {Wi : Wire} {Wo : World} {Se : OutSettings}.

(** ** Encryption *)

(** In the clear only greetings, and the request for TLS. *)
Definition private (m : Message) (a : Act) : Prop := match a with Wrote false b => harmless m b | _ => True end.

Lemma report_of_says F is_smtp is_mx m e domain : says anything F (tls_report_of is_smtp is_mx m e domain).
Proof.
  unfold tls_report_of. case_if; [| apply says_tret; exact I].
  destruct (report_interval m e); try (apply says_tret; exact I); (says_step; apply says_tret; exact I).
Qed.
Lemma sts_policy_says (F : Act -> Prop) is_smtp is_mx s report domain : (forall e, F (Reported e)) ->
  says anything F (sts_policy_of is_smtp is_mx s report domain).
Proof.
  intros R. unfold sts_policy_of. case_if; [| apply says_tret; exact I]. says_step. destruct x as [p | err]; [apply says_tret; exact I |].
  apply (says_tbind anything); [| intros; apply says_tret; exact I].
  destruct err as [[] | |]; try case_if; try (apply says_tret; exact I); apply report_says, R.
Qed.
Lemma hosts_of_says F domain route idxs : says anything F (hosts_of domain route idxs).
Proof. unfold hosts_of. destruct route; try (apply says_tret; exact I). says_step. apply says_tret. exact I. Qed.

Lemma always_strict m : (forall e, is_tls_required (tls_of m e) = true) \/ message_has_flag m MAIL_REQUIRETLS = true ->
  forall sts host_ok dane_ok h, hop_ok m sts host_ok dane_ok h -> is_strict_tls m h = true.
Proof.
  intros R sts host_ok dane_ok h [(e & E) _]. unfold is_strict_tls. destruct R as [R | R]; [rewrite E, R; reflexivity |]. rewrite R, orb_true_r. reflexivity.
Qed.

(** C11: Nothing leaves in the clear.  A message that asks for TLS, or whose
    settings do, is not sent over an unencrypted connection, whatever the
    servers say and however many groups, hosts and addresses are tried: all
    that is written in the clear is EHLO with a name of this server, and
    STARTTLS.  The settings must let TLS be tried. *)
Theorem nothing_in_the_clear (m : Message) (l : Routes) (t : Trace) :
  (forall e, tries_start_tls (tls_of m e) = true) ->
  (forall e, is_tls_required (tls_of m e) = true) \/ message_has_flag m MAIL_REQUIRETLS = true ->
  Forall (private m) (snd (deliver_groups m l t)).
Proof.
  intros T R. cut (says anything (private m) (deliver_groups m l)); [intros H; apply H |].
  induction l as [| g l IH]; [apply says_tret; exact I |]. cbn. apply (says_tbind anything); [| intros x _; apply (says_tbind anything); [exact IH | intros; apply says_tret; exact I]].
  destruct g as [[[domain route] headers] [| i idxs]]; cbn; [apply says_tret; exact I |]. destruct (recipients m !! i) as [r |]; [| apply says_tret; exact I].
  says_step. destruct (first_some x); [apply says_tret; exact I |]. unfold deliver_local, deliver_remote. destruct (route_config route) eqn:Hr.
  1: { says_step. apply (says_tbind anything); [apply says_emit; exact I | intros; apply says_tret; exact I]. }
  all: apply (says_tbind anything); [apply report_of_says |]; intros report _;
    apply (says_tbind anything); [apply sts_policy_says; intros; exact I |]; intros [sts | st] _; [| apply says_tret; exact I];
    apply (says_tbind anything); [apply hosts_of_says |]; intros [hosts | y] _; [| apply says_tret; exact I];
    (apply (try_hosts_says m sts (fun _ => True) (fun _ => True)); try (intros; exact I); [intros b H; exact H | apply always_strict, R | exact T | apply List.Forall_forall; auto]).
Qed.

(** What is allowed under an enforced policy. *)
Definition obeys (m : Message) (p : Policy) (a : Act) : Prop :=
  match a with
  | Connected mx _ _ => policy_verify p mx = true
  | Wrote false b => harmless m b
  | Handshaken _ k => k = PkiVerify \/ (exists e, allow_invalid_certs (tls_of m e) = true \/ tries (dane (tls_of m e)) = true)
  | _ => True
  end.

(** A step without events. *)
Lemma quiet_bind {A B} (n : M A) (f : A -> M B) t x : n t = (x, []) -> tbind n f t = f x t.
Proof. intros H. unfold tbind. rewrite H, app_nil_r. destruct (f x t). reflexivity. Qed.
Lemma report_of_quiet is_smtp is_mx m e domain t : exists r, tls_report_of is_smtp is_mx m e domain t = (r, []).
Proof. unfold tls_report_of. case_if; [| eexists; reflexivity]. destruct (report_interval m e); eexists; reflexivity. Qed.

(** C12: An enforced MTA-STS policy is obeyed.  When the lookup for a domain
    answers with a policy in enforce mode, connections are made only to hosts
    that the policy lists; nothing but greetings and STARTTLS is written in
    the clear; and certificates are verified in every handshake, unless the
    settings accept invalid ones or use DANE.  The settings must let MTA-STS
    and TLS be tried. *)
Theorem mta_sts_enforced (m : Message) (domain : list Z) (config : MxConfig) (headers : option (list Z)) (idxs : list nat) (e : Envelope)
    (p : Policy) (t : Trace) :
  lookup_mta_sts_policy t domain (timeout_mta_sts (tls_of m e)) = Ok p -> enforce p = true ->
  tries (mta_sts (tls_of m e)) = true -> (forall e, tries_start_tls (tls_of m e) = true) ->
  Forall (obeys m p) (snd (deliver_remote m domain (RouteMx config) headers idxs e t)).
Proof.
  intros L E Ts T. unfold deliver_remote. destruct (report_of_quiet true true m e domain t) as [report R]. rewrite (quiet_bind _ _ _ _ R).
  assert (S : sts_policy_of true true (tls_of m e) report domain t = (Ok (Some p), [])).
  { unfold sts_policy_of. rewrite Ts. cbn. unfold tbind, looking. rewrite L. reflexivity. }
  rewrite (quiet_bind _ _ _ _ S). clear R S L. revert t.
  cut (says anything (obeys m p) (let# hosts := hosts_of domain (RouteMx config) idxs in
    match hosts with Err l => tret l | Ok hosts => try_hosts true domain report (Some p) m idxs headers e Scheduled hosts end)).
  { intros H t. apply H. }
  eapply (says_tbind (fun x => match x with Ok l => Forall of_domain l | Err _ => True end)).
  { intros t. split; [pose proof (mx_hosts domain config idxs t) as H; cbn beta in H; destruct (fst _); [exact H | exact I] |]. apply hosts_of_says. }
  intros [hosts | l] Hh; [| apply says_tret; exact I].
  apply (try_hosts_says m (Some p) of_domain (fun _ => True)); try (intros; exact I); auto.
  - intros mx ip port A. exact (A p eq_refl E).
  - intros h ((e' & K) & _ & D & _ & N). unfold obeys, tls_connector. destruct (hop h); [contradiction |]. cbn [hop_allow_invalid_certs]. rewrite orb_false_r.
    destruct (allow_invalid_certs (h_tls h)) eqn:V; [right; exists e'; rewrite <- K; auto |].
    destruct (h_dane h); [right; exists e'; rewrite <- K; auto | left; reflexivity].
  - intros h (_ & S & _). unfold is_strict_tls. rewrite S, orb_true_r. reflexivity.
Qed.

(** What the peer showed satisfies TLSA records: a record for end entities
    matches its certificate, or its certificate has a name of the host or the
    domain and a chain to an anchor that a record for issuers gives. *)
Definition dane_satisfied (tlsa : Tlsa) (mx domain : list Z) (t : Trace) : Prop :=
  exists first rest c cs, peer_certificates t = Some (first :: rest) /\ mapM parse_certificate (first :: rest) = Some (c :: cs) /\
  ((exists r, In r (entries tlsa) /\ is_end_entity r = true /\ record_matches r c first = true) \/
   (exists anchors name, verify_for_usage t first anchors rest = true /\ (name = mx \/ name = domain) /\ valid_for_name first name = true /\
      forall a, In a anchors -> exists r, In r (entries tlsa) /\ is_end_entity r = false /\
                                          In a (record_anchors r (c :: cs) (combine (seq 1 (length rest)) (combine cs rest))))).
Lemma dane_verify_sound t tlsa mx domain :
  dane_verify t tlsa mx [mx; domain] (peer_certificates t) = Ok tt -> dane_satisfied tlsa mx domain t.
Proof.
  unfold dane_verify, dane_satisfied. destruct (peer_certificates t) as [[| first rest] |]; try discriminate.
  destruct (mapM parse_certificate (first :: rest)) as [parsed |] eqn:P; [| discriminate].
  destruct parsed as [| c cs]; [apply mapM_Some in P; inversion P |]. destruct (verify_end_entity tlsa c first || _) eqn:V; [intros _ | discriminate].
  exists first, rest, c, cs. split_and!; [reflexivity | exact P |]. apply orb_true_iff in V as [V | V].
  - left. unfold verify_end_entity in V. apply andb_true_iff in V as [_ V]. apply existsb_exists in V as (r & Hr & V). apply andb_true_iff in V as [V1 V2]. eauto.
  - right. unfold verify_trust_anchor in V. apply andb_true_iff in V as [V1 V2]. cbn [tl] in V2.
    match type of V2 with context [verify_for_usage t first ?x rest] => set (anchors := x) in V2 end.
    apply andb_true_iff in V2 as [V2 V3]. apply andb_true_iff in V2 as [_ V2]. apply existsb_exists in V3 as (name & Hn & V3).
    apply andb_true_iff in V3 as [_ V3]. exists anchors, name. split_and!; [exact V2 | destruct Hn as [<- | [<- | []]]; auto | exact V3 |].
    intros a Ha. apply in_concat in Ha as (l & Hl & Ha). apply in_map_iff in Hl as (r & <- & Hr). apply filter_In in Hr as [Hr E].
    exists r. apply negb_true_iff in E. auto.
Qed.

(** Whatever is written over TLS comes after a moment that [ok] holds of. *)
Definition guarded (ok : Trace -> Prop) (t l : Trace) : Prop :=
  forall a bytes b, l = a ++ Wrote true bytes :: b -> exists a1 a2, a = a1 ++ a2 /\ ok (t ++ a1).

Definition no_tls (a : Act) : Prop := match a with Wrote true _ => False | _ => True end.
Lemma no_tls_guarded ok t l : Forall no_tls l -> guarded ok t l.
Proof. intros H a bytes b ->. apply Forall_app in H as [_ H]. inversion H; contradiction. Qed.
(** Before it nothing is written over TLS, or it holds from there on. *)
Lemma guarded_app ok t l1 l2 : Forall no_tls l1 -> ok (t ++ l1) \/ guarded ok (t ++ l1) l2 -> guarded ok t (l1 ++ l2).
Proof.
  intros N H a bytes b E. assert (S : exists a2, a = l1 ++ a2 /\ l2 = a2 ++ Wrote true bytes :: b).
  { apply app_eq_app in E as (c & [[-> Ec] | [-> ->]]); [| exists c; auto]. destruct c as [| x c]; [exists []; rewrite !app_nil_r; auto |].
    injection Ec as <- _. exfalso. apply Forall_app in N as [_ N]. inversion N. contradiction. }
  destruct S as (a2 & -> & E2). destruct H as [H | H]; [exists l1, a2; auto |].
  destruct (H a2 bytes b E2) as (b1 & b2 & -> & K). exists (l1 ++ b1), b2. rewrite !app_assoc in *. auto.
Qed.

(** A step that writes nothing over TLS. *)
Lemma guarded_bind {A B} ok (n : M A) (f : A -> M B) t : Forall no_tls (snd (n t)) ->
  guarded ok (t ++ snd (n t)) (snd (f (fst (n t)) (t ++ snd (n t)))) -> guarded ok t (snd (tbind n f t)).
Proof.
  intros H K. unfold tbind in *. destruct (n t) as [x l]. cbn in *. destruct (f x (t ++ l)) as [y l']. apply guarded_app; [exact H | right; exact K].
Qed.
Lemma says_guarded {A B} (R : A -> Prop) ok (n : M A) (f : A -> M B) t : says R no_tls n ->
  (forall x, R x -> forall t, guarded ok t (snd (f x t))) -> guarded ok t (snd (tbind n f t)).
Proof. intros H K. destruct (H t) as [Hx Hl]. apply guarded_bind; [exact Hl | apply K, Hx]. Qed.

Lemma start_tls_guarded c caps p h m idxs headers tlsa t : over_tls c = false -> h_dane h = Some tlsa ->
  guarded (dane_satisfied tlsa (h_mx h) (h_domain h)) t (snd (with_start_tls c caps p h m idxs headers t)).
Proof.
  intros C D. unfold with_start_tls.
  assert (Re : forall r d p f, says anything no_tls (schedule_report r d p f)) by (intros; apply report_says; intros; exact I).
  assert (St : is_strict_tls m h = true) by (unfold is_strict_tls; rewrite D; apply orb_true_r).
  apply (says_guarded anything).
  - unfold try_start_tls. case_if; [| apply says_tret; exact I]. apply (says_tbind anything).
    + rewrite (same_timeout c). apply cmd_says; [intros; exact I | cbn; rewrite C; exact I].
    + intros [r | r] _; [| apply says_tret; exact I]. case_if; [| apply says_tret; exact I]. apply (says_tbind anything); [| intros; apply says_tret; exact I].
      unfold into_tls. case_if; [| apply says_tret; exact I]. intros t'. split; [exact I | constructor; [exact I | constructor]].
  - clear t. intros [c' | e | r c'] _ t.
    + unfold verify_dane. rewrite D. unfold tbind, looking. rewrite app_nil_r.
      destruct (dane_verify t tlsa (h_mx h) [h_mx h; h_domain h] (peer_certificates t)) as [[] | st] eqn:V.
      * intros a bytes b _. exists [], a. rewrite app_nil_r. split; [reflexivity | apply dane_verify_sound, V].
      * apply no_tls_guarded. unfold schedule_report. destruct (h_report h) as [[? ?] |]; cbn; repeat constructor.
    + apply (says_guarded anything); [destruct e; try (apply says_tret; exact I); apply Re | intros; apply no_tls_guarded; constructor].
    + apply (says_guarded anything); [apply Re | intros; rewrite St; apply no_tls_guarded; constructor].
Qed.


(** ** Results *)

(** The bytes that were written. *)
Definition written (l : Trace) : list Z := concat (map (fun a => match a with Wrote _ b => b | _ => [] end) l).

(** C14: A delivery is what the server said.  Over SMTP a recipient is reported
    as delivered only when, in this order, the RCPT TO with its address got
    the positive reply that the report keeps, the message of the blob store
    was written to its end, and the server answered that with 250; and no
    result for a whole group is a delivery. *)
Theorem no_false_delivery (m : Message) (domain : list Z) (route : RoutingStrategy) (headers : option (list Z)) (idxs : list nat) (e : Envelope)
    (t : Trace) (r : DeliveryResult) :
  speaks_smtp route -> In r (fst (deliver_remote m domain route headers idxs e t)) ->
  match r with
  | RAccount (Completed h) i => delivered m headers i h (snd (deliver_remote m domain route headers idxs e t))
  | RDomain st _ => failed st
  | _ => True
  end.
Proof.
  intros S H. pose proof (deliver_remote_settles m domain route headers idxs e S t) as K. unfold all_settled in K.
  rewrite List.Forall_forall in K. exact (K r H).
Qed.

Lemma local_results m idxs t : Forall (within idxs) (fst (deliver_local deliver_message m idxs t)).
Proof.
  unfold deliver_local, tbind. cbn. apply Forall_map, List.Forall_forall. intros [[i r] x] H j [<- | []].
  apply in_combine_l in H. apply list_elem_of_In, list_elem_of_omap in H as (k & Hk & E). apply list_elem_of_In in Hk.
  destruct (recipients m !! k); [| discriminate]. injection E as -> _. exact Hk.
Qed.
Lemma group_results m g t : Forall (within (snd g)) (fst (deliver_group m g t)).
Proof.
  destruct g as [[[domain route] headers] [| i idxs]]; cbn [snd]; [constructor |]. unfold deliver_group.
  destruct (recipients m !! i) as [r |]; [| constructor]. unfold looking, tbind at 1. rewrite app_nil_r.
  assert (R : forall route e t, Forall (within (i :: idxs)) (fst (deliver_remote m domain route headers (i :: idxs) e t))).
  { intros route0 e t0. apply (deliver_remote_covers m domain route0 headers (i :: idxs) e t0). }
  destruct (first_some _); [constructor; [intros j; auto | constructor] |].
  match goal with |- context [match route_config route with RouteLocal => ?a | RouteMx _ => _ | RouteRelay _ => _ end] => set (here := a) end.
  destruct (route_config route) eqn:E.
  - subst here. pose proof (local_results m (i :: idxs) t) as L. destruct (deliver_local deliver_message m (i :: idxs) t). exact L.
  - specialize (R (RouteMx c) (envelope_new r) t). destruct (deliver_remote _ _ _ _ _ _ t). exact R.
  - specialize (R (RouteRelay r0) (envelope_new r) t). destruct (deliver_remote _ _ _ _ _ _ t). exact R.
Qed.

(** What [QueueSpool] asks of the outside, with the attempts of this
    component; [past] is what happened before a task. *)
Definition attempting (O : Outbound) (past : Message -> Trace) : Outbound := {|
  strategy_of := strategy_of O; sender_limits := sender_limits O; route_of := route_of O; hash_order := hash_order O;
  outcomes m l := fst (deliver_groups m l (past m)); rfc822_date_of := rfc822_date_of O; clock := clock O |}.

(** C16: Attempts refine what the queue assumes of them: whatever the network
    does, the results of trying the groups of a message are about recipients
    of these groups, so that all that is shown of the queue holds with them. *)
Theorem attempts_lawful (O : Outbound) (past : Message -> Trace) :
  (forall l g, In g (hash_order O l) -> In g l) -> Lawful (attempting O past).
Proof.
  intros H. constructor; [exact H |]. intros m l r i. cbn [outcomes attempting]. generalize (past m). induction l as [| g l IH]; intros t; [intros [] |].
  cbn [deliver_groups]. unfold tbind. destruct (deliver_group m g t) as [x l1] eqn:G. destruct (deliver_groups m l (t ++ l1)) as [y l2] eqn:K. cbn.
  intros Hr Hi. apply in_app_or in Hr as [Hr | Hr].
  - pose proof (group_results m g t) as W. rewrite G in W. rewrite List.Forall_forall in W. exists g. split; [left; reflexivity | exact (W r Hr i Hi)].
  - destruct (IH (t ++ l1)) as (g' & Hg & Hi'); [rewrite K; exact Hr | exact Hi | exists g'; split; [right; exact Hg | exact Hi']].
Qed.
Lemma add_route_keeps k i l g j : In g l -> In j (snd g) -> exists g', In g' (add_route k i l) /\ In j (snd g').
Proof.
  induction l as [| [k' idxs] l IH]; cbn; [intros [] |]. intros [<- | H] J; case_if.
  - eexists. split; [left; reflexivity | apply in_or_app; left; exact J].
  - eexists. split; [left; reflexivity | exact J].
  - exists g. split; [right; exact H | exact J].
  - destruct (IH H J) as (g' & Hg & K). exists g'. split; [right; exact Hg | exact K].
Qed.
Lemma add_route_adds k i l : exists g, In g (add_route k i l) /\ In i (snd g).
Proof.
  induction l as [| [k' idxs] l IH]; cbn; [eexists; split; [left; reflexivity | left; reflexivity] |]. case_if.
  - eexists. split; [left; reflexivity | apply in_or_app; right; left; reflexivity].
  - destruct IH as (g & Hg & K). exists g. split; [right; exact Hg | exact K].
Qed.
Lemma in_combine_seq {A} (l : list A) n i x : l !! i = Some x -> In ((n + i)%nat, x) (combine (seq n (length l)) l).
Proof.
  revert n i. induction l as [| y l IH]; intros n i H; [discriminate |]. destruct i as [| i]; cbn in *; [injection H as ->; left; f_equal; lia |].
  right. replace (n + S i)%nat with (S n + i)%nat by lia. exact (IH (S n) i H).
Qed.
Lemma routes_complete O now q m i r : recipients m !! i = Some r -> due_now now q r = true ->
  exists g, In g (routes O now q m) /\ In i (snd g).
Proof.
  intros Hr D. unfold routes.
  assert (E : In (i, r) (combine (seq 0 (length (recipients m))) (recipients m))).
  { exact (in_combine_seq _ 0 i r Hr). }
  revert E. generalize (combine (seq 0 (length (recipients m))) (recipients m)). intros l.
  cut (forall acc, (exists g, In g acc /\ In i (snd g)) \/ In (i, r) l -> exists g, In g (fold_left (fun l '(idx, r) =>
      if due_now now q r then add_route (domain_part (raddress r), route_of O m r, headers_for idx (default_headers (metadata m)) (metadata m)) idx l else l) l acc) /\ In i (snd g)).
  { intros H E. apply H. right. exact E. }
  induction l as [| [j x] l IH]; intros acc [(g & Hg & K) | H]; cbn [fold_left]; [exists g; auto | destruct H | |].
  - apply IH. left. case_if; [exact (add_route_keeps _ _ _ g i Hg K) | exists g; auto].
  - destruct H as [[= -> ->] | H]; apply IH; [left; rewrite D; apply add_route_adds | right; exact H].
Qed.
(** The mail store answers for each recipient that it is handed. *)
Definition store_answers : Prop := forall t m l, length (deliver_message t m l) = length l.

Lemma local_about m idxs t i r : store_answers -> In i idxs -> recipients m !! i = Some r -> about (fst (deliver_local deliver_message m idxs t)) i.
Proof.
  intros S Hi Hr. unfold deliver_local, tbind. cbn.
  set (l := omap _ idxs). set (xs := deliver_message _ _ _). assert (L : length l = length xs) by (unfold xs; rewrite S, length_map; reflexivity).
  assert (H : In (i, r) (map fst (combine l xs))).
  { rewrite fst_combine by exact L. apply list_elem_of_In, list_elem_of_omap. exists i. rewrite Hr. split; [apply list_elem_of_In, Hi | reflexivity]. }
  apply in_map_iff in H as ([[j r'] x] & [= -> ->] & H). exists (RAccount (local_status (raddress r) x) i). split; [| left; reflexivity].
  apply in_map_iff. exists ((i, r), x). auto.
Qed.
Lemma group_about m g t i r : store_answers -> (forall j, In j (snd g) -> is_Some (recipients m !! j)) ->
  In i (snd g) -> recipients m !! i = Some r -> is_pending r = true -> about (fst (deliver_group m g t)) i.
Proof.
  intros S V Hi Hr P. destruct g as [[[domain route] headers] [| j idxs]]; cbn [snd] in *; [destruct Hi |]. unfold deliver_group.
  destruct (V j) as [rj Hj]; [left; reflexivity |]. rewrite Hj. unfold looking, tbind at 1. rewrite app_nil_r.
  destruct (first_some _); [eexists; split; [left; reflexivity | exact Hi] |].
  assert (R : forall route e t, about (fst (deliver_remote m domain route headers (j :: idxs) e t)) i).
  { intros route0 e t0. destruct (deliver_remote_covers m domain route0 headers (j :: idxs) e t0) as [[_ C] _]. exact (C i r Hi Hr P). }
  destruct (route_config route) eqn:E.
  - pose proof (local_about m (j :: idxs) t i r S Hi Hr) as L. destruct (deliver_local deliver_message m (j :: idxs) t). exact L.
  - specialize (R (RouteMx c) (envelope_new rj) t). destruct (deliver_remote _ _ _ _ _ _ t). exact R.
  - specialize (R (RouteRelay r0) (envelope_new rj) t). destruct (deliver_remote _ _ _ _ _ _ t). exact R.
Qed.

(** C15: Each recipient that is due is answered.  A task groups its recipients
    by domain and route, and tries the groups one after the other; every
    recipient that is due in the queue of the task has a result in what comes
    of it, whatever hosts, policies and replies the groups meet.  The mail
    store must answer for each recipient that it is handed. *)
Theorem due_recipient_answered (O : Outbound) (past : Message -> Trace) (now : Z) (q : list Z) (m : Message) (i : nat) (r : Recipient) :
  store_answers -> (forall l g, In g (hash_order O l) <-> In g l) ->
  recipients m !! i = Some r -> due_now now q r = true ->
  about (outcomes (attempting O past) m (hash_order O (routes O now q m))) i.
Proof.
  intros S Or Hr D. destruct (routes_complete O now q m i r Hr D) as (g & Hg & Hi). apply (proj2 (Or _ _)) in Hg.
  assert (V : forall g j, In g (hash_order O (routes O now q m)) -> In j (snd g) -> is_Some (recipients m !! j)).
  { intros g' j H J. apply (proj1 (Or _ _)) in H. destruct (routes_grouped O now q m g' j H J) as (x & Hx & _). exists x. exact Hx. }
  assert (P : is_pending r = true) by (unfold due_now in D; apply andb_true_iff in D as [D _]; apply andb_true_iff in D as [D _]; exact D).
  cbn [outcomes attempting]. generalize (past m). revert Hg V. generalize (hash_order O (routes O now q m)). intros l.
  induction l as [| g' l IH]; intros Hg V t; [destruct Hg |]. cbn [deliver_groups]. unfold tbind.
  destruct (deliver_group m g' t) as [x l1] eqn:G. destruct (deliver_groups m l (t ++ l1)) as [y l2] eqn:K. cbn.
  destruct Hg as [-> | Hg].
  - pose proof (group_about m g t i r S (fun j => V g j (or_introl eq_refl)) Hi Hr P) as A. rewrite G in A. apply about_app, A.
  - destruct (IH Hg (fun g j H => V g j (or_intror H)) (t ++ l1)) as (z & Hz & Iz). rewrite K in Hz.
    exists z. split; [apply in_or_app; right; exact Hz | exact Iz].
Qed.

(** C17: The transparency procedure.  When a message that does not begin with
    a dot was written after DATA, the receiver's end of data - a dot on a line
    of its own - is at the end of what was written and nowhere before, and
    dropping a dot at the start of each line, as a receiver does, gives back
    the message (the end begins with a CRLF of its own). *)
Theorem message_transparent (c : Client) (message : list Z) (t l : Trace) :
  write_message c message t = (Ok tt, l) -> leading_dot message = false ->
  exists w, written l = w ++ eom /\ undot true w = message /\
            (forall a b, written l = a ++ eom ++ b -> b = []) /\ (forall b, written l <> s#"." ++ crlf ++ b).
Proof.
  intros W D. pose proof (write_chunks_tells c (dot_pieces [] false message ++ [eom]) t) as H. unfold write_message in W.
  change (crlf ++ s#"." ++ crlf) with eom in W. rewrite W in H. cbn [means fst snd] in H. subst l. exists (dotted false message).
  assert (E : written (map (Wrote (over_tls c)) (dot_pieces [] false message ++ [eom])) = dotted false message ++ eom).
  { unfold written. rewrite map_map, map_id, concat_app, pieces_dotted. cbn [concat app]. rewrite app_nil_r. reflexivity. }
  rewrite E. split_and!; [reflexivity | apply undot_message, D | intros a b; apply dotted_ends_once | intros b; apply no_early_end, D].
Qed.
End Guarantees.

(** ** A network to try things on *)

Module Demo.
#[local] Existing Instance demo_crates.

(** The certificate of the host, and one of nobody. *)
Definition certificate : list Z := [1; 2; 3].

(** A server that answers the last command: it greets, offers STARTTLS or not,
    and refuses [no@ok]. *)
Definition reply_to (starttls : bool) (t : Trace) : list Z :=
  match hd_error (rev t) with
  | Some (Wrote _ b) =>
      if starts_with s#"EHLO" b then (if starttls then s#"250 STARTTLS" else s#"250 OK")
      else if starts_with s#"STARTTLS" b then s#"220 go"
      else if starts_with s#"DATA" b then s#"354 go"
      else if starts_with s#"RCPT TO:<no@" b then s#"550 no"
      else s#"250 OK"
  | _ => s#"220 mx"
  end.
Definition parse_reply (b : list Z) : Response :=
  match b with
  | x :: y :: z :: text => MkResponse ((x - 48) * 100 + (y - 48) * 10 + (z - 48)) (0, 0, 0) text
  | _ => MkResponse 0 (0, 0, 0) []
  end.
Definition severity_of (r : Response) : Severity :=
  if code r <? 300 then PositiveCompletion else if code r <? 400 then PositiveIntermediate
  else if code r <? 500 then TransientNegativeCompletion else PermanentNegativeCompletion.

Definition demo_wire (replies : Trace -> list Z) : Wire := {|
  severity := severity_of; to_mechanism _ := []; response_text_of := response_text; MAX_RESPONSE_LENGTH := 4096;
  EXT_CHUNKING := 1; EXT_DSN := 2; EXT_REQUIRE_TLS := 4; EXT_SIZE := 8; EXT_SMTP_UTF8 := 16; EXT_START_TLS := 32;
  AUTH_LOGIN := 1; AUTH_PLAIN := 2; AUTH_XOAUTH2 := 4; AUTH_OAUTHBEARER := 8; MAIL_SMTPUTF8 := 1024;
  ReplyReceiver := unit; reply_new := tt; reply_from_code _ := tt; reply_reset _ := tt;
  reply_parse _ b := (tt, Ok (parse_reply b), []);
  EhloResponse := bool; ehlo_parse b := (Ok (bytes_eqb b s#"250 STARTTLS"), []);
  has_capability offered x := offered && (x =? 32); auth_mechanisms _ := 0;
  base64_encode b := b; base64_decode b := Ok b; valid_server_name _ := true;
  connects _ _ _ _ _ := None; writes _ _ _ := None; arrivals t _ := ([replies t], Eof);
  handshakes _ _ _ _ := None; peer_certificates _ := Some [certificate];
  get_blob _ _ := Ok (Some (s#"Hi." ++ crlf ++ s#".." ++ crlf)) |}.

Definition policy_text (mode : list Z) : list Z := s#"version: STSv1" ++ [10] ++ s#"mode: " ++ mode ++ [10] ++ s#"mx: mx.ok" ++ [10].
(** A domain with a host that its policy does not list, and one that it does,
    with a TLSA record for [pinned]. *)
Definition demo_world (mode pinned : list Z) : World := {|
  auth_error_text _ := []; net_error_into _ := AOther []; to_fqdn b := b; shuffle _ l := l;
  ipv4_lookup _ _ := Ok [IpV4 167772161]; ipv6_lookup _ _ := Ok []; dnssec_available := true; plain_mx _ _ := Err (AOther []);
  mx_cache _ _ := None; dnssec_mx _ _ := Ok [(ProofSecure, Some (10, s#"evil.")); (ProofSecure, Some (20, s#"MX.ok."))];
  tlsa_cache _ _ := None; dnssec_tlsa _ _ := Ok [(ProofSecure, Some (MkTlsaRdata DaneEe MRaw SelFull pinned))];
  sts_record _ _ := Ok [7]; sts_cache _ _ := None; sts_fetch _ _ _ := Ok (Some (policy_text mode)); utf8_error _ := [];
  parse_certificate b := Some (MkCert b [] []); sha256 b := b; sha512 b := b; der_value b := Some b;
  Anchor := list Z; anchor_of_certificate := Some; anchor_of_key x _ := x; end_entity_cert _ := true;
  verify_for_usage _ _ _ _ := false; valid_for_name _ _ := true |}.

Definition mx_route : RoutingStrategy := RouteMx (MkMxConfig 5 2 Ipv4thenIpv6).
Definition demo_settings (s : TlsStrategy) : OutSettings := {|
  route_config k := match k with O => mx_route | _ => RouteLocal end;
  tls_of _ _ := s; connection_of _ _ := MkConnection [] [] None 1 1 1 1 1 1;
  rcpt_limited _ _ _ := []; remote_limited _ _ _ := []; report_interval _ _ := Daily; tls_rpt_record _ _ := Ok [9];
  server_name := s#"here"; choose _ _ := O; deliver_message _ _ l := map (fun _ => LocalSuccess) l |}.

Definition to (address : list Z) : Recipient :=
  MkRecipient address (MkSchedule 1000 0) (MkSchedule 4600 0) (Ttl 86400) s#"remote" Scheduled 0 None.
Definition letter : Message := MkQueued 1000 [1] s#"me@there" [to s#"no@ok"; to s#"ann@ok"] 0 None 0 10 [].
Definition groups : Routes := [((s#"ok", O, None), [0; 1]%nat)].
Definition required : TlsStrategy := MkTlsStrategy Disable_ Optional Require_ false 1 1.
Definition with_dane : TlsStrategy := MkTlsStrategy Require_ Disable_ Optional false 1 1.
Definition opportunistic : TlsStrategy := MkTlsStrategy Disable_ Disable_ Optional false 1 1.

Definition clear_writes (l : Trace) : list (list Z) := omap (fun a => match a with Wrote false b => Some b | _ => None end) l.
Definition tls_writes (l : Trace) : list (list Z) := omap (fun a => match a with Wrote true b => Some b | _ => None end) l.
Definition hosts_in (l : Trace) : list (list Z) := omap (fun a => match a with Connected mx _ _ => Some mx | _ => None end) l.

(** Settings that require TLS, and an MTA-STS policy that is enforced. *)
Module Required.
#[local] Instance wire : Wire := demo_wire (reply_to true).
#[local] Instance world : World := demo_world s#"enforce" certificate.
#[local] Instance settings : OutSettings := demo_settings required.
Definition trace : Trace := snd (deliver_groups letter groups []).
Definition remote : list DeliveryResult * Trace := deliver_remote letter s#"ok" mx_route None [0; 1]%nat (envelope_new (to s#"no@ok")) [].
Definition the_policy : Policy := MkPolicy [7] Enforce [MxEquals s#"mx.ok"] 86400.

Lemma nothing_in_the_clear_witness :
  clear_writes trace = [s#"EHLO here" ++ crlf; s#"STARTTLS" ++ crlf] /\ length (tls_writes trace) = 10%nat /\ Forall (private letter) trace.
Proof.
  split; [vm_compute; reflexivity |]. split; [vm_compute; reflexivity |].
  apply (nothing_in_the_clear letter groups []); [reflexivity | left; reflexivity].
Defined.

Lemma mta_sts_enforced_witness : hosts_in (snd remote) = [s#"mx.ok"] /\ Forall (obeys letter the_policy) (snd remote).
Proof.
  split; [vm_compute; reflexivity |].
  apply (mta_sts_enforced letter s#"ok" (MkMxConfig 5 2 Ipv4thenIpv6) None [0; 1]%nat (envelope_new (to s#"no@ok")) the_policy []);
    [vm_compute; reflexivity | reflexivity | reflexivity | reflexivity].
Defined.

Definition ann_delivered : HostResponse := MkHost s#"mx.ok" (MkResponse 250 (0, 0, 0) s#" OK").
Lemma no_false_delivery_witness : delivered letter None 1 ann_delivered (snd remote).
Proof.
  apply (no_false_delivery letter s#"ok" mx_route None [0; 1]%nat (envelope_new (to s#"no@ok")) [] (RAccount (Completed ann_delivered) 1)).
  - exact I.
  - vm_compute. right. left. reflexivity.
Defined.

(** The queue with these attempts. *)
Definition outside : Outbound := {|
  strategy_of _ r := MkStrategy [60] [3600] (Ttl 86400) (queue r); sender_limits _ := []; route_of _ _ := 0%nat;
  hash_order l := rev l; outcomes _ _ := []; rfc822_date_of _ := []; clock _ := 1000 |}.
Lemma attempts_lawful_witness : Lawful (attempting outside (fun _ => [])).
Proof. apply (attempts_lawful outside (fun _ => [])). intros l g H. apply in_rev. exact H. Defined.

Lemma due_recipient_answered_witness :
  about (outcomes (attempting outside (fun _ => [])) letter (hash_order outside (routes outside 1000 s#"remote" letter))) 1.
Proof.
  apply (due_recipient_answered outside (fun _ => []) 1000 s#"remote" letter 1 (to s#"ann@ok")).
  - intros t m l. apply length_map.
  - intros l g. symmetry. apply in_rev.
  - reflexivity.
  - vm_compute. reflexivity.
Defined.

Definition text : list Z := s#"Hi." ++ crlf ++ s#".." ++ crlf.
Definition wire_text : list Z := s#"Hi." ++ crlf ++ s#"..." ++ crlf.
Lemma message_transparent_witness : exists w, w = wire_text /\ undot true w = text.
Proof.
  destruct (message_transparent (MkClient true 1) text [] (snd (write_message (MkClient true 1) text []))) as (w & W & U & _ & _).
  - vm_compute. reflexivity.
  - reflexivity.
  - exists w. split; [| exact U]. apply (app_inv_tail eom). rewrite <- W. vm_compute. reflexivity.
Defined.
End Required.

(** Settings that require DANE. *)
Module Pinned.
#[local] Instance wire : Wire := demo_wire (reply_to true).
#[local] Instance world : World := demo_world s#"enforce" certificate.
#[local] Instance settings : OutSettings := demo_settings with_dane.
Definition tlsa : Tlsa := MkTlsa [MkTlsaEntry true false Full certificate] true false.
Definition host : NextHop := HopMx false s#"mx.ok." (MkMxConfig 5 2 Ipv4thenIpv6) Secure.
Definition envelope : Envelope := set_mx s#"mx.ok" (envelope_new (to s#"ann@ok")).
Definition attempt : Trace :=
  snd (try_ip host s#"ok" None None (Some tlsa) (tls_of letter envelope) letter [1]%nat None envelope (IpV4 167772161) []).

End Pinned.
End Demo.
