(* ===== verification/OutboundFindings.v ===== *)
(** * What the model of outbound delivery shows

    Inputs on which the code does something else than its documents, or the
    protocols, ask for. *)

From stdpp Require Import gmap.
From S2P Require Import Prelude Decimals Utf8 Text IpMask Milter SmtpData SmtpQueue QueueSpool OutboundClient OutboundSession OutboundHosts OutboundAttempt OutboundSafety OutboundGuarantees.
Import Demo.
#[local] Existing Instance demo_crates.

(** ** TLS *)

Definition results (replies : Trace -> list Z) (mode : list Z) (s : TlsStrategy) (m : Message) : list DeliveryResult * Trace :=
  @deliver_groups _ (demo_wire replies) (demo_world mode certificate) (demo_settings s) m groups [].
Definition disabled : TlsStrategy := MkTlsStrategy Disable_ Require_ Disable_ false 1 1.
Definition secret : Message := MkQueued 1000 [1] s#"me@there" [to s#"no@ok"; to s#"ann@ok"] MAIL_REQUIRETLS None 0 10 [].

(** When TLS is disabled, the reasons to insist on it are not looked at: a
    message with REQUIRETLS for a domain with an enforced policy is sent in
    the clear, to a host that offers STARTTLS. *)
Lemma disabled_tls_wins : exists l, results (reply_to true) s#"enforce" disabled secret = l /\
  message_has_flag secret MAIL_REQUIRETLS = true /\ hosts_in (snd l) = [s#"mx.ok"] /\ tls_writes (snd l) = [] /\
  In (s#"MAIL FROM:<me@there>" ++ crlf) (clear_writes (snd l)) /\ In (s#"Hi." ++ crlf) (clear_writes (snd l)).
Proof. eexists. split; [reflexivity |]. vm_compute. repeat split; tauto. Qed.

(** A policy in testing mode makes TLS mandatory: without STARTTLS nothing is
    delivered. *)
Definition sts_optional : TlsStrategy := MkTlsStrategy Disable_ Optional Optional false 1 1.
Lemma testing_policy_is_strict : fst (results (reply_to false) s#"testing" sts_optional letter) =
  [RDomain (PermanentFailure (MkError s#"mx.ok" (TlsError s#"STARTTLS not advertised by host."))) [0; 1]%nat].
Proof. vm_compute. reflexivity. Qed.

(** REQUIRETLS is left out when the server does not know it, and the message
    is sent. *)
Lemma requiretls_dropped : exists l, results (reply_to true) s#"enforce" opportunistic secret = l /\
  In (s#"MAIL FROM:<me@there>" ++ crlf) (tls_writes (snd l)) /\ In (s#"Hi." ++ crlf) (tls_writes (snd l)).
Proof. eexists. split; [reflexivity |]. vm_compute. tauto. Qed.

(** The original recipient of a message is not passed on. *)
Lemma orcpt_not_passed {Cr : Crates} {Wi : Wire} (r : Recipient) (o : option (list Z)) (caps : EhloResponse) :
  build_rcpt_to (MkRecipient (raddress r) (retry r) (notify r) (expires r) (queue r) (rstatus r) (rflags r) o) caps = build_rcpt_to r caps.
Proof. reflexivity. Qed.

(** ** What replies mean *)

Definition at_end (final : list Z) (t : Trace) : list Z :=
  match hd_error (rev t) with Some (Wrote _ b) => if bytes_eqb b eom then final else reply_to true t | _ => reply_to true t end.

(** A failure after DATA is about all recipients of the group: one that was
    refused for good is tried again. *)
Lemma rejection_overridden :
  let l := fst (results (at_end s#"451 later") s#"enforce" opportunistic letter) in
  let replied r := MkError s#"evil" (UnexpectedResponse r (MkResponse 451 (0, 0, 0) s#" later")) in
  l = [RAccount (PermanentFailure (MkError s#"evil" (UnexpectedResponse s#"RCPT TO:<no@ok>" (MkResponse 550 (0, 0, 0) s#" no")))) 0;
       RDomain (TemporaryFailure (replied s#"DATA")) [0; 1]%nat] /\
  option_map (fun m => map rstatus (recipients m)) (apply_results Required.outside 1000 l letter) =
    Some [TemporaryFailure (replied s#"DATA"); TemporaryFailure (replied s#"DATA")].
Proof. vm_compute. auto. Qed.

(** A positive reply to the message other than 250 counts as a temporary
    failure: a message that was taken is sent again. *)
Lemma other_acknowledgement_retried :
  nth_error (fst (results (at_end s#"251 taken") s#"enforce" opportunistic letter)) 1 =
  Some (RDomain (TemporaryFailure (MkError s#"evil" (UnexpectedResponse s#"DATA" (MkResponse 251 (0, 0, 0) s#" taken")))) [0; 1]%nat).
Proof. vm_compute. reflexivity. Qed.

(** The eight bytes of a challenge [Username] are too few. *)
Lemma short_challenge_refused : @login_answer (demo_wire (reply_to true)) s#"me" s#"key" s#"Username" = Err CInvalidChallenge.
Proof. vm_compute. reflexivity. Qed.

(** A message that begins with a dot: the dot is not doubled, and on a line of
    its own it ends the data. *)
Lemma leading_dot_not_doubled : exists l, @write_message (demo_wire (reply_to true)) (MkClient true 1) (s#"." ++ crlf ++ s#"rest") [] = (Ok tt, l) /\
  written l = s#"." ++ crlf ++ s#"rest" ++ eom.
Proof. eexists. split; [reflexivity |]. vm_compute. reflexivity. Qed.

(** ** Lookups *)

(** A text in which one line has no colon: it takes the next one with it, and
    a policy without a mode is one that asks for nothing. *)
Lemma policy_line_swallowed :
  parse_policy (s#"junk" ++ [10] ++ s#"mode: enforce" ++ [10] ++ s#"mx: mx.ok" ++ [10]) [7] = Ok (MkPolicy [7] ModeNone [MxEquals s#"mx.ok"] 86400).
Proof. vm_compute. reflexivity. Qed.

Definition failing (v4 : result (list IpAddr) AuthError) (cached : option Policy) : World := {|
  auth_error_text _ := []; net_error_into _ := AOther []; to_fqdn b := b; shuffle _ l := l;
  ipv4_lookup _ _ := v4; ipv6_lookup _ _ := Err (ARecordNotFound []); dnssec_available := true; plain_mx _ _ := Err (AOther []);
  mx_cache _ _ := None; dnssec_mx _ _ := Ok []; tlsa_cache _ _ := None; dnssec_tlsa _ _ := Ok [];
  sts_record _ _ := Ok [8]; sts_cache _ _ := cached; sts_fetch _ _ _ := Err (MkHttpError true false false); utf8_error _ := [];
  parse_certificate b := Some (MkCert b [] []); sha256 b := b; sha512 b := b; der_value b := Some b;
  Anchor := list Z; anchor_of_certificate := Some; anchor_of_key x _ := x; end_entity_cert _ := true;
  verify_for_usage _ _ _ _ := false; valid_for_name _ _ := true |}.

(** A resolver that fails for IPv4 and knows no IPv6 address: the message is
    returned for good. *)
Lemma transient_lookup_bounces :
  @resolve_host (failing (Err (AResolver s#"timeout")) None) [] (HopMx false s#"mx.ok." (MkMxConfig 5 2 Ipv4thenIpv6) Insecure) s#"mx.ok" =
  Err (PermanentFailure (MkError s#"mx.ok" (ConnectionError s#"record not found for MX"))).
Proof. vm_compute. reflexivity. Qed.

(** A policy that is cached, and enforced, is not used while its successor
    cannot be fetched. *)
Lemma cached_policy_ignored : exists p, mode p = Enforce /\
  @lookup_mta_sts_policy demo_crates (failing (Ok []) (Some p)) [] s#"ok" 1 = Err (StsHttp (MkHttpError true false false)).
Proof. exists (MkPolicy [7] Enforce [MxEquals s#"mx.ok"] 86400). vm_compute. auto. Qed.
